(* ===== verification/_CoqProject ===== *)
-Q . S2P
Prelude.v
Bits.v
BitIO.v
Codec.v
CodecDelta.v
CodecGCD.v
CodecDoubleDelta.v
CodecGorilla.v
CodecFPC.v
CodecT64.v
CodecMultiple.v
CodecFactory.v
Buffers.v
CompressedStream.v
CompressedStreamFacts.v
CodecStreams.v
Itoa.v
IntText.v
VarInt.v
ReadHelpers.v
Orders.v
PartInfo.v
PartInfoFacts.v
ActiveDataPartSet.v
ActiveDataPartSetFacts.v
FindSymbols.v
Lexer.v
LexerFacts.v
TextReaders.v
TextReadersFacts.v
TextWriters.v
TextRoundtrips.v
LexerLiterals.v
Granularity.v
GranularityFacts.v
AltersSequence.v
HashGrowers.v
HashTable.v
HashTableFacts.v
HashTableSpec.v
Range.v
RangeFacts.v
KeyCondition.v
KeyConditionFacts.v
KeyRangeFacts.v
SetIndexFacts.v
MarkSelection.v
MarkSelectionFacts.v
PartSelectionFacts.v
CachePolicy.v
CacheFacts.v
LRUFacts.v
SLRUFacts.v
CacheBase.v
CacheBaseFacts.v
CacheBaseRuns.v
CompressionTheorems.v
TextTheorems.v
StorageTheorems.v
MarksTheorems.v
FormatTheorems.v
HashTheorems.v
IndexTheorems.v
LexerTheorems.v
CacheTheorems.v
CacheBaseTheorems.v
