(* ===== verification/Prelude.v ===== *)
(** * Verification of the chDB / ClickHouse storage core

    chDB runs the ClickHouse engine in process.  This development models, in
    Rocq, parts of the engine through which every stored byte and every part
    name passes, and proves what makes them correct.  All paths below are
    relative to [src/src/] unless they start with [base/].

    ** The program's parts and how they interact

    - A column is written through a [WriteBuffer]; [CompressedWriteBuffer]
      collects blocks, compresses each with an [ICompressionCodec] or a chain
      of them chosen by [CompressionCodecFactory], and appends frames of a
      CityHash checksum, a header and the data.  [CompressedReadBuffer] reads
      the frames back, finds the codec by the method byte and decompresses.
    - The codecs transform arrays of fixed-width values; several use a bit
      level reader and writer.
    - A table is a set of data parts.  [MergeTreePartInfo] describes a part (its
      partition, its range of blocks, its level and mutation), converts it to
      the directory name and back, and says when one part covers another.
      [ActiveDataPartSet] keeps the parts that are not covered.  Names are
      written with [itoa] and read with [readIntText]; the binary form uses
      variable-length integers.
    - The rows of a part are counted in marks by an index granularity; the
      alters of a replicated table run in the order their sequence allows.
    - Values enter and leave as text: TSV, CSV, JSON and quoted strings, which
      the readers scan with a vectorised search for symbols.
    - Aggregation, joins, sets and dictionaries keep their keys in hash tables
      with open addressing, which grow, merge and are written to disk.
    - A query's filter becomes a condition on the columns of the primary key in
      reverse Polish notation ([KeyCondition]); it is checked on ranges of keys,
      which are unions of hyperrectangles of [Range]s, with sets of tuples behind
      a [MergeTreeSetIndex].  [markRangesFromPKRange] asks it about ranges of
      marks, with the primary index in memory, and gives the marks to read.
    - The text of a query becomes tokens, which the parser takes from a lazy
      stream; string literals among them are read with the readers of text.
    - Marks, uncompressed blocks, query results and much else are kept in caches
      shared by threads ([CacheBase]), whose policy, LRU or SLRU, chooses what
      to give up.

    ** Files

    - [Prelude]: outcomes of C++ code (a value, an exception with its code, or
      undefined behaviour) and their monad, machine integers with explicit
      wrap-around, little-endian memory, arrays, and the shared tactics.
    - [Bits], [BitIO]: bit lists; [Common/BitHelpers.h]; [BitReader] and
      [BitWriter] of [IO/BitHelpers.h] with their 128-bit buffer.
    - [Codec]: [ICompressionCodec] as a record of operations with its laws,
      the block header, [compress]/[decompress], codec NONE.
    - [CodecDelta], [CodecGCD], [CodecDoubleDelta], [CodecGorilla],
      [CodecFPC], [CodecT64], [CodecMultiple]: one codec of
      [Compression/CompressionCodec*.cpp] each, in a module of its name.
    - [CodecFactory]: the registrations and builders and
      [CompressionFactory.cpp], [CompressionFactoryAdditions.cpp].
    - [Buffers]: [IO/ReadBuffer.h], [IO/WriteBuffer.h] with [nextImpl] as an
      interface (type classes), [IO/BufferWithOwnMemory.h].
    - [CompressedStream], [CompressedStreamFacts], [CodecStreams]:
      [Compression/CompressedReadBufferBase.cpp], [CompressedReadBuffer.cpp],
      [CompressedWriteBuffer.cpp] and their instances.
    - [Itoa]: [base/base/itoa.cpp] and [IO/WriteIntText.h]; [IntText]:
      [IO/readIntText.h]; [VarInt]: [IO/VarInt.h]; [ReadHelpers]: the helpers
      of [IO/ReadHelpers.h], [IO/WriteHelpers.h] and [Common/StringUtils.h]
      that parts use.
    - [Orders]: three-way comparison ([TotalOrder]) and [std::map] as a sorted
      list of entries with iterators as places in it.
    - [PartInfo], [PartInfoFacts]: [Storages/MergeTree/MergeTreePartInfo.h] and
      [.cpp], with [DetachedPartInfo] and the partition identifiers of patches.
    - [ActiveDataPartSet], [ActiveDataPartSetFacts]:
      [Storages/MergeTree/ActiveDataPartSet.h] and [.cpp].
    - [FindSymbols]: [base/base/find_symbols.h].
    - [Lexer]: [Parsers/Lexer.h] and [.cpp], with the tests of bytes it uses of
      [Common/StringUtils.h] and [Common/UTF8Helpers.h], and the stream of tokens
      and the check of parentheses of [Parsers/TokenIterator.h] and [.cpp];
      [LexerFacts]: every token is within the query and the stream is a list;
      [LexerLiterals]: literals in quotes against the readers and writers.
    - [CachePolicy]: [Common/ICachePolicy.h] as an interface,
      [Common/LRUCachePolicy.h] and [Common/SLRUCachePolicy.h]; [CacheFacts]:
      what a cache promises ([CachePolicyLaws]) and a map that may forget;
      [LRUFacts], [SLRUFacts]: the policies as one or two lists of entries in
      the order of use, which discharge the promises.
    - [CacheBase]: [Common/CacheBase.h] over any policy, with [getOrSet] as steps
      of threads; [CacheBaseFacts]: the invariant of tokens, mutexes and
      reference counts; [CacheBaseRuns]: that every step keeps it, and progress.
    - [TextReaders], [TextWriters]: the text formats of [IO/ReadHelpers.cpp] and
      [IO/WriteHelpers.h]; [TextReadersFacts]: the laws of a buffer and the
      relation that makes readers independent of its sizes; [TextRoundtrips]:
      what is written is read.
    - [Granularity], [GranularityFacts]: [Storages/MergeTree/MarkRange.h] and the
      index granularity interface with its two implementations
      ([MergeTreeIndexGranularity*.h], [.cpp]), and the laws they share.
    - [AltersSequence]: [Storages/MergeTree/ReplicatedMergeTreeAltersSequence.h]
      and [.cpp] as a transition system.
    - [HashGrowers]: the growers and cells of [Common/HashTable/HashTable.h] and
      [HashMap.h] with the laws a table needs; [HashTable]: every operation of
      the table on its buffer; [HashTableFacts]: the ring of places, probing,
      the loops of [erase] and [resize]; [HashTableSpec]: the invariant, the
      contents as a finite map and what each operation does to them.
    - [Range], [RangeFacts]: [Core/Range.h] and [.cpp] over an interface for the
      values of a column, the fields a range holds, and the instance of integers
      and strings.
    - [KeyCondition]: [Storages/MergeTree/BoolMask.h], [KeyCondition.h] and [.cpp]
      and [MergeTreeSetIndex] of [Interpreters/Set.h] and [.cpp];
      [KeyConditionFacts], [KeyRangeFacts], [SetIndexFacts]: the truth of a
      condition on a row in three-valued logic, and what a mask says about it on
      a hyperrectangle, on a range of keys and for a set.
    - [MarkSelection]: [markRangesFromPKRange] of
      [Storages/MergeTree/MergeTreeDataSelectExecutor.cpp]; [MarkSelectionFacts]:
      its two searches over any monotone check; [PartSelectionFacts]: sorted
      parts, and what is selected in them.
    - [CompressionTheorems], [TextTheorems], [StorageTheorems], [MarksTheorems],
      [FormatTheorems], [HashTheorems], [IndexTheorems], [LexerTheorems],
      [CacheTheorems], [CacheBaseTheorems]: the properties, numbered C1 to C40.

    State is passed explicitly: a buffer is a record of its window, position
    and flags; a stream adds what is left of its source; the part set is the
    list of the map's entries.  Threads are places in their calls, and a step of
    the system is a step of one of them.  A method that changes an object and may throw
    returns both the outcome and the object it leaves behind.

    ** What the theorems show

    - Streams: what is written is read, for any requests and division of the
      input, with the codecs NONE, Delta, DoubleDelta, Gorilla, T64 and FPC and
      write buffers of up to 256 MiB, 128 MiB for DoubleDelta and Gorilla (C1);
      reading a frame refines reading from a flat string (C5); with checksums
      enabled only frames with the right one are accepted (C8); [readBig] equals
      [read] (C15); a write buffer that failed is empty and, unless the
      exception was [CurrentBufferExhausted], canceled and inert (C13);
      unnumbered, a flipped bit is diagnosed, and an example of size estimates
      that wrap at 256 MiB.
    - Codecs: round trips within the announced size (C9, C31 to C35), safety on
      arbitrary input of NONE, Delta, DoubleDelta, FPC and T64, and of GCD but
      for values of two bytes (C12); unnumbered, the codecs Delta and GCD, the factory,
      the bit stream, the sanity check of chains, the predictors and the
      transposition.
    - Parts: the set refines an abstract set of disjoint parts (C2), keeps its
      invariant in every reachable state (C6), and its local walks decide
      properties of the whole set (C14); names round trip and parsing is
      sound (C11, C36); unnumbered, the covered parts, the binary form,
      [contains] as a partial order, the check of intersections and the coverage
      of a block range.
    - Index analysis: no row on which the conditions of a query are true is in a
      mark that is dropped (C3), and on the ranges reported as exact none is
      false (C10), for ascending parts and for the marks of descending parts
      that end at a mark of the index (all with a final mark, all but the last
      without); a mask about a range of keys is right for every row in it (C7),
      as is that of a set, for its answer that [NOT IN] is false when elements
      and key columns are mapped one to one (C17); ranges are sets of fields,
      and the tests of intersection and inclusion are exact for closed ones
      (C18); unnumbered, the atoms of comparisons, and examples of rows that are lost
      with keys of mixed directions or without a final mark.
    - Hash tables: any sequence of operations refines a finite map (C4); an
      exception leaves the contents as they were (C16); unnumbered, what is
      written is read, [reserve] makes room and merging combines the maps.
    - Queries: the tokens cover the query without gaps (C19); the lazy stream is
      the list of tokens whatever is asked of it (C23); the check of parentheses
      is exact (C28); the lexer and the reader of strings agree on where a
      literal ends when it has no hexadecimal escape and, for the reader without
      SQL style quoting, no doubled quote (C27); unnumbered, a string in
      quotes as it is written is one token.
    - Caches: both policies refine a map that forgets only what does not fit,
      within their limits and with true metrics (C20); LRU is a list in the
      order of use (C24); a scan does not push protected entries out of SLRU
      (C25); in a cache shared by threads one thread at a time loads a key (C21),
      and calls return what was loaded or set for the key, come to an end without
      a deadlock and leave no token behind (C22); examples show how [clear] and
      null values break the first of these.
    - Numbers: [itoa] gives the decimal text for 8 to 256 bits (C37),
      [readIntText] agrees with a reference (C38); unnumbered, the reduction of
      256-bit numbers ends, and variable-length integers round trip.
    - Text: on any bytes the readers, but for the two that support CRLF,
      terminate, stay in their buffers and do not depend on the sizes of buffers
      (C26); strings round trip in JSON and CSV
      (C29, C30); the vectorised searches find what a loop over the bytes finds
      (C39); unnumbered, TSV and quotes, and raw fields are copied exactly.
    - Alters: after any history the sequence holds exactly the alters with
      pending stages, of which it lets run the metadata stage of the oldest
      alter and the data stages whose metadata are changed and no others, and
      can be drained by stages it lets run (C40).
    - Marks, unnumbered: replacing partial sums by a constant granularity changes
      no answer, rows added through the interface, marks recovered from the
      number of rows, and bounds of computed granularities.

    ** Parameters, bounds and fuel

    CityHash128, boost's gcd, libdivide, the general purpose codecs, the
    calendar of [DateLUT], and of a hash table its hash function, the logarithm
    of [libm], the allocator's limit and the binary form of keys are arguments;
    so are the functions a condition applies to a key column, with the
    monotonicity they announce, the values of columns, totally ordered (no
    NaN), the weights of the values of a cache and its [load_func];
    the hypotheses on them are the documented ones, and the witnesses
    instantiate them.  Loops over a buffer recurse on it.  Fuel appears where a loop counts otherwise, and always with
    a lemma that it suffices: the length of the source for [loadArray], ten
    groups for a 64-bit variable-length integer, three rounds for a 256-bit
    number, the number of bytes for the loops of the streams, the number of
    places of a hash table and one more for its probes and for [erase], the
    columns of the key and one more for the hyperrectangles of a range of keys,
    twice the marks of a range for the exclusion search and the distance of the
    borders for the binary search, the bytes of the query and one more for the
    loops of the lexer, and for a lookup in the stream of tokens the bytes that
    are left, the index and one.  The sizes of caches are below 2^62, where the
    sums of weights do not wrap; a protected part of SLRU that [double] makes
    larger than the cache is excluded by a test of the ratio.
    The text readers take their fuel as an argument: more than the bytes left is enough.  The
    size limits in the codec theorems are those below which the 32-bit sizes of
    the block header and of the estimates do not wrap.

    ** Not modelled

    Floating-point codec ALP; the wrappers of LZ4, ZSTD and OpenSSL; seeking,
    prefetching and diagnostics of buffers; validation of codecs against nested
    column types; the text of messages and logs; the productions of the parser,
    the planner, the cache policy with expiring entries and quotas of users,
    functions, the prefetching iterators and the text form of hash tables and
    their variants of fixed size or with precomputed sizes, the construction of
    conditions from a query, their patterns of strings, space-filling curves,
    polygons and bloom filters, skip indexes, the cache of function results in an
    index block, file and
    network input and output, the rest of replication, and the Python and C bindings.
    Reading buffers of [IntText], [VarInt] and [ReadHelpers] hold all their
    data, as [ReadBufferFromString] does; those of [TextReaders] are any read
    buffer but a [PeekableReadBuffer], so delimiters of several characters and
    fields that are parsed twice are left out, as are dates, UUIDs and numbers
    with a fraction.

    ** Plan

    Next: [TTLCachePolicy] behind the same promises, a cleanup of insert tokens
    that keeps one load at a time when the cache is cleared, plain ranges of a condition, ranges of drop operations, selection of parts to merge, [MarkRanges]
    and their serialization, [PeekableReadBuffer] with the readers that need it,
    skipping of JSON values, dates and UUIDs. *)

From stdpp Require Import prelude.
From Stdlib Require Import ZArith Lia.

#[global] Open Scope Z_scope.

(** ** Outcomes of C++ code

    A call either returns a value, throws a [DB::Exception] carrying one of
    the codes of [src/Common/ErrorCodes.cpp], or executes an operation whose
    behaviour the C++ standard leaves undefined (a shift by at least the
    width of its operand, a read outside its buffer).  Two exceptions are not of
    that class: [STD_EXCEPTION] stands for those of the standard library and
    [CURRENT_BUFFER_EXHAUSTED] for [WriteBuffer::CurrentBufferExhausted]. *)
Inductive ErrorCode : Set :=
| CANNOT_COMPRESS
| CANNOT_DECOMPRESS
| CORRUPTED_DATA
| LOGICAL_ERROR
| INCORRECT_DATA
| BAD_ARGUMENTS
| ATTEMPT_TO_READ_AFTER_EOF
| CANNOT_WRITE_AFTER_END_OF_BUFFER
| CANNOT_READ_ALL_DATA
| CHECKSUM_DOESNT_MATCH
| TOO_LARGE_SIZE_COMPRESSED
| UNKNOWN_CODEC
| UNEXPECTED_AST_STRUCTURE
| DATA_TYPE_CANNOT_HAVE_ARGUMENTS
| ILLEGAL_SYNTAX_FOR_CODEC_TYPE
| ILLEGAL_CODEC_PARAMETER
| BAD_GET
| OPENSSL_ERROR
| DUPLICATE_DATA_PART
| BAD_DATA_PART_NAME
| CANNOT_READ_FROM_BUFFER
| CANNOT_READ_FROM_FILE_DESCRIPTOR
| CANNOT_WRITE_AFTER_BUFFER_CANCELED
| CANNOT_PARSE_NUMBER
| TOO_LARGE_STRING_SIZE
| UNKNOWN_FORMAT_VERSION
| INVALID_PARTITION_VALUE
| CANNOT_PARSE_INPUT_ASSERTION_FAILED
| STD_EXCEPTION
| CANNOT_PARSE_ESCAPE_SEQUENCE
| CANNOT_PARSE_QUOTED_STRING
| CANNOT_ALLOCATE_MEMORY
| TOO_LARGE_ARRAY_SIZE
| NO_AVAILABLE_DATA
| ARGUMENT_OUT_OF_BOUND
| CURRENT_BUFFER_EXHAUSTED.

#[export] Instance ErrorCode_eq_dec : EqDecision ErrorCode.
Proof. solve_decision. Defined.

Inductive outcome (A : Type) : Type :=
| Ok (a : A)
| Throw (e : ErrorCode)
| Undef.
Arguments Ok {A} a.
Arguments Throw {A} e.
Arguments Undef {A}.

#[export] Instance outcome_ret : MRet outcome := fun A a => Ok a.
#[export] Instance outcome_bind : MBind outcome := fun A B f m =>
  match m with
  | Ok a => f a
  | Throw e => Throw e
  | Undef => Undef
  end.

(** [require b e]: the guard [if (!b) throw Exception(e)]. *)
Definition require (b : bool) (e : ErrorCode) : outcome unit :=
  if b then Ok tt else Throw e.

(** [defined b]: the operation that follows is defined only when [b]. *)
Definition defined (b : bool) : outcome unit :=
  if b then Ok tt else Undef.

Definition is_undef {A} (m : outcome A) : bool :=
  match m with Undef => true | _ => false end.

Section outcome_lemmas.
  Context {A B : Type}.

Lemma bind_Ok_inv (m : outcome A) (f : A -> outcome B) (b : B) :
    m ≫= f = Ok b <-> exists a, m = Ok a /\ f a = Ok b.
  Proof.
    destruct m as [a|e|]; cbn; (split; [intros; simplify_eq; eauto|intros (x & ? & ?); simplify_eq; done]).
  Qed.

Lemma bind_not_undef (m : outcome A) (f : A -> outcome B) :
    m <> Undef -> (forall a, m = Ok a -> f a <> Undef) -> m ≫= f <> Undef.
  Proof. destruct m as [a|e|]; cbn; [eauto|congruence|congruence]. Qed.
End outcome_lemmas.

(** A loop that collects results: it returns when each step does, one result for each element. *)
Lemma mapM_Ok {A B} (f : A -> outcome B) (l : list A) :
  (forall x, x ∈ l -> exists y, f x = Ok y) ->
  exists k, mapM f l = Ok k /\ Forall2 (fun x y => f x = Ok y) l k.
Proof.
  induction l as [|x l IH]; intros Hf; [by exists []|]. destruct (Hf x ltac:(by left)) as [y Hy].
  destruct IH as (k & Hk & Hall); [intros z Hz; apply Hf; by right|]. exists (y :: k). split; [|by constructor].
  transitivity (f x ≫= fun y => mapM f l ≫= fun k => Ok (y :: k)); [done|]. rewrite Hy. cbn [mbind outcome_bind]. by rewrite Hk.
Qed.

Lemma defined_true b : b = true -> defined b = Ok tt.
Proof. by intros ->. Qed.

Lemma require_true b e : b = true -> require b e = Ok tt.
Proof. by intros ->. Qed.

Lemma bind_defined {A} b (f : unit -> outcome A) : b = true -> (defined b ≫= f) = f tt.
Proof. by intros ->. Qed.

Lemma bind_require {A} b e (f : unit -> outcome A) : b = true -> (require b e ≫= f) = f tt.
Proof. by intros ->. Qed.

Lemma require_false b e : b = false -> require b e = Throw e.
Proof. by intros ->. Qed.

Lemma require_not_undef b e : require b e <> Undef.
Proof. by destruct b. Qed.

(** ** Machine integers

    A [w]-bit unsigned value is a [Z]; every arithmetic operation of the
    source that can overflow is followed by [wrap w]. *)
Definition wrap (w x : Z) : Z := x mod 2 ^ w.

Definition uint (w x : Z) : Prop := 0 <= x < 2 ^ w.

(** [static_cast<IntN>] of an unsigned N-bit value (two's complement). *)
Definition to_signed (w x : Z) : Z :=
  if x <? 2 ^ (w - 1) then x else x - 2 ^ w.

Abbreviation bytes := (list Z).
Abbreviation byte_ok := (uint 8).
Abbreviation bytes_ok := (Forall (uint 8)).
Abbreviation blen l := (Z.of_nat (length l)).

Lemma wrap_uint w x : 0 <= w -> uint w (wrap w x).
Proof. intros. apply Z.mod_pos_bound, Z.pow_pos_nonneg; lia. Qed.

Lemma wrap_id w x : uint w x -> wrap w x = x.
Proof. apply Z.mod_small. Qed.

Lemma wrap_add_l w x y : wrap w (wrap w x + y) = wrap w (x + y).
Proof. apply Zplus_mod_idemp_l. Qed.

Lemma wrap_add_r w x y : wrap w (x + wrap w y) = wrap w (x + y).
Proof. apply Zplus_mod_idemp_r. Qed.

Lemma wrap_sub_l w x y : wrap w (wrap w x - y) = wrap w (x - y).
Proof. apply Zminus_mod_idemp_l. Qed.

Lemma wrap_sub_r w x y : wrap w (x - wrap w y) = wrap w (x - y).
Proof. apply Zminus_mod_idemp_r. Qed.

Lemma to_signed_range w x :
  0 < w -> uint w x -> - 2 ^ (w - 1) <= to_signed w x < 2 ^ (w - 1).
Proof.
  intros Hw [H0 H1]. unfold to_signed.
  assert (2 ^ w = 2 * 2 ^ (w - 1)) by (rewrite <- Z.pow_succ_r by lia; f_equal; lia).
  destruct (Z.ltb_spec x (2 ^ (w - 1))); lia.
Qed.

Lemma wrap_to_signed w x : uint w x -> wrap w (to_signed w x) = x.
Proof.
  intros H. unfold to_signed, wrap. destruct (_ <? _).
  - by apply Z.mod_small.
  - replace (x - 2 ^ w) with (x + (-1) * 2 ^ w) by lia.
    rewrite Z_mod_plus_full. by apply Z.mod_small.
Qed.

Lemma to_signed_wrap w x : 0 < w -> - 2 ^ (w - 1) <= x < 2 ^ (w - 1) -> to_signed w (wrap w x) = x.
Proof.
  intros Hw Hx. unfold to_signed, wrap.
  assert (2 ^ w = 2 * 2 ^ (w - 1)) as Hp by (rewrite <- Z.pow_succ_r by lia; f_equal; lia).
  destruct (Z.lt_ge_cases x 0).
  - replace (x mod 2 ^ w) with (x + 2 ^ w).
    + destruct (Z.ltb_spec (x + 2 ^ w) (2 ^ (w - 1))); lia.
    + apply (Z.mod_unique _ _ (-1)); lia.
  - rewrite Z.mod_small by lia. destruct (Z.ltb_spec x (2 ^ (w - 1))); lia.
Qed.

(** ** Little-endian loads and stores

    [unalignedLoadLittleEndian] and [unalignedStoreLittleEndian] of
    [base/base/unaligned.h]; the plain [unalignedLoad]/[unalignedStore] are
    the same functions on a little-endian machine. *)
Fixpoint le_load (bs : bytes) : Z :=
  match bs with
  | [] => 0
  | b :: rest => b + 256 * le_load rest
  end.

Fixpoint le_store (n : nat) (v : Z) : bytes :=
  match n with
  | O => []
  | S n => v mod 256 :: le_store n (v / 256)
  end.

Lemma length_le_store n v : length (le_store n v) = n.
Proof. revert v; induction n as [|n IH]; intros v; cbn; auto. Qed.

Lemma le_store_bytes n v : bytes_ok (le_store n v).
Proof.
  revert v; induction n as [|n IH]; intros v; cbn; constructor; auto.
  apply (wrap_uint 8); lia.
Qed.

Lemma pow_bytes_succ n : 2 ^ (8 * Z.of_nat (S n)) = 256 * 2 ^ (8 * Z.of_nat n).
Proof.
  replace (8 * Z.of_nat (S n)) with (8 + 8 * Z.of_nat n) by lia.
  by rewrite Z.pow_add_r by lia.
Qed.

Lemma le_load_store n v : le_load (le_store n v) = wrap (8 * Z.of_nat n) v.
Proof.
  unfold wrap. revert v; induction n as [|n IH]; intros v; cbn [le_store le_load].
  - by rewrite Z.mod_1_r.
  - rewrite IH, pow_bytes_succ, Z.rem_mul_r by lia. lia.
Qed.

Lemma le_load_uint bs : bytes_ok bs -> uint (8 * blen bs) (le_load bs).
Proof.
  unfold uint. induction 1 as [|b bs Hb Hbs IH]; cbn [le_load length].
  - rewrite Z.mul_0_r. cbn. lia.
  - rewrite pow_bytes_succ. unfold uint in Hb. cbn in Hb. lia.
Qed.

Lemma le_store_load bs : bytes_ok bs -> le_store (length bs) (le_load bs) = bs.
Proof.
  induction 1 as [|b bs Hb Hbs IH]; [done|]. unfold uint in Hb; cbn in Hb.
  cbn [length le_store le_load]. f_equal.
  - rewrite Z.mul_comm, Z_mod_plus_full. apply Z.mod_small; lia.
  - rewrite Z.mul_comm, Z.div_add by lia. rewrite Z.div_small by lia. by rewrite Z.add_0_l.
Qed.

Lemma le_store_wrap n v : le_store n (wrap (8 * Z.of_nat n) v) = le_store n v.
Proof.
  rewrite <- (le_load_store n v).
  rewrite <- (length_le_store n v) at 1. apply le_store_load, le_store_bytes.
Qed.

Lemma le_load_store_id n v : uint (8 * Z.of_nat n) v -> le_load (le_store n v) = v.
Proof. intros. rewrite le_load_store. by apply wrap_id. Qed.

Lemma take_le_store n v l : take n (le_store n v ++ l) = le_store n v.
Proof. by rewrite take_app_length' by (by rewrite length_le_store). Qed.

Lemma drop_le_store n v l : drop n (le_store n v ++ l) = l.
Proof. by rewrite drop_app_length' by (by rewrite length_le_store). Qed.

(** ** Arrays of fixed-width values

    A loop [while (source < source_end) { unalignedLoad<T>(source); ...;
    source += sizeof(T); }] visits the values of [loadArray sizeof(T) source];
    the matching store loop writes [storeArray sizeof(T) values]. *)
Fixpoint load_fuel (fuel w : nat) (src : bytes) : list Z :=
  match fuel, src with
  | S fuel, _ :: _ => le_load (take w src) :: load_fuel fuel w (drop w src)
  | _, _ => []
  end.

Definition loadArray (w : nat) (src : bytes) : list Z := load_fuel (length src) w src.

Fixpoint storeArray (w : nat) (vs : list Z) : bytes :=
  match vs with
  | [] => []
  | v :: vs => le_store w v ++ storeArray w vs
  end.

Lemma load_fuel_enough f f' w src :
  (0 < w)%nat -> (length src <= f)%nat -> (length src <= f')%nat ->
  load_fuel f w src = load_fuel f' w src.
Proof.
  intros Hw. revert f' src; induction f as [|f IH]; intros f' src Hf Hf'.
  - destruct src, f'; cbn in *; done || lia.
  - destruct src as [|b src], f' as [|f']; cbn in *; try done; try lia.
    f_equal. apply IH; rewrite length_drop; cbn; lia.
Qed.

Lemma loadArray_app w b src :
  (0 < w)%nat -> length b = w -> loadArray w (b ++ src) = le_load b :: loadArray w src.
Proof.
  intros Hw Hb. unfold loadArray. destruct b as [|x b]; [cbn in *; lia|].
  cbn [length app load_fuel]. f_equal.
  - by rewrite app_comm_cons, take_app_length' by (cbn in *; lia).
  - rewrite app_comm_cons, drop_app_length' by (cbn in *; lia).
    apply load_fuel_enough; [lia| |lia]. rewrite length_app. lia.
Qed.

Lemma loadArray_nil w : loadArray w [] = [].
Proof. done. Qed.

(** Induction over a buffer in steps of [w] bytes. *)
Lemma chunk_ind (w : nat) (P : bytes -> Prop) :
  (0 < w)%nat -> P [] ->
  (forall b src, length b = w -> P src -> P (b ++ src)) ->
  forall src, (length src mod w = 0)%nat -> P src.
Proof.
  intros Hw H0 HS src Hmod.
  apply Nat.Div0.div_exact in Hmod. revert Hmod.
  generalize (length src / w)%nat as k. intros k; revert src.
  induction k as [|k IH]; intros src Hk.
  - destruct src; [done|cbn in Hk; lia].
  - rewrite <- (take_drop w src). apply HS.
    + rewrite length_take. nia.
    + apply IH. rewrite length_drop. nia.
Qed.

Lemma storeArray_loadArray w src :
  (0 < w)%nat -> (length src mod w = 0)%nat -> bytes_ok src ->
  storeArray w (loadArray w src) = src.
Proof.
  intros Hw Hmod. revert src Hmod. refine (chunk_ind w _ Hw _ _); [done|].
  intros b src Hb IH Hok. apply Forall_app in Hok as [Hokb Hoks].
  rewrite loadArray_app by done. cbn. rewrite IH by done. f_equal.
  rewrite <- Hb. by apply le_store_load.
Qed.

Lemma loadArray_storeArray w vs :
  (0 < w)%nat -> Forall (uint (8 * Z.of_nat w)) vs -> loadArray w (storeArray w vs) = vs.
Proof.
  intros Hw. induction 1 as [|v vs Hv Hvs IH]; [done|]. cbn [storeArray].
  rewrite loadArray_app by (done || apply length_le_store).
  rewrite IH. f_equal. by apply le_load_store_id.
Qed.

Lemma loadArray_uint w src :
  (0 < w)%nat -> (length src mod w = 0)%nat -> bytes_ok src ->
  Forall (uint (8 * Z.of_nat w)) (loadArray w src).
Proof.
  intros Hw Hmod. revert src Hmod. refine (chunk_ind w _ Hw _ _).
  - constructor.
  - intros b src Hb IH [Hokb Hoks]%Forall_app. rewrite loadArray_app by done.
    constructor; [|by apply IH]. rewrite <- Hb. by apply le_load_uint.
Qed.

Lemma length_storeArray w vs : length (storeArray w vs) = (w * length vs)%nat.
Proof.
  induction vs as [|v vs IH]; cbn; [lia|]. rewrite length_app, length_le_store, IH. lia.
Qed.

Lemma storeArray_app w vs vs' : storeArray w (vs ++ vs') = storeArray w vs ++ storeArray w vs'.
Proof. induction vs as [|v vs IH]; cbn; [done|]. by rewrite IH, app_assoc. Qed.

Lemma storeArray_bytes w vs : bytes_ok (storeArray w vs).
Proof.
  induction vs as [|v vs IH]; cbn; [constructor|]. apply Forall_app; split; [|done].
  apply le_store_bytes.
Qed.

Lemma length_loadArray w src :
  (0 < w)%nat -> (length src mod w = 0)%nat -> (w * length (loadArray w src) = length src)%nat.
Proof.
  intros Hw Hmod. revert src Hmod. refine (chunk_ind w _ Hw _ _); [cbn; lia|].
  intros b src Hb IH. rewrite loadArray_app by done. cbn [length]. rewrite length_app. lia.
Qed.

(** ** Automation *)
Create HintDb chdb.
#[export] Hint Resolve le_store_bytes storeArray_bytes require_not_undef : chdb.
Create Rewrite HintDb chdb_len.
#[export] Hint Rewrite @length_app @length_le_store @length_storeArray @length_take @length_drop : chdb_len.

(** Splits every successful bind of the context into its steps. *)
Ltac ok_inv :=
  repeat match goal with
  | H : _ ≫= _ = Ok _ |- _ => apply bind_Ok_inv in H as (? & ? & H)
  | H : require ?b _ = Ok _ |- _ => destruct b eqn:?; [clear H|discriminate H]
  | H : defined ?b = Ok _ |- _ => destruct b eqn:?; [clear H|discriminate H]
  | H : Ok _ = Ok _ |- _ => injection H as H
  | H : mret _ = Ok _ |- _ => injection H as H
  end; subst.

(** Decides a boolean guard over [Z] by turning it into arithmetic. *)
Ltac blia :=
  rewrite ?andb_true_iff, ?orb_false_iff, ?negb_true_iff, ?negb_false_iff;
  rewrite ?Z.ltb_lt, ?Z.ltb_ge, ?Z.leb_le, ?Z.leb_gt, ?Z.eqb_eq, ?Z.eqb_neq; lia.

(** Computes lengths in the goal and closes it with [lia]. *)
Ltac len :=
  repeat first [progress autorewrite with chdb_len in * | progress cbn [length] in *];
  first [lia|blia].

(** [lia] with division and remainder by constants. *)
Ltac dlia := zify; Z.to_euclidean_division_equations; lia.

(** The guards that hold in the context. *)
Ltac pass := repeat first [rewrite bind_require by blia|rewrite bind_defined by blia].

Ltac dlen :=
  repeat first [progress autorewrite with chdb_len in * | progress cbn [length] in *]; dlia.

(** Runs the monad's bookkeeping without unfolding anything else. *)
Ltac run := cbn [mbind outcome_bind mret outcome_ret require defined negb andb orb].
