(* ===== verification/Bits.v ===== *)
(** * Bit sequences

    The abstract view shared by the bit-packed codecs: a value as the list of
    its bits, most significant first, and the bit helpers of
    [src/Common/BitHelpers.h]. *)

From stdpp Require Import prelude.
From Stdlib Require Import ZArith Lia.
From S2P Require Import Prelude.

(** ** Values as bit lists, most significant bit first *)
Fixpoint bits_of (n : nat) (v : Z) : list bool :=
  match n with
  | O => []
  | S n => Z.testbit v (Z.of_nat n) :: bits_of n v
  end.

Fixpoint val_of (bs : list bool) : Z :=
  match bs with
  | [] => 0
  | b :: rest => Z.b2z b * 2 ^ blen rest + val_of rest
  end.

(** The bits of a buffer, in the order [BitReader] delivers them. *)
Definition bytes_bits (l : bytes) : list bool := mjoin (bits_of 8 <$> l).

Lemma length_bits_of n v : length (bits_of n v) = n.
Proof. induction n; cbn; auto. Qed.

Lemma val_of_uint bs : uint (blen bs) (val_of bs).
Proof.
  unfold uint. induction bs as [|b bs IH]; cbn [val_of length]; [cbn; lia|].
  rewrite Nat2Z.inj_succ, Z.pow_succ_r by lia. destruct b; cbn [Z.b2z]; lia.
Qed.

Lemma val_bits_of n v : val_of (bits_of n v) = wrap (Z.of_nat n) v.
Proof.
  unfold wrap. induction n as [|n IH]; cbn [bits_of val_of].
  - by rewrite Z.mod_1_r.
  - rewrite IH, length_bits_of, Nat2Z.inj_succ, <- Z.add_1_r, Z.pow_add_r by lia.
    rewrite Z.rem_mul_r by lia. rewrite Z.testbit_spec' by lia. change (2 ^ 1) with 2. lia.
Qed.

Lemma val_bits_of_id n v : uint (Z.of_nat n) v -> val_of (bits_of n v) = v.
Proof. intros. rewrite val_bits_of. by apply wrap_id. Qed.

Lemma bits_of_ext n v v' :
  (forall i, 0 <= i < Z.of_nat n -> Z.testbit v i = Z.testbit v' i) -> bits_of n v = bits_of n v'.
Proof.
  induction n as [|n IH]; intros H; cbn; [done|]. f_equal; [apply H; lia|].
  apply IH; intros; apply H; lia.
Qed.

Lemma bits_of_wrap n m v : Z.of_nat n <= m -> bits_of n (wrap m v) = bits_of n v.
Proof. intros. apply bits_of_ext. intros i Hi. unfold wrap. apply Z.mod_pow2_bits_low. lia. Qed.

(** Concatenation: the high bits of [v] followed by the low [m] bits. *)
Lemma bits_of_app n m v :
  bits_of (n + m) v = bits_of n (Z.shiftr v (Z.of_nat m)) ++ bits_of m v.
Proof.
  induction n as [|n IH]; cbn; [done|]. rewrite IH. f_equal.
  rewrite Z.shiftr_spec by lia. f_equal. lia.
Qed.

Lemma bits_of_pack n m v u :
  uint (Z.of_nat m) u ->
  bits_of (n + m) (v * 2 ^ Z.of_nat m + u) = bits_of n v ++ bits_of m u.
Proof.
  intros [H0 H1]. rewrite bits_of_app. f_equal.
  - rewrite Z.shiftr_div_pow2 by lia. rewrite Z.div_add_l by lia.
    by rewrite Z.div_small, Z.add_0_r by lia.
  - rewrite <- (bits_of_wrap m (Z.of_nat m)) by lia. unfold wrap.
    rewrite Z.add_comm, Z_mod_plus_full, Z.mod_small by lia. done.
Qed.

Lemma bits_of_val bs : bits_of (length bs) (val_of bs) = bs.
Proof.
  induction bs as [|b bs IH]; [done|]. cbn [length val_of].
  change (S (length bs)) with (1 + length bs)%nat.
  rewrite bits_of_pack by apply val_of_uint. rewrite IH. by destruct b.
Qed.

Lemma val_of_app b1 b2 : val_of (b1 ++ b2) = val_of b1 * 2 ^ blen b2 + val_of b2.
Proof.
  induction b1 as [|b b1 IH]; cbn [app val_of]; [lia|].
  rewrite IH, length_app, Nat2Z.inj_add, Z.pow_add_r by lia. lia.
Qed.

Lemma val_of_inj b1 b2 : length b1 = length b2 -> val_of b1 = val_of b2 -> b1 = b2.
Proof. intros Hl Hv. rewrite <- (bits_of_val b1), <- (bits_of_val b2), Hl, Hv. done. Qed.

Lemma bits_of_0 n : bits_of n 0 = replicate n false.
Proof. induction n as [|n IH]; cbn; [done|]. by rewrite Z.testbit_0_l, IH. Qed.

Lemma val_of_zeros n : val_of (replicate n false) = 0.
Proof. rewrite <- bits_of_0, val_bits_of. apply Z.mod_0_l, Z.pow_nonzero; lia. Qed.

Lemma bytes_bits_app l1 l2 : bytes_bits (l1 ++ l2) = bytes_bits l1 ++ bytes_bits l2.
Proof. unfold bytes_bits. by rewrite fmap_app, join_app. Qed.

Lemma bytes_bits_cons b l : bytes_bits (b :: l) = bits_of 8 b ++ bytes_bits l.
Proof. done. Qed.

Lemma length_bytes_bits l : length (bytes_bits l) = (8 * length l)%nat.
Proof.
  induction l as [|b l IH]; [done|]. rewrite bytes_bits_cons, length_app, length_bits_of, IH.
  cbn; lia.
Qed.

Lemma bytes_bits_inj l1 l2 :
  bytes_ok l1 -> bytes_ok l2 -> bytes_bits l1 = bytes_bits l2 -> l1 = l2.
Proof.
  intros H; revert l2; induction H as [|b l1 Hb H IH]; intros l2 H2 Heq.
  - apply (f_equal length) in Heq. rewrite !length_bytes_bits in Heq.
    destruct l2; [done|cbn in Heq; lia].
  - destruct H2 as [|b2 l2 Hb2 H2].
    { apply (f_equal length) in Heq. rewrite !length_bytes_bits in Heq. cbn in Heq; lia. }
    rewrite !bytes_bits_cons in Heq.
    apply app_inj_1 in Heq as [He Hr]; [|by rewrite !length_bits_of].
    apply (f_equal val_of) in He. rewrite !val_bits_of_id in He by done.
    f_equal; auto.
Qed.

(** Big-endian value of a buffer: what [byteswap] of a native load yields. *)
Lemma bits_of_be_store n v :
  bits_of (8 * n) v = bytes_bits (rev (le_store n v)).
Proof.
  revert v; induction n as [|n IH]; intros v; [done|]. cbn [le_store rev].
  rewrite bytes_bits_app, <- IH. replace (8 * S n)%nat with (8 * n + 8)%nat by lia.
  rewrite bits_of_app. f_equal.
  - f_equal. by rewrite Z.shiftr_div_pow2 by lia.
  - cbn -[bits_of Z.modulo]. rewrite app_nil_r. symmetry. apply (bits_of_wrap 8 8). lia.
Qed.

Lemma uint_bits w x : 0 <= w -> uint w x <-> 0 <= x /\ forall i, w <= i -> Z.testbit x i = false.
Proof.
  intros Hw. split.
  - intros Hx. split; [apply Hx|]. intros i Hi. rewrite <- (wrap_id w x) by done.
    unfold wrap. apply Z.mod_pow2_bits_high. lia.
  - intros [H0 Hb]. assert (wrap w x = x) as <-; [|by apply wrap_uint].
    apply Z.bits_inj'. intros i Hi. unfold wrap. destruct (Z.lt_ge_cases i w).
    + by rewrite Z.mod_pow2_bits_low by lia.
    + rewrite Z.mod_pow2_bits_high, Hb by lia. done.
Qed.

Lemma uint_lxor w a b : 0 <= w -> uint w a -> uint w b -> uint w (Z.lxor a b).
Proof.
  intros Hw Ha Hb. apply uint_bits in Ha as [Ha0 Ha], Hb as [Hb0 Hb]; [|done|done].
  apply uint_bits; [done|]. split; [by apply Z.lxor_nonneg|].
  intros i Hi. by rewrite Z.lxor_spec, Ha, Hb by done.
Qed.

Lemma lxor_cancel a b : Z.lxor b (Z.lxor a b) = a.
Proof. by rewrite (Z.lxor_comm a b), <- Z.lxor_assoc, Z.lxor_nilpotent, Z.lxor_0_l. Qed.

(** ** [Common/BitHelpers.h] *)

(** [maskLowBits<UInt64>]. *)
Definition maskLowBits (bits : Z) : Z :=
  if bits =? 0 then 0
  else
    let result := 2 ^ 64 - 1 in
    if bits <? 64 then Z.shiftr result (64 - bits) else result.

(** Number of leading zero bits of the [w]-bit value [x]; the builtin of
    [getLeadingZeroBitsUnsafe] counts at the width of its (promoted) type. *)
Definition getLeadingZeroBits (w x : Z) : Z :=
  if x =? 0 then w else w - 1 - Z.log2 x.

Fixpoint ctz_pos (p : positive) : Z :=
  match p with
  | xO p => 1 + ctz_pos p
  | _ => 0
  end.

Definition getTrailingZeroBits (w x : Z) : Z :=
  match x with
  | Zpos p => ctz_pos p
  | _ => w
  end.

Lemma maskLowBits_ones n : 0 <= n <= 64 -> maskLowBits n = Z.ones n.
Proof.
  intros Hn. unfold maskLowBits. destruct (Z.eqb_spec n 0) as [->|]; [done|].
  change (2 ^ 64 - 1) with (Z.ones 64).
  destruct (Z.ltb_spec n 64).
  - apply Z.bits_inj'. intros i Hi. rewrite Z.shiftr_spec by lia.
    rewrite !Z.testbit_ones_nonneg by lia. lia.
  - by replace n with 64 by lia.
Qed.

Lemma getLeadingZeroBits_bound w x :
  0 < x < 2 ^ w -> 0 <= getLeadingZeroBits w x < w /\ x < 2 ^ (w - getLeadingZeroBits w x).
Proof.
  intros Hx. unfold getLeadingZeroBits. destruct (Z.eqb_spec x 0); [lia|].
  pose proof (Z.log2_nonneg x). pose proof (Z.log2_spec x ltac:(lia)) as [_ H1].
  assert (Z.log2 x < w) by (apply Z.log2_lt_pow2; lia).
  split; [lia|]. replace (w - (w - 1 - Z.log2 x)) with (Z.succ (Z.log2 x)) by lia. done.
Qed.

Lemma ctz_pos_spec p : 0 <= ctz_pos p /\ (2 ^ ctz_pos p | Z.pos p).
Proof.
  induction p as [p IH|p IH|]; cbn [ctz_pos].
  - split; [lia|]. apply Z.divide_1_l.
  - destruct IH as [H0 [k Hk]]. split; [lia|]. exists k.
    rewrite Z.pow_add_r by lia. rewrite Pos2Z.inj_xO, Hk. lia.
  - split; [lia|]. apply Z.divide_1_l.
Qed.

Lemma getTrailingZeroBits_spec w x :
  0 < x -> 0 <= getTrailingZeroBits w x /\ (2 ^ getTrailingZeroBits w x | x).
Proof. intros Hx. destruct x as [|p|p]; try lia. apply ctz_pos_spec. Qed.
