(* ===== verification/BitIO.v ===== *)
(** * Bit-level input and output

    [BitWriter] and [BitReader] of [src/IO/BitHelpers.h]: values of up to 64
    bits packed most significant bit first through a 128-bit buffer.  Both
    are shown to implement an abstract sequence of bits: [writeBits] appends
    to it, [readBits] consumes it. *)

From stdpp Require Import prelude.
From Stdlib Require Import ZArith Lia.
From S2P Require Import Prelude Bits.

(** [std::byteswap] of a [UInt64]. *)
Definition byteswap64 (v : Z) : Z := le_load (rev (le_store 8 v)).

Module BitWriter.
  (** [dest] holds the bytes of [dest_begin .. dest_current), [dest_size] is
      [dest_end - dest_begin]. *)
Record t := Make {
  dest_size : Z;
  dest : bytes;
  bits_buffer : Z;
  bits_count : Z
}.

Definition make (size : Z) : t := Make size [] 0 0.

Definition doFlush (w : t) : outcome t :=
  let available := dest_size w - blen (dest w) in
  let to_write := Z.min 8 (bits_count w / 8) in
  _ ← require (negb (available <? to_write)) CANNOT_WRITE_AFTER_END_OF_BUFFER;
  let tmp_buffer := byteswap64 (wrap 64 (Z.shiftr (bits_buffer w) 64)) in
  Ok (Make (dest_size w)
           (dest w ++ take (Z.to_nat to_write) (le_store 8 tmp_buffer))
           (wrap 128 (Z.shiftl (bits_buffer w) (to_write * 8)))
           (wrap 8 (bits_count w - to_write * 8))).

Definition writeBits (bits_to_write value : Z) (w : t) : outcome t :=
  w ← (if 128 - bits_count w <? bits_to_write then doFlush w else Ok w);
  let capacity := 128 - bits_count w in
  let mask := maskLowBits bits_to_write in
  let v := Z.land value mask in
  let shift := capacity - bits_to_write in
  _ ← defined ((0 <=? shift) && (shift <? 128));
  Ok (Make (dest_size w) (dest w)
           (Z.lor (bits_buffer w) (wrap 128 (Z.shiftl v shift)))
           (wrap 8 (bits_count w + bits_to_write))).

(** [while (bits_count != 0) doFlush();] *)
Fixpoint flush_loop (fuel : nat) (w : t) : outcome t :=
  if bits_count w =? 0 then Ok w
  else match fuel with
       | O => Undef
       | S fuel => w ← doFlush w; flush_loop fuel w
       end.

(** A full buffer holds 16 bytes, so 16 rounds are enough. *)
Definition flush (w : t) : outcome t :=
  flush_loop 16 (Make (dest_size w) (dest w) (bits_buffer w)
                      (wrap 8 (Z.land (bits_count w + 8 - 1) (Z.lnot (8 - 1))))).

Definition count (w : t) : Z := blen (dest w) * 8 + bits_count w.
End BitWriter.

Module BitReader.
  (** [source_rest] holds the bytes of [source_current .. source_end),
      [source_size] is [source_end - source_begin]. *)
Record t := Make {
  source_size : Z;
  source_rest : bytes;
  bits_buffer : Z;
  bits_count : Z
}.

Definition make (source : bytes) : t := Make (blen source) source 0 0.

Definition fillBitBuffer (r : t) : outcome t :=
  let available := blen (source_rest r) in
  let bytes_to_read := Z.min 8 available in
  if available =? 0 then
    if bytes_to_read =? 0 then Ok r else Throw ATTEMPT_TO_READ_AFTER_EOF
  else
    let tmp_buffer := le_load (take (Z.to_nat bytes_to_read) (source_rest r)) in
    let tmp_buffer := byteswap64 tmp_buffer in
    let shift := 64 - bits_count r in
    _ ← defined ((0 <=? shift) && (shift <? 128));
    Ok (Make (source_size r) (drop (Z.to_nat bytes_to_read) (source_rest r))
             (Z.lor (bits_buffer r) (wrap 128 (Z.shiftl tmp_buffer shift)))
             (wrap 8 (bits_count r + bytes_to_read * 8))).

Definition skipBufferedBits (bits : Z) (r : t) : outcome t :=
  _ ← defined (bits <? 128);
  Ok (Make (source_size r) (source_rest r)
           (wrap 128 (Z.shiftl (bits_buffer r) bits))
           (wrap 8 (bits_count r - bits))).

(** [getBitsFromBitBuffer<PEEK>]. *)
Definition peekBits (bits_to_read : Z) (r : t) : outcome Z :=
  let shift := 128 - bits_to_read in
  _ ← defined ((0 <=? shift) && (shift <? 128));
  Ok (wrap 64 (Z.shiftr (bits_buffer r) shift)).

(** [getBitsFromBitBuffer<CONSUME>]. *)
Definition getBits (bits_to_read : Z) (r : t) : outcome (Z * t) :=
  result ← peekBits bits_to_read r;
  r ← skipBufferedBits bits_to_read r;
  Ok (result, r).

Definition readBits (bits_to_read : Z) (r : t) : outcome (Z * t) :=
  r ← (if bits_count r <? bits_to_read then fillBitBuffer r else Ok r);
  getBits bits_to_read r.

Definition peekByte (r : t) : outcome (Z * t) :=
  r ← (if bits_count r <? 8 then fillBitBuffer r else Ok r);
  result ← peekBits 8 r;
  Ok (wrap 8 result, r).

Definition readBit (r : t) : outcome (Z * t) :=
  '(b, r) ← readBits 1 r;
  Ok (wrap 8 b, r).

Definition eof (r : t) : bool :=
  (bits_count r =? 0) && match source_rest r with [] => true | _ => false end.

Definition count (r : t) : Z :=
  (source_size r - blen (source_rest r)) * 8 - bits_count r.

Definition remaining (r : t) : Z := blen (source_rest r) * 8 + bits_count r.
End BitReader.

(** ** The 128-bit buffer as a bit sequence

    [holds buf P]: the top [length P] bits of the buffer are [P], the rest is
    zero. *)
Definition holds (buf : Z) (P : list bool) : Prop :=
  (length P <= 128)%nat /\ buf = val_of P * 2 ^ (128 - blen P).

Lemma lor_disjoint a b k : 0 <= k -> uint k b -> Z.lor (a * 2 ^ k) b = a * 2 ^ k + b.
Proof.
  intros Hk Hb. rewrite <- Z.add_lor_land, Z.add_comm.
  enough (Z.land (a * 2 ^ k) b = 0) as ->; [lia|].
  apply Z.bits_inj'. intros i Hi. rewrite Z.land_spec, Z.bits_0, <- Z.shiftl_mul_pow2 by lia.
  destruct (Z.lt_ge_cases i k).
  - by rewrite Z.shiftl_spec_low.
  - rewrite <- (wrap_id k b) by done. unfold wrap.
    rewrite Z.mod_pow2_bits_high by lia. by rewrite andb_false_r.
Qed.

Lemma holds_nil : holds 0 [].
Proof. split; cbn; lia. Qed.

Lemma holds_zeros buf P k :
  (length P + k <= 128)%nat -> holds buf P <-> holds buf (P ++ replicate k false).
Proof.
  intros Hk. unfold holds. rewrite val_of_app, val_of_zeros, length_app, length_replicate.
  rewrite Z.add_0_r, <- Z.mul_assoc, <- Z.pow_add_r by lia.
  replace (Z.of_nat k + (128 - Z.of_nat (length P + k))) with (128 - blen P) by lia.
  split; intros [? ?]; split; auto; lia.
Qed.

Lemma holds_app buf P n v :
  holds buf P -> (length P + n <= 128)%nat -> uint (Z.of_nat n) v ->
  holds (Z.lor buf (wrap 128 (Z.shiftl v (128 - blen P - Z.of_nat n)))) (P ++ bits_of n v).
Proof.
  intros [Hl ->] Hn Hv. split; [rewrite length_app, length_bits_of; lia|].
  rewrite val_of_app, val_bits_of_id, length_app, length_bits_of by done.
  rewrite Z.shiftl_mul_pow2 by lia.
  assert (2 ^ (128 - blen P) = 2 ^ Z.of_nat n * 2 ^ (128 - blen P - Z.of_nat n)) as Hp
    by (rewrite <- Z.pow_add_r by lia; f_equal; lia).
  assert (uint (128 - blen P) (v * 2 ^ (128 - blen P - Z.of_nat n))) as Hu.
  { unfold uint in *. rewrite Hp. pose proof (Z.pow_pos_nonneg 2 (128 - blen P - Z.of_nat n)). nia. }
  rewrite wrap_id, lor_disjoint; [|lia|done|].
  - rewrite Hp. replace (128 - Z.of_nat (length P + n)) with (128 - blen P - Z.of_nat n) by lia. lia.
  - unfold uint in *. pose proof (Z.pow_le_mono_r 2 (128 - blen P) 128). lia.
Qed.

Lemma holds_drop buf P1 P2 :
  holds buf (P1 ++ P2) -> holds (wrap 128 (Z.shiftl buf (blen P1))) P2.
Proof.
  intros [Hl ->]. rewrite length_app in *. split; [lia|].
  rewrite Z.shiftl_mul_pow2, val_of_app by lia. rewrite <- Z.mul_assoc, <- Z.pow_add_r by lia.
  replace (128 - Z.of_nat (length P1 + length P2) + blen P1) with (128 - blen P2) by lia.
  rewrite Z.mul_add_distr_r, <- Z.mul_assoc, <- Z.pow_add_r by lia.
  replace (blen P2 + (128 - blen P2)) with 128 by lia.
  unfold wrap. rewrite Z.add_comm, Z_mod_plus_full. apply Z.mod_small.
  pose proof (val_of_uint P2) as [? ?]. split; [lia|].
  replace (2 ^ 128) with (2 ^ blen P2 * 2 ^ (128 - blen P2)) by (rewrite <- Z.pow_add_r by lia; f_equal; lia).
  apply Z.mul_lt_mono_pos_r; lia.
Qed.

Lemma holds_peek buf P1 P2 :
  holds buf (P1 ++ P2) -> Z.shiftr buf (128 - blen P1) = val_of P1.
Proof.
  intros [Hl ->]. rewrite length_app in *. rewrite val_of_app.
  rewrite Z.shiftr_div_pow2 by lia.
  replace (128 - blen P1) with (blen P2 + (128 - Z.of_nat (length P1 + length P2))) by lia.
  rewrite Z.pow_add_r, Z.div_mul_cancel_r by lia.
  pose proof (val_of_uint P2). rewrite Z.div_add_l, Z.div_small by (done || lia). lia.
Qed.

Lemma holds_uint buf P : holds buf P -> uint 128 buf.
Proof.
  intros [Hl ->]. pose proof (val_of_uint P) as [? ?]. split; [lia|].
  replace (2 ^ 128) with (2 ^ blen P * 2 ^ (128 - blen P)) by (rewrite <- Z.pow_add_r by lia; f_equal; lia).
  apply Z.mul_lt_mono_pos_r; lia.
Qed.

Lemma take_bytes_bits n l : bytes_bits (take n l) = take (8 * n) (bytes_bits l).
Proof.
  revert n; induction l as [|b l IH]; intros [|n]; try done.
  cbn [take]. rewrite !bytes_bits_cons, IH.
  rewrite take_app_ge by (rewrite length_bits_of; lia).
  rewrite length_bits_of. do 2 f_equal. lia.
Qed.

Lemma drop_bytes_bits n l : bytes_bits (drop n l) = drop (8 * n) (bytes_bits l).
Proof.
  pose proof (f_equal bytes_bits (take_drop n l)) as H.
  rewrite bytes_bits_app, take_bytes_bits in H.
  rewrite <- (take_drop (8 * n) (bytes_bits l)) in H at 2. by apply app_inv_head in H.
Qed.

Lemma le_store_byteswap64 v : le_store 8 (byteswap64 v) = rev (le_store 8 v).
Proof.
  unfold byteswap64.
  replace 8%nat with (length (rev (le_store 8 v))) at 1 by (rewrite length_rev; apply length_le_store).
  apply le_store_load. apply Forall_rev, le_store_bytes.
Qed.

(** The first [n] bits of [P], completed with zeros. *)
Definition pad (n : nat) (P : list bool) : list bool := take n (P ++ replicate n false).

Lemma length_pad n P : length (pad n P) = n.
Proof. unfold pad. rewrite length_take, length_app, length_replicate. lia. Qed.

Lemma val_of_pad_uint n P : uint (Z.of_nat n) (val_of (pad n P)).
Proof. pose proof (val_of_uint (pad n P)) as H. by rewrite length_pad in H. Qed.

Lemma pad_le n P : (n <= length P)%nat -> pad n P = take n P.
Proof. intros. unfold pad. by rewrite take_app_le by lia. Qed.

Lemma pad_app n P Q : length P = n -> pad n (P ++ Q) = P.
Proof. intros. rewrite pad_le by (rewrite length_app; lia). by apply take_app_length'. Qed.

Lemma take_zeros m k P : (m <= length P + k)%nat -> take m (P ++ replicate k false) = pad m P.
Proof.
  intros Hm. unfold pad. destruct (decide (m <= length P)%nat).
  - by rewrite !take_app_le by lia.
  - rewrite !take_app_ge by lia. f_equal. rewrite !take_replicate. f_equal. lia.
Qed.

Lemma pad_app_ge n P Q : (length P <= n)%nat -> pad n (P ++ Q) = P ++ pad (n - length P) Q.
Proof.
  intros Hn. unfold pad at 1. rewrite <- app_assoc, take_app_ge by lia. f_equal. apply take_zeros. lia.
Qed.

Lemma shiftr_pad n k P : Z.shiftr (val_of (pad (n + k) P)) (Z.of_nat k) = val_of (pad n P).
Proof.
  assert (pad (n + k) P = pad n P ++ drop n (pad (n + k) P)) as ->.
  { rewrite <- (take_drop n (pad (n + k) P)) at 1. f_equal. unfold pad at 1.
    rewrite take_take. replace (n `min` (n + k))%nat with n by lia. apply take_zeros. lia. }
  assert (length (drop n (pad (n + k) P)) = k) as Hk by (rewrite length_drop, length_pad; lia).
  rewrite val_of_app, Hk, Z.shiftr_div_pow2, Z.div_add_l by lia.
  rewrite Z.div_small; [lia|]. pose proof (val_of_uint (drop n (pad (n + k) P))) as H. by rewrite Hk in H.
Qed.

Lemma holds_pad buf P n :
  holds buf P -> (n <= 128)%nat -> Z.shiftr buf (128 - Z.of_nat n) = val_of (pad n P).
Proof.
  intros HP Hn. pose proof HP as [Hl _].
  apply (holds_zeros _ _ (128 - length P)) in HP; [|lia].
  assert (P ++ replicate (128 - length P) false = pad n P ++ drop n (P ++ replicate (128 - length P) false)) as Heq.
  { rewrite <- (take_drop n (P ++ replicate (128 - length P) false)) at 1. f_equal.
    apply take_zeros. lia. }
  rewrite Heq in HP. apply holds_peek in HP. by rewrite length_pad in HP.
Qed.

Module BitWriterFacts.
Import BitWriter.

(** The bits written so far: the flushed bytes, then the pending bits. *)
Definition repr (w : t) (bs : list bool) : Prop :=
  exists P, bs = bytes_bits (dest w) ++ P /\ holds (bits_buffer w) P /\
    bits_count w = blen P /\ bytes_ok (dest w) /\ blen (dest w) <= dest_size w.

Lemma writer_repr_make size : 0 <= size -> repr (make size) [].
Proof. intros. exists []. repeat split; cbn; try lia; constructor. Qed.

Lemma doFlush_ok w bs :
  repr w bs ->
  let tw := Z.min 8 (bits_count w / 8) in
  blen (dest w) + tw <= dest_size w ->
  exists w', doFlush w = Ok w' /\ repr w' bs /\ dest_size w' = dest_size w /\
    bits_count w' = bits_count w - 8 * tw /\ blen (dest w') = blen (dest w) + tw.
Proof.
  intros (P & -> & HP & Hc & Hd & Hs) tw Htw. pose proof HP as [Hl _].
  assert (0 <= tw <= 8 /\ 8 * tw <= blen P) as [Ht0 Ht1].
  { subst tw. rewrite Hc. dlia. }
  set (k := Z.to_nat tw).
  assert (bytes_bits (take k (le_store 8 (byteswap64 (wrap 64 (Z.shiftr (bits_buffer w) 64)))))
          = take (8 * k) P) as Hout.
  { rewrite take_bytes_bits, le_store_byteswap64, <- bits_of_be_store.
    rewrite (bits_of_wrap (8 * 8) 64) by lia.
    change 64 with (128 - Z.of_nat 64) at 1. rewrite (holds_pad _ P) by (done || lia).
    change (8 * 8)%nat with 64%nat. rewrite <- (length_pad 64 P) at 1. rewrite bits_of_val.
    unfold pad. rewrite take_take, take_app_le by lia. f_equal. lia. }
  unfold doFlush. fold tw. fold k.
  destruct (Z.ltb_spec (dest_size w - blen (dest w)) tw); [lia|]. run.
  eexists; split; [reflexivity|]. cbn [dest_size dest bits_count bits_buffer].
  assert (blen (take k (le_store 8 (byteswap64 (wrap 64 (Z.shiftr (bits_buffer w) 64))))) = tw) as Hlen
    by (rewrite length_take, length_le_store; lia).
  split; [|rewrite length_app, Nat2Z.inj_add, Hlen; repeat split; auto].
  - exists (drop (8 * k) P). cbn [dest bits_count bits_buffer dest_size]. repeat split.
    + by rewrite bytes_bits_app, Hout, <- app_assoc, take_drop.
    + rewrite length_drop. lia.
    + rewrite <- (take_drop (8 * k) P) in HP. apply holds_drop in HP as [_ HP].
      rewrite length_take, Nat.min_l in HP by lia.
      by replace (Z.of_nat (8 * k)) with (tw * 8) in HP by lia.
    + rewrite length_drop, wrap_id by (unfold uint; cbn; lia). lia.
    + apply Forall_app; split; [done|]. apply Forall_take, le_store_bytes.
    + rewrite length_app, Nat2Z.inj_add, Hlen. lia.
  - rewrite wrap_id by (unfold uint; cbn; lia). lia.
Qed.

Lemma doFlush_short w :
  dest_size w < blen (dest w) + Z.min 8 (bits_count w / 8) ->
  doFlush w = Throw CANNOT_WRITE_AFTER_END_OF_BUFFER.
Proof. intros H. unfold doFlush. by destruct (Z.ltb_spec (dest_size w - blen (dest w)) (Z.min 8 (bits_count w / 8))); [|lia]. Qed.

Lemma land_mask_low value n : (n <= 64)%nat -> Z.land value (maskLowBits (Z.of_nat n)) = wrap (Z.of_nat n) value.
Proof. intros. rewrite maskLowBits_ones by lia. apply Z.land_ones. lia. Qed.

(** Appending to a writer whose buffer has room. *)
Lemma append_ok n value w bs :
  (n <= 64)%nat -> repr w bs -> bits_count w + Z.of_nat n <= 128 -> 
  repr (Make (dest_size w) (dest w)
    (Z.lor (bits_buffer w) (wrap 128 (Z.shiftl (Z.land value (maskLowBits (Z.of_nat n))) (128 - bits_count w - Z.of_nat n))))
    (wrap 8 (bits_count w + Z.of_nat n))) (bs ++ bits_of n value).
Proof.
  intros Hn (P & -> & HP & Hc & Hd & Hs) Hroom.
  exists (P ++ bits_of n value). cbn [dest bits_count bits_buffer dest_size]. repeat split; auto.
  - by rewrite app_assoc.
  - rewrite length_app, length_bits_of. lia.
  - rewrite land_mask_low, Hc by done. rewrite <- (bits_of_wrap n (Z.of_nat n)) by lia.
    apply holds_app; [done|lia|apply wrap_uint; lia].
  - rewrite length_app, length_bits_of, wrap_id by (unfold uint; cbn; lia). lia.
Qed.

(** [writeBits] appends the [n] low bits of [value], most significant first,
    whenever the destination has room for the bits written before. *)
Lemma writeBits_ok n value w bs :
  (0 < n <= 64)%nat -> repr w bs -> blen bs <= 8 * dest_size w ->
  exists w', writeBits (Z.of_nat n) value w = Ok w' /\
    repr w' (bs ++ bits_of n value) /\ dest_size w' = dest_size w.
Proof.
  intros Hn Hw Hroom. unfold writeBits.
  assert (exists w1, (if 128 - bits_count w <? Z.of_nat n then doFlush w else Ok w) = Ok w1 /\
    repr w1 bs /\ dest_size w1 = dest_size w /\ 0 <= bits_count w1 /\ bits_count w1 + Z.of_nat n <= 128) as
    (w1 & -> & Hw1 & Hsz & Hc0 & Hc1).
  { pose proof Hw as (P & HP & Hholds & Hc & Hd & Hs). pose proof Hholds as [Hl _].
    destruct (Z.ltb_spec (128 - bits_count w) (Z.of_nat n)) as [Hlt|Hge].
    - assert (8 <= bits_count w / 8) by (apply Z.div_le_lower_bound; lia).
      destruct (doFlush_ok w bs Hw) as (w1 & E & Hr & Hsz & Hcnt & Hlen).
      { rewrite HP, length_app, length_bytes_bits in Hroom. lia. }
      exists w1. repeat split; auto; lia.
    - exists w. repeat split; auto; lia. }
  run.
  pass.
  run. eexists; split; [reflexivity|].
  split; [|done]. by apply append_ok; [lia| |].
Qed.

(** Whenever [writeBits] returns, it has appended the bits. *)
Lemma writeBits_repr n value w bs w' :
  (0 < n <= 64)%nat -> repr w bs -> writeBits (Z.of_nat n) value w = Ok w' -> repr w' (bs ++ bits_of n value).
Proof.
  intros Hn Hw. unfold writeBits. pose proof Hw as (P & HP & Hholds & Hc & Hd & Hs). pose proof Hholds as [Hl _].
  destruct (Z.ltb_spec (128 - bits_count w) (Z.of_nat n)) as [Hlt|Hge].
  - assert (8 <= bits_count w / 8) by (apply Z.div_le_lower_bound; lia).
    destruct (decide (blen (dest w) + Z.min 8 (bits_count w / 8) <= dest_size w)); [|rewrite doFlush_short by lia; done].
    destruct (doFlush_ok w bs Hw) as (w1 & -> & Hr & Hsz & Hcnt & Hlen); [lia|]. run. pass. run. intros [= <-].
    apply append_ok; [lia|done|lia].
  - run. pass. run. intros [= <-]. apply append_ok; [lia|done|lia].
Qed.

Lemma flush_loop_ok fuel w bs :
  repr w bs -> (8 | bits_count w) -> bits_count w <= 8 * Z.of_nat fuel ->
  blen bs <= 8 * dest_size w ->
  exists w', flush_loop fuel w = Ok w' /\ repr w' bs /\ dest_size w' = dest_size w /\ bits_count w' = 0.
Proof.
  revert w; induction fuel as [|fuel IH]; intros w Hw [m Hm] Hf Hroom;
    pose proof Hw as (P & HP & Hholds & Hc & Hd & Hs); cbn [flush_loop].
  - replace (bits_count w =? 0) with true by lia. exists w. repeat split; auto; lia.
  - destruct (Z.eqb_spec (bits_count w) 0) as [|Hne]; [exists w; repeat split; auto|].
    destruct (doFlush_ok w bs Hw) as (w1 & -> & Hr & Hsz & Hcnt & Hlen).
    { rewrite HP, length_app, length_bytes_bits in Hroom. dlia. }
    run. destruct (IH w1) as (w2 & E & Hr2 & Hsz2 & Hc2); auto.
    + exists (m - Z.min 8 (bits_count w / 8)). lia.
    + dlia.
    + lia.
    + exists w2. repeat split; auto; congruence.
Qed.

(** Number of zero bits [flush] appends to complete the last byte. *)
Definition padding (n : nat) : nat := Z.to_nat (8 * ((Z.of_nat n + 7) / 8) - Z.of_nat n).

Lemma align_up c : 0 <= c -> Z.land (c + 8 - 1) (Z.lnot (8 - 1)) = 8 * ((c + 7) / 8).
Proof.
  intros. replace (c + 8 - 1) with (c + 7) by lia. replace (8 - 1) with (Z.ones 3) by done.
  rewrite <- Z.ldiff_land, Z.ldiff_ones_r by lia.
  rewrite Z.shiftl_mul_pow2, Z.shiftr_div_pow2 by lia. change (2 ^ 3) with 8. lia.
Qed.

Lemma flush_ok w bs :
  repr w bs -> blen bs <= 8 * dest_size w ->
  exists w', flush w = Ok w' /\ repr w' (bs ++ replicate (padding (length bs)) false) /\
    dest_size w' = dest_size w /\ bits_count w' = 0 /\
    bytes_bits (dest w') = bs ++ replicate (padding (length bs)) false.
Proof.
  intros (P & Hbs & HP & Hc & Hd & Hs) Hroom. pose proof HP as [Hl _].
  assert (padding (length bs) = Z.to_nat (8 * ((blen P + 7) / 8) - blen P)) as Hpad.
  { unfold padding. rewrite Hbs, length_app, length_bytes_bits. f_equal. dlia. }
  assert (0 <= 8 * ((blen P + 7) / 8) - blen P <= 7 /\ 8 * ((blen P + 7) / 8) <= 128) as [Hp1 Hp2] by dlia.
  unfold flush. rewrite Hc, align_up by lia. rewrite wrap_id by (unfold uint; cbn; lia).
  set (w0 := Make _ _ _ _).
  assert (repr w0 (bs ++ replicate (padding (length bs)) false)) as Hw0.
  { exists (P ++ replicate (padding (length bs)) false). cbn [w0 dest bits_count bits_buffer dest_size].
    split; [by rewrite Hbs, app_assoc|]. split; [apply holds_zeros; [lia|done]|].
    rewrite length_app, length_replicate. repeat split; auto; lia. }
  destruct (flush_loop_ok 16 w0 _ Hw0) as (w' & E & Hr & Hsz & Hc').
  - cbn. apply Z.divide_factor_l.
  - cbn; lia.
  - rewrite length_app, length_replicate. cbn.
    rewrite Hbs, length_app, length_bytes_bits in *. dlia.
  - exists w'. repeat split; auto.
    pose proof Hr as (P' & Heq & _ & HcP & _). rewrite Hc' in HcP.
    destruct P'; [|cbn in HcP; lia]. by rewrite app_nil_r in Heq.
Qed.

(** ** Writers as code emitters

    [emits f code]: with room for it, [f] appends [code] to the bit sequence. *)
Definition emits (f : t -> outcome t) (code : list bool) : Prop :=
  forall w bs, repr w bs -> blen bs + blen code <= 8 * dest_size w ->
  exists w', f w = Ok w' /\ repr w' (bs ++ code) /\ dest_size w' = dest_size w.

Lemma emits_writeBits n z value : z = Z.of_nat n -> (0 < n <= 64)%nat -> emits (writeBits z value) (bits_of n value).
Proof. intros -> Hn w bs Hw Hroom. apply writeBits_ok; [done|done|lia]. Qed.

Lemma emits_ret : emits Ok [].
Proof. intros w bs Hw _. exists w. by rewrite app_nil_r. Qed.

Lemma emits_bind f g c1 c2 :
  emits f c1 -> emits g c2 -> emits (fun w => f w ≫= g) (c1 ++ c2).
Proof.
  intros Hf Hg w bs Hw Hroom. rewrite length_app in Hroom.
  destruct (Hf w bs Hw) as (w1 & -> & Hw1 & Hs1); [lia|]. run.
  destruct (Hg w1 (bs ++ c1) Hw1) as (w2 & -> & Hw2 & Hs2); [rewrite length_app; lia|].
  exists w2. rewrite app_assoc. repeat split; auto. congruence.
Qed.

(** The same for a step that also returns a value. *)
Definition emits_value {A} (f : t -> outcome (A * t)) (a : A) (code : list bool) : Prop :=
  forall w bs, repr w bs -> blen bs + blen code <= 8 * dest_size w ->
  exists w', f w = Ok (a, w') /\ repr w' (bs ++ code) /\ dest_size w' = dest_size w.

Lemma emits_value_ret {A} f (a : A) code :
  emits f code -> emits_value (fun w => w ← f w; Ok (a, w)) a code.
Proof. intros Hf w bs Hw Hroom. destruct (Hf w bs Hw Hroom) as (w1 & -> & ?). eauto. Qed.

Lemma emits_value_seq {A} f g (a : A) c1 c2 :
  emits f c1 -> emits_value g a c2 -> emits_value (fun w => f w ≫= g) a (c1 ++ c2).
Proof.
  intros Hf Hg w bs Hw Hroom. rewrite length_app in Hroom.
  destruct (Hf w bs Hw) as (w1 & -> & Hw1 & Hs1); [lia|]. run.
  destruct (Hg w1 (bs ++ c1) Hw1) as (w2 & -> & Hw2 & Hs2); [rewrite length_app; lia|].
  exists w2. rewrite app_assoc. repeat split; auto. congruence.
Qed.

Lemma emits_value_bind {A} f (g : A -> t -> outcome t) a c1 c2 :
  emits_value f a c1 -> emits (g a) c2 -> emits (fun w => '(a, w) ← f w; g a w) (c1 ++ c2).
Proof.
  intros Hf Hg w bs Hw Hroom. rewrite length_app in Hroom.
  destruct (Hf w bs Hw) as (w1 & -> & Hw1 & Hs1); [lia|]. run.
  destruct (Hg w1 (bs ++ c1) Hw1) as (w2 & -> & Hw2 & Hs2); [rewrite length_app; lia|].
  exists w2. rewrite app_assoc. repeat split; auto. congruence.
Qed.

(** Writing a code into an empty buffer and flushing it: the bytes are the
    code, completed with zeros. *)
Lemma emits_flush f code size :
  emits f code -> blen code <= 8 * size ->
  exists wr, (wr ← f (make size); flush wr) = Ok wr /\
    bytes_ok (dest wr) /\ count wr = 8 * blen (dest wr) /\
    8 * blen (dest wr) <= blen code + 7 /\
    exists tail, bytes_bits (dest wr) = code ++ tail.
Proof.
  intros Hf Hsize. destruct (Hf (make size) []) as (w1 & -> & Hw1 & Hs1);
    [apply writer_repr_make; lia|cbn; lia|]. run. cbn [app dest_size make] in *.
  destruct (flush_ok w1 _ Hw1) as (w2 & -> & Hw2 & Hs2 & Hc2 & Hb2); [lia|].
  exists w2. destruct Hw2 as (P & _ & _ & _ & Hok & _).
  split; [done|]. split; [done|].
  unfold count. rewrite Hc2. split; [lia|].
  pose proof (f_equal length Hb2) as Hl. rewrite length_bytes_bits, length_app, length_replicate in Hl.
  unfold padding in Hl. split; [dlia|]. eauto.
Qed.

Lemma bind_assoc_flush {A} (m : outcome t) (k : t -> outcome A) :
  (wr ← m; wr ← flush wr; k wr) = (wr ← (wr ← m; flush wr); k wr).
Proof. by destruct m. Qed.

(** After a [writeBits] that failed, [flush] fails too: [~BitWriter] calls it
    while the exception is being propagated. *)
Lemma flush_after_failed_write n value w bs e :
  (0 < n <= 64)%nat -> repr w bs -> writeBits (Z.of_nat n) value w = Throw e ->
  e = CANNOT_WRITE_AFTER_END_OF_BUFFER /\ flush w = Throw CANNOT_WRITE_AFTER_END_OF_BUFFER.
Proof.
  intros Hn Hw. pose proof Hw as (P & Hbs & HP & Hc & Hd & Hs). pose proof HP as [Hl _].
  unfold writeBits. destruct (Z.ltb_spec (128 - bits_count w) (Z.of_nat n)) as [Hlt|Hge]; cycle 1.
  { run. destruct (_ && _); run; intros; discriminate. }
  destruct (decide (blen (dest w) + Z.min 8 (bits_count w / 8) <= dest_size w)) as [Hfit|Hno].
  { destruct (doFlush_ok w bs Hw Hfit) as (w1 & -> & _). run. destruct (_ && _); run; intros; discriminate. }
  rewrite doFlush_short by lia. run. intros [= <-]. split; [done|].
  unfold flush. rewrite Hc, align_up by lia. rewrite wrap_id by (unfold uint; cbn; dlia).
  cbn [flush_loop bits_count]. destruct (Z.eqb_spec (8 * ((blen P + 7) / 8)) 0); [dlia|].
  rewrite doFlush_short; [done|]. cbn. dlia.
Qed.
End BitWriterFacts.

Lemma bytes_bits_zeros n : bytes_bits (replicate n 0) = replicate (8 * n) false.
Proof.
  induction n as [|n IH]; [done|]. cbn [replicate]. rewrite bytes_bits_cons, IH, bits_of_0.
  rewrite <- replicate_add. f_equal. lia.
Qed.

Lemma le_store_short n l :
  bytes_ok l -> (length l <= n)%nat -> le_store n (le_load l) = l ++ replicate (n - length l) 0.
Proof.
  intros Hl. revert n; induction Hl as [|b l Hb Hl IH]; intros n Hn; cbn [le_load].
  - cbn [app length]. rewrite Nat.sub_0_r. clear Hn.
    induction n as [|n IHn]; [done|]. cbn [le_store replicate]. by rewrite Zdiv_0_l, Zmod_0_l, IHn.
  - destruct n as [|n]; [cbn in Hn; lia|]. unfold uint in Hb; cbn in Hb.
    cbn [le_store length app]. f_equal.
    + rewrite Z.mul_comm, Z_mod_plus_full. apply Z.mod_small; lia.
    + rewrite Z.mul_comm, Z.div_add, Z.div_small, Z.add_0_l by lia.
      cbn. apply IH. cbn in Hn. lia.
Qed.

Lemma bits_of_byteswap64 v : bits_of 64 (byteswap64 v) = bytes_bits (le_store 8 v).
Proof.
  change 64%nat with (8 * 8)%nat. by rewrite bits_of_be_store, le_store_byteswap64, rev_involutive.
Qed.

Lemma byteswap64_uint v : uint 64 (byteswap64 v).
Proof.
  unfold byteswap64. replace 64 with (8 * blen (rev (le_store 8 v))) by (rewrite length_rev, length_le_store; lia).
  apply le_load_uint, Forall_rev, le_store_bytes.
Qed.

Module BitReaderFacts.
Import BitReader.

(** The bits still to be read: the buffered ones, then the rest of the source. *)
Definition repr (r : t) (bs : list bool) : Prop :=
  exists P, bs = P ++ bytes_bits (source_rest r) /\ holds (bits_buffer r) P /\
    bits_count r = blen P /\ bytes_ok (source_rest r).

Lemma reader_repr_make src : bytes_ok src -> repr (make src) (bytes_bits src).
Proof. intros. exists []. repeat split; cbn; auto; lia. Qed.

(** [fillBitBuffer] never throws, and moves up to eight bytes into the buffer. *)
Lemma fill_ok r bs :
  repr r bs -> bits_count r <= 64 ->
  exists r', fillBitBuffer r = Ok r' /\ repr r' bs /\ source_size r' = source_size r /\
    (source_rest r' = [] \/ 64 <= bits_count r').
Proof.
  intros (P & -> & HP & Hc & Hr) H64. pose proof HP as [Hl _]. unfold fillBitBuffer.
  destruct (Z.eqb_spec (blen (source_rest r)) 0) as [H0|H0].
  { replace (Z.min 8 (blen (source_rest r)) =? 0) with true by lia.
    destruct (source_rest r) eqn:E; [|cbn in H0; lia].
    exists r. repeat split; auto. exists P. by rewrite E. }
  set (k := Z.to_nat (Z.min 8 (blen (source_rest r)))).
  pass.
  run. eexists; split; [reflexivity|].
  assert (bytes_bits (source_rest r) = bytes_bits (take k (source_rest r)) ++ bytes_bits (drop k (source_rest r))) as Hsplit
    by (by rewrite <- bytes_bits_app, take_drop).
  assert (length (take k (source_rest r)) = k /\ (k <= 8)%nat) as [Hk Hk8] by (rewrite length_take; lia).
  split; [|split; [done|]].
  - exists (P ++ bytes_bits (take k (source_rest r))).
    cbn [bits_buffer bits_count source_rest]. repeat split.
    + by rewrite Hsplit, app_assoc.
    + rewrite length_app, length_bytes_bits, Hk. lia.
    + enough (holds (Z.lor (bits_buffer r) (wrap 128 (byteswap64 (le_load (take k (source_rest r))) ≪ (64 - bits_count r))))
               (P ++ bytes_bits (take k (source_rest r)))) as [_ ?] by done.
      apply (holds_zeros _ _ (8 * (8 - k))); [rewrite length_app, length_bytes_bits; lia|].
      rewrite <- app_assoc, <- bytes_bits_zeros, <- bytes_bits_app.
      assert (take k (source_rest r) ++ replicate (8 - k) 0 = le_store 8 (le_load (take k (source_rest r)))) as ->
        by (by rewrite le_store_short, Hk by (by apply Forall_take || lia)).
      rewrite <- bits_of_byteswap64.
      replace (64 - bits_count r) with (128 - blen P - Z.of_nat 64) by lia.
      apply holds_app; [done|lia|apply byteswap64_uint].
    + rewrite wrap_id, length_app, length_bytes_bits, Hk; [lia|]. unfold uint. cbn. lia.
    + by apply Forall_drop.
  - cbn [source_rest bits_count]. rewrite wrap_id by (unfold uint; cbn; lia).
    destruct (decide (blen (source_rest r) <= 8)).
    + left. apply drop_ge. lia.
    + right. lia.
Qed.

(** Reading [n] buffered-or-available bits yields them and leaves the rest. *)
Lemma refill_ok n r bs :
  (n <= 64)%nat -> repr r bs -> (n <= length bs)%nat ->
  exists r', (if bits_count r <? Z.of_nat n then fillBitBuffer r else Ok r) = Ok r' /\
    repr r' bs /\ source_size r' = source_size r /\ Z.of_nat n <= bits_count r'.
Proof.
  intros Hn Hr Hlen. destruct (Z.ltb_spec (bits_count r) (Z.of_nat n)) as [Hlt|Hge].
  - destruct (fill_ok r bs Hr ltac:(lia)) as (r' & -> & Hr' & Hs & Hor). exists r'. repeat split; auto.
    destruct Hor as [Hnil|]; [|lia]. destruct Hr' as (P & -> & _ & Hc & _).
    rewrite Hnil in Hlen. cbn in Hlen. rewrite app_nil_r in Hlen. lia.
  - exists r. auto.
Qed.

Lemma getBits_ok n r bs :
  (0 < n <= 64)%nat -> repr r bs -> Z.of_nat n <= bits_count r ->
  exists r', getBits (Z.of_nat n) r = Ok (val_of (take n bs), r') /\ repr r' (drop n bs) /\
    source_size r' = source_size r.
Proof.
  intros Hn (P & -> & HP & Hc & Hr) Hcnt. pose proof HP as [Hl _].
  unfold getBits, peekBits, skipBufferedBits.
  pass.
  run. rewrite (holds_pad _ P) by (done || lia). rewrite pad_le by lia.
  rewrite take_app_le, drop_app_le by lia.
  assert (uint 64 (val_of (take n P))) as Hu.
  { pose proof (val_of_uint (take n P)) as Hv. unfold uint in *. rewrite length_take in Hv.
    pose proof (Z.pow_le_mono_r 2 (Z.of_nat (n `min` length P)) 64). lia. }
  rewrite (wrap_id 64) by done. eexists; split; [reflexivity|]. split; [|done].
  exists (drop n P). cbn [bits_buffer bits_count source_rest]. repeat split; auto.
  - rewrite length_drop; lia.
  - rewrite <- (take_drop n P) in HP. apply holds_drop in HP as [_ HP].
    by rewrite length_take, Nat.min_l in HP by lia.
  - rewrite length_drop, wrap_id by (unfold uint; cbn; lia). lia.
Qed.

Lemma readBits_ok n r bs :
  (0 < n <= 64)%nat -> repr r bs -> (n <= length bs)%nat ->
  exists r', readBits (Z.of_nat n) r = Ok (val_of (take n bs), r') /\ repr r' (drop n bs) /\
    source_size r' = source_size r.
Proof.
  intros Hn Hr Hlen. unfold readBits.
  destruct (refill_ok n r bs ltac:(lia) Hr Hlen) as (r1 & -> & Hr1 & Hs1 & Hc1). run.
  destruct (getBits_ok n r1 bs Hn Hr1 Hc1) as (r2 & -> & Hr2 & Hs2). exists r2.
  repeat split; auto. congruence.
Qed.

(** [peekByte] shows the next eight bits, completed with zeros at the end. *)
Lemma peekByte_ok r bs :
  repr r bs ->
  exists r', peekByte r = Ok (val_of (pad 8 bs), r') /\ repr r' bs /\
    source_size r' = source_size r /\ Z.min 8 (blen bs) <= bits_count r'.
Proof.
  intros Hr. unfold peekByte.
  assert (exists r1, (if bits_count r <? 8 then fillBitBuffer r else Ok r) = Ok r1 /\ repr r1 bs /\
    source_size r1 = source_size r /\ Z.min 8 (blen bs) <= bits_count r1 /\
    (source_rest r1 = [] \/ 8 <= bits_count r1)) as (r1 & -> & Hr1 & Hs1 & Hc1 & Hor).
  { destruct (Z.ltb_spec (bits_count r) 8) as [Hlt|Hge].
    - destruct (fill_ok r bs Hr ltac:(lia)) as (r' & -> & Hr' & Hs & Hor). exists r'. repeat split; auto.
      + destruct Hr' as (P & -> & _ & Hc & _). destruct Hor as [Hnil|]; [|lia].
        rewrite Hnil, length_app. cbn. lia.
      + destruct Hor; [auto|right; lia].
    - exists r. repeat split; auto. lia. }
  run. pose proof Hr1 as (P & -> & HP & Hc & _). unfold peekBits. pass. run.
  change (128 - 8) with (128 - Z.of_nat 8). rewrite (holds_pad _ P) by (done || lia).
  assert (pad 8 P = pad 8 (P ++ bytes_bits (source_rest r1))) as ->.
  { destruct Hor as [->|]; [by rewrite app_nil_r|].
    rewrite !pad_le by (rewrite ?length_app; lia). by rewrite take_app_le by lia. }
  assert (uint 8 (val_of (pad 8 (P ++ bytes_bits (source_rest r1))))) as Hu
    by apply (val_of_pad_uint 8).
  run. rewrite (wrap_id 64), (wrap_id 8) by (unfold uint in *; cbn in *; lia).
  eauto 10.
Qed.

Lemma skipBufferedBits_ok n r bs :
  (n <= 127)%nat -> repr r bs -> Z.of_nat n <= bits_count r ->
  exists r', skipBufferedBits (Z.of_nat n) r = Ok r' /\ repr r' (drop n bs) /\
    source_size r' = source_size r.
Proof.
  intros Hn (P & -> & HP & Hc & Hr) Hcnt. pose proof HP as [Hl _]. unfold skipBufferedBits.
  pass. run.
  eexists; split; [reflexivity|]. split; [|done].
  exists (drop n P). cbn [bits_buffer bits_count source_rest]. rewrite drop_app_le by lia. repeat split; auto.
  - rewrite length_drop; lia.
  - rewrite <- (take_drop n P) in HP. apply holds_drop in HP as [_ HP].
    by rewrite length_take, Nat.min_l in HP by lia.
  - rewrite length_drop, wrap_id by (unfold uint; cbn; lia). lia.
Qed.

Lemma eof_spec r bs : repr r bs -> eof r = bool_decide (bs = []).
Proof.
  intros (P & -> & _ & Hc & _). unfold eof. rewrite Hc.
  destruct P as [|b P]; [destruct (source_rest r) as [|x l]; [done|]|];
    (rewrite bool_decide_eq_false_2; [|done]); [done|].
  destruct (Z.eqb_spec (blen (b :: P)) 0); [cbn in *; lia|done].
Qed.

(** ** Readers as code consumers

    [reads f code v]: when the sequence starts with [code], [f] removes it and
    returns [v]. *)
Definition reads {A} (f : t -> outcome (A * t)) (code : list bool) (v : A) : Prop :=
  forall r tail, repr r (code ++ tail) -> exists r', f r = Ok (v, r') /\ repr r' tail.

Lemma reads_readBits z code :
  z = blen code -> (0 < length code <= 64)%nat -> reads (readBits z) code (val_of code).
Proof.
  intros -> Hn r tail Hr.
  destruct (readBits_ok (length code) r (code ++ tail) Hn Hr) as (r' & E & Hr' & _); [rewrite length_app; lia|].
  exists r'. by rewrite take_app_length, drop_app_length in *.
Qed.

Lemma reads_bits_of z n v :
  z = Z.of_nat n -> (0 < n <= 64)%nat -> reads (readBits z) (bits_of n v) (val_of (bits_of n v)).
Proof. intros -> Hn. apply reads_readBits; by rewrite length_bits_of. Qed.

Lemma reads_readBit b : reads readBit [b] (Z.b2z b).
Proof.
  intros r tail Hr. destruct (reads_readBits 1 [b] eq_refl ltac:(cbn; lia) r tail Hr) as (r' & E & Hr').
  exists r'. split; [|done]. unfold readBit. rewrite E. by destruct b.
Qed.

(** On any reader state, also one driven past the end of its source: reads of
    at most 64 bits are defined, and [ATTEMPT_TO_READ_AFTER_EOF] is never thrown. *)
Definition wf (r : t) : Prop := uint 8 (bits_count r).

Lemma fill_wf r : wf r -> bits_count r <= 64 -> exists r', fillBitBuffer r = Ok r' /\ wf r'.
Proof.
  intros [H0 _] H64. unfold fillBitBuffer.
  destruct (Z.eqb_spec (blen (source_rest r)) 0) as [E|E].
  - rewrite E. cbn. exists r. split; [done|]. unfold wf, uint. cbn. lia.
  - replace (0 <=? 64 - bits_count r) with true by (symmetry; apply Z.leb_le; lia).
    pass.
    run. eexists; split; [reflexivity|]. apply (wrap_uint 8). lia.
Qed.

Lemma readBits_wf n r : 0 < n <= 64 -> wf r -> exists v r', readBits n r = Ok (v, r') /\ wf r'.
Proof.
  intros Hn Hr. unfold readBits.
  assert (exists r1, (if bits_count r <? n then fillBitBuffer r else Ok r) = Ok r1 /\ wf r1) as (r1 & -> & Hr1).
  { destruct (Z.ltb_spec (bits_count r) n); [apply fill_wf; [done|lia]|eauto]. }
  run. unfold getBits, peekBits, skipBufferedBits.
  pass.
  run. do 2 eexists; split; [reflexivity|]. apply (wrap_uint 8). lia.
Qed.

Lemma peekByte_wf r : wf r -> exists v r', peekByte r = Ok (v, r') /\ uint 8 v /\ wf r'.
Proof.
  intros Hr. unfold peekByte.
  assert (exists r1, (if bits_count r <? 8 then fillBitBuffer r else Ok r) = Ok r1 /\ wf r1) as (r1 & -> & Hr1).
  { destruct (Z.ltb_spec (bits_count r) 8); [apply fill_wf; [done|lia]|eauto]. }
  run. unfold peekBits. run. do 2 eexists; split; [reflexivity|]. split; [apply (wrap_uint 8); lia|done].
Qed.

Lemma skipBufferedBits_wf n r : n < 128 -> exists r', skipBufferedBits n r = Ok r' /\ wf r'.
Proof.
  intros Hn. unfold skipBufferedBits. pass.
  run. eexists; split; [reflexivity|]. apply (wrap_uint 8). lia.
Qed.
End BitReaderFacts.
