(* ===== verification/Codec.v ===== *)
(** * The codec interface

    [ICompressionCodec] ([src/Compression/ICompressionCodec.h], [.cpp]): a
    codec is the record of its virtual functions; [compress] and [decompress]
    wrap the codec's own data in a block with a nine byte header.  The class
    [CodecPair] states what the block layer and the codec chain rely on: data
    written by one codec object is read back by another, as the objects the
    factory makes for reading know only the method byte. *)

From stdpp Require Import prelude.
From Stdlib Require Import ZArith Lia.
From S2P Require Import Prelude.

(** [CompressionMethodByte]. *)
Inductive CompressionMethodByte : Set :=
| NONE | LZ4 | ZSTD | Multiple | Delta | T64 | DoubleDelta | Gorilla
| AES_128_GCM_SIV | AES_256_GCM_SIV | FPC | GCD | ALP.

Definition methodByte (m : CompressionMethodByte) : Z :=
  match m with
  | NONE => 0x02
  | LZ4 => 0x82
  | ZSTD => 0x90
  | Multiple => 0x91
  | Delta => 0x92
  | T64 => 0x93
  | DoubleDelta => 0x94
  | Gorilla => 0x95
  | AES_128_GCM_SIV => 0x96
  | AES_256_GCM_SIV => 0x97
  | FPC => 0x98
  | GCD => 0x9a
  | ALP => 0x9c
  end.

Definition COMPRESSED_BLOCK_HEADER_SIZE : Z := 9.
Definition DBMS_MAX_COMPRESSED_SIZE : Z := 0x40000000.

(** The virtual functions.  [doCompressData source] is the pair of the bytes
    written to [dest] and the returned size; [doDecompressData
    decompression_error_code source uncompressed_size] likewise, where the
    first argument is the member the caller may have changed. *)
Record ICompressionCodec := {
  getMethodByte : Z;
  getMaxCompressedDataSize : Z -> outcome Z;
  doCompressData : bytes -> outcome (bytes * Z);
  doDecompressData : ErrorCode -> bytes -> Z -> outcome (bytes * Z);
  getAdditionalSizeAtTheEndOfBuffer : Z;
  isCompression : bool;
  isNone : bool;
  isGenericCompression : bool;
  isDeltaCompression : bool;
  isFloatingPointTimeSeriesCodec : bool;
  isEncryption : bool;
  isExperimental : bool;
  decompression_error_code : ErrorCode
}.

(** [setExternalDataFlag]: decompression errors are reported as
    [CANNOT_DECOMPRESS]. *)
Definition setExternalDataFlag (c : ICompressionCodec) : ICompressionCodec := {|
  getMethodByte := getMethodByte c;
  getMaxCompressedDataSize := getMaxCompressedDataSize c;
  doCompressData := doCompressData c;
  doDecompressData := doDecompressData c;
  getAdditionalSizeAtTheEndOfBuffer := getAdditionalSizeAtTheEndOfBuffer c;
  isCompression := isCompression c;
  isNone := isNone c;
  isGenericCompression := isGenericCompression c;
  isDeltaCompression := isDeltaCompression c;
  isFloatingPointTimeSeriesCodec := isFloatingPointTimeSeriesCodec c;
  isEncryption := isEncryption c;
  isExperimental := isExperimental c;
  decompression_error_code := CANNOT_DECOMPRESS
|}.

Definition getCompressedReserveSize (c : ICompressionCodec) (uncompressed_size : Z) : outcome Z :=
  m ← getMaxCompressedDataSize c uncompressed_size;
  Ok (wrap 32 (COMPRESSED_BLOCK_HEADER_SIZE + m)).

Definition compress (c : ICompressionCodec) (source : bytes) : outcome (bytes * Z) :=
  '(data, compressed_bytes_written) ← doCompressData c source;
  Ok ([getMethodByte c]
      ++ le_store 4 (wrap 32 (compressed_bytes_written + COMPRESSED_BLOCK_HEADER_SIZE))
      ++ le_store 4 (blen source)
      ++ data,
      wrap 32 (COMPRESSED_BLOCK_HEADER_SIZE + compressed_bytes_written)).

(** [unalignedLoadLittleEndian<UInt32>(&source[pos])]. *)
Definition loadUInt32 (source : bytes) (pos : nat) : outcome Z :=
  _ ← defined (Nat.leb (pos + 4) (length source));
  Ok (le_load (take 4 (drop pos source))).

Definition readCompressedBlockSize (c : ICompressionCodec) (source : bytes) : outcome Z :=
  n ← loadUInt32 source 1;
  _ ← require (negb (n =? 0)) (decompression_error_code c);
  Ok n.

Definition readDecompressedBlockSize (c : ICompressionCodec) (source : bytes) : outcome Z :=
  n ← loadUInt32 source 5;
  _ ← require (negb (n =? 0)) (decompression_error_code c);
  Ok n.

Definition readMethod (source : bytes) : outcome Z :=
  match source with
  | [] => Undef
  | b :: _ => Ok b
  end.

Definition decompress (c : ICompressionCodec) (source : bytes) : outcome (bytes * Z) :=
  _ ← require (negb (blen source <? COMPRESSED_BLOCK_HEADER_SIZE)) (decompression_error_code c);
  method ← readMethod source;
  _ ← require (method =? getMethodByte c) (decompression_error_code c);
  decompressed_size ← readDecompressedBlockSize c source;
  '(dest, final_decompressed_size) ←
    doDecompressData c (decompression_error_code c) (drop (Z.to_nat COMPRESSED_BLOCK_HEADER_SIZE) source) decompressed_size;
  _ ← require (decompressed_size =? final_decompressed_size) (decompression_error_code c);
  Ok (dest, final_decompressed_size).

(** ** Contracts *)

(** What [enc] writes for the sources in [dom], [dec] reads back; [enc] stays
    within the size it announces and returns the number of bytes written. *)
Class CodecPair (enc dec : ICompressionCodec) (dom : bytes -> Prop) : Prop := {
  pair_method : getMethodByte dec = getMethodByte enc;
  pair_method_ok : byte_ok (getMethodByte enc);
  pair_data : forall src, dom src ->
    exists out m, doCompressData enc src = Ok (out, blen out) /\ bytes_ok out /\
      getMaxCompressedDataSize enc (blen src) = Ok m /\ blen out <= m /\
      forall e, doDecompressData dec e out (blen src) = Ok (src, blen src)
}.

(** A decompressor that is safe on arbitrary input: whatever the bytes are, it
    performs no undefined operation, writes at most [uncompressed_size] bytes
    and returns the number it wrote. *)
Class SafeDecoder (dec : ICompressionCodec) : Prop := {
  safe_data : forall e src n, bytes_ok src -> uint 32 n ->
    match doDecompressData dec e src n with
    | Ok (out, r) => blen out <= n /\ r = blen out
    | Throw _ => True
    | Undef => False
    end
}.

(** A pair does not depend on how errors are reported. *)
#[export] Instance CodecPair_external enc dec dom :
  CodecPair enc dec dom -> CodecPair enc (setExternalDataFlag dec) dom.
Proof. by intros [Hm Hb Hd]. Qed.

(** A pair serves every smaller domain. *)
Lemma CodecPair_weaken enc dec (P Q : bytes -> Prop) :
  CodecPair enc dec P -> (forall src, Q src -> P src) -> CodecPair enc dec Q.
Proof. intros [Hm Hb Hd] HQ. split; auto. Qed.

(** ** [CompressionCodecNone] *)
Definition CompressionCodecNone (err : ErrorCode) : ICompressionCodec := {|
  getMethodByte := methodByte NONE;
  getMaxCompressedDataSize := fun uncompressed_size => Ok uncompressed_size;
  doCompressData := fun source => Ok (source, blen source);
  doDecompressData := fun err source uncompressed_size =>
    _ ← require (blen source =? uncompressed_size) err;
    Ok (source, uncompressed_size);
  getAdditionalSizeAtTheEndOfBuffer := 0;
  isCompression := false;
  isNone := true;
  isGenericCompression := false;
  isDeltaCompression := false;
  isFloatingPointTimeSeriesCodec := false;
  isEncryption := false;
  isExperimental := false;
  decompression_error_code := err
|}.

#[export] Instance None_pair e1 e2 : CodecPair (CompressionCodecNone e1) (CompressionCodecNone e2) bytes_ok.
Proof.
  split; cbn [getMethodByte doCompressData doDecompressData getMaxCompressedDataSize CompressionCodecNone].
  - done.
  - unfold uint. cbn. lia.
  - intros src Hs. exists src, (blen src). split_and!; try done; try lia. intros e. by rewrite Z.eqb_refl.
Qed.

#[export] Instance None_safe e : SafeDecoder (CompressionCodecNone e).
Proof.
  split. intros e0 src n _ _. cbn. destruct (Z.eqb_spec (blen src) n); run; [lia|done].
Qed.

(** ** The block layer *)
Section Block.
  Context (enc dec : ICompressionCodec) (dom : bytes -> Prop) `{!CodecPair enc dec dom}.

  (** The header written by [compress] is the header [decompress] expects. *)
Lemma block_header_read (src data : bytes) n :
    blen src < 2 ^ 32 -> 0 < blen src ->
    decompress dec ([getMethodByte enc] ++ le_store 4 n ++ le_store 4 (blen src) ++ data) =
    '(dest, fin) ← doDecompressData dec (decompression_error_code dec) data (blen src);
    _ ← require (blen src =? fin) (decompression_error_code dec);
    Ok (dest, fin).
  Proof using CodecPair0.
    intros Hlt Hpos. unfold decompress, readDecompressedBlockSize, loadUInt32.
    rewrite require_true by (unfold COMPRESSED_BLOCK_HEADER_SIZE; len). run.
    cbn [readMethod app]. run. rewrite (pair_method (enc := enc) (dec := dec)), require_true by apply Z.eqb_refl. run.
    rewrite defined_true by (apply Nat.leb_le; len). run.
    replace (drop 5 (getMethodByte enc :: le_store 4 n ++ le_store 4 (blen src) ++ data))
      with (le_store 4 (blen src) ++ data).
    2:{ cbn [drop]. by rewrite drop_le_store. }
    rewrite take_le_store.
    rewrite le_load_store_id by (unfold uint; lia).
    rewrite require_true by lia. run.
    change (Z.to_nat COMPRESSED_BLOCK_HEADER_SIZE) with 9%nat.
    replace (drop 9 (getMethodByte enc :: le_store 4 n ++ le_store 4 (blen src) ++ data)) with data; [done|].
    cbn [drop]. rewrite app_assoc. by rewrite drop_app_length' by len.
  Qed.

Lemma block_roundtrip (src : bytes) :
    dom src -> 0 < blen src < 2 ^ 32 ->
    (forall m, getMaxCompressedDataSize enc (blen src) = Ok m -> m + COMPRESSED_BLOCK_HEADER_SIZE < 2 ^ 32) ->
    exists blk reserve, compress enc src = Ok (blk, blen blk) /\ bytes_ok blk /\
      getCompressedReserveSize enc (blen src) = Ok reserve /\ blen blk <= reserve /\
      readCompressedBlockSize dec blk = Ok (blen blk) /\
      decompress dec blk = Ok (src, blen src).
  Proof using CodecPair0.
    intros Hd Hsrc Hmax. destruct (pair_data (enc := enc) (dec := dec) src Hd) as (out & m & Hc & Hok & Hm & Hle & Hdec).
    specialize (Hmax m Hm).
    unfold compress, getCompressedReserveSize. unfold COMPRESSED_BLOCK_HEADER_SIZE in *.
    rewrite Hc, Hm. run.
    assert (wrap 32 (blen out + 9) = blen out + 9) as -> by (apply wrap_id; unfold uint; lia).
    assert (wrap 32 (9 + blen out) = blen out + 9) as -> by (rewrite wrap_id; unfold uint; lia).
    eexists _, _. split; [f_equal; f_equal; len|]. split.
    { apply Forall_app; split; [constructor; [apply (pair_method_ok (enc := enc) (dec := dec))|constructor]|].
      rewrite !Forall_app. auto with chdb. }
    split; [reflexivity|]. split; [rewrite wrap_id by (unfold uint; len); len|].
    split.
    - unfold readCompressedBlockSize, loadUInt32.
      rewrite defined_true by (apply Nat.leb_le; len). run.
      cbn [app]. cbn [drop]. rewrite drop_0, take_le_store.
      rewrite le_load_store_id by (unfold uint; lia). rewrite require_true by lia. run. f_equal. len.
    - rewrite block_header_read by lia. rewrite Hdec. run.
      by rewrite require_true by apply Z.eqb_refl.
  Qed.
End Block.

(** What a successful [decompress] guarantees of an arbitrary block. *)
Lemma decompress_sound dec src dest n :
  decompress dec src = Ok (dest, n) ->
  readMethod src = Ok (getMethodByte dec) /\ readDecompressedBlockSize dec src = Ok n /\ n <> 0.
Proof.
  unfold decompress. intros H. ok_inv. match goal with x : (bytes * Z)%type |- _ => destruct x end. ok_inv. simplify_eq.
  repeat match goal with H : (_ =? _) = true |- _ => apply Z.eqb_eq in H end; subst.
  split; [done|]. split; [done|].
  match goal with H : readDecompressedBlockSize _ _ = Ok _ |- _ => rename H into Hr end.
  unfold readDecompressedBlockSize in Hr. ok_inv. lia.
Qed.
