(* ===== verification/CodecDelta.v ===== *)
(** * The Delta codec

    [src/Compression/CompressionCodecDelta.cpp]: every value is replaced by
    its difference from the previous one, at the width of the type. *)

From stdpp Require Import prelude.
From Stdlib Require Import ZArith Lia.
From S2P Require Import Prelude Codec.

(** ** Shared by the codecs with a two byte header and unaligned leading bytes

    The source is [source_size % bytes_size] bytes copied as they are,
    followed by whole values. *)
Definition bytes_to_skip (source_size bytes_size : Z) : Z := wrap 8 (source_size mod bytes_size).

(** [switch (bytes_size) { case 1: f<UInt8>; case 2: f<UInt16>; case 4:
    f<UInt32>; case 8: f<UInt64>; default: throw Exception(err); }] *)
Definition switch_width {A} (bytes_size : Z) (err : ErrorCode) (f : nat -> outcome A) : outcome A :=
  match bytes_size with
  | 1 => f 1%nat
  | 2 => f 2%nat
  | 4 => f 4%nat
  | 8 => f 8%nat
  | _ => Throw err
  end.

(** The widths the codecs accept. *)
Definition width (w : nat) : Prop := w = 1%nat \/ w = 2%nat \/ w = 4%nat \/ w = 8%nat.

Lemma switch_width_ok {A} w err (f : nat -> outcome A) :
  width w -> switch_width (Z.of_nat w) err f = f w.
Proof. by intros [->|[->|[->| ->]]]. Qed.

Lemma width_bound w : width w -> (0 < w <= 8)%nat.
Proof. unfold width. lia. Qed.

Definition is_width (n : Z) : bool := (n =? 1) || (n =? 2) || (n =? 4) || (n =? 8).

Lemma is_width_spec n : is_width n = true <-> exists w, n = Z.of_nat w /\ width w.
Proof.
  unfold is_width, width. rewrite !orb_true_iff, !Z.eqb_eq. split.
  - intros H. exists (Z.to_nat n). lia.
  - intros (w & -> & H). lia.
Qed.

Section Skip.
  Context (w : nat) (src : bytes) (Hw : (0 < w <= 32)%nat).
Let skip := Z.to_nat (bytes_to_skip (blen src) (Z.of_nat w)).

Lemma skip_eq : bytes_to_skip (blen src) (Z.of_nat w) = Z.of_nat skip /\ (skip < w)%nat /\
    skip = (length src mod w)%nat.
  Proof using Hw.
    unfold skip, bytes_to_skip. rewrite <- Nat2Z.inj_mod.
    pose proof (Nat.mod_upper_bound (length src) w ltac:(lia)).
    rewrite wrap_id by (unfold uint; cbn; lia). lia.
  Qed.

Lemma skip_le : (skip <= length src)%nat.
  Proof using Hw.
    destruct skip_eq as (_ & _ & ->). apply Nat.Div0.mod_le.
  Qed.

Lemma skip_aligned : (length (drop skip src) mod w = 0)%nat.
  Proof using Hw.
    destruct skip_eq as (_ & _ & ->). rewrite length_drop.
    rewrite (Nat.div_mod_eq (length src) w) at 1.
    replace (w * (length src / w) + length src mod w - length src mod w)%nat
      with ((length src / w) * w)%nat by lia.
    apply Nat.Div0.mod_mul.
  Qed.

  (** The framed data: the width, the number of unaligned bytes, those bytes
      and the encoded values; and what a reader finds in it. *)
Definition framed (body : bytes) : bytes := ([Z.of_nat w; Z.of_nat skip] ++ take skip src) ++ body.

Lemma framed_length body : blen (framed body) = 2 + Z.of_nat skip + blen body.
  Proof using Hw. unfold framed. pose proof skip_le. len. Qed.

Lemma framed_bytes body : bytes_ok src -> bytes_ok body -> bytes_ok (framed body).
  Proof using Hw.
    intros Hs Hb. destruct skip_eq as (_ & Hlt & _). unfold framed. rewrite !Forall_app, !Forall_cons.
    unfold uint. cbn. repeat split; try lia; auto using Forall_take.
  Qed.

Lemma framed_head body : take skip (drop 2 (framed body)) = take skip src.
  Proof using Hw.
    pose proof skip_le. unfold framed. cbn [app]. cbn [drop]. rewrite drop_0. by rewrite take_app_length' by len.
  Qed.

Lemma framed_body body : drop (Z.to_nat (2 + Z.of_nat skip)) (framed body) = body.
  Proof using Hw.
    pose proof skip_le. replace (Z.to_nat (2 + Z.of_nat skip)) with (2 + skip)%nat by lia.
    unfold framed. cbn [app]. cbn [drop Nat.add]. by rewrite drop_app_length' by len.
  Qed.

Lemma framed_rest : blen src - Z.of_nat skip = blen (drop skip src).
  Proof using Hw. pose proof skip_le. len. Qed.
End Skip.

(** The values of an aligned buffer. *)
Lemma aligned_values w src :
  width w -> (length src mod w = 0)%nat -> bytes_ok src ->
  blen src mod Z.of_nat w = 0 /\ blen src / Z.of_nat w = blen (loadArray w src) /\
  blen src = Z.of_nat w * blen (loadArray w src) /\
  Forall (uint (8 * Z.of_nat w)) (loadArray w src) /\ storeArray w (loadArray w src) = src.
Proof.
  intros Hw Hmod Hok. pose proof (width_bound w Hw) as Hwb.
  pose proof (length_loadArray w src ltac:(lia) Hmod) as Hl.
  assert (blen src = Z.of_nat w * blen (loadArray w src)) as Hsz by lia.
  repeat split.
  - rewrite <- Nat2Z.inj_mod. lia.
  - rewrite Hsz, Z.mul_comm. apply Z.div_mul. lia.
  - done.
  - apply loadArray_uint; [lia|done|done].
  - apply storeArray_loadArray; [lia|done|done].
Qed.

Lemma skip_of_size n w :
  (0 < w <= 32)%nat -> 0 <= n ->
  0 <= bytes_to_skip n (Z.of_nat w) < Z.of_nat w /\ bytes_to_skip n (Z.of_nat w) <= n.
Proof.
  intros Hw Hn. unfold bytes_to_skip. pose proof (Z.mod_pos_bound n (Z.of_nat w) ltac:(lia)).
  pose proof (Z.mod_le n (Z.of_nat w) ltac:(lia) ltac:(lia)).
  rewrite wrap_id by (unfold uint; cbn; lia). lia.
Qed.

Module CompressionCodecDelta.
Fixpoint compress_loop (w : nat) (prev_src : Z) (values : list Z) : list Z :=
  match values with
  | [] => []
  | curr_src :: rest => wrap (8 * Z.of_nat w) (curr_src - prev_src) :: compress_loop w curr_src rest
  end.

Definition compressDataForType (w : nat) (source : bytes) : outcome bytes :=
  _ ← require (blen source mod Z.of_nat w =? 0) CANNOT_COMPRESS;
  Ok (storeArray w (compress_loop w 0 (loadArray w source))).

(** [room] is [output_end - dest]. *)
Fixpoint decompress_loop (w : nat) (accumulator room : Z) (values : list Z) : outcome bytes :=
  match values with
  | [] => Ok []
  | delta :: rest =>
      let accumulator := wrap (8 * Z.of_nat w) (accumulator + delta) in
      _ ← require (negb (room <? Z.of_nat w)) CANNOT_DECOMPRESS;
      out ← decompress_loop w accumulator (room - Z.of_nat w) rest;
      Ok (le_store w accumulator ++ out)
  end.

Definition decompressDataForType (w : nat) (source : bytes) (output_size : Z) : outcome (bytes * Z) :=
  _ ← require (blen source mod Z.of_nat w =? 0) CANNOT_DECOMPRESS;
  out ← decompress_loop w 0 output_size (loadArray w source);
  Ok (out, blen out).

Definition doCompressData (delta_bytes_size : Z) (source : bytes) : outcome (bytes * Z) :=
  let source_size := blen source in
  let skip := bytes_to_skip source_size delta_bytes_size in
  let header := [delta_bytes_size; skip] ++ take (Z.to_nat skip) source in
  let rest := drop (Z.to_nat skip) source in
  body ← switch_width delta_bytes_size LOGICAL_ERROR (fun w => compressDataForType w rest);
  Ok (header ++ body, wrap 32 (1 + 1 + source_size)).

Definition doDecompressData (source : bytes) (uncompressed_size : Z) : outcome (bytes * Z) :=
  let source_size := blen source in
  _ ← require (negb (source_size <? 2)) CANNOT_DECOMPRESS;
  if uncompressed_size =? 0 then Ok ([], 0)
  else
    let bytes_size := nth 0 source 0 in
    _ ← require (is_width bytes_size) CANNOT_DECOMPRESS;
    let skip := bytes_to_skip uncompressed_size bytes_size in
    let output_size := uncompressed_size - skip in
    _ ← require (negb (source_size <? 2 + skip)) CANNOT_DECOMPRESS;
    let head := take (Z.to_nat skip) (drop 2 source) in
    let rest := drop (Z.to_nat (2 + skip)) source in
    '(out, n) ← switch_width bytes_size LOGICAL_ERROR (fun w => decompressDataForType w rest output_size);
    Ok (head ++ out, wrap 32 (skip + n)).

Definition codec (delta_bytes_size : Z) (err : ErrorCode) : ICompressionCodec := {|
  getMethodByte := methodByte Delta;
  getMaxCompressedDataSize := fun uncompressed_size => Ok (wrap 32 (uncompressed_size + 2));
  Codec.doCompressData := doCompressData delta_bytes_size;
  Codec.doDecompressData := fun _ => doDecompressData;
  getAdditionalSizeAtTheEndOfBuffer := 0;
  isCompression := false;
  isNone := false;
  isGenericCompression := false;
  isDeltaCompression := true;
  isFloatingPointTimeSeriesCodec := false;
  isEncryption := false;
  isExperimental := false;
  decompression_error_code := err
|}.

(** ** Round trip *)
Lemma loops_inverse w vs : forall prev room,
  Forall (uint (8 * Z.of_nat w)) vs -> Z.of_nat (w * length vs) <= room ->
  decompress_loop w prev room (compress_loop w prev vs) = Ok (storeArray w vs).
Proof.
  induction vs as [|v vs IH]; intros prev room Hvs Hroom; [done|].
  apply Forall_cons in Hvs as [Hv Hvs]. cbn [length] in Hroom.
  cbn [compress_loop decompress_loop storeArray].
  rewrite wrap_add_r. replace (prev + (v - prev)) with v by lia. rewrite wrap_id by done.
  pass. run. rewrite IH by (done || nia). done.
Qed.

Lemma length_compress_loop w prev vs : length (compress_loop w prev vs) = length vs.
Proof. revert prev; induction vs as [|v vs IH]; intros prev; cbn; auto. Qed.

Lemma compress_loop_uint w prev vs : Forall (uint (8 * Z.of_nat w)) (compress_loop w prev vs).
Proof.
  revert prev; induction vs as [|v vs IH]; intros prev; cbn; constructor; auto.
  apply wrap_uint; lia.
Qed.

Lemma delta_type_roundtrip w src :
  (0 < w)%nat -> (length src mod w = 0)%nat -> bytes_ok src ->
  exists body, compressDataForType w src = Ok body /\ bytes_ok body /\ length body = length src /\
    decompressDataForType w body (blen src) = Ok (src, blen src).
Proof.
  intros Hw Hmod Hok. pose proof (length_loadArray w src Hw Hmod) as Hlen.
  unfold compressDataForType. rewrite require_true by (apply Z.eqb_eq; rewrite <- Nat2Z.inj_mod; lia).
  run. eexists; split; [reflexivity|]. split; [apply storeArray_bytes|].
  assert (length (storeArray w (compress_loop w 0 (loadArray w src))) = length src) as Hl
    by (rewrite length_storeArray, length_compress_loop; done).
  split; [done|]. unfold decompressDataForType. rewrite Hl.
  rewrite require_true by (apply Z.eqb_eq; rewrite <- Nat2Z.inj_mod; lia). run.
  rewrite loadArray_storeArray by (done || apply compress_loop_uint).
  rewrite loops_inverse by (apply loadArray_uint || lia; done). run.
  by rewrite storeArray_loadArray.
Qed.

(** The codec on a whole source: the unaligned leading bytes, then the deltas. *)
Definition dom (src : bytes) : Prop := bytes_ok src /\ blen src + 2 < 2 ^ 32.

Lemma delta_data_roundtrip w src :
  width w -> dom src ->
  exists out, doCompressData (Z.of_nat w) src = Ok (out, blen out) /\ bytes_ok out /\
    blen out = blen src + 2 /\ doDecompressData out (blen src) = Ok (src, blen src).
Proof.
  intros Hwidth [Hok Hlen]. pose proof (width_bound w Hwidth) as Hw.
  assert ((0 < w <= 32)%nat) as Hw32 by lia.
  destruct (skip_eq w src Hw32) as (Hskip & Hlt & _). pose proof (framed_rest w src Hw32) as Hrest.
  destruct (delta_type_roundtrip w _ ltac:(lia) (skip_aligned w src Hw32) ltac:(by apply Forall_drop))
    as (body & Hc & Hbok & Hbl & Hd).
  pose proof (framed_length w src Hw32 body) as Hout. rewrite Hbl in Hout.
  exists (framed w src body). split; [|split; [by apply framed_bytes|split; [lia|]]].
  - unfold doCompressData. rewrite Hskip, Nat2Z.id, switch_width_ok, Hc by done. run.
    rewrite Hout, wrap_id by (unfold uint; lia). do 2 f_equal. lia.
  - unfold doDecompressData. rewrite bind_require by blia.
    destruct (Z.eqb_spec (blen src) 0) as [E|E]; [by destruct src|].
    change (nth 0 (framed w src body) 0) with (Z.of_nat w).
    rewrite bind_require by (apply is_width_spec; eauto).
    rewrite Hskip, Hrest, framed_body, Nat2Z.id, framed_head by done. rewrite bind_require by blia.
    rewrite switch_width_ok, Hd by done. run. rewrite take_drop, wrap_id by (unfold uint; lia).
    do 2 f_equal. lia.
Qed.

#[export] Instance delta_pair w w' e e' : width w ->
  CodecPair (codec (Z.of_nat w) e) (codec w' e') dom.
Proof.
  intros Hwidth. split; cbn [getMethodByte codec Codec.doCompressData Codec.doDecompressData getMaxCompressedDataSize].
  - done.
  - unfold uint; cbn; lia.
  - intros src Hd. destruct (delta_data_roundtrip w src Hwidth Hd) as (out & ? & ? & Hl & ?). eexists out, _.
    destruct Hd. rewrite wrap_id by (unfold uint; lia). repeat split; auto. lia.
Qed.

(** ** Arbitrary input *)
Lemma delta_decompress_loop_safe w vs : forall acc room,
  match decompress_loop w acc room vs with
  | Ok out => blen out <= Z.max 0 room
  | Throw _ => True
  | Undef => False
  end.
Proof.
  induction vs as [|v vs IH]; intros acc room; cbn [decompress_loop]; [cbn; lia|].
  destruct (Z.ltb_spec room (Z.of_nat w)); run; [done|].
  specialize (IH (wrap (8 * Z.of_nat w) (acc + v)) (room - Z.of_nat w)).
  destruct decompress_loop; run; [|done|done]. len.
Qed.

#[export] Instance delta_safe size e : SafeDecoder (codec size e).
Proof.
  split. intros e0 src n Hok [Hn0 Hn]. cbn [codec Codec.doDecompressData]. unfold doDecompressData.
  destruct (Z.ltb_spec (blen src) 2); run; [done|].
  destruct (Z.eqb_spec n 0) as [->|]; [cbn; lia|].
  destruct (is_width (nth 0 src 0)) eqn:Hwid; run; [|done].
  apply is_width_spec in Hwid as (w & -> & Hwid). pose proof (width_bound w Hwid) as Hw.
  destruct (skip_of_size n w ltac:(lia) Hn0) as [Hs1 Hs2].
  set (skip := bytes_to_skip n (Z.of_nat w)) in *.
  destruct (Z.ltb_spec (blen src) (2 + skip)); run; [done|].
  rewrite switch_width_ok by done. unfold decompressDataForType.
  destruct (_ =? 0); run; [|done].
  pose proof (delta_decompress_loop_safe w (loadArray w (drop (Z.to_nat (2 + skip)) src)) 0 (n - skip)) as Hs.
  destruct decompress_loop; run; [|done|done].
  rewrite wrap_id by (unfold uint; lia). len.
Qed.
End CompressionCodecDelta.
