(* ===== verification/CodecGCD.v ===== *)
(** * The GCD codec

    [src/Compression/CompressionCodecGCD.cpp]: all values are divided by
    their greatest common divisor.  [boost::integer::gcd] and the
    [libdivide] divider are third-party code: they are parameters of the
    model, with their documented results as hypotheses. *)

From stdpp Require Import prelude.
From Stdlib Require Import ZArith Lia Znumtheory.
From S2P Require Import Prelude Codec CodecDelta.

Module CompressionCodecGCD.
(** [switch (gcd_bytes_size)] over [UInt8] .. [UInt64], [UInt128], [UInt256]. *)
Definition switch_width {A} (bytes_size : Z) (err : ErrorCode) (f : nat -> outcome A) : outcome A :=
  match bytes_size with
  | 1 => f 1%nat
  | 2 => f 2%nat
  | 4 => f 4%nat
  | 8 => f 8%nat
  | 16 => f 16%nat
  | 32 => f 32%nat
  | _ => Throw err
  end.

Definition is_width (n : Z) : bool :=
  (n =? 1) || (n =? 2) || (n =? 4) || (n =? 8) || (n =? 16) || (n =? 32).

Section GCD.
  (** [boost::integer::gcd(a, b)]; [libdivide d n] is [n / divider(d)]. *)
Context (boost_gcd : Z -> Z -> Z) (libdivide : Z -> Z -> Z).

  (** [while (gcd != T(1) && cur_source < source_end)]. *)
Fixpoint gcd_loop (first : bool) (gcd : Z) (values : list Z) : Z :=
  if gcd =? 1 then gcd
  else match values with
       | [] => gcd
       | v :: rest => gcd_loop false (if first then v else boost_gcd gcd v) rest
       end.

Definition compressDataForType (w : nat) (source : bytes) : outcome bytes :=
  _ ← require (blen source mod Z.of_nat w =? 0) CANNOT_COMPRESS;
  let gcd := gcd_loop true 0 (loadArray w source) in
  if (gcd =? 0) || (gcd =? 1) then Ok (le_store w gcd ++ source)
  else
    let divide v := if Nat.leb w 8 then libdivide gcd v else v / gcd in
    Ok (le_store w gcd ++ storeArray w (divide <$> loadArray w source)).

(** [unalignedLoad<T>(source) * gcd_multiplier]: the operands of one and two
    bytes are promoted to [int], whose overflow is undefined; wider ones are
    multiplied modulo their width. *)
Definition multiply (w : nat) (a b : Z) : outcome Z :=
  _ ← defined (Nat.ltb 2 w || (a * b <? 2 ^ 31));
  Ok (wrap (8 * Z.of_nat w) (a * b)).

Fixpoint decompress_loop (w : nat) (gcd_multiplier room : Z) (values : list Z) : outcome bytes :=
  match values with
  | [] => Ok []
  | v :: rest =>
      _ ← require (negb (room <? Z.of_nat w)) CANNOT_DECOMPRESS;
      product ← multiply w v gcd_multiplier;
      out ← decompress_loop w gcd_multiplier (room - Z.of_nat w) rest;
      Ok (le_store w product ++ out)
  end.

Definition decompressDataForType (w : nat) (source : bytes) (output_size : Z) : outcome (bytes * Z) :=
  let source_size := blen source in
  _ ← require (source_size mod Z.of_nat w =? 0) CANNOT_DECOMPRESS;
  _ ← require (negb (source_size <? Z.of_nat w)) CANNOT_DECOMPRESS;
  let gcd_multiplier := le_load (take w source) in
  let source := drop w source in
  if (gcd_multiplier =? 0) || (gcd_multiplier =? 1) then
    _ ← require (source_size - Z.of_nat w =? output_size) CANNOT_DECOMPRESS;
    Ok (source, source_size - Z.of_nat w)
  else
    out ← decompress_loop w gcd_multiplier output_size (loadArray w source);
    Ok (out, blen out).

Definition getMaxCompressedDataSize (gcd_bytes_size uncompressed_size : Z) : outcome Z :=
  Ok (wrap 32 (uncompressed_size + gcd_bytes_size + 2)).

Definition doCompressData (gcd_bytes_size : Z) (source : bytes) : outcome (bytes * Z) :=
  let source_size := blen source in
  let skip := bytes_to_skip source_size gcd_bytes_size in
  let header := [gcd_bytes_size; skip] ++ take (Z.to_nat skip) source in
  let rest := drop (Z.to_nat skip) source in
  body ← switch_width gcd_bytes_size LOGICAL_ERROR (fun w => compressDataForType w rest);
  Ok (header ++ body, wrap 32 (2 + gcd_bytes_size + source_size)).

Definition doDecompressData (source : bytes) (uncompressed_size : Z) : outcome (bytes * Z) :=
  let source_size := blen source in
  _ ← require (negb (source_size <? 2)) CANNOT_DECOMPRESS;
  if uncompressed_size =? 0 then Ok ([], 0)
  else
    let bytes_size := nth 0 source 0 in
    _ ← require (is_width bytes_size) CANNOT_DECOMPRESS;
    let skip := bytes_to_skip uncompressed_size bytes_size in
    _ ← require (skip =? nth 1 source 0) CANNOT_DECOMPRESS;
    let output_size := uncompressed_size - skip in
    _ ← require (negb (source_size <? 2 + skip)) CANNOT_DECOMPRESS;
    let head := take (Z.to_nat skip) (drop 2 source) in
    let rest := drop (Z.to_nat (2 + skip)) source in
    '(out, n) ← switch_width bytes_size LOGICAL_ERROR (fun w => decompressDataForType w rest output_size);
    Ok (head ++ out, wrap 32 (skip + n)).

Definition codec (gcd_bytes_size : Z) (err : ErrorCode) : ICompressionCodec := {|
  getMethodByte := methodByte GCD;
  Codec.getMaxCompressedDataSize := getMaxCompressedDataSize gcd_bytes_size;
  Codec.doCompressData := doCompressData gcd_bytes_size;
  Codec.doDecompressData := fun _ => doDecompressData;
  getAdditionalSizeAtTheEndOfBuffer := 0;
  isCompression := false;
  isNone := false;
  isGenericCompression := false;
  isDeltaCompression := false;
  isFloatingPointTimeSeriesCodec := false;
  isEncryption := false;
  isExperimental := false;
  decompression_error_code := err
|}.
End GCD.

Definition width (w : nat) : Prop :=
  w = 1%nat \/ w = 2%nat \/ w = 4%nat \/ w = 8%nat \/ w = 16%nat \/ w = 32%nat.

Lemma gcd_switch_width_ok {A} w err (f : nat -> outcome A) :
  width w -> switch_width (Z.of_nat w) err f = f w.
Proof. by intros [->|[->|[->|[->|[->| ->]]]]]. Qed.

Lemma gcd_width_bound w : width w -> (0 < w <= 32)%nat.
Proof. unfold width. lia. Qed.

Lemma gcd_is_width_spec n : is_width n = true <-> exists w, n = Z.of_nat w /\ width w.
Proof.
  unfold is_width, width. rewrite !orb_true_iff, !Z.eqb_eq. split.
  - intros H. exists (Z.to_nat n). lia.
  - intros (w & -> & H). lia.
Qed.

Section Facts.
  (** Documented behaviour of the two libraries. *)
Context (boost_gcd : Z -> Z -> Z) (libdivide : Z -> Z -> Z).
Hypothesis boost_gcd_spec : forall a b, 0 <= a -> 0 <= b -> boost_gcd a b = Z.gcd a b.
Hypothesis libdivide_spec : forall d n, uint 64 d -> uint 64 n -> 1 < d -> libdivide d n = n / d.

  (** Unless it is 1, the result of the loop divides every value visited. *)
Lemma gcd_loop_divides values : forall g,
  0 <= g -> Forall (fun v => 0 <= v) values ->
  let r := gcd_loop boost_gcd false g values in
  0 <= r /\ (r | g) /\ Forall (fun v => r <> 1 -> (r | v)) values.
Proof using boost_gcd_spec.
  induction values as [|v values IH]; intros g Hg Hvs; cbn [gcd_loop].
  - destruct (Z.eqb_spec g 1); (split; [lia|split; [apply Z.divide_refl|constructor]]).
  - apply Forall_cons in Hvs as [Hv Hvs]. destruct (Z.eqb_spec g 1) as [->|Hne].
    + split; [lia|]. split; [apply Z.divide_refl|]. apply Forall_forall. intros ? _ []; done.
    + rewrite boost_gcd_spec by done.
      destruct (IH (Z.gcd g v) (Z.gcd_nonneg g v) Hvs) as (H0 & Hd & Hf). split; [done|].
      split; [etrans; [exact Hd|apply Z.gcd_divide_l]|].
      constructor; [|done]. intros _. etrans; [exact Hd|apply Z.gcd_divide_r].
Qed.

Lemma gcd_loop_first values :
  Forall (fun v => 0 <= v) values ->
  let r := gcd_loop boost_gcd true 0 values in
  0 <= r /\ Forall (fun v => r <> 1 -> (r | v)) values.
Proof using boost_gcd_spec.
  intros Hvs. destruct values as [|v values]; cbn [gcd_loop]; change (0 =? 1) with false; [split; [lia|constructor]|].
  apply Forall_cons in Hvs as [Hv Hvs].
  destruct (gcd_loop_divides values v Hv Hvs) as (H0 & Hd & Hf). split; [done|].
  constructor; auto.
Qed.

Lemma gcd_loop_uint w values : Forall (uint w) values -> 0 <= w -> uint w (gcd_loop boost_gcd true 0 values).
Proof using boost_gcd_spec.
  intros Hu Hw. assert (uint w 0) as H0 by (unfold uint; lia).
  destruct values as [|v values]; cbn [gcd_loop]; change (0 =? 1) with false; cbn iota; [done|].
  apply Forall_cons in Hu as [Hv Hu]. clear H0. revert v Hv; induction Hu as [|x values Hx Hu IH]; intros v Hv;
    cbn [gcd_loop]; destruct (v =? 1); auto.
  apply IH. unfold uint in *. rewrite boost_gcd_spec by lia. split; [apply Z.gcd_nonneg|].
  destruct (decide (v = 0)) as [->|].
  - rewrite Z.gcd_0_l. lia.
  - pose proof (Z.divide_pos_le (Z.gcd v x) v ltac:(lia) (Z.gcd_divide_l v x)). lia.
Qed.

(** A product that fits the value is computed. *)
Lemma multiply_fits w a b : uint (8 * Z.of_nat w) (a * b) -> multiply w a b = Ok (a * b).
Proof using.
  intros Hu. unfold multiply. rewrite bind_defined; [by rewrite wrap_id|]. destruct (Nat.ltb_spec 2 w) as [|Hw]; [done|].
  apply Z.ltb_lt. assert (2 ^ (8 * Z.of_nat w) <= 2 ^ 16) by (apply Z.pow_le_mono_r; lia). unfold uint in Hu. lia.
Qed.

Lemma divide_multiply w g vs : forall room,
  1 < g -> Forall (uint (8 * Z.of_nat w)) vs -> Forall (fun v => (g | v)) vs ->
  Z.of_nat (w * length vs) <= room ->
  decompress_loop w g room ((fun v => v / g) <$> vs) = Ok (storeArray w vs).
Proof using.
  induction vs as [|v vs IH]; intros room Hg Hu Hd Hroom; [done|].
  apply Forall_cons in Hu as [Hu1 Hu], Hd as [Hd1 Hd]. cbn [length] in Hroom.
  cbn [fmap list_fmap decompress_loop storeArray]. pass.
  assert (v / g * g = v) as Hv by (destruct Hd1 as [k ->]; by rewrite Z.div_mul by lia).
  rewrite multiply_fits by (by rewrite Hv). run. rewrite IH by (done || nia). run. by rewrite Hv.
Qed.

Lemma gcd_type_roundtrip w src :
  (0 < w)%nat -> (length src mod w = 0)%nat -> bytes_ok src ->
  exists body, compressDataForType boost_gcd libdivide w src = Ok body /\ bytes_ok body /\
    length body = (w + length src)%nat /\
    decompressDataForType w body (blen src) = Ok (src, blen src).
Proof using boost_gcd_spec libdivide_spec.
  intros Hw Hmod Hok. pose proof (length_loadArray w src Hw Hmod) as Hlen.
  pose proof (loadArray_uint w src Hw Hmod Hok) as Hu.
  assert (Forall (fun v => 0 <= v) (loadArray w src)) as Hnn
    by (eapply Forall_impl; [exact Hu|]; unfold uint; intros; lia).
  destruct (gcd_loop_first _ Hnn) as [Hg0 Hgd].
  set (g := gcd_loop boost_gcd true 0 (loadArray w src)) in *.
  assert (uint (8 * Z.of_nat w) g) as Hug by (apply gcd_loop_uint; [done|lia]).
  unfold compressDataForType.
  rewrite bind_require by (apply Z.eqb_eq; rewrite <- Nat2Z.inj_mod; lia). fold g.
  assert (forall rest : bytes, length rest = length src ->
    decompressDataForType w (le_store w g ++ rest) (blen src) =
    if (g =? 0) || (g =? 1) then Ok (rest, blen src) else
    out ← decompress_loop w g (blen src) (loadArray w rest); Ok (out, blen out)) as Hdec.
  { intros rest Hr. unfold decompressDataForType.
    assert (blen (le_store w g ++ rest) = Z.of_nat (w + length src)) as -> by len.
    rewrite bind_require.
    2:{ rewrite <- Nat2Z.inj_mod. apply Z.eqb_eq.
        rewrite <- Nat.Div0.add_mod_idemp_l, Nat.Div0.mod_same, Nat.add_0_l. lia. }
    pass. rewrite take_le_store, drop_le_store, le_load_store_id by done.
    destruct (_ || _); [|done]. do 2 f_equal. lia. }
  destruct ((g =? 0) || (g =? 1)) eqn:E01.
  - exists (le_store w g ++ src). rewrite Hdec by done. rewrite Forall_app, length_app, length_le_store.
    auto with chdb.
  - rewrite orb_false_iff, !Z.eqb_neq in E01. destruct E01 as [E0 E1].
    eexists. split; [reflexivity|].
    assert ((λ v : Z, if Nat.leb w 8 then libdivide g v else v / g) <$> loadArray w src =
            (fun v => v / g) <$> loadArray w src) as ->.
    { apply list_fmap_ext. intros i v Hi. destruct (Nat.leb_spec w 8); [|done].
      assert (2 ^ (8 * Z.of_nat w) <= 2 ^ 64) by (apply Z.pow_le_mono_r; lia).
      eapply Forall_lookup_1 in Hu; [|exact Hi]. unfold uint in *. apply libdivide_spec; unfold uint; lia. }
    rewrite Forall_app, length_app, length_le_store, length_storeArray, length_fmap, Hlen.
    split; [auto with chdb|]. split; [done|].
    rewrite Hdec by (by rewrite length_storeArray, length_fmap).
    rewrite loadArray_storeArray; [|done|].
    + rewrite divide_multiply; [run; by rewrite storeArray_loadArray|lia|done| |lia].
      eapply Forall_impl; [exact Hgd|]. auto.
    + apply Forall_fmap. eapply Forall_impl; [exact Hu|]. cbn. unfold uint. intros v Hv.
      split; [apply Z.div_pos; lia|]. apply Z.le_lt_trans with v; [|lia]. apply Z.div_le_upper_bound; nia.
Qed.

Definition dom (w : nat) (src : bytes) : Prop := bytes_ok src /\ blen src + Z.of_nat w + 2 < 2 ^ 32.

Lemma gcd_data_roundtrip w src :
  width w -> dom w src ->
  exists out, doCompressData boost_gcd libdivide (Z.of_nat w) src = Ok (out, blen out) /\ bytes_ok out /\
    blen out = blen src + Z.of_nat w + 2 /\ doDecompressData out (blen src) = Ok (src, blen src).
Proof using boost_gcd_spec libdivide_spec.
  intros Hwidth [Hok Hlen]. pose proof (gcd_width_bound w Hwidth) as Hw32.
  destruct (skip_eq w src Hw32) as (Hskip & Hlt & _). pose proof (framed_rest w src Hw32) as Hrest.
  destruct (gcd_type_roundtrip w _ ltac:(lia) (skip_aligned w src Hw32) ltac:(by apply Forall_drop))
    as (body & Hc & Hbok & Hbl & Hd).
  pose proof (framed_length w src Hw32 body) as Hout. rewrite Hbl in Hout.
  exists (framed w src body). split; [|split; [by apply framed_bytes|split; [lia|]]].
  - unfold doCompressData. rewrite Hskip, Nat2Z.id, gcd_switch_width_ok, Hc by done. run.
    rewrite Hout, wrap_id by (unfold uint; lia). do 2 f_equal. lia.
  - unfold doDecompressData. rewrite bind_require by blia.
    destruct (Z.eqb_spec (blen src) 0) as [E|E]; [by destruct src|].
    change (nth 0 (framed w src body) 0) with (Z.of_nat w).
    rewrite bind_require by (apply gcd_is_width_spec; eauto). rewrite Hskip.
    rewrite bind_require by (apply Z.eqb_refl).
    rewrite Hrest, framed_body, Nat2Z.id, framed_head by done. rewrite bind_require by blia.
    rewrite gcd_switch_width_ok, Hd by done. run. rewrite take_drop, wrap_id by (unfold uint; lia).
    do 2 f_equal. lia.
Qed.

#[export] Instance gcd_pair w w' e e' : width w ->
  CodecPair (codec boost_gcd libdivide (Z.of_nat w) e) (codec boost_gcd libdivide w' e') (dom w).
Proof using boost_gcd_spec libdivide_spec.
  intros Hwidth. split; cbn [getMethodByte codec Codec.doCompressData Codec.doDecompressData Codec.getMaxCompressedDataSize].
  - done.
  - unfold uint; cbn; lia.
  - intros src Hd. destruct (gcd_data_roundtrip w src Hwidth Hd) as (out & ? & ? & Hl & ?). eexists out, _.
    destruct Hd. unfold getMaxCompressedDataSize. rewrite wrap_id by (unfold uint; lia).
    repeat split; auto. lia.
Qed.
End Facts.

(** ** Arbitrary input

    One byte values fit [int] after the product, four and more bytes wrap:
    only two byte values reach the overflow. *)
Lemma multiply_defined w a b : width w -> w <> 2%nat -> uint (8 * Z.of_nat w) a -> uint (8 * Z.of_nat w) b ->
  exists p, multiply w a b = Ok p.
Proof.
  intros Hw Hne Ha Hb. unfold multiply. destruct (Nat.ltb_spec 2 w); [by eexists|].
  assert (w = 1%nat) as -> by (unfold width in Hw; lia). unfold uint in *. change (8 * Z.of_nat 1) with 8 in *.
  rewrite bind_defined; [by eexists|]. apply orb_true_iff. right. apply Z.ltb_lt. nia.
Qed.

Lemma gcd_decompress_loop_safe w g vs : width w -> w <> 2%nat -> uint (8 * Z.of_nat w) g -> Forall (uint (8 * Z.of_nat w)) vs -> forall room,
  match decompress_loop w g room vs with
  | Ok out => blen out <= Z.max 0 room
  | Throw _ => True
  | Undef => False
  end.
Proof.
  intros Hw Hne Hg Hvs. induction Hvs as [|v vs Hv Hvs IH]; intros room; cbn [decompress_loop]; [cbn; lia|].
  destruct (Z.ltb_spec room (Z.of_nat w)); run; [done|].
  destruct (multiply_defined w v g) as [p ->]; [done..|]. run. specialize (IH (room - Z.of_nat w)).
  destruct decompress_loop; run; [|done|done]. len.
Qed.

Lemma gcd_safe boost_gcd libdivide size e e0 src n : nth 0 src 0 <> 2 -> bytes_ok src -> uint 32 n ->
  match Codec.doDecompressData (codec boost_gcd libdivide size e) e0 src n with
  | Ok (out, r) => blen out <= n /\ r = blen out
  | Throw _ => True
  | Undef => False
  end.
Proof.
  intros Hne Hok [Hn0 Hn]. cbn [codec Codec.doDecompressData]. unfold doDecompressData.
  destruct (Z.ltb_spec (blen src) 2); run; [done|].
  destruct (Z.eqb_spec n 0) as [->|]; [cbn; lia|].
  destruct (is_width (nth 0 src 0)) eqn:Hwid; run; [|done].
  apply gcd_is_width_spec in Hwid as (w & Ew & Hwid). rewrite Ew in *. pose proof (gcd_width_bound w Hwid) as Hw.
  destruct (skip_of_size n w Hw Hn0) as [Hs1 Hs2].
  set (skip := bytes_to_skip n (Z.of_nat w)) in *.
  destruct (skip =? nth 1 src 0); run; [|done].
  destruct (Z.ltb_spec (blen src) (2 + skip)); run; [done|].
  rewrite gcd_switch_width_ok by done. unfold decompressDataForType.
  set (rest := drop (Z.to_nat (2 + skip)) src) in *. assert (bytes_ok rest) as Hrok by by apply Forall_drop.
  destruct (Z.eqb_spec (blen rest mod Z.of_nat w) 0) as [Hmod|]; run; [|done].
  destruct (Z.ltb_spec (blen rest) (Z.of_nat w)) as [|Hlw]; run; [done|].
  destruct (_ || _).
  - destruct (Z.eqb_spec (blen rest - Z.of_nat w) (n - skip)); run; [|done].
    rewrite wrap_id by (unfold uint; lia). subst rest. len.
  - assert (length (take w rest) = w) as Hlen by (rewrite length_take; lia).
    assert (uint (8 * Z.of_nat w) (le_load (take w rest))) as Hg by (rewrite <- Hlen at 1; by apply le_load_uint, Forall_take).
    assert (Forall (uint (8 * Z.of_nat w)) (loadArray w (drop w rest))) as Hvs.
    { apply loadArray_uint; [lia| |by apply Forall_drop]. rewrite length_drop. rewrite <- Nat2Z.inj_mod in Hmod.
      apply Nat2Z.inj. rewrite Nat2Z.inj_mod, Nat2Z.inj_sub by lia. rewrite Zminus_mod, Z_mod_same_full, Z.sub_0_r, Z.mod_mod, <- Nat2Z.inj_mod by lia. done. }
    pose proof (gcd_decompress_loop_safe w _ _ Hwid ltac:(lia) Hg Hvs (n - skip)) as Hs.
    destruct decompress_loop; run; [|done|done].
    rewrite wrap_id by (unfold uint; lia). len.
Qed.

End CompressionCodecGCD.
