(* ===== verification/CodecDoubleDelta.v ===== *)
(** * The DoubleDelta codec

    [src/Compression/CompressionCodecDoubleDelta.cpp]: differences of
    differences, each written with a variable-length prefix code through
    [BitWriter] and read back through [BitReader]. *)

From stdpp Require Import prelude.
From Stdlib Require Import ZArith Lia.
From S2P Require Import Prelude Bits BitIO Codec CodecDelta.

Module CompressionCodecDoubleDelta.
Definition getMaxValueForByteSize (byte_size : Z) : outcome Z :=
  match byte_size with
  | 1 => Ok (2 ^ 7 - 1)
  | 2 => Ok (2 ^ 15 - 1)
  | 4 => Ok (2 ^ 31 - 1)
  | 8 => Ok (2 ^ 63 - 1)
  | _ => Throw LOGICAL_ERROR
  end.

Record WriteSpec := mkSpec { prefix_bits : Z; prefix : Z; data_bits : Z }.

(** Delta size prefix and data lengths based on the five high bits peeked. *)
Definition WRITE_SPEC_LUT : list WriteSpec :=
  replicate 16 (mkSpec 1 0 0)
  ++ replicate 8 (mkSpec 2 2 7)
  ++ replicate 4 (mkSpec 3 6 9)
  ++ replicate 2 (mkSpec 4 14 12)
  ++ [mkSpec 5 30 32; mkSpec 5 31 64].

Definition getDeltaWriteSpec (value : Z) : WriteSpec :=
  if (-63 <? value) && (value <? 64) then mkSpec 2 2 7
  else if (-255 <? value) && (value <? 256) then mkSpec 3 6 9
  else if (-2047 <? value) && (value <? 2048) then mkSpec 4 14 12
  else if (- 2 ^ 31 <? value) && (value <? 2 ^ 31 - 1) then mkSpec 5 30 32
  else mkSpec 5 31 64.

Definition getDeltaMaxWriteSpecByteSize (data_bytes_size : Z) : outcome WriteSpec :=
  m ← getMaxValueForByteSize data_bytes_size;
  Ok (getDeltaWriteSpec m).

Definition getCompressedHeaderSize (data_bytes_size : Z) : Z :=
  4 + data_bytes_size + data_bytes_size.

Definition getCompressedDataSize (data_bytes_size uncompressed_size : Z) : outcome Z :=
  let items_count := uncompressed_size / data_bytes_size in
  spec ← getDeltaMaxWriteSpecByteSize data_bytes_size;
  let max_item_size_bits := prefix_bits spec + data_bits spec in
  Ok (wrap 32 (items_count * max_item_size_bits + 7) / 8).

(** One iteration of the writing loop, for the double delta [double_delta] of
    [w] bytes. *)
Definition write_item (w : nat) (double_delta : Z) (writer : BitWriter.t) : outcome BitWriter.t :=
  let bits := 8 * Z.of_nat w in
  if double_delta =? 0 then BitWriter.writeBits 1 0 writer
  else
    let signed_dd := to_signed bits double_delta in
    let sign := signed_dd <? 0 in
    let abs_value :=
      if signed_dd =? - 2 ^ (bits - 1) then Z.shiftr (2 ^ bits - 1) 1
      else wrap bits (Z.abs signed_dd - 1) in
    let write_spec := getDeltaWriteSpec signed_dd in
    writer ← BitWriter.writeBits (prefix_bits write_spec) (prefix write_spec) writer;
    writer ← BitWriter.writeBits 1 (Z.b2z sign) writer;
    BitWriter.writeBits (data_bits write_spec - 1) abs_value writer.

Fixpoint write_loop (w : nat) (prev_value prev_delta : Z) (values : list Z) (writer : BitWriter.t)
    : outcome BitWriter.t :=
  match values with
  | [] => Ok writer
  | curr_value :: rest =>
      let delta := wrap (8 * Z.of_nat w) (curr_value - prev_value) in
      let double_delta := wrap (8 * Z.of_nat w) (delta - prev_delta) in
      writer ← write_item w double_delta writer;
      write_loop w curr_value delta rest writer
  end.

Definition compressDataForType (w : nat) (source : bytes) : outcome (bytes * Z) :=
  let source_size := blen source in
  _ ← require (source_size mod Z.of_nat w =? 0) CANNOT_COMPRESS;
  let items_count := source_size / Z.of_nat w in
  let values := loadArray w source in
  let '(head, prev_value, prev_delta, values) :=
    match values with
    | [] => ([], 0, 0, [])
    | [v0] => (le_store w v0, v0, 0, [])
    | v0 :: v1 :: rest =>
        let prev_delta := wrap (8 * Z.of_nat w) (v1 - v0) in
        (le_store w v0 ++ le_store w prev_delta, v1, prev_delta, rest)
    end in
  writer_size ← getCompressedDataSize (Z.of_nat w) (wrap 32 (source_size - Z.of_nat w * 2));
  writer ← write_loop w prev_value prev_delta values (BitWriter.make writer_size);
  writer ← BitWriter.flush writer;
  Ok (le_store 4 items_count ++ head ++ BitWriter.dest writer,
      wrap 32 (4 + blen head + (BitWriter.count writer + 7) / 8)).

(** One iteration of the reading loop: the double delta. *)
Definition read_item (w : nat) (reader : BitReader.t) : outcome (Z * BitReader.t) :=
  let bits := 8 * Z.of_nat w in
  '(byte, reader) ← BitReader.peekByte reader;
  match WRITE_SPEC_LUT !! Z.to_nat (Z.shiftr byte (8 - 5)) with
  | None => Undef
  | Some write_spec =>
      reader ← BitReader.skipBufferedBits (prefix_bits write_spec) reader;
      if data_bits write_spec =? 0 then Ok (0, reader)
      else
        '(sign, reader) ← BitReader.readBit reader;
        '(value, reader) ← BitReader.readBits (data_bits write_spec - 1) reader;
        let double_delta := wrap bits (value + 1) in
        Ok (if sign =? 0 then double_delta else wrap bits (- double_delta), reader)
  end.

(** [for (items_read = 2; items_read < items_count && !reader.eof(); ++items_read)];
    [room] is [output_end - dest], and every round uses [w] bytes of it. *)
Fixpoint read_loop (fuel : nat) (w : nat) (items_left prev_value prev_delta room : Z) (reader : BitReader.t)
    : outcome bytes :=
  if (0 <? items_left) && negb (BitReader.eof reader) then
    match fuel with
    | O => Undef
    | S fuel =>
        '(double_delta, reader) ← read_item w reader;
        let delta := wrap (8 * Z.of_nat w) (double_delta + prev_delta) in
        let curr_value := wrap (8 * Z.of_nat w) (prev_value + delta) in
        _ ← require (negb (room <? Z.of_nat w)) CANNOT_DECOMPRESS;
        out ← read_loop fuel w (items_left - 1) curr_value
                (wrap (8 * Z.of_nat w) (curr_value - prev_value)) (room - Z.of_nat w) reader;
        Ok (le_store w curr_value ++ out)
    end
  else Ok [].

Definition decompressDataForType (w : nat) (source : bytes) (output_size : Z) : outcome (bytes * Z) :=
  if blen source <? 4 then Ok ([], 0)
  else
    let items_count := le_load (take 4 source) in
    let source := drop 4 source in
    if (blen source <? Z.of_nat w) || (items_count <? 1) then Ok ([], 0)
    else
      let prev_value := le_load (take w source) in
      _ ← require (negb (output_size <? Z.of_nat w)) CANNOT_DECOMPRESS;
      let source := drop w source in
      if (blen source <? Z.of_nat w) || (items_count <? 2) then Ok (le_store w prev_value, Z.of_nat w)
      else
        let prev_delta := le_load (take w source) in
        let second_value := wrap (8 * Z.of_nat w) (prev_value + prev_delta) in
        let room := output_size - Z.of_nat w in
        _ ← require (negb (room <? Z.of_nat w)) CANNOT_DECOMPRESS;
        let reader := BitReader.make (drop w source) in
        out ← read_loop (S (Z.to_nat (room / Z.of_nat w))) w (items_count - 2) second_value prev_delta
                (room - Z.of_nat w) reader;
        let dest := le_store w prev_value ++ le_store w second_value ++ out in
        Ok (dest, blen dest).

Definition getMaxCompressedDataSize (data_bytes_size uncompressed_size : Z) : outcome Z :=
  n ← getCompressedDataSize data_bytes_size uncompressed_size;
  Ok (wrap 32 (2 + data_bytes_size + getCompressedHeaderSize data_bytes_size + n)).

Definition doCompressData (data_bytes_size : Z) (source : bytes) : outcome (bytes * Z) :=
  let source_size := blen source in
  let skip := bytes_to_skip source_size data_bytes_size in
  let header := [data_bytes_size; skip] ++ take (Z.to_nat skip) source in
  let rest := drop (Z.to_nat skip) source in
  '(body, compressed_size) ← switch_width data_bytes_size LOGICAL_ERROR (fun w => compressDataForType w rest);
  Ok (header ++ body, wrap 32 (1 + 1 + compressed_size + skip)).

Definition doDecompressData (source : bytes) (uncompressed_size : Z) : outcome (bytes * Z) :=
  let source_size := blen source in
  _ ← require (negb (source_size <? 2)) CANNOT_DECOMPRESS;
  let bytes_size := nth 0 source 0 in
  _ ← require (is_width bytes_size) CANNOT_DECOMPRESS;
  let skip := bytes_to_skip uncompressed_size bytes_size in
  let output_size := uncompressed_size - skip in
  _ ← require (negb (source_size <? 2 + skip)) CANNOT_DECOMPRESS;
  let head := take (Z.to_nat skip) (drop 2 source) in
  let rest := drop (Z.to_nat (2 + skip)) source in
  '(out, n) ← switch_width bytes_size LOGICAL_ERROR (fun w => decompressDataForType w rest output_size);
  Ok (head ++ out, wrap 32 (skip + n)).

Definition codec (data_bytes_size : Z) (err : ErrorCode) : ICompressionCodec := {|
  getMethodByte := methodByte DoubleDelta;
  Codec.getMaxCompressedDataSize := getMaxCompressedDataSize data_bytes_size;
  Codec.doCompressData := doCompressData data_bytes_size;
  Codec.doDecompressData := fun _ => doDecompressData;
  getAdditionalSizeAtTheEndOfBuffer := 0;
  isCompression := true;
  isNone := false;
  isGenericCompression := false;
  isDeltaCompression := true;
  isFloatingPointTimeSeriesCodec := false;
  isEncryption := false;
  isExperimental := false;
  decompression_error_code := err
|}.

(** ** The prefix code *)
Import BitWriterFacts BitReaderFacts.

(** The bits of one double delta. *)
Definition item_code (w : nat) (dd : Z) : list bool :=
  if dd =? 0 then [false]
  else
    let v := to_signed (8 * Z.of_nat w) dd in
    let spec := getDeltaWriteSpec v in
    bits_of (Z.to_nat (prefix_bits spec)) (prefix spec) ++ [v <? 0]
      ++ bits_of (Z.to_nat (data_bits spec - 1)) (Z.abs v - 1).

(** The five code classes, and the magnitudes each can hold. *)
Lemma spec_cases v :
  - 2 ^ 63 <= v < 2 ^ 63 -> v <> 0 ->
  let spec := getDeltaWriteSpec v in
  In spec [mkSpec 2 2 7; mkSpec 3 6 9; mkSpec 4 14 12; mkSpec 5 30 32; mkSpec 5 31 64] /\
  0 <= Z.abs v - 1 < 2 ^ (data_bits spec - 1).
Proof.
  intros Hv H0. unfold getDeltaWriteSpec.
  repeat (match goal with |- context [if ?b then _ else _] => destruct b eqn:? end);
    rewrite ?andb_true_iff, ?andb_false_iff, ?Z.ltb_lt, ?Z.ltb_ge in *; cbn [data_bits]; cbn [In];
    (split; [tauto|]); lia.
Qed.

Lemma width_pow w : width w -> 2 ^ (8 * Z.of_nat w - 1) <= 2 ^ 63 /\ 0 < 8 * Z.of_nat w.
Proof. intros [->|[->|[->| ->]]]; cbn; lia. Qed.

Lemma signed_cases w dd :
  width w -> uint (8 * Z.of_nat w) dd -> dd <> 0 ->
  let v := to_signed (8 * Z.of_nat w) dd in
  - 2 ^ (8 * Z.of_nat w - 1) <= v < 2 ^ (8 * Z.of_nat w - 1) /\ - 2 ^ 63 <= v < 2 ^ 63 /\ v <> 0.
Proof.
  intros Hw Hu H0 v. destruct (width_pow w Hw) as [Hp Hpos].
  pose proof (to_signed_range _ _ Hpos Hu) as Hr. fold v in Hr.
  split; [done|]. split; [lia|]. subst v. unfold to_signed. unfold uint in Hu.
  destruct (_ <? _); lia.
Qed.

(** The two ways [abs_value] is computed agree: it is [|v| - 1] also for the
    most negative value. *)
Lemma abs_value_eq w v :
  width w -> - 2 ^ (8 * Z.of_nat w - 1) <= v < 2 ^ (8 * Z.of_nat w - 1) -> v <> 0 ->
  (if v =? - 2 ^ (8 * Z.of_nat w - 1) then Z.shiftr (2 ^ (8 * Z.of_nat w) - 1) 1
   else wrap (8 * Z.of_nat w) (Z.abs v - 1)) = Z.abs v - 1.
Proof.
  intros Hw Hv H0. destruct (Z.eqb_spec v (- 2 ^ (8 * Z.of_nat w - 1))) as [->|].
  - by destruct Hw as [->|[->|[->| ->]]].
  - apply wrap_id. unfold uint.
    assert (2 ^ (8 * Z.of_nat w) = 2 * 2 ^ (8 * Z.of_nat w - 1)) as ->; [|lia].
    destruct (width_pow w Hw). rewrite <- Z.pow_succ_r by lia. f_equal. lia.
Qed.

Lemma dd_write_item_emits w dd :
  width w -> uint (8 * Z.of_nat w) dd -> emits (write_item w dd) (item_code w dd).
Proof.
  intros Hw Hu. unfold write_item, item_code. destruct (Z.eqb_spec dd 0) as [->|H0].
  - by apply (emits_writeBits 1 1 0); [|lia].
  - destruct (signed_cases w dd Hw Hu H0) as (Hr & Hr63 & Hv0).
    rewrite (abs_value_eq w _ Hw Hr Hv0).
    set (v := to_signed (8 * Z.of_nat w) dd) in *.
    destruct (spec_cases v Hr63 Hv0) as [Hin _].
    set (spec := getDeltaWriteSpec v) in *. clearbody spec v.
    apply (emits_bind (BitWriter.writeBits (prefix_bits spec) (prefix spec))
             (fun w1 => BitWriter.writeBits 1 (Z.b2z (v <? 0)) w1 ≫=
                BitWriter.writeBits (data_bits spec - 1) (Z.abs v - 1))).
    { apply emits_writeBits; repeat (destruct Hin as [<-|Hin]; [cbn; lia|]); done. }
    apply (emits_bind (BitWriter.writeBits 1 (Z.b2z (v <? 0)))).
    { replace [v <? 0] with (bits_of 1 (Z.b2z (v <? 0))) by (by destruct (v <? 0)).
      by apply emits_writeBits; [|lia]. }
    apply emits_writeBits; repeat (destruct Hin as [<-|Hin]; [cbn; lia|]); done.
Qed.

(** The lookup table decodes the prefix, whatever bits follow it. *)
Lemma lut_decodes spec tail :
  In spec [mkSpec 1 0 0; mkSpec 2 2 7; mkSpec 3 6 9; mkSpec 4 14 12; mkSpec 5 30 32; mkSpec 5 31 64] ->
  WRITE_SPEC_LUT !! Z.to_nat (val_of (pad 5 (bits_of (Z.to_nat (prefix_bits spec)) (prefix spec) ++ tail))) = Some spec.
Proof.
  intros Hin. rewrite pad_app_ge.
  2:{ rewrite length_bits_of. repeat (destruct Hin as [<-|Hin]; [cbn; lia|]); done. }
  rewrite length_bits_of. generalize (length_pad (5 - Z.to_nat (prefix_bits spec)) tail).
  generalize (pad (5 - Z.to_nat (prefix_bits spec)) tail). intros l Hl.
  repeat (destruct Hin as [<-|Hin]; [cbn in Hl;
    repeat (destruct l as [|[] l]; try discriminate Hl; cbn in Hl); reflexivity|]).
  done.
Qed.

(** Peeking and skipping the prefix of a code. *)
Lemma read_prefix w spec r tail :
  In spec [mkSpec 1 0 0; mkSpec 2 2 7; mkSpec 3 6 9; mkSpec 4 14 12; mkSpec 5 30 32; mkSpec 5 31 64] ->
  repr r (bits_of (Z.to_nat (prefix_bits spec)) (prefix spec) ++ tail) ->
  exists r', repr r' tail /\ read_item w r =
    if data_bits spec =? 0 then Ok (0, r')
    else
      '(sign, reader) ← BitReader.readBit r';
      '(value, reader) ← BitReader.readBits (data_bits spec - 1) reader;
      let double_delta := wrap (8 * Z.of_nat w) (value + 1) in
      Ok (if sign =? 0 then double_delta else wrap (8 * Z.of_nat w) (- double_delta), reader).
Proof.
  intros Hin Hr. set (bs := bits_of _ _ ++ tail) in *.
  destruct (peekByte_ok r bs Hr) as (r1 & E1 & Hr1 & _ & Hc1).
  assert (0 < prefix_bits spec <= 5) as Hp by (repeat (destruct Hin as [<-|Hin]; [cbn; lia|]); done).
  destruct (skipBufferedBits_ok (Z.to_nat (prefix_bits spec)) r1 bs) as (r2 & E2 & Hr2 & _); [lia|done| |].
  { subst bs. rewrite length_app, length_bits_of in Hc1. lia. }
  exists r2. split.
  { subst bs. by rewrite drop_app_length' in Hr2 by (by rewrite length_bits_of). }
  unfold read_item. rewrite E1. run. subst bs. rewrite (shiftr_pad 5 3), lut_decodes by done.
  rewrite Z2Nat.id in E2 by lia. rewrite E2. run. done.
Qed.

Lemma dd_read_item_reads w dd :
  width w -> uint (8 * Z.of_nat w) dd -> reads (read_item w) (item_code w dd) dd.
Proof.
  intros Hw Hu r tail Hr. unfold item_code in Hr. destruct (Z.eqb_spec dd 0) as [->|H0].
  - destruct (read_prefix w (mkSpec 1 0 0) r tail) as (r' & Hr' & E); [cbn; auto|done|]. exists r'. by rewrite E.
  - destruct (signed_cases w dd Hw Hu H0) as (Hr0 & Hr63 & Hv0).
    assert (wrap (8 * Z.of_nat w) (to_signed (8 * Z.of_nat w) dd) = dd) as Hback by by apply wrap_to_signed.
    set (v := to_signed (8 * Z.of_nat w) dd) in *.
    destruct (spec_cases v Hr63 Hv0) as [Hin Hmag].
    set (spec := getDeltaWriteSpec v) in *.
    assert (7 <= data_bits spec <= 64) as Hdb by (repeat (destruct Hin as [<-|Hin]; [cbn; lia|]); done).
    rewrite <- app_assoc in Hr. destruct (read_prefix w spec r _ (or_intror Hin) Hr) as (r1 & Hr1 & E).
    rewrite E. destruct (Z.eqb_spec (data_bits spec) 0); [lia|].
    rewrite <- app_assoc in Hr1.
    destruct (reads_readBit (v <? 0) r1 _ Hr1) as (r2 & -> & Hr2). run.
    destruct (reads_readBits (data_bits spec - 1) (bits_of (Z.to_nat (data_bits spec - 1)) (Z.abs v - 1))) with (r := r2) (tail := tail)
      as (r3 & -> & Hr3); [rewrite length_bits_of; lia|rewrite length_bits_of; lia|done|]. run.
    exists r3. split; [|done]. rewrite val_bits_of_id by (unfold uint; rewrite Z2Nat.id by lia; lia).
    replace (Z.abs v - 1 + 1) with (Z.abs v) by lia. do 2 f_equal. rewrite <- Hback.
    destruct (Z.ltb_spec v 0); cbn [Z.b2z]; (change (1 =? 0) with false || change (0 =? 0) with true); cbn iota.
    + rewrite <- (Z.sub_0_l (wrap _ (Z.abs v))), wrap_sub_r. f_equal. lia.
    + f_equal. lia.
Qed.

(** Bounds on the length of a code; the upper one is what
    [getCompressedDataSize] reserves per item. *)
Definition max_item_bits (w : nat) : Z :=
  if Nat.eqb w 1 then 12 else if Nat.eqb w 2 then 37 else 69.

Lemma dd_item_code_length w dd :
  width w -> uint (8 * Z.of_nat w) dd -> 1 <= blen (item_code w dd) <= max_item_bits w.
Proof.
  intros Hw Hu. unfold item_code. destruct (Z.eqb_spec dd 0) as [->|H0].
  { unfold max_item_bits. destruct Hw as [->|[->|[->| ->]]]; cbn; lia. }
  destruct (signed_cases w dd Hw Hu H0) as (Hr & Hr63 & Hv0).
  set (v := to_signed (8 * Z.of_nat w) dd) in *.
  rewrite !length_app, !length_bits_of. cbn [length].
  destruct (spec_cases v Hr63 Hv0) as [Hin _].
  destruct Hw as [->|[->|[->| ->]]]; cbn [max_item_bits Nat.eqb];
    try (set (spec := getDeltaWriteSpec v) in *; clearbody spec; repeat (destruct Hin as [<-|Hin]; [cbn; lia|]); done);
    clear Hin; unfold getDeltaWriteSpec; change (2 ^ (8 * Z.of_nat 1 - 1)) with 128 in Hr || change (2 ^ (8 * Z.of_nat 2 - 1)) with 32768 in Hr;
    repeat (match goal with |- context [if ?b then _ else _] => destruct b eqn:? end);
    rewrite ?andb_true_iff, ?andb_false_iff, ?Z.ltb_lt, ?Z.ltb_ge in *; cbn; lia.
Qed.

(** ** The loops *)
Fixpoint codes (w : nat) (prev_value prev_delta : Z) (values : list Z) : list bool :=
  match values with
  | [] => []
  | v :: rest =>
      let delta := wrap (8 * Z.of_nat w) (v - prev_value) in
      item_code w (wrap (8 * Z.of_nat w) (delta - prev_delta)) ++ codes w v delta rest
  end.

Lemma dd_write_loop_emits w values : forall pv pd,
  width w -> emits (write_loop w pv pd values) (codes w pv pd values).
Proof.
  induction values as [|v values IH]; intros pv pd Hw; cbn [write_loop codes]; [apply emits_ret|].
  apply (emits_bind (write_item w _)); [|by apply IH].
  apply dd_write_item_emits; [done|]. apply wrap_uint. lia.
Qed.

Lemma dd_codes_length w values : forall pv pd,
  width w -> blen values <= blen (codes w pv pd values) <= blen values * max_item_bits w.
Proof.
  induction values as [|v values IH]; intros pv pd Hw; cbn [codes length]; [lia|].
  rewrite length_app, Nat2Z.inj_add, Nat2Z.inj_succ.
  specialize (IH v (wrap (8 * Z.of_nat w) (v - pv)) Hw).
  pose proof (dd_item_code_length w (wrap (8 * Z.of_nat w) (wrap (8 * Z.of_nat w) (v - pv) - pd)) Hw
    ltac:(apply wrap_uint; lia)). lia.
Qed.

Lemma dd_read_loop_ok w values : forall pv pd room fuel r tail,
  width w -> Forall (uint (8 * Z.of_nat w)) values -> repr r (codes w pv pd values ++ tail) ->
  Z.of_nat (w * length values) <= room -> (length values <= fuel)%nat ->
  read_loop fuel w (blen values) pv pd room r = Ok (storeArray w values).
Proof.
  induction values as [|v values IH]; intros pv pd room fuel r tail Hw Hu Hr Hroom Hfuel.
  { by destruct fuel. }
  apply Forall_cons in Hu as [Hv Hu]. cbn [codes length] in *.
  set (delta := wrap (8 * Z.of_nat w) (v - pv)) in *.
  set (dd := wrap (8 * Z.of_nat w) (delta - pd)) in *.
  assert (uint (8 * Z.of_nat w) dd) as Hdd by (apply wrap_uint; lia).
  rewrite <- app_assoc in Hr. destruct fuel as [|fuel]; [lia|]. cbn [read_loop].
  destruct (Z.ltb_spec 0 (Z.of_nat (S (length values)))) as [_|]; [|lia].
  rewrite (eof_spec _ _ Hr), bool_decide_eq_false_2.
  2:{ intros E. apply (f_equal length) in E. rewrite !length_app in E.
      pose proof (dd_item_code_length w dd Hw Hdd). cbn in E. lia. }
  run. destruct (dd_read_item_reads w dd Hw Hdd r _ Hr) as (r' & -> & Hr'). run.
  assert (wrap (8 * Z.of_nat w) (dd + pd) = delta) as ->.
  { subst dd. rewrite wrap_add_l. replace (delta - pd + pd) with delta by lia.
    apply wrap_id, wrap_uint. lia. }
  assert (wrap (8 * Z.of_nat w) (pv + delta) = v) as ->.
  { subst delta. rewrite wrap_add_r. replace (pv + (v - pv)) with v by lia. by apply wrap_id. }
  fold delta. pass. replace (Z.of_nat (S (length values)) - 1) with (blen values) by lia.
  rewrite (IH v delta (room - Z.of_nat w) fuel r' tail); [done|done|done|done|nia|lia].
Qed.

Lemma getCompressedDataSize_ok w n :
  width w -> getCompressedDataSize (Z.of_nat w) n =
  Ok (wrap 32 (n / Z.of_nat w * max_item_bits w + 7) / 8).
Proof. intros [->|[->|[->| ->]]]; reflexivity. Qed.

(** Sources for which the 32-bit size computations do not overflow. *)
Definition dom (src : bytes) : Prop := bytes_ok src /\ blen src <= 2 ^ 27.

(** The bit writer for a list of values: what it holds after [flush]. *)
Lemma write_flush w pv pd values size :
  width w -> blen values * max_item_bits w <= 8 * size -> 0 <= size ->
  exists wr, (wr ← write_loop w pv pd values (BitWriter.make size); BitWriter.flush wr) = Ok wr /\
    bytes_ok (BitWriter.dest wr) /\ BitWriter.count wr = 8 * blen (BitWriter.dest wr) /\
    8 * blen (BitWriter.dest wr) <= blen values * max_item_bits w + 7 /\
    exists tail, bytes_bits (BitWriter.dest wr) = codes w pv pd values ++ tail.
Proof.
  intros Hw Hsize H0. pose proof (dd_codes_length w values pv pd Hw) as Hlen.
  destruct (emits_flush _ _ size (dd_write_loop_emits w values pv pd Hw) ltac:(lia))
    as (wr & E & Hok & Hc & Hl & Ht). exists wr. repeat split; auto. lia.
Qed.

(** ** Round trip *)
Lemma max_item_bits_pos w : 1 <= max_item_bits w <= 69.
Proof. unfold max_item_bits. repeat case_match; lia. Qed.

(** Decompressing a stream made of the header, the first two values and the
    codes of the others. *)
Lemma dd_decompress_stream w v0 v1 rest stream tail :
  width w -> Forall (uint (8 * Z.of_nat w)) (v0 :: v1 :: rest) -> bytes_ok stream ->
  let n := Z.of_nat (length (v0 :: v1 :: rest)) in
  n < 2 ^ 32 ->
  let delta := wrap (8 * Z.of_nat w) (v1 - v0) in
  bytes_bits stream = codes w v1 delta rest ++ tail ->
  decompressDataForType w (le_store 4 n ++ (le_store w v0 ++ le_store w delta) ++ stream)
    (Z.of_nat w * n) = Ok (storeArray w (v0 :: v1 :: rest), Z.of_nat w * n).
Proof.
  intros Hw Hu Hok n Hn delta Hbits. pose proof (width_bound w Hw) as Hwb.
  apply Forall_cons in Hu as [Hv0 Hu]. apply Forall_cons in Hu as [Hv1 Hu].
  assert (2 <= n /\ n = 2 + blen rest) as [Hn2 Hnr] by (subst n; cbn [length]; lia).
  assert (uint (8 * Z.of_nat w) delta) as Hdu by (apply wrap_uint; lia).
  unfold decompressDataForType. rewrite take_le_store, drop_le_store.
  rewrite (le_load_store_id 4 n) by (unfold uint; lia).
  destruct (Z.ltb_spec (blen (le_store 4 n ++ (le_store w v0 ++ le_store w delta) ++ stream)) 4); [len|].
  rewrite <- app_assoc, take_le_store, drop_le_store, take_le_store, drop_le_store.
  rewrite (le_load_store_id w v0), (le_load_store_id w delta) by done.
  destruct (Z.ltb_spec (blen (le_store w v0 ++ le_store w delta ++ stream)) (Z.of_nat w)); [len|].
  destruct (Z.ltb_spec n 1); [lia|]. cbn [orb].
  rewrite bind_require by (apply negb_true_iff, Z.ltb_ge; nia).
  destruct (Z.ltb_spec (blen (le_store w delta ++ stream)) (Z.of_nat w)); [len|].
  destruct (Z.ltb_spec n 2); [lia|]. cbn [orb].
  assert (wrap (8 * Z.of_nat w) (v0 + delta) = v1) as ->.
  { subst delta. rewrite wrap_add_r. replace (v0 + (v1 - v0)) with v1 by lia. by apply wrap_id. }
  rewrite bind_require by (apply negb_true_iff, Z.ltb_ge; nia).
  replace (n - 2) with (blen rest) by lia.
  rewrite (dd_read_loop_ok w rest v1 delta _ _ _ tail).
  - run. f_equal. f_equal. len.
  - done.
  - done.
  - rewrite <- Hbits. by apply reader_repr_make.
  - nia.
  - replace (Z.of_nat w * n - Z.of_nat w) with ((n - 1) * Z.of_nat w) by lia.
    rewrite Z.div_mul by lia. lia.
Qed.

Lemma decompress_short w vs :
  width w -> Forall (uint (8 * Z.of_nat w)) vs -> (length vs <= 1)%nat ->
  decompressDataForType w (le_store 4 (blen vs) ++ storeArray w vs) (Z.of_nat w * blen vs) =
    Ok (storeArray w vs, Z.of_nat w * blen vs).
Proof.
  intros Hw Hu H1. pose proof (width_bound w Hw) as Hwb.
  unfold decompressDataForType. rewrite take_le_store, drop_le_store.
  rewrite (le_load_store_id 4) by (unfold uint; lia).
  destruct (Z.ltb_spec (blen (le_store 4 (blen vs) ++ storeArray w vs)) 4); [len|].
  destruct vs as [|v0 [|]]; [| |cbn in H1; lia].
  - cbn [storeArray length]. destruct (Z.ltb_spec (Z.of_nat 0) (Z.of_nat w)); [|lia]. cbn [orb]. do 2 f_equal. lia.
  - apply Forall_cons in Hu as [Hv0 _]. cbn [storeArray]. rewrite app_nil_r.
    destruct (Z.ltb_spec (blen (le_store w v0)) (Z.of_nat w)); [len|].
    change (blen [v0] <? 1) with false. cbn [orb]. rewrite bind_require by len.
    rewrite take_ge, drop_ge by len. rewrite le_load_store_id by done. cbn [length].
    destruct (Z.ltb_spec (Z.of_nat 0) (Z.of_nat w)); [|lia]. cbn [orb]. do 2 f_equal. lia.
Qed.

Section PerType.
  Context (w : nat) (src : bytes) (Hw : width w) (Hmod : (length src mod w = 0)%nat) (Hdom : dom src).
Let values := loadArray w src.

Lemma values_facts :
    blen src / Z.of_nat w = blen values /\ blen src = Z.of_nat w * blen values /\
    Forall (uint (8 * Z.of_nat w)) values /\ storeArray w values = src /\
    blen values * max_item_bits w + 7 < 2 ^ 32.
  Proof using Hw Hmod Hdom.
    destruct Hdom as [Hok Hlen]. destruct (aligned_values w src Hw Hmod Hok) as (_ & Hc & Hsz & Hu & Hst).
    fold values in Hc, Hsz, Hu, Hst. repeat split; auto.
    destruct Hw as [->|[->|[->| ->]]]; unfold max_item_bits; cbn [Nat.eqb]; lia.
  Qed.

  (** With at most one value, only the count and that value are written. *)
Lemma compress_short :
    (length values <= 1)%nat ->
    compressDataForType w src =
      Ok (le_store 4 (blen values) ++ storeArray w values, 4 + Z.of_nat w * blen values).
  Proof using Hw Hmod Hdom.
    intros H1. destruct values_facts as (Hcnt & Hsz & _ & _ & _). pose proof (width_bound w Hw) as Hwb.
    unfold compressDataForType. rewrite bind_require by (apply Z.eqb_eq; rewrite <- Nat2Z.inj_mod; lia).
    rewrite getCompressedDataSize_ok, Hcnt by done. run. fold values.
    set (size := wrap 32 _ / 8).
    assert (0 <= size) as Hsize by (apply Z.div_pos; [apply wrap_uint; lia|lia]).
    assert (forall pv, exists wr, (wr ← write_loop w pv 0 [] (BitWriter.make size); BitWriter.flush wr) = Ok wr /\
      BitWriter.dest wr = [] /\ BitWriter.count wr = 0) as Hwr.
    { intros pv. destruct (write_flush w pv 0 [] size Hw) as (wr & E & _ & Hwc & Hwl & _); [cbn; lia|done|].
      assert (BitWriter.dest wr = []) as Hnil by (apply nil_length_inv; cbn in Hwl; lia).
      exists wr. rewrite Hnil in Hwc. auto. }
    destruct values as [|v0 [|]]; [| |cbn in H1; lia]; rewrite bind_assoc_flush.
    - destruct (Hwr 0) as (wr & -> & Hd & Hc). run. rewrite Hd, Hc. cbn [length storeArray]. by rewrite Z.mul_0_r.
    - destruct (Hwr v0) as (wr & -> & Hd & Hc). run. cbn [storeArray].
      rewrite Hd, Hc, wrap_id by (unfold uint; change ((0 + 7) / 8) with 0; len).
      do 2 f_equal. change ((0 + 7) / 8) with 0. len.
  Qed.

Lemma compress_long v0 v1 rest :
    values = v0 :: v1 :: rest ->
    let delta := wrap (8 * Z.of_nat w) (v1 - v0) in
    exists stream tail, bytes_ok stream /\ bytes_bits stream = codes w v1 delta rest ++ tail /\
      8 * blen stream <= blen rest * max_item_bits w + 7 /\
      let body := le_store 4 (blen values) ++ (le_store w v0 ++ le_store w delta) ++ stream in
      compressDataForType w src = Ok (body, blen body).
  Proof using Hw Hmod Hdom.
    intros Hvals delta. destruct values_facts as (Hcnt & Hsz & _ & _ & Hov). pose proof (width_bound w Hw) as Hwb.
    pose proof (max_item_bits_pos w) as Hmb.
    unfold compressDataForType. rewrite bind_require by (apply Z.eqb_eq; rewrite <- Nat2Z.inj_mod; lia).
    rewrite getCompressedDataSize_ok, Hcnt by done. run. fold values. rewrite Hvals in *. fold delta.
    cbn [length] in *. destruct Hdom as [_ Hlen].
    rewrite (wrap_id 32 (blen src - _)) by (unfold uint; nia).
    assert ((blen src - Z.of_nat w * 2) / Z.of_nat w = blen rest) as ->.
    { replace (blen src - Z.of_nat w * 2) with (blen rest * Z.of_nat w) by lia. apply Z.div_mul. lia. }
    rewrite (wrap_id 32 (blen rest * _ + 7)) by (unfold uint; nia).
    destruct (write_flush w v1 delta rest ((blen rest * max_item_bits w + 7) / 8) Hw)
      as (wr & E & Hwok & Hwc & Hwl & tail & Htail); [dlia|dlia|].
    rewrite bind_assoc_flush, E. run. exists (BitWriter.dest wr), tail. repeat split; auto.
    rewrite Hwc. do 2 f_equal. rewrite !length_app, !length_le_store in *. rewrite wrap_id; unfold uint; dlia.
  Qed.

Lemma dd_type_roundtrip :
    exists body, compressDataForType w src = Ok (body, blen body) /\ bytes_ok body /\
      blen body <= 4 + 2 * Z.of_nat w + (blen src / Z.of_nat w * max_item_bits w + 7) / 8 /\
      decompressDataForType w body (blen src) = Ok (src, blen src).
  Proof using Hw Hmod Hdom.
    destruct values_facts as (Hcnt & Hsz & Hu & Hst & Hov). pose proof (width_bound w Hw) as Hwb.
    pose proof (max_item_bits_pos w) as Hmb.
    destruct (decide (length values <= 1)%nat) as [H1|H1].
    - rewrite compress_short, Hst by done. eexists. split; [f_equal; f_equal; len|].
      split; [rewrite Forall_app; split; [apply le_store_bytes|apply Hdom]|].
      rewrite Hcnt. split; [assert (0 <= (blen values * max_item_bits w + 7) / 8) by dlia; rewrite length_app, length_le_store; nia|].
      pose proof (decompress_short w values Hw Hu H1) as Hd. rewrite Hst in Hd. by rewrite Hsz.
    - destruct values as [|v0 [|v1 rest]] eqn:Hvals; [cbn in H1; lia|cbn in H1; lia|]. clear H1.
      destruct (compress_long v0 v1 rest Hvals) as (stream & tail & Hok & Hbits & Hl & E).
      rewrite Hvals in E. eexists. split; [exact E|]. split; [rewrite !Forall_app; auto with chdb|].
      rewrite Hcnt. split; [rewrite !length_app, !length_le_store; cbn [length] in *; dlia|].
      pose proof (dd_decompress_stream w v0 v1 rest stream tail Hw Hu Hok) as Hd.
      rewrite Hst in Hd. rewrite Hsz. apply Hd; [cbn [length] in *; nia|done].
  Qed.
End PerType.

Lemma dom_drop k src : dom src -> dom (drop k src).
Proof. intros [Hok Hl]. split; [by apply Forall_drop|len]. Qed.

(** The announced size, which is computed from the whole source, covers what
    is written for its aligned part. *)
Lemma max_size_bound w (src : bytes) (skip : nat) :
  width w -> dom src -> (skip < w)%nat -> blen src - Z.of_nat skip = blen (drop skip src) ->
  exists m, getMaxCompressedDataSize (Z.of_nat w) (blen src) = Ok m /\
    2 + Z.of_nat skip + (4 + 2 * Z.of_nat w + (blen (drop skip src) / Z.of_nat w * max_item_bits w + 7) / 8) <= m /\
    m < 2 ^ 32.
Proof.
  intros Hw [_ Hlen] Hs Hrest. pose proof (width_bound w Hw) as Hwb. pose proof (max_item_bits_pos w) as Hmb.
  unfold getMaxCompressedDataSize, getCompressedHeaderSize. rewrite getCompressedDataSize_ok by done. run.
  eexists; split; [reflexivity|].
  assert (0 <= blen src / Z.of_nat w * max_item_bits w + 7 < 2 ^ 32 - 100) as Hov.
  { destruct Hw as [->|[->|[->| ->]]]; unfold max_item_bits; cbn [Nat.eqb]; dlia. }
  assert (blen (drop skip src) / Z.of_nat w * max_item_bits w <= blen src / Z.of_nat w * max_item_bits w) as Hle.
  { apply Z.mul_le_mono_nonneg_r; [lia|]. apply Z.div_le_mono; lia. }
  rewrite (wrap_id 32 (_ + 7)) by (unfold uint; lia). rewrite wrap_id; [dlia|]. unfold uint. dlia.
Qed.

Lemma dd_data_roundtrip w src :
  width w -> dom src ->
  exists out m, doCompressData (Z.of_nat w) src = Ok (out, blen out) /\ bytes_ok out /\
    getMaxCompressedDataSize (Z.of_nat w) (blen src) = Ok m /\ blen out <= m /\ m < 2 ^ 32 /\
    doDecompressData out (blen src) = Ok (src, blen src).
Proof.
  intros Hwidth Hdom. pose proof Hdom as [Hok Hlen]. pose proof (width_bound w Hwidth) as Hw.
  assert ((0 < w <= 32)%nat) as Hw32 by lia.
  destruct (skip_eq w src Hw32) as (Hskip & Hlt & _). pose proof (framed_rest w src Hw32) as Hrest.
  destruct (dd_type_roundtrip w _ Hwidth (skip_aligned w src Hw32) (dom_drop _ _ Hdom)) as (body & Hc & Hbok & Hbl & Hd).
  pose proof (framed_length w src Hw32 body) as Hout.
  set (skip := Z.to_nat (bytes_to_skip (blen src) (Z.of_nat w))) in *.
  destruct (max_size_bound w src skip Hwidth Hdom ltac:(lia) Hrest) as (m & Hm & Hmle & Hm32).
  exists (framed w src body), m.
  split; [|split; [by apply framed_bytes|split; [done|split; [lia|split; [done|]]]]].
  - unfold doCompressData. rewrite Hskip, Nat2Z.id, switch_width_ok, Hc by done. run.
    rewrite Hout, wrap_id by (unfold uint; lia). do 2 f_equal. lia.
  - unfold doDecompressData. rewrite bind_require by blia.
    change (nth 0 (framed w src body) 0) with (Z.of_nat w).
    rewrite bind_require by (apply is_width_spec; eauto).
    rewrite Hskip, Hrest. unfold skip. rewrite framed_body, Nat2Z.id, framed_head by done. fold skip.
    rewrite bind_require by blia. rewrite switch_width_ok, Hd by done. run.
    rewrite take_drop, wrap_id by (unfold uint; lia). do 2 f_equal. lia.
Qed.

#[export] Instance dd_pair w w' e e' : width w ->
  CodecPair (codec (Z.of_nat w) e) (codec w' e') dom.
Proof.
  intros Hwidth. split; cbn [getMethodByte codec Codec.doCompressData Codec.doDecompressData Codec.getMaxCompressedDataSize].
  - done.
  - unfold uint; cbn; lia.
  - intros src Hd. destruct (dd_data_roundtrip w src Hwidth Hd) as (out & m & ? & ? & ? & ? & ? & ?). eauto 10.
Qed.

(** ** Arbitrary input *)
Definition lut_entry_ok (s : WriteSpec) : bool :=
  (0 <=? prefix_bits s) && (prefix_bits s <? 128) &&
  ((data_bits s =? 0) || (1 <? data_bits s) && (data_bits s <=? 65)).

Lemma lut_total byte : uint 8 byte ->
  exists spec, WRITE_SPEC_LUT !! Z.to_nat (Z.shiftr byte (8 - 5)) = Some spec /\
    0 <= prefix_bits spec < 128 /\ (data_bits spec = 0 \/ 1 < data_bits spec <= 65).
Proof.
  intros [H0 H1]. rewrite Z.shiftr_div_pow2 by lia. change (2 ^ (8 - 5)) with 8.
  assert (0 <= byte / 8 < 32) as Hr by (cbn in H1; dlia).
  destruct (lookup_lt_is_Some_2 WRITE_SPEC_LUT (Z.to_nat (byte / 8))) as [spec E]; [cbn; lia|].
  exists spec. split; [done|].
  assert (forallb lut_entry_ok WRITE_SPEC_LUT = true) as Hall by (vm_compute; reflexivity).
  rewrite forallb_forall in Hall. specialize (Hall spec).
  rewrite <- list_elem_of_In in Hall. specialize (Hall (list_elem_of_lookup_2 _ _ _ E)).
  unfold lut_entry_ok in Hall. lia.
Qed.

Lemma read_item_safe w r :
  wf r -> exists dd r', read_item w r = Ok (dd, r') /\ wf r'.
Proof.
  intros Hr. unfold read_item. destruct (peekByte_wf r Hr) as (byte & r1 & -> & Hb & Hr1). run.
  destruct (lut_total byte Hb) as (spec & -> & Hp & Hd).
  destruct (skipBufferedBits_wf (prefix_bits spec) r1 ltac:(lia)) as (r2 & -> & Hr2). run.
  destruct (Z.eqb_spec (data_bits spec) 0); [eauto|].
  unfold BitReader.readBit. destruct (readBits_wf 1 r2 ltac:(lia) Hr2) as (v & r3 & -> & Hr3). run.
  destruct (readBits_wf (data_bits spec - 1) r3 ltac:(lia) Hr3) as (v' & r4 & -> & Hr4). run. eauto.
Qed.

Lemma read_loop_safe w fuel : forall left pv pd room r,
  wf r -> 0 <= room < Z.of_nat w * Z.of_nat fuel ->
  match read_loop fuel w left pv pd room r with
  | Ok out => blen out <= room
  | Throw _ => True
  | Undef => False
  end.
Proof.
  induction fuel as [|fuel IH]; intros left pv pd room r Hr Hf; cbn [read_loop];
    (destruct (_ && _); [|cbn; lia]); [lia|].
  destruct (read_item_safe w r Hr) as (dd & r' & -> & Hr'). run.
  destruct (Z.ltb_spec room (Z.of_nat w)); run; [done|].
  match goal with |- context [read_loop fuel w ?a ?b ?c ?d r'] => specialize (IH a b c d r' Hr' ltac:(lia)) end.
  destruct read_loop; run; [len|done|done].
Qed.

Lemma type_safe w src n :
  width w -> 0 <= n ->
  match decompressDataForType w src n with
  | Ok (out, r) => blen out <= n /\ r = blen out
  | Throw _ => True
  | Undef => False
  end.
Proof.
  intros Hw Hn. pose proof (width_bound w Hw) as Hwb. unfold decompressDataForType.
  destruct (_ <? 4); [cbn; lia|].
  destruct (_ || _); [cbn; lia|].
  destruct (Z.ltb_spec n (Z.of_nat w)); run; [done|].
  destruct (_ || _); [len|].
  destruct (Z.ltb_spec (n - Z.of_nat w) (Z.of_nat w)); run; [done|].
  match goal with |- context [read_loop ?f w ?a ?b ?c ?d ?r] =>
    assert (Hs := read_loop_safe w f a b c d r);
    assert (wf r /\ 0 <= d < Z.of_nat w * Z.of_nat f) as [Hr Hf] end.
  { split; [unfold wf, uint; cbn; lia|].
    pose proof (Z.div_mod (n - Z.of_nat w) (Z.of_nat w) ltac:(lia)).
    pose proof (Z.mod_pos_bound (n - Z.of_nat w) (Z.of_nat w) ltac:(lia)).
    assert (0 <= (n - Z.of_nat w) / Z.of_nat w) by (apply Z.div_pos; lia). lia. }
  specialize (Hs Hr Hf). destruct read_loop as [out|e|]; run; [len|done|done].
Qed.

#[export] Instance dd_safe size e : SafeDecoder (codec size e).
Proof.
  split. intros e0 src n Hok [Hn0 Hn]. cbn [codec Codec.doDecompressData]. unfold doDecompressData.
  destruct (Z.ltb_spec (blen src) 2); run; [done|].
  destruct (is_width (nth 0 src 0)) eqn:Hwid; run; [|done].
  apply is_width_spec in Hwid as (w & -> & Hwid). pose proof (width_bound w Hwid) as Hw.
  destruct (skip_of_size n w ltac:(lia) Hn0) as [Hs1 Hs2].
  set (skip := bytes_to_skip n (Z.of_nat w)) in *.
  destruct (Z.ltb_spec (blen src) (2 + skip)); run; [done|].
  rewrite switch_width_ok by done.
  pose proof (type_safe w (drop (Z.to_nat (2 + skip)) src) (n - skip) Hwid ltac:(lia)) as Hs.
  destruct decompressDataForType as [[out r]|e'|]; run; [|done|done].
  rewrite wrap_id by (unfold uint; lia). len.
Qed.
End CompressionCodecDoubleDelta.
