(* ===== verification/CodecGorilla.v ===== *)
(** * The Gorilla codec

    [src/Compression/CompressionCodecGorilla.cpp]: the first value is stored
    in full; every other one as the exclusive or with its predecessor, coded
    as the bit [0] when it is zero, as [10] and the bits inside the previous
    window of significant bits when it fits there, and as [11], the position
    and length of a new window and its bits otherwise. *)

From stdpp Require Import prelude.
From Stdlib Require Import ZArith Lia.
From S2P Require Import Prelude Bits BitIO Codec CodecDelta.

Module CompressionCodecGorilla.
Import BitWriterFacts BitReaderFacts.

Definition getBitLengthOfLength (data_bytes_size : Z) : Z :=
  default 0 ([0; 4; 5; 0; 6; 0; 0; 0; 7] !! Z.to_nat data_bytes_size).

Definition getCompressedHeaderSize (data_bytes_size : Z) : Z := 4 + data_bytes_size.

(** [static const auto DATA_BIT_LENGTH = getBitLengthOfLength(data_bytes_size);]
    inside [getCompressedDataSize], which is not a template: [st] is the state
    of that variable before the call, and the first call of the process
    initialises it. *)
Definition init_static (st : option Z) (data_bytes_size : Z) : Z :=
  default (getBitLengthOfLength data_bytes_size) st.

Definition getCompressedDataSize (st : option Z) (data_bytes_size uncompressed_size : Z) : Z :=
  let items_count := uncompressed_size / data_bytes_size in
  let DATA_BIT_LENGTH := init_static st data_bytes_size in
  let LEADING_ZEROES_BIT_LENGTH := DATA_BIT_LENGTH - 1 in
  let max_item_size_bits :=
    wrap 32 (2 + LEADING_ZEROES_BIT_LENGTH + DATA_BIT_LENGTH + data_bytes_size * 8) in
  wrap 32 (items_count * max_item_size_bits + 8) / 8.

Record BinaryValueInfo := mkInfo { leading_zero_bits : Z; data_bits : Z; trailing_zero_bits : Z }.

(** The width at which [^] works on two [w] byte values: [UInt8] and [UInt16]
    are promoted to [int]. *)
Definition promoted (w : nat) : Z := Z.max 32 (8 * Z.of_nat w).

(** [getBinaryValueInfo<T>] for a [T] of [bit_size] bits. *)
Definition getBinaryValueInfo (bit_size value : Z) : BinaryValueInfo :=
  let lz := wrap 8 (getLeadingZeroBits bit_size value) in
  let tz := wrap 8 (getTrailingZeroBits bit_size value) in
  let data_size := if value =? 0 then 0 else wrap 8 (bit_size - lz - tz) in
  mkInfo lz data_size tz.

(** One iteration of the writing loop. *)
Definition write_item (w : nat) (prev_xored_info : BinaryValueInfo) (xored_data : Z) (writer : BitWriter.t)
    : outcome (BinaryValueInfo * BitWriter.t) :=
  let DATA_BIT_LENGTH := getBitLengthOfLength (Z.of_nat w) in
  let LEADING_ZEROES_BIT_LENGTH := DATA_BIT_LENGTH - 1 in
  let curr_xored_info := getBinaryValueInfo (promoted w) xored_data in
  if xored_data =? 0 then
    writer ← BitWriter.writeBits 1 0 writer;
    Ok (prev_xored_info, writer)
  else if negb (data_bits prev_xored_info =? 0)
          && (leading_zero_bits prev_xored_info <=? leading_zero_bits curr_xored_info)
          && (trailing_zero_bits prev_xored_info <=? trailing_zero_bits curr_xored_info) then
    writer ← BitWriter.writeBits 2 2 writer;
    writer ← BitWriter.writeBits (data_bits prev_xored_info)
               (Z.shiftr xored_data (trailing_zero_bits prev_xored_info)) writer;
    Ok (prev_xored_info, writer)
  else
    writer ← BitWriter.writeBits 2 3 writer;
    writer ← BitWriter.writeBits LEADING_ZEROES_BIT_LENGTH (leading_zero_bits curr_xored_info) writer;
    writer ← BitWriter.writeBits DATA_BIT_LENGTH (data_bits curr_xored_info) writer;
    writer ← BitWriter.writeBits (data_bits curr_xored_info)
               (Z.shiftr xored_data (trailing_zero_bits curr_xored_info)) writer;
    Ok (curr_xored_info, writer).

Fixpoint write_loop (w : nat) (prev_xored_info : BinaryValueInfo) (prev_value : Z) (values : list Z)
    (writer : BitWriter.t) : outcome BitWriter.t :=
  match values with
  | [] => Ok writer
  | curr_value :: rest =>
      '(info, writer) ← write_item w prev_xored_info (Z.lxor curr_value prev_value) writer;
      write_loop w info curr_value rest writer
  end.

Definition compressDataForType (w : nat) (source : bytes) (dest_size : Z) : outcome (bytes * Z) :=
  let source_size := blen source in
  _ ← require (source_size mod Z.of_nat w =? 0) CANNOT_COMPRESS;
  let items_count := source_size / Z.of_nat w in
  let '(head, prev_value, values) :=
    match loadArray w source with
    | [] => ([], 0, [])
    | v0 :: rest => (le_store w v0, v0, rest)
    end in
  writer ← write_loop w (mkInfo 0 0 0) prev_value values
             (BitWriter.make (dest_size - (4 + blen head)));
  writer ← BitWriter.flush writer;
  Ok (le_store 4 items_count ++ head ++ BitWriter.dest writer,
      wrap 32 (4 + blen head + (BitWriter.count writer + 7) / 8)).

(** One iteration of the reading loop: the window and the value. *)
Definition read_item (w : nat) (prev_xored_info : BinaryValueInfo) (prev_value : Z) (reader : BitReader.t)
    : outcome (BinaryValueInfo * Z * BitReader.t) :=
  let bits := 8 * Z.of_nat w in
  let DATA_BIT_LENGTH := getBitLengthOfLength (Z.of_nat w) in
  let LEADING_ZEROES_BIT_LENGTH := DATA_BIT_LENGTH - 1 in
  '(b, reader) ← BitReader.readBit reader;
  if b =? 1 then
    '(b, reader) ← BitReader.readBit reader;
    '(curr_xored_info, reader) ←
      (if b =? 1 then
         '(lz, reader) ← BitReader.readBits LEADING_ZEROES_BIT_LENGTH reader;
         '(db, reader) ← BitReader.readBits DATA_BIT_LENGTH reader;
         let lz := wrap 8 lz in
         let db := wrap 8 db in
         Ok (mkInfo lz db (wrap 8 (bits - lz - db)), reader)
       else Ok (prev_xored_info, reader));
    _ ← require (negb ((leading_zero_bits curr_xored_info =? 0)
                       && (data_bits curr_xored_info =? 0)
                       && (trailing_zero_bits curr_xored_info =? 0))) CANNOT_DECOMPRESS;
    '(x, reader) ← BitReader.readBits (data_bits curr_xored_info) reader;
    let xored_data := wrap bits x in
    _ ← defined (trailing_zero_bits curr_xored_info <? promoted w);
    let xored_data := wrap bits (Z.shiftl xored_data (trailing_zero_bits curr_xored_info)) in
    Ok (curr_xored_info, Z.lxor prev_value xored_data, reader)
  else Ok (prev_xored_info, prev_value, reader).

(** [for (items_read = 1; items_read < items_count && !reader.eof(); ++items_read)] *)
Fixpoint read_loop (items_left : nat) (w : nat) (prev_xored_info : BinaryValueInfo) (prev_value : Z)
    (reader : BitReader.t) : outcome bytes :=
  match items_left with
  | O => Ok []
  | S items_left =>
      if BitReader.eof reader then Ok []
      else
        '(info, curr_value, reader) ← read_item w prev_xored_info prev_value reader;
        out ← read_loop items_left w info curr_value reader;
        Ok (le_store w curr_value ++ out)
  end.

Definition decompressDataForType (w : nat) (source : bytes) (dest_size : Z) : outcome (bytes * Z) :=
  if blen source <? 4 then Ok ([], 0)
  else
    let items_count := le_load (take 4 source) in
    let source := drop 4 source in
    if (blen source <? Z.of_nat w) || (items_count <? 1) then Ok ([], 0)
    else
      _ ← require (negb (dest_size <? items_count * Z.of_nat w)) CANNOT_DECOMPRESS;
      let prev_value := le_load (take w source) in
      let reader := BitReader.make (drop w source) in
      out ← read_loop (Z.to_nat (items_count - 1)) w (mkInfo 0 0 0) prev_value reader;
      let out := le_store w prev_value ++ out in
      Ok (out, blen out).

Definition getMaxCompressedDataSize (st : option Z) (data_bytes_size uncompressed_size : Z) : Z :=
  wrap 32 (2 + data_bytes_size + getCompressedHeaderSize data_bytes_size
           + getCompressedDataSize st data_bytes_size uncompressed_size).

Definition doCompressData (st : option Z) (data_bytes_size : Z) (source : bytes) : outcome (bytes * Z) :=
  let source_size := blen source in
  let skip := bytes_to_skip source_size data_bytes_size in
  let header := [data_bytes_size; skip] ++ take (Z.to_nat skip) source in
  let rest := drop (Z.to_nat skip) source in
  let compressed_size := getMaxCompressedDataSize st data_bytes_size source_size in
  '(body, result_size) ← switch_width data_bytes_size LOGICAL_ERROR
                           (fun w => compressDataForType w rest compressed_size);
  Ok (header ++ body, wrap 32 (2 + skip + result_size)).

Definition doDecompressData (source : bytes) (uncompressed_size : Z) : outcome (bytes * Z) :=
  let source_size := blen source in
  _ ← require (negb (source_size <? 2)) CANNOT_DECOMPRESS;
  let bytes_size := nth 0 source 0 in
  _ ← require (negb (bytes_size =? 0)) CANNOT_DECOMPRESS;
  let skip := bytes_to_skip uncompressed_size bytes_size in
  _ ← require (negb (source_size <? 2 + skip)) CANNOT_DECOMPRESS;
  _ ← require (negb (uncompressed_size <? skip)) CANNOT_DECOMPRESS;
  let head := take (Z.to_nat skip) (drop 2 source) in
  if skip =? uncompressed_size then Ok (head, uncompressed_size)
  else
    let rest := drop (Z.to_nat (2 + skip)) source in
    '(out, n) ← switch_width bytes_size CANNOT_DECOMPRESS
                  (fun w => decompressDataForType w rest (uncompressed_size - skip));
    Ok (head ++ out, wrap 32 (skip + n)).

Definition codec (st : option Z) (data_bytes_size : Z) (err : ErrorCode) : ICompressionCodec := {|
  getMethodByte := methodByte Gorilla;
  Codec.getMaxCompressedDataSize := fun n => Ok (getMaxCompressedDataSize st data_bytes_size n);
  Codec.doCompressData := doCompressData st data_bytes_size;
  Codec.doDecompressData := fun _ => doDecompressData;
  getAdditionalSizeAtTheEndOfBuffer := 0;
  isCompression := true;
  isNone := false;
  isGenericCompression := false;
  isDeltaCompression := false;
  isFloatingPointTimeSeriesCodec := true;
  isEncryption := false;
  isExperimental := false;
  decompression_error_code := err
|}.

(** ** The code of one value *)
Section Item.
  Context (w : nat) (Hw : width w).
Let P := promoted w.
Let D := getBitLengthOfLength (Z.of_nat w).

  (** A window inside the value: what the writer keeps. *)
Definition window_ok (i : BinaryValueInfo) : Prop :=
    P - 8 * Z.of_nat w <= leading_zero_bits i /\ 0 < data_bits i /\ 0 <= trailing_zero_bits i /\
    leading_zero_bits i + data_bits i + trailing_zero_bits i = P.

  (** The significant bits of [x] lie inside the window. *)
Definition in_window (i : BinaryValueInfo) (x : Z) : Prop :=
    x < 2 ^ (data_bits i + trailing_zero_bits i) /\ (2 ^ trailing_zero_bits i | x).

Lemma widths : 8 * Z.of_nat w <= P <= 64 /\ 4 <= D <= 7 /\ 8 * Z.of_nat w <= 64 /\
    8 * Z.of_nat w < 2 ^ D /\ 2 ^ (D - 1) = 8 * Z.of_nat w /\ (P - 8 * Z.of_nat w) mod 2 ^ (D - 1) = 0.
  Proof using Hw. subst P D. unfold promoted. destruct Hw as [->|[->|[->| ->]]]; split_and!; vm_compute; congruence. Qed.

Lemma value_info x :
    0 < x -> uint (8 * Z.of_nat w) x ->
    window_ok (getBinaryValueInfo P x) /\ in_window (getBinaryValueInfo P x) x.
  Proof using Hw.
    intros Hx [_ Hu]. destruct widths as (HP & _ & H8 & _). unfold getBinaryValueInfo.
    assert (Z.log2 x < 8 * Z.of_nat w) as Hlog by (apply Z.log2_lt_pow2; lia).
    pose proof (Z.log2_nonneg x) as Hlog0.
    unfold getLeadingZeroBits. destruct (Z.eqb_spec x 0); [lia|].
    destruct (getTrailingZeroBits_spec P x Hx) as [Ht0 Htd].
    set (tz := getTrailingZeroBits P x) in *.
    assert (tz <= Z.log2 x) as Htl.
    { apply Z.log2_le_pow2; [lia|]. by apply Z.divide_pos_le. }
    rewrite (wrap_id 8 (P - 1 - Z.log2 x)), (wrap_id 8 tz) by (unfold uint; cbn; lia).
    rewrite wrap_id by (unfold uint; cbn; lia).
    unfold window_ok, in_window. cbn [leading_zero_bits data_bits trailing_zero_bits].
    repeat split; try lia; [|done].
    replace (P - (P - 1 - Z.log2 x) - tz + tz) with (Z.succ (Z.log2 x)) by lia.
    apply Z.log2_spec. lia.
  Qed.

Definition fits (prev curr : BinaryValueInfo) : bool :=
    negb (data_bits prev =? 0) && (leading_zero_bits prev <=? leading_zero_bits curr)
    && (trailing_zero_bits prev <=? trailing_zero_bits curr).

Lemma fits_window prev curr x :
    window_ok prev -> window_ok curr -> fits prev curr = true -> in_window curr x -> in_window prev x.
  Proof using Hw.
    unfold fits, window_ok, in_window. rewrite !andb_true_iff, !Z.leb_le.
    intros Hp Hc [[_ Hl] Ht] [Hlt Hd]. split.
    - eapply Z.lt_le_trans; [exact Hlt|]. apply Z.pow_le_mono_r; lia.
    - etrans; [|exact Hd]. exists (2 ^ (trailing_zero_bits curr - trailing_zero_bits prev)).
      rewrite <- Z.pow_add_r by lia. f_equal. lia.
  Qed.

  (** The bits of [x] inside its window determine [x]. *)
Lemma in_window_bits i x :
    window_ok i -> 0 <= x -> in_window i x ->
    uint (data_bits i) (Z.shiftr x (trailing_zero_bits i)) /\
    Z.shiftl (Z.shiftr x (trailing_zero_bits i)) (trailing_zero_bits i) = x.
  Proof using Hw.
    unfold window_ok, in_window. intros Hi Hx [Hlt [k ->]].
    rewrite Z.shiftr_div_pow2, Z.shiftl_mul_pow2, Z.div_mul by lia. split; [|done].
    rewrite Z.pow_add_r in Hlt by lia. pose proof (Z.pow_pos_nonneg 2 (trailing_zero_bits i)).
    unfold uint. nia.
  Qed.

Definition next_info (prev : BinaryValueInfo) (x : Z) : BinaryValueInfo :=
    let curr := getBinaryValueInfo P x in
    if x =? 0 then prev else if fits prev curr then prev else curr.

Definition window_bits (i : BinaryValueInfo) (x : Z) : list bool :=
    bits_of (Z.to_nat (data_bits i)) (Z.shiftr x (trailing_zero_bits i)).

Definition item_code (prev : BinaryValueInfo) (x : Z) : list bool :=
    let curr := getBinaryValueInfo P x in
    if x =? 0 then [false]
    else if fits prev curr then [true; false] ++ window_bits prev x
    else [true; true] ++ bits_of (Z.to_nat (D - 1)) (leading_zero_bits curr)
         ++ bits_of (Z.to_nat D) (data_bits curr) ++ window_bits curr x.

  (** Before the first window, both sides hold zeros. *)
Definition info_ok (i : BinaryValueInfo) : Prop := i = mkInfo 0 0 0 \/ window_ok i.

Lemma next_info_ok prev x :
    info_ok prev -> uint (8 * Z.of_nat w) x -> info_ok (next_info prev x).
  Proof using Hw.
    intros Hp Hx. unfold next_info. destruct (Z.eqb_spec x 0); [done|]. destruct (fits _ _); [done|].
    right. apply value_info; [|done]. destruct Hx. lia.
  Qed.

Lemma fits_ok prev curr : info_ok prev -> fits prev curr = true -> window_ok prev.
  Proof using Hw. by intros [->|]. Qed.

Lemma gorilla_item_code_length prev x :
    info_ok prev -> uint (8 * Z.of_nat w) x ->
    1 <= blen (item_code prev x) <= 2 + (D - 1) + D + 8 * Z.of_nat w.
  Proof using Hw.
    intros Hp Hx. destruct widths as (HP & HD & H8 & _). unfold item_code, window_bits.
    destruct (Z.eqb_spec x 0); [cbn; lia|].
    destruct (value_info x ltac:(destruct Hx; lia) Hx) as [Hi _].
    destruct (fits _ _) eqn:Hf; rewrite !length_app, !length_bits_of; cbn [length].
    - apply fits_ok in Hf as Hwp; [|done]. unfold window_ok in *. lia.
    - unfold window_ok in *. lia.
  Qed.

Lemma window_bits_emits i x :
    window_ok i ->
    emits (BitWriter.writeBits (data_bits i) (Z.shiftr x (trailing_zero_bits i))) (window_bits i x).
  Proof using Hw.
    intros Hi. destruct widths as (HP & _). unfold window_ok in Hi. apply emits_writeBits; lia.
  Qed.

Lemma gorilla_write_item_emits prev x :
    info_ok prev -> uint (8 * Z.of_nat w) x ->
    emits_value (write_item w prev x) (next_info prev x) (item_code prev x).
  Proof using Hw.
    intros Hp Hx. destruct widths as (HP & HD & _). unfold write_item, item_code, next_info. fold P D.
    destruct (Z.eqb_spec x 0) as [->|H0].
    { apply emits_value_ret. apply (emits_writeBits 1); lia. }
    destruct (value_info x ltac:(destruct Hx; lia) Hx) as [Hi _].
    fold (fits prev (getBinaryValueInfo P x)).
    destruct (fits _ _) eqn:Hf.
    - apply fits_ok in Hf; [|done].
      apply emits_value_seq; [apply (emits_writeBits 2); lia|].
      apply emits_value_ret. by apply window_bits_emits.
    - apply emits_value_seq; [apply (emits_writeBits 2); lia|].
      apply emits_value_seq; [apply emits_writeBits; lia|].
      apply emits_value_seq; [apply emits_writeBits; lia|].
      apply emits_value_ret. by apply window_bits_emits.
  Qed.

  (** What the reader keeps for the writer's [i]: it counts leading zeros at
      the width of the value, not of the promoted type. *)
Definition reader_info (i : BinaryValueInfo) : BinaryValueInfo :=
    if data_bits i =? 0 then i
    else mkInfo (leading_zero_bits i - (P - 8 * Z.of_nat w)) (data_bits i) (trailing_zero_bits i).

Lemma reader_info_window i :
    window_ok i -> data_bits (reader_info i) = data_bits i /\
    trailing_zero_bits (reader_info i) = trailing_zero_bits i.
  Proof using Hw. unfold window_ok, reader_info. intros Hi. by destruct (Z.eqb_spec (data_bits i) 0). Qed.

  (** Reading the bits of a window rebuilds the value. *)
Lemma read_window i x prev_value r tail :
    window_ok i -> uint (8 * Z.of_nat w) x -> in_window i x ->
    repr r (window_bits i x ++ tail) ->
    exists r', repr r' tail /\
      (_ ← require (negb ((leading_zero_bits (reader_info i) =? 0)
                       && (data_bits (reader_info i) =? 0)
                       && (trailing_zero_bits (reader_info i) =? 0))) CANNOT_DECOMPRESS;
       '(y, reader) ← BitReader.readBits (data_bits (reader_info i)) r;
       let xored_data := wrap (8 * Z.of_nat w) y in
       _ ← defined (trailing_zero_bits (reader_info i) <? promoted w);
       let xored_data := wrap (8 * Z.of_nat w) (Z.shiftl xored_data (trailing_zero_bits (reader_info i))) in
       Ok (reader_info i, Z.lxor prev_value xored_data, reader)) =
      Ok (reader_info i, Z.lxor prev_value x, r').
  Proof using Hw.
    intros Hi Hx Hin Hr. destruct widths as (HP & _). pose proof Hi as (Hl & Hd & Ht & Hsum).
    destruct (reader_info_window i Hi) as [-> ->].
    rewrite bind_require.
    2:{ replace (data_bits i =? 0) with false by lia. by rewrite andb_false_r. }
    destruct (reads_readBits (data_bits i) (window_bits i x)) with (r := r) (tail := tail) as (r' & -> & Hr');
      [unfold window_bits; rewrite length_bits_of; lia|unfold window_bits; rewrite length_bits_of; lia|done|].
    run. exists r'. split; [done|]. fold P. rewrite bind_defined by lia.
    destruct (in_window_bits i x Hi ltac:(apply Hx) Hin) as [Hu Hsh].
    unfold window_bits. rewrite val_bits_of_id by (by rewrite Z2Nat.id by lia).
    rewrite (wrap_id _ (Z.shiftr _ _)), Hsh, wrap_id; [done|done|].
    unfold uint in *. pose proof (Z.pow_le_mono_r 2 (data_bits i) (8 * Z.of_nat w)). lia.
  Qed.

Lemma window_header i :
    window_ok i -> 
    mkInfo (wrap 8 (val_of (bits_of (Z.to_nat (D - 1)) (leading_zero_bits i))))
           (wrap 8 (val_of (bits_of (Z.to_nat D) (data_bits i))))
           (wrap 8 (8 * Z.of_nat w - wrap 8 (val_of (bits_of (Z.to_nat (D - 1)) (leading_zero_bits i)))
                    - wrap 8 (val_of (bits_of (Z.to_nat D) (data_bits i))))) = reader_info i.
  Proof using Hw.
    intros (Hl & Hd & Ht & Hsum). destruct widths as (HP & HD & H8 & HDw & HD1 & Hm).
    rewrite !val_bits_of, !Z2Nat.id by lia. unfold reader_info.
    destruct (Z.eqb_spec (data_bits i) 0); [lia|].
    assert (wrap (D - 1) (leading_zero_bits i) = leading_zero_bits i - (P - 8 * Z.of_nat w)) as ->.
    { unfold wrap. replace (leading_zero_bits i) with (leading_zero_bits i - (P - 8 * Z.of_nat w) + (P - 8 * Z.of_nat w)) at 1 by lia.
      rewrite <- Zplus_mod_idemp_r, Hm, Z.add_0_r. apply Z.mod_small. lia. }
    rewrite (wrap_id D) by (unfold uint; lia).
    rewrite !(wrap_id 8); [f_equal; lia|..]; unfold uint; cbn; lia.
  Qed.

Lemma gorilla_read_item_reads prev x prev_value :
    info_ok prev -> uint (8 * Z.of_nat w) x ->
    reads (read_item w (reader_info prev) prev_value) (item_code prev x)
      (reader_info (next_info prev x), Z.lxor prev_value x).
  Proof using Hw.
    intros Hp Hx r tail Hr. destruct widths as (HP & HD & _). unfold read_item, item_code, next_info in *. fold P D.
    destruct (Z.eqb_spec x 0) as [->|H0].
    { destruct (reads_readBit false r tail Hr) as (r' & -> & Hr'). run. exists r'.
      rewrite Z.lxor_0_r. done. }
    destruct (value_info x ltac:(destruct Hx; lia) Hx) as [Hi Hin].
    destruct (fits _ _) eqn:Hf; cbn [app] in Hr.
    - apply fits_ok in Hf as Hwp; [|done].
      destruct (reads_readBit true r _ Hr) as (r1 & -> & Hr1). run. change (Z.b2z true =? 1) with true. cbn iota.
      destruct (reads_readBit false r1 _ Hr1) as (r2 & -> & Hr2). run. change (Z.b2z false =? 1) with false. cbn iota.
      run. destruct (read_window prev x prev_value r2 tail Hwp Hx) as (r' & Hr' & E);
        [exact (fits_window prev _ x Hwp Hi Hf Hin)|done|].
      exists r'. split; [exact E|done].
    - destruct (reads_readBit true r _ Hr) as (r1 & -> & Hr1). run. change (Z.b2z true =? 1) with true. cbn iota.
      destruct (reads_readBit true r1 _ Hr1) as (r2 & -> & Hr2). run. change (Z.b2z true =? 1) with true. cbn iota.
      rewrite <- !app_assoc in Hr2.
      destruct (reads_bits_of (D - 1) (Z.to_nat (D - 1)) (leading_zero_bits (getBinaryValueInfo P x))
        ltac:(lia) ltac:(lia) r2 _ Hr2) as (r3 & -> & Hr3). run.
      destruct (reads_bits_of D (Z.to_nat D) (data_bits (getBinaryValueInfo P x))
        ltac:(lia) ltac:(lia) r3 _ Hr3) as (r4 & -> & Hr4). run.
      rewrite window_header by done.
      destruct (read_window (getBinaryValueInfo P x) x prev_value r4 tail Hi Hx Hin Hr4) as (r' & Hr' & E).
      exists r'. split; [exact E|done].
  Qed.

  (** ** The loops *)
Fixpoint codes (prev : BinaryValueInfo) (prev_value : Z) (values : list Z) : list bool :=
    match values with
    | [] => []
    | v :: rest =>
        item_code prev (Z.lxor v prev_value) ++ codes (next_info prev (Z.lxor v prev_value)) v rest
    end.

Let uv := uint (8 * Z.of_nat w).

Lemma gorilla_write_loop_emits values : forall prev pv,
    info_ok prev -> uv pv -> Forall uv values -> emits (write_loop w prev pv values) (codes prev pv values).
  Proof using Hw.
    induction values as [|v values IH]; intros prev pv Hp Hpv Hvs; cbn [write_loop codes]; [apply emits_ret|].
    apply Forall_cons in Hvs as [Hv Hvs].
    assert (uv (Z.lxor v pv)) as Hx by (apply uint_lxor; [lia|done|done]).
    apply (emits_value_bind (write_item w prev (Z.lxor v pv)) (fun info => write_loop w info v values)
      (next_info prev (Z.lxor v pv))).
    - by apply gorilla_write_item_emits.
    - apply IH; [by apply next_info_ok|done|done].
  Qed.

Lemma gorilla_codes_length values : forall prev pv,
    info_ok prev -> uv pv -> Forall uv values ->
    blen values <= blen (codes prev pv values) <= blen values * (2 + (D - 1) + D + 8 * Z.of_nat w).
  Proof using Hw.
    induction values as [|v values IH]; intros prev pv Hp Hpv Hvs; cbn [codes length]; [lia|].
    apply Forall_cons in Hvs as [Hv Hvs].
    assert (uv (Z.lxor v pv)) as Hx by (apply uint_lxor; [lia|done|done]).
    rewrite length_app, Nat2Z.inj_add, Nat2Z.inj_succ.
    specialize (IH (next_info prev (Z.lxor v pv)) v (next_info_ok _ _ Hp Hx) Hv Hvs).
    pose proof (gorilla_item_code_length prev (Z.lxor v pv) Hp Hx). lia.
  Qed.

Lemma gorilla_read_loop_ok values : forall prev pv r tail,
    info_ok prev -> uv pv -> Forall uv values -> repr r (codes prev pv values ++ tail) ->
    read_loop (length values) w (reader_info prev) pv r = Ok (storeArray w values).
  Proof using Hw.
    induction values as [|v values IH]; intros prev pv r tail Hp Hpv Hvs Hr; [done|].
    apply Forall_cons in Hvs as [Hv Hvs].
    assert (uv (Z.lxor v pv)) as Hx by (apply uint_lxor; [lia|done|done]).
    cbn [codes length read_loop] in *. rewrite <- app_assoc in Hr.
    rewrite (eof_spec _ _ Hr), bool_decide_eq_false_2.
    2:{ intros E. apply (f_equal length) in E. rewrite !length_app in E.
        pose proof (gorilla_item_code_length prev (Z.lxor v pv) Hp Hx). cbn in E. lia. }
    destruct (gorilla_read_item_reads prev (Z.lxor v pv) pv Hp Hx r _ Hr) as (r' & -> & Hr'). run.
    rewrite lxor_cancel.
    rewrite (IH _ v r' tail); [done|by apply next_info_ok|done|done|done].
  Qed.
End Item.

(** ** Round trip *)
Definition max_item_bits (DATA_BIT_LENGTH : Z) (w : nat) : Z :=
  2 + (DATA_BIT_LENGTH - 1) + DATA_BIT_LENGTH + 8 * Z.of_nat w.

Abbreviation item_bits w := (max_item_bits (getBitLengthOfLength (Z.of_nat w)) w).

Lemma item_bits_bound w : width w -> 17 <= item_bits w <= 79.
Proof. intros [->|[->|[->| ->]]]; vm_compute; split; congruence. Qed.

Lemma gorilla_decompress_stream w v0 rest stream tail :
  width w -> Forall (uint (8 * Z.of_nat w)) (v0 :: rest) -> bytes_ok stream ->
  let n := Z.of_nat (length (v0 :: rest)) in
  n < 2 ^ 32 -> bytes_bits stream = codes w (mkInfo 0 0 0) v0 rest ++ tail ->
  decompressDataForType w (le_store 4 n ++ le_store w v0 ++ stream) (Z.of_nat w * n) =
    Ok (storeArray w (v0 :: rest), Z.of_nat w * n).
Proof.
  intros Hw Hu Hok n Hn Hbits. pose proof (width_bound w Hw) as Hwb.
  apply Forall_cons in Hu as [Hv0 Hu].
  assert (n = 1 + blen rest) as Hnr by (subst n; cbn [length]; lia).
  unfold decompressDataForType. rewrite take_le_store, drop_le_store, take_le_store, drop_le_store.
  rewrite (le_load_store_id 4 n), (le_load_store_id w v0) by (done || unfold uint; lia).
  destruct (Z.ltb_spec (blen (le_store 4 n ++ le_store w v0 ++ stream)) 4); [len|].
  destruct (Z.ltb_spec (blen (le_store w v0 ++ stream)) (Z.of_nat w)); [len|].
  destruct (Z.ltb_spec n 1); [lia|]. cbn [orb].
  rewrite bind_require by (apply negb_true_iff, Z.ltb_ge; nia).
  replace (Z.to_nat (n - 1)) with (length rest) by lia.
  change (mkInfo 0 0 0) with (reader_info w (mkInfo 0 0 0)) at 1.
  rewrite (gorilla_read_loop_ok w Hw rest (mkInfo 0 0 0) v0 (BitReader.make stream) tail).
  - run. f_equal. f_equal. len.
  - by left.
  - done.
  - done.
  - rewrite <- Hbits. by apply reader_repr_make.
Qed.

Lemma gorilla_type_roundtrip w src size :
  width w -> (length src mod w = 0)%nat -> bytes_ok src -> blen src <= 2 ^ 27 ->
  let bound := 4 + Z.of_nat w + (blen src / Z.of_nat w * item_bits w + 7) / 8 in
  bound <= size ->
  exists body, compressDataForType w src size = Ok (body, blen body) /\ bytes_ok body /\
    blen body <= bound /\ decompressDataForType w body (blen src) = Ok (src, blen src).
Proof.
  intros Hw Hmod Hok Hlen bound Hsize. pose proof (width_bound w Hw) as Hwb.
  pose proof (item_bits_bound w Hw) as Hib.
  destruct (aligned_values w src Hw Hmod Hok) as (Hm & Hcnt & Hsz & Hu & Hst).
  subst bound. unfold compressDataForType. rewrite bind_require by lia. rewrite Hcnt in *.
  destruct (loadArray w src) as [|v0 rest] eqn:Hv.
  - cbn [storeArray] in Hst. subst src. cbn [write_loop]. run.
    destruct (emits_flush _ _ (size - (4 + blen (@nil Z))) emits_ret) as (wr & E & Hwok & Hwc & Hwl & _);
      [cbn [length] in *; dlia|]. revert E. run. intros ->. run.
    assert (BitWriter.dest wr = []) as Hnil by (apply nil_length_inv; cbn in Hwl; lia).
    rewrite Hwc, Hnil. exists (le_store 4 0). split; [done|]. split; [apply le_store_bytes|].
    split; [cbn; dlia|]. unfold decompressDataForType. change (blen (le_store 4 0) <? 4) with false.
    change (drop 4 (le_store 4 0)) with (@nil Z). cbn iota zeta.
    by destruct (Z.ltb_spec (blen (@nil Z)) (Z.of_nat w)); [|cbn [length] in *; lia].
  - apply Forall_cons in Hu as [Hv0 Hu]. cbn [length] in *.
    assert (info_ok w (mkInfo 0 0 0)) as Hi by by left.
    pose proof (gorilla_codes_length w Hw rest _ v0 Hi Hv0 Hu) as Hcl.
    assert (blen rest * item_bits w <= 2 ^ 27 * 79) as Hov by nia.
    destruct (emits_flush _ _ (size - (4 + blen (le_store w v0))) (gorilla_write_loop_emits w Hw rest _ v0 Hi Hv0 Hu))
      as (wr & E & Hwok & Hwc & Hwl & tail & Htail).
    { unfold max_item_bits in *. rewrite length_le_store. dlia. }
    rewrite bind_assoc_flush, E. run. eexists. split; [|split; [|split]].
    + f_equal. f_equal. unfold max_item_bits in *. rewrite wrap_id; unfold uint;
      rewrite ?length_app, ?length_le_store, ?Hwc; dlia.
    + rewrite !Forall_app. auto with chdb.
    + rewrite !length_app, !length_le_store. unfold max_item_bits in *. dlia.
    + pose proof (gorilla_decompress_stream w v0 rest (BitWriter.dest wr) tail Hw) as Hd. cbn [length] in Hd.
      rewrite Hst, <- Hsz in Hd. apply Hd; auto. nia.
Qed.

(** The states of the static variable for which the size computed for [w] byte
    values is large enough: not yet initialised, or initialised by a codec
    whose values are at least as wide. *)
Definition static_ok (st : option Z) (w : nat) : Prop :=
  getBitLengthOfLength (Z.of_nat w) <= init_static st (Z.of_nat w) <= 7.

(** Sources for which the 32-bit size computations do not overflow. *)
Definition dom (src : bytes) : Prop := bytes_ok src /\ blen src <= 2 ^ 27.

(** The announced size, free of overflow. *)
Lemma gorilla_items st w n :
  width w -> static_ok st w -> 0 <= n <= 2 ^ 27 ->
  let D := init_static st (Z.of_nat w) in
  4 <= getBitLengthOfLength (Z.of_nat w) /\ 0 <= n / Z.of_nat w /\
  n / Z.of_nat w * item_bits w <= n / Z.of_nat w * max_item_bits D w <= 4200000000.
Proof.
  intros Hw Hst Hn D. unfold static_ok in Hst. fold D in Hst. pose proof (width_bound w Hw) as Hwb.
  assert (4 <= getBitLengthOfLength (Z.of_nat w)) as H4.
  { destruct Hw as [->|[->|[->| ->]]]; vm_compute; congruence. }
  assert (0 <= n / Z.of_nat w) as Hq by (apply Z.div_pos; lia).
  split; [done|]. split; [done|]. split.
  - apply Z.mul_le_mono_nonneg_l; [done|]. unfold max_item_bits. lia.
  - etrans; [apply (Z.mul_le_mono_nonneg_l _ (15 + 8 * Z.of_nat w)); [done|unfold max_item_bits; lia]|].
    destruct Hw as [->|[->|[->| ->]]]; dlia.
Qed.

Lemma gorilla_max_eq st w n :
  width w -> static_ok st w -> 0 <= n <= 2 ^ 27 ->
  getMaxCompressedDataSize st (Z.of_nat w) n =
    2 + Z.of_nat w + (4 + Z.of_nat w) + (n / Z.of_nat w * max_item_bits (init_static st (Z.of_nat w)) w + 8) / 8.
Proof.
  intros Hw Hst Hn. pose proof (width_bound w Hw) as Hwb.
  destruct (gorilla_items st w n Hw Hst Hn) as (H4 & Hq & Hle & Hov). unfold static_ok in Hst.
  unfold getMaxCompressedDataSize, getCompressedHeaderSize, getCompressedDataSize.
  set (D := init_static st (Z.of_nat w)) in *. cbn zeta.
  replace (2 + (D - 1) + D + Z.of_nat w * 8) with (max_item_bits D w) by (unfold max_item_bits; lia).
  assert (0 <= max_item_bits D w <= 79) as Hm by (unfold max_item_bits; lia).
  assert (0 <= n / Z.of_nat w * max_item_bits D w) by (apply Z.mul_nonneg_nonneg; lia).
  rewrite (wrap_id 32 (max_item_bits D w)) by (unfold uint; lia).
  rewrite (wrap_id 32 (_ + 8)) by (unfold uint; lia).
  rewrite wrap_id; [done|]. unfold uint. dlia.
Qed.

Lemma gorilla_max_size st w n :
  width w -> static_ok st w -> 0 <= n <= 2 ^ 27 ->
  let m := getMaxCompressedDataSize st (Z.of_nat w) n in
  2 + Z.of_nat w + (4 + Z.of_nat w + (n / Z.of_nat w * item_bits w + 7) / 8) <= m < 2 ^ 32.
Proof.
  intros Hw Hst Hn m. subst m. rewrite gorilla_max_eq by done. pose proof (width_bound w Hw) as Hwb.
  destruct (gorilla_items st w n Hw Hst Hn) as (H4 & Hq & Hle & Hov). dlia.
Qed.

Lemma gorilla_data_roundtrip st w src :
  width w -> static_ok st w -> dom src ->
  exists out, doCompressData st (Z.of_nat w) src = Ok (out, blen out) /\ bytes_ok out /\
    blen out <= getMaxCompressedDataSize st (Z.of_nat w) (blen src) < 2 ^ 32 /\
    doDecompressData out (blen src) = Ok (src, blen src).
Proof.
  intros Hwidth Hstat [Hok Hlen]. pose proof (width_bound w Hwidth) as Hw.
  pose proof (gorilla_max_size st w (blen src) Hwidth Hstat ltac:(lia)) as Hmax.
  assert ((0 < w <= 32)%nat) as Hw32 by lia.
  destruct (skip_eq w src Hw32) as (Hskip & Hlt & _). pose proof (framed_rest w src Hw32) as Hrest.
  pose proof (skip_le w src Hw32) as Hle.
  set (skip := Z.to_nat (bytes_to_skip (blen src) (Z.of_nat w))) in *.
  set (m := getMaxCompressedDataSize st (Z.of_nat w) (blen src)) in *. cbn zeta in Hmax.
  assert (blen (drop skip src) / Z.of_nat w * item_bits w <= blen src / Z.of_nat w * item_bits w) as Hmono.
  { pose proof (item_bits_bound w Hwidth). apply Z.mul_le_mono_nonneg_r; [lia|]. apply Z.div_le_mono; lia. }
  destruct (gorilla_type_roundtrip w (drop skip src) m Hwidth (skip_aligned w src Hw32) ltac:(by apply Forall_drop))
    as (body & Hc & Hbok & Hbl & Hd); [lia|dlia|].
  pose proof (framed_length w src Hw32 body) as Hout. fold skip in Hout.
  exists (framed w src body). split; [|split; [by apply framed_bytes|split; [dlia|]]].
  - unfold doCompressData. fold m. rewrite Hskip, Nat2Z.id, switch_width_ok, Hc by done. run.
    rewrite Hout, wrap_id by (unfold uint; dlia). done.
  - unfold doDecompressData. rewrite bind_require by blia.
    change (nth 0 (framed w src body) 0) with (Z.of_nat w). rewrite bind_require by blia.
    rewrite Hskip. rewrite bind_require by blia. rewrite bind_require by blia. rewrite Nat2Z.id.
    unfold skip. rewrite framed_body, framed_head by done. fold skip.
    destruct (Z.eqb_spec (Z.of_nat skip) (blen src)) as [E|E].
    + rewrite take_ge by lia. done.
    + rewrite Hrest, switch_width_ok, Hd by done. run.
      rewrite take_drop, wrap_id by (unfold uint; lia). do 2 f_equal. lia.
Qed.

#[export] Instance gorilla_pair st st' w w' e e' : width w -> static_ok st w ->
  CodecPair (codec st (Z.of_nat w) e) (codec st' w' e') dom.
Proof.
  intros Hwidth Hst. split; cbn [getMethodByte codec Codec.doCompressData Codec.doDecompressData Codec.getMaxCompressedDataSize].
  - done.
  - unfold uint; cbn; lia.
  - intros src Hd. destruct (gorilla_data_roundtrip st w src Hwidth Hst Hd) as (out & ? & ? & [? ?] & ?). eauto 10.
Qed.

(** ** The frozen static

    After a codec of one byte values has been used, the size announced for
    eight byte values is too small for a sequence whose windows alternate. *)
Fixpoint alternating (n : nat) (v : Z) (b : bool) : list Z :=
  match n with
  | O => []
  | S n => v :: alternating n (Z.lxor v (if b then 0x8000000000000002 else 0x4000000000000001)) (negb b)
  end.

Definition alternating_source : bytes := storeArray 8 (alternating 60 0 true).

Lemma frozen_static_throws :
  dom alternating_source /\ ~ static_ok (Some (getBitLengthOfLength 1)) 8 /\
  doCompressData (Some (getBitLengthOfLength 1)) 8 alternating_source = Throw CANNOT_WRITE_AFTER_END_OF_BUFFER.
Proof.
  split; [split|split].
  - apply storeArray_bytes.
  - vm_compute. congruence.
  - intros [H _]. vm_compute in H. congruence.
  - vm_compute. reflexivity.
Qed.

(** ** Arbitrary input

    Whatever the bytes are, a decompression that returns has written no more
    than [uncompressed_size] bytes; but the fields of a window are not
    checked, and there are inputs that make [readBits] or [<<=] shift by more
    than the width of its operand. *)
Lemma read_loop_length n : forall w i pv r out,
  read_loop n w i pv r = Ok out -> (length out <= w * n)%nat.
Proof.
  induction n as [|n IH]; intros w i pv r out H; cbn [read_loop] in H; [simplify_eq; cbn; lia|].
  destruct (BitReader.eof r); [simplify_eq; cbn; lia|].
  ok_inv. match goal with x : (_ * _ * _)%type |- _ => destruct x as [[info cv] r'] end. ok_inv.
  match goal with H : read_loop _ _ _ _ _ = Ok _ |- _ => apply IH in H end. len.
Qed.

Lemma gorilla_type_bound w src n out r :
  (0 < w)%nat -> 0 <= n -> decompressDataForType w src n = Ok (out, r) -> blen out <= n /\ r = blen out.
Proof.
  intros Hw Hn. unfold decompressDataForType.
  destruct (_ <? 4); [intros [= <- <-]; cbn; lia|].
  destruct (_ || _) eqn:Hb; [intros [= <- <-]; cbn; lia|]. apply orb_false_iff in Hb as [_ Hb].
  intros H. ok_inv. simplify_eq.
  match goal with H : read_loop _ _ _ _ _ = Ok _ |- _ => apply read_loop_length in H end.
  split; [|done]. apply Z.ltb_ge in Hb.
  match goal with H : negb (_ <? _) = true |- _ => apply negb_true_iff, Z.ltb_ge in H end.
  rewrite length_app, length_le_store. nia.
Qed.

Lemma gorilla_output_bound src n out r :
  bytes_ok src -> uint 32 n -> doDecompressData src n = Ok (out, r) -> blen out <= n /\ r = blen out.
Proof.
  intros Hok [Hn0 Hn]. unfold doDecompressData. intros H.
  apply bind_Ok_inv in H as (? & Hg1 & H). apply bind_Ok_inv in H as (? & Hg2 & H).
  apply bind_Ok_inv in H as (? & Hg3 & H). apply bind_Ok_inv in H as (? & Hg4 & H). ok_inv.
  assert (byte_ok (nth 0 src 0)) as Hb by (destruct Hok; [unfold uint; cbn; lia|done]).
  assert (0 <= bytes_to_skip n (nth 0 src 0)) as Hs0 by (apply (wrap_uint 8); lia).
  set (skip := bytes_to_skip n (nth 0 src 0)) in *.
  destruct (Z.eqb_spec skip n); [simplify_eq; len|].
  ok_inv. match goal with x : (bytes * Z)%type |- _ => destruct x as [out' r'] end. ok_inv. simplify_eq.
  match goal with H : switch_width _ _ _ = Ok _ |- _ => rename H into Hsw end.
  assert (blen out' <= n - skip /\ r' = blen out') as [Hl ->].
  { unfold switch_width in Hsw. repeat case_match; try discriminate Hsw;
      eapply gorilla_type_bound in Hsw; [done|lia|lia|done|lia|lia|done|lia|lia|done|lia|lia]. }
  rewrite wrap_id by (unfold uint; lia). len.
Qed.

(** A window of no data bits with a nonzero trailing count, and one whose
    declared length exceeds the type: both pass the checks of the source. *)
Lemma corrupted_window_undefined :
  doDecompressData [1; 0; 2; 0; 0; 0; 1; 0xc0; 0] 2 = Undef /\
  doDecompressData [8; 0; 2; 0; 0; 0; 1; 2; 3; 4; 5; 6; 7; 8; 0xff; 0xff; 0xff; 0xff] 16 = Undef.
Proof. split; vm_compute; reflexivity. Qed.
End CompressionCodecGorilla.
