(* ===== verification/CodecFPC.v ===== *)
(** * The FPC codec

    [src/Compression/CompressionCodecFPC.cpp]: two hash-table predictors guess
    each floating point value; the exclusive or with the better guess is
    stored without its leading zero bytes, two values under one header byte. *)

From stdpp Require Import prelude gmap.
From Stdlib Require Import ZArith Lia.
From S2P Require Import Prelude Bits BitIO Codec.

(** [std::vector<TUInt> table(table_size, 0)]: the entries written so far, the
    others being zero. *)
Abbreviation vector := (gmap Z Z).

Definition vec_get (table : vector) (i : Z) : Z := default 0 (table !! i).

Module DfcmPredictor.
Record t := Make { table_size : Z; table : vector; prev_value : Z; hash : Z }.

Definition make (table_size : Z) : t := Make table_size ∅ 0 0.

Definition predict (w : nat) (p : t) : outcome Z :=
  _ ← defined (hash p <? table_size p);
  Ok (wrap (8 * Z.of_nat w) (vec_get (table p) (hash p) + prev_value p)).

Definition recalculateHash (w : nat) (p : t) : outcome t :=
  _ ← defined (hash p <? table_size p);
  let value := vec_get (table p) (hash p) in
  let hash' :=
    if Nat.leb 8 w
    then Z.land (Z.lxor (wrap 64 (Z.shiftl (hash p) 2)) (Z.shiftr value 40)) (table_size p - 1)
    else Z.land (Z.lxor (wrap 64 (Z.shiftl (hash p) 4)) (Z.shiftr value 23)) (table_size p - 1) in
  Ok (Make (table_size p) (table p) (prev_value p) hash').

Definition add (w : nat) (value : Z) (p : t) : outcome t :=
  _ ← defined (hash p <? table_size p);
  p ← recalculateHash w (Make (table_size p)
        (<[hash p := wrap (8 * Z.of_nat w) (value - prev_value p)]> (table p)) (prev_value p) (hash p));
  Ok (Make (table_size p) (table p) value (hash p)).
End DfcmPredictor.

Module FcmPredictor.
Record t := Make { table_size : Z; table : vector; hash : Z }.

Definition make (table_size : Z) : t := Make table_size ∅ 0.

Definition predict (p : t) : outcome Z :=
  _ ← defined (hash p <? table_size p);
  Ok (vec_get (table p) (hash p)).

Definition recalculateHash (w : nat) (p : t) : outcome t :=
  _ ← defined (hash p <? table_size p);
  let value := vec_get (table p) (hash p) in
  let hash' :=
    if Nat.leb 8 w
    then Z.land (Z.lxor (wrap 64 (Z.shiftl (hash p) 6)) (Z.shiftr value 48)) (table_size p - 1)
    else Z.land (Z.lxor (wrap 64 (Z.shiftl (hash p) 1)) (Z.shiftr value 22)) (table_size p - 1) in
  Ok (Make (table_size p) (table p) hash').

Definition add (w : nat) (value : Z) (p : t) : outcome t :=
  _ ← defined (hash p <? table_size p);
  recalculateHash w (Make (table_size p) (<[hash p := value]> (table p)) (hash p)).
End FcmPredictor.

Module FPCOperation.
Definition CHUNK_SIZE : Z := 64.
Definition MAX_ZERO_BYTE_COUNT : Z := 7.
Definition DFCM_BIT : Z := 8.

(** The predictors; the spans [chunk] and [result] are arguments below. *)
Record t := Make { dfcm_predictor : DfcmPredictor.t; fcm_predictor : FcmPredictor.t }.

Definition make (compression_level : Z) : t :=
  Make (DfcmPredictor.make (Z.shiftl 1 compression_level)) (FcmPredictor.make (Z.shiftl 1 compression_level)).

Definition ceilBytesToEvenValues (w : nat) (bytes_count : Z) : Z :=
  let values_count := (bytes_count + Z.of_nat w - 1) / Z.of_nat w in
  if values_count mod 2 =? 0 then values_count else values_count + 1.

(** The values of the chunk; [importChunk] copies the source into the chunk,
    completed with zeros, and returns how many of its values are used. *)
Definition importChunk (w : nat) (values : bytes) : list Z :=
  let chunk_bytes := CHUNK_SIZE * Z.of_nat w in
  if chunk_bytes <=? blen values then loadArray w (take (Z.to_nat chunk_bytes) values)
  else take (Z.to_nat (ceilBytesToEvenValues w (blen values)))
         (loadArray w (values ++ replicate (Z.to_nat chunk_bytes - length values) 0)).

(** What [exportChunk] appends to the output; [room] is [result.size()]. *)
Definition exportChunk (w : nat) (current_chunk : list Z) (room : Z) : bytes :=
  take (Z.to_nat (Z.min room (Z.of_nat w * blen current_chunk))) (storeArray w current_chunk).

Definition encodeCompressedZeroByteCount (w : nat) (compressed : Z) : Z :=
  let compressed := if (Z.of_nat w =? MAX_ZERO_BYTE_COUNT + 1) && (4 <=? compressed) then compressed - 1 else compressed in
  Z.min compressed MAX_ZERO_BYTE_COUNT.

Definition decodeCompressedZeroByteCount (w : nat) (encoded_size : Z) : Z :=
  if (Z.of_nat w =? MAX_ZERO_BYTE_COUNT + 1) && (3 <? encoded_size) then encoded_size + 1 else encoded_size.

Definition compressValue (w : nat) (value : Z) (s : t) : outcome (Z * Z * Z * t) :=
  d ← DfcmPredictor.predict w (dfcm_predictor s);
  f ← FcmPredictor.predict (fcm_predictor s);
  let compressed_dfcm := Z.lxor d value in
  let compressed_fcm := Z.lxor f value in
  dp ← DfcmPredictor.add w value (dfcm_predictor s);
  fp ← FcmPredictor.add w value (fcm_predictor s);
  let zeroes_dfcm := getLeadingZeroBits (8 * Z.of_nat w) compressed_dfcm in
  let zeroes_fcm := getLeadingZeroBits (8 * Z.of_nat w) compressed_fcm in
  if zeroes_fcm <? zeroes_dfcm
  then Ok (compressed_dfcm, encodeCompressedZeroByteCount w (zeroes_dfcm / 8), DFCM_BIT, Make dp fp)
  else Ok (compressed_fcm, encodeCompressedZeroByteCount w (zeroes_fcm / 8), 0, Make dp fp).

(** [room] is [result.size()] before the call; writing past it is undefined. *)
Definition encodePair (w : nat) (first second room : Z) (s : t) : outcome (bytes * t) :=
  '(compressed_value1, zero_byte_count1, predictor1, s) ← compressValue w first s;
  '(compressed_value2, zero_byte_count2, predictor2, s) ← compressValue w second s;
  let header := Z.lor (Z.lor (wrap 8 (Z.shiftl predictor1 4)) predictor2)
                      (wrap 8 (Z.lor (Z.shiftl zero_byte_count1 4) zero_byte_count2)) in
  let tail_size1 := Z.of_nat w - decodeCompressedZeroByteCount w zero_byte_count1 in
  let tail_size2 := Z.of_nat w - decodeCompressedZeroByteCount w zero_byte_count2 in
  _ ← defined (1 + tail_size1 + tail_size2 <=? room);
  Ok (header :: take (Z.to_nat tail_size1) (le_store w compressed_value1)
        ++ take (Z.to_nat tail_size2) (le_store w compressed_value2), s).

Fixpoint encodeChunk (w : nat) (sequence : list Z) (room : Z) (s : t) : outcome (bytes * t) :=
  match sequence with
  | first :: second :: rest =>
      '(out, s) ← encodePair w first second room s;
      '(out', s) ← encodeChunk w rest (room - blen out) s;
      Ok (out ++ out', s)
  | [] => Ok ([], s)
  | [_] => Undef
  end.

(** [for (i = 0; i < data.size(); i += chunk_view.size_bytes())] *)
Fixpoint encode_loop (fuel w : nat) (data : bytes) (room : Z) (s : t) : outcome bytes :=
  match data with
  | [] => Ok []
  | _ =>
      match fuel with
      | O => Undef
      | S fuel =>
          '(out, s) ← encodeChunk w (importChunk w data) room s;
          out' ← encode_loop fuel w (drop (Z.to_nat (CHUNK_SIZE * Z.of_nat w)) data) (room - blen out) s;
          Ok (out ++ out')
      end
  end.

Definition encode (w : nat) (compression_level : Z) (data : bytes) (room : Z) : outcome bytes :=
  encode_loop (length data) w data room (make compression_level).

Definition decompressValue (w : nat) (value : Z) (isDfcmPredictor : bool) (s : t) : outcome (Z * t) :=
  p ← (if isDfcmPredictor then DfcmPredictor.predict w (dfcm_predictor s) else FcmPredictor.predict (fcm_predictor s));
  let decompressed := Z.lxor p value in
  dp ← DfcmPredictor.add w decompressed (dfcm_predictor s);
  fp ← FcmPredictor.add w decompressed (fcm_predictor s);
  Ok (decompressed, Make dp fp).

(** The two values, the bytes after the pair, and the predictors. *)
Definition decodePair (w : nat) (bs : bytes) (s : t) : outcome (Z * Z * bytes * t) :=
  match bs with
  | [] => Throw CANNOT_DECOMPRESS
  | front :: rest =>
      let zero_byte_count1 := decodeCompressedZeroByteCount w (Z.land (Z.shiftr front 4) MAX_ZERO_BYTE_COUNT) in
      let zero_byte_count2 := decodeCompressedZeroByteCount w (Z.land front MAX_ZERO_BYTE_COUNT) in
      _ ← require (negb ((Z.of_nat w <? zero_byte_count1) || (Z.of_nat w <? zero_byte_count2))) CANNOT_DECOMPRESS;
      let tail_size1 := Z.of_nat w - zero_byte_count1 in
      let tail_size2 := Z.of_nat w - zero_byte_count2 in
      let expected_size := tail_size1 + tail_size2 + 1 in
      _ ← require (negb (2 ^ 64 <=? expected_size)) CANNOT_DECOMPRESS;
      _ ← require (negb (blen bs <? expected_size)) CANNOT_DECOMPRESS;
      let value1 := le_load (take (Z.to_nat tail_size1) rest) in
      let rest := drop (Z.to_nat tail_size1) rest in
      let value2 := le_load (take (Z.to_nat tail_size2) rest) in
      let rest := drop (Z.to_nat tail_size2) rest in
      let is_dfcm_predictor1 := negb (Z.land front (Z.shiftl DFCM_BIT 4) =? 0) in
      let is_dfcm_predictor2 := negb (Z.land front DFCM_BIT =? 0) in
      '(first, s) ← decompressValue w value1 is_dfcm_predictor1 s;
      '(second, s) ← decompressValue w value2 is_dfcm_predictor2 s;
      Ok (first, second, rest, s)
  end.

(** [pairs] is half of [sequence.size()], which is even. *)
Fixpoint decodeChunk (w : nat) (pairs : nat) (values : bytes) (s : t) : outcome (list Z * bytes * t) :=
  match pairs with
  | O => Ok ([], values, s)
  | S pairs =>
      '(first, second, values, s) ← decodePair w values s;
      '(sequence, values, s) ← decodeChunk w pairs values s;
      Ok (first :: second :: sequence, values, s)
  end.

(** [left] is [decoded_size - i]; a chunk that would exceed it is cut to an
    even number of values. *)
Fixpoint decode_loop (fuel w : nat) (left : Z) (values : bytes) (room : Z) (s : t) : outcome bytes :=
  if left <=? 0 then Ok []
  else
    match fuel with
    | O => Undef
    | S fuel =>
        let chunk_values := if left <? CHUNK_SIZE * Z.of_nat w then ceilBytesToEvenValues w left else CHUNK_SIZE in
        '(chunk, values, s) ← decodeChunk w (Z.to_nat (chunk_values / 2)) values s;
        let out := exportChunk w chunk room in
        out' ← decode_loop fuel w (left - chunk_values * Z.of_nat w) values (room - blen out) s;
        Ok (out ++ out')
    end.

Definition decode (w : nat) (compression_level : Z) (values : bytes) (decoded_size : Z) : outcome (bytes * Z) :=
  out ← decode_loop (Z.to_nat decoded_size) w decoded_size values decoded_size (make compression_level);
  Ok (out, wrap 32 (blen out)).
End FPCOperation.

(** ** The predictors stay inside their tables *)
Section Predictors.
  Context (w : nat) (size : Z) (Hsize : exists l, 0 <= l /\ size = 2 ^ l).
Let uv := uint (8 * Z.of_nat w).

Definition table_ok (table_size hash : Z) (table : vector) : Prop :=
    table_size = size /\ 0 <= hash < size /\ map_Forall (fun _ => uv) table.

Lemma land_in_table x : 0 <= Z.land x (size - 1) < size.
  Proof using Hsize.
    destruct Hsize as (l & Hl & ->). replace (2 ^ l - 1) with (Z.ones l) by (rewrite Z.ones_equiv; lia).
    rewrite Z.land_ones by done. apply Z.mod_pos_bound. lia.
  Qed.

Lemma vec_get_uint table i : map_Forall (fun _ => uv) table -> uv (vec_get table i).
  Proof using Type.
    intros H. unfold vec_get. destruct (table !! i) eqn:E; [by apply (H i)|]. subst uv. unfold uint. cbn. lia.
  Qed.

Definition dfcm_ok (p : DfcmPredictor.t) : Prop :=
    table_ok (DfcmPredictor.table_size p) (DfcmPredictor.hash p) (DfcmPredictor.table p).
Definition fcm_ok (p : FcmPredictor.t) : Prop :=
    table_ok (FcmPredictor.table_size p) (FcmPredictor.hash p) (FcmPredictor.table p).

Lemma dfcm_predict_ok p : dfcm_ok p -> exists v, DfcmPredictor.predict w p = Ok v /\ uv v.
  Proof using Type.
    intros (Hs & Hh & Ht). unfold DfcmPredictor.predict. rewrite Hs. pass.
    eexists; split; [reflexivity|]. apply wrap_uint. lia.
  Qed.

Lemma fcm_predict_ok p : fcm_ok p -> exists v, FcmPredictor.predict p = Ok v /\ uv v.
  Proof using Type.
    intros (Hs & Hh & Ht). unfold FcmPredictor.predict. rewrite Hs. pass.
    eexists; split; [reflexivity|]. by apply vec_get_uint.
  Qed.

Lemma dfcm_add_ok v p : dfcm_ok p -> exists p', DfcmPredictor.add w v p = Ok p' /\ dfcm_ok p'.
  Proof using Hsize.
    intros (Hs & Hh & Ht). unfold DfcmPredictor.add, DfcmPredictor.recalculateHash.
    cbn [DfcmPredictor.hash DfcmPredictor.table_size]. rewrite Hs. pass. run.
    eexists; split; [reflexivity|]. split; [done|]. cbn. split; [case_match; apply land_in_table|].
    apply map_Forall_insert_2; [apply wrap_uint; lia|done].
  Qed.

Lemma fcm_add_ok v p : uv v -> fcm_ok p -> exists p', FcmPredictor.add w v p = Ok p' /\ fcm_ok p'.
  Proof using Hsize.
    intros Hv (Hs & Hh & Ht). unfold FcmPredictor.add, FcmPredictor.recalculateHash.
    cbn [FcmPredictor.hash FcmPredictor.table_size]. rewrite Hs. pass. run.
    eexists; split; [reflexivity|]. split; [done|]. cbn. split; [case_match; apply land_in_table|].
    by apply map_Forall_insert_2.
  Qed.
End Predictors.

Module FPCOperationFacts.
Import FPCOperation.

(** ** The header byte of a pair *)
Definition header_of (b1 b2 : bool) (z1 z2 : Z) : Z :=
  Z.lor (Z.lor (wrap 8 (Z.shiftl (if b1 then DFCM_BIT else 0) 4)) (if b2 then DFCM_BIT else 0))
        (wrap 8 (Z.lor (Z.shiftl z1 4) z2)).

Definition header_check (b1 b2 : bool) (z1 z2 : Z) : bool :=
  let h := header_of b1 b2 z1 z2 in
  (0 <=? h) && (h <? 256) && (Z.land (Z.shiftr h 4) MAX_ZERO_BYTE_COUNT =? z1) && (Z.land h MAX_ZERO_BYTE_COUNT =? z2)
  && eqb (negb (Z.land h (Z.shiftl DFCM_BIT 4) =? 0)) b1 && eqb (negb (Z.land h DFCM_BIT =? 0)) b2.

Lemma header_fields b1 b2 z1 z2 : 0 <= z1 <= 7 -> 0 <= z2 <= 7 -> header_check b1 b2 z1 z2 = true.
Proof.
  intros H1 H2.
  assert (forallb (fun z1 => forallb (fun z2 => forallb (fun b1 => forallb (fun b2 => header_check b1 b2 z1 z2)
    [true; false]) [true; false]) (seqZ 0 8)) (seqZ 0 8) = true) as Hall by (vm_compute; reflexivity).
  rewrite forallb_forall in Hall. specialize (Hall z1). rewrite <- list_elem_of_In, elem_of_seqZ in Hall.
  specialize (Hall ltac:(lia)). rewrite forallb_forall in Hall. specialize (Hall z2).
  rewrite <- list_elem_of_In, elem_of_seqZ in Hall. specialize (Hall ltac:(lia)).
  cbn [forallb] in Hall. rewrite !andb_true_iff in Hall. destruct b1, b2; tauto.
Qed.

(** ** Values *)
Section Values.
  Context (w : nat) (size : Z) (Hw : w = 4%nat \/ w = 8%nat) (Hsize : exists l, 0 <= l /\ size = 2 ^ l).
Let uv := uint (8 * Z.of_nat w).

Definition op_ok (s : t) : Prop := dfcm_ok w size (dfcm_predictor s) /\ fcm_ok w size (fcm_predictor s).

  (** The count that is written for [z] leading zero bytes: it is at most [z]
      once decoded. *)
Lemma zero_count z :
    0 <= z <= Z.of_nat w ->
    let e := encodeCompressedZeroByteCount w z in
    0 <= e <= 7 /\ 0 <= decodeCompressedZeroByteCount w e <= z.
  Proof using Hw.
    intros Hz. unfold encodeCompressedZeroByteCount, decodeCompressedZeroByteCount, MAX_ZERO_BYTE_COUNT.
    destruct Hw as [->| ->]; cbn [Z.of_nat] in *; repeat case_match; rewrite ?andb_true_iff, ?andb_false_iff in *; lia.
  Qed.

Lemma leading_zero_bytes x :
    uv x -> let z := getLeadingZeroBits (8 * Z.of_nat w) x / 8 in
    0 <= z <= Z.of_nat w /\ x < 2 ^ (8 * (Z.of_nat w - z)).
  Proof using Hw.
    intros Hx z. subst z. destruct (decide (x = 0)) as [->|H0].
    - unfold getLeadingZeroBits. cbn [Z.eqb]. rewrite Z.mul_comm, Z.div_mul, Z.sub_diag by lia. cbn. lia.
    - destruct (getLeadingZeroBits_bound (8 * Z.of_nat w) x) as [Hb Hlt]; [destruct Hx; lia|].
      split; [dlia|]. eapply Z.lt_le_trans; [exact Hlt|]. apply Z.pow_le_mono_r; dlia.
  Qed.

Lemma decompressValue_ok v b s :
    uv v -> op_ok s -> exists d s', decompressValue w v b s = Ok (d, s') /\ uv d /\ op_ok s'.
  Proof using Hw Hsize.
    intros Hv [Hd Hf]. unfold decompressValue.
    destruct (dfcm_predict_ok w size _ Hd) as (pd & Epd & Hpd).
    destruct (fcm_predict_ok w size _ Hf) as (pf & Epf & Hpf).
    rewrite Epd, Epf. 
    assert (uv (Z.lxor (if b then pd else pf) v)) as Hx by (apply uint_lxor; [lia|by destruct b|done]).
    destruct (dfcm_add_ok w size Hsize (Z.lxor (if b then pd else pf) v) _ Hd) as (d' & Ed & Hd').
    destruct (fcm_add_ok w size Hsize _ _ Hx Hf) as (f' & Ef & Hf').
    destruct b; run; rewrite Ed; run; rewrite Ef; run; do 2 eexists; (split; [reflexivity|]); split; try done; by split.
  Qed.

  (** What is written for a value lets the reader, whose predictors are in the
      same state, rebuild it. *)
Lemma compressValue_ok v s :
    uv v -> op_ok s ->
    exists c z b s', compressValue w v s = Ok (c, z, (if b : bool then DFCM_BIT else 0), s') /\
      0 <= z <= 7 /\ 0 <= decodeCompressedZeroByteCount w z <= Z.of_nat w /\
      uint (8 * (Z.of_nat w - decodeCompressedZeroByteCount w z)) c /\
      decompressValue w c b s = Ok (v, s') /\ op_ok s'.
  Proof using Hw Hsize.
    intros Hv [Hd Hf]. unfold compressValue, decompressValue.
    destruct (dfcm_predict_ok w size _ Hd) as (pd & -> & Hpd).
    destruct (fcm_predict_ok w size _ Hf) as (pf & -> & Hpf). run.
    destruct (dfcm_add_ok w size Hsize v _ Hd) as (d' & Ed & Hd').
    destruct (fcm_add_ok w size Hsize v _ Hv Hf) as (f' & Ef & Hf'). rewrite Ed, Ef. run.
    assert (forall p, uv p ->
      let z := encodeCompressedZeroByteCount w (getLeadingZeroBits (8 * Z.of_nat w) (Z.lxor p v) / 8) in
      0 <= z <= 7 /\ 0 <= decodeCompressedZeroByteCount w z <= Z.of_nat w /\
      uint (8 * (Z.of_nat w - decodeCompressedZeroByteCount w z)) (Z.lxor p v)) as Hz.
    { intros p Hp. assert (uv (Z.lxor p v)) as Hx by (apply uint_lxor; [lia|done|done]).
      destruct (leading_zero_bytes _ Hx) as [Hz Hlt]. destruct (zero_count _ Hz) as [He Hdz].
      split; [done|]. split; [lia|]. split; [apply Hx|]. eapply Z.lt_le_trans; [exact Hlt|].
      apply Z.pow_le_mono_r; lia. }
    assert (forall p, Z.lxor p (Z.lxor p v) = v) as Hc.
    { intros p. by rewrite <- Z.lxor_assoc, Z.lxor_nilpotent, Z.lxor_0_l. }
    destruct (_ <? _); [eexists (Z.lxor pd v), _, true, _|eexists (Z.lxor pf v), _, false, _];
      (split; [reflexivity|]).
    - destruct (Hz pd Hpd) as (? & ? & ?). run. rewrite Hc, Ed. run. rewrite Ef. run. repeat (split; [done|]). done.
    - destruct (Hz pf Hpf) as (? & ? & ?). run. rewrite Hc, Ed. run. rewrite Ef. run. repeat (split; [done|]). done.
  Qed.

  (** ** Pairs *)
Lemma tail_load c n (rest : bytes) :
    0 <= n <= Z.of_nat w -> uint (8 * n) c ->
    le_load (take (Z.to_nat n) (take (Z.to_nat n) (le_store w c) ++ rest)) = c /\
    drop (Z.to_nat n) (take (Z.to_nat n) (le_store w c) ++ rest) = rest /\
    blen (take (Z.to_nat n) (le_store w c)) = n.
  Proof using Hw.
    intros Hn Hc. assert (length (take (Z.to_nat n) (le_store w c)) = Z.to_nat n) as Hl by len.
    rewrite take_app_length', drop_app_length' by done. repeat split; [|lia].
    assert (le_store w c = le_store (Z.to_nat n) c ++ replicate (w - Z.to_nat n) 0) as ->.
    { rewrite <- (le_load_store_id (Z.to_nat n) c) at 1 by (by rewrite Z2Nat.id by lia).
      rewrite le_store_short; [by rewrite length_le_store|apply le_store_bytes|len]. }
    rewrite take_le_store. apply le_load_store_id. by rewrite Z2Nat.id by lia.
  Qed.

Lemma pair_roundtrip a b room s :
    uv a -> uv b -> op_ok s -> 1 + 2 * Z.of_nat w <= room ->
    exists out s', encodePair w a b room s = Ok (out, s') /\ op_ok s' /\ blen out <= 1 + 2 * Z.of_nat w /\
      bytes_ok out /\ forall rest, decodePair w (out ++ rest) s = Ok (a, b, rest, s').
  Proof using Hw Hsize.
    intros Ha Hb Hs Hroom. unfold encodePair.
    destruct (compressValue_ok a s Ha Hs) as (c1 & z1 & b1 & s1 & -> & Hz1 & Ht1 & Hc1 & Hd1 & Hs1). run.
    destruct (compressValue_ok b s1 Hb Hs1) as (c2 & z2 & b2 & s2 & -> & Hz2 & Ht2 & Hc2 & Hd2 & Hs2). run.
    fold (header_of b1 b2 z1 z2). pose proof (header_fields b1 b2 z1 z2 Hz1 Hz2) as Hh.
    unfold header_check in Hh. rewrite !andb_true_iff in Hh. destruct Hh as (((((Hh0 & Hh1) & Hf1) & Hf2) & Hp1) & Hp2).
    apply Z.eqb_eq in Hf1, Hf2. apply eqb_prop in Hp1, Hp2.
    set (n1 := Z.of_nat w - decodeCompressedZeroByteCount w z1) in *.
    set (n2 := Z.of_nat w - decodeCompressedZeroByteCount w z2) in *.
    rewrite bind_defined by lia. eexists _, s2. split; [reflexivity|]. split; [done|].
    destruct (tail_load c2 n2 [] ltac:(lia) Hc2) as (_ & _ & Hn2).
    destruct (tail_load c1 n1 [] ltac:(lia) Hc1) as (_ & _ & Hn1).
    split; [cbn [length]; rewrite length_app; lia|]. split.
    { constructor; [split; [lia|]; cbn; lia|]. apply Forall_app; split; apply Forall_take, le_store_bytes. }
    intros rest. destruct (tail_load c2 n2 rest ltac:(lia) Hc2) as (Hl2 & Hr2 & _).
    destruct (tail_load c1 n1 (take (Z.to_nat n2) (le_store w c2) ++ rest) ltac:(lia) Hc1) as (Hl1 & Hr1 & _).
    cbn [app decodePair]. rewrite Hf1, Hf2, Hp1, Hp2. fold n1 n2.
    rewrite bind_require by (replace (Z.of_nat w <? decodeCompressedZeroByteCount w z1) with false by lia;
      replace (Z.of_nat w <? decodeCompressedZeroByteCount w z2) with false by lia; done).
    rewrite bind_require by (clear -Hw Ht1 Ht2; subst n1 n2; apply negb_true_iff, Z.leb_gt; cbn; lia).
    rewrite bind_require by (cbn [length]; rewrite !length_app; blia).
    rewrite <- app_assoc, Hl1, Hr1, Hl2, Hr2, Hd1. run. rewrite Hd2. done.
  Qed.

  (** ** Chunks *)
Lemma chunk_roundtrip k : forall seq room s,
    length seq = (2 * k)%nat -> Forall uv seq -> op_ok s -> Z.of_nat k * (1 + 2 * Z.of_nat w) <= room ->
    exists out s', encodeChunk w seq room s = Ok (out, s') /\ op_ok s' /\
      blen out <= Z.of_nat k * (1 + 2 * Z.of_nat w) /\ bytes_ok out /\
      forall rest, decodeChunk w k (out ++ rest) s = Ok (seq, rest, s').
  Proof using Hw Hsize.
    induction k as [|k IH]; intros seq room s Hl Hseq Hs Hroom.
    { destruct seq; [|cbn in Hl; lia]. exists [], s. split; [done|]. split; [done|]. split; [cbn; lia|]. by split. }
    destruct seq as [|a [|b seq]]; [cbn in Hl; lia|cbn in Hl; lia|].
    apply Forall_cons in Hseq as [Ha Hseq]. apply Forall_cons in Hseq as [Hb Hseq].
    destruct (pair_roundtrip a b room s) as (out & s1 & E1 & Hs1 & Hl1 & Hok1 & D1); [done|done|done|lia|].
    destruct (IH seq (room - blen out) s1) as (out' & s2 & E2 & Hs2 & Hl2 & Hok2 & D2);
      [cbn in Hl; lia|done|done|lia|].
    exists (out ++ out'), s2. cbn [encodeChunk decodeChunk]. rewrite E1. run. rewrite E2. run.
    split; [done|]. split; [done|]. split; [rewrite length_app; lia|]. split; [by apply Forall_app|].
    intros rest. rewrite <- app_assoc, D1. run. by rewrite D2.
  Qed.

  (** ** The chunk loops *)
Lemma ceil_even n :
    0 <= n -> let k := ceilBytesToEvenValues w n in
    0 <= k /\ k mod 2 = 0 /\ n <= k * Z.of_nat w < n + 2 * Z.of_nat w.
  Proof using Hw.
    intros Hn. unfold ceilBytesToEvenValues. destruct Hw as [->| ->];
      (match goal with |- context [if ?b =? 0 then _ else _] => destruct (Z.eqb_spec b 0) end); dlia.
  Qed.

Lemma ceil_even_chunk n :
    64 * Z.of_nat w <= n -> ceilBytesToEvenValues w n = 64 + ceilBytesToEvenValues w (n - 64 * Z.of_nat w).
  Proof using Hw.
    intros Hn. unfold ceilBytesToEvenValues.
    replace (n + Z.of_nat w - 1) with (n - 64 * Z.of_nat w + Z.of_nat w - 1 + 64 * Z.of_nat w) by lia.
    rewrite Z.div_add by lia. set (q := (n - 64 * Z.of_nat w + Z.of_nat w - 1) / Z.of_nat w).
    replace ((q + 64) mod 2) with (q mod 2) by (change 64 with (32 * 2); by rewrite Z_mod_plus_full).
    destruct (q mod 2 =? 0); lia.
  Qed.

Definition chunk_bytes : nat := Z.to_nat (CHUNK_SIZE * Z.of_nat w).

Definition chunk_values (n : Z) : Z :=
    if n <? CHUNK_SIZE * Z.of_nat w then ceilBytesToEvenValues w n else CHUNK_SIZE.

  (** The imported chunk: an even number of values, whose bytes are those of
      the source, completed with zeros in the last chunk. *)
Lemma import_ok data :
    bytes_ok data -> data <> [] ->
    let chunk := importChunk w data in let k := chunk_values (blen data) in
    blen chunk = k /\ k mod 2 = 0 /\ 0 <= k /\ Forall uv chunk /\
    exportChunk w chunk (blen data) = take chunk_bytes data /\
    blen data - k * Z.of_nat w <= blen (drop chunk_bytes data) /\
    (blen data - k * Z.of_nat w = blen (drop chunk_bytes data) \/ drop chunk_bytes data = []) .
  Proof using Hw.
    intros Hok Hne. unfold importChunk, chunk_values, exportChunk, chunk_bytes, CHUNK_SIZE.
    set (n := blen data). assert (0 < Z.of_nat w) as Hw0 by lia.
    destruct (Z.ltb_spec n (64 * Z.of_nat w)) as [Hlt|Hge].
    - replace (64 * Z.of_nat w <=? n) with false by lia.
      destruct (ceil_even n ltac:(lia)) as (Hk0 & Hk2 & Hkl & Hku). set (k := ceilBytesToEvenValues w n) in *.
      set (buf := data ++ replicate (Z.to_nat (64 * Z.of_nat w) - length data) 0).
      assert (bytes_ok buf) as Hb.
      { apply Forall_app; split; [done|]. apply Forall_replicate. unfold uint. cbn. lia. }
      assert (length buf = (64 * w)%nat) as Hbl by (unfold buf; rewrite length_app, length_replicate; lia).
      assert (length buf mod w = 0)%nat as Hm by (rewrite Hbl; apply Nat.Div0.mod_mul).
      pose proof (length_loadArray w buf ltac:(lia) Hm) as Hll.
      assert (length (loadArray w buf) = 64%nat) as Hll' by (rewrite Hbl in Hll; nia).
      assert (k <= 64) as Hk64 by (destruct Hw as [->| ->]; dlia).
      assert (blen (take (Z.to_nat k) (loadArray w buf)) = k) as Htk by (rewrite length_take; lia).
      assert (length data <= Z.to_nat (64 * Z.of_nat w))%nat as Hdl by lia.
      rewrite Htk, drop_ge, (take_ge data) by done. split_and!; try done; [| |cbn; lia|by right].
      + apply Forall_take, loadArray_uint; [lia|done|done].
      + rewrite Z.min_l by lia. unfold n. rewrite Nat2Z.id.
        assert (storeArray w (take (Z.to_nat k) (loadArray w buf)) = take (w * Z.to_nat k) buf) as ->.
        { assert (storeArray w (take (Z.to_nat k) (loadArray w buf)) ++ storeArray w (drop (Z.to_nat k) (loadArray w buf)) = buf) as E.
          { rewrite <- storeArray_app, take_drop. apply storeArray_loadArray; [lia|done|done]. }
          rewrite <- E at 2. rewrite take_app_length'; [done|]. rewrite length_storeArray, length_take. lia. }
        rewrite take_take, Nat.min_l by lia. unfold buf. by rewrite take_app_length.
    - replace (64 * Z.of_nat w <=? n) with true by lia.
      assert (length (take (Z.to_nat (64 * Z.of_nat w)) data) = (64 * w)%nat) as Htl by (rewrite length_take; lia).
      assert (length (take (Z.to_nat (64 * Z.of_nat w)) data) mod w = 0)%nat as Hm by (rewrite Htl; apply Nat.Div0.mod_mul).
      pose proof (length_loadArray w _ ltac:(lia) Hm) as Hll. rewrite Htl in Hll.
      assert (length (loadArray w (take (Z.to_nat (64 * Z.of_nat w)) data)) = 64%nat) as Hll' by nia.
      rewrite Hll'. split_and!; try done.
      + apply loadArray_uint; [lia|done|by apply Forall_take].
      + rewrite storeArray_loadArray by (lia || done || by apply Forall_take).
        rewrite take_take. f_equal. lia.
      + len.
      + left. len.
  Qed.

  (** Bytes that are enough for the pairs of [n] source bytes. *)
Definition need (n : Z) : Z := ceilBytesToEvenValues w n / 2 * (1 + 2 * Z.of_nat w).

Lemma need_chunk (data : bytes) :
    need (blen data) = chunk_values (blen data) / 2 * (1 + 2 * Z.of_nat w) + need (blen (drop chunk_bytes data)).
  Proof using Hw.
    unfold need, chunk_values, chunk_bytes, CHUNK_SIZE. rewrite length_drop.
    destruct (Z.ltb_spec (blen data) (64 * Z.of_nat w)) as [Hlt|Hge].
    - replace (Z.of_nat (length data - Z.to_nat (64 * Z.of_nat w))) with 0 by lia.
      assert (ceilBytesToEvenValues w 0 = 0) as -> by (destruct Hw as [->| ->]; done).
      change (0 / 2) with 0. lia.
    - rewrite ceil_even_chunk by lia.
      replace (Z.of_nat (length data - Z.to_nat (64 * Z.of_nat w))) with (blen data - 64 * Z.of_nat w) by lia.
      set (c := ceilBytesToEvenValues w (blen data - 64 * Z.of_nat w)).
      replace (64 + c) with (c + 32 * 2) by lia. rewrite Z.div_add by lia. change (64 / 2) with 32. lia.
  Qed.

Lemma need_nonneg n : 0 <= n -> 0 <= need n.
  Proof using Hw. intros Hn. destruct (ceil_even n Hn) as (Hk & _). unfold need. apply Z.mul_nonneg_nonneg; dlia. Qed.

Lemma loop_roundtrip fuel : forall data room s,
    (length data <= fuel)%nat -> bytes_ok data -> op_ok s -> need (blen data) <= room ->
    exists out, encode_loop fuel w data room s = Ok out /\ bytes_ok out /\ blen out <= need (blen data) /\
      decode_loop fuel w (blen data) out (blen data) s = Ok data.
  Proof using Hw Hsize.
    induction fuel as [|fuel IH]; intros data room s Hf Hok Hs Hroom.
    { destruct data; [|cbn in Hf; lia]. exists []. split_and!; try done. by apply need_nonneg. }
    destruct (decide (data = [])) as [->|Hne].
    { exists []. split_and!; try done. by apply need_nonneg. }
    assert (0 < blen data) as Hpos by (destruct data; [done|cbn; lia]).
    destruct (import_ok data Hok Hne) as (Hcl & Hk2 & Hk0 & Hcu & Hexp & Hleft & Hcase).
    pose proof (need_chunk data) as Hneed. pose proof (need_nonneg (blen (drop chunk_bytes data)) ltac:(lia)) as Hn0.
    set (k := chunk_values (blen data)) in *.
    destruct (chunk_roundtrip (Z.to_nat (k / 2)) (importChunk w data) room s) as (out & s' & E & Hs' & Hl & Hbok & D);
      [dlia|done|done|dlia|].
    assert ((length (drop chunk_bytes data) <= fuel)%nat) as Hdl.
    { unfold chunk_bytes, CHUNK_SIZE. len. }
    assert (0 <= k / 2) as Hk by dlia. rewrite Z2Nat.id in Hl by done.
    destruct (IH (drop chunk_bytes data) (room - blen out) s' Hdl ltac:(by apply Forall_drop) Hs' ltac:(lia))
      as (out' & E' & Hok' & Hl' & D').
    exists (out ++ out'). split_and!.
    - cbn [encode_loop]. rewrite E. run. fold chunk_bytes. rewrite E'. run. by destruct data.
    - by apply Forall_app.
    - rewrite length_app. lia.
    - cbn [decode_loop]. destruct (Z.leb_spec (blen data) 0); [lia|].
      fold (chunk_values (blen data)). fold k. rewrite D. run. rewrite Hexp.
      replace (blen data - blen (take chunk_bytes data)) with (blen (drop chunk_bytes data)) by len.
      enough (decode_loop fuel w (blen data - k * Z.of_nat w) out' (blen (drop chunk_bytes data)) s' =
        Ok (drop chunk_bytes data)) as ->; [run; by rewrite take_drop|].
      destruct Hcase as [->|Hnil]; [done|]. rewrite Hnil in *. cbn [length] in Hleft.
      destruct fuel; cbn [decode_loop]; (destruct (Z.leb_spec (blen data - k * Z.of_nat w) 0); [done|lia]).
  Qed.

  (** ** Arbitrary input *)
Lemma decodePair_safe bs s :
    bytes_ok bs -> op_ok s ->
    match decodePair w bs s with
    | Ok (a, b, rest, s') => uv a /\ uv b /\ bytes_ok rest /\ op_ok s'
    | Throw _ => True
    | Undef => False
    end.
  Proof using Hw Hsize.
    intros Hok Hs. unfold decodePair. destruct bs as [|front rest]; [done|].
    apply Forall_cons in Hok as [Hf Hok].
    set (z1 := decodeCompressedZeroByteCount w (Z.land (Z.shiftr front 4) MAX_ZERO_BYTE_COUNT)).
    set (z2 := decodeCompressedZeroByteCount w (Z.land front MAX_ZERO_BYTE_COUNT)).
    assert (0 <= z1 /\ 0 <= z2) as [Hz1 Hz2].
    { assert (0 <= front) by apply Hf. unfold z1, z2, decodeCompressedZeroByteCount, MAX_ZERO_BYTE_COUNT.
      assert (0 <= Z.land (Z.shiftr front 4) 7) by (apply Z.land_nonneg; lia).
      assert (0 <= Z.land front 7) by (apply Z.land_nonneg; lia). repeat case_match; lia. }
    destruct ((Z.of_nat w <? z1) || (Z.of_nat w <? z2)) eqn:Hg; run; [done|].
    apply orb_false_iff in Hg as [Hg1%Z.ltb_ge Hg2%Z.ltb_ge].
    destruct (2 ^ 64 <=? _); run; [done|]. destruct (blen (front :: rest) <? _); run; [done|].
    assert (forall k (l : bytes), bytes_ok l -> 0 <= k <= Z.of_nat w -> uv (le_load (take (Z.to_nat k) l))) as Hload.
    { intros k l Hl Hk. assert (bytes_ok (take (Z.to_nat k) l)) as Ht by by apply Forall_take.
      apply le_load_uint in Ht as [H0 H1]. split; [done|]. eapply Z.lt_le_trans; [exact H1|].
      apply Z.pow_le_mono_r; [lia|]. rewrite length_take. lia. }
    destruct (decompressValue_ok _ (negb (Z.land front (Z.shiftl DFCM_BIT 4) =? 0)) s (Hload (Z.of_nat w - z1) rest Hok ltac:(lia)) Hs)
      as (a & s1 & -> & Ha & Hs1). run.
    destruct (decompressValue_ok _ (negb (Z.land front DFCM_BIT =? 0)) s1
      (Hload (Z.of_nat w - z2) (drop (Z.to_nat (Z.of_nat w - z1)) rest) ltac:(by apply Forall_drop) ltac:(lia)) Hs1)
      as (b & s2 & -> & Hb & Hs2). run. split_and!; auto using Forall_drop.
  Qed.

Lemma decodeChunk_safe k : forall bs s,
    bytes_ok bs -> op_ok s ->
    match decodeChunk w k bs s with
    | Ok (seq, rest, s') => length seq = (2 * k)%nat /\ bytes_ok rest /\ op_ok s'
    | Throw _ => True
    | Undef => False
    end.
  Proof using Hw Hsize.
    induction k as [|k IH]; intros bs s Hok Hs; cbn [decodeChunk]; [done|].
    pose proof (decodePair_safe bs s Hok Hs) as Hp.
    destruct (decodePair w bs s) as [[[[a b] rest] s1]|e|]; run; [|done|done].
    destruct Hp as (_ & _ & Hr & Hs1). specialize (IH rest s1 Hr Hs1).
    destruct (decodeChunk w k rest s1) as [[[seq rest'] s2]|e|]; run; [|done|done].
    destruct IH as (Hl & ? & ?). split; [cbn; lia|done].
  Qed.

Lemma decode_loop_safe fuel : forall left bs room s,
    bytes_ok bs -> op_ok s -> left <= Z.of_nat fuel -> 0 <= room ->
    match decode_loop fuel w left bs room s with
    | Ok out => blen out <= room
    | Throw _ => True
    | Undef => False
    end.
  Proof using Hw Hsize.
    induction fuel as [|fuel IH]; intros left bs room s Hok Hs Hf Hroom; cbn [decode_loop];
      (destruct (Z.leb_spec left 0); [cbn; lia|]); [lia|].
    fold (chunk_values left).
    assert (1 <= chunk_values left) as Hk.
    { unfold chunk_values, CHUNK_SIZE. destruct (_ <? _); [|lia].
      destruct (ceil_even left ltac:(lia)) as (? & ? & ?). nia. }
    pose proof (decodeChunk_safe (Z.to_nat (chunk_values left / 2)) bs s Hok Hs) as Hc.
    destruct decodeChunk as [[[seq rest] s1]|e|]; run; [|done|done]. destruct Hc as (_ & Hr & Hs1).
    assert (blen (exportChunk w seq room) <= room) as He by (unfold exportChunk; rewrite length_take; lia).
    specialize (IH (left - chunk_values left * Z.of_nat w) rest (room - blen (exportChunk w seq room)) s1 Hr Hs1 ltac:(nia) ltac:(lia)).
    destruct decode_loop; run; [|done|done]. rewrite length_app. lia.
  Qed.
End Values.

Lemma make_ok w l : 0 <= l -> op_ok w (2 ^ l) (make l).
Proof.
  intros Hl. unfold make. rewrite Z.shiftl_1_l. pose proof (Z.pow_pos_nonneg 2 l).
  split; (split; [done|split; [cbn; lia|apply map_Forall_empty]]).
Qed.
End FPCOperationFacts.

Module CompressionCodecFPC.
Definition HEADER_SIZE : Z := 2.
Definition MAX_COMPRESSION_LEVEL : Z := 28.

Definition getMaxCompressedDataSize (float_width uncompressed_size : Z) : Z :=
  let float_count := wrap 32 (uncompressed_size + float_width - 1) / float_width in
  let float_count := if float_count mod 2 =? 0 then float_count else wrap 32 (float_count + 1) in
  wrap 32 (HEADER_SIZE + float_count * float_width + float_count / 2).

Definition doCompressData (float_width compression_level : Z) (source : bytes) : outcome (bytes * Z) :=
  let dest_size := getMaxCompressedDataSize float_width (blen source) in
  let room := dest_size - HEADER_SIZE in
  match float_width with
  | 8 => out ← FPCOperation.encode 8 compression_level source room;
         Ok ([float_width; compression_level] ++ out, wrap 32 (HEADER_SIZE + blen out))
  | 4 => out ← FPCOperation.encode 4 compression_level source room;
         Ok ([float_width; compression_level] ++ out, wrap 32 (HEADER_SIZE + blen out))
  | _ => Throw CANNOT_COMPRESS
  end.

Definition doDecompressData (source : bytes) (uncompressed_size : Z) : outcome (bytes * Z) :=
  _ ← require (negb (blen source <? HEADER_SIZE)) CANNOT_DECOMPRESS;
  let compressed_float_width := nth 0 source 0 in
  let compressed_level := nth 1 source 0 in
  _ ← require (negb ((compressed_level =? 0) || (MAX_COMPRESSION_LEVEL <? compressed_level))) CANNOT_DECOMPRESS;
  let src := drop (Z.to_nat HEADER_SIZE) source in
  match compressed_float_width with
  | 8 => FPCOperation.decode 8 compressed_level src uncompressed_size
  | 4 => FPCOperation.decode 4 compressed_level src uncompressed_size
  | _ => Throw CANNOT_DECOMPRESS
  end.

Definition codec (float_width compression_level : Z) (err : ErrorCode) : ICompressionCodec := {|
  getMethodByte := methodByte FPC;
  Codec.getMaxCompressedDataSize := fun n => Ok (getMaxCompressedDataSize float_width n);
  Codec.doCompressData := doCompressData float_width compression_level;
  Codec.doDecompressData := fun _ => doDecompressData;
  getAdditionalSizeAtTheEndOfBuffer := 0;
  isCompression := true;
  isNone := false;
  isGenericCompression := false;
  isDeltaCompression := false;
  isFloatingPointTimeSeriesCodec := true;
  isEncryption := false;
  isExperimental := false;
  decompression_error_code := err
|}.

(** ** The codec *)
Import FPCOperationFacts.

Definition dom (src : bytes) : Prop := bytes_ok src /\ blen src <= 2 ^ 31.

Lemma fpc_max_size w n :
  w = 4%nat \/ w = 8%nat -> 0 <= n <= 2 ^ 31 ->
  getMaxCompressedDataSize (Z.of_nat w) n = HEADER_SIZE + need w n /\ need w n < 2 ^ 32 - 2.
Proof.
  intros Hw Hn. destruct (ceil_even w Hw n ltac:(lia)) as (Hk0 & Hk2 & Hk). cbn zeta in *.
  unfold getMaxCompressedDataSize, need, HEADER_SIZE.
  rewrite (wrap_id 32 (n + _ - 1)) by (unfold uint; lia).
  assert ((if (n + Z.of_nat w - 1) / Z.of_nat w mod 2 =? 0 then (n + Z.of_nat w - 1) / Z.of_nat w
    else wrap 32 ((n + Z.of_nat w - 1) / Z.of_nat w + 1)) = FPCOperation.ceilBytesToEvenValues w n) as ->.
  { unfold FPCOperation.ceilBytesToEvenValues. destruct (_ =? 0); [done|]. apply wrap_id. unfold uint.
    destruct Hw as [->| ->]; dlia. }
  set (k := FPCOperation.ceilBytesToEvenValues w n) in *.
  assert (k = 2 * (k / 2)) as Hkk by dlia. set (h := k / 2) in *. rewrite Hkk in *.
  assert (h * (1 + 2 * Z.of_nat w) < 2 ^ 32 - 2) as Hlt by (destruct Hw as [->| ->]; lia).
  split; [|done]. rewrite wrap_id; [lia|]. unfold uint. lia.
Qed.

Lemma fpc_data_roundtrip w level src :
  w = 4%nat \/ w = 8%nat -> 1 <= level <= MAX_COMPRESSION_LEVEL -> dom src ->
  exists out, doCompressData (Z.of_nat w) level src = Ok (out, blen out) /\ bytes_ok out /\
    blen out <= getMaxCompressedDataSize (Z.of_nat w) (blen src) < 2 ^ 32 /\
    doDecompressData out (blen src) = Ok (src, blen src).
Proof.
  unfold MAX_COMPRESSION_LEVEL. intros Hw Hlev [Hok Hlen].
  destruct (fpc_max_size w (blen src) Hw ltac:(lia)) as [Hm Hlt].
  destruct (loop_roundtrip w (2 ^ level) Hw ltac:(exists level; split; [lia|done]) (length src) src
    (getMaxCompressedDataSize (Z.of_nat w) (blen src) - HEADER_SIZE) (FPCOperation.make level))
    as (out & E & Hbok & Hl & D); [lia|done|apply make_ok; lia|lia|].
  exists ([Z.of_nat w; level] ++ out). unfold HEADER_SIZE in *. rewrite Hm in *. split_and!; [| |len..|].
  - unfold doCompressData. rewrite Hm. unfold FPCOperation.encode, HEADER_SIZE.
    destruct Hw as [->| ->]; cbn [Z.of_nat Pos.of_succ_nat Pos.succ]; rewrite E; run;
      rewrite wrap_id by (unfold uint; lia); do 2 f_equal; cbn [app length]; lia.
  - repeat constructor; try done; destruct Hw; cbn; lia.
  - unfold doDecompressData, HEADER_SIZE, FPCOperation.decode. rewrite Nat2Z.id. change (drop (Z.to_nat 2) ([Z.of_nat w; level] ++ out)) with (drop 0 out).
    rewrite drop_0. cbn [nth app]. rewrite bind_require by (cbn [length]; blia).
    rewrite bind_require by (unfold MAX_COMPRESSION_LEVEL; apply negb_true_iff, orb_false_iff; lia).
    destruct Hw as [->| ->]; cbn [Z.of_nat Pos.of_succ_nat Pos.succ]; rewrite D; run;
      by rewrite wrap_id by (unfold uint; lia).
Qed.

#[export] Instance fpc_pair w level w' level' e e' :
  w = 4%nat \/ w = 8%nat -> 1 <= level <= MAX_COMPRESSION_LEVEL ->
  CodecPair (codec (Z.of_nat w) level e) (codec w' level' e') dom.
Proof.
  intros Hw Hl. split; cbn [getMethodByte codec Codec.doCompressData Codec.doDecompressData Codec.getMaxCompressedDataSize].
  - done.
  - unfold uint; cbn; lia.
  - intros src Hd. destruct (fpc_data_roundtrip w level src Hw Hl Hd) as (out & ? & ? & [? ?] & ?). eauto 10.
Qed.

Lemma decode_safe w level src n :
  w = 4%nat \/ w = 8%nat -> 0 <= level -> bytes_ok src -> uint 32 n ->
  match FPCOperation.decode w level src n with
  | Ok (out, r) => blen out <= n /\ r = blen out
  | Throw _ => True
  | Undef => False
  end.
Proof.
  intros Hw Hl Hok [Hn0 Hn]. unfold FPCOperation.decode.
  pose proof (decode_loop_safe w (2 ^ level) Hw ltac:(by exists level) (Z.to_nat n) n src n (FPCOperation.make level)
    Hok (make_ok w level Hl) ltac:(lia) Hn0) as Hs.
  destruct FPCOperation.decode_loop; run; [|done|done]. rewrite wrap_id by (unfold uint; lia). lia.
Qed.

#[export] Instance fpc_safe w level e : SafeDecoder (codec w level e).
Proof.
  split. intros e0 src n Hok Hn. cbn [codec Codec.doDecompressData]. unfold doDecompressData.
  destruct (_ <? HEADER_SIZE) eqn:Hsz; run; [done|].
  destruct (_ || _); run; [done|].
  assert (0 <= nth 1 src 0) as Hl by (destruct Hok as [|? ? ? [|? ? [? ?] ?]]; cbn; lia).
  assert (bytes_ok (drop (Z.to_nat HEADER_SIZE) src)) as Hd by by apply Forall_drop.
  destruct (nth 0 src 0) as [|p|p]; try done.
  repeat first [done | apply decode_safe; by auto | destruct p as [p|p|] ].
Qed.
End CompressionCodecFPC.
