(* ===== verification/CodecT64.v ===== *)
(** * The T64 codec

    [src/Compression/CompressionCodecT64.cpp]: values of an integer type are
    taken 64 at a time, cut to the bits that vary between the minimum and the
    maximum of the block, and written as a transposed matrix, by bytes or by
    bits. *)

From stdpp Require Import prelude.
From Stdlib Require Import ZArith Lia.
From S2P Require Import Prelude Bits Codec CodecDelta.

(** [Core/TypeId.h]. *)
Module TypeIndex.
Inductive t : Set :=
| Nothing | UInt8 | UInt16 | UInt32 | UInt64 | UInt128 | UInt256 | Int8 | Int16 | Int32 | Int64
| Int128 | Int256 | BFloat16 | Float32 | Float64 | Date | Date32 | DateTime | DateTime64 | Time
| Time64 | String | FixedString | Enum8 | Enum16 | Decimal32 | Decimal64 | Decimal128 | Decimal256
| UUID | Array | Tuple | QBit | Set_ | Interval | Nullable | Function | AggregateFunction
| LowCardinality | Map | Object | IPv4 | IPv6 | JSONPaths | Variant | Dynamic.
End TypeIndex.

Module CompressionCodecT64.
Definition HEADER_SIZE : Z := 1 + 2 * 8.
Definition MAX_COMPRESSED_BLOCK_SIZE : Z := 8 * 64.

Inductive Variant : Set := Byte | Bit.

(** The [MagicNumber] of a type, as the number it is serialized to. *)
Definition serializeTypeId (type_id : option TypeIndex.t) : outcome Z :=
  match type_id with
  | None => Throw CANNOT_COMPRESS
  | Some t =>
      match t with
      | TypeIndex.UInt8 => Ok 1
      | TypeIndex.UInt16 => Ok 2
      | TypeIndex.UInt32 => Ok 3
      | TypeIndex.UInt64 => Ok 4
      | TypeIndex.Int8 => Ok 6
      | TypeIndex.Int16 => Ok 7
      | TypeIndex.Int32 => Ok 8
      | TypeIndex.Int64 => Ok 9
      | TypeIndex.Date => Ok 13
      | TypeIndex.DateTime => Ok 14
      | TypeIndex.DateTime64 => Ok 15
      | TypeIndex.Enum8 => Ok 17
      | TypeIndex.Enum16 => Ok 18
      | TypeIndex.Decimal32 => Ok 19
      | TypeIndex.Decimal64 => Ok 20
      | TypeIndex.IPv4 => Ok 21
      | TypeIndex.Date32 => Ok 22
      | TypeIndex.Time => Ok 23
      | TypeIndex.Time64 => Ok 24
      | _ => Throw LOGICAL_ERROR
      end
  end.

Definition deserializeTypeId (serialized_type_id : Z) : outcome TypeIndex.t :=
  match serialized_type_id with
  | 1 => Ok TypeIndex.UInt8
  | 2 => Ok TypeIndex.UInt16
  | 3 => Ok TypeIndex.UInt32
  | 4 => Ok TypeIndex.UInt64
  | 6 => Ok TypeIndex.Int8
  | 7 => Ok TypeIndex.Int16
  | 8 => Ok TypeIndex.Int32
  | 9 => Ok TypeIndex.Int64
  | 13 => Ok TypeIndex.Date
  | 14 => Ok TypeIndex.DateTime
  | 15 => Ok TypeIndex.DateTime64
  | 17 => Ok TypeIndex.Enum8
  | 18 => Ok TypeIndex.Enum16
  | 19 => Ok TypeIndex.Decimal32
  | 20 => Ok TypeIndex.Decimal64
  | 21 => Ok TypeIndex.IPv4
  | 22 => Ok TypeIndex.Date32
  | 23 => Ok TypeIndex.Time
  | 24 => Ok TypeIndex.Time64
  | _ => Throw INCORRECT_DATA
  end.

Definition baseType (type_idx : TypeIndex.t) : TypeIndex.t :=
  match type_idx with
  | TypeIndex.Int8 => TypeIndex.Int8
  | TypeIndex.Int16 => TypeIndex.Int16
  | TypeIndex.Int32 | TypeIndex.Time | TypeIndex.Decimal32 | TypeIndex.Date32 => TypeIndex.Int32
  | TypeIndex.Int64 | TypeIndex.Decimal64 | TypeIndex.Time64 | TypeIndex.DateTime64 => TypeIndex.Int64
  | TypeIndex.UInt8 | TypeIndex.Enum8 => TypeIndex.UInt8
  | TypeIndex.UInt16 | TypeIndex.Enum16 | TypeIndex.Date => TypeIndex.UInt16
  | TypeIndex.UInt32 | TypeIndex.DateTime | TypeIndex.IPv4 => TypeIndex.UInt32
  | TypeIndex.UInt64 => TypeIndex.UInt64
  | _ => TypeIndex.Nothing
  end.

(** ** The bit matrix

    A line is 64 bytes, that is 8 words of 64 bits; [UInt64 matrix[64]] is 8
    lines, and [matrix8[64 * k + col]] is the byte [col] of line [k]. *)

(** [dst[j] |= ((value >> j) & 1) << i] for each [j], for each byte [i]. *)
Definition transpose64x8_words (line : bytes) (n : nat) : list Z :=
  foldl (fun dst i =>
      imap (fun j d => Z.lor d (wrap 64 (Z.shiftl (Z.land (Z.shiftr (nth i line 0) (Z.of_nat j)) 1) (Z.of_nat i)))) dst)
    (replicate 8 0) (seq 0 n).

Definition transpose64x8 (line : bytes) : bytes := storeArray 8 (transpose64x8_words line 64).

Definition reverseTranspose64x8 (line : bytes) : bytes :=
  let src := loadArray 8 line in
  (fun i => wrap 8 (foldl (fun v j =>
      Z.lor v (Z.shiftl (Z.land (Z.shiftr (nth j src 0) (Z.of_nat i)) 1) (Z.of_nat j))) 0 (seq 0 8)))
    <$> seq 0 64.

(** The bytes of a value, in the order the source handles them. *)
Definition positions (w : nat) : list nat :=
  (if Nat.ltb 4 w then [7; 6; 5; 4]%nat else []) ++ (if Nat.ltb 2 w then [3; 2]%nat else [])
  ++ (if Nat.ltb 1 w then [1]%nat else []) ++ [0]%nat.

Definition value8 (value : Z) (k : nat) : Z := Z.land (Z.shiftr value (8 * Z.of_nat k)) 255.

Definition transposeBytes (w : nat) (value : Z) (matrix : list bytes) (col : nat) : list bytes :=
  foldl (fun m k => alter (fun line => <[col := value8 value k]> line) k m) matrix (positions w).

Definition matrix8 (matrix : list bytes) (k col : nat) : Z := nth col (nth k matrix []) 0.

Definition reverseTransposeBytes (w : nat) (matrix : list bytes) (col : nat) : Z :=
  foldl (fun value k => Z.lor value (Z.shiftl (matrix8 matrix k col) (8 * Z.of_nat k))) 0 (positions w).

(** [for (col = 0; col < tail; ++col) transposeBytes(src[col], matrix, col);] *)
Fixpoint fill_matrix (w : nat) (src : list Z) (matrix : list bytes) (col : nat) : list bytes :=
  match src with
  | [] => matrix
  | value :: src => fill_matrix w src (transposeBytes w value matrix col) (S col)
  end.

(** [src] holds the [tail] values; the result is what is written to [dst]. *)
Definition transposeImpl (w : nat) (full : bool) (src : list Z) (num_bits : Z) : bytes :=
  let full_bytes := Z.to_nat (num_bits / 8) in
  let part_bits := num_bits mod 8 in
  let matrix := fill_matrix w src (replicate 8 (replicate 64 0)) 0 in
  let lines := take full_bytes matrix in
  let lines := if full then transpose64x8 <$> lines else lines in
  mjoin lines
  ++ if part_bits =? 0 then []
     else take (Z.to_nat (part_bits * 8)) (transpose64x8 (nth full_bytes matrix [])).

(** [src] is the [num_bits] words of the block. *)
Definition reverseTransposeImpl (w : nat) (full : bool) (src : bytes) (num_bits : Z) (tail : nat) : list Z :=
  let buf := take (Z.to_nat (num_bits * 8)) src in
  let buf := buf ++ replicate (512 - length buf) 0 in
  let matrix := (fun k => take 64 (drop (64 * k) buf)) <$> seq 0 8 in
  let full_bytes := Z.to_nat (num_bits / 8) in
  let part_bits := num_bits mod 8 in
  let matrix := imap (fun k line => if full && Nat.ltb k full_bytes then reverseTranspose64x8 line else line) matrix in
  let matrix := if part_bits =? 0 then matrix else alter reverseTranspose64x8 full_bytes matrix in
  reverseTransposeBytes w matrix <$> seq 0 tail.

Definition restoreUpperBits (signed : bool) (buf : list Z) (upper_min upper_max sign_bit : Z) : list Z :=
  if signed && negb (sign_bit =? 0)
  then (fun value => if Z.land value sign_bit =? 0 then Z.lor value upper_max else Z.lor value upper_min) <$> buf
  else (fun value => Z.lor value upper_min) <$> buf.

(** [getValuableBitsNumber(UInt64, UInt64)]. *)
Definition getValuableBitsNumber_unsigned (min max : Z) : Z :=
  let diff_bits := Z.lxor min max in
  if diff_bits =? 0 then 0 else 64 - getLeadingZeroBits 64 diff_bits.

(** [getValuableBitsNumber(Int64, Int64)]. *)
Definition getValuableBitsNumber_signed (min max : Z) : Z :=
  if (min <? 0) && (0 <=? max) then
    if 0 <=? min + max then getValuableBitsNumber_unsigned 0 max + 1
    else getValuableBitsNumber_unsigned 0 (wrap 64 (Z.lnot min)) + 1
  else getValuableBitsNumber_unsigned (wrap 64 min) (wrap 64 max).

Definition getValuableBitsNumber (signed : bool) (min max : Z) : Z :=
  if signed then getValuableBitsNumber_signed min max else getValuableBitsNumber_unsigned min max.

(** The value of type [T] whose bytes are those of the [w] byte pattern. *)
Definition as_T (w : nat) (signed : bool) (pattern : Z) : Z :=
  if signed then to_signed (8 * Z.of_nat w) pattern else pattern.

(** [src] holds the values of the block, which is not empty. *)
Definition findMinMax (src : list Z) : Z * Z :=
  match src with
  | [] => (0, 0)
  | v :: _ =>
      foldl (fun '(min, max) current =>
        (if current <? min then current else min, if max <? current then current else max)) (v, v) src
  end.

(** [num_full] blocks of 64 values. *)
Fixpoint compress_blocks (w : nat) (full : bool) (num_bits : Z) (num_full : nat) (src : list Z) : bytes * list Z :=
  match num_full with
  | O => ([], src)
  | S num_full =>
      let '(out, rest) := compress_blocks w full num_bits num_full (drop 64 src) in
      (transposeImpl w full (take 64 src) num_bits ++ out, rest)
  end.

Definition compressData (w : nat) (signed full : bool) (src : bytes) : bytes * Z :=
  let skip := bytes_to_skip (blen src) (Z.of_nat w) in
  let head := take (Z.to_nat skip) src in
  let src := drop (Z.to_nat skip) src in
  if blen src =? 0 then (head, skip)
  else
    let values := loadArray w src in
    let src_size := blen src / Z.of_nat w in
    let num_full := src_size / 64 in
    let tail := src_size mod 64 in
    let '(min64, max64) := findMinMax (as_T w signed <$> values) in
    let header := le_store 8 (wrap 64 min64) ++ le_store 8 (wrap 64 max64) in
    let num_bits := getValuableBitsNumber signed min64 max64 in
    if num_bits =? 0 then (head ++ header, wrap 32 (16 + skip))
    else
      let dst_shift := 8 * num_bits in
      let '(blocks, rest) := compress_blocks w full num_bits (Z.to_nat num_full) values in
      let dst_bytes := wrap 32 (num_full * dst_shift) in
      if tail =? 0 then (head ++ header ++ blocks, wrap 32 (16 + dst_bytes + skip))
      else (head ++ header ++ blocks ++ transposeImpl w full (take (Z.to_nat tail) rest) num_bits,
            wrap 32 (16 + wrap 32 (dst_bytes + dst_shift) + skip)).

(** One block: [reverseTranspose], [restoreUpperBits] and [store].  Its
    [memcpy(matrix, src, num_bits * sizeof(UInt64))] stays inside the matrix
    of 64 words and inside the source. *)
Definition decompress_block (w : nat) (signed full : bool) (num_bits upper_min upper_max sign_bit : Z)
    (src : bytes) (tail : nat) : outcome bytes :=
  _ ← defined ((num_bits <=? 64) && (8 * num_bits <=? blen src));
  Ok (storeArray w (restoreUpperBits signed (reverseTransposeImpl w full src num_bits tail) upper_min upper_max sign_bit)).

Fixpoint decompress_blocks (block : bytes -> nat -> outcome bytes) (src_shift num_full : nat) (src : bytes)
    : outcome (bytes * bytes) :=
  match num_full with
  | O => Ok ([], src)
  | S num_full =>
      b ← block src 64%nat;
      '(out, rest) ← decompress_blocks block src_shift num_full (drop src_shift src);
      Ok (b ++ out, rest)
  end.

(** [upper_min], [upper_max] and [sign_bit], truncated to [T]. *)
Definition upper_bits (w : nat) (signed : bool) (min max num_bits : Z) : Z * Z * Z :=
  let bits := 8 * Z.of_nat w in
  let high v := wrap bits (wrap 64 (Z.shiftl (Z.shiftr (wrap 64 v) num_bits) num_bits)) in
  let upper_min := if num_bits <? 64 then high min else 0 in
  if signed && (min <? 0) && (0 <=? max) && (num_bits <? 64)
  then (upper_min, high max, wrap bits (wrap 64 (Z.shiftl 1 (num_bits - 1))))
  else (upper_min, 0, 0).

Definition decompressData (w : nat) (signed full : bool) (src : bytes) (uncompressed_size : Z) : outcome (bytes * Z) :=
  let skip := bytes_to_skip uncompressed_size (Z.of_nat w) in
  _ ← require (negb (blen src <? skip)) CANNOT_DECOMPRESS;
  let head := take (Z.to_nat skip) src in
  let uncompressed_size := uncompressed_size - skip in
  let src := drop (Z.to_nat skip) src in
  _ ← require (uncompressed_size mod Z.of_nat w =? 0) CANNOT_DECOMPRESS;
  if uncompressed_size =? 0 then Ok (head, blen head)
  else
    let num_elements := uncompressed_size / Z.of_nat w in
    _ ← require (negb (blen src <? 16)) CANNOT_DECOMPRESS;
    let load p := if signed then to_signed 64 p else p in
    let min := load (le_load (take 8 src)) in
    let max := load (le_load (take 8 (drop 8 src))) in
    let src := drop 16 src in
    let num_bits := getValuableBitsNumber signed min max in
    if num_bits =? 0 then
      let out := head ++ storeArray w (replicate (Z.to_nat num_elements) (wrap (8 * Z.of_nat w) min)) in
      Ok (out, blen out)
    else
      let src_shift := 8 * num_bits in
      _ ← require (negb ((blen src =? 0) || negb (blen src mod src_shift =? 0))) CANNOT_DECOMPRESS;
      let tail := num_elements mod 64 in
      let num_full := blen src / src_shift in
      let num_full := if tail =? 0 then num_full else num_full - 1 in
      _ ← require (num_full * 64 + tail =? num_elements) CANNOT_DECOMPRESS;
      let '(upper_min, upper_max, sign_bit) := upper_bits w signed min max num_bits in
      let block := decompress_block w signed full num_bits upper_min upper_max sign_bit in
      '(out, rest) ← decompress_blocks block (Z.to_nat src_shift) (Z.to_nat num_full) src;
      last ← (if tail =? 0 then Ok [] else block rest (Z.to_nat tail));
      let out := head ++ out ++ last in
      Ok (out, wrap 32 (blen out)).

(** [switch (baseType(...))]. *)
Definition switch_type {A} (t : TypeIndex.t) (err : ErrorCode) (f : nat -> bool -> outcome A) : outcome A :=
  match baseType t with
  | TypeIndex.Int8 => f 1%nat true
  | TypeIndex.Int16 => f 2%nat true
  | TypeIndex.Int32 => f 4%nat true
  | TypeIndex.Int64 => f 8%nat true
  | TypeIndex.UInt8 => f 1%nat false
  | TypeIndex.UInt16 => f 2%nat false
  | TypeIndex.UInt32 => f 4%nat false
  | TypeIndex.UInt64 => f 8%nat false
  | _ => Throw err
  end.

Definition is_full (v : Variant) : bool := match v with Bit => true | Byte => false end.

Definition doCompressData (type_idx : option TypeIndex.t) (variant : Variant) (src : bytes) : outcome (bytes * Z) :=
  magic ← serializeTypeId type_idx;
  let cookie := Z.lor magic (wrap 8 (Z.shiftl (Z.b2z (is_full variant)) 7)) in
  match type_idx with
  | None => Undef
  | Some t =>
      switch_type t CANNOT_COMPRESS (fun w signed =>
        let '(out, n) := compressData w signed (is_full variant) src in
        Ok (cookie :: out, wrap 32 (1 + n)))
  end.

Definition doDecompressData (src : bytes) (uncompressed_size : Z) : outcome (bytes * Z) :=
  match src with
  | [] => Throw CANNOT_DECOMPRESS
  | cookie :: src =>
      let saved_variant := if Z.shiftr cookie 7 =? 1 then Bit else Byte in
      saved_type_id ← deserializeTypeId (Z.land cookie 0x7f);
      switch_type saved_type_id CANNOT_DECOMPRESS (fun w signed =>
        decompressData w signed (is_full saved_variant) src uncompressed_size)
  end.

Definition getMaxCompressedDataSize (uncompressed_size : Z) : Z :=
  wrap 32 (uncompressed_size + MAX_COMPRESSED_BLOCK_SIZE + HEADER_SIZE).

Definition codec (type_idx : option TypeIndex.t) (variant : Variant) (err : ErrorCode) : ICompressionCodec := {|
  getMethodByte := methodByte T64;
  Codec.getMaxCompressedDataSize := fun n => Ok (getMaxCompressedDataSize n);
  Codec.doCompressData := doCompressData type_idx variant;
  Codec.doDecompressData := fun _ => doDecompressData;
  getAdditionalSizeAtTheEndOfBuffer := 0;
  isCompression := true;
  isNone := false;
  isGenericCompression := false;
  isDeltaCompression := false;
  isFloatingPointTimeSeriesCodec := false;
  isEncryption := false;
  isExperimental := false;
  decompression_error_code := err
|}.

(** ** Bit transposition of a line *)

(** [x] has the bit [b] at position [i] and nothing else. *)
Lemma testbit_bit (b : bool) i j :
  0 <= i -> 0 <= j -> Z.testbit (Z.shiftl (Z.b2z b) i) j = b && (i =? j).
Proof.
  intros Hi Hj. rewrite Z.shiftl_spec by done. destruct (Z.eqb_spec i j) as [->|Hne].
  - rewrite Z.sub_diag. by destruct b.
  - rewrite andb_false_r. destruct b; [|apply Z.testbit_0_l]. cbn [Z.b2z].
    destruct (Z.lt_ge_cases j i); [by apply Z.testbit_neg_r; lia|].
    change 1 with (2 ^ 0). apply Z.pow2_bits_false. lia.
Qed.

Lemma land_1_bit x j : 0 <= j -> Z.land (Z.shiftr x j) 1 = Z.b2z (Z.testbit x j).
Proof.
  intros Hj. change 1 with (Z.ones 1) at 1. rewrite Z.land_ones by lia. change (2 ^ 1) with 2.
  rewrite <- (Z.add_0_l j), <- Z.shiftr_spec by lia. by rewrite Z.bit0_mod.
Qed.

Lemma shiftl_bit_uint (b : bool) i n : 0 <= i < n -> uint n (Z.shiftl (Z.b2z b) i).
Proof.
  intros Hi. unfold uint. rewrite Z.shiftl_mul_pow2 by lia. pose proof (Z.pow_lt_mono_r 2 i n).
  destruct b; cbn [Z.b2z]; lia.
Qed.

Lemma uint_lor w a b : 0 <= w -> uint w a -> uint w b -> uint w (Z.lor a b).
Proof.
  intros Hw Ha Hb. apply uint_bits in Ha as [Ha0 Ha], Hb as [Hb0 Hb]; [|done|done].
  apply uint_bits; [done|]. split; [by apply Z.lor_nonneg|].
  intros i Hi. by rewrite Z.lor_spec, Ha, Hb by done.
Qed.

(** The word [j] after [n] bytes: bit [i] is bit [j] of byte [i]. *)
Definition word (line : bytes) (n j : nat) : Z :=
  foldl (fun d i => Z.lor d (wrap 64 (Z.shiftl (Z.land (Z.shiftr (nth i line 0) (Z.of_nat j)) 1) (Z.of_nat i)))) 0 (seq 0 n).

Lemma words_eq line n : transpose64x8_words line n = word line n <$> seq 0 8.
Proof.
  unfold transpose64x8_words, word. induction n as [|n IH]; [done|].
  rewrite seq_S, foldl_app, IH. cbn [foldl Nat.add].
  assert (forall j, foldl (fun d i => Z.lor d (wrap 64 (Z.shiftl (Z.land (Z.shiftr (nth i line 0) (Z.of_nat j)) 1) (Z.of_nat i)))) 0 (seq 0 n ++ [n])
    = Z.lor (word line n j) (wrap 64 (Z.shiftl (Z.land (Z.shiftr (nth n line 0) (Z.of_nat j)) 1) (Z.of_nat n)))) as E.
  { intros j. unfold word. by rewrite foldl_app. }
  cbn [seq fmap list_fmap]. rewrite !E. done.
Qed.

Lemma word_bit line n j i :
  (n <= 64)%nat ->
  Z.testbit (word line n j) (Z.of_nat i) = Nat.ltb i n && Z.testbit (nth i line 0) (Z.of_nat j).
Proof.
  unfold word. induction n as [|n IH]; intros Hn; [apply Z.testbit_0_l|].
  rewrite seq_S, foldl_app. cbn [foldl Nat.add]. rewrite Z.lor_spec, IH by lia.
  rewrite land_1_bit, wrap_id, testbit_bit by (lia || apply shiftl_bit_uint; lia).
  destruct (Z.eqb_spec (Z.of_nat n) (Z.of_nat i)) as [E|E].
  - apply Nat2Z.inj in E as <-. rewrite andb_true_r. rewrite Nat.ltb_irrefl.
    by replace (Nat.ltb n (S n)) with true by (symmetry; apply Nat.ltb_lt; lia).
  - rewrite andb_false_r, orb_false_r. f_equal. apply eq_true_iff_eq. rewrite !Nat.ltb_lt. lia.
Qed.

Lemma word_uint line n j : (n <= 64)%nat -> uint 64 (word line n j).
Proof.
  unfold word. induction n as [|n IH]; intros Hn; [unfold uint; cbn; lia|].
  rewrite seq_S, foldl_app. cbn [foldl Nat.add]. apply uint_lor; [lia|apply IH; lia|apply wrap_uint; lia].
Qed.

Lemma length_transpose64x8 line : length (transpose64x8 line) = 64%nat.
Proof. unfold transpose64x8. by rewrite length_storeArray, words_eq, length_fmap, length_seq. Qed.

Definition rbyte (src : list Z) (i n : nat) : Z :=
  foldl (fun v j => Z.lor v (Z.shiftl (Z.land (Z.shiftr (nth j src 0) (Z.of_nat i)) 1) (Z.of_nat j))) 0 (seq 0 n).

Lemma reverse_eq line : reverseTranspose64x8 line = (fun i => wrap 8 (rbyte (loadArray 8 line) i 8)) <$> seq 0 64.
Proof. done. Qed.

Lemma rbyte_bit src i n j :
  Z.testbit (rbyte src i n) (Z.of_nat j) = Nat.ltb j n && Z.testbit (nth j src 0) (Z.of_nat i).
Proof.
  unfold rbyte. induction n as [|n IH]; [apply Z.testbit_0_l|].
  rewrite seq_S, foldl_app. cbn [foldl Nat.add]. rewrite Z.lor_spec, IH by lia.
  rewrite land_1_bit, testbit_bit by lia.
  destruct (Z.eqb_spec (Z.of_nat n) (Z.of_nat j)) as [E|E].
  - apply Nat2Z.inj in E as <-. rewrite andb_true_r. rewrite Nat.ltb_irrefl.
    by replace (Nat.ltb n (S n)) with true by (symmetry; apply Nat.ltb_lt; lia).
  - rewrite andb_false_r, orb_false_r. f_equal. apply eq_true_iff_eq. rewrite !Nat.ltb_lt. lia.
Qed.

Lemma storeArray_zeros w n : storeArray w (replicate n 0) = replicate (w * n) 0.
Proof.
  assert (forall m, le_store m 0 = replicate m 0) as E.
  { induction m as [|m IHm]; [done|]. cbn [le_store replicate]. by rewrite Zdiv_0_l, Zmod_0_l, IHm. }
  induction n as [|n IH]; [by rewrite Nat.mul_0_r|]. cbn [replicate storeArray].
  rewrite IH, E, <- replicate_add. f_equal. lia.
Qed.

Lemma nth_cut (f : nat -> Z) p j :
  (p <= 8)%nat -> nth j (take p (f <$> seq 0 8) ++ replicate (8 - p) 0) 0 = if Nat.ltb j p then f j else 0.
Proof.
  intros Hp. destruct (Nat.ltb_spec j p).
  - rewrite app_nth1 by (rewrite length_take, length_fmap, length_seq; lia).
    rewrite nth_lookup, lookup_take_lt, list_lookup_fmap, lookup_seq_lt by lia. done.
  - rewrite nth_lookup. rewrite lookup_app_r by (rewrite length_take, length_fmap, length_seq; lia).
    destruct (replicate (8 - p) 0 !! _) eqn:E; [|done]. by apply lookup_replicate in E as [-> _].
Qed.

(** Reading back the first [p] words of a transposed line keeps the [p] low
    bits of each of its bytes. *)
Lemma reverse_transpose64x8 line p :
  length line = 64%nat -> (p <= 8)%nat -> bytes_ok line ->
  reverseTranspose64x8 (take (8 * p) (transpose64x8 line) ++ replicate (64 - 8 * p) 0) =
    (fun b => wrap (Z.of_nat p) b) <$> line.
Proof.
  intros Hl Hp Hok. rewrite reverse_eq. unfold transpose64x8. rewrite words_eq.
  assert (take (8 * p) (storeArray 8 (word line 64 <$> seq 0 8)) ++ replicate (64 - 8 * p) 0 =
          storeArray 8 (take p (word line 64 <$> seq 0 8) ++ replicate (8 - p) 0)) as ->.
  { rewrite storeArray_app, storeArray_zeros. f_equal; [|f_equal; lia].
    rewrite <- (take_drop p (word line 64 <$> seq 0 8)) at 1. rewrite storeArray_app.
    apply take_app_length'. rewrite length_storeArray, length_take, length_fmap, length_seq. lia. }
  rewrite loadArray_storeArray.
  2: lia.
  2:{ apply Forall_app; split; [apply Forall_take, Forall_fmap, Forall_true; intros; by apply word_uint|].
      apply Forall_replicate. unfold uint. cbn. lia. }
  apply list_eq_same_length with (n := 64%nat); [by rewrite length_fmap|by rewrite length_fmap, length_seq|].
  intros i x y Hi Hx Hy. rewrite list_lookup_fmap, lookup_seq_lt in Hx by lia.
  apply fmap_Some in Hx as (? & [= <-] & ->). change (0 + i)%nat with i.
  rewrite list_lookup_fmap in Hy. destruct (line !! i) as [b|] eqn:Eb; [|discriminate Hy]. cbn in Hy. simplify_eq.
  assert (nth i line 0 = b) as Hn by (by rewrite nth_lookup, Eb).
  apply Z.bits_inj'. intros j Hj. rewrite <- (Z2Nat.id j) by done. set (k := Z.to_nat j).
  unfold wrap. destruct (decide (k < 8)%nat) as [Hk|Hk].
  - rewrite Z.mod_pow2_bits_low by lia.
    rewrite rbyte_bit, nth_cut by lia.
    replace (Nat.ltb k 8) with true by (symmetry; apply Nat.ltb_lt; lia). rewrite andb_true_l.
    destruct (Nat.ltb_spec k p).
    + rewrite word_bit by lia. replace (Nat.ltb i 64) with true by (symmetry; apply Nat.ltb_lt; lia).
      rewrite andb_true_l, Hn. by rewrite Z.mod_pow2_bits_low by lia.
    + rewrite Z.testbit_0_l. by rewrite Z.mod_pow2_bits_high by lia.
  - rewrite !Z.mod_pow2_bits_high by lia. done.
Qed.

(** ** The matrix of a block *)
Definition matrix_wf (m : list bytes) : Prop := length m = 8%nat /\ Forall (fun l => length l = 64%nat) m.

Definition put (value : Z) (col : nat) (m : list bytes) (k : nat) : list bytes :=
  alter (fun line => <[col := value8 value k]> line) k m.

Lemma put_wf v col m k : matrix_wf m -> matrix_wf (put v col m k).
Proof.
  intros [H1 H2]. split; [by unfold put; rewrite length_alter|]. unfold put.
  apply Forall_alter; [done|]. intros l _ Hl. by rewrite length_insert.
Qed.

Lemma matrix_line m k : matrix_wf m -> (k < 8)%nat -> exists l, m !! k = Some l /\ length l = 64%nat.
Proof.
  intros [H1 H2] Hk. destruct (lookup_lt_is_Some_2 m k ltac:(lia)) as [l El].
  exists l. split; [done|]. by apply (Forall_lookup_1 _ _ _ _ H2 El).
Qed.

Lemma matrix8_lookup m k l c : m !! k = Some l -> matrix8 m k c = nth c l 0.
Proof. intros H. unfold matrix8. by rewrite (nth_lookup m), H. Qed.

Lemma put_get v col m k k' c :
  matrix_wf m -> (k < 8)%nat -> (col < 64)%nat ->
  matrix8 (put v col m k) k' c = if decide (k' = k /\ c = col) then value8 v k else matrix8 m k' c.
Proof.
  intros Hm Hk Hc. destruct (matrix_line m k Hm Hk) as (l & El & Hl). unfold put.
  destruct (decide (k' = k)) as [->|Hne].
  - rewrite (matrix8_lookup _ _ (<[col := value8 v k]> l)) by (by rewrite list_lookup_alter_eq, El).
    rewrite (matrix8_lookup m k l) by done. rewrite !nth_lookup.
    destruct (decide (c = col)) as [->|Hnc].
    + rewrite list_lookup_insert_eq by lia. by rewrite decide_True.
    + rewrite list_lookup_insert_ne by done. rewrite decide_False; [done|tauto].
  - unfold matrix8. rewrite !(nth_lookup _ k'), list_lookup_alter_ne by done. rewrite decide_False; [done|tauto].
Qed.

Lemma puts_spec v col ks : forall m, matrix_wf m -> Forall (fun k => (k < 8)%nat) ks -> (col < 64)%nat ->
  matrix_wf (foldl (put v col) m ks) /\
  forall k c, matrix8 (foldl (put v col) m ks) k c = if decide (k ∈ ks /\ c = col) then value8 v k else matrix8 m k c.
Proof.
  induction ks as [|k0 ks IH]; intros m Hm Hks Hc; cbn [foldl].
  { split; [done|]. intros k c. rewrite decide_False; [done|]. intros [[]%not_elem_of_nil _]. }
  apply Forall_cons in Hks as [Hk0 Hks].
  destruct (IH (put v col m k0) (put_wf _ _ _ _ Hm) Hks Hc) as [Hw Hg]. split; [done|].
  intros k c. rewrite Hg, put_get by done. pose proof (elem_of_cons ks k k0) as He.
  clear -He. repeat case_decide; intuition (subst; auto).
Qed.

Lemma positions_spec w k : width w -> k ∈ positions w <-> (k < w)%nat.
Proof.
  intros [->|[->|[->| ->]]]; unfold positions; cbn [Nat.ltb Nat.leb app]; rewrite ?elem_of_cons, elem_of_nil; lia.
Qed.

Lemma positions_lt w : width w -> Forall (fun k => (k < 8)%nat) (positions w).
Proof.
  intros Hw. apply Forall_forall. intros k Hk%positions_spec; [|done]. pose proof (width_bound w Hw). lia.
Qed.

Lemma fill_spec w vs : width w -> forall m col, matrix_wf m -> (col + length vs <= 64)%nat ->
  matrix_wf (fill_matrix w vs m col) /\
  forall k c, matrix8 (fill_matrix w vs m col) k c =
    if decide ((k < w)%nat /\ (col <= c < col + length vs)%nat) then value8 (nth (c - col) vs 0) k else matrix8 m k c.
Proof.
  intros Hw. induction vs as [|v vs IH]; intros m col Hm Hc; cbn [fill_matrix length] in *.
  { split; [done|]. intros k c. rewrite decide_False; [done|lia]. }
  destruct (puts_spec v col (positions w) m Hm (positions_lt w Hw) ltac:(lia)) as [Hw1 Hg1].
  destruct (IH (transposeBytes w v m col) (S col) Hw1 ltac:(lia)) as [Hw2 Hg2]. split; [done|].
  intros k c. rewrite Hg2. unfold transposeBytes. rewrite Hg1.
  pose proof (positions_spec w k Hw) as Hpos.
  destruct (decide (k < w)%nat) as [Hk|Hk].
  - destruct (decide (c = col)) as [->|Hne].
    + rewrite decide_False by lia. rewrite decide_True by tauto. rewrite decide_True by lia.
      by rewrite Nat.sub_diag.
    + destruct (decide (col < c < S (col + length vs))%nat) as [Hr|Hr].
      * rewrite decide_True by lia. rewrite decide_True by lia.
        by replace (c - col)%nat with (S (c - S col))%nat by lia.
      * rewrite decide_False by lia. rewrite decide_False by tauto. by rewrite decide_False by lia.
  - rewrite decide_False by lia. rewrite decide_False by tauto. by rewrite decide_False by lia.
Qed.

Lemma zero_matrix : matrix_wf (replicate 8 (replicate 64 0)) /\ forall k c, matrix8 (replicate 8 (replicate 64 0)) k c = 0.
Proof.
  split; [split; [done|apply Forall_replicate, length_replicate]|]. intros k c. unfold matrix8. rewrite !nth_lookup.
  destruct (replicate 8 _ !! k) as [l|] eqn:E; [|done]. apply lookup_replicate in E as [-> _]. cbn [from_option]; unfold id.
  destruct (replicate 64 0 !! c) as [x|] eqn:E'; [|done]. by apply lookup_replicate in E' as [-> _].
Qed.

Lemma value8_uint v k : uint 8 (value8 v k).
Proof. unfold value8. change 255 with (Z.ones 8). rewrite Z.land_ones by lia. apply Z.mod_pos_bound. lia. Qed.

Lemma value8_bit v k j : 0 <= j < 8 -> Z.testbit (value8 v k) j = Z.testbit v (8 * Z.of_nat k + j).
Proof.
  intros Hj. unfold value8. change 255 with (Z.ones 8).
  rewrite Z.land_spec, Z.ones_spec_low, andb_true_r, Z.shiftr_spec by lia. f_equal. lia.
Qed.

(** The matrix of the values of a block, by lines. *)
Definition block_matrix (w : nat) (vs : list Z) : list bytes := fill_matrix w vs (replicate 8 (replicate 64 0)) 0.

Lemma block_matrix_spec w vs :
  width w -> (length vs <= 64)%nat ->
  matrix_wf (block_matrix w vs) /\ Forall (fun l => bytes_ok l) (block_matrix w vs) /\
  forall k c, (k < w)%nat -> (c < length vs)%nat -> matrix8 (block_matrix w vs) k c = value8 (nth c vs 0) k.
Proof.
  intros Hw Hl. destruct zero_matrix as [Hz0 Hz]. destruct (fill_spec w vs Hw _ 0%nat Hz0 Hl) as [Hwf Hg].
  fold (block_matrix w vs) in *. split; [done|]. split.
  - apply Forall_lookup. intros k l El. apply Forall_lookup. intros c b Eb.
    assert (matrix8 (block_matrix w vs) k c = b) as <- by (by rewrite (matrix8_lookup _ _ l), nth_lookup, Eb).
    rewrite Hg, Hz. case_decide; [apply value8_uint|unfold uint; cbn; lia].
  - intros k c Hk Hc. rewrite Hg, decide_True by lia. by rewrite Nat.sub_0_r.
Qed.

(** ** A block on the wire *)
Lemma join_line (ls : list bytes) rest k l :
  Forall (fun l => length l = 64%nat) ls -> ls !! k = Some l -> take 64 (drop (64 * k) (mjoin ls ++ rest)) = l.
Proof.
  intros Hls. revert k. induction Hls as [|l0 ls Hl0 Hls IH]; intros k Hk; [done|].
  change (mjoin (l0 :: ls)) with (l0 ++ mjoin ls). rewrite <- app_assoc. destruct k as [|k]; cbn in Hk.
  - simplify_eq. rewrite Nat.mul_0_r, drop_0. by rewrite take_app_length' by done.
  - replace (64 * S k)%nat with (length l0 + 64 * k)%nat by lia. rewrite drop_app_add. by apply IH.
Qed.

Lemma length_join (ls : list bytes) :
  Forall (fun l => length l = 64%nat) ls -> length (mjoin ls) = (64 * length ls)%nat.
Proof. induction 1 as [|l ls Hl Hls IH]; [done|]. change (mjoin (l :: ls)) with (l ++ mjoin ls). cbn [length]. rewrite length_app. lia. Qed.

(** The bits of line [k] that are written. *)
Definition kept (num_bits : Z) (k : nat) : Z := Z.max 0 (Z.min 8 (num_bits - 8 * Z.of_nat k)).

Section Wire.
  Context (w : nat) (full : bool) (vs : list Z) (num_bits : Z).
  Context (Hw : width w) (Hvs : (length vs <= 64)%nat) (Hnb : 0 < num_bits <= 64).
Let M := block_matrix w vs.
Let fb := Z.to_nat (num_bits / 8).
Let p := Z.to_nat (num_bits mod 8).
Let lines := if full then transpose64x8 <$> take fb M else take fb M.
Let last := if num_bits mod 8 =? 0 then [] else take (8 * p) (transpose64x8 (nth fb M [])).

Lemma wire_eq : transposeImpl w full vs num_bits = mjoin lines ++ last.
  Proof using Hw Hvs Hnb.
    unfold transposeImpl. fold (block_matrix w vs). fold M fb. unfold last.
    pose proof (Z.mod_pos_bound num_bits 8 ltac:(lia)).
    by replace (Z.to_nat (num_bits mod 8 * 8)) with (8 * p)%nat by (subst p; lia).
  Qed.

Lemma wire_counts : Z.of_nat fb = num_bits / 8 /\ Z.of_nat p = num_bits mod 8 /\ (p < 8)%nat /\ (8 * fb + p = Z.to_nat num_bits)%nat /\
    (fb <= 8)%nat /\ (0 < p -> fb < 8)%nat.
  Proof using Hw Hvs Hnb. subst fb p. dlia. Qed.

Lemma lines_wf : length lines = fb /\ Forall (fun l => length l = 64%nat) lines.
  Proof using Hw Hvs Hnb.
    destruct (block_matrix_spec w vs Hw Hvs) as ([Hm1 Hm2] & _ & _). fold M in Hm1, Hm2.
    destruct wire_counts as (_ & _ & _ & _ & Hfb & _). unfold lines.
    destruct full; [rewrite length_fmap|]; rewrite length_take; (split; [lia|]).
    - apply Forall_fmap, Forall_true. intros l. apply length_transpose64x8.
    - by apply Forall_take.
  Qed.

Lemma length_last : length last = (8 * p)%nat.
  Proof using Hw Hvs Hnb.
    destruct wire_counts as (_ & Hp & Hp8 & _). unfold last. destruct (Z.eqb_spec (num_bits mod 8) 0); [cbn; lia|].
    rewrite length_take, length_transpose64x8. lia.
  Qed.

Lemma length_transposeImpl : length (transposeImpl w full vs num_bits) = Z.to_nat (8 * num_bits).
  Proof using Hw Hvs Hnb.
    rewrite wire_eq, length_app, length_last. destruct lines_wf as [Hl Hf].
    rewrite length_join, Hl by done. destruct wire_counts as (_ & _ & _ & Hc & _). lia.
  Qed.

  (** The line [k] the reader finds. *)
Lemma wire_line k :
    (k < 8)%nat ->
    let buf := (mjoin lines ++ last) ++ replicate (512 - Z.to_nat (8 * num_bits)) 0 in
    take 64 (drop (64 * k) buf) =
      if decide (k < fb)%nat then (if full then transpose64x8 (nth k M []) else nth k M [])
      else if decide (k = fb) then last ++ replicate (64 - 8 * p) 0 else replicate 64 0.
  Proof using Hw Hvs Hnb.
    intros Hk buf. subst buf. destruct lines_wf as [Hl Hf]. destruct wire_counts as (_ & _ & Hp8 & Hc & Hfb & Hfp).
    destruct (block_matrix_spec w vs Hw Hvs) as ([Hm1 _] & _ & _). fold M in Hm1. pose proof length_last as Hlast.
    rewrite <- app_assoc.
    destruct (decide (k < fb)%nat) as [Hlt|Hge].
    { apply join_line; [done|]. unfold lines. destruct (lookup_lt_is_Some_2 M k ltac:(lia)) as [l El].
      rewrite !nth_lookup, El. destruct full; [rewrite list_lookup_fmap|]; by rewrite lookup_take_lt, El. }
    replace (64 * k)%nat with (length (mjoin lines) + 64 * (k - fb))%nat by (rewrite length_join, Hl by done; lia).
    rewrite drop_app_add. destruct (decide (k = fb)) as [->|Hne].
    - rewrite Nat.sub_diag, Nat.mul_0_r, drop_0, take_app_ge by lia. f_equal.
      rewrite Hlast, take_replicate. f_equal. lia.
    - rewrite drop_app_ge by lia. rewrite drop_replicate, take_replicate. f_equal. lia.
  Qed.
End Wire.

Lemma wrap_lines n (l : bytes) : Forall (uint n) l -> (fun b => wrap n b) <$> l = l.
Proof. induction 1 as [|b l Hb Hl IH]; [done|]. cbn. by rewrite wrap_id, IH. Qed.

Lemma bytes_ok_line w vs k :
  width w -> (length vs <= 64)%nat -> (k < 8)%nat ->
  exists l, block_matrix w vs !! k = Some l /\ length l = 64%nat /\ bytes_ok l.
Proof.
  intros Hw Hvs Hk. destruct (block_matrix_spec w vs Hw Hvs) as (Hwf & Hok & _).
  destruct (matrix_line _ k Hwf Hk) as (l & El & Hl). exists l. split; [done|]. split; [done|].
  by apply (Forall_lookup_1 _ _ _ _ Hok El).
Qed.

(** The matrix the reader rebuilds from a block. *)
Definition read_matrix (full : bool) (src : bytes) (num_bits : Z) : list bytes :=
  let buf := take (Z.to_nat (num_bits * 8)) src in
  let buf := buf ++ replicate (512 - length buf) 0 in
  let matrix := (fun k => take 64 (drop (64 * k) buf)) <$> seq 0 8 in
  let matrix := imap (fun k line => if full && Nat.ltb k (Z.to_nat (num_bits / 8)) then reverseTranspose64x8 line else line) matrix in
  if num_bits mod 8 =? 0 then matrix else alter reverseTranspose64x8 (Z.to_nat (num_bits / 8)) matrix.

Lemma read_matrix_line w full vs num_bits rest k l :
  width w -> (length vs <= 64)%nat -> 0 < num_bits <= 64 -> (k < 8)%nat ->
  block_matrix w vs !! k = Some l ->
  read_matrix full (transposeImpl w full vs num_bits ++ rest) num_bits !! k =
    Some ((fun b => wrap (kept num_bits k) b) <$> l).
Proof.
  intros Hw Hvs Hnb Hk El. destruct (bytes_ok_line w vs k Hw Hvs Hk) as (l' & El' & Hl & Hok). simplify_eq.
  assert (nth k (block_matrix w vs) [] = l) as Hnth by (by rewrite nth_lookup, El).
  unfold read_matrix. replace (Z.to_nat (num_bits * 8)) with (length (transposeImpl w full vs num_bits))
    by (rewrite length_transposeImpl by done; f_equal; lia).
  rewrite take_app_length, length_transposeImpl by done. rewrite wire_eq by done.
  destruct (wire_counts w vs num_bits Hw Hvs Hnb) as (Hfb & Hp & Hp8 & Hsum & Hfb8 & Hfp).
  set (fb := Z.to_nat (num_bits / 8)) in *. set (p := Z.to_nat (num_bits mod 8)) in *.
  match goal with |- context [imap ?f (?g <$> seq 0 8)] => set (raw := imap f (g <$> seq 0 8)) end.
  assert (raw !! k = Some (if decide (k < fb)%nat then l
    else if decide (k = fb) then (if num_bits mod 8 =? 0 then [] else take (8 * p) (transpose64x8 l)) ++ replicate (64 - 8 * p) 0
    else replicate 64 0)) as Hraw.
  { subst raw. rewrite list_lookup_imap, list_lookup_fmap, lookup_seq_lt by lia. cbn [fmap option_fmap option_map Nat.add].
    f_equal. pose proof (wire_line w full vs num_bits Hw Hvs Hnb k Hk) as Hwl. cbn zeta in Hwl. fold fb p in Hwl.
    rewrite Hwl, Hnth.
    destruct (decide (k < fb)%nat).
    - replace (Nat.ltb k fb) with true by (symmetry; apply Nat.ltb_lt; lia). rewrite andb_true_r.
      destruct full; [|done]. pose proof (reverse_transpose64x8 l 8 Hl ltac:(lia) Hok) as Hr.
      rewrite take_ge in Hr by (rewrite length_transpose64x8; lia).
      change (replicate (64 - 8 * 8) 0) with (@nil Z) in Hr. rewrite app_nil_r in Hr. rewrite Hr. by apply wrap_lines.
    - replace (Nat.ltb k fb) with false by (symmetry; apply Nat.ltb_ge; lia). rewrite andb_false_r.
      destruct (decide (k = fb)) as [<-|]; [by rewrite Hnth|done]. }
  assert ((fun b => wrap 0 b) <$> l = replicate 64 0) as Hzero.
  { rewrite <- Hl. clear. unfold wrap. induction l as [|b l IH]; [done|]. cbn [fmap list_fmap length replicate].
    rewrite IH. f_equal. by rewrite Z.mod_1_r. }
  assert ((fun b => wrap 8 b) <$> l = l) as Hfull by by apply wrap_lines.
  unfold kept. destruct (Z.eqb_spec (num_bits mod 8) 0) as [Hm|Hm].
  - rewrite Hraw. f_equal. destruct (decide (k < fb)%nat).
    + replace (Z.max 0 (Z.min 8 (num_bits - 8 * Z.of_nat k))) with 8 by dlia. done.
    + replace (Z.max 0 (Z.min 8 (num_bits - 8 * Z.of_nat k))) with 0 by dlia. rewrite Hzero.
      destruct (decide (k = fb)); [|done]. cbn [app]. f_equal. lia.
  - destruct (decide (k = fb)) as [Hkf|Hkf].
    + rewrite <- Hkf, list_lookup_alter_eq, Hraw. rewrite decide_False by lia.
      cbn [fmap option_fmap option_map]. f_equal. rewrite reverse_transpose64x8 by (done || lia).
      replace (Z.max 0 (Z.min 8 (num_bits - 8 * Z.of_nat k))) with (Z.of_nat p) by dlia. done.
    + rewrite list_lookup_alter_ne, Hraw by done. f_equal. destruct (decide (k < fb)%nat).
      * replace (Z.max 0 (Z.min 8 (num_bits - 8 * Z.of_nat k))) with 8 by dlia. done.
      * replace (Z.max 0 (Z.min 8 (num_bits - 8 * Z.of_nat k))) with 0 by dlia. rewrite Hzero. done.
Qed.

Lemma lor_bytes_bit (f : nat -> Z) ks i : 0 <= i -> forall a,
  Z.testbit (foldl (fun value k => Z.lor value (Z.shiftl (f k) (8 * Z.of_nat k))) a ks) i =
    Z.testbit a i || existsb (fun k => Z.testbit (f k) (i - 8 * Z.of_nat k)) ks.
Proof.
  intros Hi. induction ks as [|k ks IH]; intros a; cbn [foldl existsb]; [by rewrite orb_false_r|].
  by rewrite IH, Z.lor_spec, Z.shiftl_spec, orb_assoc by done.
Qed.

(** What a block loses on its way: nothing but the bits above [num_bits]. *)
Lemma block_roundtrip_bits w full vs num_bits rest :
  width w -> (length vs <= 64)%nat -> 0 < num_bits <= 8 * Z.of_nat w ->
  reverseTransposeImpl w full (transposeImpl w full vs num_bits ++ rest) num_bits (length vs) =
    (fun v => wrap num_bits v) <$> vs.
Proof.
  intros Hw Hvs Hnb. pose proof (width_bound w Hw) as Hwb.
  change (reverseTransposeImpl w full (transposeImpl w full vs num_bits ++ rest) num_bits (length vs))
    with (reverseTransposeBytes w (read_matrix full (transposeImpl w full vs num_bits ++ rest) num_bits) <$> seq 0 (length vs)).
  destruct (block_matrix_spec w vs Hw Hvs) as (_ & _ & HM).
  apply list_eq_same_length with (n := length vs); [by rewrite length_fmap|by rewrite length_fmap, length_seq|].
  intros c x y Hc Hx Hy. rewrite list_lookup_fmap, lookup_seq_lt in Hx by lia.
  apply fmap_Some in Hx as (? & [= <-] & ->). change (0 + c)%nat with c.
  rewrite list_lookup_fmap in Hy. destruct (vs !! c) as [v|] eqn:Ev; [|discriminate Hy]. cbn in Hy. simplify_eq.
  apply Z.bits_inj'. intros i Hi. unfold reverseTransposeBytes. rewrite lor_bytes_bit, Z.testbit_0_l, orb_false_l by done.
  set (R := read_matrix full (transposeImpl w full vs num_bits ++ rest) num_bits).
  assert (forall k, (k < w)%nat -> matrix8 R k c = wrap (kept num_bits k) (value8 v k)) as HR.
  { intros k Hk. destruct (bytes_ok_line w vs k Hw Hvs ltac:(lia)) as (l & El & Hl & _).
    rewrite (matrix8_lookup R k ((fun b => wrap (kept num_bits k) b) <$> l))
      by (apply (read_matrix_line w); (done || lia)).
    specialize (HM k c Hk Hc). rewrite (matrix8_lookup _ _ l), (nth_lookup vs), Ev in HM by done. cbn in HM.
    rewrite <- HM, !nth_lookup, list_lookup_fmap. destruct (l !! c) eqn:Elc; [done|].
    apply lookup_ge_None in Elc. lia. }
  assert (forall k r, (k < w)%nat -> Z.testbit (matrix8 R k c) r =
    ((0 <=? r) && (r <? kept num_bits k)) && Z.testbit v (8 * Z.of_nat k + r)) as Hbit.
  { intros k r Hk. rewrite HR by done. assert (0 <= kept num_bits k <= 8) as Hkept by (unfold kept; lia).
    destruct (Z.leb_spec 0 r); [|by rewrite Z.testbit_neg_r]. unfold wrap. cbn [andb].
    destruct (Z.ltb_spec r (kept num_bits k)).
    - rewrite Z.mod_pow2_bits_low, value8_bit by lia. done.
    - by rewrite Z.mod_pow2_bits_high by lia. }
  unfold wrap. destruct (Z.lt_ge_cases i num_bits) as [Hlt|Hge].
  - rewrite Z.mod_pow2_bits_low by done. apply eq_true_iff_eq. rewrite existsb_exists. split.
    + intros (k & Hk & Ht). apply list_elem_of_In in Hk. apply positions_spec in Hk; [|done]. rewrite Hbit in Ht by done.
      apply andb_true_iff in Ht as [_ Ht]. by replace (8 * Z.of_nat k + (i - 8 * Z.of_nat k)) with i in Ht by lia.
    + intros Ht. exists (Z.to_nat (i / 8)). assert (0 <= i / 8) as Hq by (apply Z.div_pos; lia).
      assert ((Z.to_nat (i / 8) < w)%nat) as Hk by dlia. split.
      * by apply list_elem_of_In, positions_spec.
      * rewrite Hbit by done. rewrite Z2Nat.id by done. replace (8 * (i / 8) + (i - 8 * (i / 8))) with i by lia.
        rewrite Ht, andb_true_r. unfold kept. rewrite Z2Nat.id by done. apply andb_true_iff. split; dlia.
  - rewrite Z.mod_pow2_bits_high by lia. apply not_true_is_false. rewrite existsb_exists.
    intros (k & Hk & Ht). apply list_elem_of_In in Hk. apply positions_spec in Hk; [|done]. rewrite Hbit in Ht by done.
    unfold kept in Ht. rewrite !andb_true_iff in Ht. lia.
Qed.

Lemma transposeImpl_bytes w full vs num_bits :
  width w -> (length vs <= 64)%nat -> bytes_ok (transposeImpl w full vs num_bits).
Proof.
  intros Hw Hvs. destruct (block_matrix_spec w vs Hw Hvs) as (_ & Hok & _). unfold transposeImpl.
  fold (block_matrix w vs).
  assert (forall l, bytes_ok (transpose64x8 l)) as Ht by (intros; apply storeArray_bytes).
  apply Forall_app; split.
  - apply Forall_join. destruct full; [apply Forall_fmap, Forall_true; intros; apply Ht|by apply Forall_take].
  - destruct (_ =? 0); [constructor|]. apply Forall_take, Ht.
Qed.

(** ** The bits that vary *)
Lemma valuable_spec a b :
  uint 64 a -> uint 64 b ->
  let n := getValuableBitsNumber_unsigned a b in
  0 <= n <= 64 /\ Z.shiftr a n = Z.shiftr b n /\ (n = 0 -> a = b) /\
  forall m, 0 <= m -> Z.shiftr a m = Z.shiftr b m -> n <= m.
Proof.
  intros Ha Hb n. subst n. unfold getValuableBitsNumber_unsigned.
  assert (uint 64 (Z.lxor a b)) as Hx by (apply uint_lxor; [lia|done|done]).
  destruct (Z.eqb_spec (Z.lxor a b) 0) as [E|E].
  { apply Z.lxor_eq in E as ->. repeat split; auto; lia. }
  unfold getLeadingZeroBits. destruct (Z.eqb_spec (Z.lxor a b) 0) as [|_]; [done|].
  replace (64 - (64 - 1 - Z.log2 (Z.lxor a b))) with (Z.log2 (Z.lxor a b) + 1) by lia.
  pose proof (Z.log2_nonneg (Z.lxor a b)) as Hl0.
  assert (Z.log2 (Z.lxor a b) < 64) as Hl by (apply Z.log2_lt_pow2; destruct Hx; lia).
  split; [lia|]. split; [|split; [lia|]].
  - apply Z.bits_inj'. intros i Hi. rewrite !Z.shiftr_spec by done.
    assert (Z.testbit (Z.lxor a b) (i + (Z.log2 (Z.lxor a b) + 1)) = false) as Hf
      by (apply Z.bits_above_log2; [apply Hx|lia]).
    rewrite Z.lxor_spec in Hf. by apply xorb_eq.
  - intros m Hm Hs. destruct (Z.le_gt_cases (Z.log2 (Z.lxor a b) + 1) m); [done|].
    assert (Z.testbit (Z.lxor a b) (Z.log2 (Z.lxor a b)) = true) as Ht by (apply Z.bit_log2; destruct Hx; lia).
    apply (f_equal (fun z => Z.testbit z (Z.log2 (Z.lxor a b) - m))) in Hs. rewrite !Z.shiftr_spec in Hs by lia.
    replace (Z.log2 (Z.lxor a b) - m + m) with (Z.log2 (Z.lxor a b)) in Hs by lia.
    rewrite Z.lxor_spec, Hs, xorb_nilpotent in Ht. done.
Qed.

(** Number of bits of a nonnegative value. *)
Lemma bit_length a :
  uint 64 a -> let n := getValuableBitsNumber_unsigned 0 a in
  0 <= n /\ a < 2 ^ n /\ forall m, 0 <= m -> a < 2 ^ m -> n <= m.
Proof.
  intros Ha n. destruct (valuable_spec 0 a ltac:(unfold uint; cbn; lia) Ha) as (Hn & Hs & _ & Hm). fold n in Hn, Hs, Hm.
  rewrite Z.shiftr_0_l in Hs. split; [lia|]. split.
  - symmetry in Hs. rewrite Z.shiftr_div_pow2 in Hs by lia. apply Z.div_small_iff in Hs; [|lia]. lia.
  - intros m Hm0 Hlt. apply Hm; [done|]. rewrite Z.shiftr_0_l, Z.shiftr_div_pow2, Z.div_small by (destruct Ha; lia). done.
Qed.

Lemma shiftr_between a x b n : 0 <= n -> a <= x <= b -> Z.shiftr a n = Z.shiftr b n -> Z.shiftr x n = Z.shiftr a n.
Proof.
  intros Hn Hx. rewrite !Z.shiftr_div_pow2 by done. intros E.
  pose proof (Z.div_le_mono a x (2 ^ n) ltac:(lia) ltac:(lia)). pose proof (Z.div_le_mono x b (2 ^ n) ltac:(lia) ltac:(lia)). lia.
Qed.

(** The low bits of [u] completed with its high bits. *)
Lemma join_bits u W n :
  0 <= n <= W -> W <= 64 -> uint 64 u ->
  Z.lor (wrap n (wrap W u)) (wrap W (wrap 64 (Z.shiftl (Z.shiftr u n) n))) = wrap W u.
Proof.
  intros Hn HW Hu. apply Z.bits_inj'. intros i Hi. rewrite Z.lor_spec. unfold wrap.
  destruct (Z.lt_ge_cases i W) as [HiW|HiW].
  - rewrite (Z.mod_pow2_bits_low (Z.shiftl _ _ mod 2 ^ 64)), (Z.mod_pow2_bits_low (Z.shiftl _ _)) by lia.
    rewrite (Z.mod_pow2_bits_low u) by lia. destruct (Z.lt_ge_cases i n).
    + rewrite Z.mod_pow2_bits_low, Z.mod_pow2_bits_low, Z.shiftl_spec_low by lia. by rewrite orb_false_r.
    + rewrite Z.mod_pow2_bits_high, Z.shiftl_spec, Z.shiftr_spec by lia. cbn. f_equal. lia.
  - rewrite !(Z.mod_pow2_bits_high _ W) by lia. rewrite Z.mod_pow2_bits_high by lia. done.
Qed.

Definition restore1 (signed : bool) (upper_min upper_max sign_bit value : Z) : Z :=
  if signed && negb (sign_bit =? 0)
  then if Z.land value sign_bit =? 0 then Z.lor value upper_max else Z.lor value upper_min
  else Z.lor value upper_min.

Lemma restoreUpperBits_map signed buf a b c : restoreUpperBits signed buf a b c = restore1 signed a b c <$> buf.
Proof. unfold restoreUpperBits, restore1. by destruct (signed && _). Qed.

(** Values of type [T]. *)
Definition in_T (w : nat) (signed : bool) (x : Z) : Prop :=
  if signed then - 2 ^ (8 * Z.of_nat w - 1) <= x < 2 ^ (8 * Z.of_nat w - 1) else uint (8 * Z.of_nat w) x.

Section Restore.
  Context (w : nat) (min max x : Z) (Hw : width w) (Hx : min <= x <= max).
Let W := 8 * Z.of_nat w.

Lemma W_bounds : 8 <= W <= 64 /\ 2 ^ W <= 2 ^ 64 /\ 2 ^ (W - 1) <= 2 ^ 63 /\ 2 ^ W = 2 * 2 ^ (W - 1).
  Proof using Hw.
    pose proof (width_bound w Hw). assert (8 <= W <= 64) as HW by (subst W; lia).
    split; [done|]. split; [apply Z.pow_le_mono_r; lia|]. split; [apply Z.pow_le_mono_r; lia|].
    rewrite <- Z.pow_succ_r by lia. f_equal. lia.
  Qed.

Lemma wrap_T : wrap W (wrap 64 x) = wrap W x.
  Proof using Hw.
    destruct W_bounds as (HW & _). unfold wrap. replace 64 with (W + (64 - W)) by lia. rewrite Z.pow_add_r by lia.
    by rewrite Z.rem_mul_r, Z.mul_comm, Z_mod_plus_full, Z.mod_mod by lia.
  Qed.

  (** Without a change of sign, the high bits common to all values are those
      of [min]. *)
Lemma restore_same signed n :
    signed && (min <? 0) && (0 <=? max) = false ->
    wrap 64 min <= wrap 64 x <= wrap 64 max ->
    n = getValuableBitsNumber_unsigned (wrap 64 min) (wrap 64 max) -> n <= W ->
    let '(um, uM, sb) := upper_bits w signed min max n in
    restore1 signed um uM sb (wrap n (wrap W x)) = wrap W x.
  Proof using Hw.
    intros Hs Hu -> HnW. destruct W_bounds as (HW & _).
    assert (forall z, uint 64 (wrap 64 z)) as Huint by (intros; apply wrap_uint; lia).
    destruct (valuable_spec _ _ (Huint min) (Huint max)) as (Hn & Hsh & _ & _).
    set (n := getValuableBitsNumber_unsigned _ _) in *.
    unfold upper_bits. rewrite Hs. cbn [andb]. unfold restore1. rewrite Z.eqb_refl. cbn [negb]. rewrite andb_false_r.
    fold W. destruct (Z.ltb_spec n 64).
    - rewrite <- (shiftr_between _ (wrap 64 x) _ n ltac:(lia) Hu Hsh).
      rewrite <- wrap_T. apply join_bits; [lia|lia|done].
    - rewrite Z.lor_0_r. replace n with W by lia. apply wrap_id, wrap_uint. lia.
  Qed.

  (** The high bits of a negative value above its sign. *)
Lemma negative_high z k : 0 <= k < 64 -> - 2 ^ k <= z < 0 -> Z.shiftr (wrap 64 z) (k + 1) = 2 ^ (64 - (k + 1)) - 1.
  Proof using Type.
    clear. intros Hk Hz. assert (2 ^ k < 2 ^ 64) as Hp by (apply Z.pow_lt_mono_r; lia).
    assert (wrap 64 z = z + 2 ^ 64) as -> by (symmetry; apply (Z.mod_unique _ _ (-1)); lia).
    rewrite Z.shiftr_div_pow2 by lia. symmetry.
    assert (2 ^ (k + 1) = 2 * 2 ^ k) as Hk1 by (rewrite Z.pow_add_r by lia; lia).
    apply (Z.div_unique _ _ _ (z + 2 ^ (k + 1))); [lia|].
    assert (2 ^ 64 = 2 ^ (k + 1) * 2 ^ (64 - (k + 1))) as -> by (rewrite <- Z.pow_add_r by lia; f_equal; lia). lia.
  Qed.

  (** With a change of sign, bit [k] of every value is its sign. *)
Lemma restore_mixed k :
    0 <= k -> k + 1 <= W -> - 2 ^ k <= min < 0 -> 0 <= max < 2 ^ k ->
    let '(um, uM, sb) := upper_bits w true min max (k + 1) in
    restore1 true um uM sb (wrap (k + 1) (wrap W x)) = wrap W x.
  Proof using Hw Hx.
    intros Hk HkW Hmin Hmax. destruct W_bounds as (HW & _ & _ & _).
    assert (2 ^ (k + 1) = 2 * 2 ^ k) as Hk1 by (rewrite Z.pow_add_r by lia; lia).
    unfold upper_bits. fold W. replace (min <? 0) with true by lia. replace (0 <=? max) with true by lia. cbn [andb].
    destruct (Z.ltb_spec (k + 1) 64) as [Hlt|Hge]; unfold restore1; cycle 1.
    { rewrite Z.eqb_refl. cbn [negb andb]. rewrite Z.lor_0_r. replace (k + 1) with W by lia. apply wrap_id, wrap_uint. lia. }
    assert (2 ^ k < 2 ^ W) as HpW by (apply Z.pow_lt_mono_r; lia).
    assert (2 ^ W <= 2 ^ 64) as HW64 by (apply Z.pow_le_mono_r; lia).
    replace (k + 1 - 1) with k by lia. rewrite Z.shiftl_1_l.
    rewrite (wrap_id 64 (2 ^ k)), (wrap_id W (2 ^ k)) by (unfold uint; lia).
    destruct (Z.eqb_spec (2 ^ k) 0); [lia|]. cbn [negb andb].
    assert ((Z.land (wrap (k + 1) (wrap W x)) (2 ^ k) =? 0) = negb (Z.testbit x k)) as ->.
    { assert (Z.testbit (wrap (k + 1) (wrap W x)) k = Z.testbit x k) as Hb
        by (unfold wrap; rewrite !Z.mod_pow2_bits_low by lia; done).
      rewrite <- Hb. set (y := wrap (k + 1) (wrap W x)).
      assert (Z.land y (2 ^ k) = if Z.testbit y k then 2 ^ k else 0) as ->.
      { apply Z.bits_inj'. intros i Hi. rewrite Z.land_spec. destruct (Z.eq_dec i k) as [->|Hne].
        - rewrite Z.pow2_bits_true, andb_true_r by lia. destruct (Z.testbit y k); [|by rewrite Z.testbit_0_l].
          by rewrite Z.pow2_bits_true by lia.
        - rewrite Z.pow2_bits_false, andb_false_r by lia. destruct (Z.testbit y k); [|by rewrite Z.testbit_0_l].
          by rewrite Z.pow2_bits_false by lia. }
      destruct (Z.testbit y k); cbn; lia. }
    destruct (Z.lt_ge_cases x 0) as [Hneg|Hpos].
    - assert (Z.testbit x k = true) as ->.
      { replace x with (Z.lnot (Z.lnot x)) by apply Z.lnot_involutive. rewrite Z.lnot_spec by lia.
        rewrite <- (wrap_id k (Z.lnot x)) by (unfold uint, Z.lnot; lia). unfold wrap.
        by rewrite Z.mod_pow2_bits_high by lia. }
      cbn [negb]. rewrite (negative_high min k) by lia. rewrite <- (negative_high x k) by lia.
      rewrite <- wrap_T at 1 2. apply join_bits; [lia|lia|apply wrap_uint; lia].
    - assert (Z.testbit x k = false) as ->.
      { rewrite <- (wrap_id k x) by (unfold uint; lia). unfold wrap. by rewrite Z.mod_pow2_bits_high by lia. }
      cbn [negb]. rewrite (wrap_id 64 max) by (unfold uint; lia).
      rewrite (Z.shiftr_div_pow2 max), (Z.div_small max), Z.shiftl_0_l by lia.
      rewrite (wrap_id 64 0), (wrap_id W 0), Z.lor_0_r by (unfold uint; lia).
      rewrite (wrap_id W x), wrap_id by (unfold uint; lia). done.
  Qed.

Lemma valuable_mixed :
    in_T w true min -> in_T w true max -> min < 0 -> 0 <= max ->
    exists k, getValuableBitsNumber_signed min max = k + 1 /\ 0 <= k /\ k + 1 <= W /\ - 2 ^ k <= min /\ max < 2 ^ k.
  Proof using Hw.
    unfold in_T. fold W. intros Hmin Hmax Hn Hp. destruct W_bounds as (HW & _ & Hp63 & _).
    unfold getValuableBitsNumber_signed. replace (min <? 0) with true by lia. replace (0 <=? max) with true by lia. cbn [andb].
    assert (2 ^ 63 < 2 ^ 64) as H64 by (apply Z.pow_lt_mono_r; lia).
    destruct (Z.leb_spec 0 (min + max)).
    - destruct (bit_length max) as (H0 & Hlt & Hm); [unfold uint; lia|]. cbn zeta in *.
      eexists; split; [reflexivity|]. specialize (Hm (W - 1) ltac:(lia) ltac:(lia)). lia.
    - rewrite wrap_id by (unfold uint, Z.lnot; lia).
      destruct (bit_length (Z.lnot min)) as (H0 & Hlt & Hm); [unfold uint, Z.lnot; lia|]. cbn zeta in *.
      eexists; split; [reflexivity|]. specialize (Hm (W - 1) ltac:(lia) ltac:(unfold Z.lnot; lia)). unfold Z.lnot in *. lia.
  Qed.

  (** Every value between the bounds is rebuilt from its [num_bits] low bits. *)
Lemma restore_value signed :
    in_T w signed min -> in_T w signed max ->
    let n := getValuableBitsNumber signed min max in
    0 <= n <= W /\ (n = 0 -> min = max) /\
    let '(um, uM, sb) := upper_bits w signed min max n in
    restore1 signed um uM sb (wrap n (wrap W x)) = wrap W x.
  Proof using Hw Hx.
    intros Hmin Hmax n. subst n. destruct W_bounds as (HW & HW64 & Hp63 & HWW).
    assert (2 ^ 64 = 2 * 2 ^ 63) as H64 by done.
    assert (forall z, uint 64 (wrap 64 z)) as Huint by (intros; apply wrap_uint; lia).
    destruct signed; unfold in_T in *; fold W in Hmin, Hmax; unfold getValuableBitsNumber.
    - destruct (decide (min < 0 /\ 0 <= max)) as [[Hn Hp]|Hsame].
      + destruct (valuable_mixed Hmin Hmax Hn Hp) as (k & -> & Hk & HkW & Hlo & Hhi).
        split; [lia|]. split; [lia|]. apply restore_mixed; lia.
      + unfold getValuableBitsNumber_signed.
        assert ((min <? 0) && (0 <=? max) = false) as Hb by (apply andb_false_iff; lia). rewrite Hb.
        assert (forall z, min <= z <= max -> wrap 64 z = if min <? 0 then z + 2 ^ 64 else z) as Hwr.
        { intros z Hz. destruct (Z.ltb_spec min 0); [|apply wrap_id; unfold uint; lia].
          symmetry. apply (Z.mod_unique _ _ (-1)); lia. }
        destruct (valuable_spec _ _ (Huint min) (Huint max)) as (Hn & Hsh & Hz & Hleast). cbn zeta in *.
        assert (getValuableBitsNumber_unsigned (wrap 64 min) (wrap 64 max) <= W) as HnW.
        { apply Hleast; [lia|]. rewrite (Hwr min), (Hwr max) by lia. destruct (Z.ltb_spec min 0).
          - rewrite !Z.shiftr_div_pow2 by lia.
            assert (2 ^ 64 = 2 ^ (64 - W) * 2 ^ W) as -> by (rewrite <- Z.pow_add_r by lia; f_equal; lia).
            rewrite !Z.div_add by lia. f_equal.
            rewrite <- (Z.div_unique min (2 ^ W) (-1) (min + 2 ^ W)) by lia.
            apply (Z.div_unique _ _ _ (max + 2 ^ W)); lia.
          - rewrite !Z.shiftr_div_pow2, !Z.div_small by lia. done. }
        split; [lia|]. split.
        * intros E. specialize (Hz E). rewrite (Hwr min), (Hwr max) in Hz by lia. destruct (min <? 0); lia.
        * apply restore_same; [done| |done|done]. rewrite !Hwr by lia. destruct (min <? 0); lia.
    - unfold uint in Hmin, Hmax. rewrite <- (wrap_id 64 min), <- (wrap_id 64 max) at 1 2 3 by (unfold uint; lia).
      destruct (valuable_spec _ _ (Huint min) (Huint max)) as (Hn & Hsh & Hz & Hleast). cbn zeta in *.
      assert (getValuableBitsNumber_unsigned (wrap 64 min) (wrap 64 max) <= W) as HnW.
      { apply Hleast; [lia|]. rewrite !wrap_id by (unfold uint; lia). rewrite !Z.shiftr_div_pow2, !Z.div_small by lia. done. }
      split; [lia|]. split.
      + intros E. specialize (Hz E). rewrite !wrap_id in Hz by (unfold uint; lia). done.
      + assert (min = wrap 64 min /\ max = wrap 64 max) as [Em EM] by (rewrite !wrap_id by (unfold uint; lia); done).
        pose proof (restore_same false (getValuableBitsNumber_unsigned (wrap 64 min) (wrap 64 max)) eq_refl) as Hr.
        rewrite <- Em, <- EM in *. apply Hr; [rewrite wrap_id by (unfold uint; lia); lia|done|done].
  Qed.
End Restore.

(** ** Blocks *)
Lemma findMinMax_spec l mn mx :
  l <> [] -> findMinMax l = (mn, mx) -> Forall (fun x => mn <= x <= mx) l /\ mn ∈ l /\ mx ∈ l.
Proof.
  destruct l as [|v l]; [done|]. intros _. unfold findMinMax.
  set (step := fun '(min, max) current => _).
  assert (forall l' a b a' b', foldl step (a, b) l' = (a', b') ->
    a' <= a /\ b <= b' /\ Forall (fun x => a' <= x <= b') l' /\ (a' = a \/ a' ∈ l') /\ (b' = b \/ b' ∈ l')) as Hfold.
  { induction l' as [|x l' IH]; intros a b a' b' E; cbn [foldl] in E.
    - simplify_eq. split_and!; auto; lia.
    - unfold step at 2 in E. apply IH in E as (H1 & H2 & H3 & H4 & H5).
      destruct (Z.ltb_spec x a), (Z.ltb_spec b x);
        (split_and!; [lia|lia|constructor; [lia|done]|
          rewrite elem_of_cons; destruct H4; auto|rewrite elem_of_cons; destruct H5; auto]). }
  intros E. destruct (Hfold _ _ _ _ _ E) as (H1 & H2 & H3 & H4 & H5). split; [done|].
  rewrite !elem_of_cons. rewrite !elem_of_cons in H4, H5. tauto.
Qed.

Section Blocks.
  Context (w : nat) (signed full : bool) (num_bits um uM sb : Z) (Hw : width w).
  Context (Hnb : 0 < num_bits <= 8 * Z.of_nat w).

  (** Values that survive the loss of their high bits. *)
Definition good (v : Z) : Prop := restore1 signed um uM sb (wrap num_bits v) = v.

Lemma block_ok vs rest :
    (length vs <= 64)%nat -> Forall good vs ->
    decompress_block w signed full num_bits um uM sb (transposeImpl w full vs num_bits ++ rest) (length vs) =
      Ok (storeArray w vs).
  Proof using Hw Hnb.
    intros Hl Hg. unfold decompress_block. pose proof (width_bound w Hw).
    rewrite bind_defined by (rewrite length_app, length_transposeImpl by (done || lia); blia). f_equal. rewrite block_roundtrip_bits, restoreUpperBits_map by done. f_equal.
    induction Hg as [|v vs Hv Hg IH]; [done|]. cbn [fmap list_fmap]. f_equal; [done|]. apply IH. cbn in Hl. lia.
  Qed.

Lemma blocks_ok n : forall values rest,
    (64 * n <= length values)%nat -> Forall good values ->
    exists out, compress_blocks w full num_bits n values = (out, drop (64 * n) values) /\
      blen out = Z.of_nat n * (8 * num_bits) /\ bytes_ok out /\
      decompress_blocks (decompress_block w signed full num_bits um uM sb) (Z.to_nat (8 * num_bits)) n (out ++ rest) =
        Ok (storeArray w (take (64 * n) values), rest).
  Proof using Hw Hnb.
    induction n as [|n IH]; intros values rest Hl Hg.
    { exists []. cbn [compress_blocks decompress_blocks]. rewrite Nat.mul_0_r, drop_0, take_0. split_and!; try done. }
    pose proof (width_bound w Hw).
    assert (length (take 64 values) = 64%nat) as H64 by (rewrite length_take; lia).
    destruct (IH (drop 64 values) rest ltac:(rewrite length_drop; lia) ltac:(by apply Forall_drop)) as (out & Hc & Hlen & Hok & Hd).
    pose proof (length_transposeImpl w full (take 64 values) num_bits Hw ltac:(lia) ltac:(lia)) as Hlt.
    exists (transposeImpl w full (take 64 values) num_bits ++ out). cbn [compress_blocks decompress_blocks].
    rewrite Hc. split_and!.
    - rewrite drop_drop. do 2 f_equal. lia.
    - rewrite length_app. lia.
    - apply Forall_app; split; [apply transposeImpl_bytes; [done|lia]|done].
    - rewrite <- app_assoc. rewrite drop_app_length' by done.
      pose proof (block_ok (take 64 values) (out ++ rest) ltac:(lia) ltac:(by apply Forall_take)) as Hb.
      rewrite H64 in Hb. rewrite Hb. run. rewrite Hd. run.
      do 2 f_equal. rewrite <- storeArray_app. f_equal.
      replace (64 * S n)%nat with (64 + 64 * n)%nat by lia. by rewrite take_take_drop.
  Qed.
End Blocks.

(** ** Round trip *)
Definition dom (src : bytes) : Prop := bytes_ok src /\ blen src <= 2 ^ 31.

Lemma as_T_spec w signed v :
  width w -> uint (8 * Z.of_nat w) v -> in_T w signed (as_T w signed v) /\ wrap (8 * Z.of_nat w) (as_T w signed v) = v.
Proof.
  intros Hw Hv. pose proof (width_bound w Hw). unfold in_T, as_T. destruct signed.
  - split; [apply to_signed_range; [lia|done]|by apply wrap_to_signed].
  - split; [done|by apply wrap_id].
Qed.

(** What holds of the values of a block and their bounds. *)
Lemma bounds_facts w signed values mn mx :
  width w -> Forall (uint (8 * Z.of_nat w)) values -> values <> [] ->
  findMinMax (as_T w signed <$> values) = (mn, mx) ->
  let n := getValuableBitsNumber signed mn mx in
  in_T w signed mn /\ in_T w signed mx /\ 0 <= n <= 8 * Z.of_nat w /\
  (n = 0 -> values = replicate (length values) (wrap (8 * Z.of_nat w) mn)) /\
  let '(um, uM, sb) := upper_bits w signed mn mx n in Forall (good signed n um uM sb) values.
Proof.
  intros Hw Hu Hne Hm n. apply findMinMax_spec in Hm as (Hall & Hmn & Hmx); [|by destruct values].
  assert (forall x, x ∈ as_T w signed <$> values -> in_T w signed x) as HT.
  { intros x (v & -> & Hv)%list_elem_of_fmap. rewrite Forall_forall in Hu. by apply as_T_spec; auto. }
  pose proof (HT _ Hmn) as Hmn'. pose proof (HT _ Hmx) as Hmx'.
  assert (mn <= mn <= mx) as Hle by (rewrite Forall_forall in Hall; specialize (Hall _ Hmn); lia).
  destruct (restore_value w mn mx mn Hw Hle signed Hmn' Hmx') as (Hn & Hz & _). fold n in Hn, Hz.
  rewrite Forall_fmap in Hall. split; [done|]. split; [done|]. split; [done|]. split.
  - intros E. specialize (Hz E). clear -Hall Hu Hz Hw.
    induction Hall as [|v values Hv Hall IH]; [done|]. apply Forall_cons in Hu as [Huv Hu].
    cbn [length replicate]. rewrite <- IH by done. f_equal. cbn in Hv.
    destruct (as_T_spec w signed v Hw Huv) as [_ <-]. f_equal. lia.
  - destruct (upper_bits w signed mn mx n) as [[um uM] sb] eqn:Eu.
    apply Forall_forall. intros v Hv. rewrite Forall_forall in Hall, Hu.
    destruct (as_T_spec w signed v Hw (Hu v Hv)) as [_ Hback].
    destruct (restore_value w mn mx (as_T w signed v) Hw (Hall v Hv) signed Hmn' Hmx') as (_ & _ & Hr).
    fold n in Hr. rewrite Eu, Hback in Hr. exact Hr.
Qed.

(** The bounds are read back from the header. *)
Lemma header_load w signed x :
  width w -> in_T w signed x ->
  (if signed then to_signed 64 (wrap 64 x) else wrap 64 x) = x.
Proof.
  intros Hw Hx. destruct (W_bounds w Hw) as (HW & H64 & H63 & _). unfold in_T in Hx. destruct signed.
  - apply to_signed_wrap; [lia|]. change (64 - 1) with 63. lia.
  - apply wrap_id. unfold uint in *. lia.
Qed.

Section Aligned.
  Context (w : nat) (signed full : bool) (src : bytes) (Hw : width w).
Let skip := Z.to_nat (bytes_to_skip (blen src) (Z.of_nat w)).
Let asrc := drop skip src.
  Context (Hok : bytes_ok src) (Hlen : blen src <= 2 ^ 31) (Hne : asrc <> []).
Let values := loadArray w asrc.

Lemma t64_values :
    blen asrc mod Z.of_nat w = 0 /\ blen asrc / Z.of_nat w = blen values /\ blen asrc = Z.of_nat w * blen values /\
    Forall (uint (8 * Z.of_nat w)) values /\ storeArray w values = asrc /\ values <> [] /\
    blen src = Z.of_nat skip + blen asrc /\ bytes_to_skip (blen src) (Z.of_nat w) = Z.of_nat skip /\ (skip < w)%nat.
  Proof using Hw Hok Hlen Hne.
    pose proof (width_bound w Hw) as Hwb. assert ((0 < w <= 32)%nat) as Hw32 by lia.
    destruct (skip_eq w src Hw32) as (Hs & Hlt & _). pose proof (skip_le w src Hw32) as Hle. fold skip in Hs, Hlt, Hle.
    destruct (aligned_values w asrc Hw (skip_aligned w src Hw32) ltac:(by apply Forall_drop)) as (H1 & H2 & H3 & H4 & H5).
    fold values in H2, H3, H4, H5. split_and!; try done.
    - intros E. rewrite E in H5. cbn in H5. by rewrite H5 in Hne.
    - unfold asrc. rewrite length_drop. lia.
  Qed.

  Context (mn mx : Z) (Hm : findMinMax (as_T w signed <$> values) = (mn, mx)).
Let n := getValuableBitsNumber signed mn mx.
Let header := le_store 8 (wrap 64 mn) ++ le_store 8 (wrap 64 mx).

  (** What the reader finds in front of the blocks. *)
Lemma header_read (body : bytes) :
    let out := take skip src ++ header ++ body in
    let load p := if signed then to_signed 64 p else p in
    take skip out = take skip src /\ drop skip out = header ++ body /\ drop 16 (header ++ body) = body /\
    blen out = Z.of_nat skip + 16 + blen body /\ blen (header ++ body) = 16 + blen body /\
    load (le_load (take 8 (header ++ body))) = mn /\ load (le_load (take 8 (drop 8 (header ++ body)))) = mx /\
    (bytes_ok body -> bytes_ok out).
  Proof using Hw Hok Hlen Hne Hm.
    destruct t64_values as (_ & _ & _ & Hu & _ & Hvne & Hsl & _ & _).
    destruct (bounds_facts w signed values mn mx Hw Hu Hvne Hm) as (Hmn & Hmx & _).
    assert (length (take skip src) = skip) as Htk by (rewrite length_take; lia).
    assert (length header = 16%nat) as Hhl by (unfold header; rewrite length_app, !length_le_store; done).
    intros out load. subst out load. rewrite take_app_length', drop_app_length', drop_app_length' by done.
    split; [done|]. split; [done|]. split; [done|]. split; [rewrite !length_app; lia|].
    split; [rewrite length_app; lia|].
    unfold header. rewrite <- !app_assoc, drop_le_store, !take_le_store.
    rewrite !le_load_store_id by (apply (wrap_uint 64); lia).
    rewrite (header_load w), (header_load w) by done. split; [done|]. split; [done|].
    intros Hb. rewrite !Forall_app. split; [by apply Forall_take|]. auto with chdb.
  Qed.

Lemma t64_constant :
    n = 0 ->
    exists out, compressData w signed full src = (out, blen out) /\ bytes_ok out /\ blen out <= blen src + 528 /\
      decompressData w signed full out (blen src) = Ok (src, blen src).
  Proof using Hw Hok Hlen Hne Hm.
    intros E0. destruct t64_values as (Hmod & Hdiv & Hsz & Hu & Hst & Hvne & Hsl & Hskip & Hsw).
    destruct (bounds_facts w signed values mn mx Hw Hu Hvne Hm) as (_ & _ & _ & Hz & _).
    destruct (header_read []) as (R1 & R2 & R3 & R4 & R5 & R6 & R7 & R8). rewrite app_nil_r in *. fold n in Hz.
    assert (0 < blen asrc) as Hpos by (destruct asrc; [done|cbn; lia]).
    unfold compressData, decompressData. rewrite Hskip, Nat2Z.id. fold asrc. fold values.
    replace (blen src - Z.of_nat skip) with (blen asrc) by lia. rewrite Hdiv, Hm.
    destruct (Z.eqb_spec (blen asrc) 0) as [|_]; [lia|]. fold header. fold n. rewrite E0. cbn [Z.eqb].
    exists (take skip src ++ header). cbn [length] in *. split_and!.
    - f_equal. rewrite R4, wrap_id by (unfold uint; lia). lia.
    - by apply R8.
    - lia.
    - rewrite bind_require by (apply negb_true_iff, Z.ltb_ge; lia). rewrite bind_require by lia.
      rewrite R1, R2, bind_require by (apply negb_true_iff, Z.ltb_ge; lia). rewrite R6, R7. fold n. rewrite E0. cbn [Z.eqb].
      rewrite Nat2Z.id, <- Hz, Hst by done. unfold asrc. by rewrite take_drop.
  Qed.

Let tail := blen values mod 64.
Let nf := Z.to_nat (blen values / 64).
Let tl := take (Z.to_nat tail) (drop (64 * nf) values).
Let tb := if tail =? 0 then [] else transposeImpl w full tl n.

Lemma tail_facts :
    Z.of_nat nf = blen values / 64 /\ 0 <= tail < 64 /\ blen tl = tail /\ blen values = 64 * Z.of_nat nf + tail /\
    (0 < n -> blen tb = if tail =? 0 then 0 else 8 * n) /\ bytes_ok tb /\
    take (64 * nf) values ++ tl = values.
  Proof using Hw Hok Hlen Hne Hm.
    destruct t64_values as (_ & _ & _ & Hu & _ & Hvne & _).
    destruct (bounds_facts w signed values mn mx Hw Hu Hvne Hm) as (_ & _ & Hn & _). fold n in Hn.
    pose proof (width_bound w Hw) as Hwb.
    assert (Z.of_nat nf = blen values / 64) as Hnf by (subst nf; dlia).
    assert (0 <= tail < 64) as Ht by (subst tail; dlia).
    assert (blen values = 64 * Z.of_nat nf + tail) as Hv by (subst tail; dlia).
    assert (blen tl = tail) as Htl by (unfold tl; rewrite length_take, length_drop; lia).
    repeat (split; [done|]). split_and!.
    - intros Hn0. unfold tb. destruct (Z.eqb_spec tail 0); [done|]. rewrite length_transposeImpl by (done || lia). lia.
    - unfold tb. destruct (_ =? 0); [constructor|]. apply transposeImpl_bytes; [done|lia].
    - unfold tl. rewrite (take_ge (drop _ _)) by (rewrite length_drop; lia). apply take_drop.
  Qed.

Lemma t64_blocks :
    n <> 0 ->
    exists out, compressData w signed full src = (out, blen out) /\ bytes_ok out /\ blen out <= blen src + 528 /\
      decompressData w signed full out (blen src) = Ok (src, blen src).
  Proof using Hw Hok Hlen Hne Hm.
    intros E0. destruct t64_values as (Hmod & Hdiv & Hsz & Hu & Hst & Hvne & Hsl & Hskip & Hsw).
    pose proof (width_bound w Hw) as Hwb.
    destruct (bounds_facts w signed values mn mx Hw Hu Hvne Hm) as (_ & _ & Hn & _ & Hg). fold n in Hn, Hg.
    destruct tail_facts as (Hnf & Ht & Htl & Hvl & Htb & Htok & Hsplit). specialize (Htb ltac:(lia)).
    assert (0 < blen asrc) as Hpos by (destruct asrc; [done|cbn; lia]).
    destruct (upper_bits w signed mn mx n) as [[um uM] sb] eqn:Eu.
    assert (Forall (good signed n um uM sb) tl) as Hgt by by apply Forall_take, Forall_drop.
    destruct (blocks_ok w signed full n um uM sb Hw ltac:(lia) nf values tb ltac:(lia) Hg) as (blocks & Hcb & Hbl & Hbok & Hdb).
    destruct (header_read (blocks ++ tb)) as (R1 & R2 & R3 & R4 & R5 & R6 & R7 & R8). rewrite (length_app blocks), Nat2Z.inj_add in R4, R5.
    assert (Z.of_nat nf * (8 * n) <= blen asrc) as Hb1 by (rewrite Hsz; nia).
    assert (0 < Z.of_nat nf \/ 0 < tail) as Hsome.
    { assert (length values <> 0%nat) by (intros E; by apply Hvne, nil_length_inv). lia. }
    unfold compressData, decompressData. rewrite Hskip, Nat2Z.id. fold asrc. fold values.
    replace (blen src - Z.of_nat skip) with (blen asrc) by lia. rewrite Hdiv, Hm. fold tail. fold nf. rewrite <- Hnf.
    destruct (Z.eqb_spec (blen asrc) 0) as [|_]; [lia|]. fold header. fold n. destruct (Z.eqb_spec n 0) as [|_]; [done|].
    rewrite Hcb. fold tl.
    exists (take skip src ++ header ++ blocks ++ tb). split_and!.
    - rewrite R4, Hbl, Htb. unfold tb. destruct (Z.eqb_spec tail 0).
      + rewrite app_nil_r. f_equal. rewrite !wrap_id; unfold uint; rewrite ?wrap_id; unfold uint; lia.
      + f_equal. rewrite !wrap_id; unfold uint; rewrite ?wrap_id; unfold uint; rewrite ?wrap_id; unfold uint; lia.
    - apply R8. by apply Forall_app.
    - rewrite R4, Hbl, Htb. destruct (_ =? 0); lia.
    - rewrite bind_require by (apply negb_true_iff, Z.ltb_ge; lia). rewrite bind_require by lia.
      rewrite R1, R2, R3, R5, bind_require by (apply negb_true_iff, Z.ltb_ge; lia). rewrite R6, R7. fold n.
      destruct (Z.eqb_spec n 0) as [|_]; [done|]. rewrite length_app, Nat2Z.inj_add, Hbl, Htb, Eu.
      set (nb := Z.of_nat nf + (if tail =? 0 then 0 else 1)).
      assert (Z.of_nat nf * (8 * n) + (if tail =? 0 then 0 else 8 * n) = nb * (8 * n)) as ->
        by (subst nb; destruct (tail =? 0); lia).
      assert (0 < nb) as Hnb by (subst nb; destruct (Z.eqb_spec tail 0); lia).
      rewrite Z.mod_mul, Z.div_mul by lia. rewrite bind_require by (destruct (Z.eqb_spec (nb * (8 * n)) 0); [nia|done]).
      replace (if tail =? 0 then nb else nb - 1) with (Z.of_nat nf) by (subst nb; destruct (tail =? 0); lia).
      rewrite bind_require by lia. rewrite Nat2Z.id, Hdb. run.
      assert ((if tail =? 0 then Ok [] else decompress_block w signed full n um uM sb tb (Z.to_nat tail)) = Ok (storeArray w tl)) as ->.
      { unfold tb. destruct (Z.eqb_spec tail 0) as [Et|_].
        - destruct tl; [done|cbn in Htl; lia].
        - rewrite <- (app_nil_r (transposeImpl _ _ _ _)). replace (Z.to_nat tail) with (length tl) by lia.
          apply block_ok; (done || lia). }
      run. rewrite <- storeArray_app, Hsplit, Hst. unfold asrc. rewrite take_drop, wrap_id by (unfold uint; lia). done.
  Qed.
End Aligned.

Lemma t64_type_roundtrip w signed full src :
  width w -> dom src ->
  exists out, compressData w signed full src = (out, blen out) /\ bytes_ok out /\ blen out <= blen src + 528 /\
    decompressData w signed full out (blen src) = Ok (src, blen src).
Proof.
  intros Hw [Hok Hlen]. pose proof (width_bound w Hw) as Hwb. assert ((0 < w <= 32)%nat) as Hw32 by lia.
  destruct (drop (Z.to_nat (bytes_to_skip (blen src) (Z.of_nat w))) src) as [|b l] eqn:E.
  - destruct (skip_eq w src Hw32) as (Hs & _). pose proof (skip_le w src Hw32) as Hle.
    set (skip := Z.to_nat (bytes_to_skip (blen src) (Z.of_nat w))) in *.
    assert (skip = length src) as Hsk by (apply (f_equal length) in E; rewrite length_drop in E; cbn in E; lia).
    unfold compressData, decompressData. rewrite Hs, Nat2Z.id, Hsk, drop_all, firstn_all, Z.sub_diag.
    exists src. split_and!; [done|done|lia|]. rewrite bind_require by (apply negb_true_iff, Z.ltb_ge; lia).
    rewrite Zmod_0_l, firstn_all. done.
  - destruct (findMinMax (as_T w signed <$> loadArray w (drop (Z.to_nat (bytes_to_skip (blen src) (Z.of_nat w))) src)))
      as [mn mx] eqn:Hm.
    destruct (decide (getValuableBitsNumber signed mn mx = 0)) as [Hz|Hz];
      [apply (t64_constant w signed full src Hw Hok Hlen ltac:(by rewrite E) mn mx Hm Hz)
      |apply (t64_blocks w signed full src Hw Hok Hlen ltac:(by rewrite E) mn mx Hm Hz)].
Qed.

(** ** The codec *)
Definition supported (t : TypeIndex.t) : Prop := baseType t <> TypeIndex.Nothing.

(** A supported type and the variant are recovered from the cookie. *)
Lemma cookie_roundtrip t v :
  supported t ->
  exists magic, serializeTypeId (Some t) = Ok magic /\
    let cookie := Z.lor magic (wrap 8 (Z.shiftl (Z.b2z (is_full v)) 7)) in
    byte_ok cookie /\ deserializeTypeId (Z.land cookie 0x7f) = Ok t /\
    (if Z.shiftr cookie 7 =? 1 then Bit else Byte) = v.
Proof.
  unfold supported. intros H. destruct t; cbn in H |- *; try done;
    (eexists; split; [reflexivity|]); destruct v; vm_compute; (split; [split; congruence|done]).
Qed.

Lemma switch_type_same {A} t err (f : nat -> bool -> outcome A) w signed :
  switch_type t LOGICAL_ERROR (fun w s => Ok (w, s)) = Ok (w, signed) ->
  switch_type t err f = f w signed.
Proof. unfold switch_type. by destruct (baseType t); intros [= <- <-]. Qed.

Lemma supported_width t :
  supported t -> exists w signed, width w /\ switch_type t LOGICAL_ERROR (fun w s => Ok (w, s)) = Ok (w, signed).
Proof.
  unfold supported, switch_type, width. intros H. destruct t; cbn in H |- *; try done; do 2 eexists; (split; [|reflexivity]); tauto.
Qed.

Lemma t64_data_roundtrip t v src :
  supported t -> dom src ->
  exists out, doCompressData (Some t) v src = Ok (out, blen out) /\ bytes_ok out /\
    blen out <= getMaxCompressedDataSize (blen src) < 2 ^ 32 /\
    doDecompressData out (blen src) = Ok (src, blen src).
Proof.
  intros Ht Hd. destruct (cookie_roundtrip t v Ht) as (magic & Hser & Hc & Hde & Hv).
  destruct (supported_width t Ht) as (w & signed & Hw & Hsw).
  destruct (t64_type_roundtrip w signed (is_full v) src Hw Hd) as (out & Hcomp & Hok & Hl & Hdec).
  destruct Hd as [_ Hlen].
  assert (getMaxCompressedDataSize (blen src) = blen src + 529) as Hmax.
  { unfold getMaxCompressedDataSize, MAX_COMPRESSED_BLOCK_SIZE, HEADER_SIZE. rewrite wrap_id; unfold uint; lia. }
  unfold doCompressData. rewrite Hser. run. set (cookie := Z.lor _ _) in *.
  rewrite (switch_type_same t _ _ w signed Hsw), Hcomp.
  exists (cookie :: out). split_and!.
  - do 2 f_equal. rewrite wrap_id by (unfold uint; lia). cbn [length]. lia.
  - by constructor.
  - cbn [length]. lia.
  - lia.
  - cbn [doDecompressData]. rewrite Hde. run. rewrite Hv.
    by rewrite (switch_type_same t _ _ w signed Hsw).
Qed.

#[export] Instance t64_pair t v t' v' e e' : supported t ->
  CodecPair (codec (Some t) v e) (codec t' v' e') dom.
Proof.
  intros Ht. split; cbn [getMethodByte codec Codec.doCompressData Codec.doDecompressData Codec.getMaxCompressedDataSize].
  - done.
  - unfold uint; cbn; lia.
  - intros src Hd. destruct (t64_data_roundtrip t v src Ht Hd) as (out & ? & ? & [? ?] & ?). eauto 10.
Qed.

(** ** Arbitrary input *)
Lemma length_decompress_block w signed full nb um uM sb src n :
  nb <= 64 -> 8 * nb <= blen src ->
  exists out, decompress_block w signed full nb um uM sb src n = Ok out /\ length out = (w * n)%nat.
Proof.
  intros H1 H2. unfold decompress_block. rewrite bind_defined by blia.
  eexists; split; [reflexivity|]. unfold reverseTransposeImpl.
  by rewrite length_storeArray, restoreUpperBits_map, !length_fmap, length_seq.
Qed.

Lemma length_decompress_blocks w signed full nb um uM sb n : forall src,
  0 <= nb <= 64 -> Z.of_nat n * (8 * nb) <= blen src ->
  exists out rest, decompress_blocks (decompress_block w signed full nb um uM sb) (Z.to_nat (8 * nb)) n src = Ok (out, rest) /\
    length out = (w * (64 * n))%nat /\ blen rest = blen src - Z.of_nat n * (8 * nb).
Proof.
  induction n as [|n IH]; intros src Hnb Hl; cbn [decompress_blocks].
  { exists [], src. split; [done|]. cbn [length]. lia. }
  destruct (length_decompress_block w signed full nb um uM sb src 64) as (b & -> & Hb); [lia|nia|]. run.
  destruct (IH (drop (Z.to_nat (8 * nb)) src) Hnb) as (out & rest & -> & Ho & Hr); [rewrite length_drop; nia|]. run.
  do 2 eexists; split; [reflexivity|]. rewrite length_app. rewrite length_drop in Hr. nia.
Qed.

(** The number of words of a block never exceeds the matrix, whatever bounds
    the header holds. *)
Lemma valuable_64 (signed : bool) p q :
  uint 64 p -> uint 64 q ->
  let load p := if signed then to_signed 64 p else p in
  0 <= getValuableBitsNumber signed (load p) (load q) <= 64.
Proof.
  intros Hp Hq load. unfold getValuableBitsNumber. subst load. destruct signed; [|by apply valuable_spec].
  assert (forall z, uint 64 (wrap 64 z)) as Huint by (intros; apply wrap_uint; lia).
  pose proof (to_signed_range 64 p ltac:(lia) Hp) as Hsp. pose proof (to_signed_range 64 q ltac:(lia) Hq) as Hsq.
  set (mn := to_signed 64 p) in *. set (mx := to_signed 64 q) in *. change (2 ^ (64 - 1)) with (2 ^ 63) in *.
  assert (2 ^ 64 = 2 * 2 ^ 63) as H64 by done.
  unfold getValuableBitsNumber_signed. destruct (Z.ltb_spec mn 0) as [Hn|Hn], (Z.leb_spec 0 mx) as [Hx|Hx]; cbn [andb];
    [|by apply valuable_spec..].
  destruct (0 <=? mn + mx).
  - destruct (bit_length mx) as (H0 & _ & Hm); [unfold uint; lia|]. specialize (Hm 63 ltac:(lia) ltac:(lia)). lia.
  - rewrite wrap_id by (unfold uint, Z.lnot; lia).
    destruct (bit_length (Z.lnot mn)) as (H0 & _ & Hm); [unfold uint, Z.lnot; lia|].
    specialize (Hm 63 ltac:(lia) ltac:(unfold Z.lnot; lia)). lia.
Qed.

Lemma t64_type_safe w signed full src n :
  width w -> bytes_ok src -> uint 32 n ->
  match decompressData w signed full src n with
  | Ok (out, r) => blen out = n /\ r = blen out
  | Throw _ => True
  | Undef => False
  end.
Proof.
  intros Hw Hok [Hn0 Hn]. pose proof (width_bound w Hw) as Hwb. unfold decompressData.
  destruct (skip_of_size n w ltac:(lia) Hn0) as [Hs1 Hs2]. set (skip := bytes_to_skip n (Z.of_nat w)) in *.
  destruct (Z.ltb_spec (blen src) skip); run; [done|].
  assert (blen (take (Z.to_nat skip) src) = skip) as Hhead by (rewrite length_take; lia).
  destruct (Z.eqb_spec ((n - skip) mod Z.of_nat w) 0) as [Hmod|]; run; [|done].
  destruct (Z.eqb_spec (n - skip) 0); [lia|].
  set (src' := drop (Z.to_nat skip) src). assert (bytes_ok src') as Hok' by by apply Forall_drop.
  destruct (Z.ltb_spec (blen src') 16); run; [done|].
  assert (n - skip = Z.of_nat w * ((n - skip) / Z.of_nat w)) as Hel by (apply Z_div_exact_full_2; lia).
  set (ne := (n - skip) / Z.of_nat w) in *. assert (0 < ne) as Hne by nia.
  assert (forall l, bytes_ok l -> uint 64 (le_load (take 8 l))) as Hld.
  { intros l Hl. assert (bytes_ok (take 8 l)) as Ht by by apply Forall_take. apply le_load_uint in Ht as [Hl0 Hl1].
    split; [done|]. eapply Z.lt_le_trans; [exact Hl1|]. apply Z.pow_le_mono_r; [lia|]. rewrite length_take. lia. }
  pose proof (valuable_64 signed _ _ (Hld src' Hok') (Hld (drop 8 src') ltac:(by apply Forall_drop))) as Hnb. cbn zeta in Hnb.
  set (mn := if signed then to_signed 64 (le_load (take 8 src')) else le_load (take 8 src')) in *.
  set (mx := if signed then to_signed 64 (le_load (take 8 (drop 8 src'))) else le_load (take 8 (drop 8 src'))) in *.
  set (nb := getValuableBitsNumber signed mn mx) in *.
  destruct (Z.eqb_spec nb 0).
  { rewrite !length_app, length_storeArray, length_replicate. lia. }
  set (body := drop 16 src'). destruct ((blen body =? 0) || _) eqn:Hg; run; [done|].
  apply orb_false_iff in Hg as [Hg1 Hg2]. apply negb_false_iff, Z.eqb_eq in Hg2. apply Z.eqb_neq in Hg1.
  assert (blen body = 8 * nb * (blen body / (8 * nb))) as Hbody by (apply Z_div_exact_full_2; lia).
  set (q := blen body / (8 * nb)) in *. assert (0 < q) as Hq by nia.
  set (nf := if ne mod 64 =? 0 then q else q - 1).
  assert (0 <= nf) as Hnf by (subst nf; destruct (_ =? 0); lia).
  destruct (Z.eqb_spec (nf * 64 + ne mod 64) ne) as [Hexp|]; run; [|done].
  destruct (upper_bits w signed mn mx nb) as [[um uM] sb].
  destruct (length_decompress_blocks w signed full nb um uM sb (Z.to_nat nf) body) as (out & rest & -> & Ho & Hr);
    [lia|rewrite Z2Nat.id by lia; rewrite Hbody; subst nf; destruct (_ =? 0); nia|]. run.
  rewrite Z2Nat.id in Hr by lia.
  assert (0 <= ne mod 64 < 64) as Hm by dlia. subst nf.
  destruct (Z.eqb_spec (ne mod 64) 0) as [E|E].
  - run. rewrite app_nil_r. rewrite wrap_id; unfold uint; rewrite length_app; nia.
  - destruct (length_decompress_block w signed full nb um uM sb rest (Z.to_nat (ne mod 64))) as (b & -> & Hb); [lia|nia|].
    run. rewrite wrap_id; unfold uint; rewrite !length_app; nia.
Qed.

#[export] Instance t64_safe t v e : SafeDecoder (codec t v e).
Proof.
  split. intros e0 src n Hok Hn. cbn [codec Codec.doDecompressData]. unfold doDecompressData.
  destruct Hok as [|cookie src Hc Hok]; [done|].
  destruct (deserializeTypeId _) as [t'|e'|] eqn:Ed; run; [| done |].
  - assert (forall w signed full, width w -> match decompressData w signed full src n with
      | Ok (out, r) => blen out <= n /\ r = blen out | Throw _ => True | Undef => False end) as Hsafe.
    { intros w signed full Hw. pose proof (t64_type_safe w signed full src n Hw Hok Hn) as Hs.
      destruct decompressData as [[out r]| |]; [lia|done|done]. }
    unfold switch_type. destruct (baseType t'); try done; apply Hsafe; unfold width; tauto.
  - exfalso. revert Ed. unfold deserializeTypeId. repeat case_match; congruence.
Qed.
End CompressionCodecT64.
