(* ===== verification/CodecMultiple.v ===== *)
(** * Chains of codecs

    [CompressionCodecMultiple] ([src/Compression/CompressionCodecMultiple.cpp]):
    the codecs of [CODEC(a, b, ...)] applied one after the other, each to the
    whole block of its predecessor; reading applies the codecs the method
    bytes name, in reverse order.  The factory that makes them from their
    bytes is an argument here ([CodecFactory] defines it). *)

From stdpp Require Import prelude.
From Stdlib Require Import ZArith Lia.
From S2P Require Import Prelude Codec.

Module CompressionCodecMultiple.
Definition ONE_GIB : Z := 2 ^ 30.

(** [for (const auto & codec : codecs) compressed_size =
    codec->getCompressedReserveSize(compressed_size);] *)
Fixpoint reserve_chain (codecs : list ICompressionCodec) (compressed_size : Z) : outcome Z :=
  match codecs with
  | [] => Ok compressed_size
  | codec :: codecs =>
      compressed_size ← getCompressedReserveSize codec compressed_size;
      reserve_chain codecs compressed_size
  end.

Definition getMaxCompressedDataSize (codecs : list ICompressionCodec) (uncompressed_size : Z) : outcome Z :=
  compressed_size ← reserve_chain codecs uncompressed_size;
  Ok (wrap 32 (1 + blen codecs + compressed_size)).

(** The buffers: each codec writes into one of [getCompressedReserveSize]
    bytes, which the next one reads. *)
Fixpoint compress_chain (codecs : list ICompressionCodec) (uncompressed_buf : bytes) : outcome bytes :=
  match codecs with
  | [] => Ok uncompressed_buf
  | codec :: codecs =>
      reserve ← getCompressedReserveSize codec (blen uncompressed_buf);
      '(compressed_buf, size_compressed) ← compress codec uncompressed_buf;
      _ ← defined ((blen compressed_buf <=? reserve) && (size_compressed <=? reserve));
      compress_chain codecs (take (Z.to_nat size_compressed) compressed_buf)
  end.

Definition doCompressData (codecs : list ICompressionCodec) (source : bytes) : outcome (bytes * Z) :=
  data ← compress_chain codecs source;
  Ok ([wrap 8 (blen codecs)] ++ (getMethodByte <$> codecs) ++ data,
      wrap 32 (1 + blen codecs + blen data)).

Section Decompress.
  (** [CompressionCodecFactory::instance().get(byte_code)] and
      [decompression_error_code]. *)
  Context (get : Z -> outcome ICompressionCodec) (err : ErrorCode).

  (** [methods] are the method bytes still to be applied, the next one first;
      [compressed_buf] holds the first [source_size] of its [buf_size] bytes. *)
Fixpoint decompress_chain (methods : list Z) (compressed_buf : bytes) (buf_size decompressed_size : Z) : outcome bytes :=
    match methods with
    | [] => Ok compressed_buf
    | compression_method :: methods =>
        codec ← get compression_method;
        let additional := getAdditionalSizeAtTheEndOfBuffer codec in
        let source_size := blen compressed_buf in
        _ ← require (negb (ONE_GIB <=? buf_size)) err;
        _ ← require (negb (source_size <? COMPRESSED_BLOCK_HEADER_SIZE)) err;
        _ ← require (negb (2 ^ 32 <=? buf_size + additional)) err;
        uncompressed_size ← loadUInt32 compressed_buf 5;
        _ ← require (negb (uncompressed_size =? 0)) err;
        _ ← require (negb (ONE_GIB <=? uncompressed_size)) err;
        _ ← require (negb (match methods with [] => negb (uncompressed_size =? decompressed_size) | _ => false end)) err;
        _ ← require (negb (2 ^ 32 <=? uncompressed_size + additional)) err;
        '(uncompressed_buf, _) ← decompress codec compressed_buf;
        decompress_chain methods uncompressed_buf (uncompressed_size + additional) decompressed_size
    end.

Definition doDecompressData (source : bytes) (decompressed_size : Z) : outcome (bytes * Z) :=
    let source_size := blen source in
    _ ← require (negb ((source_size <? 1) || (nth 0 source 0 =? 0))) err;
    let compression_methods_size := nth 0 source 0 in
    _ ← require (negb (source_size <? compression_methods_size + 1)) err;
    let k := Z.to_nat compression_methods_size in
    let methods := take k (drop 1 source) in
    let compressed_buf := drop (k + 1) source in
    out ← decompress_chain (reverse methods) compressed_buf (blen compressed_buf) decompressed_size;
    Ok (take (Z.to_nat decompressed_size) out, decompressed_size).

End Decompress.

Definition codec (get : Z -> outcome ICompressionCodec) (err : ErrorCode) (codecs : list ICompressionCodec) : ICompressionCodec := {|
  getMethodByte := methodByte Multiple;
  Codec.getMaxCompressedDataSize := getMaxCompressedDataSize codecs;
  Codec.doCompressData := doCompressData codecs;
  Codec.doDecompressData := doDecompressData get;
  getAdditionalSizeAtTheEndOfBuffer := 0;
  isCompression := existsb isCompression codecs;
  isNone := false;
  isGenericCompression := false;
  isDeltaCompression := false;
  isFloatingPointTimeSeriesCodec := false;
  isEncryption := false;
  isExperimental := false;
  decompression_error_code := err
|}.

(** [getCodecsBytesFromData]. *)
Definition getCodecsBytesFromData (source : bytes) : list Z :=
  take (Z.to_nat (nth 0 source 0)) (drop 1 source).

(** ** The chain against the codec interface

    What a codec of the chain must promise, for sources of at most [N] bytes:
    the factory finds, from its method byte, a codec that reads it back, and
    the size it announces grows with the size of the source. *)
Definition bounded (N : Z) (src : bytes) : Prop := bytes_ok src /\ 0 < blen src <= N.

Class ChainLink (get : Z -> outcome ICompressionCodec) (N : Z) (enc : ICompressionCodec) : Prop := {
  link_pair : exists dec, get (getMethodByte enc) = Ok dec /\ CodecPair enc dec (bounded N) /\
    0 <= getAdditionalSizeAtTheEndOfBuffer dec <= 1024;
  link_reserve : forall n, 0 <= n <= N ->
    exists m, Codec.getMaxCompressedDataSize enc n = Ok m /\ 0 <= m <= DBMS_MAX_COMPRESSED_SIZE - COMPRESSED_BLOCK_HEADER_SIZE;
  link_mono : forall a b ma mb, 0 <= a <= b -> b <= N ->
    Codec.getMaxCompressedDataSize enc a = Ok ma -> Codec.getMaxCompressedDataSize enc b = Ok mb -> ma <= mb
}.

(** The announced sizes stay within [N] up to the last codec. *)
Fixpoint reserves_within (N : Z) (codecs : list ICompressionCodec) (n : Z) : Prop :=
  n <= N /\
  match codecs with
  | [] => True
  | c :: cs => exists m, getCompressedReserveSize c n = Ok m /\ reserves_within N cs m
  end.

Section Chain.
Context (get : Z -> outcome ICompressionCodec) (N : Z) (HN : N < ONE_GIB - 1024).

Lemma loaded_size dec blk n : readDecompressedBlockSize dec blk = Ok n -> loadUInt32 blk 5 = Ok n.
Proof using Type. unfold readDecompressedBlockSize. intros H. ok_inv. done. Qed.

(** One codec: its block, within the announced size, and the codec that reads
    it. *)
Lemma link_step enc src m :
  ChainLink get N enc -> bounded N src -> getCompressedReserveSize enc (blen src) = Ok m -> m <= N ->
  exists blk dec, compress enc src = Ok (blk, blen blk) /\ 9 <= blen blk <= m /\ bounded N blk /\
    get (getMethodByte enc) = Ok dec /\ 0 <= getAdditionalSizeAtTheEndOfBuffer dec <= 1024 /\
    loadUInt32 blk 5 = Ok (blen src) /\ decompress dec blk = Ok (src, blen src).
Proof using HN.
  intros Hl Hb Hm HmN. pose proof Hb as [Hok Hlen]. unfold ONE_GIB in HN.
  destruct (link_pair (get := get) (N := N) (enc := enc)) as (dec & Hget & Hpair & Hadd).
  destruct (link_reserve (get := get) (N := N) (enc := enc) (blen src) ltac:(lia)) as (mx & Hmx & Hmx2).
  assert (0 < blen src < 2 ^ 32) as Hsz by (cbn in HN |- *; lia).
  destruct (block_roundtrip enc dec (bounded N) src Hb Hsz) as (blk & res & Hc & Hbok & Hres & Hle & _ & Hd).
  { intros m' Hm'. rewrite Hmx in Hm'. injection Hm' as <-. unfold DBMS_MAX_COMPRESSED_SIZE, COMPRESSED_BLOCK_HEADER_SIZE in *. lia. }
  rewrite Hm in Hres. injection Hres as <-.
  apply decompress_sound in Hd as Hs. destruct Hs as (_ & Hr & _). apply loaded_size in Hr as Hload.
  assert (9 <= blen blk) as H9.
  { unfold loadUInt32 in Hload. ok_inv. match goal with H : Nat.leb _ _ = true |- _ => apply Nat.leb_le in H end. lia. }
  exists blk, dec. assert (bounded N blk) by (split; [done|lia]). split_and!; try done; lia.
Qed.

Lemma reserve_mono enc a b ma mb :
  ChainLink get N enc -> 0 <= a <= b -> b <= N ->
  getCompressedReserveSize enc a = Ok ma -> getCompressedReserveSize enc b = Ok mb -> ma <= mb.
Proof using Type.
  intros Hl Hab Hb Ha Hmb. unfold getCompressedReserveSize in *.
  destruct (link_reserve (get := get) (N := N) (enc := enc) a ltac:(lia)) as (xa & Exa & Hxa).
  destruct (link_reserve (get := get) (N := N) (enc := enc) b ltac:(lia)) as (xb & Exb & Hxb).
  pose proof (link_mono (get := get) (N := N) (enc := enc) a b xa xb Hab Hb Exa Exb) as Hx.
  rewrite Exa in Ha. rewrite Exb in Hmb. cbn in Ha, Hmb. simplify_eq.
  unfold DBMS_MAX_COMPRESSED_SIZE, COMPRESSED_BLOCK_HEADER_SIZE in *. rewrite !wrap_id by (unfold uint; lia). lia.
Qed.

(** Reading one codec of the chain. *)
Lemma decompress_step err dec blk src method rest bs dsz :
  get method = Ok dec -> 0 <= getAdditionalSizeAtTheEndOfBuffer dec <= 1024 ->
  9 <= blen blk -> blen blk <= bs <= blen blk + 1024 -> blen blk <= N -> 0 < blen src <= N ->
  loadUInt32 blk 5 = Ok (blen src) -> decompress dec blk = Ok (src, blen src) ->
  (rest = [] -> dsz = blen src) ->
  decompress_chain get err (method :: rest) blk bs dsz =
    decompress_chain get err rest src (blen src + getAdditionalSizeAtTheEndOfBuffer dec) dsz.
Proof using HN.
  intros Hget Hadd H9 Hbs HbN Hsrc Hload Hd Hlast. unfold ONE_GIB in HN. cbn [decompress_chain]. rewrite Hget. run.
  unfold ONE_GIB, COMPRESSED_BLOCK_HEADER_SIZE. rewrite !bind_require by blia. rewrite Hload. run.
  rewrite (bind_require (negb (blen src =? 0))) by blia. rewrite bind_require by blia.
  rewrite bind_require by (destruct rest; [rewrite Hlast by done; by rewrite Z.eqb_refl|done]).
  rewrite bind_require by blia. rewrite Hd. done.
Qed.

Lemma chain_roundtrip codecs : forall src n,
  Forall (ChainLink get N) codecs -> bounded N src -> blen src <= n -> reserves_within N codecs n ->
  exists data m, compress_chain codecs src = Ok data /\ bounded N data /\
    reserve_chain codecs n = Ok m /\ blen data <= m <= N /\
    forall err rest bs dsz, blen data <= bs <= blen data + 1024 -> (rest = [] -> dsz = blen src) ->
    exists bs', blen src <= bs' <= blen src + 1024 /\
      decompress_chain get err (reverse (getMethodByte <$> codecs) ++ rest) data bs dsz =
        decompress_chain get err rest src bs' dsz.
Proof using HN.
  induction codecs as [|c cs IH]; intros src n Hl Hb Hn Hw.
  { destruct Hw as [HnN _]. exists src, n. split_and!; try done. intros err rest bs dsz Hbs _. exists bs.
    split; [done|]. done. }
  apply Forall_cons in Hl as [Hc Hcs]. destruct Hw as [HnN (m & Hm & Hw)].
  pose proof Hb as [_ Hlen].
  destruct (link_reserve (get := get) (N := N) (enc := c) (blen src) ltac:(lia)) as (x & Ex & Hx).
  assert (exists ms, getCompressedReserveSize c (blen src) = Ok ms) as [ms Hms]
    by (unfold getCompressedReserveSize; rewrite Ex; eauto).
  assert (ms <= m) as Hmm by (apply (reserve_mono c (blen src) n); auto; lia).
  assert (m <= N) as HmN by (destruct cs; apply Hw).
  destruct (link_step c src ms Hc Hb Hms ltac:(lia)) as (blk & dec & Hcomp & Hbl & Hbb & Hget & Hadd & Hload & Hd).
  destruct (IH blk m Hcs Hbb ltac:(lia) Hw) as (data & mk & Hch & Hdb & Hrk & Hdl & Hdec).
  exists data, mk. cbn [compress_chain reserve_chain]. rewrite Hms, Hm, Hcomp. run.
  rewrite bind_defined by blia. rewrite Nat2Z.id, firstn_all, Hch.
  split_and!; try done; try lia. intros err rest bs dsz Hbs Hrest.
  rewrite fmap_cons, reverse_cons, <- app_assoc. cbn [app].
  destruct (Hdec err (getMethodByte c :: rest) bs dsz Hbs ltac:(done)) as (bs1 & Hbs1 & ->).
  exists (blen src + getAdditionalSizeAtTheEndOfBuffer dec). split; [lia|].
  apply (decompress_step err dec blk src); auto; destruct Hbb; lia.
Qed.

(** Sources for which the chain as a whole is within its bounds. *)
Definition multiple_dom (codecs : list ICompressionCodec) (src : bytes) : Prop :=
  bounded N src /\ reserves_within N codecs (blen src).

Lemma multiple_roundtrip codecs src :
  (0 < length codecs <= 255)%nat -> Forall (ChainLink get N) codecs -> multiple_dom codecs src ->
  exists out m, doCompressData codecs src = Ok (out, blen out) /\ bytes_ok out /\
    getMaxCompressedDataSize codecs (blen src) = Ok m /\ blen out <= m /\
    (forall err, doDecompressData get err out (blen src) = Ok (src, blen src)) /\
    getCodecsBytesFromData out = getMethodByte <$> codecs.
Proof using HN.
  intros Hk Hl [Hb Hw]. unfold ONE_GIB in HN.
  destruct (chain_roundtrip codecs src (blen src) Hl Hb ltac:(lia) Hw) as (data & m & Hc & [Hdok Hdl] & Hr & Hdm & Hd).
  set (methods := getMethodByte <$> codecs) in *.
  assert (length methods = length codecs) as Hml by apply length_fmap.
  assert (bytes_ok methods) as Hmok.
  { apply Forall_fmap. eapply Forall_impl; [exact Hl|]. intros c Hc'. cbn.
    destruct (link_pair (get := get) (N := N) (enc := c)) as (dec & _ & Hp & _). apply (pair_method_ok (enc := c) (dec := dec)). }
  unfold doCompressData, getMaxCompressedDataSize. rewrite Hc, Hr. run. fold methods.
  rewrite (wrap_id 8) by (unfold uint; cbn; lia).
  assert (blen ([blen codecs] ++ methods ++ data) = 1 + blen codecs + blen data) as Hbl
    by (rewrite !length_app; cbn [length]; lia).
  rewrite !wrap_id by (unfold uint; lia).
  exists ([blen codecs] ++ methods ++ data), (1 + blen codecs + m).
  assert (take (Z.to_nat (blen codecs)) (drop 1 ([blen codecs] ++ methods ++ data)) = methods) as Htake.
  { cbn [app]. cbn [drop]. rewrite drop_0, Nat2Z.id. apply take_app_length'. lia. }
  split_and!; try done.
  - by rewrite Hbl.
  - rewrite !Forall_app. split_and!; try done. constructor; [unfold uint; cbn; lia|constructor].
  - lia.
  - intros err. unfold doDecompressData. rewrite Hbl. cbn [nth app].
    rewrite bind_require by (apply negb_true_iff, orb_false_iff; lia).
    rewrite bind_require by blia. change (blen codecs :: methods ++ data) with ([blen codecs] ++ methods ++ data).
    rewrite Htake. assert (drop (Z.to_nat (blen codecs) + 1) ([blen codecs] ++ methods ++ data) = data) as ->.
    { rewrite Nat2Z.id, Nat.add_comm. cbn [app]. cbn [drop Nat.add]. apply drop_app_length'. lia. }
    destruct (Hd err [] (blen data) (blen src) ltac:(lia) ltac:(done)) as (bs' & _ & E).
    rewrite app_nil_r in E. rewrite E. cbn [decompress_chain]. run. by rewrite Nat2Z.id, firstn_all.
Qed.

#[export] Instance multiple_pair codecs codecs' err err' :
  (0 < length codecs <= 255)%nat -> Forall (ChainLink get N) codecs ->
  CodecPair (codec get err' codecs) (codec get err codecs') (multiple_dom codecs).
Proof using HN.
  intros Hk Hl. split; cbn [Codec.getMethodByte codec Codec.doCompressData Codec.doDecompressData Codec.getMaxCompressedDataSize].
  - done.
  - unfold uint; cbn; lia.
  - intros src Hd. destruct (multiple_roundtrip codecs src Hk Hl Hd) as (out & m & ? & ? & ? & ? & ? & ?). eauto 10.
Qed.
End Chain.
End CompressionCodecMultiple.
