(* ===== verification/CodecFactory.v ===== *)
(** * The codec factory

    [CompressionCodecFactory] ([src/Compression/CompressionFactory.cpp]) and
    the builders the codecs register: from the method byte of a block to the
    codec that reads it, and from [CODEC(...)] to the codec that writes it.
    [validateCodecAndGetPreprocessedAST] of [CompressionFactoryAdditions.cpp]
    decides which combinations make sense.  The codecs that wrap third-party
    code (LZ4, ZSTD, the AES ciphers) and ALP are parameters. *)

From stdpp Require Import prelude gmap strings.
From Stdlib Require Import ZArith Lia.
From S2P Require Import Prelude Codec CodecDelta CodecGCD CodecDoubleDelta CodecGorilla CodecFPC CodecT64 CodecMultiple.

(** ** Arguments of a codec *)
Inductive ASTArg : Type :=
| LiteralUInt64 (v : Z)
| LiteralInt64 (v : Z)
| LiteralString (s : string)
| LiteralOther
| NotLiteral.

(** What the builders ask of [IDataType]. *)
Record IDataType := {
  getTypeId : TypeIndex.t;
  getSizeOfValueInMemory : Z;
  isValueUnambiguouslyRepresentedInFixedSizeContiguousMemoryRegion : bool;
  isValueRepresentedByNumber : bool
}.

(** A null [ASTPtr] is [None]. *)
Abbreviation Arguments := (option (list ASTArg)).
Abbreviation CreatorWithType := (Arguments -> option IDataType -> outcome ICompressionCodec).

(** [arguments && !arguments->children.empty()] and the children then. *)
Definition children (arguments : Arguments) : list ASTArg := default [] arguments.

Definition isNativeFloat (t : TypeIndex.t) : bool :=
  match t with TypeIndex.Float32 | TypeIndex.Float64 => true | _ => false end.

Definition isIntUIntDecimalDateOrDateTime (t : TypeIndex.t) : bool :=
  match t with
  | TypeIndex.Int8 | TypeIndex.Int16 | TypeIndex.Int32 | TypeIndex.Int64 | TypeIndex.Int128 | TypeIndex.Int256
  | TypeIndex.UInt8 | TypeIndex.UInt16 | TypeIndex.UInt32 | TypeIndex.UInt64 | TypeIndex.UInt128 | TypeIndex.UInt256
  | TypeIndex.Decimal32 | TypeIndex.Decimal64 | TypeIndex.Decimal128 | TypeIndex.Decimal256
  | TypeIndex.Date | TypeIndex.Date32 | TypeIndex.DateTime | TypeIndex.DateTime64 => true
  | _ => false
  end.

(** ** The builders *)
Definition user_bytes_size (args : list ASTArg) : outcome Z :=
  match args with
  | [LiteralUInt64 n] =>
      _ ← require (is_width n) ILLEGAL_CODEC_PARAMETER;
      Ok n
  | [_] => Throw ILLEGAL_CODEC_PARAMETER
  | _ => Throw ILLEGAL_SYNTAX_FOR_CODEC_TYPE
  end.

(** [getDeltaBytesSize] and Gorilla's [getDataBytesSize]. *)
Definition getDeltaBytesSize (column_type : IDataType) : outcome Z :=
  _ ← require (isValueUnambiguouslyRepresentedInFixedSizeContiguousMemoryRegion column_type) BAD_ARGUMENTS;
  let max_size := getSizeOfValueInMemory column_type in
  _ ← require (is_width max_size) BAD_ARGUMENTS;
  Ok max_size.

(** DoubleDelta's [getDataBytesSize]. *)
Definition getDoubleDeltaBytesSize (column_type : IDataType) : outcome Z :=
  _ ← require (isValueRepresentedByNumber column_type) BAD_ARGUMENTS;
  let max_size := getSizeOfValueInMemory column_type in
  _ ← require (is_width max_size) BAD_ARGUMENTS;
  Ok max_size.

Definition getGCDBytesSize (column_type : IDataType) : outcome Z :=
  _ ← require (isIntUIntDecimalDateOrDateTime (getTypeId column_type)) BAD_ARGUMENTS;
  let max_size := getSizeOfValueInMemory column_type in
  _ ← require (CompressionCodecGCD.is_width max_size) BAD_ARGUMENTS;
  Ok max_size.

Definition getFloatByteWidth (column_type : IDataType) : outcome Z :=
  _ ← require (isNativeFloat (getTypeId column_type)) BAD_ARGUMENTS;
  Ok (wrap 8 (getSizeOfValueInMemory column_type)).

(** [typeIdx]. *)
Definition typeIdx (t : TypeIndex.t) : TypeIndex.t :=
  match t with
  | TypeIndex.Int8 | TypeIndex.UInt8 | TypeIndex.Enum8 | TypeIndex.Int16 | TypeIndex.UInt16 | TypeIndex.Enum16
  | TypeIndex.Date | TypeIndex.Date32 | TypeIndex.Int32 | TypeIndex.UInt32 | TypeIndex.IPv4 | TypeIndex.Time
  | TypeIndex.Time64 | TypeIndex.DateTime | TypeIndex.DateTime64 | TypeIndex.Decimal32 | TypeIndex.Int64
  | TypeIndex.UInt64 | TypeIndex.Decimal64 => t
  | _ => TypeIndex.Nothing
  end.

Definition registerCodecDelta : CreatorWithType := fun arguments column_type =>
  delta_bytes_size ←
    match children arguments, column_type with
    | [], None => Ok 1
    | [], Some t => getDeltaBytesSize t
    | args, _ => user_bytes_size args
    end;
  Ok (CompressionCodecDelta.codec delta_bytes_size CORRUPTED_DATA).

(** The column type is checked even when an argument replaces its size. *)
Definition registerCodecDoubleDelta : CreatorWithType := fun arguments column_type =>
  data_bytes_size ← match column_type with None => Ok 1 | Some t => getDoubleDeltaBytesSize t end;
  data_bytes_size ← match children arguments with [] => Ok data_bytes_size | args => user_bytes_size args end;
  Ok (CompressionCodecDoubleDelta.codec data_bytes_size CORRUPTED_DATA).

Definition registerCodecGorilla (st : option Z) : CreatorWithType := fun arguments column_type =>
  data_bytes_size ←
    match children arguments, column_type with
    | [], None => Ok 1
    | [], Some t => getDeltaBytesSize t
    | args, _ => user_bytes_size args
    end;
  Ok (CompressionCodecGorilla.codec st data_bytes_size CORRUPTED_DATA).

Definition registerCodecGCD (boost_gcd libdivide : Z -> Z -> Z) : CreatorWithType := fun arguments column_type =>
  match children arguments with
  | [] =>
      gcd_bytes_size ← match column_type with None => Ok 1 | Some t => getGCDBytesSize t end;
      Ok (CompressionCodecGCD.codec boost_gcd libdivide gcd_bytes_size CORRUPTED_DATA)
  | _ => Throw ILLEGAL_SYNTAX_FOR_CODEC_TYPE
  end.

(** The level is truncated to [UInt8] before its range is checked. *)
Definition registerCodecFPC : CreatorWithType := fun arguments column_type =>
  float_width ← match column_type with None => Ok 4 | Some t => getFloatByteWidth t end;
  '(float_width, level) ←
    match children arguments with
    | [] => Ok (float_width, 12)
    | first :: rest =>
        _ ← require (Nat.leb (length (first :: rest)) 2) ILLEGAL_SYNTAX_FOR_CODEC_TYPE;
        level ← match first with LiteralUInt64 n => Ok (wrap 8 n) | _ => Throw ILLEGAL_CODEC_PARAMETER end;
        _ ← require (negb ((level <? 1) || (CompressionCodecFPC.MAX_COMPRESSION_LEVEL <? level))) ILLEGAL_CODEC_PARAMETER;
        match rest with
        | [] => Ok (float_width, level)
        | second :: _ =>
            user_float_width ←
              match second with LiteralUInt64 n => Ok n | LiteralInt64 n => Ok (wrap 64 n) | _ => Throw ILLEGAL_CODEC_PARAMETER end;
            _ ← require ((user_float_width =? 4) || (user_float_width =? 8)) ILLEGAL_CODEC_PARAMETER;
            Ok (user_float_width, level)
        end
    end;
  Ok (CompressionCodecFPC.codec float_width level CORRUPTED_DATA).

Definition registerCodecT64 : CreatorWithType := fun arguments column_type =>
  variant ←
    match children arguments with
    | [] => Ok CompressionCodecT64.Byte
    | [LiteralString name] =>
        if decide (name = "byte"%string) then Ok CompressionCodecT64.Byte
        else if decide (name = "bit"%string) then Ok CompressionCodecT64.Bit
        else Throw ILLEGAL_CODEC_PARAMETER
    | [NotLiteral] => Throw ILLEGAL_CODEC_PARAMETER
    | [_] => Throw BAD_GET
    | _ => Throw ILLEGAL_SYNTAX_FOR_CODEC_TYPE
    end;
  type_idx ←
    match column_type with
    | None => Ok None
    | Some t =>
        match typeIdx (getTypeId t) with
        | TypeIndex.Nothing => Throw ILLEGAL_SYNTAX_FOR_CODEC_TYPE
        | idx => Ok (Some idx)
        end
    end;
  Ok (CompressionCodecT64.codec type_idx variant CORRUPTED_DATA).

Module CompressionCodecFactory.
Record t := Make {
  family_name_with_codec : gmap string CreatorWithType;
  family_code_with_codec : gmap Z CreatorWithType
}.

Definition empty : t := Make ∅ ∅.

Definition registerCompressionCodecWithType (family_name : string) (byte_code : option Z) (creator : CreatorWithType)
    (f : t) : outcome t :=
  match family_name_with_codec f !! family_name with
  | Some _ => Throw LOGICAL_ERROR
  | None =>
      let names := <[family_name := creator]> (family_name_with_codec f) in
      match byte_code with
      | None => Ok (Make names (family_code_with_codec f))
      | Some code =>
          match family_code_with_codec f !! code with
          | Some _ => Throw LOGICAL_ERROR
          | None => Ok (Make names (<[code := creator]> (family_code_with_codec f)))
          end
      end
  end.

(** [registerSimpleCompressionCodec]: no arguments at all. *)
Definition simple_creator (creator : outcome ICompressionCodec) : CreatorWithType := fun arguments _ =>
  match arguments with
  | Some _ => Throw DATA_TYPE_CANNOT_HAVE_ARGUMENTS
  | None => creator
  end.

Definition get_by_byte (f : t) (byte_code : Z) : outcome ICompressionCodec :=
  match family_code_with_codec f !! byte_code with
  | None => Throw UNKNOWN_CODEC
  | Some creator => creator None None
  end.

Definition getImpl (f : t) (family_name : string) (arguments : Arguments) (column_type : option IDataType)
    : outcome ICompressionCodec :=
  if decide (family_name = "Multiple"%string) then Throw UNKNOWN_CODEC
  else match family_name_with_codec f !! family_name with
       | None => Throw UNKNOWN_CODEC
       | Some creator => creator arguments column_type
       end.

(** The children of [CODEC(...)]. *)
Inductive CodecAST : Type :=
| Identifier (name : string)
| Function_ (name : string) (arguments : list ASTArg)
| OtherAST.

Definition DEFAULT_CODEC_NAME : string := "Default".

Fixpoint get_codecs (f : t) (column_type : option IDataType) (current_default : ICompressionCodec) (only_generic : bool)
    (asts : list CodecAST) : outcome (list ICompressionCodec) :=
  match asts with
  | [] => Ok []
  | ast :: asts =>
      '(codec_family_name, codec_arguments) ←
        match ast with
        | Identifier name => Ok (name, None)
        | Function_ name arguments => Ok (name, Some arguments)
        | OtherAST => Throw UNEXPECTED_AST_STRUCTURE
        end;
      codec ← (if decide (codec_family_name = DEFAULT_CODEC_NAME) then Ok current_default
               else getImpl f codec_family_name codec_arguments column_type);
      codecs ← get_codecs f column_type current_default only_generic asts;
      Ok (if only_generic && negb (isGenericCompression codec) then codecs else codec :: codecs)
  end.

(** [get(ast, column_type, current_default, only_generic)]; [get_byte] is the
    factory the resulting chain reads with. *)
Definition get_by_ast (f : t) (get_byte : Z -> outcome ICompressionCodec) (column_type : option IDataType)
    (current_default : ICompressionCodec) (only_generic : bool) (asts : list CodecAST) : outcome ICompressionCodec :=
  codecs ← get_codecs f column_type current_default only_generic asts;
  match codecs with
  | [] => Ok (CompressionCodecNone CORRUPTED_DATA)
  | [codec] => Ok codec
  | _ => Ok (CompressionCodecMultiple.codec get_byte CORRUPTED_DATA codecs)
  end.

Definition register_all (regs : list (string * option Z * CreatorWithType)) : outcome t :=
  foldl (fun f '(name, code, creator) => f ← f; registerCompressionCodecWithType name code creator f) (Ok empty) regs.

Section Instance_.
(** The static variable of Gorilla, the arithmetic of GCD, and the builders of
    the codecs that wrap third-party code. *)
Context (st : option Z) (boost_gcd libdivide : Z -> Z -> Z) (third_party : CompressionMethodByte -> CreatorWithType)
        (lz4hc : CreatorWithType).

Definition registrations (self : Z -> outcome ICompressionCodec) : list (string * option Z * CreatorWithType) :=
  [ ("NONE"%string, Some (methodByte NONE), simple_creator (Ok (CompressionCodecNone CORRUPTED_DATA)));
    ("LZ4"%string, Some (methodByte LZ4), third_party LZ4);
    ("ZSTD"%string, Some (methodByte ZSTD), third_party ZSTD);
    ("LZ4HC"%string, None, lz4hc);
    ("Multiple"%string, Some (methodByte Multiple),
      simple_creator (Ok (CompressionCodecMultiple.codec self CORRUPTED_DATA [])));
    ("Delta"%string, Some (methodByte Delta), registerCodecDelta);
    ("T64"%string, Some (methodByte T64), registerCodecT64);
    ("DoubleDelta"%string, Some (methodByte DoubleDelta), registerCodecDoubleDelta);
    ("Gorilla"%string, Some (methodByte Gorilla), registerCodecGorilla st);
    ("AES_128_GCM_SIV"%string, Some (methodByte AES_128_GCM_SIV), third_party AES_128_GCM_SIV);
    ("AES_256_GCM_SIV"%string, Some (methodByte AES_256_GCM_SIV), third_party AES_256_GCM_SIV);
    ("FPC"%string, Some (methodByte FPC), registerCodecFPC);
    ("GCD"%string, Some (methodByte GCD), registerCodecGCD boost_gcd libdivide);
    ("ALP"%string, Some (methodByte ALP), third_party ALP) ].

(** The singleton.  A [Multiple] block may name codec [Multiple] again; [depth]
    bounds how often, and data of [n] bytes cannot nest deeper than [n]. *)
Fixpoint instance_get (depth : nat) (byte_code : Z) : outcome ICompressionCodec :=
  match depth with
  | O => Undef
  | S depth =>
      f ← register_all (registrations (instance_get depth));
      get_by_byte f byte_code
  end.
End Instance_.

(** ** Which combinations make sense

    The checks of [validateCodecAndGetPreprocessedAST] under [sanity_check],
    on the codecs built from the AST. *)
Fixpoint first_pos {A} (p : A -> bool) (l : list A) : option nat :=
  match l with
  | [] => None
  | x :: l => if p x then Some O else S <$> first_pos p l
  end.

Definition last_pos {A} (p : A -> bool) (l : list A) : option nat :=
  foldl (fun acc '(i, x) => if p x : bool then Some i else acc) None (zip (seq 0 (length l)) l).

Definition sanity_check (codecs : list ICompressionCodec) (column_is_float : option bool) : outcome unit :=
  let size := length codecs in
  let with_compression_codec := existsb isCompression codecs in
  let with_none_codec := existsb isNone codecs in
  let encryption_count := length (filter (fun c => isEncryption c = true) codecs) in
  _ ← require (negb (Nat.ltb 1 size && with_none_codec)) BAD_ARGUMENTS;
  _ ← require (negb (negb with_compression_codec && negb with_none_codec && negb (Nat.eqb encryption_count size))) BAD_ARGUMENTS;
  _ ← require (match first_pos isEncryption codecs with
               | None => true
               | Some p => Nat.eqb p (size - encryption_count)
               end) BAD_ARGUMENTS;
  _ ← require (match last_pos isFloatingPointTimeSeriesCodec codecs, column_is_float with
               | Some _, Some is_float => is_float
               | _, _ => true
               end) BAD_ARGUMENTS;
  _ ← require (match first_pos isDeltaCompression codecs, last_pos isFloatingPointTimeSeriesCodec codecs with
               | Some d, Some f => negb (Nat.ltb d f)
               | _, _ => true
               end) BAD_ARGUMENTS;
  require (match first_pos isGenericCompression codecs with
           | None => true
           | Some p => Z.of_nat p =? Z.of_nat size - 1 - Z.of_nat encryption_count
           end) BAD_ARGUMENTS.

(** ** Registration *)
Definition reg_names (regs : list (string * option Z * CreatorWithType)) : list string := (fun r => r.1.1) <$> regs.
Definition reg_codes (regs : list (string * option Z * CreatorWithType)) : list Z := omap (fun r => r.1.2) regs.

(** [later f f']: [f'] has every entry of [f]. *)
Definition later (f f' : t) : Prop :=
  family_name_with_codec f ⊆ family_name_with_codec f' /\ family_code_with_codec f ⊆ family_code_with_codec f'.

Lemma register_fresh name code creator f :
  family_name_with_codec f !! name = None ->
  (forall c, code = Some c -> family_code_with_codec f !! c = None) ->
  exists f', registerCompressionCodecWithType name code creator f = Ok f' /\ later f f' /\
    family_name_with_codec f' = <[name := creator]> (family_name_with_codec f) /\
    family_code_with_codec f' = match code with Some c => <[c := creator]> (family_code_with_codec f) | None => family_code_with_codec f end.
Proof.
  intros Hn Hc. unfold registerCompressionCodecWithType. rewrite Hn. destruct code as [c|].
  - rewrite (Hc c eq_refl). eexists; split; [reflexivity|]. split; [|done]. split; by apply insert_subseteq; auto.
  - eexists; split; [reflexivity|]. split; [|done]. split; [by apply insert_subseteq|done].
Qed.

Lemma register_from regs : forall f0,
  NoDup (reg_names regs) -> NoDup (reg_codes regs) ->
  (forall n, n ∈ reg_names regs -> family_name_with_codec f0 !! n = None) ->
  (forall c, c ∈ reg_codes regs -> family_code_with_codec f0 !! c = None) ->
  exists f, foldl (fun f '(name, code, creator) => f ← f; registerCompressionCodecWithType name code creator f) (Ok f0) regs = Ok f /\
    later f0 f /\
    forall name code creator, (name, code, creator) ∈ regs ->
      family_name_with_codec f !! name = Some creator /\ forall c, code = Some c -> family_code_with_codec f !! c = Some creator.
Proof.
  induction regs as [|[[name code] creator] regs IH]; intros f0 Hn Hc Hfn Hfc.
  { exists f0. split; [done|]. split; [done|]. intros ? ? ? []%not_elem_of_nil. }
  cbn in Hn. apply NoDup_cons in Hn as [Hn1 Hn2].
  destruct (register_fresh name code creator f0) as (f1 & E1 & Hl1 & En & Ec).
  { apply Hfn. cbn. apply elem_of_cons. by left. }
  { intros c ->. apply Hfc. cbn. apply elem_of_cons. by left. }
  assert (NoDup (reg_codes regs) /\ forall c, code = Some c -> c ∉ reg_codes regs) as [Hc2 Hc1].
  { unfold reg_codes in *. cbn in Hc. destruct code as [c|]; cbn in Hc; [|done].
    apply NoDup_cons in Hc as [? ?]. split; [done|]. by intros ? [= <-]. }
  destruct (IH f1 Hn2 Hc2) as (f & E & Hl & Hall).
  - intros n Hin. rewrite En. rewrite lookup_insert_ne by (intros ->; done). apply Hfn. cbn. apply elem_of_cons. by right.
  - intros c Hin. rewrite Ec. destruct code as [c'|].
    + rewrite lookup_insert_ne by (intros ->; by apply (Hc1 c)). apply Hfc. unfold reg_codes. cbn. apply elem_of_cons. by right.
    + apply Hfc. unfold reg_codes. cbn. done.
  - exists f. cbn [foldl]. run. rewrite E1. split; [done|]. split.
    { destruct Hl, Hl1. split; by etrans. }
    intros n' code' creator' [[= -> -> ->]|Hin]%elem_of_cons; [|by apply (Hall n' code' creator')].
    destruct Hl as [HlN HlC]. split.
    + eapply lookup_weaken; [|exact HlN]. rewrite En. by apply lookup_insert_eq.
    + intros c Hcode. rewrite Hcode in Ec. eapply lookup_weaken; [|exact HlC]. rewrite Ec. by apply lookup_insert_eq.
Qed.

Lemma register_all_ok regs :
  NoDup (reg_names regs) -> NoDup (reg_codes regs) ->
  exists f, register_all regs = Ok f /\
    forall name code creator, (name, code, creator) ∈ regs ->
      family_name_with_codec f !! name = Some creator /\ forall c, code = Some c -> get_by_byte f c = creator None None.
Proof.
  intros Hn Hc. destruct (register_from regs empty Hn Hc) as (f & E & _ & H); [done|done|].
  exists f. split; [exact E|]. intros name code creator Hin. destruct (H name code creator Hin) as [H1 H2].
  split; [done|]. intros c Hcode. unfold get_by_byte. by rewrite (H2 c Hcode).
Qed.

Section Registered.
Context (st : option Z) (boost_gcd libdivide : Z -> Z -> Z) (third_party : CompressionMethodByte -> CreatorWithType)
        (lz4hc : CreatorWithType).
Abbreviation regs self := (registrations st boost_gcd libdivide third_party lz4hc self).
Abbreviation get d := (instance_get st boost_gcd libdivide third_party lz4hc d).

(** The constructor of the factory does not throw: names and codes are
    unique; and every code finds its builder. *)
Lemma registrations_distinct self : NoDup (reg_names (regs self)) /\ NoDup (reg_codes (regs self)).
Proof using Type.
  change (reg_names (regs self)) with
    ["NONE"; "LZ4"; "ZSTD"; "LZ4HC"; "Multiple"; "Delta"; "T64"; "DoubleDelta"; "Gorilla"; "AES_128_GCM_SIV";
     "AES_256_GCM_SIV"; "FPC"; "GCD"; "ALP"]%string.
  change (reg_codes (regs self)) with
    (methodByte <$> [NONE; LZ4; ZSTD; Multiple; Delta; T64; DoubleDelta; Gorilla; AES_128_GCM_SIV; AES_256_GCM_SIV; FPC; GCD; ALP]).
  split; apply (bool_decide_unpack _); vm_compute; exact I.
Qed.

Lemma get_registered d name code creator :
  (name, Some code, creator) ∈ regs (get d) -> get (S d) code = creator None None.
Proof using Type.
  intros Hin. cbn [instance_get]. destruct (registrations_distinct (get d)) as [Hn Hc].
  destruct (register_all_ok _ Hn Hc) as (f & -> & H). run. by apply (H name (Some code) creator Hin).
Qed.

(** The codec made for reading a method byte answers to that byte. *)
Lemma get_method_byte d (m : CompressionMethodByte) codec :
  (forall m args ty c, third_party m args ty = Ok c -> getMethodByte c = methodByte m) ->
  get (S d) (methodByte m) = Ok codec -> getMethodByte codec = methodByte m.
Proof using Type.
  intros Hthird. 
  assert (exists name creator, (name, Some (methodByte m), creator) ∈ regs (get d) /\
    forall c, creator None None = Ok c -> getMethodByte c = methodByte m) as (name & creator & Hin & Hc).
  { destruct m;
      [eexists _, _; split; [by apply (list_elem_of_lookup_2 _ 0)|by intros ? [= <-]]
      |eexists _, _; split; [by apply (list_elem_of_lookup_2 _ 1)|by apply Hthird]
      |eexists _, _; split; [by apply (list_elem_of_lookup_2 _ 2)|by apply Hthird]
      |eexists _, _; split; [by apply (list_elem_of_lookup_2 _ 4)|by intros ? [= <-]]
      |eexists _, _; split; [by apply (list_elem_of_lookup_2 _ 5)|by intros ? [= <-]]
      |eexists _, _; split; [by apply (list_elem_of_lookup_2 _ 6)|by intros ? [= <-]]
      |eexists _, _; split; [by apply (list_elem_of_lookup_2 _ 7)|by intros ? [= <-]]
      |eexists _, _; split; [by apply (list_elem_of_lookup_2 _ 8)|by intros ? [= <-]]
      |eexists _, _; split; [by apply (list_elem_of_lookup_2 _ 9)|by apply Hthird]
      |eexists _, _; split; [by apply (list_elem_of_lookup_2 _ 10)|by apply Hthird]
      |eexists _, _; split; [by apply (list_elem_of_lookup_2 _ 11)|by intros ? [= <-]]
      |eexists _, _; split; [by apply (list_elem_of_lookup_2 _ 12)|by intros ? [= <-]]
      |eexists _, _; split; [by apply (list_elem_of_lookup_2 _ 13)|by apply Hthird]]. }
  rewrite (get_registered d name (methodByte m) creator Hin). apply Hc.
Qed.

(** ** Every modelled codec is a link of a chain *)
Import CompressionCodecMultiple.

Definition MAX_SOURCE : Z := 2 ^ 26.

(** The largest block of [MergeTreeWriterSettings], and the largest source for
    which the codecs that count bits in 32 bits are shown not to wrap. *)
Definition MAX_BLOCK : Z := 2 ^ 28.
Definition MAX_BITS : Z := 2 ^ 27.

Lemma make_link d N enc dec dom m (max : Z -> Z) :
  (exists name creator, (name, Some (methodByte m), creator) ∈ regs (get d) /\ creator None None = Ok dec) ->
  getMethodByte enc = methodByte m -> getAdditionalSizeAtTheEndOfBuffer dec = 0 ->
  CodecPair enc dec dom -> (forall src, bounded N src -> dom src) ->
  (forall n, 0 <= n <= N -> Codec.getMaxCompressedDataSize enc n = Ok (max n) /\ 0 <= max n <= DBMS_MAX_COMPRESSED_SIZE - COMPRESSED_BLOCK_HEADER_SIZE) ->
  (forall a b, 0 <= a <= b -> b <= N -> max a <= max b) ->
  ChainLink (get (S d)) N enc.
Proof using Type.
  intros (name & creator & Hin & Hc) Hm Hadd Hp Hdom Hmax Hmono. split.
  - exists dec. rewrite Hm. rewrite (get_registered d name _ creator Hin), Hc, Hadd. split; [done|]. split; [|lia].
    by eapply CodecPair_weaken.
  - intros n Hn. destruct (Hmax n Hn) as [E H]. eauto.
  - intros a b ma mb Hab Hb Ea Eb. destruct (Hmax a ltac:(lia)) as [Ea' _], (Hmax b ltac:(lia)) as [Eb' _].
    rewrite Ea' in Ea. rewrite Eb' in Eb. simplify_eq. by apply Hmono.
Qed.

#[local] Hint Unfold MAX_SOURCE DBMS_MAX_COMPRESSED_SIZE COMPRESSED_BLOCK_HEADER_SIZE : chdb.

Lemma link_None N d e : N <= MAX_BLOCK -> ChainLink (get (S d)) N (CompressionCodecNone e).
Proof using Type.
  intros HN. unfold MAX_BLOCK in HN. apply (make_link d N _ (CompressionCodecNone CORRUPTED_DATA) bytes_ok NONE (fun n => n)); try done.
  - eexists _, _. split; [by apply (list_elem_of_lookup_2 _ 0)|done].
  - apply _.
  - by intros src [? _].
  - intros n. unfold DBMS_MAX_COMPRESSED_SIZE, COMPRESSED_BLOCK_HEADER_SIZE. intros Hn. split; [done|lia].
  - lia.
Qed.

Lemma link_Delta N d w e : width w -> N <= MAX_BLOCK -> ChainLink (get (S d)) N (CompressionCodecDelta.codec (Z.of_nat w) e).
Proof using Type.
  intros Hw HN. unfold MAX_BLOCK in HN. apply (make_link d N _ (CompressionCodecDelta.codec 1 CORRUPTED_DATA) CompressionCodecDelta.dom Delta (fun n => n + 2)); try done;
    unfold DBMS_MAX_COMPRESSED_SIZE, COMPRESSED_BLOCK_HEADER_SIZE.
  - eexists _, _. split; [by apply (list_elem_of_lookup_2 _ 5)|done].
  - by apply CompressionCodecDelta.delta_pair.
  - intros src [? ?]. split; [done|lia].
  - intros n Hn. split; [|lia]. cbn [Codec.getMaxCompressedDataSize CompressionCodecDelta.codec].
    by rewrite wrap_id by (unfold uint; lia).
  - lia.
Qed.

Lemma link_T64 N d t v e : CompressionCodecT64.supported t ->
  N <= MAX_BLOCK -> ChainLink (get (S d)) N (CompressionCodecT64.codec (Some t) v e).
Proof using Type.
  intros Ht HN. unfold MAX_BLOCK in HN. apply (make_link d N _ (CompressionCodecT64.codec None CompressionCodecT64.Byte CORRUPTED_DATA) CompressionCodecT64.dom T64 (fun n => n + 529)); try done;
    unfold DBMS_MAX_COMPRESSED_SIZE, COMPRESSED_BLOCK_HEADER_SIZE.
  - eexists _, _. split; [by apply (list_elem_of_lookup_2 _ 6)|done].
  - by apply CompressionCodecT64.t64_pair.
  - intros src [? ?]. split; [done|lia].
  - intros n Hn. split; [|lia]. cbn [Codec.getMaxCompressedDataSize CompressionCodecT64.codec].
    unfold CompressionCodecT64.getMaxCompressedDataSize, CompressionCodecT64.MAX_COMPRESSED_BLOCK_SIZE, CompressionCodecT64.HEADER_SIZE.
    rewrite wrap_id by (unfold uint; lia). f_equal. lia.
  - lia.
Qed.

Lemma link_DoubleDelta N d w e : width w -> N <= MAX_BITS -> ChainLink (get (S d)) N (CompressionCodecDoubleDelta.codec (Z.of_nat w) e).
Proof using Type.
  intros Hw HN. unfold MAX_BITS in HN. pose proof (width_bound w Hw) as Hwb.
  set (ib := CompressionCodecDoubleDelta.max_item_bits w).
  pose proof (CompressionCodecDoubleDelta.max_item_bits_pos w) as Hib. fold ib in Hib.
  assert (forall n, 0 <= n <= N -> 0 <= n / Z.of_nat w * ib <= 2500000000) as Hov.
  { intros n Hn. subst ib. destruct Hw as [->|[->|[->| ->]]]; cbn [CompressionCodecDoubleDelta.max_item_bits Nat.eqb]; dlia. }
  apply (make_link d N _ (CompressionCodecDoubleDelta.codec 1 CORRUPTED_DATA) CompressionCodecDoubleDelta.dom DoubleDelta
    (fun n => 2 + Z.of_nat w + (4 + Z.of_nat w + Z.of_nat w) + (n / Z.of_nat w * ib + 7) / 8)); try done;
    unfold DBMS_MAX_COMPRESSED_SIZE, COMPRESSED_BLOCK_HEADER_SIZE.
  - eexists _, _. split; [by apply (list_elem_of_lookup_2 _ 7)|done].
  - by apply CompressionCodecDoubleDelta.dd_pair.
  - intros src [? ?]. split; [done|lia].
  - intros n Hn. specialize (Hov n Hn). split; [|dlia].
    cbn [Codec.getMaxCompressedDataSize CompressionCodecDoubleDelta.codec].
    unfold CompressionCodecDoubleDelta.getMaxCompressedDataSize, CompressionCodecDoubleDelta.getCompressedHeaderSize.
    rewrite CompressionCodecDoubleDelta.getCompressedDataSize_ok by done. run. fold ib.
    rewrite (wrap_id 32 (_ + 7)) by (unfold uint; lia). rewrite wrap_id by (unfold uint; dlia). done.
  - intros a b Hab Hb. assert (a / Z.of_nat w * ib <= b / Z.of_nat w * ib).
    { apply Z.mul_le_mono_nonneg_r; [lia|]. apply Z.div_le_mono; lia. } dlia.
Qed.

Lemma link_Gorilla N d w e : width w -> CompressionCodecGorilla.static_ok st w ->
  N <= MAX_BITS -> ChainLink (get (S d)) N (CompressionCodecGorilla.codec st (Z.of_nat w) e).
Proof using Type.
  intros Hw Hst HN. unfold MAX_BITS in HN. pose proof (width_bound w Hw) as Hwb.
  apply (make_link d N _ (CompressionCodecGorilla.codec st 1 CORRUPTED_DATA) CompressionCodecGorilla.dom Gorilla
    (CompressionCodecGorilla.getMaxCompressedDataSize st (Z.of_nat w))); try done;
    unfold DBMS_MAX_COMPRESSED_SIZE, COMPRESSED_BLOCK_HEADER_SIZE.
  - eexists _, _. split; [by apply (list_elem_of_lookup_2 _ 8)|done].
  - by apply CompressionCodecGorilla.gorilla_pair.
  - intros src [? ?]. split; [done|lia].
  - intros n Hn. split; [done|]. split; [apply (wrap_uint 32); lia|].
    rewrite CompressionCodecGorilla.gorilla_max_eq by (done || lia). 
    destruct (CompressionCodecGorilla.gorilla_items st w n Hw Hst ltac:(lia)) as (_ & _ & _ & Hov). dlia.
  - intros a b Hab Hb. rewrite !CompressionCodecGorilla.gorilla_max_eq by (done || lia).
    set (ib := CompressionCodecGorilla.max_item_bits _ w).
    destruct (CompressionCodecGorilla.gorilla_items st w a Hw Hst ltac:(lia)) as (H4 & _).
    assert (0 <= ib) by (subst ib; unfold CompressionCodecGorilla.max_item_bits, CompressionCodecGorilla.static_ok in *; lia).
    assert (a / Z.of_nat w * ib <= b / Z.of_nat w * ib).
    { apply Z.mul_le_mono_nonneg_r; [lia|]. apply Z.div_le_mono; lia. } dlia.
Qed.

Lemma link_FPC N d w level e :
  w = 4%nat \/ w = 8%nat -> 1 <= level <= CompressionCodecFPC.MAX_COMPRESSION_LEVEL ->
  N <= MAX_BLOCK -> ChainLink (get (S d)) N (CompressionCodecFPC.codec (Z.of_nat w) level e).
Proof using Type.
  intros Hw Hl HN. unfold MAX_BLOCK in HN. apply (make_link d N _ (CompressionCodecFPC.codec 4 12 CORRUPTED_DATA) CompressionCodecFPC.dom FPC
    (CompressionCodecFPC.getMaxCompressedDataSize (Z.of_nat w))); try done;
    unfold DBMS_MAX_COMPRESSED_SIZE, COMPRESSED_BLOCK_HEADER_SIZE.
  - eexists _, _. split; [by apply (list_elem_of_lookup_2 _ 11)|done].
  - by apply CompressionCodecFPC.fpc_pair.
  - intros src [? ?]. split; [done|lia].
  - intros n Hn. split; [done|].
    destruct (CompressionCodecFPC.fpc_max_size w n Hw ltac:(lia)) as [-> _].
    destruct (FPCOperationFacts.ceil_even w Hw n ltac:(lia)) as (H0 & H2 & Hk). cbn zeta in *.
    unfold FPCOperationFacts.need, CompressionCodecFPC.HEADER_SIZE.
    set (k := FPCOperation.ceilBytesToEvenValues w n) in *. destruct Hw as [->| ->]; dlia.
  - intros a b Hab Hb. destruct (CompressionCodecFPC.fpc_max_size w a Hw ltac:(lia)) as [-> _].
    destruct (CompressionCodecFPC.fpc_max_size w b Hw ltac:(lia)) as [-> _].
    unfold FPCOperationFacts.need, FPCOperation.ceilBytesToEvenValues.
    destruct Hw as [->| ->]; repeat case_match; dlia.
Qed.

Lemma link_GCD d w e :
  (forall a b, 0 <= a -> 0 <= b -> boost_gcd a b = Z.gcd a b) ->
  (forall d n, uint 64 d -> uint 64 n -> 1 < d -> libdivide d n = n / d) ->
  CompressionCodecGCD.width w -> ChainLink (get (S d)) MAX_SOURCE (CompressionCodecGCD.codec boost_gcd libdivide (Z.of_nat w) e).
Proof using Type.
  intros Hg Hd Hw. pose proof (CompressionCodecGCD.gcd_width_bound w Hw) as Hwb.
  apply (make_link d MAX_SOURCE _ (CompressionCodecGCD.codec boost_gcd libdivide 1 CORRUPTED_DATA) (CompressionCodecGCD.dom w) GCD
    (fun n => n + Z.of_nat w + 2)); try done; unfold MAX_SOURCE, DBMS_MAX_COMPRESSED_SIZE, COMPRESSED_BLOCK_HEADER_SIZE.
  - eexists _, _. split; [by apply (list_elem_of_lookup_2 _ 12)|done].
  - by apply CompressionCodecGCD.gcd_pair.
  - intros src [? ?]. split; [done|lia].
  - intros n Hn. split; [|lia]. cbn [Codec.getMaxCompressedDataSize CompressionCodecGCD.codec].
    unfold CompressionCodecGCD.getMaxCompressedDataSize. by rewrite wrap_id by (unfold uint; lia).
  - lia.
Qed.

(** The codecs of this development, with the parameters their builders accept. *)
Inductive modelled : ICompressionCodec -> Prop :=
| M_None e : modelled (CompressionCodecNone e)
| M_Delta w e : width w -> modelled (CompressionCodecDelta.codec (Z.of_nat w) e)
| M_DoubleDelta w e : width w -> modelled (CompressionCodecDoubleDelta.codec (Z.of_nat w) e)
| M_Gorilla w e : width w -> CompressionCodecGorilla.static_ok st w ->
    modelled (CompressionCodecGorilla.codec st (Z.of_nat w) e)
| M_T64 t v e : CompressionCodecT64.supported t -> modelled (CompressionCodecT64.codec (Some t) v e)
| M_FPC w level e : w = 4%nat \/ w = 8%nat -> 1 <= level <= CompressionCodecFPC.MAX_COMPRESSION_LEVEL ->
    modelled (CompressionCodecFPC.codec (Z.of_nat w) level e).

(** The largest source for which a codec is shown to restore it. *)
Definition source_limit (method : Z) : Z :=
  if (method =? methodByte DoubleDelta) || (method =? methodByte Gorilla) then MAX_BITS else MAX_BLOCK.

Lemma modelled_link_limit N d c : modelled c -> N <= source_limit (getMethodByte c) -> ChainLink (get (S d)) N c.
Proof using Type.
  intros [] HN; auto using link_None, link_Delta, link_DoubleDelta, link_Gorilla, link_T64, link_FPC.
Qed.

Lemma modelled_link d c : modelled c -> ChainLink (get (S d)) MAX_SOURCE c.
Proof using Type. intros Hm. apply modelled_link_limit; [done|]. by destruct Hm. Qed.

Lemma get_multiple d : get (S d) (methodByte Multiple) = Ok (CompressionCodecMultiple.codec (get d) CORRUPTED_DATA []).
Proof using Type.
  rewrite (get_registered d "Multiple" (methodByte Multiple) (simple_creator (Ok (CompressionCodecMultiple.codec (get d) CORRUPTED_DATA [])))); [done|].
  by apply (list_elem_of_lookup_2 _ 4).
Qed.

(** A block written by a chain of modelled codecs is read by the codec its
    first byte finds in the factory. *)
Lemma chain_read_back d codecs src e :
  (0 < length codecs <= 255)%nat -> Forall (ChainLink (get (S d)) MAX_SOURCE) codecs ->
  multiple_dom MAX_SOURCE codecs src ->
  exists blk dec, compress (CompressionCodecMultiple.codec (get (S d)) e codecs) src = Ok (blk, blen blk) /\
    readMethod blk = Ok (methodByte Multiple) /\ get (S (S d)) (methodByte Multiple) = Ok dec /\
    decompress dec blk = Ok (src, blen src).
Proof using Type.
  intros Hk Hl Hd. assert (MAX_SOURCE < ONE_GIB - 1024) as HN by done.
  pose proof (multiple_pair (get (S d)) MAX_SOURCE HN codecs [] CORRUPTED_DATA e Hk Hl) as Hp.
  pose proof Hd as [[Hok Hlen] _].
  assert (0 < blen src < 2 ^ 32) as Hsz by (unfold MAX_SOURCE in Hlen; lia).
  destruct (block_roundtrip _ _ _ src Hd Hsz) as (blk & res & Hc & _ & _ & _ & _ & Hdec).
  { intros m Hm. destruct (multiple_roundtrip _ _ HN _ _ Hk Hl Hd) as (out & m' & _ & _ & Hm' & _).
    cbn [Codec.getMaxCompressedDataSize CompressionCodecMultiple.codec] in Hm. 
    destruct Hd as [Hb Hw]. destruct (chain_roundtrip _ _ HN codecs src (blen src) Hl Hb ltac:(lia) Hw)
      as (data & mk & _ & _ & Hr & Hmk & _).
    unfold getMaxCompressedDataSize in Hm. rewrite Hr in Hm. cbn in Hm. injection Hm as <-.
    unfold MAX_SOURCE, DBMS_MAX_COMPRESSED_SIZE, COMPRESSED_BLOCK_HEADER_SIZE in *. rewrite wrap_id; unfold uint; lia. }
  exists blk, (CompressionCodecMultiple.codec (get (S d)) CORRUPTED_DATA []).
  apply decompress_sound in Hdec as Hs. destruct Hs as (Hm & _ & _).
  split; [exact Hc|]. split; [exact Hm|]. split; [apply get_multiple|exact Hdec].
Qed.
End Registered.

(** ** What the sanity check accepts *)
Lemma first_pos_spec {A} (p : A -> bool) l n :
  first_pos p l = Some n -> exists pre x post, l = pre ++ x :: post /\ length pre = n /\ p x = true /\ Forall (fun y => p y = false) pre.
Proof.
  revert n; induction l as [|y l IH]; intros n E; cbn in E; [done|]. destruct (p y) eqn:Ey.
  - simplify_eq. exists [], y, l. auto.
  - destruct (first_pos p l) as [m|] eqn:Em; [|done]. cbn in E. simplify_eq.
    destruct (IH m eq_refl) as (pre & x & post & -> & <- & Hx & Hpre). exists (y :: pre), x, post. auto.
Qed.

Lemma first_pos_None {A} (p : A -> bool) l : first_pos p l = None -> Forall (fun y => p y = false) l.
Proof.
  induction l as [|y l IH]; intros E; cbn in E; [constructor|]. destruct (p y) eqn:Ey; [done|].
  constructor; [done|]. apply IH. by destruct (first_pos p l).
Qed.

Lemma filter_none {A} (P : A -> Prop) `{!forall x, Decision (P x)} l : Forall (fun x => ~ P x) l -> filter P l = [].
Proof. induction 1 as [|x l Hx Hl IH]; [done|]. by rewrite filter_cons_False. Qed.

Lemma filter_full {A} (P : A -> Prop) `{!forall x, Decision (P x)} l :
  (length l <= length (filter P l))%nat -> Forall P l.
Proof.
  induction l as [|x l IH]; [constructor|]. intros Hle. destruct (decide (P x)) as [Hx|Hx].
  - rewrite filter_cons_True in Hle by done. cbn in Hle. constructor; [done|]. apply IH. lia.
  - rewrite filter_cons_False in Hle by done. pose proof (length_filter P l). cbn in Hle. lia.
Qed.

(** The ciphers, if any, are at the end. *)
Lemma encryption_suffix codecs :
  match first_pos isEncryption codecs with
  | None => true
  | Some p => Nat.eqb p (length codecs - length (filter (fun c => isEncryption c = true) codecs))
  end = true ->
  exists pre ciphers, codecs = pre ++ ciphers /\ Forall (fun c => isEncryption c = false) pre /\
    Forall (fun c => isEncryption c = true) ciphers /\
    length ciphers = length (filter (fun c => isEncryption c = true) codecs).
Proof.
  destruct (first_pos isEncryption codecs) as [p|] eqn:E; cycle 1.
  { intros _. apply first_pos_None in E. exists codecs, []. rewrite app_nil_r.
    rewrite filter_none; [auto|]. eapply Forall_impl; [exact E|]. by intros c ->. }
  apply first_pos_spec in E as (pre & x & post & -> & <- & Hx & Hpre). intros Hp%Nat.eqb_eq.
  exists pre, (x :: post). rewrite filter_app in *.
  rewrite (filter_none _ pre) in * by (eapply Forall_impl; [exact Hpre|]; by intros c ->). cbn [app] in *.
  rewrite length_app in Hp. cbn [length] in Hp.
  pose proof (length_filter (fun c => isEncryption c = true) (x :: post)) as Hlf. cbn [length] in Hlf.
  split; [done|]. split; [done|]. assert (Forall (fun c => isEncryption c = true) (x :: post)) as Hall.
  { refine (filter_full (fun c => isEncryption c = true) (x :: post) _). cbn [length]. rewrite filter_cons_True in * by done. cbn [length] in *. lia. }
  split; [done|]. rewrite filter_cons_True in * by done. cbn [length] in *. lia.
Qed.

Lemma filter_suffix {A} (P : A -> Prop) `{!forall x, Decision (P x)} (pre ciphers : list A) :
  Forall (fun x => ~ P x) pre -> Forall P ciphers -> length (filter P (pre ++ ciphers)) = length ciphers.
Proof.
  intros Hpre Hc. rewrite filter_app, filter_none by done. cbn.
  induction Hc as [|x l Hx Hl IH]; [done|]. rewrite filter_cons_True by done. cbn. lia.
Qed.

(** A generic compressor sits just before the ciphers, and is the only one. *)
Lemma generic_position codecs pre ciphers :
  codecs = pre ++ ciphers -> Forall (fun c => isEncryption c = true -> isGenericCompression c = false) codecs ->
  Forall (fun c => isEncryption c = true) ciphers ->
  match first_pos isGenericCompression codecs with
  | None => true
  | Some p => Z.of_nat p =? Z.of_nat (length codecs) - 1 - Z.of_nat (length ciphers)
  end = true ->
  exists pre' generic, pre = pre' ++ generic /\ (length generic <= 1)%nat /\
    Forall (fun c => isGenericCompression c = true) generic /\ Forall (fun c => isGenericCompression c = false) pre'.
Proof.
  intros -> Hnot Hc. destruct (first_pos isGenericCompression (pre ++ ciphers)) as [p|] eqn:E; cycle 1.
  { intros _. apply first_pos_None, Forall_app in E as [E _]. exists pre, []. rewrite app_nil_r.
    split; [done|]. split; [cbn; lia|]. split; [constructor|done]. }
  apply first_pos_spec in E as (a & x & b & E & <- & Hx & Ha). intros Hp%Z.eqb_eq.
  assert (length b = length ciphers) as Hlen by (apply (f_equal length) in E; rewrite !length_app in *; cbn in E; lia).
  assert (pre = a ++ [x] /\ ciphers = b) as [-> ->].
  { replace (a ++ x :: b) with ((a ++ [x]) ++ b) in E by (by rewrite <- app_assoc). by apply app_inj_2 in E. }
  exists a, [x]. split; [done|]. split; [cbn; lia|]. split; [by constructor|done].
Qed.

Lemma sanity_check_accepts codecs fl :
  sanity_check codecs fl = Ok tt -> Forall (fun c => isEncryption c = true -> isGenericCompression c = false) codecs ->
  exists transforms generic ciphers, codecs = transforms ++ generic ++ ciphers /\ (length generic <= 1)%nat /\
    Forall (fun c => isGenericCompression c = true) generic /\
    Forall (fun c => isGenericCompression c = false /\ isEncryption c = false) transforms /\
    Forall (fun c => isEncryption c = true) ciphers /\
    ((1 < length codecs)%nat -> Forall (fun c => isNone c = false) codecs).
Proof.
  intros H Hnot. unfold sanity_check in H. cbn zeta in H.
  apply bind_Ok_inv in H as (? & Hg1 & H). apply bind_Ok_inv in H as (? & Hg2 & H).
  apply bind_Ok_inv in H as (? & Hg3 & H). apply bind_Ok_inv in H as (? & Hg4 & H).
  apply bind_Ok_inv in H as (? & Hg5 & H).
  assert (forall b e u, require b e = Ok u -> b = true) as Hreq by (by intros [] ? ?).
  apply Hreq in Hg1, Hg3, H.
  destruct (encryption_suffix codecs Hg3) as (pre & ciphers & E & Hpre & Hc & Hlc). rewrite <- Hlc in H.
  destruct (generic_position codecs pre ciphers E Hnot Hc H) as (pre' & generic & -> & Hl & Hg & Hng).
  exists pre', generic, ciphers. rewrite app_assoc. split; [done|]. split; [done|]. split; [done|].
  apply Forall_app in Hpre as [Hpre _]. split; [by apply Forall_and|]. split; [done|].
  intros H1. apply negb_true_iff, andb_false_iff in Hg1 as [Hg1|Hg1]; [apply Nat.ltb_ge in Hg1; lia|].
  apply Forall_forall. intros c Hin. apply not_true_is_false. intros Ht.
  apply not_true_iff_false in Hg1. apply Hg1, existsb_exists. exists c. by rewrite <- list_elem_of_In.
Qed.
End CompressionCodecFactory.
