(* ===== verification/Buffers.v ===== *)
(** * Read and write buffers

    [ReadBuffer] ([src/IO/ReadBuffer.h], [.cpp]) and [WriteBuffer]
    ([src/IO/WriteBuffer.h], [.cpp]): a window of memory in front of a
    virtual [nextImpl].  The derived class is a type [S] of states with its
    [nextImpl]; the classes [ReadSource] and [WriteSink] state what a derived
    class promises, and the theorems about [read], [eof], [readStrict],
    [write], [next] and [finalize] are proved against them. *)

From stdpp Require Import prelude.
From Stdlib Require Import ZArith Lia.
From S2P Require Import Prelude.

(** ** Reading *)
Module ReadBuffer.

(** What a derived class defines: [nextImpl], whose [None] is the result
    [false] and whose [Some c] is [true] with [c] the new [working_buffer];
    and a bound on the number of buffers still to come. *)
Class Impl (S : Type) := {
  nextImpl : S -> outcome (option bytes * S);
  rank : S -> nat
}.

Record t (S : Type) := Make {
  working_buffer : bytes;
  pos : nat;
  bytes_before : Z;     (* the member [bytes] *)
  impl : S
}.
Arguments Make {S}.
Arguments working_buffer {S}.
Arguments pos {S}.
Arguments bytes_before {S}.
Arguments impl {S}.

Section Operations.
Context {S : Type} `{!Impl S}.
Implicit Types b : t S.

Definition available b : nat := length (working_buffer b) - pos b.
Definition hasPendingData b : bool := Nat.ltb 0 (available b).
Definition pending b : bytes := drop (pos b) (working_buffer b).
Definition count b : Z := bytes_before b + Z.of_nat (pos b).

(** [position() += n] and [position() -= n], which must stay in the buffer. *)
Definition advance (n : nat) b : outcome (t S) :=
  _ ← defined (Nat.leb (pos b + n) (length (working_buffer b)));
  Ok (Make (working_buffer b) (pos b + n) (bytes_before b) (impl b)).

Definition retreat (n : nat) b : outcome (t S) :=
  _ ← defined (Nat.leb n (pos b));
  Ok (Make (working_buffer b) (pos b - n) (bytes_before b) (impl b)).

(** [next]: an empty buffer is skipped, so the call repeats; a read that
    failed on the file descriptor counts as the end of the data.  [fuel] is
    the number of calls of [nextImpl]. *)
Fixpoint next_fuel (fuel : nat) b : outcome (bool * t S) :=
  match fuel with
  | O => Undef
  | Datatypes.S fuel =>
      let bytes_before' := bytes_before b + Z.of_nat (pos b) in
      match nextImpl (impl b) with
      | Throw CANNOT_READ_FROM_FILE_DESCRIPTOR =>
          Ok (false, Make (working_buffer b) (pos b) bytes_before' (impl b))
      | Throw e => Throw e
      | Undef => Undef
      | Ok (None, s) => Ok (false, Make [] 0 bytes_before' s)
      | Ok (Some [], s) => next_fuel fuel (Make [] 0 bytes_before' s)
      | Ok (Some c, s) => Ok (true, Make c 0 bytes_before' s)
      end
  end.

Definition next b : outcome (bool * t S) := next_fuel (Datatypes.S (rank (impl b))) b.

Definition eof b : outcome (bool * t S) :=
  if hasPendingData b then Ok (false, b)
  else '(res, b) ← next b; Ok (negb res, b).

(** The loop of [read]: every iteration copies at least one byte. *)
Fixpoint read_fuel (fuel n : nat) b : outcome (bytes * t S) :=
  match fuel, n with
  | _, O => Ok ([], b)
  | O, _ => Undef
  | Datatypes.S fuel, _ =>
      '(at_end, b) ← eof b;
      if at_end : bool then Ok ([], b)
      else
        let bytes_to_copy := Nat.min (available b) n in
        let copied := take bytes_to_copy (pending b) in
        b ← advance bytes_to_copy b;
        '(rest, b) ← read_fuel fuel (n - bytes_to_copy) b;
        Ok (copied ++ rest, b)
  end.

(** [read(to, n)]: the bytes copied to [to] (their number is the result). *)
Definition read (n : nat) b : outcome (bytes * t S) := read_fuel n n b.

Definition readStrict (n : nat) b : outcome (bytes * t S) :=
  '(copied, b) ← read n b;
  _ ← require (Nat.eqb n (length copied)) CANNOT_READ_ALL_DATA;
  Ok (copied, b).

Fixpoint tryIgnore_fuel (fuel n : nat) b : outcome (nat * t S) :=
  match fuel, n with
  | _, O => Ok (O, b)
  | O, _ => Undef
  | Datatypes.S fuel, _ =>
      '(at_end, b) ← eof b;
      if at_end : bool then Ok (O, b)
      else
        let bytes_to_ignore := Nat.min (available b) n in
        b ← advance bytes_to_ignore b;
        '(rest, b) ← tryIgnore_fuel fuel (n - bytes_to_ignore) b;
        Ok ((bytes_to_ignore + rest)%nat, b)
  end.

Definition tryIgnore (n : nat) b : outcome (nat * t S) := tryIgnore_fuel n n b.

(** [ignore(n)]. *)
Definition ignore (n : nat) b : outcome (t S) :=
  '(ignored, b) ← tryIgnore n b;
  _ ← require (Nat.eqb n ignored) ATTEMPT_TO_READ_AFTER_EOF;
  Ok b.

(** [readStrict(char &)]. *)
Definition readChar b : outcome (Z * t S) :=
  '(at_end, b) ← eof b;
  _ ← require (negb at_end) ATTEMPT_TO_READ_AFTER_EOF;
  match pending b with
  | [] => Undef
  | c :: _ => b ← advance 1 b; Ok (c, b)
  end.
End Operations.

(** ** The contract of a source

    [delivers s d]: from state [s], repeated calls of [nextImpl] deliver the
    bytes [d], then report the end. *)
Class Source (S : Type) `{!Impl S} := {
  delivers : S -> bytes -> Prop;
  delivers_step : forall s d, delivers s d ->
    (d = [] /\ exists s', nextImpl s = Ok (None, s') /\ delivers s' []) \/
    (exists c d' s', nextImpl s = Ok (Some c, s') /\ d = c ++ d' /\ delivers s' d' /\ (rank s' < rank s)%nat)
}.

Section Facts.
Context {S : Type} `{!Impl S, !Source S}.
Implicit Types b : t S.

(** [holds b d]: reading from [b] yields [d], whatever the sizes of the
    buffers [nextImpl] fills. *)
Definition holds b (d : bytes) : Prop :=
  (pos b <= length (working_buffer b))%nat /\
  exists d', d = pending b ++ d' /\ delivers (impl b) d'.

Lemma length_pending b : length (pending b) = available b.
Proof using Type. unfold pending, available. by rewrite length_drop. Qed.

Lemma next_fuel_spec : forall fuel b d, (rank (impl b) < fuel)%nat -> delivers (impl b) d ->
  (d = [] /\ exists b', next_fuel fuel b = Ok (false, b') /\ holds b' [] /\ available b' = 0%nat) \/
  (d <> [] /\ exists b', next_fuel fuel b = Ok (true, b') /\ holds b' d /\ (0 < available b')%nat).
Proof using Type.
  induction fuel as [|fuel IH]; intros b d Hf Hd; [lia|]. cbn [next_fuel].
  destruct (delivers_step _ _ Hd) as [[-> (s' & -> & Hs)]|(c & d' & s' & -> & -> & Hs & Hr)].
  - left. split; [done|]. eexists; split; [reflexivity|]. split; [|done]. split; [done|]. by exists [].
  - destruct c as [|x c].
    + apply (IH (Make [] 0 (bytes_before b + Z.of_nat (pos b)) s') d'); [cbn; lia|done].
    + right. split; [done|]. eexists; split; [reflexivity|]. split; [|unfold available; cbn; lia].
      split; [cbn; lia|]. by exists d'.
Qed.

(** [eof] answers for the whole of the remaining data, and loads a buffer
    when there is some. *)
Lemma rbuf_eof_spec b d : holds b d ->
  exists b', eof b = Ok (bool_decide (d = []), b') /\ holds b' d /\ (d <> [] -> (0 < available b')%nat).
Proof using Type.
  intros (Hp & d' & -> & Hd). unfold eof, hasPendingData.
  destruct (Nat.ltb_spec 0 (available b)) as [Ha|Ha].
  - exists b. rewrite bool_decide_eq_false_2; [|rewrite <- length_pending in Ha; by destruct (pending b); [cbn in Ha; lia|]].
    split; [done|]. split; [|done]. split; [done|eauto].
  - assert (pending b = []) as -> by (apply nil_length_inv; rewrite length_pending; lia). cbn [app].
    unfold next. destruct (next_fuel_spec (Datatypes.S (rank (impl b))) b d') as [[-> (b' & -> & ? & ?)]|[Hne (b' & -> & ? & ?)]];
      [lia|done|..]; exists b'; run.
    + by rewrite bool_decide_eq_true_2.
    + by rewrite bool_decide_eq_false_2.
Qed.

Lemma advance_spec b d n : holds b d -> (n <= available b)%nat ->
  exists b', advance n b = Ok b' /\ holds b' (drop n d) /\ take n (pending b) = take n d /\
    working_buffer b' = working_buffer b /\ pos b' = (pos b + n)%nat /\ impl b' = impl b.
Proof using Type.
  intros (Hp & d' & -> & Hd) Hn. unfold advance, available in *.
  rewrite bind_defined by (apply Nat.leb_le; lia). eexists; split; [reflexivity|]. split_and!; try done.
  - split; [cbn; lia|]. exists d'. split; [|done]. unfold pending. cbn.
    rewrite drop_app_le, drop_drop; [done|rewrite length_drop; lia].
  - rewrite take_app_le; [done|]. unfold pending. rewrite length_drop. lia.
Qed.

Lemma retreat_spec b d n : holds b d -> (n <= pos b)%nat ->
  exists b', retreat n b = Ok b' /\ holds b' (take n (drop (pos b - n) (working_buffer b)) ++ d) /\
    working_buffer b' = working_buffer b /\ pos b' = (pos b - n)%nat.
Proof using Type.
  intros (Hp & d' & -> & Hd) Hn. unfold retreat. rewrite bind_defined by (apply Nat.leb_le; lia).
  eexists; split; [reflexivity|]. split_and!; try done. split; [cbn; lia|]. exists d'. split; [|done].
  unfold pending. cbn. rewrite app_assoc. f_equal.
  rewrite <- (take_drop n (drop (pos b - n) (working_buffer b))) at 2. f_equal.
  rewrite drop_drop. f_equal. lia.
Qed.

Lemma read_fuel_spec : forall fuel n b d, (n <= fuel)%nat -> holds b d ->
  exists b', read_fuel fuel n b = Ok (take n d, b') /\ holds b' (drop n d).
Proof using Type.
  induction fuel as [|fuel IH]; intros [|n] b d Hf Hb; cbn [read_fuel]; try lia.
  1,2: (exists b; by rewrite take_0, drop_0).
  destruct (rbuf_eof_spec b d Hb) as (b1 & -> & Hb1 & Ha). run.
  destruct (bool_decide_reflect (d = [])) as [->|Hne].
  - exists b1. by rewrite take_nil, drop_nil.
  - specialize (Ha Hne). set (k := Nat.min (available b1) (Datatypes.S n)).
    assert (0 < k <= Datatypes.S n)%nat as Hk by lia.
    destruct (advance_spec b1 d k Hb1 ltac:(lia)) as (b2 & -> & Hb2 & Htake & _). run.
    destruct (IH (Datatypes.S n - k)%nat b2 (drop k d) ltac:(lia) Hb2) as (b3 & -> & Hb3). run.
    exists b3. rewrite Htake. rewrite drop_drop in Hb3. replace (k + (Datatypes.S n - k))%nat with (Datatypes.S n) in Hb3 by lia.
    split; [|done]. do 2 f_equal. rewrite take_take_drop. f_equal. lia.
Qed.

Lemma read_spec n b d : holds b d ->
  exists b', read n b = Ok (take n d, b') /\ holds b' (drop n d).
Proof using Type. by apply read_fuel_spec. Qed.

(** A read that the working buffer can serve touches nothing else. *)
Lemma read_within n b d : holds b d -> (n <= available b)%nat ->
  exists b', read n b = Ok (take n d, b') /\ holds b' (drop n d) /\ available b' = (available b - n)%nat /\
    Nat.min n (length d) = n.
Proof using Type.
  intros Hb Hn. pose proof Hb as (Hp & d' & E & _). assert (n <= length d)%nat as Hl.
  { rewrite E, length_app, length_pending. lia. }
  unfold read. destruct n as [|n].
  - exists b. rewrite take_0, drop_0. split_and!; try done; lia.
  - cbn [read_fuel]. unfold eof, hasPendingData. rewrite (proj2 (Nat.ltb_lt 0 (available b))) by lia. run.
    replace (Nat.min (available b) (Datatypes.S n)) with (Datatypes.S n) by lia.
    destruct (advance_spec b d (Datatypes.S n) Hb Hn) as (b' & -> & Hb' & Ht & Hw & Hpos & _). run.
    rewrite Nat.sub_diag. destruct n; cbn [read_fuel]; run; rewrite Ht, app_nil_r; exists b';
      (split; [done|]; split; [done|]; unfold available in *; rewrite Hw, Hpos; lia).
Qed.

Lemma readStrict_spec n b d : holds b d ->
  ((n <= length d)%nat -> exists b', readStrict n b = Ok (take n d, b') /\ holds b' (drop n d)) /\
  ((length d < n)%nat -> readStrict n b = Throw CANNOT_READ_ALL_DATA).
Proof using Type.
  intros Hb. unfold readStrict. destruct (read_spec n b d Hb) as (b' & -> & Hb'). run. rewrite length_take. split; intros Hn.
  - rewrite bind_require by (apply Nat.eqb_eq; lia). eauto.
  - replace (Nat.eqb n (Nat.min n (length d))) with false by (symmetry; apply Nat.eqb_neq; lia). done.
Qed.

Lemma tryIgnore_spec : forall fuel n b d, (n <= fuel)%nat -> holds b d ->
  exists b', tryIgnore_fuel fuel n b = Ok (Nat.min n (length d), b') /\ holds b' (drop n d).
Proof using Type.
  induction fuel as [|fuel IH]; intros [|n] b d Hf Hb; cbn [tryIgnore_fuel]; try lia.
  1,2: (exists b; by rewrite drop_0).
  destruct (rbuf_eof_spec b d Hb) as (b1 & -> & Hb1 & Ha). run.
  destruct (bool_decide_reflect (d = [])) as [->|Hne].
  - exists b1. by rewrite drop_nil.
  - specialize (Ha Hne). set (k := Nat.min (available b1) (Datatypes.S n)).
    assert (0 < k <= Datatypes.S n)%nat as Hk by lia.
    destruct (advance_spec b1 d k Hb1 ltac:(lia)) as (b2 & -> & Hb2 & Htake & _). run.
    destruct (IH (Datatypes.S n - k)%nat b2 (drop k d) ltac:(lia) Hb2) as (b3 & -> & Hb3). run.
    exists b3. rewrite drop_drop in Hb3. replace (k + (Datatypes.S n - k))%nat with (Datatypes.S n) in Hb3 by lia.
    split; [|done]. do 2 f_equal. rewrite length_drop.
    assert (k <= length d)%nat; [|clearbody k; lia].
    apply (f_equal length) in Htake. rewrite !length_take, length_pending in Htake. lia.
Qed.

Lemma ignore_spec n b d : holds b d ->
  ((n <= length d)%nat -> exists b', ignore n b = Ok b' /\ holds b' (drop n d)) /\
  ((length d < n)%nat -> ignore n b = Throw ATTEMPT_TO_READ_AFTER_EOF).
Proof using Type.
  intros Hb. unfold ignore, tryIgnore. destruct (tryIgnore_spec n n b d ltac:(lia) Hb) as (b' & -> & Hb'). run. split; intros Hn.
  - rewrite bind_require by (apply Nat.eqb_eq; lia). eauto.
  - replace (Nat.eqb n (Nat.min n (length d))) with false by (symmetry; apply Nat.eqb_neq; lia). done.
Qed.

Lemma readChar_spec b d : holds b d ->
  match d with
  | [] => readChar b = Throw ATTEMPT_TO_READ_AFTER_EOF
  | c :: d => exists b', readChar b = Ok (c, b') /\ holds b' d
  end.
Proof using Type.
  intros Hb. unfold readChar. destruct (rbuf_eof_spec b d Hb) as (b1 & -> & Hb1 & Ha). run. destruct d as [|c d]; [done|].
  rewrite bool_decide_eq_false_2 by done. run. specialize (Ha ltac:(done)).
  destruct (advance_spec b1 (c :: d) 1 Hb1 ltac:(lia)) as (b2 & E & Hb2 & Ht & _).
  rewrite <- length_pending in Ha. destruct (pending b1) as [|x p]; [cbn in Ha; lia|].
  cbn in Ht. injection Ht as ->. rewrite E. run. by exists b2.
Qed.
End Facts.

(** ** A source that is a list of buffers

    The buffers a file, a socket or a decompressor will deliver, in any
    division. *)
#[global] Instance chunks_impl : Impl (list bytes) := {
  nextImpl := fun s => match s with [] => Ok (None, []) | c :: s => Ok (Some c, s) end;
  rank := length
}.

#[global] Instance chunks_source : Source (list bytes).
Proof.
  refine {| delivers := fun s d => d = concat s |}.
  intros [|c s] d ->.
  - left. split; [done|]. by exists [].
  - right. exists c, (concat s), s. cbn. auto.
Defined.

Definition of_chunks (s : list bytes) : t (list bytes) := Make [] 0 0 s.

Lemma holds_of_chunks s : holds (of_chunks s) (concat s).
Proof. split; [done|]. by exists (concat s). Qed.
End ReadBuffer.

(** ** Writing *)
Module WriteBuffer.

(** A derived class: [nextImpl capacity content s] receives the bytes between
    the beginning of the working buffer and the cursor, and answers the size
    of the next working buffer; when it throws, the state it leaves behind is
    still there.  [finalizeImpl] is the assignments [beforeFinalize] followed by
    [next()], or nothing at all; [cancelImpl]. *)
Class Impl (S : Type) := {
  nextImpl : nat -> bytes -> S -> outcome nat * S;
  beforeFinalize : option (S -> S);
  cancelImpl : S -> S
}.

(** [content] are the bytes of the working buffer before the cursor. *)
Record t (S : Type) := Make {
  capacity : nat;
  content : bytes;
  bytes_before : Z;     (* the member [bytes] *)
  flush_count : Z;
  finalized : bool;
  canceled : bool;
  impl : S
}.
Arguments Make {S}.
Arguments capacity {S}.
Arguments content {S}.
Arguments bytes_before {S}.
Arguments flush_count {S}.
Arguments finalized {S}.
Arguments canceled {S}.
Arguments impl {S}.

Section Operations.
Context {S : Type} `{!Impl S}.
Implicit Types b : t S.

Definition available b : nat := capacity b - length (content b).
Definition hasPendingData b : bool := Nat.ltb 0 (available b).
Definition count b : Z := bytes_before b + blen (content b).

Definition cancel b : t S :=
  if canceled b || finalized b then b
  else Make (capacity b) (content b) (bytes_before b) (flush_count b) (finalized b) true (cancelImpl (impl b)).

(** [next]: after an exception the cursor is back at the beginning, and the
    buffer is canceled unless the exception is [CurrentBufferExhausted], which
    says that this buffer takes no more and another one may. *)
Definition next b : outcome unit * t S :=
  if canceled b then (Ok tt, b)
  else match content b with
  | [] => (Ok tt, b)
  | _ :: _ =>
      let bytes_before' := bytes_before b + blen (content b) in
      match nextImpl (capacity b) (content b) (impl b) with
      | (Ok capacity', s) =>
          (Ok tt, Make capacity' [] bytes_before' (flush_count b + 1) (finalized b) (canceled b) s)
      | (Throw CURRENT_BUFFER_EXHAUSTED, s) =>
          (Throw CURRENT_BUFFER_EXHAUSTED, Make (capacity b) [] bytes_before' (flush_count b) (finalized b) (canceled b) s)
      | (Throw e, s) =>
          (Throw e, cancel (Make (capacity b) [] bytes_before' (flush_count b) (finalized b) (canceled b) s))
      | (Undef, s) => (Undef, Make (capacity b) (content b) (bytes_before b) (flush_count b) (finalized b) (canceled b) s)
      end
  end.

Definition nextIfAtEnd b : outcome unit * t S :=
  if hasPendingData b then (Ok tt, b) else next b.

(** [memcpy(pos, from, n); pos += n]. *)
Definition put (data : bytes) b : t S :=
  Make (capacity b) (content b ++ data) (bytes_before b) (flush_count b) (finalized b) (canceled b) (impl b).

(** The loop of [write(from, n)]; it does not end when the working buffer is
    empty, which the source asserts. *)
Fixpoint write_fuel (fuel : nat) (from : bytes) b : outcome unit * t S :=
  match fuel, from with
  | _, [] => (Ok tt, b)
  | O, _ => (Undef, b)
  | Datatypes.S fuel, _ =>
      match nextIfAtEnd b with
      | (Ok _, b) =>
          let bytes_to_copy := Nat.min (available b) (length from) in
          write_fuel fuel (drop bytes_to_copy from) (put (take bytes_to_copy from) b)
      | (r, b) => (r, b)
      end
  end.

Definition write (from : bytes) b : outcome unit * t S :=
  if finalized b then (Throw LOGICAL_ERROR, b)
  else if canceled b then (Throw CANNOT_WRITE_AFTER_BUFFER_CANCELED, b)
  else write_fuel (length from) from b.

(** [write(char)]. *)
Definition writeChar (x : Z) b : outcome unit * t S :=
  if finalized b then (Throw LOGICAL_ERROR, b)
  else if canceled b then (Throw LOGICAL_ERROR, b)
  else match nextIfAtEnd b with
       | (Ok _, b) => if hasPendingData b then (Ok tt, put [x] b) else (Undef, b)
       | (r, b) => (r, b)
       end.

Definition finalizeImpl b : outcome unit * t S :=
  match beforeFinalize with
  | None => (Ok tt, b)
  | Some f =>
      next (Make (capacity b) (content b) (bytes_before b) (flush_count b) (finalized b) (canceled b) (f (impl b)))
  end.

Definition finalize b : outcome unit * t S :=
  if finalized b then (Ok tt, b)
  else if canceled b then (Throw LOGICAL_ERROR, b)
  else match finalizeImpl b with
       | (Ok _, b) => (Ok tt, Make (capacity b) (content b) (bytes_before b) (flush_count b) true (canceled b) (impl b))
       | (Throw e, b) =>
           (Throw e, cancel (Make (capacity b) [] (bytes_before b) (flush_count b) (finalized b) (canceled b) (impl b)))
       | (Undef, b) => (Undef, b)
       end.
End Operations.

(** ** The contract of a sink

    [accepts cap s d]: [s], with a working buffer of [cap] bytes, has taken the
    bytes [d] and is able to take more. *)
Class Sink (S : Type) `{!Impl S} := {
  accepts : nat -> S -> bytes -> Prop;
  accepts_room : forall cap s d, accepts cap s d -> (0 < cap)%nat;
  accepts_next : forall cap s d c, accepts cap s d -> c <> [] -> (length c <= cap)%nat -> bytes_ok c ->
    exists cap' s', nextImpl cap c s = (Ok cap', s') /\ accepts cap' s' (d ++ c);
  accepts_final : forall cap s d f, accepts cap s d -> beforeFinalize = Some f -> accepts cap (f s) d
}.

Section Facts.
Context {S : Type} `{!Impl S, !Sink S}.
Implicit Types b : t S.

(** [took b d]: [b] is open and [d] has been written to it. *)
Definition took b (d : bytes) : Prop :=
  finalized b = false /\ canceled b = false /\ bytes_ok (content b) /\ (length (content b) <= capacity b)%nat /\
  exists d', d = d' ++ content b /\ accepts (capacity b) (impl b) d'.

Lemma next_spec b d : took b d ->
  exists b', next b = (Ok tt, b') /\ took b' d /\ content b' = [].
Proof using Type.
  intros (Hf & Hc & Hok & Hl & d' & -> & Ha). unfold next. rewrite Hc. destruct (content b) as [|x c] eqn:E.
  - exists b. split; [done|]. split; [|done]. split_and!; try done; rewrite ?E; [done|cbn; lia|eauto].
  - destruct (accepts_next _ _ _ (x :: c) Ha) as (cap' & s' & -> & Ha'); [done|done|done|].
    eexists; split; [reflexivity|]. split; [|done].
    split_and!; cbn; try done; [lia|]. exists (d' ++ x :: c). by rewrite app_nil_r.
Qed.

Lemma nextIfAtEnd_spec b d : took b d ->
  exists b', nextIfAtEnd b = (Ok tt, b') /\ took b' d /\ (0 < available b')%nat.
Proof using Type.
  intros Hb. unfold nextIfAtEnd, hasPendingData. destruct (Nat.ltb_spec 0 (available b)); [by exists b|].
  destruct (next_spec b d Hb) as (b' & -> & Hb' & Hc). exists b'. split; [done|]. split; [done|].
  destruct Hb' as (_ & _ & _ & _ & d' & _ & Ha). apply accepts_room in Ha. unfold available. rewrite Hc. cbn. lia.
Qed.

Lemma put_spec b d data : took b d -> bytes_ok data -> (length data <= available b)%nat -> took (put data b) (d ++ data).
Proof using Type.
  intros (Hf & Hc & Hok & Hl & d' & -> & Ha) Hd Hlen. unfold available in Hlen.
  split_and!; cbn; try done; [by apply Forall_app|rewrite length_app; lia|]. exists d'. by rewrite app_assoc.
Qed.

Lemma write_fuel_spec : forall fuel from b d, (length from <= fuel)%nat -> took b d -> bytes_ok from ->
  exists b', write_fuel fuel from b = (Ok tt, b') /\ took b' (d ++ from).
Proof using Type.
  induction fuel as [|fuel IH]; intros [|x from] b d Hf Hb Hok; cbn [write_fuel length] in *; try lia.
  1,2: (exists b; by rewrite app_nil_r).
  destruct (nextIfAtEnd_spec b d Hb) as (b1 & -> & Hb1 & Ha).
  set (k := Nat.min (available b1) (Datatypes.S (length from))). assert (0 < k)%nat as Hk by lia.
  destruct (IH (drop k (x :: from)) (put (take k (x :: from)) b1) (d ++ take k (x :: from))) as (b2 & -> & Hb2).
  - rewrite length_drop. cbn [length]. lia.
  - apply put_spec; [done|by apply Forall_take|]. rewrite length_take. lia.
  - by apply Forall_drop.
  - exists b2. split; [done|]. by rewrite <- app_assoc, take_drop in Hb2.
Qed.

(** Whatever is written is taken, in order, however it falls on the buffer. *)
Lemma write_spec from b d : took b d -> bytes_ok from ->
  exists b', write from b = (Ok tt, b') /\ took b' (d ++ from).
Proof using Type.
  intros Hb Hok. unfold write. pose proof Hb as (-> & -> & _). by apply write_fuel_spec.
Qed.

(** A write that fits in the working buffer only moves the cursor. *)
Lemma write_within from b : finalized b = false -> canceled b = false -> (length from <= available b)%nat ->
  write from b = (Ok tt, put from b).
Proof using Type.
  intros Hf Hc Hl. unfold write. rewrite Hf, Hc. destruct from as [|x from].
  - cbn. f_equal. unfold put. rewrite app_nil_r. by destruct b; cbn in *; subst.
  - cbn [length write_fuel] in *. unfold nextIfAtEnd, hasPendingData. rewrite (proj2 (Nat.ltb_lt 0 (available b))) by lia.
    replace (Nat.min (available b) (Datatypes.S (length from))) with (length (x :: from)) by (cbn; lia).
    rewrite firstn_all, drop_all. by destruct (length from).
Qed.

Lemma writeChar_spec x b d : took b d -> byte_ok x ->
  exists b', writeChar x b = (Ok tt, b') /\ took b' (d ++ [x]).
Proof using Type.
  intros Hb Hx. unfold writeChar. pose proof Hb as (-> & -> & _).
  destruct (nextIfAtEnd_spec b d Hb) as (b1 & -> & Hb1 & Ha). unfold hasPendingData.
  rewrite (proj2 (Nat.ltb_lt 0 (available b1)) Ha). eexists; split; [reflexivity|].
  apply put_spec; [done|by constructor|cbn; lia].
Qed.

Lemma finalize_spec b d : took b d ->
  exists b' d', finalize b = (Ok tt, b') /\ finalized b' = true /\ canceled b' = false /\
    d = d' ++ content b' /\ accepts (capacity b') (impl b') d' /\ bytes_ok (content b') /\
    (beforeFinalize (S := S) <> None -> content b' = []).
Proof using Type.
  intros Hb. unfold finalize, finalizeImpl. pose proof Hb as (-> & -> & Hok & Hl & d' & -> & Ha).
  destruct (beforeFinalize (S := S)) as [f|] eqn:Ef.
  - destruct (next_spec (Make (capacity b) (content b) (bytes_before b) (flush_count b) false false (f (impl b))) (d' ++ content b))
      as (b' & -> & (_ & Hc & Hok' & _ & d2 & E & Ha') & Hcont).
    { split_and!; try done. exists d'. split; [done|]. cbn. by apply accepts_final. }
    eexists _, d2. split; [reflexivity|]. cbn. by rewrite Hcont in *.
  - eexists _, d'. split; [reflexivity|]. cbn. pose proof Hb as (_ & -> & _). done.
Qed.
End Facts.

(** ** After a failure *)
Section Failure.
Context {S : Type} `{!Impl S}.
Implicit Types b : t S.

(** A failed flush leaves an empty, canceled buffer. *)
Lemma next_failed b b' e : finalized b = false -> next b = (Throw e, b') ->
  exists s, nextImpl (capacity b) (content b) (impl b) = (Throw e, s) /\
    b' = Make (capacity b) [] (count b) (flush_count b) false (bool_decide (e <> CURRENT_BUFFER_EXHAUSTED))
           (if decide (e = CURRENT_BUFFER_EXHAUSTED) then s else cancelImpl s).
Proof using Type.
  unfold next, cancel, count. intros Hf. destruct (canceled b) eqn:Hc; [done|]. destruct (content b) as [|x c]; [done|].
  destruct (nextImpl _ _ _) as [[|e'|] s]; [done| |done]. destruct e'; intros [= <- <-]; exists s; cbn; by rewrite Hf.
Qed.

(** Nothing more reaches the derived class of a canceled buffer. *)
Lemma canceled_inert b : canceled b = true -> finalized b = false ->
  next b = (Ok tt, b) /\ (forall from, write from b = (Throw CANNOT_WRITE_AFTER_BUFFER_CANCELED, b)) /\
  (forall x, writeChar x b = (Throw LOGICAL_ERROR, b)) /\
  finalize b = (Throw LOGICAL_ERROR, b).
Proof using Type. intros Hc Hf. unfold next, write, writeChar, finalize. by rewrite Hc, Hf. Qed.

(** An empty buffer that is open takes what fits without its derived class. *)
Lemma empty_open_takes b from : content b = [] -> canceled b = false -> finalized b = false -> (0 < capacity b)%nat ->
  (length from <= capacity b)%nat -> write from b = (Ok tt, if from then b else put from b).
Proof using Type.
  intros He Hc Hf Hcap Hl. unfold write. rewrite Hf, Hc. destruct from as [|x from]; [done|]. cbn [length write_fuel].
  unfold nextIfAtEnd, hasPendingData, available. rewrite He, Nat.sub_0_r. destruct (Nat.ltb_spec 0 (capacity b)); [|lia].
  rewrite He, Nat.sub_0_r, Nat.min_r by done. cbn [length]. rewrite take_ge, drop_ge by done. by destruct (length from).
Qed.
End Failure.

(** ** A buffer that grows in memory

    [BufferWithOutsideMemory] ([src/IO/BufferWithOwnMemory.h]): [nextImpl]
    doubles the memory and continues behind what has been written;
    [finalizeImpl] does nothing. *)
#[global] Instance memory_impl : Impl bytes := {
  nextImpl := fun _ c memory =>
    let prev_size := length (memory ++ c) in
    (Ok (2 * prev_size + 1 - prev_size)%nat, memory ++ c);
  beforeFinalize := None;
  cancelImpl := fun s => s
}.

#[global] Instance memory_sink : Sink bytes.
Proof.
  refine {| accepts := fun cap s d => (0 < cap)%nat /\ s = d |}.
  - by intros cap s d [? ?].
  - intros cap s d c [Hcap ->] Hne Hl _. eexists _, _. split; [reflexivity|]. split; [lia|done].
  - done.
Defined.

Definition of_memory (n : nat) : t bytes := Make n [] 0 0 false false [].

Lemma took_of_memory n : (0 < n)%nat -> took (of_memory n) [].
Proof. intros Hn. split_and!; try done; cbn; [lia|]. by exists []. Qed.

(** What the memory holds once the buffer is closed. *)
Definition memory_of (b : t bytes) : bytes := impl b ++ content b.
End WriteBuffer.
