(* ===== verification/CompressedStream.v ===== *)
(** * Compressed streams

    [CompressedWriteBuffer] cuts what is written to it into blocks, compresses
    each and puts a checksum in front; [CompressedReadBufferBase] finds the
    blocks again in whatever buffers the input arrives in, and
    [CompressedReadBuffer] presents their contents as a read buffer
    ([src/Compression/CompressedWriteBuffer.cpp],
    [CompressedReadBufferBase.cpp], [CompressedReadBuffer.cpp]).  The checksum
    function CityHash128 and the codec factory are arguments. *)

From stdpp Require Import prelude.
From Stdlib Require Import ZArith Lia.
From S2P Require Import Prelude Codec CodecMultiple Buffers.

(** [CityHash_v1_0_2::CityHash128]: the words [low64] and [high64]. *)
Class CityHash := CityHash128 : bytes -> Z * Z.
(** [CompressionCodecFactory::instance().get(byte_code)]. *)
Class Factory := get : Z -> outcome ICompressionCodec.

Abbreviation Checksum := (Z * Z)%type.
Definition sizeof_Checksum : nat := 16.
Definition header_size : nat := 9.
Definition size_header_plus_checksum : nat := sizeof_Checksum + header_size.

(** The two [readBinaryLittleEndian]. *)
Definition loadChecksum (b : bytes) : Checksum := (le_load (take 8 b), le_load (take 8 (drop 8 b))).
Definition storeChecksum (c : Checksum) : bytes := le_store 8 c.1 ++ le_store 8 c.2.

Section Checksums.
Context {HCity : CityHash}.

(** [flip_bit]. *)
Definition flip_bit (buf : bytes) (pos : nat) : bytes :=
  alter (fun b => Z.lxor b (Z.shiftl 1 (Z.of_nat (pos mod 8)%nat))) (pos / 8)%nat buf.

(** What the message of the exception says. *)
Inductive Reason : Set :=
| FlipInData (byte bit : nat)
| FlipInChecksum
| NoReason.

(** The loop over the bits of the copy: flip, compare, restore. *)
Fixpoint find_flip (expected : Checksum) (todo bit_pos : nat) (tmp_data : bytes) : option (nat * nat) :=
  match todo with
  | O => None
  | S todo =>
      let tmp_data := flip_bit tmp_data bit_pos in
      if decide (expected = CityHash128 tmp_data) then Some (bit_pos / 8, bit_pos mod 8)%nat
      else find_flip expected todo (S bit_pos) (flip_bit tmp_data bit_pos)
  end.

(** [std::popcount] of a 64 bit word. *)
Definition popcount (x : Z) : nat := length (filter (fun i => Z.testbit x (Z.of_nat i) = true) (seq 0 64)).

Definition mismatch_reason (data : bytes) (expected : Checksum) : Reason :=
  let calculated := CityHash128 data in
  match (if blen data <? 2 ^ 20 then find_flip expected (length data * 8) 0 data else None) with
  | Some (byte, bit) => FlipInData byte bit
  | None =>
      let difference := (popcount (Z.lxor expected.1 calculated.1) + popcount (Z.lxor expected.2 calculated.2))%nat in
      if Nat.eqb difference 1 then FlipInChecksum else NoReason
  end.

(** [validateChecksum]: every path after the first test throws. *)
Definition validateChecksum (data : bytes) (expected : Checksum) (external_data : bool) : outcome unit :=
  if decide (expected = CityHash128 data) then Ok tt
  else
    let error_code := if external_data then CANNOT_DECOMPRESS else CHECKSUM_DOESNT_MATCH in
    match mismatch_reason data expected with
    | FlipInData _ _ => Throw error_code
    | FlipInChecksum => Throw error_code
    | NoReason => Throw error_code
    end.
End Checksums.

(** ** Finding the blocks *)
Module CompressedReadBufferBase.
Section Operations.
Context {In : Type} `{!ReadBuffer.Impl In} {HCity : CityHash} {HFactory : Factory}.

(** The members; [compressed_buffer] are the bytes the pointer designates,
    and [own_compressed_buffer] is known by its header only. *)
Record t := Make {
  compressed_in : ReadBuffer.t In;
  own_compressed_buffer_header_init : bool;
  compressed_buffer : bytes;
  disable_checksum : bool;
  allow_different_codecs : bool;
  external_data : bool;
  codec : option ICompressionCodec
}.

(** The codec of a block: the one at hand if it has the method byte, another
    one only if that is allowed. *)
Definition chooseCodec (method : Z) (codec : option ICompressionCodec) (allow external : bool) : outcome ICompressionCodec :=
  c ← match codec with
      | None => get method
      | Some c =>
          if method =? getMethodByte c then Ok c
          else if allow then get method
          else Throw CANNOT_DECOMPRESS
      end;
  Ok (if external then setExternalDataFlag c else c).

(** The codec, [size_decompressed] and [size_compressed_without_checksum]. *)
Definition readHeaderAndGetCodecAndSize (compressed_buffer : bytes) (codec : option ICompressionCodec) (allow external : bool)
    : outcome (ICompressionCodec * Z * Z) :=
  method ← readMethod compressed_buffer;
  c ← chooseCodec method codec allow external;
  size_compressed_without_checksum ← readCompressedBlockSize c compressed_buffer;
  size_decompressed ← readDecompressedBlockSize c compressed_buffer;
  _ ← require (negb (DBMS_MAX_COMPRESSED_SIZE <? size_compressed_without_checksum)) TOO_LARGE_SIZE_COMPRESSED;
  _ ← require (negb (size_compressed_without_checksum <? Z.of_nat header_size))
        (if external then CANNOT_DECOMPRESS else CORRUPTED_DATA);
  Ok (c, size_decompressed, size_compressed_without_checksum).

(** The first half of [readCompressedData], which reads the checksum and the
    header where they are in the input buffer or into [own_compressed_buffer];
    the result begins with [own_compressed_buffer_header_init]. *)
Definition locateHeader (always_copy : bool) (r : t) (inp : ReadBuffer.t In)
    : outcome (bool * Checksum * (ICompressionCodec * Z * Z) * bytes * ReadBuffer.t In) :=
  if negb always_copy && Nat.leb size_header_plus_checksum (ReadBuffer.available inp) then
    let at_pos := ReadBuffer.pending inp in
    h ← readHeaderAndGetCodecAndSize (take header_size (drop sizeof_Checksum at_pos)) (codec r)
          (allow_different_codecs r) (external_data r);
    inp' ← ReadBuffer.advance size_header_plus_checksum inp;
    Ok (false, loadChecksum at_pos, h, [], inp')
  else
    '(own, inp) ← ReadBuffer.readStrict size_header_plus_checksum inp;
    h ← readHeaderAndGetCodecAndSize (take header_size (drop sizeof_Checksum own)) (codec r)
          (allow_different_codecs r) (external_data r);
    Ok (true, loadChecksum own, h, own, inp).

(** The second half: the block itself, in the input buffer if it is there with
    the padding the codec wants, else copied. *)
Definition locateBlock (init : bool) (additional_size_at_the_end_of_buffer size_compressed : Z) (own : bytes)
    (inp : ReadBuffer.t In) : outcome (bytes * bool * ReadBuffer.t In) :=
  let payload := Z.to_nat (size_compressed - Z.of_nat header_size) in
  if negb init && (size_compressed - Z.of_nat header_size + additional_size_at_the_end_of_buffer
                     <=? Z.of_nat (ReadBuffer.available inp)) then
    inp' ← ReadBuffer.advance payload inp;
    Ok (take (Z.to_nat size_compressed)
          (drop (ReadBuffer.pos inp - header_size) (ReadBuffer.working_buffer inp)), init, inp')
  else if negb init then
    inp ← ReadBuffer.retreat size_header_plus_checksum inp;
    '(own, inp) ← ReadBuffer.readStrict (size_header_plus_checksum + payload) inp;
    Ok (drop sizeof_Checksum own, true, inp)
  else
    '(rest, inp) ← ReadBuffer.readStrict payload inp;
    Ok (drop sizeof_Checksum (own ++ rest), init, inp).

(** [readCompressedData]: [None] at the end of the input, else
    [size_decompressed] and [size_compressed_without_checksum]; the C++ result
    is 0 or the latter plus [sizeof(Checksum)]. *)
Definition readCompressedData (always_copy : bool) (r : t) : outcome (option (Z * Z) * t) :=
  '(at_end, inp) ← ReadBuffer.eof (compressed_in r);
  if at_end : bool then
    Ok (None, Make inp (own_compressed_buffer_header_init r) (compressed_buffer r) (disable_checksum r)
                (allow_different_codecs r) (external_data r) (codec r))
  else
    '(init, checksum, (c, size_decompressed, size_compressed), own, inp) ← locateHeader always_copy r inp;
    '(block, init, inp) ← locateBlock init (getAdditionalSizeAtTheEndOfBuffer c) size_compressed own inp;
    _ ← (if disable_checksum r then Ok tt else validateChecksum block checksum (external_data r));
    Ok (Some (size_decompressed, size_compressed),
        Make inp init block (disable_checksum r) (allow_different_codecs r) (external_data r) (Some c)).

Definition set_codec (c : ICompressionCodec) (r : t) : t :=
  Make (compressed_in r) (own_compressed_buffer_header_init r) (compressed_buffer r) (disable_checksum r)
    (allow_different_codecs r) (external_data r) (Some c).

(** [readHeaderAndGetCodec]. *)
Definition readHeaderAndGetCodec (r : t) : outcome ICompressionCodec :=
  method ← readMethod (compressed_buffer r);
  chooseCodec method (codec r) (allow_different_codecs r) (external_data r).

(** [decompressTo]: the bytes written to [to]. *)
Definition decompressTo (size_decompressed size_compressed : Z) (r : t) : outcome (bytes * t) :=
  c ← readHeaderAndGetCodec r;
  '(dest, _) ← decompress c (take (Z.to_nat size_compressed) (compressed_buffer r));
  _ ← defined (blen dest =? size_decompressed);
  Ok (dest, set_codec c r).

(** [decompress]: the contents of the buffer [to], which is moved onto the
    block itself when nothing is compressed. *)
Definition decompress_ (size_decompressed size_compressed : Z) (r : t) : outcome (bytes * t) :=
  c ← readHeaderAndGetCodec r;
  if isNone c then
    _ ← require (negb (size_compressed <? Z.of_nat header_size)) (if external_data r then CANNOT_DECOMPRESS else CORRUPTED_DATA);
    Ok (drop header_size (take (Z.to_nat size_compressed) (compressed_buffer r)), set_codec c r)
  else
    '(dest, _) ← decompress c (take (Z.to_nat size_compressed) (compressed_buffer r));
    _ ← defined (blen dest =? size_decompressed);
    Ok (dest, set_codec c r).
End Operations.
Arguments t : clear implicits.
End CompressedReadBufferBase.

(** ** Presenting the contents *)
Module CompressedReadBuffer.
Import CompressedReadBufferBase.
Section Operations.
Context {HCity : CityHash} {HFactory : Factory}.

(** The input arrives in a list of buffers. *)
Definition nextImpl (r : t (list bytes)) : outcome (option bytes * t (list bytes)) :=
  '(sizes, r) ← readCompressedData false r;
  match sizes with
  | None => Ok (None, r)
  | Some (size_decompressed, size_compressed) =>
      '(working_buffer, r) ← decompress_ size_decompressed size_compressed r;
      Ok (Some working_buffer, r)
  end.

(** The bytes of the input that are not read yet. *)
Definition left_over (b : ReadBuffer.t (list bytes)) : nat :=
  length (ReadBuffer.pending b ++ concat (ReadBuffer.impl b)).

#[global] Instance reader_impl : ReadBuffer.Impl (t (list bytes)) := {
  ReadBuffer.nextImpl := nextImpl;
  ReadBuffer.rank := fun r => left_over (compressed_in r)
}.

(** The loop of [readBig]: [n] bytes are still wanted; every block has at
    least one byte. *)
Fixpoint readBig_loop (fuel n : nat) (b : ReadBuffer.t (t (list bytes))) : outcome (bytes * ReadBuffer.t (t (list bytes))) :=
  match fuel, n with
  | _, O => Ok ([], b)
  | O, _ => Undef
  | S fuel, _ =>
      '(sizes, r) ← readCompressedData false (ReadBuffer.impl b);
      match sizes with
      | None => Ok ([], ReadBuffer.Make (ReadBuffer.working_buffer b) (ReadBuffer.pos b) (ReadBuffer.bytes_before b) r)
      | Some (size_decompressed, size_compressed) =>
          let additional := match codec r with Some c => getAdditionalSizeAtTheEndOfBuffer c | None => 0 end in
          if size_decompressed + additional <=? Z.of_nat n then
            '(dest, r) ← decompressTo size_decompressed size_compressed r;
            '(rest, b) ← readBig_loop fuel (n - Z.to_nat size_decompressed)
              (ReadBuffer.Make (ReadBuffer.working_buffer b) (ReadBuffer.pos b) (ReadBuffer.bytes_before b + size_decompressed) r);
            Ok (dest ++ rest, b)
          else
            let bytes_before := ReadBuffer.bytes_before b + Z.of_nat (ReadBuffer.pos b) in
            '(working_buffer, r) ← decompress_ size_decompressed size_compressed r;
            ReadBuffer.read n (ReadBuffer.Make working_buffer 0 bytes_before r)
      end
  end.

Definition readBig (n : nat) (b : ReadBuffer.t (t (list bytes))) : outcome (bytes * ReadBuffer.t (t (list bytes))) :=
  '(start, b) ←
    (if Nat.ltb (ReadBuffer.pos b) (length (ReadBuffer.working_buffer b))
     then ReadBuffer.read (Nat.min (ReadBuffer.available b) n) b
     else Ok ([], b));
  '(rest, b) ← readBig_loop n (n - length start) b;
  Ok (start ++ rest, b).

(** The constructor. *)
Definition make (s : list bytes) (allow external : bool) : ReadBuffer.t (t (list bytes)) :=
  ReadBuffer.Make [] 0 0 (Make (ReadBuffer.of_chunks s) false [] false allow external None).
End Operations.
End CompressedReadBuffer.

(** ** Writing blocks *)
Module CompressedWriteBuffer.
Section Operations.
Context {Out : Type} `{!WriteBuffer.Impl Out} {HCity : CityHash}.

Record t := Make {
  out : WriteBuffer.t Out;
  codec : ICompressionCodec;
  use_adaptive_buffer_size : bool;
  adaptive_buffer_max_size : nat
}.

Definition set_out (o : WriteBuffer.t Out) (s : t) : t :=
  Make o (codec s) (use_adaptive_buffer_size s) (adaptive_buffer_max_size s).

(** The first part of [nextImpl]: reserve, compress, write the checksum and
    the block, into the output buffer itself when it has the room. *)
Definition writeBlock (working_buffer : bytes) (s : t) : outcome unit * t :=
  let decompressed_size := wrap 32 (blen working_buffer) in
  match getCompressedReserveSize (codec s) decompressed_size with
  | Throw e => (Throw e, s)
  | Undef => (Undef, s)
  | Ok compressed_reserve_size =>
      let direct := compressed_reserve_size + Z.of_nat sizeof_Checksum <=? Z.of_nat (WriteBuffer.available (out s)) in
      match compress (codec s) (take (Z.to_nat decompressed_size) working_buffer) with
      | Throw e => (Throw e, s)
      | Undef => (Undef, s)
      | Ok (block, compressed_size) =>
          if negb ((blen block <=? compressed_reserve_size) && (compressed_size <=? blen block)) then (Undef, s)
          else
            let data := take (Z.to_nat compressed_size) block in
            let checksum := CityHash128 data in
            match WriteBuffer.write (le_store 8 checksum.1) (out s) with
            | (Ok _, o) =>
                match WriteBuffer.write (le_store 8 checksum.2) o with
                | (Ok _, o) =>
                    if direct then (Ok tt, set_out (WriteBuffer.put data o) s)
                    else let '(res, o) := WriteBuffer.write data o in (res, set_out o s)
                | (r, o) => (r, set_out o s)
                end
            | (r, o) => (r, set_out o s)
            end
      end
  end.

(** [nextImpl]: then the buffer grows, if it was full and may. *)
Definition nextImpl (memory_size : nat) (working_buffer : bytes) (s : t) : outcome nat * t :=
  match writeBlock working_buffer s with
  | (Ok _, s) =>
      (Ok (if Nat.eqb (length working_buffer) memory_size && use_adaptive_buffer_size s
              && Nat.ltb memory_size (adaptive_buffer_max_size s)
           then Nat.min (memory_size * 2) (adaptive_buffer_max_size s)
           else memory_size), s)
  | (Throw e, s) => (Throw e, s)
  | (Undef, s) => (Undef, s)
  end.

#[global] Instance writer_impl : WriteBuffer.Impl t := {
  WriteBuffer.nextImpl := nextImpl;
  WriteBuffer.beforeFinalize := Some (fun s => Make (out s) (codec s) false (adaptive_buffer_max_size s));
  WriteBuffer.cancelImpl := fun s => set_out (WriteBuffer.cancel (out s)) s
}.

(** [setCodec]: the pending data goes out with the old codec. *)
Definition setCodec (codec_ : ICompressionCodec) (b : WriteBuffer.t t) : outcome unit * WriteBuffer.t t :=
  match WriteBuffer.next b with
  | (Ok _, b) =>
      match WriteBuffer.content b with
      | _ :: _ => (Throw LOGICAL_ERROR, b)
      | [] =>
          let s := WriteBuffer.impl b in
          (Ok tt, WriteBuffer.Make (WriteBuffer.capacity b) (WriteBuffer.content b) (WriteBuffer.bytes_before b)
                    (WriteBuffer.flush_count b) (WriteBuffer.finalized b) (WriteBuffer.canceled b)
                    (Make (out s) codec_ (use_adaptive_buffer_size s) (adaptive_buffer_max_size s)))
      end
  | (r, b) => (r, b)
  end.

(** The constructor. *)
Definition make (out_ : WriteBuffer.t Out) (codec_ : ICompressionCodec) (buf_size : nat)
    (use_adaptive : bool) (adaptive_buffer_initial_size : nat) : WriteBuffer.t t :=
  WriteBuffer.Make (if use_adaptive then adaptive_buffer_initial_size else buf_size) [] 0 0 false false
    (Make out_ codec_ use_adaptive buf_size).
End Operations.
Arguments t : clear implicits.
End CompressedWriteBuffer.
