(* ===== verification/CompressedStreamFacts.v ===== *)
(** * Compressed streams: correctness

    A reference reader on flat byte strings ([parse_frame]), the proof that
    [readCompressedData] computes it however the input is divided into
    buffers, and the round trip from [CompressedWriteBuffer] to
    [CompressedReadBuffer]. *)

From stdpp Require Import prelude.
From Stdlib Require Import ZArith Lia.
From S2P Require Import Prelude Bits Codec CodecMultiple Buffers CompressedStream.

(** ** Checksums *)
Section Checksums.
Context {HCity : CityHash}.

Lemma validateChecksum_spec data expected external :
  validateChecksum data expected external =
    (if decide (expected = CityHash128 data) then Ok tt
     else Throw (if external then CANNOT_DECOMPRESS else CHECKSUM_DOESNT_MATCH)).
Proof using Type. unfold validateChecksum. destruct (decide _); [done|]. by destruct (mismatch_reason _ _). Qed.

Lemma flip_bit_involutive buf pos : flip_bit (flip_bit buf pos) pos = buf.
Proof using Type.
  unfold flip_bit. apply list_eq. intros i. destruct (decide (i = (pos / 8)%nat)) as [->|Hi].
  - rewrite !list_lookup_alter_eq. destruct (buf !! _) as [x|]; [|done]. cbn.
    by rewrite Z.lxor_assoc, Z.lxor_nilpotent, Z.lxor_0_r.
  - by rewrite !list_lookup_alter_ne by done.
Qed.

Lemma find_flip_spec expected : forall todo pos data,
  match find_flip expected todo pos data with
  | Some (byte, bit) => exists q, (pos <= q < pos + todo)%nat /\ byte = (q / 8)%nat /\ bit = (q mod 8)%nat /\
      CityHash128 (flip_bit data q) = expected
  | None => forall q, (pos <= q < pos + todo)%nat -> CityHash128 (flip_bit data q) <> expected
  end.
Proof using Type.
  induction todo as [|todo IH]; intros pos data; cbn [find_flip]; [intros q; lia|].
  destruct (decide _) as [E|E].
  - exists pos. split_and!; try done; lia.
  - rewrite flip_bit_involutive. specialize (IH (S pos) data). destruct (find_flip _ _ _ _) as [[byte bit]|].
    + destruct IH as (q & Hq & ?). exists q. split; [lia|done].
    + intros q Hq. destruct (decide (q = pos)) as [->|]; [congruence|]. apply IH. lia.
Qed.

(** A block damaged in one bit is diagnosed: the reported bit, flipped back,
    restores the stored checksum. *)
Lemma flip_diagnosed original q :
  (q < 8 * length original)%nat -> blen original < 2 ^ 20 ->
  exists byte bit, mismatch_reason (flip_bit original q) (CityHash128 original) = FlipInData byte bit /\
    (byte < length original)%nat /\ (bit < 8)%nat /\
    CityHash128 (flip_bit (flip_bit original q) (8 * byte + bit)) = CityHash128 original.
Proof using Type.
  intros Hq Hl. unfold mismatch_reason.
  assert (length (flip_bit original q) = length original) as Hlen by (unfold flip_bit; by rewrite length_alter).
  rewrite Hlen. destruct (Z.ltb_spec (blen original) (2 ^ 20)); [|lia].
  pose proof (find_flip_spec (CityHash128 original) (length original * 8) 0 (flip_bit original q)) as Hs.
  destruct (find_flip _ _ _ _) as [[byte bit]|].
  - destruct Hs as (p & Hp & -> & -> & Hh). exists (p / 8)%nat, (p mod 8)%nat.
    rewrite <- Nat.div_mod_eq. split_and!; try done; [apply Nat.Div0.div_lt_upper_bound; lia|by apply Nat.mod_upper_bound].
  - exfalso. apply (Hs q); [lia|]. by rewrite flip_bit_involutive.
Qed.

Lemma load_storeChecksum c rest : uint 64 c.1 -> uint 64 c.2 -> loadChecksum (storeChecksum c ++ rest) = c.
Proof using Type.
  intros H1 H2. unfold loadChecksum, storeChecksum. rewrite <- app_assoc, take_le_store, drop_le_store, take_le_store.
  rewrite !le_load_store_id by done. by destruct c.
Qed.

Lemma length_storeChecksum c : length (storeChecksum c) = sizeof_Checksum.
Proof using Type. unfold storeChecksum. by rewrite length_app, !length_le_store. Qed.

Lemma loadChecksum_prefix b b' : take size_header_plus_checksum b = take size_header_plus_checksum b' -> loadChecksum b = loadChecksum b'.
Proof using Type.
  intros E. unfold loadChecksum.
  assert (take 16 b = take 16 b') as E16 by (apply (f_equal (take 16)) in E; by rewrite !take_take in E).
  assert (take 8 b = take 8 b') as -> by (apply (f_equal (take 8)) in E16; by rewrite !take_take in E16).
  rewrite !take_drop_commute. change (8 + 8)%nat with 16%nat. by rewrite E16.
Qed.

Lemma store_loadChecksum b : bytes_ok b -> (16 <= length b)%nat -> storeChecksum (loadChecksum b) = take 16 b.
Proof using Type.
  intros Hok Hl. assert (forall b', bytes_ok b' -> (8 <= length b')%nat -> le_store 8 (le_load (take 8 b')) = take 8 b') as H8.
  { intros b' Hb' Hl'. pose proof (le_store_load (take 8 b') (Forall_take _ _ _ Hb')) as E. by rewrite length_take_le in E. }
  unfold storeChecksum, loadChecksum. cbn [fst snd].
  rewrite !H8 by (rewrite ?length_drop; auto using Forall_drop; lia). by rewrite take_take_drop.
Qed.
End Checksums.

Import CompressedReadBufferBase.

(** ** The reference reader *)
Section Frames.
Context {HCity : CityHash} {HFactory : Factory}.

(** One frame of a flat byte string: [None] at the end, else the codec, the
    sizes, the block and what follows. *)
Definition parse_frame (disable allow external : bool) (codec : option ICompressionCodec) (d : bytes)
    : outcome (option (ICompressionCodec * Z * Z * bytes * bytes)) :=
  match d with
  | [] => Ok None
  | _ =>
      _ ← require (Nat.leb size_header_plus_checksum (length d)) CANNOT_READ_ALL_DATA;
      '(c, size_decompressed, size_compressed) ←
        readHeaderAndGetCodecAndSize (take header_size (drop sizeof_Checksum d)) codec allow external;
      let total := (sizeof_Checksum + Z.to_nat size_compressed)%nat in
      _ ← require (Nat.leb total (length d)) CANNOT_READ_ALL_DATA;
      let block := take (Z.to_nat size_compressed) (drop sizeof_Checksum d) in
      _ ← (if disable then Ok tt else validateChecksum block (loadChecksum d) external);
      Ok (Some (c, size_decompressed, size_compressed, block, drop total d))
  end.

(** Codecs whose padding is a size. *)
Definition padding_ok (c : ICompressionCodec) : Prop := 0 <= getAdditionalSizeAtTheEndOfBuffer c.

Context (get_padding : forall m c, get m = Ok c -> padding_ok c).

Lemma chosen_padding method codec allow external c :
  (forall c, codec = Some c -> padding_ok c) -> chooseCodec method codec allow external = Ok c -> padding_ok c.
Proof using get_padding.
  unfold chooseCodec. intros Hc H. ok_inv. match goal with H : _ = Ok ?x |- _ => rename H into E, x into c0 end.
  assert (padding_ok c0) as H0.
  { destruct codec as [c'|]; [|by eapply get_padding].
    destruct (_ =? _); [injection E as <-; auto|]. destruct allow; [by eapply get_padding|done]. }
  by destruct external.
Qed.

Lemma header_facts hd codec allow external c sd sc :
  (forall c, codec = Some c -> padding_ok c) ->
  readHeaderAndGetCodecAndSize hd codec allow external = Ok (c, sd, sc) -> padding_ok c /\ 9 <= sc /\ sd <> 0.
Proof using get_padding.
  intros Hc H. unfold readHeaderAndGetCodecAndSize in H. ok_inv. simplify_eq. change (Z.of_nat header_size) with 9 in *.
  split; [by eapply chosen_padding|]. split; [lia|].
  match goal with H : readDecompressedBlockSize _ _ = _ |- _ => unfold readDecompressedBlockSize in H end. ok_inv. lia.
Qed.
End Frames.

Section Reader.
Context {In : Type} `{!ReadBuffer.Impl In, !ReadBuffer.Source In} {HCity : CityHash} {HFactory : Factory}.
Context (get_padding : forall m c, get m = Ok c -> padding_ok c).
Abbreviation holds := ReadBuffer.holds.

(** The part of [readCompressedData] after the header. *)
Definition same_flags (r r' : t In) : Prop :=
  disable_checksum r' = disable_checksum r /\ allow_different_codecs r' = allow_different_codecs r /\
  external_data r' = external_data r.

Definition codec_padding (r : t In) : Prop := forall c, codec r = Some c -> padding_ok c.

(** Where the header was found, and what remains. *)
Definition header_at (init : bool) (own : bytes) (inp : ReadBuffer.t In) (d : bytes) : Prop :=
  (size_header_plus_checksum <= length d)%nat /\ holds inp (drop size_header_plus_checksum d) /\
  if init then own = take size_header_plus_checksum d
  else (size_header_plus_checksum <= ReadBuffer.pos inp)%nat /\
       ReadBuffer.holds (ReadBuffer.Make (ReadBuffer.working_buffer inp) (ReadBuffer.pos inp - size_header_plus_checksum)
                           (ReadBuffer.bytes_before inp) (ReadBuffer.impl inp)) d.

Lemma locateHeader_spec always_copy r inp d :
  holds inp d ->
  match (_ ← require (Nat.leb size_header_plus_checksum (length d)) CANNOT_READ_ALL_DATA;
         readHeaderAndGetCodecAndSize (take header_size (drop sizeof_Checksum d)) (codec r)
           (allow_different_codecs r) (external_data r)) with
  | Ok h => exists init own inp', locateHeader always_copy r inp = Ok (init, loadChecksum d, h, own, inp') /\
      header_at init own inp' d
  | Throw e => locateHeader always_copy r inp = Throw e
  | Undef => locateHeader always_copy r inp = Undef
  end.
Proof using Type.
  intros Hin. unfold locateHeader. destruct (negb always_copy && _) eqn:Ebr.
  - apply andb_true_iff in Ebr as [_ Ha%Nat.leb_le].
    destruct (ReadBuffer.advance_spec inp d _ Hin Ha) as (b2 & -> & Hb2 & Htake & Hw & Hp & Hi).
    assert (size_header_plus_checksum <= length d)%nat as Hl.
    { apply (f_equal length) in Htake. rewrite !length_take, ReadBuffer.length_pending in Htake. lia. }
    rewrite bind_require by (by apply Nat.leb_le). run.
    assert (take header_size (drop sizeof_Checksum (ReadBuffer.pending inp)) = take header_size (drop sizeof_Checksum d)) as ->.
    { rewrite !take_drop_commute. change (sizeof_Checksum + header_size)%nat with size_header_plus_checksum. by rewrite Htake. }
    destruct (readHeaderAndGetCodecAndSize _ _ _ _) as [h|e|]; run; [|done|done].
    exists false, [], b2. split.
    + by rewrite (loadChecksum_prefix _ d Htake).
    + split; [done|]. split; [done|]. rewrite Hp, Hw, Hi. split; [lia|].
      replace (_ + _ - _)%nat with (ReadBuffer.pos inp) by lia. destruct Hin as (? & ?). by split.
  - destruct (ReadBuffer.readStrict_spec size_header_plus_checksum inp d Hin) as [Hok Hbad].
    destruct (Nat.leb_spec size_header_plus_checksum (length d)) as [Hl|Hl]; cycle 1; run.
    { by rewrite Hbad. }
    destruct (Hok Hl) as (b2 & -> & Hb2). run.
    assert (take header_size (drop sizeof_Checksum (take size_header_plus_checksum d)) = take header_size (drop sizeof_Checksum d)) as ->.
    { rewrite !take_drop_commute. change (sizeof_Checksum + header_size)%nat with size_header_plus_checksum. by rewrite take_take, Nat.min_id. }
    destruct (readHeaderAndGetCodecAndSize _ _ _ _) as [h|e|]; run; [|done|done].
    exists true, (take size_header_plus_checksum d), b2. split; [|done].
    rewrite (loadChecksum_prefix (take size_header_plus_checksum d) d); [done|]. by rewrite take_take, Nat.min_id.
Qed.

Lemma locateBlock_spec init own inp d additional sc :
  header_at init own inp d -> 0 <= additional -> 9 <= sc ->
  ((sizeof_Checksum + Z.to_nat sc <= length d)%nat ->
     exists init' inp', locateBlock init additional sc own inp =
         Ok (take (Z.to_nat sc) (drop sizeof_Checksum d), init', inp') /\
       holds inp' (drop (sizeof_Checksum + Z.to_nat sc) d)) /\
  ((length d < sizeof_Checksum + Z.to_nat sc)%nat -> locateBlock init additional sc own inp = Throw CANNOT_READ_ALL_DATA).
Proof using Type.
  intros (Hl & Hin & Hcase) Hadd Hsc. unfold locateBlock. change (Z.of_nat header_size) with 9.
  set (payload := Z.to_nat (sc - 9)).
  assert (size_header_plus_checksum + payload = sizeof_Checksum + Z.to_nat sc)%nat as Htot
    by (unfold size_header_plus_checksum, header_size, sizeof_Checksum; lia).
  destruct init; cbn [negb andb].
  - (* own buffer *)
    destruct (ReadBuffer.readStrict_spec payload inp _ Hin) as [Hok Hbad]. rewrite length_drop in Hok, Hbad. split; intros Hd.
    + destruct (Hok ltac:(lia)) as (b & -> & Hb). run. exists true, b. rewrite drop_drop, Htot in Hb. split; [|done].
      do 3 f_equal. rewrite Hcase, take_take_drop, Htot. by rewrite take_drop_commute.
    + by rewrite Hbad by lia.
  - destruct Hcase as [Hpos Hback].
    destruct (Z.leb_spec (sc - 9 + additional) (Z.of_nat (ReadBuffer.available inp))) as [Ha|Ha].
    + (* in the input buffer *)
      destruct (ReadBuffer.advance_spec inp _ payload Hin ltac:(lia)) as (b & -> & Hb & _). run.
      rewrite drop_drop, Htot in Hb.
      assert (Z.to_nat sc = header_size + payload)%nat as Esc by (unfold header_size; lia).
      assert (take (Z.to_nat sc) (drop (ReadBuffer.pos inp - header_size) (ReadBuffer.working_buffer inp)) =
              take (Z.to_nat sc) (drop sizeof_Checksum d)) as Eblk.
      { destruct Hback as (_ & d' & -> & _). unfold ReadBuffer.pending. cbn [ReadBuffer.working_buffer ReadBuffer.pos].
        unfold ReadBuffer.available in Ha. destruct Hin as (Hpw & _).
        rewrite drop_app_le by (rewrite length_drop; unfold size_header_plus_checksum, sizeof_Checksum, header_size in *; lia).
        rewrite drop_drop. replace (ReadBuffer.pos inp - _ + _)%nat with (ReadBuffer.pos inp - header_size)%nat
          by (unfold size_header_plus_checksum, sizeof_Checksum, header_size in *; lia).
        rewrite take_app_le; [done|]. rewrite length_drop. lia. }
      split; intros Hd; [exists false, b; by rewrite Eblk|].
      exfalso. apply (f_equal length) in Eblk. rewrite !length_take, !length_drop in Eblk.
      unfold ReadBuffer.available in Ha. unfold size_header_plus_checksum, sizeof_Checksum, header_size in *. lia.
    + (* copied after all *)
      unfold ReadBuffer.retreat. rewrite bind_defined by (by apply Nat.leb_le). run.
      destruct (ReadBuffer.readStrict_spec (size_header_plus_checksum + payload) _ _ Hback) as [Hok Hbad]. rewrite Htot in *.
      split; intros Hd.
      * destruct (Hok Hd) as (b & -> & Hb). run. exists true, b. split; [|done]. do 3 f_equal. by rewrite take_drop_commute.
      * by rewrite Hbad.
Qed.

(** [readCompressedData] is [parse_frame], exceptions included: it does not
    matter how the input is divided, nor whether the block is copied. *)
Lemma readCompressedData_spec always_copy r d :
  holds (compressed_in r) d -> codec_padding r ->
  match parse_frame (disable_checksum r) (allow_different_codecs r) (external_data r) (codec r) d with
  | Ok None => exists r', readCompressedData always_copy r = Ok (None, r') /\ holds (compressed_in r') [] /\
      same_flags r r' /\ codec r' = codec r
  | Ok (Some (c, sd, sc, block, rest)) =>
      exists r', readCompressedData always_copy r = Ok (Some (sd, sc), r') /\ holds (compressed_in r') rest /\
        same_flags r r' /\ codec r' = Some c /\ compressed_buffer r' = block
  | Throw e => readCompressedData always_copy r = Throw e
  | Undef => readCompressedData always_copy r = Undef
  end.
Proof using get_padding.
  intros Hin Hpad. unfold readCompressedData.
  destruct (ReadBuffer.rbuf_eof_spec _ _ Hin) as (b1 & -> & Hb1 & _). run.
  destruct (bool_decide_reflect (d = [])) as [->|Hne].
  { cbn [parse_frame]. eexists; split; [reflexivity|]. by split_and!. }
  unfold parse_frame. destruct d as [|x d0]; [done|]. set (d := x :: d0) in *.
  pose proof (locateHeader_spec always_copy r b1 d Hb1) as Hh.
  destruct (Nat.leb _ (length d)); run; [|by rewrite Hh].
  cbn [mbind outcome_bind require] in Hh.
  destruct (readHeaderAndGetCodecAndSize _ _ _ _) as [[[c sd] sc]|e|] eqn:Eh; run; [|by rewrite Hh|by rewrite Hh].
  destruct Hh as (init & own & b2 & -> & Hat). run.
  destruct (header_facts get_padding _ _ _ _ _ _ _ Hpad Eh) as (Hadd & Hsc & _).
  destruct (locateBlock_spec init own b2 d _ sc Hat Hadd Hsc) as [Hok Hbad].
  destruct (Nat.leb_spec (sizeof_Checksum + Z.to_nat sc) (length d)) as [Hd|Hd]; run; [|by rewrite Hbad].
  destruct (Hok Hd) as (init' & b3 & -> & Hb3). run.
  destruct (if disable_checksum r then _ else _); run; [|done|done].
  eexists; split; [reflexivity|]. by split_and!.
Qed.
End Reader.

(** ** The contents of a stream *)
Section Contents.
Context {HCity : CityHash} {HFactory : Factory}.

Lemma parse_frame_inv disable allow external codec d c sd sc block rest :
  parse_frame disable allow external codec d = Ok (Some (c, sd, sc, block, rest)) ->
  (size_header_plus_checksum <= length d)%nat /\
  readHeaderAndGetCodecAndSize (take header_size (drop sizeof_Checksum d)) codec allow external = Ok (c, sd, sc) /\
  (sizeof_Checksum + Z.to_nat sc <= length d)%nat /\ block = take (Z.to_nat sc) (drop sizeof_Checksum d) /\
  rest = drop (sizeof_Checksum + Z.to_nat sc) d /\ (disable = false -> loadChecksum d = CityHash128 block).
Proof using Type.
  intros H. destruct d as [|x d0]; [done|]. remember (x :: d0) as d eqn:Ed.
  assert (parse_frame disable allow external codec d = Ok (Some (c, sd, sc, block, rest))) as H' by exact H.
  unfold parse_frame in H. rewrite Ed in H at 1. clear H'.
  apply bind_Ok_inv in H as (? & Hl & H). apply bind_Ok_inv in H as ([[c1 sd1] sc1] & Hh & H).
  apply bind_Ok_inv in H as (? & Ht & H). apply bind_Ok_inv in H as (? & Hv & H). clear Ed. injection H as -> -> -> <- <-.
  ok_inv. split_and!; try done; try by apply Nat.leb_le.
  intros ->. rewrite validateChecksum_spec in Hv. by destruct (decide _).
Qed.

Lemma header_sizes hd codec allow external c sd sc :
  readHeaderAndGetCodecAndSize hd codec allow external = Ok (c, sd, sc) -> 9 <= sc /\
  exists m, readMethod hd = Ok m /\ chooseCodec m codec allow external = Ok c.
Proof using Type.
  intros H. unfold readHeaderAndGetCodecAndSize in H. ok_inv. simplify_eq. change (Z.of_nat header_size) with 9 in *. split; [lia|eauto].
Qed.

(** What a frame is accepted for: the stored checksum is the checksum of the
    block. *)
Lemma parse_frame_sound allow external codec d c sd sc block rest :
  bytes_ok d -> parse_frame false allow external codec d = Ok (Some (c, sd, sc, block, rest)) ->
  d = storeChecksum (CityHash128 block) ++ block ++ rest /\ blen block = sc.
Proof using Type.
  intros Hok (Hl & Hh & Ht & -> & -> & E)%parse_frame_inv. destruct (header_sizes _ _ _ _ _ _ _ Hh) as [Hsc _].
  unfold size_header_plus_checksum, sizeof_Checksum, header_size in *.
  split; [|rewrite length_take, length_drop; lia].
  rewrite <- (E eq_refl), store_loadChecksum by (done || lia).
  rewrite <- (take_drop 16 d) at 1. f_equal. rewrite <- (take_drop (Z.to_nat sc) (drop 16 d)) at 1. by rewrite drop_drop.
Qed.

(** The method byte of a frame that was parsed selects its codec again. *)
Lemma chosen_again disable allow external codec d c sd sc block rest :
  parse_frame disable allow external codec d = Ok (Some (c, sd, sc, block, rest)) ->
  chooseCodec (getMethodByte c) (Some c) allow external = Ok c.
Proof using Type.
  intros (_ & (_ & m & _ & Hc)%header_sizes & _)%parse_frame_inv.
  unfold chooseCodec in *. apply bind_Ok_inv in Hc as (c0 & _ & Hc). injection Hc as <-.
  rewrite Z.eqb_refl. run. by destruct external.
Qed.

(** [decodes disable allow external codec stream d]: with [codec] at hand, the
    frames of [stream] hold [d]. *)
Inductive decodes (disable allow external : bool) : option ICompressionCodec -> bytes -> bytes -> Prop :=
| D_end codec : decodes disable allow external codec [] []
| D_frame codec stream c sd sc block rest out more :
    parse_frame disable allow external codec stream = Ok (Some (c, sd, sc, block, rest)) ->
    padding_ok c -> decompress c block = Ok (out, sd) -> blen out = sd -> blen block = sc ->
    (isNone c = true -> drop header_size block = out) ->
    decodes disable allow external (Some c) rest more ->
    decodes disable allow external codec stream (out ++ more).

Lemma parse_frame_shorter disable allow external codec d c sd sc block rest :
  parse_frame disable allow external codec d = Ok (Some (c, sd, sc, block, rest)) -> (length rest < length d)%nat.
Proof using Type.
  intros (Hl & _ & _ & _ & -> & _)%parse_frame_inv. rewrite length_drop.
  unfold size_header_plus_checksum, sizeof_Checksum in *. lia.
Qed.

Abbreviation holds := ReadBuffer.holds.
Abbreviation reader := (CompressedReadBufferBase.t (list bytes)).

(** The two ways to decompress the block that was read agree. *)
Lemma decompress_both (r : reader) c sd sc out :
  codec r = Some c -> chooseCodec (getMethodByte c) (Some c) (allow_different_codecs r) (external_data r) = Ok c ->
  decompress c (compressed_buffer r) = Ok (out, sd) -> blen out = sd -> blen (compressed_buffer r) = sc ->
  (isNone c = true -> drop header_size (compressed_buffer r) = out) ->
  decompressTo sd sc r = Ok (out, set_codec c r) /\ decompress_ sd sc r = Ok (out, set_codec c r).
Proof using Type.
  intros Hc Hch Hd Hsd Hsc Hn. unfold decompressTo, decompress_, readHeaderAndGetCodec.
  destruct (decompress_sound _ _ _ _ Hd) as (Hm & _ & _). rewrite Hm, Hc. run. rewrite Hch. run.
  rewrite <- Hsc, Nat2Z.id, firstn_all, Hd. run. rewrite Hsd, Z.eqb_refl. run. split; [done|].
  destruct (isNone c); [|done]. rewrite bind_require; [by rewrite Hn|].
  unfold decompress in Hd. ok_inv. unfold COMPRESSED_BLOCK_HEADER_SIZE in *. done.
Qed.

Definition reads (r : reader) (d : bytes) : Prop :=
  (forall m c, get m = Ok c -> padding_ok c) /\ codec_padding r /\
  exists stream, holds (compressed_in r) stream /\
    decodes (disable_checksum r) (allow_different_codecs r) (external_data r) (codec r) stream d.

Lemma left_over_holds b d : holds b d -> CompressedReadBuffer.left_over b = length d.
Proof using Type. intros (_ & d' & -> & Hd). cbn in Hd. by subst d'. Qed.

(** One block, for any of the two destinations. *)
Lemma reads_step (r : reader) d : reads r d ->
  (d = [] /\ exists r', readCompressedData false r = Ok (None, r') /\ reads r' []) \/
  (exists c sd sc out d' r' , readCompressedData false r = Ok (Some (sd, sc), r') /\ d = out ++ d' /\
     blen out = sd /\ codec r' = Some c /\ padding_ok c /\ sd <> 0 /\
     decompressTo sd sc r' = Ok (out, set_codec c r') /\ decompress_ sd sc r' = Ok (out, set_codec c r') /\
     reads (set_codec c r') d' /\
     (CompressedReadBuffer.left_over (compressed_in r') < CompressedReadBuffer.left_over (compressed_in r))%nat).
Proof using Type.
  intros (Hget & Hpad & stream & Hin & Hd).
  pose proof (readCompressedData_spec Hget false r stream Hin Hpad) as Hs.
  inversion Hd as [codec' E1 E2 E3|codec' stream' c sd sc block rest out more Hp Hpc Hde Hbl Hsc Hn Hmore E1 E2 E3]; subst.
  - cbn [parse_frame] in Hs. destruct Hs as (r' & -> & Hin' & (Hf1 & Hf2 & Hf3) & Hc). left. split; [done|]. exists r'. split; [done|].
    split; [done|]. split; [unfold codec_padding; by rewrite Hc|]. exists []. split; [done|]. constructor.
  - rewrite Hp in Hs. destruct Hs as (r' & -> & Hin' & (Hf1 & Hf2 & Hf3) & Hc & Hb). right.
    exists c, (blen out), (blen block), out, more, r'.
    destruct (decompress_both r' c (blen out) (blen block) out) as [HdT Hdc]; try by rewrite ?Hb.
    { rewrite Hf2, Hf3. by eapply chosen_again. }
    destruct (decompress_sound _ _ _ _ Hde) as (_ & _ & Hne).
    split_and!; try done.
    + split; [done|]. split; [intros c' [= <-]; done|]. exists rest. split; [done|].
      cbn. by rewrite Hf1, Hf2, Hf3.
    + rewrite (left_over_holds _ _ Hin), (left_over_holds _ _ Hin'). by eapply parse_frame_shorter.
Qed.

#[global] Instance reader_source : ReadBuffer.Source reader.
Proof using Type.
  refine {| ReadBuffer.delivers := reads |}.
  intros r d Hr. cbn [ReadBuffer.nextImpl CompressedReadBuffer.reader_impl]. unfold CompressedReadBuffer.nextImpl.
  destruct (reads_step r d Hr) as [[-> (r' & -> & Hr')]|(c & sd & sc & out & d' & r' & -> & -> & _ & _ & _ & _ & _ & Hde & Hr' & Hlt)].
  - left. split; [done|]. by exists r'.
  - right. exists out, d', (set_codec c r'). run. by rewrite Hde.
Defined.

(** Reading large pieces, blocks decompressed in place, is reading. *)
Lemma readBig_loop_spec : forall fuel n b d, (n <= fuel)%nat ->
  ReadBuffer.available b = 0%nat -> (ReadBuffer.pos b <= length (ReadBuffer.working_buffer b))%nat -> reads (ReadBuffer.impl b) d ->
  exists b', CompressedReadBuffer.readBig_loop fuel n b = Ok (take n d, b') /\ holds b' (drop n d).
Proof using Type.
  assert (forall b d, ReadBuffer.available b = 0%nat -> (ReadBuffer.pos b <= length (ReadBuffer.working_buffer b))%nat ->
    reads (ReadBuffer.impl b) d -> holds b d) as Hholds.
  { intros b d Ha Hp Hr. split; [done|]. exists d. rewrite <- ReadBuffer.length_pending in Ha. apply nil_length_inv in Ha. by rewrite Ha. }
  induction fuel as [|fuel IH]; intros [|n] b d Hf Ha Hp Hr; cbn [CompressedReadBuffer.readBig_loop]; try lia.
  1,2: (exists b; rewrite take_0, drop_0; auto).
  destruct (reads_step _ d Hr) as [[-> (r' & -> & Hr')]|(c & sd & sc & out & d' & r' & -> & -> & Hsd & Hc & Hpc & Hne & HdT & Hde & Hr' & _)]; run.
  - eexists; split; [by rewrite take_nil|]. rewrite drop_nil. apply Hholds; done.
  - rewrite Hc. unfold padding_ok in Hpc. destruct (Z.leb_spec (sd + getAdditionalSizeAtTheEndOfBuffer c) (Z.of_nat (S n))) as [Hfit|Hfit].
    + rewrite HdT. run. set (b2 := ReadBuffer.Make _ _ _ _).
      destruct (IH (S n - Z.to_nat sd)%nat b2 d') as (b3 & -> & Hb3); [lia|done|done|done|]. run.
      exists b3. assert (length out <= S n)%nat as Hle by lia. rewrite <- Hsd, Nat2Z.id in Hb3 |- *.
      rewrite take_app_ge, drop_app_ge by lia. done.
    + rewrite Hde. run. apply (ReadBuffer.read_spec (S n)). split; [cbn; lia|]. exists d'. split; [done|exact Hr'].
Qed.

Lemma readBig_spec n b d : holds b d ->
  exists b', CompressedReadBuffer.readBig n b = Ok (take n d, b') /\ holds b' (drop n d).
Proof using Type.
  intros Hb. unfold CompressedReadBuffer.readBig. pose proof Hb as (Hp & d' & E & Hr).
  destruct (Nat.ltb_spec (ReadBuffer.pos b) (length (ReadBuffer.working_buffer b))) as [Hlt|Hge].
  - set (k := Nat.min (ReadBuffer.available b) n).
    destruct (ReadBuffer.read_within k b d Hb ltac:(lia)) as (b1 & -> & Hb1 & Ha & Hlen). run. rewrite length_take, Hlen.
    destruct (Nat.le_gt_cases n (ReadBuffer.available b)) as [Hn|Hn].
    + replace (n - k)%nat with 0%nat by lia.
      assert (CompressedReadBuffer.readBig_loop n 0 b1 = Ok ([], b1)) as -> by by destruct n. run.
      exists b1. rewrite app_nil_r. by replace k with n in * by lia.
    + replace k with (ReadBuffer.available b) in * by lia.
      destruct Hb1 as (Hp1 & d1 & E1 & Hr1). assert (ReadBuffer.pending b1 = []) as Enil.
      { apply nil_length_inv. rewrite ReadBuffer.length_pending. lia. }
      rewrite Enil in E1. cbn [app] in E1. subst d1.
      destruct (readBig_loop_spec n (n - ReadBuffer.available b) b1 _ ltac:(lia) ltac:(lia) Hp1 Hr1) as (b2 & -> & Hb2). run.
      exists b2. rewrite drop_drop, take_take_drop in *. by replace (ReadBuffer.available b + (n - ReadBuffer.available b))%nat with n in * by lia.
  - run. cbn [length]. rewrite Nat.sub_0_r. assert (ReadBuffer.available b = 0%nat) as Ha by (unfold ReadBuffer.available; lia).
    assert (ReadBuffer.pending b = []) as Enil by (apply nil_length_inv; by rewrite ReadBuffer.length_pending).
    rewrite Enil in E. cbn [app] in E. subst d'.
    destruct (readBig_loop_spec n n b d ltac:(lia) Ha Hp Hr) as (b2 & -> & Hb2). run. eauto.
Qed.
End Contents.

(** ** From the writer to the reader *)
Section RoundTrip.
Context {HCity : CityHash} {HFactory : Factory}.
Context (hash_words : forall b, uint 64 (CityHash128 b).1 /\ uint 64 (CityHash128 b).2).
Context (N : Z) (HN : N < 2 ^ 31).
Import CompressionCodecMultiple.

(** A codec fit for a stream with buffers of at most [N] bytes: the factory
    finds its reader, and a codec that claims to do nothing does nothing. *)
Class Streamable (enc : ICompressionCodec) : Prop := {
  stream_link : ChainLink get N enc;
  stream_none : forall dec, get (getMethodByte enc) = Ok dec -> isNone dec = true ->
    forall src, bytes_ok src -> Codec.doCompressData enc src = Ok (src, blen src)
}.

Definition frame (block : bytes) : bytes := storeChecksum (CityHash128 block) ++ block.

(** [block] is what [p.1] writes for [p.2]. *)
Definition encodes (p : ICompressionCodec * bytes) (block : bytes) : Prop :=
  Streamable p.1 /\ bounded N p.2 /\ bytes_ok block /\ compress p.1 p.2 = Ok (block, blen block).

Definition flagged (external : bool) (c : ICompressionCodec) : ICompressionCodec :=
  if external then setExternalDataFlag c else c.

Lemma loadUInt32_prefix b pos : (pos + 4 <= 9)%nat -> (9 <= length b)%nat -> loadUInt32 (take 9 b) pos = loadUInt32 b pos.
Proof using Type.
  intros Hp Hl. unfold loadUInt32. rewrite length_take_le by lia.
  rewrite !bind_defined by (apply Nat.leb_le; lia). do 2 f_equal.
  rewrite !take_drop_commute, take_take. do 2 f_equal. lia.
Qed.

(** A block, and what its header says. *)
Lemma streamable_block enc src : Streamable enc -> bounded N src ->
  exists block reserve dec, encodes (enc, src) block /\ 9 <= blen block <= DBMS_MAX_COMPRESSED_SIZE /\
    getCompressedReserveSize enc (blen src) = Ok reserve /\ blen block <= reserve /\
    get (getMethodByte enc) = Ok dec /\ getMethodByte dec = getMethodByte enc /\
    readMethod block = Ok (getMethodByte enc) /\
    forall external, decompress (flagged external dec) block = Ok (src, blen src) /\
      readCompressedBlockSize (flagged external dec) block = Ok (blen block) /\
      readDecompressedBlockSize (flagged external dec) block = Ok (blen src) /\
      padding_ok (flagged external dec) /\
      (isNone (flagged external dec) = true -> drop header_size block = src).
Proof using HN.
  intros Hs Hb. pose proof Hb as [Hok Hlen]. pose proof (stream_link (enc := enc)) as Hl.
  destruct (link_pair (get := get) (N := N) (enc := enc)) as (dec & Hget & Hpair & Hadd).
  destruct (link_reserve (get := get) (N := N) (enc := enc) (blen src) ltac:(lia)) as (mx & Hmx & Hmx2).
  assert (forall external, CodecPair enc (flagged external dec) (bounded N)) as Hpairs by (intros []; cbn; apply _).
  assert (0 < blen src < 2 ^ 32) as Hsz by (cbn in HN |- *; lia).
  assert (forall m, Codec.getMaxCompressedDataSize enc (blen src) = Ok m -> m + COMPRESSED_BLOCK_HEADER_SIZE < 2 ^ 32) as Hmax.
  { intros m. rewrite Hmx. intros [= <-]. unfold DBMS_MAX_COMPRESSED_SIZE, COMPRESSED_BLOCK_HEADER_SIZE in *. lia. }
  destruct (block_roundtrip enc dec (bounded N) src Hb Hsz Hmax) as (blk & reserve & Hc & Hbok & Hres & Hle & _ & Hd).
  destruct (decompress_sound _ _ _ _ Hd) as (Hm & _ & _).
  rewrite (pair_method (enc := enc) (dec := dec)) in Hm.
  assert (9 <= blen blk) as H9.
  { unfold decompress in Hd. ok_inv. unfold COMPRESSED_BLOCK_HEADER_SIZE in *. lia. }
  exists blk, reserve, dec. split; [done|]. split; [split; [done|]|].
  { unfold getCompressedReserveSize in Hres. rewrite Hmx in Hres. cbn in Hres. injection Hres as <-.
    unfold DBMS_MAX_COMPRESSED_SIZE, COMPRESSED_BLOCK_HEADER_SIZE in *. rewrite wrap_id in Hle by (unfold uint; lia). lia. }
  split; [done|]. split; [done|]. split; [done|]. split; [apply (pair_method (enc := enc) (dec := dec))|]. split; [done|].
  intros external. destruct (block_roundtrip enc (flagged external dec) (bounded N) src Hb Hsz Hmax) as (blk' & _ & Hc' & _ & _ & _ & Hr & Hd').
  rewrite Hc in Hc'. injection Hc' as <-. destruct (decompress_sound _ _ _ _ Hd') as (_ & Hrd & _).
  split_and!; try done; [destruct external; unfold padding_ok; cbn; lia|].
  intros Hn. assert (isNone dec = true) as Hn' by (by destruct external).
  pose proof (stream_none (enc := enc) dec Hget Hn' src Hok) as Hplain.
  unfold compress in Hc. rewrite Hplain in Hc. cbn in Hc. injection Hc as <- _.
  done.
Qed.

(** The codec of a reader: none yet, or one the factory made. *)
Definition reader_codec (external : bool) (codec : option ICompressionCodec) : Prop :=
  forall c, codec = Some c -> exists dec, get (getMethodByte dec) = Ok dec /\ c = flagged external dec.

(** Different codecs only where they are allowed. *)
Definition compatible (allow : bool) (codec : option ICompressionCodec) (l : list (ICompressionCodec * bytes)) : Prop :=
  allow = true \/ exists m, (forall c, codec = Some c -> getMethodByte c = m) /\ Forall (fun p => getMethodByte p.1 = m) l.

Lemma chooseCodec_get allow external codec m dec :
  get m = Ok dec -> getMethodByte dec = m -> reader_codec external codec ->
  allow = true \/ (forall c, codec = Some c -> getMethodByte c = m) ->
  chooseCodec m codec allow external = Ok (flagged external dec).
Proof using Type.
  intros Hget Hm Hrc Hallow. unfold chooseCodec. destruct codec as [c|]; [|by rewrite Hget].
  destruct (Hrc c eq_refl) as (dec' & Hget' & ->).
  assert (getMethodByte (flagged external dec') = getMethodByte dec') as Em by by destruct external.
  destruct (Z.eqb_spec m (getMethodByte (flagged external dec'))) as [Eq|Ne].
  - run. rewrite Em in Eq. rewrite <- Eq, Hget in Hget'. injection Hget' as <-. by destruct external.
  - destruct Hallow as [->|Hs]; [by rewrite Hget|]. by destruct Ne; rewrite (Hs _ eq_refl).
Qed.

Lemma frame_parses disable allow external codec enc src block rest :
  encodes (enc, src) block -> reader_codec external codec -> compatible allow codec [(enc, src)] ->
  exists dec, get (getMethodByte enc) = Ok dec /\ getMethodByte dec = getMethodByte enc /\
    parse_frame disable allow external codec (frame block ++ rest) =
      Ok (Some (flagged external dec, blen src, blen block, block, rest)) /\
    decompress (flagged external dec) block = Ok (src, blen src) /\ padding_ok (flagged external dec) /\
    (isNone (flagged external dec) = true -> drop header_size block = src).
Proof using hash_words HN.
  intros (Hs & Hb & Hbok & Hc) Hrc Hcomp. cbn [fst snd] in *.
  destruct (streamable_block enc src Hs Hb) as (block' & reserve & dec & (_ & _ & _ & Hc') & Hlen & _ & _ & Hget & Hm & Hmeth & Hall).
  cbn [fst snd] in Hc'. rewrite Hc in Hc'. injection Hc' as <-.
  destruct (Hall external) as (Hd & Hr & Hrd & Hpad & Hnone). exists dec. split_and!; try done.
  assert (sizeof_Checksum = 16 /\ header_size = 9 /\ size_header_plus_checksum = 25)%nat as (E16 & E9 & E25) by done.
  unfold frame. rewrite <- app_assoc. set (d := storeChecksum (CityHash128 block) ++ block ++ rest).
  assert (length d = 16 + length block + length rest)%nat as Hdl by (subst d; rewrite !length_app, length_storeChecksum; lia).
  assert (drop sizeof_Checksum d = block ++ rest) as Hdrop by (subst d; by rewrite drop_app_length' by (by rewrite length_storeChecksum)).
  assert (loadChecksum d = CityHash128 block) as Hck by (subst d; by apply load_storeChecksum; apply hash_words).
  assert (take header_size (drop sizeof_Checksum d) = take 9 block) as Hhd by (rewrite Hdrop; apply take_app_le; lia).
  unfold parse_frame. destruct d as [|x d0] eqn:Ed; [cbn in Hdl; lia|]. rewrite <- Ed in *. clear Ed.
  rewrite bind_require by (apply Nat.leb_le; lia). rewrite Hhd.
  assert (readHeaderAndGetCodecAndSize (take 9 block) codec allow external = Ok (flagged external dec, blen src, blen block)) as ->.
  { unfold readHeaderAndGetCodecAndSize. assert (readMethod (take 9 block) = Ok (getMethodByte enc)) as -> by (by destruct block).
    run. rewrite (chooseCodec_get allow external codec (getMethodByte enc) dec); try done.
    2:{ destruct Hcomp as [->|(m & Hm1 & Hm2)]; [by left|right]. apply Forall_cons in Hm2 as [Hm2 _]. cbn in Hm2. by subst m. }
    run. unfold readCompressedBlockSize, readDecompressedBlockSize in *. rewrite !loadUInt32_prefix by lia.
    rewrite Hr. run. rewrite Hrd. run. change (Z.of_nat header_size) with 9. by rewrite !bind_require by blia. }
  run. rewrite Nat2Z.id, bind_require by (apply Nat.leb_le; lia).
  rewrite Hdrop, take_app_length, Hck, validateChecksum_spec, decide_True by done.
  assert (drop (sizeof_Checksum + length block) d = rest) as -> by (rewrite <- drop_drop, Hdrop; apply drop_app_length).
  by destruct disable.
Qed.

(** The reader finds in the frames of a stream what was written. *)
Lemma encoded_decodes disable allow external : forall l blocks codec,
  Forall2 encodes l blocks -> reader_codec external codec -> compatible allow codec l ->
  decodes disable allow external codec (concat (frame <$> blocks)) (concat (snd <$> l)).
Proof using hash_words HN.
  induction l as [|[enc src] l IH]; intros blocks codec Hl Hrc Hcomp.
  { apply Forall2_nil_inv_l in Hl as ->. constructor. }
  apply Forall2_cons_inv_l in Hl as (block & blocks' & He & Hl & ->). cbn [fmap list_fmap concat snd].
  destruct (frame_parses disable allow external codec enc src block (concat (frame <$> blocks')) He Hrc)
    as (dec & Hget & Hm & Hp & Hd & Hpad & Hn).
  { destruct Hcomp as [|(m & H1 & H2)]; [by left|right]. exists m. apply Forall_cons in H2 as [H2 _]. auto. }
  eapply D_frame; try done. apply IH; [done| |].
  - intros c [= <-]. exists dec. by rewrite Hm.
  - destruct Hcomp as [|(m & H1 & H2)]; [by left|right]. exists m. apply Forall_cons in H2 as [H2 H3]. split; [|done].
    intros c [= <-]. cbn in H2. by destruct external; cbn; rewrite Hm.
Qed.

Section Writer.
Context {Out : Type} {HImpl : WriteBuffer.Impl Out} {HSink : WriteBuffer.Sink Out}.
(** What is asked of the codecs in use. *)
Context (P : ICompressionCodec -> Prop).
Abbreviation writer := (CompressedWriteBuffer.t Out).
Implicit Types s : writer.

(** Compressing into the output buffer itself or through a copy, the frame
    arrives. *)
Lemma writeBlock_spec c s stream :
  WriteBuffer.took (CompressedWriteBuffer.out s) stream -> Streamable (CompressedWriteBuffer.codec s) -> bounded N c ->
  exists block o, CompressedWriteBuffer.writeBlock c s = (Ok tt, CompressedWriteBuffer.set_out o s) /\
    encodes (CompressedWriteBuffer.codec s, c) block /\ WriteBuffer.took o (stream ++ frame block).
Proof using HN.
  intros Hout Hs Hb. pose proof Hb as [Hok Hlen]. unfold CompressedWriteBuffer.writeBlock.
  rewrite wrap_id by (unfold uint; lia). rewrite Nat2Z.id, firstn_all.
  destruct (streamable_block _ c Hs Hb) as (block & reserve & dec & Henc & Hbl & Hres & Hle & _).
  pose proof Henc as (_ & _ & Hbok & Hc). cbn [fst snd] in Hc. rewrite Hres, Hc.
  replace (negb _) with false by (symmetry; apply negb_false_iff, andb_true_iff; split; lia).
  rewrite Nat2Z.id, firstn_all. set (ck := CityHash128 block).
  assert (forall o, WriteBuffer.took o (stream ++ le_store 8 ck.1 ++ le_store 8 ck.2 ++ block) ->
    WriteBuffer.took o (stream ++ frame block)) as Hframe.
  { intros o. unfold frame, storeChecksum. fold ck. by rewrite <- !app_assoc. }
  destruct (Z.leb_spec (reserve + Z.of_nat sizeof_Checksum) (Z.of_nat (WriteBuffer.available (CompressedWriteBuffer.out s)))) as [Hd|Hd].
  - (* into the output buffer *)
    change (Z.of_nat sizeof_Checksum) with 16 in Hd. pose proof Hout as (Hf & Hcn & _).
    set (o0 := CompressedWriteBuffer.out s) in *.
    rewrite WriteBuffer.write_within by (rewrite ?length_le_store; done || lia).
    set (o1 := WriteBuffer.put (le_store 8 ck.1) o0).
    assert (WriteBuffer.available o1 = WriteBuffer.available o0 - 8)%nat as Ha1
      by (unfold o1, WriteBuffer.available; cbn [WriteBuffer.content WriteBuffer.capacity WriteBuffer.put]; rewrite length_app, length_le_store; lia).
    rewrite WriteBuffer.write_within by (rewrite ?length_le_store; done || lia).
    set (o2 := WriteBuffer.put (le_store 8 ck.2) o1).
    assert (WriteBuffer.available o2 = WriteBuffer.available o1 - 8)%nat as Ha2
      by (unfold o2, WriteBuffer.available; cbn [WriteBuffer.content WriteBuffer.capacity WriteBuffer.put]; rewrite length_app, length_le_store; lia).
    eexists block, _. split; [reflexivity|]. split; [done|]. apply Hframe. rewrite !app_assoc.
    repeat (apply WriteBuffer.put_spec; [|auto with chdb|rewrite ?length_le_store; lia]). done.
  - destruct (WriteBuffer.write_spec (le_store 8 ck.1) _ _ Hout ltac:(auto with chdb)) as (o1 & -> & Ho1).
    destruct (WriteBuffer.write_spec (le_store 8 ck.2) _ _ Ho1 ltac:(auto with chdb)) as (o2 & -> & Ho2).
    destruct (WriteBuffer.write_spec block _ _ Ho2 Hbok) as (o3 & -> & Ho3).
    eexists block, o3. split; [done|]. split; [done|]. apply Hframe. by rewrite !app_assoc.
Qed.

(** What has been written to a compressed buffer, block by block: the
    concatenation of the frames is in the output. *)
Definition written (cap : nat) s (d : bytes) : Prop :=
  (0 < cap)%nat /\ Z.of_nat cap <= N /\ Z.of_nat (CompressedWriteBuffer.adaptive_buffer_max_size s) <= N /\
  (Streamable (CompressedWriteBuffer.codec s) /\ P (CompressedWriteBuffer.codec s)) /\
  exists l blocks, (Forall2 encodes l blocks /\ Forall (fun p => P p.1) l) /\ d = concat (snd <$> l) /\
    WriteBuffer.took (CompressedWriteBuffer.out s) (concat (frame <$> blocks)).

Lemma written_next cap s d c : written cap s d -> c <> [] -> (length c <= cap)%nat -> bytes_ok c ->
  exists cap' s', CompressedWriteBuffer.nextImpl cap c s = (Ok cap', s') /\ written cap' s' (d ++ c).
Proof using HN.
  intros (Hcap & HcapN & Hmax & [Hs HP] & l & blocks & [Hl HlP] & -> & Hout) Hne Hlen Hok.
  assert (bounded N c) as Hb by (split; [done|]; destruct c; [done|cbn [length] in *; lia]).
  destruct (writeBlock_spec c s _ Hout Hs Hb) as (block & o & E & He & Ho).
  unfold CompressedWriteBuffer.nextImpl. rewrite E. eexists _, _. split; [reflexivity|].
  assert (exists l' blocks', (Forall2 encodes l' blocks' /\ Forall (fun p => P p.1) l') /\ concat (snd <$> l) ++ c = concat (snd <$> l') /\
    WriteBuffer.took o (concat (frame <$> blocks'))) as Hex.
  { exists (l ++ [(CompressedWriteBuffer.codec s, c)]), (blocks ++ [block]). split.
    { split; [by apply Forall2_app; [|constructor]|]. apply Forall_app. split; [done|]. by constructor. }
    rewrite !fmap_app, !concat_app. cbn. by rewrite !app_nil_r. }
  cbn. destruct (_ && _) eqn:Eg; [apply andb_true_iff in Eg as [_ Eg%Nat.ltb_lt]|]; (split; [lia|]; split; [lia|]; by split_and!).
Qed.

#[global] Instance writer_sink : WriteBuffer.Sink writer.
Proof using HSink HFactory HN P.
  refine {| WriteBuffer.accepts := written |}.
  - by intros cap s d [? _].
  - intros cap s d c. apply written_next.
  - intros cap s d f (? & ? & ? & ? & ?) [= <-]. done.
Defined.

(** Changing the codec between two writes loses nothing. *)
Lemma setCodec_spec codec b d : Streamable codec -> P codec -> WriteBuffer.took b d ->
  exists b', CompressedWriteBuffer.setCodec codec b = (Ok tt, b') /\ WriteBuffer.took b' d.
Proof using Type.
  intros Hs HP Hb. unfold CompressedWriteBuffer.setCodec. destruct (WriteBuffer.next_spec b d Hb) as (b1 & -> & Hb1 & Hc).
  rewrite Hc. eexists; split; [reflexivity|]. destruct Hb1 as (Hf & Hcn & _ & _ & d' & -> & (H1 & H2 & H3 & _ & H5)).
  split_and!; cbn; try done; [lia|]. exists d'. by rewrite Hc.
Qed.

Lemma took_make out codec buf_size adaptive initial :
  WriteBuffer.took out [] -> Streamable codec -> P codec -> (0 < buf_size)%nat -> (0 < initial)%nat ->
  Z.of_nat buf_size <= N -> Z.of_nat initial <= N ->
  WriteBuffer.took (CompressedWriteBuffer.make out codec buf_size adaptive initial) [].
Proof using Type.
  intros Hout Hs HP H1 H2 H3 H4. split_and!; cbn; try done; [lia|]. exists []. split; [done|].
  split; [by destruct adaptive|]. split; [by destruct adaptive|]. split; [done|]. split; [done|]. by exists [], [].
Qed.

(** A session with a compressed buffer. *)
Inductive command : Type :=
| Write (data : bytes)
| WriteChar (x : Z)
| SetCodec (codec : ICompressionCodec)
| Next.

Definition run_command (c : command) (b : WriteBuffer.t writer) : outcome unit * WriteBuffer.t writer :=
  match c with
  | Write data => WriteBuffer.write data b
  | WriteChar x => WriteBuffer.writeChar x b
  | SetCodec codec => CompressedWriteBuffer.setCodec codec b
  | Next => WriteBuffer.next b
  end.

Fixpoint run_commands (cs : list command) (b : WriteBuffer.t writer) : outcome unit * WriteBuffer.t writer :=
  match cs with
  | [] => WriteBuffer.finalize b
  | c :: cs => match run_command c b with
               | (Ok _, b) => run_commands cs b
               | (r, b) => (r, b)
               end
  end.

Definition data_of (c : command) : bytes :=
  match c with Write data => data | WriteChar x => [x] | SetCodec _ | Next => [] end.

Definition command_ok (c : command) : Prop :=
  match c with
  | Write data => bytes_ok data
  | WriteChar x => byte_ok x
  | SetCodec codec => Streamable codec /\ P codec
  | Next => True
  end.

Lemma run_commands_spec : forall cs b d, Forall command_ok cs -> WriteBuffer.took b d ->
  exists b' l blocks, run_commands cs b = (Ok tt, b') /\ Forall2 encodes l blocks /\ Forall (fun p => P p.1) l /\
    d ++ concat (data_of <$> cs) = concat (snd <$> l) /\
    WriteBuffer.took (CompressedWriteBuffer.out (WriteBuffer.impl b')) (concat (frame <$> blocks)).
Proof using HN HSink.
  induction cs as [|c cs IH]; intros b d Hcs Hb; cbn [run_commands].
  - destruct (WriteBuffer.finalize_spec b d Hb) as (b' & d' & -> & _ & _ & -> & Ha & _ & Hc). rewrite Hc by done.
    destruct Ha as (_ & _ & _ & _ & l & blocks & [Hl HP] & -> & Ho). exists b', l, blocks. cbn. by rewrite !app_nil_r.
  - apply Forall_cons in Hcs as [Hc Hcs].
    assert (exists b', run_command c b = (Ok tt, b') /\ WriteBuffer.took b' (d ++ data_of c)) as (b' & -> & Hb').
    { destruct c; cbn [run_command data_of command_ok] in *.
      - by apply WriteBuffer.write_spec.
      - by apply WriteBuffer.writeChar_spec.
      - rewrite app_nil_r. destruct Hc. by apply setCodec_spec.
      - rewrite app_nil_r. destruct (WriteBuffer.next_spec b d Hb) as (b' & ? & ? & _). eauto. }
    destruct (IH b' _ Hcs Hb') as (b2 & l & blocks & E & H1 & H2 & H3 & H4). exists b2, l, blocks.
    split_and!; try done. cbn. by rewrite app_assoc.
Qed.
End Writer.

(** Requests to a reader: [(n, big)] asks for [n] bytes through [readBig] or
    [read]. *)
Fixpoint run_reads (reqs : list (nat * bool)) (b : ReadBuffer.t (CompressedReadBufferBase.t (list bytes)))
    : outcome (list bytes * bool) :=
  match reqs with
  | [] => '(at_end, _) ← ReadBuffer.eof b; Ok ([], at_end)
  | (n, big) :: reqs =>
      '(piece, b) ← (if big : bool then CompressedReadBuffer.readBig n b else ReadBuffer.read n b);
      '(pieces, at_end) ← run_reads reqs b;
      Ok (piece :: pieces, at_end)
  end.

Fixpoint cut (reqs : list (nat * bool)) (d : bytes) : list bytes * bool :=
  match reqs with
  | [] => ([], bool_decide (d = []))
  | (n, _) :: reqs => let '(pieces, at_end) := cut reqs (drop n d) in (take n d :: pieces, at_end)
  end.

Lemma run_reads_spec : forall reqs b d, ReadBuffer.holds b d -> run_reads reqs b = Ok (cut reqs d).
Proof using Type.
  induction reqs as [|[n big] reqs IH]; intros b d Hb; cbn [run_reads cut].
  - destruct (ReadBuffer.rbuf_eof_spec b d Hb) as (b' & -> & _). done.
  - assert (exists b', (if big then CompressedReadBuffer.readBig n b else ReadBuffer.read n b) = Ok (take n d, b') /\
      ReadBuffer.holds b' (drop n d)) as (b' & -> & Hb').
    { destruct big; [by apply readBig_spec|by apply ReadBuffer.read_spec]. }
    run. rewrite (IH b' _ Hb'). run. by destruct (cut reqs (drop n d)).
Qed.

Lemma holds_make chunks allow external l blocks :
  (forall m c, get m = Ok c -> padding_ok c) ->
  Forall2 encodes l blocks -> compatible allow None l -> concat chunks = concat (frame <$> blocks) ->
  ReadBuffer.holds (CompressedReadBuffer.make chunks allow external) (concat (snd <$> l)).
Proof using hash_words HN.
  intros Hpad Hl Hcomp E. split; [done|]. exists (concat (snd <$> l)). split; [done|].
  split; [done|]. split; [done|]. exists (concat (frame <$> blocks)). cbn. split.
  - rewrite <- E. apply ReadBuffer.holds_of_chunks.
  - by apply encoded_decodes.
Qed.

(** Whatever the session wrote, with whatever buffer sizes, is what a reader
    gets, with whatever requests, from the compressed bytes in whatever
    buffers they arrive. *)
Lemma stream_roundtrip out_size codec buf_size adaptive initial cs chunks allow external reqs m0 :
  (forall m c, get m = Ok c -> padding_ok c) ->
  (0 < out_size)%nat -> (0 < buf_size)%nat -> (0 < initial)%nat -> Z.of_nat buf_size <= N -> Z.of_nat initial <= N ->
  let P c := allow = true \/ getMethodByte c = m0 in
  Streamable codec -> P codec -> Forall (command_ok P) cs ->
  exists b', run_commands cs (CompressedWriteBuffer.make (WriteBuffer.of_memory out_size) codec buf_size adaptive initial) = (Ok tt, b') /\
    (concat chunks = WriteBuffer.memory_of (CompressedWriteBuffer.out (WriteBuffer.impl b')) ->
     run_reads reqs (CompressedReadBuffer.make chunks allow external) = Ok (cut reqs (concat (data_of <$> cs)))).
Proof using hash_words HN.
  intros Hpad H1 H2 H3 H4 H5 P Hs HP Hcs.
  destruct (run_commands_spec P cs (CompressedWriteBuffer.make (WriteBuffer.of_memory out_size) codec buf_size adaptive initial) [])
    as (b' & l & blocks & E & Hl & HlP & Ed & Ho); [done| |].
  { apply took_make; try done. by apply WriteBuffer.took_of_memory. }
  exists b'. split; [done|]. intros Ec. apply run_reads_spec. cbn [app] in Ed. rewrite Ed.
  apply (holds_make _ _ _ _ blocks); try done.
  - destruct allow; [by left|right]. exists m0. split; [done|]. eapply Forall_impl; [exact HlP|]. by intros p [|].
  - rewrite Ec. unfold WriteBuffer.memory_of. destruct Ho as (_ & _ & _ & _ & d' & -> & [_ ->]). done.
Qed.
End RoundTrip.
