(* ===== verification/CodecStreams.v ===== *)
(** * The codecs of the factory in compressed streams

    Discharges the hypotheses of [CompressedStreamFacts] for the factory of
    [CodecFactory]: every modelled codec, and every chain of them, can be used
    for a stream. *)

From stdpp Require Import prelude gmap strings.
From Stdlib Require Import ZArith Lia.
From S2P Require Import Prelude Codec CodecDelta CodecDoubleDelta CodecGorilla CodecFPC CodecT64 CodecGCD CodecMultiple.
From S2P Require Import CodecFactory Buffers CompressedStream CompressedStreamFacts.

Import CompressionCodecMultiple CompressionCodecFactory.

(** What is in the map was registered. *)
Lemma register_only regs : forall f0 f code creator,
  foldl (fun f '(name, code, creator) => f ← f; registerCompressionCodecWithType name code creator f) (Ok f0) regs = Ok f ->
  family_code_with_codec f !! code = Some creator ->
  family_code_with_codec f0 !! code = Some creator \/ exists name, (name, Some code, creator) ∈ regs.
Proof.
  induction regs as [|[[name code'] creator'] regs IH]; intros f0 f code creator E Hin; cbn [foldl] in E; run.
  { injection E as <-. by left. }
  cbn [mbind outcome_bind] in E.
  destruct (registerCompressionCodecWithType name code' creator' f0) as [f1|e|] eqn:E1.
  2,3: exfalso; revert E; clear; induction regs as [|[[? ?] ?] regs IH]; cbn; [done|apply IH].
  destruct (IH f1 f code creator E Hin) as [H1|(n & H1)]; [|right; exists n; by apply elem_of_cons; right].
  unfold registerCompressionCodecWithType in E1. destruct (family_name_with_codec f0 !! name); [done|].
  destruct code' as [c'|]; [|injection E1 as <-; by left]. destruct (family_code_with_codec f0 !! c'); [done|].
  injection E1 as <-. cbn in H1. destruct (decide (c' = code)) as [->|Hne].
  - rewrite lookup_insert_eq in H1. injection H1 as <-. right. exists name. apply elem_of_cons. by left.
  - rewrite lookup_insert_ne in H1 by done. by left.
Qed.

Section Streams.
Context (st : option Z) (boost_gcd libdivide : Z -> Z -> Z) (third_party : CompressionMethodByte -> CreatorWithType)
        (lz4hc : CreatorWithType).
Abbreviation regs self := (registrations st boost_gcd libdivide third_party lz4hc self).
Abbreviation get_ d := (instance_get st boost_gcd libdivide third_party lz4hc d).
(** The codecs of third parties ask for padding, not for less. *)
Context (third_party_padding : forall m args ty c, third_party m args ty = Ok c -> padding_ok c).

Lemma get_creator d m c : get_ (S d) m = Ok c -> exists name creator, (name, Some m, creator) ∈ regs (get_ d) /\ creator None None = Ok c.
Proof using Type.
  cbn [instance_get]. intros (f & Hf & H)%bind_Ok_inv. unfold get_by_byte in H.
  destruct (family_code_with_codec f !! m) as [creator|] eqn:E; [|done].
  destruct (register_only _ _ _ _ _ Hf E) as [H0|(name & Hin)]; [cbn in H0; by rewrite lookup_empty in H0|eauto].
Qed.

Lemma get_padding d m c : get_ (S d) m = Ok c -> padding_ok c.
Proof using third_party_padding.
  intros (name & creator & Hin & Hc)%get_creator. revert Hc.
  repeat (apply elem_of_cons in Hin as [Heq|Hin];
    [first [discriminate Heq|injection Heq as _ _ ->; first [by eapply third_party_padding|by intros [= <-]|done]]|]).
  by apply not_elem_of_nil in Hin.
Qed.

#[local] Instance factory d : Factory := get_ (S d).

Lemma registered_reader d name m creator c : (name, Some m, creator) ∈ regs (get_ d) -> creator None None = Ok c ->
  forall dec, get (Factory := factory d) m = Ok dec -> dec = c.
Proof using Type.
  intros Hin Hc dec H. unfold get, factory in H. rewrite (get_registered _ _ _ _ _ d name m creator Hin), Hc in H. by injection H.
Qed.

(** Every modelled codec can be used in a stream. *)
Lemma modelled_streamable N d c : modelled st c -> N <= source_limit (getMethodByte c) -> @Streamable (factory d) N c.
Proof using Type.
  intros Hm HN. split; [by apply modelled_link_limit|]. clear HN.
  destruct Hm; cbn [getMethodByte CompressionCodecNone CompressionCodecDelta.codec CompressionCodecDoubleDelta.codec
    CompressionCodecGorilla.codec CompressionCodecT64.codec CompressionCodecFPC.codec]; intros dec Hg Hn; [done| | | | |];
    exfalso; revert Hn.
  - by rewrite (registered_reader d "Delta" _ registerCodecDelta _ ltac:(by apply (list_elem_of_lookup_2 _ 5)) eq_refl dec Hg).
  - by rewrite (registered_reader d "DoubleDelta" _ registerCodecDoubleDelta _ ltac:(by apply (list_elem_of_lookup_2 _ 7)) eq_refl dec Hg).
  - by rewrite (registered_reader d "Gorilla" _ (registerCodecGorilla st) _ ltac:(by apply (list_elem_of_lookup_2 _ 8)) eq_refl dec Hg).
  - by rewrite (registered_reader d "T64" _ registerCodecT64 _ ltac:(by apply (list_elem_of_lookup_2 _ 6)) eq_refl dec Hg).
  - by rewrite (registered_reader d "FPC" _ registerCodecFPC _ ltac:(by apply (list_elem_of_lookup_2 _ 11)) eq_refl dec Hg).
Qed.
End Streams.
