(* ===== verification/Itoa.v ===== *)
(** * Decimal text of integers

    [itoa] ([base/base/itoa.cpp]): two digits at a time, by fixed-point
    multiplication for up to 64 bits, and by blocks of eighteen digits with a
    Barrett reduction for 128 and 256 bits.  The code writes through a pointer
    into a buffer; the theorems say that it writes the decimal digits, all of
    them inside the buffer. *)

From stdpp Require Import prelude.
From Stdlib Require Import ZArith Lia.
From S2P Require Import Prelude.

(** ** The buffer and the pointer into it *)
Record Out := At { chars : bytes; ptr : Z }.

(** [*p = c] and [memcpy] of a pair; outside the buffer both are undefined. *)
Definition poke (p c : Z) (buf : bytes) : outcome bytes :=
  _ ← defined ((0 <=? p) && (p <? blen buf));
  Ok (<[Z.to_nat p := c]> buf).

Definition poke2 (p : Z) (dd : Z * Z) (buf : bytes) : outcome bytes :=
  buf ← poke p dd.1 buf;
  poke (p + 1) dd.2 buf.

Definition chr0 : Z := 48.
Definition minus_sign : Z := 45.

Definition outOneDigit (value : Z) (o : Out) : outcome Out :=
  buf ← poke (ptr o) (wrap 8 (chr0 + value)) (chars o);
  Ok (At buf (ptr o + 1)).

(** The constant [digits] of two-digit texts, and [outTwoDigits]. *)
Definition digit_pairs : list (Z * Z) := (fun n => (chr0 + Z.of_nat (n / 10)%nat, chr0 + Z.of_nat (n mod 10)%nat)) <$> seq 0 100.

Definition two_digits (value : Z) : outcome (Z * Z) :=
  _ ← defined (0 <=? value);
  match digit_pairs !! Z.to_nat value with Some p => Ok p | None => Undef end.

Definition outTwoDigits (value : Z) (o : Out) : outcome Out :=
  dd ← two_digits value;
  buf ← poke2 (ptr o) dd (chars o);
  Ok (At buf (ptr o + 2)).

Module jeaiii.
(** [digits.dd] and [digits.fd]: in the latter a single digit is followed by a
    zero byte. *)
Definition dd : Z -> outcome (Z * Z) := two_digits.

Definition fd (n : Z) : outcome (Z * Z) :=
  '(d1, d0) ← two_digits n;
  Ok (if n <? 10 then (d0, 0) else (d1, d0)).

Definition mask24 : Z := Z.shiftl 1 24 - 1.
Definition mask32 : Z := Z.shiftl 1 32 - 1.
Definition mask57 : Z := Z.shiftl 1 57 - 1.

(** [digits.fd[f0 >> s]] at [b]; the pointer then steps back over the zero
    byte if the number is [short]. *)
Definition first_pair (s f0 : Z) (short : bool) (o : Out) : outcome Out :=
  p ← fd (Z.shiftr f0 s);
  buf ← poke2 (ptr o) p (chars o);
  Ok (At buf (ptr o + 2 - (if short then 1 else 0))).

(** [f2 = (f0 & mask) * 100; digits.dd[f2 >> s]], [k] times. *)
Fixpoint more_pairs (k : nat) (s mask f : Z) (o : Out) : outcome Out :=
  match k with
  | O => Ok o
  | S k =>
      let f := wrap 64 (Z.land f mask * 100) in
      p ← dd (Z.shiftr f s);
      buf ← poke2 (ptr o) p (chars o);
      more_pairs k s mask f (At buf (ptr o + 2))
  end.

(** The ranges shared by the branches: 3 or 4, 5 or 6, 7 or 8, 9 or 10
    digits.  The factors are [UInt32(10 * (1 << 24) / 1e3 + 1)] and so on. *)
Definition digits4 (w n : Z) (short : bool) (o : Out) : outcome Out :=
  let f0 := wrap w (167773 * n) in
  o ← first_pair 24 f0 short o;
  more_pairs 1 24 mask24 f0 o.

Definition digits6 (n : Z) (short : bool) (o : Out) : outcome Out :=
  let f0 := wrap 64 (429497 * n) in
  o ← first_pair 32 f0 short o;
  more_pairs 2 32 mask32 f0 o.

Definition digits8 (n : Z) (o : Out) : outcome Out :=
  let f0 := Z.shiftr (wrap 64 (281474977 * n)) 16 in
  o ← first_pair 32 f0 (n <? 10000000) o;
  more_pairs 3 32 mask32 f0 o.

Definition digits10 (n : Z) (o : Out) : outcome Out :=
  let f0 := wrap 64 (1441151881 * n) in
  o ← first_pair 57 f0 (n <? 1000000000) o;
  more_pairs 4 57 mask57 f0 o.

(** Exactly eight digits. *)
Definition all8 (z : Z) (o : Out) : outcome Out :=
  let f0 := wrap 64 (Z.shiftr (wrap 64 (281474977 * z)) 16 + 1) in
  p ← dd (Z.shiftr f0 32);
  buf ← poke2 (ptr o) p (chars o);
  more_pairs 3 32 mask32 f0 (At buf (ptr o + 2)).

(** [to_text_from_integer] for the magnitude [n] of type [U] of [w] bits. *)
Definition to_text (w n : Z) (o : Out) : outcome Out :=
  if n <? 100 then
    if n <? 10 then outOneDigit n o else outTwoDigits n o
  else if n <? 1000000 then
    if (w =? 8) || (n <? 10000) then digits4 (Z.max 32 w) n ((w =? 8) || (n <? 1000)) o
    else digits6 n ((w =? 16) || (n <? 100000)) o
  else if (w =? 32) || (n <? 2 ^ 32) then
    if n <? 100000000 then digits8 n o else digits10 n o
  else
    let z := n mod 100000000 in
    let u := n / 100000000 in
    o ← (if u <? 100 then
           p ← dd u;
           buf ← poke2 (ptr o) p (chars o);
           Ok (At buf (ptr o + 2))
         else if u <? 1000000 then
           if u <? 10000 then digits4 64 u (u <? 1000) o else digits6 u (u <? 100000) o
         else if u <? 100000000 then digits8 u o
         else if u <? 2 ^ 32 then digits10 u o
         else
           let y := u mod 100000000 in
           let u := u / 100000000 in
           o ← (if u <? 100 then
                  p ← dd u;
                  buf ← poke2 (ptr o) p (chars o);
                  Ok (At buf (ptr o + 2))
                else digits4 64 u (u <? 1000) o);
           all8 y o);
    all8 z o.

(** [to_text_from_integer]: the sign first. *)
Definition to_text_from_integer (w i : Z) (o : Out) : outcome Out :=
  if i <? 0 then
    buf ← poke (ptr o) minus_sign (chars o);
    to_text w (wrap w (- i)) (At buf (ptr o + 1))
  else to_text w (wrap w i) o.
End jeaiii.

(** ** More than 64 bits *)
Definition max_multiple_of_hundred_that_fits_in_64_bits : Z := 1000000000000000000.
Definition max_multiple_of_hundred_blocks : nat := 9.

(** [divmod_1e18]: quotient and remainder. *)
Definition divmod_1e18 (n : Z) : Z * Z :=
  let M_lo := 0x725DD1D243ABA0E7 in
  let M_hi := 0x12 in
  let n_lo := wrap 64 n in
  let n_hi := wrap 64 (Z.shiftr n 64) in
  let c := wrap 128 (n_lo * M_lo) in
  let c_hi := wrap 64 (Z.shiftr c 64) in
  let mid := wrap 128 (wrap 128 (n_hi * M_lo) + wrap 128 (n_lo * M_hi) + c_hi) in
  let q := wrap 128 (n_hi * M_hi + wrap 64 (Z.shiftr mid 64)) in
  let r := wrap 128 (n - q * max_multiple_of_hundred_that_fits_in_64_bits) in
  if max_multiple_of_hundred_that_fits_in_64_bits <=? r
  then (wrap 128 (q + 1), wrap 64 (r - max_multiple_of_hundred_that_fits_in_64_bits))
  else (q, wrap 64 r).

(** The pairs of digits, the lowest first. *)
Fixpoint extract_pairs (k : nat) (remainder : Z) : list Z :=
  match k with
  | O => []
  | S k => remainder mod 100 :: extract_pairs k (remainder / 100)
  end.

Definition extractDigitPairs (remainder : Z) : list Z := extract_pairs max_multiple_of_hundred_blocks remainder.

(** From the last pair to the first. *)
Definition writeDigitPairs (o : Out) (two_values : list Z) : outcome Out :=
  foldr (fun v o => o ← o; outTwoDigits v o) (Ok o) two_values.

Definition writeUIntText128 (x : Z) (o : Out) : outcome Out :=
  if x <? 2 ^ 64 then jeaiii.to_text_from_integer 64 x o
  else
    let '(x, r1) := divmod_1e18 x in
    if 2 ^ 64 - 1 <? x then
      let '(x, r2) := divmod_1e18 x in
      o ← jeaiii.to_text_from_integer 64 (wrap 64 x) o;
      writeDigitPairs o (extractDigitPairs r1 ++ extractDigitPairs r2)
    else
      o ← jeaiii.to_text_from_integer 64 (wrap 64 x) o;
      writeDigitPairs o (extractDigitPairs r1).

(** The loop divides while more than 128 bits remain: at most three times;
    [two_values] has room for 39 pairs. *)
Fixpoint reduce256 (fuel : nat) (x : Z) (two_values : list Z) : outcome (Z * list Z) :=
  if 2 ^ 128 - 1 <? x then
    match fuel with
    | O => Undef
    | S fuel =>
        let u64_remainder := wrap 64 (x mod max_multiple_of_hundred_that_fits_in_64_bits) in
        _ ← defined (Nat.leb (length two_values + max_multiple_of_hundred_blocks) 39);
        reduce256 fuel (x / max_multiple_of_hundred_that_fits_in_64_bits) (two_values ++ extractDigitPairs u64_remainder)
    end
  else Ok (x, two_values).

Definition writeUIntText256 (x : Z) (o : Out) : outcome Out :=
  if x <? 2 ^ 128 then writeUIntText128 x o
  else
    '(pending, two_values) ← reduce256 3 x [];
    o ← writeUIntText128 pending o;
    writeDigitPairs o two_values.

(** [memcpy] of a constant text. *)
Fixpoint copy_text (text : bytes) (o : Out) : outcome Out :=
  match text with
  | [] => Ok o
  | c :: text => buf ← poke (ptr o) c (chars o); copy_text text (At buf (ptr o + 1))
  end.

Definition min_int128_text : bytes :=
  minus_sign :: ((fun d => chr0 + d) <$> [1;7;0;1;4;1;1;8;3;4;6;0;4;6;9;2;3;1;7;3;1;6;8;7;3;0;3;7;1;5;8;8;4;1;0;5;7;2;8]).
Definition min_int256_text : bytes :=
  minus_sign :: ((fun d => chr0 + d) <$>
    [5;7;8;9;6;0;4;4;6;1;8;6;5;8;0;9;7;7;1;1;7;8;5;4;9;2;5;0;4;3;4;3;9;5;3;9;2;6;6;3;4;9;9;2;3;3;2;8;2;0;2;8;2;0;1;9;7;2;8;
     7;9;2;0;0;3;9;5;6;5;6;4;8;1;9;9;6;8]).

(** [writeSIntText<Int128>] and [<Int256>]. *)
Definition writeSIntText (w x : Z) (o : Out) : outcome Out :=
  let write := if w =? 128 then writeUIntText128 else writeUIntText256 in
  if x =? - 2 ^ (w - 1) then copy_text (if w =? 128 then min_int128_text else min_int256_text) o
  else if x <? 0 then
    buf ← poke (ptr o) minus_sign (chars o);
    write (wrap w (- x)) (At buf (ptr o + 1))
  else write (wrap w x) o.

(** [itoa] for a type of [w] bits. *)
Definition itoa (signed : bool) (w i : Z) (o : Out) : outcome Out :=
  if w <=? 64 then jeaiii.to_text_from_integer w i o
  else if signed then writeSIntText w i o
  else if w =? 128 then writeUIntText128 i o else writeUIntText256 i o.

(** [max_int_width] of [src/IO/WriteIntText.h]. *)
Definition max_int_width (signed : bool) (w : Z) : Z :=
  if w =? 8 then (if signed then 4 else 3)
  else if w =? 16 then (if signed then 6 else 5)
  else if w =? 32 then (if signed then 11 else 10)
  else if w =? 64 then 20
  else if w =? 128 then (if signed then 40 else 39)
  else 78.

(** The text that [writeUIntTextFallback] produces in its temporary buffer. *)
Definition writeIntText (signed : bool) (w i : Z) : outcome bytes :=
  o ← itoa signed w i (At (replicate (Z.to_nat (max_int_width signed w)) 0) 0);
  Ok (take (Z.to_nat (ptr o)) (chars o)).

(** ** The reference *)
Fixpoint decimal_fuel (fuel : nat) (n : Z) : bytes :=
  match fuel with
  | O => []
  | S fuel => if n <? 10 then [chr0 + n] else decimal_fuel fuel (n / 10) ++ [chr0 + n mod 10]
  end.

Definition decimal (n : Z) : bytes := decimal_fuel (S (Z.to_nat (Z.log2 n))) n.

Definition decimal_text (i : Z) : bytes := if i <? 0 then minus_sign :: decimal (- i) else decimal i.

(** ** Digits *)
Lemma decimal_fuel_enough f f' n : 0 <= n -> (Z.to_nat (Z.log2 n) < f)%nat -> (Z.to_nat (Z.log2 n) < f')%nat ->
  decimal_fuel f n = decimal_fuel f' n.
Proof.
  revert f' n; induction f as [|f IH]; intros f' n Hn Hf Hf'; [lia|]. destruct f' as [|f']; [lia|]. cbn.
  destruct (Z.ltb_spec n 10); [done|]. f_equal.
  assert (Z.log2 (n / 10) < Z.log2 n) as Hlt.
  { apply Z.log2_lt_pow2; [dlia|]. pose proof (Z.log2_spec n ltac:(lia)) as [_ Hs]. rewrite Z.pow_succ_r in Hs by apply Z.log2_nonneg. apply Z.div_lt_upper_bound; lia. }
  pose proof (Z.log2_nonneg (n / 10)). apply IH; [dlia|lia|lia].
Qed.

Lemma decimal_small n : 0 <= n < 10 -> decimal n = [chr0 + n].
Proof. intros Hn. unfold decimal. cbn. destruct (Z.ltb_spec n 10); [done|lia]. Qed.

Lemma decimal_step n : 10 <= n -> decimal n = decimal (n / 10) ++ [chr0 + n mod 10].
Proof.
  intros Hn. unfold decimal at 1. cbn [decimal_fuel]. destruct (Z.ltb_spec n 10); [lia|]. f_equal.
  assert (Z.log2 (n / 10) < Z.log2 n) as Hlt.
  { apply Z.log2_lt_pow2; [dlia|]. pose proof (Z.log2_spec n ltac:(lia)) as [_ Hs]. rewrite Z.pow_succ_r in Hs by apply Z.log2_nonneg. apply Z.div_lt_upper_bound; lia. }
  pose proof (Z.log2_nonneg (n / 10)). apply decimal_fuel_enough; [dlia|lia|lia].
Qed.

(** Two digits. *)
Definition two (v : Z) : bytes := [chr0 + v / 10; chr0 + v mod 10].

Lemma decimal_two v : 10 <= v < 100 -> decimal v = two v.
Proof. intros Hv. rewrite decimal_step, decimal_small by dlia. done. Qed.

Lemma decimal_pair n : 100 <= n -> decimal n = decimal (n / 100) ++ two (n mod 100).
Proof.
  intros Hn. rewrite decimal_step by lia. rewrite (decimal_step (n / 10)) by dlia.
  rewrite <- app_assoc. cbn [app]. unfold two.
  assert (n / 10 / 10 = n / 100 /\ n / 10 mod 10 = n mod 100 / 10 /\ n mod 10 = (n mod 100) mod 10) as (-> & -> & ->) by dlia. done.
Qed.

Lemma decimal_app q r : 0 < q -> 0 <= r < 100 -> decimal (100 * q + r) = decimal q ++ two r.
Proof. intros Hq Hr. rewrite decimal_pair by lia.
  assert ((100 * q + r) / 100 = q /\ (100 * q + r) mod 100 = r) as (-> & ->) by dlia. done.
Qed.

Lemma two_digits_ok v : 0 <= v < 100 -> two_digits v = Ok (chr0 + v / 10, chr0 + v mod 10).
Proof.
  intros Hv. unfold two_digits. rewrite bind_defined by blia. unfold digit_pairs.
  rewrite list_lookup_fmap, lookup_seq_lt by lia. cbn [fmap option_fmap option_map].
  rewrite Nat2Z.inj_div, Nat2Z.inj_mod. replace (Z.of_nat (0 + Z.to_nat v)) with v by lia. done.
Qed.

(** ** The text written so far

    [text o pre room]: the buffer starts with [pre], the pointer is behind it,
    and [room] more bytes can be written. *)
Definition text (o : Out) (pre : bytes) (room : Z) : Prop :=
  exists junk, chars o = pre ++ junk /\ ptr o = blen pre /\ blen junk = room.

Lemma poke_text o pre room c : text o pre room -> 0 < room ->
  exists buf, poke (ptr o) c (chars o) = Ok buf /\ text (At buf (ptr o + 1)) (pre ++ [c]) (room - 1).
Proof.
  intros (junk & -> & -> & <-) Hroom. destruct junk as [|x junk]; [cbn in Hroom; lia|]. unfold poke.
  rewrite bind_defined by (apply andb_true_iff; rewrite Z.leb_le, Z.ltb_lt, length_app; cbn [length]; lia).
  eexists; split; [reflexivity|]. exists junk. cbn [chars ptr length]. rewrite Nat2Z.id, length_app. cbn [length].
  rewrite insert_app_r_alt by lia. rewrite Nat.sub_diag. cbn. rewrite <- app_assoc. split_and!; [done|lia|lia].
Qed.

Lemma poke2_text o pre room a b : text o pre room -> 2 <= room ->
  exists buf, poke2 (ptr o) (a, b) (chars o) = Ok buf /\
    text (At buf (ptr o + 2)) (pre ++ [a; b]) (room - 2) /\ text (At buf (ptr o + 1)) (pre ++ [a]) (room - 1).
Proof.
  intros Ht Hroom. unfold poke2. cbn [fst snd].
  destruct (poke_text o pre room a Ht ltac:(lia)) as (buf & -> & H1). run.
  destruct (poke_text _ _ _ b H1 ltac:(lia)) as (buf2 & E & H2). cbn [chars ptr] in *. exists buf2. split; [done|]. split.
  - destruct H2 as (junk & Ec & Ep & Hl). exists junk. cbn [chars ptr] in *.
    rewrite !length_app in *. cbn [length] in *. rewrite Ec, <- !app_assoc. split_and!; [done|lia|lia].
  - destruct H2 as (junk & Ec & Ep & Hl). exists (b :: junk). cbn [chars ptr length] in *.
    destruct Ht as (_ & _ & Hp & _). rewrite Ec, <- !app_assoc, !length_app. cbn. split_and!; [done|lia|lia].
Qed.

Lemma pair_text o pre room v : text o pre room -> 0 <= v < 100 -> 2 <= room ->
  exists buf, (p ← two_digits v; poke2 (ptr o) p (chars o)) = Ok buf /\
    text (At buf (ptr o + 2)) (pre ++ two v) (room - 2).
Proof.
  intros Ht Hv Hroom. rewrite two_digits_ok by done. run.
  destruct (poke2_text o pre room (chr0 + v / 10) (chr0 + v mod 10) Ht Hroom) as (buf & E & H & _). eauto.
Qed.

(** ** Fixed-point digits

    [fits s g vs]: the fraction [g / 2^s] has [vs] as its next digits in base
    100. *)
Fixpoint fits (s g : Z) (vs : list Z) : Prop :=
  0 <= g < 2 ^ s /\
  match vs with
  | [] => True
  | v :: vs => 0 <= v < 100 /\ fits s (100 * g - v * 2 ^ s) vs
  end.

Lemma land_mask f s : 0 <= s -> Z.land f (Z.shiftl 1 s - 1) = f mod 2 ^ s.
Proof. intros Hs. rewrite Z.shiftl_1_l, <- Z.land_ones, Z.ones_equiv by lia. by rewrite Z.sub_1_r. Qed.

Lemma more_pairs_text s vs : 0 <= s -> 100 * 2 ^ s <= 2 ^ 64 -> forall f g o pre room,
  f mod 2 ^ s = g -> fits s g vs -> text o pre room -> 2 * blen vs <= room ->
  exists o', jeaiii.more_pairs (length vs) s (Z.shiftl 1 s - 1) f o = Ok o' /\
    text o' (pre ++ concat (two <$> vs)) (room - 2 * blen vs).
Proof.
  intros Hs H64. induction vs as [|v vs IH]; intros f g o pre room Hg Hf Ht Hroom.
  { exists o. cbn. rewrite app_nil_r, Z.sub_0_r. done. }
  cbn [length jeaiii.more_pairs]. destruct Hf as (Hg2 & Hv & Hf).
  assert (0 <= 100 * g - v * 2 ^ s < 2 ^ s) as Hg' by (destruct vs; apply Hf).
  rewrite land_mask, Hg, wrap_id by (unfold uint; lia). rewrite Z.shiftr_div_pow2 by lia.
  assert (g * 100 / 2 ^ s = v) as -> by (symmetry; apply (Z.div_unique _ _ _ (100 * g - v * 2 ^ s)); [left; lia|lia]).
  unfold jeaiii.dd. rewrite two_digits_ok by lia. run.
  destruct (poke2_text o pre room (chr0 + v / 10) (chr0 + v mod 10) Ht ltac:(cbn [length] in Hroom; lia)) as (buf & -> & Ht' & _). run.
  destruct (IH (g * 100) (100 * g - v * 2 ^ s) (At buf (ptr o + 2)) (pre ++ two v) (room - 2)) as (o' & -> & Ho').
  - symmetry. apply (Z.mod_unique _ _ v); [left; lia|lia].
  - done.
  - exact Ht'.
  - cbn [length] in Hroom. lia.
  - exists o'. split; [done|]. cbn [fmap list_fmap concat length]. rewrite app_assoc.
    replace (room - 2 * Z.of_nat (S (length vs))) with (room - 2 - 2 * blen vs) by lia. done.
Qed.

Lemma first_pair_text s f0 q o pre room :
  0 <= s -> Z.shiftr f0 s = q -> 0 < q < 100 -> text o pre room -> 2 <= room ->
  exists o', jeaiii.first_pair s f0 (q <? 10) o = Ok o' /\ text o' (pre ++ decimal q) (room - blen (decimal q)).
Proof.
  intros Hs Hf Hq Ht Hroom. unfold jeaiii.first_pair, jeaiii.fd. rewrite Hf, two_digits_ok by lia. run.
  destruct (Z.ltb_spec q 10).
  - destruct (poke2_text o pre room (chr0 + q mod 10) 0 Ht Hroom) as (buf & -> & _ & Ht'). run. eexists; split; [reflexivity|].
    rewrite decimal_small, Z.mod_small in * by lia. cbn. by replace (ptr o + 2 - 1) with (ptr o + 1) by lia.
  - destruct (poke2_text o pre room (chr0 + q / 10) (chr0 + q mod 10) Ht Hroom) as (buf & -> & Ht' & _). run. eexists; split; [reflexivity|].
    rewrite decimal_two by lia. cbn. by rewrite Z.sub_0_r.
Qed.

(** The general shape: the integer part of [f0 / 2^s] is the first one or two
    digits, its fraction gives the rest. *)
Lemma fixed_text s f0 q vs o pre room :
  0 <= s -> 100 * 2 ^ s <= 2 ^ 64 -> 0 < q < 100 -> fits s (f0 - q * 2 ^ s) vs ->
  text o pre room -> 2 <= room -> blen (decimal q) + 2 * blen vs <= room ->
  exists o', (o1 ← jeaiii.first_pair s f0 (q <? 10) o; jeaiii.more_pairs (length vs) s (Z.shiftl 1 s - 1) f0 o1) = Ok o' /\
    text o' (pre ++ decimal q ++ concat (two <$> vs)) (room - blen (decimal q) - 2 * blen vs).
Proof.
  intros Hs H64 Hq Hf Ht Hroom Hlen.
  assert (0 <= f0 - q * 2 ^ s < 2 ^ s) as Hg by (destruct vs; apply Hf).
  assert (Z.shiftr f0 s = q) as Hsh.
  { rewrite Z.shiftr_div_pow2 by lia. symmetry. apply (Z.div_unique _ _ _ (f0 - q * 2 ^ s)); [left; lia|lia]. }
  destruct (first_pair_text s f0 q o pre room Hs Hsh Hq Ht Hroom) as (o1 & -> & H1). run.
  destruct (more_pairs_text s vs Hs H64 f0 (f0 - q * 2 ^ s) o1 (pre ++ decimal q) (room - blen (decimal q))) as (o2 & -> & H2).
  - symmetry. apply (Z.mod_unique _ _ q); [left; lia|lia].
  - done.
  - done.
  - lia.
  - exists o2. split; [done|]. by rewrite <- app_assoc in H2.
Qed.

Lemma length_two v : blen (two v) = 2.
Proof. done. Qed.

Lemma decimal_app2 q r1 r2 : 0 < q -> 0 <= r1 < 100 -> 0 <= r2 < 100 ->
  decimal (10000 * q + 100 * r1 + r2) = decimal q ++ concat (two <$> [r1; r2]).
Proof.
  intros. replace (10000 * q + 100 * r1 + r2) with (100 * (100 * q + r1) + r2) by lia.
  rewrite !decimal_app by lia. cbn. by rewrite <- !app_assoc.
Qed.

Lemma decimal_app4 q r1 r2 r3 r4 : 0 < q -> 0 <= r1 < 100 -> 0 <= r2 < 100 -> 0 <= r3 < 100 -> 0 <= r4 < 100 ->
  decimal (100000000 * q + 1000000 * r1 + 10000 * r2 + 100 * r3 + r4) = decimal q ++ concat (two <$> [r1; r2; r3; r4]).
Proof.
  intros. replace (100000000 * q + 1000000 * r1 + 10000 * r2 + 100 * r3 + r4)
    with (10000 * (10000 * q + 100 * r1 + r2) + 100 * r3 + r4) by lia.
  rewrite !decimal_app2 by lia. cbn. by rewrite <- !app_assoc.
Qed.

(** [writes f n]: [f] appends the decimal text of [n], if there is room. *)
Definition writes (f : Out -> outcome Out) (t : bytes) : Prop :=
  forall o pre room, text o pre room -> blen t <= room ->
  exists o', f o = Ok o' /\ text o' (pre ++ t) (room - blen t).

Lemma writes_fixed s f0 q vs short mask n :
  0 <= s -> 100 * 2 ^ s <= 2 ^ 64 -> 0 < q < 100 -> vs <> [] -> fits s (f0 - q * 2 ^ s) vs -> short = (q <? 10) ->
  mask = Z.shiftl 1 s - 1 -> decimal n = decimal q ++ concat (two <$> vs) ->
  writes (fun o => o1 ← jeaiii.first_pair s f0 short o; jeaiii.more_pairs (length vs) s mask f0 o1) (decimal n).
Proof.
  intros Hs H64 Hq Hne Hf -> -> E o pre room Ht Hroom. rewrite E in *. rewrite length_app in Hroom.
  assert (forall vs, blen (concat (two <$> vs)) = 2 * blen vs) as Hc.
  { intros l. induction l as [|v l IH]; [done|]. cbn [fmap list_fmap concat]. rewrite length_app. cbn [length] in *. rewrite length_two || cbn. lia. }
  specialize (Hc vs). assert (0 < blen vs) by (destruct vs; cbn [length]; [done|lia]).
  destruct (fixed_text s f0 q vs o pre room Hs H64 Hq Hf Ht ltac:(lia) ltac:(lia)) as (o' & E' & H').
  exists o'. split; [exact E'|]. rewrite length_app. replace (room - Z.of_nat _) with (room - blen (decimal q) - 2 * blen vs) by lia. done.
Qed.

Lemma digits4_writes w n short : 32 <= w -> 100 <= n < 10000 -> short = (n <? 1000) -> writes (jeaiii.digits4 w n short) (decimal n).
Proof.
  intros Hw Hn ->. unfold jeaiii.digits4. set (q := n / 100). set (r := n mod 100).
  assert (n = 100 * q + r /\ 0 < q < 100 /\ 0 <= r < 100) as (E & Hq & Hr) by (subst q r; dlia).
  assert (2 ^ 32 <= 2 ^ w) by (apply Z.pow_le_mono_r; lia).
  rewrite wrap_id by (unfold uint; lia).
  apply (writes_fixed 24 (167773 * n) q [r]); try lia; try done.
  - cbn [fits]. lia.
  - rewrite E, decimal_app by lia. done.
Qed.

Lemma digits6_writes n short : 10000 <= n < 1000000 -> short = (n <? 100000) -> writes (jeaiii.digits6 n short) (decimal n).
Proof.
  intros Hn ->. unfold jeaiii.digits6. set (q := n / 10000). set (r1 := n / 100 mod 100). set (r2 := n mod 100).
  assert (n = 10000 * q + 100 * r1 + r2 /\ 0 < q < 100 /\ 0 <= r1 < 100 /\ 0 <= r2 < 100) as (E & Hq & Hr1 & Hr2) by (subst q r1 r2; dlia).
  rewrite wrap_id by (unfold uint; lia).
  apply (writes_fixed 32 (429497 * n) q [r1; r2]); try lia; try done.
  - cbn [fits]. lia.
  - rewrite E, decimal_app2 by lia. done.
Qed.

Lemma shift16 c n : 0 <= c * n -> exists f0, Z.shiftr (c * n) 16 = f0 /\ 65536 * f0 <= c * n < 65536 * f0 + 65536.
Proof. intros H. rewrite Z.shiftr_div_pow2 by lia. change (2 ^ 16) with 65536. eexists; split; [reflexivity|]. dlia. Qed.

(** The four pairs of an eight digit number. *)
Definition quad (z : Z) : list Z := [z / 1000000; z / 10000 mod 100; z / 100 mod 100; z mod 100].

Lemma quad_sum z : 0 <= z < 100000000 ->
  exists r0 r1 r2 r3, quad z = [r0; r1; r2; r3] /\ z = 1000000 * r0 + 10000 * r1 + 100 * r2 + r3 /\
    0 <= r0 < 100 /\ 0 <= r1 < 100 /\ 0 <= r2 < 100 /\ 0 <= r3 < 100.
Proof. intros Hz. eexists _, _, _, _. split; [reflexivity|]. dlia. Qed.

Lemma digits8_writes n : 1000000 <= n < 100000000 -> writes (jeaiii.digits8 n) (decimal n).
Proof.
  intros Hn. unfold jeaiii.digits8. destruct (quad_sum n ltac:(lia)) as (q & r1 & r2 & r3 & _ & E & Hq & Hr1 & Hr2 & Hr3).
  rewrite wrap_id by (unfold uint; lia). destruct (shift16 281474977 n ltac:(lia)) as (f0 & -> & Hf0).
  apply (writes_fixed 32 f0 q [r1; r2; r3]); try lia; try done.
  - cbn [fits]. lia.
  - replace n with (100 * (10000 * q + 100 * r1 + r2) + r3) by lia. rewrite decimal_app, decimal_app2 by lia. cbn. by rewrite <- !app_assoc.
Qed.

Lemma digits10_writes n : 100000000 <= n < 2 ^ 32 -> writes (jeaiii.digits10 n) (decimal n).
Proof.
  intros Hn. unfold jeaiii.digits10. set (q := n / 100000000).
  assert (0 < q < 43 /\ 0 <= n - 100000000 * q < 100000000) as [Hq Hz] by (subst q; dlia).
  destruct (quad_sum _ Hz) as (r1 & r2 & r3 & r4 & _ & E & Hr1 & Hr2 & Hr3 & Hr4).
  rewrite wrap_id by (unfold uint; lia).
  apply (writes_fixed 57 (1441151881 * n) q [r1; r2; r3; r4]); try lia; try done.
  - cbn [fits]. lia.
  - replace n with (100000000 * q + 1000000 * r1 + 10000 * r2 + 100 * r3 + r4) by lia. by rewrite decimal_app4 by lia.
Qed.

Lemma all8_writes z : 0 <= z < 100000000 -> writes (jeaiii.all8 z) (concat (two <$> quad z)).
Proof.
  intros Hz o pre room Ht Hroom. destruct (quad_sum z Hz) as (r0 & r1 & r2 & r3 & Eq & E & H0 & H1 & H2 & H3).
  rewrite Eq in *. cbn in Hroom. unfold jeaiii.all8. rewrite (wrap_id 64 (281474977 * z)) by (unfold uint; lia).
  destruct (shift16 281474977 z ltac:(lia)) as (f0 & -> & Hf0). rewrite wrap_id by (unfold uint; lia).
  assert (fits 32 (f0 + 1 - r0 * 2 ^ 32) [r1; r2; r3]) as Hf by (cbn [fits]; lia).
  assert (0 <= f0 + 1 - r0 * 2 ^ 32 < 2 ^ 32) as Hg by apply Hf.
  assert (Z.shiftr (f0 + 1) 32 = r0) as ->.
  { rewrite Z.shiftr_div_pow2 by lia. symmetry. apply (Z.div_unique _ _ _ (f0 + 1 - r0 * 2 ^ 32)); [left; lia|lia]. }
  unfold jeaiii.dd. rewrite two_digits_ok by lia. run.
  destruct (poke2_text o pre room (chr0 + r0 / 10) (chr0 + r0 mod 10) Ht ltac:(lia)) as (buf & -> & Ht' & _). run.
  destruct (more_pairs_text 32 [r1; r2; r3] ltac:(lia) ltac:(lia) (f0 + 1) (f0 + 1 - r0 * 2 ^ 32) (At buf (ptr o + 2)) (pre ++ two r0) (room - 2))
    as (o2 & E2 & Ho2); [symmetry; apply (Z.mod_unique _ _ r0); [left; lia|lia]|exact Hf|exact Ht'|cbn; lia|].
  exists o2. split; [exact E2|]. rewrite <- app_assoc in Ho2.
  assert (room - blen (concat (two <$> [r0; r1; r2; r3])) = room - 2 - 2 * blen [r1; r2; r3]) as -> by (cbn; lia). exact Ho2.
Qed.

(** Composition. *)
Lemma writes_nil : writes (fun o => Ok o) [].
Proof. intros o pre room Ht _. exists o. rewrite app_nil_r. change (blen (@nil Z)) with 0. by rewrite Z.sub_0_r. Qed.

Lemma writes_bind f g t u : writes f t -> writes g u -> writes (fun o => o1 ← f o; g o1) (t ++ u).
Proof.
  intros Hf Hg o pre room Ht Hroom. rewrite length_app in Hroom.
  destruct (Hf o pre room Ht ltac:(lia)) as (o1 & -> & H1). run.
  destruct (Hg o1 _ _ H1 ltac:(lia)) as (o2 & -> & H2). exists o2. split; [done|].
  rewrite <- app_assoc in H2. by rewrite length_app, Nat2Z.inj_add, Z.sub_add_distr.
Qed.

Lemma one_writes n : 0 <= n < 10 -> writes (outOneDigit n) (decimal n).
Proof.
  intros Hn o pre room Ht Hroom. rewrite decimal_small in * by lia. cbn in Hroom. unfold outOneDigit, chr0.
  rewrite wrap_id by (unfold uint; lia). destruct (poke_text o pre room (48 + n) Ht ltac:(lia)) as (buf & -> & H). run. eauto.
Qed.

Lemma two_writes v : 0 <= v < 100 -> writes (outTwoDigits v) (two v).
Proof.
  intros Hv o pre room Ht Hroom. cbn in Hroom. unfold outTwoDigits. rewrite two_digits_ok by done. run.
  destruct (poke2_text o pre room (chr0 + v / 10) (chr0 + v mod 10) Ht Hroom) as (buf & -> & H & _). run. eauto.
Qed.

Lemma dd_writes u : 10 <= u < 100 ->
  writes (fun o => p ← jeaiii.dd u; buf ← poke2 (ptr o) p (chars o); Ok (At buf (ptr o + 2))) (decimal u).
Proof. intros Hu. rewrite decimal_two by lia. by apply two_writes; lia. Qed.

Lemma decimal_quad u z : 0 < u -> 0 <= z < 100000000 -> decimal (100000000 * u + z) = decimal u ++ concat (two <$> quad z).
Proof.
  intros Hu Hz. destruct (quad_sum z Hz) as (r0 & r1 & r2 & r3 & -> & E & ? & ? & ? & ?).
  rewrite <- decimal_app4 by lia. f_equal. lia.
Qed.

(** The top two to ten digits, the branches shared by the two levels. *)
Lemma head_writes u : 10 <= u < 10000 ->
  writes (fun o => if u <? 100 then p ← jeaiii.dd u; buf ← poke2 (ptr o) p (chars o); Ok (At buf (ptr o + 2))
                   else jeaiii.digits4 64 u (u <? 1000) o) (decimal u).
Proof. intros Hu. destruct (Z.ltb_spec u 100); [apply dd_writes; first [done|lia]|apply digits4_writes; first [done|lia]]. Qed.

Lemma to_text_writes w n : w = 8 \/ w = 16 \/ w = 32 \/ w = 64 -> 0 <= n < 2 ^ w -> writes (jeaiii.to_text w n) (decimal n).
Proof.
  intros Hw Hn. unfold jeaiii.to_text.
  destruct (Z.ltb_spec n 100). { destruct (Z.ltb_spec n 10); [apply one_writes; first [done|lia]|]. rewrite decimal_two by lia. apply two_writes; first [done|lia]. }
  destruct (Z.ltb_spec n 1000000).
  { assert (w = 8 -> n < 256) as H8 by (intros ->; cbn in Hn; lia). assert (w = 16 -> n < 65536) as H16 by (intros ->; cbn in Hn; lia).
    destruct ((w =? 8) || (n <? 10000)) eqn:E.
    - apply digits4_writes; [lia|lia|]. destruct (Z.eqb_spec w 8); cbn in *; [lia|done].
    - apply digits6_writes; [lia|]. destruct (Z.eqb_spec w 16); cbn in *; [lia|done]. }
  destruct ((w =? 32) || (n <? 2 ^ 32)) eqn:E.
  { assert (n < 2 ^ 32) by (destruct (Z.eqb_spec w 32); [subst; lia|cbn in E; lia]).
    destruct (Z.ltb_spec n 100000000); [apply digits8_writes; first [done|lia]|apply digits10_writes; first [done|lia]]. }
  assert (2 ^ 32 <= n < 2 ^ 64) as Hn' by (apply orb_false_iff in E as [_ E]; destruct Hw as [->|[->|[->| ->]]]; cbn in Hn; lia).
  set (z := n mod 100000000). set (u := n / 100000000).
  assert (n = 100000000 * u + z /\ 0 <= z < 100000000 /\ 10 <= u < 2 ^ 38) as (En & Hz & Hu) by (subst z u; dlia).
  rewrite En, decimal_quad by lia. apply writes_bind; [|apply all8_writes; first [done|lia]].
  destruct (Z.ltb_spec u 100); [apply dd_writes; first [done|lia]|].
  destruct (Z.ltb_spec u 1000000).
  { destruct (Z.ltb_spec u 10000); [apply digits4_writes; first [done|lia]|apply digits6_writes; first [done|lia]]. }
  destruct (Z.ltb_spec u 100000000); [apply digits8_writes; first [done|lia]|].
  destruct (Z.ltb_spec u (2 ^ 32)); [apply digits10_writes; first [done|lia]|].
  set (y := u mod 100000000). set (v := u / 100000000).
  assert (u = 100000000 * v + y /\ 0 <= y < 100000000 /\ 10 <= v < 10000) as (Eu & Hy & Hv) by (subst y v; dlia).
  rewrite Eu, decimal_quad by lia. apply writes_bind; [|apply all8_writes; first [done|lia]]. apply head_writes; first [done|lia].
Qed.

(** ** Signed numbers and wide numbers *)
Lemma minus_writes f t : writes f t -> writes (fun o => buf ← poke (ptr o) minus_sign (chars o); f (At buf (ptr o + 1))) (minus_sign :: t).
Proof.
  intros Hf o pre room Ht Hroom. cbn [length] in Hroom. destruct (poke_text o pre room minus_sign Ht ltac:(lia)) as (buf & -> & H). run.
  destruct (Hf _ _ _ H ltac:(lia)) as (o' & -> & Ho'). exists o'. split; [done|]. rewrite <- app_assoc in Ho'.
  cbn [length]. by replace (room - Z.of_nat (S (length t))) with (room - 1 - blen t) by lia.
Qed.

Lemma small_writes w i : w = 8 \/ w = 16 \/ w = 32 \/ w = 64 -> - 2 ^ (w - 1) <= i < 2 ^ w ->
  writes (jeaiii.to_text_from_integer w i) (decimal_text i).
Proof.
  intros Hw Hi. unfold jeaiii.to_text_from_integer, decimal_text. assert (2 ^ w = 2 * 2 ^ (w - 1)) as E
    by (rewrite <- Z.pow_succ_r by lia; f_equal; lia).
  destruct (Z.ltb_spec i 0); rewrite wrap_id by (unfold uint; lia).
  - apply minus_writes, to_text_writes; [done|lia].
  - apply to_text_writes; [done|lia].
Qed.

(** The Barrett reduction is division: the quotient estimated from the two
    halves is exact or one too small. *)
Lemma barrett_estimate nh nl c m :
  0 <= nh < 2 ^ 64 -> 0 <= nl < 2 ^ 64 ->
  0 <= nl * 0x725DD1D243ABA0E7 - 2 ^ 64 * c < 2 ^ 64 ->
  0 <= nh * 0x725DD1D243ABA0E7 + nl * 0x12 + c - 2 ^ 64 * m < 2 ^ 64 ->
  0 <= nh * 2 ^ 64 + nl - (nh * 0x12 + m) * 1000000000000000000 < 2000000000000000000.
Proof. lia. Qed.

Lemma divmod_1e18_spec n : 0 <= n < 2 ^ 128 -> divmod_1e18 n = (n / 1000000000000000000, n mod 1000000000000000000).
Proof.
  intros Hn. unfold divmod_1e18, max_multiple_of_hundred_that_fits_in_64_bits. cbv zeta.
  rewrite !Z.shiftr_div_pow2 by lia.
  assert (0 <= n / 2 ^ 64 < 2 ^ 64) as Hh by dlia. rewrite (wrap_id 64 (n / 2 ^ 64)) by done.
  set (nh := n / 2 ^ 64) in *.
  assert (n = nh * 2 ^ 64 + wrap 64 n /\ 0 <= wrap 64 n < 2 ^ 64) as [En Hl] by (unfold wrap; subst nh; dlia).
  set (nl := wrap 64 n) in *. clearbody nh nl.
  rewrite (wrap_id 128 (nl * 0x725DD1D243ABA0E7)) by (unfold uint; lia).
  assert (exists c, nl * 0x725DD1D243ABA0E7 / 2 ^ 64 = c /\ 0 <= nl * 0x725DD1D243ABA0E7 - 2 ^ 64 * c < 2 ^ 64) as (c & -> & Hc)
    by (eexists; split; [reflexivity|dlia]).
  rewrite (wrap_id 64 c), (wrap_id 128 (nh * 0x725DD1D243ABA0E7)), (wrap_id 128 (nl * 0x12)) by (unfold uint; lia).
  rewrite (wrap_id 128 (nh * _ + _ + c)) by (unfold uint; lia).
  assert (exists m, (nh * 0x725DD1D243ABA0E7 + nl * 0x12 + c) / 2 ^ 64 = m /\
    0 <= nh * 0x725DD1D243ABA0E7 + nl * 0x12 + c - 2 ^ 64 * m < 2 ^ 64) as (m & -> & Hm)
    by (eexists; split; [reflexivity|dlia]).
  pose proof (barrett_estimate nh nl c m Hh Hl Hc Hm) as Hr. rewrite <- En in Hr.
  rewrite (wrap_id 64 m), (wrap_id 128 (nh * 0x12 + m)) by (unfold uint; lia).
  set (q := nh * 0x12 + m) in *. clearbody q. rewrite (wrap_id 128 (n - _)) by (unfold uint; lia).
  destruct (Z.leb_spec 1000000000000000000 (n - q * 1000000000000000000)); f_equal; rewrite ?wrap_id by (unfold uint; lia); dlia.
Qed.

Lemma extract_pairs_decimal k : forall q r, 0 < q -> 0 <= r < 100 ^ Z.of_nat k ->
  decimal (100 ^ Z.of_nat k * q + r) = decimal q ++ concat (two <$> reverse (extract_pairs k r)).
Proof.
  induction k as [|k IH]; intros q r Hq Hr.
  - change (100 ^ Z.of_nat 0) with 1 in *. replace (1 * q + r) with q by lia. by rewrite app_nil_r.
  - rewrite Nat2Z.inj_succ, Z.pow_succ_r in * by lia. cbn [extract_pairs].
    assert (0 <= r / 100 < 100 ^ Z.of_nat k) as Hr'.
    { split; [dlia|]. apply Z.div_lt_upper_bound; lia. }
    assert (0 < 100 ^ Z.of_nat k) by (apply Z.pow_pos_nonneg; lia).
    replace (100 * 100 ^ Z.of_nat k * q + r) with (100 * (100 ^ Z.of_nat k * q + r / 100) + r mod 100) by dlia.
    rewrite decimal_app by (try dlia; nia). rewrite IH by done.
    rewrite reverse_cons, fmap_app, concat_app, <- app_assoc. cbn. done.
Qed.

Lemma extract_pairs_range k : forall r, Forall (fun v => 0 <= v < 100) (extract_pairs k r).
Proof. induction k as [|k IH]; intros r; cbn; constructor; [dlia|done]. Qed.

Lemma pairs_writes vs : Forall (fun v => 0 <= v < 100) vs ->
  writes (fun o => writeDigitPairs o vs) (concat (two <$> reverse vs)).
Proof.
  induction 1 as [|v vs Hv Hvs IH].
  - by apply writes_nil.
  - rewrite reverse_cons, fmap_app, concat_app. cbn [fmap list_fmap concat]. rewrite app_nil_r.
    apply (writes_bind (fun o => writeDigitPairs o vs) (outTwoDigits v)); [done|by apply two_writes].
Qed.

Abbreviation E18 := 1000000000000000000.

(** A number with eighteen more digits. *)
Lemma decimal_block q r : 0 < q -> 0 <= r < E18 -> decimal (E18 * q + r) = decimal q ++ concat (two <$> reverse (extractDigitPairs r)).
Proof. intros Hq Hr. apply (extract_pairs_decimal 9); [done|]. exact Hr. Qed.

Lemma decimal_divmod x : E18 <= x -> decimal x = decimal (x / E18) ++ concat (two <$> reverse (extractDigitPairs (x mod E18))).
Proof. intros Hx. rewrite <- decimal_block by dlia. f_equal. dlia. Qed.

Lemma text64_writes x : 0 <= x < 2 ^ 64 -> writes (jeaiii.to_text_from_integer 64 x) (decimal x).
Proof.
  intros Hx. replace (decimal x) with (decimal_text x) by (unfold decimal_text; destruct (Z.ltb_spec x 0); [lia|done]).
  apply small_writes; [tauto|lia].
Qed.

Lemma text128_writes x : 0 <= x < 2 ^ 128 -> writes (writeUIntText128 x) (decimal x).
Proof.
  intros Hx. unfold writeUIntText128. destruct (Z.ltb_spec x (2 ^ 64)); [apply text64_writes; lia|].
  rewrite divmod_1e18_spec by done. set (x1 := x / E18). assert (18 <= x1 < 2 ^ 69) as Hx1 by (subst x1; dlia).
  rewrite (decimal_divmod x) by lia. fold x1. pose proof (extract_pairs_range 9 (x mod E18)) as Hp1.
  destruct (Z.ltb_spec (2 ^ 64 - 1) x1).
  - rewrite divmod_1e18_spec by lia. set (x2 := x1 / E18). assert (0 < x2 < 2 ^ 64) as Hx2 by (subst x2; dlia).
    rewrite (decimal_divmod x1) by lia. fold x2. rewrite wrap_id by (unfold uint; lia).
    rewrite <- app_assoc, <- concat_app, <- fmap_app, <- reverse_app.
    apply writes_bind; [apply text64_writes; lia|]. apply pairs_writes, Forall_app. split; [done|apply extract_pairs_range].
  - rewrite wrap_id by (unfold uint; lia). apply writes_bind; [apply text64_writes; lia|]. by apply pairs_writes.
Qed.

(** The loop ends within its fuel, and within [two_values]. *)
Lemma reduce256_spec fuel : forall x acc, 0 < x < 2 ^ 128 * E18 ^ Z.of_nat fuel -> (length acc + 9 * fuel <= 39)%nat ->
  exists p vs, reduce256 fuel x acc = Ok (p, acc ++ vs) /\ 0 < p < 2 ^ 128 /\ Forall (fun v => 0 <= v < 100) vs /\
    decimal x = decimal p ++ concat (two <$> reverse vs).
Proof.
  induction fuel as [|fuel IH]; intros x acc Hx Hacc; cbn [reduce256]; destruct (Z.ltb_spec (2 ^ 128 - 1) x) as [Hbig|Hsmall].
  - cbn in Hx. lia.
  - exists x, []. rewrite !app_nil_r. cbn in Hx. auto with lia.
  - unfold max_multiple_of_hundred_that_fits_in_64_bits, max_multiple_of_hundred_blocks.
    rewrite wrap_id by (unfold uint; dlia). rewrite bind_defined by (apply Nat.leb_le; lia).
    destruct (IH (x / E18) (acc ++ extractDigitPairs (x mod E18))) as (p & vs & -> & Hp & Hvs & E).
    + rewrite Nat2Z.inj_succ, Z.pow_succ_r in Hx by lia. split; [dlia|]. apply Z.div_lt_upper_bound; lia.
    + rewrite length_app. cbn. lia.
    + exists p, (extractDigitPairs (x mod E18) ++ vs). rewrite <- app_assoc. split; [done|]. split; [done|]. split.
      * apply Forall_app. split; [apply extract_pairs_range|done].
      * rewrite (decimal_divmod x), E by lia. by rewrite reverse_app, fmap_app, concat_app, app_assoc.
  - exists x, []. rewrite !app_nil_r. cbn. auto with lia.
Qed.

Lemma text256_writes x : 0 <= x < 2 ^ 256 -> writes (writeUIntText256 x) (decimal x).
Proof.
  intros Hx. unfold writeUIntText256. destruct (Z.ltb_spec x (2 ^ 128)); [apply text128_writes; lia|].
  destruct (reduce256_spec 3 x []) as (p & vs & -> & Hp & Hvs & ->); [cbn; lia|cbn; lia|]. run. cbn [app].
  apply writes_bind; [apply text128_writes; lia|by apply pairs_writes].
Qed.

Lemma copy_writes t : writes (copy_text t) t.
Proof.
  induction t as [|c t IH]; [apply writes_nil|]. intros o pre room Ht Hroom. cbn [copy_text].
  cbn [length] in Hroom. destruct (poke_text o pre room c Ht ltac:(lia)) as (buf & -> & H). run.
    destruct (IH _ _ _ H ltac:(lia)) as (o' & -> & Ho'). exists o'. split; [done|]. rewrite <- app_assoc in Ho'.
    cbn [length]. by replace (room - Z.of_nat (S (length t))) with (room - 1 - blen t) by lia.
Qed.

Definition int_range (signed : bool) (w i : Z) : Prop :=
  if signed then - 2 ^ (w - 1) <= i < 2 ^ (w - 1) else 0 <= i < 2 ^ w.

Definition int_width (w : Z) : Prop := w = 8 \/ w = 16 \/ w = 32 \/ w = 64 \/ w = 128 \/ w = 256.

Lemma wide_signed_writes w x : w = 128 \/ w = 256 -> - 2 ^ (w - 1) <= x < 2 ^ (w - 1) -> writes (writeSIntText w x) (decimal_text x).
Proof.
  intros Hw Hx. unfold writeSIntText, decimal_text.
  assert (forall y, 0 <= y < 2 ^ w -> writes ((if w =? 128 then writeUIntText128 else writeUIntText256) y) (decimal y)) as Hwr.
  { intros y Hy. destruct Hw as [->| ->]; [apply text128_writes; lia|apply text256_writes; lia]. }
  assert (2 ^ w = 2 * 2 ^ (w - 1)) as E by (rewrite <- Z.pow_succ_r by lia; f_equal; lia).
  destruct (Z.eqb_spec x (- 2 ^ (w - 1))) as [->|Hne].
  - destruct (Z.ltb_spec (- 2 ^ (w - 1)) 0); [|lia].
    assert (minus_sign :: decimal (- - 2 ^ (w - 1)) = (if w =? 128 then min_int128_text else min_int256_text)) as ->
      by (destruct Hw as [->| ->]; vm_compute; reflexivity). apply copy_writes.
  - destruct (Z.ltb_spec x 0); rewrite wrap_id by (unfold uint; lia).
    + apply (minus_writes _ (decimal (- x))), Hwr. lia.
    + apply Hwr. lia.
Qed.

Lemma itoa_writes signed w i : int_width w -> int_range signed w i -> writes (itoa signed w i) (decimal_text i).
Proof.
  intros Hw Hi. unfold itoa, int_range, int_width in *.
  assert (0 < w -> 2 ^ w = 2 * 2 ^ (w - 1)) as E by (intros; rewrite <- Z.pow_succ_r by lia; f_equal; lia).
  destruct (Z.leb_spec w 64).
  - apply small_writes; [lia|]. destruct signed; lia.
  - destruct signed; [apply wide_signed_writes; lia|].
    replace (decimal_text i) with (decimal i) by (unfold decimal_text; destruct (Z.ltb_spec i 0); [lia|done]).
    destruct Hw as [->|[->|[->|[->|[->| ->]]]]]; try lia; cbn; [apply text128_writes; lia|apply text256_writes; lia].
Qed.

(** ** Lengths: the temporary buffer is large enough *)
Lemma length_decimal k : forall n, 0 <= n < 10 ^ Z.of_nat (S k) -> (length (decimal n) <= S k)%nat.
Proof.
  induction k as [|k IH]; intros n Hn.
  - rewrite decimal_small by (cbn in Hn; lia). done.
  - destruct (Z.lt_ge_cases n 10); [rewrite decimal_small by lia; cbn; lia|].
    rewrite decimal_step, length_app by lia. cbn [length]. rewrite Nat2Z.inj_succ, Z.pow_succ_r in Hn by lia.
    specialize (IH (n / 10) ltac:(split; [dlia|apply Z.div_lt_upper_bound; lia])). lia.
Qed.

Lemma length_decimal_text signed w i : int_width w -> int_range signed w i -> blen (decimal_text i) <= max_int_width signed w.
Proof.
  intros Hw Hi. unfold decimal_text, int_width, int_range in *.
  assert (forall k n, 0 <= n < 10 ^ Z.of_nat (S k) -> blen (decimal n) <= Z.of_nat (S k)) as Hl
    by (intros k n Hn; pose proof (length_decimal k n Hn); lia).
  destruct Hw as [->|[->|[->|[->|[->| ->]]]]]; destruct signed; cbn [max_int_width Z.eqb Pos.eqb];
    (destruct (Z.ltb_spec i 0); cbn [length]; [try (exfalso; lia)|]).
  all: match goal with
  | |- Z.of_nat (S (length (decimal ?n))) <= ?m => let k := eval vm_compute in (Z.to_nat (m - 2)) in
      pose proof (Hl k n ltac:(cbn in *; lia)); cbn in *; lia
  | |- blen (decimal ?n) <= ?m => let k := eval vm_compute in (Z.to_nat (m - 1)) in
      pose proof (Hl k n ltac:(cbn in *; lia)); cbn in *; lia
  end.
Qed.

(** [writeIntText] writes the decimal text of its argument. *)
Lemma writeIntText_spec signed w i : int_width w -> int_range signed w i -> writeIntText signed w i = Ok (decimal_text i).
Proof.
  intros Hw Hi. unfold writeIntText. pose proof (length_decimal_text signed w i Hw Hi) as Hl.
  destruct (itoa_writes signed w i Hw Hi (At (replicate (Z.to_nat (max_int_width signed w)) 0) 0) [] (max_int_width signed w))
    as (o & -> & junk & Hc & Hp & _); [|lia|].
  - eexists. split; [reflexivity|]. split; [done|]. rewrite length_replicate. lia.
  - run. rewrite Hc, Hp. cbn [app]. by rewrite Nat2Z.id, take_app_length.
Qed.
