(* ===== verification/IntText.v ===== *)
(** * Integers from text

    [readIntTextInBaseImpl] ([src/IO/readIntText.h]) on a buffer that holds
    all its data, as [ReadBufferFromString] does: the state of the buffer is
    what is left to read.  The reference [read_reference] takes a sign and the
    longest run of digits and asks whether the number fits the type. *)

From stdpp Require Import prelude.
From Stdlib Require Import ZArith Lia.
From S2P Require Import Prelude Itoa.

(** ** Integer types *)
Definition in_type (signed : bool) (w v : Z) : bool :=
  if signed then (- 2 ^ (w - 1) <=? v) && (v <? 2 ^ (w - 1)) else (0 <=? v) && (v <? 2 ^ w).

(** [static_cast<T>]. *)
Definition to_type (signed : bool) (w v : Z) : Z :=
  if signed then to_signed w (wrap w v) else wrap w v.

(** [common::mulOverflow], [addOverflow], [subOverflow]: the result, unless it
    does not fit. *)
Definition checked (signed : bool) (w v : Z) : outcome Z :=
  if in_type signed w v then Ok v else Throw CANNOT_PARSE_NUMBER.

Definition chr_plus : Z := 43.
Definition chr_minus : Z := 45.

(** ** The loop *)

(** The labels of the [switch] that lead to [handle_digit]. *)
Definition digit_of (base c : Z) : option Z :=
  let digit :=
    if (48 <=? c) && (c <=? 57) then Some (c - 48)
    else if (65 <=? c) && (c <=? 70) then (if 10 <? base then Some (c - (65 - 10)) else None)
    else if (97 <=? c) && (c <=? 102) then (if 10 <? base then Some (c - (97 - 10)) else None)
    else None in
  match digit with
  | Some d => if negb (base =? 10) && (base <=? d) then None else Some d
  | None => None
  end.

(** [std::numeric_limits<T>::max_digits10] is 0 for integers. *)
Definition max_digits (base : Z) (signed : bool) (w : Z) : Z :=
  let digits := if signed then w - 1 else w in
  if base =? 10 then 0
  else if base =? 2 then digits
  else if base =? 8 then (digits + 2) / 3
  else if base =? 16 then (digits + 3) / 4
  else 0.

Definition is_big_int (w : Z) : bool := 64 <? w.

Definition add_digit (base : Z) (signed : bool) (w : Z) (check_overflow : bool) (consumed : Z) (negative : bool) (res digit : Z)
    : outcome Z :=
  if check_overflow && negb (is_big_int w) && (max_digits base signed w <=? consumed + 1) then
    if negative then
      signed_res ← checked signed w (to_type signed w (- res) * base);
      signed_res ← checked signed w (signed_res - digit);
      Ok (wrap w (- wrap w signed_res))
    else
      signed_res ← checked signed w (to_type signed w res * base);
      signed_res ← checked signed w (signed_res + digit);
      Ok (wrap w signed_res)
  else Ok (wrap w (wrap w (res * base) + digit)).

Record scan := Scan { negative : bool; has_sign : bool; has_number : bool; res : Z; rest : bytes }.

Fixpoint read_loop (base : Z) (signed : bool) (w : Z) (check_overflow : bool) (consumed : Z) (s : scan) (buf : bytes) : outcome scan :=
  match buf with
  | [] => Ok (Scan (negative s) (has_sign s) (has_number s) (res s) [])
  | c :: buf' =>
      let stop := Ok (Scan (negative s) (has_sign s) (has_number s) (res s) buf) in
      let next := read_loop base signed w check_overflow (consumed + 1) in
      if c =? chr_plus then
        if has_number s then stop
        else if has_sign s then Throw CANNOT_PARSE_NUMBER
        else next (Scan (negative s) true (has_number s) (res s) []) buf'
      else if c =? chr_minus then
        if has_number s then stop
        else if has_sign s then Throw CANNOT_PARSE_NUMBER
        else if signed then next (Scan true true (has_number s) (res s) []) buf'
        else Throw CANNOT_PARSE_NUMBER
      else match digit_of base c with
      | None => stop
      | Some digit =>
          r ← add_digit base signed w check_overflow consumed (negative s) (res s) digit;
          next (Scan (negative s) (has_sign s) true r []) buf'
      end
  end.

(** The value and what is left; the variants that return [bool] return [false]
    where this throws. *)
Definition readIntTextInBaseImpl (base : Z) (signed : bool) (w : Z) (check_overflow : bool) (buf : bytes) : outcome (Z * bytes) :=
  match buf with
  | [] => Throw ATTEMPT_TO_READ_AFTER_EOF
  | _ =>
      s ← read_loop base signed w check_overflow 0 (Scan false false false 0 []) buf;
      _ ← require (negb (has_sign s && negb (has_number s))) CANNOT_PARSE_NUMBER;
      x ← (if signed && negative s then
             if check_overflow then checked signed w (res s * -1) else Ok (to_type signed w (- res s))
           else Ok (to_type signed w (res s)));
      Ok (x, rest s)
  end.

Definition readIntText (signed : bool) (w : Z) (buf : bytes) : outcome (Z * bytes) :=
  readIntTextInBaseImpl 10 signed w false buf.

Definition tryReadIntText (signed : bool) (w : Z) (buf : bytes) : option (Z * bytes) :=
  match readIntTextInBaseImpl 10 signed w true buf with Ok r => Some r | _ => None end.

Definition tryParseInt (signed : bool) (w : Z) (str : bytes) : option Z :=
  match tryReadIntText signed w str with Some (x, []) => Some x | _ => None end.

(** ** The reference *)
Definition is_digit (c : Z) : bool := (48 <=? c) && (c <=? 57).

Fixpoint digits_prefix (buf : bytes) : list Z * bytes :=
  match buf with
  | c :: buf' => if is_digit c then let '(ds, r) := digits_prefix buf' in (c - 48 :: ds, r) else ([], buf)
  | [] => ([], [])
  end.

Definition number (n : Z) (ds : list Z) : Z := foldl (fun n d => 10 * n + d) n ds.

Definition read_body (signed : bool) (w : Z) (sign neg : bool) (buf : bytes) : option (Z * bytes) :=
  let '(ds, r) := digits_prefix buf in
  match ds with
  | [] => if sign then None else Some (0, r)
  | _ =>
      let v := if neg then - number 0 ds else number 0 ds in
      if in_type signed w v then Some (v, r) else None
  end.

Definition read_reference (signed : bool) (w : Z) (buf : bytes) : option (Z * bytes) :=
  match buf with
  | [] => None
  | c :: buf' =>
      if c =? chr_plus then read_body signed w true false buf'
      else if c =? chr_minus then if signed then read_body signed w true true buf' else None
      else read_body signed w false false buf
  end.

(** ** The loop computes the reference *)
Definition with_sign (neg : bool) (n : Z) : Z := if neg then - n else n.

Lemma in_type_spec signed w v : in_type signed w v = true <-> int_range signed w v.
Proof. unfold in_type, int_range. destruct signed; rewrite andb_true_iff, Z.leb_le, Z.ltb_lt; done. Qed.

Lemma to_type_id signed w v : 0 < w -> in_type signed w v = true -> to_type signed w v = v.
Proof.
  rewrite in_type_spec. unfold to_type, int_range. intros Hw H. destruct signed; [by apply to_signed_wrap|by apply wrap_id].
Qed.

(** A number whose absolute value is smaller fits as well. *)
Lemma in_type_smaller signed w neg n m : 0 < w -> 0 <= n <= m -> in_type signed w (with_sign neg m) = true ->
  in_type signed w (with_sign neg n) = true.
Proof.
  rewrite !in_type_spec. unfold int_range, with_sign. intros Hw Hn.
  pose proof (Z.pow_pos_nonneg 2 (w - 1)). pose proof (Z.pow_pos_nonneg 2 w). destruct signed, neg; lia.
Qed.

Lemma wrap_abs signed w neg n : 0 < w -> 0 <= n -> (neg = true -> signed = true) -> in_type signed w (with_sign neg n) = true -> wrap w n = n.
Proof.
  rewrite in_type_spec. unfold int_range, with_sign. intros Hw Hn Hs H. apply wrap_id. split; [done|].
  assert (2 ^ w = 2 * 2 ^ (w - 1)) by (rewrite <- Z.pow_succ_r by lia; f_equal; lia).
  pose proof (Z.pow_pos_nonneg 2 (w - 1)). destruct neg; [rewrite Hs in H by done; lia|]. destruct signed; lia.
Qed.

Lemma add_digit_spec signed w consumed neg n d :
  0 < w <= 64 -> 0 <= consumed -> 0 <= n -> 0 <= d -> (neg = true -> signed = true) -> in_type signed w (with_sign neg n) = true ->
  add_digit 10 signed w true consumed neg n d =
    if in_type signed w (with_sign neg (10 * n + d)) then Ok (10 * n + d) else Throw CANNOT_PARSE_NUMBER.
Proof.
  intros Hw Hk Hn Hd Hs Ht. unfold add_digit, is_big_int, checked. change (max_digits 10 signed w) with 0.
  destruct (Z.ltb_spec 64 w); [lia|]. destruct (Z.leb_spec 0 (consumed + 1)); [|lia]. cbn [andb negb].
  assert (in_type signed w (with_sign neg (10 * n + d)) = true -> in_type signed w (with_sign neg (10 * n)) = true) as Hsm
    by (apply in_type_smaller; lia).
  assert (in_type signed w (with_sign neg (10 * n + d)) = true -> wrap w (10 * n + d) = 10 * n + d) as Hwr
    by (intros; apply (wrap_abs signed w neg); try done; lia).
  destruct neg; cbn [with_sign] in *; rewrite to_type_id by (done || lia).
  - replace (- n * 10) with (- (10 * n)) by lia.
    destruct (in_type signed w (- (10 * n + d))) eqn:E.
    + rewrite Hsm by done. run. replace (- (10 * n) - d) with (- (10 * n + d)) by lia. rewrite E. run. f_equal.
      transitivity (wrap w (10 * n + d)); [|by apply Hwr]. unfold wrap. rewrite <- (Z.sub_0_l (_ mod _)), Zminus_mod_idemp_r. f_equal. lia.
    + destruct (in_type signed w (- (10 * n))); [run|done]. replace (- (10 * n) - d) with (- (10 * n + d)) by lia. by rewrite E.
  - replace (n * 10) with (10 * n) by lia. destruct (in_type signed w (10 * n + d)) eqn:E.
    + rewrite Hsm by done. run. rewrite E. run. f_equal. by apply Hwr.
    + destruct (in_type signed w (10 * n)); [run|done]. by rewrite E.
Qed.

Lemma digit_of_10 c : digit_of 10 c = if is_digit c then Some (c - 48) else None.
Proof.
  unfold digit_of, is_digit. destruct (_ && _); [done|]. by repeat destruct (_ && _).
Qed.

Lemma digits_prefix_range buf : Forall (fun d => 0 <= d <= 9) (digits_prefix buf).1.
Proof.
  induction buf as [|c buf IH]; cbn [digits_prefix]; [done|]. destruct (is_digit c) eqn:E; [|done].
  destruct (digits_prefix buf) as [ds r]. cbn [fst] in *. unfold is_digit in E. constructor; [lia|done].
Qed.

Lemma number_ge ds : forall n, 0 <= n -> Forall (fun d => 0 <= d <= 9) ds -> n <= number n ds.
Proof.
  induction ds as [|d ds IH]; intros n Hn H; cbn; [lia|]. apply Forall_cons in H as [Hd H].
  specialize (IH (10 * n + d) ltac:(lia) H). unfold number in IH. lia.
Qed.

Lemma is_digit_not_sign c : is_digit c = true -> (c =? chr_plus) = false /\ (c =? chr_minus) = false.
Proof. unfold is_digit, chr_plus, chr_minus. lia. Qed.

(** Once a digit has been read, the loop takes the digits that follow. *)
Lemma read_loop_number signed w neg sgn r0 buf : 0 < w <= 64 -> (neg = true -> signed = true) -> forall consumed n,
  0 <= consumed -> 0 <= n -> in_type signed w (with_sign neg n) = true ->
  read_loop 10 signed w true consumed (Scan neg sgn true n r0) buf =
    let '(ds, r) := digits_prefix buf in
    if in_type signed w (with_sign neg (number n ds)) then Ok (Scan neg sgn true (number n ds) r) else Throw CANNOT_PARSE_NUMBER.
Proof.
  intros Hw Hs. revert r0. induction buf as [|c buf IH]; intros r0 consumed n Hk Hn Ht; cbn [read_loop digits_prefix];
    [cbn [number foldl]; by rewrite Ht|]. cbn [has_number has_sign negative res].
  destruct (is_digit c) eqn:Ec.
  - destruct (is_digit_not_sign c Ec) as [-> ->]. rewrite digit_of_10, Ec.
    assert (0 <= c - 48) by (unfold is_digit in Ec; lia). rewrite add_digit_spec by done.
    destruct (in_type signed w (with_sign neg (10 * n + (c - 48)))) eqn:E; run.
    + rewrite IH by (try done; lia). by destruct (digits_prefix buf).
    + pose proof (digits_prefix_range buf) as Hr. destruct (digits_prefix buf) as [ds r]. cbn [fst] in Hr.
      change (number n (c - 48 :: ds)) with (number (10 * n + (c - 48)) ds).
      assert (0 <= 10 * n + (c - 48) <= number (10 * n + (c - 48)) ds) as Hge by (split; [lia|apply number_ge; [lia|done]]).
      destruct (in_type signed w (with_sign neg (number (10 * n + (c - 48)) ds))) eqn:E2; [|done].
      assert (0 < w) as Hw0 by lia. by rewrite (in_type_smaller _ _ _ _ _ Hw0 Hge E2) in E.
  - cbn [number foldl]. rewrite Ht. destruct (c =? chr_plus); [done|]. destruct (c =? chr_minus); [done|]. by rewrite digit_of_10, Ec.
Qed.

(** Before the first digit. *)
Lemma read_loop_body signed w neg sgn r0 buf consumed : 0 < w <= 64 -> (neg = true -> signed = true) -> 0 <= consumed ->
  (sgn = false -> match buf with c :: _ => (c =? chr_plus) = false /\ (c =? chr_minus) = false | [] => True end) ->
  match read_loop 10 signed w true consumed (Scan neg sgn false 0 r0) buf with
  | Ok s => negative s = neg /\ 0 <= res s /\ in_type signed w (with_sign neg (res s)) = true /\
      (if has_sign s && negb (has_number s) then None else Some (with_sign neg (res s), rest s)) = read_body signed w sgn neg buf
  | Throw _ => read_body signed w sgn neg buf = None
  | Undef => False
  end.
Proof.
  intros Hw Hs Hk Hc.
  assert (in_type signed w (with_sign neg 0) = true) as H0.
  { rewrite in_type_spec. unfold int_range, with_sign. pose proof (Z.pow_pos_nonneg 2 (w - 1)). pose proof (Z.pow_pos_nonneg 2 w).
    destruct signed, neg; lia. }
  destruct buf as [|c buf]; cbn [read_loop]; unfold read_body; cbn [digits_prefix].
  { cbn [negative has_sign has_number res rest]. split_and!; try done. destruct sgn; [done|]. cbn. by destruct neg. }
  cbn [has_number has_sign negative res]. destruct (is_digit c) eqn:Ec.
  - destruct (is_digit_not_sign c Ec) as [-> ->]. rewrite digit_of_10, Ec.
    assert (0 <= c - 48) as Hd by (unfold is_digit in Ec; lia). rewrite add_digit_spec by (done || lia).
    pose proof (digits_prefix_range buf) as Hr. destruct (digits_prefix buf) as [ds r] eqn:Ep. cbn [fst] in Hr.
    change (number 0 (c - 48 :: ds)) with (number (10 * 0 + (c - 48)) ds).
    assert (0 <= 10 * 0 + (c - 48) <= number (10 * 0 + (c - 48)) ds) as Hge by (split; [lia|apply number_ge; [lia|done]]).
    assert (0 < w) as Hw0 by lia. fold (with_sign neg (number (10 * 0 + (c - 48)) ds)).
    destruct (in_type signed w (with_sign neg (10 * 0 + (c - 48)))) eqn:E; run.
    + rewrite read_loop_number by (try done; lia). rewrite Ep.
      destruct (in_type signed w (with_sign neg (number (10 * 0 + (c - 48)) ds))) eqn:E2; [|done].
      cbn [negative has_sign has_number res rest]. rewrite andb_false_r. split_and!; try done. lia.
    + destruct (in_type signed w (with_sign neg (number (10 * 0 + (c - 48)) ds))) eqn:E2; [|done].
      by rewrite (in_type_smaller _ _ _ _ _ Hw0 Hge E2) in E.
  - destruct sgn.
    + destruct (c =? chr_plus); [done|]. destruct (c =? chr_minus); [done|]. rewrite digit_of_10, Ec.
      cbn [negative has_sign has_number res rest]. done.
    + destruct (Hc eq_refl) as [-> ->]. rewrite digit_of_10, Ec. cbn [negative has_sign has_number res rest].
      split_and!; try done. by destruct neg.
Qed.

Lemma finish_spec signed w s neg : 0 < w <= 64 -> (neg = true -> signed = true) -> negative s = neg -> 0 <= res s ->
  in_type signed w (with_sign neg (res s)) = true ->
  (if signed && negative s then checked signed w (res s * -1) else Ok (to_type signed w (res s))) = Ok (with_sign neg (res s)).
Proof.
  intros Hw Hs Hn Hr Ht. rewrite Hn. unfold checked. destruct neg; cbn [with_sign] in *.
  - rewrite Hs by done. cbn [andb]. replace (res s * -1) with (- res s) by lia. by rewrite Hs, Ht in * by done.
  - rewrite andb_false_r. by rewrite to_type_id by (done || lia).
Qed.

Lemma tryReadIntText_spec signed w buf : 0 < w <= 64 -> tryReadIntText signed w buf = read_reference signed w buf.
Proof.
  intros Hw. unfold tryReadIntText, readIntTextInBaseImpl, read_reference. destruct buf as [|c buf]; [done|].
  assert (forall neg sgn s0 consumed buf0, (neg = true -> signed = true) -> 0 <= consumed -> s0 = Scan neg sgn false 0 [] ->
    (sgn = false -> match buf0 with c :: _ => (c =? chr_plus) = false /\ (c =? chr_minus) = false | [] => True end) ->
    match (s ← read_loop 10 signed w true consumed s0 buf0;
           _ ← require (negb (has_sign s && negb (has_number s))) CANNOT_PARSE_NUMBER;
           x ← (if signed && negative s then checked signed w (res s * -1) else Ok (to_type signed w (res s)));
           Ok (x, rest s)) with Ok r => Some r | _ => None end = read_body signed w sgn neg buf0) as Hbody.
  { intros neg sgn s0 consumed buf0 Hs Hk -> Hc. pose proof (read_loop_body signed w neg sgn [] buf0 consumed Hw Hs Hk Hc) as H.
    destruct (read_loop _ _ _ _ _ _ _) as [s|e|]; run; [|done|done]. destruct H as (Hn & Hr & Ht & <-).
    destruct (has_sign s && negb (has_number s)); run; [done|]. by rewrite (finish_spec signed w s neg Hw Hs Hn Hr Ht). }
  cbn [read_loop has_number has_sign negative res]. 
  destruct (c =? chr_plus) eqn:E1; [by apply (Hbody false true)|]. destruct (c =? chr_minus) eqn:E2.
  - destruct signed; [by apply (Hbody true true)|done].
  - specialize (Hbody false false (Scan false false false 0 []) 0 (c :: buf)). cbn [read_loop has_number has_sign negative res] in Hbody.
    rewrite E1, E2 in Hbody. by apply Hbody.
Qed.

(** ** What [itoa] writes is read back *)
Definition no_digit_follows (r : bytes) : Prop := match r with c :: _ => is_digit c = false | [] => True end.

Lemma digits_prefix_app t r : Forall (fun c => is_digit c = true) t -> no_digit_follows r ->
  digits_prefix (t ++ r) = ((fun c => c - 48) <$> t, r).
Proof.
  intros Ht Hr. induction Ht as [|c t Hc _ IH]; cbn [app digits_prefix].
  - destruct r as [|c r]; [done|]. cbn in Hr |- *. by rewrite Hr.
  - by rewrite Hc, IH.
Qed.

Lemma decimal_digits n : 0 <= n ->
  Forall (fun c => is_digit c = true) (decimal n) /\ decimal n <> [] /\ number 0 ((fun c => c - 48) <$> decimal n) = n.
Proof.
  revert n. apply (Zlt_0_ind (fun n => Forall (fun c => is_digit c = true) (decimal n) /\ decimal n <> [] /\
    number 0 ((fun c => c - 48) <$> decimal n) = n)).
  intros n IH Hn. assert (forall d, 0 <= d < 10 -> is_digit (chr0 + d) = true) as Hd by (unfold is_digit, chr0; lia).
  destruct (Z.lt_ge_cases n 10) as [Hs|Hb].
  - rewrite decimal_small by lia. split; [constructor; [by apply Hd|done]|]. split; [done|]. unfold number, chr0. cbn [fmap list_fmap foldl]. lia.
  - rewrite decimal_step by lia. destruct (IH (n / 10) ltac:(dlia)) as (Hf & Hne & Hv). split; [|split].
    + apply Forall_app. split; [done|]. constructor; [apply Hd; dlia|done].
    + by destruct (decimal (n / 10)).
    + rewrite fmap_app. unfold number in *. rewrite foldl_app, Hv. cbn [fmap list_fmap foldl]. unfold chr0. dlia.
Qed.

Lemma read_decimal_text signed w i r : 0 < w <= 64 -> int_range signed w i -> no_digit_follows r ->
  tryReadIntText signed w (decimal_text i ++ r) = Some (i, r).
Proof.
  intros Hw Hi Hr. rewrite tryReadIntText_spec by done. unfold decimal_text.
  assert (forall neg sgn n, 0 <= n -> in_type signed w (with_sign neg n) = true ->
    read_body signed w sgn neg (decimal n ++ r) = Some (with_sign neg n, r)) as Hb.
  { intros neg sgn n Hn Ht. destruct (decimal_digits n Hn) as (Hf & Hne & Hv). unfold read_body.
    rewrite digits_prefix_app by done. fold (with_sign neg (number 0 ((fun c => c - 48) <$> decimal n))).
    rewrite Hv, Ht. by destruct (decimal n). }
  destruct (Z.ltb_spec i 0) as [Hneg|Hpos].
  - assert (signed = true) as -> by (destruct signed; [done|unfold int_range in Hi; lia]).
    cbn [app read_reference]. unfold minus_sign, chr_plus, chr_minus. cbn [Z.eqb Pos.eqb].
    rewrite Hb; [cbn; f_equal; f_equal; lia|lia|]. rewrite in_type_spec. cbn [with_sign]. by rewrite Z.opp_involutive.
  - destruct (decimal_digits i Hpos) as (Hf & Hne & _). pose proof (Hb false false i Hpos) as H. cbn [with_sign] in H.
    rewrite in_type_spec in H. specialize (H Hi). destruct (decimal i) as [|c t]; [done|]. apply Forall_cons in Hf as [Hc _].
    cbn [app] in *. cbn [read_reference]. destruct (is_digit_not_sign c Hc) as [-> ->]. exact H.
Qed.

(** Only the digits and the sign of the type's range are text of integers. *)
Lemma decimal_text_no_underscore i : Forall (fun c => c <> 95) (decimal_text i).
Proof.
  assert (forall n, 0 <= n -> Forall (fun c => c <> 95) (decimal n)) as H.
  { intros n Hn. destruct (decimal_digits n Hn) as (Hf & _). eapply Forall_impl; [exact Hf|]. unfold is_digit. intros c Hc. lia. }
  unfold decimal_text. destruct (Z.ltb_spec i 0); [constructor; [done|]; apply H; lia|by apply H].
Qed.
