(* ===== verification/VarInt.v ===== *)
(** * Integers of variable length

    [src/IO/VarInt.h]: seven bits per byte, the low ones first, and the zigzag
    code for signed numbers; and the binary forms of integers, strings and
    flags of [src/IO/ReadHelpers.h] and [WriteHelpers.h] that use them.  The
    reader's state is what is left of its buffer. *)

From stdpp Require Import prelude.
From Stdlib Require Import ZArith Lia.
From S2P Require Import Prelude Bits Itoa.

(** [while (x > 0x7F)]: a 64-bit number has at most ten groups. *)
Fixpoint writeVarUInt_fuel (fuel : nat) (x : Z) : bytes :=
  match fuel with
  | O => []
  | S fuel => if 0x7f <? x then Z.lor 0x80 (Z.land x 0x7f) :: writeVarUInt_fuel fuel (Z.shiftr x 7) else [wrap 8 x]
  end.

Definition writeVarUInt (x : Z) : bytes := writeVarUInt_fuel 10 x.

Definition encodeZigZag (value : Z) : Z :=
  Z.lxor (wrap 64 (Z.shiftl (wrap 64 value) 1)) (wrap 64 (Z.shiftr value 63)).

Definition decodeZigZag (n : Z) : Z :=
  to_signed 64 (Z.lxor (Z.shiftr n 1) (wrap 64 (- Z.land n 1))).

Definition writeVarInt (x : Z) : bytes := writeVarUInt (encodeZigZag x).

(** The loop of [varint_impl::readVarUInt<check_eof>], [i] rounds before its end. *)
Fixpoint readVarUInt_loop (check_eof : bool) (todo i : nat) (x : Z) (buf : bytes) : outcome (Z * bytes) :=
  match todo with
  | O => Ok (x, buf)
  | S todo =>
      match buf with
      | [] => if check_eof then Throw ATTEMPT_TO_READ_AFTER_EOF else Undef
      | byte :: buf =>
          let x := Z.lor x (wrap 64 (Z.shiftl (Z.land byte 0x7f) (7 * Z.of_nat i))) in
          if Z.land byte 0x80 =? 0 then Ok (x, buf) else readVarUInt_loop check_eof todo (S i) x buf
      end
  end.

Definition readVarUInt (buf : bytes) : outcome (Z * bytes) :=
  if Nat.leb 10 (length buf) then readVarUInt_loop false 10 0 0 buf else readVarUInt_loop true 10 0 0 buf.

Definition readVarInt (buf : bytes) : outcome (Z * bytes) :=
  '(x, buf) ← readVarUInt buf;
  Ok (decodeZigZag x, buf).

Definition getLengthOfVarUInt (x : Z) : Z :=
  if x <? 2 ^ 7 then 1
  else if x <? 2 ^ 14 then 2
  else if x <? 2 ^ 21 then 3
  else if x <? 2 ^ 28 then 4
  else if x <? 2 ^ 35 then 5
  else if x <? 2 ^ 42 then 6
  else if x <? 2 ^ 49 then 7
  else if x <? 2 ^ 56 then 8
  else if x <? 2 ^ 63 then 9
  else 10.

(** [varint_impl::ignoreVarUInt<check_eof>] and [ignoreVarUInt]. *)
Fixpoint ignoreVarUInt_loop (check_eof : bool) (todo : nat) (buf : bytes) : outcome bytes :=
  match todo with
  | O => Ok buf
  | S todo =>
      match buf with
      | [] => if check_eof then Throw ATTEMPT_TO_READ_AFTER_EOF else Undef
      | byte :: buf => if Z.land byte 0x80 =? 0 then Ok buf else ignoreVarUInt_loop check_eof todo buf
      end
  end.

Definition ignoreVarUInt (buf : bytes) : outcome bytes :=
  if Nat.leb 10 (length buf) then ignoreVarUInt_loop false 10 buf else ignoreVarUInt_loop true 10 buf.

(** ** Groups of seven bits *)
Lemma land_127 x : Z.land x 0x7f = x mod 128.
Proof. change 0x7f with (Z.ones 7). by rewrite Z.land_ones. Qed.

Lemma lor_group a b k : 0 <= k -> 0 <= a < 2 ^ k -> Z.lor a (b * 2 ^ k) = a + b * 2 ^ k.
Proof.
  intros Hk Ha. pose proof (Z.add_lor_land a (b * 2 ^ k)) as H. enough (Z.land a (b * 2 ^ k) = 0) by lia. clear H.
  rewrite <- Z.shiftl_mul_pow2 by done. apply Z.bits_inj'. intros i Hi. rewrite Z.land_spec, Z.bits_0, Z.shiftl_spec by done.
  destruct (Z.lt_ge_cases i k).
  - by rewrite (Z.testbit_neg_r b (i - k)), andb_false_r by lia.
  - destruct (proj1 (uint_bits k a Hk) Ha) as [_ Hbit]. by rewrite Hbit.
Qed.

(** The byte written for the group [d] of a number that goes on. *)
Lemma group_byte d : 0 <= d < 128 -> Z.lor 0x80 d = 128 + d.
Proof. intros Hd. rewrite Z.lor_comm. change 0x80 with (1 * 2 ^ 7). rewrite lor_group by done. lia. Qed.

Lemma land_128 d : 0 <= d < 256 -> Z.land d 0x80 = if d <? 128 then 0 else 128.
Proof.
  intros Hd. rewrite <- (Z2Nat.id d) by lia. assert (Z.to_nat d < 256)%nat as H by lia. revert H. generalize (Z.to_nat d). clear.
  intros n Hn. assert (forallb (fun n => Z.land (Z.of_nat n) 128 =? (if Z.of_nat n <? 128 then 0 else 128)) (seq 0 256) = true) as H by done.
  rewrite forallb_forall in H. specialize (H n). rewrite in_seq in H. specialize (H ltac:(lia)). by apply Z.eqb_eq.
Qed.

Lemma readVarUInt_step ce todo i acc d buf : 0 <= d < 256 -> 0 <= acc < 2 ^ (7 * Z.of_nat i) -> (d mod 128) * 2 ^ (7 * Z.of_nat i) < 2 ^ 64 ->
  readVarUInt_loop ce (S todo) i acc (d :: buf) =
    let acc := acc + (d mod 128) * 2 ^ (7 * Z.of_nat i) in
    if d <? 128 then Ok (acc, buf) else readVarUInt_loop ce todo (S i) acc buf.
Proof.
  intros Hd Ha Hs. cbn [readVarUInt_loop]. rewrite land_127, land_128, Z.shiftl_mul_pow2 by lia.
  rewrite wrap_id by (split; [|done]; apply Z.mul_nonneg_nonneg; dlia). rewrite lor_group by lia.
  destruct (Z.ltb_spec d 128); done.
Qed.

(** [todo] rounds are left for a number whose groups fit the 64 bits. *)
Lemma read_write_loop ce todo : forall i acc x r, (todo + i)%nat = 10%nat -> 0 <= x -> x * 2 ^ (7 * Z.of_nat i) < 2 ^ 64 -> 0 <= acc < 2 ^ (7 * Z.of_nat i) ->
  readVarUInt_loop ce todo i acc (writeVarUInt_fuel todo x ++ r) = Ok (acc + x * 2 ^ (7 * Z.of_nat i), r).
Proof.
  induction todo as [|todo IH]; intros i acc x r Hi Hx Hlt Ha.
  - assert (i = 10%nat) as -> by lia. cbn [writeVarUInt_fuel readVarUInt_loop app]. cbn in Hlt. do 2 f_equal. lia.
  - set (p := 2 ^ (7 * Z.of_nat i)) in *. assert (0 < p) as Hp by (apply Z.pow_pos_nonneg; lia).
    assert (2 ^ (7 * Z.of_nat (S i)) = 128 * p) as HS.
    { unfold p. replace (7 * Z.of_nat (S i)) with (7 + 7 * Z.of_nat i) by lia. by rewrite Z.pow_add_r by lia. }
    assert (x mod 128 * p <= x * p) as Hm by (apply Z.mul_le_mono_nonneg_r; dlia).
    cbn [writeVarUInt_fuel]. destruct (Z.ltb_spec 127 x) as [Hb|Hb].
    + rewrite land_127, group_byte by dlia. cbn [app]. rewrite readVarUInt_step; fold p; [|dlia|done|].
      2: { replace ((128 + x mod 128) mod 128) with (x mod 128) by dlia. lia. }
      replace ((128 + x mod 128) mod 128) with (x mod 128) by dlia. cbv zeta. destruct (Z.ltb_spec (128 + x mod 128) 128); [dlia|].
      rewrite Z.shiftr_div_pow2 by done. change (2 ^ 7) with 128.
      assert (0 <= x / 128) by dlia. assert (x = 128 * (x / 128) + x mod 128) as Hx' by dlia.
      assert (0 <= x mod 128 < 128) by dlia.
      rewrite IH; rewrite ?HS; [|lia|lia|nia|nia]. do 2 f_equal. nia.
    + rewrite wrap_id by (unfold uint; cbn; lia). cbn [app]. rewrite readVarUInt_step; fold p; [|lia|done|by rewrite Z.mod_small by lia].
      rewrite Z.mod_small by lia. cbv zeta. destruct (Z.ltb_spec x 128); [done|lia].
Qed.

(** With the bytes there, the check for the end of the buffer changes nothing. *)
Lemma readVarUInt_write x r : uint 64 x -> readVarUInt (writeVarUInt x ++ r) = Ok (x, r).
Proof.
  intros [H0 H1]. unfold readVarUInt, writeVarUInt.
  assert (forall ce, readVarUInt_loop ce 10 0 0 (writeVarUInt_fuel 10 x ++ r) = Ok (x, r)) as H.
  { intros ce. rewrite read_write_loop by (cbn; lia). do 2 f_equal. cbn. lia. }
  by destruct (Nat.leb _ _).
Qed.

(** ** Lengths *)
Lemma length_writeVarUInt_fuel k : forall fuel x, (0 < k <= fuel)%nat -> (k = 1%nat \/ 2 ^ (7 * Z.of_nat (pred k)) <= x) -> 0 <= x < 2 ^ (7 * Z.of_nat k) ->
  length (writeVarUInt_fuel fuel x) = k.
Proof.
  induction k as [|k IH]; intros fuel x Hk Hlo Hx; [lia|]. destruct fuel as [|fuel]; [lia|]. cbn [writeVarUInt_fuel pred] in *.
  assert (forall j, 2 ^ (7 * Z.of_nat (S j)) = 128 * 2 ^ (7 * Z.of_nat j)) as HS.
  { intros j. replace (7 * Z.of_nat (S j)) with (7 + 7 * Z.of_nat j) by lia. by rewrite Z.pow_add_r by lia. }
  destruct k as [|k].
  - rewrite HS in Hx. change (2 ^ (7 * Z.of_nat 0)) with 1 in Hx. destruct (Z.ltb_spec 127 x); [lia|done].
  - destruct Hlo as [?|Hlo]; [lia|]. pose proof (Z.pow_pos_nonneg 2 (7 * Z.of_nat k) ltac:(lia) ltac:(lia)).
    rewrite HS in Hlo, Hx. rewrite HS in Hx. destruct (Z.ltb_spec 127 x) as [_|]; [|lia]. cbn [length]. f_equal.
    rewrite Z.shiftr_div_pow2 by done. change (2 ^ 7) with 128. apply IH; [lia| |rewrite HS; dlia].
    cbn [pred]. destruct k; [by left|right]. dlia.
Qed.

Lemma length_writeVarUInt x : uint 64 x -> blen (writeVarUInt x) = getLengthOfVarUInt x.
Proof.
  intros [H0 H1]. unfold getLengthOfVarUInt, writeVarUInt.
  repeat (match goal with |- context [Z.ltb ?a ?b] => destruct (Z.ltb_spec a b) end; [|]).
  all: match goal with |- _ = ?n => rewrite (length_writeVarUInt_fuel (Z.to_nat n)); [done|lia| |] end.
  all: first [by left|right|idtac]; match goal with |- context [2 ^ ?e] => let v := eval vm_compute in (2 ^ e) in change (2 ^ e) with v end; lia.
Qed.

(** ** The zigzag code *)
Lemma lxor_ones a : uint 64 a -> Z.lxor a (2 ^ 64 - 1) = 2 ^ 64 - 1 - a.
Proof.
  intros Ha. destruct (proj1 (uint_bits 64 a ltac:(lia)) Ha) as [_ Hbit]. change (2 ^ 64 - 1) with (Z.ones 64).
  rewrite Z.sub_nocarry_ldiff; apply Z.bits_inj'; intros i Hi; rewrite ?Z.lxor_spec, ?Z.ldiff_spec, ?Z.bits_0, Z.testbit_ones_nonneg by lia;
    (destruct (Z.ltb_spec i 64); [by destruct (Z.testbit a i)|by rewrite Hbit]).
Qed.

Lemma encodeZigZag_value v : int_range true 64 v -> encodeZigZag v = if v <? 0 then - 2 * v - 1 else 2 * v.
Proof.
  unfold int_range, encodeZigZag. intros Hv. rewrite Z.shiftl_mul_pow2, Z.shiftr_div_pow2 by lia. change (2 ^ 1) with 2.
  unfold wrap. rewrite Zmult_mod_idemp_l. change (2 ^ (64 - 1)) with (2 ^ 63) in Hv. destruct (Z.ltb_spec v 0).
  - replace ((v / 2 ^ 63) mod 2 ^ 64) with (2 ^ 64 - 1) by (replace (v / 2 ^ 63) with (-1) by dlia; done).
    replace ((v * 2) mod 2 ^ 64) with (v * 2 + 2 ^ 64) by dlia. rewrite lxor_ones by (unfold uint; lia). lia.
  - replace (v / 2 ^ 63) with 0 by dlia. rewrite Z.lxor_0_r, Z.mod_small by lia. lia.
Qed.

Lemma decodeZigZag_value n : uint 64 n -> decodeZigZag n = if Z.even n then n / 2 else - (n / 2) - 1.
Proof.
  intros Hn. unfold decodeZigZag. change 1 with (Z.ones 1) at 2. rewrite Z.land_ones, Z.shiftr_div_pow2 by lia. change (2 ^ 1) with 2.
  rewrite Zeven_mod. unfold uint in Hn. destruct (Z.eqb_spec (n mod 2) 0) as [E|E].
  - rewrite E. change (wrap 64 (- 0)) with 0. rewrite Z.lxor_0_r. unfold to_signed. destruct (Z.ltb_spec (n / 2) (2 ^ (64 - 1))); dlia.
  - replace (n mod 2) with 1 by dlia. change (wrap 64 (- (1))) with (2 ^ 64 - 1). rewrite lxor_ones by (unfold uint; dlia).
    unfold to_signed. destruct (Z.ltb_spec (2 ^ 64 - 1 - n / 2) (2 ^ (64 - 1))); dlia.
Qed.

Lemma encodeZigZag_uint v : int_range true 64 v -> uint 64 (encodeZigZag v).
Proof. intros Hv. rewrite encodeZigZag_value by done. unfold int_range, uint in *. destruct (Z.ltb_spec v 0); lia. Qed.

Lemma decode_encodeZigZag v : int_range true 64 v -> decodeZigZag (encodeZigZag v) = v.
Proof.
  intros Hv. rewrite decodeZigZag_value by (by apply encodeZigZag_uint). rewrite encodeZigZag_value by done.
  rewrite Zeven_mod. destruct (Z.ltb_spec v 0).
  - destruct (Z.eqb_spec ((-2 * v - 1) mod 2) 0); dlia.
  - destruct (Z.eqb_spec ((2 * v) mod 2) 0); dlia.
Qed.

Lemma readVarInt_write v r : int_range true 64 v -> readVarInt (writeVarInt v ++ r) = Ok (v, r).
Proof.
  intros Hv. unfold readVarInt, writeVarInt. rewrite readVarUInt_write by (by apply encodeZigZag_uint). run.
  by rewrite decode_encodeZigZag.
Qed.

(** ** Any input *)
Lemma ignore_loop_read ce todo : forall i x buf, ignoreVarUInt_loop ce todo buf = ('(_, r) ← readVarUInt_loop ce todo i x buf; Ok r).
Proof.
  induction todo as [|todo IH]; intros i x buf; cbn [ignoreVarUInt_loop readVarUInt_loop]; [done|].
  destruct buf as [|b buf]; [by destruct ce|]. destruct (Z.land b 128 =? 0); [done|]. apply IH.
Qed.

Lemma ignoreVarUInt_read buf : ignoreVarUInt buf = ('(_, r) ← readVarUInt buf; Ok r).
Proof. unfold ignoreVarUInt, readVarUInt. destruct (Nat.leb _ _); apply ignore_loop_read. Qed.

(** The unchecked loop never runs past ten bytes that are there. *)
Lemma readVarUInt_loop_defined ce todo : forall i x buf, (ce = false -> (todo <= length buf)%nat) -> readVarUInt_loop ce todo i x buf <> Undef.
Proof.
  induction todo as [|todo IH]; intros i x buf Hl; cbn [readVarUInt_loop]; [done|].
  destruct buf as [|b buf]; [destruct ce; [done|specialize (Hl eq_refl); cbn in Hl; lia]|].
  destruct (Z.land b 128 =? 0); [done|]. apply IH. intros Hc. specialize (Hl Hc). cbn in Hl. lia.
Qed.

Lemma readVarUInt_defined buf : readVarUInt buf <> Undef.
Proof.
  unfold readVarUInt. destruct (Nat.leb 10 (length buf)) eqn:E; apply readVarUInt_loop_defined; [|done].
  intros _. by apply Nat.leb_le.
Qed.

(** What is read was a prefix of at most ten bytes. *)
Lemma readVarUInt_loop_suffix ce todo : forall i x buf y r, readVarUInt_loop ce todo i x buf = Ok (y, r) ->
  exists p, buf = p ++ r /\ (length p <= todo)%nat.
Proof.
  induction todo as [|todo IH]; intros i x buf y r H; cbn [readVarUInt_loop] in H.
  - injection H as <- <-. by exists [].
  - destruct buf as [|b buf]; [by destruct ce|]. destruct (Z.land b 128 =? 0).
    + injection H as <- <-. exists [b]. cbn. split; [done|lia].
    + destruct (IH _ _ _ _ _ H) as (p & -> & Hp). exists (b :: p). cbn. split; [done|lia].
Qed.
