(* ===== verification/ReadHelpers.v ===== *)
(** * Reading and writing fields

    The helpers of [src/IO/ReadHelpers.h], [ReadHelpers.cpp] and
    [WriteHelpers.h] that the formats of parts use: characters, fixed strings,
    integers as memory holds them, strings after their length, flags.  A read
    buffer is what is left to read, a writer gives the bytes it appends. *)

From stdpp Require Import prelude.
From Stdlib Require Import ZArith Lia.
From S2P Require Import Prelude Bits Itoa VarInt.

(** ** Characters *)
Definition isLowerAlphaASCII (c : Z) : bool := (97 <=? c) && (c <=? 122).
Definition isUpperAlphaASCII (c : Z) : bool := (65 <=? c) && (c <=? 90).
Definition isAlphaASCII (c : Z) : bool := isLowerAlphaASCII c || isUpperAlphaASCII c.
Definition isNumericASCII (c : Z) : bool := (48 <=? c) && (c <=? 57).
Definition isAlphaNumericASCII (c : Z) : bool := isAlphaASCII c || isNumericASCII c.
Definition alternateCaseIfAlphaASCII (c : Z) : Z := Z.lxor c 0x20.
Definition equalsCaseInsensitive (a b : Z) : bool := (a =? b) || (isAlphaASCII a && (alternateCaseIfAlphaASCII a =? b)).

Definition readChar (buf : bytes) : outcome (Z * bytes) :=
  match buf with
  | [] => Throw ATTEMPT_TO_READ_AFTER_EOF
  | c :: buf => Ok (c, buf)
  end.

(** [checkChar]: the buffer moves on only when the character is there. *)
Definition checkChar (c : Z) (buf : bytes) : option bytes :=
  match buf with
  | a :: buf => if a =? c then Some buf else None
  | [] => None
  end.

(** [checkStringCaseInsensitive]: a mismatch leaves the characters before it consumed. *)
Fixpoint checkStringCaseInsensitive (s : bytes) (buf : bytes) : bool * bytes :=
  match s with
  | [] => (true, buf)
  | x :: s =>
      match buf with
      | [] => (false, [])
      | c :: buf' => if equalsCaseInsensitive x c then checkStringCaseInsensitive s buf' else (false, buf)
      end
  end.

Definition assertStringCaseInsensitive (s : bytes) (buf : bytes) : outcome bytes :=
  let '(found, buf) := checkStringCaseInsensitive s buf in
  if found then Ok buf else Throw CANNOT_PARSE_INPUT_ASSERTION_FAILED.

(** ** Integers *)
Definition readStrict (n : Z) (buf : bytes) : outcome (bytes * bytes) :=
  let read_bytes := Z.min n (blen buf) in
  if n =? read_bytes then Ok (take (Z.to_nat n) buf, drop (Z.to_nat n) buf) else Throw CANNOT_READ_ALL_DATA.

(** [readPODBinary]: [size] bytes in memory order. *)
Definition readPODBinary (size : nat) (buf : bytes) : outcome (Z * bytes) :=
  if Nat.leb size (length buf) then Ok (le_load (take size buf), drop size buf)
  else '(x, buf) ← readStrict (Z.of_nat size) buf; Ok (le_load x, buf).

Definition readIntBinary (signed : bool) (size : nat) (buf : bytes) : outcome (Z * bytes) :=
  '(x, buf) ← readPODBinary size buf;
  Ok (if signed then to_signed (8 * Z.of_nat size) x else x, buf).

Definition writeIntBinary (size : nat) (x : Z) : bytes := le_store size x.

(** ** Strings and flags *)
Definition DEFAULT_MAX_STRING_SIZE : Z := 2 ^ 30.

Definition writeStringBinary (s : bytes) : bytes := writeVarUInt (blen s) ++ s.

Definition readStringBinary (max_string_size : Z) (buf : bytes) : outcome (bytes * bytes) :=
  '(size, buf) ← readVarUInt buf;
  _ ← require (size <=? max_string_size) TOO_LARGE_STRING_SIZE;
  readStrict size buf.

Definition writeBoolText (x : bool) : bytes := [if x then 49 else 48].

(** [readBoolText]: [1], [0], [true] and [false] in any case; any other first
    character alone means true. *)
Definition readBoolText (buf : bytes) : outcome (bool * bytes) :=
  '(tmp, buf) ← readChar buf;
  let x := negb (tmp =? 48) in
  if negb (bool_decide (buf = [])) && isAlphaASCII tmp then
    if (tmp =? 116) || (tmp =? 84) then
      buf ← assertStringCaseInsensitive [114; 117; 101] buf;
      Ok (true, buf)
    else if (tmp =? 102) || (tmp =? 70) then
      buf ← assertStringCaseInsensitive [97; 108; 115; 101] buf;
      Ok (false, buf)
    else Ok (x, buf)
  else Ok (x, buf).

(** ** What is written is read back *)
Lemma readStrict_app s r : readStrict (blen s) (s ++ r) = Ok (s, r).
Proof.
  unfold readStrict. rewrite length_app. destruct (Z.eqb_spec (blen s) (Z.min (blen s) (Z.of_nat (length s + length r)))); [|lia].
  by rewrite Nat2Z.id, take_app_length, drop_app_length.
Qed.

Lemma readIntBinary_write signed size x r : (0 < size)%nat -> int_range signed (8 * Z.of_nat size) x ->
  readIntBinary signed size (writeIntBinary size x ++ r) = Ok (x, r).
Proof.
  intros Hs Hx. unfold readIntBinary, readPODBinary, writeIntBinary.
  rewrite take_le_store, drop_le_store, le_load_store, (proj2 (Nat.leb_le _ _)) by len. run.
  unfold int_range in Hx. destruct signed; [by rewrite to_signed_wrap by (done || lia)|by rewrite wrap_id].
Qed.

Lemma readStringBinary_write max s r : blen s <= max -> blen s < 2 ^ 64 -> readStringBinary max (writeStringBinary s ++ r) = Ok (s, r).
Proof.
  intros Hm Hs. unfold readStringBinary, writeStringBinary. rewrite <- app_assoc, readVarUInt_write by (split; [lia|done]). run.
  rewrite bind_require by blia. apply readStrict_app.
Qed.

Lemma readBoolText_write x r : readBoolText (writeBoolText x ++ r) = Ok (x, r).
Proof. destruct x; cbn; by rewrite andb_false_r. Qed.

Lemma checkChar_cons c r : checkChar c (c :: r) = Some r.
Proof. cbn. by rewrite Z.eqb_refl. Qed.
