(* ===== verification/Orders.v ===== *)
(** * Three-way comparison and ordered maps

    [operator<=>] of tuples and strings, and [std::map] as the list of its
    entries in the order of the keys; an iterator into it is the pair of the
    entries before it, the nearest first, and those from it on. *)

From stdpp Require Import prelude sorting.
From Stdlib Require Import ZArith Lia.
From S2P Require Import Prelude.

(** ** Comparison *)
Class Compare (A : Type) := compare : A -> A -> comparison.

Class TotalOrder (A : Type) `{Compare A} := {
  compare_eq (a b : A) : compare a b = Eq <-> a = b;
  compare_opp (a b : A) : compare b a = CompOpp (compare a b);
  compare_trans (a b c : A) : compare a b = Lt -> compare b c = Lt -> compare a c = Lt }.

Definition lex (c d : comparison) : comparison := match c with Eq => d | _ => c end.

#[export] Instance Z_compare : Compare Z := Z.compare.

#[export] Instance prod_compare {A B} `{Compare A, Compare B} : Compare (A * B) :=
  fun a b => lex (compare a.1 b.1) (compare a.2 b.2).

Fixpoint lex_list {A} `{Compare A} (l k : list A) : comparison :=
  match l, k with
  | [], [] => Eq
  | [], _ :: _ => Lt
  | _ :: _, [] => Gt
  | a :: l, b :: k => lex (compare a b) (lex_list l k)
  end.

#[export] Instance list_compare {A} `{Compare A} : Compare (list A) := lex_list.

#[export] Instance Z_order : TotalOrder Z.
Proof.
  constructor; unfold compare, Z_compare.
  - apply Z.compare_eq_iff.
  - intros a b. apply Z.compare_antisym.
  - intros a b c. rewrite !Z.compare_lt_iff. lia.
Qed.

Section lexicographic.
  Context {A : Type} `{TotalOrder A}.

Lemma compare_refl (a : A) : compare a a = Eq.
  Proof. by apply compare_eq. Qed.

Lemma compare_gt (a b : A) : compare a b = Gt <-> compare b a = Lt.
  Proof. rewrite (compare_opp a b). by destruct (compare a b). Qed.

(** A step of the lexicographic order, with any comparison of the rest. *)
Lemma lex_opp (a b : A) (d : comparison) : lex (compare b a) (CompOpp d) = CompOpp (lex (compare a b) d).
  Proof. rewrite (compare_opp a b). by destruct (compare a b). Qed.

Lemma lex_lt (a b : A) (d : comparison) : lex (compare a b) d = Lt <-> compare a b = Lt \/ (a = b /\ d = Lt).
  Proof.
    rewrite <- (compare_eq a b). destruct (compare a b); cbn; split; try tauto; try intros [?|[? ?]]; try congruence; by right.
  Qed.
End lexicographic.

#[export] Instance prod_order {A B} `{TotalOrder A, TotalOrder B} : TotalOrder (A * B).
Proof.
  constructor; unfold compare, prod_compare.
  - intros [a1 a2] [b1 b2]; cbn. destruct (compare a1 b1) eqn:E; cbn.
    + apply compare_eq in E as ->. rewrite compare_eq. split; congruence.
    + split; [done|]. intros [= -> ->]. by rewrite compare_refl in E.
    + split; [done|]. intros [= -> ->]. by rewrite compare_refl in E.
  - intros [a1 a2] [b1 b2]; cbn. rewrite (compare_opp a2 b2). apply lex_opp.
  - intros [a1 a2] [b1 b2] [c1 c2]; cbn. rewrite !lex_lt. intros [?|[-> ?]] [?|[<- ?]];
      [left; by eapply compare_trans|by left|by left|right; split; [done|by eapply compare_trans]].
Qed.

#[export] Instance list_order {A} `{TotalOrder A} : TotalOrder (list A).
Proof.
  constructor; unfold compare, list_compare.
  - induction a as [|x a IH]; intros [|y b]; cbn; try done. destruct (compare x y) eqn:E; cbn.
    + apply compare_eq in E as ->. rewrite IH. split; congruence.
    + split; [done|]. intros [= -> ->]. by rewrite compare_refl in E.
    + split; [done|]. intros [= -> ->]. by rewrite compare_refl in E.
  - induction a as [|x a IH]; intros [|y b]; cbn; try done. rewrite IH. apply lex_opp.
  - induction a as [|x a IH]; intros [|y b] [|z c]; cbn; try done. rewrite !lex_lt. intros [?|[-> ?]] [?|[<- ?]];
      [left; by eapply compare_trans|by left|by left|right; split; [done|by eapply IH]].
Qed.

(** ** Filters and sorted lists *)
Section filters.
  Context {A : Type} (P : A -> Prop) `{!forall x, Decision (P x)}.

Lemma list_filter_all l : Forall P l -> filter P l = l.
  Proof. induction 1; [done|]. rewrite filter_cons_True by done. by f_equal. Qed.

Lemma list_filter_none l : Forall (fun x => ~ P x) l -> filter P l = [].
  Proof. induction 1; [done|]. by rewrite filter_cons_False. Qed.
End filters.

Lemma list_filter_ext {A} (P Q : A -> Prop) `{!forall x, Decision (P x), !forall x, Decision (Q x)} (l : list A) :
  (forall x, x ∈ l -> P x <-> Q x) -> filter P l = filter Q l.
Proof.
  induction l as [|x l IH]; intros Heq; [done|]. rewrite !filter_cons, IH by (intros y Hy; apply Heq; by right).
  specialize (Heq x ltac:(by left)). destruct (decide (Q x)); [rewrite decide_True by tauto|rewrite decide_False by tauto]; done.
Qed.

Lemma StronglySorted_sublist {A} (R : relation A) l l' : sublist l l' -> StronglySorted R l' -> StronglySorted R l.
Proof.
  induction 1 as [|x l l' Hl IH|x l l' Hl IH]; [done| |]; intros [H Hs]%StronglySorted_cons; [|by apply IH].
  apply StronglySorted_cons. split; [|by apply IH]. rewrite Forall_forall in H |- *. intros y Hy. apply H. by eapply elem_of_sublist.
Qed.

Lemma StronglySorted_pair {A} (R : relation A) l x y : StronglySorted R l -> x ∈ l -> y ∈ l -> x = y \/ R x y \/ R y x.
Proof.
  intros Hs Hx Hy. induction Hs as [|z l Hs IH Hz]; [by apply elem_of_nil in Hx|]. rewrite Forall_forall in Hz.
  apply elem_of_cons in Hx as [->|Hx]; apply elem_of_cons in Hy as [->|Hy]; auto.
Qed.

(** ** Ordered maps

    [key e] is what the comparator of the map looks at in the entry [e]. *)
Section ordered_map.
  Context {E K : Type} `{TotalOrder K} (key : E -> K).

Definition is_lt (k k' : K) : bool := match compare k k' with Lt => true | _ => false end.

Fixpoint lower_bound_from (before m : list E) (k : K) : list E * list E :=
  match m with
  | [] => (before, [])
  | e :: m' => if is_lt (key e) k then lower_bound_from (e :: before) m' k else (before, m)
  end.

(** [lower_bound]: the first entry whose key is not less. *)
Definition lower_bound (m : list E) (k : K) : list E * list E := lower_bound_from [] m k.

(** The map an iterator points into. *)
Definition whole (it : list E * list E) : list E := rev_append it.1 it.2.

(** [erase(key)] with the number of erased entries. *)
Definition erase (m : list E) (k : K) : Z * list E :=
  match lower_bound m k with
  | (before, e :: after) => match compare (key e) k with Eq => (1, whole (before, after)) | _ => (0, m) end
  | (_, []) => (0, m)
  end.

(** [emplace]: an entry with an equal key stays. *)
Definition emplace (m : list E) (e : E) : list E :=
  match lower_bound m (key e) with
  | (before, e' :: after) => match compare (key e') (key e) with Eq => m | _ => whole (before, e :: e' :: after) end
  | (before, []) => whole (before, [e])
  end.

Definition key_lt (a b : E) : Prop := compare (key a) (key b) = Lt.

Lemma whole_app before after : whole (before, after) = reverse before ++ after.
  Proof. unfold whole, reverse. cbn. by rewrite rev_append_rev, rev_alt. Qed.

Lemma lower_bound_from_spec k m : forall before, let it := lower_bound_from before m k in
    whole it = reverse before ++ m /\ (exists l, it.1 = l ++ before /\ Forall (fun e => compare (key e) k = Lt) l) /\
    match it.2 with e :: _ => compare (key e) k <> Lt | [] => True end.
  Proof.
    induction m as [|e m IH]; intros before; cbn [lower_bound_from].
    - cbv zeta; cbn [fst snd]. split; [by rewrite whole_app|]. split; [by exists []|done].
    - unfold is_lt. destruct (compare (key e) k) eqn:Ec.
      1, 3: cbv zeta; cbn [fst snd]; rewrite whole_app; split; [done|]; split; [by exists []|by rewrite Ec].
      destruct (IH (e :: before)) as (Hw & (l & Hl & Hf) & Hr). split; [rewrite Hw, reverse_cons; by rewrite <- app_assoc|].
      split; [|done]. exists (l ++ [e]). rewrite Hl, <- app_assoc. split; [done|]. apply Forall_app. split; [done|by constructor].
  Qed.

(** Both sides of the place found in a sorted map. *)
Lemma lower_bound_spec m k before after : StronglySorted key_lt m -> lower_bound m k = (before, after) ->
    m = reverse before ++ after /\ Forall (fun e => compare (key e) k = Lt) before /\ Forall (fun e => compare (key e) k <> Lt) after.
  Proof.
    intros Hs El. pose proof (lower_bound_from_spec k m []) as Hlb. fold (lower_bound m k) in Hlb. rewrite El in Hlb.
    destruct Hlb as (Hw & (l & Hl & Hf) & Hr). cbn [fst snd] in *. rewrite whole_app in Hw. cbn in Hw. rewrite app_nil_r in Hl. subst l.
    split; [done|]. split; [done|]. subst m. destruct after as [|e after]; [done|].
    apply StronglySorted_app in Hs as (_ & _ & Hs). apply StronglySorted_cons in Hs as [Hs _].
    constructor; [done|]. eapply Forall_impl; [exact Hs|]. cbn. intros e' He' Hlt. apply Hr. by eapply compare_trans.
  Qed.

(** The place is where the smaller entries end. *)
Lemma lower_bound_app before after k : Forall (fun e => compare (key e) k = Lt) before ->
    Forall (fun e => compare (key e) k <> Lt) after -> lower_bound (reverse before ++ after) k = (before, after).
  Proof.
    intros Hb Ha.
    assert (forall l acc, Forall (fun e => compare (key e) k = Lt) l -> lower_bound_from acc (l ++ after) k = (reverse l ++ acc, after)) as Hgen.
    { intros l acc Hl. revert acc. induction Hl as [|e l He _ IH]; intros acc; cbn [app lower_bound_from]; unfold is_lt.
      - destruct after as [|e after]; [done|]. cbn [lower_bound_from]. apply Forall_cons in Ha as [Ha _]. unfold is_lt.
        by destruct (compare (key e) k).
      - rewrite He, IH, reverse_cons, <- app_assoc. done. }
    unfold lower_bound. rewrite Hgen by (by apply Forall_reverse). by rewrite reverse_involutive, app_nil_r.
  Qed.

Lemma erase_present m e l1 l2 : StronglySorted key_lt m -> m = l1 ++ e :: l2 -> erase m (key e) = (1, l1 ++ l2).
  Proof.
    intros Hs Hm. unfold erase. destruct (lower_bound m (key e)) as [before after] eqn:El.
    destruct (lower_bound_spec m _ before after Hs El) as (Hw & Hb & Ha).
    assert (reverse before = l1 /\ after = e :: l2) as [<- ->].
    { rewrite Hm in Hs. apply StronglySorted_app in Hs as (H12 & _ & Hs2). apply StronglySorted_cons in Hs2 as [Hk _].
      rewrite Hm in Hw. clear El Hm m. revert Hw. apply Forall_reverse in Hb. revert Hb. generalize (reverse before) as l. clear before.
      intros l Hb. revert l Hb H12. induction l1 as [|a l1 IH]; intros l Hb H12 Hw.
      - destruct l as [|a l]; [done|]. cbn in Hw. simplify_eq. apply Forall_cons in Hb as [Hb _]. by rewrite compare_refl in Hb.
      - destruct l as [|a' l]; cbn in Hw.
        + subst after. apply Forall_cons in Ha as [Ha _]. destruct Ha. apply (H12 a e); by left.
        + simplify_eq. apply Forall_cons in Hb as [_ Hb]. destruct (IH l Hb) as [-> ->]; [|done..].
          intros x1 x2 Hx1. apply H12. by right. }
    rewrite compare_refl. by rewrite whole_app.
  Qed.

Lemma erase_absent m k : StronglySorted key_lt m -> Forall (fun e => key e <> k) m -> erase m k = (0, m).
  Proof.
    intros Hs Hm. unfold erase. destruct (lower_bound m k) as [before after] eqn:El.
    destruct (lower_bound_spec m k before after Hs El) as (Hw & Hb & Ha). destruct after as [|e after]; [done|].
    destruct (compare (key e) k) eqn:Ec; try done. apply compare_eq in Ec. rewrite Hw in Hm. apply Forall_app in Hm as [_ Hm].
    apply Forall_cons in Hm as [Hm _]. done.
  Qed.

(** [erase] keeps the entries with other keys, and counts the one it removes. *)
Lemma erase_filter `{EqDecision K} m k : StronglySorted key_lt m ->
    (erase m k).2 = filter (fun e => key e <> k) m /\ ((0 <? (erase m k).1) = true <-> exists e, e ∈ m /\ key e = k).
  Proof.
    intros Hs. destruct (decide (Exists (fun e => key e = k) m)) as [Hex|Hno].
    - apply Exists_exists in Hex as (e & He & <-). apply list_elem_of_split in He as (l1 & l2 & Hm).
      rewrite (erase_present m e l1 l2 Hs Hm). cbn [fst snd]. split; [|split; [|done]].
      + subst m. apply StronglySorted_app in Hs as (H12 & _ & Hs2). apply StronglySorted_cons in Hs2 as [H2 _].
        rewrite filter_app, filter_cons_False by (intros Hc; by apply Hc). f_equal; symmetry; apply list_filter_all.
        * apply Forall_forall. intros a Ha Heq. specialize (H12 a e Ha ltac:(by left)). unfold key_lt in H12. by rewrite Heq, compare_refl in H12.
        * eapply Forall_impl; [exact H2|]. intros a Ha Heq. unfold key_lt in Ha. by rewrite Heq, compare_refl in Ha.
      + intros _. exists e. split; [|done]. subst m. apply elem_of_app. right. by left.
    - apply Forall_Exists_neg in Hno. rewrite erase_absent by done. cbn [fst snd]. split; [symmetry; by apply list_filter_all|].
      split; [done|]. intros (e & He & Hk). rewrite Forall_forall in Hno. by apply Hno in He.
  Qed.

Lemma emplace_absent m e before after : lower_bound m (key e) = (before, after) -> Forall (fun e' => key e' <> key e) after ->
    emplace m e = reverse before ++ e :: after.
  Proof.
    intros El Ha. unfold emplace. rewrite El. destruct after as [|e' after]; [by rewrite whole_app|].
    apply Forall_cons in Ha as [Ha _]. destruct (compare (key e') (key e)) eqn:Ec; [by apply compare_eq in Ec|by rewrite whole_app..].
  Qed.
End ordered_map.
