(* ===== verification/PartInfo.v ===== *)
(** * Names and block ranges of data parts

    [MergeTreePartInfo] and [DetachedPartInfo] of
    [src/Storages/MergeTree/MergeTreePartInfo.h] and [.cpp]: the record of a
    part, its order, containment and disjointness, its text and binary forms
    and the parsers of both.  Strings are lists of byte values. *)

From stdpp Require Import prelude sorting.
From Stdlib Require Import ZArith Lia.
From S2P Require Import Prelude Bits Itoa IntText VarInt ReadHelpers Orders.

Definition underscore : Z := 95.

Module MergeTreePartInfo.

Inductive Kind : Set := Regular | Patch.

#[export] Instance Kind_eq_dec : EqDecision Kind.
Proof. solve_decision. Defined.

Definition kind_code (k : Kind) : Z := match k with Regular => 0 | Patch => 1 end.

(** The bytes of [patch-]. *)
Definition PATCH_PART_PREFIX : bytes := [112; 97; 116; 99; 104; 45].
Definition PATCH_PART_PREFIX_SIZE : Z := blen PATCH_PART_PREFIX + 32 + 1.
Definition MAX_LEVEL : Z := 999999999.
Definition LEGACY_MAX_LEVEL : Z := 2 ^ 32 - 1.

Fixpoint starts_with (prefix s : bytes) : bool :=
  match prefix, s with
  | [], _ => true
  | a :: prefix, b :: s => (a =? b) && starts_with prefix s
  | _ :: _, [] => false
  end.

Definition getKind (partition_id : bytes) : Kind := if starts_with PATCH_PART_PREFIX partition_id then Patch else Regular.

Record t : Type := Make {
  kind : Kind;
  partition_id : bytes;
  min_block : Z;
  max_block : Z;
  level : Z;
  mutation : Z;
  use_legacy_max_level : bool }.

#[export] Instance t_eq_dec : EqDecision t.
Proof. solve_decision. Defined.

Definition default : t := Make Regular [] 0 0 0 0 false.

(** The constructors from a partition and a range. *)
Definition make (partition_id : bytes) (min_block max_block level mutation : Z) : t :=
  Make (getKind partition_id) partition_id min_block max_block level mutation false.

Definition isPatch (p : t) : bool := bool_decide (kind p = Patch).

Definition setPartitionId (p : t) (new_partition_id : bytes) : t :=
  Make (getKind new_partition_id) new_partition_id (min_block p) (max_block p) (level p) (mutation p) (use_legacy_max_level p).

(** [toTuple]: what [operator<=>] and [operator==] look at. *)
Definition tuple : Type := Z * bytes * Z * Z * Z * Z.

Definition toTuple (p : t) : tuple := (kind_code (kind p), partition_id p, min_block p, max_block p, level p, mutation p).

Definition getMutationVersion (p : t) : Z := mutation p.

Definition getDataVersion (p : t) : Z := if mutation p =? 0 then min_block p else mutation p.

Definition contains (a rhs : t) : bool :=
  let strictly_contains_block_range :=
    ((min_block a =? min_block rhs) && (max_block a =? max_block rhs)) || (level rhs <? level a)
      || (level a =? MAX_LEVEL) || (level a =? LEGACY_MAX_LEVEL) in
  bool_decide (partition_id a = partition_id rhs) && (min_block a <=? min_block rhs) && (max_block rhs <=? max_block a)
    && (level rhs <=? level a) && (mutation rhs <=? mutation a) && strictly_contains_block_range.

Definition isMutationChildOf (a parent_candidate : t) : bool :=
  bool_decide (partition_id a = partition_id parent_candidate) && (min_block a =? min_block parent_candidate)
    && (max_block a =? max_block parent_candidate) && (level a =? level parent_candidate) && (mutation parent_candidate <=? mutation a).

Definition isDisjoint (a rhs : t) : bool :=
  negb (bool_decide (partition_id a = partition_id rhs)) || (max_block rhs <? min_block a) || (max_block a <? min_block rhs).

Definition isFakeDropRangePart (p : t) : bool := (level p =? MAX_LEVEL) || (level p =? LEGACY_MAX_LEVEL).

(** Signed arithmetic must not overflow. *)
Definition int64 (x : Z) : outcome Z := if in_type true 64 x then Ok x else Undef.

Definition getBlocksCount (p : t) : outcome Z :=
  d ← int64 (max_block p - min_block p);
  c ← int64 (d + 1);
  Ok (wrap 64 c).

(** ** Patches *)
Definition isPatchPartitionId (partition_id : bytes) : bool :=
  starts_with PATCH_PART_PREFIX partition_id && (PATCH_PART_PREFIX_SIZE <? blen partition_id).

Definition getOriginalPartitionIdOfPatch (partition_id : bytes) : outcome bytes :=
  _ ← require (isPatchPartitionId partition_id) LOGICAL_ERROR;
  Ok (drop (Z.to_nat PATCH_PART_PREFIX_SIZE) partition_id).

Definition getOriginalPartitionId (p : t) : outcome bytes :=
  if isPatch p then getOriginalPartitionIdOfPatch (partition_id p) else Ok (partition_id p).

Definition isPatchForPartition (info : t) (original : bytes) : outcome bool :=
  if negb (isPatch info) then Ok false
  else
    _ ← require (isPatchPartitionId (partition_id info)) LOGICAL_ERROR;
    Ok (bool_decide (drop (Z.to_nat PATCH_PART_PREFIX_SIZE) (partition_id info) = original)).

(** ** Names *)
Definition MERGE_TREE_DATA_MIN_FORMAT_VERSION_WITH_CUSTOM_PARTITIONING : Z := 1.

(** The range, level and mutation that end both forms of the name. *)
Definition write_range (p : t) : outcome bytes :=
  min_text ← writeIntText true 64 (min_block p);
  max_text ← writeIntText true 64 (max_block p);
  level_text ← (if use_legacy_max_level p then writeIntText false 32 LEGACY_MAX_LEVEL else writeIntText false 32 (level p));
  mutation_text ← (if mutation p =? 0 then Ok [] else text ← writeIntText true 64 (mutation p); Ok (underscore :: text));
  Ok (min_text ++ underscore :: max_text ++ underscore :: level_text ++ mutation_text).

Definition getPartNameV1 (p : t) : outcome bytes :=
  range ← write_range p;
  Ok (partition_id p ++ underscore :: range).

Definition getPartNameForLogs (p : t) : outcome bytes := getPartNameV1 p.

Definition describe (p : t) : outcome bytes := getPartNameV1 p.

(** [toNumYYYYMMDD]: the calendar of [DateLUT], whose tables cctz fills. *)
Definition getPartNameV0 (toNumYYYYMMDD : Z -> Z) (p : t) (left_date right_date : Z) : outcome bytes :=
  left_text ← writeIntText false 32 (toNumYYYYMMDD left_date);
  right_text ← writeIntText false 32 (toNumYYYYMMDD right_date);
  range ← write_range p;
  Ok (left_text ++ underscore :: right_text ++ underscore :: range).

Definition getPartNameAndCheckFormat (p : t) (format_version : Z) : outcome bytes :=
  if format_version =? MERGE_TREE_DATA_MIN_FORMAT_VERSION_WITH_CUSTOM_PARTITIONING then getPartNameV1 p
  else Throw BAD_DATA_PART_NAME.

(** The loop that reads up to the first underscore, which it consumes. *)
Fixpoint read_partition_id (buf : bytes) : bytes * bytes :=
  match buf with
  | [] => ([], [])
  | c :: buf => if c =? underscore then ([], buf) else let '(id, r) := read_partition_id buf in (c :: id, r)
  end.

(** The dates of the old format; the month becomes the partition. *)
Definition read_dates (buf : bytes) : outcome (option (bytes * bytes)) :=
  match
    '(min_yyyymmdd, buf) ← tryReadIntText false 32 buf;
    buf ← checkChar underscore buf;
    '(max_yyyymmdd, buf) ← tryReadIntText false 32 buf;
    buf ← checkChar underscore buf;
    Some (min_yyyymmdd, buf)
  with
  | Some (min_yyyymmdd, buf) => partition_id ← writeIntText false 32 (min_yyyymmdd / 100); Ok (Some (partition_id, buf))
  | None => Ok None
  end.

(** The mutation, which may be missing, ends the name. *)
Definition read_mutation (buf : bytes) : option Z :=
  match buf with
  | [] => Some 0
  | _ => buf ← checkChar underscore buf;
         '(mutation, buf) ← tryReadIntText false 32 buf;
         match buf with [] => Some mutation | _ => None end
  end.

(** From the first block number on. *)
Definition read_range (partition_id : bytes) (buf : bytes) : option t :=
  '(min_block_num, buf) ← tryReadIntText true 64 buf;
  buf ← checkChar underscore buf;
  '(max_block_num, buf) ← tryReadIntText true 64 buf;
  buf ← checkChar underscore buf;
  '(level, buf) ← tryReadIntText false 32 buf;
  _ ← (if max_block_num <? min_block_num then None else Some tt);
  mutation ← read_mutation buf;
  let part_info := setPartitionId default partition_id in
  let legacy := level =? LEGACY_MAX_LEVEL in
  Some (Make (kind part_info) partition_id min_block_num max_block_num (if legacy then MAX_LEVEL else level) mutation legacy).

Definition tryParsePartName (part_name : bytes) (format_version : Z) : outcome (option t) :=
  start ← (if format_version <? MERGE_TREE_DATA_MIN_FORMAT_VERSION_WITH_CUSTOM_PARTITIONING then read_dates part_name
           else Ok (Some (read_partition_id part_name)));
  Ok ('(partition_id, buf) ← start;
      match partition_id with [] => None | _ => read_range partition_id buf end).

(** The days of the calendar are 16 bits wide. *)
Definition parseMinMaxDatesFromPartName (YYYYMMDDToDayNum toNumYYYYMM : Z -> Z) (part_name : bytes) : outcome (Z * Z) :=
  match
    '(min_yyyymmdd, buf) ← tryReadIntText false 32 part_name;
    buf ← checkChar underscore buf;
    '(max_yyyymmdd, buf) ← tryReadIntText false 32 buf;
    Some (min_yyyymmdd, max_yyyymmdd)
  with
  | None => Throw BAD_DATA_PART_NAME
  | Some (min_yyyymmdd, max_yyyymmdd) =>
      let min_date := wrap 16 (YYYYMMDDToDayNum min_yyyymmdd) in
      let max_date := wrap 16 (YYYYMMDDToDayNum max_yyyymmdd) in
      _ ← require (toNumYYYYMM min_date =? toNumYYYYMM max_date) BAD_DATA_PART_NAME;
      Ok (min_date, max_date)
  end.

Definition fromPartName (part_name : bytes) (format_version : Z) : outcome t :=
  part_opt ← tryParsePartName part_name format_version;
  match part_opt with Some p => Ok p | None => Throw BAD_DATA_PART_NAME end.

Definition contains_names (outer_part_name inner_part_name : bytes) (format_version : Z) : outcome bool :=
  outer ← fromPartName outer_part_name format_version;
  inner ← fromPartName inner_part_name format_version;
  Ok (contains outer inner).

(** The argument is the value of the literal, if it is a string. *)
Definition validatePartitionID (literal : option bytes) (format_version : Z) : outcome unit :=
  match literal with
  | None => Throw INVALID_PARTITION_VALUE
  | Some partition_id =>
      _ ← require (negb (bool_decide (partition_id = []))) INVALID_PARTITION_VALUE;
      if format_version <? MERGE_TREE_DATA_MIN_FORMAT_VERSION_WITH_CUSTOM_PARTITIONING then
        require (negb (negb (blen partition_id =? 6) || negb (forallb isNumericASCII partition_id))) INVALID_PARTITION_VALUE
      else require (forallb (fun c => (c =? 45) || isAlphaNumericASCII c) partition_id) INVALID_PARTITION_VALUE
  end.

(** ** The binary form *)
Definition DBMS_MERGE_TREE_PART_INFO_VERSION : Z := 1.

Definition serialize (p : t) : bytes :=
  writeIntBinary 8 DBMS_MERGE_TREE_PART_INFO_VERSION ++ writeStringBinary (partition_id p) ++ writeIntBinary 8 (min_block p)
    ++ writeIntBinary 8 (max_block p) ++ writeIntBinary 4 (level p) ++ writeIntBinary 8 (mutation p)
    ++ writeBoolText (use_legacy_max_level p).

(** Fills the fields of an existing object; [kind] is not one of them. *)
Definition deserialize (self : t) (buf : bytes) : outcome (t * bytes) :=
  '(version, buf) ← readIntBinary false 8 buf;
  _ ← require (version =? DBMS_MERGE_TREE_PART_INFO_VERSION) UNKNOWN_FORMAT_VERSION;
  '(partition_id, buf) ← readStringBinary DEFAULT_MAX_STRING_SIZE buf;
  '(min_block, buf) ← readIntBinary true 8 buf;
  '(max_block, buf) ← readIntBinary true 8 buf;
  '(level, buf) ← readIntBinary false 4 buf;
  '(mutation, buf) ← readIntBinary true 8 buf;
  '(use_legacy_max_level, buf) ← readBoolText buf;
  Ok (Make (kind self) partition_id min_block max_block level mutation use_legacy_max_level, buf).

(** ** Coverage of a range *)
Definition tuple_le (a b : t) : Prop := compare (toTuple a) (toTuple b) <> Gt.

#[export] Instance tuple_le_dec : RelDecision tuple_le.
Proof. intros a b. unfold tuple_le. apply _. Defined.

Fixpoint cover_loop (current_right_block : Z) (candidates : list t) : outcome (option Z) :=
  match candidates with
  | [] => Ok (Some current_right_block)
  | candidate :: rest =>
      next ← int64 (current_right_block + 1);
      if next =? min_block candidate then cover_loop (max_block candidate) rest else Ok None
  end.

(** From [std::sort] on. *)
Definition sorted_covered (blocks_range : t) (candidates : list t) : outcome bool :=
  match candidates with
  | [] => Ok false
  | first :: rest =>
      if negb (min_block first =? min_block blocks_range) then Ok false
      else
        start ← int64 (min_block first - 1);
        result ← cover_loop start (first :: rest);
        match result with
        | Some current_right_block => Ok (current_right_block =? max_block blocks_range)
        | None => Ok false
        end
  end.

Definition areAllBlockNumbersCovered (blocks_range : t) (candidates : list t) : outcome bool :=
  match candidates with
  | [] => Ok false
  | _ => sorted_covered blocks_range (merge_sort tuple_le candidates)
  end.

End MergeTreePartInfo.

(** ** Detached parts *)
Module DetachedPartInfo.

Record t (DiskPtr : Type) : Type := Make {
  info : MergeTreePartInfo.t;
  dir_name : bytes;
  prefix : bytes;
  disk : DiskPtr;
  valid_name : bool }.
Arguments Make {DiskPtr} _ _ _ _ _.
Arguments info {DiskPtr} _.
Arguments dir_name {DiskPtr} _.
Arguments prefix {DiskPtr} _.
Arguments disk {DiskPtr} _.
Arguments valid_name {DiskPtr} _.

Definition DETACH_REASONS : list bytes := [
  (* broken *) [98; 114; 111; 107; 101; 110];
  (* unexpected *) [117; 110; 101; 120; 112; 101; 99; 116; 101; 100];
  (* noquorum *) [110; 111; 113; 117; 111; 114; 117; 109];
  (* ignored *) [105; 103; 110; 111; 114; 101; 100];
  (* broken-on-start *) [98; 114; 111; 107; 101; 110; 45; 111; 110; 45; 115; 116; 97; 114; 116];
  (* clone *) [99; 108; 111; 110; 101];
  (* attaching *) [97; 116; 116; 97; 99; 104; 105; 110; 103];
  (* deleting *) [100; 101; 108; 101; 116; 105; 110; 103];
  (* tmp-fetch *) [116; 109; 112; 45; 102; 101; 116; 99; 104];
  (* covered-by-broken *) [99; 111; 118; 101; 114; 101; 100; 45; 98; 121; 45; 98; 114; 111; 107; 101; 110];
  (* merge-not-byte-identical *) [109; 101; 114; 103; 101; 45; 110; 111; 116; 45; 98; 121; 116; 101; 45; 105; 100; 101; 110; 116; 105; 99; 97; 108];
  (* mutate-not-byte-identical *) [109; 117; 116; 97; 116; 101; 45; 110; 111; 116; 45; 98; 121; 116; 101; 45; 105; 100; 101; 110; 116; 105; 99; 97; 108];
  (* broken-from-backup *) [98; 114; 111; 107; 101; 110; 45; 102; 114; 111; 109; 45; 98; 97; 99; 107; 117; 112]].

Section with_disk.
  Context {DiskPtr : Type}.

(** [part_opt] parsed into a detached part with the given prefix. *)
Definition with_info (disk : DiskPtr) (dir_name prefix failed_prefix : bytes) (part_opt : option MergeTreePartInfo.t) : t DiskPtr :=
  match part_opt with
  | Some p => Make p dir_name prefix disk true
  | None => Make MergeTreePartInfo.default dir_name failed_prefix disk false
  end.

(** The known prefix [dir_name] starts with, up to an underscore. *)
Fixpoint find_reason (reasons : list bytes) (dir_name : bytes) : option bytes :=
  match reasons with
  | [] => None
  | known_prefix :: reasons =>
      if MergeTreePartInfo.starts_with known_prefix dir_name && (blen known_prefix <? blen dir_name)
         && bool_decide (dir_name !! length known_prefix = Some underscore)
      then Some known_prefix else find_reason reasons dir_name
  end.

(** [find_first_of('_')]. *)
Fixpoint find_separator (s : bytes) : option nat :=
  match s with
  | [] => None
  | c :: s => if c =? underscore then Some O else S <$> find_separator s
  end.

Definition parseDetachedPartName (disk : DiskPtr) (dir_name : bytes) (format_version : Z) : outcome (t DiskPtr) :=
  match find_reason DETACH_REASONS dir_name with
  | Some known_prefix =>
      part_opt ← MergeTreePartInfo.tryParsePartName (drop (length known_prefix + 1) dir_name) format_version;
      Ok (with_info disk dir_name known_prefix known_prefix part_opt)
  | None =>
      part_opt ← MergeTreePartInfo.tryParsePartName dir_name format_version;
      match part_opt with
      | Some p => Ok (Make p dir_name [] disk true)
      | None =>
          match find_separator dir_name with
          | None => Ok (Make MergeTreePartInfo.default dir_name dir_name disk false)
          | Some first_separator =>
              part_opt ← MergeTreePartInfo.tryParsePartName (drop (first_separator + 1) dir_name) format_version;
              Ok (with_info disk dir_name (take first_separator dir_name) dir_name part_opt)
          end
      end
  end.
End with_disk.

End DetachedPartInfo.
