(* ===== verification/PartInfoFacts.v ===== *)
(** * Facts about part names, containment and coverage *)

From stdpp Require Import prelude sorting.
From Stdlib Require Import ZArith Lia.
From S2P Require Import Prelude Bits Itoa IntText VarInt ReadHelpers Orders PartInfo.
Import MergeTreePartInfo.

(** ** Invariants of a part *)

(** What the constructors and the parser of names establish. *)
Definition well_formed (p : t) : Prop := kind p = getKind (partition_id p) /\ min_block p <= max_block p.

(** A part whose name can be read back. *)
Record nameable (p : t) : Prop := {
  nameable_wf : well_formed p;
  nameable_partition : partition_id p <> [] /\ Forall (fun c => c <> underscore) (partition_id p);
  nameable_min : int_range true 64 (min_block p);
  nameable_max : int_range true 64 (max_block p);
  nameable_level : uint 32 (level p);
  nameable_mutation : uint 32 (mutation p);
  nameable_legacy : if use_legacy_max_level p then level p = MAX_LEVEL else level p <> LEGACY_MAX_LEVEL }.

(** ** Names *)
Definition level_number (p : t) : Z := if use_legacy_max_level p then LEGACY_MAX_LEVEL else level p.

Definition mutation_text (p : t) : bytes := if mutation p =? 0 then [] else underscore :: decimal_text (mutation p).

Definition range_text (p : t) : bytes :=
  decimal_text (min_block p) ++ underscore :: decimal_text (max_block p) ++ underscore :: decimal_text (level_number p) ++ mutation_text p.

Lemma level_number_uint p : nameable p -> uint 32 (level_number p).
Proof. intros Hp. unfold level_number. destruct (use_legacy_max_level p); [unfold LEGACY_MAX_LEVEL, uint; lia|apply Hp]. Qed.

Lemma write_range_spec p : nameable p -> write_range p = Ok (range_text p).
Proof.
  intros Hp. unfold write_range, range_text. pose proof (level_number_uint p Hp) as Hl. destruct Hp as [_ _ Hmin Hmax _ Hmut _].
  rewrite (writeIntText_spec true 64 (min_block p)), (writeIntText_spec true 64 (max_block p)) by (done || (unfold int_width; tauto)). run.
  replace (if use_legacy_max_level p then writeIntText false 32 LEGACY_MAX_LEVEL else writeIntText false 32 (level p))
    with (writeIntText false 32 (level_number p)) by (unfold level_number; by destruct (use_legacy_max_level p)).
  rewrite (writeIntText_spec false 32) by (exact Hl || (unfold int_width; tauto)). run. unfold mutation_text.
  destruct (mutation p =? 0); run; [done|]. rewrite writeIntText_spec; [run; done|unfold int_width; tauto|].
  unfold uint in Hmut. unfold int_range. lia.
Qed.

Lemma read_partition_id_app id r : Forall (fun c => c <> underscore) id -> read_partition_id (id ++ underscore :: r) = (id, r).
Proof.
  induction 1 as [|c id Hc _ IH]; cbn [app read_partition_id]; [done|]. destruct (Z.eqb_spec c underscore); [done|]. by rewrite IH.
Qed.

Lemma read_range_text p : nameable p -> read_range (partition_id p) (range_text p) = Some p.
Proof.
  intros Hp. pose proof (level_number_uint p Hp) as Hl. destruct Hp as [[Hk Hle] _ Hmin Hmax Hlev Hmut Hleg].
  unfold read_range, range_text. rewrite read_decimal_text by (done || lia). cbn [mbind option_bind]. rewrite checkChar_cons. cbn [mbind option_bind].
  rewrite read_decimal_text by (done || lia). cbn [mbind option_bind]. rewrite checkChar_cons. cbn [mbind option_bind].
  rewrite read_decimal_text; [|lia|done|by unfold mutation_text; destruct (mutation p =? 0)]. cbn [mbind option_bind].
  destruct (Z.ltb_spec (max_block p) (min_block p)); [lia|]. cbn [mbind option_bind].
  assert (read_mutation (mutation_text p) = Some (mutation p)) as ->.
  { unfold mutation_text, read_mutation. destruct (Z.eqb_spec (mutation p) 0) as [->|]; [done|]. rewrite checkChar_cons. cbn [mbind option_bind].
    rewrite <- (app_nil_r (decimal_text _)), read_decimal_text by (done || lia). done. }
  cbn [mbind option_bind]. unfold setPartitionId, level_number. cbn [kind]. rewrite <- Hk.
  destruct p as [k id mn mx lv mu leg]. cbn in *. destruct leg; [by subst lv|]. destruct (Z.eqb_spec lv LEGACY_MAX_LEVEL); done.
Qed.

Lemma part_name_parses p : nameable p ->
  exists name, getPartNameV1 p = Ok name /\ tryParsePartName name 1 = Ok (Some p).
Proof.
  intros Hp. exists (partition_id p ++ underscore :: range_text p). unfold getPartNameV1. rewrite write_range_spec by done. run.
  split; [done|]. unfold tryParsePartName. change (1 <? MERGE_TREE_DATA_MIN_FORMAT_VERSION_WITH_CUSTOM_PARTITIONING) with false. run.
  pose proof (nameable_partition p Hp) as [Hne Hu]. rewrite read_partition_id_app by done. cbn [mbind option_bind].
  rewrite <- (read_range_text p Hp). by destruct (partition_id p).
Qed.

(** What the reader of numbers returns fits the type. *)
Lemma tryReadIntText_range signed w buf x r : 0 < w <= 64 -> tryReadIntText signed w buf = Some (x, r) -> int_range signed w x.
Proof.
  intros Hw. rewrite tryReadIntText_spec by done.
  assert (int_range signed w 0) as H0.
  { unfold int_range. pose proof (Z.pow_pos_nonneg 2 (w - 1)). pose proof (Z.pow_pos_nonneg 2 w). destruct signed; lia. }
  assert (forall sgn neg b, read_body signed w sgn neg b = Some (x, r) -> int_range signed w x) as H.
  { intros sgn neg b. unfold read_body. destruct (digits_prefix b) as [[|d ds] r'].
    - destruct sgn; [done|]. by intros [= <- _].
    - destruct (in_type _ _ _) eqn:E; [|done]. intros [= <- _]. by apply in_type_spec. }
  unfold read_reference. destruct buf as [|c buf]; [done|]. destruct (c =? chr_plus); [apply H|].
  destruct (c =? chr_minus); [destruct signed; [apply H|done]|apply H].
Qed.

Lemma read_partition_id_underscore buf : Forall (fun c => c <> underscore) (read_partition_id buf).1.
Proof.
  induction buf as [|c buf IH]; cbn [read_partition_id]; [done|]. destruct (Z.eqb_spec c underscore); [done|].
  destruct (read_partition_id buf). by constructor.
Qed.

Lemma read_mutation_range buf m : read_mutation buf = Some m -> uint 32 m.
Proof.
  unfold read_mutation. destruct buf as [|c buf]; [intros [= <-]; unfold uint; lia|].
  intros (buf1 & _ & H)%bind_Some. apply bind_Some in H as ([m' buf2] & Hm & H).
  destruct buf2; [|done]. injection H as <-. exact (tryReadIntText_range false 32 _ _ _ ltac:(lia) Hm).
Qed.

Lemma read_range_nameable id buf p : id <> [] -> Forall (fun c => c <> underscore) id -> read_range id buf = Some p -> nameable p.
Proof.
  intros Hne Hu. unfold read_range. intros ([mn b1] & Hmn & H)%bind_Some. apply bind_Some in H as (b2 & _ & H).
  apply bind_Some in H as ([mx b3] & Hmx & H). apply bind_Some in H as (b4 & _ & H). apply bind_Some in H as ([lv b5] & Hlv & H).
  apply bind_Some in H as ([] & Hle & H). apply bind_Some in H as (mu & Hmu & H). cbv zeta in H. injection H as <-.
  apply tryReadIntText_range in Hmn; [|lia]. apply tryReadIntText_range in Hmx; [|lia]. apply tryReadIntText_range in Hlv; [|lia].
  apply read_mutation_range in Hmu. destruct (Z.ltb_spec mx mn); [done|].
  constructor; try done; cbn; unfold MAX_LEVEL, LEGACY_MAX_LEVEL in *; destruct (Z.eqb_spec lv (2 ^ 32 - 1)); try done. 
Qed.

Lemma read_dates_spec buf : exists o, read_dates buf = Ok o /\ forall id r, o = Some (id, r) -> id <> [] /\ Forall (fun c => c <> underscore) id.
Proof.
  unfold read_dates. destruct (_ ≫= _) as [[mn b]|] eqn:E; [|by exists None].
  apply bind_Some in E as ([mn' b1] & Hmn & E). assert (mn' = mn) as ->.
  { apply bind_Some in E as (b2 & _ & E). apply bind_Some in E as ([mx b3] & _ & E). apply bind_Some in E as (b4 & _ & E). congruence. }
  apply tryReadIntText_range in Hmn; [|lia]. cbn in Hmn.
  rewrite writeIntText_spec; [run|unfold int_width; tauto|cbn; dlia]. eexists. split; [done|]. intros id r [= <- _].
  split; [|apply decimal_text_no_underscore]. unfold decimal_text. destruct (Z.ltb_spec (mn / 100) 0); [done|]. by apply decimal_digits.
Qed.

(** Parsing always returns, and what it returns has a name. *)
Lemma tryParsePartName_nameable name v : exists o, tryParsePartName name v = Ok o /\ forall p, o = Some p -> nameable p.
Proof.
  unfold tryParsePartName.
  assert (exists o, (if v <? MERGE_TREE_DATA_MIN_FORMAT_VERSION_WITH_CUSTOM_PARTITIONING then read_dates name else Ok (Some (read_partition_id name))) = Ok o /\
    forall id r, o = Some (id, r) -> Forall (fun c => c <> underscore) id) as (o & -> & Ho).
  { destruct (_ <? _).
    - destruct (read_dates_spec name) as (o & -> & H). exists o. split; [done|]. intros id r Hid. by destruct (H id r Hid).
    - eexists. split; [done|]. intros id r [= E]. pose proof (read_partition_id_underscore name) as Hu. by rewrite E in Hu. }
  run. eexists. split; [done|]. intros p ([id r] & -> & H)%bind_Some. destruct id as [|c id]; [done|].
  eapply read_range_nameable; [|by eapply Ho|exact H]. done.
Qed.

(** ** Containment *)
Lemma contains_spec a b : contains a b = true <->
  partition_id a = partition_id b /\ min_block a <= min_block b /\ max_block b <= max_block a /\ level b <= level a /\ mutation b <= mutation a /\
  ((min_block a = min_block b /\ max_block a = max_block b) \/ level b < level a \/ level a = MAX_LEVEL \/ level a = LEGACY_MAX_LEVEL).
Proof.
  unfold contains. rewrite !andb_true_iff, !orb_true_iff, !andb_true_iff, bool_decide_eq_true, !Z.leb_le, !Z.ltb_lt, !Z.eqb_eq. tauto.
Qed.

Lemma isDisjoint_spec a b : isDisjoint a b = true <->
  partition_id a <> partition_id b \/ max_block b < min_block a \/ max_block a < min_block b.
Proof. unfold isDisjoint. rewrite !orb_true_iff, negb_true_iff, bool_decide_eq_false, !Z.ltb_lt. tauto. Qed.

Lemma isDisjoint_sym a b : isDisjoint a b = isDisjoint b a.
Proof. apply eq_true_iff_eq. rewrite !isDisjoint_spec. split; intros [?|[?|?]]; auto. Qed.

Lemma contains_refl a : contains a a = true.
Proof. apply contains_spec. split_and!; auto; lia. Qed.

Lemma contains_trans a b c : uint 32 (level a) -> contains a b = true -> contains b c = true -> contains a c = true.
Proof.
  rewrite !contains_spec. unfold uint, MAX_LEVEL, LEGACY_MAX_LEVEL. intros Hl (E1 & H1) (E2 & H2). split; [congruence|]. lia.
Qed.

Lemma contains_antisym a b : kind a = getKind (partition_id a) -> kind b = getKind (partition_id b) ->
  contains a b = true -> contains b a = true -> toTuple a = toTuple b.
Proof.
  rewrite !contains_spec. intros Ka Kb (E1 & H1) (_ & H2). unfold toTuple. rewrite Ka, Kb, E1.
  assert (min_block a = min_block b /\ max_block a = max_block b /\ level a = level b /\ mutation a = mutation b) as (-> & -> & -> & ->) by lia.
  done.
Qed.

Lemma contains_overlaps a b : min_block b <= max_block b -> contains a b = true -> isDisjoint a b = false.
Proof.
  intros Hb H. apply not_true_iff_false. rewrite isDisjoint_spec. apply contains_spec in H as (E & H). intros [?|?]; [done|lia].
Qed.

(** What is apart from a part is apart from the parts it contains. *)
Lemma disjoint_contained a b c : contains a b = true -> isDisjoint a c = true -> isDisjoint b c = true.
Proof.
  rewrite contains_spec, !isDisjoint_spec. intros (E & H) [?|?]; [left; congruence|right; lia].
Qed.

(** ** The order of the keys *)
Definition partition_key (p : t) : Z * bytes := (kind_code (kind p), partition_id p).

Lemma lex_assoc c d e : lex (lex c d) e = lex c (lex d e).
Proof. by destruct c. Qed.

Lemma compare_parts a b : compare (toTuple a) (toTuple b) =
  lex (compare (partition_key a) (partition_key b)) (lex (min_block a ?= min_block b) (lex (max_block a ?= max_block b)
    (lex (level a ?= level b) (mutation a ?= mutation b)))).
Proof. unfold compare, prod_compare at 1 2 3 4. cbn [fst snd toTuple]. unfold compare. rewrite !lex_assoc. done. Qed.

Definition before (a b : t) : Prop :=
  compare (partition_key a) (partition_key b) = Lt \/ (partition_key a = partition_key b /\ max_block a < min_block b).

Lemma partition_key_eq a b : well_formed a -> well_formed b -> partition_key a = partition_key b <-> partition_id a = partition_id b.
Proof. intros [Ka _] [Kb _]. unfold partition_key. rewrite Ka, Kb. split; [by intros [= _ ?]|by intros ->]. Qed.

Lemma before_lt a b : well_formed a -> well_formed b -> before a b -> compare (toTuple a) (toTuple b) = Lt.
Proof.
  intros [_ Ha] [_ Hb] H. rewrite compare_parts. apply lex_lt. destruct H as [?|[E H]]; [by left|right]. split; [done|].
  rewrite (proj2 (Z.compare_lt_iff _ _)) by lia. done.
Qed.

Lemma lt_partition a b : compare (toTuple a) (toTuple b) = Lt ->
  compare (partition_key a) (partition_key b) = Lt \/ (partition_key a = partition_key b /\ min_block a <= min_block b).
Proof.
  rewrite compare_parts, lex_lt. intros [?|[E H]]; [by left|right]. split; [done|].
  destruct (Z.compare_spec (min_block a) (min_block b)); cbn in H; [lia|lia|done].
Qed.

Lemma lt_disjoint_before a b : well_formed a -> well_formed b -> compare (toTuple a) (toTuple b) = Lt -> isDisjoint a b = true -> before a b.
Proof.
  intros Ha Hb H. rewrite isDisjoint_spec, <- partition_key_eq by done. destruct Ha as [_ Ha], Hb as [_ Hb].
  apply lt_partition in H as [?|[E H]]; [by left|]. intros [?|?]; [done|]. right. split; [done|lia].
Qed.

Lemma before_disjoint a b : well_formed a -> well_formed b -> before a b -> isDisjoint a b = true.
Proof.
  intros Ha Hb H. rewrite isDisjoint_spec, <- partition_key_eq by done. destruct H as [H|[_ H]]; [|lia].
  left. intros E. by rewrite E, compare_refl in H.
Qed.

Lemma before_trans a b c : well_formed b -> before a b -> before b c -> before a c.
Proof.
  unfold before. intros [_ Hb] [H|[E H]] [H'|[E' H']].
  - left. by eapply compare_trans.
  - left. by rewrite <- E'.
  - left. by rewrite E.
  - right. split; [congruence|lia].
Qed.

(** ** Coverage of a range of blocks *)
Definition has_block (b : Z) (p : t) : bool := (min_block p <=? b) && (b <=? max_block p).

(** How many of the parts hold the block [b]. *)
Fixpoint times_covered (l : list t) (b : Z) : Z :=
  match l with
  | [] => 0
  | p :: l => (if has_block b p then 1 else 0) + times_covered l b
  end.

(** Every block of the range is held once, every other block never. *)
Definition covers_exactly (lo hi : Z) (l : list t) : Prop :=
  forall b, times_covered l b = if (lo <=? b) && (b <=? hi) then 1 else 0.

#[export] Instance times_covered_perm : Proper ((≡ₚ) ==> eq ==> eq) times_covered.
Proof. intros l l' Hp b ? <-. induction Hp; cbn; lia. Qed.

#[export] Instance tuple_le_total : Total tuple_le.
Proof. intros a b. unfold tuple_le. rewrite (compare_opp (toTuple a) (toTuple b)). destruct (compare _ _); cbn; auto. Qed.

#[export] Instance tuple_le_trans : Transitive tuple_le.
Proof.
  intros a b c. unfold tuple_le. intros H1 H2 H3. apply compare_gt in H3. destruct (compare (toTuple a) (toTuple b)) eqn:E1; [|clear H1|done].
  - apply compare_eq in E1. rewrite E1 in H3. by apply compare_gt in H3.
  - apply H2. apply compare_gt. by eapply compare_trans.
Qed.

Lemma times_covered_nonneg l b : 0 <= times_covered l b.
Proof. induction l as [|p l IH]; cbn; [lia|]. destruct (has_block b p); lia. Qed.

Lemma times_covered_pos l b : 0 < times_covered l b -> exists p, p ∈ l /\ min_block p <= b <= max_block p.
Proof.
  induction l as [|p l IH]; cbn; [lia|]. unfold has_block in *. destruct (Z.leb_spec (min_block p) b), (Z.leb_spec b (max_block p)); cbn;
    intros Hpos; try (destruct IH as (q & Hq & ?); [lia|exists q; split; [by right|done]]).
  exists p. split; [by left|lia].
Qed.

(** Block numbers whose neighbours do not overflow. *)
Definition inner_range (p : t) : Prop := - 2 ^ 63 < min_block p /\ min_block p <= max_block p /\ max_block p < 2 ^ 63 - 1.

Lemma int64_ok x : - 2 ^ 63 <= x < 2 ^ 63 -> int64 x = Ok x.
Proof. intros Hx. unfold int64. by rewrite (proj2 (in_type_spec true 64 x)). Qed.

Lemma cover_loop_ge l : forall cur hi, Forall inner_range l -> cover_loop cur l = Ok (Some hi) -> cur <= hi.
Proof.
  induction l as [|p l IH]; intros cur hi Hl H; cbn [cover_loop] in H; [injection H as ->; lia|].
  apply Forall_cons in Hl as [Hp Hl]. apply bind_Ok_inv in H as (n & Hn & H). unfold int64 in Hn. destruct (in_type _ _ _); [|done].
  injection Hn as <-. destruct (Z.eqb_spec (cur + 1) (min_block p)); [|done]. apply IH in H; [|done]. unfold inner_range in Hp. lia.
Qed.

Lemma cover_loop_spec l : forall cur, Forall inner_range l -> StronglySorted (fun p q => min_block p <= min_block q) l -> - 2 ^ 63 <= cur < 2 ^ 63 - 1 ->
  exists o, cover_loop cur l = Ok o /\ forall hi, cur <= hi -> o = Some hi <-> covers_exactly (cur + 1) hi l.
Proof.
  induction l as [|p l IH]; intros cur Hl Hs Hc; cbn [cover_loop].
  - exists (Some cur). split; [done|]. intros hi Hhi. unfold covers_exactly. cbn [times_covered]. split.
    + intros [= ->] b. destruct (Z.leb_spec (hi + 1) b), (Z.leb_spec b hi); cbn; lia.
    + intros H. f_equal. specialize (H (cur + 1)). destruct (Z.leb_spec (cur + 1) (cur + 1)), (Z.leb_spec (cur + 1) hi); cbn in H; lia.
  - apply Forall_cons in Hl as [Hp Hl]. apply StronglySorted_cons in Hs as [Hmin Hs]. rewrite int64_ok by lia. run.
    assert (forall hi, covers_exactly (cur + 1) hi (p :: l) -> cur + 1 <= min_block p /\ max_block p <= hi) as Hin.
    { intros hi H. unfold inner_range in Hp. split; [specialize (H (min_block p))|specialize (H (max_block p))]; cbn [times_covered] in H; unfold has_block in H.
      - pose proof (times_covered_nonneg l (min_block p)). destruct (Z.leb_spec (min_block p) (min_block p)), (Z.leb_spec (min_block p) (max_block p)),
          (Z.leb_spec (cur + 1) (min_block p)); cbn in H; lia.
      - pose proof (times_covered_nonneg l (max_block p)). destruct (Z.leb_spec (min_block p) (max_block p)), (Z.leb_spec (max_block p) (max_block p)),
          (Z.leb_spec (max_block p) hi); cbn in H; rewrite ?andb_false_r in H; lia. }
    destruct (Z.eqb_spec (cur + 1) (min_block p)) as [E|E].
    + destruct (IH (max_block p) Hl Hs ltac:(unfold inner_range in Hp; lia)) as (o & Ho & H). exists o. split; [done|].
      intros hi Hhi. destruct (Z.lt_ge_cases hi (max_block p)) as [Hlt|Hge].
      { split; [intros ->; apply cover_loop_ge in Ho; [lia|done]|]. intros Hx. apply Hin in Hx. lia. }
      rewrite (H hi) by lia. unfold inner_range in Hp. unfold covers_exactly. cbn [times_covered]. unfold has_block. split; intros Hx b; specialize (Hx b);
        destruct (Z.leb_spec (max_block p + 1) b), (Z.leb_spec (cur + 1) b), (Z.leb_spec b hi), (Z.leb_spec (min_block p) b), (Z.leb_spec b (max_block p));
        cbn in *; lia.
    + exists None. split; [done|]. intros hi Hhi. split; [done|]. intros Hx. destruct (Hin hi Hx) as [H1 H2]. unfold inner_range in Hp.
      specialize (Hx (cur + 1)). destruct (Z.leb_spec (cur + 1) (cur + 1)), (Z.leb_spec (cur + 1) hi); cbn [andb] in Hx; try lia.
      destruct (times_covered_pos (p :: l) (cur + 1) ltac:(lia)) as (q & Hq & Hb). apply elem_of_cons in Hq as [->|Hq]; [lia|].
      rewrite Forall_forall in Hmin. specialize (Hmin q Hq). cbn in Hmin. lia.
Qed.

Lemma StronglySorted_weaken {A} (R S : relation A) (P : A -> Prop) l :
  (forall x y, P x -> P y -> R x y -> S x y) -> Forall P l -> StronglySorted R l -> StronglySorted S l.
Proof.
  intros HRS HP Hs. induction Hs as [|x l Hs IH Hx]; [constructor|]. apply Forall_cons in HP as [Px HP]. constructor; [by apply IH|].
  rewrite Forall_forall in Hx, HP |- *. eauto.
Qed.

Lemma tuple_le_min a b : partition_key a = partition_key b -> tuple_le a b -> min_block a <= min_block b.
Proof.
  unfold tuple_le. rewrite compare_parts. intros ->. rewrite compare_refl. cbn [lex].
  destruct (Z.compare_spec (min_block a) (min_block b)); cbn; [lia|lia|done].
Qed.

#[export] Instance covers_exactly_perm lo hi : Proper ((≡ₚ) ==> iff) (covers_exactly lo hi).
Proof. intros l l' Hp. unfold covers_exactly. split; intros H b; [rewrite <- Hp|rewrite Hp]; apply H. Qed.

Lemma not_covers_nil lo hi : lo <= hi -> ~ covers_exactly lo hi [].
Proof. intros Hr H. specialize (H lo). cbn in H. destruct (Z.leb_spec lo lo), (Z.leb_spec lo hi); cbn in H; lia. Qed.

(** The first of the parts that cover a range starts it. *)
Lemma covers_first lo hi p l : lo <= hi -> min_block p <= max_block p -> Forall (fun q => min_block p <= min_block q) l ->
  covers_exactly lo hi (p :: l) -> min_block p = lo.
Proof.
  intros Hr Hp Hmin Hx. pose proof (Hx lo) as H1. pose proof (Hx (min_block p)) as H2.
  destruct (Z.leb_spec lo lo), (Z.leb_spec lo hi); cbn [andb] in H1; try lia.
  destruct (times_covered_pos (p :: l) lo ltac:(lia)) as (q & Hq & Hb). rewrite Forall_forall in Hmin.
  assert (min_block p <= lo) by (apply elem_of_cons in Hq as [->|Hq]; [lia|specialize (Hmin q Hq); cbn in Hmin; lia]).
  cbn [times_covered] in H2. unfold has_block in H2. pose proof (times_covered_nonneg l (min_block p)).
  destruct (Z.leb_spec (min_block p) (min_block p)), (Z.leb_spec (min_block p) (max_block p)), (Z.leb_spec lo (min_block p)); cbn in H2; lia.
Qed.

Lemma sorted_covered_spec range l : min_block range <= max_block range -> Forall inner_range l ->
  StronglySorted (fun p q => min_block p <= min_block q) l ->
  exists r, sorted_covered range l = Ok r /\ (r = true <-> covers_exactly (min_block range) (max_block range) l).
Proof.
  intros Hr Hi Hs. destruct l as [|p l]; cbn [sorted_covered].
  { exists false. split; [done|]. split; [done|]. intros H. by apply not_covers_nil in H. }
  assert (inner_range p) as Hp by (by apply Forall_cons in Hi as [? _]). unfold inner_range in Hp.
  destruct (cover_loop_spec (p :: l) (min_block p - 1) Hi Hs ltac:(lia)) as (o & Ho & H). apply StronglySorted_cons in Hs as [Hmin _].
  destruct (Z.eqb_spec (min_block p) (min_block range)) as [E|E]; cbn [negb].
  - rewrite int64_ok by lia. run. rewrite Ho. run. replace (min_block p - 1 + 1) with (min_block range) in H by lia.
    specialize (H (max_block range) ltac:(lia)). destruct o as [cur|]; eexists; (split; [done|]); rewrite <- H; [rewrite Z.eqb_eq|]; split; congruence.
  - exists false. split; [done|]. split; [done|]. intros Hx. apply covers_first in Hx; [done|done|lia|done].
Qed.

Lemma areAllBlockNumbersCovered_spec range cands key : min_block range <= max_block range ->
  Forall (fun p => inner_range p /\ partition_key p = key) cands ->
  exists r, areAllBlockNumbersCovered range cands = Ok r /\ (r = true <-> covers_exactly (min_block range) (max_block range) cands).
Proof.
  intros Hr Hc. unfold areAllBlockNumbersCovered. destruct cands as [|c cands].
  { exists false. split; [done|]. split; [done|]. intros H. by apply not_covers_nil in H. }
  revert Hc. generalize (c :: cands). clear c cands. intros l Hc. pose proof (merge_sort_Permutation tuple_le l) as Hperm.
  rewrite <- Hperm in Hc. pose proof (StronglySorted_merge_sort tuple_le l) as Hs.
  destruct (sorted_covered_spec range (merge_sort tuple_le l)) as (r & E & H); [done| | |exists r; split; [done|]; by rewrite <- Hperm].
  - eapply Forall_impl; [exact Hc|]. by intros p [? _].
  - eapply StronglySorted_weaken; [|exact Hc|exact Hs]. intros x y [_ Hx] [_ Hy]. apply tuple_le_min. congruence.
Qed.

(** ** The binary form *)
Record storable (p : t) : Prop := {
  storable_partition : blen (partition_id p) <= DEFAULT_MAX_STRING_SIZE;
  storable_min : int_range true 64 (min_block p);
  storable_max : int_range true 64 (max_block p);
  storable_level : int_range false 32 (level p);
  storable_mutation : int_range true 64 (mutation p) }.

Definition with_kind (k : Kind) (p : t) : t :=
  Make k (partition_id p) (min_block p) (max_block p) (level p) (mutation p) (use_legacy_max_level p).

Lemma deserialize_serialize self p r : storable p -> deserialize self (serialize p ++ r) = Ok (with_kind (kind self) p, r).
Proof.
  intros [Hs Hmin Hmax Hl Hmu]. unfold deserialize, serialize. rewrite <- !app_assoc.
  rewrite readIntBinary_write by (done || lia || (unfold int_range, DBMS_MERGE_TREE_PART_INFO_VERSION; lia)). run. rewrite bind_require by done.
  rewrite readStringBinary_write by (done || (unfold DEFAULT_MAX_STRING_SIZE in Hs; lia)). run.
  rewrite readIntBinary_write by (done || lia). run. rewrite readIntBinary_write by (done || lia). run.
  rewrite readIntBinary_write by (done || lia). run. rewrite readIntBinary_write by (done || lia). run.
  by rewrite readBoolText_write.
Qed.

(** ** Detached parts *)
Lemma starts_with_spec prefix s : starts_with prefix s = true <-> exists r, s = prefix ++ r.
Proof.
  revert s. induction prefix as [|a prefix IH]; intros s; cbn [starts_with]; [split; [by exists s|done]|].
  destruct s as [|b s]; [split; [done|by intros [r ?]]|]. rewrite andb_true_iff, Z.eqb_eq, IH.
  split; [intros [-> [r ->]]; by exists r|intros [r [= -> ->]]; eauto].
Qed.

Definition plain (s : bytes) : Prop := Forall (fun c => c <> underscore) s.

(** A string splits at its first underscore in one way. *)
Lemma split_plain a b r r' : plain a -> plain b -> a ++ underscore :: r = b ++ underscore :: r' -> a = b /\ r = r'.
Proof.
  intros Ha. revert b. induction Ha as [|x a Hx _ IH]; intros b Hb E; destruct Hb as [|y b Hy Hb]; cbn in E; simplify_eq; try done.
  destruct (IH b Hb H0) as [-> ->]. done.
Qed.

Lemma matches_reason known dir : 
  (starts_with known dir && (blen known <? blen dir) && bool_decide (dir !! length known = Some underscore) = true) <->
  exists r, dir = known ++ underscore :: r.
Proof.
  rewrite !andb_true_iff, starts_with_spec, Z.ltb_lt, bool_decide_eq_true. split.
  - intros [[[r ->] _] Hl]. rewrite lookup_app_r, Nat.sub_diag in Hl by done. destruct r as [|c r]; [done|]. cbn in Hl. exists r. congruence.
  - intros [r ->]. split; [split; [by exists (underscore :: r)|len]|]. by rewrite lookup_app_r, Nat.sub_diag by done.
Qed.

(** The reason in front of the first underscore is found, whatever other
    reasons it starts with. *)
Lemma find_reason_spec reasons dir : Forall plain reasons ->
  match DetachedPartInfo.find_reason reasons dir with
  | Some known => known ∈ reasons /\ exists r, dir = known ++ underscore :: r
  | None => forall known r, known ∈ reasons -> dir <> known ++ underscore :: r
  end.
Proof.
  induction 1 as [|k reasons Hk _ IH]; cbn [DetachedPartInfo.find_reason]; [by intros known r ?%elem_of_nil|].
  pose proof (matches_reason k dir) as Hm. destruct (_ && _).
  - split; [by left|by apply Hm].
  - destruct (DetachedPartInfo.find_reason reasons dir) as [known|].
    + destruct IH as [Hin Hr]. split; [by right|done].
    + intros known r [->|Hin]%elem_of_cons E; [|by eapply IH]. assert (false = true) as [=] by (apply Hm; by exists r).
Qed.

Lemma reasons_plain : Forall plain DetachedPartInfo.DETACH_REASONS.
Proof. unfold DetachedPartInfo.DETACH_REASONS, plain, underscore. repeat constructor; done. Qed.

Lemma find_reason_found known r : known ∈ DetachedPartInfo.DETACH_REASONS ->
  DetachedPartInfo.find_reason DetachedPartInfo.DETACH_REASONS (known ++ underscore :: r) = Some known.
Proof.
  intros Hin. pose proof (find_reason_spec DetachedPartInfo.DETACH_REASONS (known ++ underscore :: r) reasons_plain) as H.
  destruct (DetachedPartInfo.find_reason _ _) as [k|].
  - destruct H as [Hk [r' E]]. pose proof reasons_plain as Hp. rewrite Forall_forall in Hp.
    destruct (split_plain known k r r' (Hp _ Hin) (Hp _ Hk) E) as [-> _]. done.
  - by destruct (H known r Hin).
Qed.

Lemma find_reason_none id r : plain id -> id ∉ DetachedPartInfo.DETACH_REASONS ->
  DetachedPartInfo.find_reason DetachedPartInfo.DETACH_REASONS (id ++ underscore :: r) = None.
Proof.
  intros Hid Hin. pose proof (find_reason_spec DetachedPartInfo.DETACH_REASONS (id ++ underscore :: r) reasons_plain) as H.
  destruct (DetachedPartInfo.find_reason _ _) as [k|]; [|done]. destruct H as [Hk [r' E]]. pose proof reasons_plain as Hp.
  rewrite Forall_forall in Hp. destruct (split_plain id k r r' Hid (Hp _ Hk) E) as [-> _]. done.
Qed.

Lemma detached_reason_parses {D} (disk : D) reason name p : reason ∈ DetachedPartInfo.DETACH_REASONS -> tryParsePartName name 1 = Ok (Some p) ->
  DetachedPartInfo.parseDetachedPartName disk (reason ++ underscore :: name) 1 =
    Ok (DetachedPartInfo.Make p (reason ++ underscore :: name) reason disk true).
Proof.
  intros Hr Hn. unfold DetachedPartInfo.parseDetachedPartName. rewrite find_reason_found by done.
  replace (reason ++ underscore :: name) with ((reason ++ [underscore]) ++ name) at 1 by (by rewrite <- app_assoc).
  rewrite drop_app_length' by len. rewrite Hn. run. done.
Qed.

Lemma detached_plain_parses {D} (disk : D) name p : partition_id p ∉ DetachedPartInfo.DETACH_REASONS -> nameable p -> getPartNameV1 p = Ok name ->
  DetachedPartInfo.parseDetachedPartName disk name 1 = Ok (DetachedPartInfo.Make p name [] disk true).
Proof.
  intros Hid Hp Hn. destruct (part_name_parses p Hp) as (name' & Hn' & Hparse). assert (name' = name) as -> by congruence.
  unfold DetachedPartInfo.parseDetachedPartName. unfold getPartNameV1 in Hn. rewrite write_range_spec in Hn by done. injection Hn as <-.
  rewrite find_reason_none; [|apply nameable_partition, Hp|done]. rewrite Hparse. run. done.
Qed.
