(* ===== verification/ActiveDataPartSet.v ===== *)
(** * The set of active parts

    [ActiveDataPartSet] ([src/Storages/MergeTree/ActiveDataPartSet.h] and
    [.cpp]): the parts of a table none of which is covered by another, in a
    [std::map] from part to name.  Iterators are places in the list of
    entries ([Orders]). *)

From stdpp Require Import prelude sorting.
From Stdlib Require Import ZArith Lia.
From S2P Require Import Prelude Orders PartInfo.

Module ActiveDataPartSet.
Import MergeTreePartInfo.

Definition entry : Type := t * bytes.

(** The comparator of [PartInfoToName]. *)
Definition entry_key (e : entry) : tuple := toTuple e.1.

Record set : Type := Make {
  format_version : Z;
  part_info_to_name : list entry }.

Inductive AddPartOutcome : Set := Added | HasCovering | HasIntersectingPart.

#[export] Instance AddPartOutcome_eq_dec : EqDecision AddPartOutcome.
Proof. solve_decision. Defined.

Definition lower_bound_of (m : list entry) (part_info : t) : list entry * list entry := lower_bound entry_key m (toTuple part_info).

(** ** Lookups *)

(** [None] is [end()]. *)
Definition getContainingPartImpl (m : list entry) (part_info : t) : option entry :=
  let '(before, after) := lower_bound_of m part_info in
  match after with
  | e :: _ => if contains e.1 part_info then Some e
              else match before with e :: _ => if contains e.1 part_info then Some e else None | [] => None end
  | [] => match before with e :: _ => if contains e.1 part_info then Some e else None | [] => None end
  end.

Definition getContainingPart (s : set) (part_info : t) : bytes :=
  match getContainingPartImpl (part_info_to_name s) part_info with Some e => e.2 | None => [] end.

Definition getContainingPart_name (s : set) (name : bytes) : outcome bytes :=
  part_info ← fromPartName name (format_version s);
  Ok (getContainingPart s part_info).

(** One of the two walks of [getPartsCoveredByImpl]: the contained entries from
    a place on, or [None] when the first other one contains the part. *)
Fixpoint covered_walk (part_info : t) (entries : list entry) : option (list entry) :=
  match entries with
  | [] => Some []
  | e :: entries =>
      if negb (contains part_info e.1) then if contains e.1 part_info then None else Some []
      else l ← covered_walk part_info entries; Some (e :: l)
  end.

Definition getPartsCoveredByImpl (m : list entry) (part_info : t) : list entry :=
  let '(before, after) := lower_bound_of m part_info in
  match covered_walk part_info before with
  | None => []
  | Some covered_before =>
      match covered_walk part_info after with
      | None => []
      | Some covered_after => reverse covered_before ++ covered_after
      end
  end.

Definition getPartsCoveredBy (s : set) (part_info : t) : list bytes := snd <$> getPartsCoveredByImpl (part_info_to_name s) part_info.
Definition getPartInfosCoveredBy (s : set) (part_info : t) : list t := fst <$> getPartsCoveredByImpl (part_info_to_name s) part_info.

Definition getParts (s : set) : list bytes := snd <$> part_info_to_name s.
Definition getPartInfos (s : set) : list t := fst <$> part_info_to_name s.

(** At least one part is returned whatever the limit, if there is one. *)
Fixpoint limit_loop (limit : Z) (res : list bytes) (m : list entry) : list bytes :=
  match m with
  | [] => res
  | e :: m => let res := res ++ [e.2] in if limit <=? blen res then res else limit_loop limit res m
  end.

Definition getPartsWithLimit (s : set) (limit : Z) : list bytes := limit_loop limit [] (part_info_to_name s).

Fixpoint patches (m : list entry) : list t :=
  match m with
  | [] => []
  | e :: m => if isPatch e.1 then e.1 :: patches m else patches m
  end.

Definition getPatchPartInfos (s : set) : list t := patches (part_info_to_name s).

Definition isEmpty (s : set) : bool := match part_info_to_name s with [] => true | _ => false end.
Definition hasSome (s : set) : bool := negb (isEmpty s).
Definition size (s : set) : Z := blen (part_info_to_name s).

Definition hasPartitionId (s : set) (id : bytes) : bool :=
  let info := setPartitionId default id in
  match lower_bound_of (part_info_to_name s) info with
  | (_, []) => false
  | (_, e :: _) => if negb (bool_decide (partition_id e.1 = id)) then false else true
  end.

(** ** The check for intersections *)

(** Going left: the part that intersects, or the place where the walk stops. *)
Fixpoint check_left (part_info : t) (before after : list entry) : outcome (list entry * list entry) :=
  match before with
  | [] => Ok ([], after)
  | e :: rest =>
      if negb (contains part_info e.1) then
        if negb (isDisjoint part_info e.1) then Throw LOGICAL_ERROR else Ok (before, after)
      else check_left part_info rest (e :: after)
  end.

Fixpoint check_right (part_info : t) (after : list entry) : outcome unit :=
  match after with
  | [] => Ok tt
  | e :: rest =>
      if contains part_info e.1 then check_right part_info rest
      else require (isDisjoint part_info e.1) LOGICAL_ERROR
  end.

Definition checkIntersectingParts (s : set) (part_info : t) : outcome unit :=
  let '(before, after) := lower_bound_of (part_info_to_name s) part_info in
  '(_, after) ← check_left part_info before after;
  check_right part_info after.

Definition checkIntersectingParts_name (s : set) (name : bytes) : outcome unit :=
  part_info ← fromPartName name (format_version s);
  checkIntersectingParts s part_info.

(** ** Adding *)

(** What [addImpl] leaves: its result, [out_replaced_parts], the part that
    [out_reason] names, and the map. *)
Record added : Type := Result {
  result : AddPartOutcome;
  replaced : list bytes;
  reason : option t;
  parts : list entry }.

(** Going left; a contained entry is erased, and the iterator is behind it. *)
Fixpoint erase_left (part_info : t) (before after : list entry) (out_replaced_parts : list bytes) : list bytes * (added + list entry) :=
  match before with
  | [] => (out_replaced_parts, inr [])
  | e :: rest =>
      if negb (contains part_info e.1) then
        if negb (isDisjoint part_info e.1)
        then (out_replaced_parts, inl (Result HasIntersectingPart out_replaced_parts (Some e.1) (whole (before, after))))
        else (out_replaced_parts, inr before)
      else erase_left part_info rest after (out_replaced_parts ++ [e.2])
  end.

Fixpoint erase_right (part_info : t) (after : list entry) (out_replaced_parts : list bytes) : list bytes * list entry :=
  match after with
  | [] => (out_replaced_parts, [])
  | e :: rest => if contains part_info e.1 then erase_right part_info rest (out_replaced_parts ++ [e.2]) else (out_replaced_parts, after)
  end.

(** [before_call] is what the caller's vector holds. *)
Definition addImpl (m : list entry) (part_info : t) (name : bytes) (before_call : list bytes) : added :=
  match getContainingPartImpl m part_info with
  | Some _ => Result HasCovering before_call None m
  | None =>
      let '(before, after) := lower_bound_of m part_info in
      match erase_left part_info before after [] with
      | (_, inl r) => r
      | (out_replaced_parts, inr before) =>
          let '(out_replaced_parts, after) := erase_right part_info after (reverse out_replaced_parts) in
          let m := whole (before, after) in
          match after with
          | e :: _ =>
              if negb (isDisjoint part_info e.1) then Result HasIntersectingPart out_replaced_parts (Some e.1) m
              else Result Added out_replaced_parts None (emplace entry_key m (part_info, name))
          | [] => Result Added out_replaced_parts None (emplace entry_key m (part_info, name))
          end
      end
  end.

Definition with_parts (s : set) (m : list entry) : set := Make (format_version s) m.

(** [add]: an exception leaves the changes [addImpl] made before. *)
Definition add_info_name (s : set) (part_info : t) (name : bytes) (before_call : list bytes) : outcome bool * list bytes * set :=
  let r := addImpl (part_info_to_name s) part_info name before_call in
  (match result r with HasIntersectingPart => Throw LOGICAL_ERROR | Added => Ok true | HasCovering => Ok false end,
   replaced r, with_parts s (parts r)).

Definition add (s : set) (name : bytes) (before_call : list bytes) : outcome bool * list bytes * set :=
  match fromPartName name (format_version s) with
  | Ok part_info => add_info_name s part_info name before_call
  | Throw e => (Throw e, before_call, s)
  | Undef => (Undef, before_call, s)
  end.

Definition add_info (s : set) (part_info : t) (before_call : list bytes) : outcome bool * list bytes * set :=
  match getPartNameAndCheckFormat part_info (format_version s) with
  | Ok name => add_info_name s part_info name before_call
  | Throw e => (Throw e, before_call, s)
  | Undef => (Undef, before_call, s)
  end.

Definition tryAddPart (s : set) (part_info : t) : outcome (AddPartOutcome * option t) * set :=
  match getPartNameAndCheckFormat part_info (format_version s) with
  | Ok name => let r := addImpl (part_info_to_name s) part_info name [] in (Ok (result r, reason r), with_parts s (parts r))
  | Throw e => (Throw e, s)
  | Undef => (Undef, s)
  end.

Definition tryAdd (s : set) (name : bytes) : outcome (AddPartOutcome * option t) * set :=
  match fromPartName name (format_version s) with
  | Ok part_info => let r := addImpl (part_info_to_name s) part_info name [] in (Ok (result r, reason r), with_parts s (parts r))
  | Throw e => (Throw e, s)
  | Undef => (Undef, s)
  end.

(** The constructor from names. *)
Fixpoint add_all (s : set) (names : list bytes) : outcome set :=
  match names with
  | [] => Ok s
  | name :: names =>
      match add s name [] with
      | (Ok _, _, s) => add_all s names
      | (Throw e, _, _) => Throw e
      | (Undef, _, _) => Undef
      end
  end.

Definition of_names (version : Z) (names : list bytes) : outcome set := add_all (Make version []) names.

(** ** Removing *)
Definition remove (s : set) (part_info : t) : bool * set :=
  let '(n, m) := erase entry_key (part_info_to_name s) (toTuple part_info) in (0 <? n, with_parts s m).

Definition remove_name (s : set) (part_name : bytes) : outcome bool * set :=
  match fromPartName part_name (format_version s) with
  | Ok part_info => let '(b, s) := remove s part_info in (Ok b, s)
  | Throw e => (Throw e, s)
  | Undef => (Undef, s)
  end.

(** [for (part : parts) result &= remove(part)]. *)
Fixpoint remove_loop (s : set) (result : bool) (names : list bytes) : outcome bool * set :=
  match names with
  | [] => (Ok result, s)
  | part :: names =>
      match remove_name s part with
      | (Ok b, s) => remove_loop s (result && b) names
      | (Throw e, s) => (Throw e, s)
      | (Undef, s) => (Undef, s)
      end
  end.

Definition removePartAndCoveredParts (s : set) (part_info : t) : outcome bool * set :=
  let parts_covered_by := getPartsCoveredBy s part_info in
  let '(result, s) := remove s part_info in
  remove_loop s result parts_covered_by.

Definition removePartAndCoveredParts_name (s : set) (part_name : bytes) : outcome bool * set :=
  match fromPartName part_name (format_version s) with
  | Ok part_info => removePartAndCoveredParts s part_info
  | Throw e => (Throw e, s)
  | Undef => (Undef, s)
  end.

Fixpoint other_names (part_name : bytes) (names : list bytes) : list bytes :=
  match names with
  | [] => []
  | part :: names => if negb (bool_decide (part = part_name)) then part :: other_names part_name names else other_names part_name names
  end.

Definition removePartsCoveredBy (s : set) (part_name : bytes) : outcome bool * set :=
  match fromPartName part_name (format_version s) with
  | Ok part_info => remove_loop s true (other_names part_name (getPartsCoveredBy s part_info))
  | Throw e => (Throw e, s)
  | Undef => (Undef, s)
  end.

Definition swap (s other : set) : set * set :=
  (Make (format_version other) (part_info_to_name other), Make (format_version s) (part_info_to_name s)).

Definition clear (s : set) : set := with_parts s [].

End ActiveDataPartSet.
