(* ===== verification/ActiveDataPartSetFacts.v ===== *)
(** * The set of active parts against the set of its entries

    The walks of [ActiveDataPartSet] look at the neighbourhood of one place in
    the map.  Because no two parts of the set intersect, that is enough: each
    walk computes a property of the whole set. *)

From stdpp Require Import prelude sorting.
From Stdlib Require Import ZArith Lia.
From S2P Require Import Prelude Orders PartInfo PartInfoFacts ActiveDataPartSet.
Import MergeTreePartInfo ActiveDataPartSet.

(** ** The invariant *)
Definition entry_before (a b : entry) : Prop := before a.1 b.1.
Definition entry_ok (e : entry) : Prop := well_formed e.1.

Definition inv (m : list entry) : Prop := StronglySorted entry_before m /\ Forall entry_ok m.

Lemma inv_keys m : inv m -> StronglySorted (key_lt entry_key) m.
Proof.
  intros [Hs Hok]. eapply StronglySorted_weaken; [|exact Hok|exact Hs]. intros a b Ha Hb. by apply before_lt.
Qed.

Lemma inv_sublist m m' : sublist m m' -> inv m' -> inv m.
Proof.
  intros Hm [Hs Hok]. split; [by eapply StronglySorted_sublist|]. rewrite Forall_forall in Hok |- *. intros e He.
  apply Hok. by eapply elem_of_sublist.
Qed.

(** Parts of the set are apart. *)
Lemma inv_disjoint m a b : inv m -> a ∈ m -> b ∈ m -> a = b \/ isDisjoint a.1 b.1 = true.
Proof.
  intros [Hs Hok] Ha Hb. rewrite Forall_forall in Hok. destruct (StronglySorted_pair _ _ _ _ Hs Ha Hb) as [->|[H|H]]; [by left|right..].
  - apply before_disjoint; [by apply Hok..|done].
  - rewrite isDisjoint_sym. apply before_disjoint; [by apply Hok..|done].
Qed.

(** ** The place of a part *)
Record place (m : list entry) (x : t) (bf af : list entry) : Prop := {
  place_whole : m = reverse bf ++ af;
  place_before : Forall (fun e => compare (toTuple e.1) (toTuple x) = Lt) bf;
  place_after : Forall (fun e => compare (toTuple e.1) (toTuple x) <> Lt) af;
  place_sorted_before : StronglySorted (flip entry_before) bf;
  place_sorted_after : StronglySorted entry_before af;
  place_ok_before : Forall entry_ok bf;
  place_ok_after : Forall entry_ok af }.

Lemma StronglySorted_reverse_flip {A} (R : relation A) l : StronglySorted R (reverse l) -> StronglySorted (flip R) l.
Proof.
  induction l as [|x l IH]; [constructor|]. rewrite reverse_cons. intros (H & Hs & _)%StronglySorted_app. apply StronglySorted_cons.
  split; [|by apply IH]. apply Forall_forall. intros y Hy. apply H; [by apply elem_of_reverse|by left].
Qed.

Lemma lower_bound_place m x : inv m -> exists bf af, lower_bound_of m x = (bf, af) /\ place m x bf af.
Proof.
  intros Hm. destruct (lower_bound_of m x) as [bf af] eqn:E. exists bf, af. split; [done|].
  destruct (lower_bound_spec entry_key m (toTuple x) bf af (inv_keys m Hm) E) as (Hw & Hb & Ha).
  destruct Hm as [Hs Hok]. rewrite Hw in Hs, Hok. apply Forall_app in Hok as [Hok1 Hok2]. apply StronglySorted_app in Hs as (_ & Hs1 & Hs2).
  constructor; try done; [by apply StronglySorted_reverse_flip|]. apply Forall_reverse in Hok1. by rewrite reverse_involutive in Hok1.
Qed.

Lemma place_elem m x bf af e : place m x bf af -> e ∈ m <-> e ∈ bf \/ e ∈ af.
Proof. intros Hp. by rewrite (place_whole _ _ _ _ Hp), elem_of_app, elem_of_reverse. Qed.

(** ** Only a neighbour can contain a part *)
Lemma before_contains_l h e x : well_formed e -> well_formed x -> before h e -> contains e x = true -> before h x.
Proof.
  intros We Wx Hb (Hp & Hc)%contains_spec. apply partition_key_eq in Hp; [|done..]. unfold before in *. rewrite Hp in Hb. destruct Hb as [?|[? ?]]; [by left|right; split; [done|lia]].
Qed.

Lemma before_contains_r h e x : well_formed e -> well_formed x -> before e h -> contains e x = true -> before x h.
Proof.
  intros We Wx Hb (Hp & Hc)%contains_spec. apply partition_key_eq in Hp; [|done..]. unfold before in *. rewrite Hp in Hb. destruct Hb as [?|[? ?]]; [by left|right; split; [done|lia]].
Qed.

Lemma lt_asym {A} `{TotalOrder A} (a b : A) : compare a b = Lt -> compare b a = Lt -> False.
Proof. intros H1 H2. pose proof (compare_trans _ _ _ H1 H2) as E. by rewrite compare_refl in E. Qed.

Lemma containing_neighbour m x bf af e : well_formed x -> place m x bf af -> e ∈ m -> contains e.1 x = true -> head bf = Some e \/ head af = Some e.
Proof.
  intros Wx Hp He Hc. apply (place_elem m x bf af) in He; [|done]. destruct Hp as [_ Hb Ha Hsb Hsa Hokb Hoka].
  rewrite Forall_forall in Hb, Ha, Hokb, Hoka. destruct He as [He|He].
  - left. destruct bf as [|h bf]; [by apply elem_of_nil in He|]. cbn. apply elem_of_cons in He as [->|He]; [done|]. exfalso.
    apply StronglySorted_cons in Hsb as [Hh _]. rewrite Forall_forall in Hh. assert (e ∈ h :: bf) by (by right). assert (h ∈ h :: bf) by (by left).
    apply (lt_asym (toTuple h.1) (toTuple x)); [by apply Hb|]. apply before_lt; [done|by apply Hokb|].
    apply (before_contains_r h.1 e.1 x); [by apply Hokb|done|by apply Hh|done].
  - right. destruct af as [|h af]; [by apply elem_of_nil in He|]. cbn. apply elem_of_cons in He as [->|He]; [done|]. exfalso.
    apply StronglySorted_cons in Hsa as [Hh _]. rewrite Forall_forall in Hh. assert (e ∈ h :: af) by (by right). assert (h ∈ h :: af) by (by left).
    apply (Ha h); [done|]. apply before_lt; [by apply Hoka|done|].
    apply (before_contains_l h.1 e.1 x); [by apply Hoka|done|by apply Hh|done].
Qed.

(** The parts that contain [x] are one part at most. *)
Lemma containing_unique m x a b : inv m -> well_formed x -> a ∈ m -> b ∈ m -> contains a.1 x = true -> contains b.1 x = true -> a = b.
Proof.
  intros Hm [_ Wx] Ha Hb Ca Cb. destruct (inv_disjoint m a b Hm Ha Hb) as [?|Hd]; [done|].
  pose proof (disjoint_contained _ _ _ Ca Hd) as Hd'. rewrite isDisjoint_sym in Hd'. by rewrite (contains_overlaps _ _ Wx Cb) in Hd'.
Qed.

Lemma getContainingPartImpl_spec m x e : inv m -> well_formed x ->
  getContainingPartImpl m x = Some e <-> e ∈ m /\ contains e.1 x = true.
Proof.
  intros Hm Wx. unfold getContainingPartImpl. destruct (lower_bound_place m x Hm) as (bf & af & -> & Hp).
  pose proof (fun e => containing_neighbour m x bf af e Wx Hp) as Hn. pose proof (fun e => place_elem m x bf af e Hp) as Hin.
  split.
  - destruct af as [|a af], bf as [|b bf]; intros H; repeat (case_match; simplify_eq); try done; (split; [apply Hin; rewrite ?elem_of_cons; tauto|done]).
  - intros [He Hc]. specialize (Hn e He Hc).
    assert (forall a, a ∈ bf \/ a ∈ af -> contains a.1 x = true -> a = e) as Hu.
    { intros a Ha Hca. eapply containing_unique; [exact Hm|exact Wx|by apply Hin|done|done|done]. }
    destruct af as [|a af], bf as [|b bf]; destruct Hn as [Hn|Hn]; cbn in Hn; simplify_eq; rewrite ?Hc; try done.
    destruct (contains a.1 x) eqn:Ea; [|done]. f_equal. apply Hu; [|done]. right. by left.
Qed.

(** ** The walks *)

(** The entries contained in [x] a list starts with, and the rest. *)
Fixpoint span (x : t) (l : list entry) : list entry * list entry :=
  match l with
  | [] => ([], [])
  | e :: l' => if contains x e.1 then let '(tk, rs) := span x l' in (e :: tk, rs) else ([], l)
  end.

(** The entry at which a walk stops is apart from [x]. *)
Definition clear_of (x : t) (rs : list entry) : bool := match rs with e :: _ => isDisjoint x e.1 | [] => true end.

Lemma span_spec x l : let '(tk, rs) := span x l in
  l = tk ++ rs /\ Forall (fun e => contains x e.1 = true) tk /\ match rs with e :: _ => contains x e.1 = false | [] => True end.
Proof.
  induction l as [|e l IH]; cbn [span]; [done|]. destruct (contains x e.1) eqn:E; [|by rewrite E].
  destruct (span x l) as [tk rs]. destruct IH as (-> & Htk & Hrs). split_and!; [done|by constructor|done].
Qed.

Lemma erase_left_span x bf af : forall acc, erase_left x bf af acc =
  let '(tk, rs) := span x bf in
  (acc ++ (snd <$> tk), match rs with
                        | e :: _ => if isDisjoint x e.1 then inr rs else inl (Result HasIntersectingPart (acc ++ (snd <$> tk)) (Some e.1) (whole (rs, af)))
                        | [] => inr []
                        end).
Proof.
  induction bf as [|e bf IH]; intros acc; cbn [erase_left span]; [by rewrite app_nil_r|]. destruct (contains x e.1); cbn [negb].
  - rewrite IH. destruct (span x bf) as [tk rs]. cbn [fmap list_fmap]. rewrite <- app_assoc. done.
  - rewrite app_nil_r. by destruct (isDisjoint x e.1).
Qed.

Lemma erase_right_span x af : forall acc, erase_right x af acc = let '(tk, rs) := span x af in (acc ++ (snd <$> tk), rs).
Proof.
  induction af as [|e af IH]; intros acc; cbn [erase_right span]; [by rewrite app_nil_r|]. destruct (contains x e.1).
  - rewrite IH. destruct (span x af) as [tk rs]. cbn [fmap list_fmap]. rewrite <- app_assoc. done.
  - by rewrite app_nil_r.
Qed.

Lemma check_left_span x bf : forall af, check_left x bf af =
  let '(tk, rs) := span x bf in if clear_of x rs then Ok (rs, reverse tk ++ af) else Throw LOGICAL_ERROR.
Proof.
  induction bf as [|e bf IH]; intros af; cbn [check_left span]; [done|]. destruct (contains x e.1); cbn [negb].
  - rewrite IH. destruct (span x bf) as [tk rs]. by rewrite reverse_cons, <- app_assoc.
  - cbn [clear_of]. by destruct (isDisjoint x e.1).
Qed.

Lemma check_right_span x tk af : Forall (fun e => contains x e.1 = true) tk ->
  check_right x (tk ++ af) = require (clear_of x (span x af).2) LOGICAL_ERROR.
Proof.
  intros Htk. induction Htk as [|e tk He _ IH]; cbn [app check_right]; [|by rewrite He].
  induction af as [|e af IH]; cbn [check_right span]; [done|]. destruct (contains x e.1) eqn:E; [|done]. rewrite IH. by destruct (span x af).
Qed.

Lemma covered_walk_span x l : covered_walk x l =
  let '(tk, rs) := span x l in match rs with e :: _ => if contains e.1 x then None else Some tk | [] => Some tk end.
Proof.
  induction l as [|e l IH]; cbn [covered_walk span]; [done|]. destruct (contains x e.1); cbn [negb]; [|done].
  rewrite IH. destruct (span x l) as [tk [|e' rs]]; [done|]. by destruct (contains e'.1 x).
Qed.

(** ** Beyond the place where a walk stops *)
Lemma not_lt_disjoint_before x e : well_formed x -> well_formed e -> compare (toTuple e) (toTuple x) <> Lt -> isDisjoint x e = true -> before x e.
Proof.
  intros Wx We Hlt Hd. apply lt_disjoint_before; [done..| |done]. rewrite (compare_opp (toTuple e) (toTuple x)).
  destruct (compare (toTuple e) (toTuple x)) eqn:E; cbn; try done. apply compare_eq in E.
  apply isDisjoint_spec in Hd. destruct Wx as [_ Wx]. unfold toTuple in E. simplify_eq. destruct Hd as [?|?]; [congruence|lia].
Qed.

Section walks.
  Context (m : list entry) (x : t) (bf af : list entry) (Wx : well_formed x) (Hp : place m x bf af).

Lemma clear_left : clear_of x (span x bf).2 = true -> Forall (fun e => before e.1 x) (span x bf).2.
  Proof using Wx Hp.
    pose proof (span_spec x bf) as Hs. destruct (span x bf) as [tk rs]. destruct Hs as (-> & _ & _). cbn [snd]. intros Hc.
    destruct rs as [|e rs]; [done|]. destruct Hp as [_ Hb _ Hsb _ Hok _]. apply Forall_app in Hb as [_ Hb], Hok as [_ Hok].
    apply StronglySorted_app in Hsb as (_ & _ & [Hh _]%StronglySorted_cons). apply Forall_cons in Hb as [Hb _], Hok as [Hok _].
    cbn in Hc. assert (before e.1 x) as He by (apply lt_disjoint_before; [done|done|done|by rewrite isDisjoint_sym]).
    constructor; [done|]. eapply Forall_impl; [exact Hh|]. intros q Hq. eapply before_trans; [exact Hok|exact Hq|done].
  Qed.

Lemma clear_right : clear_of x (span x af).2 = true -> Forall (fun e => before x e.1) (span x af).2.
  Proof using Wx Hp.
    pose proof (span_spec x af) as Hs. destruct (span x af) as [tk rs]. destruct Hs as (-> & _ & _). cbn [snd]. intros Hc.
    destruct rs as [|e rs]; [done|]. destruct Hp as [_ _ Ha _ Hsa _ Hok]. apply Forall_app in Ha as [_ Ha], Hok as [_ Hok].
    apply StronglySorted_app in Hsa as (_ & _ & [Hh _]%StronglySorted_cons). apply Forall_cons in Ha as [Ha _], Hok as [Hok _].
    cbn in Hc. assert (before x e.1) as He by (by apply not_lt_disjoint_before).
    constructor; [done|]. eapply Forall_impl; [exact Hh|]. intros q Hq. eapply before_trans; [exact Hok|done|exact Hq].
  Qed.
End walks.

(** ** The walks against the whole set *)
Abbreviation contained x := (fun e : entry => contains x e.1 = true).
Abbreviation kept x := (fun e : entry => contains x e.1 = false).

(** No part of the set overlaps [x] without being contained in it. *)
Definition fits (x : t) (m : list entry) : Prop := forall e, e ∈ m -> contains x e.1 = true \/ isDisjoint x e.1 = true.

Lemma clear_of_false x rs : clear_of x rs = false -> exists e rs', rs = e :: rs' /\ isDisjoint x e.1 = false.
Proof. destruct rs as [|e rs]; cbn; [done|]. eauto. Qed.

Lemma apart_not_contained x e : well_formed e -> isDisjoint x e = true -> contains x e = false.
Proof. intros [_ We] Hd. destruct (contains x e) eqn:E; [|done]. by rewrite (contains_overlaps _ _ We E) in Hd. Qed.

Section spans.
  Context (m : list entry) (x : t) (bf af tl rl tr rr : list entry) (Wx : well_formed x) (Hp : place m x bf af)
    (Hl : span x bf = (tl, rl)) (Hr : span x af = (tr, rr)).

Lemma spans_whole : m = (reverse rl ++ reverse tl) ++ tr ++ rr.
  Proof using Hp Hl Hr.
    pose proof (span_spec x bf) as H1. pose proof (span_spec x af) as H2. rewrite Hl in H1. rewrite Hr in H2.
    destruct H1 as (E1 & _), H2 as (E2 & _). rewrite (place_whole _ _ _ _ Hp), E1, E2, reverse_app. by rewrite <- !app_assoc.
  Qed.

Lemma spans_contained : Forall (contained x) (reverse tl) /\ Forall (contained x) tr.
  Proof using Hl Hr.
    pose proof (span_spec x bf) as H1. pose proof (span_spec x af) as H2. rewrite Hl in H1. rewrite Hr in H2.
    destruct H1 as (_ & H1 & _), H2 as (_ & H2 & _). split; [by apply Forall_reverse|done].
  Qed.

Lemma spans_apart : clear_of x rl = true -> clear_of x rr = true ->
    Forall (fun e => before e.1 x) (reverse rl) /\ Forall (fun e => before x e.1) rr /\ Forall entry_ok (reverse rl) /\ Forall entry_ok rr.
  Proof using Wx Hp Hl Hr.
    intros C1 C2. pose proof (clear_left m x bf af Wx Hp) as H1. pose proof (clear_right m x bf af Wx Hp) as H2.
    rewrite Hl in H1. rewrite Hr in H2. cbn [snd] in *. pose proof (span_spec x bf) as S1. pose proof (span_spec x af) as S2. rewrite Hl in S1. rewrite Hr in S2.
    destruct S1 as (E1 & _), S2 as (E2 & _). pose proof (place_ok_before _ _ _ _ Hp) as O1. pose proof (place_ok_after _ _ _ _ Hp) as O2.
    rewrite E1 in O1. rewrite E2 in O2. apply Forall_app in O1 as [_ O1], O2 as [_ O2]. split_and!; [by apply Forall_reverse, H1|by apply H2|by apply Forall_reverse|done].
  Qed.

Lemma spans_kept : clear_of x rl = true -> clear_of x rr = true -> Forall (fun e : entry => isDisjoint x e.1 = true /\ kept x e) (reverse rl ++ rr).
  Proof using Wx Hp Hl Hr.
    intros C1 C2. destruct (spans_apart C1 C2) as (B1 & B2 & O1 & O2). rewrite Forall_forall in B1, B2, O1, O2. apply Forall_forall.
    intros e He. assert (isDisjoint x e.1 = true) as Hd.
    { apply elem_of_app in He as [He|He]; [rewrite isDisjoint_sym; exact (before_disjoint _ _ (O1 e He) Wx (B1 e He))|].
      exact (before_disjoint _ _ Wx (O2 e He) (B2 e He)). }
    split; [done|]. apply apart_not_contained; [|done]. apply elem_of_app in He as [He|He]; [by apply O1|by apply O2].
  Qed.

Lemma spans_filter : clear_of x rl = true -> clear_of x rr = true ->
    filter (contained x) m = reverse tl ++ tr /\ filter (kept x) m = reverse rl ++ rr /\ fits x m.
  Proof using Wx Hp Hl Hr.
    intros C1 C2. pose proof (spans_kept C1 C2) as Hk. destruct spans_contained as [T1 T2]. apply Forall_app in Hk as [K1 K2].
    assert (forall l : list entry, Forall (fun e => isDisjoint x e.1 = true /\ kept x e) l -> filter (contained x) l = [] /\ filter (kept x) l = l) as HK.
    { intros l H. split; [apply list_filter_none|apply list_filter_all]; (eapply Forall_impl; [exact H|]); cbn; intros e [_ He]; by rewrite He. }
    assert (forall l, Forall (contained x) l -> filter (contained x) l = l /\ filter (kept x) l = []) as HT.
    { intros l H. split; [by apply list_filter_all|apply list_filter_none]. eapply Forall_impl; [exact H|]. cbn. intros e He. by rewrite He. }
    rewrite spans_whole at 1 2. rewrite !filter_app.
    destruct (HK _ K1) as [-> ->], (HK _ K2) as [-> ->], (HT _ T1) as [-> ->], (HT _ T2) as [-> ->].
    cbn [app]. rewrite !app_nil_r. split; [done|]. split; [done|]. intros e. rewrite spans_whole, !elem_of_app. rewrite Forall_forall in K1, K2, T1, T2.
    intros [[?|?]|[?|?]]; [right; by apply K1|left; by apply T1|left; by apply T2|right; by apply K2].
  Qed.

(** Where a walk meets an overlap. *)
Lemma spans_overlap : clear_of x rl = false \/ clear_of x rr = false ->
    exists e, e ∈ m /\ kept x e /\ isDisjoint x e.1 = false /\ (if clear_of x rl then head rr else head rl) = Some e.
  Proof using Hp Hl Hr.
    intros Hc. pose proof (span_spec x bf) as H1. pose proof (span_spec x af) as H2. rewrite Hl in H1. rewrite Hr in H2.
    destruct H1 as (E1 & _ & H1), H2 as (E2 & _ & H2). pose proof spans_whole as Hw. destruct (clear_of x rl) eqn:C1.
    - destruct Hc as [[=]|Hc]. apply clear_of_false in Hc as (e & rs & -> & Hd). exists e. split_and!; [|done..].
      rewrite Hw, !elem_of_app. right. right. by left.
    - apply clear_of_false in C1 as (e & rs & -> & Hd). exists e. split_and!; [|done..].
      rewrite Hw, !elem_of_app, !elem_of_reverse. left. left. by left.
  Qed.
End spans.

(** ** Adding a part *)

(** What the set is asked to do, without a map or an order. *)
Definition add_spec (m : list entry) (x : t) (name : bytes) (r : added) : Prop :=
  match result r with
  | HasCovering => (exists e, e ∈ m /\ contains e.1 x = true) /\ parts r = m
  | HasIntersectingPart =>
      (forall e, e ∈ m -> contains e.1 x = false) /\
      (exists e, e ∈ m /\ kept x e /\ isDisjoint x e.1 = false /\ reason r = Some e.1) /\
      sublist (parts r) m /\ (forall e, e ∈ m -> e ∉ parts r -> contained x e)
  | Added =>
      (forall e, e ∈ m -> contains e.1 x = false) /\ fits x m /\
      replaced r = snd <$> filter (contained x) m /\ parts r ≡ₚ (x, name) :: filter (kept x) m
  end.

Lemma getContainingPartImpl_None m x : inv m -> well_formed x -> getContainingPartImpl m x = None ->
  forall e, e ∈ m -> contains e.1 x = false.
Proof.
  intros Hm Wx Hn e He. destruct (contains e.1 x) eqn:E; [|done].
  assert (getContainingPartImpl m x = Some e) by (by apply getContainingPartImpl_spec). congruence.
Qed.

(** The new part goes between what is left on both sides. *)
Lemma inv_insert x name l r : well_formed x -> inv (l ++ r) -> Forall (fun e => before e.1 x) l -> Forall (fun e => before x e.1) r ->
  inv (l ++ (x, name) :: r).
Proof.
  intros Wx [Hs Hok] Hl Hr. rewrite Forall_forall in Hl. apply StronglySorted_app in Hs as (H12 & H1 & H2). apply Forall_app in Hok as [O1 O2].
  split; [|apply Forall_app; split; [done|by constructor]]. apply StronglySorted_app. split_and!; [|done|by apply StronglySorted_cons].
  intros a b Ha [->|Hb]%elem_of_cons; [by apply Hl|by apply H12].
Qed.

Lemma emplace_between x name l r : well_formed x -> Forall entry_ok l -> Forall entry_ok r ->
  Forall (fun e => before e.1 x) l -> Forall (fun e => before x e.1) r ->
  emplace entry_key (reverse l ++ r) (x, name) = reverse l ++ (x, name) :: r.
Proof.
  intros Wx O1 O2 H1 H2. rewrite Forall_forall in O1, O2, H1, H2.
  assert (forall e, e ∈ r -> compare (toTuple x) (toTuple e.1) = Lt) as Hlt by (intros e He; apply before_lt; auto; by apply O2).
  apply emplace_absent.
  - apply lower_bound_app; apply Forall_forall; intros e He; unfold entry_key; cbn [fst].
    + apply before_lt; auto. by apply O1.
    + intros Hc. by apply (lt_asym (toTuple e.1) (toTuple x)); [|apply Hlt].
  - apply Forall_forall. intros e He E. specialize (Hlt e He). unfold entry_key in E. cbn [fst] in E. by rewrite E, compare_refl in Hlt.
Qed.

(** The three ways through [addImpl] when no part contains the new one. *)
Lemma addImpl_walks m x name bc bf af tl rl tr rr : well_formed x -> getContainingPartImpl m x = None ->
  lower_bound_of m x = (bf, af) -> place m x bf af -> span x bf = (tl, rl) -> span x af = (tr, rr) ->
  addImpl m x name bc =
    if clear_of x rl then
      if clear_of x rr then Result Added (snd <$> (reverse tl ++ tr)) None (reverse rl ++ (x, name) :: rr)
      else Result HasIntersectingPart (snd <$> (reverse tl ++ tr)) (fst <$> head rr) (reverse rl ++ rr)
    else Result HasIntersectingPart (snd <$> tl) (fst <$> head rl) (reverse rl ++ af).
Proof.
  intros Wx Hn Hlb Hp Hl Hr. unfold addImpl. rewrite Hn, Hlb, erase_left_span, Hl. cbn [app].
  assert (clear_of x rl = true -> clear_of x rr = true -> emplace entry_key (reverse rl ++ rr) (x, name) = reverse rl ++ (x, name) :: rr) as He.
  { intros C1 C2. destruct (spans_apart m x bf af tl rl tr rr Wx Hp Hl Hr C1 C2) as (B1 & B2 & O1 & O2).
    apply emplace_between; try done; rewrite <- (reverse_involutive rl); by apply Forall_reverse. }
  assert (forall rl, clear_of x rl = true ->
    match rl with e :: _ => if isDisjoint x e.1 then inr rl else inl (Result HasIntersectingPart (snd <$> tl) (Some e.1) (whole (rl, af))) | [] => inr [] end = inr rl) as Hc1
    by (intros [|e l]; cbn; [done|by intros ->]).
  destruct (clear_of x rl) eqn:C1.
  - rewrite Hc1 by done. rewrite erase_right_span, Hr, <- fmap_reverse, <- fmap_app. cbn zeta. rewrite whole_app.
    destruct rr as [|e rr]; cbn [clear_of head fmap option_fmap option_map] in *; [by rewrite He|].
    destruct (isDisjoint x e.1); cbn [negb]; [by rewrite He|done].
  - destruct rl as [|e rl]; cbn [clear_of] in C1; [done|]. rewrite C1, whole_app. done.
Qed.

(** What an intersection leaves in the map. *)
Lemma erased_contained m x bf af tl rl tr rr k : place m x bf af -> span x bf = (tl, rl) -> span x af = (tr, rr) ->
  k = af \/ k = rr -> sublist (reverse rl ++ k) m /\ forall e, e ∈ m -> e ∉ reverse rl ++ k -> contained x e.
Proof.
  intros Hp Hl Hr Hk. pose proof (spans_whole m x bf af tl rl tr rr Hp Hl Hr) as Hw.
  destruct (spans_contained x bf af tl rl tr rr Hl Hr) as [T1 T2]. rewrite Forall_forall in T1, T2.
  assert (af = tr ++ rr) as Ha by (pose proof (span_spec x af) as H; rewrite Hr in H; by destruct H).
  split.
  - rewrite Hw, <- app_assoc. apply sublist_app; [done|]. apply sublist_inserts_l. destruct Hk as [->| ->]; [by rewrite Ha|by apply sublist_inserts_l].
  - intros e. rewrite Hw, !elem_of_app. intros [[He|He]|[He|He]] Hne; [| |by apply T2|]; [destruct Hne; auto|by apply T1|].
    destruct Hne. right. destruct Hk as [->| ->]; [rewrite Ha, elem_of_app|]; auto.
Qed.

Lemma addImpl_spec m x name bc : inv m -> well_formed x ->
  add_spec m x name (addImpl m x name bc) /\ inv (parts (addImpl m x name bc)).
Proof.
  intros Hm Wx. destruct (getContainingPartImpl m x) as [e|] eqn:Hc.
  { unfold addImpl. rewrite Hc. apply getContainingPartImpl_spec in Hc; [|done..]. split; [|done]. split; [by exists e|done]. }
  destruct (lower_bound_place m x Hm) as (bf & af & Hlb & Hp). destruct (span x bf) as [tl rl] eqn:Hl. destruct (span x af) as [tr rr] eqn:Hr.
  rewrite (addImpl_walks m x name bc bf af tl rl tr rr Wx Hc Hlb Hp Hl Hr). pose proof (getContainingPartImpl_None m x Hm Wx Hc) as Hnone.
  pose proof (spans_overlap m x bf af tl rl tr rr Hp Hl Hr) as Hov.
  pose proof (fun k => erased_contained m x bf af tl rl tr rr k Hp Hl Hr) as Her.
  destruct (clear_of x rl) eqn:C1; [destruct (clear_of x rr) eqn:C2|]; unfold add_spec; cbn [result parts replaced reason].
  - destruct (spans_filter m x bf af tl rl tr rr Wx Hp Hl Hr C1 C2) as (Hf & Hk & Hfit). destruct (Her rr (or_intror eq_refl)) as [Hsub _].
    destruct (spans_apart m x bf af tl rl tr rr Wx Hp Hl Hr C1 C2) as (B1 & B2 & _). rewrite Hf, Hk.
    split; [|by apply inv_insert; [|eapply inv_sublist; [exact Hsub|]|..]]. split_and!; [done..|]. symmetry. apply Permutation_middle.
  - destruct Hov as (e & He & Hke & Hd & Hh); [by right|]. rewrite Hh. destruct (Her rr (or_intror eq_refl)) as [Hsub Hrest].
    split; [|by eapply inv_sublist]. split_and!; [done|by exists e|done|done].
  - destruct Hov as (e & He & Hke & Hd & Hh); [by left|]. rewrite Hh. destruct (Her af (or_introl eq_refl)) as [Hsub Hrest].
    split; [|by eapply inv_sublist]. split_and!; [done|by exists e|done|done].
Qed.

(** ** The other walks *)
Lemma getPartsCoveredByImpl_spec m x : inv m -> well_formed x ->
  (forall e, e ∈ m -> contains x e.1 = true \/ isDisjoint x e.1 = true \/ contains e.1 x = true) ->
  getPartsCoveredByImpl m x = filter (contained x) m.
Proof.
  intros Hm Wx Hall. unfold getPartsCoveredByImpl. destruct (lower_bound_place m x Hm) as (bf & af & -> & Hp).
  rewrite !covered_walk_span. destruct (span x bf) as [tl rl] eqn:Hl. destruct (span x af) as [tr rr] eqn:Hr.
  assert (forall e, e ∈ m -> contains e.1 x = true -> contains x e.1 = false -> filter (contained x) m = []) as Hcov.
  { intros e He Hce Hne. apply list_filter_none, Forall_forall. intros e' He' Hc'. destruct (inv_disjoint m e e' Hm He He') as [<-|Hd]; [congruence|].
    apply (disjoint_contained _ _ _ Hce) in Hd. rewrite contains_overlaps in Hd; [done| |done]. destruct Hm as [_ Hok]. rewrite Forall_forall in Hok. by apply Hok. }
  pose proof (spans_overlap m x bf af tl rl tr rr Hp Hl Hr) as Hov. pose proof (spans_filter m x bf af tl rl tr rr Wx Hp Hl Hr) as Hfil.
  pose proof (spans_whole m x bf af tl rl tr rr Hp Hl Hr) as Hw.
  assert (forall e, e ∈ m -> kept x e -> isDisjoint x e.1 = false -> contains e.1 x = true) as Hsup.
  { intros e He Hk Hd. destruct (Hall e He) as [?|[?|?]]; congruence. }
  assert (match rl with e :: _ => e ∈ m /\ kept x e | [] => True end) as Hhl.
  { pose proof (span_spec x bf) as S. rewrite Hl in S. destruct S as (_ & _ & S). destruct rl as [|e rl]; [done|]. split; [|done].
    rewrite Hw, !elem_of_app, !elem_of_reverse. left. left. by left. }
  assert (match rr with e :: _ => e ∈ m /\ kept x e | [] => True end) as Hhr.
  { pose proof (span_spec x af) as S. rewrite Hr in S. destruct S as (_ & _ & S). destruct rr as [|e rr]; [done|]. split; [|done].
    rewrite Hw, !elem_of_app. right. right. by left. }
  assert (forall rs, match rs with e :: _ => e ∈ m /\ kept x e | [] => True end -> 
    match rs with e :: _ => contains e.1 x = true \/ (contains e.1 x = false /\ clear_of x rs = true) | [] => clear_of x rs = true end) as Hcase.
  { intros [|e rs]; cbn; [done|]. intros [He Hk]. destruct (contains e.1 x) eqn:E; [by left|right]. split; [done|].
    destruct (isDisjoint x e.1) eqn:Hd; [done|]. by rewrite (Hsup e He Hk Hd) in E. }
  pose proof (Hcase rl Hhl) as Cl. pose proof (Hcase rr Hhr) as Cr.
  destruct rl as [|a rl]; [|destruct Cl as [Ca|[Ca Cl]]; rewrite Ca; [destruct Hhl; symmetry; by apply (Hcov a)|]];
    (destruct rr as [|b rr]; [|destruct Cr as [Cb|[Cb Cr]]; rewrite Cb; [destruct Hhr; symmetry; by apply (Hcov b)|]]);
    by destruct (Hfil Cl Cr) as (-> & _).
Qed.

Lemma checkIntersectingParts_spec s x : inv (part_info_to_name s) -> well_formed x ->
  (checkIntersectingParts s x = Ok tt /\ fits x (part_info_to_name s)) \/
  (checkIntersectingParts s x = Throw LOGICAL_ERROR /\ ~ fits x (part_info_to_name s)).
Proof.
  intros Hm Wx. unfold checkIntersectingParts. generalize dependent (part_info_to_name s). clear s. intros m Hm.
  destruct (lower_bound_place m x Hm) as (bf & af & -> & Hp). rewrite check_left_span.
  destruct (span x bf) as [tl rl] eqn:Hl. destruct (span x af) as [tr rr] eqn:Hr.
  assert (clear_of x rl = false \/ clear_of x rr = false -> ~ fits x m) as Hbad.
  { intros H Hf. destruct (spans_overlap m x bf af tl rl tr rr Hp Hl Hr H) as (e & He & Hk & Hd & _). destruct (Hf e He); congruence. }
  destruct (clear_of x rl) eqn:C1; run; [|right; split; [done|auto]].
  rewrite check_right_span by (apply (spans_contained x bf af tl rl tr rr Hl Hr)). rewrite Hr. cbn [snd].
  destruct (clear_of x rr) eqn:C2; run; [left|right; split; [done|auto]]. split; [done|].
  by apply (spans_filter m x bf af tl rl tr rr Wx Hp Hl Hr C1 C2).
Qed.

(** ** The object *)
Definition coherent (s : set) : Prop := Forall (fun e => fromPartName e.2 (format_version s) = Ok e.1) (part_info_to_name s).

(** The parts do not intersect, and every name is the name of its part. *)
Definition set_inv (s : set) : Prop := inv (part_info_to_name s) /\ coherent s.

Lemma fromPartName_nameable name v p : fromPartName name v = Ok p -> nameable p.
Proof.
  unfold fromPartName. destruct (tryParsePartName_nameable name v) as (o & -> & H). run. destruct o as [q|]; [|done]. intros [= <-]. by apply H.
Qed.

Lemma fromPartName_wf name v p : fromPartName name v = Ok p -> well_formed p.
Proof. intros H. by apply nameable_wf, (fromPartName_nameable name v). Qed.

Lemma fromPartName_defined name v : fromPartName name v <> Undef.
Proof. unfold fromPartName. destruct (tryParsePartName_nameable name v) as ([q|] & -> & _); done. Qed.

Lemma set_inv_sublist s m : sublist m (part_info_to_name s) -> set_inv s -> set_inv (with_parts s m).
Proof.
  intros Hm [Hi Hc]. split; [by eapply inv_sublist|]. unfold coherent in *. cbn. rewrite Forall_forall in Hc |- *. intros e He. apply Hc. by eapply elem_of_sublist.
Qed.

(** The entries after [addImpl] are old ones and the new one. *)
Lemma addImpl_parts m x name bc e : inv m -> well_formed x -> e ∈ parts (addImpl m x name bc) -> e = (x, name) \/ e ∈ m.
Proof.
  intros Hm Wx. destruct (addImpl_spec m x name bc Hm Wx) as [H _]. unfold add_spec in H. destruct (result _).
  - destruct H as (_ & _ & _ & ->). rewrite elem_of_cons, list_elem_of_filter. tauto.
  - destruct H as [_ ->]. by right.
  - destruct H as (_ & _ & Hs & _). right. by eapply elem_of_sublist.
Qed.

Lemma set_inv_add s x name bc : set_inv s -> fromPartName name (format_version s) = Ok x ->
  set_inv (with_parts s (parts (addImpl (part_info_to_name s) x name bc))).
Proof.
  intros [Hi Hc] Hn. pose proof (fromPartName_wf _ _ _ Hn) as Wx. split; [by apply addImpl_spec|].
  unfold coherent in *. cbn. rewrite Forall_forall in Hc |- *. intros e He. apply addImpl_parts in He as [->|He]; [done|by apply Hc|done|done].
Qed.

Lemma remove_spec s x : set_inv s ->
  (remove s x).2 = with_parts s (filter (fun e : entry => toTuple e.1 <> toTuple x) (part_info_to_name s)) /\
  ((remove s x).1 = true <-> exists e, e ∈ part_info_to_name s /\ toTuple e.1 = toTuple x).
Proof.
  intros [Hi _]. unfold remove. pose proof (erase_filter entry_key (part_info_to_name s) (toTuple x) (inv_keys _ Hi)) as H.
  destruct (erase _ _ _) as [n m]. cbn [fst snd] in *. destruct H as [-> H]. done.
Qed.

Lemma set_inv_remove s x : set_inv s -> set_inv (remove s x).2.
Proof. intros Hs. destruct (remove_spec s x Hs) as [-> _]. apply set_inv_sublist; [apply sublist_filter|done]. Qed.

(** Removing the entries of a list by their names. *)
Lemma remove_loop_spec l : forall s result, set_inv s -> Forall (fun e => fromPartName e.2 (format_version s) = Ok e.1) l ->
  exists b, remove_loop s result (snd <$> l) =
    (Ok b, with_parts s (filter (fun e : entry => toTuple e.1 ∉ entry_key <$> l) (part_info_to_name s))) /\
    (b = true -> result = true /\ forall e, e ∈ l -> exists e', e' ∈ part_info_to_name s /\ toTuple e'.1 = toTuple e.1).
Proof.
  induction l as [|e l IH]; intros s result Hs Hl; cbn [fmap list_fmap remove_loop].
  - exists result. rewrite list_filter_all by (apply Forall_forall; intros e _ H; by apply elem_of_nil in H). destruct s. split; [done|].
    intros ->. split; [done|]. by intros e ?%elem_of_nil.
  - apply Forall_cons in Hl as [He Hl]. unfold remove_name. rewrite He. destruct (remove_spec s e.1 Hs) as [Es Eb].
    pose proof (set_inv_remove s e.1 Hs) as Hs'. destruct (remove s e.1) as [b s']. cbn [fst snd] in *. subst s'. cbn [format_version with_parts] in *.
    destruct (IH _ (result && b) Hs' Hl) as (b' & -> & Hb'). exists b'. cbn [part_info_to_name with_parts] in *. split.
    + do 2 f_equal. unfold with_parts. f_equal. cbn. rewrite list_filter_filter. apply list_filter_iff. intros a. rewrite elem_of_cons. unfold entry_key at 2. tauto.
    + intros Hb. destruct (Hb' Hb) as [[-> ->]%andb_true_iff Hin]. split; [done|]. intros a [->|Ha]%elem_of_cons; [by apply Eb|].
      destruct (Hin a Ha) as (a' & [_ Ha']%list_elem_of_filter & Hk). eauto.
Qed.

Lemma getPartsCoveredByImpl_elem m x e : inv m -> e ∈ getPartsCoveredByImpl m x -> e ∈ m /\ contained x e.
Proof.
  intros Hm. unfold getPartsCoveredByImpl. destruct (lower_bound_place m x Hm) as (bf & af & -> & Hp).
  rewrite !covered_walk_span. destruct (span x bf) as [tl rl] eqn:Hl. destruct (span x af) as [tr rr] eqn:Hr.
  pose proof (spans_whole m x bf af tl rl tr rr Hp Hl Hr) as Hw. destruct (spans_contained x bf af tl rl tr rr Hl Hr) as [T1 T2].
  rewrite Forall_forall in T1, T2.
  assert (e ∈ reverse tl ++ tr -> e ∈ m /\ contained x e) as H.
  { intros [He|He]%elem_of_app; split; [|by apply T1| |by apply T2]; rewrite Hw, !elem_of_app; tauto. }
  repeat case_match; simplify_eq; first [exact H|by intros ?%elem_of_nil].
Qed.

Lemma covered_coherent s x : set_inv s ->
  Forall (fun e => fromPartName e.2 (format_version s) = Ok e.1) (getPartsCoveredByImpl (part_info_to_name s) x).
Proof.
  intros [Hi Hc]. unfold coherent in Hc. rewrite Forall_forall in Hc. apply Forall_forall. intros e He.
  apply getPartsCoveredByImpl_elem in He as [He _]; [by apply Hc|done].
Qed.

(** The relations look only at what the keys hold. *)
Lemma same_key_contains_r x a b : toTuple a = toTuple b -> contains x a = contains x b.
Proof. unfold toTuple. intros [= _ Hid Hmin Hmax Hl Hm]. unfold contains. by rewrite Hid, Hmin, Hmax, Hl, Hm. Qed.

Lemma same_key_contains a b : toTuple a = toTuple b -> contains a b = true.
Proof. intros E. rewrite <- (same_key_contains_r a a b E). apply contains_refl. Qed.

Lemma same_key_disjoint x a b : toTuple a = toTuple b -> isDisjoint a x = isDisjoint b x.
Proof. unfold toTuple. intros [= _ Hid Hmin Hmax _ _]. unfold isDisjoint. by rewrite Hid, Hmin, Hmax. Qed.

(** The parts that stay when those with the keys of the covered ones go. *)
Lemma covered_keys s x : set_inv s -> well_formed x -> fits x (part_info_to_name s) ->
  forall e, e ∈ part_info_to_name s -> toTuple e.1 ∉ entry_key <$> getPartsCoveredByImpl (part_info_to_name s) x <-> kept x e.
Proof.
  intros [Hi _] Wx Hf e He. rewrite getPartsCoveredByImpl_spec; [|done|done|intros a Ha; destruct (Hf a Ha); auto].
  rewrite list_elem_of_fmap. split.
  - intros Hn. destruct (contains x e.1) eqn:E; [|done]. destruct Hn. exists e. split; [done|]. by apply list_elem_of_filter.
  - intros Hk (e' & E & [Hc _]%list_elem_of_filter). rewrite (same_key_contains_r x e.1 e'.1 E) in Hk. congruence.
Qed.

(** The whole method: what stays, and the result, which is never [true]. *)
Lemma removePartAndCoveredParts_spec s x : set_inv s -> well_formed x ->
  (removePartAndCoveredParts s x).1 = Ok false /\ set_inv (removePartAndCoveredParts s x).2 /\
  (fits x (part_info_to_name s) -> (removePartAndCoveredParts s x).2 = with_parts s (filter (kept x) (part_info_to_name s))).
Proof.
  intros Hs Wx. unfold removePartAndCoveredParts, getPartsCoveredBy. destruct (remove_spec s x Hs) as [Es Eb].
  pose proof (set_inv_remove s x Hs) as Hs'. destruct (remove s x) as [b s'] eqn:Er. cbn [fst snd] in *.
  assert (format_version s' = format_version s) as Hv by (by subst s').
  pose proof (covered_coherent s x Hs) as Hcov. rewrite <- Hv in Hcov.
  destruct (remove_loop_spec _ s' b Hs' Hcov) as (r & -> & Hr). cbn [fst snd]. split_and!.
  - f_equal. destruct r; [|done]. destruct (Hr eq_refl) as [-> Hin]. destruct (proj1 Eb eq_refl) as (e & He & Hk).
    assert (contained x e) as Hc by (by apply same_key_contains).
    assert (e ∈ getPartsCoveredByImpl (part_info_to_name s) x) as Hcv.
    { destruct Hs as [Hi _]. rewrite getPartsCoveredByImpl_spec; [by apply list_elem_of_filter|done|done|]. intros a Ha.
      destruct (inv_disjoint _ e a Hi He Ha) as [<-|Hd]; [by left|]. right. left. by rewrite <- (same_key_disjoint a.1 e.1 x Hk). }
    destruct (Hin e Hcv) as (e' & He' & Hk'). subst s'. cbn in He'. apply list_elem_of_filter in He' as [Hne _]. destruct Hne. congruence.
  - apply set_inv_sublist; [|done]. apply sublist_filter.
  - intros Hf. subst s'. unfold with_parts. cbn. f_equal. rewrite list_filter_filter. apply list_filter_ext. intros e He.
    rewrite (covered_keys s x Hs Wx Hf e He). split; [tauto|]. intros Hk. split; [done|]. intros E.
    by rewrite (same_key_contains x e.1) in Hk.
Qed.

(** ** Reachable sets *)

(** The calls that change a set.  A part that is given together with a name has
    that name, and one given alone has a name that can be read back. *)
Inductive step : set -> set -> Prop :=
| step_add s name bc : step s (add s name bc).2
| step_add_info_name s x name bc : fromPartName name (format_version s) = Ok x -> step s (add_info_name s x name bc).2
| step_add_info s x bc : nameable x -> step s (add_info s x bc).2
| step_tryAdd s name : step s (tryAdd s name).2
| step_tryAddPart s x : nameable x -> step s (tryAddPart s x).2
| step_remove s x : step s (remove s x).2
| step_remove_name s name : step s (remove_name s name).2
| step_removePartAndCoveredParts s x : step s (removePartAndCoveredParts s x).2
| step_removePartAndCoveredParts_name s name : step s (removePartAndCoveredParts_name s name).2
| step_removePartsCoveredBy s name : step s (removePartsCoveredBy s name).2
| step_clear s : step s (clear s).

Lemma set_inv_remove_loop l s result : set_inv s -> Forall (fun e => fromPartName e.2 (format_version s) = Ok e.1) l ->
  set_inv (remove_loop s result (snd <$> l)).2.
Proof.
  intros Hs Hl. destruct (remove_loop_spec l s result Hs Hl) as (b & -> & _). apply set_inv_sublist; [apply sublist_filter|done].
Qed.

Lemma set_inv_removeCovered s x : set_inv s -> set_inv (removePartAndCoveredParts s x).2.
Proof.
  intros Hs. unfold removePartAndCoveredParts, getPartsCoveredBy. destruct (remove_spec s x Hs) as [Es _].
  pose proof (set_inv_remove s x Hs) as Hs'. destruct (remove s x) as [b s']. cbn [fst snd] in *.
  apply set_inv_remove_loop; [done|]. subst s'. exact (covered_coherent s x Hs).
Qed.

Lemma other_names_fmap name l : exists l', other_names name (snd <$> l) = snd <$> l' /\ forall e : entry, e ∈ l' -> e ∈ l.
Proof.
  induction l as [|e l (l' & E & H)]; cbn [fmap list_fmap other_names]; [by exists []|]. destruct (negb _).
  - exists (e :: l'). cbn. split; [by f_equal|]. intros a [->|Ha]%elem_of_cons; [by left|right; by apply H].
  - exists l'. split; [done|]. intros a Ha. right. by apply H.
Qed.

Lemma set_inv_removeCoveredBy s name : set_inv s -> set_inv (removePartsCoveredBy s name).2.
Proof.
  intros Hs. unfold removePartsCoveredBy, getPartsCoveredBy. destruct (fromPartName name _) as [x|e|]; [|done|done].
  destruct (other_names_fmap name (getPartsCoveredByImpl (part_info_to_name s) x)) as (l' & -> & Hl').
  apply set_inv_remove_loop; [done|]. pose proof (covered_coherent s x Hs) as Hc. rewrite Forall_forall in Hc |- *. auto.
Qed.

(** A name that [getPartNameAndCheckFormat] gave is the part's name. *)
Lemma checked_name x v name : nameable x -> getPartNameAndCheckFormat x v = Ok name -> fromPartName name v = Ok x.
Proof.
  unfold getPartNameAndCheckFormat, MERGE_TREE_DATA_MIN_FORMAT_VERSION_WITH_CUSTOM_PARTITIONING. intros Hx.
  destruct (Z.eqb_spec v 1) as [->|]; [|done]. destruct (part_name_parses x Hx) as (name' & Hn & Hparse). intros E.
  assert (name' = name) as -> by congruence. unfold fromPartName. by rewrite Hparse.
Qed.

Lemma set_inv_step s s' : step s s' -> set_inv s -> set_inv s'.
Proof.
  destruct 1; intros Hs; unfold add, add_info, tryAdd, tryAddPart, remove_name, removePartAndCoveredParts_name, add_info_name; cbn [snd].
  1, 4: destruct (fromPartName name _) as [x|e|] eqn:E; cbn [snd]; [by apply set_inv_add|done|done].
  1: by apply set_inv_add.
  1, 2: destruct (getPartNameAndCheckFormat x _) as [name|e|] eqn:E; cbn [snd]; [apply set_inv_add; [done|by apply checked_name]|done|done].
  - by apply set_inv_remove.
  - destruct (fromPartName name _) as [x|e|]; [|done|done]. pose proof (set_inv_remove s x Hs). by destruct (remove s x).
  - by apply set_inv_removeCovered.
  - destruct (fromPartName name _) as [x|e|]; [by apply set_inv_removeCovered|done|done].
  - by apply set_inv_removeCoveredBy.
  - apply set_inv_sublist; [apply sublist_nil_l|done].
Qed.

Lemma set_inv_empty v : set_inv (Make v []).
Proof. split; [split; constructor|constructor]. Qed.

Lemma set_inv_reachable v s : rtc step (Make v []) s -> set_inv s.
Proof. intros H. refine (rtc_ind_r (fun s => set_inv s) _ (set_inv_empty v) _ _ H). intros a b _ Hab Ha. by eapply set_inv_step. Qed.

(** ** Partitions *)
Lemma hasPartitionId_spec s id : inv (part_info_to_name s) -> Forall (fun e => 0 <= min_block e.1 /\ 0 <= level e.1 /\ 0 <= mutation e.1) (part_info_to_name s) ->
  hasPartitionId s id = true <-> exists e, e ∈ part_info_to_name s /\ partition_id e.1 = id.
Proof.
  intros Hm Hpos. unfold hasPartitionId. generalize dependent (part_info_to_name s). clear s. intros m Hm Hpos.
  set (info := setPartitionId default id). destruct (lower_bound_place m info Hm) as (bf & af & -> & Hp).
  assert (well_formed info) as Wi by (split; [done|cbn; lia]).
  assert (forall e, e ∈ m -> partition_id e.1 = id -> compare (toTuple e.1) (toTuple info) <> Lt) as Hge.
  { intros e He E. rewrite compare_parts. destruct Hm as [_ Hok]. rewrite Forall_forall in Hok, Hpos. destruct (Hpos e He) as (H1 & H2 & H3).
    rewrite (proj2 (partition_key_eq e.1 info (Hok e He) Wi)), compare_refl by done. cbn. destruct (Hok e He) as [_ Hmm].
    destruct (Z.compare_spec (min_block e.1) 0), (Z.compare_spec (max_block e.1) 0), (Z.compare_spec (level e.1) 0), (Z.compare_spec (mutation e.1) 0); cbn; try done; lia. }
  pose proof (fun e => place_elem m info bf af e Hp) as Hin. destruct Hp as [_ Hb Ha _ Hsa _ Hoka]. rewrite Forall_forall in Hb. split.
  - destruct af as [|a af]; [done|]. case_bool_decide as E; [|done]. intros _. exists a. split; [|done]. apply Hin. right. by left.
  - intros (e & He & E). pose proof (Hge e He E) as Hne. apply Hin in He as [He|He]; [by destruct Hne; apply Hb|].
    destruct af as [|a af]; [by apply elem_of_nil in He|]. enough (partition_id a.1 = id) as -> by (by rewrite bool_decide_true).
    apply elem_of_cons in He as [->|He]; [done|]. apply StronglySorted_cons in Hsa as [Hh _]. rewrite Forall_forall in Hh, Hoka.
    specialize (Hh e He). apply Forall_cons in Ha as [Ha _]. pose proof (Hoka a ltac:(by left)) as Wa. pose proof (Hoka e ltac:(by right)) as We.
    apply (partition_key_eq e.1 info We Wi) in E. destruct Hh as [Hlt|[Heq _]].
    + destruct Ha. rewrite compare_parts. apply lex_lt. left. by rewrite <- E.
    + apply (partition_key_eq a.1 info Wa Wi). congruence.
Qed.
