(* ===== verification/FindSymbols.v ===== *)
(** * Searching for symbols

    [base/base/find_symbols.h]: the first or the last byte that is (or is not)
    one of a few symbols, found sixteen bytes at a time.  A position is an
    index into the range, [None] is the end or the null pointer, as the return
    mode says.  A vector register is a list of sixteen bytes and the
    intrinsics are what their documentation says of the lanes. *)

From stdpp Require Import prelude.
From Stdlib Require Import ZArith Lia.
From S2P Require Import Prelude Bits.

(** ** One byte *)
Fixpoint is_in (symbols : bytes) (x : Z) : bool :=
  match symbols with
  | [] => false
  | c :: symbols => (x =? c) || is_in symbols x
  end.

Definition maybe_negate (positive x : bool) : bool := eqb x positive.

(** [maybe_negate] of a 16-bit mask. *)
Definition maybe_negate_mask (positive : bool) (x : Z) : Z := if positive then x else wrap 16 (Z.lnot x).

(** The loop over single bytes that ends every search. *)
Fixpoint scan (p : Z -> bool) (l : bytes) : option nat :=
  match l with
  | [] => None
  | c :: l => if p c then Some O else S <$> scan p l
  end.

(** [for (; pos + 15 < end; pos += 16)] and the loop after it; [block] is what
    an iteration finds in its sixteen bytes. *)
Fixpoint first_blocks (block : bytes -> option nat) (p : Z -> bool) (fuel pos : nat) (rest : bytes) : option nat :=
  match fuel with
  | O => None
  | S fuel =>
      if Nat.leb 16 (length rest) then
        match block (take 16 rest) with
        | Some i => Some (pos + i)%nat
        | None => first_blocks block p fuel (pos + 16) (drop 16 rest)
        end
      else Nat.add pos <$> scan p rest
  end.

(** [for (; pos >= begin; --pos)] below [n]. *)
Fixpoint scan_down (p : Z -> bool) (l : bytes) (n : nat) : option nat :=
  match n with
  | O => None
  | S n => match l !! n with
           | Some c => if p c then Some n else scan_down p l n
           | None => None
           end
  end.

(** [for (; pos - 16 >= begin; pos -= 16)] and the loop after it. *)
Fixpoint last_blocks (block : bytes -> option nat) (p : Z -> bool) (l : bytes) (fuel pos : nat) : option nat :=
  match fuel with
  | O => None
  | S fuel =>
      if Nat.leb 16 pos then
        match block (take 16 (drop (pos - 16) l)) with
        | Some i => Some (pos - 16 + i)%nat
        | None => last_blocks block p l fuel (pos - 16)
        end
      else scan_down p l pos
  end.

(** ** SSE2 *)
Definition mm_cmpeq_epi8 (bytes : list Z) (c : Z) : list Z := (fun b => if b =? c then 255 else 0) <$> bytes.
Definition mm_or_si128 (a b : list Z) : list Z := zip_with Z.lor a b.

Fixpoint mm_is_in (symbols : bytes) (bytes : list Z) : list Z :=
  match symbols with
  | [] => replicate 16 0
  | [s0] => mm_cmpeq_epi8 bytes s0
  | s0 :: tail => mm_or_si128 (mm_cmpeq_epi8 bytes s0) (mm_is_in tail bytes)
  end.

Definition mm_is_in_prepare (symbols : bytes) : list Z := symbols ++ replicate (16 - length symbols) (default 0 (head symbols)).

Definition mm_is_in_execute (bytes needles : list Z) : list Z :=
  foldl (fun accumulator needle => mm_or_si128 accumulator (mm_cmpeq_epi8 bytes needle)) (replicate 16 0) needles.

(** [_mm_movemask_epi8]: the top bits of the lanes. *)
Definition mm_movemask_epi8 (v : list Z) : Z := foldr (fun b m => Z.b2z (Z.testbit b 7) + 2 * m) 0 v.

(** [if (bit_mask) return pos + __builtin_ctz(bit_mask)]. *)
Definition first_of_mask (bit_mask : Z) : option nat :=
  if bit_mask =? 0 then None else Some (Z.to_nat (getTrailingZeroBits 32 bit_mask)).

(** [if (bit_mask) return pos - 1 - (__builtin_clz(bit_mask) - 16)], from the beginning of the block. *)
Definition last_of_mask (bit_mask : Z) : option nat :=
  if bit_mask =? 0 then None else Some (Z.to_nat (16 - 1 - (getLeadingZeroBits 32 bit_mask - 16))).

Definition sse2_mask (positive : bool) (symbols bytes : list Z) : Z :=
  maybe_negate_mask positive (mm_movemask_epi8 (mm_is_in symbols bytes)).

Definition sse2_mask_rt (positive : bool) (symbols bytes : list Z) : Z :=
  maybe_negate_mask positive (mm_movemask_epi8 (mm_is_in_execute bytes (mm_is_in_prepare symbols))).

Definition find_first_symbols_sse2 (positive : bool) (symbols haystack : bytes) : option nat :=
  first_blocks (fun b => first_of_mask (sse2_mask positive symbols b)) (fun c => maybe_negate positive (is_in symbols c))
    (S (length haystack)) 0 haystack.

(** The overload whose symbols are known only when it runs. *)
Definition find_first_symbols_sse2_rt (positive : bool) (symbols haystack : bytes) : option nat :=
  first_blocks (fun b => first_of_mask (sse2_mask_rt positive symbols b)) (fun c => maybe_negate positive (is_in symbols c))
    (S (length haystack)) 0 haystack.

Definition find_last_symbols_sse2 (positive : bool) (symbols haystack : bytes) : option nat :=
  last_blocks (fun b => last_of_mask (sse2_mask positive symbols b)) (fun c => maybe_negate positive (is_in symbols c))
    haystack (S (length haystack)) (length haystack).

Definition find_last_symbols_sse2_rt (positive : bool) (symbols haystack : bytes) : option nat :=
  last_blocks (fun b => last_of_mask (sse2_mask_rt positive symbols b)) (fun c => maybe_negate positive (is_in symbols c))
    haystack (S (length haystack)) (length haystack).

(** ** SSE 4.2

    [_mm_cmpestri] with [_SIDD_CMP_EQUAL_ANY | _SIDD_LEAST_SIGNIFICANT] and
    perhaps [_SIDD_NEGATIVE_POLARITY]: the least lane of [bytes] that is (not)
    one of the first [num_chars] lanes of [set], sixteen when there is none;
    [_mm_cmpestrc] says whether there is one. *)
Definition mm_cmpestri (set : list Z) (num_chars : nat) (bytes : list Z) (negative : bool) : nat :=
  default 16%nat (scan (fun c => xorb negative (is_in (take num_chars set) c)) bytes).

Definition mm_cmpestrc (set : list Z) (num_chars : nat) (bytes : list Z) (negative : bool) : bool :=
  existsb (fun c => xorb negative (is_in (take num_chars set) c)) bytes.

Definition find_first_symbols_sse42 (positive : bool) (symbols haystack : bytes) : option nat :=
  let set := symbols ++ replicate (16 - length symbols) 0 in
  let num_chars := length symbols in
  first_blocks
    (fun b => if mm_cmpestrc set num_chars b (negb positive) then Some (mm_cmpestri set num_chars b (negb positive)) else None)
    (fun c => maybe_negate positive (is_in symbols c)) (S (length haystack)) 0 haystack.

(** ** NEON *)
Definition vceqq_u8 (bytes : list Z) (c : Z) : list Z := (fun b => if b =? c then 255 else 0) <$> bytes.
Definition vmvnq_u8 (v : list Z) : list Z := (fun b => wrap 8 (Z.lnot b)) <$> v.

Fixpoint neon_is_in (symbols : bytes) (bytes : list Z) : list Z :=
  match symbols with
  | [] => replicate 16 0
  | [s0] => vceqq_u8 bytes s0
  | s0 :: tail => zip_with Z.lor (vceqq_u8 bytes s0) (neon_is_in tail bytes)
  end.

(** The overload whose symbols are known only when it runs. *)
Definition neon_is_in_rt (symbols : bytes) (bytes : list Z) : list Z :=
  foldl (fun accumulator c => zip_with Z.lor accumulator (vceqq_u8 bytes c)) (replicate 16 0) symbols.

(** [vshrn_n_u16(_, 4)] of the lanes taken in pairs, read as one number. *)
Fixpoint neon_to_bitmask (eq : list Z) : Z :=
  match eq with
  | lo :: hi :: eq => wrap 8 (Z.shiftr (lo + 256 * hi) 4) + 256 * neon_to_bitmask eq
  | _ => 0
  end.

Definition neon_mask (positive : bool) (eq : list Z) : Z := neon_to_bitmask (if positive then eq else vmvnq_u8 eq).

Definition neon_first (bit_mask : Z) : option nat :=
  if bit_mask =? 0 then None else Some (Z.to_nat (Z.shiftr (getTrailingZeroBits 64 bit_mask) 2)).

Definition neon_last (bit_mask : Z) : option nat :=
  if bit_mask =? 0 then None else Some (Z.to_nat (16 - 1 - Z.shiftr (getLeadingZeroBits 64 bit_mask) 2)).

(** Eight bytes are looked at one by one before the blocks; [eq] compares a block. *)
Definition neon_long_first (eq : bytes -> list Z -> list Z) (positive : bool) (symbols haystack : bytes) : option nat :=
  let p := fun c => maybe_negate positive (is_in symbols c) in
  match scan p (take 8 haystack) with
  | Some i => Some i
  | None => first_blocks (fun b => neon_first (neon_mask positive (eq symbols b))) p (S (length haystack)) 8 (drop 8 haystack)
  end.

Definition neon_long_last (eq : bytes -> list Z -> list Z) (positive : bool) (symbols haystack : bytes) : option nat :=
  let p := fun c => maybe_negate positive (is_in symbols c) in
  let n := length haystack in
  match scan p (rev (drop (n - 8) haystack)) with
  | Some i => Some (n - 1 - i)%nat
  | None => last_blocks (fun b => neon_last (neon_mask positive (eq symbols b))) p haystack (S n) (n - 8)
  end.

Definition find_first_symbols_neon_long : bool -> bytes -> bytes -> option nat := neon_long_first neon_is_in.
Definition find_first_symbols_neon_long_rt : bool -> bytes -> bytes -> option nat := neon_long_first neon_is_in_rt.
Definition find_last_symbols_neon_long : bool -> bytes -> bytes -> option nat := neon_long_last neon_is_in.
Definition find_last_symbols_neon_long_rt : bool -> bytes -> bytes -> option nat := neon_long_last neon_is_in_rt.

(** ** The choice among them *)
Inductive Target : Set := Scalar | SSE2 | SSE42 | AArch64.

Definition find_first_symbols_dispatch (target : Target) (positive : bool) (symbols haystack : bytes) : option nat :=
  match target with
  | Scalar => scan (fun c => maybe_negate positive (is_in symbols c)) haystack
  | SSE2 => find_first_symbols_sse2 positive symbols haystack
  | SSE42 =>
      if Nat.leb 5 (length symbols) then find_first_symbols_sse42 positive symbols haystack
      else find_first_symbols_sse2 positive symbols haystack
  | AArch64 =>
      if Nat.leb 16 (length haystack) then find_first_symbols_neon_long positive symbols haystack
      else scan (fun c => maybe_negate positive (is_in symbols c)) haystack
  end.

(** The overload for [SearchSymbols]. *)
Definition find_first_symbols_dispatch_rt (target : Target) (positive : bool) (symbols haystack : bytes) : option nat :=
  match symbols with
  | [] => match haystack with
          | _ :: _ => if positive then None else Some O
          | [] => None
          end
  | _ =>
      match target with
      | Scalar => scan (fun c => maybe_negate positive (is_in symbols c)) haystack
      | SSE2 => find_first_symbols_sse2_rt positive symbols haystack
      | SSE42 =>
          if Nat.leb 5 (length symbols) then find_first_symbols_sse42 positive symbols haystack
          else find_first_symbols_sse2_rt positive symbols haystack
      | AArch64 =>
          if Nat.leb 16 (length haystack) then find_first_symbols_neon_long_rt positive symbols haystack
          else scan (fun c => maybe_negate positive (is_in symbols c)) haystack
      end
  end.

Definition find_last_symbols_dispatch (target : Target) (positive : bool) (symbols haystack : bytes) : option nat :=
  match target with
  | Scalar => scan_down (fun c => maybe_negate positive (is_in symbols c)) haystack (length haystack)
  | SSE2 | SSE42 => find_last_symbols_sse2 positive symbols haystack
  | AArch64 =>
      if Nat.leb 16 (length haystack) then find_last_symbols_neon_long positive symbols haystack
      else scan_down (fun c => maybe_negate positive (is_in symbols c)) haystack (length haystack)
  end.

Definition find_last_symbols_dispatch_rt (target : Target) (positive : bool) (symbols haystack : bytes) : option nat :=
  match symbols with
  | [] => match haystack with
          | _ :: _ => if positive then None else Some (length haystack - 1)%nat
          | [] => None
          end
  | _ =>
      match target with
      | Scalar => scan_down (fun c => maybe_negate positive (is_in symbols c)) haystack (length haystack)
      | SSE2 | SSE42 => find_last_symbols_sse2_rt positive symbols haystack
      | AArch64 =>
          if Nat.leb 16 (length haystack) then find_last_symbols_neon_long_rt positive symbols haystack
          else scan_down (fun c => maybe_negate positive (is_in symbols c)) haystack (length haystack)
      end
  end.

(** [find_first_symbols]: the end of the range when there is none. *)
Definition find_first_symbols (symbols haystack : bytes) : nat :=
  default (length haystack) (find_first_symbols_dispatch SSE2 true symbols haystack).

Lemma is_in_spec symbols c : is_in symbols c = true <-> c ∈ symbols.
Proof.
  induction symbols as [|s symbols IH]; cbn [is_in]; [split; [done|by intros ?%elem_of_nil]|]. by rewrite orb_true_iff, Z.eqb_eq, elem_of_cons, IH.
Qed.

Lemma is_in_subset s1 s2 c : s1 ⊆ s2 -> is_in s2 c = false -> is_in s1 c = false.
Proof. intros Hs. rewrite <- !not_true_iff_false, !is_in_spec. auto. Qed.

(** ** Masks *)

(** The first and the last place of a list of flags that is set. *)
Definition first_true (bs : list bool) : option nat := fst <$> list_find Is_true bs.

Fixpoint last_true (bs : list bool) : option nat :=
  match bs with
  | [] => None
  | b :: bs => match last_true bs with Some i => Some (S i) | None => if b then Some O else None end
  end.

Definition mask_of (k : Z) (bs : list bool) : Z := foldr (fun b m => (if b : bool then 2 ^ k - 1 else 0) + 2 ^ k * m) 0 bs.

Lemma first_true_cons b bs : first_true (b :: bs) = if b then Some O else S <$> first_true bs.
Proof.
  unfold first_true. cbn [list_find]. destruct b; cbn; [done|]. by destruct (list_find Is_true bs) as [[i x]|].
Qed.

Lemma scan_first p l : scan p l = first_true (p <$> l).
Proof. induction l as [|c l IH]; [done|]. cbn [scan fmap list_fmap]. rewrite first_true_cons, IH. done. Qed.

Lemma getTrailingZeroBits_odd w x : 0 <= x -> getTrailingZeroBits w (1 + 2 * x) = 0.
Proof. destruct x as [|p|p]; [done|done|lia]. Qed.

Lemma getTrailingZeroBits_double w x : 0 < x -> getTrailingZeroBits w (2 * x) = 1 + getTrailingZeroBits w x.
Proof. destruct x as [|p|p]; [lia|done|lia]. Qed.

Lemma getTrailingZeroBits_pow w x (n : nat) : 0 < x -> getTrailingZeroBits w (2 ^ Z.of_nat n * x) = Z.of_nat n + getTrailingZeroBits w x.
Proof.
  intros Hx. induction n as [|n IH]; [by rewrite Z.mul_1_l|]. rewrite Nat2Z.inj_succ, Z.pow_succ_r, <- Z.mul_assoc by lia.
  rewrite getTrailingZeroBits_double; [lia|]. pose proof (Z.pow_pos_nonneg 2 (Z.of_nat n)). nia.
Qed.

Section masks.
  Context (k : Z) (Hk : 0 < k).

Lemma mask_of_cons b bs : mask_of k (b :: bs) = (if b then 2 ^ k - 1 else 0) + 2 ^ k * mask_of k bs.
Proof using Type. done. Qed.

Lemma mask_of_nonneg bs : 0 <= mask_of k bs.
Proof using Hk.
  induction bs as [|b bs IH]; [done|]. rewrite mask_of_cons. pose proof (Z.pow_pos_nonneg 2 k ltac:(lia) ltac:(lia)). destruct b; nia.
Qed.

Lemma mask_of_negb bs : mask_of k bs + mask_of k (negb <$> bs) = 2 ^ (k * Z.of_nat (length bs)) - 1.
Proof using Hk.
  induction bs as [|b bs IH]; [by rewrite Z.mul_0_r|]. cbn [fmap list_fmap length]. rewrite !mask_of_cons.
  replace (k * Z.of_nat (S (length bs))) with (k + k * Z.of_nat (length bs)) by lia. rewrite Z.pow_add_r by lia. destruct b; cbn [negb]; nia.
Qed.

Lemma mask_of_first w bs :
  match first_true bs with
  | None => mask_of k bs = 0
  | Some i => 0 < mask_of k bs /\ getTrailingZeroBits w (mask_of k bs) = k * Z.of_nat i
  end.
Proof using Hk.
  induction bs as [|b bs IH]; [done|]. rewrite first_true_cons, mask_of_cons. pose proof (mask_of_nonneg bs).
  pose proof (Z.pow_pos_nonneg 2 (k - 1) ltac:(lia) ltac:(lia)). assert (2 ^ k = 2 * 2 ^ (k - 1)) as E by (rewrite <- Z.pow_succ_r by lia; f_equal; lia).
  destruct b.
  - split; [nia|]. replace (2 ^ k - 1 + 2 ^ k * mask_of k bs) with (1 + 2 * (2 ^ (k - 1) - 1 + 2 ^ (k - 1) * mask_of k bs)) by nia.
    rewrite getTrailingZeroBits_odd by nia. lia.
  - destruct (first_true bs) as [i|]; cbn; [|lia]. destruct IH as [Hp IH]. split; [nia|].
    rewrite <- (Z2Nat.id k) at 1 by lia. rewrite Z.add_0_l, getTrailingZeroBits_pow, IH by done. rewrite Z2Nat.id by lia. lia.
Qed.

Lemma mask_of_last bs :
  match last_true bs with
  | None => mask_of k bs = 0
  | Some i => 0 < mask_of k bs /\ Z.log2 (mask_of k bs) = k * Z.of_nat i + (k - 1)
  end.
Proof using Hk.
  induction bs as [|b bs IH]; [done|]. cbn [last_true]. rewrite mask_of_cons. pose proof (Z.pow_pos_nonneg 2 k ltac:(lia) ltac:(lia)) as H2.
  assert (1 < 2 ^ k) by (apply Z.pow_gt_1; lia).
  destruct (last_true bs) as [i|].
  - destruct IH as [Hp IH]. split; [destruct b; nia|]. pose proof (Z.log2_spec _ Hp) as [Hlo Hhi]. rewrite IH in Hlo, Hhi.
    apply Z.log2_unique; [lia|].
    replace (k * Z.of_nat (S i) + (k - 1)) with (k + (k * Z.of_nat i + (k - 1))) by lia. rewrite <- Z.add_succ_r, !(Z.pow_add_r 2 k) by lia.
    destruct b; nia.
  - rewrite IH. destruct b; [|lia]. split; [lia|]. rewrite Z.mul_0_r, Z.add_0_r, Z.mul_0_r, Z.add_0_l. apply Z.log2_unique; [lia|].
    replace (Z.succ (k - 1)) with k by lia. pose proof (Z.pow_pos_nonneg 2 (k - 1) ltac:(lia) ltac:(lia)).
    assert (2 ^ k = 2 * 2 ^ (k - 1)) by (rewrite <- Z.pow_succ_r by lia; f_equal; lia). lia.
Qed.
End masks.

(** ** Blocks *)

(** A register whose lanes say whether [q] holds. *)
Definition lanes (q : Z -> bool) (b : bytes) : list Z := (fun c => if q c then 255 else 0) <$> b.

Lemma lanes_or q r b : zip_with Z.lor (lanes q b) (lanes r b) = lanes (fun c => q c || r c) b.
Proof. unfold lanes. induction b as [|c b IH]; [done|]. cbn [fmap list_fmap zip_with]. f_equal; [by destruct (q c), (r c)|done]. Qed.

Lemma lanes_ext q r b : (forall c, q c = r c) -> lanes q b = lanes r b.
Proof. intros H. unfold lanes. apply list_fmap_ext. intros _ c _. by rewrite H. Qed.

Lemma lanes_false b : length b = 16%nat -> replicate 16 0 = lanes (fun _ => false) b.
Proof. intros Hb. do 17 (destruct b as [|? b]; try discriminate). done. Qed.

Lemma mm_is_in_lanes symbols b : length b = 16%nat -> mm_is_in symbols b = lanes (is_in symbols) b.
Proof.
  intros Hb. induction symbols as [|s0 tail IH]; [by apply lanes_false|]. destruct tail as [|s1 tail].
  - cbn [mm_is_in]. apply lanes_ext. intros c. cbn. by rewrite orb_false_r.
  - change (mm_is_in (s0 :: s1 :: tail) b) with (mm_or_si128 (mm_cmpeq_epi8 b s0) (mm_is_in (s1 :: tail) b)). rewrite IH. apply lanes_or.
Qed.

Lemma neon_is_in_lanes symbols b : length b = 16%nat -> neon_is_in symbols b = lanes (is_in symbols) b.
Proof.
  intros Hb. rewrite <- mm_is_in_lanes by done. induction symbols as [|s0 tail IH]; [done|]. destruct tail; [done|].
  change (neon_is_in (s0 :: _ :: _) b) with (zip_with Z.lor (vceqq_u8 b s0) (neon_is_in (z :: tail) b)). by rewrite IH.
Qed.

Lemma or_fold_lanes symbols b : forall q,
  foldl (fun acc c => zip_with Z.lor acc (lanes (fun x => x =? c) b)) (lanes q b) symbols = lanes (fun c => q c || is_in symbols c) b.
Proof.
  induction symbols as [|s symbols IH]; intros q; cbn [foldl is_in].
  - apply lanes_ext. intros c. by rewrite orb_false_r.
  - rewrite lanes_or, IH. apply lanes_ext. intros c. by rewrite orb_assoc.
Qed.

Lemma or_fold_is_in symbols b : length b = 16%nat ->
  foldl (fun acc c => zip_with Z.lor acc (lanes (fun x => x =? c) b)) (replicate 16 0) symbols = lanes (is_in symbols) b.
Proof. intros Hb. rewrite (lanes_false b Hb). apply or_fold_lanes. Qed.

Lemma is_in_app s1 s2 c : is_in (s1 ++ s2) c = is_in s1 c || is_in s2 c.
Proof. induction s1 as [|s s1 IH]; [done|]. cbn. by rewrite IH, orb_assoc. Qed.

(** The needles that fill the register repeat the first symbol. *)
Lemma is_in_prepare symbols c : symbols <> [] -> is_in (mm_is_in_prepare symbols) c = is_in symbols c.
Proof.
  destruct symbols as [|s symbols]; [done|]. intros _. unfold mm_is_in_prepare. rewrite is_in_app. change (default 0 (head (s :: symbols))) with s.
  assert (forall n, is_in (replicate n s) c = true -> (c =? s) = true) as H.
  { intros n. induction n as [|n IH]; [done|]. cbn. destruct (c =? s); auto. }
  generalize (16 - length (s :: symbols))%nat. intros n. destruct (is_in (replicate n s) c) eqn:E; [|by rewrite orb_false_r]. rewrite orb_true_r. cbn. by rewrite (H _ E).
Qed.

Lemma execute_lanes symbols b : symbols <> [] -> length b = 16%nat ->
  mm_is_in_execute b (mm_is_in_prepare symbols) = lanes (is_in symbols) b.
Proof.
  intros Hs Hb. unfold mm_is_in_execute. etrans; [exact (or_fold_is_in (mm_is_in_prepare symbols) b Hb)|].
  apply lanes_ext. intros c. by apply is_in_prepare.
Qed.

Lemma movemask_lanes q b : mm_movemask_epi8 (lanes q b) = mask_of 1 (q <$> b).
Proof. induction b as [|c b IH]; [done|]. cbn [lanes fmap list_fmap mm_movemask_epi8 foldr] in *. rewrite mask_of_cons, <- IH. by destruct (q c). Qed.

Lemma fmap_negate positive symbols (b : bytes) :
  (fun c => maybe_negate positive (is_in symbols c)) <$> b = if positive then is_in symbols <$> b else negb <$> (is_in symbols <$> b).
Proof.
  destruct positive; [|rewrite <- list_fmap_compose]; apply list_fmap_ext; intros _ c _; unfold maybe_negate; cbn; by destruct (is_in symbols c).
Qed.

(** A mask of a block, negated or not, is that of its bytes that are wanted. *)
Lemma negate_mask positive symbols b : length b = 16%nat ->
  maybe_negate_mask positive (mask_of 1 (is_in symbols <$> b)) = mask_of 1 ((fun c => maybe_negate positive (is_in symbols c)) <$> b).
Proof.
  intros Hb. rewrite fmap_negate. unfold maybe_negate_mask. destruct positive; [done|].
  pose proof (mask_of_negb 1 ltac:(lia) (is_in symbols <$> b)) as H. rewrite length_fmap, Hb in H. unfold wrap, Z.lnot.
  pose proof (mask_of_nonneg 1 ltac:(lia) (negb <$> (is_in symbols <$> b))). pose proof (mask_of_nonneg 1 ltac:(lia) (is_in symbols <$> b)).
  replace (Z.pred (- mask_of 1 (is_in symbols <$> b))) with (mask_of 1 (negb <$> (is_in symbols <$> b)) + (-1) * 2 ^ 16) by lia.
  rewrite Z_mod_plus_full. apply Z.mod_small. lia.
Qed.

Lemma neon_bitmask_pairs q n : forall b : bytes, length b = (2 * n)%nat -> neon_to_bitmask (lanes q b) = mask_of 4 (q <$> b).
Proof.
  induction n as [|n IH]; intros b Hb; [by destruct b|]. destruct b as [|lo [|hi b]]; cbn in Hb; try lia.
  change (lanes q (lo :: hi :: b)) with ((if q lo then 255 else 0) :: (if q hi then 255 else 0) :: lanes q b).
  cbn [neon_to_bitmask fmap list_fmap]. rewrite !mask_of_cons, IH by lia. change (list_fmap _ _ q b) with (q <$> b).
  destruct (q lo), (q hi); match goal with |- context [wrap 8 ?x] => let y := eval vm_compute in (wrap 8 x) in change (wrap 8 x) with y end; lia.
Qed.

Lemma neon_mask_lanes positive symbols b : length b = 16%nat ->
  neon_mask positive (lanes (is_in symbols) b) = mask_of 4 ((fun c => maybe_negate positive (is_in symbols c)) <$> b).
Proof.
  intros Hb. rewrite <- (neon_bitmask_pairs _ 8) by done. unfold neon_mask, maybe_negate. f_equal. destruct positive.
  - apply lanes_ext. intros c. by destruct (is_in symbols c).
  - unfold vmvnq_u8, lanes. rewrite <- list_fmap_compose. apply list_fmap_ext. intros _ c _. cbn. by destruct (is_in symbols c).
Qed.

(** ** The searches *)
Lemma scan_app p l1 l2 : scan p (l1 ++ l2) = match scan p l1 with Some i => Some i | None => Nat.add (length l1) <$> scan p l2 end.
Proof.
  induction l1 as [|c l1 IH]; cbn [app scan length]; [by destruct (scan p l2)|]. destruct (p c); [done|]. rewrite IH.
  destruct (scan p l1); [done|]. by destruct (scan p l2).
Qed.

Lemma scan_lt p l i : scan p l = Some i -> (i < length l)%nat.
Proof.
  revert i. induction l as [|x l IH]; intros i; [done|]. cbn. destruct (p x); [intros [= <-]; lia|]. destruct (scan p l); [|done].
  intros [= <-]. specialize (IH _ eq_refl). lia.
Qed.

(** The blocks of a search see what a scan sees. *)
Lemma first_blocks_scan block p :
  (forall b, length b = 16%nat -> block b = scan p b) ->
  forall fuel pos rest, (length rest < fuel)%nat -> first_blocks block p fuel pos rest = Nat.add pos <$> scan p rest.
Proof.
  intros Hblock. induction fuel as [|fuel IH]; intros pos rest Hf; [lia|]. cbn [first_blocks].
  destruct (Nat.leb_spec 16 (length rest)); [|done]. rewrite Hblock by (rewrite length_take; lia).
  replace (scan p rest) with (scan p (take 16 rest ++ drop 16 rest)) by (by rewrite take_drop). rewrite scan_app. destruct (scan p (take 16 rest)) as [i|]; [done|].
  rewrite IH by (rewrite length_drop; lia). rewrite length_take_le by lia. destruct (scan p (drop 16 rest)); [|done]. cbn. f_equal. lia.
Qed.

Lemma last_true_app bs1 bs2 : last_true (bs1 ++ bs2) = match last_true bs2 with Some i => Some (length bs1 + i)%nat | None => last_true bs1 end.
Proof.
  induction bs1 as [|b bs1 IH]; cbn [app last_true length]; [by destruct (last_true bs2)|]. rewrite IH. by destruct (last_true bs2).
Qed.

Lemma scan_down_last p l n : (n <= length l)%nat -> scan_down p l n = last_true (p <$> take n l).
Proof.
  induction n as [|n IH]; intros Hn; [done|]. cbn [scan_down]. destruct (lookup_lt_is_Some_2 l n ltac:(lia)) as [c Hc].
  rewrite Hc, (take_S_r _ _ c) by done. rewrite fmap_app, last_true_app. cbn. rewrite IH by lia. rewrite length_fmap, length_take_le by lia.
  destruct (p c); [f_equal; lia|done].
Qed.

Lemma last_blocks_last block p l :
  (forall b, length b = 16%nat -> block b = last_true (p <$> b)) ->
  forall fuel pos, (pos < fuel)%nat -> (pos <= length l)%nat -> last_blocks block p l fuel pos = last_true (p <$> take pos l).
Proof.
  intros Hblock. induction fuel as [|fuel IH]; intros pos Hf Hl; [lia|]. cbn [last_blocks].
  destruct (Nat.leb_spec 16 pos); [|by apply scan_down_last]. rewrite Hblock by (rewrite length_take, length_drop; lia).
  assert (take pos l = take (pos - 16) l ++ take 16 (drop (pos - 16) l)) as -> by (rewrite take_take_drop; f_equal; lia).
  rewrite fmap_app, last_true_app. destruct (last_true (p <$> take 16 _)); [|by apply IH; lia]. rewrite length_fmap, length_take_le by lia. done.
Qed.

Lemma scan_rev_last p l : (match scan p (rev l) with Some i => Some (length l - 1 - i)%nat | None => None end) = last_true (p <$> l).
Proof.
  induction l as [|c l IH]; [done|]. cbn [rev fmap list_fmap last_true length]. rewrite scan_app. change (list_fmap _ _ p l) with (p <$> l). rewrite <- IH, length_rev.
  destruct (scan p (rev l)) as [i|] eqn:E.
  - f_equal. apply scan_lt in E. rewrite length_rev in E. lia.
  - cbn. destruct (p c); [|done]. cbn. f_equal. lia.
Qed.

Section search.
  Context (positive : bool) (symbols : bytes).
Let p : Z -> bool := fun c => maybe_negate positive (is_in symbols c).

Lemma first_of_mask_scan b : first_of_mask (mask_of 1 (p <$> b)) = scan p b.
Proof using Type.
  rewrite scan_first. pose proof (mask_of_first 1 ltac:(lia) 32 (p <$> b)) as H. unfold first_of_mask.
  destruct (first_true (p <$> b)) as [i|]; [destruct H as [Hp ->]|by rewrite H]. destruct (Z.eqb_spec (mask_of 1 (p <$> b)) 0); [lia|]. f_equal. lia.
Qed.

Lemma neon_first_scan b : neon_first (mask_of 4 (p <$> b)) = scan p b.
Proof using Type.
  rewrite scan_first. pose proof (mask_of_first 4 ltac:(lia) 64 (p <$> b)) as H. unfold neon_first.
  destruct (first_true (p <$> b)) as [i|]; [destruct H as [Hp ->]|by rewrite H]. destruct (Z.eqb_spec (mask_of 4 (p <$> b)) 0); [lia|].
  f_equal. rewrite Z.shiftr_div_pow2 by lia. change (2 ^ 2) with 4. rewrite Z.mul_comm, Z.div_mul by lia. lia.
Qed.

Lemma last_of_mask_last b : last_of_mask (mask_of 1 (p <$> b)) = last_true (p <$> b).
Proof using Type.
  pose proof (mask_of_last 1 ltac:(lia) (p <$> b)) as H. unfold last_of_mask, getLeadingZeroBits.
  destruct (last_true (p <$> b)) as [i|]; [destruct H as [Hp ->]|by rewrite H]. destruct (Z.eqb_spec (mask_of 1 (p <$> b)) 0); [lia|]. f_equal. lia.
Qed.

Lemma neon_last_last b : neon_last (mask_of 4 (p <$> b)) = last_true (p <$> b).
Proof using Type.
  pose proof (mask_of_last 4 ltac:(lia) (p <$> b)) as H. unfold neon_last, getLeadingZeroBits.
  destruct (last_true (p <$> b)) as [i|]; [destruct H as [Hp ->]|by rewrite H]. destruct (Z.eqb_spec (mask_of 4 (p <$> b)) 0); [lia|].
  f_equal. rewrite Z.shiftr_div_pow2 by lia. change (2 ^ 2) with 4. replace (64 - 1 - (4 * Z.of_nat i + (4 - 1))) with ((15 - Z.of_nat i) * 4) by lia.
  rewrite Z.div_mul by lia. lia.
Qed.

Lemma sse42_block b : length b = 16%nat ->
  (if mm_cmpestrc (symbols ++ replicate (16 - length symbols) 0) (length symbols) b (negb positive)
   then Some (mm_cmpestri (symbols ++ replicate (16 - length symbols) 0) (length symbols) b (negb positive)) else None) = scan p b.
Proof using Type.
  intros _. unfold mm_cmpestrc, mm_cmpestri. rewrite take_app_length.
  assert (forall c, xorb (negb positive) (is_in symbols c) = p c) as E by (intros c; subst p; unfold maybe_negate; by destruct positive, (is_in symbols c)).
  induction b as [|c b IH]; [done|]. cbn [existsb scan]. rewrite E. destruct (p c); [done|]. cbn [orb]. rewrite <- IH.
  destruct (existsb _ b) eqn:Eb; [|done]. cbn. destruct (scan _ b) eqn:Es; [done|]. exfalso.
  clear -Es Eb. induction b as [|x b IHb]; [done|]. cbn in Es, Eb. destruct (xorb _ _); [done|]. cbn in Eb. destruct (scan _ b); [done|]. auto.
Qed.

Lemma first_sse2_exact l : length symbols <> 0%nat ->
  find_first_symbols_sse2 positive symbols l = scan p l /\ find_first_symbols_sse2_rt positive symbols l = scan p l.
Proof using Type.
  intros Hs. assert (symbols <> []) by (by intros ->). unfold find_first_symbols_sse2, find_first_symbols_sse2_rt.
  split; (rewrite first_blocks_scan; [by destruct (scan _ l)| |lia]); intros b Hb; unfold sse2_mask, sse2_mask_rt.
  - by rewrite mm_is_in_lanes, movemask_lanes, negate_mask, first_of_mask_scan.
  - by rewrite execute_lanes, movemask_lanes, negate_mask, first_of_mask_scan.
Qed.

Lemma last_sse2_exact l : length symbols <> 0%nat ->
  find_last_symbols_sse2 positive symbols l = last_true (p <$> l) /\ find_last_symbols_sse2_rt positive symbols l = last_true (p <$> l).
Proof using Type.
  intros Hs. assert (symbols <> []) by (by intros ->). unfold find_last_symbols_sse2, find_last_symbols_sse2_rt.
  split; (rewrite last_blocks_last; [by rewrite firstn_all| |lia|lia]); intros b Hb; unfold sse2_mask, sse2_mask_rt.
  - by rewrite mm_is_in_lanes, movemask_lanes, negate_mask, last_of_mask_last.
  - by rewrite execute_lanes, movemask_lanes, negate_mask, last_of_mask_last.
Qed.

Lemma first_sse42_exact l : find_first_symbols_sse42 positive symbols l = scan p l.
Proof using Type.
  unfold find_first_symbols_sse42. rewrite first_blocks_scan; [by destruct (scan _ l)|apply sse42_block|lia].
Qed.

Lemma neon_eq_lanes b : length b = 16%nat -> neon_is_in symbols b = lanes (is_in symbols) b /\ neon_is_in_rt symbols b = lanes (is_in symbols) b.
Proof using Type. intros Hb. split; [by apply neon_is_in_lanes|by apply or_fold_is_in]. Qed.

Lemma neon_long_first_exact eq l : (forall b, length b = 16%nat -> eq symbols b = lanes (is_in symbols) b) ->
  neon_long_first eq positive symbols l = scan p l.
Proof using Type.
  intros Heq. unfold neon_long_first. fold p. rewrite first_blocks_scan; [|intros b Hb; by rewrite Heq, neon_mask_lanes, neon_first_scan|rewrite length_drop; lia].
  replace (scan p l) with (scan p (take 8 l ++ drop 8 l)) by (by rewrite take_drop). rewrite scan_app. destruct (scan p (take 8 l)) eqn:E; [done|].
  destruct (decide (8 <= length l)%nat); [by rewrite length_take_le|]. by rewrite drop_ge by lia.
Qed.

Lemma neon_long_last_exact eq l : (forall b, length b = 16%nat -> eq symbols b = lanes (is_in symbols) b) -> (8 <= length l)%nat ->
  neon_long_last eq positive symbols l = last_true (p <$> l).
Proof using Type.
  intros Heq Hl. unfold neon_long_last. fold p. rewrite last_blocks_last; [|intros b Hb; by rewrite Heq, neon_mask_lanes, neon_last_last|lia|lia].
  replace (p <$> l) with (p <$> take (length l - 8) l ++ drop (length l - 8) l) by (by rewrite take_drop).
  rewrite fmap_app, last_true_app, <- (scan_rev_last p (drop (length l - 8) l)), length_drop, length_fmap, length_take_le by lia.
  destruct (scan p (rev (drop (length l - 8) l))) as [i|] eqn:E; [|done]. f_equal.
  apply scan_lt in E. rewrite length_rev, length_drop in E. lia.
Qed.
End search.

(** All targets find the same byte, the first one that is wanted. *)
Lemma find_first_dispatch_exact target positive symbols l : symbols <> [] ->
  find_first_symbols_dispatch target positive symbols l = scan (fun c => maybe_negate positive (is_in symbols c)) l /\
  find_first_symbols_dispatch_rt target positive symbols l = scan (fun c => maybe_negate positive (is_in symbols c)) l.
Proof.
  intros Hs. assert (length symbols <> 0%nat) as Hl by (by destruct symbols).
  pose proof (first_sse2_exact positive symbols l Hl) as [E1 E2]. pose proof (first_sse42_exact positive symbols l) as E3.
  pose proof (neon_long_first_exact positive symbols neon_is_in l (fun b Hb => proj1 (neon_eq_lanes symbols b Hb))) as E4.
  pose proof (neon_long_first_exact positive symbols neon_is_in_rt l (fun b Hb => proj2 (neon_eq_lanes symbols b Hb))) as E5.
  destruct symbols as [|s0 symbols]; [done|]. unfold find_first_symbols_dispatch, find_first_symbols_dispatch_rt. destruct target; [done|done| |].
  - destruct (Nat.leb 5 _); [by rewrite E3|done].
  - destruct (Nat.leb 16 _); [by split|done].
Qed.

Lemma find_last_dispatch_exact target positive symbols l : symbols <> [] ->
  find_last_symbols_dispatch target positive symbols l = last_true ((fun c => maybe_negate positive (is_in symbols c)) <$> l) /\
  find_last_symbols_dispatch_rt target positive symbols l = last_true ((fun c => maybe_negate positive (is_in symbols c)) <$> l).
Proof.
  intros Hs. assert (length symbols <> 0%nat) as Hl by (by destruct symbols).
  pose proof (last_sse2_exact positive symbols l Hl) as [E1 E2].
  pose proof (scan_down_last (fun c => maybe_negate positive (is_in symbols c)) l (length l) ltac:(lia)) as E3. rewrite firstn_all in E3.
  pose proof (neon_long_last_exact positive symbols neon_is_in l (fun b Hb => proj1 (neon_eq_lanes symbols b Hb))) as E4.
  pose proof (neon_long_last_exact positive symbols neon_is_in_rt l (fun b Hb => proj2 (neon_eq_lanes symbols b Hb))) as E5.
  destruct symbols as [|s0 symbols]; [done|]. unfold find_last_symbols_dispatch, find_last_symbols_dispatch_rt. destruct target; [done|done|done|].
  destruct (Nat.leb_spec 16 (length l)); [|done]. split; [apply E4|apply E5]; lia.
Qed.

Lemma scan_spec (p : Z -> bool) (l : bytes) :
  match scan p l with
  | Some i => (exists c, l !! i = Some c /\ p c = true) /\ forall j c, (j < i)%nat -> l !! j = Some c -> ~ p c = true
  | None => forall j c, l !! j = Some c -> ~ p c = true
  end.
Proof.
  induction l as [|x l IH]; [done|]. cbn [scan]. destruct (p x) eqn:Ex; [split; [by exists x|lia]|]. destruct (scan p l) as [i|]; cbn.
  - destruct IH as [Hc Hj]. split; [done|]. intros [|j] c Hlt; [intros [= <-]; congruence|]. intros Hl. apply (Hj j); [lia|done].
  - intros [|j] c; [intros [= <-]; congruence|]. apply IH.
Qed.

Lemma last_true_spec (p : Z -> bool) (l : bytes) :
  match last_true (p <$> l) with
  | Some i => (exists c, l !! i = Some c /\ p c = true) /\ forall j c, (i < j)%nat -> l !! j = Some c -> ~ p c = true
  | None => forall j c, l !! j = Some c -> ~ p c = true
  end.
Proof.
  induction l as [|x l IH]; [done|]. cbn [fmap list_fmap last_true]. change (list_fmap _ _ p l) with (p <$> l). destruct (last_true (p <$> l)) as [i|].
  - destruct IH as [Hc Hj]. split; [done|]. intros [|j] c Hlt; [lia|]. intros Hl. apply (Hj j); [lia|done].
  - destruct (p x) eqn:Ex.
    + split; [by exists x|]. intros [|j] c Hlt; [lia|]. apply IH.
    + intros [|j] c; [intros [= <-]; congruence|]. apply IH.
Qed.

(** The bytes before the place that [find_first_symbols] gives are none of
    the symbols, the byte there is one, unless it is the end. *)
Lemma find_first_symbols_split symbols l : symbols <> [] -> exists l1 l2,
  l = l1 ++ l2 /\ find_first_symbols symbols l = length l1 /\ Forall (fun c => is_in symbols c = false) l1 /\
  match l2 with [] => True | c :: _ => is_in symbols c = true end.
Proof.
  intros Hs. unfold find_first_symbols. destruct (find_first_dispatch_exact SSE2 true symbols l Hs) as [-> _]. clear Hs.
  induction l as [|c l (l1 & l2 & -> & E & Hf & H2)]; [by exists [], []|]. cbn [scan]. unfold maybe_negate at 1.
  destruct (is_in symbols c) eqn:Ec; cbn [eqb].
  - by exists [], (c :: l1 ++ l2).
  - exists (c :: l1), l2. split_and!; [done| |by constructor|done]. cbn [length].
    destruct (scan _ (l1 ++ l2)); cbn in *; by f_equal.
Qed.
