(* ===== verification/Lexer.v ===== *)
(** * The lexer

    [src/Parsers/Lexer.h] and [.cpp] with what they use of
    [src/Common/StringUtils.h] and [src/Common/UTF8Helpers.h]; the lazy stream of
    tokens and the check for unmatched parentheses of
    [src/Parsers/TokenIterator.h] and [.cpp].

    A pointer into the query is its distance from the beginning.  [load] reads a
    byte and is undefined outside of the query; [sees q pos p] is the test
    [pos < end && p( *pos )].  The bytes are unsigned, so ['\xE2'] is 0xE2. *)

From stdpp Require Import prelude.
From Stdlib Require Import ZArith Lia.
From S2P Require Import Prelude FindSymbols ReadHelpers.

(** ** Tokens *)
Inductive TokenType : Set :=
| Whitespace | Comment | BareWord | Number | StringLiteral | QuotedIdentifier
| OpeningRoundBracket | ClosingRoundBracket | OpeningSquareBracket | ClosingSquareBracket | OpeningCurlyBrace | ClosingCurlyBrace
| Comma | Semicolon | VerticalDelimiter | Dot | Asterisk | HereDoc | DollarSign | Plus | Minus | Slash | Percent | Arrow
| QuestionMark | Colon | Caret | DoubleColon | Equals | NotEquals | Less | Greater | LessOrEquals | GreaterOrEquals | Spaceship
| PipeMark | Concatenation | At | DoubleAt
| EndOfStream
| Error | ErrorMultilineCommentIsNotClosed | ErrorSingleQuoteIsNotClosed | ErrorDoubleQuoteIsNotClosed | ErrorBackQuoteIsNotClosed
| ErrorSingleExclamationMark | ErrorSinglePipeMark | ErrorWrongNumber | ErrorMaxQuerySizeExceeded.

#[export] Instance TokenType_eq_dec : EqDecision TokenType.
Proof. solve_decision. Defined.

Record Token := MakeToken { type : TokenType; token_begin : nat; token_end : nat }.

#[export] Instance Token_eq_dec : EqDecision Token.
Proof. solve_decision. Defined.

(** [type > TokenType::EndOfStream]. *)
Definition type_is_error (t : TokenType) : bool :=
  match t with
  | Error | ErrorMultilineCommentIsNotClosed | ErrorSingleQuoteIsNotClosed | ErrorDoubleQuoteIsNotClosed | ErrorBackQuoteIsNotClosed
  | ErrorSingleExclamationMark | ErrorSinglePipeMark | ErrorWrongNumber | ErrorMaxQuerySizeExceeded => true
  | _ => false
  end.

Definition isSignificant (t : Token) : bool := match type t with Whitespace | Comment => false | _ => true end.
Definition isError (t : Token) : bool := type_is_error (type t).
Definition isEnd (t : Token) : bool := bool_decide (type t = EndOfStream).
Definition size (t : Token) : nat := token_end t - token_begin t.

(** ** Reading the query *)
Definition load (q : bytes) (i : nat) : outcome Z := match q !! i with Some c => Ok c | None => Undef end.
Definition sees (q : bytes) (i : nat) (p : Z -> bool) : bool := match q !! i with Some c => p c | None => false end.

(** [while (pos < end && p( *pos )) ++pos;] *)
Fixpoint run_length (p : Z -> bool) (l : bytes) : nat :=
  match l with
  | c :: l => if p c then S (run_length p l) else O
  | [] => O
  end.
Definition skip_while (p : Z -> bool) (q : bytes) (pos : nat) : nat := pos + run_length p (drop pos q).

(** [find_first_symbols<symbols>(pos, end)], [find_first_not_symbols<symbols>(pos, end)]. *)
Definition find (symbols q : bytes) (pos : nat) : nat := pos + find_first_symbols symbols (drop pos q).
Definition find_first_not_symbols (symbols haystack : bytes) : nat :=
  default (length haystack) (find_first_symbols_dispatch SSE2 false symbols haystack).

Definition find_not (symbols q : bytes) (pos : nat) : nat := pos + find_first_not_symbols symbols (drop pos q).

Definition isHexDigit (c : Z) : bool := isNumericASCII c || ((97 <=? c) && (c <=? 102)) || ((65 <=? c) && (c <=? 70)).
Definition isWordCharASCII (c : Z) : bool := isAlphaNumericASCII c || (c =? 95).
Definition isWhitespaceASCII (c : Z) : bool := (c =? 32) || (c =? 9) || (c =? 10) || (c =? 13) || (c =? 12) || (c =? 11).
Definition isContinuationOctet (octet : Z) : bool := Z.land octet 192 =? 128.

(** [isNumberSeparator] of the bytes from [pos] on. *)
Definition isNumberSeparator (is_start_of_block is_hex : bool) (l : bytes) : bool :=
  match l with
  | [] => false
  | c :: l =>
    if negb (c =? 95) then false
    else if is_start_of_block then false
    else match l with
      | d :: _ => if is_hex then isHexDigit d else isNumericASCII d
      | [] => false
      end
  end.

(** [skipWhitespacesUTF8]: how many of the bytes from [pos] on. *)
Fixpoint whitespaces (l : bytes) : nat :=
  match l with
  | [] => O
  | c0 :: l1 =>
    if isWhitespaceASCII c0 then S (whitespaces l1)
    else match l1 with
      | [] => O
      | c1 :: l2 =>
        if (c0 =? 0xC2) && ((c1 =? 0x85) || (c1 =? 0xA0)) then S (S (whitespaces l2))
        else match l2 with
          | [] => O
          | c2 :: l3 =>
            if ((c0 =? 0xE1) && (c1 =? 0xA0) && (c2 =? 0x8E))
              || ((c0 =? 0xE2)
                  && (((c1 =? 0x80)
                       && (((0x80 <=? c2) && (c2 <=? 0x8A)) || ((0xA8 <=? c2) && (c2 <=? 0xA9)) || ((0x8B <=? c2) && (c2 <=? 0x8D)) || (c2 =? 0xAF)))
                      || ((c1 =? 0x81) && ((c2 =? 0x9F) || (c2 =? 0xA0)))))
              || ((c0 =? 0xE3) && (c1 =? 0x80) && (c2 =? 0x80))
              || ((c0 =? 0xEF) && (c1 =? 0xBB) && (c2 =? 0xBF))
            then S (S (S (whitespaces l3)))
            else O
          end
      end
  end.
Definition skipWhitespacesUTF8 (q : bytes) (pos : nat) : nat := pos + whitespaces (drop pos q).

(** The place where [needle] first begins in [haystack], [std::string_view::find]. *)
Fixpoint find_sub (needle haystack : bytes) : option nat :=
  if bool_decide (take (length needle) haystack = needle) then Some O
  else match haystack with
    | [] => None
    | _ :: haystack => S <$> find_sub needle haystack
    end.

(** ** Strings in quotes

    The loops return whether the string is closed, and [pos]. *)
Fixpoint quoted_loop (fuel : nat) (quote : Z) (q : bytes) (pos : nat) : outcome (bool * nat) :=
  match fuel with
  | O => Undef
  | S fuel =>
    let pos := find [quote; 92] q pos in
    if (length q <=? pos)%nat then Ok (false, pos)
    else
      c ← load q pos;
      if c =? quote then
        let pos := S pos in
        if sees q pos (fun c => c =? quote) then quoted_loop fuel quote q (S pos) else Ok (true, pos)
      else if c =? 92 then
        let pos := S pos in
        if (length q <=? pos)%nat then Ok (false, pos) else quoted_loop fuel quote q (S pos)
      else Undef
  end.

Definition quotedString (quote : Z) (q : bytes) (begin pos : nat) (success_token error_token : TokenType) : outcome (Token * nat) :=
  '(closed, pos) ← quoted_loop (S (length q)) quote q (S pos);
  Ok (if closed : bool then MakeToken success_token begin pos else MakeToken error_token begin (length q), pos).

Fixpoint unicode_loop (fuel : nat) (expected_end_byte : Z) (q : bytes) (pos : nat) : outcome (bool * nat) :=
  match fuel with
  | O => Undef
  | S fuel =>
    let pos := find [0xE2] q pos in
    if (length q <=? pos + 2)%nat then Ok (false, pos)
    else
      c0 ← load q pos; c1 ← load q (pos + 1); c2 ← load q (pos + 2);
      if (c0 =? 0xE2) && (c1 =? 0x80) && (c2 =? expected_end_byte) then Ok (true, (pos + 3)%nat)
      else unicode_loop fuel expected_end_byte q (S pos)
  end.

Definition quotedStringWithUnicodeQuotes (expected_end_byte : Z) (q : bytes) (begin pos : nat) (success_token error_token : TokenType) : outcome (Token * nat) :=
  '(closed, pos) ← unicode_loop (S (length q)) expected_end_byte q pos;
  Ok (if closed : bool then MakeToken success_token begin pos else MakeToken error_token begin (length q), pos).

Definition quotedHexOrBinString (q : bytes) (begin pos : nat) : outcome (Token * nat) :=
  c ← load q pos;
  let hex := (c =? 120) || (c =? 88) in
  let pos := (pos + 2)%nat in
  let pos := if hex then skip_while isHexDigit q pos else find_not [48; 49] q pos in
  if negb (sees q pos (fun c => c =? 39)) then Ok (MakeToken ErrorSingleQuoteIsNotClosed begin (length q), length q)
  else Ok (MakeToken StringLiteral begin (S pos), S pos).

(** ** Numbers *)

(** The digits and separators from [pos] on. *)
Fixpoint digits (hex start_of_block : bool) (l : bytes) : nat :=
  match l with
  | c :: l' =>
    if (if hex then isHexDigit c else isNumericASCII c) || isNumberSeparator start_of_block hex l then S (digits hex false l') else O
  | [] => O
  end.
Definition skip_digits (hex start_of_block : bool) (q : bytes) (pos : nat) : nat := pos + digits hex start_of_block (drop pos q).

(** The first digit, or the prefix of a number in base 16 or 2: [pos], [start_of_block] and [hex]. *)
Definition number_prefix (q : bytes) (pos : nat) : outcome (nat * bool * bool) :=
  if (pos + 2 <? length q)%nat then
    c0 ← load q pos; c1 ← load q (pos + 1); c2 ← load q (pos + 2);
    if (c0 =? 48) && ((c1 =? 120) || (c1 =? 98) || (c1 =? 88) || (c1 =? 66)) then
      let x := (c1 =? 120) || (c1 =? 88) in
      let hex := x && isHexDigit c2 in
      let is_valid := if x then isHexDigit c2 else (c2 =? 48) || (c2 =? 49) in
      if is_valid then Ok ((pos + 2)%nat, true, hex) else Ok (S pos, false, hex)
    else Ok (S pos, false, false)
  else Ok (S pos, false, false).

Definition exponent (hex : bool) (q : bytes) (pos : nat) : nat :=
  if (pos + 1 <? length q)%nat && sees q pos (fun c => if hex then (c =? 112) || (c =? 80) else (c =? 101) || (c =? 69)) then
    let pos := S pos in
    let pos := if (pos + 1 <? length q)%nat && sees q pos (fun c => (c =? 45) || (c =? 43)) then S pos else pos in
    skip_digits false true q pos
  else pos.

Definition number_end (prev : TokenType) (q : bytes) (pos : nat) : outcome nat :=
  if bool_decide (prev = Dot) then Ok (skip_digits false false q (S pos))
  else
    '(pos, start_of_block, hex) ← number_prefix q pos;
    let pos := skip_digits hex start_of_block q pos in
    let pos := if sees q pos (fun c => c =? 46) then skip_digits hex true q (S pos) else pos in
    Ok (exponent hex q pos).

Definition number (prev : TokenType) (q : bytes) (pos : nat) : outcome (Token * nat) :=
  let begin := pos in
  pos ← number_end prev q pos;
  if sees q pos isWordCharASCII then
    let pos := skip_while isWordCharASCII q (S pos) in
    if forallb (fun c => isWordCharASCII c || (c =? 36)) (take (pos - begin) (drop begin q))
    then Ok (MakeToken BareWord begin pos, pos) else Ok (MakeToken ErrorWrongNumber begin pos, pos)
  else Ok (MakeToken Number begin pos, pos).

(** A dot: before a name or an index it is a token, else it begins a number. *)
Definition dot (prev : TokenType) (q : bytes) (pos : nat) : outcome (Token * nat) :=
  if (0 <? pos)%nat
    && (negb (sees q (S pos) isNumericASCII)
        || bool_decide (prev ∈ [ClosingRoundBracket; ClosingSquareBracket; BareWord; QuotedIdentifier; Number]))
  then Ok (MakeToken Dot pos (S pos), S pos)
  else
    let e := exponent false q (skip_digits false true q (S pos)) in
    Ok (MakeToken Number pos e, e).

(** ** Comments *)
Definition comment_until_end_of_line (q : bytes) (begin pos : nat) : outcome (Token * nat) :=
  let pos := find [10] q pos in Ok (MakeToken Comment begin pos, pos).

Fixpoint comment_loop (fuel : nat) (q : bytes) (nesting_level pos : nat) : outcome (bool * nat) :=
  match fuel with
  | O => Undef
  | S fuel =>
    if (pos + 2 <=? length q)%nat then
      c0 ← load q pos; c1 ← load q (pos + 1);
      if (c0 =? 47) && (c1 =? 42) then comment_loop fuel q (S nesting_level) (pos + 2)
      else if (c0 =? 42) && (c1 =? 47) then
        if (nesting_level - 1 =? 0)%nat then Ok (true, (pos + 2)%nat) else comment_loop fuel q (nesting_level - 1) (pos + 2)
      else comment_loop fuel q nesting_level (S pos)
    else Ok (false, length q)
  end.

Definition slash (q : bytes) (begin pos : nat) : outcome (Token * nat) :=
  let pos := S pos in
  if sees q pos (fun c => c =? 47) then comment_until_end_of_line q begin (S pos)
  else if sees q pos (fun c => c =? 42) then
    '(closed, pos) ← comment_loop (S (length q)) q 1 (S pos);
    Ok (MakeToken (if closed : bool then Comment else ErrorMultilineCommentIsNotClosed) begin pos, pos)
  else Ok (MakeToken Slash begin pos, pos).

(** ** Words *)

(** A dollar sign as the beginning of a heredoc or on its own. *)
Definition heredoc (q : bytes) (pos : nat) : outcome (option (Token * nat)) :=
  let tag_end := find [36] q (pos + 1) in
  let heredoc_size := (tag_end + 1 - pos)%nat in
  let found := if negb (tag_end =? length q)%nat && forallb isWordCharASCII (take (tag_end - (pos + 1)) (drop (pos + 1) q))
    then find_sub (take heredoc_size (drop pos q)) (drop (tag_end + 1) q) else None in
  match found with
  | Some heredoc_end_position =>
    let e := (tag_end + 1 + heredoc_end_position + heredoc_size)%nat in Ok (Some (MakeToken HereDoc pos e, e))
  | None =>
    if negb (sees q (pos + 1) isWordCharASCII) then Ok (Some (MakeToken DollarSign pos (S pos), S pos)) else Ok None
  end.

(** What is not decided by the first byte. *)
Definition word (c : Z) (q : bytes) (pos : nat) : outcome (Token * nat) :=
  dollar ← if c =? 36 then heredoc q pos else Ok None;
  match dollar with
  | Some r => Ok r
  | None =>
    if (pos + 2 <? length q)%nat && sees q (pos + 1) (fun c => c =? 39) && ((c =? 120) || (c =? 98) || (c =? 88) || (c =? 66))
    then quotedHexOrBinString q pos pos
    else if isWordCharASCII c || (c =? 36) then
      let e := skip_while (fun c => isWordCharASCII c || (c =? 36)) q (S pos) in Ok (MakeToken BareWord pos e, e)
    else
      let e := skipWhitespacesUTF8 q pos in
      if (pos <? e)%nat then Ok (MakeToken Whitespace pos e, e)
      else let e := skip_while isContinuationOctet q (S pos) in Ok (MakeToken Error pos e, e)
  end.

(** The byte 0xE2: a minus sign or a quote in UTF-8, else like any other. *)
Definition unicode (q : bytes) (pos : nat) : outcome (Token * nat) :=
  minus ← if (pos + 3 <=? length q)%nat then c1 ← load q (pos + 1); c2 ← load q (pos + 2); Ok ((c1 =? 0x88) && (c2 =? 0x92)) else Ok false;
  if minus : bool then Ok (MakeToken Minus pos (pos + 3), (pos + 3)%nat)
  else
    quote ← if (pos + 5 <? length q)%nat then
        c1 ← load q (pos + 1); c2 ← load q (pos + 2);
        Ok (if (c1 =? 0x80) && ((c2 =? 0x98) || (c2 =? 0x9C)) then Some c2 else None)
      else Ok None;
    match quote with
    | Some c2 =>
      quotedStringWithUnicodeQuotes (c2 + 1) q pos (pos + 3) (if c2 =? 0x98 then StringLiteral else QuotedIdentifier)
        (if c2 =? 0x98 then ErrorSingleQuoteIsNotClosed else ErrorDoubleQuoteIsNotClosed)
    | None => word 0xE2 q pos
    end.

(** ** The lexer *)

(** The tokens of one byte. *)
Definition one_byte (c : Z) : option TokenType :=
  if c =? 40 then Some OpeningRoundBracket
  else if c =? 41 then Some ClosingRoundBracket
  else if c =? 91 then Some OpeningSquareBracket
  else if c =? 93 then Some ClosingSquareBracket
  else if c =? 123 then Some OpeningCurlyBrace
  else if c =? 125 then Some ClosingCurlyBrace
  else if c =? 44 then Some Comma
  else if c =? 59 then Some Semicolon
  else if c =? 43 then Some Plus
  else if c =? 42 then Some Asterisk
  else if c =? 37 then Some Percent
  else if c =? 63 then Some QuestionMark
  else if c =? 94 then Some Caret
  else None.

(** The bytes that make a token alone, or another one with the byte [second]. *)
Definition two_bytes (c : Z) : option (Z * TokenType * TokenType) :=
  if c =? 61 then Some (61, Equals, Equals)
  else if c =? 33 then Some (61, NotEquals, ErrorSingleExclamationMark)
  else if c =? 62 then Some (61, GreaterOrEquals, Greater)
  else if c =? 58 then Some (58, DoubleColon, Colon)
  else if c =? 124 then Some (124, Concatenation, PipeMark)
  else if c =? 64 then Some (64, DoubleAt, At)
  else if c =? 92 then Some (71, VerticalDelimiter, Error)
  else None.

Definition minus (q : bytes) (pos : nat) : outcome (Token * nat) :=
  if sees q (S pos) (fun c => c =? 62) then Ok (MakeToken Arrow pos (pos + 2), (pos + 2)%nat)
  else if sees q (S pos) (fun c => c =? 45) then comment_until_end_of_line q pos (pos + 2)
  else Ok (MakeToken Minus pos (S pos), S pos).

Definition less (q : bytes) (pos : nat) : outcome (Token * nat) :=
  if sees q (pos + 1) (fun c => c =? 61) && sees q (pos + 2) (fun c => c =? 62) then Ok (MakeToken Spaceship pos (pos + 3), (pos + 3)%nat)
  else if sees q (pos + 1) (fun c => c =? 61) then Ok (MakeToken LessOrEquals pos (pos + 2), (pos + 2)%nat)
  else if sees q (pos + 1) (fun c => c =? 62) then Ok (MakeToken NotEquals pos (pos + 2), (pos + 2)%nat)
  else Ok (MakeToken Less pos (S pos), S pos).

Definition nextTokenImpl (prev_significant_token_type : TokenType) (q : bytes) (pos : nat) : outcome (Token * nat) :=
  if (length q <=? pos)%nat then Ok (MakeToken EndOfStream (length q) (length q), pos)
  else
    c ← load q pos;
    if isWhitespaceASCII c then let e := skip_while isWhitespaceASCII q (S pos) in Ok (MakeToken Whitespace pos e, e)
    else if isNumericASCII c then number prev_significant_token_type q pos
    else if c =? 39 then quotedString 39 q pos pos StringLiteral ErrorSingleQuoteIsNotClosed
    else if c =? 34 then quotedString 34 q pos pos QuotedIdentifier ErrorDoubleQuoteIsNotClosed
    else if c =? 96 then quotedString 96 q pos pos QuotedIdentifier ErrorBackQuoteIsNotClosed
    else match one_byte c with
    | Some t => Ok (MakeToken t pos (S pos), S pos)
    | None =>
      match two_bytes c with
      | Some (second, t2, t1) =>
        if sees q (S pos) (fun c => c =? second) then Ok (MakeToken t2 pos (pos + 2), (pos + 2)%nat) else Ok (MakeToken t1 pos (S pos), S pos)
      | None =>
        if c =? 46 then dot prev_significant_token_type q pos
        else if c =? 45 then minus q pos
        else if c =? 47 then slash q pos pos
        else if c =? 35 then
          if sees q (S pos) (fun c => (c =? 32) || (c =? 33)) then comment_until_end_of_line q pos (S pos)
          else Ok (MakeToken Error pos (S pos), S pos)
        else if c =? 60 then less q pos
        else if c =? 0xE2 then unicode q pos
        else word c q pos
      end
    end.

Record Lexer := MakeLexer {
  query : bytes;
  lexer_pos : nat;
  max_query_size : Z;
  prev_significant_token_type : TokenType }.

Definition max_query_size_limit : Z := 1000000000.

Definition new_lexer (query : bytes) (max_query_size_ : Z) : Lexer :=
  MakeLexer query 0 (if max_query_size_ <=? max_query_size_limit then max_query_size_ else max_query_size_limit) Whitespace.

Definition nextToken (l : Lexer) : outcome (Token * Lexer) :=
  '(res, pos) ← nextTokenImpl (prev_significant_token_type l) (query l) (lexer_pos l);
  let res := if negb (max_query_size l =? 0) && (max_query_size l <? Z.of_nat (token_end res))
    then MakeToken ErrorMaxQuerySizeExceeded (token_begin res) (token_end res) else res in
  Ok (res, MakeLexer (query l) pos (max_query_size l) (if isSignificant res then type res else prev_significant_token_type l)).

(** ** The stream of tokens *)
Module Tokens.

Record t := Make { data : list Token; max_pos : nat; lexer : Lexer; skip_insignificant : bool }.

Definition new (query : bytes) (max_query_size : Z) (skip_insignificant : bool) : t := Make [] 0 (new_lexer query max_query_size) skip_insignificant.

(** [!data.empty() && data.back().isEnd()], with the token. *)
Definition ended (s : t) : option Token :=
  match last (data s) with Some token => if isEnd token then Some token else None | None => None end.

(** [operator[]]: each call of the lexer takes one of [fuel]. *)
Fixpoint lookup (fuel : nat) (s : t) (index : nat) : outcome (Token * t) :=
  match data s !! index with
  | Some token => Ok (token, Make (data s) (max_pos s `max` index) (lexer s) (skip_insignificant s))
  | None =>
    match ended s with
    | Some token => Ok (token, Make (data s) (length (data s) - 1) (lexer s) (skip_insignificant s))
    | None =>
      match fuel with
      | O => Undef
      | S fuel =>
        '(token, l) ← nextToken (lexer s);
        lookup fuel (Make (if negb (skip_insignificant s) || isSignificant token then data s ++ [token] else data s) (max_pos s) l (skip_insignificant s)) index
      end
    end
  end.

(** Enough for any index: the bytes that are left, and the tokens behind the last byte. *)
Definition enough (s : t) (index : nat) : nat := length (query (lexer s)) + index + 1.

Definition get (s : t) (index : nat) : outcome (Token * t) := lookup (enough s index) s index.

Definition rightmost (s : t) : outcome (Token * t) :=
  match data s with
  | [] => get s 0
  | _ => match data s !! max_pos s with Some token => Ok (token, s) | None => Undef end
  end.

Definition reset (s : t) : t := Make (data s) 0 (lexer s) (skip_insignificant s).
End Tokens.

(** ** Unmatched parentheses *)

(** [TokenIterator::isValid]. *)
Definition isValid (t : Token) : bool := negb (isError t) && negb (isEnd t).

Definition is_opening (t : TokenType) : bool := match t with OpeningRoundBracket | OpeningSquareBracket => true | _ => false end.
Definition is_closing (t : TokenType) : bool := match t with ClosingRoundBracket | ClosingSquareBracket => true | _ => false end.
Definition match_brackets (opening closing : TokenType) : bool :=
  match opening, closing with
  | OpeningRoundBracket, ClosingRoundBracket | OpeningSquareBracket, ClosingSquareBracket => true
  | _, _ => false
  end.

(** The loop, with the stack upside down; the result is the stack from its bottom. *)
Fixpoint parentheses_loop (fuel : nat) (tokens : Tokens.t) (index : nat) (stack : list Token) : outcome (list Token * Tokens.t) :=
  match fuel with
  | O => Undef
  | S fuel =>
    '(it, tokens) ← Tokens.get tokens index;
    if negb (isValid it) then Ok (rev stack, tokens)
    else if is_opening (type it) then parentheses_loop fuel tokens (S index) (it :: stack)
    else if is_closing (type it) then
      match stack with
      | [] => Ok ([it], tokens)
      | top :: rest =>
        if match_brackets (type top) (type it) then parentheses_loop fuel tokens (S index) rest
        else Ok (rev (it :: stack), tokens)
      end
    else parentheses_loop fuel tokens (S index) stack
  end.

Definition checkUnmatchedParentheses (tokens : Tokens.t) (begin : nat) : outcome (list Token * Tokens.t) :=
  parentheses_loop (S (length (query (Tokens.lexer tokens)))) tokens begin [].
