(* ===== verification/LexerFacts.v ===== *)
(** * Facts about the lexer

    Every token takes at least one byte and ends inside the query ([scanned]);
    the tokens one call after another ([stream]); the lazy stream of [Tokens]
    holds a beginning of them; brackets. *)

From stdpp Require Import prelude.
From Stdlib Require Import ZArith Lia.
From S2P Require Import Prelude FindSymbols ReadHelpers Lexer.

(** ** Bounds of the searches *)
Lemma run_length_le p l : (run_length p l <= length l)%nat.
Proof. induction l as [|c l IH]; cbn; [lia|]. destruct (p c); lia. Qed.

Lemma digits_le hex start l : (digits hex start l <= length l)%nat.
Proof. revert start. induction l as [|c l IH]; intros start; cbn [digits length]; [lia|]. destruct (_ || _); [specialize (IH false)|]; lia. Qed.

Lemma whitespaces_le l : (whitespaces l <= length l)%nat.
Proof.
  induction l as [l IH] using (induction_ltof1 _ (@length Z)). unfold ltof in IH.
  destruct l as [|c0 l1]; cbn [whitespaces length]; [lia|]. destruct (isWhitespaceASCII c0); [specialize (IH l1); cbn [length] in IH; lia|].
  destruct l1 as [|c1 l2]; [lia|]. destruct (_ && _); [specialize (IH l2); cbn [length] in *; lia|].
  destruct l2 as [|c2 l3]; [lia|]. destruct (_ || _); [specialize (IH l3)|]; cbn [length] in *; lia.
Qed.

Lemma find_sub_bound needle haystack k : find_sub needle haystack = Some k -> (k + length needle <= length haystack)%nat.
Proof.
  revert k. induction haystack as [|c haystack IH]; intros k; cbn [find_sub]; case_bool_decide as E.
  - intros [= <-]. destruct needle; cbn in *; [lia|done].
  - done.
  - intros [= <-]. apply (f_equal length) in E. rewrite length_take in E. lia.
  - destruct (find_sub needle haystack) as [k'|]; [|done]. intros [= <-]. specialize (IH _ eq_refl). cbn [length]. lia.
Qed.

Section query.
Context (q : bytes).

Lemma skip_while_bound p pos : (pos <= length q)%nat -> (pos <= skip_while p q pos <= length q)%nat.
Proof. intros H. unfold skip_while. pose proof (run_length_le p (drop pos q)). rewrite length_drop in *. lia. Qed.

Lemma skip_digits_bound hex start pos : (pos <= length q)%nat -> (pos <= skip_digits hex start q pos <= length q)%nat.
Proof. intros H. unfold skip_digits. pose proof (digits_le hex start (drop pos q)). rewrite length_drop in *. lia. Qed.

Lemma skipWhitespacesUTF8_bound pos : (pos <= length q)%nat -> (pos <= skipWhitespacesUTF8 q pos <= length q)%nat.
Proof. intros H. unfold skipWhitespacesUTF8. pose proof (whitespaces_le (drop pos q)). rewrite length_drop in *. lia. Qed.

Lemma find_bound symbols pos : symbols <> [] -> (pos <= length q)%nat -> (pos <= find symbols q pos <= length q)%nat.
Proof.
  intros Hs H. unfold find. destruct (find_first_symbols_split symbols (drop pos q) Hs) as (l1 & l2 & E & -> & _).
  apply (f_equal length) in E. rewrite length_drop, length_app in E. lia.
Qed.

(** The byte at the place found is one of the symbols. *)
Lemma find_symbol symbols pos : symbols <> [] -> (pos <= length q)%nat -> (find symbols q pos < length q)%nat ->
  exists c, q !! find symbols q pos = Some c /\ is_in symbols c = true.
Proof.
  intros Hs H Hlt. unfold find in *. destruct (find_first_symbols_split symbols (drop pos q) Hs) as (l1 & l2 & E & EL & _ & H2).
  rewrite EL in *. rewrite <- lookup_drop, E, lookup_app_r by lia. rewrite Nat.sub_diag. destruct l2 as [|c l2]; [|by exists c].
  apply (f_equal length) in E. rewrite length_drop, length_app in E. cbn in E. lia.
Qed.

Lemma find_not_bound symbols pos : symbols <> [] -> (pos <= length q)%nat -> (pos <= find_not symbols q pos <= length q)%nat.
Proof.
  intros Hs H. unfold find_not, find_first_not_symbols. destruct (find_first_dispatch_exact SSE2 false symbols (drop pos q) Hs) as [-> _].
  destruct (scan _ _) as [i|] eqn:E; [apply scan_lt in E|]; cbn [default]; rewrite length_drop in *; unfold id; lia.
Qed.

Lemma load_in i : (i < length q)%nat -> exists c, q !! i = Some c /\ load q i = Ok c.
Proof. intros H. destruct (lookup_lt_is_Some_2 q i H) as [c E]. exists c. unfold load. by rewrite E. Qed.

Lemma sees_in i p : sees q i p = true -> (i < length q)%nat.
Proof. unfold sees. destruct (q !! i) as [c|] eqn:E; [|done]. intros _. by apply lookup_lt_Some in E. Qed.

(** ** One token *)

(** The outcome of a scan that began at [b]: a token of at least one byte, and
    [pos] behind it, or inside of it after an error. *)
Definition scanned (b : nat) (r : outcome (Token * nat)) : Prop :=
  exists t e p, r = Ok (MakeToken t b e, p) /\ (b < p <= e)%nat /\ (e <= length q)%nat /\ t <> EndOfStream /\ (type_is_error t = false -> p = e).

Lemma scanned_at b t e : (b < e <= length q)%nat -> t <> EndOfStream -> scanned b (Ok (MakeToken t b e, e)).
Proof. intros H Ht. exists t, e, e. split; [done|]. split_and!; [lia|lia|lia|done|done]. Qed.

Lemma quoted_loop_bound fuel quote pos : (pos <= length q)%nat -> (length q - pos < fuel)%nat ->
  exists closed p, quoted_loop fuel quote q pos = Ok (closed, p) /\ (pos <= p <= length q)%nat /\ (closed = false -> p = length q).
Proof.
  revert pos. induction fuel as [|fuel IH]; intros pos Hpos Hfuel; [lia|]. cbn [quoted_loop].
  assert (Hb := find_bound [quote; 92] pos ltac:(done) Hpos). destruct (Nat.leb_spec (length q) (find [quote; 92] q pos)) as [Hge|Hlt].
  { eexists false, _. split_and!; [done|lia|lia|lia]. }
  destruct (find_symbol [quote; 92] pos ltac:(done) Hpos Hlt) as (c & Hc & Hin). set (f := find [quote; 92] q pos) in *.
  unfold load. rewrite Hc. run. cbn [is_in] in Hin. destruct (Z.eqb_spec c quote) as [->|Hne].
  - destruct (sees q (S f) _) eqn:Es; [|eexists true, (S f); split_and!; [done|lia|lia|done]].
    apply sees_in in Es. destruct (IH (S (S f))) as (d & p & E & Hp & Hf); [lia|lia|]. exists d, p. split_and!; [done|lia|lia|done].
  - destruct (Z.eqb_spec c 92) as [->|]; [|lia].
    destruct (Nat.leb_spec (length q) (S f)); [eexists false, (S f); split_and!; [done|lia|lia|lia]|].
    destruct (IH (S (S f))) as (d & p & E & Hp & Hf); [lia|lia|]. exists d, p. split_and!; [done|lia|lia|done].
Qed.

Lemma quotedString_scanned quote b good bad : (b < length q)%nat -> good <> EndOfStream -> type_is_error bad = true ->
  scanned b (quotedString quote q b b good bad).
Proof.
  intros Hb Hg He. unfold quotedString. destruct (quoted_loop_bound (S (length q)) quote (S b)) as (closed & p & -> & Hp & Hf); [lia|lia|]. run.
  destruct closed; [apply scanned_at; [lia|done]|]. rewrite (Hf eq_refl). apply scanned_at; [lia|]. by intros ->.
Qed.

Lemma unicode_loop_bound fuel x pos : (pos <= length q)%nat -> (length q - pos < fuel)%nat ->
  exists closed p, unicode_loop fuel x q pos = Ok (closed, p) /\ (pos <= p <= length q)%nat.
Proof.
  revert pos. induction fuel as [|fuel IH]; intros pos Hpos Hfuel; [lia|]. cbn [unicode_loop].
  assert (Hb := find_bound [226] pos ltac:(done) Hpos). set (f := find [226] q pos) in *.
  destruct (Nat.leb_spec (length q) (f + 2)); [eexists false, f; split; [done|lia]|].
  destruct (load_in f) as (c0 & _ & ->); [lia|]. destruct (load_in (f + 1)) as (c1 & _ & ->); [lia|]. destruct (load_in (f + 2)) as (c2 & _ & ->); [lia|].
  run. destruct (_ && _); [eexists true, _; split; [done|lia]|].
  destruct (IH (S f)) as (d & p & E & Hp); [lia|lia|]. exists d, p. split; [done|lia].
Qed.

Lemma unicodeString_scanned x b good bad : (b + 3 <= length q)%nat -> good <> EndOfStream -> type_is_error bad = true ->
  scanned b (quotedStringWithUnicodeQuotes x q b (b + 3) good bad).
Proof.
  intros Hb Hg He. unfold quotedStringWithUnicodeQuotes. destruct (unicode_loop_bound (S (length q)) x (b + 3)) as (closed & p & -> & Hp); [lia|lia|]. run.
  destruct closed; [apply scanned_at; [lia|done]|]. exists bad, (length q), p. split_and!; [done|lia|lia|lia|by intros ->|congruence].
Qed.

Lemma hexString_scanned b : (b + 2 < length q)%nat -> scanned b (quotedHexOrBinString q b b).
Proof.
  intros Hb. unfold quotedHexOrBinString. destruct (load_in b) as (c & _ & ->); [lia|]. run.
  assert (Hs := skip_while_bound isHexDigit (b + 2) ltac:(lia)). assert (Hn := find_not_bound [48; 49] (b + 2) ltac:(done) ltac:(lia)).
  destruct (sees q _ _) eqn:E; cbn [negb]; [|by apply scanned_at; [lia|]].
  apply sees_in in E. apply scanned_at; [|done]. destruct (_ || _); lia.
Qed.

Lemma exponent_bound hex pos : (pos <= length q)%nat -> (pos <= exponent hex q pos <= length q)%nat.
Proof.
  intros H. unfold exponent. destruct (Nat.ltb_spec (pos + 1) (length q)); cbn [andb]; [|lia]. destruct (sees q pos _); [|lia].
  destruct (_ && _) eqn:E; [|by pose proof (skip_digits_bound false true (S pos)); lia].
  apply andb_true_iff in E as [E _]. apply Nat.ltb_lt in E. pose proof (skip_digits_bound false true (S (S pos))). lia.
Qed.

Lemma number_prefix_bound pos : (pos < length q)%nat ->
  exists p start hex, number_prefix q pos = Ok (p, start, hex) /\ (pos < p <= length q)%nat.
Proof.
  intros H. unfold number_prefix. destruct (Nat.ltb_spec (pos + 2) (length q)); [|by eexists _, _, _; split; [done|lia]].
  destruct (load_in pos) as (c0 & _ & ->); [lia|]. destruct (load_in (pos + 1)) as (c1 & _ & ->); [lia|]. destruct (load_in (pos + 2)) as (c2 & _ & ->); [lia|].
  run. destruct (_ && _); [|by eexists _, _, _; split; [done|lia]].
  match goal with |- context [if (if ?x then ?y else ?z) then _ else _] => destruct (if x then y else z) end; eexists _, _, _; (split; [done|lia]).
Qed.

Lemma number_end_bound prev pos : (pos < length q)%nat -> exists p, number_end prev q pos = Ok p /\ (pos < p <= length q)%nat.
Proof.
  intros H. unfold number_end. case_bool_decide.
  { eexists. split; [done|]. pose proof (skip_digits_bound false false (S pos)). lia. }
  destruct (number_prefix_bound pos H) as (p & start & hex & -> & Hp). run. eexists. split; [done|].
  assert (H1 := skip_digits_bound hex start p ltac:(lia)). set (p1 := skip_digits hex start q p) in *.
  destruct (sees q p1 _) eqn:Es.
  - apply sees_in in Es. assert (H2 := skip_digits_bound hex true (S p1) ltac:(lia)). pose proof (exponent_bound hex (skip_digits hex true q (S p1))). lia.
  - pose proof (exponent_bound hex p1). lia.
Qed.

Lemma number_scanned prev b : (b < length q)%nat -> scanned b (number prev q b).
Proof.
  intros H. unfold number. destruct (number_end_bound prev b H) as (p & -> & Hp). run.
  destruct (sees q p _) eqn:Es; [|by apply scanned_at; [lia|]].
  apply sees_in in Es. pose proof (skip_while_bound isWordCharASCII (S p)). destruct (forallb _ _); (apply scanned_at; [lia|done]).
Qed.

Lemma dot_scanned prev b : (b < length q)%nat -> scanned b (dot prev q b).
Proof.
  intros H. unfold dot. destruct (_ && _); [by apply scanned_at; [lia|]|]. pose proof (skip_digits_bound false true (S b)).
  pose proof (exponent_bound false (skip_digits false true q (S b))). apply scanned_at; [lia|done].
Qed.

Lemma comment_line_scanned b pos : (b < pos <= length q)%nat -> scanned b (comment_until_end_of_line q b pos).
Proof. intros H. unfold comment_until_end_of_line. pose proof (find_bound [10] pos ltac:(done)). apply scanned_at; [lia|done]. Qed.

Lemma comment_loop_bound fuel level pos : (pos <= length q)%nat -> (length q - pos < fuel)%nat ->
  exists closed p, comment_loop fuel q level pos = Ok (closed, p) /\ (pos <= p <= length q)%nat.
Proof.
  revert level pos. induction fuel as [|fuel IH]; intros level pos Hpos Hfuel; [lia|]. cbn [comment_loop].
  destruct (Nat.leb_spec (pos + 2) (length q)); [|by eexists _, _; split; [done|lia]].
  destruct (load_in pos) as (c0 & _ & ->); [lia|]. destruct (load_in (pos + 1)) as (c1 & _ & ->); [lia|]. run.
  destruct ((c0 =? 47) && _); [|destruct ((c0 =? 42) && _); [destruct (level - 1 =? 0)%nat|]]; try (by eexists _, _; split; [done|lia]).
  all: match goal with |- context [comment_loop _ q ?n ?p] => edestruct (IH n p) as (d & p' & -> & Hp); [lia..|eexists _, _; split; [done|lia]] end.
Qed.

Lemma slash_scanned b : (b < length q)%nat -> scanned b (slash q b b).
Proof.
  intros H. unfold slash. destruct (sees q (S b) (fun c => c =? 47)) eqn:E1; [apply sees_in in E1; apply comment_line_scanned; lia|].
  destruct (sees q (S b) (fun c => c =? 42)) eqn:E2; [|by apply scanned_at; [lia|]]. apply sees_in in E2.
  destruct (comment_loop_bound (S (length q)) 1 (S (S b))) as (d & p & -> & Hp); [lia|lia|]. run. apply scanned_at; [lia|by destruct d].
Qed.

Lemma heredoc_scanned b : (b < length q)%nat -> heredoc q b = Ok None \/ exists r, heredoc q b = Ok (Some r) /\ scanned b (Ok r).
Proof.
  intros H. unfold heredoc. assert (Hf := find_bound [36] (b + 1) ltac:(done) ltac:(lia)). set (tag_end := find [36] q (b + 1)) in *.
  match goal with |- context [match ?m with Some _ => _ | None => _ end] => destruct m as [k|] eqn:E end.
  - right. eexists. split; [done|]. match type of E with (if ?g then _ else _) = _ => destruct g eqn:Eg; [|done] end. apply andb_true_iff in Eg as [Eg _]. apply negb_true_iff, Nat.eqb_neq in Eg.
    apply find_sub_bound in E. rewrite length_drop, length_take, length_drop in E. apply scanned_at; [lia|done].
  - destruct (sees q (b + 1) isWordCharASCII); cbn [negb]; [by left|]. right. eexists. split; [done|]. apply scanned_at; [lia|done].
Qed.

Lemma word_scanned c b : (b < length q)%nat -> scanned b (word c q b).
Proof.
  intros H. unfold word.
  assert (Hd : (if c =? 36 then heredoc q b else Ok None) = Ok None \/ exists r, (if c =? 36 then heredoc q b else Ok None) = Ok (Some r) /\ scanned b (Ok r)).
  { destruct (c =? 36); [by apply heredoc_scanned|by left]. }
  destruct Hd as [->|(r & -> & Hr)]; run; [|done].
  destruct (_ && _) eqn:Eg.
  { apply hexString_scanned. do 2 apply andb_true_iff in Eg as [Eg _]. by apply Nat.ltb_lt. }
  destruct (isWordCharASCII c || (c =? 36)).
  { pose proof (skip_while_bound (fun c => isWordCharASCII c || (c =? 36)) (S b)). apply scanned_at; [lia|done]. }
  pose proof (skipWhitespacesUTF8_bound b). destruct (Nat.ltb_spec b (skipWhitespacesUTF8 q b)); [apply scanned_at; [lia|done]|].
  pose proof (skip_while_bound isContinuationOctet (S b)). apply scanned_at; [lia|done].
Qed.

Lemma unicode_scanned b : (b < length q)%nat -> scanned b (unicode q b).
Proof.
  intros H. unfold unicode. destruct (Nat.leb_spec (b + 3) (length q)).
  - destruct (load_in (b + 1)) as (c1 & _ & ->); [lia|]. destruct (load_in (b + 2)) as (c2 & _ & ->); [lia|]. run.
    destruct ((c1 =? 136) && _); [apply scanned_at; [lia|done]|].
    destruct (Nat.ltb_spec (b + 5) (length q)); run; [|by apply word_scanned].
    destruct ((c1 =? 128) && _); [|by apply word_scanned]. apply unicodeString_scanned; [lia|by destruct (_ =? _)..].
  - run. destruct (Nat.ltb_spec (b + 5) (length q)); [lia|]. run. by apply word_scanned.
Qed.

Lemma nextTokenImpl_scanned prev b : (b < length q)%nat -> scanned b (nextTokenImpl prev q b).
Proof.
  intros H. unfold nextTokenImpl. destruct (Nat.leb_spec (length q) b); [lia|]. destruct (load_in b H) as (c & _ & ->). run.
  destruct (isWhitespaceASCII c); [pose proof (skip_while_bound isWhitespaceASCII (S b)); apply scanned_at; [lia|done]|].
  destruct (isNumericASCII c); [by apply number_scanned|].
  do 3 (destruct (_ =? _); [by apply quotedString_scanned|]).
  destruct (one_byte c) as [t|] eqn:E1; [apply scanned_at; [lia|]; intros ->; revert E1; unfold one_byte; by repeat case_match|].
  destruct (two_bytes c) as [[[second t2] t1]|] eqn:E2.
  { assert (t2 <> EndOfStream /\ t1 <> EndOfStream) as [H1 H2].
    { revert E2. unfold two_bytes. repeat case_match; intros E2; simplify_eq; done. }
    destruct (sees q (S b) _) eqn:Es; [apply sees_in in Es|]; (apply scanned_at; [lia|done]). }
  destruct (_ =? 46); [by apply dot_scanned|]. destruct (_ =? 45).
  { unfold minus. destruct (sees q (S b) (fun c => c =? 62)) eqn:E62; [apply sees_in in E62; apply scanned_at; [lia|done]|].
    destruct (sees q (S b) (fun c => c =? 45)) eqn:E45; [apply sees_in in E45; apply comment_line_scanned; lia|apply scanned_at; [lia|done]]. }
  destruct (_ =? 47); [by apply slash_scanned|]. destruct (_ =? 35).
  { destruct (sees q (S b) _) eqn:Es; [apply sees_in in Es; apply comment_line_scanned; lia|apply scanned_at; [lia|done]]. }
  destruct (_ =? 60).
  { unfold less. destruct (sees q (b + 1) (fun c => c =? 61)) eqn:E61, (sees q (b + 2) _) eqn:E62, (sees q (b + 1) (fun c => c =? 62)) eqn:E63; cbn [andb];
      (apply scanned_at; [|done]); repeat match goal with E : sees _ _ _ = true |- _ => apply sees_in in E end; lia. }
  destruct (_ =? 226); [by apply unicode_scanned|by apply word_scanned].
Qed.
End query.

(** ** All tokens *)

(** The lexer between two calls. *)
Definition inside (l : Lexer) : Prop := (lexer_pos l <= length (query l))%nat.

(** The token behind the last byte. *)
Definition eof_token (l : Lexer) : Token :=
  MakeToken (if negb (max_query_size l =? 0) && (max_query_size l <? Z.of_nat (length (query l))) then ErrorMaxQuerySizeExceeded else EndOfStream)
    (length (query l)) (length (query l)).

Definition same_query (l l' : Lexer) : Prop := query l' = query l /\ max_query_size l' = max_query_size l.

Lemma nextToken_at_end l : lexer_pos l = length (query l) ->
  exists l', nextToken l = Ok (eof_token l, l') /\ same_query l l' /\ lexer_pos l' = lexer_pos l.
Proof.
  intros H. unfold nextToken, nextTokenImpl, eof_token. rewrite H, Nat.leb_refl. run. cbn [token_end token_begin].
  destruct (_ && _); eexists; (split; [reflexivity|]); by split.
Qed.

(** A token before the end; what it does to the lexer. *)
Record step (l : Lexer) (t : Token) (l' : Lexer) : Prop := {
  step_same : same_query l l';
  step_begin : token_begin t = lexer_pos l;
  step_pos : (lexer_pos l < lexer_pos l' <= token_end t)%nat;
  step_end : (token_end t <= length (query l))%nat;
  step_type : type t <> EndOfStream;
  step_valid : isValid t = true -> lexer_pos l' = token_end t /\ (max_query_size l = 0 \/ Z.of_nat (token_end t) <= max_query_size l) }.

Lemma nextToken_step l : (lexer_pos l < length (query l))%nat -> exists t l', nextToken l = Ok (t, l') /\ step l t l'.
Proof.
  intros H. unfold nextToken. destruct (nextTokenImpl_scanned (query l) (prev_significant_token_type l) (lexer_pos l) H) as (ty & e & p & -> & Hp & He & Hty & Hv).
  run. cbn [token_end token_begin]. destruct (negb (max_query_size l =? 0) && _) eqn:Em; eexists _, _; (split; [reflexivity|]); split; cbn; try done.
  intros [Hne%negb_true_iff _]%andb_true_iff. split; [by apply Hv|]. cbn in Em. lia.
Qed.

Fixpoint lex_all (fuel : nat) (l : Lexer) : outcome (list Token) :=
  match fuel with
  | O => Undef
  | S fuel =>
    '(t, l') ← nextToken l;
    if (length (query l) <=? lexer_pos l)%nat then Ok [t] else rest ← lex_all fuel l'; Ok (t :: rest)
  end.

(** Enough calls to reach the end. *)
Definition tokens_from (l : Lexer) : outcome (list Token) := lex_all (S (length (query l) - lexer_pos l)) l.

Lemma lex_all_fuel fuel fuel' l : inside l -> (length (query l) - lexer_pos l < fuel)%nat -> (length (query l) - lexer_pos l < fuel')%nat ->
  lex_all fuel l = lex_all fuel' l.
Proof.
  revert fuel' l. induction fuel as [|fuel IH]; intros [|fuel'] l Hin Hf Hf'; try lia. cbn [lex_all].
  destruct (Nat.leb_spec (length (query l)) (lexer_pos l)) as [|Hlt].
  - destruct (nextToken_at_end l) as (l' & -> & _); [unfold inside in *; lia|]. run. done.
  - destruct (nextToken_step l Hlt) as (t & l' & -> & [[Hq _] _ Hp He _ _]). run. rewrite (IH fuel'); [done|unfold inside; rewrite Hq; lia..].
Qed.

Lemma tokens_from_end l : lexer_pos l = length (query l) -> tokens_from l = Ok [eof_token l].
Proof.
  intros H. unfold tokens_from. cbn [lex_all]. destruct (nextToken_at_end l H) as (l' & -> & _). run. by rewrite H, Nat.leb_refl.
Qed.

Lemma tokens_from_step l t l' : (lexer_pos l < length (query l))%nat -> nextToken l = Ok (t, l') -> step l t l' ->
  tokens_from l = (rest ← tokens_from l'; Ok (t :: rest)).
Proof.
  intros Hlt E [[Hq _] _ Hp He _ _]. unfold tokens_from at 1. cbn [lex_all]. rewrite E. run. rewrite (proj2 (Nat.leb_gt _ _) Hlt).
  unfold tokens_from. rewrite (lex_all_fuel _ (S (length (query l') - lexer_pos l')) l'); [done|unfold inside; rewrite ?Hq; lia..].
Qed.

Lemma eof_token_same l l' : same_query l l' -> eof_token l' = eof_token l.
Proof. intros [Hq Hm]. unfold eof_token. by rewrite Hq, Hm. Qed.

(** The end is reached, and what comes before is not the end. *)
Lemma tokens_from_shape l : inside l -> exists init, tokens_from l = Ok (init ++ [eof_token l]) /\ Forall (fun t => type t <> EndOfStream) init /\
  (length init <= length (query l) - lexer_pos l)%nat.
Proof.
  intros Hin. remember (length (query l) - lexer_pos l)%nat as n eqn:Hn. revert l Hin Hn. induction n as [n IH] using lt_wf_ind. intros l Hin ->.
  destruct (decide (lexer_pos l = length (query l))) as [E|Hne].
  { exists []. rewrite (tokens_from_end l E). split_and!; [done|constructor|cbn; lia]. }
  unfold inside in Hin. destruct (nextToken_step l) as (t & l' & E & Hs); [lia|]. rewrite (tokens_from_step l t l' ltac:(lia) E Hs). destruct Hs as [[Hq Hm] _ Hp He Hty _].
  edestruct (IH (length (query l') - lexer_pos l')%nat) as (init & -> & Hf & Hlen); [rewrite Hq; lia|unfold inside; rewrite Hq; lia|done|].
  exists (t :: init). run. rewrite (eof_token_same l l') by done. split_and!; [done|by constructor|]. cbn [length]. rewrite Hq in Hlen. lia.
Qed.

(** The tokens follow each other without a gap from [b] to [e]. *)
Fixpoint tiles (b : nat) (tokens : list Token) (e : nat) : Prop :=
  match tokens with
  | [] => b = e
  | t :: tokens => token_begin t = b /\ (b < token_end t)%nat /\ tiles (token_end t) tokens e
  end.

(** The tokens up to the first that is an error or the end, and that one. *)
Fixpoint valid_part (tokens : list Token) : list Token * option Token :=
  match tokens with
  | [] => ([], None)
  | t :: tokens => if isValid t then let '(l, stop) := valid_part tokens in (t :: l, stop) else ([], Some t)
  end.

Lemma tokens_tile l : inside l -> exists tokens valid stop, tokens_from l = Ok tokens /\ valid_part tokens = (valid, Some stop) /\
  tiles (lexer_pos l) valid (token_begin stop) /\ Forall (fun t => max_query_size l = 0 \/ Z.of_nat (token_end t) <= max_query_size l) valid /\
  (token_begin stop <= length (query l))%nat /\ (isEnd stop = true -> token_begin stop = length (query l)).
Proof.
  intros Hin. remember (length (query l) - lexer_pos l)%nat as n eqn:Hn. revert l Hin Hn. induction n as [n IH] using lt_wf_ind. intros l Hin ->.
  destruct (decide (lexer_pos l = length (query l))) as [E|Hne].
  { exists [eof_token l], [], (eof_token l). rewrite (tokens_from_end l E). split_and!; [done| |cbn; lia|constructor|cbn; lia|done].
    unfold eof_token. cbn. by destruct (_ && _). }
  unfold inside in Hin. destruct (nextToken_step l) as (t & l' & E & Hs); [lia|]. rewrite (tokens_from_step l t l' ltac:(lia) E Hs).
  destruct Hs as [[Hq Hm] Hb Hp He Hty Hv].
  edestruct (IH (length (query l') - lexer_pos l')%nat) as (tokens & valid & stop & -> & Hvp & Ht & Hmax & Hle & Hend); [rewrite Hq; lia|unfold inside; rewrite Hq; lia|done|].
  run. exists (t :: tokens). cbn [valid_part]. rewrite Hvp. destruct (isValid t) eqn:Ev.
  - destruct (Hv eq_refl) as [Hpe Hmt]. exists (t :: valid), stop. rewrite Hm in Hmax. rewrite Hq in *. rewrite Hpe in Ht. cbn [tiles].
    split_and!; [done|done|done|lia|done|by constructor|done|done].
  - exists [], t. split_and!; [done|done|cbn; lia|constructor|lia|]. unfold isEnd. by intros ?%bool_decide_eq_true.
Qed.

Definition text (q : bytes) (t : Token) : bytes := take (token_end t - token_begin t) (drop (token_begin t) q).

Lemma tiles_le b tokens e : tiles b tokens e -> (b <= e)%nat.
Proof. revert b. induction tokens as [|t tokens IH]; cbn; intros b; [lia|]. intros (_ & ? & ?%IH). lia. Qed.

Lemma tiles_text q b tokens e : tiles b tokens e -> concat (text q <$> tokens) = take (e - b) (drop b q).
Proof.
  revert b. induction tokens as [|t tokens IH]; intros b; cbn [tiles fmap list_fmap concat].
  - intros ->. by rewrite Nat.sub_diag.
  - intros (<- & Hlt & Ht). change (list_fmap _ _ (text q) tokens) with (text q <$> tokens). rewrite (IH _ Ht). apply tiles_le in Ht. unfold text.
    replace (e - token_begin t)%nat with ((token_end t - token_begin t) + (e - token_end t))%nat by lia.
    rewrite <- take_take_drop, drop_drop. do 3 f_equal. lia.
Qed.

(** ** The lazy stream *)
Section lazy.
Context (l0 : Lexer) (skip : bool).

Definition kept (tokens : list Token) : list Token := List.filter (fun t => negb skip || isSignificant t) tokens.

Lemma kept_app tokens tokens' : kept (tokens ++ tokens') = kept tokens ++ kept tokens'.
Proof. apply List.filter_app. Qed.

Lemma kept_eof l : kept [eof_token l] = [eof_token l].
Proof.
  unfold kept. cbn [List.filter]. replace (isSignificant (eof_token l)) with true; [by rewrite orb_true_r|].
  unfold eof_token, isSignificant. cbn. by destruct (_ && _).
Qed.

(** The stream is [init], then the last token again and again. *)
Context (init : list Token).

Definition stream (i : nat) : Token := default (eof_token l0) (init !! i).

Lemma stream_end i : (length init <= i)%nat -> stream i = eof_token l0.
Proof. intros H. unfold stream. by rewrite lookup_ge_None_2. Qed.

(** What the vector and the lexer hold together: what is left of the stream, or
    all of it with copies of the last token. *)
Definition split_stream (s : Tokens.t) : Prop :=
  (exists rest, tokens_from (Tokens.lexer s) = Ok rest /\ Tokens.data s ++ kept rest = init ++ [eof_token l0]) \/
  (lexer_pos (Tokens.lexer s) = length (query l0) /\ exists k, Tokens.data s = init ++ replicate (S k) (eof_token l0)).

(** [r] is the rightmost index that was asked for. *)
Record streams (s : Tokens.t) (r : nat) : Prop := {
  streams_same : same_query l0 (Tokens.lexer s);
  streams_inside : inside (Tokens.lexer s);
  streams_skip : Tokens.skip_insignificant s = skip;
  streams_split : split_stream s;
  streams_max : Tokens.max_pos s = r \/ (length init <= Tokens.max_pos s <= r)%nat;
  streams_none : Tokens.data s = [] -> r = O /\ Tokens.max_pos s = O;
  streams_some : Tokens.data s <> [] -> (Tokens.max_pos s < length (Tokens.data s))%nat }.

Hypothesis init_not_end : Forall (fun t => type t <> EndOfStream) init.

Lemma split_lookup s i t : split_stream s -> Tokens.data s !! i = Some t -> t = stream i.
Proof.
  intros [(rest & _ & E)|(_ & k & E)] Ht; unfold stream.
  - apply (lookup_app_l_Some _ (kept rest)) in Ht. rewrite E in Ht. destruct (decide (i < length init)%nat).
    + rewrite lookup_app_l in Ht by done. by rewrite Ht.
    + rewrite lookup_app_r in Ht by lia. apply list_lookup_singleton_Some in Ht as [_ <-]. by rewrite lookup_ge_None_2 by lia.
  - rewrite E in Ht. destruct (decide (i < length init)%nat).
    + rewrite lookup_app_l in Ht by done. by rewrite Ht.
    + rewrite lookup_app_r in Ht by lia. apply lookup_replicate in Ht as [-> _]. by rewrite lookup_ge_None_2 by lia.
Qed.

Lemma split_ended s t : split_stream s -> inside (Tokens.lexer s) -> Tokens.ended s = Some t ->
  t = eof_token l0 /\ (length init < length (Tokens.data s))%nat.
Proof.
  intros Hs Hin. unfold Tokens.ended. destruct (last (Tokens.data s)) as [t'|] eqn:El; [|done]. destruct (isEnd t') eqn:Ee; [|done]. intros [= ->].
  apply bool_decide_eq_true in Ee. apply last_Some in El as [d Hd]. destruct Hs as [(rest & Hr & E)|(_ & k & E)].
  - exfalso. destruct (tokens_from_shape _ Hin) as (i0 & Hi0 & _). rewrite Hi0 in Hr. injection Hr as <-. rewrite kept_app, kept_eof, Hd, !app_assoc in E.
    apply app_inj_tail in E as [E _]. rewrite <- E in init_not_end. apply Forall_app in init_not_end as [H _]. apply Forall_app in H as [_ H].
    rewrite Forall_singleton in H. by apply H.
  - rewrite Hd in E. rewrite replicate_S_end, app_assoc in E. apply app_inj_tail in E as [E ->]. split; [done|]. rewrite Hd, E, !length_app. cbn. lia.
Qed.

Lemma lookup_streams fuel s r i : streams s r -> (length (query l0) - lexer_pos (Tokens.lexer s) + (S i - length (Tokens.data s)) <= fuel)%nat ->
  exists s', Tokens.lookup fuel s i = Ok (stream i, s') /\ streams s' (r `max` i) /\ Tokens.data s' <> [].
Proof.
  revert s. induction fuel as [|fuel IH]; intros s [[Hq Hm] Hin Hsk Hsp Hmax Hnone Hsome] Hf.
  all: cbn [Tokens.lookup]; destruct (Tokens.data s !! i) as [t|] eqn:Ei;
    [eexists; split; [by rewrite (split_lookup s i t Hsp Ei)|]; split; [split; cbn; try done; [lia|by intros E; rewrite E in Ei|intros Hne; apply lookup_lt_Some in Ei; specialize (Hsome Hne); lia]|by intros E; cbn in E; rewrite E in Ei]|].
  all: apply lookup_ge_None_1 in Ei.
  { lia. }
  destruct (Tokens.ended s) as [t|] eqn:Ee.
  { destruct (split_ended s t Hsp Hin Ee) as [-> Hlen]. rewrite <- (stream_end i) by lia. eexists. split; [done|].
    split; [split; cbn; try done; [lia|intros E; rewrite E in Hlen; cbn in Hlen; lia|lia]|cbn; intros E; rewrite E in Hlen; cbn in Hlen; lia]. }
  unfold inside in Hin. rewrite Hq in Hin. destruct (decide (lexer_pos (Tokens.lexer s) = length (query l0))) as [Hpos|Hpos].
  - destruct (nextToken_at_end (Tokens.lexer s)) as (l' & -> & [Hq' Hm'] & Hpos'); [by rewrite Hq|]. run.
    rewrite (eof_token_same l0) by done. rewrite Hsk. pose proof (kept_eof l0) as Hk. unfold kept in Hk. cbn [List.filter] in Hk.
    destruct (negb skip || isSignificant (eof_token l0)) eqn:Esig; [|done]. apply IH.
    + split; cbn; try done; [by split; etrans|unfold inside; rewrite Hq', Hpos', Hq; lia| | |].
      * right. cbn. rewrite Hpos'. split; [done|]. destruct Hsp as [(rest & Hr & E)|(_ & k & E)].
        -- rewrite tokens_from_end in Hr by congruence. injection Hr as <-. rewrite (eof_token_same l0), kept_eof in E by done. exists O. by rewrite E.
        -- exists (S k). rewrite E, <- app_assoc. f_equal. by rewrite <- replicate_S_end.
      * by intros [_ ?]%app_nil.
      * intros _. rewrite length_app. cbn. destruct (decide (Tokens.data s = [])) as [E|E]; [destruct (Hnone E); lia|specialize (Hsome E); lia].
    + cbn. rewrite Hpos', length_app. cbn. lia.
  - destruct (nextToken_step (Tokens.lexer s)) as (t & l' & En & Hst); [rewrite Hq; lia|]. rewrite En. run.
    pose proof (tokens_from_step _ _ _ ltac:(rewrite Hq; lia) En Hst) as Htf. destruct Hst as [[Hq' Hm'] _ Hp He _ _]. rewrite Hq in He.
    destruct Hsp as [(rest & Hr & E)|(Hp0 & _)]; [|congruence]. rewrite Htf in Hr. apply bind_Ok_inv in Hr as (rest' & Hr' & [= <-]).
    rewrite Hsk. apply IH.
    + split; cbn; try done; [by split; etrans|unfold inside; rewrite Hq', Hq; lia| | |].
      * left. exists rest'. split; [done|]. cbn. rewrite <- E. unfold kept. cbn [List.filter]. destruct (_ || _); [by rewrite <- app_assoc|done].
      * destruct (_ || _); [by intros [_ ?]%app_nil|done].
      * destruct (_ || _); [|done]. intros _. rewrite length_app. cbn. destruct (decide (Tokens.data s = [])) as [E0|E0]; [destruct (Hnone E0); lia|specialize (Hsome E0); lia].
    + cbn. destruct (_ || _); rewrite ?length_app; cbn; lia.
Qed.
Lemma get_streams s r i : streams s r -> exists s', Tokens.get s i = Ok (stream i, s') /\ streams s' (r `max` i) /\ Tokens.data s' <> [].
Proof. intros H. apply lookup_streams; [done|]. destruct (streams_same _ _ H) as [Hq _]. unfold Tokens.enough. rewrite Hq. lia. Qed.

Lemma rightmost_streams s r : streams s r -> exists s', Tokens.rightmost s = Ok (stream r, s') /\ streams s' r.
Proof.
  intros H. unfold Tokens.rightmost. destruct (Tokens.data s) as [|t d] eqn:Ed.
  - destruct (streams_none _ _ H Ed) as [-> _]. destruct (get_streams s 0 0 H) as (s' & E & H' & _). by exists s'.
  - assert (Hlt := streams_some _ _ H ltac:(by rewrite Ed)). rewrite Ed in Hlt. destruct (lookup_lt_is_Some_2 _ _ Hlt) as [t' Et]. rewrite Et.
    exists s. split; [|done]. rewrite <- Ed in Et. rewrite (split_lookup s _ _ (streams_split _ _ H) Et).
    destruct (streams_max _ _ H) as [->|Hm]; [done|]. by rewrite !stream_end by lia.
Qed.

Lemma reset_streams s r : streams s r -> streams (Tokens.reset s) 0.
Proof.
  intros []. split; cbn; try done; [by left|]. intros H. destruct (Tokens.data s); [done|]. cbn. lia.
Qed.
End lazy.

(** Operations of a parser on the stream: each lookup gives a token. *)
Inductive operation := Get (index : nat) | Rightmost | Reset.

Fixpoint run_stream (ops : list operation) (s : Tokens.t) : outcome (list Token * Tokens.t) :=
  match ops with
  | [] => Ok ([], s)
  | Get i :: ops => '(t, s) ← Tokens.get s i; '(out, s) ← run_stream ops s; Ok (t :: out, s)
  | Rightmost :: ops => '(t, s) ← Tokens.rightmost s; '(out, s) ← run_stream ops s; Ok (t :: out, s)
  | Reset :: ops => run_stream ops (Tokens.reset s)
  end.

(** The same on a list of tokens that does not change, and the rightmost index. *)
Fixpoint run_list (ops : list operation) (tokens : nat -> Token) (rightmost : nat) : list Token * nat :=
  match ops with
  | [] => ([], rightmost)
  | Get i :: ops => let '(out, r) := run_list ops tokens (rightmost `max` i) in (tokens i :: out, r)
  | Rightmost :: ops => let '(out, r) := run_list ops tokens rightmost in (tokens rightmost :: out, r)
  | Reset :: ops => run_list ops tokens 0
  end.

Lemma run_stream_streams l0 skip init ops s r : Forall (fun t => type t <> EndOfStream) init -> streams l0 skip init s r ->
  exists s', run_stream ops s = Ok ((run_list ops (stream l0 init) r).1, s') /\ streams l0 skip init s' (run_list ops (stream l0 init) r).2.
Proof.
  intros Hi. revert s r. induction ops as [|[i| |] ops IH]; intros s r H; cbn [run_stream run_list].
  - by exists s.
  - destruct (get_streams _ _ _ Hi s r i H) as (s' & -> & H' & _). run. destruct (IH _ _ H') as (s'' & -> & H''). run.
    destruct (run_list _ _ _) as [out r']. by exists s''.
  - destruct (rightmost_streams _ _ _ Hi s r H) as (s' & -> & H'). run. destruct (IH _ _ H') as (s'' & -> & H''). run.
    destruct (run_list _ _ _) as [out r']. by exists s''.
  - by apply IH, reset_streams with (r := r).
Qed.

Lemma run_list_ext ops f g r : (forall i, f i = g i) -> run_list ops f r = run_list ops g r.
Proof. intros H. revert r. induction ops as [|[i| |] ops IH]; intros r; cbn; by rewrite ?IH, ?H. Qed.

Lemma stream_with_eof l0 init i : default (eof_token l0) ((init ++ [eof_token l0]) !! i) = stream l0 init i.
Proof.
  unfold stream. destruct (decide (i < length init)%nat); [by rewrite lookup_app_l|]. rewrite lookup_app_r, (lookup_ge_None_2 init) by lia.
  by destruct (i - length init)%nat.
Qed.

Lemma new_streams q n skip : exists tokens init, tokens_from (new_lexer q n) = Ok tokens /\ kept skip tokens = init ++ [eof_token (new_lexer q n)] /\
  Forall (fun t => type t <> EndOfStream) init /\ (length init <= length q)%nat /\ streams (new_lexer q n) skip init (Tokens.new q n skip) 0.
Proof.
  assert (Hin : inside (new_lexer q n)) by (unfold inside; cbn; lia). destruct (tokens_from_shape _ Hin) as (init & E & Hf & Hlen). cbn in Hlen.
  eexists _, (kept skip init). split; [exact E|]. split; [by rewrite kept_app, kept_eof|].
  assert (Hf' : Forall (fun t => type t <> EndOfStream) (kept skip init)).
  { rewrite Forall_forall in Hf |- *. intros t [Ht _]%list_elem_of_In%List.filter_In. by apply Hf, list_elem_of_In. }
  split; [done|]. split; [pose proof (List.filter_length_le (fun t => negb skip || isSignificant t) init); unfold kept; lia|].
  split; try done; [left; eexists; split; [exact E|]; cbn; by rewrite kept_app, kept_eof|by left].
Qed.

(** ** Brackets *)

(** The sequences in which every bracket is closed by one of its kind. *)
Inductive balanced : list TokenType -> Prop :=
| balanced_nil : balanced []
| balanced_no_bracket t l : t ∉ [OpeningRoundBracket; ClosingRoundBracket; OpeningSquareBracket; ClosingSquareBracket] -> balanced l -> balanced (t :: l)
| balanced_round l l' : balanced l -> balanced l' -> balanced (OpeningRoundBracket :: l ++ ClosingRoundBracket :: l')
| balanced_square l l' : balanced l -> balanced l' -> balanced (OpeningSquareBracket :: l ++ ClosingSquareBracket :: l').

(** The loop on a list, with the stack upside down. *)
Fixpoint unmatched (tokens stack : list Token) : list Token :=
  match tokens with
  | [] => rev stack
  | it :: tokens =>
    if is_opening (type it) then unmatched tokens (it :: stack)
    else if is_closing (type it) then
      match stack with
      | [] => [it]
      | top :: rest => if match_brackets (type top) (type it) then unmatched tokens rest else rev (it :: stack)
      end
    else unmatched tokens stack
  end.

Lemma match_brackets_kinds o c : match_brackets o c = true -> is_opening o = true /\ is_opening c = false /\ is_closing c = true.
Proof. by destruct o, c. Qed.

(** What closes a stack of opened brackets. *)
Fixpoint closes (stack : list Token) (l : list TokenType) : Prop :=
  match stack with
  | [] => balanced l
  | top :: stack => exists l1 c l2, l = l1 ++ c :: l2 /\ balanced l1 /\ match_brackets (type top) c = true /\ closes stack l2
  end.

Lemma balanced_other t l : is_opening t = false -> is_closing t = false -> balanced l -> balanced (t :: l).
Proof. intros Ho Hc Hb. constructor; [|done]. rewrite !elem_of_cons, elem_of_nil. intros Ht. by repeat destruct Ht as [->|Ht]. Qed.

Lemma balanced_pair o l c l' : match_brackets o c = true -> balanced l -> balanced l' -> balanced (o :: l ++ c :: l').
Proof. intros Hm Hl Hl'. destruct o, c; try discriminate Hm; by constructor. Qed.

Lemma balanced_cons t l : balanced (t :: l) ->
  (is_opening t = false /\ is_closing t = false /\ balanced l)
  \/ exists l1 c l2, l = l1 ++ c :: l2 /\ match_brackets t c = true /\ balanced l1 /\ balanced l2.
Proof.
  intros Hb. inversion Hb as [|? ? Hn|l1 l2|l1 l2]; subst; [|by right; eexists _, _, _..].
  left. rewrite !not_elem_of_cons in Hn. destruct Hn as (? & ? & ? & ? & _). split_and!; [..|done]; by destruct t.
Qed.

Lemma balanced_open o l : is_opening o = true -> balanced (o :: l) -> exists l1 c l2, l = l1 ++ c :: l2 /\ match_brackets o c = true /\ balanced l1 /\ balanced l2.
Proof. intros Ho [(? & _)|H]%balanced_cons; [congruence|done]. Qed.

Lemma balanced_close c l : is_closing c = true -> ~ balanced (c :: l).
Proof. intros Hc [(_ & ? & _)|(? & ? & ? & _ & Hm & _)]%balanced_cons; [congruence|]. destruct (match_brackets_kinds _ _ Hm) as [Ho _]. by destruct c. Qed.

Lemma balanced_skip t l : is_opening t = false -> is_closing t = false -> balanced (t :: l) <-> balanced l.
Proof.
  intros Ho Hc. split; [|by apply balanced_other]. intros [(_ & _ & H)|(? & ? & ? & _ & Hm & _)]%balanced_cons; [done|].
  destruct (match_brackets_kinds _ _ Hm). congruence.
Qed.

Lemma closes_open t l stack : is_opening (type t) = true -> closes (t :: stack) l <-> closes stack (type t :: l).
Proof.
  intros Ho. destruct stack as [|top stack]; cbn [closes]; split.
  - intros (l1 & c & l2 & -> & Hb & Hm & Hc). by apply balanced_pair.
  - intros (l1 & c & l2 & -> & Hm & H1 & H2)%balanced_open; [|done]. by eexists _, _, _.
  - intros (l1 & c & l2 & -> & Hb & Hm & (l3 & c' & l4 & -> & Hb' & Hm' & Hc)). exists (type t :: l1 ++ c :: l3), c', l4.
    split_and!; [cbn; by rewrite <- app_assoc|by apply balanced_pair|done|done].
  - intros ([|x l1] & c & l2 & E & Hb & Hm & Hc); cbn in E; simplify_eq.
    { destruct (match_brackets_kinds _ _ Hm) as (_ & ? & _). congruence. }
    apply balanced_open in Hb as (l3 & c' & l4 & -> & Hm' & H3 & H4); [|done]. exists l3, c', (l4 ++ c :: l2).
    split_and!; [by rewrite <- app_assoc|done|done|by eexists _, _, _].
Qed.

Lemma closes_other t l stack : is_opening t = false -> is_closing t = false -> closes stack (t :: l) <-> closes stack l.
Proof.
  intros Ho Hc. destruct stack as [|top stack]; cbn [closes]; [by apply balanced_skip|]. split.
  - intros ([|x l1] & c & l2 & E & Hb & Hm & Hr); cbn in E; simplify_eq; [destruct (match_brackets_kinds _ _ Hm) as (_ & _ & ?); congruence|].
    exists l1, c, l2. split_and!; [done|by apply balanced_skip in Hb|done|done].
  - intros (l1 & c & l2 & -> & Hb & Hm & Hr). exists (t :: l1), c, l2. split_and!; [done|by apply balanced_other|done|done].
Qed.

Lemma closes_close c l top stack : is_closing c = true -> closes (top :: stack) (c :: l) <-> match_brackets (type top) c = true /\ closes stack l.
Proof.
  intros Hc. cbn [closes]. split.
  - intros ([|x l1] & c' & l2 & E & Hb & Hm & Hr); cbn in E; simplify_eq; [done|]. by apply balanced_close in Hb.
  - intros [Hm Hr]. exists [], c, l. split_and!; [done|constructor|done|done].
Qed.

Lemma unmatched_closes tokens stack : Forall (fun t => is_opening (type t) = true) stack -> unmatched tokens stack = [] <-> closes stack (type <$> tokens).
Proof.
  revert stack. induction tokens as [|it tokens IH]; intros stack Hs; cbn [unmatched fmap list_fmap].
  - destruct stack as [|top stack]; cbn [closes].
    + split; [constructor|done].
    + split; [intros E%(f_equal length); rewrite length_rev in E; done|intros (l1 & c & l2 & E & _); by destruct l1].
  - change (list_fmap _ _ type tokens) with (type <$> tokens). destruct (is_opening (type it)) eqn:Eo.
    { rewrite IH by (by constructor). by apply closes_open. }
    destruct (is_closing (type it)) eqn:Ec; [|by rewrite closes_other, IH].
    destruct stack as [|top stack].
    { split; [done|]. cbn [closes]. intros Hb. by apply balanced_close in Hb. }
    inversion_clear Hs as [|? ? Ht Hs']. rewrite closes_close by done. destruct (match_brackets _ _); [rewrite IH by done; intuition|].
    split; [intros E%(f_equal length); rewrite length_rev in E; done|by intros [? _]].
Qed.

Lemma eof_token_invalid l : isValid (eof_token l) = false.
Proof. unfold eof_token, isValid, isError, isEnd. cbn. by destruct (negb (max_query_size l =? 0) && _). Qed.

Lemma valid_part_with_eof l init i : (valid_part (drop i (init ++ [eof_token l]))).1 = (valid_part (drop i init)).1.
Proof.
  rewrite drop_app. assert (H : forall r, (valid_part (r ++ drop (i - length init) [eof_token l])).1 = (valid_part r).1); [|apply H].
  induction r as [|t r IH]; cbn [app valid_part].
  - destruct (i - length init)%nat; cbn; [by rewrite eof_token_invalid|by rewrite drop_nil].
  - destruct (isValid t); [|done]. destruct (valid_part (r ++ _)), (valid_part r). cbn in *. by rewrite IH.
Qed.

Lemma parentheses_loop_exact l0 skip init fuel s r index stack : Forall (fun t => type t <> EndOfStream) init -> streams l0 skip init s r ->
  (length init - index < fuel)%nat ->
  exists s', parentheses_loop fuel s index stack = Ok (unmatched (valid_part (drop index init)).1 stack, s') /\ exists r', streams l0 skip init s' r'.
Proof.
  intros Hi. revert s r index stack. induction fuel as [|fuel IH]; intros s r index stack H Hf; [lia|]. cbn [parentheses_loop].
  destruct (get_streams _ _ _ Hi s r index H) as (s' & -> & H' & _). run. destruct (init !! index) as [t|] eqn:Et.
  - replace (stream l0 init index) with t by (unfold stream; by rewrite Et). rewrite (drop_S _ _ _ Et). cbn [valid_part].
    destruct (isValid t); cbn [negb]; [|by exists s'; eauto]. destruct (valid_part (drop (S index) init)) as [v stop] eqn:Ev. cbn [fst unmatched].
    apply lookup_lt_Some in Et.
    assert (HIH : forall st, exists s'', parentheses_loop fuel s' (S index) st = Ok (unmatched v st, s'') /\ exists r', streams l0 skip init s'' r').
    { intros st. destruct (IH s' _ (S index) st H') as (s'' & E & Hr); [lia|]. rewrite Ev in E. by exists s''. }
    destruct (is_opening (type t)); [apply HIH|]. destruct (is_closing (type t)); [|apply HIH].
    destruct stack as [|top stack]; [by exists s'; eauto|]. destruct (match_brackets _ _); [apply HIH|by exists s'; eauto].
  - apply lookup_ge_None_1 in Et. rewrite stream_end, drop_ge by done. cbn [valid_part fst unmatched].
    rewrite eof_token_invalid. by exists s'; split; [done|eauto].
Qed.
