(* ===== verification/TextReaders.v ===== *)
(** * Reading text formats

    The readers of [src/IO/ReadHelpers.cpp] for strings in the formats TSV,
    CSV, JSON and quoted values, and the functions that skip text.  They work
    on any read buffer: a window of bytes that [eof] refills.  [TextBuffer] is
    what they use of it, and a reader also carries the string [s] it appends
    to.  A buffer here is not a [PeekableReadBuffer]. *)

From stdpp Require Import prelude.
From Stdlib Require Import ZArith Lia.
From S2P Require Import Prelude Buffers FindSymbols ReadHelpers.

(** ** The buffer *)

(** [window] are the bytes from [position()] to [buffer().end()]. *)
Class TextBuffer (B : Type) := {
  buf_eof : B -> outcome (bool * B);
  window : B -> bytes;
  buf_advance : nat -> B -> outcome B;
  buf_read : nat -> B -> outcome (bytes * B) }.

#[export] Instance read_buffer_text {S : Type} `{!ReadBuffer.Impl S} : TextBuffer (ReadBuffer.t S) := {|
  buf_eof := ReadBuffer.eof;
  window := ReadBuffer.pending;
  buf_advance := ReadBuffer.advance;
  buf_read := ReadBuffer.read |}.

(** A buffer that has all of its data in its window. *)
#[export] Instance memory_text : TextBuffer bytes := {|
  buf_eof d := Ok (bool_decide (d = []), d);
  window d := d;
  buf_advance n d := _ ← defined (Nat.leb n (length d)); Ok (drop n d);
  buf_read n d := Ok (take n d, drop n d) |}.

(** ** Readers *)
Definition reader (B A : Type) : Type := bytes -> B -> outcome (A * bytes * B).

#[export] Instance reader_ret {B} : MRet (reader B) := fun A a s b => Ok (a, s, b).
#[export] Instance reader_bind {B} : MBind (reader B) := fun A C f m s b =>
  match m s b with
  | Ok (a, s, b) => f a s b
  | Throw e => Throw e
  | Undef => Undef
  end.

Section readers.
Context {B : Type} `{TextBuffer B}.

(** [buf.eof()], [*buf.position()], [++buf.position()], [buf.hasPendingData()],
    [buf.read(to, n)] and [s.push_back(c)]. *)
Definition eof : reader B bool := fun s b => '(e, b) ← buf_eof b; Ok (e, s, b).
Definition peek : reader B Z := fun s b => match window b with c :: _ => Ok (c, s, b) | [] => Undef end.
Definition incr : reader B unit := fun s b => b ← buf_advance 1 b; Ok (tt, s, b).
Definition hasPendingData : reader B bool := fun s b => Ok (negb (bool_decide (window b = [])), s, b).
Definition read (n : nat) : reader B bytes := fun s b => '(c, b) ← buf_read n b; Ok (c, s, b).
Definition push_back (c : Z) : reader B unit := fun s b => Ok (tt, s ++ [c], b).
Definition append (l : bytes) : reader B unit := fun s b => Ok (tt, s ++ l, b).
Definition throw {A} (e : ErrorCode) : reader B A := fun _ _ => Throw e.
Definition diverged {A} : reader B A := fun _ _ => Undef.

(** [next_pos = find_first_symbols<stop>(buf.position(), buf.buffer().end())],
    the bytes before it appended to [s] if [keep], and [buf.position() = next_pos]. *)
Definition move_to (keep : bool) (stop : bytes) : reader B unit := fun s b =>
  let n := find_first_symbols stop (window b) in
  let s := if keep then s ++ take n (window b) else s in
  b ← buf_advance n b; Ok (tt, s, b).

(** The loop all readers have:
    [while (!buf.eof()) { move_to; if (!buf.hasPendingData()) continue; body }]
    with the variables [st] of the loop, and [finish] after it.  [body] is given
    the byte [*buf.position()] and says whether to go on ([inl]) or what to
    return ([inr]). *)
Fixpoint loop {St A : Type} (fuel : nat) (keep : bool) (stop : bytes) (body : St -> Z -> reader B (St + A)) (finish : St -> reader B A) (st : St) : reader B A :=
  match fuel with
  | O => diverged
  | S fuel =>
      e ← eof;
      if e : bool then finish st
      else
        _ ← move_to keep stop;
        p ← hasPendingData;
        if negb p then loop fuel keep stop body finish st
        else
          c ← peek;
          r ← body st c;
          match r with
          | inl st => loop fuel keep stop body finish st
          | inr a => mret a
          end
  end.

(** The error of a function that either throws or returns [false]. *)
Definition error (throw_exception : bool) (e : ErrorCode) : reader B bool := if throw_exception then throw e else mret false.

(** ** Fixed text *)
Fixpoint checkString (s : bytes) : reader B bool :=
  match s with
  | [] => mret true
  | x :: s =>
      e ← eof;
      if e : bool then mret false
      else c ← peek; if negb (c =? x) then mret false else _ ← incr; checkString s
  end.

Fixpoint checkStringCaseInsensitive (s : bytes) : reader B bool :=
  match s with
  | [] => mret true
  | x :: s =>
      e ← eof;
      if e : bool then mret false
      else c ← peek; if negb (equalsCaseInsensitive x c) then mret false else _ ← incr; checkStringCaseInsensitive s
  end.

Definition assertString (s : bytes) : reader B unit :=
  found ← checkString s; if found : bool then mret tt else throw CANNOT_PARSE_INPUT_ASSERTION_FAILED.

Definition checkChar (c : Z) : reader B bool :=
  e ← eof;
  if e : bool then mret false
  else a ← peek; if negb (a =? c) then mret false else _ ← incr; mret true.

Definition assertChar (symbol : Z) : reader B unit :=
  found ← checkChar symbol; if found : bool then mret tt else throw CANNOT_PARSE_INPUT_ASSERTION_FAILED.

(** ** Text up to some characters *)
Definition readStringUntilCharsInto (fuel : nat) (chars : bytes) : reader B unit :=
  loop fuel true chars (fun _ _ => mret (inr tt)) (fun _ => mret tt) tt.

Definition skipStringUntilChars (fuel : nat) (chars : bytes) : reader B unit :=
  loop fuel false chars (fun _ _ => mret (inr tt)) (fun _ => mret tt) tt.

Definition readStringInto (fuel : nat) : reader B unit := readStringUntilCharsInto fuel [9; 10].

Definition readNullTerminated (fuel : nat) : reader B unit :=
  _ ← readStringUntilCharsInto fuel [0];
  e ← eof;
  if e : bool then throw ATTEMPT_TO_READ_AFTER_EOF else incr.

(** ** Escape sequences *)
Definition parseEscapeSequence (c : Z) : Z :=
  if c =? 97 then 7          (* \a *)
  else if c =? 98 then 8     (* \b *)
  else if c =? 101 then 27   (* \e *)
  else if c =? 102 then 12   (* \f *)
  else if c =? 110 then 10   (* \n *)
  else if c =? 114 then 13   (* \r *)
  else if c =? 116 then 9    (* \t *)
  else if c =? 118 then 11   (* \v *)
  else if c =? 48 then 0     (* \0 *)
  else c.

Definition isControlASCII (c : Z) : bool := c <=? 31.

Definition unhexDigit (c : Z) : Z :=
  if isNumericASCII c then c - 48
  else if (65 <=? c) && (c <=? 70) then c - 55
  else if (97 <=? c) && (c <=? 102) then c - 87
  else 255.

(** [unhex2] and [unhex4]: the digits of a result of 8 and 16 bits. *)
Definition unhex2 (data : bytes) : Z :=
  match data with
  | [a; b] => wrap 8 (unhexDigit a * 0x10 + unhexDigit b)
  | _ => 0
  end.

Definition unhex4 (data : bytes) : Z :=
  match data with
  | [a; b; c; d] => wrap 16 (unhexDigit a * 0x1000 + unhexDigit b * 0x100 + unhexDigit c * 0x10 + unhexDigit d)
  | _ => 0
  end.

(** [parseComplexEscapeSequence], from the backslash on. *)
Definition parseComplexEscapeSequence (throw_exception : bool) : reader B bool :=
  _ ← incr;
  e ← eof;
  if e : bool then error throw_exception CANNOT_PARSE_ESCAPE_SEQUENCE
  else
    char_after_backslash ← peek;
    if char_after_backslash =? 120 (* x *) then
      _ ← incr;
      hex_code ← read 2;
      if negb (Nat.eqb (length hex_code) 2) then error throw_exception CANNOT_PARSE_ESCAPE_SEQUENCE
      else _ ← push_back (unhex2 hex_code); mret true
    else if char_after_backslash =? 78 (* N *) then
      _ ← incr; mret true
    else
      let decoded_char := parseEscapeSequence char_after_backslash in
      _ ← (if negb (decoded_char =? 92) && negb (decoded_char =? 39) && negb (decoded_char =? 34) && negb (decoded_char =? 96)
              && negb (decoded_char =? 47) && negb (decoded_char =? 61) && negb (isControlASCII decoded_char)
           then push_back 92 else mret tt);
      _ ← push_back decoded_char;
      _ ← incr;
      mret true.

(** The four digits after [\u]; when bad sequences are kept, they are read one
    by one up to a quote, and the flag says whether there were four. *)
Fixpoint read_digits (n : nat) (hex_code : bytes) : reader B (bytes * bool) :=
  match n with
  | O => mret (hex_code, true)
  | S n =>
      e ← eof;
      if e : bool then mret (hex_code, false)
      else
        c ← peek;
        if c =? 34 then mret (hex_code, false)
        else _ ← incr; read_digits n (hex_code ++ [c])
  end.

Definition read_hex_code (keep_bad_sequences : bool) : reader B (bytes * bool) :=
  if keep_bad_sequences then read_digits 4 []
  else hex_code ← read 4; mret (hex_code, Nat.eqb 4 (length hex_code)).

Definition utf8_2 (code_point : Z) : bytes :=
  [Z.lor (Z.land (Z.shiftr code_point 6) 0x1F) 0xC0; Z.lor (Z.land code_point 0x3F) 0x80].

Definition utf8_3 (code_point : Z) : bytes :=
  [Z.lor (Z.land (Z.shiftr code_point 12) 0x0F) 0xE0; Z.lor (Z.land (Z.shiftr code_point 6) 0x3F) 0x80; Z.lor (Z.land code_point 0x3F) 0x80].

Definition utf8_4 (code_point : Z) : bytes :=
  [Z.lor (Z.land (Z.shiftr code_point 18) 0x07) 0xF0; Z.lor (Z.land (Z.shiftr code_point 12) 0x3F) 0x80;
   Z.lor (Z.land (Z.shiftr code_point 6) 0x3F) 0x80; Z.lor (Z.land code_point 0x3F) 0x80].

(** The second half of a surrogate pair, whose first half is [hex_code]. *)
Definition parseSurrogatePair (throw_exception keep_bad_sequences : bool) (hex_code : bytes) (code_point : Z) : reader B bool :=
  let restore_first_unicode := append ([92; 117] ++ hex_code) in
  let second_half : reader B bool :=
    '(second_hex_code, complete) ← read_hex_code keep_bad_sequences;
    if negb complete then
      if keep_bad_sequences then _ ← restore_first_unicode; _ ← append ([92; 117] ++ second_hex_code); mret true
      else error throw_exception CANNOT_PARSE_ESCAPE_SEQUENCE
    else
      let second_code_point := unhex4 second_hex_code in
      if (0xDC00 <=? second_code_point) && (second_code_point <=? 0xDFFF) then
        _ ← append (utf8_4 (0x10000 + (code_point - 0xD800) * 1024 + (second_code_point - 0xDC00))); mret true
      else if negb keep_bad_sequences then error throw_exception CANNOT_PARSE_ESCAPE_SEQUENCE
      else _ ← restore_first_unicode; _ ← append ([92; 117] ++ second_hex_code); mret true in
  if keep_bad_sequences then
    e ← eof;
    c ← (if e : bool then mret None else c ← peek; mret (Some c));
    if negb (bool_decide (c = Some 92)) then _ ← restore_first_unicode; mret true
    else
      _ ← incr;
      e ← eof;
      c ← (if e : bool then mret None else c ← peek; mret (Some c));
      if negb (bool_decide (c = Some 117)) then _ ← restore_first_unicode; _ ← push_back 92; mret true
      else _ ← incr; second_half
  else
    found ← checkString [92; 117];
    if negb found then error throw_exception CANNOT_PARSE_ESCAPE_SEQUENCE else second_half.

Definition parseUnicode (throw_exception keep_bad_sequences : bool) : reader B bool :=
  '(hex_code, complete) ← read_hex_code keep_bad_sequences;
  if negb complete then
    if keep_bad_sequences then _ ← append ([92; 117] ++ hex_code); mret true
    else error throw_exception CANNOT_PARSE_ESCAPE_SEQUENCE
  else if bool_decide (hex_code = [48; 48; 48; 48]) then _ ← push_back 0; mret true
  else
    let code_point := unhex4 hex_code in
    if code_point <=? 0x7F then _ ← push_back code_point; mret true
    else if code_point <=? 0x07FF then _ ← append (utf8_2 code_point); mret true
    else if (0xD800 <=? code_point) && (code_point <=? 0xDBFF) then parseSurrogatePair throw_exception keep_bad_sequences hex_code code_point
    else _ ← append (utf8_3 code_point); mret true.

(** [parseJSONEscapeSequence], from the backslash on. *)
Definition parseJSONEscapeSequence (throw_exception keep_bad_sequences : bool) : reader B bool :=
  _ ← incr;
  e ← eof;
  if e : bool then if keep_bad_sequences then mret true else error throw_exception CANNOT_PARSE_ESCAPE_SEQUENCE
  else
    c ← peek;
    if c =? 117 (* u *) then _ ← incr; parseUnicode throw_exception keep_bad_sequences
    else
      _ ← push_back
        (if c =? 98 then 8 else if c =? 102 then 12 else if c =? 110 then 10 else if c =? 114 then 13 else if c =? 116 then 9 else c);
      _ ← incr;
      mret true.

(** ** TSV *)

(** What one iteration does at a tab, a newline, a backslash or a carriage return. *)
Definition escaped_body (parse_complex_escape_sequence support_crlf : bool) (c : Z) : reader B (unit + unit) :=
  if (c =? 9) || (c =? 10) then mret (inr tt)
  else
    _ ← (if c =? 92 then
           if parse_complex_escape_sequence then parseComplexEscapeSequence true
           else
             _ ← push_back c;
             _ ← incr;
             e ← eof;
             if e : bool then mret true else c ← peek; _ ← push_back c; _ ← incr; mret true
         else mret true);
    if support_crlf then
      c ← peek;
      if c =? 13 then
        _ ← incr;
        e ← eof;
        if e : bool then mret (inr tt)
        else c ← peek; if negb (c =? 10) then _ ← push_back 13; mret (inl tt) else mret (inr tt)
      else mret (inl tt)
    else mret (inl tt).

Definition readEscapedStringIntoImpl (fuel : nat) (parse_complex_escape_sequence support_crlf : bool) : reader B unit :=
  loop fuel true (if support_crlf then [9; 10; 92; 13] else [9; 10; 92])
    (fun _ => escaped_body parse_complex_escape_sequence support_crlf) (fun _ => mret tt) tt.

Definition readEscapedStringUntilEOLInto (fuel : nat) : reader B unit :=
  loop fuel true [10; 92]
    (fun _ c =>
      if c =? 10 then mret (inr tt)
      else _ ← (if c =? 92 then parseComplexEscapeSequence true else mret true); mret (inl tt))
    (fun _ => mret tt) tt.

(** ** Quoted strings *)
Definition quoted_body (quote : Z) (enable_sql_style_quoting throw_exception : bool) (c : Z) : reader B (unit + bool) :=
  if c =? quote then
    _ ← incr;
    again ← (if enable_sql_style_quoting then
               e ← eof;
               if e : bool then mret false else c ← peek; mret (c =? quote)
             else mret false);
    if again : bool then _ ← push_back quote; _ ← incr; mret (inl tt) else mret (inr true)
  else
    parsed ← parseComplexEscapeSequence throw_exception;
    if parsed : bool then mret (inl tt) else mret (inr false).

Definition readAnyQuotedStringInto (fuel : nat) (quote : Z) (enable_sql_style_quoting throw_exception : bool) : reader B bool :=
  e ← eof;
  c ← (if e : bool then mret None else c ← peek; mret (Some c));
  if negb (bool_decide (c = Some quote)) then error throw_exception CANNOT_PARSE_QUOTED_STRING
  else
    _ ← incr;
    loop fuel true [92; quote] (fun _ => quoted_body quote enable_sql_style_quoting throw_exception)
      (fun _ => error throw_exception CANNOT_PARSE_QUOTED_STRING) tt.

Definition quoted_field_body (c : Z) : reader B (unit + unit) :=
  if c =? 39 then mret (inr tt)
  else
    _ ← push_back c;
    _ ← incr;
    e ← eof;
    if e : bool then mret (inl tt) else c ← peek; _ ← push_back c; _ ← incr; mret (inl tt).

(** The text of a quoted string as it is.  A string that is not closed gives
    [false]; the callers that throw ignore it. *)
Definition readQuotedStringFieldInto (fuel : nat) (throw_exception : bool) : reader B bool :=
  opened ← (if throw_exception then _ ← assertChar 39; mret true else checkChar 39);
  if negb opened then mret false
  else
    _ ← push_back 39;
    _ ← loop fuel true [92; 39] (fun _ => quoted_field_body) (fun _ => mret tt) tt;
    e ← eof;
    if e : bool then mret false
    else _ ← incr; _ ← push_back 39; mret true.

(** ** JSON *)
Definition json_string_body (throw_on_bad_escape_sequence throw_exception : bool) (c : Z) : reader B (unit + bool) :=
  if c =? 34 then _ ← incr; mret (inr true)
  else _ ← parseJSONEscapeSequence throw_exception (negb throw_on_bad_escape_sequence); mret (inl tt).

Definition readJSONStringInto (fuel : nat) (throw_on_bad_escape_sequence throw_exception : bool) : reader B bool :=
  e ← eof;
  c ← (if e : bool then mret None else c ← peek; mret (Some c));
  if negb (bool_decide (c = Some 34)) then error throw_exception CANNOT_PARSE_QUOTED_STRING
  else
    _ ← incr;
    loop fuel true [92; 34] (fun _ => json_string_body throw_on_bad_escape_sequence throw_exception)
      (fun _ => error throw_exception CANNOT_PARSE_QUOTED_STRING) tt.

(** The loop of [readJSONObjectOrArrayPossiblyInvalid] over [balance] and [quotes]. *)
Definition json_object_body (opening_bracket : Z) (throw_exception : bool) (st : Z * bool) (c : Z) : reader B (Z * bool + bool) :=
  let '(balance, quotes) := st in
  _ ← push_back c;
  if c =? 92 then
    _ ← incr;
    e ← eof;
    if e : bool then mret (inl (balance, quotes))
    else c ← peek; _ ← push_back c; _ ← incr; mret (inl (balance, quotes))
  else
    let '(balance, quotes) :=
      if c =? 34 then (balance, negb quotes)
      else if negb quotes then (balance + (if c =? opening_bracket then 1 else -1), quotes)
      else (balance, quotes) in
    _ ← incr;
    if balance =? 0 then mret (inr true)
    else if balance <? 0 then r ← error throw_exception INCORRECT_DATA; mret (inr r)
    else mret (inl (balance, quotes)).

Definition readJSONObjectOrArrayPossiblyInvalid (fuel : nat) (opening_bracket closing_bracket : Z) (throw_exception : bool) : reader B bool :=
  e ← eof;
  c ← (if e : bool then mret None else c ← peek; mret (Some c));
  if negb (bool_decide (c = Some opening_bracket)) then error throw_exception INCORRECT_DATA
  else
    _ ← push_back opening_bracket;
    _ ← incr;
    loop fuel true [92; opening_bracket; closing_bracket; 34] (json_object_body opening_bracket throw_exception)
      (fun _ => error throw_exception INCORRECT_DATA) (1, false).

(** ** CSV *)
Record CSVSettings : Type := CSV {
  delimiter : Z;
  allow_single_quotes : bool;
  allow_double_quotes : bool;
  allow_cr_end_of_line : bool;
  trim_whitespaces : bool;
  custom_delimiter : bytes }.

(** The string without its trailing spaces and tabs. *)
Fixpoint trim_front (l : bytes) : bytes :=
  match l with
  | c :: l' => if (c =? 32) || (c =? 9) then trim_front l' else l
  | [] => []
  end.

Definition trim : reader B unit := fun s b => Ok (tt, rev (trim_front (rev s)), b).

Definition csv_quoted_body (include_quotes : bool) (maybe_quote : Z) : reader B (unit + unit) :=
  _ ← (if include_quotes then push_back maybe_quote else mret tt);
  _ ← incr;
  e ← eof;
  if e : bool then mret (inr tt)
  else c ← peek; if c =? maybe_quote then _ ← push_back maybe_quote; _ ← incr; mret (inl tt) else mret (inr tt).

Definition csv_plain_body (settings : CSVSettings) (c : Z) : reader B (unit + unit) :=
  go_on ← (if (c =? 13) && negb (allow_cr_end_of_line settings) then
             _ ← incr;
             e ← eof;
             if e : bool then mret false
             else c ← peek; if negb (c =? 10) then _ ← push_back 13; mret true else mret false
           else mret false);
  if go_on : bool then mret (inl tt)
  else _ ← (if trim_whitespaces settings then trim else mret tt); mret (inr tt).

Definition readCSVStringInto (fuel : nat) (settings : CSVSettings) (include_quotes allow_throw : bool) : reader B unit :=
  e ← eof;
  if e : bool then mret tt
  else
    maybe_quote ← peek;
    if bool_decide (custom_delimiter settings = []) && (maybe_quote =? delimiter settings) then mret tt
    else if (allow_single_quotes settings && (maybe_quote =? 39)) || (allow_double_quotes settings && (maybe_quote =? 34)) then
      _ ← (if include_quotes then push_back maybe_quote else mret tt);
      _ ← incr;
      loop fuel true [maybe_quote] (fun _ _ => csv_quoted_body include_quotes maybe_quote) (fun _ => mret tt) tt
    else if negb (bool_decide (custom_delimiter settings = [])) then
      if allow_throw then throw LOGICAL_ERROR else mret tt
    else loop fuel true [13; 10; delimiter settings] (fun _ => csv_plain_body settings) (fun _ => mret tt) tt.

(** ** Skipping *)
Definition skipTo (fuel : nat) (symbol : Z) : reader B unit :=
  loop fuel false [symbol] (fun _ _ => _ ← incr; mret (inr tt)) (fun _ => mret tt) tt.

Definition skipToCarriageReturnOrEOF (fuel : nat) : reader B unit := skipTo fuel 13.
Definition skipToNextLineOrEOF (fuel : nat) : reader B unit := skipTo fuel 10.
Definition skipNullTerminated (fuel : nat) : reader B unit := skipTo fuel 0.

Definition skipToUnescapedNextLineOrEOF (fuel : nat) : reader B unit :=
  loop fuel false [10; 92]
    (fun _ c =>
      if c =? 10 then _ ← incr; mret (inr tt)
      else _ ← incr; e ← eof; if e : bool then mret (inr tt) else _ ← incr; mret (inl tt))
    (fun _ => mret tt) tt.

(** ** The functions on strings, which clear their result first *)
Definition clear : reader B unit := fun _ b => Ok (tt, [], b).

Definition readString (fuel : nat) : reader B unit := _ ← clear; readStringInto fuel.
Definition readEscapedString (fuel : nat) : reader B unit := _ ← clear; readEscapedStringIntoImpl fuel true false.
Definition readEscapedStringCRLF (fuel : nat) : reader B unit := _ ← clear; readEscapedStringIntoImpl fuel true true.
Definition readEscapedStringUntilEOL (fuel : nat) : reader B unit := _ ← clear; readEscapedStringUntilEOLInto fuel.
Definition readTSVField (fuel : nat) : reader B unit := _ ← clear; readEscapedStringIntoImpl fuel false false.
Definition readTSVFieldCRLF (fuel : nat) : reader B unit := _ ← clear; readEscapedStringIntoImpl fuel false true.
Definition readQuotedString (fuel : nat) : reader B bool := _ ← clear; readAnyQuotedStringInto fuel 39 false true.
Definition readQuotedStringWithSQLStyle (fuel : nat) : reader B bool := _ ← clear; readAnyQuotedStringInto fuel 39 true true.
Definition tryReadQuotedString (fuel : nat) : reader B bool := _ ← clear; readAnyQuotedStringInto fuel 39 false false.
Definition tryReadQuotedStringWithSQLStyle (fuel : nat) : reader B bool := _ ← clear; readAnyQuotedStringInto fuel 39 true false.
Definition readDoubleQuotedString (fuel : nat) : reader B bool := _ ← clear; readAnyQuotedStringInto fuel 34 false true.
Definition readDoubleQuotedStringWithSQLStyle (fuel : nat) : reader B bool := _ ← clear; readAnyQuotedStringInto fuel 34 true true.
Definition tryReadDoubleQuotedString (fuel : nat) : reader B bool := _ ← clear; readAnyQuotedStringInto fuel 34 false false.
Definition tryReadDoubleQuotedStringWithSQLStyle (fuel : nat) : reader B bool := _ ← clear; readAnyQuotedStringInto fuel 34 true false.
Definition readBackQuotedString (fuel : nat) : reader B bool := _ ← clear; readAnyQuotedStringInto fuel 96 false true.
Definition tryReadBackQuotedString (fuel : nat) : reader B bool := _ ← clear; readAnyQuotedStringInto fuel 96 false false.
Definition readBackQuotedStringWithSQLStyle (fuel : nat) : reader B bool := _ ← clear; readAnyQuotedStringInto fuel 96 true true.
Definition readCSVString (fuel : nat) (settings : CSVSettings) : reader B unit := _ ← clear; readCSVStringInto fuel settings false true.
Definition readCSVField (fuel : nat) (settings : CSVSettings) : reader B unit := _ ← clear; readCSVStringInto fuel settings true true.
Definition readJSONString (fuel : nat) (throw_on_bad_escape_sequence : bool) : reader B bool :=
  _ ← clear; readJSONStringInto fuel throw_on_bad_escape_sequence true.
Definition readJSONObjectPossiblyInvalid (fuel : nat) (throw_exception : bool) : reader B bool :=
  readJSONObjectOrArrayPossiblyInvalid fuel 123 125 throw_exception.
Definition readJSONArrayInto (fuel : nat) (throw_exception : bool) : reader B bool :=
  readJSONObjectOrArrayPossiblyInvalid fuel 91 93 throw_exception.
End readers.
