(* ===== verification/TextReadersFacts.v ===== *)
(** * Text readers and the sizes of buffers

    The laws a buffer keeps for the readers of [TextReaders], and a relation
    between a reader on such a buffer and the same reader on a buffer that has
    all of its data: they return the same, throw the same, and leave the same
    data behind, and none of them reads outside of its buffer. *)

From stdpp Require Import prelude.
From Stdlib Require Import ZArith Lia.
From S2P Require Import Prelude Buffers FindSymbols ReadHelpers TextReaders.

(** ** Laws *)

(** [holds b d]: [d] is what is left to read from [b]. *)
Class TextBufferLaws (B : Type) `{TextBuffer B} := {
  holds : B -> bytes -> Prop;
  holds_window : forall b d, holds b d -> exists r, d = window b ++ r;
  eof_law : forall b d, holds b d ->
    exists b', buf_eof b = Ok (bool_decide (d = []), b') /\ holds b' d /\ (d <> [] -> window b' <> []);
  advance_law : forall b d n, holds b d -> (n <= length (window b))%nat ->
    exists b', buf_advance n b = Ok b' /\ holds b' (drop n d) /\ window b' = drop n (window b);
  read_law : forall b d n, holds b d -> exists b', buf_read n b = Ok (take n d, b') /\ holds b' (drop n d) }.

#[export] Program Instance memory_laws : TextBufferLaws bytes := {| holds b d := b = d |}.
Next Obligation. intros b d ->. exists []. by rewrite app_nil_r. Qed.
Next Obligation. intros b d ->. by exists d. Qed.
Next Obligation. intros b d n -> Hn. exists (drop n d). cbn in *. rewrite bind_defined by (apply Nat.leb_le; lia). done. Qed.
Next Obligation. intros b d n ->. by exists (drop n d). Qed.

#[export] Program Instance read_buffer_laws {S : Type} `{!ReadBuffer.Impl S, !ReadBuffer.Source S} : TextBufferLaws (ReadBuffer.t S) :=
  {| holds := ReadBuffer.holds |}.
Next Obligation. intros S HI HS b d (_ & d' & -> & _). by exists d'. Qed.
Next Obligation.
  intros S HI HS b d Hb. destruct (ReadBuffer.rbuf_eof_spec b d Hb) as (b' & E & Hb' & Ha). exists b'. split_and!; [done..|].
  intros Hd. specialize (Ha Hd). rewrite <- ReadBuffer.length_pending in Ha. cbn. intros E'. rewrite E' in Ha. cbn in Ha. lia.
Qed.
Next Obligation.
  intros S HI HS b d n Hb Hn. destruct (ReadBuffer.advance_spec b d n Hb) as (b' & E & Hb' & _ & Ew & Ep & _).
  { rewrite <- ReadBuffer.length_pending. exact Hn. }
  exists b'. split_and!; [done..|]. cbn. unfold ReadBuffer.pending. by rewrite Ew, Ep, drop_drop.
Qed.
Next Obligation. intros S HI HS b d n Hb. by apply ReadBuffer.read_spec. Qed.

(** ** The relation *)
Section relation.
Context {B : Type} `{TextBufferLaws B}.

(** [related N w m f w' k]: for data shorter than [N], with a byte in the
    window if [w], [m] does what [f] does; a byte is in the window after a
    result [a] if [w' a], and at least [k a] bytes have been read. *)
Definition related {A} (N : nat) (w : bool) (m : reader B A) (f : reader bytes A) (w' : A -> bool) (k : A -> nat) : Prop :=
  forall s b d, holds b d -> (length d < N)%nat -> (w = true -> window b <> []) ->
  match m s b, f s d with
  | Ok (a, s', b'), Ok (a', s'', d') =>
      a = a' /\ s' = s'' /\ holds b' d' /\ (w' a = true -> window b' <> []) /\ (length d' + k a <= length d)%nat
  | Throw e, Throw e' => e = e'
  | _, _ => False
  end.

Lemma related_ret {A} N w (a : A) (w' : A -> bool) k :
  (w' a = true -> w = true) -> k a = 0%nat -> related N w (mret a) (mret a) w' k.
Proof using Type. intros Hw Hk s b d Hb _ Hp. cbn. rewrite Hk. split_and!; [done..|auto|lia]. Qed.

Lemma related_throw {A} N w e (w' : A -> bool) k : related N w (throw e) (throw e) w' k.
Proof using Type. done. Qed.

Lemma related_bind {A C} N w w1 w2 k1 k2 (m : reader B A) f (m2 : A -> reader B C) f2 :
  related N w m f w1 k1 -> (forall a, related N (w1 a) (m2 a) (f2 a) w2 (fun c => k2 c - k1 a)%nat) ->
  related N w (m ≫= m2) (f ≫= f2) w2 k2.
Proof using Type.
  intros H1 H2 s b d Hb HN Hw. specialize (H1 s b d Hb HN Hw). unfold mbind, reader_bind.
  destruct (m s b) as [[[a s'] b']| |], (f s d) as [[[a' s''] d']| |]; try done.
  destruct H1 as (<- & <- & Hb' & Hw' & Hl). specialize (H2 a s' b' d' Hb' ltac:(lia) Hw').
  destruct (m2 a s' b') as [[[c s2] b2]| |], (f2 a s' d') as [[[c' s2'] d2]| |]; try done.
  destruct H2 as (-> & -> & ? & ? & ?). split_and!; [done..|lia].
Qed.

Lemma related_weaken {A} N w (w1 w2 : A -> bool) k1 k2 (m : reader B A) f :
  related N w m f w1 k1 -> (forall a, w2 a = true -> w1 a = true) -> (forall a, k2 a <= k1 a)%nat -> related N w m f w2 k2.
Proof using Type.
  intros H1 Hw Hk s b d Hb HN Hp. specialize (H1 s b d Hb HN Hp). destruct (m s b) as [[[a s'] b']| |], (f s d) as [[[a' s''] d']| |]; try done.
  destruct H1 as (-> & -> & ? & ? & ?). specialize (Hk a'). split_and!; [done..|auto|lia].
Qed.

Lemma related_window {A} N w w' k (m : reader B A) f : related N false m f w' k -> related N w m f w' k.
Proof using Type. intros Hm s b d Hb HN _. by apply Hm. Qed.

(** ** The primitives *)
Lemma related_eof N w : related N w eof eof negb (fun _ => 0%nat).
Proof using Type.
  intros s b d Hb _ _. unfold eof. destruct (eof_law b d Hb) as (b' & -> & Hb' & Hw). cbn. split_and!; [done..| |lia].
  intros Hd. apply Hw. by destruct (bool_decide_reflect (d = [])).
Qed.

Lemma related_peek N : related N true peek peek (fun _ => true) (fun _ => 0%nat).
Proof using Type.
  intros s b d Hb _ Hw. specialize (Hw eq_refl). unfold peek. destruct (holds_window b d Hb) as [r ->].
  destruct (window b) as [|c l] eqn:E; [done|]. cbn. split_and!; [done|done|done|congruence|lia].
Qed.

Lemma related_incr N : related N true incr incr (fun _ => false) (fun _ => 1%nat).
Proof using Type.
  intros s b d Hb _ Hw. specialize (Hw eq_refl). unfold incr. destruct (holds_window b d Hb) as [r E].
  assert (1 <= length (window b))%nat as Hl by (destruct (window b); [done|cbn; lia]).
  destruct (advance_law b d 1 Hb Hl) as (b' & -> & Hb' & _). destruct d as [|c d]; [apply (f_equal length) in E; rewrite length_app in E; cbn in E; lia|].
  cbn. rewrite drop_0. rewrite skipn_cons, drop_0 in Hb'. split_and!; [done..|lia].
Qed.

Lemma related_push N w c : related N w (push_back c) (push_back c) (fun _ => w) (fun _ => 0%nat).
Proof using Type. intros s b d Hb _ Hw. cbn. split_and!; [done..|lia]. Qed.

Lemma related_append N w l : related N w (append l) (append l) (fun _ => w) (fun _ => 0%nat).
Proof using Type. intros s b d Hb _ Hw. cbn. split_and!; [done..|lia]. Qed.

Lemma related_trim N w : related N w trim trim (fun _ => w) (fun _ => 0%nat).
Proof using Type. intros s b d Hb _ Hw. cbn. split_and!; [done..|lia]. Qed.

Lemma related_read N w n : related N w (read n) (read n) (fun _ => false) (fun _ => 0%nat).
Proof using Type.
  intros s b d Hb _ _. unfold read. destruct (read_law b d n Hb) as (b' & -> & Hb'). cbn. split_and!; [done..|rewrite length_drop; lia].
Qed.
End relation.

(** Walks through a reader: primitives, branches and results. *)
Create HintDb readers.
#[export] Hint Resolve related_eof related_peek related_incr related_push related_append related_trim related_read : readers.

Ltac reader_call := solve [eauto with nocore readers | apply related_window; eauto with nocore readers].
Ltac reader_step :=
  match goal with
  | H : negb (bool_decide (_ = Some _)) = false |- _ => apply negb_false_iff, bool_decide_eq_true in H; subst
  | |- related _ (bool_decide (is_Some (Some _))) _ _ _ _ => rewrite bool_decide_eq_true_2 by done
  | |- related _ _ (mret _) _ _ _ => apply related_ret; [cbn; done|cbn; lia]
  | |- related _ _ (throw _) _ _ _ => apply related_throw
  | |- related _ _ (match ?c with _ => _ end) _ _ _ => destruct c eqn:?
  | |- related _ _ (_ ≫= _) _ _ _ => eapply related_bind; [reader_call|intros ?; cbn beta]
  | |- related _ _ _ _ _ _ => eapply related_weaken; [reader_call|cbn; done|intros ?; cbn; lia]
  end.
Ltac reader_walk := repeat reader_step.

(** ** The loop *)

(** The loop one byte at a time. *)
Fixpoint byte_loop {St A : Type} (fuel : nat) (keep : bool) (stop : bytes) (body : St -> Z -> reader bytes (St + A)) (finish : St -> reader bytes A)
    (st : St) : reader bytes A := fun s d =>
  match fuel with
  | O => Undef
  | S fuel =>
      match d with
      | [] => finish st s []
      | c :: d' =>
          if is_in stop c then
            match body st c s d with
            | Ok (inl st, s, d) => byte_loop fuel keep stop body finish st s d
            | Ok (inr a, s, d) => Ok (a, s, d)
            | Throw e => Throw e
            | Undef => Undef
            end
          else byte_loop fuel keep stop body finish st (if keep then s ++ [c] else s) d'
      end
  end.

(** Bytes that are no symbols are taken as they are. *)
Lemma byte_loop_skip {St A} keep stop (body : St -> Z -> reader bytes (St + A)) finish st l1 : forall fuel s l2,
  Forall (fun c => is_in stop c = false) l1 ->
  byte_loop (length l1 + fuel) keep stop body finish st s (l1 ++ l2) = byte_loop fuel keep stop body finish st (if keep then s ++ l1 else s) l2.
Proof.
  induction l1 as [|c l1 IH]; intros fuel s l2 Hl; [destruct keep; by rewrite ?app_nil_r|].
  apply Forall_cons in Hl as [Hc Hl]. cbn [app length Nat.add byte_loop]. rewrite Hc, IH by done. destruct keep; [|done]. by rewrite <- app_assoc.
Qed.

(** A body that reads something. *)
Definition proceeds {St A} (N : nat) (stop : bytes) (body : St -> Z -> reader bytes (St + A)) : Prop :=
  forall st c s d st' s' d', is_in stop c = true -> (length d < N)%nat -> d <> [] -> body st c s d = Ok (inl st', s', d') -> (length d' < length d)%nat.

Lemma byte_loop_fuel {St A} N keep stop (body : St -> Z -> reader bytes (St + A)) finish : proceeds N stop body ->
  forall fuel fuel' st s d, (length d < N)%nat -> (length d < fuel)%nat -> (length d < fuel')%nat ->
  byte_loop fuel keep stop body finish st s d = byte_loop fuel' keep stop body finish st s d.
Proof.
  intros Hp. induction fuel as [|fuel IH]; intros fuel' st s d HN Hf Hf'; [lia|]. destruct fuel' as [|fuel']; [lia|]. cbn [byte_loop].
  destruct d as [|c d]; [done|]. destruct (is_in stop c) eqn:Ec; [|apply IH; cbn in *; lia].
  destruct (body st c s (c :: d)) as [[[[st'|a] s'] d']| |] eqn:E; try done. apply Hp in E; [|done..]. apply IH; lia.
Qed.

Section loops.
Context {B : Type} `{TextBufferLaws B}.
Context {St A : Type} (N : nat) (keep : bool) (stop : bytes).
Context (body : St -> Z -> reader B (St + A)) (body' : St -> Z -> reader bytes (St + A)).
Context (finish : St -> reader B A) (finish' : St -> reader bytes A).

(** A continuing body has read a byte. *)
Definition advances (r : St + A) : nat := match r with inl _ => 1 | inr _ => 0 end.

Context (Hstop : stop <> []).
Context (Hbody : forall st c, is_in stop c = true -> related N true (body st c) (body' st c) (fun _ => false) advances).
Context (Hself : forall st c, is_in stop c = true -> related (B := bytes) N true (body' st c) (body' st c) (fun _ => false) advances).
Context (Hfinish : forall st, related N false (finish st) (finish' st) (fun _ => false) (fun _ => 0%nat)).

Lemma move_to_spec s b d : holds b d -> d <> [] -> window b <> [] ->
  exists l1 b', move_to keep stop s b = Ok (tt, if keep then s ++ l1 else s, b') /\ holds b' (drop (length l1) d) /\
    take (length l1) d = l1 /\ Forall (fun c => is_in stop c = false) l1 /\
    match window b' with [] => (0 < length l1)%nat | c :: _ => is_in stop c = true end.
Proof using Hstop.
  intros Hb Hd Hw. destruct (find_first_symbols_split stop (window b) Hstop) as (l1 & l2 & E & En & Hl & H2). unfold move_to. rewrite En.
  assert (length l1 <= length (window b))%nat as Hle by (rewrite E, length_app; lia).
  destruct (advance_law b d (length l1) Hb Hle) as (b' & -> & Hb' & Hw'). destruct (holds_window b d Hb) as [r Er].
  exists l1, b'. rewrite E, drop_app_length in Hw'. rewrite E, take_app_length. split_and!; [done|done| |done|].
  - rewrite Er, E, <- app_assoc. apply take_app_length.
  - rewrite Hw'. destruct l2; [|done]. rewrite app_nil_r in E. rewrite <- E. destruct (window b); [done|cbn; lia].
Qed.

Lemma body_proceeds : proceeds N stop body'.
Proof using Hself.
  intros st c s d st' s' d' Hc HN Hd E. specialize (Hself st c Hc s d d eq_refl HN (fun _ => Hd)). rewrite E in Hself. cbn in Hself.
  destruct Hself as (_ & _ & _ & _ & Hl). lia.
Qed.

Lemma loop_bytes : forall fuel st s b d, holds b d -> (length d < N)%nat -> (length d < fuel)%nat ->
  match loop fuel keep stop body finish st s b, byte_loop (S (length d)) keep stop body' finish' st s d with
  | Ok (a, s', b'), Ok (a', s'', d') => a = a' /\ s' = s'' /\ holds b' d' /\ (length d' <= length d)%nat
  | Throw e, Throw e' => e = e'
  | _, _ => False
  end.
Proof using Hstop Hbody Hself Hfinish.
  induction fuel as [|fuel IH]; intros st s b d Hb HN Hf; [lia|]. cbn [loop]. unfold mbind, reader_bind.
  unfold eof. destruct (eof_law b d Hb) as (b1 & -> & Hb1 & Hw1). run. destruct (bool_decide_reflect (d = [])) as [->|Hd].
  { specialize (Hfinish st s b1 [] Hb1 HN ltac:(done)). cbn [byte_loop].
    destruct (finish st s b1) as [[[a s'] b']| |], (finish' st s []) as [[[a' s''] d']| |]; try done.
    destruct Hfinish as (-> & -> & ? & _ & ?). split_and!; [done..|lia]. }
  destruct (move_to_spec s b1 d Hb1 Hd (Hw1 Hd)) as (l1 & b2 & -> & Hb2 & Et & Hl1 & Hw2).
  set (d2 := drop (length l1) d) in *. assert (d = l1 ++ d2) as Ed by (rewrite <- (take_drop (length l1) d), Et; done).
  assert (length d = length l1 + length d2)%nat as El by (by rewrite Ed, length_app).
  replace (byte_loop (S (length d)) keep stop body' finish' st s d)
    with (byte_loop (S (length d2)) keep stop body' finish' st (if keep then s ++ l1 else s) d2).
  2:{ rewrite <- byte_loop_skip by done. rewrite <- Ed. f_equal. lia. }
  set (s1 := if keep then s ++ l1 else s). unfold hasPendingData. destruct (window b2) as [|c w2] eqn:Ew.
  { rewrite bool_decide_eq_true_2 by done. cbn [negb]. specialize (IH st s1 b2 d2 Hb2 ltac:(lia) ltac:(lia)).
    destruct (loop fuel keep stop body finish st s1 b2) as [[[a s'] b']| |], (byte_loop (S (length d2)) keep stop body' finish' st s1 d2) as [[[a' s''] d']| |]; try done.
    destruct IH as (-> & -> & ? & ?). split_and!; [done..|lia]. }
  rewrite bool_decide_eq_false_2 by done. cbn [negb]. destruct (holds_window b2 d2 Hb2) as [r Er]. rewrite Ew in Er.
  specialize (Hbody st c Hw2 s1 b2 d2 Hb2 ltac:(lia) ltac:(by rewrite Ew)). cbn [byte_loop].
  unfold peek. rewrite Ew. rewrite Er in *. cbn [app] in *. rewrite Hw2.
  destruct (body st c s1 b2) as [[[r1 s2] b3]| |], (body' st c s1 (c :: w2 ++ r)) as [[[r1' s2'] d3]| |]; try done.
  destruct Hbody as (<- & <- & Hb3 & _ & Hl3). destruct r1 as [st'|a]; cbn in Hl3; [|split_and!; [done..|cbn in *; lia]].
  specialize (IH st' s2 b3 d3 Hb3 ltac:(cbn in *; lia) ltac:(cbn in *; lia)).
  rewrite (byte_loop_fuel N keep stop body' finish' body_proceeds _ (S (length d3))) by (cbn in *; lia).
  destruct (loop fuel keep stop body finish st' s2 b3) as [[[a s'] b']| |], (byte_loop (S (length d3)) keep stop body' finish' st' s2 d3) as [[[a' s''] d']| |]; try done.
  destruct IH as (-> & -> & ? & ?). split_and!; [done..|cbn in *; lia].
Qed.
End loops.

(** On a buffer that has all of its data, the loop goes byte by byte. *)
Lemma loop_flat {St A} N keep stop (body : St -> Z -> reader bytes (St + A)) (finish : St -> reader bytes A) :
  stop <> [] -> (forall st c, is_in stop c = true -> related (B := bytes) N true (body st c) (body st c) (fun _ => false) advances) ->
  (forall st, related (B := bytes) N false (finish st) (finish st) (fun _ => false) (fun _ => 0%nat)) ->
  forall st s d, (length d < N)%nat -> loop N keep stop body finish st s d = byte_loop (S (length d)) keep stop body finish st s d.
Proof.
  intros Hstop Hbody Hfinish st s d HN.
  pose proof (loop_bytes N keep stop body body finish finish Hstop Hbody Hbody Hfinish N st s d d eq_refl HN HN) as Hl.
  destruct (loop N keep stop body finish st s d) as [[[a s'] b']| |], (byte_loop (S (length d)) keep stop body finish st s d) as [[[a' s''] d']| |]; try done.
  - by destruct Hl as (-> & -> & -> & _).
  - by rewrite Hl.
Qed.

Lemma related_loop {B} `{TextBufferLaws B} {St A} N w keep stop (body : St -> Z -> reader B (St + A)) body' (finish : St -> reader B A) finish' st :
  stop <> [] -> (forall st c, is_in stop c = true -> related N true (body st c) (body' st c) (fun _ => false) advances) ->
  (forall st, related N false (finish st) (finish' st) (fun _ => false) (fun _ => 0%nat)) ->
  (forall st c, is_in stop c = true -> related (B := bytes) N true (body' st c) (body' st c) (fun _ => false) advances) ->
  (forall st, related (B := bytes) N false (finish' st) (finish' st) (fun _ => false) (fun _ => 0%nat)) ->
  related N w (loop N keep stop body finish st) (loop N keep stop body' finish' st) (fun _ => false) (fun _ => 0%nat).
Proof.
  intros Hstop Hbody Hfinish Hbody' Hfinish'. apply related_window. intros s b d Hb HN _.
  rewrite (loop_flat N keep stop body' finish' Hstop Hbody' Hfinish' st s d HN).
  pose proof (loop_bytes N keep stop body body' finish finish' Hstop Hbody Hbody' Hfinish N st s b d Hb HN HN) as Hl.
  destruct (loop N keep stop body finish st s b) as [[[a s'] b']| |], (byte_loop (S (length d)) keep stop body' finish' st s d) as [[[a' s''] d']| |]; try done.
  destruct Hl as (-> & -> & ? & ?). split_and!; [done..|lia].
Qed.

(** ** The readers *)
Section reader_facts.
Context {B : Type} `{TextBufferLaws B}.

Lemma related_error N w e x : related N w (error x e) (error x e) (fun _ => false) (fun _ => 0%nat).
Proof using Type. unfold error. destruct x; reader_walk. Qed.
#[local] Hint Resolve related_error : readers.

Lemma related_when N w (x : bool) (m : reader B unit) f : related N w m f (fun _ => w) (fun _ => 0%nat) ->
  related N w (if x then m else mret tt) (if x then f else mret tt) (fun _ => w) (fun _ => 0%nat).
Proof using Type. intros Hm. destruct x; [done|]. by apply related_ret. Qed.
#[local] Hint Resolve related_when : readers.

Lemma related_look N w (e : bool) : w = negb e ->
  related N w (if e then mret None else c ← peek; mret (Some c)) (if e then mret None else c ← peek; mret (Some c)) (fun c => bool_decide (is_Some c)) (fun _ => 0%nat).
Proof using Type.
  intros ->. destruct e; [reader_walk|]. cbn [negb]. eapply related_bind; [apply related_peek|]. intros c. apply related_ret; [done|done].
Qed.

#[local] Hint Extern 1 (related _ _ (match _ with true => mret None | false => _ end) _ _ _) => apply related_look; reflexivity : readers.

Lemma related_checkString N s : related N false (checkString s) (checkString s) (fun _ => false) (fun _ => 0%nat).
Proof using Type. induction s as [|x s IH]; cbn [checkString]; reader_walk. Qed.
#[local] Hint Resolve related_checkString : readers.

Lemma related_checkChar N w c : related N w (checkChar c) (checkChar c) (fun _ => false) (fun r => if r then 1 else 0)%nat.
Proof using Type. unfold checkChar. reader_walk. Qed.
#[local] Hint Resolve related_checkChar : readers.

Lemma related_assertChar N w c : related N w (assertChar c) (assertChar c) (fun _ => false) (fun r => 0)%nat.
Proof using Type. unfold assertChar. reader_walk. Qed.
#[local] Hint Resolve related_assertChar : readers.

Lemma related_complex N x : related N true (parseComplexEscapeSequence x) (parseComplexEscapeSequence x) (fun _ => false) (fun _ => 1%nat).
Proof using Type. unfold parseComplexEscapeSequence. reader_walk. Qed.
#[local] Hint Resolve related_complex : readers.

Lemma related_digits N n : forall l, related N false (read_digits n l) (read_digits n l) (fun _ => false) (fun _ => 0%nat).
Proof using Type. induction n as [|n IH]; intros l; cbn [read_digits]; reader_walk. Qed.
#[local] Hint Resolve related_digits : readers.

Lemma related_hex_code N x : related N false (read_hex_code x) (read_hex_code x) (fun _ => false) (fun _ => 0%nat).
Proof using Type. unfold read_hex_code. reader_walk. Qed.
#[local] Hint Resolve related_hex_code : readers.

Lemma related_surrogates N x k h c : related N false (parseSurrogatePair x k h c) (parseSurrogatePair x k h c) (fun _ => false) (fun _ => 0%nat).
Proof using Type. unfold parseSurrogatePair. reader_walk. Qed.
#[local] Hint Resolve related_surrogates : readers.

Lemma related_unicode N x k : related N false (parseUnicode x k) (parseUnicode x k) (fun _ => false) (fun _ => 0%nat).
Proof using Type. unfold parseUnicode. reader_walk. Qed.
#[local] Hint Resolve related_unicode : readers.

Lemma related_json_escape N x k : related N true (parseJSONEscapeSequence x k) (parseJSONEscapeSequence x k) (fun _ => false) (fun _ => 1%nat).
Proof using Type. unfold parseJSONEscapeSequence. reader_walk. Qed.
#[local] Hint Resolve related_json_escape : readers.

(** Is the quote doubled? *)
Lemma related_again N (sql : bool) q :
  related N false (if sql then e ← eof; if e : bool then mret false else c ← peek; mret (c =? q) else mret false)
    (if sql then e ← eof; if e : bool then mret false else c ← peek; mret (c =? q) else mret false) (fun r => r) (fun _ => 0%nat).
Proof using Type. destruct sql; reader_walk. Qed.

Lemma related_quoted_body N q sql x c : related N true (quoted_body q sql x c) (quoted_body q sql x c) (fun _ => false) advances.
Proof using Type.
  unfold quoted_body. destruct (c =? q); [|reader_walk]. reader_step. eapply related_bind; [apply related_again|]. intros a1. cbn beta. reader_walk.
Qed.

Lemma related_json_string_body N k x c : related N true (json_string_body k x c) (json_string_body k x c) (fun _ => false) advances.
Proof using Type. unfold json_string_body. reader_walk. Qed.

Lemma related_csv_quoted N i q : related N true (csv_quoted_body i q) (csv_quoted_body i q) (fun _ => false) advances.
Proof using Type. unfold csv_quoted_body. reader_walk. Qed.

Lemma related_quoted_field_body N c : related N true (quoted_field_body c) (quoted_field_body c) (fun _ => false) advances.
Proof using Type. unfold quoted_field_body. reader_walk. Qed.

Lemma related_json_object_body N o x st c : related N true (json_object_body o x st c) (json_object_body o x st c) (fun _ => false) advances.
Proof using Type. destruct st. unfold json_object_body. reader_walk. Qed.

Lemma related_escaped_body N x c : is_in [9; 10; 92] c = true ->
  related N true (escaped_body x false c) (escaped_body x false c) (fun _ => false) advances.
Proof using Type.
  intros Hc. unfold escaped_body. destruct (_ || _) eqn:E; [reader_walk|]. apply orb_false_iff in E as [E1 E2]. cbn in Hc. rewrite E1, E2 in Hc. cbn in Hc.
  destruct (c =? 92); [|done]. eapply (related_bind _ _ (fun _ => false) _ (fun _ => 1%nat)); [destruct x; reader_walk|]. intros a. reader_walk.
Qed.
End reader_facts.

#[export] Hint Resolve related_error related_when related_checkString related_checkChar related_assertChar related_complex
  related_json_escape related_quoted_body related_json_string_body related_csv_quoted related_escaped_body
  related_quoted_field_body related_json_object_body : readers.
#[export] Hint Extern 1 (related _ _ (match _ with true => mret None | false => _ end) _ _ _) => apply related_look; reflexivity : readers.

(** A loop whose body and end are walked through at both buffers; [tac]
    prepares a body that is given one of the symbols. *)
Ltac loop_walk tac :=
  eapply related_weaken;
  [apply related_loop; [done|intros ? ? ?; tac; reader_walk|intros ?; reader_walk|intros ? ? ?; tac; reader_walk|intros ?; reader_walk]|done|intros ?; cbn; lia].

(** Which of the symbols the byte is. *)
Ltac symbol_cases :=
  idtac; match goal with
  | Hc : is_in _ ?c = true |- _ => cbn [is_in] in Hc; repeat match goal with |- context [c =? ?x] => destruct (c =? x); try discriminate Hc end
  end.

Section loop_readers.
Context {B : Type} `{TextBufferLaws B}.

Lemma related_until N w chars : chars <> [] ->
  related N w (readStringUntilCharsInto N chars) (readStringUntilCharsInto N chars) (fun _ => false) (fun _ => 0%nat).
Proof using Type. intros Hc. unfold readStringUntilCharsInto. loop_walk idtac. Qed.

Lemma related_skip_until N w chars : chars <> [] ->
  related N w (skipStringUntilChars N chars) (skipStringUntilChars N chars) (fun _ => false) (fun _ => 0%nat).
Proof using Type. intros Hc. unfold skipStringUntilChars. loop_walk idtac. Qed.

Lemma related_null_terminated N : related N false (readNullTerminated N) (readNullTerminated N) (fun _ => false) (fun _ => 0%nat).
Proof using Type. unfold readNullTerminated. eapply related_bind; [by apply related_until|]. intros ?. cbn beta. reader_walk. Qed.

Lemma related_escaped N x : related N false (readEscapedStringIntoImpl N x false) (readEscapedStringIntoImpl N x false) (fun _ => false) (fun _ => 0%nat).
Proof using Type. unfold readEscapedStringIntoImpl. loop_walk idtac. Qed.

Lemma related_escaped_eol N : related N false (readEscapedStringUntilEOLInto N) (readEscapedStringUntilEOLInto N) (fun _ => false) (fun _ => 0%nat).
Proof using Type.
  unfold readEscapedStringUntilEOLInto.
  loop_walk symbol_cases.
Qed.

Lemma related_quoted N q sql x : related N false (readAnyQuotedStringInto N q sql x) (readAnyQuotedStringInto N q sql x) (fun _ => false) (fun _ => 0%nat).
Proof using Type.
  unfold readAnyQuotedStringInto. reader_walk. loop_walk idtac.
Qed.
Lemma related_quoted_field N x : related N false (readQuotedStringFieldInto N x) (readQuotedStringFieldInto N x) (fun _ => false) (fun _ => 0%nat).
Proof using Type.
  unfold readQuotedStringFieldInto. eapply (related_bind _ _ (fun _ => false) _ (fun _ => 0%nat)); [destruct x; reader_walk|].
  intros o. destruct (negb o); [reader_walk|]. reader_step.
  eapply (related_bind _ _ (fun _ => false) _ (fun _ => 0%nat)); [loop_walk idtac|]. intros ?. cbn beta. reader_walk.
Qed.

Lemma related_json_string N k x : related N false (readJSONStringInto N k x) (readJSONStringInto N k x) (fun _ => false) (fun _ => 0%nat).
Proof using Type. unfold readJSONStringInto. reader_walk. loop_walk idtac. Qed.

Lemma related_json_object N o c x : related N false (readJSONObjectOrArrayPossiblyInvalid N o c x) (readJSONObjectOrArrayPossiblyInvalid N o c x) (fun _ => false) (fun _ => 0%nat).
Proof using Type.
  unfold readJSONObjectOrArrayPossiblyInvalid. reader_walk. loop_walk idtac.
Qed.

Lemma related_csv_plain N settings c : related N true (csv_plain_body settings c) (csv_plain_body settings c) (fun _ => false) advances.
Proof using Type.
  unfold csv_plain_body. eapply (related_bind _ _ (fun _ => false) _ (fun r => if r : bool then 1 else 0)%nat).
  - destruct (_ && _); reader_walk.
  - intros go_on. destruct go_on; reader_walk.
Qed.
End loop_readers.
#[export] Hint Resolve related_csv_plain : readers.

Section csv_readers.
Context {B : Type} `{TextBufferLaws B}.

Lemma related_csv N settings q x : related N false (readCSVStringInto N settings q x) (readCSVStringInto N settings q x) (fun _ => false) (fun _ => 0%nat).
Proof using Type.
  unfold readCSVStringInto. reader_walk.
  - loop_walk idtac.
  - loop_walk idtac.
Qed.

Lemma related_skip N c : related N false (skipTo N c) (skipTo N c) (fun _ => false) (fun _ => 0%nat).
Proof using Type. unfold skipTo. loop_walk idtac. Qed.

Lemma related_skip_unescaped N : related N false (skipToUnescapedNextLineOrEOF N) (skipToUnescapedNextLineOrEOF N) (fun _ => false) (fun _ => 0%nat).
Proof using Type. unfold skipToUnescapedNextLineOrEOF. loop_walk symbol_cases. Qed.
End csv_readers.
