(* ===== verification/TextWriters.v ===== *)
(** * Writing text formats

    The functions of [src/IO/WriteHelpers.h] that write strings for the
    formats TSV, CSV, JSON, XML, Markdown and quoted values.  A writer gives
    the bytes it appends to its buffer. *)

From stdpp Require Import prelude.
From Stdlib Require Import ZArith Lia.
From S2P Require Import Prelude FindSymbols.

(** The loop most writers have: the bytes before the next of the symbols
    [stop] are written as they are, the symbol as [escape] says. *)
Fixpoint escape_loop (fuel : nat) (stop : bytes) (escape : Z -> bytes) (s : bytes) : bytes :=
  match fuel with
  | O => []
  | S fuel =>
      let next_pos := find_first_symbols stop s in
      match s !! next_pos with
      | None => s
      | Some c => take next_pos s ++ escape c ++ escape_loop fuel stop escape (drop (S next_pos) s)
      end
  end.

Definition escape_symbols (stop : bytes) (escape : Z -> bytes) (s : bytes) : bytes := escape_loop (S (length s)) stop escape s.

(** ** Backslashes *)
Definition writeAnyEscapedString (quote_character : Z) (escape_quote_with_quote escape_backslash_with_backslash : bool) (s : bytes) : bytes :=
  escape_symbols [8; 12; 10; 13; 9; 0; 92; quote_character]
    (fun c =>
      if c =? quote_character then [if escape_quote_with_quote then quote_character else 92; quote_character]
      else if c =? 8 then [92; 98]
      else if c =? 12 then [92; 102]
      else if c =? 10 then [92; 110]
      else if c =? 13 then [92; 114]
      else if c =? 9 then [92; 116]
      else if c =? 0 then [92; 48]
      else if c =? 92 then (if escape_backslash_with_backslash then [92] else []) ++ [92]
      else [c]) s.

Definition writeEscapedString (s : bytes) : bytes := writeAnyEscapedString 39 false true s.

Definition writeAnyQuotedString (quote_character : Z) (s : bytes) : bytes :=
  [quote_character] ++ writeAnyEscapedString quote_character false true s ++ [quote_character].

Definition writeQuotedString (s : bytes) : bytes := writeAnyQuotedString 39 s.
Definition writeDoubleQuotedString (s : bytes) : bytes := writeAnyQuotedString 34 s.
Definition writeBackQuotedString (s : bytes) : bytes := writeAnyQuotedString 96 s.

Definition writeQuotedStringPostgreSQL (s : bytes) : bytes := [39] ++ writeAnyEscapedString 39 true false s ++ [39].
Definition writeBackQuotedStringMySQL (s : bytes) : bytes := [96] ++ writeAnyEscapedString 96 true true s ++ [96].

(** ** CSV *)
Definition writeCSVString (quote : Z) (s : bytes) : bytes := [quote] ++ escape_symbols [quote] (fun _ => [quote; quote]) s ++ [quote].

(** ** JSON *)

(** The digit of a control character's lower half. *)
Definition json_digit (lower_half : Z) : Z := if lower_half <=? 9 then 48 + lower_half else 65 + lower_half - 10.

Fixpoint json_chars (escape_forward_slashes : bool) (s : bytes) : bytes :=
  match s with
  | [] => []
  | c :: s' =>
      if c =? 8 then [92; 98] ++ json_chars escape_forward_slashes s'
      else if c =? 12 then [92; 102] ++ json_chars escape_forward_slashes s'
      else if c =? 10 then [92; 110] ++ json_chars escape_forward_slashes s'
      else if c =? 13 then [92; 114] ++ json_chars escape_forward_slashes s'
      else if c =? 9 then [92; 116] ++ json_chars escape_forward_slashes s'
      else if c =? 92 then [92; 92] ++ json_chars escape_forward_slashes s'
      else if c =? 47 then (if escape_forward_slashes then [92] else []) ++ [47] ++ json_chars escape_forward_slashes s'
      else if c =? 34 then [92; 34] ++ json_chars escape_forward_slashes s'
      else if c <=? 0x1F then
        [92; 117; 48; 48; 48 + Z.shiftr c 4; json_digit (Z.land c 0xF)] ++ json_chars escape_forward_slashes s'
      else
        match s' with
        | c1 :: c2 :: s'' =>
            if (c =? 0xE2) && (c1 =? 0x80) && ((c2 =? 0xA8) || (c2 =? 0xA9)) then
              (if c2 =? 0xA8 then [92; 117; 50; 48; 50; 56] else [92; 117; 50; 48; 50; 57]) ++ json_chars escape_forward_slashes s''
            else [c] ++ json_chars escape_forward_slashes s'
        | _ => [c] ++ json_chars escape_forward_slashes s'
        end
  end.

Definition writeJSONString (escape_forward_slashes : bool) (s : bytes) : bytes := [34] ++ json_chars escape_forward_slashes s ++ [34].

(** ** XML *)
Definition writeXMLStringForTextElementOrAttributeValue (s : bytes) : bytes :=
  escape_symbols [60; 38; 62; 34; 39]
    (fun c =>
      if c =? 60 then [38; 108; 116; 59]                  (* &lt; *)
      else if c =? 38 then [38; 97; 109; 112; 59]         (* &amp; *)
      else if c =? 62 then [38; 103; 116; 59]             (* &gt; *)
      else if c =? 34 then [38; 113; 117; 111; 116; 59]   (* &quot; *)
      else [38; 97; 112; 111; 115; 59]) s.                (* &apos; *)

Definition writeXMLStringForTextElement (s : bytes) : bytes :=
  escape_symbols [60; 38] (fun c => if c =? 60 then [38; 108; 116; 59] else [38; 97; 109; 112; 59]) s.

(** ** Markdown: a backslash before the punctuation that it could mean. *)
Definition markdown_symbols : bytes :=
  [33; 34; 35; 36; 37; 38; 39; 40; 41; 42; 43; 44; 45; 46; 47; 58; 59; 60; 61; 62; 63; 64; 91; 92; 93; 94; 95; 96; 123; 124; 125; 126].

Fixpoint writeAnyMarkdownEscapedString (s : bytes) : bytes :=
  match s with
  | [] => []
  | c :: s => (if is_in markdown_symbols c then [92; c] else [c]) ++ writeAnyMarkdownEscapedString s
  end.

(** ** What the loop writes *)
Lemma escape_loop_chars stop escape : stop <> [] -> forall fuel s, (length s < fuel)%nat ->
  escape_loop fuel stop escape s = s ≫= (fun c => if is_in stop c then escape c else [c]).
Proof.
  intros Hs. induction fuel as [|fuel IH]; intros s Hf; [lia|]. cbn [escape_loop].
  destruct (find_first_symbols_split stop s Hs) as (l1 & l2 & -> & -> & Hl & H2).
  rewrite bind_app, lookup_app_r, Nat.sub_diag by lia.
  assert (l1 ≫= (fun c => if is_in stop c then escape c else [c]) = l1) as ->.
  { clear -Hl. induction Hl as [|c l Hc _ IH]; [done|]. cbn. rewrite Hc. cbn. by f_equal. }
  destruct l2 as [|c l2]; [done|]. cbn [lookup list_lookup]. rewrite take_app_length. f_equal. cbn. rewrite H2. f_equal.
  replace (S (length l1)) with (length (l1 ++ [c])) by (rewrite length_app; cbn; lia).
  replace (l1 ++ c :: l2) with ((l1 ++ [c]) ++ l2) by (by rewrite <- app_assoc). rewrite drop_app_length. apply IH.
  rewrite length_app in Hf. cbn in Hf. lia.
Qed.

Lemma escape_symbols_chars stop escape s : stop <> [] ->
  escape_symbols stop escape s = s ≫= (fun c => if is_in stop c then escape c else [c]).
Proof. intros Hs. apply escape_loop_chars; [done|lia]. Qed.
