(* ===== verification/TextRoundtrips.v ===== *)
(** * Text that is written is read back

    The writers of [TextWriters] and the readers of [TextReaders], on a buffer
    that has all of its data; [TextReadersFacts] carries the results to every
    buffer. *)

From stdpp Require Import prelude.
From Stdlib Require Import ZArith Lia.
From S2P Require Import Prelude FindSymbols ReadHelpers TextReaders TextReadersFacts TextWriters.

(** ** Steps of a reader *)
Lemma bind_run {A C} (m : reader bytes A) (f : A -> reader bytes C) s d a s' d' : m s d = Ok (a, s', d') -> (m ≫= f) s d = f a s' d'.
Proof. intros E. unfold mbind, reader_bind. by rewrite E. Qed.

Lemma incr_cons s c (d : bytes) : incr s (c :: d) = Ok (tt, s, d).
Proof. cbn. by rewrite drop_0. Qed.

(** ** Steps of a loop *)
Section steps.
Context {St A : Type} (N : nat) (stop : bytes) (body : St -> Z -> reader bytes (St + A)) (finish : St -> reader bytes A).
Context (Hp : proceeds N stop body).

Definition run_loop (st : St) (s d : bytes) : outcome (A * bytes * bytes) := byte_loop (S (length d)) true stop body finish st s d.

Lemma run_loop_cons st s c d : run_loop st s (c :: d) =
  if is_in stop c then
    match body st c s (c :: d) with
    | Ok (inl st, s, d') => byte_loop (S (length d)) true stop body finish st s d'
    | Ok (inr a, s, d') => Ok (a, s, d')
    | Throw e => Throw e
    | Undef => Undef
    end
  else run_loop st (s ++ [c]) d.
Proof using Type. done. Qed.

Lemma run_loop_plain st s c d : is_in stop c = false -> run_loop st s (c :: d) = run_loop st (s ++ [c]) d.
Proof using Type. intros Hc. by rewrite run_loop_cons, Hc. Qed.

Lemma run_loop_next st st' s s' c d d' : is_in stop c = true -> body st c s (c :: d) = Ok (inl st', s', d') -> (S (length d) < N)%nat ->
  run_loop st s (c :: d) = run_loop st' s' d'.
Proof using Hp.
  intros Hc E HN. rewrite run_loop_cons, Hc, E. pose proof (Hp st c s (c :: d) st' s' d' Hc HN ltac:(done) E) as Hl. cbn in Hl.
  apply (byte_loop_fuel N _ _ _ _ Hp); lia.
Qed.

Lemma run_loop_return st s s' c d d' a : is_in stop c = true -> body st c s (c :: d) = Ok (inr a, s', d') -> run_loop st s (c :: d) = Ok (a, s', d').
Proof using Type. intros Hc E. by rewrite run_loop_cons, Hc, E. Qed.

(** A string whose characters are encoded one by one. *)
Lemma run_loop_chars (enc : Z -> bytes) (P : Z -> Prop) st l : Forall P l ->
  (forall c s d, P c -> (length (enc c ++ d) < N)%nat -> run_loop st s (enc c ++ d) = run_loop st (s ++ [c]) d) ->
  forall s d, (length ((l ≫= enc) ++ d) < N)%nat -> run_loop st s ((l ≫= enc) ++ d) = run_loop st (s ++ l) d.
Proof using Type.
  intros Hl Henc. induction Hl as [|c l Hc Hl IH]; intros s d HN; [by rewrite app_nil_r|]. cbn in *. rewrite <- app_assoc in *.
  rewrite Henc by done. rewrite IH; [by rewrite <- app_assoc|]. rewrite length_app in HN. lia.
Qed.
End steps.

(** ** TSV *)
Lemma escaped_proceeds N x : proceeds N [9; 10; 92] (fun _ : unit => escaped_body (B := bytes) x false).
Proof. apply body_proceeds. intros _ c Hc. by apply related_escaped_body. Qed.

Definition escaped_char (q : Z) (c : Z) : bytes := writeAnyEscapedString q false true [c].

Lemma writeAnyEscapedString_chars q s : writeAnyEscapedString q false true s = s ≫= escaped_char q.
Proof.
  unfold escaped_char, writeAnyEscapedString. rewrite escape_symbols_chars by done. apply list_bind_ext; [|done]. intros c.
  rewrite escape_symbols_chars by done. cbn. by rewrite app_nil_r.
Qed.

(** A character is written as it is, or as a backslash and a character that means it. *)
Definition simple_escape (e c : Z) : Prop := (e =? 120) = false /\ (e =? 78) = false /\ parseEscapeSequence e = c /\
  negb (c =? 92) && negb (c =? 39) && negb (c =? 34) && negb (c =? 96) && negb (c =? 47) && negb (c =? 61) && negb (isControlASCII c) = false.

Lemma escaped_char_cases q c : q ∈ [39; 34; 96] ->
  (is_in [8; 12; 10; 13; 9; 0; 92; q] c = false /\ escaped_char q c = [c]) \/ (exists e, escaped_char q c = [92; e] /\ simple_escape e c).
Proof.
  intros Hq. unfold escaped_char, writeAnyEscapedString. rewrite escape_symbols_chars by done. cbn [mbind list_bind]. rewrite app_nil_r.
  destruct (is_in _ c) eqn:E; [right|by left]. destruct (Z.eqb_spec c q) as [->|Hc].
  - exists q. split; [done|]. rewrite !elem_of_cons in Hq. destruct Hq as [->|[->|[->|?%elem_of_nil]]]; done.
  - cbn [is_in] in E. repeat (apply orb_true_iff in E as [->%Z.eqb_eq|E]; [eexists; split; [reflexivity|done]|]).
    apply orb_true_iff in E as [E%Z.eqb_eq|E]; done.
Qed.

Lemma parse_simple x e c s d : simple_escape e c -> parseComplexEscapeSequence (B := bytes) x s (92 :: e :: d) = Ok (true, s ++ [c], d).
Proof.
  intros (Hx & Hn & <- & Hb). unfold parseComplexEscapeSequence, mbind, reader_bind. cbn. rewrite Hx, Hn, Hb. cbn. by rewrite drop_0.
Qed.

Lemma tsv_flat N str s c d : c = 9 \/ c = 10 -> (length (writeEscapedString str ++ c :: d) < N)%nat ->
  readEscapedStringIntoImpl (B := bytes) N true false s (writeEscapedString str ++ c :: d) = Ok (tt, s ++ str, c :: d).
Proof.
  intros Hc HN. unfold readEscapedStringIntoImpl. rewrite loop_flat; [|done|intros _ x Hx; by apply related_escaped_body|intros _; reader_walk|done].
  unfold writeEscapedString in *. rewrite writeAnyEscapedString_chars in *. fold (run_loop [9; 10; 92] (fun _ : unit => escaped_body (B := bytes) true false) (fun _ => mret tt) tt s ((str ≫= escaped_char 39) ++ c :: d)).
  rewrite (run_loop_chars N _ _ _ (escaped_char 39) (fun _ => True)); [|by apply Forall_true| |done].
  - apply run_loop_return; [destruct Hc as [->| ->]; done|]. destruct Hc as [->| ->]; done.
  - intros x s' d' _ HN'. destruct (escaped_char_cases 39 x) as [[Hx E]|(e & E & He)]; [by left| |]; rewrite E in *.
    + apply run_loop_plain. eapply is_in_subset; [|done]. clear; intros y; rewrite !elem_of_cons; tauto.
    + cbn [app] in *. apply (run_loop_next N); [apply escaped_proceeds|done| |cbn in *; lia].
      unfold escaped_body, mbind, reader_bind. cbn [Z.eqb Pos.eqb orb]. by rewrite (parse_simple true e x).
Qed.

(** ** Quoted strings *)
Lemma quoted_proceeds N q sql x : proceeds N [92; q] (fun _ : unit => quoted_body (B := bytes) q sql x).
Proof. apply body_proceeds. intros _ c Hc. apply related_quoted_body. Qed.

(** What may follow a quoted string: with SQL style quoting, no other quote. *)
Definition after_quote (q : Z) (sql : bool) (d : bytes) : Prop := sql = true -> head d <> Some q.

Lemma quoted_end q sql x s d : after_quote q sql d -> quoted_body (B := bytes) q sql x q s (q :: d) = Ok (inr true, s, d).
Proof.
  intros Hd. unfold quoted_body, mbind, reader_bind. rewrite Z.eqb_refl. cbn. rewrite drop_0. destruct sql; [|done]. specialize (Hd eq_refl).
  destruct d as [|c d]; [done|]. cbn. destruct (Z.eqb_spec c q) as [->|]; done.
Qed.

(** The opening quote of a string. *)
Lemma opened {A} q (X K : reader bytes A) s d :
  (e ← eof; c ← (if e : bool then mret None else c ← peek; mret (Some c)); if negb (bool_decide (c = Some q)) then X else _ ← incr; K) s (q :: d) = K s d.
Proof. unfold mbind, reader_bind. cbn. rewrite (bool_decide_eq_true_2 (Some q = Some q)) by done. cbn. by rewrite drop_0. Qed.

Lemma quoted_flat N q sql x str s d : q ∈ [39; 34; 96] -> after_quote q sql d -> (length (writeAnyQuotedString q str ++ d) < N)%nat ->
  readAnyQuotedStringInto (B := bytes) N q sql x s (writeAnyQuotedString q str ++ d) = Ok (true, s ++ str, d).
Proof.
  intros Hq Hd HN. unfold readAnyQuotedStringInto, writeAnyQuotedString in *. rewrite writeAnyEscapedString_chars in *.
  rewrite <- !app_assoc in *. cbn [app] in *. rewrite opened.
  rewrite loop_flat; [|done|intros _ c Hc; apply related_quoted_body|intros _; reader_walk|cbn in HN; lia].
  fold (run_loop [92; q] (fun _ : unit => quoted_body (B := bytes) q sql x) (fun _ => error x CANNOT_PARSE_QUOTED_STRING) tt s ((str ≫= escaped_char q) ++ q :: d)).
  rewrite (run_loop_chars N _ _ _ (escaped_char q) (fun _ => True)); [|by apply Forall_true| |cbn in HN; lia].
  - apply run_loop_return; [cbn; by rewrite Z.eqb_refl, orb_true_r|]. by apply quoted_end.
  - intros c s' d' _ HN'. destruct (escaped_char_cases q c Hq) as [[Hx E]|(e & E & He)]; rewrite E in *.
    + apply run_loop_plain. eapply is_in_subset; [|done]. clear; intros y; rewrite !elem_of_cons; tauto.
    + cbn [app] in *. apply (run_loop_next N); [apply quoted_proceeds|done| |cbn in *; lia].
      unfold quoted_body, mbind, reader_bind. destruct (Z.eqb_spec 92 q) as [<-|]; [rewrite !elem_of_cons, elem_of_nil in Hq; lia|]. by rewrite (parse_simple x e c).
Qed.

(** ** CSV *)
Lemma csv_flat N settings x q str s d :
  (q = 39 /\ allow_single_quotes settings = true \/ q = 34 /\ allow_double_quotes settings = true) -> delimiter settings <> q -> head d <> Some q ->
  (length (writeCSVString q str ++ d) < N)%nat ->
  readCSVStringInto (B := bytes) N settings false x s (writeCSVString q str ++ d) = Ok (tt, s ++ str, d).
Proof.
  intros Hq Hdel Hd HN. unfold readCSVStringInto, writeCSVString in *. rewrite escape_symbols_chars, <- !app_assoc in * by done. cbn [app] in *.
  set (enc := fun c => if is_in [q] c then [q; q] else [c]) in *. 
  rewrite (bind_run eof _ _ _ false s (q :: (str ≫= enc) ++ q :: d)) by done.
  rewrite (bind_run peek _ _ _ q s (q :: (str ≫= enc) ++ q :: d)) by done.
  rewrite (proj2 (Z.eqb_neq q (delimiter settings))), andb_false_r by congruence.
  assert ((allow_single_quotes settings && (q =? 39)) || (allow_double_quotes settings && (q =? 34)) = true) as ->
    by (destruct Hq as [[-> ->]|[-> ->]]; by rewrite ?andb_true_r, ?orb_true_r).
  rewrite (bind_run (mret tt) _ _ _ tt _ _ eq_refl), (bind_run incr _ _ _ _ _ _ (incr_cons _ _ _)).
  rewrite loop_flat; [|done|intros _ c Hc; apply related_csv_quoted|intros _; reader_walk|cbn in HN; lia].
  fold (run_loop [q] (fun (_ : unit) (_ : Z) => csv_quoted_body (B := bytes) false q) (fun _ => mret tt) tt s ((str ≫= enc) ++ q :: d)).
  rewrite (run_loop_chars N _ _ _ enc (fun _ => True)); [|by apply Forall_true| |cbn in HN; lia].
  - apply run_loop_return; [cbn; by rewrite Z.eqb_refl|]. unfold csv_quoted_body, mbind, reader_bind. cbn. rewrite drop_0.
    destruct d as [|c d]; [done|]. cbn. destruct (Z.eqb_spec c q) as [->|]; done.
  - intros c s' d' _ HN'. subst enc. cbn beta in *. destruct (is_in [q] c) eqn:E; [|by apply run_loop_plain].
    apply is_in_spec, list_elem_of_singleton in E as ->. cbn [app] in *. apply (run_loop_next N); [|cbn; by rewrite Z.eqb_refl| |cbn in *; lia].
    + apply body_proceeds. intros _ c Hc. apply related_csv_quoted.
    + unfold csv_quoted_body, mbind, reader_bind. cbn. rewrite Z.eqb_refl. cbn. by rewrite !drop_0.
Qed.

(** ** JSON *)
Lemma json_proceeds N k x : proceeds N [92; 34] (fun _ : unit => json_string_body (B := bytes) k x).
Proof. apply body_proceeds. intros _ c Hc. apply related_json_string_body. Qed.

Lemma json_control k x c s d : 0 <= c <= 31 ->
  json_string_body (B := bytes) k x 92 s ([92; 117; 48; 48; 48 + Z.shiftr c 4; json_digit (Z.land c 0xF)] ++ d) = Ok (inl tt, s ++ [c], d).
Proof.
  intros Hc. rewrite <- (Z2Nat.id c) by lia. assert (Z.to_nat c < 32)%nat as Hn by lia. generalize dependent (Z.to_nat c). intros n Hn.
  destruct k; do 32 (destruct n as [|n]; [reflexivity|]); lia.
Qed.

Lemma json_simple k x e c s d : (e =? 117) = false ->
  (if e =? 98 then 8 else if e =? 102 then 12 else if e =? 110 then 10 else if e =? 114 then 13 else if e =? 116 then 9 else e) = c ->
  json_string_body (B := bytes) k x 92 s (92 :: e :: d) = Ok (inl tt, s ++ [c], d).
Proof.
  intros He <-. unfold json_string_body. cbn [Z.eqb Pos.eqb]. erewrite bind_run; [reflexivity|]. unfold parseJSONEscapeSequence.
  rewrite (bind_run incr _ _ _ _ _ _ (incr_cons _ _ _)), (bind_run eof _ _ _ false s (e :: d)), (bind_run peek _ _ _ e s (e :: d)) by done.
  rewrite He. rewrite (bind_run (push_back _) _ _ _ _ _ _ eq_refl), (bind_run incr _ _ _ _ _ _ (incr_cons _ _ _)). done.
Qed.

(** The characters [cs] that the text [l] stands for. *)
Inductive json_token : bytes -> bytes -> Prop :=
| token_plain c : is_in [92; 34] c = false -> json_token [c] [c]
| token_simple e c : (e =? 117) = false ->
    (if e =? 98 then 8 else if e =? 102 then 12 else if e =? 110 then 10 else if e =? 114 then 13 else if e =? 116 then 9 else e) = c ->
    json_token [92; e] [c]
| token_control c : 0 <= c <= 31 -> json_token [92; 117; 48; 48; 48 + Z.shiftr c 4; json_digit (Z.land c 0xF)] [c]
| token_line : json_token [92; 117; 50; 48; 50; 56] [0xE2; 0x80; 0xA8]
| token_paragraph : json_token [92; 117; 50; 48; 50; 57] [0xE2; 0x80; 0xA9].

Lemma json_chars_token slashes c str : byte_ok c -> exists l cs str',
  json_chars slashes (c :: str) = l ++ json_chars slashes str' /\ json_token l cs /\ c :: str = cs ++ str' /\ (length str' <= length str)%nat.
Proof.
  intros Hc. assert (forall l, json_chars slashes (c :: str) = l ++ json_chars slashes str -> json_token l [c] -> exists l cs str',
    json_chars slashes (c :: str) = l ++ json_chars slashes str' /\ json_token l cs /\ c :: str = cs ++ str' /\ (length str' <= length str)%nat) as Hone.
  { intros l E Hl. by exists l, [c], str. }
  revert Hone. cbn [json_chars].
  repeat match goal with |- context [if c =? ?x then _ else _] => destruct (Z.eqb_spec c x) as [->|?]; [intros Hone; by eapply Hone; [reflexivity|constructor]|] end.
  assert (is_in [92; 34] c = false) as Hp by (cbn; by rewrite !(proj2 (Z.eqb_neq _ _))).
  destruct (Z.eqb_spec c 47) as [->|?]; [intros Hone; destruct slashes; [apply (Hone [92; 47])|apply (Hone [47])]; by constructor|].
  destruct (Z.leb_spec c 31); [intros Hone; eapply Hone; [reflexivity|constructor; unfold byte_ok in Hc; lia]|].
  destruct str as [|c1 [|c2 str]]; try (intros Hone; eapply Hone; [reflexivity|by constructor]).
  destruct (_ && _) eqn:E; [|intros Hone; eapply Hone; [reflexivity|by constructor]]. intros _.
  apply andb_true_iff in E as [[->%Z.eqb_eq ->%Z.eqb_eq]%andb_true_iff E]. destruct (Z.eqb_spec c2 0xA8) as [->|?].
  - exists [92; 117; 50; 48; 50; 56], [0xE2; 0x80; 0xA8], str. split_and!; [done|constructor|done|cbn; lia].
  - apply Z.eqb_eq in E as ->. exists [92; 117; 50; 48; 50; 57], [0xE2; 0x80; 0xA9], str. split_and!; [done|constructor|done|cbn; lia].
Qed.

Section json.
Context (N : nat) (k x : bool) (finish : unit -> reader bytes bool).
Let json_loop : bytes -> bytes -> outcome (bool * bytes * bytes) := run_loop [92; 34] (fun _ : unit => json_string_body (B := bytes) k x) finish tt.

Lemma json_token_read l cs s d : json_token l cs -> (length (l ++ d) < N)%nat -> json_loop s (l ++ d) = json_loop (s ++ cs) d.
Proof using Type.
  intros Hl HN. subst json_loop. destruct Hl as [c Hc|e c He Hc|c Hc| |]; [by apply run_loop_plain| | | |];
    (apply (run_loop_next N); [apply json_proceeds|done| |cbn in *; lia]).
  - by apply json_simple.
  - by apply json_control.
  - by destruct k.
  - by destruct k.
Qed.

Lemma json_chars_read slashes n : forall str s d, (length str < n)%nat -> bytes_ok str -> (length (json_chars slashes str ++ d) < N)%nat ->
  json_loop s (json_chars slashes str ++ d) = json_loop (s ++ str) d.
Proof using Type.
  induction n as [|n IH]; intros str s d Hn Hok HN; [lia|]. destruct str as [|c str]; [by rewrite app_nil_r|]. cbn in Hn.
  pose proof Hok as Hok'. apply Forall_cons in Hok' as [Hc _]. destruct (json_chars_token slashes c str Hc) as (l & cs & str' & E & Hl & Ec & Hle).
  rewrite E, <- app_assoc in *. rewrite Ec in Hok |- *. apply Forall_app in Hok as [_ Hok]. rewrite (json_token_read l cs) by done.
  rewrite IH; [by rewrite <- app_assoc|lia|done|]. rewrite length_app in HN. lia.
Qed.
End json.

Lemma json_flat N k x slashes str s d : bytes_ok str -> (length (writeJSONString slashes str ++ d) < N)%nat ->
  readJSONStringInto (B := bytes) N k x s (writeJSONString slashes str ++ d) = Ok (true, s ++ str, d).
Proof.
  intros Hok HN. unfold readJSONStringInto, writeJSONString in *. rewrite <- !app_assoc in *. cbn [app] in *. rewrite opened.
  rewrite loop_flat; [|done|intros _ c Hc; apply related_json_string_body|intros _; reader_walk|cbn in HN; lia].
  fold (run_loop [92; 34] (fun _ : unit => json_string_body (B := bytes) k x) (fun _ => error x CANNOT_PARSE_QUOTED_STRING) tt s (json_chars slashes str ++ 34 :: d)).
  rewrite (json_chars_read N k x _ slashes (S (length str))) by (done || lia || (cbn in HN; lia)).
  apply run_loop_return; [done|]. unfold json_string_body. cbn [Z.eqb Pos.eqb]. by rewrite (bind_run incr _ _ _ _ _ _ (incr_cons _ _ _)).
Qed.

(** ** Any buffer *)
Lemma related_result {B} `{TextBufferLaws B} {A} N w (m : reader B A) f w' k s b d a s' d' :
  related N w m f w' k -> holds b d -> (length d < N)%nat -> (w = true -> window b <> []) -> f s d = Ok (a, s', d') ->
  exists b', m s b = Ok (a, s', b') /\ holds b' d'.
Proof.
  intros Hr Hb HN Hw E. specialize (Hr s b d Hb HN Hw). rewrite E in Hr. destruct (m s b) as [[[a1 s1] b1]| |]; try done.
  destruct Hr as (-> & -> & Hb1 & _). by exists b1.
Qed.


(** ** Fields as they are *)

(** A result that appended to the string what it took from the buffer, and
    left [Q] behind. *)
Definition copied {A} (Q : A -> bytes -> Prop) (s d : bytes) (r : outcome (A * bytes * bytes)) : Prop :=
  forall a s' d', r = Ok (a, s', d') -> exists l, d = l ++ d' /\ s' = s ++ l /\ Q a d'.

Lemma copied_bind {A C} (Q : A -> bytes -> Prop) (Q' : C -> bytes -> Prop) (m : reader bytes A) f s d :
  copied Q s d (m s d) -> (forall a s1 d1, Q a d1 -> copied Q' s1 d1 (f a s1 d1)) -> copied Q' s d ((m ≫= f) s d).
Proof.
  intros Hm Hf a s' d'. unfold mbind, reader_bind. destruct (m s d) as [[[a1 s1] d1]| |]; try done.
  destruct (Hm _ _ _ eq_refl) as (l1 & -> & -> & HQ). intros E. apply (Hf _ _ _ HQ) in E as (l2 & -> & -> & HQ').
  exists (l1 ++ l2). by rewrite <- !app_assoc.
Qed.

Lemma copied_ret {A} (Q : A -> bytes -> Prop) a s d : Q a d -> copied Q s d (mret (M := reader bytes) a s d).
Proof. intros HQ a' s' d' [= <- <- <-]. exists []. by rewrite app_nil_r. Qed.

(** A byte that is appended and passed, in front of a reader. *)
Lemma copied_push {A} (Q : A -> bytes -> Prop) c (f : reader bytes A) s d :
  copied Q (s ++ [c]) d (f (s ++ [c]) d) -> copied Q s (c :: d) ((_ ← push_back c; _ ← incr; f) s (c :: d)).
Proof.
  intros Hf a s' d'. rewrite (bind_run (push_back c) _ _ _ tt (s ++ [c]) (c :: d)) by done. rewrite (bind_run incr _ _ _ _ _ _ (incr_cons _ _ _)).
  intros E. apply Hf in E as (l & -> & -> & HQ). exists (c :: l). by rewrite <- app_assoc.
Qed.

(** The character after a backslash. *)
Lemma copied_escaped {A} (Q : A -> bytes -> Prop) (a : A) s d : (forall d, Q a d) ->
  copied Q s d ((e ← eof; if e : bool then mret a else c ← peek; _ ← push_back c; _ ← incr; mret a) s d).
Proof.
  intros HQ. destruct d as [|c d].
  - rewrite (bind_run eof _ _ _ true s []) by done. by apply copied_ret.
  - rewrite (bind_run eof _ _ _ false s (c :: d)), (bind_run peek _ _ _ c s (c :: d)) by done. apply copied_push. by apply copied_ret.
Qed.

Definition when_done {St A} (Q : A -> bytes -> Prop) (r : St + A) (d : bytes) : Prop := match r with inl _ => True | inr a => Q a d end.

Lemma byte_loop_copied {St A} (Q : A -> bytes -> Prop) stop (body : St -> Z -> reader bytes (St + A)) (finish : St -> reader bytes A) :
  (forall st c s d, is_in stop c = true -> copied (when_done Q) s (c :: d) (body st c s (c :: d))) -> (forall st s, copied Q s [] (finish st s [])) ->
  forall fuel st s d, copied Q s d (byte_loop fuel true stop body finish st s d).
Proof.
  intros Hbody Hfinish. induction fuel as [|fuel IH]; intros st s d a s' d'; [done|]. cbn [byte_loop]. destruct d as [|c d]; [apply Hfinish|].
  destruct (is_in stop c) eqn:Ec.
  - specialize (Hbody st c s d Ec). destruct (body st c s (c :: d)) as [[[[st1|a1] s1] d1]| |]; try done.
    + destruct (Hbody _ _ _ eq_refl) as (l1 & -> & -> & _). intros E. apply IH in E as (l2 & -> & -> & ?). exists (l1 ++ l2). by rewrite <- !app_assoc.
    + intros [= <- <- <-]. exact (Hbody _ _ _ eq_refl).
  - intros E. apply IH in E as (l & -> & -> & ?). exists (c :: l). by rewrite <- app_assoc.
Qed.

Lemma tsv_field_copied N s d : (length d < N)%nat ->
  copied (fun _ d' => d' = [] \/ head d' = Some 9 \/ head d' = Some 10) s d (readEscapedStringIntoImpl (B := bytes) N false false s d).
Proof.
  intros HN. unfold readEscapedStringIntoImpl. rewrite loop_flat; [|done|intros _ c Hc; by apply related_escaped_body|intros _; reader_walk|done].
  apply byte_loop_copied; [|intros _ s'; apply copied_ret; by left]. intros _ c s' d' Hc. unfold escaped_body.
  destruct (_ || _) eqn:E; [apply copied_ret; right; apply orb_true_iff in E as [->%Z.eqb_eq| ->%Z.eqb_eq]; auto|].
  eapply (copied_bind (fun _ _ => True)); [|intros a s1 d1 _; by apply copied_ret]. destruct (c =? 92); [|by apply copied_ret].
  apply copied_push. by apply copied_escaped.
Qed.

(** A TSV field is read without errors, whatever it is. *)
Lemma byte_loop_total {St A} N stop (body : St -> Z -> reader bytes (St + A)) (finish : St -> reader bytes A) : proceeds N stop body ->
  (forall st c s d, is_in stop c = true -> exists r, body st c s (c :: d) = Ok r) -> (forall st s, exists r, finish st s [] = Ok r) ->
  forall fuel st s d, (length d < N)%nat -> (length d < fuel)%nat -> exists r, byte_loop fuel true stop body finish st s d = Ok r.
Proof.
  intros Hp Hbody Hfinish. induction fuel as [|fuel IH]; intros st s d HN Hf; [lia|]. cbn [byte_loop]. destruct d as [|c d]; [apply Hfinish|].
  destruct (is_in stop c) eqn:Ec; [|apply IH; cbn in *; lia]. destruct (Hbody st c s d Ec) as [[[[st1|a1] s1] d1] E]; rewrite E; [|by eauto].
  apply Hp in E; [|done..]. apply IH; cbn in *; lia.
Qed.

Lemma tsv_field_total N s d : (length d < N)%nat -> exists s' d', readEscapedStringIntoImpl (B := bytes) N false false s d = Ok (tt, s', d').
Proof.
  intros HN. unfold readEscapedStringIntoImpl. rewrite loop_flat; [|done|intros _ c Hc; by apply related_escaped_body|intros _; reader_walk|done].
  destruct (byte_loop_total N [9; 10; 92] (fun _ : unit => escaped_body (B := bytes) false false) (fun _ => mret tt) (escaped_proceeds N false)
    ltac:(intros ? c s1 d1 Hc; unfold escaped_body, mbind, reader_bind; destruct (_ || _); [by eexists|]; destruct (c =? 92); [|by eexists];
          cbn; rewrite drop_0; destruct d1; by eexists) ltac:(intros ? s1; by eexists) (S (length d)) tt s d HN ltac:(lia)) as [[[[] s'] d'] E]. eauto.
Qed.

Lemma checkChar_flat c s d : checkChar (B := bytes) c s d =
  match d with a :: d' => if a =? c then Ok (true, s, d') else Ok (false, s, d) | [] => Ok (false, s, d) end.
Proof. destruct d as [|a d]; [done|]. unfold checkChar, mbind, reader_bind. cbn. destruct (a =? c); [|done]. cbn. by rewrite drop_0. Qed.

Lemma quoted_field_open (x : bool) s d : ((if x then _ ← assertChar 39; mret true else checkChar 39) : reader bytes bool) s d =
  match d with a :: d' => if a =? 39 then Ok (true, s, d') else (if x then Throw CANNOT_PARSE_INPUT_ASSERTION_FAILED else Ok (false, s, d))
  | [] => if x then Throw CANNOT_PARSE_INPUT_ASSERTION_FAILED else Ok (false, s, d) end.
Proof.
  destruct x; [|rewrite checkChar_flat; done]. unfold assertChar, mbind, reader_bind. rewrite checkChar_flat. destruct d as [|a d]; [done|]. by destruct (a =? 39).
Qed.

Lemma quoted_field_loop_copied N s d : (length d < N)%nat ->
  copied (fun _ d' => d' = [] \/ head d' = Some 39) s d (loop (B := bytes) N true [92; 39] (fun _ => quoted_field_body) (fun _ => mret tt) tt s d).
Proof.
  intros HN. rewrite loop_flat; [|done|intros _ c Hc; apply related_quoted_field_body|intros _; reader_walk|done].
  apply byte_loop_copied; [|intros _ s'; apply copied_ret; by left]. intros _ c s' d' Hc. unfold quoted_field_body.
  destruct (Z.eqb_spec c 39) as [->|]; [apply copied_ret; by right|]. apply copied_push. by apply copied_escaped.
Qed.

Lemma quoted_field_copied N x s d : (length d < N)%nat -> copied (fun _ _ => True) s d (readQuotedStringFieldInto (B := bytes) N x s d).
Proof.
  intros HN a s' d'. unfold readQuotedStringFieldInto. unfold mbind at 1, reader_bind at 1. rewrite quoted_field_open.
  destruct d as [|c d]; [destruct x; [done|]; cbn; intros [= <- <- <-]; exists []; split_and!; [done|by rewrite app_nil_r|done]|].
  destruct (Z.eqb_spec c 39) as [->|]; [|destruct x; [done|]; cbn; intros [= <- <- <-]; exists []; split_and!; [done|by rewrite app_nil_r|done]].
  cbn [negb]. rewrite (bind_run (push_back 39) _ _ _ tt (s ++ [39]) d) by done. intros E.
  assert (copied (fun (_ : bool) _ => True) (s ++ [39]) d (Ok (a, s', d'))) as Hc.
  { rewrite <- E. eapply copied_bind; [apply quoted_field_loop_copied; cbn in HN; lia|]. intros _ s1 d1 [->|Hh].
    - rewrite (bind_run eof _ _ _ true s1 []) by done. by apply copied_ret.
    - destruct d1 as [|c d1]; [done|]. cbn in Hh. injection Hh as ->. rewrite (bind_run eof _ _ _ false s1 (39 :: d1)) by done.
      rewrite (bind_run incr _ _ _ _ _ _ (incr_cons _ _ _)). intros a2 s2 d2 [= <- <- <-]. by exists [39]. }
  destruct (Hc _ _ _ eq_refl) as (l & -> & -> & _). exists (39 :: l). by rewrite <- app_assoc.
Qed.

Lemma json_object_copied N o c x s d : (length d < N)%nat ->
  copied (fun _ _ => True) s d (readJSONObjectOrArrayPossiblyInvalid (B := bytes) N o c x s d).
Proof.
  intros HN. unfold readJSONObjectOrArrayPossiblyInvalid. assert (forall s d, copied (fun _ _ => True) s d (error (B := bytes) x INCORRECT_DATA s d)) as Herr.
  { intros s1 d1. destruct x; [done|]. by apply copied_ret. }
  destruct d as [|c1 d]; [by apply Herr|]. rewrite (bind_run eof _ _ _ false s (c1 :: d)) by done.
  rewrite (bind_run _ _ _ _ (Some c1) s (c1 :: d)) by done. destruct (bool_decide_reflect (Some c1 = Some o)) as [[= ->]|]; [|by apply Herr].
  cbn [negb]. apply copied_push. rewrite loop_flat; [|done|intros st c2 Hc; apply related_json_object_body|intros st; reader_walk|cbn in HN; lia].
  apply byte_loop_copied; [|intros st s'; apply Herr]. intros [balance quotes] c2 s' d' Hc. unfold json_object_body.
  destruct (c2 =? 92).
  - apply copied_push. by apply (copied_escaped (when_done (fun _ _ => True))).
  - destruct (if c2 =? 34 then _ else _) as [balance' quotes']. apply copied_push. destruct (balance' =? 0); [by apply copied_ret|].
    destruct (balance' <? 0); [|by apply copied_ret]. eapply copied_bind; [apply Herr|]. intros a s1 d1 _. by apply copied_ret.
Qed.
