(* ===== verification/LexerLiterals.v ===== *)
(** * String literals

    The lexer only finds the end of a literal in quotes; the readers of
    [TextReaders] decode it.  Where the literal ends ([literal_length]), for the
    lexer, for the readers and for the text of the writers. *)

From stdpp Require Import prelude.
From Stdlib Require Import ZArith Lia.
From S2P Require Import Prelude FindSymbols TextReaders TextReadersFacts TextWriters TextRoundtrips Lexer LexerFacts.

(** ** The lexer *)

(** The bytes behind the opening quote up to the closing one, which is included. *)
Fixpoint literal_length (quote : Z) (l : bytes) : option nat :=
  match l with
  | [] => None
  | c :: l1 =>
    if c =? quote then
      match l1 with
      | d :: l2 => if d =? quote then (fun n => S (S n)) <$> literal_length quote l2 else Some 1%nat
      | [] => Some 1%nat
      end
    else if c =? 92 then match l1 with _ :: l2 => (fun n => S (S n)) <$> literal_length quote l2 | [] => None end
    else S <$> literal_length quote l1
  end.

Lemma literal_length_le quote l n : literal_length quote l = Some n -> (n <= length l)%nat.
Proof.
  revert n. induction l as [l IH] using (induction_ltof1 _ (@length Z)). unfold ltof in IH. intros n. destruct l as [|c l1]; [done|]. cbn [literal_length].
  destruct (c =? quote); [|destruct (c =? 92)].
  - destruct l1 as [|d l2]; [intros [= <-]; cbn; lia|]. destruct (d =? quote); [|intros [= <-]; cbn; lia].
    intros (m & Hm & ->)%fmap_Some_1. apply IH in Hm; cbn; lia.
  - destruct l1 as [|d l2]; [done|]. intros (m & Hm & ->)%fmap_Some_1. apply IH in Hm; cbn; lia.
  - intros (m & Hm & ->)%fmap_Some_1. apply IH in Hm; cbn; lia.
Qed.

Lemma literal_length_plain quote l1 l2 : Forall (fun c => is_in [quote; 92] c = false) l1 ->
  literal_length quote (l1 ++ l2) = (fun n => (length l1 + n)%nat) <$> literal_length quote l2.
Proof.
  induction 1 as [|c l1 Hc _ IH]; cbn [app length]; [by destruct (literal_length quote l2)|]. cbn [is_in] in Hc.
  cbn [literal_length]. destruct (c =? quote); [done|]. destruct (c =? 92); [done|]. rewrite IH. by destruct (literal_length quote l2).
Qed.

Lemma quoted_loop_literal quote q fuel pos : (pos <= length q)%nat -> (length q - pos < fuel)%nat ->
  quoted_loop fuel quote q pos = Ok (match literal_length quote (drop pos q) with Some n => (true, (pos + n)%nat) | None => (false, length q) end).
Proof.
  revert pos. induction fuel as [|fuel IH]; intros pos Hpos Hf; [lia|]. cbn [quoted_loop]. unfold find.
  destruct (find_first_symbols_split [quote; 92] (drop pos q)) as (l1 & l2 & E & -> & H1 & H2); [done|].
  rewrite E, literal_length_plain by done. set (p := (pos + length l1)%nat). assert (Ed : drop p q = l2).
  { unfold p. rewrite <- drop_drop, E. apply drop_app_length. }
  assert (Hp : (p + length l2 = length q)%nat).
  { unfold p. apply (f_equal length) in E. rewrite length_drop, length_app in E. lia. }
  destruct l2 as [|c l2]; cbn [length] in Hp.
  { rewrite (proj2 (Nat.leb_le _ _)) by lia. cbn. do 2 f_equal. lia. }
  rewrite (proj2 (Nat.leb_gt _ _)) by lia. assert (Hc : q !! p = Some c) by (rewrite <- (Nat.add_0_r p), <- lookup_drop, Ed; done).
  assert (Ed1 : drop (S p) q = l2) by (rewrite <- Nat.add_1_r, <- drop_drop, Ed; apply drop_0).
  unfold load. rewrite Hc. run. cbn [literal_length]. destruct (Z.eqb_spec c quote) as [->|Hcq].
  - unfold sees. replace (q !! S p) with (l2 !! 0%nat) by (by rewrite <- Ed1, lookup_drop, Nat.add_0_r).
    destruct l2 as [|d l2]; cbn [lookup list_lookup]; [cbn; do 2 f_equal; lia|]. destruct (Z.eqb_spec d quote); [|cbn; do 2 f_equal; lia].
    rewrite IH by (cbn [length] in Hp; lia). assert (Ed2 : drop (S (S p)) q = l2) by (rewrite <- (Nat.add_1_r (S p)), <- drop_drop, Ed1; apply drop_0).
    rewrite Ed2. destruct (literal_length quote l2); cbn; [|done]. do 2 f_equal. lia.
  - cbn [is_in] in H2. destruct (Z.eqb_spec c quote); [done|]. destruct (Z.eqb_spec c 92) as [->|]; [|done].
    destruct l2 as [|d l2]; cbn [length] in Hp.
    { rewrite (proj2 (Nat.leb_le _ _)) by lia. cbn. do 2 f_equal. lia. }
    rewrite (proj2 (Nat.leb_gt _ _)), IH by lia. assert (Ed2 : drop (S (S p)) q = l2) by (rewrite <- (Nat.add_1_r (S p)), <- drop_drop, Ed1; apply drop_0).
    rewrite Ed2. destruct (literal_length quote l2); cbn; [|done]. do 2 f_equal. lia.
Qed.

(** The types of the tokens in quotes. *)
Definition quoted_token (quote : Z) : TokenType := if quote =? 39 then StringLiteral else QuotedIdentifier.
Definition unclosed_token (quote : Z) : TokenType :=
  if quote =? 39 then ErrorSingleQuoteIsNotClosed else if quote =? 34 then ErrorDoubleQuoteIsNotClosed else ErrorBackQuoteIsNotClosed.

Lemma nextTokenImpl_quoted quote prev q pos : quote ∈ [39; 34; 96] -> q !! pos = Some quote ->
  nextTokenImpl prev q pos = Ok (match literal_length quote (drop (S pos) q) with
    | Some n => (MakeToken (quoted_token quote) pos (S (pos + n)), S (pos + n))
    | None => (MakeToken (unclosed_token quote) pos (length q), length q)
    end).
Proof.
  intros Hq Hpos. assert (Hlt := lookup_lt_Some _ _ _ Hpos). unfold nextTokenImpl. rewrite (proj2 (Nat.leb_gt _ _) Hlt). unfold load. rewrite Hpos. run.
  assert (E : quotedString quote q pos pos (quoted_token quote) (unclosed_token quote) = Ok (match literal_length quote (drop (S pos) q) with
    | Some n => (MakeToken (quoted_token quote) pos (S (pos + n)), S (pos + n))
    | None => (MakeToken (unclosed_token quote) pos (length q), length q) end)).
  { unfold quotedString. rewrite quoted_loop_literal by lia. by destruct (literal_length _ _). }
  rewrite !elem_of_cons, elem_of_nil in Hq. destruct Hq as [->|[->|[->|[]]]]; exact E.
Qed.

(** ** The readers and the writers *)

(** A literal that the reader takes as the lexer does: no escape sequence is a
    hexadecimal code, and no quote is doubled unless SQL style quoting is on. *)
Fixpoint plain_literal (sql : bool) (quote : Z) (l : bytes) : bool :=
  match l with
  | [] => true
  | c :: l1 =>
    if c =? quote then match l1 with d :: l2 => if d =? quote then sql && plain_literal sql quote l2 else true | [] => true end
    else if c =? 92 then match l1 with e :: l2 => negb (e =? 120) && plain_literal sql quote l2 | [] => true end
    else plain_literal sql quote l1
  end.

(** The bytes of the literal behind its opening quote, all the rest when it is not closed. *)
Definition literal_bytes (quote : Z) (l : bytes) : bytes :=
  match literal_length quote l with Some n => take n l | None => l end.

Lemma literal_bytes_cons quote c l : c <> quote -> c <> 92 -> literal_bytes quote (c :: l) = c :: literal_bytes quote l.
Proof.
  intros H1%Z.eqb_neq H2%Z.eqb_neq. unfold literal_bytes. cbn [literal_length]. rewrite H1, H2. by destruct (literal_length quote l).
Qed.

Lemma literal_bytes_pair quote c d l : c = quote /\ d = quote \/ c = 92 /\ c <> quote -> literal_bytes quote (c :: d :: l) = c :: d :: literal_bytes quote l.
Proof.
  unfold literal_bytes. cbn [literal_length]. intros [[-> ->]|[-> Hq%Z.eqb_neq]].
  - rewrite !Z.eqb_refl. by destruct (literal_length quote l).
  - rewrite Hq. cbn. by destruct (literal_length quote l).
Qed.

Lemma parse_escape x e s d : (e =? 120) = false -> exists s', parseComplexEscapeSequence (B := bytes) x s (92 :: e :: d) = Ok (true, s', d).
Proof.
  intros He. unfold parseComplexEscapeSequence, mbind, reader_bind. cbn. rewrite He. destruct (e =? 78); cbn; rewrite ?drop_0; [by eexists|].
  destruct (_ && _); cbn; rewrite drop_0; by eexists.
Qed.

(** What a reader answers for a literal that is not closed. *)
Definition refused {B} (x : bool) (r : outcome (bool * bytes * B)) : Prop :=
  if x then exists e, r = Throw e else exists str b, r = Ok (false, str, b).

(** The loop of the reader ends where the lexer ends the literal. *)
Lemma quoted_reader_literal N quote sql x l s : quote <> 92 -> plain_literal sql quote (literal_bytes quote l) = true -> (length l < N)%nat ->
  let r := run_loop [92; quote] (fun _ : unit => quoted_body (B := bytes) quote sql x) (fun _ => error x CANNOT_PARSE_QUOTED_STRING) tt s l in
  match literal_length quote l with
  | Some n => exists str, r = Ok (true, str, drop n l)
  | None => refused x r
  end.
Proof.
  intros Hq. revert s. induction l as [l IH] using (induction_ltof1 _ (@length Z)). unfold ltof in IH. intros s Hx HN. cbn zeta.
  destruct l as [|c l1]; [cbn; destruct x; by repeat eexists|]. destruct (Z.eqb_spec c quote) as [->|Hcq].
  - assert (Hin : is_in [92; quote] quote = true) by (cbn; by rewrite Z.eqb_refl, orb_true_r). cbn [literal_length]. rewrite Z.eqb_refl.
    destruct l1 as [|d l2]; [eexists; by apply (run_loop_return _ _ _ _ s s), quoted_end|].
    destruct (Z.eqb_spec d quote) as [->|Hd]; [|eexists; apply (run_loop_return _ _ _ _ s s); [done|]; apply quoted_end; intros _ [= ?]; congruence].
    rewrite literal_bytes_pair in Hx by auto. cbn [plain_literal] in Hx. rewrite !Z.eqb_refl in Hx. apply andb_true_iff in Hx as [-> Hx]. cbn [length] in *.
    rewrite (run_loop_next N _ _ _ (quoted_proceeds N quote true x) tt tt s (s ++ [quote]) quote _ l2); [|done| |cbn; lia].
    + specialize (IH l2 ltac:(cbn; lia) (s ++ [quote]) Hx ltac:(lia)). by destruct (literal_length quote l2).
    + unfold quoted_body, mbind, reader_bind. rewrite Z.eqb_refl. cbn. rewrite Z.eqb_refl. cbn. by rewrite !drop_0.
  - cbn [literal_length]. rewrite (proj2 (Z.eqb_neq c quote)) by done. destruct (Z.eqb_spec c 92) as [->|Hc].
    + destruct l1 as [|e l2].
      { rewrite run_loop_cons. cbn [is_in]. unfold quoted_body, mbind, reader_bind. rewrite (proj2 (Z.eqb_neq 92 quote)) by congruence. destruct x; by repeat eexists. }
      rewrite literal_bytes_pair in Hx by auto. cbn [plain_literal] in Hx. rewrite (proj2 (Z.eqb_neq 92 quote)) in Hx by done.
      apply andb_true_iff in Hx as [He%negb_true_iff Hx]. cbn [length] in *. destruct (parse_escape x e s l2 He) as [s' Es'].
      rewrite (run_loop_next N _ _ _ (quoted_proceeds N quote sql x) tt tt s s' 92 _ l2); [|done| |cbn; lia].
      * specialize (IH l2 ltac:(cbn; lia) s' Hx ltac:(lia)). by destruct (literal_length quote l2).
      * unfold quoted_body. rewrite (proj2 (Z.eqb_neq 92 quote)) by congruence. unfold mbind, reader_bind. by rewrite Es'.
    + rewrite run_loop_plain by (cbn; rewrite (proj2 (Z.eqb_neq _ _) Hc), (proj2 (Z.eqb_neq _ _) Hcq); done).
      rewrite literal_bytes_cons in Hx by done. cbn [plain_literal length] in *. rewrite (proj2 (Z.eqb_neq c quote)), (proj2 (Z.eqb_neq c 92)) in Hx by done.
      specialize (IH l1 ltac:(cbn; lia) (s ++ [c]) Hx ltac:(lia)). by destruct (literal_length quote l1).
Qed.

Lemma quoted_reader_opened N quote sql x l s : (length l < N)%nat ->
  readAnyQuotedStringInto (B := bytes) N quote sql x s (quote :: l) =
  run_loop [92; quote] (fun _ : unit => quoted_body (B := bytes) quote sql x) (fun _ => error x CANNOT_PARSE_QUOTED_STRING) tt s l.
Proof.
  intros HN. unfold readAnyQuotedStringInto. rewrite opened.
  rewrite loop_flat; [done|done|intros _ c Hc; apply related_quoted_body|intros _; reader_walk|done].
Qed.

Lemma written_literal quote str rest : quote ∈ [39; 34; 96] -> head rest <> Some quote ->
  literal_length quote ((str ≫= escaped_char quote) ++ quote :: rest) = Some (S (length (str ≫= escaped_char quote))).
Proof.
  intros Hq Hr. assert (Hne : quote <> 92) by (rewrite !elem_of_cons, elem_of_nil in Hq; lia).
  induction str as [|c str IH]; cbn [mbind list_bind app].
  - cbn [literal_length]. rewrite Z.eqb_refl. destruct rest as [|d rest]; [done|]. destruct (Z.eqb_spec d quote) as [->|]; [done|]. done.
  - change (list_bind _ _ (escaped_char quote) str) with (str ≫= escaped_char quote). rewrite <- app_assoc.
    destruct (escaped_char_cases quote c Hq) as [[Hc E]|(e & E & _)]; rewrite E; cbn [app literal_length length].
    + assert (is_in [quote; 92] c = false) as Hc' by (eapply is_in_subset; [|done]; clear; intros y; rewrite !elem_of_cons; tauto).
      cbn [is_in] in Hc'. destruct (c =? quote); [done|]. destruct (c =? 92); [done|]. by rewrite IH.
    + rewrite (proj2 (Z.eqb_neq 92 quote)) by congruence. cbn. by rewrite IH.
Qed.

Lemma length_written quote str : length (writeAnyQuotedString quote str) = S (S (length (str ≫= escaped_char quote))).
Proof. unfold writeAnyQuotedString. rewrite writeAnyEscapedString_chars, !length_app. cbn. lia. Qed.
