(* ===== verification/Granularity.v ===== *)
(** * Index granularity

    [src/Storages/MergeTree/MergeTreeIndexGranularity.h] and its two
    implementations: how many rows of a part lie between its marks, kept
    either as partial sums ([MergeTreeIndexGranularityAdaptive]) or as one
    number for all marks but the last ([MergeTreeIndexGranularityConstant]).
    Counts are 64-bit, and indices outside of a vector are undefined. *)

From stdpp Require Import prelude.
From Stdlib Require Import ZArith Lia.
From S2P Require Import Prelude.

(** ** Ranges of marks *)
Module MarkRange.

Record t : Type := Make { begin : Z; end_ : Z }.

#[export] Instance range_eq_dec : EqDecision t.
Proof. solve_decision. Defined.

Definition getNumberOfMarks (r : t) : Z := wrap 64 (end_ r - begin r).

(** [operator<]: ranges that intersect must not be compared. *)
Definition less (a rhs : t) : outcome bool :=
  let is_intersection := ((begin a <=? begin rhs) && (begin rhs <? end_ a)) || ((begin rhs <=? begin a) && (begin a <? end_ rhs)) in
  _ ← require (negb (negb (bool_decide (a = rhs)) && is_intersection)) LOGICAL_ERROR;
  Ok ((begin a <? begin rhs) && (end_ a <=? begin rhs)).

Definition getLastMark (ranges : list t) : Z := foldl (fun last r => Z.max last (end_ r)) 0 ranges.

Definition getNumberOfMarksInRanges (ranges : list t) : Z := foldl (fun result r => wrap 64 (result + getNumberOfMarks r)) 0 ranges.

Definition isOneRangeForWholePart (ranges : list t) (num_marks_in_part : Z) : bool :=
  match ranges with [r] => (begin r =? 0) && (end_ r =? num_marks_in_part) | _ => false end.

End MarkRange.

(** ** The base class

    The virtual functions, each of an implementation [G]. *)
Class MergeTreeIndexGranularity (G : Type) := {
  getConstantGranularity : G -> option Z;
  getRowsCountInRange : G -> Z -> Z -> outcome Z;
  countMarksForRows : G -> Z -> Z -> outcome Z;
  countRowsForRows : G -> Z -> Z -> Z -> outcome Z;
  getMarksCount : G -> Z;
  getTotalRows : G -> Z;
  getMarkRows : G -> Z -> outcome Z;
  getMarkRangeForRowOffset : G -> Z -> MarkRange.t;
  hasFinalMark : G -> outcome bool;
  appendMark : G -> Z -> outcome G;
  adjustLastMark : G -> Z -> outcome G }.

Section base_class.
  Context {G : Type} `{MergeTreeIndexGranularity G}.

Fixpoint rows_loop (g : G) (total : Z) (ranges : list MarkRange.t) : outcome Z :=
  match ranges with
  | [] => Ok total
  | range :: ranges =>
      rows ← getRowsCountInRange g (MarkRange.begin range) (MarkRange.end_ range);
      rows_loop g (wrap 64 (total + rows)) ranges
  end.

Definition getRowsCountInRanges (g : G) (ranges : list MarkRange.t) : outcome Z := rows_loop g 0 ranges.

Definition getMarksCountWithoutFinal (g : G) : outcome Z :=
  let total := getMarksCount g in
  if total =? 0 then Ok total
  else final ← hasFinalMark g; Ok (wrap 64 (total - if (final : bool) then 1 else 0)).

Definition getMarkStartingRow (g : G) (mark_index : Z) : outcome Z := getRowsCountInRange g 0 mark_index.

Definition getLastMarkRows (g : G) : outcome Z := getMarkRows g (wrap 64 (getMarksCount g - 1)).

Definition getLastNonFinalMarkRows (g : G) : outcome Z :=
  last_mark_rows ← getMarkRows g (wrap 64 (getMarksCount g - 1));
  if negb (last_mark_rows =? 0) then Ok last_mark_rows
  else getMarkRows g (wrap 64 (getMarksCount g - 2)).

Definition empty (g : G) : bool := getMarksCount g =? 0.

Definition addRowsToLastMark (g : G) (rows_count : Z) : outcome G :=
  final ← hasFinalMark g;
  if (final : bool) then Throw LOGICAL_ERROR
  else if empty g then appendMark g rows_count
  else last ← getLastMarkRows g; adjustLastMark g (wrap 64 (last + rows_count)).

Definition getMarksCountForSkipIndex (g : G) (skip_index_granularity : Z) : outcome Z :=
  marks_count ← getMarksCountWithoutFinal g;
  _ ← defined (negb (skip_index_granularity =? 0));
  Ok (wrap 64 (wrap 64 (marks_count + skip_index_granularity) - 1) / skip_index_granularity).
End base_class.

(** ** Constant granularity *)
Module Constant.

Record t : Type := Make {
  constant_granularity : Z;
  last_mark_granularity : Z;
  num_marks_without_final : Z;
  has_final_mark : bool }.

(** The constructor from a granularity. *)
Definition make (constant_granularity : Z) : t := Make constant_granularity constant_granularity 0 false.

Definition getMarksCount (g : t) : Z := wrap 64 (num_marks_without_final g + if has_final_mark g then 1 else 0).

Definition getMarkRows (g : t) (mark_index : Z) : outcome Z :=
  if getMarksCount g <=? mark_index then Throw LOGICAL_ERROR
  else if wrap 64 (mark_index + 1) <? num_marks_without_final g then Ok (constant_granularity g)
  else if wrap 64 (mark_index + 1) =? num_marks_without_final g then Ok (last_mark_granularity g)
  else Ok 0.

Definition getMarkRangeForRowOffset (g : t) (row_offset : Z) : MarkRange.t :=
  let mark_index :=
    if row_offset <? wrap 64 (constant_granularity g * wrap 64 (num_marks_without_final g - 1))
    then row_offset / constant_granularity g else wrap 64 (num_marks_without_final g - 1) in
  MarkRange.Make mark_index (wrap 64 (mark_index + 1)).

Definition getTotalRows (g : t) : Z :=
  if num_marks_without_final g =? 0 then 0
  else wrap 64 (wrap 64 (constant_granularity g * wrap 64 (num_marks_without_final g - 1)) + last_mark_granularity g).

Definition appendMark (g : t) (rows_count : Z) : outcome t :=
  if has_final_mark g then Throw LOGICAL_ERROR
  else if rows_count =? 0 then Ok (Make (constant_granularity g) (last_mark_granularity g) (num_marks_without_final g) true)
  else if negb (rows_count =? constant_granularity g) then Throw LOGICAL_ERROR
  else Ok (Make (constant_granularity g) (last_mark_granularity g) (wrap 64 (num_marks_without_final g + 1)) (has_final_mark g)).

Definition adjustLastMark (g : t) (rows_count : Z) : outcome t :=
  if has_final_mark g then Throw LOGICAL_ERROR
  else
    let n := if num_marks_without_final g =? 0 then 1 else num_marks_without_final g in
    Ok (Make (constant_granularity g) rows_count n (has_final_mark g)).

Definition getRowsCountInRange (g : t) (begin end_ : Z) : outcome Z :=
  if getMarksCount g <? end_ then Throw LOGICAL_ERROR
  else if end_ =? 0 then Ok 0
  else
    let '(total_rows, end_) :=
      if num_marks_without_final g <=? end_ then (last_mark_granularity g, wrap 64 (num_marks_without_final g - 1)) else (0, end_) in
    Ok (wrap 64 (total_rows + wrap 64 (constant_granularity g * wrap 64 (end_ - begin)))).

(** The division is by a granularity that is not zero when it is reached. *)
Definition getMarkUpperBoundForRow (g : t) (row_index : Z) : Z :=
  let num_rows_with_constant_granularity := wrap 64 (wrap 64 (num_marks_without_final g - 1) * constant_granularity g) in
  if getTotalRows g <=? row_index then getMarksCount g
  else if num_rows_with_constant_granularity <=? row_index then wrap 64 (num_marks_without_final g - 1)
  else row_index / constant_granularity g.

Definition countMarksForRows (g : t) (from_mark number_of_rows : Z) : outcome Z :=
  rows_before_mark ← getRowsCountInRange g 0 from_mark;
  let last_row_pos := wrap 64 (rows_before_mark + number_of_rows) in
  Ok (wrap 64 (getMarkUpperBoundForRow g last_row_pos - from_mark)).

Definition countRowsForRows (g : t) (from_mark number_of_rows offset_in_rows : Z) : outcome Z :=
  rows_before_mark ← getRowsCountInRange g 0 from_mark;
  let last_row_pos := wrap 64 (wrap 64 (rows_before_mark + offset_in_rows) + number_of_rows) in
  rows ← getRowsCountInRange g from_mark (Z.max 1 (getMarkUpperBoundForRow g last_row_pos));
  Ok (wrap 64 (rows - offset_in_rows)).

Definition fixFromRowsCount (g : t) (rows_count : Z) : outcome t :=
  if num_marks_without_final g =? 0 then Ok g
  else
    _ ← defined (negb (constant_granularity g =? 0));
    let expected_data_marks := wrap 64 (wrap 64 (rows_count + constant_granularity g) - 1) / constant_granularity g in
    let expected_data_marks := if rows_count =? 0 then 0 else expected_data_marks in
    let '(n, final) :=
      if (expected_data_marks <? num_marks_without_final g) && negb (has_final_mark g)
      then (wrap 64 (num_marks_without_final g - 1), true) else (num_marks_without_final g, has_final_mark g) in
    if 0 <? n then
      let rows_in_complete_granules := wrap 64 (wrap 64 (n - 1) * constant_granularity g) in
      let last := if rows_in_complete_granules <? rows_count then wrap 64 (rows_count - rows_in_complete_granules) else 0 in
      Ok (Make (constant_granularity g) last n final)
    else Ok (Make (constant_granularity g) (last_mark_granularity g) n final).

#[export] Instance constant_impl : MergeTreeIndexGranularity t := {|
  getConstantGranularity g := Some (constant_granularity g);
  Granularity.getRowsCountInRange := getRowsCountInRange;
  Granularity.countMarksForRows := countMarksForRows;
  Granularity.countRowsForRows := countRowsForRows;
  Granularity.getMarksCount := getMarksCount;
  Granularity.getTotalRows := getTotalRows;
  Granularity.getMarkRows := getMarkRows;
  Granularity.getMarkRangeForRowOffset := getMarkRangeForRowOffset;
  hasFinalMark g := Ok (has_final_mark g);
  Granularity.appendMark := appendMark;
  Granularity.adjustLastMark := adjustLastMark |}.

End Constant.

(** ** Adaptive granularity *)
Module Adaptive.

(** [marks_rows_partial_sums]. *)
Definition t : Type := list Z.

Definition at_index (g : t) (i : Z) : outcome Z :=
  if i <? 0 then Undef else match g !! Z.to_nat i with Some x => Ok x | None => Undef end.

(** [std::lower_bound] and [std::upper_bound] of a sorted vector. *)
Fixpoint lower_bound (l : list Z) (x : Z) : Z :=
  match l with [] => 0 | y :: l => if y <? x then 1 + lower_bound l x else 0 end.

Fixpoint upper_bound (l : list Z) (x : Z) : Z :=
  match l with [] => 0 | y :: l => if x <? y then 0 else 1 + upper_bound l x end.

Definition getMarksCount (g : t) : Z := blen g.

Definition getMarkRows (g : t) (mark_index : Z) : outcome Z :=
  if getMarksCount g <=? mark_index then Throw LOGICAL_ERROR
  else if mark_index =? 0 then at_index g 0
  else
    a ← at_index g mark_index;
    b ← at_index g (mark_index - 1);
    Ok (wrap 64 (a - b)).

Definition getMarkRangeForRowOffset (g : t) (row_offset : Z) : MarkRange.t :=
  let begin_mark := lower_bound g (wrap 64 (row_offset + 1)) in
  MarkRange.Make begin_mark (wrap 64 (begin_mark + 1)).

Definition hasFinalMark (g : t) : outcome bool :=
  match g with
  | [] => Ok false
  | _ => rows ← getMarkRows g (wrap 64 (getMarksCount g - 1)); Ok (rows =? 0)
  end.

Definition getTotalRows (g : t) : Z := default 0 (last g).

Definition appendMark (g : t) (rows_count : Z) : outcome t :=
  final ← hasFinalMark g;
  if (final : bool) then Throw LOGICAL_ERROR
  else match last g with
       | None => Ok (g ++ [rows_count])
       | Some back => Ok (g ++ [wrap 64 (back + rows_count)])
       end.

Definition adjustLastMark (g : t) (rows_count : Z) : outcome t :=
  final ← hasFinalMark g;
  if (final : bool) then Throw LOGICAL_ERROR
  else match g with
       | [] => Ok [rows_count]
       | _ => appendMark (removelast g) rows_count
       end.

Definition getRowsCountInRange (g : t) (begin end_ : Z) : outcome Z :=
  if getMarksCount g <? end_ then Throw LOGICAL_ERROR
  else if end_ =? 0 then Ok 0
  else
    subtrahend ← (if negb (begin =? 0) then at_index g (begin - 1) else Ok 0);
    rows ← at_index g (end_ - 1);
    Ok (wrap 64 (rows - subtrahend)).

Definition countMarksForRows (g : t) (from_mark number_of_rows : Z) : outcome Z :=
  rows_before_mark ← getRowsCountInRange g 0 from_mark;
  let last_row_pos := wrap 64 (rows_before_mark + number_of_rows) in
  Ok (wrap 64 (upper_bound g last_row_pos - from_mark)).

Definition countRowsForRows (g : t) (from_mark number_of_rows offset_in_rows : Z) : outcome Z :=
  rows_before_mark ← getRowsCountInRange g 0 from_mark;
  let last_row_pos := wrap 64 (wrap 64 (rows_before_mark + offset_in_rows) + number_of_rows) in
  rows ← getRowsCountInRange g from_mark (Z.max 1 (upper_bound g last_row_pos));
  Ok (wrap 64 (rows - offset_in_rows)).

#[export] Instance adaptive_impl : MergeTreeIndexGranularity t := {|
  getConstantGranularity g := None;
  Granularity.getRowsCountInRange := getRowsCountInRange;
  Granularity.countMarksForRows := countMarksForRows;
  Granularity.countRowsForRows := countRowsForRows;
  Granularity.getMarksCount := getMarksCount;
  Granularity.getTotalRows := getTotalRows;
  Granularity.getMarkRows := getMarkRows;
  Granularity.getMarkRangeForRowOffset := getMarkRangeForRowOffset;
  Granularity.hasFinalMark := hasFinalMark;
  Granularity.appendMark := appendMark;
  Granularity.adjustLastMark := adjustLastMark |}.

(** The loop of [optimize], [todo] marks before its end: are they all alike? *)
Fixpoint all_equal (g : t) (first_mark : Z) (todo : nat) (i : Z) : outcome bool :=
  match todo with
  | O => Ok true
  | S todo =>
      rows ← getMarkRows g i;
      if negb (rows =? first_mark) then Ok false else all_equal g first_mark todo (i + 1)
  end.

(** [None] is [nullptr]. *)
Definition optimize (g : t) : outcome (option Constant.t) :=
  marks_count ← getMarksCountWithoutFinal g;
  if marks_count =? 0 then Ok None
  else
    first_mark ← getMarkRows g 0;
    constant ← all_equal g first_mark (Z.to_nat (marks_count - 2)) 1;
    if negb constant then Ok None
    else
      last_mark ← getMarkRows g (wrap 64 (marks_count - 1));
      final ← hasFinalMark g;
      Ok (Some (Constant.Make first_mark last_mark marks_count final)).

End Adaptive.

#[export] Existing Instances Constant.constant_impl Adaptive.adaptive_impl.

(** ** The choice of a granularity *)
Definition computeIndexGranularity (rows bytes_uncompressed index_granularity_bytes fixed_index_granularity_rows : Z)
    (blocks_are_granules can_use_adaptive_index_granularity : bool) : outcome Z :=
  index_granularity_for_block ←
    (if negb can_use_adaptive_index_granularity then Ok fixed_index_granularity_rows
     else if blocks_are_granules then Ok rows
     else if index_granularity_bytes <=? bytes_uncompressed then
       _ ← defined (negb (index_granularity_bytes =? 0));
       let granules_in_block := bytes_uncompressed / index_granularity_bytes in
       _ ← defined (negb (granules_in_block =? 0));
       Ok (rows / granules_in_block)
     else
       _ ← defined (negb (rows =? 0));
       let size_of_row_in_bytes := Z.max (bytes_uncompressed / rows) 1 in
       Ok (index_granularity_bytes / size_of_row_in_bytes));
  let index_granularity_for_block :=
    if negb blocks_are_granules then Z.min fixed_index_granularity_rows index_granularity_for_block else index_granularity_for_block in
  Ok (if index_granularity_for_block =? 0 then 1 else index_granularity_for_block).

(** [createMergeTreeIndexGranularity], with the settings and the mark type it reads. *)
Definition createMergeTreeIndexGranularity (rows bytes_uncompressed : Z) (use_const_adaptive_granularity : bool)
    (index_granularity_bytes index_granularity : Z) (use_adaptive_granularity is_compact_part blocks_are_granules : bool)
    : outcome (Adaptive.t + Constant.t) :=
  if (rows =? 0) || blocks_are_granules || is_compact_part || (use_adaptive_granularity && negb use_const_adaptive_granularity)
  then Ok (inl [])
  else
    computed_granularity ← computeIndexGranularity rows bytes_uncompressed index_granularity_bytes index_granularity
      blocks_are_granules use_adaptive_granularity;
    Ok (inr (Constant.make computed_granularity)).
