(* ===== verification/GranularityFacts.v ===== *)
(** * Both granularities represent the rows of the marks

    [GranularityLaws] says what an implementation promises about the rows of
    the data marks it represents; the instances discharge it for the partial
    sums and for the constant granularity. *)

From stdpp Require Import prelude.
From Stdlib Require Import ZArith Lia.
From S2P Require Import Prelude Granularity.

(** ** Rows of marks *)
Definition sum (l : list Z) : Z := foldr Z.add 0 l.

(** The rows before mark [k]; a final mark has none. *)
Definition rows_before (data : list Z) (k : Z) : Z := sum (take (Z.to_nat k) data).

(** The mark that holds a row, or the number of marks. *)
Fixpoint mark_of_row (data : list Z) (final : bool) (row : Z) : Z :=
  match data with
  | [] => Z.b2z final
  | m :: data => if row <? m then 0 else 1 + mark_of_row data final (row - m)
  end.

Record proper_marks (data : list Z) : Prop := {
  proper_positive : Forall (fun m => 0 < m) data;
  proper_sum : sum data < 2 ^ 64;
  proper_length : blen data < 2 ^ 63 }.

Lemma sum_app a b : sum (a ++ b) = sum a + sum b.
Proof. induction a as [|x a IH]; cbn; [done|]. unfold sum in *. lia. Qed.

Lemma sum_nonneg l : Forall (fun m => 0 < m) l -> 0 <= sum l.
Proof. induction 1; cbn; [lia|]. unfold sum in *. lia. Qed.

Lemma sum_replicate n c : sum (replicate n c) = Z.of_nat n * c.
Proof. induction n as [|n IH]; cbn [replicate]; [done|]. cbn. unfold sum in IH. rewrite IH. lia. Qed.

Lemma take_positive k l : Forall (fun m => 0 < m) l -> Forall (fun m => 0 < m) (take k l).
Proof. apply Forall_take. Qed.

Lemma rows_before_bounds data k : Forall (fun m => 0 < m) data -> 0 <= rows_before data k <= sum data.
Proof.
  intros H. unfold rows_before. split; [by apply sum_nonneg, take_positive|].
  rewrite <- (take_drop (Z.to_nat k) data) at 2. rewrite sum_app. pose proof (sum_nonneg (drop (Z.to_nat k) data) ltac:(by apply Forall_drop)). lia.
Qed.

Lemma rows_before_mono data a b : Forall (fun m => 0 < m) data -> a <= b -> rows_before data a <= rows_before data b.
Proof.
  intros H Hab. unfold rows_before. replace (take (Z.to_nat a) data) with (take (Z.to_nat a) (take (Z.to_nat b) data)) by (rewrite take_take; f_equal; lia).
  rewrite <- (take_drop (Z.to_nat a) (take (Z.to_nat b) data)) at 2. rewrite sum_app.
  pose proof (sum_nonneg (drop (Z.to_nat a) (take (Z.to_nat b) data)) ltac:(by apply Forall_drop, take_positive)). lia.
Qed.

Lemma rows_before_all data k : blen data <= k -> rows_before data k = sum data.
Proof. intros H. unfold rows_before. by rewrite take_ge by lia. Qed.

Lemma rows_before_app data l k : 0 <= k <= blen data -> rows_before (data ++ l) k = rows_before data k.
Proof. intros H. unfold rows_before. by rewrite take_app_le by lia. Qed.

Lemma mark_of_row_bounds data final : forall row, 0 <= mark_of_row data final row <= blen data + Z.b2z final.
Proof.
  induction data as [|m data IH]; intros row; cbn [mark_of_row length]; [destruct final; cbn; lia|].
  specialize (IH (row - m)). destruct (row <? m); destruct final; cbn in *; lia.
Qed.

(** Rows from mark [k] on are in mark [k] or behind it. *)
Lemma mark_of_row_ge data final : Forall (fun m => 0 < m) data -> forall k row, 0 <= k <= blen data -> rows_before data k <= row -> k <= mark_of_row data final row.
Proof.
  induction 1 as [|m data Hm Hpos IH]; intros k row Hk Hr; cbn [mark_of_row length] in *; [destruct final; cbn; lia|].
  destruct (Z.eq_dec k 0) as [->|Hk0]; [pose proof (mark_of_row_bounds data final (row - m)); destruct (row <? m); lia|].
  replace (rows_before (m :: data) k) with (m + rows_before data (k - 1)) in Hr
    by (unfold rows_before; replace (Z.to_nat k) with (S (Z.to_nat (k - 1))) by lia; done).
  pose proof (rows_before_bounds data (k - 1) Hpos). specialize (IH (k - 1) (row - m) ltac:(lia) ltac:(lia)). destruct (Z.ltb_spec row m); lia.
Qed.

(** A number of rows inside of the part is in a data mark. *)
Lemma mark_of_row_inside data final : forall row, 0 <= row < sum data -> mark_of_row data final row < blen data.
Proof.
  induction data as [|m data IH]; intros row Hr; cbn in *; [lia|]. fold (sum data) in Hr. destruct (Z.ltb_spec row m); [lia|].
  specialize (IH (row - m) ltac:(lia)). lia.
Qed.

(** ** The interface *)
Class GranularityLaws (G : Type) `{MergeTreeIndexGranularity G} := {
  (** [g] has the rows [data] in its data marks, and a final mark or not. *)
  rep : G -> list Z -> bool -> Prop;
  (** A mark of [rows] rows can be appended. *)
  growable : G -> Z -> Prop;
  rep_proper g data final : rep g data final -> proper_marks data;
  rep_count g data final : rep g data final -> getMarksCount g = blen data + Z.b2z final;
  rep_total g data final : rep g data final -> getTotalRows g = sum data;
  rep_final g data final : rep g data final -> hasFinalMark g = Ok final;
  rep_mark_rows g data final i : rep g data final -> 0 <= i ->
    getMarkRows g i = if i <? blen data + Z.b2z final then Ok (default 0 (data !! Z.to_nat i)) else Throw LOGICAL_ERROR;
  rep_range g data final b e : rep g data final -> 0 <= b <= e -> e <= blen data + Z.b2z final -> (e = 0 \/ b < blen data) ->
    getRowsCountInRange g b e = Ok (rows_before data e - rows_before data b);
  rep_count_marks g data final from rows : rep g data final -> 0 < blen data -> 0 <= from <= blen data + Z.b2z final -> 0 <= rows ->
    rows_before data from + rows < 2 ^ 64 ->
    countMarksForRows g from rows = Ok (wrap 64 (mark_of_row data final (rows_before data from + rows) - from));
  rep_count_rows g data final from rows offset : rep g data final -> 0 <= from < blen data -> 0 <= rows -> 0 <= offset ->
    rows_before data from + offset + rows < 2 ^ 64 ->
    countRowsForRows g from rows offset =
      Ok (wrap 64 (rows_before data (Z.max 1 (mark_of_row data final (rows_before data from + offset + rows))) - rows_before data from - offset));
  rep_row_range g data final row : rep g data final -> 0 <= row < sum data ->
    getMarkRangeForRowOffset g row = MarkRange.Make (mark_of_row data final row) (mark_of_row data final row + 1);
  rep_adjust g data rows : rep g data false -> 0 < rows -> proper_marks (removelast data ++ [rows]) ->
    exists g', adjustLastMark g rows = Ok g' /\ rep g' (removelast data ++ [rows]) false;
  rep_append g data rows : rep g data false -> growable g rows -> 0 < rows -> proper_marks (data ++ [rows]) ->
    exists g', appendMark g rows = Ok g' /\ rep g' (data ++ [rows]) false;
  rep_append_final g data : rep g data false -> exists g', appendMark g 0 = Ok g' /\ rep g' data true;
  rep_after_final g data rows : rep g data true -> appendMark g rows = Throw LOGICAL_ERROR /\ adjustLastMark g rows = Throw LOGICAL_ERROR }.

(** Two implementations give the same answer to every query about the marks of
    [data]: the numbers of marks and rows, the rows of a mark, of a range that
    starts at a data mark and of enough marks for a number of rows, and the
    mark of a row. *)
Definition alike {G1 G2 : Type} `{MergeTreeIndexGranularity G1, MergeTreeIndexGranularity G2} (g1 : G1) (g2 : G2) (data : list Z) : Prop :=
  getMarksCount g1 = getMarksCount g2 /\ getTotalRows g1 = getTotalRows g2 /\ hasFinalMark g1 = hasFinalMark g2 /\
  (forall i, 0 <= i -> getMarkRows g1 i = getMarkRows g2 i) /\
  (forall b e, 0 <= b <= e -> e <= getMarksCount g1 -> b < blen data -> getRowsCountInRange g1 b e = getRowsCountInRange g2 b e) /\
  (forall from rows offset, 0 <= from < blen data -> 0 <= rows -> 0 <= offset -> rows_before data from + offset + rows < 2 ^ 64 ->
    countMarksForRows g1 from (offset + rows) = countMarksForRows g2 from (offset + rows) /\
    countRowsForRows g1 from rows offset = countRowsForRows g2 from rows offset) /\
  (forall row, 0 <= row < getTotalRows g1 -> getMarkRangeForRowOffset g1 row = getMarkRangeForRowOffset g2 row).

Lemma same_rep_alike {G1 G2 : Type} `{GranularityLaws G1, GranularityLaws G2} (g1 : G1) (g2 : G2) data final :
  rep g1 data final -> rep g2 data final -> alike g1 g2 data.
Proof.
  intros R1 R2. assert (0 <= Z.b2z final) by (by destruct final). unfold alike.
  rewrite (rep_count g1 _ _ R1), (rep_count g2 _ _ R2), (rep_total g1 _ _ R1), (rep_total g2 _ _ R2), (rep_final g1 _ _ R1), (rep_final g2 _ _ R2).
  split_and!; [done..|intros i Hi|intros b e Hbe He Hb|intros from rows offset Hf Hr Ho Hlt; split|intros row Hrow].
  - by rewrite (rep_mark_rows g1 _ _ _ R1), (rep_mark_rows g2 _ _ _ R2).
  - by rewrite (rep_range g1 _ _ b e R1), (rep_range g2 _ _ b e R2) by auto.
  - by rewrite (rep_count_marks g1 _ _ from _ R1), (rep_count_marks g2 _ _ from _ R2) by lia.
  - by rewrite (rep_count_rows g1 _ _ from _ _ R1), (rep_count_rows g2 _ _ from _ _ R2) by lia.
  - by rewrite (rep_row_range g1 _ _ row R1), (rep_row_range g2 _ _ row R2).
Qed.

(** ** The constant granularity *)
Definition constant_rep (g : Constant.t) (data : list Z) (final : bool) : Prop :=
  proper_marks data /\ 0 < Constant.constant_granularity g < 2 ^ 64 /\ 0 < Constant.last_mark_granularity g < 2 ^ 64 /\
  Constant.num_marks_without_final g = blen data /\ Constant.has_final_mark g = final /\
  (data = [] \/ data = replicate (pred (length data)) (Constant.constant_granularity g) ++ [Constant.last_mark_granularity g]).

Definition constant_growable (g : Constant.t) (rows : Z) : Prop :=
  rows = Constant.constant_granularity g /\ Constant.last_mark_granularity g = Constant.constant_granularity g.

(** [n] marks of [c] rows and one of [l] rows. *)
Lemma rows_before_constant n c l k : 0 <= k <= Z.of_nat n -> rows_before (replicate n c ++ [l]) k = k * c.
Proof.
  intros Hk. unfold rows_before. rewrite take_app_le by (rewrite length_replicate; lia). rewrite take_replicate, sum_replicate. f_equal. lia.
Qed.

Lemma sum_constant n c l : sum (replicate n c ++ [l]) = Z.of_nat n * c + l.
Proof. rewrite sum_app, sum_replicate. cbn. lia. Qed.

Lemma mark_of_row_constant n c l final : 0 < c -> forall row, 0 <= row ->
  mark_of_row (replicate n c ++ [l]) final row =
    if row <? Z.of_nat n * c then row / c else if row <? Z.of_nat n * c + l then Z.of_nat n else Z.of_nat n + 1 + Z.b2z final.
Proof.
  intros Hc. induction n as [|n IH]; intros row Hr; cbn [replicate app mark_of_row].
  - change (Z.of_nat 0) with 0. rewrite Z.mul_0_l. destruct (Z.ltb_spec row 0); [lia|]. rewrite Z.add_0_l. by destruct (row <? l).
  - destruct (Z.ltb_spec row c).
    + destruct (Z.ltb_spec row (Z.of_nat (S n) * c)); [|nia]. by rewrite Z.div_small.
    + rewrite IH by lia. replace (Z.of_nat (S n) * c) with (Z.of_nat n * c + c) by lia.
      destruct (Z.ltb_spec (row - c) (Z.of_nat n * c)), (Z.ltb_spec row (Z.of_nat n * c + c)); try lia.
      * replace row with (row - c + 1 * c) at 2 by lia. rewrite Z.div_add by lia. lia.
      * destruct (Z.ltb_spec (row - c) (Z.of_nat n * c + l)), (Z.ltb_spec row (Z.of_nat n * c + c + l)); lia.
Qed.

Section constant.
  Context (g : Constant.t) (data : list Z) (final : bool) (Hrep : constant_rep g data final).

Let c := Constant.constant_granularity g.
Let l := Constant.last_mark_granularity g.

Lemma constant_count : Constant.getMarksCount g = blen data + Z.b2z final.
  Proof using Hrep.
    destruct Hrep as (Hp & _ & _ & Hn & Hf & _). unfold Constant.getMarksCount. rewrite Hn, Hf. pose proof (proper_length _ Hp).
    apply wrap_id. unfold uint. destruct final; cbn; lia.
  Qed.

(** The shape of a part that has data marks. *)
Lemma constant_shape : 0 < blen data -> exists n, data = replicate n c ++ [l] /\ blen data = Z.of_nat n + 1 /\ Z.of_nat n * c + l < 2 ^ 64.
  Proof using Hrep.
    destruct Hrep as (Hp & _ & _ & _ & _ & Hd). intros Hlen. destruct Hd as [->|Hd]; [cbn in Hlen; lia|]. exists (pred (length data)).
    split; [done|]. split; [destruct (length data); cbn in *; lia|]. pose proof (proper_sum _ Hp) as Hs. rewrite Hd in Hs. by rewrite sum_constant in Hs.
  Qed.

Lemma constant_total : Constant.getTotalRows g = sum data.
  Proof using Hrep.
    pose proof constant_shape as Hs. destruct Hrep as (Hp & Hc & Hl & Hn & _ & _). unfold Constant.getTotalRows. rewrite Hn.
    destruct (Z.eqb_spec (blen data) 0) as [E|E]; [by destruct data|]. destruct (Hs ltac:(lia)) as (n & -> & Hlen & Hsum). subst c l.
    rewrite sum_constant, Hlen. replace (Z.of_nat n + 1 - 1) with (Z.of_nat n) by lia. pose proof (proper_length _ Hp). rewrite Hlen in *.
    rewrite (wrap_id 64 (Z.of_nat n)) by (unfold uint; lia). rewrite (wrap_id 64 (_ * _)) by (unfold uint; nia). rewrite wrap_id by (unfold uint; nia). lia.
  Qed.

Lemma constant_upper row : 0 <= row -> Constant.getMarkUpperBoundForRow g row = mark_of_row data final row.
  Proof using Hrep.
    intros Hr. unfold Constant.getMarkUpperBoundForRow. rewrite constant_total, constant_count. pose proof constant_shape as Hs.
    destruct Hrep as (Hp & Hc & Hl & Hn & _ & _). rewrite Hn. destruct (Z.eq_dec (blen data) 0) as [E|E].
    { destruct data; [|cbn in E; lia]. cbn. destruct (Z.leb_spec 0 row); [|lia]. done. }
    destruct (Hs ltac:(lia)) as (n & Hd & Hlen & Hsum). pose proof (proper_length _ Hp). rewrite Hd, mark_of_row_constant by (subst c; lia).
    rewrite <- Hd, Hlen. replace (Z.of_nat n + 1 - 1) with (Z.of_nat n) by lia. rewrite Hd, sum_constant. subst c l.
    rewrite !(wrap_id 64 (Z.of_nat n)) by (unfold uint; lia). rewrite (wrap_id 64 (Z.of_nat n * _)) by (unfold uint; nia).
    destruct (Z.leb_spec (Z.of_nat n * Constant.constant_granularity g + Constant.last_mark_granularity g) row),
      (Z.ltb_spec row (Z.of_nat n * Constant.constant_granularity g)), (Z.ltb_spec row (Z.of_nat n * Constant.constant_granularity g + Constant.last_mark_granularity g)),
      (Z.leb_spec (Z.of_nat n * Constant.constant_granularity g) row); lia || done.
  Qed.

Lemma constant_range b e : 0 <= b <= e -> e <= blen data + Z.b2z final -> (e = 0 \/ b < blen data) ->
    Constant.getRowsCountInRange g b e = Ok (rows_before data e - rows_before data b).
  Proof using Hrep.
    intros Hbe He Hdom. unfold Constant.getRowsCountInRange. rewrite constant_count. destruct (Z.ltb_spec (blen data + Z.b2z final) e); [lia|].
    destruct (Z.eqb_spec e 0) as [->|E]; [replace b with 0 by lia; f_equal; lia|]. destruct Hdom as [?|Hb]; [lia|].
    destruct (constant_shape ltac:(lia)) as (n & Hd & Hlen & Hsum). destruct Hrep as (Hp & Hc & Hl & Hn & _ & _). rewrite Hn, Hlen.
    pose proof (proper_length _ Hp). pose proof (proper_sum _ Hp) as Hs. rewrite Hd, sum_constant in Hs. subst c l.
    rewrite (wrap_id 64 (Z.of_nat n + 1 - 1)) by (unfold uint; lia). rewrite Hd, (rows_before_constant n _ _ b) by lia.
    destruct (Z.leb_spec (Z.of_nat n + 1) e).
    - rewrite rows_before_all, sum_constant by (rewrite <- Hd; lia). rewrite (wrap_id 64 (_ - b)) by (unfold uint; lia).
      rewrite (wrap_id 64 (_ * _)) by (unfold uint; nia). rewrite wrap_id by (unfold uint; nia). f_equal. nia.
    - rewrite (rows_before_constant n _ _ e) by lia. rewrite (wrap_id 64 (e - b)) by (unfold uint; lia).
      rewrite (wrap_id 64 (_ * _)) by (unfold uint; nia). rewrite wrap_id by (unfold uint; nia). f_equal. nia.
  Qed.

Lemma constant_mark_rows i : 0 <= i ->
    Constant.getMarkRows g i = if i <? blen data + Z.b2z final then Ok (default 0 (data !! Z.to_nat i)) else Throw LOGICAL_ERROR.
  Proof using Hrep.
    intros Hi. unfold Constant.getMarkRows. rewrite constant_count. destruct (Z.leb_spec (blen data + Z.b2z final) i), (Z.ltb_spec i (blen data + Z.b2z final)); try lia; [done|].
    pose proof constant_shape as Hsh. destruct Hrep as (Hp & Hc & Hl & Hn & _ & _). pose proof (proper_length _ Hp). rewrite Hn.
    assert (Z.b2z final <= 1) by (by destruct final). rewrite wrap_id by (unfold uint; lia).
    destruct (Z.ltb_spec (i + 1) (blen data)); [|destruct (Z.eqb_spec (i + 1) (blen data))].
    - destruct (Hsh ltac:(lia)) as (n & Hd & Hlen & _). rewrite Hd, lookup_app_l by (rewrite length_replicate; lia).
      rewrite lookup_replicate_2 by lia. done.
    - destruct (Hsh ltac:(lia)) as (n & Hd & Hlen & _). rewrite Hd, lookup_app_r by (rewrite length_replicate; lia).
      rewrite length_replicate. replace (Z.to_nat i - n)%nat with 0%nat by lia. done.
    - rewrite lookup_ge_None_2 by lia. done.
  Qed.

Lemma constant_row_range row : 0 <= row < sum data ->
    Constant.getMarkRangeForRowOffset g row = MarkRange.Make (mark_of_row data final row) (mark_of_row data final row + 1).
  Proof using Hrep.
    intros Hr. unfold Constant.getMarkRangeForRowOffset. destruct (Z.eq_dec (blen data) 0) as [E|E]; [destruct data; [cbn in Hr; lia|cbn in E; lia]|].
    pose proof (mark_of_row_inside data final row Hr) as Hin. pose proof (mark_of_row_bounds data final row) as Hge.
    destruct (constant_shape ltac:(lia)) as (n & Hd & Hlen & Hsum). destruct Hrep as (Hp & Hc & Hl & Hn & _ & _). rewrite Hn, Hlen.
    pose proof (proper_length _ Hp). rewrite Hd, mark_of_row_constant in * by (subst c; lia). rewrite sum_constant in Hr. subst c l.
    rewrite (wrap_id 64 (Z.of_nat n + 1 - 1)) by (unfold uint; lia). rewrite (wrap_id 64 (_ * _)) by (unfold uint; nia).
    rewrite (Z.mul_comm (Constant.constant_granularity g)). replace (Z.of_nat n + 1 - 1) with (Z.of_nat n) by lia.
    destruct (Z.ltb_spec row (Z.of_nat n * Constant.constant_granularity g)).
    - rewrite wrap_id; [done|]. unfold uint. rewrite <- Hd in *. lia.
    - destruct (Z.ltb_spec row (Z.of_nat n * Constant.constant_granularity g + Constant.last_mark_granularity g)); [|lia].
      rewrite wrap_id; [done|]. unfold uint. lia.
  Qed.
End constant.

Lemma length_removelast_pred {A} (l : list A) : length (removelast l) = pred (length l).
Proof. induction l as [|x [|y l] IH]; cbn in *; [done|done|]. by rewrite IH. Qed.

Lemma removelast_snoc {A} (l : list A) x : removelast (l ++ [x]) = l.
Proof. rewrite removelast_app by done. cbn. apply app_nil_r. Qed.

Lemma constant_adjust g data rows : constant_rep g data false -> 0 < rows -> proper_marks (removelast data ++ [rows]) ->
  exists g', Constant.adjustLastMark g rows = Ok g' /\ constant_rep g' (removelast data ++ [rows]) false.
Proof.
  intros Hrep Hr Hp'. unfold Constant.adjustLastMark. pose proof (constant_shape g data false Hrep) as Hsh.
  destruct Hrep as (Hp & Hc & Hl & Hn & -> & Hd). eexists. split; [done|].
  assert (rows < 2 ^ 64).
  { pose proof (proper_sum _ Hp') as H. rewrite sum_app in H. cbn in H. pose proof (proper_positive _ Hp') as H1. apply Forall_app in H1 as [H1 _].
    pose proof (sum_nonneg _ H1). lia. }
  split_and!; cbn; try done; try lia.
  - rewrite length_app, length_removelast_pred, Hn. cbn. destruct data; cbn; [done|]. destruct (Z.eqb_spec (Z.of_nat (S (length data))) 0); lia.
  - right. destruct data as [|m data']; [done|]. destruct (Hsh ltac:(cbn; lia)) as (n & -> & _). rewrite removelast_snoc, length_app, length_replicate. cbn. 
    by replace (pred (n + 1)) with n by lia.
Qed.

Lemma constant_append g data rows : constant_rep g data false -> constant_growable g rows -> 0 < rows -> proper_marks (data ++ [rows]) ->
  exists g', Constant.appendMark g rows = Ok g' /\ constant_rep g' (data ++ [rows]) false.
Proof.
  intros Hrep [-> Hlc] Hr Hp'. unfold Constant.appendMark. pose proof (constant_shape g data false Hrep) as Hsh.
  destruct Hrep as (Hp & Hc & Hl & Hn & -> & Hd). rewrite (proj2 (Z.eqb_neq _ 0)), Z.eqb_refl by lia. cbn [negb]. eexists. split; [done|].
  pose proof (proper_length _ Hp). split_and!; cbn; try done; try lia.
  - rewrite Hn, length_app, wrap_id by (unfold uint; lia). cbn. lia.
  - right. destruct data as [|m data']; [cbn; by rewrite Hlc|]. destruct (Hsh ltac:(cbn; lia)) as (n & -> & _). rewrite Hlc, !length_app, length_replicate. cbn.
    replace (pred (n + 1 + 1)) with (S n) by lia. by rewrite replicate_S_end.
Qed.

#[export] Instance constant_laws : GranularityLaws Constant.t.
Proof.
  refine {| rep := constant_rep; growable := constant_growable |}.
  - by intros g data final [? _].
  - apply constant_count.
  - apply constant_total.
  - intros g data final (_ & _ & _ & _ & Hf & _). cbn. by rewrite Hf.
  - intros g data final i H. by apply constant_mark_rows.
  - intros g data final b e H. by apply constant_range.
  - intros g data final from rows Hrep Hpos Hfrom Hrows Hlt. cbn. unfold Constant.countMarksForRows.
    pose proof (rows_before_bounds data from ltac:(apply proper_positive; apply Hrep)) as Hb.
    rewrite (constant_range g data final Hrep) by lia. run. change (rows_before data 0) with 0. rewrite Z.sub_0_r, (wrap_id 64 (_ + rows)) by (unfold uint; lia).
    by rewrite (constant_upper g data final Hrep) by lia.
  - intros g data final from rows offset Hrep Hfrom Hrows Hoff Hlt. cbn. unfold Constant.countRowsForRows.
    assert (Forall (fun m => 0 < m) data) as Hpos by (apply proper_positive; apply Hrep). pose proof (rows_before_bounds data from Hpos) as Hb.
    assert (0 <= Z.b2z final <= 1) by (by destruct final). rewrite (constant_range g data final Hrep 0) by lia. run. change (rows_before data 0) with 0.
    rewrite Z.sub_0_r, (wrap_id 64 (_ + offset)), (wrap_id 64 (_ + rows)) by (unfold uint; lia). rewrite (constant_upper g data final Hrep) by lia.
    pose proof (mark_of_row_ge data final Hpos from (rows_before data from + offset + rows) ltac:(lia) ltac:(lia)).
    pose proof (mark_of_row_bounds data final (rows_before data from + offset + rows)). rewrite (constant_range g data final Hrep) by lia. run. done.
  - intros g data final row H. by apply constant_row_range.
  - apply constant_adjust.
  - apply constant_append.
  - intros g data (Hp & Hc & Hl & Hn & Hf & Hd). cbn. unfold Constant.appendMark. rewrite Hf. cbn. eexists. split; [done|]. unfold constant_rep; cbn. tauto.
  - intros g data rows (_ & _ & _ & _ & Hf & _). cbn. unfold Constant.appendMark, Constant.adjustLastMark. by rewrite Hf.
Defined.

(** ** The partial sums *)
Fixpoint psums (acc : Z) (l : list Z) : list Z := match l with [] => [] | m :: l => acc + m :: psums (acc + m) l end.

Definition final_rows (final : bool) : list Z := if final then [0] else [].

Definition adaptive_rep (g : Adaptive.t) (data : list Z) (final : bool) : Prop :=
  proper_marks data /\ g = psums 0 (data ++ final_rows final).

Lemma length_psums l : forall acc, length (psums acc l) = length l.
Proof. induction l as [|m l IH]; intros acc; cbn; [done|]. by rewrite IH. Qed.

Lemma lookup_psums l : forall acc i, (i < length l)%nat -> psums acc l !! i = Some (acc + sum (take (S i) l)).
Proof.
  induction l as [|m l IH]; intros acc i Hi; cbn in Hi; [lia|]. destruct i as [|i]; cbn [psums lookup list_lookup].
  - f_equal. cbn [take]. rewrite take_0. cbn. lia.
  - etransitivity; [apply IH; lia|]. f_equal. change (take (S (S i)) (m :: l)) with (m :: take (S i) l). cbn [sum foldr]. fold (sum (take (S i) l)). lia.
Qed.

Lemma psums_snoc l m : forall acc, psums acc (l ++ [m]) = psums acc l ++ [acc + sum l + m].
Proof.
  induction l as [|x l IH]; intros acc; cbn [psums app]; [by rewrite Z.add_0_r|]. rewrite IH. cbn. fold (sum l). do 3 f_equal. lia.
Qed.

Lemma upper_bound_psums data final : forall acc x, acc <= x -> Adaptive.upper_bound (psums acc (data ++ final_rows final)) x = mark_of_row data final (x - acc).
Proof.
  induction data as [|m data IH]; intros acc x Hx; cbn [app psums].
  - destruct final; cbn; [|done]. destruct (Z.ltb_spec x (acc + 0)); [lia|done].
  - cbn [Adaptive.upper_bound mark_of_row]. destruct (Z.ltb_spec x (acc + m)), (Z.ltb_spec (x - acc) m); try lia.
    rewrite IH by lia. f_equal. f_equal. lia.
Qed.

Lemma lower_bound_succ l x : Adaptive.lower_bound l (x + 1) = Adaptive.upper_bound l x.
Proof. induction l as [|y l IH]; cbn; [done|]. rewrite IH. destruct (Z.ltb_spec y (x + 1)), (Z.ltb_spec x y); lia. Qed.

Lemma sum_final_rows final : sum (final_rows final) = 0.
Proof. by destruct final. Qed.

Lemma take_data data final i : sum (take i (data ++ final_rows final)) = sum (take i data).
Proof.
  rewrite take_app, sum_app. destruct final; cbn [final_rows]; [|by rewrite take_nil; cbn; lia].
  destruct (i - length data)%nat as [|k]; cbn [take]; rewrite ?take_nil; cbn; lia.
Qed.

Section adaptive.
  Context (g : Adaptive.t) (data : list Z) (final : bool) (Hrep : adaptive_rep g data final).

Lemma adaptive_count : Adaptive.getMarksCount g = blen data + Z.b2z final.
  Proof using Hrep. destruct Hrep as [_ ->]. unfold Adaptive.getMarksCount. rewrite length_psums, length_app. destruct final; cbn; lia. Qed.

Lemma adaptive_at i : 0 <= i < blen data + Z.b2z final -> Adaptive.at_index g i = Ok (rows_before data (i + 1)).
  Proof using Hrep.
    intros Hi. destruct Hrep as [_ ->]. unfold Adaptive.at_index. destruct (Z.ltb_spec i 0); [lia|].
    rewrite lookup_psums by (rewrite length_app; destruct final; cbn in *; lia). rewrite take_data, Z.add_0_l. unfold rows_before. by replace (Z.to_nat (i + 1)) with (S (Z.to_nat i)) by lia.
  Qed.

Lemma rows_before_lt k : 0 <= rows_before data k < 2 ^ 64.
  Proof using Hrep. destruct Hrep as [Hp _]. pose proof (rows_before_bounds data k (proper_positive _ Hp)). pose proof (proper_sum _ Hp). lia. Qed.

Lemma adaptive_range b e : 0 <= b <= e -> e <= blen data + Z.b2z final -> Adaptive.getRowsCountInRange g b e = Ok (rows_before data e - rows_before data b).
  Proof using Hrep.
    intros Hbe He. unfold Adaptive.getRowsCountInRange. rewrite adaptive_count. destruct (Z.ltb_spec (blen data + Z.b2z final) e); [lia|].
    destruct (Z.eqb_spec e 0) as [->|E]; [replace b with 0 by lia; f_equal; lia|].
    assert ((if negb (b =? 0) then Adaptive.at_index g (b - 1) else Ok 0) = Ok (rows_before data b)) as ->.
    { destruct (Z.eqb_spec b 0) as [->|]; cbn [negb]; [done|]. rewrite adaptive_at by lia. do 2 f_equal. lia. }
    run. rewrite adaptive_at by lia. run. replace (e - 1 + 1) with e by lia. destruct Hrep as [Hp _].
    pose proof (rows_before_mono data b e (proper_positive _ Hp) ltac:(lia)). pose proof (rows_before_lt b). pose proof (rows_before_lt e).
    rewrite wrap_id by (unfold uint; lia). done.
  Qed.

Lemma rows_before_succ i : 0 <= i -> rows_before data (i + 1) = rows_before data i + default 0 (data !! Z.to_nat i).
  Proof.
    intros Hi. unfold rows_before. replace (Z.to_nat (i + 1)) with (S (Z.to_nat i)) by lia. destruct (data !! Z.to_nat i) as [m|] eqn:E.
    - rewrite (take_S_r _ _ m) by done. rewrite sum_app. cbn. lia.
    - apply lookup_ge_None in E. rewrite !take_ge by lia. cbn. lia.
  Qed.

Lemma adaptive_mark_rows i : 0 <= i ->
    Adaptive.getMarkRows g i = if i <? blen data + Z.b2z final then Ok (default 0 (data !! Z.to_nat i)) else Throw LOGICAL_ERROR.
  Proof using Hrep.
    intros Hi. unfold Adaptive.getMarkRows. rewrite adaptive_count.
    destruct (Z.leb_spec (blen data + Z.b2z final) i), (Z.ltb_spec i (blen data + Z.b2z final)); try lia; [done|].
    pose proof (rows_before_succ i Hi) as Hs. pose proof (rows_before_lt (i + 1)). pose proof (rows_before_lt i). destruct Hrep as [Hp _].
    pose proof (rows_before_mono data i (i + 1) (proper_positive _ Hp) ltac:(lia)).
    destruct (Z.eqb_spec i 0) as [->|].
    - rewrite adaptive_at by lia. rewrite Hs. change (rows_before data 0) with 0. f_equal.
    - rewrite !adaptive_at by lia. run. replace (i - 1 + 1) with i by lia. rewrite wrap_id by (unfold uint; lia). f_equal. lia.
  Qed.

Lemma adaptive_final : Adaptive.hasFinalMark g = Ok final.
  Proof using Hrep.
    pose proof adaptive_count as Hc. pose proof adaptive_mark_rows as Hr. unfold Adaptive.hasFinalMark. rewrite Hc. destruct Hrep as [Hp E].
    pose proof (proper_length _ Hp). destruct (Z.eq_dec (blen data + Z.b2z final) 0) as [E0|E0].
    { destruct data as [|m d]; [|destruct final; cbn in E0; lia]. destruct final; [cbn in E0; lia|]. by rewrite E. }
    assert (0 <= Z.b2z final <= 1) by (by destruct final).
    replace (match g with [] => Ok false | _ => rows ← Adaptive.getMarkRows g (wrap 64 (blen data + Z.b2z final - 1)); Ok (rows =? 0) end)
      with (rows ← Adaptive.getMarkRows g (wrap 64 (blen data + Z.b2z final - 1)); Ok (rows =? 0)).
    2: { destruct g; [|done]. unfold Adaptive.getMarksCount in Hc. cbn in Hc. lia. }
    rewrite wrap_id by (unfold uint; lia). rewrite Hr by lia. destruct (Z.ltb_spec (blen data + Z.b2z final - 1) (blen data + Z.b2z final)); [run|lia].
    f_equal. destruct final; cbn [Z.b2z] in *.
    - rewrite lookup_ge_None_2 by lia. done.
    - destruct (lookup_lt_is_Some_2 data (Z.to_nat (blen data + 0 - 1))) as [m Hm]; [lia|]. rewrite Hm. change (default 0 (Some m)) with m.
      pose proof (proper_positive _ Hp) as Hpos. rewrite Forall_lookup in Hpos. specialize (Hpos _ _ Hm). cbn in Hpos. apply Z.eqb_neq. lia.
  Qed.

Lemma adaptive_last : last g = if Nat.eqb (length g) 0 then None else Some (sum data).
  Proof using Hrep.
    destruct Hrep as [_ ->]. destruct final; cbn [final_rows].
    - rewrite psums_snoc, last_snoc. rewrite length_app. cbn. destruct (Nat.eqb_spec (length (psums 0 data) + 1) 0); [lia|]. f_equal. lia.
    - rewrite app_nil_r. destruct data as [|x d _] using rev_ind; [done|]. rewrite psums_snoc, last_snoc, length_app. cbn.
      destruct (Nat.eqb_spec (length (psums 0 d) + 1) 0); [lia|]. f_equal. rewrite sum_app. cbn. lia.
  Qed.

Lemma adaptive_total : Adaptive.getTotalRows g = sum data.
  Proof using Hrep.
    unfold Adaptive.getTotalRows. rewrite adaptive_last. destruct (Nat.eqb_spec (length g) 0) as [E|E]; [|done].
    destruct Hrep as [_ ->]. rewrite length_psums, length_app in E. destruct data; [done|cbn in E; lia].
  Qed.
End adaptive.

Lemma proper_app_inv a b : proper_marks (a ++ b) -> Forall (fun m => 0 < m) b -> proper_marks a.
Proof.
  intros [Hpos Hs Hl] Hb. apply Forall_app in Hpos as [Hpos _]. rewrite sum_app in Hs. rewrite length_app in Hl. pose proof (sum_nonneg b Hb).
  constructor; [done|lia|lia].
Qed.

(** Appending any number of rows to marks without a final one. *)
Lemma adaptive_append_any g data rows : adaptive_rep g data false -> 0 <= rows -> sum data + rows < 2 ^ 64 ->
  Adaptive.appendMark g rows = Ok (psums 0 (data ++ [rows])).
Proof.
  intros Hrep Hr Hs. unfold Adaptive.appendMark. rewrite (adaptive_final g data false Hrep). run. rewrite (adaptive_last g data false Hrep).
  pose proof (proper_positive _ (proj1 Hrep)) as Hpos. pose proof (sum_nonneg _ Hpos). destruct Hrep as [_ E]. cbn [final_rows] in E. rewrite app_nil_r in E. subst g.
  rewrite psums_snoc, Z.add_0_l. destruct (Nat.eqb_spec (length (psums 0 data)) 0) as [E|E].
  - destruct data; [done|cbn in E; lia].
  - by rewrite wrap_id by (unfold uint; lia).
Qed.

Lemma adaptive_append g data rows : adaptive_rep g data false -> 0 < rows -> proper_marks (data ++ [rows]) ->
  exists g', Adaptive.appendMark g rows = Ok g' /\ adaptive_rep g' (data ++ [rows]) false.
Proof.
  intros Hrep Hr Hp. exists (psums 0 (data ++ [rows])). split.
  - apply adaptive_append_any; [done|lia|]. pose proof (proper_sum _ Hp) as Hs. rewrite sum_app in Hs. cbn in Hs. lia.
  - split; [done|]. by rewrite app_nil_r.
Qed.

Lemma adaptive_adjust g data rows : adaptive_rep g data false -> 0 < rows -> proper_marks (removelast data ++ [rows]) ->
  exists g', Adaptive.adjustLastMark g rows = Ok g' /\ adaptive_rep g' (removelast data ++ [rows]) false.
Proof.
  intros Hrep Hr Hp. exists (psums 0 (removelast data ++ [rows])). split; [|split; [done|by rewrite app_nil_r]].
  unfold Adaptive.adjustLastMark. rewrite (adaptive_final g data false Hrep). run. pose proof Hrep as [_ E]. cbn [final_rows] in E. rewrite app_nil_r in E.
  destruct data as [|x d _] using rev_ind; [by rewrite E|]. rewrite removelast_snoc in *. rewrite psums_snoc in E.
  pose proof (proper_sum _ Hp) as Hs. rewrite sum_app in Hs. cbn in Hs.
  assert (adaptive_rep (removelast g) d false) as Hrep'.
  { split; [apply (proper_app_inv d [rows] Hp); by constructor|]. rewrite E, removelast_snoc. cbn. by rewrite app_nil_r. }
  destruct g as [|y g']; [by destruct (psums 0 d)|]. apply adaptive_append_any; [done|lia|lia].
Qed.

#[export] Instance adaptive_laws : GranularityLaws Adaptive.t.
Proof.
  refine {| rep := adaptive_rep; growable := fun _ _ => True |}.
  - by intros g data final [? _].
  - apply adaptive_count.
  - apply adaptive_total.
  - apply adaptive_final.
  - intros g data final i H. by apply adaptive_mark_rows.
  - intros g data final b e H Hbe He _. by apply (adaptive_range g data final H).
  - intros g data final from rows Hrep Hpos Hfrom Hrows Hlt. cbn. unfold Adaptive.countMarksForRows.
    rewrite (adaptive_range g data final Hrep) by lia. run. change (rows_before data 0) with 0. pose proof (rows_before_lt g data final Hrep from).
    rewrite Z.sub_0_r, (wrap_id 64 (_ + rows)) by (unfold uint; lia). destruct Hrep as [_ ->]. rewrite upper_bound_psums by lia. by rewrite Z.sub_0_r.
  - intros g data final from rows offset Hrep Hfrom Hrows Hoff Hlt. cbn. unfold Adaptive.countRowsForRows.
    assert (0 <= Z.b2z final <= 1) by (by destruct final). pose proof (rows_before_lt g data final Hrep from) as Hb.
    pose proof (proper_positive _ (proj1 Hrep)) as Hpos. rewrite (adaptive_range g data final Hrep 0) by lia. run. change (rows_before data 0) with 0.
    rewrite Z.sub_0_r, (wrap_id 64 (_ + offset)), (wrap_id 64 (_ + rows)) by (unfold uint; lia).
    pose proof (mark_of_row_ge data final Hpos from (rows_before data from + offset + rows) ltac:(lia) ltac:(lia)).
    pose proof (mark_of_row_bounds data final (rows_before data from + offset + rows)).
    replace (Adaptive.upper_bound g (rows_before data from + offset + rows)) with (mark_of_row data final (rows_before data from + offset + rows)).
    2: { destruct Hrep as [_ ->]. rewrite upper_bound_psums by lia. by rewrite Z.sub_0_r. }
    rewrite (adaptive_range g data final Hrep) by lia. run. done.
  - intros g data final row Hrep Hrow. cbn. unfold Adaptive.getMarkRangeForRowOffset. pose proof (proper_sum _ (proj1 Hrep)). pose proof (proper_length _ (proj1 Hrep)).
    pose proof (mark_of_row_inside data final row Hrow). pose proof (mark_of_row_bounds data final row).
    rewrite (wrap_id 64 (row + 1)), lower_bound_succ by (unfold uint; lia). destruct Hrep as [_ ->]. rewrite upper_bound_psums by lia.
    rewrite Z.sub_0_r, wrap_id by (unfold uint; lia). done.
  - apply adaptive_adjust.
  - intros g data rows Hrep _. by apply adaptive_append.
  - intros g data Hrep. cbn. exists (psums 0 (data ++ [0])). split; [|split; [apply Hrep|done]].
    apply adaptive_append_any; [done|lia|]. rewrite Z.add_0_r. apply proper_sum, Hrep.
  - intros g data rows Hrep. cbn. unfold Adaptive.appendMark, Adaptive.adjustLastMark. by rewrite (adaptive_final g data true Hrep).
Defined.

(** ** Optimizing *)
Lemma all_equal_spec g data final first : adaptive_rep g data final -> forall todo i, 0 <= i -> i + Z.of_nat todo <= blen data ->
  exists b, Adaptive.all_equal g first todo i = Ok b /\
    (b = true <-> forall j, i <= j < i + Z.of_nat todo -> data !! Z.to_nat j = Some first).
Proof.
  intros Hrep. induction todo as [|todo IH]; intros i Hi Hlen; cbn [Adaptive.all_equal]; [exists true; split; [done|]; split; [intros _ j Hj; lia|done]|].
  rewrite (adaptive_mark_rows g data final Hrep) by done. assert (0 <= Z.b2z final) by (by destruct final).
  destruct (Z.ltb_spec i (blen data + Z.b2z final)); [run|lia]. destruct (lookup_lt_is_Some_2 data (Z.to_nat i)) as [m Hm]; [lia|]. rewrite Hm.
  change (default 0 (Some m)) with m. destruct (Z.eqb_spec m first) as [->|Hne]; cbn [negb].
  - destruct (IH (i + 1)) as (b & -> & Hb); [lia|lia|]. exists b. split; [done|]. rewrite Hb. split; intros Hall j Hj.
    + destruct (Z.eq_dec j i) as [->|]; [done|]. apply Hall. lia.
    + apply Hall. lia.
  - exists false. split; [done|]. split; [done|]. intros Hall. specialize (Hall i ltac:(lia)). congruence.
Qed.

Lemma rep_without_final {G} `{GranularityLaws G} (g : G) data final : rep g data final -> getMarksCountWithoutFinal g = Ok (blen data).
Proof.
  intros Hrep. unfold getMarksCountWithoutFinal. rewrite (rep_count g data final Hrep), (rep_final g data final Hrep).
  pose proof (proper_length _ (rep_proper g data final Hrep)). destruct (Z.eqb_spec (blen data + Z.b2z final) 0) as [E|E].
  - f_equal. destruct final; cbn in *; lia.
  - run. f_equal. rewrite wrap_id; destruct final; cbn in *; unfold uint; lia.
Qed.

(** All marks but the last are like the first. *)
Definition constant_but_last (data : list Z) : Prop := forall j, (S j < length data)%nat -> data !! j = data !! 0%nat.

Lemma constant_but_last_shape d x first : constant_but_last (d ++ [x]) -> (d ++ [x]) !! 0%nat = Some first -> d = replicate (length d) first.
Proof.
  intros Hc H0. apply list_eq. intros j. destruct (Nat.lt_ge_cases j (length d)) as [Hj|Hj].
  - rewrite lookup_replicate_2 by done. rewrite <- (lookup_app_l d [x] j), Hc by (rewrite ?length_app; cbn; lia). done.
  - by rewrite !lookup_ge_None_2 by (rewrite ?length_replicate; lia).
Qed.

Lemma optimize_spec g data final : adaptive_rep g data final ->
  exists o, Adaptive.optimize g = Ok o /\
    match o with
    | Some c => constant_rep c data final
    | None => data = [] \/ ~ constant_but_last data
    end.
Proof.
  intros Hrep. unfold Adaptive.optimize. rewrite (@rep_without_final Adaptive.t _ adaptive_laws g data final Hrep). run.
  destruct (Z.eqb_spec (blen data) 0) as [E|E]; [exists None; split; [done|left; by destruct data]|].
  assert (0 <= Z.b2z final) by (by destruct final). destruct (lookup_lt_is_Some_2 data 0) as [first Hfirst]; [lia|].
  rewrite (adaptive_mark_rows g data final Hrep 0) by lia. destruct (Z.ltb_spec 0 (blen data + Z.b2z final)); [run|lia].
  change (Z.to_nat 0) with 0%nat. rewrite Hfirst. change (default 0 (Some first)) with first.
  destruct (all_equal_spec g data final first Hrep (Z.to_nat (blen data - 2)) 1) as (b & -> & Hb); [lia|lia|]. run.
  destruct b; cbn [negb].
  - pose proof (proper_length _ (proj1 Hrep)). rewrite wrap_id by (unfold uint; lia). rewrite (adaptive_mark_rows g data final Hrep) by lia.
    destruct (Z.ltb_spec (blen data - 1) (blen data + Z.b2z final)); [run|lia]. rewrite (adaptive_final g data final Hrep). run. eexists. split; [done|].
    assert (constant_but_last data) as Hcl.
    { intros j Hj. destruct j as [|j]; [done|]. rewrite Hfirst. rewrite <- (proj1 Hb eq_refl (Z.of_nat (S j))) by lia. by rewrite Nat2Z.id. }
    destruct data as [|x d _] using rev_ind; [by cbn in E|]. pose proof (constant_but_last_shape d x first Hcl Hfirst) as Hd.
    replace (Z.to_nat (blen (d ++ [x]) - 1)) with (length d) by len. rewrite lookup_app_r, Nat.sub_diag by done. change (default 0 ([x] !! 0%nat)) with x.
    pose proof (proper_positive _ (proj1 Hrep)) as Hpos. pose proof (proper_sum _ (proj1 Hrep)) as Hs. rewrite sum_app in Hs. cbn in Hs.
    rewrite Forall_lookup in Hpos. pose proof (Hpos _ _ Hfirst) as Hf0. pose proof (Hpos (length d) x ltac:(by rewrite lookup_app_r, Nat.sub_diag by done)) as Hx0. cbn in Hf0, Hx0.
    assert (0 <= sum d) by (rewrite Hd, sum_replicate; nia).
    assert (first < 2 ^ 64).
    { destruct d as [|y d']; cbn in Hfirst; simplify_eq; [lia|]. rewrite Hd, sum_replicate in Hs. cbn in Hs. nia. }
    split_and!; cbn; try done; try lia; [apply Hrep|]. right. rewrite length_app. cbn. replace (pred (length d + 1)) with (length d) by lia. by rewrite <- Hd.
  - exists None. split; [done|]. right. intros Hcl. assert (false = true) as [=]. apply Hb. intros j Hj. by rewrite Hcl by lia.
Qed.

(** ** The number of rows decides the last marks *)

(** All marks of a file were read as data marks of the granularity. *)
Lemma fixFromRowsCount_spec c n rows : 0 < c < 2 ^ 64 -> 0 < n < 2 ^ 63 -> 0 < rows -> rows + c < 2 ^ 64 -> n * c < 2 ^ 64 ->
  exists g, Constant.fixFromRowsCount (Constant.Make c c n false) rows = Ok g /\
    ((n - 1) * c < rows <= n * c -> constant_rep g (replicate (Z.to_nat (n - 1)) c ++ [rows - (n - 1) * c]) false) /\
    ((n - 2) * c < rows <= (n - 1) * c -> constant_rep g (replicate (Z.to_nat (n - 2)) c ++ [rows - (n - 2) * c]) true).
Proof.
  intros Hc Hn Hr Hrc Hnc. unfold Constant.fixFromRowsCount. cbn [Constant.num_marks_without_final Constant.constant_granularity Constant.has_final_mark Constant.last_mark_granularity].
  destruct (Z.eqb_spec n 0); [lia|]. destruct (Z.eqb_spec c 0); [lia|]. cbn [negb]. rewrite bind_defined by done. destruct (Z.eqb_spec rows 0); [lia|].
  rewrite (wrap_id 64 (rows + c)) by (unfold uint; lia). rewrite (wrap_id 64 (rows + c - 1)) by (unfold uint; lia).
  set (expected := (rows + c - 1) / c). assert (c * expected <= rows + c - 1 < c * expected + c) as Hex.
  { subst expected. pose proof (Z.div_mod (rows + c - 1) c ltac:(lia)). pose proof (Z.mod_pos_bound (rows + c - 1) c ltac:(lia)). lia. }
  assert (forall k fin, 0 < k <= n -> (k - 1) * c < rows <= k * c -> 
    constant_rep (Constant.Make c (rows - (k - 1) * c) k fin) (replicate (Z.to_nat (k - 1)) c ++ [rows - (k - 1) * c]) fin) as Hshape.
  { intros k fin Hk Hkr. split_and!; cbn; try lia; try done.
    - constructor; [apply Forall_app; split; [apply Forall_replicate; lia|constructor; [lia|done]]|rewrite sum_constant; lia|rewrite length_app, length_replicate; cbn; lia].
    - rewrite length_app, length_replicate; cbn; lia.
    - right. rewrite length_app, length_replicate. cbn. by replace (pred (Z.to_nat (k - 1) + 1)) with (Z.to_nat (k - 1)) by lia. }
  rewrite andb_true_r. destruct (Z.ltb_spec expected n) as [Hlt|Hge].
  - rewrite (wrap_id 64 (n - 1)) by (unfold uint; lia). destruct (Z.ltb_spec 0 (n - 1)).
    + rewrite (wrap_id 64 (n - 1 - 1)) by (unfold uint; lia). rewrite (wrap_id 64 (_ * c)) by (unfold uint; nia). eexists. split; [done|]. split.
      * intros Hin. exfalso. nia.
      * intros Hin. replace (n - 2) with (n - 1 - 1) in * by lia. destruct (Z.ltb_spec ((n - 1 - 1) * c) rows); [|lia].
        rewrite wrap_id by (unfold uint; nia). apply Hshape; lia.
    + eexists. split; [done|]. split; intros Hin; exfalso; nia.
  - destruct (Z.ltb_spec 0 n); [|lia]. rewrite (wrap_id 64 (n - 1)) by (unfold uint; lia). rewrite (wrap_id 64 (_ * c)) by (unfold uint; nia).
    eexists. split; [done|]. split.
    + intros Hin. destruct (Z.ltb_spec ((n - 1) * c) rows); [|lia]. rewrite wrap_id by (unfold uint; nia). apply Hshape; lia.
    + intros Hin. exfalso. nia.
Qed.

Lemma computeIndexGranularity_spec rows bytes gbytes fixed granules adaptive :
  0 < rows -> 0 < gbytes -> 0 <= bytes -> 0 <= fixed ->
  exists r, computeIndexGranularity rows bytes gbytes fixed granules adaptive = Ok r /\ 1 <= r /\
    (granules = false -> r <= Z.max 1 fixed).
Proof.
  intros Hr Hg Hb Hf. unfold computeIndexGranularity.
  assert (exists v, (if negb adaptive then Ok fixed else if granules then Ok rows
     else if gbytes <=? bytes then _ ← defined (negb (gbytes =? 0)); _ ← defined (negb (bytes / gbytes =? 0)); Ok (rows / (bytes / gbytes))
     else _ ← defined (negb (rows =? 0)); Ok (gbytes / Z.max (bytes / rows) 1)) = Ok v /\ 0 <= v) as (v & E & Hv).
  { destruct adaptive; cbn [negb]; [|by exists fixed]. destruct granules; [exists rows; split; [done|lia]|].
    destruct (Z.leb_spec gbytes bytes) as [Hle|Hlt].
    - assert (0 < bytes / gbytes) by (apply Z.div_str_pos; lia). destruct (Z.eqb_spec gbytes 0); [lia|]. destruct (Z.eqb_spec (bytes / gbytes) 0); [lia|].
      cbn. eexists. split; [done|]. apply Z.div_pos; lia.
    - destruct (Z.eqb_spec rows 0); [lia|]. cbn. eexists. split; [done|]. apply Z.div_pos; [lia|]. lia. }
  cbv zeta in *. rewrite E. run. eexists. split; [done|]. destruct granules; cbn [negb].
  - destruct (Z.eqb_spec v 0); split; try lia; done.
  - destruct (Z.eqb_spec (Z.min fixed v) 0); split; try lia.
Qed.
