(* ===== verification/AltersSequence.v ===== *)
(** * The order of replicated alters

    [ReplicatedMergeTreeAltersSequence]
    ([src/Storages/MergeTree/ReplicatedMergeTreeAltersSequence.h] and [.cpp]):
    an alter has a stage that changes the metadata and one that changes the
    data, and the sequence says which of them may run.  The methods run under
    the lock of the queue, so each is one step.  Assertions are those of
    release builds: none. *)

From stdpp Require Import prelude gmap.
From Stdlib Require Import ZArith Lia.
From S2P Require Import Prelude.

Module ReplicatedMergeTreeAltersSequence.

Record AlterState : Type := State { metadata_finished : bool; data_finished : bool }.

(** [queue_state], a [std::map<int, AlterState>]. *)
Abbreviation t := (gmap Z AlterState).

(** The key of [begin()], the smallest one. *)
Definition begin_key (queue_state : t) : option Z :=
  match (map_to_list queue_state).*1 with
  | [] => None
  | v :: vs => Some (foldr Z.min v vs)
  end.

(** [queue_state[v]] as a value: a missing entry is created with its defaults. *)
Definition at_version (queue_state : t) (v : Z) : AlterState := default (State false false) (queue_state !! v).

Definition getHeadAlterVersion (q : t) : Z := default (-1) (begin_key q).

Definition addMutationForAlter (q : t) (alter_version : Z) : t :=
  match q !! alter_version with
  | None => <[alter_version := State true false]> q
  | Some s => <[alter_version := State (metadata_finished s) false]> q
  end.

Definition addMetadataAlter (q : t) (alter_version : Z) : t :=
  match q !! alter_version with
  | None => <[alter_version := State false true]> q
  | Some s => <[alter_version := State false (data_finished s)]> q
  end.

Definition finishMetadataAlter (q : t) (alter_version : Z) : t :=
  let s := at_version q alter_version in
  if data_finished s then delete alter_version q else <[alter_version := State true (data_finished s)]> q.

Definition finishDataAlter (q : t) (alter_version : Z) : t :=
  match begin_key q with
  | None => q
  | Some head =>
      if head <=? alter_version then
        let s := at_version q alter_version in
        if metadata_finished s then delete alter_version q else <[alter_version := State (metadata_finished s) true]> q
      else q
  end.

(** [at] throws [std::out_of_range] for a version that is not there. *)
Definition canExecuteDataAlter (q : t) (alter_version : Z) : outcome bool :=
  match begin_key q with
  | None => Ok true
  | Some head =>
      if alter_version <? head then Ok true
      else match q !! alter_version with Some s => Ok (metadata_finished s) | None => Throw STD_EXCEPTION end
  end.

Definition canExecuteMetaAlter (q : t) (alter_version : Z) : outcome bool :=
  match begin_key q with
  | None => Undef
  | Some head => Ok (head =? alter_version)
  end.

End ReplicatedMergeTreeAltersSequence.
Import ReplicatedMergeTreeAltersSequence.

(** ** The head *)
Lemma foldr_min_spec v vs : foldr Z.min v vs ∈ v :: vs /\ forall w, w ∈ v :: vs -> foldr Z.min v vs <= w.
Proof.
  induction vs as [|x vs [Hin Hmin]]; cbn [foldr].
  - split; [by left|]. intros w [->|?%elem_of_nil]%elem_of_cons; [lia|done].
  - split.
    + destruct (Z.min_spec x (foldr Z.min v vs)) as [[_ ->]|[_ ->]]; [right; by left|]. apply elem_of_cons in Hin as [->|Hin]; [by left|]. right. by right.
    + intros w. rewrite !elem_of_cons. intros Hw. assert (foldr Z.min v vs <= v) by (apply Hmin; by left).
      destruct Hw as [->|[->|Hw]]; [lia|lia|]. assert (foldr Z.min v vs <= w) by (apply Hmin; by right). lia.
Qed.

Lemma begin_key_Some q h : begin_key q = Some h <-> is_Some (q !! h) /\ forall v, is_Some (q !! v) -> h <= v.
Proof.
  assert (forall v, is_Some (q !! v) <-> v ∈ (map_to_list q).*1) as Hk.
  { intros v. rewrite list_elem_of_fmap. split.
    - intros [s Hs]. exists (v, s). split; [done|]. by apply elem_of_map_to_list.
    - intros ([v' s] & -> & Hs%elem_of_map_to_list). eauto. }
  setoid_rewrite Hk. unfold begin_key. destruct ((map_to_list q).*1) as [|v vs].
  - split; [done|]. by intros [?%elem_of_nil _].
  - destruct (foldr_min_spec v vs) as [Hin Hmin]. split; [intros [= <-]; done|]. intros [Hh Hle]. f_equal. apply Z.le_antisymm; [by apply Hmin|by apply Hle].
Qed.

Lemma begin_key_None q : begin_key q = None <-> q = ∅.
Proof.
  unfold begin_key. split; [|intros ->; by rewrite map_to_list_empty].
  destruct (map_to_list q) as [|[v s] l] eqn:E; cbn; [|done]. intros _. by apply map_to_list_empty_iff.
Qed.

(** ** Histories

    What is asked of the sequence, and the conditions the code asserts: a
    metadata stage is finished only for the head, and a data stage only for an
    alter that is in the sequence or older than all of them.  A metadata stage
    runs, and finishes, only when [canExecuteMetaAlter] lets it. *)
Inductive alter_event : Type :=
| AddMutation (v : Z)
| AddMetadata (v : Z)
| FinishMetadata (v : Z)
| FinishData (v : Z).

Inductive alter_step : t -> alter_event -> t -> Prop :=
| step_add_mutation q v : alter_step q (AddMutation v) (addMutationForAlter q v)
| step_add_metadata q v : alter_step q (AddMetadata v) (addMetadataAlter q v)
| step_finish_metadata q v :
    canExecuteMetaAlter q v = Ok true -> alter_step q (FinishMetadata v) (finishMetadataAlter q v)
| step_finish_data q v :
    (forall h, begin_key q = Some h -> h <= v -> is_Some (q !! v)) -> alter_step q (FinishData v) (finishDataAlter q v).

(** The states after a history, the last event first. *)
Inductive alter_history : list alter_event -> t -> Prop :=
| history_nil : alter_history [] ∅
| history_cons es e q q' : alter_history es q -> alter_step q e q' -> alter_history (e :: es) q'.

(** ** The specification: the stages that were added and not finished since *)
Fixpoint metadata_pending (es : list alter_event) : gset Z :=
  match es with
  | [] => ∅
  | AddMetadata v :: es => {[v]} ∪ metadata_pending es
  | FinishMetadata v :: es => metadata_pending es ∖ {[v]}
  | _ :: es => metadata_pending es
  end.

Fixpoint data_pending (es : list alter_event) : gset Z :=
  match es with
  | [] => ∅
  | AddMutation v :: es => {[v]} ∪ data_pending es
  | FinishData v :: es => data_pending es ∖ {[v]}
  | _ :: es => data_pending es
  end.

Definition alter_pending (es : list alter_event) : gset Z := metadata_pending es ∪ data_pending es.

(** A sequence holds exactly the alters with a pending stage, each with the
    flags of the stages that are not pending. *)
Definition pending_rep (M D : gset Z) (q : t) : Prop :=
  forall v, q !! v = if decide (v ∈ M ∪ D) then Some (State (bool_decide (v ∉ M)) (bool_decide (v ∉ D))) else None.

Lemma pending_rep_Some M D q v : pending_rep M D q -> is_Some (q !! v) <-> v ∈ M ∪ D.
Proof. intros Hq. rewrite Hq. case_decide; split; (done || by eauto || by intros []). Qed.

Lemma pending_rep_begin M D q h :
  pending_rep M D q -> begin_key q = Some h <-> h ∈ M ∪ D /\ forall v, v ∈ M ∪ D -> h <= v.
Proof. intros Hq. rewrite begin_key_Some, (pending_rep_Some M D q) by done. by setoid_rewrite (pending_rep_Some M D q _ Hq). Qed.

Lemma pending_rep_begin_None M D q : pending_rep M D q -> begin_key q = None <-> M ∪ D = ∅.
Proof.
  intros Hq. rewrite begin_key_None. split.
  - intros ->. apply set_eq. intros v. rewrite <- (pending_rep_Some M D ∅ v Hq), lookup_empty. split; [by intros [? ?]|set_solver].
  - intros He. apply map_eq. intros v. rewrite Hq, He, lookup_empty. by rewrite decide_False by set_solver.
Qed.

Lemma state_eq a b a' b' : a = a' -> b = b' -> State a b = State a' b'.
Proof. congruence. Qed.

(** Where the stages that are pending do not change, neither does the entry. *)
Lemma pending_entry_ext (M D M' D' : gset Z) (v : Z) :
  (v ∈ M' <-> v ∈ M) -> (v ∈ D' <-> v ∈ D) ->
  (if decide (v ∈ M ∪ D) then Some (State (bool_decide (v ∉ M)) (bool_decide (v ∉ D))) else None) =
  (if decide (v ∈ M' ∪ D') then Some (State (bool_decide (v ∉ M')) (bool_decide (v ∉ D'))) else None).
Proof.
  intros HM HD. destruct (decide (v ∈ M ∪ D)) as [Hv|Hv].
  - rewrite decide_True by (rewrite elem_of_union in *; tauto). f_equal. apply state_eq; apply bool_decide_ext; tauto.
  - by rewrite decide_False by (rewrite elem_of_union in *; tauto).
Qed.

Lemma pending_rep_insert M D M' D' q v :
  pending_rep M D q -> v ∈ M' ∪ D' -> (forall w, w <> v -> (w ∈ M' <-> w ∈ M) /\ (w ∈ D' <-> w ∈ D)) ->
  pending_rep M' D' (<[v := State (bool_decide (v ∉ M')) (bool_decide (v ∉ D'))]> q).
Proof.
  intros Hq Hv Hw w. destruct (decide (w = v)) as [->|Hne]; [by rewrite lookup_insert_eq, decide_True|].
  rewrite lookup_insert_ne, Hq by done. apply pending_entry_ext; by apply Hw.
Qed.

Lemma pending_rep_delete M D M' D' q v :
  pending_rep M D q -> v ∉ M' ∪ D' -> (forall w, w <> v -> (w ∈ M' <-> w ∈ M) /\ (w ∈ D' <-> w ∈ D)) ->
  pending_rep M' D' (delete v q).
Proof.
  intros Hq Hv Hw w. destruct (decide (w = v)) as [->|Hne]; [by rewrite lookup_delete_eq, decide_False|].
  rewrite lookup_delete_ne, Hq by done. apply pending_entry_ext; by apply Hw.
Qed.

(** The entry of a version, as the operations read it. *)
Lemma pending_rep_at M D q v :
  pending_rep M D q -> v ∈ M ∪ D -> at_version q v = State (bool_decide (v ∉ M)) (bool_decide (v ∉ D)).
Proof. intros Hq Hv. unfold at_version. by rewrite Hq, decide_True. Qed.

Lemma addMutationForAlter_rep M D q v : pending_rep M D q -> pending_rep M ({[v]} ∪ D) (addMutationForAlter q v).
Proof.
  intros Hq. unfold addMutationForAlter. rewrite Hq.
  assert (forall s, s = State (bool_decide (v ∉ M)) (bool_decide (v ∉ {[v]} ∪ D)) -> pending_rep M ({[v]} ∪ D) (<[v := s]> q)) as H.
  { intros s ->. apply pending_rep_insert with M D; [done|set_solver|set_solver]. }
  destruct (decide (v ∈ M ∪ D)); apply H, state_eq; cbn; try done; repeat case_bool_decide; set_solver.
Qed.

Lemma addMetadataAlter_rep M D q v : pending_rep M D q -> pending_rep ({[v]} ∪ M) D (addMetadataAlter q v).
Proof.
  intros Hq. unfold addMetadataAlter. rewrite Hq.
  assert (forall s, s = State (bool_decide (v ∉ {[v]} ∪ M)) (bool_decide (v ∉ D)) -> pending_rep ({[v]} ∪ M) D (<[v := s]> q)) as H.
  { intros s ->. apply pending_rep_insert with M D; [done|set_solver|set_solver]. }
  destruct (decide (v ∈ M ∪ D)); apply H, state_eq; cbn; try done; repeat case_bool_decide; set_solver.
Qed.

Lemma finishMetadataAlter_rep M D q v : pending_rep M D q -> v ∈ M ∪ D -> pending_rep (M ∖ {[v]}) D (finishMetadataAlter q v).
Proof.
  intros Hq Hv. unfold finishMetadataAlter. rewrite (pending_rep_at M D) by done. cbn. case_bool_decide.
  - apply pending_rep_delete with M D; [done|set_solver|set_solver].
  - replace (State true false) with (State (bool_decide (v ∉ M ∖ {[v]})) (bool_decide (v ∉ D))).
    + apply pending_rep_insert with M D; [done|set_solver|set_solver].
    + apply state_eq; case_bool_decide; set_solver.
Qed.

Lemma finishDataAlter_rep M D q v :
  pending_rep M D q -> (forall h, begin_key q = Some h -> h <= v -> is_Some (q !! v)) ->
  pending_rep M (D ∖ {[v]}) (finishDataAlter q v).
Proof.
  intros Hq Hin. assert (v ∉ M ∪ D -> pending_rep M (D ∖ {[v]}) q) as Hstay.
  { intros Hv. replace (D ∖ {[v]}) with D by set_solver. done. }
  unfold finishDataAlter. destruct (begin_key q) as [h|] eqn:Eh.
  - destruct (Z.leb_spec h v) as [Hhv|Hhv].
    + pose proof (proj1 (pending_rep_Some M D q v Hq) (Hin h eq_refl Hhv)) as Hv. rewrite (pending_rep_at M D) by done. cbn. case_bool_decide.
      * apply pending_rep_delete with M D; [done|set_solver|set_solver].
      * replace (State false true) with (State (bool_decide (v ∉ M)) (bool_decide (v ∉ D ∖ {[v]}))).
        -- apply pending_rep_insert with M D; [done|set_solver|set_solver].
        -- apply state_eq; case_bool_decide; set_solver.
    + apply Hstay. intros Hv. apply (pending_rep_begin M D) in Eh as [_ Hmin]; [|done]. specialize (Hmin v Hv). lia.
  - apply Hstay. apply (pending_rep_begin_None M D) in Eh; [|done]. rewrite Eh. set_solver.
Qed.

(** ** What may run *)
Lemma canExecuteMetaAlter_spec M D q v :
  pending_rep M D q -> canExecuteMetaAlter q v = Ok true <-> v ∈ M ∪ D /\ forall w, w ∈ M ∪ D -> v <= w.
Proof.
  intros Hq. rewrite <- (pending_rep_begin M D q v Hq). unfold canExecuteMetaAlter. destruct (begin_key q) as [h|]; [|done].
  split; [intros [= ->%Z.eqb_eq]; done|intros [= ->]; by rewrite Z.eqb_refl].
Qed.

Lemma canExecuteDataAlter_spec M D q v :
  pending_rep M D q ->
  (v ∈ M ∪ D -> canExecuteDataAlter q v = Ok (bool_decide (v ∉ M))) /\
  (v ∉ M ∪ D -> canExecuteDataAlter q v = if decide (exists w, w ∈ M ∪ D /\ w < v) then Throw STD_EXCEPTION else Ok true).
Proof.
  intros Hq. unfold canExecuteDataAlter. destruct (begin_key q) as [h|] eqn:Eh.
  - apply (pending_rep_begin M D) in Eh as [Hh Hmin]; [|done]. split.
    + intros Hv. destruct (Z.ltb_spec v h) as [Hlt|_]; [specialize (Hmin v Hv); lia|]. by rewrite Hq, decide_True.
    + intros Hv. assert (v <> h) by (intros ->; done). destruct (Z.ltb_spec v h) as [Hlt|Hge].
      * rewrite decide_False; [done|]. intros (w & Hw & Hlt'). specialize (Hmin w Hw). lia.
      * rewrite Hq, decide_False by done. rewrite decide_True; [done|]. exists h. split; [done|lia].
  - apply (pending_rep_begin_None M D) in Eh; [|done]. rewrite Eh. split; [set_solver|]. intros _. rewrite decide_False; set_solver.
Qed.

(** ** Histories keep the specification *)
Lemma alter_step_rep es q e q' :
  pending_rep (metadata_pending es) (data_pending es) q -> alter_step q e q' ->
  pending_rep (metadata_pending (e :: es)) (data_pending (e :: es)) q'.
Proof.
  intros Hq Hs. destruct Hs as [q v|q v|q v Hc|q v Hin]; cbn [metadata_pending data_pending].
  - by apply addMutationForAlter_rep.
  - by apply addMetadataAlter_rep.
  - apply finishMetadataAlter_rep; [done|]. by apply (canExecuteMetaAlter_spec _ _ _ _ Hq) in Hc as [Hv _].
  - by apply finishDataAlter_rep.
Qed.

Lemma alter_history_rep es q : alter_history es q -> pending_rep (metadata_pending es) (data_pending es) q.
Proof.
  induction 1 as [|es e q q' _ IH Hstep]; [|by apply alter_step_rep with q]. intros v. by rewrite lookup_empty, decide_False by set_solver.
Qed.

(** ** Progress *)

(** The stage of the head that may run next. *)
Definition run_head (q : t) : option alter_event :=
  v ← begin_key q; Some (if metadata_finished (at_version q v) then FinishData v else FinishMetadata v).

(** An event that finishes a stage the sequence lets run. *)
Definition may_run (q : t) (e : alter_event) : Prop :=
  match e with
  | FinishMetadata v => canExecuteMetaAlter q v = Ok true
  | FinishData v => canExecuteDataAlter q v = Ok true
  | _ => False
  end.

(** [drains n es]: after [es], [n] stages that may run empty the sequence. *)
Inductive drains : nat -> list alter_event -> Prop :=
| drains_empty es : alter_history es ∅ -> drains 0 es
| drains_run n es e q q' :
    alter_history es q -> may_run q e -> alter_step q e q' -> drains n (e :: es) -> drains (S n) es.

(** The stages that are left. *)
Definition stages_left (es : list alter_event) : nat := size (metadata_pending es) + size (data_pending es).

Lemma size_difference_singleton_lt (X : gset Z) v : v ∈ X -> (size (X ∖ {[v]}) < size X)%nat.
Proof. intros Hv. apply subset_size. set_solver. Qed.

(** The stage of the head may run, and one stage less is left after it. *)
Lemma run_head_step es q e :
  alter_history es q -> run_head q = Some e ->
  exists q', may_run q e /\ alter_step q e q' /\ (stages_left (e :: es) < stages_left es)%nat.
Proof.
  intros Hh%alter_history_rep. unfold run_head. destruct (begin_key q) as [v|] eqn:Eh; cbn; [|done]. intros [= <-].
  pose proof Eh as [Hv Hmin]%(pending_rep_begin _ _ _ _ Hh). rewrite (pending_rep_at _ _ q v Hh Hv). cbn [metadata_finished]. case_bool_decide as Hm.
  - exists (finishDataAlter q v). split; [|split].
    + cbn. destruct (canExecuteDataAlter_spec _ _ q v Hh) as [-> _]; [by rewrite bool_decide_true|done].
    + constructor. intros _ _ _. by apply (pending_rep_Some _ _ _ _ Hh).
    + unfold stages_left. cbn [metadata_pending data_pending]. assert (v ∈ data_pending es) as Hd by set_solver. pose proof (size_difference_singleton_lt _ v Hd). lia.
  - exists (finishMetadataAlter q v). assert (canExecuteMetaAlter q v = Ok true) by (by apply (canExecuteMetaAlter_spec _ _ _ _ Hh)).
    split; [done|]. split; [by constructor|]. unfold stages_left. cbn [metadata_pending data_pending].
    pose proof (size_difference_singleton_lt (metadata_pending es) v Hm). lia.
Qed.

(** Running the stages of the head empties the sequence in at most as many
    steps as stages are pending. *)
Lemma run_head_drains k : forall es q, alter_history es q -> (stages_left es <= k)%nat -> exists n, (n <= stages_left es)%nat /\ drains n es.
Proof.
  induction k as [|k IH]; intros es q Hh Hk; destruct (run_head q) as [e|] eqn:Er.
  1,3: destruct (run_head_step es q e Hh Er) as (q' & Hrun & Hstep & Hless).
  - lia.
  - destruct (IH (e :: es) q') as (n & Hn & Hd); [by econstructor|lia|]. exists (S n). split; [lia|]. by econstructor.
  - exists 0%nat. split; [lia|]. constructor. unfold run_head in Er. destruct (begin_key q) eqn:Eb; [done|]. apply begin_key_None in Eb. by subst q.
  - exists 0%nat. split; [lia|]. constructor. unfold run_head in Er. destruct (begin_key q) eqn:Eb; [done|]. apply begin_key_None in Eb. by subst q.
Qed.

(** The history before an event of a history. *)
Lemma alter_history_prefix fs e es q :
  alter_history (fs ++ e :: es) q -> exists q1 q2, alter_history es q1 /\ alter_step q1 e q2.
Proof.
  revert q. induction fs as [|f fs IH]; intros q Hh; inversion Hh; subst; eauto.
Qed.
