(* ===== verification/HashGrowers.v ===== *)
(** * Growers and cells of hash tables

    The template parameters of [HashTable]: [HashTableGrower] and
    [HashTableGrowerWithPrecalculation] of [src/Common/HashTable/HashTable.h],
    and the cells [HashTableCell], [HashMapCell] and [HashMapCellWithSavedHash]
    of [HashTable.h] and [HashMap.h], each group under the interface that the
    table uses and with the laws its correctness rests on.  A shift by at least
    64 is undefined behaviour; libm's [log2] is a parameter. *)

From stdpp Require Import prelude.
From Stdlib Require Import ZArith Lia.
From S2P Require Import Prelude.

(** ** Growers *)

(** [1ULL << d]. *)
Definition shl1 (d : Z) : outcome Z :=
  _ ← defined ((0 <=? d) && (d <? 64));
  Ok (2 ^ d).

(** [static_cast<size_t>(log2(x))] and [static_cast<size_t>(log2(x) + 1)] of a
    number of 64 bits; the conversion of the infinity [log2(0)] is undefined. *)
Class Libm := {
  log2 : Z -> Z;
  log2_plus_1 : Z -> Z }.

(** The result of libm may be rounded up to the next integer, as the conversion
    of [x] to double may be. *)
Class LibmLaws `{Libm} := {
  log2_bounds (x : Z) : 0 < x < 2 ^ 64 -> Z.log2 x <= log2 x <= Z.log2 x + 1;
  log2_plus_1_bounds (x : Z) : 0 < x < 2 ^ 64 -> Z.log2 x + 1 <= log2_plus_1 x <= Z.log2 x + 2 }.

Class Grower (G : Type) := {
  initial : G;
  bufSize : G -> outcome Z;
  place : G -> Z -> outcome Z;
  next : G -> Z -> outcome Z;
  overflow : G -> Z -> outcome bool;
  increaseSize : G -> outcome G;
  set : Z -> G -> outcome G;
  setBufSize : Z -> G -> outcome G }.

Definition max_size_degree : Z := 23.

Module HashTableGrower.
(** [size_degree], of type [UInt8]. *)
Record t (initial_size_degree : Z) := Make { size_degree : Z }.
Arguments Make {_}.
Arguments size_degree {_}.

Section Operations.
Context `{Libm} {initial_size_degree : Z}.
Implicit Types g : t initial_size_degree.

Definition bufSize g : outcome Z := shl1 (size_degree g).
Definition maxFill g : outcome Z := shl1 (size_degree g - 1).
Definition mask g : outcome Z := n ← bufSize g; Ok (wrap 64 (n - 1)).
Definition place g (x : Z) : outcome Z := m ← mask g; Ok (Z.land x m).
Definition next g (pos : Z) : outcome Z := m ← mask g; Ok (Z.land (wrap 64 (pos + 1)) m).
Definition overflow g (elems : Z) : outcome bool := f ← maxFill g; Ok (f <? elems).

Definition increaseSize g : outcome (t initial_size_degree) :=
  Ok (Make (wrap 8 (size_degree g + if max_size_degree <=? size_degree g then 1 else 2))).

Definition set (num_elems : Z) g : outcome (t initial_size_degree) :=
  if num_elems <=? 1 then Ok (Make initial_size_degree)
  else if log2 (num_elems - 1) + 2 <? initial_size_degree then Ok (Make initial_size_degree)
  else Ok (Make (wrap 8 (log2 (num_elems - 1) + 2))).

Definition setBufSize (buf_size : Z) g : outcome (t initial_size_degree) :=
  let x := wrap 64 (buf_size - 1) in
  _ ← defined (negb (x =? 0));
  Ok (Make (wrap 8 (log2_plus_1 x))).
End Operations.

#[global] Instance grower `{Libm} (d : Z) : Grower (t d) := {|
  HashGrowers.initial := Make d;
  HashGrowers.bufSize := bufSize;
  HashGrowers.place := place;
  HashGrowers.next := next;
  HashGrowers.overflow := overflow;
  HashGrowers.increaseSize := increaseSize;
  HashGrowers.set := set;
  HashGrowers.setBufSize := setBufSize |}.
End HashTableGrower.

Module HashTableGrowerWithPrecalculation.
Record t (initial_size_degree : Z) := Make {
  size_degree : Z;
  precalculated_mask : Z;
  precalculated_max_fill : Z }.
Arguments Make {_}.
Arguments size_degree {_}.
Arguments precalculated_mask {_}.
Arguments precalculated_max_fill {_}.

Section Operations.
Context `{Libm} {initial_size_degree : Z}.
Implicit Types g : t initial_size_degree.

(** The members with their initializers. *)
Definition init : t initial_size_degree :=
  Make initial_size_degree (2 ^ initial_size_degree - 1) (2 ^ (initial_size_degree - 1)).

Definition increaseSizeDegree (delta : Z) (size_degree : Z) : outcome (t initial_size_degree) :=
  let size_degree := wrap 8 (size_degree + delta) in
  n ← shl1 size_degree;
  f ← shl1 (size_degree - 1);
  Ok (Make size_degree (wrap 64 (n - 1)) f).

Definition bufSize g : outcome Z := shl1 (size_degree g).
Definition place g (x : Z) : outcome Z := Ok (Z.land x (precalculated_mask g)).
Definition next g (pos : Z) : outcome Z := Ok (Z.land (wrap 64 (pos + 1)) (precalculated_mask g)).
Definition overflow g (elems : Z) : outcome bool := Ok (precalculated_max_fill g <? elems).

Definition increaseSize g : outcome (t initial_size_degree) :=
  increaseSizeDegree (if max_size_degree <=? size_degree g then 1 else 2) (size_degree g).

(** The assignment of [size_degree] and [increaseSizeDegree(0)]. *)
Definition set (num_elems : Z) g : outcome (t initial_size_degree) :=
  increaseSizeDegree 0
    (if num_elems <=? 1 then initial_size_degree
     else if log2 (num_elems - 1) + 2 <? initial_size_degree then initial_size_degree
     else wrap 8 (log2 (num_elems - 1) + 2)).

Definition setBufSize (buf_size : Z) g : outcome (t initial_size_degree) :=
  let x := wrap 64 (buf_size - 1) in
  _ ← defined (negb (x =? 0));
  increaseSizeDegree 0 (wrap 8 (log2_plus_1 x)).
End Operations.

#[global] Instance grower `{Libm} (d : Z) : Grower (t d) := {|
  HashGrowers.initial := init;
  HashGrowers.bufSize := bufSize;
  HashGrowers.place := place;
  HashGrowers.next := next;
  HashGrowers.overflow := overflow;
  HashGrowers.increaseSize := increaseSize;
  HashGrowers.set := set;
  HashGrowers.setBufSize := setBufSize |}.
End HashTableGrowerWithPrecalculation.

(** ** Cells

    The operations of a cell that lies at some place in memory; [zeroed] is the
    cell of a zeroed piece of memory.  [construct k m] is the placement
    [new (m) Cell(k)], which leaves what it does not initialize as it was. *)
Class Cell (C K V : Type) := {
  getKey : C -> K;
  getMapped : C -> V;
  keyEquals : C -> K -> Z -> bool;
  getHash : (K -> Z) -> C -> Z;
  isZeroKey : K -> bool;
  setZero : C -> C;
  setHash : Z -> C -> C;
  setMapped : V -> C -> C;
  construct : K -> C -> C;
  zeroed : C }.

Definition isZero {C K V} `{Cell C K V} (c : C) : bool := isZeroKey (getKey c).

(** The keys of a table: their zero is [T{}]. *)
Class Zero (K : Type) := zero : K.

Module HashTableCell.
Record t (K : Type) := Make { key : K }.
Arguments Make {K}.
Arguments key {K}.

#[global] Instance cell {K} `{EqDecision K, Zero K} : Cell (t K) K unit := {|
  getKey c := key c;
  getMapped c := tt;
  keyEquals c k h := bool_decide (key c = k);
  getHash hash c := hash (key c);
  isZeroKey k := bool_decide (k = zero);
  setZero c := Make zero;
  setHash h c := c;
  setMapped v c := c;
  construct k m := Make k;
  zeroed := Make zero |}.
End HashTableCell.

Module HashMapCell.
Record t (K V : Type) := Make { first : K; second : V }.
Arguments Make {K V}.
Arguments first {K V}.
Arguments second {K V}.

(** A mapped type whose zeroed memory is a value. *)
#[global] Instance cell {K V} `{EqDecision K, Zero K, Zero V} : Cell (t K V) K V := {|
  getKey c := first c;
  getMapped c := second c;
  keyEquals c k h := bool_decide (first c = k);
  getHash hash c := hash (first c);
  isZeroKey k := bool_decide (k = zero);
  setZero c := Make zero (second c);
  setHash h c := c;
  setMapped v c := Make (first c) v;
  construct k m := Make k (second m);
  zeroed := Make zero zero |}.
End HashMapCell.

Module HashMapCellWithSavedHash.
Record t (K V : Type) := Make { first : K; second : V; saved_hash : Z }.
Arguments Make {K V}.
Arguments first {K V}.
Arguments second {K V}.
Arguments saved_hash {K V}.

#[global] Instance cell {K V} `{EqDecision K, Zero K, Zero V} : Cell (t K V) K V := {|
  getKey c := first c;
  getMapped c := second c;
  keyEquals c k h := (saved_hash c =? h) && bool_decide (first c = k);
  getHash hash c := saved_hash c;
  isZeroKey k := bool_decide (k = zero);
  setZero c := Make zero (second c) (saved_hash c);
  setHash h c := Make (first c) (second c) h;
  setMapped v c := Make (first c) v (saved_hash c);
  construct k m := Make k (second m) (saved_hash m);
  zeroed := Make zero zero 0 |}.
End HashMapCellWithSavedHash.

(** What the table relies on.  [remembers hash c]: the cell's own hash, if it
    has one, is the hash of its key. *)
Class CellLaws (C K V : Type) `{Cell C K V} := {
  remembers : (K -> Z) -> C -> Prop;
  zero_key : K;
  isZeroKey_spec k : isZeroKey k = true <-> k = zero_key;
  getKey_setZero c : getKey (setZero c) = zero_key;
  getKey_zeroed : getKey zeroed = zero_key;
  getKey_construct k m : getKey (construct k m) = k;
  getMapped_setMapped v c : getMapped (setMapped v c) = v;
  getKey_setMapped v c : getKey (setMapped v c) = getKey c;
  getKey_setHash h c : getKey (setHash h c) = getKey c;
  getMapped_setHash h c : getMapped (setHash h c) = getMapped c;
  keyEquals_spec hash c k : remembers hash c -> keyEquals c k (hash k) = true <-> getKey c = k;
  getHash_spec hash c : remembers hash c -> getHash hash c = hash (getKey c);
  remembers_setHash hash c : remembers hash (setHash (hash (getKey c)) c);
  remembers_setMapped hash v c : remembers hash c -> remembers hash (setMapped v c) }.

#[export] Program Instance set_cell_laws {K} `{EqDecision K, Zero K} : CellLaws (HashTableCell.t K) K unit := {|
  remembers hash c := True;
  zero_key := zero |}.
Solve Obligations with cbn; intros; first [apply bool_decide_eq_true|by repeat match goal with x : unit |- _ => destruct x end].

#[export] Program Instance map_cell_laws {K V} `{EqDecision K, Zero K, Zero V} : CellLaws (HashMapCell.t K V) K V := {|
  remembers hash c := True;
  zero_key := zero |}.
Solve Obligations with cbn; intros; first [apply bool_decide_eq_true|done].

#[export] Program Instance saved_cell_laws {K V} `{EqDecision K, Zero K, Zero V} :
  CellLaws (HashMapCellWithSavedHash.t K V) K V := {|
  remembers hash c := HashMapCellWithSavedHash.saved_hash c = hash (HashMapCellWithSavedHash.first c);
  zero_key := zero |}.
Solve Obligations with cbn; intros; try first [apply bool_decide_eq_true|done].
Next Obligation.
  cbn. intros K V ??? hash c k ->. rewrite andb_true_iff, Z.eqb_eq, bool_decide_eq_true. split; [tauto|]. by intros ->.
Qed.

(** ** What a grower promises

    The buffer has [2 ^ degree] cells and is half full at most; the collision
    resolution chain is cyclic with single steps. *)
Class GrowerLaws (G : Type) `{Grower G} := {
  degree : G -> Z;
  valid : G -> Prop;
  valid_degree g : valid g -> 1 <= degree g <= 63;
  valid_initial : valid initial /\ degree initial <= 62;
  bufSize_spec g : valid g -> bufSize g = Ok (2 ^ degree g);
  place_spec g x : valid g -> place g x = Ok (x mod 2 ^ degree g);
  next_spec g p : valid g -> 0 <= p < 2 ^ degree g -> next g p = Ok ((p + 1) mod 2 ^ degree g);
  overflow_spec g n : valid g -> overflow g n = Ok (2 ^ (degree g - 1) <? n);
  increaseSize_spec g : valid g -> degree g <= 62 ->
    exists g', increaseSize g = Ok g' /\ valid g' /\ degree g' = degree g + if max_size_degree <=? degree g then 1 else 2;
  set_spec n g : valid g -> 0 <= n <= 2 ^ 61 -> exists g', set n g = Ok g' /\ valid g' /\ n <= 2 ^ (degree g' - 1);
  setBufSize_spec n g : valid g -> 2 <= n <= 2 ^ 62 -> exists g', setBufSize n g = Ok g' /\ valid g' /\ n <= 2 ^ degree g' }.

(** The values of the template parameter [initial_size_degree] that make sense. *)
Class InitialDegree (d : Z) := initial_degree : 1 <= d <= 62.

#[export] Instance initial_degree_8 : InitialDegree 8.
Proof. red. lia. Qed.

Lemma shl1_Ok d : 0 <= d < 64 -> shl1 d = Ok (2 ^ d).
Proof. intros. unfold shl1. rewrite bind_defined by (apply andb_true_iff; split; lia). done. Qed.

Lemma land_size_mask x d : 0 <= d < 64 -> Z.land x (wrap 64 (2 ^ d - 1)) = x mod 2 ^ d.
Proof.
  intros. pose proof (Z.pow_lt_mono_r 2 d 64). pose proof (Z.pow_pos_nonneg 2 d).
  rewrite wrap_id by (split; lia). by rewrite Z.sub_1_r, <- Z.ones_equiv, Z.land_ones by lia.
Qed.

Lemma next_mask p d : 0 <= d < 64 -> 0 <= p < 2 ^ d -> Z.land (wrap 64 (p + 1)) (wrap 64 (2 ^ d - 1)) = (p + 1) mod 2 ^ d.
Proof.
  intros Hd Hp. pose proof (Z.pow_lt_mono_r 2 d 64). rewrite (wrap_id 64 (p + 1)) by (split; lia). by apply land_size_mask.
Qed.

(** The degree [set] computes leaves room for the elements. *)
Lemma log2_room `{LibmLaws} d n : InitialDegree d -> 2 <= n <= 2 ^ 61 -> d <= log2 (n - 1) + 2 ->
  1 <= log2 (n - 1) + 2 <= 63 /\ n <= 2 ^ (log2 (n - 1) + 2 - 1).
Proof.
  intros Hd Hn Hle. destruct (log2_bounds (n - 1)) as [L U]; [lia|].
  pose proof (Z.log2_spec (n - 1) ltac:(lia)) as [_ S]. pose proof (Z.log2_nonneg (n - 1)).
  assert (Z.log2 (n - 1) < 61) by (apply Z.log2_lt_pow2; lia).
  pose proof (Z.pow_le_mono_r 2 (Z.succ (Z.log2 (n - 1))) (log2 (n - 1) + 2 - 1)). lia.
Qed.

Lemma log2_small `{LibmLaws} d n : InitialDegree d -> 2 <= n <= 2 ^ 61 -> log2 (n - 1) + 2 < d -> n <= 2 ^ (d - 1).
Proof.
  intros Hd Hn Hlt. destruct (log2_bounds (n - 1)) as [L U]; [lia|].
  pose proof (Z.log2_spec (n - 1) ltac:(lia)) as [_ S].
  pose proof (Z.pow_le_mono_r 2 (Z.succ (Z.log2 (n - 1))) (d - 1)). lia.
Qed.

Lemma log2_plus_1_room `{LibmLaws} n : 2 <= n <= 2 ^ 62 ->
  1 <= log2_plus_1 (n - 1) <= 63 /\ n <= 2 ^ log2_plus_1 (n - 1).
Proof.
  intros Hn. destruct (log2_plus_1_bounds (n - 1)) as [L U]; [lia|].
  pose proof (Z.log2_spec (n - 1) ltac:(lia)) as [_ S]. pose proof (Z.log2_nonneg (n - 1)).
  assert (Z.log2 (n - 1) < 62) by (apply Z.log2_lt_pow2; lia).
  pose proof (Z.pow_le_mono_r 2 (Z.succ (Z.log2 (n - 1))) (log2_plus_1 (n - 1))). lia.
Qed.

Lemma wrap8_small d : 0 <= d <= 255 -> wrap 8 d = d.
Proof. intros. apply wrap_id. split; lia. Qed.

(** The degree that [set] gives the growers. *)
Definition set_degree `{Libm} (d n : Z) : Z :=
  if n <=? 1 then d else if log2 (n - 1) + 2 <? d then d else wrap 8 (log2 (n - 1) + 2).

Lemma set_degree_room `{LibmLaws} d n : InitialDegree d -> 0 <= n <= 2 ^ 61 ->
  1 <= set_degree d n <= 63 /\ n <= 2 ^ (set_degree d n - 1).
Proof.
  intros Hd Hn. unfold set_degree, InitialDegree in *. pose proof (Z.pow_pos_nonneg 2 (d - 1)).
  destruct (Z.leb_spec n 1); [lia|]. destruct (Z.ltb_spec (log2 (n - 1) + 2) d).
  - pose proof (log2_small d n Hd). lia.
  - destruct (log2_room d n Hd) as [B S]; [lia..|]. rewrite wrap8_small by lia. done.
Qed.

#[export] Program Instance grower_laws `{LibmLaws} (d : Z) `{InitialDegree d} : GrowerLaws (HashTableGrower.t d) := {|
  degree g := HashTableGrower.size_degree g;
  valid g := 1 <= HashTableGrower.size_degree g <= 63 |}.
Solve Obligations with cbn; intros; try solve [done|unfold HashTableGrower.bufSize, HashTableGrower.place, HashTableGrower.next,
  HashTableGrower.overflow, HashTableGrower.mask, HashTableGrower.maxFill, HashTableGrower.bufSize; rewrite !shl1_Ok by lia; cbn;
  first [done|by rewrite land_size_mask by lia|by rewrite next_mask by lia]].
Next Obligation. cbn. intros ?? d Hd. red in Hd. lia. Qed.
Next Obligation.
  cbn. intros. eexists. split; [done|]. cbn. unfold max_size_degree. rewrite wrap8_small; case_match; lia.
Qed.
Next Obligation.
  cbn. intros ?? d Hd n g _ Hn. exists (HashTableGrower.Make (set_degree d n)). cbn. split; [|by apply set_degree_room].
  unfold HashTableGrower.set, set_degree. by repeat case_match.
Qed.
Next Obligation.
  cbn. intros ?? d Hd n g _ Hn. unfold HashTableGrower.setBufSize. rewrite (wrap_id 64) by (split; lia).
  destruct (log2_plus_1_room n Hn). rewrite bind_defined by (destruct (Z.eqb_spec (n - 1) 0); [lia|done]). eexists. split; [done|]. cbn. rewrite wrap8_small by lia. done.
Qed.

Lemma increaseSizeDegree_Ok {d} delta s : 1 <= s + delta <= 63 ->
  HashTableGrowerWithPrecalculation.increaseSizeDegree (initial_size_degree := d) delta s
  = Ok (HashTableGrowerWithPrecalculation.Make (s + delta) (wrap 64 (2 ^ (s + delta) - 1)) (2 ^ (s + delta - 1))).
Proof. intros. unfold HashTableGrowerWithPrecalculation.increaseSizeDegree. cbn. rewrite wrap8_small, !shl1_Ok by lia. done. Qed.

(** The precalculated members are those of the degree. *)
#[export] Program Instance precalculated_laws `{LibmLaws} (d : Z) `{InitialDegree d} :
  GrowerLaws (HashTableGrowerWithPrecalculation.t d) := {|
  degree g := HashTableGrowerWithPrecalculation.size_degree g;
  valid g := let s := HashTableGrowerWithPrecalculation.size_degree g in
    1 <= s <= 63 /\ HashTableGrowerWithPrecalculation.precalculated_mask g = wrap 64 (2 ^ s - 1)
    /\ HashTableGrowerWithPrecalculation.precalculated_max_fill g = 2 ^ (s - 1) |}.
Solve Obligations with cbn; intros; destruct_and?; try solve [done|unfold HashTableGrowerWithPrecalculation.bufSize,
  HashTableGrowerWithPrecalculation.place, HashTableGrowerWithPrecalculation.next, HashTableGrowerWithPrecalculation.overflow;
  rewrite ?shl1_Ok by lia; first [done|congruence|f_equal; etrans; [by apply f_equal|]; first [by apply land_size_mask; lia|by apply next_mask; lia]]].
Next Obligation.
  cbn. intros ?? d Hd. unfold InitialDegree in *. pose proof (Z.pow_lt_mono_r 2 d 64). pose proof (Z.pow_pos_nonneg 2 d).
  rewrite (wrap_id 64) by (split; lia). lia.
Qed.
Next Obligation.
  cbn. intros ?? d Hd g Hg Hle. unfold HashTableGrowerWithPrecalculation.increaseSize, max_size_degree. rewrite increaseSizeDegree_Ok by (case_match; lia).
  eexists. split; [done|]. cbn. repeat split; case_match; lia.
Qed.
Next Obligation.
  cbn. intros ?? d Hd n g _ Hn. destruct (set_degree_room d n Hd Hn) as [B S].
  unfold HashTableGrowerWithPrecalculation.set. fold (set_degree d n). rewrite increaseSizeDegree_Ok by lia.
  eexists. split; [done|]. cbn. rewrite Z.add_0_r. lia.
Qed.
Next Obligation.
  cbn. intros ?? d Hd n g _ Hn. unfold HashTableGrowerWithPrecalculation.setBufSize. rewrite (wrap_id 64) by (split; lia).
  destruct (log2_plus_1_room n Hn). rewrite bind_defined by (destruct (Z.eqb_spec (n - 1) 0); [lia|done]). rewrite wrap8_small, increaseSizeDegree_Ok by lia.
  eexists. split; [done|]. cbn. rewrite Z.add_0_r. lia.
Qed.
