(* ===== verification/HashTable.v ===== *)
(** * Open-addressing hash tables

    The class [HashTable] of [src/Common/HashTable/HashTable.h] and
    [HashMapTable] of [HashMap.h], over any cell and grower, with trivially
    destructible cells that store the zero key apart.  The buffer is the list of
    its cells and the null pointer the empty list; an access outside it and a
    probe that never ends are undefined behaviour.  An operation that may throw
    runs in the monad [act], which keeps the table an exception leaves behind.
    The hash function, [sizeof(Cell)], the memory the process can get and the
    binary form of keys and values are parameters. *)

From stdpp Require Import prelude.
From Stdlib Require Import ZArith Lia.
From S2P Require Import Prelude VarInt HashGrowers.

(** ** Computations on an object *)
Definition act (S A : Type) : Type := S -> outcome A * S.

#[export] Instance act_ret {S} : MRet (act S) := fun A a s => (Ok a, s).
#[export] Instance act_bind {S} : MBind (act S) := fun A B f m s =>
  match m s with
  | (Ok a, s) => f a s
  | (Throw e, s) => (Throw e, s)
  | (Undef, s) => (Undef, s)
  end.

Definition lift {S A} (o : outcome A) : act S A := fun s => (o, s).
Definition get {S} : act S S := fun s => (Ok s, s).
Definition modify {S} (f : S -> S) : act S unit := fun s => (Ok tt, f s).

(** [try { m } catch (...) { h; throw; }]. *)
Definition on_throw {S A} (m : act S A) (h : S -> S) : act S A := fun s =>
  match m s with
  | (Throw e, s) => (Throw e, h s)
  | r => r
  end.

Section act_lemmas.
Context {S A B : Type}.

Lemma bind_get (f : S -> act S A) (s : S) : (get ≫= f) s = f s s.
Proof. done. Qed.

Lemma bind_modify h (f : unit -> act S A) (s : S) : (modify h ≫= f) s = f tt (h s).
Proof. done. Qed.

Lemma bind_ret (a : A) (f : A -> act S B) (s : S) : (mret a ≫= f) s = f a s.
Proof. done. Qed.

Lemma bind_lift (o : outcome A) (f : A -> act S B) (s : S) :
  (lift o ≫= f) s = match o with Ok a => f a s | Throw e => (Throw e, s) | Undef => (Undef, s) end.
Proof. by destruct o. Qed.

Lemma run_ret (a : A) (s : S) : (mret a : act S A) s = (Ok a, s).
Proof. done. Qed.

Lemma run_modify h (s : S) : modify h s = (Ok tt, h s).
Proof. done. Qed.

Lemma act_bind_run (m : act S A) (f : A -> act S B) (s : S) :
  (m ≫= f) s = match m s with (Ok a, s) => f a s | (Throw e, s) => (Throw e, s) | (Undef, s) => (Undef, s) end.
Proof. done. Qed.
End act_lemmas.

Create Rewrite HintDb act.
#[export] Hint Rewrite @bind_get @bind_modify @bind_ret @bind_lift @run_ret @run_modify : act.

(** Running the steps of a computation whose outcomes are known. *)
Ltac acts := repeat (progress (autorewrite with act; cbn)).

(** ** Parameters *)
Class Hash (K : Type) := hash : K -> Z.
Class CellSize (C : Type) := sizeof_Cell : Z.

(** Which error, if any, stops the allocation of a number of bytes. *)
Definition Memory := Z -> option ErrorCode.

(** [writeBinary] and [readBinary]. *)
Class Binary (A : Type) := {
  writeBinary : A -> bytes;
  readBinary : bytes -> outcome (A * bytes) }.

(** [Cell::write], and [Cell::read] with the value the cell then has. *)
Class CellIO (C K V : Type) := {
  cell_write : C -> bytes;
  value_read : bytes -> outcome ((K * V) * bytes) }.

#[export] Instance set_cell_io {K} `{Binary K} : CellIO (HashTableCell.t K) K unit := {|
  cell_write c := writeBinary (HashTableCell.key c);
  value_read rb := '(k, rb) ← readBinary rb; Ok ((k, tt), rb) |}.

Definition write_pair {K V} `{Binary K, Binary V} (k : K) (v : V) : bytes := writeBinary k ++ writeBinary v.
Definition read_pair {K V} `{Binary K, Binary V} (rb : bytes) : outcome ((K * V) * bytes) :=
  '(k, rb) ← readBinary rb; '(v, rb) ← readBinary rb; Ok ((k, v), rb).

#[export] Instance map_cell_io {K V} `{Binary K, Binary V} : CellIO (HashMapCell.t K V) K V := {|
  cell_write c := write_pair (HashMapCell.first c) (HashMapCell.second c);
  value_read := read_pair |}.

#[export] Instance saved_cell_io {K V} `{Binary K, Binary V} : CellIO (HashMapCellWithSavedHash.t K V) K V := {|
  cell_write c := write_pair (HashMapCellWithSavedHash.first c) (HashMapCellWithSavedHash.second c);
  value_read := read_pair |}.

(** ** Allocation *)
Definition checkSize (size : Z) : outcome unit := require (size <? 0x8000000000000000) LOGICAL_ERROR.

Definition obtain (mem : Memory) (size : Z) : outcome unit :=
  match mem size with Some e => Throw e | None => Ok tt end.

Module HashTable.
Record t (C G : Type) := Make {
  m_size : Z;
  buf : list C;
  grower : G;
  has_zero : bool;
  zero_value : C }.
Arguments Make {C G}.
Arguments m_size {C G}.
Arguments buf {C G}.
Arguments grower {C G}.
Arguments has_zero {C G}.
Arguments zero_value {C G}.

(** A [Cell *] other than null: the storage of the zero key, or an address in
    the buffer. *)
Inductive ptr := ZeroValue | Slot (i : Z).

#[export] Instance ptr_eq_dec : EqDecision ptr.
Proof. solve_decision. Defined.

Section Operations.
Context {C K V G : Type} `{!Cell C K V, !Grower G, !Hash K, !CellSize C}.
Implicit Types (s : t C G) (b : list C) (g : G).
#[local] Abbreviation act := (act (t C G)).

Definition with_size (n : Z) s : t C G := Make n (buf s) (grower s) (has_zero s) (zero_value s).
Definition with_buf b s : t C G := Make (m_size s) b (grower s) (has_zero s) (zero_value s).
Definition with_grower g s : t C G := Make (m_size s) (buf s) g (has_zero s) (zero_value s).
Definition with_zero (h : bool) (c : C) s : t C G := Make (m_size s) (buf s) (grower s) h c.

Definition empty s : bool := m_size s =? 0.
Definition size s : Z := m_size s.

(** [buf[i]]. *)
Definition cell_at b (i : Z) : outcome C :=
  if 0 <=? i then match b !! Z.to_nat i with Some c => Ok c | None => Undef end else Undef.

Definition put b (i : Z) (c : C) : list C := <[Z.to_nat i := c]> b.

Fixpoint findCell_fuel (fuel : nat) b g (x : K) (hash_value place_value : Z) : outcome Z :=
  match fuel with
  | O => Undef
  | S fuel =>
      c ← cell_at b place_value;
      if negb (isZero c) && negb (keyEquals c x hash_value)
      then place_value ← next g place_value; findCell_fuel fuel b g x hash_value place_value
      else Ok place_value
  end.

Definition findCell b g (x : K) (hash_value place_value : Z) : outcome Z :=
  findCell_fuel (S (length b)) b g x hash_value place_value.

Fixpoint findEmptyCell_fuel (fuel : nat) b g (place_value : Z) : outcome Z :=
  match fuel with
  | O => Undef
  | S fuel =>
      c ← cell_at b place_value;
      if negb (isZero c) then place_value ← next g place_value; findEmptyCell_fuel fuel b g place_value else Ok place_value
  end.

Definition findEmptyCell b g (place_value : Z) : outcome Z := findEmptyCell_fuel (S (length b)) b g place_value.

Definition allocCheckOverflow (buffer_size : Z) : outcome Z :=
  let size := buffer_size * sizeof_Cell (C := C) in
  _ ← require (size <? 2 ^ 64) CANNOT_ALLOCATE_MEMORY;
  Ok size.

(** [Allocator::alloc], which zeroes the memory, and [grower = new_grower]. *)
Definition alloc (mem : Memory) (new_grower : G) : act unit :=
  n ← lift (bufSize new_grower);
  size ← lift (allocCheckOverflow n);
  _ ← lift (checkSize size);
  _ ← lift (obtain mem size);
  _ ← modify (with_buf (replicate (Z.to_nat n) zeroed));
  modify (with_grower new_grower).

Definition free : act unit := modify (with_buf []).

Definition getBufferSizeInBytes g : outcome Z := n ← bufSize g; Ok (wrap 64 (n * sizeof_Cell (C := C))).

(** [Allocator::realloc] to [n] cells, [n] not less than before: the cells stay
    and the new memory is zeroed. *)
Definition realloc (mem : Memory) b (old_size new_size n : Z) : outcome (list C) :=
  _ ← checkSize new_size;
  if old_size =? new_size then Ok b
  else _ ← obtain mem new_size; Ok (b ++ replicate (Z.to_nat n - length b) zeroed).

(** [reinsert(buf[i], hash_value)]. *)
Definition reinsert b g (i : Z) (hash_value : Z) : outcome (list C) :=
  x ← cell_at b i;
  place_value ← place g hash_value;
  if place_value =? i then Ok b
  else
    place_value ← findCell b g (getKey x) hash_value place_value;
    c ← cell_at b place_value;
    if negb (isZero c) then Ok b
    else let x := setHash hash_value x in Ok (put (put b place_value x) i (setZero x)).

(** [for (; i < old_size; ++i)], [n] rounds before its end. *)
Fixpoint reinsert_all (n : nat) b g (i : Z) : outcome (list C) :=
  match n with
  | O => Ok b
  | S n =>
      c ← cell_at b i;
      b ← (if isZero c then Ok b else reinsert b g i (getHash hash c));
      reinsert_all n b g (i + 1)
  end.

(** [for (; i < new_size && !buf[i].isZero(); ++i)], at most [n] more rounds. *)
Fixpoint reinsert_tail (n : nat) b g (i : Z) : outcome (list C) :=
  match n with
  | O => Ok b
  | S n =>
      c ← cell_at b i;
      if isZero c then Ok b
      else b ← reinsert b g i (getHash hash c); reinsert_tail n b g (i + 1)
  end.

(** The grower [resize] chooses; none when it returns early. *)
Definition new_grower (for_num_elems for_buf_size : Z) g : outcome (option G) :=
  old_size ← bufSize g;
  if negb (for_num_elems =? 0) then
    g ← set for_num_elems g;
    n ← bufSize g;
    Ok (if n <=? old_size then None else Some g)
  else if negb (for_buf_size =? 0) then
    g ← setBufSize for_buf_size g;
    n ← bufSize g;
    Ok (if n <=? old_size then None else Some g)
  else g ← increaseSize g; Ok (Some g).

(** [resize] from "Expand the space" on. *)
Definition expand (mem : Memory) (old_size : Z) g : act unit :=
  s ← get;
  old_buffer_size ← lift (getBufferSizeInBytes (grower s));
  new_size ← lift (bufSize g);
  new_buffer_size ← lift (allocCheckOverflow new_size);
  b ← lift (realloc mem (buf s) old_buffer_size new_buffer_size new_size);
  _ ← modify (with_buf b);
  _ ← modify (with_grower g);
  if empty s then mret tt
  else
    b ← lift (reinsert_all (Z.to_nat old_size) b g 0);
    b ← lift (reinsert_tail (Z.to_nat (new_size - old_size)) b g old_size);
    modify (with_buf b).

Definition resize (mem : Memory) (for_num_elems for_buf_size : Z) : act unit :=
  s ← get;
  old_size ← lift (bufSize (grower s));
  o ← lift (new_grower for_num_elems for_buf_size (grower s));
  match o with
  | None => mret tt
  | Some g => expand mem old_size g
  end.

Definition reserve (mem : Memory) (num_elements : Z) : act unit := resize mem num_elements 0.

(** [destroyElements] of trivially destructible cells. *)
Definition clearHasZero s : t C G := with_zero false (zero_value s) s.
Definition destroyElements : act unit := modify clearHasZero.

(** The cell a pointer points to. *)
Definition deref s (p : ptr) : outcome C :=
  match p with ZeroValue => Ok (zero_value s) | Slot i => cell_at (buf s) i end.

(** An assignment to the cell a pointer points to. *)
Definition update (p : ptr) (f : C -> C) : act unit :=
  s ← get;
  c ← lift (deref s p);
  match p with
  | ZeroValue => modify (with_zero (has_zero s) (f c))
  | Slot i => modify (with_buf (put (buf s) i (f c)))
  end.

(** [setHasZero]: [new (zeroValue()) Cell()] leaves the zeroed key as it is. *)
Definition setHasZero s : t C G := with_zero true (zero_value s) s.

(** None when the key is not zero. *)
Definition emplaceIfZero (x : K) (hash_value : Z) : act (option (ptr * bool)) :=
  if isZeroKey x then
    s ← get;
    if has_zero s then mret (Some (ZeroValue, false))
    else
      _ ← modify (with_size (wrap 64 (m_size s + 1)));
      _ ← modify setHasZero;
      _ ← update ZeroValue (setHash hash_value);
      mret (Some (ZeroValue, true))
  else mret None.

(** The handler of a failed [resize()]. *)
Definition undo_emplace (place_value : Z) s : t C G :=
  let s := with_size (wrap 64 (m_size s - 1)) s in
  match cell_at (buf s) place_value with
  | Ok c => with_buf (put (buf s) place_value (setZero c)) s
  | _ => s
  end.

Definition emplaceNonZeroImpl (mem : Memory) (place_value : Z) (key : K) (hash_value : Z) : act (ptr * bool) :=
  s ← get;
  c ← lift (cell_at (buf s) place_value);
  if negb (isZero c) then mret (Slot place_value, false)
  else
    _ ← modify (with_buf (put (buf s) place_value (setHash hash_value (construct key c))));
    _ ← modify (with_size (wrap 64 (m_size s + 1)));
    s ← get;
    full ← lift (overflow (grower s) (m_size s));
    if full : bool then
      _ ← on_throw (resize mem 0 0) (undo_emplace place_value);
      s ← get;
      p ← lift (place (grower s) hash_value);
      new_place ← lift (findCell (buf s) (grower s) key hash_value p);
      mret (Slot new_place, true)
    else mret (Slot place_value, true).

Definition emplaceNonZero (mem : Memory) (key : K) (hash_value : Z) : act (ptr * bool) :=
  s ← get;
  p ← lift (place (grower s) hash_value);
  place_value ← lift (findCell (buf s) (grower s) key hash_value p);
  emplaceNonZeroImpl mem place_value key hash_value.

(** [emplace(key, it, inserted, hash_value)]: [it] and [inserted]. *)
Definition emplace (mem : Memory) (key : K) (hash_value : Z) : act (ptr * bool) :=
  r ← emplaceIfZero key hash_value;
  match r with
  | Some r => mret r
  | None => emplaceNonZero mem key hash_value
  end.

Definition insert (mem : Memory) (x : K * V) : act (ptr * bool) :=
  r ← emplace mem x.1 (hash x.1);
  _ ← (if r.2 : bool then update r.1 (setMapped x.2) else mret tt);
  mret r.

(** [insert(const Cell &)]. *)
Definition insertCell (mem : Memory) (cell : C) : act (ptr * bool) :=
  r ← emplace mem (getKey cell) (getHash hash cell);
  _ ← (if r.2 : bool then update r.1 (setMapped (getMapped cell)) else mret tt);
  mret r.

Definition insertUniqueNonZero (mem : Memory) (cell : C) (hash_value : Z) : act unit :=
  s ← get;
  p ← lift (place (grower s) hash_value);
  place_value ← lift (findEmptyCell (buf s) (grower s) p);
  _ ← modify (with_buf (put (buf s) place_value cell));
  _ ← modify (with_size (wrap 64 (m_size s + 1)));
  full ← lift (overflow (grower s) (wrap 64 (m_size s + 1)));
  if full : bool then resize mem 0 0 else mret tt.

(** [find]: null is none. *)
Definition find s (x : K) (hash_value : Z) : outcome (option ptr) :=
  if isZeroKey x then Ok (if has_zero s then Some ZeroValue else None)
  else
    p ← place (grower s) hash_value;
    place_value ← findCell (buf s) (grower s) x hash_value p;
    c ← cell_at (buf s) place_value;
    Ok (if negb (isZero c) then Some (Slot place_value) else None).

Definition has s (x : K) (hash_value : Z) : outcome bool :=
  if isZeroKey x then Ok (has_zero s)
  else
    p ← place (grower s) hash_value;
    place_value ← findCell (buf s) (grower s) x hash_value p;
    c ← cell_at (buf s) place_value;
    Ok (negb (isZero c)).

Definition contains s (x : K) : outcome bool := has s x (hash x).

Definition isEmptyCell s (hash_key : Z) : outcome bool :=
  p ← place (grower s) hash_key;
  c ← cell_at (buf s) p;
  Ok (isZero c).

(** The [while (true)] of [erase]. *)
Fixpoint erase_loop (fuel : nat) b g (erased_key_position next_position : Z) : outcome (list C * Z) :=
  match fuel with
  | O => Undef
  | S fuel =>
      next_position ← next g next_position;
      c ← cell_at b next_position;
      if isZero c then Ok (b, erased_key_position)
      else
        optimal_position ← place g (getHash hash c);
        if optimal_position =? next_position then erase_loop fuel b g erased_key_position next_position
        else if (erased_key_position <? next_position) && (erased_key_position <? optimal_position)
                && (optimal_position <? next_position)
        then erase_loop fuel b g erased_key_position next_position
        else if (next_position <? erased_key_position)
                && ((erased_key_position <? optimal_position) || (optimal_position <? next_position))
        then erase_loop fuel b g erased_key_position next_position
        else erase_loop fuel (put b erased_key_position c) g next_position next_position
  end.

Definition erase (x : K) (hash_value : Z) : act bool :=
  s ← get;
  if isZeroKey x then
    if has_zero s then
      _ ← modify (with_size (wrap 64 (m_size s - 1)));
      _ ← modify clearHasZero;
      mret true
    else mret false
  else
    p ← lift (place (grower s) hash_value);
    erased ← lift (findCell (buf s) (grower s) x hash_value p);
    c ← lift (cell_at (buf s) erased);
    if isZero c then mret false
    else
      '(b, erased) ← lift (erase_loop (S (length (buf s))) (buf s) (grower s) erased erased);
      c ← lift (cell_at b erased);
      _ ← modify (with_buf (put b erased (setZero c)));
      _ ← modify (with_size (wrap 64 (m_size s - 1)));
      mret true.

(** *** Iterators *)

(** [while (ptr < buf_end && ptr->isZero()) ++ptr], at most [n] rounds. *)
Fixpoint skip_zero (n : nat) b (buf_end i : Z) : outcome Z :=
  match n with
  | O => Ok i
  | S n =>
      if i <? buf_end then c ← cell_at b i; if isZero c then skip_zero n b buf_end (i + 1) else Ok i
      else Ok i
  end.

Definition end_ s : outcome ptr :=
  match buf s with
  | [] => Ok (Slot 0)
  | _ => n ← bufSize (grower s); Ok (Slot n)
  end.

Definition begin s : outcome ptr :=
  match buf s with
  | [] => end_ s
  | _ =>
      if has_zero s then Ok ZeroValue
      else buf_end ← bufSize (grower s); i ← skip_zero (Z.to_nat buf_end) (buf s) buf_end 0; Ok (Slot i)
  end.

(** [operator++]. *)
Definition incr s (p : ptr) : outcome ptr :=
  c ← deref s p;
  let i := if isZero c then 0 else match p with ZeroValue => 0 | Slot i => i + 1 end in
  buf_end ← bufSize (grower s);
  i ← skip_zero (Z.to_nat buf_end) (buf s) buf_end i;
  Ok (Slot i).

(** [for (auto it = begin(); it != end(); ++it)]: the pointers it takes. *)
Fixpoint iterate_fuel (fuel : nat) s (last p : ptr) : outcome (list ptr) :=
  if decide (p = last) then Ok []
  else match fuel with
       | O => Undef
       | S fuel => p' ← incr s p; ps ← iterate_fuel fuel s last p'; Ok (p :: ps)
       end.

Definition iterate s : outcome (list ptr) :=
  p ← begin s;
  last ← end_ s;
  iterate_fuel (S (length (buf s))) s last p.

Definition getCollisionChainLength s (i : Z) : outcome Z :=
  c ← cell_at (buf s) i;
  p ← place (grower s) (getHash hash c);
  place (grower s) (wrap 64 (i - p)).

Definition offsetInternal s (p : ptr) : outcome Z :=
  c ← deref s p;
  Ok (if isZero c then 0 else match p with ZeroValue => 0 | Slot i => i + 1 end).

(** *** Construction, clearing and assignment *)

(** The constructors, from the members and the memory of the zero value before. *)
Definition construct_with (mem : Memory) g (m : C) : outcome unit * t C G :=
  alloc mem g (Make 0 [] g false (setZero m)).

Definition HashTable (mem : Memory) (m : C) : outcome unit * t C G := construct_with mem initial m.

Definition HashTable_reserve (mem : Memory) (reserve_for_num_elements : Z) (m : C) : outcome unit * t C G :=
  match set reserve_for_num_elements initial with
  | Ok g => construct_with mem g m
  | Throw e => (Throw e, Make 0 [] initial false (setZero m))
  | Undef => (Undef, Make 0 [] initial false (setZero m))
  end.

(** [memset] of a null pointer is not defined. *)
Definition clear : act unit :=
  _ ← destroyElements;
  _ ← modify (with_size 0);
  s ← get;
  n ← lift (bufSize (grower s));
  _ ← lift (defined (n =? Z.of_nat (length (buf s))));
  modify (with_buf (replicate (Z.to_nat n) zeroed)).

Definition clearAndShrink : act unit :=
  _ ← destroyElements;
  _ ← modify (with_size 0);
  free.

(** [operator=(HashTable && rhs)]: both tables afterwards. *)
Definition assign_move (this rhs : t C G) : t C G * t C G :=
  (Make (m_size rhs) (buf rhs) (grower rhs) (has_zero rhs) (zero_value rhs),
   Make (m_size this) [] (grower this) (has_zero rhs) (zero_value rhs)).

(** [operator=(const HashTable & rhs)] of another table. *)
Definition assign_copy (mem : Memory) (rhs : t C G) : act unit :=
  new_buffer_size ← lift (getBufferSizeInBytes (grower rhs));
  s ← get;
  old_buffer_size ← lift (getBufferSizeInBytes (grower s));
  _ ← destroyElements;
  _ ← (if negb (new_buffer_size =? old_buffer_size) then
         _ ← free;
         _ ← lift (checkSize new_buffer_size);
         _ ← lift (obtain mem new_buffer_size);
         modify (with_buf (replicate (length (buf rhs)) zeroed))
       else mret tt);
  _ ← modify (with_grower (grower rhs));
  _ ← modify (with_size (m_size rhs));
  _ ← modify (with_buf (buf rhs));
  modify (with_zero (has_zero rhs) (zero_value rhs)).

(** *** Serialization *)
Context `{!CellIO C K V}.

Definition write s : bytes :=
  writeVarUInt (m_size s)
  ++ (if has_zero s then cell_write (zero_value s) else [])
  ++ concat (map (fun c => if isZero c then [] else cell_write c) (buf s)).

Fixpoint read_cells (mem : Memory) (n : nat) (rb : bytes) : act bytes :=
  match n with
  | O => mret rb
  | S n =>
      '(x, rb) ← lift (value_read rb);
      _ ← insert mem x;
      read_cells mem n rb
  end.

Definition read (mem : Memory) (rb : bytes) : act bytes :=
  _ ← destroyElements;
  _ ← modify (with_size 0);
  '(new_size, rb) ← lift (readVarUInt rb);
  _ ← lift (require (new_size <=? 100000000000) TOO_LARGE_ARRAY_SIZE);
  _ ← free;
  s ← get;
  g ← lift (set new_size (grower s));
  _ ← alloc mem g;
  read_cells mem (Z.to_nat new_size) rb.

(** *** [Reader]: the elements of a serialized table, one by one *)
Record Reader := MakeReader {
  in_ : bytes;
  cell : option (K * V);    (* the value read last *)
  read_count : Z;
  read_size : Z;            (* the member [size] *)
  is_eof : bool;
  is_initialized : bool }.

Definition new_reader (rb : bytes) : Reader := MakeReader rb None 0 0 false false.

Definition reader_next (r : Reader) : outcome (bool * Reader) :=
  r ← (if is_initialized r then Ok r
       else '(n, rb) ← readVarUInt (in_ r); Ok (MakeReader rb (cell r) (read_count r) n (is_eof r) true));
  if read_count r =? read_size r then Ok (false, MakeReader (in_ r) (cell r) (read_count r) (read_size r) true (is_initialized r))
  else
    '(x, rb) ← value_read (in_ r);
    Ok (true, MakeReader rb (Some x) (wrap 64 (read_count r + 1)) (read_size r) (is_eof r) (is_initialized r)).

(** [get]: the value of a cell that was never read is that of [Cell{}]. *)
Definition reader_get (r : Reader) : outcome (K * V) :=
  if negb (is_initialized r) || is_eof r then Throw NO_AVAILABLE_DATA
  else Ok (match cell r with Some x => x | None => (getKey zeroed, getMapped zeroed) end).

(** [while (reader.next()) reader.get()], at most [n] rounds. *)
Fixpoint reader_all (n : nat) (r : Reader) : outcome (list (K * V)) :=
  '(more, r) ← reader_next r;
  if more : bool then
    match n with
    | O => Undef
    | S n => x ← reader_get r; l ← reader_all n r; Ok (x :: l)
    end
  else Ok [].

(** *** [HashMapTable] *)

(** [operator[]]: a new mapped value is [Mapped()]. *)
Definition index (mem : Memory) (mapped0 : V) (x : K) : act ptr :=
  r ← emplace mem x (hash x);
  _ ← (if r.2 : bool then update r.1 (setMapped mapped0) else mret tt);
  mret r.1.

Definition insertIfNotPresent (mem : Memory) (mapped0 : V) (x : K) (value : V) : act unit :=
  r ← emplace mem x (hash x);
  if r.2 : bool then
    _ ← update r.1 (setMapped mapped0);
    update r.1 (setMapped value)
  else mret tt.

(** The rounds of [mergeToViaEmplace] on [that], for the cells of this table
    that the iterator passes; [func(dst, src, emplaced)] is the new [dst]. *)
Fixpoint mergeToViaEmplace_loop (mem : Memory) (func : V -> V -> bool -> V) (cells : list C) : act unit :=
  match cells with
  | [] => mret tt
  | c :: cells =>
      r ← emplace mem (getKey c) (getHash hash c);
      s ← get;
      dst ← lift (deref s r.1);
      _ ← update r.1 (setMapped (func (getMapped dst) (getMapped c) r.2));
      mergeToViaEmplace_loop mem func cells
  end.

(** The cells at some pointers, and those an iteration passes. *)
Fixpoint deref_all s (ps : list ptr) : outcome (list C) :=
  match ps with
  | [] => Ok []
  | p :: ps => c ← deref s p; cs ← deref_all s ps; Ok (c :: cs)
  end.

Definition iterated s : outcome (list C) := ps ← iterate s; deref_all s ps.

Definition mergeToViaEmplace (mem : Memory) (func : V -> V -> bool -> V) (this : t C G) : act unit :=
  cells ← lift (iterated this);
  mergeToViaEmplace_loop mem func cells.

(** [forEachValue], [forEachMapped]: a fold of [func]'s own state. *)
Definition forEachValue {A} (func : A -> K -> V -> A) (a : A) s : outcome A :=
  cells ← iterated s;
  Ok (foldl (fun a c => func a (getKey c) (getMapped c)) a cells).
End Operations.
End HashTable.
