(* ===== verification/HashTableFacts.v ===== *)
(** * Facts about open addressing

    The cyclic collision resolution chain and the walks along it, the elements
    of a buffer, and what keeps every element reachable from its home: the
    invariant [probing] and its preservation by storing, erasing and resizing. *)

From stdpp Require Import prelude gmap.
From Stdlib Require Import ZArith Lia.
From S2P Require Import Prelude HashGrowers HashTable.
Import HashTable (cell_at, put, findCell, findCell_fuel, findEmptyCell, findEmptyCell_fuel, reinsert, reinsert_all,
  reinsert_tail, erase_loop).

#[global] Arguments HashTable.findCell : simpl never.
#[global] Arguments HashTable.findEmptyCell : simpl never.
#[global] Arguments HashTable.cell_at : simpl never.
#[global] Arguments HashTable.put : simpl never.
#[global] Arguments HashTable.allocCheckOverflow : simpl never.
#[global] Arguments HashTable.realloc : simpl never.
#[global] Arguments HashTable.new_grower : simpl never.
#[global] Arguments HashTable.expand : simpl never.
#[global] Arguments HashTable.resize : simpl never.
#[global] Arguments HashTable.emplaceIfZero : simpl never.
#[global] Arguments HashTable.emplaceNonZeroImpl : simpl never.
#[global] Arguments HashTable.emplaceNonZero : simpl never.
#[global] Arguments HashTable.emplace : simpl never.
#[global] Arguments HashTable.insert : simpl never.
#[global] Arguments HashTable.update : simpl never.
#[global] Arguments HashTable.alloc : simpl never.

(** ** The ring of positions *)

(** [q] lies on the chain that starts at [s], before it comes to [p]. *)
Definition before (N s p q : Z) : Prop := (s <= p /\ s <= q < p) \/ (p < s /\ (s <= q < N \/ 0 <= q < p)).

#[export] Instance before_dec N s p q : Decision (before N s p q).
Proof. unfold before. apply _. Defined.

Definition distance (N s p : Z) : Z := if s <=? p then p - s else p + N - s.

Lemma ring_succ N p : 0 <= p < N -> (p + 1) mod N = if p + 1 =? N then 0 else p + 1.
Proof.
  intros. destruct (Z.eqb_spec (p + 1) N) as [->|]; [apply Z_mod_same_full|]. apply Z.mod_small. lia.
Qed.

Lemma before_succ N s p q : 0 <= s < N -> 0 <= p < N -> p <> s ->
  before N s p q <-> q = s \/ before N ((s + 1) mod N) p q.
Proof. intros Hs Hp Hne. rewrite ring_succ by done. unfold before. destruct (Z.eqb_spec (s + 1) N); lia. Qed.

Lemma distance_succ N s p : 0 <= s < N -> 0 <= p < N -> p <> s -> distance N ((s + 1) mod N) p = distance N s p - 1.
Proof.
  intros Hs Hp Hne. rewrite ring_succ by done. unfold distance.
  destruct (Z.eqb_spec (s + 1) N), (Z.leb_spec s p); case_match; lia.
Qed.

Lemma distance_bounds N s p : 0 <= s < N -> 0 <= p < N -> 0 <= distance N s p < N.
Proof. unfold distance. case_match; lia. Qed.

Lemma before_total N s p q : 0 <= s < N -> 0 <= p < N -> 0 <= q < N -> before N s p q \/ p = q \/ before N s q p.
Proof. unfold before. lia. Qed.

(** ** Cells of a buffer *)
Section Cells.
Context {C K V : Type} `{!Cell C K V, !CellLaws C K V}.
Implicit Types (b : list C) (c : C).

Definition occupied b (p : Z) : Prop := exists c, cell_at b p = Ok c /\ isZero c = false.
Definition vacant b (p : Z) : Prop := exists c, cell_at b p = Ok c /\ isZero c = true.

(** The elements of a buffer, in its order. *)
Definition elements b : list C := filter (fun c => isZero c = false) b.

Lemma cell_at_lookup b p c : cell_at b p = Ok c <-> 0 <= p /\ b !! Z.to_nat p = Some c.
Proof. unfold cell_at. destruct (Z.leb_spec 0 p), (b !! Z.to_nat p); split; intros; destruct_and?; simplify_eq; try done; lia. Qed.

Lemma cell_at_range b p c : cell_at b p = Ok c -> 0 <= p < Z.of_nat (length b).
Proof. intros [? ?%lookup_lt_Some]%cell_at_lookup. lia. Qed.

Lemma cell_at_inside b p : 0 <= p < Z.of_nat (length b) -> exists c, cell_at b p = Ok c.
Proof.
  intros. destruct (lookup_lt_is_Some_2 b (Z.to_nat p)) as [c ?]; [lia|]. exists c. apply cell_at_lookup. auto with lia.
Qed.

Lemma occupied_or_vacant b p : 0 <= p < Z.of_nat (length b) -> occupied b p \/ vacant b p.
Proof.
  intros [c Hc]%cell_at_inside. destruct (isZero c) eqn:?; [right|left]; by exists c.
Qed.

Lemma occupied_not_vacant b p : occupied b p -> vacant b p -> False.
Proof. intros (c & ? & ?) (d & ? & ?). congruence. Qed.

Lemma length_put b p c : length (put b p c) = length b.
Proof. apply length_insert. Qed.

Lemma cell_at_put b p q c : 0 <= p < Z.of_nat (length b) -> cell_at (put b p c) q = if p =? q then Ok c else cell_at b q.
Proof.
  intros Hp. unfold put, cell_at. destruct (Z.eqb_spec p q) as [<-|Hne], (Z.leb_spec 0 p); try lia.
  - by rewrite list_lookup_insert_eq by lia.
  - destruct (Z.leb_spec 0 q); [|done]. by rewrite list_lookup_insert_ne by lia.
Qed.

Lemma occupied_put b p q c : 0 <= p < Z.of_nat (length b) ->
  occupied (put b p c) q <-> (if p =? q then isZero c = false else occupied b q).
Proof.
  intros. unfold occupied. rewrite cell_at_put by done. destruct (p =? q); [|done]. split; [intros (? & ? & ?); congruence|eauto].
Qed.

Lemma vacant_put b p q c : 0 <= p < Z.of_nat (length b) ->
  vacant (put b p c) q <-> (if p =? q then isZero c = true else vacant b q).
Proof. intros. unfold vacant. rewrite cell_at_put by done. destruct (p =? q); [|done]. split; [intros (? & ? & ?); congruence|eauto]. Qed.

Lemma elem_of_elements b c : c ∈ elements b <-> isZero c = false /\ exists p, cell_at b p = Ok c.
Proof.
  unfold elements. rewrite list_elem_of_filter, list_elem_of_lookup. split.
  - intros [? [i Hi]]. split; [done|]. exists (Z.of_nat i). apply cell_at_lookup. rewrite Nat2Z.id. auto with lia.
  - intros [? [p [_ Hp]%cell_at_lookup]]. eauto.
Qed.

Lemma split_at b p c : cell_at b p = Ok c ->
  exists l k, b = l ++ c :: k /\ forall d, put b p d = l ++ d :: k.
Proof.
  intros [? H]%cell_at_lookup. exists (take (Z.to_nat p) b), (drop (S (Z.to_nat p)) b). split.
  - by rewrite take_drop_middle.
  - intros d. unfold put. apply insert_take_drop. by eapply lookup_lt_Some.
Qed.

Lemma elements_app l k : elements (l ++ k) = elements l ++ elements k.
Proof. apply filter_app. Qed.

Lemma elements_occupied c l : isZero c = false -> elements (c :: l) = c :: elements l.
Proof. intros. unfold elements. by rewrite filter_cons_True. Qed.

Lemma elements_vacant c l : isZero c = true -> elements (c :: l) = elements l.
Proof. intros. unfold elements. rewrite filter_cons_False; [done|]. congruence. Qed.

Lemma elements_store b p c d : cell_at b p = Ok d -> isZero d = true -> isZero c = false ->
  elements (put b p c) ≡ₚ c :: elements b.
Proof.
  intros (l & k & -> & ->)%split_at Hd Hc. rewrite !elements_app, elements_occupied, (elements_vacant d) by done.
  by rewrite <- Permutation_middle.
Qed.

Lemma elements_remove b p c d : cell_at b p = Ok c -> isZero c = false -> isZero d = true ->
  elements b ≡ₚ c :: elements (put b p d).
Proof.
  intros (l & k & -> & ->)%split_at Hc Hd. rewrite !elements_app, elements_occupied, (elements_vacant d) by done.
  by rewrite <- Permutation_middle.
Qed.

Lemma elements_replace b p c d : cell_at b p = Ok c -> isZero c = false -> isZero d = false ->
  exists r, elements b ≡ₚ c :: r /\ elements (put b p d) ≡ₚ d :: r.
Proof.
  intros (l & k & -> & ->)%split_at Hc Hd. exists (elements l ++ elements k).
  rewrite !elements_app, !elements_occupied by done. split; by rewrite <- Permutation_middle.
Qed.

Lemma elements_blank b p c d : cell_at b p = Ok c -> isZero c = true -> isZero d = true -> elements (put b p d) = elements b.
Proof. intros (l & k & -> & ->)%split_at Hc Hd. by rewrite !elements_app, !elements_vacant by done. Qed.

Lemma elements_replicate n : elements (replicate n zeroed) = [].
Proof.
  induction n as [|n IH]; [done|]. cbn [replicate]. rewrite elements_vacant; [done|].
  apply isZeroKey_spec, getKey_zeroed.
Qed.

Lemma elements_all l : Forall (fun c => isZero c = false) l -> elements l = l.
Proof. induction 1; [done|]. rewrite elements_occupied by done. by f_equal. Qed.

(** The elements of a stretch of the buffer that is full. *)
Lemma elements_full b i : 0 <= i <= Z.of_nat (length b) -> (forall q, i <= q < Z.of_nat (length b) -> occupied b q) ->
  Z.of_nat (length (elements b)) = Z.of_nat (length (elements (take (Z.to_nat i) b))) + (Z.of_nat (length b) - i).
Proof.
  intros Hi Hq. rewrite <- (take_drop (Z.to_nat i) b) at 1. rewrite elements_app, length_app.
  enough (elements (drop (Z.to_nat i) b) = drop (Z.to_nat i) b) as ->; [rewrite length_drop; lia|].
  apply elements_all, Forall_lookup. intros j c Hj. rewrite lookup_drop in Hj.
  destruct (Hq (i + Z.of_nat j)) as (d & [_ Hd]%cell_at_lookup & ?); [apply lookup_lt_Some in Hj; lia|].
  rewrite Z2Nat.inj_add, Nat2Z.id in Hd by lia. by simplify_eq.
Qed.

Lemma elements_take_store b p c d i : cell_at b p = Ok d -> isZero d = true -> isZero c = false -> p < i ->
  length (elements (take (Z.to_nat i) (put b p c))) = S (length (elements (take (Z.to_nat i) b))).
Proof.
  intros Hp Hd Hc Hi. pose proof (cell_at_range _ _ _ Hp). unfold put. rewrite take_insert_lt by lia. fold (put (take (Z.to_nat i) b) p c).
  rewrite (elements_store _ p c d); [done| |done..]. apply cell_at_lookup in Hp as [? Hp]. apply cell_at_lookup.
  rewrite lookup_take_lt by lia. done.
Qed.

Lemma elements_take_remove b p c i : i <= p -> elements (take (Z.to_nat i) (put b p c)) = elements (take (Z.to_nat i) b).
Proof. intros. unfold put. by rewrite take_insert_ge by lia. Qed.
End Cells.

#[global] Arguments elements : simpl never.

(** ** Walks along the chain *)
Section Probing.
Context {C K V G : Type} `{!Cell C K V, !CellLaws C K V, !Grower G, !GrowerLaws G, !Hash K}.
Implicit Types (b : list C) (c d : C) (g : G).

(** The common form of [findCell] and [findEmptyCell]. *)
Fixpoint walk (stop : C -> bool) (fuel : nat) b g (p : Z) : outcome Z :=
  match fuel with
  | O => Undef
  | S fuel => c ← cell_at b p; if stop c then Ok p else p ← next g p; walk stop fuel b g p
  end.

Lemma findCell_walk b g x h p fuel :
  findCell_fuel fuel b g x h p = walk (fun c => isZero c || keyEquals c x h) fuel b g p.
Proof.
  revert p. induction fuel as [|fuel IH]; intros p; [done|]. cbn. destruct (cell_at b p) as [c| |]; [|done..]. cbn.
  destruct (isZero c); cbn; [done|]. destruct (keyEquals c x h); cbn; [done|]. by destruct (next g p); cbn.
Qed.

Lemma findEmptyCell_walk b g p fuel : findEmptyCell_fuel fuel b g p = walk isZero fuel b g p.
Proof.
  revert p. induction fuel as [|fuel IH]; intros p; [done|]. cbn. destruct (cell_at b p) as [c| |]; [|done..]. cbn.
  destruct (isZero c); cbn; [done|]. by destruct (next g p); cbn.
Qed.

(** A buffer of the grower's size. *)
Record sized g b : Prop := {
  sized_valid : valid g;
  sized_length : Z.of_nat (length b) = 2 ^ degree g }.

Lemma sized_put g b p c : sized g b -> sized g (put b p c).
Proof. intros []. split; [done|]. by rewrite length_put. Qed.

(** A walk ends at the first cell that stops it. *)
Lemma walk_spec stop b g fuel s z cz : sized g b -> 0 <= s < 2 ^ degree g -> cell_at b z = Ok cz -> stop cz = true ->
  distance (2 ^ degree g) s z < Z.of_nat fuel ->
  exists p c, walk stop fuel b g s = Ok p /\ cell_at b p = Ok c /\ stop c = true
    /\ forall q d, before (2 ^ degree g) s p q -> cell_at b q = Ok d -> stop d = false.
Proof.
  intros [Hg Hb] Hs Hz Hstop. pose proof (cell_at_range _ _ _ Hz) as Rz. rewrite Hb in Rz.
  revert s Hs. induction fuel as [|fuel IH]; intros s Hs Hd; [pose proof (distance_bounds _ _ _ Hs Rz); lia|]. cbn.
  destruct (cell_at_inside b s) as [c Hc]; [lia|]. rewrite Hc. cbn. destruct (stop c) eqn:Es.
  { exists s, c. repeat split; try done. unfold before. lia. }
  assert (z <> s) by congruence. rewrite next_spec by done. cbn.
  destruct (IH ((s + 1) mod 2 ^ degree g)) as (p & cp & Hw & Hp & Sp & Hbef).
  { apply Z.mod_pos_bound. lia. }
  { rewrite distance_succ by done. lia. }
  exists p, cp. repeat split; try done. intros q d Hq Hqd.
  pose proof (cell_at_range _ _ _ Hp). rewrite before_succ in Hq by (try lia; congruence). destruct Hq as [->|Hq]; [|eauto].
  congruence.
Qed.

(** ** The invariant of a buffer *)
Definition home g (k : K) : Z := hash k mod 2 ^ degree g.

Lemma home_bounds g k : valid g -> 0 <= home g k < 2 ^ degree g.
Proof. intros H%valid_degree. apply Z.mod_pos_bound. lia. Qed.

Lemma place_home g k : valid g -> place g (hash k) = Ok (home g k).
Proof. apply place_spec. Qed.

Definition distinct b : Prop :=
  forall p q c d, cell_at b p = Ok c -> cell_at b q = Ok d -> isZero c = false -> getKey c = getKey d -> p = q.

Definition remembering b : Prop := forall p c, cell_at b p = Ok c -> isZero c = false -> remembers hash c.

(** Every position from the home of the key to [p] is occupied. *)
Definition reached g b (k : K) (p : Z) : Prop := forall q, before (2 ^ degree g) (home g k) p q -> occupied b q.

Record probing g b : Prop := {
  probing_sized : sized g b;
  probing_distinct : distinct b;
  probing_remembering : remembering b;
  probing_reached p c : cell_at b p = Ok c -> isZero c = false -> reached g b (getKey c) p;
  probing_room : exists z, vacant b z }.

Lemma isZero_spec c : isZero c = true <-> getKey c = zero_key.
Proof. apply isZeroKey_spec. Qed.

Lemma isZero_false c : isZero c = false <-> getKey c <> zero_key.
Proof. rewrite <- isZero_spec. by destruct (isZero c). Qed.

Lemma isZeroKey_false k : isZeroKey k = false <-> k <> zero_key.
Proof. rewrite <- isZeroKey_spec. by destruct (isZeroKey k). Qed.

(** [findCell] from the home of a key, whatever the reachability of the others:
    a cell with the key, or a vacant one before which the key does not lie. *)
Lemma findCell_first g b x z : sized g b -> remembering b -> x <> zero_key ->
  (vacant b z \/ exists c, cell_at b z = Ok c /\ getKey c = x) ->
  exists p c, findCell b g x (hash x) (home g x) = Ok p /\ cell_at b p = Ok c
    /\ (isZero c = true \/ getKey c = x) /\ reached g b x p
    /\ forall q d, before (2 ^ degree g) (home g x) p q -> cell_at b q = Ok d -> getKey d <> x.
Proof.
  intros Hb Hr Hx Hz. pose proof (sized_valid _ _ Hb) as Hg. pose proof (home_bounds g x Hg) as Hh.
  assert (exists cz, cell_at b z = Ok cz /\ (isZero cz || keyEquals cz x (hash x)) = true) as (cz & Cz & Sz).
  { destruct Hz as [(c & ? & E)|(c & ? & E)]; exists c; (split; [done|]); apply orb_true_iff; [by left|right].
    apply keyEquals_spec; [|done]. eapply Hr; [done|]. apply isZero_false. congruence. }
  destruct (walk_spec (fun c => isZero c || keyEquals c x (hash x)) b g (S (length b)) (home g x) z cz) as (p & c & Hw & Hp & Sp & Hbef); try done.
  { pose proof (cell_at_range _ _ _ Cz). destruct Hb as [_ L]. pose proof (distance_bounds (2 ^ degree g) (home g x) z). lia. }
  exists p, c. unfold findCell. rewrite findCell_walk. split; [done|]. split; [done|]. split; [|split].
  - destruct (isZero c) eqn:Ec; [by left|right]. cbn in Sp. eapply keyEquals_spec; [|done]. by eapply Hr.
  - intros q Hq. destruct (cell_at_inside b q) as [d Hd].
    { pose proof (cell_at_range _ _ _ Hp). destruct Hb as [_ L]. unfold before in Hq. lia. }
    exists d. split; [done|]. pose proof (Hbef q d Hq Hd) as E. cbn in E. by destruct (isZero d).
  - intros q d Hq Hd Hk. pose proof (Hbef q d Hq Hd) as E. cbn in E. apply orb_false_iff in E as [E1 E2].
    enough (keyEquals d x (hash x) = true) by congruence. apply keyEquals_spec; [|done]. by eapply Hr.
Qed.

(** [findCell] in a table: the cell with the key if there is one, or the vacant
    cell where it goes. *)
Lemma findCell_probing g b x : probing g b -> x <> zero_key ->
  exists p c, findCell b g x (hash x) (home g x) = Ok p /\ cell_at b p = Ok c /\ reached g b x p
    /\ if isZero c then forall q d, cell_at b q = Ok d -> getKey d <> x else getKey c = x.
Proof.
  intros [Hb Hd Hr Hp [z Hz]] Hx. destruct (findCell_first g b x z) as (p & c & Hf & Hc & Hor & Hre & Hbef); [by auto..|].
  exists p, c. repeat (split; [done|]). destruct (isZero c) eqn:Ec; [|by destruct Hor].
  intros q d Hq Hk. assert (isZero d = false) as Ed by (apply isZero_false; congruence).
  pose proof (cell_at_range _ _ _ Hc). pose proof (cell_at_range _ _ _ Hq). destruct Hb as [Hg L].
  destruct (before_total (2 ^ degree g) (home g x) p q) as [B|[->|B]]; try lia.
  - by apply home_bounds.
  - by eapply Hbef.
  - congruence.
  - rewrite <- Hk in B. destruct (Hp q d Hq Ed p B) as (c' & ? & ?). congruence.
Qed.

Lemma findEmptyCell_probing g b k : probing g b ->
  exists p c, findEmptyCell b g (home g k) = Ok p /\ cell_at b p = Ok c /\ isZero c = true /\ reached g b k p.
Proof.
  intros [Hb Hd Hr Hp (z & cz & Hz & Ez)]. pose proof (home_bounds g k (sized_valid _ _ Hb)) as Hh.
  destruct (walk_spec isZero b g (S (length b)) (home g k) z cz) as (p & c & Hw & Hc & Sp & Hbef); try done.
  { pose proof (cell_at_range _ _ _ Hz). destruct Hb as [_ L]. pose proof (distance_bounds (2 ^ degree g) (home g k) z). lia. }
  exists p, c. unfold findEmptyCell. rewrite findEmptyCell_walk. repeat (split; [done|]). intros q Hq.
  destruct (cell_at_inside b q) as [d Hqd].
  { pose proof (cell_at_range _ _ _ Hc). destruct Hb as [_ L]. unfold before in Hq. lia. }
  exists d. eauto.
Qed.

(** ** Storing an element *)
Lemma occupied_store b p q c : cell_at b p <> Undef -> isZero c = false -> occupied b q -> occupied (put b p c) q.
Proof.
  intros Hp Hc Hq. destruct (cell_at b p) as [d| |] eqn:E; [|by unfold cell_at in E; repeat case_match|done].
  apply occupied_put; [by eapply cell_at_range|]. by case_match.
Qed.

Lemma probing_store g b p c : probing g b -> vacant b p -> isZero c = false -> remembers hash c -> reached g b (getKey c) p ->
  (forall q d, cell_at b q = Ok d -> getKey d <> getKey c) -> (exists z, z <> p /\ vacant b z) -> probing g (put b p c).
Proof.
  intros [Hb Hd Hr Hp _] (d0 & H0 & E0) Hc Hrem Hre Hnew (z & Hz & Hvz). pose proof (cell_at_range _ _ _ H0) as R0.
  assert (Hocc : forall q, occupied b q -> occupied (put b p c) q) by (intros; apply occupied_store; congruence).
  split; [by apply sized_put| | | |].
  - intros q r x y. rewrite !cell_at_put by done. destruct (Z.eqb_spec p q), (Z.eqb_spec p r); intros Hx Hy Ex Ey; simplify_eq; try done.
    + exfalso. by eapply Hnew.
    + exfalso. eapply Hnew; [exact Hx|done].
    + by eapply Hd.
  - intros q x. rewrite cell_at_put by done. case_match; [|apply Hr]. by intros [= ->].
  - intros q x. rewrite cell_at_put by done. destruct (Z.eqb_spec p q) as [->|].
    + intros [= <-] _ r Hr'. by apply Hocc, Hre.
    + intros Hx Ex r Hr'. eapply Hocc, Hp; eauto.
  - exists z. apply vacant_put; [done|]. destruct (Z.eqb_spec p z); [congruence|done].
Qed.

(** A vacant cell that changes and stays vacant. *)
Lemma probing_blank g b p c d : probing g b -> cell_at b p = Ok c -> isZero c = true -> isZero d = true -> probing g (put b p d).
Proof.
  intros [Hb Hd Hr Hp (z & cz & Hz & Ez)] Hc Ec Ed. pose proof (cell_at_range _ _ _ Hc) as R0.
  assert (Hold : forall q x, cell_at (put b p d) q = Ok x -> isZero x = false -> cell_at b q = Ok x).
  { intros q x. rewrite cell_at_put by done. destruct (p =? q); [intros; congruence|done]. }
  assert (Hocc : forall q, occupied b q -> occupied (put b p d) q).
  { intros q Hq. apply occupied_put; [done|]. destruct (Z.eqb_spec p q) as [<-|]; [|done]. destruct Hq as (? & ? & ?). congruence. }
  split; [by apply sized_put| | | |].
  - intros q r x y Hx Hy Ex Ey. apply (Hd q r x y); auto. apply Hold; [done|]. apply isZero_false. rewrite <- Ey. by apply isZero_false.
  - intros q x Hx Ex. apply (Hr q x); auto.
  - intros q x Hx Ex r Hr'. apply Hocc. apply (Hp q x); auto.
  - exists p, d. by rewrite cell_at_put, Z.eqb_refl by done.
Qed.

(** A cell that changes and keeps its key. *)
Lemma probing_same_key g b p c d : probing g b -> cell_at b p = Ok c -> isZero c = false -> getKey d = getKey c -> remembers hash d ->
  probing g (put b p d).
Proof.
  intros [Hb Hd Hr Hp (z & cz & Hz & Ez)] Hc Ec Hk Hrem. pose proof (cell_at_range _ _ _ Hc) as R0.
  assert (isZero d = false) by (apply isZero_false; rewrite Hk; by apply isZero_false).
  assert (Hocc : forall q, occupied b q -> occupied (put b p d) q) by (intros; apply occupied_store; congruence).
  split; [by apply sized_put| | | |].
  - intros q r x y. rewrite !cell_at_put by done. destruct (Z.eqb_spec p q), (Z.eqb_spec p r); intros Hx Hy Ex Ey; simplify_eq; try done.
    + eapply Hd; [exact Hc|done..|congruence].
    + eapply Hd; [exact Hx|exact Hc|done|congruence].
    + by eapply Hd.
  - intros q x. rewrite cell_at_put by done. case_match; [|apply Hr]. by intros [= ->].
  - intros q x. rewrite cell_at_put by done. destruct (Z.eqb_spec p q) as [->|].
    + intros [= <-] _ r Hr'. rewrite Hk in Hr'. by eapply Hocc, Hp.
    + intros Hx Ex r Hr'. eapply Hocc, Hp; eauto.
  - exists z. apply vacant_put; [done|]. destruct (Z.eqb_spec p z); [congruence|by exists cz].
Qed.

(** ** Erasing an element

    While the loop runs, the cell at [e] is a hole that still holds an old copy;
    [holed] is the invariant of the other cells. *)
Record holed g b (e : Z) : Prop := {
  holed_sized : sized g b;
  holed_occupied : occupied b e;
  holed_distinct p q c d : p <> e -> q <> e -> cell_at b p = Ok c -> cell_at b q = Ok d -> isZero c = false ->
    getKey c = getKey d -> p = q;
  holed_remembering : remembering b;
  holed_reached p c : p <> e -> cell_at b p = Ok c -> isZero c = false -> reached g b (getKey c) p }.

(** The elements of [(e, i]] do not need the hole. *)
Definition scanned g b (e i : Z) : Prop :=
  forall p c, p <> e -> p = i \/ before (2 ^ degree g) e i p -> cell_at b p = Ok c -> isZero c = false ->
    ~ before (2 ^ degree g) (home g (getKey c)) p e.

Lemma put_put b p c d : put (put b p c) p d = put b p d.
Proof. apply list_insert_insert_eq. Qed.

Lemma put_comm b p q c d : 0 <= p -> 0 <= q -> p <> q -> put (put b p c) q d = put (put b q d) p c.
Proof. intros. apply list_insert_insert_ne. lia. Qed.

(** The conditions under which [erase] leaves an element where it is say that
    its home is not at or before the hole. *)
Lemma erase_keeps N e n o : 0 <= e < N -> 0 <= n < N -> 0 <= o < N -> e <> n ->
  (o = n \/ (e < n /\ e < o /\ o < n) \/ (n < e /\ (e < o \/ o < n))) <-> ~ before N o n e.
Proof. unfold before. lia. Qed.

Lemma holed_move g b e n c : holed g b e -> e <> n -> cell_at b n = Ok c -> isZero c = false ->
  before (2 ^ degree g) (home g (getKey c)) n e -> holed g (put b e c) n.
Proof.
  intros [Hb (ce & He & Ee) Hd Hr Hp] Hne Hc Ec Hbef. pose proof (cell_at_range _ _ _ He) as Re.
  assert (Hocc : forall q, occupied b q -> occupied (put b e c) q) by (intros; apply occupied_store; congruence).
  split; [by apply sized_put| | | |].
  - apply Hocc. by exists c.
  - intros p q x y Hpn Hqn. rewrite !cell_at_put by done. destruct (Z.eqb_spec e p), (Z.eqb_spec e q); intros Hx Hy Ex Ey; simplify_eq; try done.
    + exfalso. apply Hqn. symmetry. eapply (Hd n q); [auto|auto|exact Hc|done..].
    + exfalso. apply Hpn. eapply (Hd p n); [auto|auto|exact Hx|exact Hc|done..].
    + eapply (Hd p q); eauto.
  - intros q x. rewrite cell_at_put by done. case_match; [|apply Hr]. intros [= <-]. by eapply Hr.
  - intros p x Hpn. rewrite cell_at_put by done. destruct (Z.eqb_spec e p) as [<-|].
    + intros [= <-] _ q Hq. eapply Hocc, (Hp n); [done..|]. unfold before in *. lia.
    + intros Hx Ex q Hq. eapply Hocc, Hp; eauto.
Qed.

Lemma elements_move b e n c ce z : e <> n -> cell_at b e = Ok ce -> cell_at b n = Ok c -> isZero c = false -> isZero z = true ->
  elements (put (put b e c) n z) ≡ₚ elements (put b e z).
Proof.
  intros Hne He Hc Ec Ez. pose proof (cell_at_range _ _ _ He). pose proof (cell_at_range _ _ _ Hc).
  rewrite (elements_remove (put b e z) n c z); [|rewrite cell_at_put; [by destruct (Z.eqb_spec e n)|done]|done..].
  rewrite (put_comm b e n z z), (put_comm b e n c z), <- (put_put (put b n z) e z c) by lia.
  apply (elements_store _ e c z); [|done..]. by rewrite cell_at_put, Z.eqb_refl by (by rewrite length_put).
Qed.

(** Closing the hole: no element needs it when the walk has come to a vacant
    cell. *)
Lemma holed_close g b e i z ce : holed g b e -> scanned g b e i -> 0 <= i < 2 ^ degree g ->
  vacant b ((i + 1) mod 2 ^ degree g) -> e <> (i + 1) mod 2 ^ degree g -> i = e \/ before (2 ^ degree g) e ((i + 1) mod 2 ^ degree g) i ->
  cell_at b e = Ok ce -> isZero z = true -> probing g (put b e z).
Proof.
  intros [Hb _ Hd Hr Hp] Hs Hi Hv Hne Hei He Ez. pose proof (cell_at_range _ _ _ He) as Re. destruct (Hb) as [Hg L].
  split; [by apply sized_put| | | |].
  - intros p q x y. rewrite !cell_at_put by done. destruct (Z.eqb_spec e p), (Z.eqb_spec e q); intros Hx Hy Ex Ey; simplify_eq; try congruence.
    + exfalso. apply isZero_false in Ex. apply Ex. by apply isZero_spec in Ez as <-.
    + eapply (Hd p q); eauto.
  - intros q x. rewrite cell_at_put by done. case_match; [|apply Hr]. intros [= <-]. congruence.
  - intros p x. rewrite cell_at_put by done. destruct (Z.eqb_spec e p) as [<-|Hpe]; [intros; congruence|]. intros Hx Ex q Hq.
    apply occupied_put; [done|]. destruct (Z.eqb_spec e q) as [<-|]; [|eapply (Hp p); eauto]. exfalso.
    pose proof (cell_at_range _ _ _ Hx). pose proof (home_bounds g (getKey x) Hg).
    assert (p <> (i + 1) mod 2 ^ degree g) by (intros ->; destruct Hv as (? & ? & ?); congruence).
    rewrite ring_succ in * by done.
    destruct (decide (p = i \/ before (2 ^ degree g) e i p)) as [Hin|Hout]; [by eapply Hs|].
    eapply occupied_not_vacant; [|exact Hv]. eapply (Hp p); [done..|]. unfold before in *. destruct (Z.eqb_spec (i + 1) (2 ^ degree g)); lia.
  - exists e, z. rewrite cell_at_put, Z.eqb_refl by done. done.
Qed.

Lemma before_start N e z : 0 <= e < N -> 0 <= z < N -> e <> z -> before N e z e.
Proof. unfold before. lia. Qed.

Lemma before_next N e z i : 0 <= e < N -> 0 <= z < N -> 0 <= i < N -> before N e z i -> (i + 1) mod N <> z ->
  before N e z ((i + 1) mod N) /\ e <> (i + 1) mod N /\ (forall p, p = (i + 1) mod N \/ before N e ((i + 1) mod N) p ->
    p = e \/ p = (i + 1) mod N \/ p = i \/ before N e i p).
Proof. intros He Hz Hi. rewrite ring_succ by done. unfold before. destruct (Z.eqb_spec (i + 1) N); intros; repeat split; lia. Qed.

Lemma erase_loop_spec g fuel b e i z : holed g b e -> scanned g b e i -> vacant b z -> 0 <= i < 2 ^ degree g ->
  before (2 ^ degree g) e z i -> distance (2 ^ degree g) i z <= Z.of_nat fuel ->
  exists b' e' ce, erase_loop fuel b g e i = Ok (b', e') /\ cell_at b' e' = Ok ce
    /\ forall y, isZero y = true -> probing g (put b' e' y) /\ elements (put b' e' y) ≡ₚ elements (put b e y).
Proof.
  revert b e i. induction fuel as [|fuel IH]; intros b e i Hh Hs Hz Hi Hbef Hd.
  all: destruct (Hh) as [Hb (ce & He & Ee) _ Hr _]; destruct (Hb) as [Hg L].
  all: pose proof (cell_at_range _ _ _ He) as Re; assert (0 <= z < 2 ^ degree g) as Rz by (destruct Hz as (? & Hz & _); apply cell_at_range in Hz; lia).
  all: assert (i <> z) as Hiz by (unfold before in Hbef; lia).
  { pose proof (distance_bounds _ _ _ Hi Rz). unfold distance in *. case_match; lia. }
  cbn. rewrite next_spec by done. cbn. set (n := (i + 1) mod 2 ^ degree g) in *.
  assert (0 <= n < 2 ^ degree g) as Rn by (apply Z.mod_pos_bound; lia).
  destruct (cell_at_inside b n) as [c Hc]; [lia|]. rewrite Hc. cbn. destruct (isZero c) eqn:Ec.
  { exists b, e, ce. repeat (split; [done|]). intros y Hy. split; [|done].
    assert (e <> n) by congruence. eapply (holed_close g b e i); eauto; [by exists c|].
    fold n. unfold before in *. subst n. rewrite ring_succ in * by done. destruct (Z.eqb_spec (i + 1) (2 ^ degree g)); lia. }
  assert (n <> z) as Hnz by (intros ->; destruct Hz as (? & ? & ?); congruence).
  rewrite L in Re.
  destruct (before_next (2 ^ degree g) e z i Re Rz Hi Hbef Hnz) as (Hbn & Hen & Hscan). fold n in Hbn, Hen, Hscan.
  assert (distance (2 ^ degree g) n z <= Z.of_nat fuel) by (subst n; rewrite distance_succ by done; lia).
  rewrite (getHash_spec hash c) by (by eapply Hr). rewrite place_home by done. cbn.
  pose proof (home_bounds g (getKey c) Hg) as Ho. set (o := home g (getKey c)) in *.
  pose proof (erase_keeps (2 ^ degree g) e n o Re Rn Ho Hen) as Hkeep.
  assert (Hstay : ~ before (2 ^ degree g) o n e -> exists b' e' ce, erase_loop fuel b g e n = Ok (b', e') /\ cell_at b' e' = Ok ce
    /\ forall y, isZero y = true -> probing g (put b' e' y) /\ elements (put b' e' y) ≡ₚ elements (put b e y)).
  { intros Hno. apply IH; try done. intros p x Hpe Hin Hx Ex. destruct (Hscan p Hin) as [->|[->|Hold]]; [done| |by apply Hs].
    rewrite Hc in Hx. by injection Hx as <-. }
  destruct (Z.eqb_spec o n); [apply Hstay, Hkeep; by left|].
  destruct ((e <? n) && (e <? o) && (o <? n)) eqn:E1; [apply Hstay, Hkeep; lia|].
  destruct ((n <? e) && ((e <? o) || (o <? n))) eqn:E2; [apply Hstay, Hkeep; lia|].
  assert (before (2 ^ degree g) o n e) as Hmove by (apply dec_stable; rewrite <- Hkeep; lia).
  destruct (IH (put b e c) n n) as (b' & e' & ce' & Hl & Hce' & Hfin); try done.
  { by apply holed_move. }
  { intros p x Hpn [->|Hin]; [done|]. unfold before in Hin. lia. }
  { apply vacant_put; [by rewrite L|]. destruct (Z.eqb_spec e z); [|done]. subst e. unfold before in Hbef. lia. }
  { by apply before_start. }
  exists b', e', ce'. repeat (split; [done|]). intros y Hy. destruct (Hfin y Hy) as [Hp HP]. split; [done|].
  rewrite HP. by eapply elements_move.
Qed.

(** [erase] of a cell that holds an element. *)
Lemma erase_loop_probing g b p c : probing g b -> cell_at b p = Ok c -> isZero c = false ->
  exists b' e ce, erase_loop (S (length b)) b g p p = Ok (b', e) /\ cell_at b' e = Ok ce
    /\ forall y, isZero y = true -> probing g (put b' e y) /\ elements b ≡ₚ c :: elements (put b' e y).
Proof.
  intros [Hb Hd Hr Hp [z Hz]] Hc Ec. pose proof (cell_at_range _ _ _ Hc). destruct (Hb) as [Hg L].
  assert (0 <= z < 2 ^ degree g) as Rz by (destruct Hz as (? & Hz & _); apply cell_at_range in Hz; lia).
  assert (p <> z) by (intros ->; destruct Hz as (? & ? & ?); congruence).
  destruct (erase_loop_spec g (S (length b)) b p p z) as (b' & e & ce & Hl & Hce & Hfin); try done.
  - split; try done; [by exists c|by eauto|by eauto].
  - intros q x Hqp [->|Hin]; [done|]. unfold before in Hin. lia.
  - lia.
  - apply before_start; lia.
  - pose proof (distance_bounds (2 ^ degree g) p z). lia.
  - exists b', e, ce. repeat (split; [done|]). intros y Hy. destruct (Hfin y Hy) as [? HP]. split; [done|].
    rewrite HP. by apply elements_remove.
Qed.

(** ** Resizing

    The buffer has got its new size, [O] is the old one, and the cells before
    [i] have been reinserted: they are reachable, and an element to the right of
    both [i] and the old end is reachable except for what the loops still move. *)
Definition entry c : K * V := (getKey c, getMapped c).
Definition entries b : list (K * V) := entry <$> elements b.

Record rehashing g (O i : Z) b : Prop := {
  rehashing_sized : sized g b;
  rehashing_distinct : distinct b;
  rehashing_remembering : remembering b;
  rehashing_few : Z.of_nat (length (elements b)) < 2 ^ degree g - O;
  rehashing_passed : i - O <= Z.of_nat (length (elements (take (Z.to_nat i) b)));
  rehashing_done p c : p < i -> cell_at b p = Ok c -> isZero c = false -> reached g b (getKey c) p;
  rehashing_right p c : Z.max i O <= p -> cell_at b p = Ok c -> isZero c = false ->
    home g (getKey c) <= p /\ forall q, Z.max (home g (getKey c)) (Z.max i O) <= q < p -> occupied b q }.

Lemma reached_refl g b k : valid g -> reached g b k (home g k).
Proof. intros Hg q Hq. unfold before in Hq. lia. Qed.

Lemma elements_take_succ b i c : cell_at b i = Ok c ->
  elements (take (Z.to_nat (i + 1)) b) = elements (take (Z.to_nat i) b) ++ elements [c].
Proof.
  intros [? Hc]%cell_at_lookup. replace (Z.to_nat (i + 1)) with (S (Z.to_nat i)) by lia.
  by rewrite (take_S_r _ _ c), elements_app.
Qed.

(** A cell that stays where it is. *)
Lemma rehashing_stay g O i b c : rehashing g O i b -> 0 <= i -> cell_at b i = Ok c -> (i < O \/ isZero c = false) ->
  (isZero c = false -> reached g b (getKey c) i) -> rehashing g O (i + 1) b.
Proof.
  intros [Hb Hd Hr Hf Hpass Hdone Hright] Hi Hc Hor Hre. split; try done.
  - rewrite (elements_take_succ b i c), length_app by done. destruct (isZero c) eqn:E; [destruct Hor; [lia|done]|].
    rewrite elements_occupied by done. cbn. lia.
  - intros p x Hp Hx Ex. destruct (decide (p = i)) as [->|]; [|apply Hdone; [lia|done..]].
    rewrite Hc in Hx. injection Hx as <-. auto.
  - intros p x Hp Hx Ex. destruct (Hright p x) as [H1 H2]; [lia|done..|]. split; [done|]. intros q Hq. apply H2. lia.
Qed.

(** No reachable element left of [i] has [i] on its way: the chain would have
    come around the end of the buffer. *)
Lemma rehashing_no_wrap g O i b p c : rehashing g O i b -> 0 <= i < 2 ^ degree g -> p < i -> cell_at b p = Ok c -> isZero c = false ->
  ~ before (2 ^ degree g) (home g (getKey c)) p i.
Proof.
  intros [[Hg L] Hd Hr Hf Hpass Hdone Hright] Hi Hp Hc Ec Hbef.
  enough (Z.of_nat (length (elements b)) = Z.of_nat (length (elements (take (Z.to_nat i) b))) + (2 ^ degree g - i)) by lia.
  rewrite <- L. apply elements_full; [lia|]. intros q Hq. apply (Hdone p c Hp Hc Ec). unfold before in *. lia.
Qed.

(** A cell that moves to the vacant place [p] of its chain. *)
Lemma rehashing_move g O i b p x c z : rehashing g O i b -> 0 <= i < 2 ^ degree g -> cell_at b i = Ok x -> isZero x = false ->
  cell_at b p = Ok c -> isZero c = true -> reached g b (getKey x) p -> ~ before (2 ^ degree g) (home g (getKey x)) p i ->
  isZero z = true -> let x' := setHash (hash (getKey x)) x in
  rehashing g O (i + 1) (put (put b p x') i z) /\ entries (put (put b p x') i z) ≡ₚ entries b.
Proof.
  intros Hre Hi Hx Ex Hc Ec Hreach Hnot Ez x'. destruct (Hre) as [Hb Hd Hr Hf Hpass Hdone Hright]. destruct (Hb) as [Hg L].
  pose proof (cell_at_range _ _ _ Hc) as Rp. pose proof (cell_at_range _ _ _ Hx) as Ri. pose proof (home_bounds g (getKey x) Hg) as Hh.
  assert (p <> i) as Hpi by congruence. assert (getKey x' = getKey x) as Kx by apply getKey_setHash.
  assert (isZero x' = false) as Ex' by (apply isZero_false; rewrite Kx; by apply isZero_false).
  assert (Hat : forall q, cell_at (put (put b p x') i z) q = if i =? q then Ok z else if p =? q then Ok x' else cell_at b q).
  { intros q. rewrite cell_at_put by (by rewrite length_put). by rewrite cell_at_put by done. }
  assert (Hocc : forall q, q <> i -> occupied b q -> occupied (put (put b p x') i z) q).
  { intros q Hqi Hq. apply occupied_put; [by rewrite length_put|]. destruct (Z.eqb_spec i q); [congruence|].
    apply occupied_store; congruence. }
  assert (HP : x' :: elements b ≡ₚ x :: elements (put (put b p x') i z)).
  { rewrite <- (elements_store b p x' c), (elements_remove (put b p x') i x z); try done.
    rewrite cell_at_put by done. by destruct (Z.eqb_spec p i). }
  assert (Hfrom : forall q y, cell_at (put (put b p x') i z) q = Ok y -> isZero y = false -> q <> i /\ exists y0,
    cell_at b (if q =? p then i else q) = Ok y0 /\ getKey y0 = getKey y /\ isZero y0 = false).
  { intros q y. rewrite Hat, (Z.eqb_sym q p). destruct (Z.eqb_spec i q), (Z.eqb_spec p q); intros [= ->] Ey; try congruence.
    - split; [congruence|]. by exists x.
    - split; [congruence|]. by exists y. }
  split.
  2: { apply (Permutation_cons_inv (a := entry x)). unfold entries. rewrite <- fmap_cons, <- HP. cbn.
       f_equiv. unfold entry, x'. by rewrite getKey_setHash, getMapped_setHash. }
  split.
  - by apply sized_put, sized_put.
  - intros q r y w Hy Hw Ey Eyw. assert (isZero w = false) as Ew by (apply isZero_false; rewrite <- Eyw; by apply isZero_false).
    destruct (Hfrom q y Hy Ey) as (? & y0 & Hy0 & Ky & ?), (Hfrom r w Hw Ew) as (? & w0 & Hw0 & Kw & ?).
    pose proof (Hd _ _ y0 w0 Hy0 Hw0 ltac:(done) ltac:(congruence)). repeat case_match; lia.
  - intros q y. rewrite Hat. repeat case_match; [congruence|intros [= <-] _|apply Hr]. apply remembers_setHash.
  - apply Permutation_length in HP. cbn in HP. lia.
  - destruct (decide (i < O)); [lia|]. destruct (Hright i x) as [Hhome _]; [lia|done..|].
    assert (p < i) by (unfold before in Hnot; lia).
    rewrite (elements_take_succ _ i z), length_app by (by rewrite Hat, Z.eqb_refl).
    rewrite elements_take_remove, (elements_take_store b p x' c i) by (done || lia). lia.
  - intros q y Hq Hy Ey. destruct (Hfrom q y Hy Ey) as (Hqi & y0 & Hy0 & Ky & Ey0). rewrite <- Ky. intros r Hr'.
    destruct (Z.eqb_spec q p) as [->|]; [rewrite Hx in Hy0; injection Hy0 as <-|].
    + apply Hocc; [congruence|]. by apply Hreach.
    + apply Hocc; [intros ->|by eapply (Hdone q); [lia|..]]. eapply (rehashing_no_wrap g O i b q); eauto; lia.
  - intros q y Hq Hy Ey. destruct (Hfrom q y Hy Ey) as (Hqi & y0 & Hy0 & Ky & Ey0). rewrite <- Ky.
    destruct (Z.eqb_spec q p) as [->|]; [rewrite Hx in Hy0; injection Hy0 as <-|].
    + split; [unfold before in Hnot; lia|]. intros r Hr'. apply Hocc; [lia|]. apply Hreach. unfold before. lia.
    + destruct (Hright q y0) as [H1 H2]; [lia|done..|]. split; [done|]. intros r Hr'. apply Hocc; [lia|]. apply H2. lia.
Qed.

Lemma reinsert_spec g O i b x : rehashing g O i b -> 0 <= i < 2 ^ degree g -> cell_at b i = Ok x -> isZero x = false ->
  exists b', reinsert b g i (getHash hash x) = Ok b' /\ rehashing g O (i + 1) b' /\ entries b' ≡ₚ entries b.
Proof.
  intros Hre Hi Hx Ex. destruct (Hre) as [Hb Hd Hr _ _ _ _]. pose proof (sized_valid _ _ Hb) as Hg.
  unfold reinsert. rewrite Hx. cbn. rewrite (getHash_spec hash x) by (by eapply Hr). rewrite place_home by done. cbn.
  destruct (Z.eqb_spec (home g (getKey x)) i) as [Hhi|Hne].
  { exists b. split; [done|]. split; [|done]. eapply rehashing_stay; eauto; [lia|]. intros _. rewrite <- Hhi. by apply reached_refl. }
  destruct (findCell_first g b (getKey x) i) as (p & c & Hf & Hc & Hor & Hreach & Hbef); [done..|by apply isZero_false|by right; eauto|].
  rewrite Hf. cbn. rewrite Hc. cbn. destruct (isZero c) eqn:Ec; cbn.
  - eexists. split; [done|]. eapply rehashing_move; eauto.
    + intros B. by eapply Hbef.
    + apply isZero_spec, getKey_setZero.
  - destruct Hor as [|Hk]; [congruence|]. assert (p = i) as -> by (eapply Hd; eauto).
    exists b. split; [done|]. split; [|done]. eapply (rehashing_stay g O i b x); eauto. lia.
Qed.

Lemma reinsert_all_spec g O n b i : rehashing g O i b -> 0 <= i -> i + Z.of_nat n = O -> O <= 2 ^ degree g ->
  exists b', reinsert_all n b g i = Ok b' /\ rehashing g O O b' /\ entries b' ≡ₚ entries b.
Proof.
  revert b i. induction n as [|n IH]; intros b i Hre Hi Hn HO; cbn.
  { replace O with i at 2 by lia. replace i with O in * by lia. by exists b. }
  destruct (cell_at_inside b i) as [c Hc]; [destruct (rehashing_sized _ _ _ _ Hre); lia|]. rewrite Hc. cbn.
  assert (exists b', (if isZero c then Ok b else reinsert b g i (getHash hash c)) = Ok b' /\ rehashing g O (i + 1) b' /\ entries b' ≡ₚ entries b)
    as (b1 & -> & H1 & P1).
  { destruct (isZero c) eqn:E; [|apply reinsert_spec; (done || lia)].
    exists b. split; [done|]. split; [|done]. eapply rehashing_stay; eauto; [left; lia|congruence]. }
  cbn. destruct (IH b1 (i + 1)) as (b2 & -> & H2 & P2); [done|lia..|]. exists b2. by rewrite P2.
Qed.

Lemma vacant_exists b : (length (elements b) < length b)%nat -> exists z, vacant b z.
Proof.
  intros Hlt. destruct (decide (Forall (fun c => isZero c = false) b)) as [Hall|Hnot].
  { rewrite elements_all in Hlt by done. lia. }
  apply not_Forall_Exists, Exists_exists in Hnot as (c & [i Hi]%list_elem_of_lookup & Hc); [|apply _].
  exists (Z.of_nat i), c. split; [|by apply not_false_is_true]. apply cell_at_lookup. rewrite Nat2Z.id. auto with lia.
Qed.

(** The tail ends at a vacant cell, or with the buffer. *)
Lemma rehashing_end g O i b : rehashing g O i b -> O <= i -> 0 <= O -> (i = 2 ^ degree g \/ vacant b i) -> probing g b.
Proof.
  intros [Hb Hd Hr Hf Hpass Hdone Hright] HO H0 Hend. destruct (Hb) as [Hg L]. split; try done.
  - intros p c Hc Ec. destruct (decide (p < i)) as [|Hge]; [by apply Hdone|]. pose proof (cell_at_range _ _ _ Hc).
    destruct Hend as [->|Hv]; [lia|]. destruct (Hright p c) as [H1 H2]; [lia|done..|].
    assert (p <> i) by (intros ->; eapply occupied_not_vacant; [|exact Hv]; by exists c).
    destruct (decide (home g (getKey c) <= i)).
    + exfalso. eapply occupied_not_vacant; [|exact Hv]. apply H2. lia.
    + intros q Hq. apply H2. unfold before in Hq. lia.
  - apply vacant_exists. lia.
Qed.

Lemma reinsert_tail_spec g O n b i : rehashing g O i b -> O <= i -> 0 <= O -> i + Z.of_nat n = 2 ^ degree g ->
  exists b', reinsert_tail n b g i = Ok b' /\ probing g b' /\ entries b' ≡ₚ entries b.
Proof.
  revert b i. induction n as [|n IH]; intros b i Hre HOi HO Hn; cbn.
  { exists b. split; [done|]. split; [|done]. eapply rehashing_end; eauto. left. lia. }
  destruct (cell_at_inside b i) as [c Hc]; [destruct (rehashing_sized _ _ _ _ Hre); lia|]. rewrite Hc. cbn.
  destruct (isZero c) eqn:Ec.
  { exists b. split; [done|]. split; [|done]. eapply rehashing_end; eauto. right. by exists c. }
  destruct (reinsert_spec g O i b c) as (b1 & -> & H1 & P1); [done|lia|done..|]. cbn.
  destruct (IH b1 (i + 1)) as (b2 & -> & H2 & P2); [done|lia..|]. exists b2. by rewrite P2.
Qed.

(** Both loops of [resize], from any arrangement of distinct elements in the old
    part of the buffer. *)
Lemma rehash_spec g O b : valid g -> distinct b -> remembering b -> Z.of_nat (length b) = O -> O < 2 ^ degree g ->
  Z.of_nat (length (elements b)) < 2 ^ degree g - O ->
  exists b1 b2, reinsert_all (Z.to_nat O) (b ++ replicate (Z.to_nat (2 ^ degree g) - length b) zeroed) g 0 = Ok b1
    /\ reinsert_tail (Z.to_nat (2 ^ degree g - O)) b1 g O = Ok b2 /\ probing g b2 /\ entries b2 ≡ₚ entries b.
Proof.
  intros Hg Hd Hr HO HN Hf. set (new := b ++ _).
  assert (Hel : elements new = elements b) by (unfold new; by rewrite elements_app, elements_replicate, app_nil_r).
  assert (Hold : forall p c, cell_at new p = Ok c -> isZero c = false -> cell_at b p = Ok c).
  { intros p c [? Hc]%cell_at_lookup Ec. unfold new in Hc. apply lookup_app_Some in Hc as [Hc|[_ Hc]]; [by apply cell_at_lookup|].
    apply lookup_replicate in Hc as [-> _]. exfalso. apply isZero_false in Ec. apply Ec, getKey_zeroed. }
  assert (rehashing g O 0 new) as Hre.
  { split.
    - split; [done|]. unfold new. rewrite length_app, length_replicate. lia.
    - intros p q c d Hc Hd' Ec Ek. eapply Hd; eauto. apply Hold; [done|]. apply isZero_false. rewrite <- Ek. by apply isZero_false.
    - intros p c Hc Ec. eapply Hr; eauto.
    - by rewrite Hel.
    - lia.
    - intros p c Hp Hc. apply cell_at_range in Hc. lia.
    - intros p c Hp Hc Ec. pose proof (cell_at_range _ _ _ (Hold p c Hc Ec)). lia. }
  destruct (reinsert_all_spec g O (Z.to_nat O) new 0) as (b1 & E1 & H1 & P1); [done|lia..|].
  destruct (reinsert_tail_spec g O (Z.to_nat (2 ^ degree g - O)) b1 O) as (b2 & E2 & H2 & P2); [done|lia..|].
  exists b1, b2. repeat (split; [done|]). rewrite P2, P1. unfold entries. by rewrite Hel.
Qed.
End Probing.
