(* ===== verification/HashTableSpec.v ===== *)
(** * A hash table is a finite map

    The invariant of [HashTable] and the finite map it stands for; each
    operation acts on the map as its documentation says, keeps the invariant,
    and leaves the map as it was when it throws. *)

From stdpp Require Import prelude gmap.
From Stdlib Require Import ZArith Lia.
From S2P Require Import Prelude VarInt HashGrowers HashTable HashTableFacts.
Import HashTable.

#[global] Arguments erase_loop : simpl never.
#[global] Arguments write : simpl never.
#[global] Arguments readVarUInt : simpl never.

(** [sizeof] is never zero. *)
Class CellSizeLaw (C : Type) `{CellSize C} := sizeof_Cell_pos : 0 < sizeof_Cell (C := C).

(** What the binary form of a value keeps of it, and that of a cell. *)
Class BinaryLaws (A : Type) `{Binary A} := {
  representable : A -> Prop;
  readBinary_write a r : representable a -> readBinary (writeBinary a ++ r) = Ok (a, r) }.

Class CellIOLaws (C K V : Type) `{Cell C K V, CellIO C K V} := {
  writable : C -> Prop;
  value_read_write c r : writable c -> value_read (cell_write c ++ r) = Ok ((getKey c, getMapped c), r) }.

Lemma read_write_pair {K V} `{BinaryLaws K, BinaryLaws V} (k : K) (v : V) r : representable k -> representable v ->
  read_pair (write_pair k v ++ r) = Ok ((k, v), r).
Proof.
  intros Hk Hv. unfold read_pair, write_pair. rewrite <- app_assoc, readBinary_write by done. cbn. by rewrite readBinary_write.
Qed.

#[export] Program Instance set_cell_io_laws {K} `{EqDecision K, Zero K, BinaryLaws K} : CellIOLaws (HashTableCell.t K) K unit := {|
  writable c := representable (HashTableCell.key c) |}.
Next Obligation. intros K ???? c r Hc. cbn. by rewrite readBinary_write. Qed.

#[export] Program Instance map_cell_io_laws {K V} `{EqDecision K, Zero K, Zero V, BinaryLaws K, BinaryLaws V} :
  CellIOLaws (HashMapCell.t K V) K V := {|
  writable c := representable (HashMapCell.first c) /\ representable (HashMapCell.second c) |}.
Next Obligation. intros K V ??????? c r [Hk Hv]. by apply read_write_pair. Qed.

#[export] Program Instance saved_cell_io_laws {K V} `{EqDecision K, Zero K, Zero V, BinaryLaws K, BinaryLaws V} :
  CellIOLaws (HashMapCellWithSavedHash.t K V) K V := {|
  writable c := representable (HashMapCellWithSavedHash.first c) /\ representable (HashMapCellWithSavedHash.second c) |}.
Next Obligation. intros K V ??????? c r [Hk Hv]. by apply read_write_pair. Qed.

Section Spec.
Context {C K V G : Type} `{!Cell C K V, !CellLaws C K V, !Grower G, !GrowerLaws G, !Hash K, !CellSize C, !CellSizeLaw C}.
Context `{!EqDecision K, !Countable K}.
Implicit Types (s : t C G) (b : list C) (c : C) (g : G) (m : gmap K V).

Record inv s : Prop := {
  inv_probing : probing (grower s) (buf s);
  inv_degree : degree (grower s) <= 62;
  inv_load : Z.of_nat (length (elements (buf s))) <= 2 ^ (degree (grower s) - 1);
  inv_zero_key : getKey (zero_value s) = zero_key;
  inv_zero_hash : has_zero s = true -> remembers hash (zero_value s);
  inv_size : m_size s = Z.of_nat (length (elements (buf s))) + Z.b2z (has_zero s) }.

(** The elements in the order of an iteration. *)
Definition live s : list C := (if has_zero s then [zero_value s] else []) ++ elements (buf s).

Definition contents s : gmap K V := list_to_map (entry <$> live s).

(** ** The elements and the map *)
Lemma distinct_NoDup b : distinct b -> NoDup (getKey <$> elements b).
Proof.
  induction b as [|c b IH]; intros Hd; [apply NoDup_nil_2|].
  assert (Hs : forall p x, cell_at b p = Ok x -> cell_at (c :: b) (p + 1) = Ok x).
  { intros p x [? Hx]%cell_at_lookup. apply cell_at_lookup. split; [lia|]. by replace (Z.to_nat (p + 1)) with (S (Z.to_nat p)) by lia. }
  assert (distinct b) as Hb.
  { intros p q x y Hx Hy Ex Exy. pose proof (Hd (p + 1) (q + 1) x y (Hs _ _ Hx) (Hs _ _ Hy) Ex Exy). lia. }
  destruct (isZero c) eqn:E; [rewrite elements_vacant by done; by apply IH|]. rewrite elements_occupied by done. cbn.
  apply NoDup_cons. split; [|by apply IH]. intros (x & Hk & [Ex [p Hp]]%elem_of_elements)%list_elem_of_fmap.
  pose proof (Hd 0 (p + 1) c x ltac:(done) (Hs _ _ Hp) E Hk). apply cell_at_range in Hp. lia.
Qed.

Lemma keys_live s : inv s -> NoDup (entry <$> live s).*1.
Proof.
  intros [[Hb Hd _ _ _] _ _ Hz _ _]. rewrite <- list_fmap_compose. unfold live. rewrite fmap_app. apply NoDup_app. split; [|split].
  - case_match; [apply NoDup_singleton|apply NoDup_nil_2].
  - intros k Hk (c & -> & [Hc _]%elem_of_elements)%list_elem_of_fmap. case_match; [|by apply not_elem_of_nil in Hk].
    apply list_elem_of_singleton in Hk. cbn in Hk. apply isZero_false in Hc. congruence.
  - by apply (distinct_NoDup (buf s)).
Qed.

Lemma contents_elem s c : inv s -> c ∈ live s -> contents s !! getKey c = Some (getMapped c).
Proof.
  intros Hi Hc. apply elem_of_list_to_map; [by apply keys_live|]. apply list_elem_of_fmap. by exists c.
Qed.

Lemma contents_None s k : (forall c, c ∈ live s -> getKey c <> k) -> contents s !! k = None.
Proof.
  intros H. apply not_elem_of_list_to_map. rewrite <- list_fmap_compose. intros (c & -> & Hc)%list_elem_of_fmap. by eapply H.
Qed.

Lemma live_slot s p c : cell_at (buf s) p = Ok c -> isZero c = false -> c ∈ live s.
Proof. intros. apply elem_of_app. right. apply elem_of_elements. eauto. Qed.

Lemma live_zero s : has_zero s = true -> zero_value s ∈ live s.
Proof. intros E. unfold live. rewrite E. apply elem_of_app. left. by apply list_elem_of_singleton. Qed.

(** The elements up to their order, and what they become in the map. *)
Lemma contents_insert s s' c : inv s' -> live s' ≡ₚ c :: live s -> contents s' = <[getKey c := getMapped c]> (contents s).
Proof.
  intros Hi HP. unfold contents. rewrite (list_to_map_proper _ (entry <$> (c :: live s))); [done|by apply keys_live|by rewrite HP].
Qed.

Lemma contents_perm s s' : inv s -> entry <$> live s ≡ₚ entry <$> live s' -> contents s' = contents s.
Proof. intros Hi HP. symmetry. apply list_to_map_proper; [by apply keys_live|done]. Qed.

Lemma contents_delete s s' c : inv s -> live s ≡ₚ c :: live s' -> contents s' = delete (getKey c) (contents s).
Proof.
  intros Hi HP. pose proof (keys_live s Hi) as Hnd. unfold contents.
  rewrite (list_to_map_proper (entry <$> live s) (entry <$> (c :: live s'))); [|done|by rewrite HP].
  cbn. rewrite delete_insert_id; [done|]. apply not_elem_of_list_to_map_1. rewrite HP in Hnd. cbn in Hnd. by apply NoDup_cons in Hnd as [? _].
Qed.

Lemma contents_replace s s' c d r : inv s -> inv s' -> live s ≡ₚ c :: r -> live s' ≡ₚ d :: r -> getKey d = getKey c ->
  contents s' = <[getKey c := getMapped d]> (contents s).
Proof.
  intros Hi Hi' HP HP' Hk. unfold contents.
  rewrite (list_to_map_proper (entry <$> live s) (entry <$> (c :: r))); [|by apply keys_live|by rewrite HP].
  rewrite (list_to_map_proper (entry <$> live s') (entry <$> (d :: r))); [|by apply keys_live|by rewrite HP'].
  cbn. by rewrite Hk, insert_insert_eq.
Qed.

Lemma size_contents s : inv s -> size s = Z.of_nat (base.size (contents s)).
Proof.
  intros Hi. unfold contents. rewrite map_size_list_to_map by (by apply keys_live). rewrite length_fmap. unfold live, size.
  rewrite (inv_size s Hi), length_app. destruct (has_zero s); cbn; lia.
Qed.

Lemma inv_valid s : inv s -> valid (grower s).
Proof. intros Hi. apply (inv_probing s Hi). Qed.

Lemma inv_size_bounds s : inv s -> 0 <= m_size s <= 2 ^ (degree (grower s) - 1) + 1 /\ 2 ^ (degree (grower s) - 1) <= 2 ^ 61.
Proof.
  intros Hi. rewrite (inv_size s Hi). pose proof (inv_load s Hi). pose proof (inv_degree s Hi).
  pose proof (Z.pow_le_mono_r 2 (degree (grower s) - 1) 61). destruct (has_zero s); cbn; lia.
Qed.

(** A pointer to an element. *)
Definition points s (p : ptr) c : Prop :=
  match p with
  | ZeroValue => has_zero s = true /\ c = zero_value s
  | Slot i => cell_at (buf s) i = Ok c /\ isZero c = false
  end.

Lemma points_deref s p c : points s p c -> deref s p = Ok c.
Proof. destruct p; intros [? ?]; cbn; congruence. Qed.

Lemma points_live s p c : points s p c -> c ∈ live s.
Proof. destruct p; [intros [? ->]; by apply live_zero|]. intros [? ?]. by eapply live_slot. Qed.

Lemma points_lookup s p c : inv s -> points s p c -> contents s !! getKey c = Some (getMapped c).
Proof. intros Hi Hp. by eapply contents_elem, points_live. Qed.

(** ** Lookup *)
Lemma find_spec s x : inv s ->
  exists r, find s x (hash x) = Ok r /\ match r with
    | Some p => exists c, points s p c /\ getKey c = x
    | None => forall c, c ∈ live s -> getKey c <> x
    end.
Proof.
  intros Hi. pose proof (inv_valid s Hi) as Hg. destruct (Hi) as [Hp _ _ Hz _ _]. unfold find. destruct (isZeroKey x) eqn:Ex.
  { apply isZeroKey_spec in Ex as ->. destruct (has_zero s) eqn:Eh; eexists; (split; [done|]); cbn.
    - by exists (zero_value s).
    - unfold live. rewrite Eh. intros c [Hc _]%elem_of_elements. by apply isZero_false. }
  apply isZeroKey_false in Ex. rewrite place_home by done. cbn. destruct (findCell_probing _ _ x Hp Ex) as (p & c & -> & Hc & _ & Hif).
  cbn. rewrite Hc. cbn. eexists. split; [done|]. destruct (isZero c) eqn:Ec; cbn.
  - intros d Hd. unfold live in Hd. apply elem_of_app in Hd as [Hd|[_ [q Hq]]%elem_of_elements]; [|by eapply Hif].
    case_match; [|by apply not_elem_of_nil in Hd]. apply list_elem_of_singleton in Hd as ->. congruence.
  - by exists c.
Qed.

Lemma has_find s x h : has s x h = (r ← find s x h; Ok (match r with Some _ => true | None => false end)).
Proof.
  unfold has, find. destruct (isZeroKey x); cbn; [by destruct (has_zero s)|].
  destruct (place (grower s) h); cbn; [|done..]. destruct (findCell _ _ _ _ _); cbn; [|done..].
  destruct (cell_at (buf s) _) as [c| |]; cbn; [|done..]. by destruct (isZero c).
Qed.

(** ** Resizing *)

(** What [resize] needs of a table: nothing about reachability. *)
Record movable s : Prop := {
  movable_sized : sized (grower s) (buf s);
  movable_distinct : distinct (buf s);
  movable_remembering : remembering (buf s);
  movable_degree : degree (grower s) <= 62;
  movable_empty : m_size s = 0 -> elements (buf s) = [] }.

Lemma inv_movable s : inv s -> movable s.
Proof.
  intros [[] ? ? ? ? Hs]. split; try done. intros Hm. rewrite Hs in Hm. apply nil_length_inv. destruct (has_zero s); cbn in *; lia.
Qed.

Lemma probing_empty g b : sized g b -> elements b = [] -> probing g b.
Proof.
  intros Hb He. assert (Hno : forall p c, cell_at b p = Ok c -> isZero c = false -> False).
  { intros p c Hc Ec. assert (c ∈ elements b) as Hin by (apply elem_of_elements; eauto). rewrite He in Hin. by apply not_elem_of_nil in Hin. }
  split; try done.
  - intros p q c d Hc _ Ec _. destruct (Hno p c Hc Ec).
  - intros p c Hc Ec. destruct (Hno p c Hc Ec).
  - intros p c Hc Ec. destruct (Hno p c Hc Ec).
  - apply vacant_exists. rewrite He. cbn. destruct Hb as [Hg L]. pose proof (valid_degree g Hg). pose proof (Z.pow_pos_nonneg 2 (degree g)). lia.
Qed.

Lemma allocCheckOverflow_spec n : allocCheckOverflow (C := C) n =
  if n * sizeof_Cell (C := C) <? 2 ^ 64 then Ok (n * sizeof_Cell (C := C)) else Throw CANNOT_ALLOCATE_MEMORY.
Proof. unfold allocCheckOverflow. by destruct (_ <? _). Qed.

(** A buffer that could be allocated has at most [2 ^ 62] cells. *)
Lemma allocated_degree g : 2 ^ degree g * sizeof_Cell (C := C) < 0x8000000000000000 -> degree g <= 62.
Proof.
  intros H. pose proof sizeof_Cell_pos. destruct (Z.le_gt_cases (degree g) 62) as [|Hgt]; [done|].
  assert (2 ^ 63 <= 2 ^ degree g) as P by (apply Z.pow_le_mono_r; lia). change (2 ^ 63) with 0x8000000000000000 in P. nia.
Qed.

Lemma expand_spec mem g s : movable s -> valid g -> degree (grower s) < degree g ->
  Z.of_nat (length (elements (buf s))) < 2 ^ degree g - 2 ^ degree (grower s) ->
  match expand mem (2 ^ degree (grower s)) g s with
  | (Ok _, s') => grower s' = g /\ degree g <= 62 /\ probing g (buf s') /\ entries (buf s') ≡ₚ entries (buf s)
      /\ m_size s' = m_size s /\ has_zero s' = has_zero s /\ zero_value s' = zero_value s
  | (Throw e, s') => s' = s
  | (Undef, _) => False
  end.
Proof.
  intros [[Hg L] Hd Hr Hdeg Hempty] Hg' Hlt Hf. pose proof sizeof_Cell_pos as Hpos.
  pose proof (valid_degree _ Hg). pose proof (Z.pow_lt_mono_r 2 (degree (grower s)) (degree g)).
  pose proof (Z.pow_pos_nonneg 2 (degree (grower s))).
  unfold expand, getBufferSizeInBytes. acts. rewrite !bufSize_spec by done. acts. rewrite allocCheckOverflow_spec.
  destruct (Z.ltb_spec (2 ^ degree g * sizeof_Cell (C := C)) (2 ^ 64)); [|done]. acts. unfold realloc, checkSize, require.
  destruct (Z.ltb_spec (2 ^ degree g * sizeof_Cell (C := C)) 0x8000000000000000) as [Hfit|]; [|done]. cbn.
  pose proof (allocated_degree g Hfit). rewrite wrap_id by (split; nia).
  destruct (Z.eqb_spec (2 ^ degree (grower s) * sizeof_Cell (C := C)) (2 ^ degree g * sizeof_Cell (C := C))); [nia|].
  unfold obtain. destruct (mem _); [done|]. acts. unfold empty. destruct (Z.eqb_spec (m_size s) 0) as [Hm|Hm]; acts.
  - specialize (Hempty Hm). split; [done|]. split; [done|]. split; [|split; [|done]].
    + apply probing_empty; [split; [done|]; rewrite length_app, length_replicate; lia|]. by rewrite elements_app, Hempty, elements_replicate.
    + unfold entries. by rewrite elements_app, elements_replicate, app_nil_r.
  - destruct (rehash_spec g (2 ^ degree (grower s)) (buf s)) as (b1 & b2 & E1 & E2 & Hp & HP); try done; [lia|].
    rewrite E1. acts. rewrite E2. acts. done.
Qed.

(** The growers [resize] chooses. *)
Lemma new_grower_grow g : valid g -> degree g <= 62 ->
  exists g', new_grower 0 0 g = Ok (Some g') /\ valid g' /\ degree g' = degree g + if max_size_degree <=? degree g then 1 else 2.
Proof.
  intros Hg Hle. unfold new_grower. rewrite bufSize_spec by done. cbn.
  destruct (increaseSize_spec g Hg Hle) as (g' & -> & ? & ?). by exists g'.
Qed.

Lemma new_grower_reserve n g : valid g -> 0 < n <= 2 ^ 61 ->
  exists o, new_grower n 0 g = Ok o /\ match o with
    | Some g' => valid g' /\ degree g < degree g' /\ n <= 2 ^ (degree g' - 1)
    | None => n <= 2 ^ (degree g - 1)
    end.
Proof.
  intros Hg Hn. unfold new_grower. rewrite bufSize_spec by done. cbn. destruct (Z.eqb_spec n 0); [lia|]. cbn.
  destruct (set_spec n g Hg) as (g' & -> & Hg' & Hroom); [lia|]. cbn. rewrite bufSize_spec by done. cbn. eexists. split; [done|].
  pose proof (valid_degree g Hg). pose proof (valid_degree g' Hg'). destruct (Z.leb_spec (2 ^ degree g') (2 ^ degree g)) as [Hle|Hlt].
  - apply Z.pow_le_mono_r_iff in Hle; [|lia..]. pose proof (Z.pow_le_mono_r 2 (degree g' - 1) (degree g - 1)). lia.
  - apply Z.pow_lt_mono_r_iff in Hlt; [|lia..]. done.
Qed.

Lemma half_degree g : valid g -> 2 ^ degree g = 2 * 2 ^ (degree g - 1) /\ 0 < 2 ^ (degree g - 1).
Proof.
  intros Hg%valid_degree. rewrite <- Z.pow_succ_r by lia. split; [f_equal; lia|]. apply Z.pow_pos_nonneg; lia.
Qed.

(** A table that [expand] has grown. *)
Lemma expanded_inv s s' : degree (grower s') <= 62 -> probing (grower s') (buf s') -> entries (buf s') ≡ₚ entries (buf s) ->
  Z.of_nat (length (elements (buf s))) <= 2 ^ (degree (grower s') - 1) ->
  m_size s' = m_size s -> has_zero s' = has_zero s -> zero_value s' = zero_value s ->
  getKey (zero_value s) = zero_key -> (has_zero s = true -> remembers hash (zero_value s)) ->
  m_size s = Z.of_nat (length (elements (buf s))) + Z.b2z (has_zero s) ->
  inv s' /\ entry <$> live s' ≡ₚ entry <$> live s.
Proof.
  intros Hdeg Hp HP Hload Em Eh Ez Hk Hrem Hsz. pose proof (Permutation_length HP) as HL. unfold entries in HL. rewrite !length_fmap in HL.
  split.
  - split; try done; rewrite ?Em, ?Eh, ?Ez; try done; lia.
  - unfold live. rewrite Eh, Ez, !fmap_app. by apply Permutation_app_head.
Qed.

Lemma resize_grow_spec mem s : movable s -> Z.of_nat (length (elements (buf s))) <= 2 ^ (degree (grower s) - 1) + 1 ->
  getKey (zero_value s) = zero_key -> (has_zero s = true -> remembers hash (zero_value s)) ->
  m_size s = Z.of_nat (length (elements (buf s))) + Z.b2z (has_zero s) ->
  match resize mem 0 0 s with
  | (Ok _, s') => inv s' /\ entry <$> live s' ≡ₚ entry <$> live s
  | (Throw e, s') => s' = s
  | (Undef, _) => False
  end.
Proof.
  intros Hmov Hload Hk Hrem Hsz. pose proof (sized_valid _ _ (movable_sized s Hmov)) as Hg. pose proof (movable_degree s Hmov) as Hdeg.
  unfold resize. acts. rewrite bufSize_spec by done. acts. destruct (new_grower_grow (grower s) Hg Hdeg) as (g' & -> & Hg' & Edeg). acts.
  pose proof (half_degree _ Hg). pose proof (half_degree _ Hg'). pose proof (valid_degree _ Hg) as Hd.
  assert (degree (grower s) < degree g') as Hlt by (rewrite Edeg; case_match; lia).
  assert (2 ^ degree (grower s) <= 2 ^ (degree g' - 1)) by (apply Z.pow_le_mono_r; lia).
  assert (degree (grower s) = 1 -> degree g' = 3) by (intros E; rewrite Edeg, E; done).
  assert (2 <= degree (grower s) -> 1 < 2 ^ (degree (grower s) - 1)) by (intros; apply Z.pow_gt_1; lia).
  assert (Z.of_nat (length (elements (buf s))) < 2 ^ degree g' - 2 ^ degree (grower s)) as Hfew.
  { destruct (Z.eq_dec (degree (grower s)) 1) as [E|]; [|lia]. rewrite E in *. replace (degree g') with 3 by auto.
    change (2 ^ (1 - 1)) with 1 in *. change (2 ^ 3) with 8. change (2 ^ 1) with 2. lia. }
  pose proof (expand_spec mem g' s Hmov Hg' Hlt Hfew) as Hex. destruct (expand mem _ g' s) as [[u|e|] s']; [|done..].
  destruct Hex as (<- & ? & ? & ? & ? & ? & ?). apply expanded_inv; try done. lia.
Qed.

Lemma reserve_spec mem n s : inv s -> 0 <= n <= 2 ^ 61 ->
  match reserve mem n s with
  | (Ok _, s') => inv s' /\ contents s' = contents s /\ (0 < n -> n <= 2 ^ (degree (grower s') - 1))
  | (Throw e, s') => s' = s
  | (Undef, _) => False
  end.
Proof.
  intros Hi Hn. destruct (Z.eq_dec n 0) as [->|Hn0].
  { unfold reserve. pose proof (resize_grow_spec mem s (inv_movable s Hi)) as Hr. destruct (Hi) as [? ? ? ? ? ?].
    destruct (resize mem 0 0 s) as [[u|e|] s']; [|apply Hr; (done || lia)..].
    destruct Hr as [Hi' HP]; [lia|done..|]. split; [done|]. split; [by apply contents_perm|lia]. }
  pose proof (inv_valid s Hi) as Hg. unfold reserve, resize. acts. rewrite bufSize_spec by done. acts.
  destruct (new_grower_reserve n (grower s) Hg) as ([g'|] & -> & Hnew); [lia| |]; acts; [|done].
  destruct Hnew as (Hg' & Hlt & Hroom). destruct (Hi) as [Hp Hdeg Hload ? ? ?].
  pose proof (half_degree _ Hg). pose proof (half_degree _ Hg'). pose proof (valid_degree _ Hg).
  assert (2 ^ degree (grower s) <= 2 ^ (degree g' - 1)) by (apply Z.pow_le_mono_r; lia).
  assert (Z.of_nat (length (elements (buf s))) < 2 ^ degree g' - 2 ^ degree (grower s)) as Hfew by lia.
  pose proof (expand_spec mem g' s (inv_movable s Hi) Hg' Hlt Hfew) as Hex.
  destruct (expand mem _ g' s) as [[u|e|] s']; [|done..]. destruct Hex as (<- & ? & ? & ? & ? & ? & ?).
  destruct (expanded_inv s s') as [? HP]; try done; [lia|]. split; [done|]. split; [by apply contents_perm|done].
Qed.

(** ** Changing and adding elements *)
Lemma update_spec s p c v : inv s -> points s p c ->
  exists s', update p (setMapped v) s = (Ok tt, s') /\ inv s' /\ points s' p (setMapped v c)
    /\ contents s' = <[getKey c := v]> (contents s).
Proof.
  intros Hi Hp. unfold update. acts. rewrite (points_deref s p c) by done. acts. destruct (Hi) as [Hpr Hdeg Hload Hzk Hzh Hsz].
  destruct p as [|i]; destruct Hp as [H1 H2].
  - subst c. eexists. split; [done|]. assert (inv (with_zero (has_zero s) (setMapped v (zero_value s)) s)) as Hi'.
    { split; try done; cbn; [by rewrite getKey_setMapped|]. intros. by apply remembers_setMapped, Hzh. }
    split; [done|]. split; [done|]. etrans; [apply (contents_replace s _ (zero_value s) (setMapped v (zero_value s)) (elements (buf s)))|by rewrite getMapped_setMapped].
    all: try done; unfold live; cbn; rewrite ?H1; try done. apply getKey_setMapped.
  - eexists. split; [done|]. assert (isZero (setMapped v c) = false) as Ez.
    { apply isZero_false. rewrite getKey_setMapped. by apply isZero_false. }
    destruct (elements_replace (buf s) i c (setMapped v c) H1 H2 Ez) as (r & HP & HP').
    assert (inv (with_buf (put (buf s) i (setMapped v c)) s)) as Hi'.
    { pose proof (Permutation_length HP) as L1. pose proof (Permutation_length HP') as L2. cbn in L1, L2. split; try done; cbn; [|lia..].
      eapply probing_same_key; [done..|apply getKey_setMapped|]. apply remembers_setMapped. by eapply (probing_remembering _ _ Hpr). }
    split; [done|]. split.
    { split; [|done]. cbn. rewrite cell_at_put by (by eapply cell_at_range). by rewrite Z.eqb_refl. }
    etrans; [apply (contents_replace s _ c (setMapped v c) ((if has_zero s then [zero_value s] else []) ++ r))|by rewrite getMapped_setMapped].
    + done.
    + done.
    + unfold live. by rewrite HP, Permutation_middle.
    + unfold live. cbn. by rewrite HP', Permutation_middle.
    + apply getKey_setMapped.
Qed.

(** What [emplace] of an absent key leaves: the table with the key and some
    value, or the table as it was. *)
Definition emplaced s (x : K) (o : outcome (ptr * bool)) s' : Prop :=
  match o with
  | Ok (p, inserted) => inv s' /\ exists c, points s' p c /\ getKey c = x
      /\ if inserted : bool then contents s !! x = None /\ contents s' = <[x := getMapped c]> (contents s) else s' = s
  | Throw e => inv s' /\ contents s' = contents s /\ contents s !! x = None
  | Undef => False
  end.

Lemma emplaceIfZero_spec s : inv s ->
  exists r s', emplaceIfZero zero_key (hash zero_key) s = (Ok (Some r), s') /\ emplaced s zero_key (Ok r) s'.
Proof.
  intros Hi. destruct (Hi) as [Hpr Hdeg Hload Hzk Hzh Hsz]. pose proof (inv_size_bounds s Hi) as [B1 B2].
  unfold emplaceIfZero. rewrite (proj2 (isZeroKey_spec _)) by done. acts. destruct (has_zero s) eqn:Eh; acts.
  { exists (ZeroValue, false), s. split; [done|]. split; [done|]. by exists (zero_value s). }
  unfold update. acts. eexists _, _. split; [done|]. set (s' := with_zero _ _ _).
  assert (getKey (setHash (hash zero_key) (zero_value s)) = zero_key) as Hk by (by rewrite getKey_setHash).
  assert (inv s') as Hi'.
  { split; try done; cbn; [|rewrite wrap_id by (split; lia); cbn in *; lia]. intros _. rewrite <- Hzk at 1. apply remembers_setHash. }
  split; [done|]. exists (zero_value s'). split; [done|]. split; [done|]. split.
  - apply contents_None. unfold live. rewrite Eh. intros c [Hc _]%elem_of_elements. by apply isZero_false.
  - rewrite (contents_insert s s' (zero_value s') Hi'); [cbn; by rewrite Hk|]. unfold live. rewrite Eh. done.
Qed.

(** A new key at its vacant place, before the table is resized. *)
Definition placed s (p : Z) c : t C G := with_size (m_size s + 1) (with_buf (put (buf s) p c) s).

Lemma placed_elements s p c d : cell_at (buf s) p = Ok d -> isZero d = true -> isZero c = false ->
  live (placed s p c) ≡ₚ c :: live s /\ length (elements (put (buf s) p c)) = S (length (elements (buf s))).
Proof.
  intros Hd Ed Ec. pose proof (elements_store (buf s) p c d Hd Ed Ec) as HP. split; [|apply (Permutation_length HP)].
  unfold live. cbn. by rewrite HP, Permutation_middle.
Qed.

Lemma placed_distinct s p c d : inv s -> cell_at (buf s) p = Ok d -> isZero d = true -> remembers hash c ->
  (forall q e, cell_at (buf s) q = Ok e -> getKey e <> getKey c) ->
  distinct (put (buf s) p c) /\ remembering (put (buf s) p c).
Proof.
  intros Hi Hd Ed Hrem Hnew. destruct (inv_probing s Hi) as [_ Hdis Hr _ _]. pose proof (cell_at_range _ _ _ Hd). split.
  - intros q r x y. rewrite !cell_at_put by done. destruct (Z.eqb_spec p q), (Z.eqb_spec p r); intros Hx Hy Ex Ey; simplify_eq; try done.
    + exfalso. by eapply Hnew.
    + exfalso. eapply Hnew; [exact Hx|done].
    + by eapply Hdis.
  - intros q x. rewrite cell_at_put by done. case_match; [|apply Hr]. by intros [= ->].
Qed.

Lemma placed_inv s p c d : inv s -> cell_at (buf s) p = Ok d -> isZero d = true -> isZero c = false -> remembers hash c ->
  reached (grower s) (buf s) (getKey c) p -> (forall q e, cell_at (buf s) q = Ok e -> getKey e <> getKey c) ->
  Z.of_nat (length (elements (buf s))) < 2 ^ (degree (grower s) - 1) -> inv (placed s p c).
Proof.
  intros Hi Hd Ed Ec Hrem Hre Hnew Hlt. destruct (placed_elements s p c d Hd Ed Ec) as [_ HL].
  destruct (Hi) as [Hpr Hdeg Hload Hzk Hzh Hsz]. pose proof (half_degree _ (inv_valid s Hi)).
  split; try done; cbn; rewrite ?HL; [|lia..].
  apply probing_store; try done; [by exists d|].
  destruct (vacant_exists (put (buf s) p c)) as [z Hz].
  { rewrite HL, length_put. destruct (probing_sized _ _ Hpr). lia. }
  apply vacant_put in Hz; [|by eapply cell_at_range]. exists z. destruct (Z.eqb_spec p z); [congruence|]. auto.
Qed.

(** The table that the handler of a failed [resize] restores. *)
Lemma undo_placed s p c d : inv s -> cell_at (buf s) p = Ok d -> isZero d = true ->
  inv (undo_emplace p (placed s p c)) /\ contents (undo_emplace p (placed s p c)) = contents s.
Proof.
  intros Hi Hd Ed. pose proof (cell_at_range _ _ _ Hd) as R. unfold undo_emplace, placed. cbn.
  rewrite cell_at_put, Z.eqb_refl by done. rewrite put_put. destruct (Hi) as [Hpr Hdeg Hload Hzk Hzh Hsz].
  pose proof (inv_size_bounds s Hi) as [B1 B2]. set (s' := with_buf _ _).
  assert (isZero (setZero c) = true) as Ez by apply isZero_spec, getKey_setZero.
  assert (elements (buf s') = elements (buf s)) as He by (by eapply elements_blank).
  assert (inv s') as Hi'.
  { split; try done; rewrite ?He; try done; cbn; [by eapply probing_blank|]. rewrite wrap_id by (split; lia). lia. }
  split; [done|]. apply contents_perm; [done|]. unfold live. by rewrite He.
Qed.

(** After the table has grown, the new key is found again. *)
Lemma refind s s' c x : inv s' -> getKey c = x -> x <> zero_key -> entry <$> live s' ≡ₚ entry <$> (c :: live s) ->
  exists p d, findCell (buf s') (grower s') x (hash x) (home (grower s') x) = Ok p /\ points s' (Slot p) d /\ getKey d = x
    /\ contents s' = <[x := getMapped d]> (contents s).
Proof.
  intros Hi Hk Hx HP. assert (contents s' = <[x := getMapped c]> (contents s)) as Hc.
  { unfold contents. rewrite (list_to_map_proper _ (entry <$> (c :: live s))); [|by apply keys_live|done]. cbn. by rewrite Hk. }
  destruct (findCell_probing _ _ x (inv_probing s' Hi) Hx) as (p & d & -> & Hd & _ & Hif). exists p, d. split; [done|].
  destruct (isZero d) eqn:Ed.
  - exfalso. assert (contents s' !! x = None) as Hnone; [|by rewrite Hc, lookup_insert_eq in Hnone].
    apply contents_None. intros e He. unfold live in He. apply elem_of_app in He as [He|[_ [q Hq]]%elem_of_elements]; [|by eapply Hif].
    case_match; [|by apply not_elem_of_nil in He]. apply list_elem_of_singleton in He as ->. rewrite (inv_zero_key s' Hi). done.
  - assert (points s' (Slot p) d) as Hp by done. split; [done|]. split; [done|]. pose proof (points_lookup s' _ d Hi Hp) as Hl.
    rewrite Hif, Hc, lookup_insert_eq in Hl. rewrite Hc. by injection Hl as ->.
Qed.

Lemma emplaceNonZero_spec mem s x : inv s -> x <> zero_key ->
  let '(o, s') := emplaceNonZero mem x (hash x) s in emplaced s x o s'.
Proof.
  intros Hi Hx. destruct (Hi) as [Hpr Hdeg Hload Hzk Hzh Hsz]. pose proof (inv_valid s Hi) as Hg. pose proof (inv_size_bounds s Hi) as [B1 B2].
  unfold emplaceNonZero. acts. rewrite place_home by done. acts.
  destruct (findCell_probing _ _ x Hpr Hx) as (p & d & -> & Hd & Hre & Hif). acts. unfold emplaceNonZeroImpl. acts. rewrite Hd. acts.
  destruct (isZero d) eqn:Ed; acts; [|by split; [|exists d]].
  rewrite overflow_spec by done. acts. rewrite wrap_id by (split; lia).
  set (c := setHash (hash x) (construct x d)). change (with_size _ _) with (placed s p c).
  assert (getKey c = x) as Kc by (unfold c; by rewrite getKey_setHash, getKey_construct).
  assert (isZero c = false) as Ec by (apply isZero_false; congruence).
  assert (remembers hash c) as Rc by (unfold c; rewrite <- (getKey_construct x d) at 1; apply remembers_setHash).
  assert (contents s !! x = None) as Hnone.
  { apply contents_None. intros e He. unfold live in He. apply elem_of_app in He as [He|[_ [q Hq]]%elem_of_elements]; [|by eapply Hif].
    case_match; [|by apply not_elem_of_nil in He]. apply list_elem_of_singleton in He as ->. congruence. }
  destruct (placed_elements s p c d Hd Ed Ec) as [HP HL]. rewrite <- Kc in Hif, Hre.
  destruct (Z.ltb_spec (2 ^ (degree (grower s) - 1)) (m_size s + 1)) as [Hfull|Hroom].
  - rewrite act_bind_run. unfold on_throw. pose proof (resize_grow_spec mem (placed s p c)) as Hr. destruct (placed_distinct s p c d Hi Hd Ed Rc Hif) as [D R].
    assert (movable (placed s p c)) as Hmov by (split; try done; [by apply sized_put, Hpr|cbn; lia]).
    specialize (Hr Hmov ltac:(cbn; lia) Hzk Hzh ltac:(cbn; lia)). destruct (resize mem 0 0 (placed s p c)) as [[u|e|] s']; [|subst s'|done].
    + destruct Hr as [Hi' HP']. acts. rewrite place_home by (by apply inv_valid). acts.
      destruct (refind s s' c x Hi' Kc Hx) as (p' & e & -> & Hpt & Ke & Hc'); [by rewrite HP', HP|]. acts. split; [done|]. by exists e.
    + destruct (undo_placed s p c d Hi Hd Ed). done.
  - acts. assert (inv (placed s p c)) as Hi' by (eapply placed_inv; eauto; destruct (has_zero s); cbn in *; lia).
    split; [done|]. exists c. split; [split; [|done]; cbn; rewrite cell_at_put, Z.eqb_refl by (by eapply cell_at_range); done|].
    split; [done|]. split; [done|]. pose proof (contents_insert s _ c Hi' HP) as E. by rewrite Kc in E.
Qed.

Lemma emplace_spec mem s x : inv s -> let '(o, s') := emplace mem x (hash x) s in emplaced s x o s'.
Proof.
  intros Hi. unfold emplace. rewrite act_bind_run. destruct (decide (x = zero_key)) as [->|Hx].
  - destruct (emplaceIfZero_spec s Hi) as (r & s' & -> & H). by acts.
  - unfold emplaceIfZero. rewrite (proj2 (isZeroKey_false x)) by done. acts. by apply emplaceNonZero_spec.
Qed.

(** [insert] and its kin: the value is stored when the key is new. *)
Definition inserts s (x : K) (v : V) (o : outcome (ptr * bool)) s' : Prop :=
  match o with
  | Ok (p, inserted) => inv s' /\ (exists c, points s' p c /\ getKey c = x) /\ inserted = bool_decide (contents s !! x = None)
      /\ contents s' = if inserted : bool then <[x := v]> (contents s) else contents s
  | Throw e => inv s' /\ contents s' = contents s /\ contents s !! x = None
  | Undef => False
  end.

Lemma insert_spec mem s x v : inv s -> let '(o, s') := insert mem (x, v) s in inserts s x v o s'.
Proof.
  intros Hi. unfold insert. cbn [fst snd]. rewrite act_bind_run. pose proof (emplace_spec mem s x Hi) as He.
  destruct (emplace mem x (hash x) s) as [[[p ins]|e|] s1]; [|by destruct He|done]. destruct He as (Hi1 & c & Hp & Hk & Hins). cbn [fst snd].
  destruct ins.
  - destruct Hins as [Hnone Hc]. rewrite act_bind_run. destruct (update_spec s1 p c v Hi1 Hp) as (s2 & -> & Hi2 & Hp2 & Hc2). acts.
    split; [done|]. split; [exists (setMapped v c); by rewrite getKey_setMapped|]. split; [by rewrite bool_decide_true|].
    by rewrite Hc2, Hc, Hk, insert_insert_eq.
  - subst s1. acts. split; [done|]. split; [by exists c|]. split; [|done]. rewrite bool_decide_false; [done|].
    rewrite <- Hk, (points_lookup s p c) by done. done.
Qed.

(** [operator[]] is [insert] of the default value. *)
Lemma index_insert mem s v0 x : index mem v0 x s = let '(o, s') := insert mem (x, v0) s in (r ← o; Ok r.1, s').
Proof.
  unfold index, insert. rewrite !act_bind_run. cbn [fst snd]. destruct (emplace mem x (hash x) s) as [[[p [|]]|e|] s1]; try done.
  cbn [fst snd]. rewrite !act_bind_run. by destruct (update p (setMapped v0) s1) as [[u|e|] s2].
Qed.

Lemma index_spec mem s v0 x : inv s ->
  match index mem v0 x s with
  | (Ok p, s') => inv s' /\ (exists c, points s' p c /\ getKey c = x)
      /\ contents s' = match contents s !! x with Some _ => contents s | None => <[x := v0]> (contents s) end
  | (Throw e, s') => inv s' /\ contents s' = contents s /\ contents s !! x = None
  | (Undef, _) => False
  end.
Proof.
  intros Hi. rewrite index_insert. pose proof (insert_spec mem s x v0 Hi) as H.
  destruct (insert mem (x, v0) s) as [[[p ins]|e|] s']; [|done..]. cbn. destruct H as (? & ? & -> & Hc). repeat (split; [done|]).
  rewrite Hc. case_bool_decide as E; [by rewrite E|]. by destruct (contents s !! x).
Qed.

Lemma insertIfNotPresent_spec mem s v0 x v : inv s ->
  match insertIfNotPresent mem v0 x v s with
  | (Ok _, s') => inv s' /\ contents s' = match contents s !! x with Some _ => contents s | None => <[x := v]> (contents s) end
  | (Throw e, s') => inv s' /\ contents s' = contents s /\ contents s !! x = None
  | (Undef, _) => False
  end.
Proof.
  intros Hi. unfold insertIfNotPresent. rewrite act_bind_run. pose proof (emplace_spec mem s x Hi) as He.
  destruct (emplace mem x (hash x) s) as [[[p ins]|e|] s1]; [|by destruct He|done]. destruct He as (Hi1 & c & Hp & Hk & Hins). cbn [fst snd].
  destruct ins.
  - destruct Hins as [Hnone Hc]. rewrite act_bind_run. destruct (update_spec s1 p c v0 Hi1 Hp) as (s2 & -> & Hi2 & Hp2 & Hc2).
    destruct (update_spec s2 p _ v Hi2 Hp2) as (s3 & -> & Hi3 & _ & Hc3). split; [done|].
    by rewrite Hc3, Hc2, Hc, getKey_setMapped, Hk, !insert_insert_eq, Hnone.
  - subst s1. acts. split; [done|]. by rewrite <- Hk, (points_lookup s p c) by done.
Qed.

(** [insertUniqueNonZero] does not undo: after a failed [resize] the element is
    there and the table is one element too full. *)
Lemma insertUniqueNonZero_spec mem s c : inv s -> isZero c = false -> remembers hash c -> contents s !! getKey c = None ->
  match insertUniqueNonZero mem c (hash (getKey c)) s with
  | (Ok _, s') => inv s' /\ contents s' = <[getKey c := getMapped c]> (contents s)
  | (Throw e, s') => movable s' /\ contents s' = <[getKey c := getMapped c]> (contents s) /\ 2 ^ (degree (grower s') - 1) < size s'
  | (Undef, _) => False
  end.
Proof.
  intros Hi Ec Rc Hnone. destruct (Hi) as [Hpr Hdeg Hload Hzk Hzh Hsz]. pose proof (inv_valid s Hi) as Hg. pose proof (inv_size_bounds s Hi) as [B1 B2].
  assert (forall q d, cell_at (buf s) q = Ok d -> getKey d <> getKey c) as Hif.
  { intros q d Hq Hk. assert (isZero d = false) by (apply isZero_false; rewrite Hk; by apply isZero_false).
    pose proof (contents_elem s d Hi ltac:(by eapply live_slot)) as E. rewrite Hk in E. congruence. }
  unfold insertUniqueNonZero. acts. rewrite place_home by done. acts.
  destruct (findEmptyCell_probing _ _ (getKey c) Hpr) as (p & d & -> & Hd & Ed & Hre). acts. rewrite wrap_id by (split; lia).
  rewrite overflow_spec by done. acts. change (with_size _ _) with (placed s p c). destruct (placed_elements s p c d Hd Ed Ec) as [HP HL].
  assert (contents (placed s p c) = <[getKey c := getMapped c]> (contents s)) as Hc.
  { unfold contents. etrans; [symmetry; apply (list_to_map_proper (entry <$> (c :: live s)))|done]; [|by rewrite HP].
    cbn. apply NoDup_cons. split; [|by apply keys_live]. by apply not_elem_of_list_to_map_2. }
  destruct (Z.ltb_spec (2 ^ (degree (grower s) - 1)) (m_size s + 1)) as [Hfull|Hroom].
  - pose proof (resize_grow_spec mem (placed s p c)) as Hr. destruct (placed_distinct s p c d Hi Hd Ed Rc Hif) as [D R].
    assert (movable (placed s p c)) as Hmov by (split; try done; [by apply sized_put, Hpr|cbn; lia]).
    specialize (Hr Hmov ltac:(cbn; lia) Hzk Hzh ltac:(cbn; lia)). destruct (resize mem 0 0 (placed s p c)) as [[u|e|] s']; [|subst s'; done|done].
    destruct Hr as [Hi' HP']. split; [done|]. rewrite <- Hc. symmetry. by apply contents_perm.
  - acts. split; [|done]. eapply placed_inv; eauto. destruct (has_zero s); cbn in *; lia.
Qed.

(** ** Removing an element *)
Lemma removed_size s : inv s -> 0 < m_size s -> wrap 64 (m_size s - 1) = m_size s - 1.
Proof. intros Hi Hm. pose proof (inv_size_bounds s Hi) as [? ?]. apply wrap_id. split; lia. Qed.

Lemma erase_spec s x : inv s ->
  exists s', erase x (hash x) s = (Ok (bool_decide (is_Some (contents s !! x))), s') /\ inv s' /\ contents s' = delete x (contents s).
Proof.
  intros Hi. destruct (find_spec s x Hi) as (r & Hf & Hr). pose proof (inv_valid s Hi) as Hg. destruct (Hi) as [Hpr Hdeg Hload Hzk Hzh Hsz].
  assert (Habs : r = None -> contents s !! x = None) by (intros ->; by apply contents_None).
  unfold erase. acts. unfold find in Hf. destruct (isZeroKey x) eqn:Ex; acts.
  - apply isZeroKey_spec in Ex as ->. injection Hf as <-. destruct (has_zero s) eqn:Eh; acts.
    + cbn in Hsz. rewrite removed_size by (done || lia). eexists. split; [|split].
      * rewrite bool_decide_true; [done|]. rewrite <- Hzk, (contents_elem s); [by eauto|done|by apply live_zero].
      * split; try done; cbn; lia.
      * rewrite <- Hzk. apply contents_delete; [done|]. unfold live. rewrite Eh. done.
    + exists s. rewrite Habs, delete_id by auto. done.
  - rewrite place_home in * by done. acts. cbn in Hf. destruct (findCell _ _ _ _ _) as [p| |]; [|done..]. acts. cbn in Hf.
    destruct (cell_at (buf s) p) as [c| |] eqn:Hc; [|done..]. acts. cbn in Hf. injection Hf as <-. destruct (isZero c) eqn:Ec; acts.
    { exists s. rewrite Habs, delete_id by auto. done. }
    destruct Hr as (c' & Hp & <-). pose proof Hp as [Hc' _]. rewrite Hc in Hc'. injection Hc' as <-.
    destruct (erase_loop_probing _ _ p c Hpr Hc Ec) as (b' & e & ce & -> & Hce & Hfin). acts. rewrite Hce. acts.
    destruct (Hfin (setZero ce)) as [Hpr' HP]; [apply isZero_spec, getKey_setZero|]. pose proof (Permutation_length HP) as HL. cbn in HL.
    rewrite removed_size by (done || (destruct (has_zero s); cbn in *; lia)). eexists. split; [|split].
    + rewrite bool_decide_true; [done|]. rewrite (points_lookup s (Slot p) c) by done. by eauto.
    + split; try done; cbn; lia.
    + apply contents_delete; [done|]. unfold live. cbn. by rewrite HP, Permutation_middle.
Qed.

(** ** Iteration *)
Lemma elements_drop b i c : cell_at b i = Ok c -> elements (drop (Z.to_nat i) b) = elements (c :: drop (Z.to_nat (i + 1)) b).
Proof.
  intros [? Hc]%cell_at_lookup. replace (Z.to_nat (i + 1)) with (S (Z.to_nat i)) by lia. by rewrite (drop_S b c).
Qed.

Lemma skip_zero_spec n b i : 0 <= i <= Z.of_nat (length b) -> Z.of_nat (length b) - i <= Z.of_nat n ->
  exists j, skip_zero n b (Z.of_nat (length b)) i = Ok j /\ i <= j <= Z.of_nat (length b)
    /\ elements (drop (Z.to_nat j) b) = elements (drop (Z.to_nat i) b) /\ (j < Z.of_nat (length b) -> occupied b j).
Proof.
  revert i. induction n as [|n IH]; intros i Hi Hn; cbn; [exists i; repeat split; (done || lia)|].
  destruct (Z.ltb_spec i (Z.of_nat (length b))) as [Hlt|]; [|exists i; repeat split; (done || lia)].
  destruct (cell_at_inside b i) as [c Hc]; [lia|]. rewrite Hc. cbn. destruct (isZero c) eqn:Ec.
  - destruct (IH (i + 1)) as (j & -> & Hj & He & Hocc); [lia..|]. exists j. split; [done|]. split; [lia|]. split; [|done].
    by rewrite (elements_drop b i c), elements_vacant by done.
  - exists i. repeat split; try lia. intros _. by exists c.
Qed.

Lemma iterate_from s n fuel j : valid (grower s) -> Z.of_nat (length (buf s)) = 2 ^ degree (grower s) ->
  0 <= j <= Z.of_nat (length (buf s)) -> (j < Z.of_nat (length (buf s)) -> occupied (buf s) j) ->
  Z.of_nat (length (buf s)) - j <= Z.of_nat n -> (n <= fuel)%nat ->
  exists ps, iterate_fuel fuel s (Slot (2 ^ degree (grower s))) (Slot j) = Ok ps
    /\ deref_all s ps = Ok (elements (drop (Z.to_nat j) (buf s))).
Proof.
  intros Hg HL. revert fuel j. induction n as [|n IH]; intros fuel j Hj Hocc Hn Hfuel.
  all: assert (Hend : j = 2 ^ degree (grower s) -> exists ps, iterate_fuel fuel s (Slot (2 ^ degree (grower s))) (Slot j) = Ok ps
    /\ deref_all s ps = Ok (elements (drop (Z.to_nat j) (buf s)))) by
    (intros ->; exists []; rewrite drop_ge by lia; split; [destruct fuel; cbn; by rewrite decide_True|done]).
  { apply Hend. lia. }
  destruct (Z.eq_dec j (2 ^ degree (grower s))) as [|Hne]; [by apply Hend|]. destruct fuel as [|fuel]; [lia|]. cbn.
  rewrite decide_False by congruence. destruct Hocc as (c & Hc & Ec); [lia|]. unfold incr. cbn. rewrite Hc. cbn. rewrite Ec.
  rewrite bufSize_spec by done. cbn. rewrite <- HL.
  destruct (skip_zero_spec (Z.to_nat (Z.of_nat (length (buf s)))) (buf s) (j + 1)) as (k & -> & Hk & He & Hocc'); [lia..|]. cbn.
  destruct (IH fuel k) as (ps & Hps & Hd); [lia|done|lia..|]. rewrite <- HL in Hps. rewrite Hps. cbn. exists (Slot j :: ps). split; [done|].
  cbn. rewrite Hc. cbn. rewrite Hd. cbn. by rewrite He, (elements_drop (buf s) j c), elements_occupied by done.
Qed.

Lemma iterated_spec s : inv s -> iterated s = Ok (live s).
Proof.
  intros Hi. pose proof (inv_valid s Hi) as Hg. destruct (probing_sized _ _ (inv_probing s Hi)) as [_ HL].
  pose proof (half_degree _ Hg). unfold iterated, iterate, begin, end_.
  destruct (buf s) as [|c0 b0] eqn:Eb; [cbn in HL; lia|]. rewrite <- Eb in *. rewrite bufSize_spec by done. cbn -[iterate_fuel]. unfold live.
  destruct (skip_zero_spec (Z.to_nat (2 ^ degree (grower s))) (buf s) 0) as (j & Hs & Hj & He & Hocc); [lia..|].
  destruct (iterate_from s (length (buf s)) (length (buf s)) j Hg HL) as (ps & Hps & Hd); [done|done|lia..|].
  rewrite He, drop_0 in Hd. rewrite HL in Hs. destruct (has_zero s) eqn:Eh.
  - cbn [iterate_fuel mbind outcome_bind]. rewrite decide_False by done. unfold incr. cbn.
    rewrite (proj2 (isZero_spec (zero_value s))) by apply (inv_zero_key s Hi). rewrite bufSize_spec by done. cbn. rewrite Hs. cbn.
    rewrite Hps. cbn. by rewrite Hd.
  - rewrite Hs. cbn -[iterate_fuel].
    destruct (iterate_from s (length (buf s)) (S (length (buf s))) j Hg HL) as (ps' & Hps' & Hd'); [done|done|lia..|].
    rewrite He, drop_0 in Hd'. rewrite Hps'. cbn. done.
Qed.

(** ** Construction and clearing *)
Lemma alloc_spec mem g s : valid g -> m_size s = 0 -> has_zero s = false -> getKey (zero_value s) = zero_key ->
  match alloc mem g s with
  | (Ok _, s') => inv s' /\ contents s' = ∅ /\ grower s' = g
  | (Throw e, s') => s' = s
  | (Undef, _) => False
  end.
Proof.
  intros Hg Hm Hh Hz. pose proof (half_degree g Hg). unfold alloc. acts. rewrite bufSize_spec by done. acts. rewrite allocCheckOverflow_spec.
  destruct (Z.ltb_spec (2 ^ degree g * sizeof_Cell (C := C)) (2 ^ 64)); [|done]. acts. unfold checkSize, require.
  destruct (Z.ltb_spec (2 ^ degree g * sizeof_Cell (C := C)) 0x8000000000000000) as [Hfit|]; [|done]. acts. unfold obtain.
  destruct (mem _); [done|]. acts. unfold contents, live. cbn. rewrite elements_replicate, Hh. split; [|done].
  split; cbn; rewrite ?elements_replicate, ?Hh; try done; [|by eapply allocated_degree|cbn; lia].
  apply probing_empty; [split; [done|]; rewrite length_replicate; lia|]. apply elements_replicate.
Qed.

Lemma construct_spec mem (c : C) :
  match (HashTable mem c : outcome unit * t C G) with
  | (Ok _, s') => inv s' /\ contents s' = ∅
  | (Throw e, s') => buf s' = []
  | (Undef, _) => False
  end.
Proof.
  unfold HashTable, construct_with. destruct valid_initial as [Hg _].
  pose proof (alloc_spec mem initial (Make 0 [] initial false (setZero c)) Hg) as H.
  destruct (alloc mem _ _) as [[u|e|] s']; cbn in H; rewrite getKey_setZero in H.
  - destruct H as (? & ? & _); done.
  - by rewrite H.
  - by apply H.
Qed.

Lemma clear_spec s : inv s -> exists s', clear s = (Ok tt, s') /\ inv s' /\ contents s' = ∅ /\ grower s' = grower s.
Proof.
  intros Hi. pose proof (inv_valid s Hi) as Hg. destruct (probing_sized _ _ (inv_probing s Hi)) as [_ HL]. pose proof (half_degree _ Hg).
  unfold clear, destroyElements. acts. rewrite bufSize_spec by done. acts. rewrite (proj2 (Z.eqb_eq _ _)) by (cbn; lia). acts. eexists. split; [done|].
  unfold contents, live. cbn. rewrite elements_replicate. split; [|done]. destruct (Hi) as [? ? ? ? ? ?].
  split; cbn; rewrite ?elements_replicate; try done; [|cbn; lia].
  apply probing_empty; [split; [done|]; rewrite length_replicate; lia|]. apply elements_replicate.
Qed.

(** ** Serialization *)

(** While there is room, [emplace] neither throws nor resizes. *)
Lemma emplace_room mem s x : inv s -> m_size s < 2 ^ (degree (grower s) - 1) ->
  exists r s', emplace mem x (hash x) s = (Ok r, s') /\ grower s' = grower s.
Proof.
  intros Hi Hroom. pose proof (inv_valid s Hi) as Hg. pose proof (inv_size_bounds s Hi) as [B1 B2].
  unfold emplace. rewrite act_bind_run. destruct (decide (x = zero_key)) as [->|Hx].
  - unfold emplaceIfZero. rewrite (proj2 (isZeroKey_spec _)) by done. acts. destruct (has_zero s); acts; [by eauto|].
    unfold update. acts. by eauto.
  - unfold emplaceIfZero, emplaceNonZero. rewrite (proj2 (isZeroKey_false x)) by done. acts. rewrite place_home by done. acts.
    destruct (findCell_probing _ _ x (inv_probing s Hi) Hx) as (p & d & -> & Hd & _). acts. unfold emplaceNonZeroImpl. acts. rewrite Hd. acts.
    destruct (isZero d); acts; [|by eauto]. rewrite overflow_spec by done. acts. rewrite wrap_id by (split; lia).
    destruct (Z.ltb_spec (2 ^ (degree (grower s) - 1)) (m_size s + 1)); [lia|]. acts. by eauto.
Qed.

Lemma insert_absent m x v :
  (if bool_decide (m !! x = None) then <[x := v]> m else m) = m ∪ {[x := v]}.
Proof.
  case_bool_decide as Hx; [by rewrite insert_union_singleton_r|]. apply map_eq. intros k. rewrite lookup_union.
  destruct (decide (k = x)) as [->|].
  - rewrite lookup_singleton_eq. by destruct (m !! x).
  - rewrite lookup_singleton_ne by done. by destruct (m !! k).
Qed.

Lemma insert_room mem s x v : inv s -> m_size s < 2 ^ (degree (grower s) - 1) ->
  exists r s', insert mem (x, v) s = (Ok r, s') /\ grower s' = grower s /\ inv s' /\ m_size s' <= m_size s + 1
    /\ contents s' = contents s ∪ {[x := v]}.
Proof.
  intros Hi Hroom. pose proof (insert_spec mem s x v Hi) as Hins. destruct (emplace_room mem s x Hi Hroom) as ([p ins] & s1 & He & Hgr).
  pose proof (emplace_spec mem s x Hi) as Hsp. rewrite He in Hsp. destruct Hsp as (Hi1 & c & Hp & _ & _).
  assert (exists s', insert mem (x, v) s = (Ok (p, ins), s') /\ grower s' = grower s) as (s' & E & Egr).
  { unfold insert. cbn [fst snd]. rewrite act_bind_run, He. cbn [fst snd]. destruct ins; [|acts; by eauto]. rewrite act_bind_run.
    unfold update. acts. rewrite (points_deref s1 p c) by done. acts. destruct p; acts; by eauto. }
  rewrite E in Hins. destruct Hins as (Hi' & _ & -> & Hc). rewrite insert_absent in Hc. eexists _, s'. repeat (split; [done|]). split; [|done].
  pose proof (size_contents s Hi) as S1. pose proof (size_contents s' Hi') as S2. unfold size in S1, S2. rewrite S1, S2, Hc, <- insert_absent.
  case_bool_decide; [|lia]. rewrite map_size_insert. by destruct (contents s !! x); cbn; lia.
Qed.

Context `{!CellIO C K V, !CellIOLaws C K V}.

Lemma write_live s : write s = writeVarUInt (m_size s) ++ concat (cell_write <$> live s).
Proof.
  unfold write, live. rewrite fmap_app, concat_app. f_equal. f_equal; [destruct (has_zero s); [|done]; cbn; by rewrite app_nil_r|].
  induction (buf s) as [|c b IH]; [done|]. cbn [map concat]. destruct (isZero c) eqn:Ec.
  - by rewrite elements_vacant.
  - rewrite elements_occupied by done. cbn. by rewrite IH.
Qed.

Lemma read_cells_spec mem cs r s : inv s -> Forall writable cs -> m_size s + Z.of_nat (length cs) <= 2 ^ (degree (grower s) - 1) ->
  exists s', read_cells mem (length cs) (concat (cell_write <$> cs) ++ r) s = (Ok r, s') /\ inv s'
    /\ contents s' = contents s ∪ list_to_map (entry <$> cs).
Proof.
  revert s. induction cs as [|c cs IH]; intros s Hi Hw Hroom; cbn.
  { exists s. rewrite (right_id_L ∅ (∪)). done. }
  apply Forall_cons in Hw as [Hwc Hw]. cbn in Hroom. acts. rewrite <- app_assoc, value_read_write by done. acts. rewrite act_bind_run.
  destruct (insert_room mem s (getKey c) (getMapped c)) as (x & s1 & E & Hgr & Hi1 & Hm & Hc); [done|lia|].
  rewrite E. destruct (IH s1) as (s2 & -> & Hi2 & Hc2); [done|done|rewrite Hgr; lia|]. exists s2. split; [done|]. split; [done|].
  rewrite Hc2, Hc, <- (assoc_L (∪)). f_equal. symmetry. apply insert_union_singleton_l.
Qed.

(** [read] of what [write] has written. *)
Lemma read_write mem s0 s r : inv s0 -> inv s -> Forall writable (live s0) -> m_size s0 <= 100000000000 ->
  (forall g e, set (m_size s0) (grower s) = Ok g -> (alloc mem g (Make 0 [] e false (zero_value s))).1 = Ok tt) ->
  exists s', read mem (write s0 ++ r) s = (Ok r, s') /\ inv s' /\ contents s' = contents s0.
Proof.
  intros Hi0 Hi Hw Hm Hmem. pose proof (inv_valid s Hi) as Hg. pose proof (inv_size_bounds s0 Hi0) as [B1 B2].
  unfold read, destroyElements, free. acts. rewrite write_live, <- app_assoc, readVarUInt_write by (split; lia). acts.
  rewrite (proj2 (Z.leb_le _ _)) by lia. acts. destruct (set_spec (m_size s0) (grower s) Hg) as (g & Eg & Hg' & Hroom); [lia|]. rewrite Eg. acts.
  rewrite act_bind_run. unfold with_buf, with_size, clearHasZero, with_zero. cbn.
  pose proof (alloc_spec mem g (Make 0 [] (grower s) false (zero_value s)) Hg' eq_refl eq_refl (inv_zero_key s Hi)) as Ha.
  specialize (Hmem g (grower s) Eg). destruct (alloc mem g _) as [[u|e|] s1]; [|done..]. destruct Ha as (Hi1 & Hc1 & Hgr).
  assert (m_size s0 = Z.of_nat (length (live s0))) as EL.
  { unfold live. rewrite (inv_size s0 Hi0), length_app. destruct (has_zero s0); cbn; lia. }
  assert (m_size s1 = 0) as E1 by (change (size s1 = 0); rewrite (size_contents s1 Hi1), Hc1, map_size_empty; done).
  rewrite EL, Nat2Z.id. destruct (read_cells_spec mem (live s0) r s1 Hi1 Hw) as (s2 & -> & Hi2 & Hc2); [rewrite Hgr; lia|].
  exists s2. split; [done|]. split; [done|]. by rewrite Hc2, Hc1, (left_id_L ∅ (∪)).
Qed.

(** [Reader] yields the entries in the order of an iteration. *)
Lemma reader_rest n cs rb k total : Forall writable cs -> 0 <= k -> k + Z.of_nat (length cs) = total -> total < 2 ^ 64 -> (length cs <= n)%nat ->
  forall x, reader_all n (MakeReader (concat (cell_write <$> cs) ++ rb) x k total false true) = Ok (entry <$> cs).
Proof.
  revert k cs. induction n as [|n IH]; intros k cs Hw Hk Ht Hb Hn x; destruct cs as [|c cs]; cbn in *; try lia.
  1,2: unfold reader_next; cbn; by rewrite (proj2 (Z.eqb_eq k total)) by lia.
  apply Forall_cons in Hw as [Hc Hw]. unfold reader_next. cbn. rewrite (proj2 (Z.eqb_neq k total)) by lia.
  rewrite <- app_assoc, value_read_write by done. cbn. rewrite wrap_id by (split; lia). rewrite IH by (done || lia). done.
Qed.

Lemma reader_reads_all s rb : inv s -> Forall writable (live s) ->
  reader_all (length (live s)) (new_reader (write s ++ rb)) = Ok (entry <$> live s).
Proof.
  intros Hi Hw. pose proof (inv_size_bounds s Hi) as [B1 B2].
  assert (m_size s = Z.of_nat (length (live s))) as EL.
  { unfold live. rewrite (inv_size s Hi), length_app. destruct (has_zero s); cbn; lia. }
  rewrite <- (reader_rest (length (live s)) (live s) rb 0 (m_size s) Hw) with (x := None) by lia.
  destruct (length (live s)) as [|n]; cbn; unfold reader_next, new_reader; cbn; by rewrite write_live, <- app_assoc, readVarUInt_write by (split; lia).
Qed.

(** ** Merging *)

(** The value of a key in the destination of [mergeToViaEmplace]; a new value
    must not depend on what was in memory before. *)
Definition merged (func : V -> V -> bool -> V) (src dst : option V) : option V :=
  match src, dst with
  | Some v, Some d => Some (func d v false)
  | Some v, None => Some (func v v true)
  | None, _ => dst
  end.

Lemma merge_loop_spec mem func cs s : (forall d d' v, func d v true = func d' v true) -> inv s -> NoDup (getKey <$> cs) ->
  Forall (fun c => remembers hash c) cs ->
  match mergeToViaEmplace_loop mem func cs s with
  | (Ok _, s') => inv s' /\ contents s' = merge (merged func) (list_to_map (entry <$> cs)) (contents s)
  | (Throw e, s') => inv s'
  | (Undef, _) => False
  end.
Proof.
  intros Hfunc. revert s. induction cs as [|c cs IH]; intros s Hi Hnd Hrem; cbn [mergeToViaEmplace_loop].
  { acts. split; [done|]. apply map_eq. intros k. rewrite lookup_merge. cbn. rewrite lookup_empty. by destruct (contents s !! k). }
  apply NoDup_cons in Hnd as [Hnew Hnd]. apply Forall_cons in Hrem as [Hc Hrem]. rewrite (getHash_spec hash c) by done. rewrite act_bind_run.
  pose proof (emplace_spec mem s (getKey c) Hi) as He. destruct (emplace mem _ _ s) as [[[p ins]|e|] s1]; [|by destruct He|done].
  destruct He as (Hi1 & d & Hp & Hk & Hins). acts. rewrite (points_deref s1 p d) by done. acts. rewrite act_bind_run.
  destruct (update_spec s1 p d (func (getMapped d) (getMapped c) ins) Hi1 Hp) as (s2 & -> & Hi2 & _ & Hc2).
  specialize (IH s2 Hi2 Hnd Hrem). destruct (mergeToViaEmplace_loop mem func cs s2) as [[u|e|] s3]; [|done..]. destruct IH as [Hi3 Hc3].
  split; [done|]. rewrite Hc3, Hc2, Hk. apply map_eq. intros k. rewrite !lookup_merge. cbn. destruct (decide (k = getKey c)) as [->|Hne].
  - rewrite !lookup_insert_eq. rewrite (not_elem_of_list_to_map_1 (entry <$> cs)) by (by rewrite <- list_fmap_compose). cbn. destruct ins.
    + destruct Hins as [-> _]. cbn. f_equal. apply Hfunc.
    + subst s1. rewrite <- Hk, (points_lookup s p d) by done. done.
  - rewrite !lookup_insert_ne by done. destruct ins; [destruct Hins as [_ ->]|by subst s1]. by rewrite lookup_insert_ne by done.
Qed.

Lemma live_remembers s : inv s -> Forall (fun c => remembers hash c) (live s).
Proof.
  intros Hi. apply Forall_app. split; [destruct (has_zero s) eqn:E; [|done]; apply Forall_singleton; by apply (inv_zero_hash s Hi)|].
  apply Forall_forall. intros c [Ec [p Hp]]%elem_of_elements. by eapply (probing_remembering _ _ (inv_probing s Hi)).
Qed.

Lemma merge_spec mem func s0 s : (forall d d' v, func d v true = func d' v true) -> inv s0 -> inv s ->
  match mergeToViaEmplace mem func s0 s with
  | (Ok _, s') => inv s' /\ contents s' = merge (merged func) (contents s0) (contents s)
  | (Throw e, s') => inv s'
  | (Undef, _) => False
  end.
Proof.
  intros Hfunc Hi0 Hi. unfold mergeToViaEmplace. acts. rewrite iterated_spec by done. acts. apply merge_loop_spec; [done..| |by apply live_remembers].
  pose proof (keys_live s0 Hi0) as Hnd. by rewrite <- list_fmap_compose in Hnd.
Qed.
End Spec.
