(* ===== verification/Range.v ===== *)
(** * Ranges of field values

    [src/Core/Range.h] and [Range.cpp]: intervals between fields, with open or
    closed ends and possibly unbounded, for the analysis of indexes; the
    comparison of fields is [accurateLess] and [accurateEquals] of
    [src/Common/FieldAccurateComparison.cpp].  The values of a column are a
    parameter with their comparisons; those of integer columns and of string
    columns are instances.  A plain NULL does not occur here: in a key it is
    replaced by the positive infinity. *)

From stdpp Require Import prelude.
From Stdlib Require Import ZArith Lia.
From S2P Require Import Prelude.

(** ** Fields *)

(** The values of one column: the comparisons of [accurateLess] and
    [accurateEquals], [Field::operator==], and the neighbours of a value that
    [shrinkToIncludedIfPossible] knows. *)
Class Explicit (V : Type) := {
  v_less : V -> V -> bool;
  v_equals : V -> V -> bool;
  v_same : V -> V -> bool;
  v_increment : V -> option V;
  v_decrement : V -> option V;
  v_isNaN : V -> bool }.

Inductive Field (V : Type) := NegativeInfinity | PositiveInfinity | Value (v : V).
Arguments NegativeInfinity {V}.
Arguments PositiveInfinity {V}.
Arguments Value {V}.

(** A field, or a reference to a field of a block, which is not explicit. *)
Record FieldRef (V : Type) := Ref { field : Field V; isExplicit : bool }.
Arguments Ref {V}.
Arguments field {V}.
Arguments isExplicit {V}.

Record Range (V : Type) := MakeRange {
  left : FieldRef V;
  left_included : bool;
  right : FieldRef V;
  right_included : bool }.
Arguments MakeRange {V}.
Arguments left {V}.
Arguments left_included {V}.
Arguments right {V}.
Arguments right_included {V}.

Section Operations.
Context {V : Type} `{!Explicit V}.
Implicit Types (a b : Field V) (f : FieldRef V) (r x : Range V).

Definition isNegativeInfinity a : bool := match a with NegativeInfinity => true | _ => false end.
Definition isPositiveInfinity a : bool := match a with PositiveInfinity => true | _ => false end.
Definition isNull a : bool := match a with Value _ => false | _ => true end.
Definition isNaN a : bool := match a with Value v => v_isNaN v | _ => false end.

Definition accurateLess a b : bool :=
  match a, b with
  | Value v, Value w => v_less v w
  | Value _, _ => isPositiveInfinity b
  | _, Value _ => isNegativeInfinity a
  | _, _ => isNegativeInfinity a && isPositiveInfinity b
  end.

Definition accurateEquals a b : bool :=
  match a, b with
  | Value v, Value w => v_equals v w
  | Value _, _ | _, Value _ => false
  | _, _ => Bool.eqb (isNegativeInfinity a) (isNegativeInfinity b) && Bool.eqb (isPositiveInfinity a) (isPositiveInfinity b)
  end.

(** [Field::operator==]. *)
Definition field_eq a b : bool :=
  match a, b with
  | Value v, Value w => v_same v w
  | NegativeInfinity, NegativeInfinity | PositiveInfinity, PositiveInfinity => true
  | _, _ => false
  end.

Definition explicit a : FieldRef V := Ref a true.

Definition less f1 f2 : bool := accurateLess (field f1) (field f2).
Definition equals f1 f2 : bool := accurateEquals (field f1) (field f2).

(** The neighbour of an explicit value. *)
Definition neighbour (step : V -> option V) f : option (FieldRef V) :=
  if isExplicit f then match field f with Value v => option_map (fun w => explicit (Value w)) (step v) | _ => None end
  else None.

Definition shrinkToIncludedIfPossible r : Range V :=
  let r := if left_included r then r else match neighbour v_increment (left r) with
    | Some f => MakeRange f true (right r) (right_included r)
    | None => r
    end in
  if right_included r then r else match neighbour v_decrement (right r) with
    | Some f => MakeRange (left r) (left_included r) f true
    | None => r
    end.

(** The constructors [Range(point)] and [Range(left, left_included, right, right_included)]. *)
Definition point f : Range V := MakeRange f true f true.
Definition mkRange (left_ : FieldRef V) (left_included_ : bool) (right_ : FieldRef V) (right_included_ : bool) : Range V :=
  shrinkToIncludedIfPossible (MakeRange left_ left_included_ right_ right_included_).

Definition createWholeUniverse : Range V := mkRange (explicit NegativeInfinity) true (explicit PositiveInfinity) true.
Definition createWholeUniverseWithoutNull : Range V := mkRange (explicit NegativeInfinity) false (explicit PositiveInfinity) false.

Definition universe (with_null : bool) : Range V :=
  if with_null then createWholeUniverse else createWholeUniverseWithoutNull.

Definition createRightBounded (right_point : FieldRef V) (included with_null : bool) : Range V :=
  let r := universe with_null in
  let r := shrinkToIncludedIfPossible (MakeRange (left r) (left_included r) right_point included) in
  if isNegativeInfinity (field (right r)) && included then MakeRange (left r) true (right r) (right_included r) else r.

Definition createLeftBounded (left_point : FieldRef V) (included with_null : bool) : Range V :=
  let r := universe with_null in
  let r := shrinkToIncludedIfPossible (MakeRange left_point included (right r) (right_included r)) in
  if isPositiveInfinity (field (left r)) && included then MakeRange (left r) (left_included r) (right r) true else r.

Definition empty r : bool :=
  less (right r) (left r) || ((negb (left_included r) || negb (right_included r)) && negb (less (left r) (right r))).

(** [rightThan(x)], [leftThan(x)] and [contains(x)] of a field. *)
Definition rightThan_field r f : bool := less (left r) f || (left_included r && equals f (left r)).
Definition leftThan_field r f : bool := less f (right r) || (right_included r && equals f (right r)).
Definition contains r f : bool := negb (leftThan_field r f) && negb (rightThan_field r f).

Definition rightThan r x : bool :=
  less (right x) (left r) || (negb (left_included r && right_included x) && equals (left r) (right x)).
Definition leftThan r x : bool :=
  less (right r) (left x) || (negb (left_included x && right_included r) && equals (right r) (left x)).

Definition fullBounded r : bool := negb (isNull (field (left r))) && negb (isNull (field (right r))).
Definition isInfinite r : bool := isNegativeInfinity (field (left r)) && isPositiveInfinity (field (right r)).

Definition intersectsRange r x : bool :=
  if less (right x) (left r) || ((negb (left_included r) || negb (right_included x)) && equals (right x) (left r)) then false
  else if less (right r) (left x) || ((negb (right_included r) || negb (left_included x)) && equals (left x) (right r)) then false
  else true.

Definition containsRange r x : bool :=
  if less (left x) (left r) || (left_included x && negb (left_included r) && equals (left x) (left r)) then false
  else if less (right r) (right x) || (right_included x && negb (right_included r) && equals (right x) (right r)) then false
  else true.

Definition invert r : Range V :=
  let l := if isPositiveInfinity (field (right r)) then explicit NegativeInfinity else right r in
  let ri := if isNegativeInfinity (field (left r)) then explicit PositiveInfinity else left r in
  MakeRange l (right_included r) ri (left_included r).

Definition invertRange r : list (Range V) :=
  if fullBounded r then
    [mkRange (explicit NegativeInfinity) false (left r) (negb (left_included r));
     mkRange (right r) (negb (right_included r)) (explicit PositiveInfinity) false]
  else if isInfinite r then []
  else if isPositiveInfinity (field (right r)) then
    [MakeRange (explicit NegativeInfinity) false (left r) (negb (left_included r))]
  else if isNegativeInfinity (field (left r)) then
    [MakeRange (right r) (negb (right_included r)) (explicit PositiveInfinity) false]
  else [MakeRange (right r) (left_included r) (left r) (right_included r)].

Definition intersectWith r x : option (Range V) :=
  if negb (intersectsRange r x) then None
  else
    let left_bound_use_mine :=
      negb (less (left r) (left x) || (negb (left_included r) && left_included x && equals (left r) (left x))) in
    let right_bound_use_mine :=
      negb (less (right x) (right r) || (negb (right_included x) && right_included r && equals (right x) (right r))) in
    Some (mkRange
      (if left_bound_use_mine then left r else left x) (if left_bound_use_mine then left_included r else left_included x)
      (if right_bound_use_mine then right r else right x) (if right_bound_use_mine then right_included r else right_included x)).

Definition nearByWith r x : bool :=
  if (right_included r && negb (left_included x) || negb (right_included r) && left_included x) && equals (right r) (left x) then true
  else if (right_included x && negb (left_included r) || right_included x && negb (left_included r)) && equals (right x) (left r) then true
  else false.

Definition unionWith r x : option (Range V) :=
  if negb (intersectsRange r x) && negb (nearByWith r x) then None
  else
    let left_bound_use_mine := less (left r) (left x) || (negb (left_included r) && left_included x && equals (left r) (left x)) in
    let right_bound_use_mine := less (right x) (right r) || (negb (right_included x) && right_included r && equals (right x) (right r)) in
    Some (mkRange
      (if left_bound_use_mine then left r else left x) (if left_bound_use_mine then left_included r else left_included x)
      (if right_bound_use_mine then right r else right x) (if right_bound_use_mine then right_included r else right_included x)).

(** The function [intersect(a, b)]. *)
Definition intersect r x : Range V :=
  let '(l, li) :=
    if less (left r) (left x) then (left x, left_included x)
    else if equals (left r) (left x) then (left r, left_included r && left_included x)
    else (left r, left_included r) in
  let '(ri, rii) :=
    if less (right r) (right x) then (right r, right_included r)
    else if equals (right r) (right x) then (right r, right_included r && right_included x)
    else (right x, right_included x) in
  let res := MakeRange l li ri rii in
  if empty res then MakeRange l false l false else res.

Fixpoint intersect_all (h k : list (Range V)) : list (Range V) :=
  match h, k with
  | r :: h, x :: k => intersect r x :: intersect_all h k
  | _, _ => []
  end.
End Operations.
