(* ===== verification/RangeFacts.v ===== *)
(** * Laws of ranges

    What the comparisons of a column's values must satisfy ([ExplicitLaws]),
    the values of integer and string columns as an instance, and the meaning of
    a range as a set of fields.  Comparisons among finitely many fields are
    those of integers ([ranked]), so the facts about ranges are decided by
    [lia]: the tactic [ranges]. *)

From stdpp Require Import prelude.
From Stdlib Require Import ZArith Lia ZifyBool.
From S2P Require Import Prelude Orders Range.

(** A strict weak order whose equivalence is [equals], with neighbours that
    have nothing in between.  Floating-point values, whose NaN equals nothing,
    are left out. *)
Class ExplicitLaws (V : Type) `{Explicit V} := {
  v_less_asym : forall v w, v_less v w = true -> v_less w v = false;
  v_less_split : forall u v w, v_less u w = true -> v_less u v = true \/ v_less v w = true;
  v_equals_spec : forall v w, v_equals v w = negb (v_less v w) && negb (v_less w v);
  v_same_equals : forall v w, v_same v w = true -> v_equals v w = true;
  v_increment_next : forall v w x, v_increment v = Some w -> v_less v x = negb (v_less x w);
  v_decrement_next : forall v w x, v_decrement v = Some w -> v_less x v = negb (v_less w x);
  v_no_NaN : forall v, v_isNaN v = false }.

(** ** Integer and string columns

    Two numbers are compared by value whatever their types.  A string is never
    compared with a number here: the values of a column and the constants they
    are compared with have been converted to one type; the order between them
    completes the definition. *)
Inductive Scalar := UInt64 (n : Z) | Int64 (n : Z) | String (s : list Z).

Definition number (v : Scalar) : option Z := match v with UInt64 n | Int64 n => Some n | String _ => None end.

#[export] Instance Scalar_explicit : Explicit Scalar := {|
  v_less v w := match v, w with
    | String s, String t => bool_decide (compare s t = Lt)
    | String _, _ => false
    | _, String _ => true
    | (UInt64 n | Int64 n), (UInt64 m | Int64 m) => n <? m
    end;
  v_equals v w := match v, w with
    | String s, String t => bool_decide (s = t)
    | String _, _ | _, String _ => false
    | (UInt64 n | Int64 n), (UInt64 m | Int64 m) => n =? m
    end;
  v_same v w := match v, w with
    | String s, String t => bool_decide (s = t)
    | UInt64 n, UInt64 m | Int64 n, Int64 m => n =? m
    | _, _ => false
    end;
  v_increment v := match v with
    | UInt64 n => if n =? 2 ^ 64 - 1 then None else Some (UInt64 (n + 1))
    | Int64 n => if n =? 2 ^ 63 - 1 then None else Some (Int64 (n + 1))
    | String _ => None
    end;
  v_decrement v := match v with
    | UInt64 n => if n =? 0 then None else Some (UInt64 (n - 1))
    | Int64 n => if n =? - 2 ^ 63 then None else Some (Int64 (n - 1))
    | String _ => None
    end;
  v_isNaN _ := false |}.

#[export] Instance Scalar_laws : ExplicitLaws Scalar.
Proof.
  split.
  - intros [n|n|s] [m|m|t]; cbn; try lia; try done. rewrite bool_decide_eq_true, bool_decide_eq_false.
    intros Hlt%compare_gt. congruence.
  - intros [n|n|s] [m|m|t] [k|k|u]; cbn; try lia; try tauto. rewrite !bool_decide_eq_true. intros Hlt.
    destruct (compare s t) eqn:E; [|by left|]; right.
    + apply compare_eq in E as ->. done.
    + apply compare_gt in E. by eapply compare_trans.
  - intros [n|n|s] [m|m|t]; cbn; try lia; try done. apply eq_bool_prop_intro. rewrite andb_True, !negb_True, !bool_decide_spec.
    split; [intros ->; rewrite compare_refl; split; congruence|]. intros [H1 H2]. apply compare_eq.
    destruct (compare s t) eqn:E; [done|done|]. apply compare_gt in E. done.
  - intros [n|n|s] [m|m|t]; cbn; try lia; done.
  - intros [n|n|s] w [m|m|t]; cbn; try done; case_match; try done; intros [= <-]; cbn; lia.
  - intros [n|n|s] w [m|m|t]; cbn; try done; case_match; try done; intros [= <-]; cbn; lia.
  - done.
Qed.

(** ** The order of fields *)
Section fields.
Context {V : Type} `{ExplicitLaws V}.
Implicit Types (a b c : Field V) (l : list (Field V)).

Lemma accurateLess_asym a b : accurateLess a b = true -> accurateLess b a = false.
Proof. destruct a, b; cbn; try done. apply v_less_asym. Qed.

Lemma accurateLess_irrefl a : accurateLess a a = false.
Proof. destruct (accurateLess a a) eqn:E; [|done]. by rewrite (accurateLess_asym a a E) in E. Qed.

Lemma accurateLess_split a b c : accurateLess a c = true -> accurateLess a b = true \/ accurateLess b c = true.
Proof. destruct a, b, c; cbn; try done; try tauto. apply v_less_split. Qed.

Lemma accurateEquals_spec a b : accurateEquals a b = negb (accurateLess a b) && negb (accurateLess b a).
Proof. destruct a, b; cbn; try done. apply v_equals_spec. Qed.

Lemma accurateEquals_sym a b : accurateEquals a b = accurateEquals b a.
Proof. rewrite !accurateEquals_spec. apply andb_comm. Qed.

Lemma accurateLess_trans a b c : accurateLess a b = true -> accurateLess b c = true -> accurateLess a c = true.
Proof.
  intros Hab Hbc. destruct (accurateLess_split a c b Hab) as [|Hcb]; [done|]. apply accurateLess_asym in Hbc. congruence.
Qed.

Lemma field_eq_equals a b : field_eq a b = true -> accurateEquals a b = true.
Proof. destruct a, b; cbn; try done. apply v_same_equals. Qed.

(** The rank of a field among others: how many of them are less. *)
Definition rank l a : Z := Z.of_nat (length (filter (fun b => accurateLess b a = true) l)).

Lemma rank_mono l a b : (forall c, accurateLess c a = true -> accurateLess c b = true) -> rank l a <= rank l b.
Proof.
  intros Hle. unfold rank. induction l as [|c l IH]; [done|]. rewrite !filter_cons.
  case_decide as Ha; [rewrite decide_True by auto; cbn; lia|]. case_decide; cbn; lia.
Qed.

Lemma rank_lt l a b : a ∈ l -> accurateLess a b = true -> rank l a < rank l b.
Proof.
  intros Ha Hab. apply list_elem_of_split in Ha as (l1 & l2 & ->). unfold rank.
  rewrite !filter_app, !filter_cons, !length_app, (decide_True _ _ Hab), decide_False by (by rewrite accurateLess_irrefl).
  assert (Hle : forall l, rank l a <= rank l b) by (intros l; apply rank_mono; intros c Hc; by eapply accurateLess_trans).
  pose proof (Hle l1). pose proof (Hle l2). unfold rank in *. cbn. lia.
Qed.

Lemma rank_less l a b : a ∈ l -> accurateLess a b = (rank l a <? rank l b).
Proof.
  intros Ha. destruct (accurateLess a b) eqn:E.
  - pose proof (rank_lt l a b Ha E). lia.
  - assert (rank l b <= rank l a); [|lia]. apply rank_mono. intros c Hc.
    destruct (accurateLess_split c a b Hc); [done|congruence].
Qed.

Lemma rank_equals l a b : a ∈ l -> b ∈ l -> accurateEquals a b = (rank l a =? rank l b).
Proof. intros Ha Hb. rewrite accurateEquals_spec, (rank_less l a b), (rank_less l b a) by done. lia. Qed.

(** Finitely many fields are ordered as integers are. *)
Lemma ranked l : exists rk : Field V -> Z, forall a b, a ∈ l -> b ∈ l ->
  accurateLess a b = (rk a <? rk b) /\ accurateEquals a b = (rk a =? rk b).
Proof. exists (rank l). intros a b Ha Hb. split; [by apply rank_less|by apply rank_equals]. Qed.
End fields.

(** [order l]: turns comparisons among the fields of [l] into comparisons of
    integers and leaves the rest to [lia]. *)
Ltac to_ranks Hrk :=
  repeat match goal with
  | |- context [accurateLess ?a ?b] => rewrite (proj1 (Hrk a b ltac:(rewrite !elem_of_cons; tauto) ltac:(rewrite !elem_of_cons; tauto)))
  | |- context [accurateEquals ?a ?b] => rewrite (proj2 (Hrk a b ltac:(rewrite !elem_of_cons; tauto) ltac:(rewrite !elem_of_cons; tauto)))
  end.

Ltac order l :=
  repeat match goal with
  | Hc : context [accurateLess _ _] |- _ => revert Hc
  | Hc : context [accurateEquals _ _] |- _ => revert Hc
  end;
  destruct (ranked l) as [?rk ?Hrk];
  match goal with Hrk : forall a b, a ∈ _ -> b ∈ _ -> _ |- _ => to_ranks Hrk; clear Hrk end;
  intros; lia.

(** ** The fields of a range *)
Definition member {V} `{Explicit V} (r : Range V) (a : Field V) : bool :=
  rightThan_field r (explicit a) && leftThan_field r (explicit a).

Section members.
Context {V : Type} `{ExplicitLaws V}.
Implicit Types (a b c : Field V) (f g : FieldRef V) (r x : Range V).

Lemma neighbour_increment f g a :
  neighbour v_increment f = Some g -> accurateLess (field f) a = negb (accurateLess a (field g)).
Proof.
  unfold neighbour. destruct (isExplicit f), (field f) as [| |v]; try done. destruct (v_increment v) as [w|] eqn:E; [|done].
  intros [= <-]. destruct a; cbn; [done|done|]. by apply v_increment_next.
Qed.

Lemma neighbour_decrement f g a :
  neighbour v_decrement f = Some g -> accurateLess a (field f) = negb (accurateLess (field g) a).
Proof.
  unfold neighbour. destruct (isExplicit f), (field f) as [| |v]; try done. destruct (v_decrement v) as [w|] eqn:E; [|done].
  intros [= <-]. destruct a; cbn; [done|done|]. by apply v_decrement_next.
Qed.

(** A half-open end is shrunk without changing the range. *)
Lemma shrink_member r a : member (shrinkToIncludedIfPossible r) a = member r a.
Proof.
  unfold shrinkToIncludedIfPossible.
  assert (Hr : forall r, member (if right_included r then r else match neighbour v_decrement (right r) with
    | Some f => MakeRange (left r) (left_included r) f true
    | None => r end) a = member r a).
  { clear r. intros r. destruct (right_included r) eqn:E; [done|]. destruct (neighbour v_decrement (right r)) as [f|] eqn:En; [|done].
    unfold member, leftThan_field, rightThan_field, less, equals. cbn. rewrite E. f_equal. rewrite (neighbour_decrement _ _ _ En).
    order [a; field f]. }
  rewrite Hr. clear Hr. destruct (left_included r) eqn:E; [done|]. destruct (neighbour v_increment (left r)) as [f|] eqn:En; [|done].
  unfold member, leftThan_field, rightThan_field, less, equals. cbn. rewrite E. f_equal. rewrite (neighbour_increment _ _ _ En).
  order [a; field f].
Qed.

Lemma member_mkRange f (li : bool) g (ri : bool) a : member (mkRange f li g ri) a = member (MakeRange f li g ri) a.
Proof. apply shrink_member. Qed.

Lemma member_point f a : member (point f) a = accurateEquals a (field f).
Proof. unfold member, rightThan_field, leftThan_field, less, equals. cbn. order [a; field f]. Qed.

Lemma member_universe (with_null : bool) a :
  member (universe with_null) a = with_null || negb (isNull a).
Proof. destruct with_null, a; done. Qed.

Lemma intersectsRange_complete r x a : member r a = true -> member x a = true -> intersectsRange r x = true.
Proof.
  unfold member, intersectsRange, rightThan_field, leftThan_field, less, equals. cbn. repeat case_match; try done;
  order [a; field (left r); field (right r); field (left x); field (right x)].
Qed.

Lemma containsRange_sound r x a : containsRange r x = true -> member x a = true -> member r a = true.
Proof.
  unfold member, containsRange, rightThan_field, leftThan_field, less, equals. cbn. repeat case_match; try done;
  order [a; field (left r); field (right r); field (left x); field (right x)].
Qed.

(** A range with both of its ends in it, as [shrinkToIncludedIfPossible] makes those of integers. *)
Definition closed r : Prop := left_included r = true /\ right_included r = true /\ less (right r) (left r) = false.

Lemma intersectsRange_exact r x : closed r -> closed x ->
  intersectsRange r x = true <-> exists a, member r a = true /\ member x a = true.
Proof.
  intros (Hr1 & Hr2 & Hr) (Hx1 & Hx2 & Hx). split; [|intros (a & Ha & Ha'); by eapply intersectsRange_complete].
  intros Hi. exists (if less (left r) (left x) then field (left x) else field (left r)). revert Hi.
  unfold member, intersectsRange, rightThan_field, leftThan_field, less, equals in *. rewrite Hr1, Hr2, Hx1, Hx2. cbn.
  destruct (accurateLess (field (left r)) (field (left x))) eqn:E; repeat case_match; try done; intros _; split;
  order [field (left r); field (right r); field (left x); field (right x)].
Qed.

Lemma closed_ends x : closed x -> member x (field (left x)) = true /\ member x (field (right x)) = true.
Proof.
  intros (Hx1 & Hx2 & Hx). unfold member, rightThan_field, leftThan_field, less, equals in *. rewrite Hx1, Hx2. cbn.
  split; order [field (left x); field (right x)].
Qed.

Lemma containsRange_ends r x : left_included x = true -> right_included x = true ->
  containsRange r x = rightThan_field r (left x) && leftThan_field r (right x).
Proof.
  intros Hl Hr. unfold containsRange, rightThan_field, leftThan_field. rewrite Hl, Hr.
  assert (less (left x) (left r) || true && negb (left_included r) && equals (left x) (left r) =
    negb (less (left r) (left x) || left_included r && equals (left x) (left r))) as ->.
  { unfold less, equals. destruct (left_included r); order [field (left r); field (left x)]. }
  assert (less (right r) (right x) || true && negb (right_included r) && equals (right x) (right r) =
    negb (less (right x) (right r) || right_included r && equals (right x) (right r))) as ->.
  { unfold less, equals. destruct (right_included r); order [field (right r); field (right x)]. }
  by destruct (_ || _), (_ || _).
Qed.

Lemma containsRange_exact r x : closed x ->
  containsRange r x = true <-> forall a, member x a = true -> member r a = true.
Proof.
  intros Hx. split; [intros Hc a; by apply containsRange_sound|]. intros Hall. destruct (closed_ends x Hx) as [Hl Hr].
  apply Hall, andb_true_iff in Hl as [Hl _]. apply Hall, andb_true_iff in Hr as [_ Hr]. destruct Hx as (Hx1 & Hx2 & _).
  rewrite containsRange_ends by done. apply andb_true_iff. by split.
Qed.

(** An upper end before a lower one. *)
Definition crossed (g : FieldRef V) (ri : bool) (l : FieldRef V) (li : bool) : bool :=
  less g l || (negb (li && ri) && equals g l).

Lemma empty_crossed r : empty r = crossed (right r) (right_included r) (left r) (left_included r).
Proof. unfold empty, crossed, less, equals. destruct (left_included r), (right_included r); cbn; order [field (left r); field (right r)]. Qed.

Lemma crossed_lower g (ri : bool) r x l (li : bool) :
  (if less (left r) (left x) then (left x, left_included x)
   else if equals (left r) (left x) then (left r, left_included r && left_included x) else (left r, left_included r)) = (l, li) ->
  crossed g ri l li = crossed g ri (left r) (left_included r) || crossed g ri (left x) (left_included x).
Proof.
  unfold crossed, less, equals. destruct ri, (left_included r), (left_included x); repeat case_match; intros [= <- <-]; cbn;
    order [field g; field (left r); field (left x)].
Qed.

Lemma crossed_upper l (li : bool) r x g (ri : bool) :
  (if less (right r) (right x) then (right r, right_included r)
   else if equals (right r) (right x) then (right r, right_included r && right_included x) else (right x, right_included x)) = (g, ri) ->
  crossed g ri l li = crossed (right r) (right_included r) l li || crossed (right x) (right_included x) l li.
Proof.
  unfold crossed, less, equals. destruct li, (right_included r), (right_included x); repeat case_match; intros [= <- <-]; cbn;
    order [field l; field (right r); field (right x)].
Qed.

(** Of any two ranges that are not empty, by their ends. *)
Lemma intersectsRange_intersect r x : empty r = false -> empty x = false -> intersectsRange r x = negb (empty (intersect r x)).
Proof.
  unfold intersect. destruct (if less (left r) (left x) then _ else _) as [l li] eqn:El.
  destruct (if less (right r) (right x) then _ else _) as [g ri] eqn:Er. intros Hr Hx.
  transitivity (negb (empty (MakeRange l li g ri))).
  - rewrite empty_crossed in *. cbn. rewrite (crossed_lower _ _ _ _ _ _ El), !(crossed_upper _ _ _ _ _ _ Er), Hr, Hx, orb_false_r. cbn.
    assert (intersectsRange r x = negb (crossed (right x) (right_included x) (left r) (left_included r))
      && negb (crossed (right r) (right_included r) (left x) (left_included x))) as ->.
    { unfold intersectsRange, crossed, equals, less. rewrite (accurateEquals_sym (field (left x))), !negb_andb, (orb_comm (negb (left_included x))).
      by destruct (_ || _), (_ || _). }
    by rewrite negb_orb.
  - destruct (empty (MakeRange l li g ri)) eqn:He; [|by rewrite He]. unfold empty, less. cbn. by rewrite accurateLess_irrefl.
Qed.

Lemma empty_sound r a : empty r = true -> member r a = false.
Proof.
  unfold member, empty, rightThan_field, leftThan_field, less, equals. cbn. order [a; field (left r); field (right r)].
Qed.

Lemma member_intersect r x a : member (intersect r x) a = member r a && member x a.
Proof.
  unfold intersect. destruct (if less (left r) (left x) then _ else _) as [l li] eqn:El.
  destruct (if less (right r) (right x) then _ else _) as [g ri] eqn:Er.
  assert (Hres : member (MakeRange l li g ri) a = member r a && member x a).
  { transitivity ((rightThan_field r (explicit a) && rightThan_field x (explicit a))
      && (leftThan_field r (explicit a) && leftThan_field x (explicit a))); [|unfold member; lia].
    unfold member, rightThan_field, leftThan_field, less, equals in *. cbn in *. f_equal.
    - clear Er. repeat case_match; simplify_eq; order [a; field (left r); field (left x)].
    - clear El. repeat case_match; simplify_eq; order [a; field (right r); field (right x)]. }
  rewrite <- Hres. destruct (empty (MakeRange l li g ri)) eqn:He; [|done]. rewrite (empty_sound _ a He).
  unfold member, rightThan_field, leftThan_field, less, equals. cbn. order [a; field l].
Qed.

(** ** Bounded ranges and complements *)
Lemma member_left_bounded f (inc with_null : bool) a :
  member (createLeftBounded f inc with_null) a =
  member (MakeRange f inc (explicit PositiveInfinity) (with_null || isPositiveInfinity (field f) && inc)) a.
Proof.
  unfold createLeftBounded. replace (right (universe with_null)) with (explicit (@PositiveInfinity V)) by by destruct with_null.
  replace (right_included (universe with_null)) with with_null by by destruct with_null.
  destruct inc; [|rewrite andb_false_r, andb_false_r, orb_false_r; apply shrink_member].
  rewrite !andb_true_r. unfold shrinkToIncludedIfPossible. cbn.
  destruct with_null; cbn; by destruct (isPositiveInfinity (field f)).
Qed.

Lemma member_right_bounded f (inc with_null : bool) a :
  member (createRightBounded f inc with_null) a =
  member (MakeRange (explicit NegativeInfinity) (with_null || isNegativeInfinity (field f) && inc) f inc) a.
Proof.
  unfold createRightBounded. replace (left (universe with_null)) with (explicit (@NegativeInfinity V)) by by destruct with_null.
  replace (left_included (universe with_null)) with with_null by by destruct with_null.
  destruct inc; [|rewrite andb_false_r, andb_false_r, orb_false_r; apply shrink_member].
  rewrite !andb_true_r. unfold shrinkToIncludedIfPossible. cbn.
  destruct with_null; cbn; by destruct (isNegativeInfinity (field f)).
Qed.

Lemma member_invertRange r a :
  isPositiveInfinity (field (left r)) = false -> isNegativeInfinity (field (right r)) = false -> isNull a = false ->
  existsb (fun x => member x a) (invertRange r) = negb (member r a).
Proof.
  intros Hl Hr Ha. unfold invertRange, fullBounded, isInfinite.
  assert (Hinf : accurateLess NegativeInfinity a = true /\ accurateLess a PositiveInfinity = true) by by destruct a.
  destruct (field (left r)) as [| |v] eqn:El, (field (right r)) as [| |w] eqn:Er; try done; cbn -[mkRange accurateLess accurateEquals];
    try (assert (accurateLess (field (left r)) a = true) by (rewrite El; tauto));
    try (assert (accurateLess a (field (right r)) = true) by (rewrite Er; tauto));
    rewrite ?member_mkRange; unfold member, rightThan_field, leftThan_field, less, equals; cbn -[accurateLess accurateEquals];
    clear El Er Hl Hr; order [a; @NegativeInfinity V; @PositiveInfinity V; field (left r); field (right r)].
Qed.
End members.
