(* ===== verification/KeyCondition.v ===== *)
(** * Conditions on the primary key

    [src/Storages/MergeTree/BoolMask.h], the part of [KeyCondition.h] and
    [KeyCondition.cpp] that evaluates a condition in reverse Polish notation on
    ranges of keys, and [MergeTreeSetIndex] of [src/Interpreters/Set.h] and
    [Set.cpp].  Functions of the key are an interface, [Function]; those that
    throw do so by an outcome, those that return NULL for a value are left out.
    Space-filling curves, polygons and bloom filters are left out, as is the
    cache of function results inside a block. *)

From stdpp Require Import prelude strings sorting.
From Stdlib Require Import ZArith Lia.
From S2P Require Import Prelude Range.

(** ** Masks *)
Record BoolMask := Mask { can_be_true : bool; can_be_false : bool }.

Module BoolMask.
Definition and (a m : BoolMask) : BoolMask := Mask (can_be_true a && can_be_true m) (can_be_false a || can_be_false m).
Definition or (a m : BoolMask) : BoolMask := Mask (can_be_true a || can_be_true m) (can_be_false a && can_be_false m).
Definition not (a : BoolMask) : BoolMask := Mask (can_be_false a) (can_be_true a).
Definition isComplete (a : BoolMask) : bool := can_be_true a && can_be_false a.
Definition combine (a m : BoolMask) : BoolMask := Mask (can_be_true a || can_be_true m) (can_be_false a || can_be_false m).
Definition consider_only_can_be_true : BoolMask := Mask false true.
Definition consider_only_can_be_false : BoolMask := Mask true false.
End BoolMask.

(** ** Types and functions *)
Inductive TypeIndex := TUInt8 | TUInt16 | TUInt32 | TUInt64 | TInt8 | TInt16 | TInt32 | TInt64 | TOther.

Record DataType := MakeType {
  getTypeId : TypeIndex;
  isNullable : bool;
  isLowCardinalityNullable : bool }.

Definition isNullableOrLowCardinalityNullable (t : DataType) : bool := isNullable t || isLowCardinalityNullable t.

Definition is_unsigned_int (t : TypeIndex) : bool := match t with TUInt8 | TUInt16 | TUInt32 | TUInt64 => true | _ => false end.
Definition is_signed_int (t : TypeIndex) : bool := match t with TInt8 | TInt16 | TInt32 | TInt64 => true | _ => false end.

(** Only asked of integer types. *)
Definition getSizeOfValueInMemory (t : TypeIndex) : Z :=
  match t with TUInt8 | TInt8 => 1 | TUInt16 | TInt16 => 2 | TUInt32 | TInt32 => 4 | TUInt64 | TInt64 | TOther => 8 end.

Record Monotonicity := MakeMonotonicity {
  is_monotonic : bool;
  is_positive : bool;
  is_always_monotonic : bool;
  is_strict : bool }.

(** A function of one argument: [getMonotonicityForAll] is what
    [getMonotonicityForRange] tells of the unlimited range, [NULL] to [NULL];
    [execute] its value on one field that is not NULL. *)
Record Function (V : Type) := MakeFunction {
  getName : string;
  getResultType : DataType;
  hasInformationAboutMonotonicity : bool;
  getArgumentTypeOfMonotonicFunction : option DataType;
  getMonotonicityForAll : DataType -> Monotonicity;
  getMonotonicityForRange : DataType -> Field V -> Field V -> Monotonicity;
  execute : DataType -> V -> outcome V }.
Arguments MakeFunction {V}.
Arguments getName {V}.
Arguments getResultType {V}.
Arguments hasInformationAboutMonotonicity {V}.
Arguments getArgumentTypeOfMonotonicFunction {V}.
Arguments getMonotonicityForAll {V}.
Arguments getMonotonicityForRange {V}.
Arguments execute {V}.

Abbreviation MonotonicFunctionsChain V := (list (Function V)).

Definition cast_names : list string :=
  ["_CAST"; "CAST"; "toUInt8"; "toUInt16"; "toUInt32"; "toUInt64"; "toInt8"; "toInt16"; "toInt32"; "toInt64"].

Definition functionIsIntegerCastPreservingFieldRepresentation {V} (func : Function V) (from_type to_type : DataType) : bool :=
  if negb (bool_decide (getName func ∈ cast_names)) then false
  else if isNullable from_type || isNullable to_type then false
  else
    let from_id := getTypeId from_type in
    let to_id := getTypeId to_type in
    if negb (is_unsigned_int from_id && is_unsigned_int to_id || is_signed_int from_id && is_signed_int to_id) then false
    else getSizeOfValueInMemory from_id <=? getSizeOfValueInMemory to_id.

Section chains.
Context {V : Type} `{!Explicit V}.
Implicit Types (r : Range V) (func : Function V).

(** [applyFunction], on a field or on a reference into a block; NULL is not passed. *)
Definition applyFunction func (current_type : DataType) (f : FieldRef V) : outcome (FieldRef V) :=
  match field f with
  | Value v => w ← execute func current_type v; Ok (Ref (Value w) (isExplicit f))
  | _ => Ok f
  end.

(** The ends of a range under one function of the chain. *)
Definition apply_left func (current_type : DataType) (skip_apply : bool) r : outcome (Range V) :=
  if isNull (field (left r)) then Ok r
  else
    l ← if skip_apply then Ok (left r) else applyFunction func current_type (left r);
    Ok (MakeRange l true (right r) (right_included r)).

Definition apply_right func (current_type : DataType) (skip_apply : bool) r : outcome (Range V) :=
  if isNull (field (right r)) then Ok r
  else
    g ← if skip_apply then Ok (right r) else applyFunction func current_type (right r);
    Ok (MakeRange (left r) (left_included r) g true).

Fixpoint applyMonotonicFunctionsChainToRange (key_range : Range V) (functions : MonotonicFunctionsChain V)
    (current_type : DataType) (single_point : bool) : outcome (option (Range V)) :=
  match functions with
  | [] => Ok (Some key_range)
  | func :: functions =>
    let monotonicity :=
      if single_point then MakeMonotonicity true true false false
      else getMonotonicityForRange func current_type (field (left key_range)) (field (right key_range)) in
    if negb (is_monotonic monotonicity) then Ok None
    else
      let result_type := getResultType func in
      let skip_apply := functionIsIntegerCastPreservingFieldRepresentation func current_type result_type in
      key_range ← apply_left func current_type skip_apply key_range;
      key_range ← apply_right func current_type skip_apply key_range;
      let key_range := if negb (is_positive monotonicity) then invert key_range else key_range in
      applyMonotonicFunctionsChainToRange key_range functions result_type single_point
  end.
End chains.

(** ** Sets of tuples

    A column of the set is the list of its fields, NULL as [PositiveInfinity]. *)
Module MergeTreeSetIndex.

Record KeyTuplePositionMapping (V : Type) := MakeMapping {
  tuple_index : nat;
  key_index : nat;
  functions : MonotonicFunctionsChain V }.
Arguments MakeMapping {V}.
Arguments tuple_index {V}.
Arguments key_index {V}.
Arguments functions {V}.

Record t (V : Type) := Make {
  has_all_keys : bool;
  ordered_set : list (list (Field V));
  indexes_mapping : list (KeyTuplePositionMapping V) }.
Arguments Make {V}.
Arguments has_all_keys {V}.
Arguments ordered_set {V}.
Arguments indexes_mapping {V}.

Section operations.
Context {V : Type} `{!Explicit V}.
Implicit Types (s : t V) (a b : Field V).

(** [std::tie(l.key_index, l.tuple_index) < std::tie(r.key_index, r.tuple_index)], not above. *)
Definition mapping_le (l r : KeyTuplePositionMapping V) : Prop :=
  (key_index l < key_index r \/ key_index l = key_index r /\ tuple_index l <= tuple_index r)%nat.

#[global] Instance mapping_le_dec : RelDecision mapping_le.
Proof. intros l r. unfold mapping_le. apply _. Defined.

(** [std::unique] by [key_index]: the first of consecutive equal elements stays. *)
Fixpoint unique (l : list (KeyTuplePositionMapping V)) : list (KeyTuplePositionMapping V) :=
  match l with
  | a :: (b :: _) as l' =>
    match unique l' with
    | c :: u => if bool_decide (key_index a = key_index c) then a :: u else a :: c :: u
    | [] => [a]
    end
  | _ => l
  end.

(** [compareAt] of two fields of columns, NULL last. *)
Definition compareAt a b : comparison :=
  if accurateLess a b then Lt else if accurateEquals a b then Eq else Gt.

Fixpoint compare_tuples (l k : list (Field V)) : comparison :=
  match l, k with
  | a :: l, b :: k => match compareAt a b with Eq => compare_tuples l k | c => c end
  | [], [] => Eq
  | [], _ :: _ => Lt
  | _ :: _, [] => Gt
  end.

Definition tuple_le (l k : list (Field V)) : Prop := compare_tuples l k <> Gt.

#[global] Instance set_tuple_le_dec : RelDecision tuple_le.
Proof. intros l k. unfold tuple_le. apply _. Defined.

(** The tuple at a row of columns, and columns of given tuples. *)
Definition tuple_at (columns : list (list (Field V))) (row : nat) : list (Field V) :=
  map (fun column => default PositiveInfinity (column !! row)) columns.
Definition column_of (tuples : list (list (Field V))) (i : nat) : list (Field V) :=
  map (fun tuple => default PositiveInfinity (tuple !! i)) tuples.

(** [sortBlock]: the rows sorted by their columns from left to right. *)
Definition sortBlock (columns : list (list (Field V))) : list (list (Field V)) :=
  let rows := merge_sort tuple_le (map (tuple_at columns) (seq 0 (length (default [] (head columns))))) in
  map (column_of rows) (seq 0 (length columns)).

Fixpoint pick_columns (set_elements : list (list (Field V))) (mapping : list (KeyTuplePositionMapping V)) : outcome (list (list (Field V))) :=
  match mapping with
  | [] => Ok []
  | m :: mapping =>
    match set_elements !! tuple_index m with
    | Some column => rest ← pick_columns set_elements mapping; Ok (column :: rest)
    | None => Undef
    end
  end.

Definition make (set_elements : list (list (Field V))) (indexes_mapping_ : list (KeyTuplePositionMapping V)) : outcome (t V) :=
  let mapping := unique (merge_sort mapping_le indexes_mapping_) in
  ordered ← pick_columns set_elements mapping;
  Ok (Make (bool_decide (length set_elements = length indexes_mapping_)) (sortBlock ordered) mapping).

Definition hasMonotonicFunctionsChain s : bool :=
  existsb (fun m => match functions m with [] => false | _ => true end) (indexes_mapping s).

(** [size()], which needs a column. *)
Definition size s : outcome nat :=
  match ordered_set s with column :: _ => Ok (length column) | [] => Throw STD_EXCEPTION end.

(** [std::partition_point] on the rows from [first], [len] of them. *)
Fixpoint partition_loop (fuel first len : nat) (p : nat -> bool) : nat :=
  match fuel with
  | O => first
  | S fuel =>
    if (len =? 0)%nat then first
    else
      let half := (len / 2)%nat in
      if p (first + half)%nat then partition_loop fuel (first + half + 1)%nat (len - half - 1)%nat p
      else partition_loop fuel first half p
  end.

Definition partition_point (len : nat) (p : nat -> bool) : nat := partition_loop (S len) 0 len p.

(** A field of the set against an end of a range. *)
Definition compare a (rhs : Field V) : comparison :=
  match rhs with
  | NegativeInfinity => Gt
  | PositiveInfinity => if isNull a then Eq else Lt
  | Value _ => compareAt a rhs
  end.

Fixpoint below (tuple : list (Field V)) (ranges : list (Range V)) : bool :=
  match tuple, ranges with
  | a :: tuple, r :: ranges =>
    match compare a (field (left r)) with
    | Gt => false
    | Lt => true
    | Eq => if negb (left_included r) then true else below tuple ranges
    end
  | _, _ => false
  end.

Fixpoint not_above (tuple : list (Field V)) (ranges : list (Range V)) : bool :=
  match tuple, ranges with
  | a :: tuple, r :: ranges =>
    match compare a (field (right r)) with
    | Gt => false
    | Lt => true
    | Eq => if negb (right_included r) then false else not_above tuple ranges
    end
  | _, _ => true
  end.

(** The ranges of the tuple, or nothing when one is not known. *)
Fixpoint tuple_ranges (key_ranges : list (Range V)) (data_types : list DataType) (single_point : bool)
    (mapping : list (KeyTuplePositionMapping V)) : outcome (option (list (Range V))) :=
  match mapping with
  | [] => Ok (Some [])
  | m :: mapping =>
    match key_ranges !! key_index m with
    | None => Ok None
    | Some key_range =>
      match data_types !! key_index m with
      | None => Undef
      | Some type =>
        new_range ← applyMonotonicFunctionsChainToRange key_range (functions m) type single_point;
        match new_range with
        | None => Ok None
        | Some r => rest ← tuple_ranges key_ranges data_types single_point mapping; Ok (option_map (cons r) rest)
        end
      end
    end
  end.

Definition one_element (r : Range V) : bool :=
  match field (left r), field (right r) with
  | Value v, Value w => match compareAt (Value v) (Value w) with Eq => true | _ => false end
  | PositiveInfinity, PositiveInfinity | NegativeInfinity, NegativeInfinity => true
  | _, _ => false
  end.

(** As built with [NDEBUG]: crossed bounds give no information. *)
Definition checkInRange s (key_ranges : list (Range V)) (data_types : list DataType) (single_point : bool) : outcome BoolMask :=
  ranges ← tuple_ranges key_ranges data_types single_point (indexes_mapping s);
  match ranges with
  | None => Ok (Mask true true)
  | Some ranges =>
    n ← size s;
    let begin := partition_point n (fun row => below (tuple_at (ordered_set s) row) ranges) in
    let end_ := partition_point n (fun row => not_above (tuple_at (ordered_set s) row) ranges) in
    if (end_ <? begin)%nat then Ok (Mask true true)
    else
      let can_be_true := (begin <? end_)%nat in
      if forallb one_element ranges && has_all_keys s then Ok (Mask can_be_true (negb can_be_true))
      else Ok (Mask can_be_true true)
  end.
End operations.
End MergeTreeSetIndex.

(** ** The condition *)
Module KeyCondition.

Inductive function_kind :=
| FUNCTION_IN_RANGE
| FUNCTION_NOT_IN_RANGE
| FUNCTION_IN_SET
| FUNCTION_NOT_IN_SET
| FUNCTION_IS_NULL
| FUNCTION_IS_NOT_NULL
| FUNCTION_UNKNOWN
| FUNCTION_NOT
| FUNCTION_AND
| FUNCTION_OR
| ALWAYS_FALSE
| ALWAYS_TRUE.

#[global] Instance function_kind_eq_dec : EqDecision function_kind.
Proof. solve_decision. Defined.

Record RPNElement (V : Type) := MakeElement {
  function : function_kind;
  relaxed : bool;
  range : Range V;
  key_columns : list nat;
  argument_num_of_space_filling_curve : option nat;
  set_index : option (MergeTreeSetIndex.t V);
  monotonic_functions_chain : MonotonicFunctionsChain V }.
Arguments MakeElement {V}.
Arguments function {V}.
Arguments relaxed {V}.
Arguments range {V}.
Arguments key_columns {V}.
Arguments argument_num_of_space_filling_curve {V}.
Arguments set_index {V}.
Arguments monotonic_functions_chain {V}.

Record t (V : Type) := Make {
  rpn : list (RPNElement V);
  num_key_columns : nat;
  single_point : bool;
  isRelaxed : bool }.
Arguments Make {V}.
Arguments rpn {V}.
Arguments num_key_columns {V}.
Arguments single_point {V}.
Arguments isRelaxed {V}.

Section operations.
Context {V : Type} `{!Explicit V}.
Implicit Types (e : RPNElement V) (h : list (Range V)) (types : list DataType).

Definition getKeyColumn e : outcome nat :=
  match key_columns e with c :: _ => Ok c | [] => Throw STD_EXCEPTION end.

(** The entries of [atom_map] for comparisons, sets and NULL. *)
Definition with_range (k : function_kind) (r : Range V) e : RPNElement V :=
  MakeElement k (relaxed e) r (key_columns e) (argument_num_of_space_filling_curve e) (set_index e) (monotonic_functions_chain e).

Definition atom_map (name : string) : option (RPNElement V -> Field V -> RPNElement V) :=
  if bool_decide (name = "notEquals") then Some (fun out value => with_range FUNCTION_NOT_IN_RANGE (point (explicit value)) out)
  else if bool_decide (name = "equals") then Some (fun out value => with_range FUNCTION_IN_RANGE (point (explicit value)) out)
  else if bool_decide (name = "less") then Some (fun out value => with_range FUNCTION_IN_RANGE (createRightBounded (explicit value) false false) out)
  else if bool_decide (name = "greater") then Some (fun out value => with_range FUNCTION_IN_RANGE (createLeftBounded (explicit value) false false) out)
  else if bool_decide (name = "lessOrEquals") then Some (fun out value => with_range FUNCTION_IN_RANGE (createRightBounded (explicit value) true false) out)
  else if bool_decide (name = "greaterOrEquals") then Some (fun out value => with_range FUNCTION_IN_RANGE (createLeftBounded (explicit value) true false) out)
  else if bool_decide (name ∈ ["in"; "globalIn"; "has"; "nullIn"; "globalNullIn"]) then Some (fun out _ => with_range FUNCTION_IN_SET (range out) out)
  else if bool_decide (name ∈ ["notIn"; "globalNotIn"; "notNullIn"; "globalNotNullIn"]) then Some (fun out _ => with_range FUNCTION_NOT_IN_SET (range out) out)
  else if bool_decide (name = "isNotNull") then Some (fun out _ => with_range FUNCTION_IS_NOT_NULL createWholeUniverseWithoutNull out)
  else if bool_decide (name = "isNull") then Some (fun out _ => with_range FUNCTION_IS_NULL createWholeUniverseWithoutNull out)
  else None.

(** The last steps common to the atoms: a relaxed atom can always be false; negated atoms turn the mask around. *)
Definition relax_and_negate (e : RPNElement V) (negated : bool) (m : BoolMask) : BoolMask :=
  let m := if relaxed e then Mask (can_be_true m) true else m in
  if negated then BoolMask.not m else m.

(** [FUNCTION_IN_RANGE] and [FUNCTION_NOT_IN_RANGE]. *)
Definition range_mask (kc : t V) h types e : outcome BoolMask :=
  key_column ← getKeyColumn e;
  match h !! key_column with
  | None => Ok (Mask true true)
  | Some key_range =>
    new_range ← match monotonic_functions_chain e with
      | [] => Ok (Some key_range)
      | chain => match types !! key_column with
        | Some type => applyMonotonicFunctionsChainToRange key_range chain type (single_point kc)
        | None => Undef
        end
      end;
    match new_range with
    | None => Ok (Mask true true)
    | Some key_range =>
      let intersects := intersectsRange (range e) key_range in
      let contains := containsRange (range e) key_range in
      let '(intersects, contains) :=
        if isNaN (field (left key_range)) then (false, false)
        else if isNaN (field (right key_range)) then (intersects, false)
        else (intersects, contains) in
      Ok (relax_and_negate e (bool_decide (function e = FUNCTION_NOT_IN_RANGE)) (Mask intersects (negb contains)))
    end
  end.

(** [FUNCTION_IS_NULL] and [FUNCTION_IS_NOT_NULL]. *)
Definition null_mask h e : outcome BoolMask :=
  key_column ← getKeyColumn e;
  match h !! key_column with
  | None => Ok (Mask true true)
  | Some key_range =>
    let intersects := intersectsRange (range e) key_range in
    let contains := containsRange (range e) key_range in
    Ok (relax_and_negate e (bool_decide (function e = FUNCTION_IS_NULL)) (Mask intersects (negb contains)))
  end.

(** [FUNCTION_IN_SET] and [FUNCTION_NOT_IN_SET]. *)
Definition set_mask (kc : t V) h types e : outcome BoolMask :=
  match set_index e with
  | None => Throw LOGICAL_ERROR
  | Some s =>
    m ← MergeTreeSetIndex.checkInRange s h types (single_point kc);
    Ok (relax_and_negate e (bool_decide (function e = FUNCTION_NOT_IN_SET)) m)
  end.

(** One element on the stack of masks, whose top comes first.  The operators
    read the top without looking whether there is one. *)
Definition mask_step (kc : t V) h types (rpn_stack : list BoolMask) e : outcome (list BoolMask) :=
  match argument_num_of_space_filling_curve e with
  | Some _ => Ok (Mask true true :: rpn_stack)
  | None =>
    match function e with
    | FUNCTION_UNKNOWN => Ok (Mask true true :: rpn_stack)
    | FUNCTION_IN_RANGE | FUNCTION_NOT_IN_RANGE => m ← range_mask kc h types e; Ok (m :: rpn_stack)
    | FUNCTION_IS_NULL | FUNCTION_IS_NOT_NULL => m ← null_mask h e; Ok (m :: rpn_stack)
    | FUNCTION_IN_SET | FUNCTION_NOT_IN_SET => m ← set_mask kc h types e; Ok (m :: rpn_stack)
    | FUNCTION_NOT => match rpn_stack with a :: s => Ok (BoolMask.not a :: s) | _ => Undef end
    | FUNCTION_AND => match rpn_stack with a :: b :: s => Ok (BoolMask.and a b :: s) | _ => Undef end
    | FUNCTION_OR => match rpn_stack with a :: b :: s => Ok (BoolMask.or a b :: s) | _ => Undef end
    | ALWAYS_FALSE => Ok (Mask false true :: rpn_stack)
    | ALWAYS_TRUE => Ok (Mask true false :: rpn_stack)
    end
  end.

Fixpoint mask_loop (kc : t V) h types (rpn_stack : list BoolMask) (elements : list (RPNElement V)) : outcome (list BoolMask) :=
  match elements with
  | [] => Ok rpn_stack
  | e :: elements => rpn_stack ← mask_step kc h types rpn_stack e; mask_loop kc h types rpn_stack elements
  end.

Definition checkInHyperrectangle (kc : t V) h types : outcome BoolMask :=
  rpn_stack ← mask_loop kc h types [] (rpn kc);
  match rpn_stack with [m] => Ok m | _ => Throw LOGICAL_ERROR end.

(** *** Ranges of keys

    The range of keys from [left_keys] to [right_keys] is a union of
    hyperrectangles; [callback] runs on each.  The hyperrectangle is one vector
    that the calls change in place, so it is passed along. *)

Definition nullable_at types (i : nat) : outcome bool :=
  match types !! i with Some type => Ok (isNullableOrLowCardinalityNullable type) | None => Undef end.

Definition key_at (keys : list (FieldRef V)) (i : nat) : outcome (FieldRef V) :=
  match keys !! i with Some f => Ok f | None => Undef end.

(** The loop over the matching elements of the key, at most [n] of them. *)
Fixpoint matching_prefix (n : nat) (left_keys right_keys : list (FieldRef V)) h (prefix_size : nat) : outcome (list (Range V) * nat) :=
  match n with
  | O => Ok (h, prefix_size)
  | S n =>
    l ← key_at left_keys prefix_size;
    r ← key_at right_keys prefix_size;
    if field_eq (field l) (field r) then matching_prefix n left_keys right_keys (<[prefix_size := point l]> h) (S prefix_size)
    else Ok (h, prefix_size)
  end.

(** The range of the first element that differs, with its ends or without. *)
Definition bounded_range (left_keys right_keys : list (FieldRef V)) (left_bounded right_bounded included : bool) types (i : nat) : outcome (Range V) :=
  if left_bounded && right_bounded then
    l ← key_at left_keys i; r ← key_at right_keys i; Ok (mkRange l included r included)
  else if left_bounded then
    l ← key_at left_keys i; with_null ← nullable_at types i; Ok (createLeftBounded l included with_null)
  else
    r ← key_at right_keys i; with_null ← nullable_at types i; Ok (createRightBounded r included with_null).

(** The elements from [i] on, [n] of them, become unlimited. *)
Fixpoint unlimited_from (n i : nat) types h : outcome (list (Range V)) :=
  match n with
  | O => Ok h
  | S n => with_null ← nullable_at types i; unlimited_from n (S i) types (<[i := universe with_null]> h)
  end.

Fixpoint forAnyHyperrectangle (fuel : nat) (key_size : nat) (left_keys right_keys : list (FieldRef V)) (left_bounded right_bounded : bool)
    h types (prefix_size : nat) (initial_mask : BoolMask) (callback : list (Range V) -> outcome BoolMask)
    : outcome (BoolMask * list (Range V)) :=
  match fuel with
  | O => Undef
  | S fuel =>
    if negb left_bounded && negb right_bounded then m ← callback h; Ok (m, h)
    else
      '(h, prefix_size) ← if left_bounded && right_bounded
        then matching_prefix (key_size - prefix_size) left_keys right_keys h prefix_size else Ok (h, prefix_size);
      if (prefix_size =? key_size)%nat then m ← callback h; Ok (m, h)
      else if (prefix_size + 1 =? key_size)%nat then
        r ← bounded_range left_keys right_keys left_bounded right_bounded true types prefix_size;
        let h := <[prefix_size := r]> h in
        m ← callback h; Ok (m, h)
      else
        r ← bounded_range left_keys right_keys left_bounded right_bounded false types prefix_size;
        h ← unlimited_from (key_size - (prefix_size + 1)) (prefix_size + 1) types (<[prefix_size := r]> h);
        m ← callback h;
        let result := BoolMask.combine initial_mask m in
        if BoolMask.isComplete result then Ok (result, h)
        else
          '(result, h) ← if left_bounded then
              l ← key_at left_keys prefix_size;
              '(m, h) ← forAnyHyperrectangle fuel key_size left_keys right_keys true false (<[prefix_size := point l]> h) types
                (prefix_size + 1) initial_mask callback;
              Ok (BoolMask.combine result m, h)
            else Ok (result, h);
          if left_bounded && BoolMask.isComplete result then Ok (result, h)
          else if right_bounded then
            r ← key_at right_keys prefix_size;
            '(m, h) ← forAnyHyperrectangle fuel key_size left_keys right_keys false true (<[prefix_size := point r]> h) types
              (prefix_size + 1) initial_mask callback;
            Ok (BoolMask.combine result m, h)
          else Ok (result, h)
  end.

Definition checkInRange (kc : t V) (used_key_size : nat) (left_keys right_keys : list (FieldRef V)) types (initial_mask : BoolMask) : outcome BoolMask :=
  key_ranges ← mapM (fun i => with_null ← nullable_at types i; Ok (universe with_null)) (seq 0 used_key_size);
  '(m, _) ← forAnyHyperrectangle (S used_key_size) used_key_size left_keys right_keys true true key_ranges types 0 initial_mask
    (fun h => checkInHyperrectangle kc h types);
  Ok m.

Definition mayBeTrueInRange (kc : t V) (used_key_size : nat) (left_keys right_keys : list (FieldRef V)) types : outcome bool :=
  m ← checkInRange kc used_key_size left_keys right_keys types BoolMask.consider_only_can_be_true;
  Ok (can_be_true m).

Definition hasMonotonicFunctionsChain (kc : t V) : bool :=
  existsb (fun e => match monotonic_functions_chain e with [] => false | _ => true end
    || match set_index e with Some s => MergeTreeSetIndex.hasMonotonicFunctionsChain s | None => false end) (rpn kc).

(** *** What is known without looking at keys *)

(** [None]: an element that ends the evaluation at once. *)
Fixpoint unknown_loop (unknown_any : bool) (rpn_stack : list bool) (elements : list (RPNElement V)) : outcome (option (list bool)) :=
  match elements with
  | [] => Ok (Some rpn_stack)
  | e :: elements =>
    match function e with
    | FUNCTION_UNKNOWN => if unknown_any then Ok None else unknown_loop unknown_any (true :: rpn_stack) elements
    | ALWAYS_TRUE => unknown_loop unknown_any (true :: rpn_stack) elements
    | FUNCTION_NOT_IN_RANGE | FUNCTION_IN_RANGE | FUNCTION_IN_SET | FUNCTION_NOT_IN_SET | FUNCTION_IS_NULL | FUNCTION_IS_NOT_NULL
    | ALWAYS_FALSE => unknown_loop unknown_any (false :: rpn_stack) elements
    | FUNCTION_NOT => unknown_loop unknown_any rpn_stack elements
    | FUNCTION_AND => match rpn_stack with a :: b :: s => unknown_loop unknown_any ((a && b) :: s) elements | _ => Undef end
    | FUNCTION_OR => match rpn_stack with a :: b :: s => unknown_loop unknown_any ((a || b) :: s) elements | _ => Undef end
    end
  end.

Definition unknownOrAlwaysTrue (kc : t V) (unknown_any : bool) : outcome bool :=
  rpn_stack ← unknown_loop unknown_any [] (rpn kc);
  match rpn_stack with None => Ok true | Some [b] => Ok b | Some _ => Throw LOGICAL_ERROR end.

Definition alwaysUnknownOrTrue (kc : t V) : outcome bool := unknownOrAlwaysTrue kc false.
Definition anyUnknownOrAlwaysTrue (kc : t V) : outcome bool := unknownOrAlwaysTrue kc true.

(** 0: always false, 1: always true, 2: not constant. *)
Inductive constancy := always_false | always_true | non_const.

Definition constancy_not (a : constancy) : constancy :=
  match a with always_false => always_true | always_true => always_false | non_const => non_const end.
Definition constancy_and (a b : constancy) : constancy :=
  match a, b with
  | always_false, _ | _, always_false => always_false
  | always_true, always_true => always_true
  | _, _ => non_const
  end.
Definition constancy_or (a b : constancy) : constancy :=
  match a, b with
  | always_true, _ | _, always_true => always_true
  | always_false, always_false => always_false
  | _, _ => non_const
  end.

Fixpoint constancy_loop (rpn_stack : list constancy) (elements : list (RPNElement V)) : outcome (list constancy) :=
  match elements with
  | [] => Ok rpn_stack
  | e :: elements =>
    match function e with
    | ALWAYS_TRUE => constancy_loop (always_true :: rpn_stack) elements
    | ALWAYS_FALSE => constancy_loop (always_false :: rpn_stack) elements
    | FUNCTION_NOT => match rpn_stack with a :: s => constancy_loop (constancy_not a :: s) elements | _ => Undef end
    | FUNCTION_AND => match rpn_stack with a :: b :: s => constancy_loop (constancy_and a b :: s) elements | _ => Undef end
    | FUNCTION_OR => match rpn_stack with a :: b :: s => constancy_loop (constancy_or a b :: s) elements | _ => Undef end
    | _ => constancy_loop (non_const :: rpn_stack) elements
    end
  end.

Definition alwaysFalse (kc : t V) : outcome bool :=
  rpn_stack ← constancy_loop [] (rpn kc);
  match rpn_stack with
  | [always_false] => Ok true
  | [_] => Ok false
  | _ => Throw LOGICAL_ERROR
  end.

(** *** One continuous range of the key *)

(** [check_monotonicity_of_chain]: whether all functions are always monotonic, and all strict. *)
Fixpoint chain_monotonicity (all_always_monotonic all_strict : bool) (chain : MonotonicFunctionsChain V) : bool * bool :=
  match chain with
  | [] => (all_always_monotonic, all_strict)
  | func :: chain =>
    if negb (hasInformationAboutMonotonicity func) then (false, false)
    else match getArgumentTypeOfMonotonicFunction func with
    | None => (false, false)
    | Some arg_type =>
      let m := getMonotonicityForAll func arg_type in
      let all_always_monotonic := all_always_monotonic && is_always_monotonic m in
      let all_strict := all_strict && is_strict m in
      if negb all_always_monotonic && negb all_strict then (all_always_monotonic, all_strict)
      else chain_monotonicity all_always_monotonic all_strict chain
    end
  end.

Inductive Constraint := POINT | RANGE | UNKNOWN.

Definition constraint_rank (c : Constraint) : Z := match c with POINT => 0 | RANGE => 1 | UNKNOWN => 2 end.

(** [column_constraints.at(i) = f(column_constraints.at(i))]. *)
Definition constrain (constraints : list Constraint) (i : nat) (f : Constraint -> Constraint) : outcome (list Constraint) :=
  match constraints !! i with Some c => Ok (<[i := f c]> constraints) | None => Throw STD_EXCEPTION end.

Definition constrain_set (is_chain_strict : bool) (c : Constraint) : Constraint :=
  if is_chain_strict then POINT else match c with POINT => POINT | _ => RANGE end.

(** [None]: the condition is not one continuous range. *)
Fixpoint set_constraints (constraints : list Constraint) (mapping : list (MergeTreeSetIndex.KeyTuplePositionMapping V))
    : outcome (option (list Constraint)) :=
  match mapping with
  | [] => Ok (Some constraints)
  | m :: mapping =>
    let '(is_chain_always_monotonic, is_chain_strict) := chain_monotonicity true true (MergeTreeSetIndex.functions m) in
    if negb is_chain_always_monotonic then Ok None
    else
      constraints ← constrain constraints (MergeTreeSetIndex.key_index m) (constrain_set is_chain_strict);
      set_constraints constraints mapping
  end.

Definition range_constraints (constraints : list Constraint) e : outcome (option (list Constraint)) :=
  let '(is_chain_always_monotonic, is_chain_strict) := chain_monotonicity true true (monotonic_functions_chain e) in
  if negb is_chain_always_monotonic then Ok None
  else
    key_column ← getKeyColumn e;
    constraints ← constrain constraints key_column
      (constrain_set (field_eq (field (left (range e))) (field (right (range e))) && is_chain_strict));
    Ok (Some constraints).

(** Whether the element is a set of one tuple. *)
Definition one_tuple_set e : outcome (option (MergeTreeSetIndex.t V)) :=
  match function e, set_index e with
  | FUNCTION_IN_SET, Some s => n ← MergeTreeSetIndex.size s; Ok (if (n =? 1)%nat then Some s else None)
  | _, _ => Ok None
  end.

Fixpoint constraints_loop (constraints : list Constraint) (elements : list (RPNElement V)) : outcome (option (list Constraint)) :=
  match elements with
  | [] => Ok (Some constraints)
  | e :: elements =>
    match function e with
    | FUNCTION_AND | FUNCTION_UNKNOWN | ALWAYS_TRUE => constraints_loop constraints elements
    | _ =>
      one ← one_tuple_set e;
      next ← match one with
        | Some s => set_constraints constraints (MergeTreeSetIndex.indexes_mapping s)
        | None => match function e with FUNCTION_IN_RANGE => range_constraints constraints e | _ => Ok None end
        end;
      match next with Some constraints => constraints_loop constraints elements | None => Ok None end
    end
  end.

(** Points, then at most one range, then columns of which nothing is known. *)
Fixpoint continuous (min_constraint : Constraint) (constraints : list Constraint) : bool :=
  match constraints with
  | [] => true
  | c :: constraints =>
    if constraint_rank c <? constraint_rank min_constraint then false
    else match c, min_constraint with
    | RANGE, RANGE => false
    | _, _ => continuous c constraints
    end
  end.

Definition matchesExactContinuousRange (kc : t V) : outcome bool :=
  constraints ← constraints_loop (replicate (num_key_columns kc) UNKNOWN) (rpn kc);
  match constraints with
  | None => Ok false
  | Some [] => Undef
  | Some (UNKNOWN :: _) => Ok false
  | Some (c :: constraints) => Ok (continuous c constraints)
  end.
End operations.
End KeyCondition.
