(* ===== verification/KeyConditionFacts.v ===== *)
(** * What a key condition tells about rows

    A row is the list of the fields of its key.  The truth of a condition on a
    row is three-valued, [None] for NULL; a mask is right about it when it
    admits what it is.  Here: the laws of functions of the key, sets, atoms, the
    whole condition on a hyperrectangle, and the hyperrectangles of a range of
    keys. *)

From stdpp Require Import prelude strings sorting.
From Stdlib Require Import ZArith Lia ZifyBool.
From S2P Require Import Prelude Range RangeFacts KeyCondition.

(** ** Three-valued logic and masks *)
Abbreviation truth := (option bool).

Definition tv_not (a : truth) : truth := option_map negb a.
Definition tv_and (a b : truth) : truth :=
  match a, b with
  | Some false, _ | _, Some false => Some false
  | Some true, Some true => Some true
  | _, _ => None
  end.
Definition tv_or (a b : truth) : truth := tv_not (tv_and (tv_not a) (tv_not b)).

Definition mask_ok (m : BoolMask) (tv : truth) : Prop :=
  (tv = Some true -> can_be_true m = true) /\ (tv = Some false -> can_be_false m = true).

Lemma mask_ok_full tv : mask_ok (Mask true true) tv.
Proof. done. Qed.

Lemma mask_ok_not m tv : mask_ok m tv -> mask_ok (BoolMask.not m) (tv_not tv).
Proof. intros [H1 H2]. split; destruct tv as [[|]|]; cbn; auto; done. Qed.

Lemma mask_ok_and m n a b : mask_ok m a -> mask_ok n b -> mask_ok (BoolMask.and m n) (tv_and a b).
Proof.
  intros [H1 H2] [H3 H4]. split; destruct a as [[|]|], b as [[|]|]; cbn; intros ?; try done;
    rewrite ?H1, ?H2, ?H3, ?H4 by done; auto using orb_true_r.
Qed.

Lemma mask_ok_or m n a b : mask_ok m a -> mask_ok n b -> mask_ok (BoolMask.or m n) (tv_or a b).
Proof.
  intros Hm Hn. apply (mask_ok_not _ _ (mask_ok_and _ _ _ _ (mask_ok_not _ _ Hm) (mask_ok_not _ _ Hn))).
Qed.

Lemma mask_ok_combine_l m n tv : mask_ok m tv -> mask_ok (BoolMask.combine m n) tv.
Proof. intros [H1 H2]. split; intros E; cbn; [by rewrite H1|by rewrite H2]. Qed.

Lemma mask_ok_combine_r m n tv : mask_ok n tv -> mask_ok (BoolMask.combine m n) tv.
Proof. intros [H1 H2]. split; intros E; cbn; [rewrite H1|rewrite H2]; auto using orb_true_r. Qed.

Lemma mask_ok_complete m tv : BoolMask.isComplete m = true -> mask_ok m tv.
Proof. unfold BoolMask.isComplete. intros [? ?]%andb_true_iff. done. Qed.

(** ** Functions of the key

    The documented contract of [IFunction::getMonotonicityForRange]; equal
    arguments have equal values; a widening conversion between integer types
    keeps the field. *)
Section functions.
Context {V : Type} `{ExplicitLaws V}.
Implicit Types (a b : Field V) (r : Range V) (func : Function V).

Record LawfulFunction func : Prop := {
  execute_equals : forall type v w v' w', v_equals v w = true ->
    execute func type v = Ok v' -> execute func type w = Ok w' -> v_equals v' w' = true;
  execute_monotonic : forall type a b v w v' w',
    is_monotonic (getMonotonicityForRange func type a b) = true ->
    accurateLess (Value v) a = false -> v_less w v = false -> accurateLess b (Value w) = false ->
    execute func type v = Ok v' -> execute func type w = Ok w' ->
    if is_positive (getMonotonicityForRange func type a b) then v_less w' v' = false else v_less v' w' = false;
  execute_cast : forall type v, functionIsIntegerCastPreservingFieldRepresentation func type (getResultType func) = true ->
    execute func type v = Ok v }.

(** The value of a chain of functions. *)
Fixpoint chain_value (functions : MonotonicFunctionsChain V) (type : DataType) (v : V) : outcome V :=
  match functions with
  | [] => Ok v
  | func :: functions => w ← execute func type v; chain_value functions (getResultType func) w
  end.

Definition chain_field (functions : MonotonicFunctionsChain V) (type : DataType) a : outcome (Field V) :=
  match a with Value v => w ← chain_value functions type v; Ok (Value w) | _ => Ok a end.

Lemma member_bounds r a : member r a = true -> accurateLess a (field (left r)) = false /\ accurateLess (field (right r)) a = false.
Proof.
  unfold member, rightThan_field, leftThan_field, less, equals. cbn. intros Hm.
  split; order [a; field (left r); field (right r)].
Qed.

Lemma member_intro f g (li ri : bool) v :
  (isNull (field f) = false -> li = true) -> (isNull (field g) = false -> ri = true) ->
  accurateLess (Value v) (field f) = false -> accurateLess (field g) (Value v) = false -> member (MakeRange f li g ri) (Value v) = true.
Proof.
  intros Hli Hri Hf Hg. unfold member, rightThan_field, leftThan_field, less, equals. cbn [left right left_included right_included field explicit].
  apply andb_true_intro. split.
  - destruct (field f) as [| |u] eqn:E; [done|done|]. rewrite Hli by done. cbn [andb]. order [Value v; Value u].
  - destruct (field g) as [| |u] eqn:E; [done|done|]. rewrite Hri by done. cbn [andb]. order [Value v; Value u].
Qed.

(** How an end of a range moves under a function. *)
Definition moved func (type : DataType) (a a' : Field V) : Prop :=
  match a with
  | Value u => exists u', a' = Value u' /\ execute func type u = Ok u'
  | _ => a' = a
  end.

Lemma applied_end func type (skip : bool) f f' :
  LawfulFunction func -> skip = functionIsIntegerCastPreservingFieldRepresentation func type (getResultType func) ->
  isNull (field f) = false -> (if skip then Ok f else applyFunction func type f) = Ok f' -> moved func type (field f) (field f').
Proof.
  intros Hf Hskip Hn. unfold moved. destruct (field f) as [| |u] eqn:E; [done|done|]. destruct skip.
  - intros [= <-]. exists u. split; [done|]. by apply (execute_cast _ Hf).
  - unfold applyFunction. rewrite E. rewrite bind_Ok_inv. intros (u' & Hu & [= <-]). by exists u'.
Qed.

Lemma apply_left_spec func type r r' :
  LawfulFunction func ->
  apply_left func type (functionIsIntegerCastPreservingFieldRepresentation func type (getResultType func)) r = Ok r' ->
  moved func type (field (left r)) (field (left r')) /\ right r' = right r /\ right_included r' = right_included r /\
  (isNull (field (left r')) = false -> left_included r' = true).
Proof.
  intros Hf. unfold apply_left. destruct (isNull (field (left r))) eqn:En.
  - intros [= <-]. split; [unfold moved; by destruct (field (left r))|]. split_and!; [done|done|congruence].
  - rewrite bind_Ok_inv. intros (l & Hl & [= <-]). split_and!; [|done|done|done]. by eapply applied_end.
Qed.

Lemma apply_right_spec func type r r' :
  LawfulFunction func ->
  apply_right func type (functionIsIntegerCastPreservingFieldRepresentation func type (getResultType func)) r = Ok r' ->
  moved func type (field (right r)) (field (right r')) /\ left r' = left r /\ left_included r' = left_included r /\
  (isNull (field (right r')) = false -> right_included r' = true).
Proof.
  intros Hf. unfold apply_right. destruct (isNull (field (right r))) eqn:En.
  - intros [= <-]. split; [unfold moved; by destruct (field (right r))|]. split_and!; [done|done|congruence].
  - rewrite bind_Ok_inv. intros (l & Hl & [= <-]). split_and!; [|done|done|done]. by eapply applied_end.
Qed.

Definition one_point r : Prop := accurateEquals (field (left r)) (field (right r)) = true.

Lemma moved_equals func type a a' v v' :
  LawfulFunction func -> moved func type a a' -> execute func type v = Ok v' ->
  accurateEquals a (Value v) = true -> accurateEquals a' (Value v') = true.
Proof.
  intros Hf Hm Hv Heq. destruct a as [| |u]; [done|done|]. destruct Hm as (u' & -> & Hu). by eapply (execute_equals _ Hf type u v).
Qed.

(** The two ends under a function that is positive on them, or negative. *)
Lemma moved_bounds func type a b a' b' v v' :
  LawfulFunction func -> moved func type a a' -> moved func type b b' -> execute func type v = Ok v' ->
  is_monotonic (getMonotonicityForRange func type a b) = true ->
  accurateLess (Value v) a = false -> accurateLess b (Value v) = false ->
  if is_positive (getMonotonicityForRange func type a b)
  then accurateLess (Value v') a' = false /\ accurateLess b' (Value v') = false
  else (isNull a = false -> accurateLess a' (Value v') = false) /\ (isNull b = false -> accurateLess (Value v') b' = false).
Proof.
  intros Hf Ha Hb Hv Hm Hav Hvb. pose proof (accurateLess_irrefl (V := V)) as Hirr.
  assert (Hl : forall u, a = Value u -> exists u', a' = Value u' /\
    if is_positive (getMonotonicityForRange func type a b) then v_less v' u' = false else v_less u' v' = false).
  { intros u ->. destruct Ha as (u' & -> & Hu). exists u'. split; [done|].
    apply (execute_monotonic _ Hf type (Value u) b u v u' v' Hm); [apply Hirr|exact Hav|exact Hvb|done|done]. }
  assert (Hr : forall u, b = Value u -> exists u', b' = Value u' /\
    if is_positive (getMonotonicityForRange func type a b) then v_less u' v' = false else v_less v' u' = false).
  { intros u ->. destruct Hb as (u' & -> & Hu). exists u'. split; [done|].
    apply (execute_monotonic _ Hf type a (Value u) v u v' u' Hm); [exact Hav|exact Hvb|apply Hirr|done|done]. }
  destruct (is_positive _); split.
  - destruct a as [| |u]; [by rewrite Ha|done|]. destruct (Hl u eq_refl) as (u' & -> & ?). done.
  - destruct b as [| |u]; [done|by rewrite Hb|]. destruct (Hr u eq_refl) as (u' & -> & ?). done.
  - intros Hn. destruct a as [| |u]; [done|done|]. destruct (Hl u eq_refl) as (u' & -> & ?). done.
  - intros Hn. destruct b as [| |u]; [done|done|]. destruct (Hr u eq_refl) as (u' & -> & ?). done.
Qed.

(** One function of the chain: the value of a member is a member. *)
Lemma member_invert r v :
  (isNull (field (left r)) = false -> left_included r = true) -> (isNull (field (right r)) = false -> right_included r = true) ->
  isPositiveInfinity (field (left r)) = false -> isNegativeInfinity (field (right r)) = false ->
  (isNull (field (left r)) = false -> accurateLess (field (left r)) (Value v) = false) ->
  (isNull (field (right r)) = false -> accurateLess (Value v) (field (right r)) = false) -> member (invert r) (Value v) = true.
Proof.
  intros Hli Hri Hl Hr Hlv Hrv. unfold invert. apply member_intro.
  - destruct (isPositiveInfinity (field (right r))); [done|exact Hri].
  - destruct (isNegativeInfinity (field (left r))); [done|exact Hli].
  - destruct (field (right r)) as [| |u] eqn:E; cbn; rewrite ?E; try done. by apply Hrv.
  - destruct (field (left r)) as [| |u] eqn:E; cbn; rewrite ?E; try done. by apply Hlv.
Qed.

Lemma moved_null func type a a' : moved func type a a' -> isNull a' = isNull a /\ isPositiveInfinity a' = isPositiveInfinity a /\
  isNegativeInfinity a' = isNegativeInfinity a.
Proof. destruct a as [| |u]; cbn; [intros ->; done|intros ->; done|]. intros (u' & -> & _). done. Qed.

Lemma function_member func type r r1 r2 v w :
  LawfulFunction func ->
  is_monotonic (getMonotonicityForRange func type (field (left r)) (field (right r))) = true ->
  apply_left func type (functionIsIntegerCastPreservingFieldRepresentation func type (getResultType func)) r = Ok r1 ->
  apply_right func type (functionIsIntegerCastPreservingFieldRepresentation func type (getResultType func)) r1 = Ok r2 ->
  member r (Value v) = true -> execute func type v = Ok w ->
  member (if negb (is_positive (getMonotonicityForRange func type (field (left r)) (field (right r)))) then invert r2 else r2) (Value w) = true.
Proof.
  intros Hf Hmono H1 H2 Hm Hv. destruct (member_bounds r (Value v) Hm) as [Hl Hr].
  destruct (apply_left_spec _ _ _ _ Hf H1) as (Hml & Er1 & Eri1 & Hli). destruct (apply_right_spec _ _ _ _ Hf H2) as (Hmr & El2 & Eli2 & Hri).
  rewrite Er1 in Hmr. rewrite <- El2 in Hml, Hli. rewrite <- Eli2 in Hli.
  pose proof (moved_bounds _ _ _ _ _ _ _ _ Hf Hml Hmr Hv Hmono Hl Hr) as Hb.
  destruct (moved_null _ _ _ _ Hml) as (N1 & P1 & _). destruct (moved_null _ _ _ _ Hmr) as (N2 & _ & P2).
  destruct (is_positive _); cbn [negb].
  - destruct r2, Hb as [Hb1 Hb2]. by apply member_intro.
  - apply member_invert; try done; rewrite ?P1, ?P2, ?N1, ?N2; [|by destruct (field (right r))|tauto..]. by destruct (field (left r)).
Qed.

Lemma point_member func type r r1 r2 v w :
  LawfulFunction func ->
  apply_left func type (functionIsIntegerCastPreservingFieldRepresentation func type (getResultType func)) r = Ok r1 ->
  apply_right func type (functionIsIntegerCastPreservingFieldRepresentation func type (getResultType func)) r1 = Ok r2 ->
  one_point r -> member r (Value v) = true -> execute func type v = Ok w -> one_point r2 /\ member r2 (Value w) = true.
Proof.
  intros Hf H1 H2 Hp Hm Hv. destruct (member_bounds r (Value v) Hm) as [Hl Hr]. unfold one_point in *.
  destruct (apply_left_spec _ _ _ _ Hf H1) as (Hml & Er1 & Eri1 & Hli). destruct (apply_right_spec _ _ _ _ Hf H2) as (Hmr & El2 & Eli2 & Hri).
  rewrite Er1 in Hmr. rewrite <- El2 in Hml, Hli. rewrite <- Eli2 in Hli.
  assert (Hlw : accurateEquals (field (left r2)) (Value w) = true).
  { eapply moved_equals; [done..|]. clear - Hp Hl Hr H0. order [field (left r); field (right r); Value v]. }
  assert (Hrw : accurateEquals (field (right r2)) (Value w) = true).
  { eapply moved_equals; [done..|]. clear - Hp Hl Hr H0. order [field (left r); field (right r); Value v]. }
  destruct r2 as [f li g ri]. cbn in *. split; [|apply member_intro; try done]; clear - Hlw Hrw H0; order [field f; field g; Value w].
Qed.

Lemma chain_member functions : forall type r r' v w (single_point : bool),
  Forall LawfulFunction functions -> (single_point = true -> one_point r) -> member r (Value v) = true ->
  chain_value functions type v = Ok w -> applyMonotonicFunctionsChainToRange r functions type single_point = Ok (Some r') ->
  member r' (Value w) = true.
Proof.
  induction functions as [|func functions IH]; intros type r r' v w sp Hl Hp Hm.
  { cbn. by intros [= <-] [= <-]. }
  apply Forall_cons in Hl as [Hf Hl]. cbn [chain_value applyMonotonicFunctionsChainToRange]. rewrite bind_Ok_inv. intros (u & Hu & Hw).
  destruct sp; cbn [is_monotonic is_positive negb].
  - rewrite bind_Ok_inv. intros (r1 & H1 & Hc). apply bind_Ok_inv in Hc as (r2 & H2 & Hc).
    destruct (point_member _ _ _ _ _ _ _ Hf H1 H2 (Hp eq_refl) Hm Hu) as [Hp2 Hm2]. by apply (IH _ _ _ _ _ true Hl (fun _ => Hp2) Hm2 Hw).
  - destruct (is_monotonic _) eqn:Hmono; [|done]. cbn [negb].
    rewrite bind_Ok_inv. intros (r1 & H1 & Hc). apply bind_Ok_inv in Hc as (r2 & H2 & Hc).
    eapply IH; [done| |by eapply function_member|done|done]. done.
Qed.
End functions.

(** ** Sets of tuples *)
Section partition_points.
Context (n : nat) (p : nat -> bool) (Hp : forall i j, (i <= j < n)%nat -> p j = true -> p i = true).

Lemma partition_loop_spec fuel : forall first len,
  (len < fuel)%nat -> (first + len <= n)%nat -> (forall i, (i < first)%nat -> p i = true) ->
  (forall i, (first + len <= i < n)%nat -> p i = false) ->
  let k := MergeTreeSetIndex.partition_loop fuel first len p in
  (k <= n)%nat /\ (forall i, (i < k)%nat -> p i = true) /\ (forall i, (k <= i < n)%nat -> p i = false).
Proof.
  induction fuel as [|fuel IH]; intros first len Hfuel Hlen Hlo Hhi; [lia|]. cbn -[Nat.div].
  destruct (Nat.eqb_spec len 0) as [->|Hne]; [split_and!; [lia|done|]; intros i Hi; apply Hhi; lia|].
  assert (Hhalf : (len / 2 < len)%nat) by (apply Nat.div_lt; lia).
  destruct (p (first + len / 2)) eqn:E; apply IH; try lia.
  - intros i Hi. destruct (decide (i < first)%nat); [by apply Hlo|]. apply (Hp i (first + len / 2)%nat); [lia|done].
  - intros i Hi. apply Hhi. lia.
  - done.
  - intros i Hi. destruct (p i) eqn:Ei; [|done]. rewrite (Hp (first + len / 2)%nat i) in E; [done|lia|done].
Qed.

(** [partition_point] finds the first element that is not in the prefix. *)
Lemma partition_point_spec :
  let k := MergeTreeSetIndex.partition_point n p in
  (k <= n)%nat /\ (forall i, (i < k)%nat -> p i = true) /\ (forall i, (k <= i < n)%nat -> p i = false).
Proof. apply partition_loop_spec; lia. Qed.
End partition_points.

Section sets.
Context {V : Type} `{ExplicitLaws V}.
Import MergeTreeSetIndex.
Implicit Types (a b : Field V) (s : t V) (xs ys : list (Field V)) (ranges : list (Range V)).

Definition equal a b : Prop := accurateEquals a b = true.

(** What [make] builds: a column for each mapping, of one length, the rows sorted. *)
Record set_ok s : Prop := {
  set_nonempty : indexes_mapping s <> [];
  set_columns : length (ordered_set s) = length (indexes_mapping s);
  set_lawful : Forall (fun m => Forall LawfulFunction (functions m)) (indexes_mapping s);
  set_finite : forall j, Forall (fun a => isNegativeInfinity a = false) (tuple_at (ordered_set s) j);
  set_sorted : forall n i j, size s = Ok n -> (i <= j < n)%nat -> tuple_le (tuple_at (ordered_set s) i) (tuple_at (ordered_set s) j) }.

Definition in_set s ys : Prop :=
  exists n j, size s = Ok n /\ (j < n)%nat /\ Forall2 equal ys (tuple_at (ordered_set s) j).

(** The tuple of a row, nothing when a column is outside the row. *)
Fixpoint tuple_values (row : list (Field V)) (types : list DataType) (mapping : list (KeyTuplePositionMapping V))
    : outcome (option (list (Field V))) :=
  match mapping with
  | [] => Ok (Some [])
  | m :: mapping =>
    match row !! key_index m, types !! key_index m with
    | Some a, Some type =>
      y ← chain_field (functions m) type a;
      rest ← tuple_values row types mapping; Ok (option_map (cons y) rest)
    | _, _ => Ok None
    end
  end.

(** A NULL does not go through functions. *)
Definition plain_nulls (row : list (Field V)) (mapping : list (KeyTuplePositionMapping V)) : Prop :=
  Forall (fun m => forall a, row !! key_index m = Some a -> isNull a = true -> functions m = []) mapping.

Lemma compare_spec a b : isNegativeInfinity a = false -> MergeTreeSetIndex.compare a b = compareAt a b.
Proof. destruct a, b; done. Qed.

Lemma tuple_at_length (columns : list (list (Field V))) j : length (tuple_at columns j) = length columns.
Proof. apply length_map. Qed.

(** Being below a range, or not above it, is a prefix of a sorted set. *)
Lemma below_closed ranges : forall xs ys,
  Forall (fun a => isNegativeInfinity a = false) xs -> Forall (fun a => isNegativeInfinity a = false) ys ->
  length xs = length ys -> tuple_le xs ys -> below ys ranges = true -> below xs ranges = true.
Proof.
  induction ranges as [|r ranges IH]; intros [|x xs] [|y ys] Hx Hy Hlen Hle; cbn; try done.
  apply Forall_cons in Hx as [Hx0 Hx]. apply Forall_cons in Hy as [Hy0 Hy]. rewrite !compare_spec by done.
  revert Hle. unfold tuple_le. cbn. unfold compareAt at 1 2 3. injection Hlen as Hlen. intros Hle Hb.
  specialize (IH xs ys Hx Hy Hlen). unfold tuple_le in IH.
  destruct (accurateLess x (field (left r))) eqn:E1; [done|]. destruct (accurateLess y (field (left r))) eqn:E2.
  - destruct (accurateLess x y) eqn:E3; [order [x; y; field (left r)]|]. destruct (accurateEquals x y) eqn:E4; [order [x; y; field (left r)]|done].
  - destruct (accurateEquals y (field (left r))) eqn:E5; [|done].
    destruct (accurateLess x y) eqn:E3; [order [x; y; field (left r)]|]. destruct (accurateEquals x y) eqn:E4; [|done].
    replace (accurateEquals x (field (left r))) with true by (order [x; y; field (left r)]).
    destruct (negb (left_included r)); [done|]. by apply IH.
Qed.

Lemma not_above_closed ranges : forall xs ys,
  Forall (fun a => isNegativeInfinity a = false) xs -> Forall (fun a => isNegativeInfinity a = false) ys ->
  length xs = length ys -> tuple_le xs ys -> not_above ys ranges = true -> not_above xs ranges = true.
Proof.
  induction ranges as [|r ranges IH]; intros [|x xs] [|y ys] Hx Hy Hlen Hle; cbn; try done.
  apply Forall_cons in Hx as [Hx0 Hx]. apply Forall_cons in Hy as [Hy0 Hy]. rewrite !compare_spec by done.
  revert Hle. unfold tuple_le. cbn. unfold compareAt at 1 2 3. injection Hlen as Hlen. intros Hle Hb.
  specialize (IH xs ys Hx Hy Hlen). unfold tuple_le in IH.
  destruct (accurateLess x (field (right r))) eqn:E1; [done|]. destruct (accurateLess y (field (right r))) eqn:E2.
  - destruct (accurateLess x y) eqn:E3; [order [x; y; field (right r)]|]. destruct (accurateEquals x y) eqn:E4; [order [x; y; field (right r)]|done].
  - destruct (accurateEquals y (field (right r))) eqn:E5; [|done].
    destruct (accurateLess x y) eqn:E3; [order [x; y; field (right r)]|]. destruct (accurateEquals x y) eqn:E4; [|done].
    replace (accurateEquals x (field (right r))) with true by (order [x; y; field (right r)]).
    destruct (negb (right_included r)); [done|]. by apply IH.
Qed.

(** A tuple equal to one inside the ranges is neither below nor above them. *)
Lemma inside_ranges ranges ys : forall xs,
  Forall2 (fun r y => member r y = true) ranges ys -> Forall2 equal ys xs -> Forall (fun a => isNegativeInfinity a = false) xs ->
  below xs ranges = false /\ not_above xs ranges = true.
Proof.
  intros xs Hm. revert xs. induction Hm as [|r y ranges ys Hm0 Hm IH]; intros xs Heq Hx.
  { apply Forall2_nil_inv_l in Heq as ->. done. }
  apply Forall2_cons_inv_l in Heq as (x & xs' & Heq0 & Heq & ->). apply Forall_cons in Hx as [Hx0 Hx].
  cbn. rewrite !compare_spec by done. destruct (IH xs' Heq Hx) as [IH1 IH2]. unfold equal in Heq0.
  unfold member, rightThan_field, leftThan_field, less, equals in Hm0. cbn in Hm0. unfold compareAt. split.
  - destruct (accurateLess x (field (left r))) eqn:E1; [order [x; y; field (left r); field (right r)]|].
    destruct (accurateEquals x (field (left r))) eqn:E2; [|done]. destruct (left_included r) eqn:E3; [done|].
    cbn in *. order [x; y; field (left r); field (right r)].
  - destruct (accurateLess x (field (right r))) eqn:E1; [done|].
    destruct (accurateEquals x (field (right r))) eqn:E2; [|order [x; y; field (left r); field (right r)]].
    destruct (right_included r) eqn:E3; [done|]. cbn in *. order [x; y; field (left r); field (right r)].
Qed.

Lemma one_element_point r : one_element r = true -> accurateEquals (field (left r)) (field (right r)) = true.
Proof.
  unfold one_element. destruct (field (left r)), (field (right r)); try done. unfold compareAt.
  destruct (accurateLess _ _); [done|]. by destruct (accurateEquals _ _).
Qed.

(** In ranges of one element each, what is neither below nor above is equal. *)
Lemma inside_points ranges ys : forall xs,
  Forall2 (fun r y => member r y = true) ranges ys -> forallb one_element ranges = true -> length xs = length ys ->
  Forall (fun a => isNegativeInfinity a = false) xs -> below xs ranges = false -> not_above xs ranges = true -> Forall2 equal ys xs.
Proof.
  intros xs Hm. revert xs. induction Hm as [|r y ranges ys Hm0 Hm IH]; intros [|x xs] Hone Hlen Hx; try done.
  apply Forall_cons in Hx as [Hx0 Hx]. cbn in Hone. apply andb_true_iff in Hone as [Hone0 Hone]. apply one_element_point in Hone0.
  cbn. rewrite !compare_spec by done. apply member_bounds in Hm0 as [Hl Hr].
  intros Hb Ha. unfold compareAt in *. destruct (accurateLess x (field (left r))) eqn:E1; [done|].
  destruct (accurateEquals x (field (left r))) eqn:E2.
  - destruct (negb (left_included r)); [done|]. destruct (accurateLess x (field (right r))) eqn:E3; [order [x; y; field (left r); field (right r)]|].
    destruct (accurateEquals x (field (right r))) eqn:E4; [|done]. destruct (negb (right_included r)); [done|].
    constructor; [unfold equal; order [x; y; field (left r); field (right r)]|]. injection Hlen as Hlen. by apply IH.
  - destruct (accurateLess x (field (right r))) eqn:E3; [order [x; y; field (left r); field (right r)]|].
    destruct (accurateEquals x (field (right r))) eqn:E4; [order [x; y; field (left r); field (right r)]|done].
Qed.

(** The rows of the ranges of a tuple hold the values of the tuple. *)
Definition row_in (h : list (Range V)) (row : list (Field V)) : Prop := Forall2 (fun r a => member r a = true) h row.
Definition points (h : list (Range V)) : Prop := Forall one_point h.

Lemma tuple_ranges_members h row types (single_point : bool) mapping : forall ranges ys,
  row_in h row -> (single_point = true -> points h) -> Forall (fun m => Forall LawfulFunction (functions m)) mapping -> plain_nulls row mapping ->
  tuple_ranges h types single_point mapping = Ok (Some ranges) -> tuple_values row types mapping = Ok (Some ys) ->
  Forall2 (fun r y => member r y = true) ranges ys.
Proof.
  intros ranges ys Hrow Hp. revert ranges ys. induction mapping as [|m mapping IH]; intros ranges ys Hl Hn; cbn.
  { intros [= <-] [= <-]. constructor. }
  apply Forall_cons in Hl as [Hl0 Hl]. apply Forall_cons in Hn as [Hn0 Hn].
  destruct (h !! key_index m) as [r|] eqn:Er; [|done]. destruct (Forall2_lookup_l _ _ _ _ _ Hrow Er) as (a & Ea & Hm). rewrite Ea in *.
  destruct (types !! key_index m) as [type|]; [|done].
  rewrite bind_Ok_inv. intros ([r'|] & Hr' & Hc); [|done]. apply bind_Ok_inv in Hc as ([rs|] & Hrs & [= <-]).
  rewrite bind_Ok_inv. intros (y & Hy & Hc). apply bind_Ok_inv in Hc as ([zs|] & Hzs & [= <-]).
  constructor; [|by apply IH]. destruct (isNull a) eqn:Enull.
  - rewrite (Hn0 a) in Hr' by done. cbn in Hr'. destruct a; simplify_eq/=; done.
  - destruct a as [| |v]; [done|done|]. cbn in Hy. apply bind_Ok_inv in Hy as (w & Hw & [= <-]).
    eapply chain_member; [done| |done|done|done]. intros E. specialize (Hp E). unfold points in Hp. rewrite Forall_lookup in Hp. by eapply Hp.
Qed.

Lemma tuple_values_length row types mapping : forall ys, tuple_values row types mapping = Ok (Some ys) -> length ys = length mapping.
Proof.
  induction mapping as [|m mapping IH]; intros ys; cbn; [by intros [= <-]|].
  destruct (row !! key_index m), (types !! key_index m); try done. rewrite bind_Ok_inv. intros (y & _ & Hc).
  apply bind_Ok_inv in Hc as ([zs|] & Hzs & [= <-]). cbn. f_equal. by apply IH.
Qed.

Lemma tuple_ranges_None h row types (single_point : bool) mapping : forall ranges,
  row_in h row -> tuple_values row types mapping = Ok None -> tuple_ranges h types single_point mapping <> Ok (Some ranges).
Proof.
  intros ranges Hrow. revert ranges. induction mapping as [|m mapping IH]; intros ranges; cbn; [done|].
  destruct (h !! key_index m) as [r|] eqn:Er; [|done]. destruct (Forall2_lookup_l _ _ _ _ _ Hrow Er) as (a & -> & _).
  destruct (types !! key_index m) as [type|]; [|done]. rewrite bind_Ok_inv. intros (y & _ & Hc).
  apply bind_Ok_inv in Hc as ([zs|] & Hzs & Hc); [done|]. rewrite bind_Ok_inv. intros ([r'|] & _ & Hd); [|done].
  apply bind_Ok_inv in Hd as ([rs|] & Hrs & Hd); [|done]. by apply (IH rs).
Qed.

(** Without all the elements, the absence of the tuple is never excluded. *)
Lemma unmapped_can_be_false s h types (single_point : bool) m :
  checkInRange s h types single_point = Ok m -> has_all_keys s = false -> can_be_false m = true.
Proof.
  unfold checkInRange. rewrite bind_Ok_inv. intros ([ranges|] & _ & Hc) Hall; [|by simplify_eq/=].
  apply bind_Ok_inv in Hc as (n & _ & Hc). rewrite Hall, andb_false_r in Hc. by case_match; simplify_eq/=.
Qed.

(** The answer of the set index about a row: it admits the row when its tuple
    is in the set, and excludes its absence only when the tuple is there. *)
Lemma set_check_sound s h row types (single_point : bool) ys m :
  set_ok s -> row_in h row -> (single_point = true -> points h) -> plain_nulls row (indexes_mapping s) ->
  tuple_values row types (indexes_mapping s) = Ok (Some ys) -> checkInRange s h types single_point = Ok m ->
  (in_set s ys -> can_be_true m = true) /\ (can_be_false m = true \/ (has_all_keys s = true /\ in_set s ys)).
Proof.
  intros Hs Hrow Hp Hn Hys. unfold checkInRange. rewrite bind_Ok_inv. intros ([ranges|] & Hr & Hc); [|by simplify_eq/=; auto].
  apply bind_Ok_inv in Hc as (n & Hsize & Hc).
  pose proof (tuple_ranges_members _ _ _ _ _ _ _ Hrow Hp (set_lawful _ Hs) Hn Hr Hys) as Hm.
  pose proof (tuple_values_length _ _ _ _ Hys) as Hlen. set (tuple := tuple_at (ordered_set s)) in *.
  assert (Hlens : forall i j, length (tuple i) = length (tuple j)) by (intros; unfold tuple; by rewrite !tuple_at_length).
  destruct (partition_point_spec n (fun row => below (tuple row) ranges)) as (B1 & B2 & B3).
  { intros i j Hij. apply below_closed; [apply (set_finite _ Hs)..|apply Hlens|by eapply (set_sorted _ Hs)]. }
  destruct (partition_point_spec n (fun row => not_above (tuple row) ranges)) as (A1 & A2 & A3).
  { intros i j Hij. apply not_above_closed; [apply (set_finite _ Hs)..|apply Hlens|by eapply (set_sorted _ Hs)]. }
  set (begin := partition_point n (fun row => below (tuple row) ranges)) in *.
  set (end_ := partition_point n (fun row => not_above (tuple row) ranges)) in *.
  assert (Hin : in_set s ys -> (begin < end_)%nat).
  { intros (n' & j & Hsize' & Hj & Heq). assert (n' = n) as -> by congruence. destruct (inside_ranges _ _ _ Hm Heq (set_finite _ Hs j)) as [Hb Ha].
    assert (~ (j < begin)%nat) by (intros Hlt; apply B2 in Hlt; unfold tuple in Hlt; congruence).
    assert (~ (end_ <= j)%nat) by (intros Hle; specialize (A3 j (conj Hle Hj)); cbn in A3; unfold tuple in A3; congruence). lia. }
  destruct (Nat.ltb_spec end_ begin) as [Hlt|Hge]; [by simplify_eq/=; auto|]. split.
  { intros Hi%Hin. destruct (forallb _ _ && _); simplify_eq/=; by apply Nat.ltb_lt. }
  destruct (forallb one_element ranges && has_all_keys s) eqn:E; simplify_eq/=; [|by left]. apply andb_true_iff in E as [Hone Hall].
  destruct (Nat.ltb_spec begin end_) as [Hlt|]; [right|by left]. split; [done|]. exists n, begin. split_and!; [done|lia|].
  apply (inside_points ranges); [done|done| |apply (set_finite _ Hs)|apply B3; lia|by apply A2].
  unfold tuple. by rewrite tuple_at_length, (set_columns _ Hs), Hlen.
Qed.
End sets.

(** ** Conditions *)
Section conditions.
Context {V : Type} `{ExplicitLaws V}.
Import KeyCondition.
Implicit Types (a : Field V) (e : RPNElement V) (kc : t V) (h : list (Range V)) (types : list DataType) (row : list (Field V)) (tv : truth).

(** What an atom says of a value: the value is in the range; a relaxed atom may say no more than that. *)
Definition says (r : Range V) (relaxed : bool) a tv : Prop :=
  (tv = Some true -> member r a = true) /\ (relaxed = false -> tv = Some (member r a)).

(** A comparison with NULL is NULL. *)
Definition range_truth row types e tv : Prop :=
  match key_columns e with
  | c :: _ => match row !! c, types !! c with
    | Some a, Some type => exists y, chain_field (monotonic_functions_chain e) type a = Ok y /\
        if isNull y then tv = None else says (range e) (relaxed e) y tv
    | _, _ => True
    end
  | [] => True
  end.

Definition null_truth row e tv : Prop :=
  match key_columns e with
  | c :: _ => match row !! c with Some a => says (range e) (relaxed e) a tv | None => True end
  | [] => True
  end.

Definition set_truth row types e tv : Prop :=
  match set_index e with
  | Some s =>
    exists o, tuple_values row types (MergeTreeSetIndex.indexes_mapping s) = Ok o /\
    (plain_nulls row (MergeTreeSetIndex.indexes_mapping s) \/ tv = None) /\
    match o with
    | Some ys => (tv = Some true -> in_set s ys) /\
        (relaxed e = false -> MergeTreeSetIndex.has_all_keys s = true -> in_set s ys -> tv <> Some false)
    | None => True
    end
  | None => True
  end.

(** One element on a stack of truth values. *)
Definition element_truth row types (stack : list truth) e (stack' : list truth) : Prop :=
  match argument_num_of_space_filling_curve e with
  | Some _ => exists tv, stack' = tv :: stack
  | None =>
    match function e with
    | FUNCTION_UNKNOWN => exists tv, stack' = tv :: stack
    | FUNCTION_IN_RANGE => exists tv, stack' = tv :: stack /\ range_truth row types e tv
    | FUNCTION_NOT_IN_RANGE => exists tv, stack' = tv_not tv :: stack /\ range_truth row types e tv
    | FUNCTION_IS_NOT_NULL => exists tv, stack' = tv :: stack /\ null_truth row e tv
    | FUNCTION_IS_NULL => exists tv, stack' = tv_not tv :: stack /\ null_truth row e tv
    | FUNCTION_IN_SET => exists tv, stack' = tv :: stack /\ set_truth row types e tv
    | FUNCTION_NOT_IN_SET => exists tv, stack' = tv_not tv :: stack /\ set_truth row types e tv
    | FUNCTION_NOT => exists p s, stack = p :: s /\ stack' = tv_not p :: s
    | FUNCTION_AND => exists p q s, stack = p :: q :: s /\ stack' = tv_and p q :: s
    | FUNCTION_OR => exists p q s, stack = p :: q :: s /\ stack' = tv_or p q :: s
    | ALWAYS_FALSE => stack' = Some false :: stack
    | ALWAYS_TRUE => stack' = Some true :: stack
    end
  end.

Fixpoint evaluates row types (elements : list (RPNElement V)) (stack stack' : list truth) : Prop :=
  match elements with
  | [] => stack' = stack
  | e :: elements => exists next, element_truth row types stack e next /\ evaluates row types elements next stack'
  end.

(** The truth of the condition on a row. *)
Definition condition_truth kc row types tv : Prop := evaluates row types (rpn kc) [] [tv].

(** The functions and sets an element refers to are lawful. *)
Definition element_ok e : Prop :=
  Forall LawfulFunction (monotonic_functions_chain e) /\ match set_index e with Some s => set_ok s | None => True end.

Lemma relax_and_negate_ok e (negated : bool) m tv :
  (tv = Some true -> can_be_true m = true) -> (relaxed e = false -> tv = Some false -> can_be_false m = true) ->
  mask_ok (relax_and_negate e negated m) (if negated then tv_not tv else tv).
Proof.
  intros Ht Hf. unfold relax_and_negate.
  assert (Hm : mask_ok (if relaxed e then Mask (can_be_true m) true else m) tv) by (destruct (relaxed e); split; cbn; auto).
  destruct negated; [by apply mask_ok_not|done].
Qed.

Lemma says_mask r key_range (relaxed : bool) a tv :
  says r relaxed a tv -> member key_range a = true ->
  (tv = Some true -> intersectsRange r key_range = true) /\ (relaxed = false -> tv = Some false -> negb (containsRange r key_range) = true).
Proof.
  intros [H1 H2] Hm. split.
  - intros Ht. eapply intersectsRange_complete; [by apply H1|done].
  - intros Hr Ht. specialize (H2 Hr). destruct (containsRange r key_range) eqn:E; [|done].
    rewrite (containsRange_sound _ _ _ E Hm) in H2. congruence.
Qed.

Lemma field_not_NaN a : isNaN a = false.
Proof. destruct a; cbn; [done|done|]. apply v_no_NaN. Qed.

Lemma range_mask_ok kc h row types e m tv :
  element_ok e -> row_in h row -> (length row <= length types)%nat -> (single_point kc = true -> points h) ->
  range_truth row types e tv -> range_mask kc h types e = Ok m ->
  mask_ok m (if bool_decide (function e = FUNCTION_NOT_IN_RANGE) then tv_not tv else tv).
Proof.
  intros [Hl _] Hrow Hlen Hp Ht. unfold range_mask, getKeyColumn, range_truth in *.
  destruct (key_columns e) as [|c cs]; [done|]. cbn [mbind outcome_bind]. destruct (h !! c) as [r|] eqn:Er; [|by intros [= <-]].
  destruct (Forall2_lookup_l _ _ _ _ _ Hrow Er) as (a & Ea & Hm). rewrite Ea in Ht.
  assert (Hc : is_Some (types !! c)) by (apply lookup_lt_is_Some; apply lookup_lt_Some in Ea; lia).
  destruct Hc as [type Hty]. rewrite Hty in *. destruct Ht as (y & Hy & Ht). rewrite bind_Ok_inv. intros (o & Ho & Hmask).
  assert (Ho' : applyMonotonicFunctionsChainToRange r (monotonic_functions_chain e) type (single_point kc) = Ok o)
    by (destruct (monotonic_functions_chain e); done).
  destruct o as [r'|]; [|by simplify_eq/=]. rewrite !field_not_NaN in Hmask. injection Hmask as <-.
  destruct (isNull y) eqn:En; [subst tv; by destruct (bool_decide _)|].
  destruct y as [| |w]; [done|done|]. destruct a as [| |v]; [done|done|]. cbn in Hy. apply bind_Ok_inv in Hy as (w' & Hw & [= ->]).
  assert (Hm' : member r' (Value w) = true).
  { eapply chain_member; [done| |done|done|done]. intros E. specialize (Hp E). unfold points in Hp. rewrite Forall_lookup in Hp. by eapply Hp. }
  destruct (says_mask _ _ _ _ _ Ht Hm') as [H1 H2]. by apply relax_and_negate_ok.
Qed.

Lemma null_mask_ok h row e m tv :
  row_in h row -> null_truth row e tv -> null_mask h e = Ok m ->
  mask_ok m (if bool_decide (function e = FUNCTION_IS_NULL) then tv_not tv else tv).
Proof.
  intros Hrow Ht. unfold null_mask, getKeyColumn, null_truth in *.
  destruct (key_columns e) as [|c cs]; [done|]. cbn [mbind outcome_bind]. destruct (h !! c) as [r|] eqn:Er; [|by intros [= <-]].
  destruct (Forall2_lookup_l _ _ _ _ _ Hrow Er) as (a & Ea & Hm). rewrite Ea in Ht. intros [= <-].
  destruct (says_mask _ _ _ _ _ Ht Hm) as [H1 H2]. by apply relax_and_negate_ok.
Qed.

Lemma set_mask_ok kc h row types e m tv :
  element_ok e -> row_in h row -> (single_point kc = true -> points h) ->
  set_truth row types e tv -> set_mask kc h types e = Ok m ->
  mask_ok m (if bool_decide (function e = FUNCTION_NOT_IN_SET) then tv_not tv else tv).
Proof.
  intros [_ Hs] Hrow Hp Ht. unfold set_mask, set_truth in *. destruct (set_index e) as [s|]; [|done].
  rewrite bind_Ok_inv. intros (m' & Hm' & [= <-]). destruct Ht as (o & Ho & Hn & Ht). destruct Hn as [Hn| ->]; [|by apply relax_and_negate_ok].
  destruct o as [ys|].
  - destruct Ht as [H1 H2]. destruct (set_check_sound _ _ _ _ _ _ _ Hs Hrow Hp Hn Ho Hm') as [H3 H4]. apply relax_and_negate_ok; [by auto|].
    intros Hr Htv. destruct H4 as [?|[Hall Hin]]; [done|]. by destruct (H2 Hr Hall Hin).
  - unfold MergeTreeSetIndex.checkInRange in Hm'. apply bind_Ok_inv in Hm' as ([ranges|] & Hr & Hc).
    + by destruct (tuple_ranges_None h row types (single_point kc) _ ranges Hrow Ho).
    + simplify_eq. by apply relax_and_negate_ok.
Qed.

Lemma mask_step_ok kc h row types e masks masks' stack stack' :
  element_ok e -> row_in h row -> (length row <= length types)%nat -> (single_point kc = true -> points h) ->
  Forall2 mask_ok masks stack -> element_truth row types stack e stack' -> mask_step kc h types masks e = Ok masks' ->
  Forall2 mask_ok masks' stack'.
Proof.
  intros He Hrow Hlen Hp Hst. unfold element_truth, mask_step.
  destruct (argument_num_of_space_filling_curve e); [intros (tv & ->) [= <-]; by constructor|].
  destruct (function e) eqn:Ef.
  1,2: intros (tv & -> & Ht); rewrite bind_Ok_inv; intros (m & Hm & [= <-]); constructor; [|done];
    eapply range_mask_ok in Hm; [|done..]; by rewrite Ef in Hm.
  1,2: intros (tv & -> & Ht); rewrite bind_Ok_inv; intros (m & Hm & [= <-]); constructor; [|done];
    eapply set_mask_ok in Hm; [|done..]; by rewrite Ef in Hm.
  1,2: intros (tv & -> & Ht); rewrite bind_Ok_inv; intros (m & Hm & [= <-]); constructor; [|done];
    eapply null_mask_ok in Hm; [|done..]; by rewrite Ef in Hm.
  - intros (tv & ->) [= <-]. by constructor.
  - intros (p & s & -> & ->). apply Forall2_cons_inv_r in Hst as (m & ms & Hm & Hms & ->). intros [= <-]. constructor; [by apply mask_ok_not|done].
  - intros (p & q & s & -> & ->). apply Forall2_cons_inv_r in Hst as (m & ms & Hm & Hms & ->).
    apply Forall2_cons_inv_r in Hms as (n & ns & Hn & Hns & ->). intros [= <-]. constructor; [by apply mask_ok_and|done].
  - intros (p & q & s & -> & ->). apply Forall2_cons_inv_r in Hst as (m & ms & Hm & Hms & ->).
    apply Forall2_cons_inv_r in Hms as (n & ns & Hn & Hns & ->). intros [= <-]. constructor; [by apply mask_ok_or|done].
  - intros -> [= <-]. by constructor.
  - intros -> [= <-]. by constructor.
Qed.

Lemma mask_loop_ok kc h row types elements : forall masks masks' stack stack',
  Forall element_ok elements -> row_in h row -> (length row <= length types)%nat -> (single_point kc = true -> points h) ->
  Forall2 mask_ok masks stack -> evaluates row types elements stack stack' -> mask_loop kc h types masks elements = Ok masks' ->
  Forall2 mask_ok masks' stack'.
Proof.
  induction elements as [|e elements IH]; cbn; intros masks masks' stack stack' He Hrow Hlen Hp Hst; [by intros -> [= <-]|].
  apply Forall_cons in He as [He0 He]. intros (next & Hnext & Hrest). rewrite bind_Ok_inv. intros (ms & Hms & Hmasks).
  eapply (IH ms); try done. by eapply mask_step_ok.
Qed.

(** The mask of a hyperrectangle is right about every row in it. *)
Lemma hyperrectangle_sound kc h row types m tv :
  Forall element_ok (rpn kc) -> row_in h row -> (length row <= length types)%nat -> (single_point kc = true -> points h) ->
  condition_truth kc row types tv -> checkInHyperrectangle kc h types = Ok m -> mask_ok m tv.
Proof.
  intros He Hrow Hlen Hp Ht. unfold checkInHyperrectangle. rewrite bind_Ok_inv. intros (masks & Hmasks & Hm).
  pose proof (mask_loop_ok kc h row types (rpn kc) [] masks [] [tv] He Hrow Hlen Hp (Forall2_nil_2 _ _ mask_ok) Ht Hmasks) as Hall.
  apply Forall2_cons_inv_r in Hall as (m' & ms & Hm' & Hms & ->). apply Forall2_nil_inv_r in Hms as ->. by simplify_eq.
Qed.

(** *** The evaluation succeeds *)
Definition total_function (func : Function V) : Prop := forall type v, exists w, execute func type v = Ok w.

(** Whether an element is a leaf of the expression. *)
Definition is_atom (k : function_kind) : bool := match k with FUNCTION_NOT | FUNCTION_AND | FUNCTION_OR => false | _ => true end.

Definition element_total e : Prop :=
  (is_atom (function e) = true \/ argument_num_of_space_filling_curve e = None) /\
  match function e with
  | FUNCTION_IN_RANGE | FUNCTION_NOT_IN_RANGE => key_columns e <> [] /\ Forall total_function (monotonic_functions_chain e)
  | FUNCTION_IS_NULL | FUNCTION_IS_NOT_NULL => key_columns e <> []
  | FUNCTION_IN_SET | FUNCTION_NOT_IN_SET => exists s, set_index e = Some s /\ set_ok s /\
      Forall (fun m => Forall total_function (MergeTreeSetIndex.functions m)) (MergeTreeSetIndex.indexes_mapping s)
  | _ => True
  end.

(** The depth of the stack after the elements, if they never read below it. *)
Fixpoint depth (n : nat) (elements : list (RPNElement V)) : option nat :=
  match elements with
  | [] => Some n
  | e :: elements =>
    match function e with
    | FUNCTION_NOT => if (1 <=? n)%nat then depth n elements else None
    | FUNCTION_AND | FUNCTION_OR => if (2 <=? n)%nat then depth (n - 1) elements else None
    | _ => depth (S n) elements
    end
  end.

Definition condition_total kc : Prop := Forall element_total (rpn kc) /\ depth 0 (rpn kc) = Some 1%nat.

Lemma applyFunction_total func type f : total_function func -> exists f', applyFunction func type f = Ok f'.
Proof. intros Hf. unfold applyFunction. destruct (field f) as [| |v]; eauto. destruct (Hf type v) as [w ->]. cbn. eauto. Qed.

Lemma chain_total functions : forall type r (sp : bool),
  Forall total_function functions -> exists o, applyMonotonicFunctionsChainToRange r functions type sp = Ok o.
Proof.
  induction functions as [|func functions IH]; intros type r sp Hl; cbn; [eauto|]. apply Forall_cons in Hl as [Hf Hl].
  destruct (negb _); [eauto|]. unfold apply_left. set (skip := functionIsIntegerCastPreservingFieldRepresentation _ _ _).
  assert (Hend : forall f, exists f', (if skip then Ok f else applyFunction func type f) = Ok f')
    by (intros f; destruct skip; [by eexists|by apply applyFunction_total]).
  assert (Hr : forall r, exists r', apply_right func type skip r = Ok r').
  { intros r'. unfold apply_right. destruct (isNull _); [eauto|]. destruct (Hend (right r')) as [g ->]. cbn. eauto. }
  destruct (isNull (field (left r))); [|destruct (Hend (left r)) as [l ->]]; cbn.
  - destruct (Hr r) as [r2 ->]. cbn. by apply IH.
  - destruct (Hr (MakeRange l true (right r) (right_included r))) as [r2 ->]. cbn. by apply IH.
Qed.

Lemma set_check_total s h types (sp : bool) :
  set_ok s -> (length h <= length types)%nat ->
  Forall (fun m => Forall total_function (MergeTreeSetIndex.functions m)) (MergeTreeSetIndex.indexes_mapping s) ->
  exists m, MergeTreeSetIndex.checkInRange s h types sp = Ok m.
Proof.
  intros Hs Hlen Hl. unfold MergeTreeSetIndex.checkInRange.
  assert (Hr : exists o, MergeTreeSetIndex.tuple_ranges h types sp (MergeTreeSetIndex.indexes_mapping s) = Ok o).
  { induction Hl as [|m mapping Hl0 Hl IH]; cbn; [eauto|]. destruct (h !! _) as [r|] eqn:Er; [|eauto].
    assert (Hc : is_Some (types !! MergeTreeSetIndex.key_index m)) by (apply lookup_lt_is_Some; apply lookup_lt_Some in Er; lia).
    destruct Hc as [type ->]. destruct (chain_total _ type r sp Hl0) as [[r'|] ->]; cbn; [|eauto]. destruct IH as [o ->]. cbn. eauto. }
  destruct Hr as [[ranges|] ->]; cbn; [|eauto]. unfold MergeTreeSetIndex.size.
  pose proof (set_nonempty _ Hs) as Hne. pose proof (set_columns _ Hs) as Hcol.
  destruct (MergeTreeSetIndex.ordered_set s) as [|c cs]; [by destruct (MergeTreeSetIndex.indexes_mapping s)|]. cbn.
  repeat case_match; eauto.
Qed.

Lemma mask_step_total kc h types e masks :
  element_total e -> (length h <= length types)%nat ->
  forall n elements, depth (length masks) (e :: elements) = Some n ->
  exists masks', mask_step kc h types masks e = Ok masks' /\ depth (length masks') elements = Some n.
Proof.
  intros [Harg He] Hlen n elements. unfold mask_step. cbn [depth].
  destruct (argument_num_of_space_filling_curve e); [destruct Harg as [Harg|Harg]; [|done]; destruct (function e); (done || eauto)|].
  assert (Hk : key_columns e <> [] -> exists c, getKeyColumn e = Ok c) by (unfold getKeyColumn; destruct (key_columns e); [done|by eauto]).
  destruct (function e) eqn:Ef.
  1,2: destruct He as [[c Hc]%Hk Hl]; unfold range_mask; rewrite Hc; cbn [mbind outcome_bind]; destruct (h !! c) as [r|] eqn:Er; [|by cbn; eauto];
    assert (Ht : is_Some (types !! c)) by (apply lookup_lt_is_Some; apply lookup_lt_Some in Er; lia); destruct Ht as [type Ht]; rewrite Ht;
    assert (Ho : exists o, match monotonic_functions_chain e with [] => Ok (Some r) | _ => applyMonotonicFunctionsChainToRange r (monotonic_functions_chain e) type (single_point kc) end = Ok o)
      by (destruct (chain_total _ type r (single_point kc) Hl) as [o Ho]; rewrite Ho; destruct (monotonic_functions_chain e); eauto);
    destruct Ho as [o Ho]; destruct (monotonic_functions_chain e); rewrite Ho; destruct o; cbn; rewrite ?field_not_NaN; cbn; eauto.
  1,2: destruct He as (s & Hs & Hok & Hl); unfold set_mask; rewrite Hs; destruct (set_check_total s h types (single_point kc) Hok Hlen Hl) as [m ->]; cbn; eauto.
  1,2: destruct (Hk He) as [c Hc]; unfold null_mask; rewrite Hc; cbn; destruct (h !! c); cbn; eauto.
  - eauto.
  - destruct masks as [|m ms]; [done|]. cbn. eauto.
  - destruct masks as [|m [|m' ms]]; [done|done|]. cbn. eauto.
  - destruct masks as [|m [|m' ms]]; [done|done|]. cbn. eauto.
  - eauto.
  - eauto.
Qed.

Lemma hyperrectangle_total kc h types :
  condition_total kc -> (length h <= length types)%nat -> exists m, checkInHyperrectangle kc h types = Ok m.
Proof.
  intros [He Hd] Hlen. unfold checkInHyperrectangle.
  assert (Hloop : forall masks, depth (length masks) (rpn kc) = Some 1%nat ->
    exists masks', mask_loop kc h types masks (rpn kc) = Ok masks' /\ length masks' = 1%nat).
  { clear Hd. induction He as [|e elements He0 He IH]; intros masks Hd; [cbn in Hd; exists masks; split; [done|congruence]|].
    destruct (mask_step_total kc h types e masks He0 Hlen _ _ Hd) as (masks' & Hs & Hd'). cbn [mask_loop]. rewrite Hs. by apply IH. }
  specialize (Hloop [] Hd).
  destruct Hloop as (masks & -> & Hone). destruct masks as [|m [|m' ms]]; [done|by exists m|done].
Qed.
End conditions.
