(* ===== verification/KeyRangeFacts.v ===== *)
(** * The hyperrectangles of a range of keys

    Every row between two keys, in the lexicographic order, is in one of the
    hyperrectangles that [forAnyHyperrectangle] visits before it may stop, so
    the mask it computes is right about the row. *)

From stdpp Require Import prelude.
From Stdlib Require Import ZArith Lia ZifyBool.
From S2P Require Import Prelude Range RangeFacts KeyCondition KeyConditionFacts.
Import KeyCondition.

Section key_ranges.
Context {V : Type} `{ExplicitLaws V}.
Implicit Types (a b : Field V) (h : list (Range V)) (types : list DataType) (row : list (Field V)) (keys : list (FieldRef V)).

Fixpoint lex_le (l r : list (Field V)) : Prop :=
  match l, r with
  | a :: l, b :: r => accurateLess a b = true \/ (accurateEquals a b = true /\ lex_le l r)
  | _, _ => True
  end.

(** The fields of a row have the types of the columns: NULL only where they are nullable. *)
Definition row_typed types row : Prop :=
  (length row <= length types)%nat /\ forall i a type, row !! i = Some a -> types !! i = Some type ->
    isNegativeInfinity a = false /\ (isNull a = true -> isNullableOrLowCardinalityNullable type = true).

(** From the element [p] on, the row is not before the key, or not after it. *)
Definition from_left (bounded : bool) keys row (p : nat) : Prop :=
  bounded = true -> lex_le (drop p (map field keys)) (drop p row).
Definition up_to_right (bounded : bool) keys row (p : nat) : Prop :=
  bounded = true -> lex_le (drop p row) (drop p (map field keys)).

(** The first [p] ranges hold the first [p] fields of the row. *)
Definition agrees (p : nat) h row : Prop := length h = length row /\ row_in (take p h) (take p row).

Lemma agrees_all h row : agrees (length row) h row -> row_in h row.
Proof. intros [Hlen Hin]. by rewrite !take_ge in Hin by lia. Qed.

Lemma agrees_insert p h row r a : agrees p h row -> row !! p = Some a -> member r a = true -> agrees (S p) (<[p := r]> h) row.
Proof.
  intros [Hlen Hin] Ha Hm. split; [by rewrite length_insert|]. pose proof (lookup_lt_Some _ _ _ Ha) as Hlt.
  rewrite (take_S_r (<[p := r]> h) p r) by (apply list_lookup_insert_eq; lia). rewrite (take_S_r row p a Ha), take_insert_ge by done.
  apply Forall2_app; [done|]. by constructor.
Qed.

Lemma agrees_insert_ge p i h row r : (p <= i)%nat -> agrees p h row -> agrees p (<[i := r]> h) row.
Proof. intros Hi [Hlen Hin]. split; [by rewrite length_insert|]. by rewrite take_insert_ge. Qed.

Lemma drop_key keys p f : keys !! p = Some f -> drop p (map field keys) = field f :: drop (S p) (map field keys).
Proof. intros Hf. apply drop_S. by rewrite list_lookup_fmap, Hf. Qed.

Lemma key_at_Ok keys p f : key_at keys p = Ok f -> keys !! p = Some f.
Proof. unfold key_at. destruct (keys !! p); by intros [= <-]. Qed.

Lemma nullable_at_Ok types p (b : bool) : nullable_at types p = Ok b -> exists type, types !! p = Some type /\ b = isNullableOrLowCardinalityNullable type.
Proof. unfold nullable_at. destruct (types !! p) as [type|]; [|done]. intros [= <-]. by exists type. Qed.

(** One step of the two bounds at a field of the row. *)
Lemma from_left_step keys row p f a :
  from_left true keys row p -> keys !! p = Some f -> row !! p = Some a ->
  accurateLess (field f) a = true \/ (accurateEquals (field f) a = true /\ from_left true keys row (S p)).
Proof.
  intros Hl Hf Ha. specialize (Hl eq_refl). rewrite (drop_key _ _ _ Hf), (drop_S _ _ _ Ha) in Hl. destruct Hl as [Hl|[He Hl]]; [by left|right].
  split; [done|]. by intros _.
Qed.

Lemma up_to_right_step keys row p f a :
  up_to_right true keys row p -> keys !! p = Some f -> row !! p = Some a ->
  accurateLess a (field f) = true \/ (accurateEquals a (field f) = true /\ up_to_right true keys row (S p)).
Proof.
  intros Hl Hf Ha. specialize (Hl eq_refl). rewrite (drop_key _ _ _ Hf), (drop_S _ _ _ Ha) in Hl. destruct Hl as [Hl|[He Hl]]; [by left|right].
  split; [done|]. by intros _.
Qed.

Lemma universe_member (with_null : bool) a type :
  isNegativeInfinity a = false /\ (isNull a = true -> isNullableOrLowCardinalityNullable type = true) ->
  with_null = isNullableOrLowCardinalityNullable type -> member (universe with_null) a = true.
Proof. intros [_ Hn] ->. rewrite member_universe. destruct (isNull a); [rewrite Hn by done; done|by rewrite orb_true_r]. Qed.

Lemma unlimited_from_agrees types row n : forall i h h',
  row_typed types row -> (i + n <= length row)%nat -> agrees i h row -> unlimited_from n i types h = Ok h' -> agrees (i + n) h' row.
Proof.
  induction n as [|n IH]; intros i h h' Ht Hlen Ha; cbn; [intros [= <-]; by rewrite Nat.add_0_r|].
  rewrite bind_Ok_inv. intros (b & Hb & Hu). apply nullable_at_Ok in Hb as (type & Hty & ->).
  assert (Hx : is_Some (row !! i)) by (apply lookup_lt_is_Some; lia). destruct Hx as [a Hrow]. pose proof (proj2 Ht _ _ _ Hrow Hty) as Hok.
  rewrite <- Nat.add_succ_comm. eapply IH; [done|lia| |done].
  eapply agrees_insert; [done|done|]. by eapply universe_member.
Qed.

Lemma matching_prefix_agrees left_keys right_keys row n : forall p h h' p',
  (p + n = length row)%nat -> agrees p h row -> from_left true left_keys row p -> up_to_right true right_keys row p ->
  matching_prefix n left_keys right_keys h p = Ok (h', p') ->
  agrees p' h' row /\ from_left true left_keys row p' /\ up_to_right true right_keys row p' /\ (p <= p' <= length row)%nat.
Proof.
  induction n as [|n IH]; intros p h h' p' Hlen Ha Hl Hr; cbn; [intros [= <- <-]; split_and!; try done; lia|].
  rewrite bind_Ok_inv. intros (f & Hf%key_at_Ok & Hc). apply bind_Ok_inv in Hc as (g & Hg%key_at_Ok & Hc).
  destruct (field_eq (field f) (field g)) eqn:E; [|simplify_eq; split_and!; try done; lia]. apply field_eq_equals in E.
  assert (Hx : is_Some (row !! p)) by (apply lookup_lt_is_Some; lia). destruct Hx as [a Hrow].
  pose proof (from_left_step _ _ _ _ _ Hl Hf Hrow) as Hl'. pose proof (up_to_right_step _ _ _ _ _ Hr Hg Hrow) as Hr'.
  assert (Heq : accurateEquals (field f) a = true /\ accurateEquals a (field g) = true).
  { destruct Hl' as [Hl'|[Hl' _]], Hr' as [Hr'|[Hr' _]]; clear - H0 E Hl' Hr'; split; order [field f; a; field g]. }
  destruct Heq as [He1 He2]. destruct Hl' as [Hl'|[_ Hl']]; [exfalso; clear - H0 Hl' He1; order [field f; a]|].
  destruct Hr' as [Hr'|[_ Hr']]; [exfalso; clear - H0 Hr' He2; order [field g; a]|].
  destruct (IH (S p) _ h' p' ltac:(lia) (agrees_insert _ _ _ (point f) a Ha Hrow ltac:(rewrite member_point; clear - H0 He1; order [field f; a])) Hl' Hr' Hc)
    as (? & ? & ? & ?).
  split_and!; try done; lia.
Qed.

(** A field between the ends is in the range made of them. *)
Lemma bounded_member left_keys right_keys (lb rb included : bool) types p r a type :
  bounded_range left_keys right_keys lb rb included types p = Ok r -> types !! p = Some type ->
  isNegativeInfinity a = false /\ (isNull a = true -> isNullableOrLowCardinalityNullable type = true) ->
  (lb = true -> forall f, left_keys !! p = Some f -> if included then accurateLess a (field f) = false else accurateLess (field f) a = true) ->
  (rb = true -> forall g, right_keys !! p = Some g -> if included then accurateLess (field g) a = false else accurateLess a (field g) = true) ->
  lb || rb = true -> member r a = true.
Proof.
  intros Hr Hty [Hneg Hnull] Hl Hg Hb0. unfold bounded_range in Hr.
  assert (Hlow : accurateLess NegativeInfinity a = true) by by destruct a.
  destruct lb, rb; cbn [andb] in Hr.
  - apply bind_Ok_inv in Hr as (f & Hf%key_at_Ok & Hr). apply bind_Ok_inv in Hr as (g & Hg'%key_at_Ok & [= <-]).
    specialize (Hl eq_refl f Hf). specialize (Hg eq_refl g Hg'). rewrite member_mkRange.
    unfold member, rightThan_field, leftThan_field, less, equals. cbn [left right left_included right_included field explicit].
    clear - H0 Hl Hg. destruct included; order [a; field f; field g].
  - apply bind_Ok_inv in Hr as (f & Hf%key_at_Ok & Hr). apply bind_Ok_inv in Hr as (b & Hb & [= <-]).
    apply nullable_at_Ok in Hb as (type' & Hty' & ->). assert (type' = type) as -> by congruence. specialize (Hl eq_refl f Hf). rewrite member_left_bounded.
    unfold member, rightThan_field, leftThan_field, less, equals. cbn [left right left_included right_included field explicit].
    apply andb_true_intro. split; [clear - H0 Hl; destruct included; order [a; field f]|].
    destruct a; [done| |done]. rewrite Hnull by done. done.
  - apply bind_Ok_inv in Hr as (g & Hg'%key_at_Ok & Hr). apply bind_Ok_inv in Hr as (b & Hb & [= <-]). specialize (Hg eq_refl g Hg').
    rewrite member_right_bounded.
    unfold member, rightThan_field, leftThan_field, less, equals. cbn [left right left_included right_included field explicit].
    rewrite Hlow. clear - H0 Hg. destruct included; order [a; field g].
  - done.
Qed.

(** The calls change the hyperrectangle only from the prefix on. *)
Lemma matching_prefix_frame left_keys right_keys n : forall p h h' p',
  matching_prefix n left_keys right_keys h p = Ok (h', p') -> length h' = length h /\ take p h' = take p h /\ (p <= p')%nat.
Proof.
  induction n as [|n IH]; intros p h h' p'; cbn; [by intros [= <- <-]|].
  rewrite bind_Ok_inv. intros (f & _ & Hc). apply bind_Ok_inv in Hc as (g & _ & Hc). destruct (field_eq _ _); [|by simplify_eq].
  apply IH in Hc as (Hlen & Htake & Hp). rewrite length_insert in Hlen. split_and!; [done| |lia].
  apply (f_equal (take p)) in Htake. rewrite !take_take, Nat.min_l in Htake by lia. by rewrite take_insert_ge in Htake.
Qed.

Lemma unlimited_from_frame types n : forall p i h h',
  (p <= i)%nat -> unlimited_from n i types h = Ok h' -> length h' = length h /\ take p h' = take p h.
Proof.
  induction n as [|n IH]; intros p i h h' Hp; cbn; [by intros [= <-]|]. rewrite bind_Ok_inv. intros (b & _ & Hu).
  apply (IH p) in Hu as [Hlen Htake]; [|lia]. by rewrite length_insert in Hlen; rewrite take_insert_ge in Htake.
Qed.

Lemma for_any_frame key_size left_keys right_keys types initial callback fuel : forall (lb rb : bool) h p m h',
  forAnyHyperrectangle fuel key_size left_keys right_keys lb rb h types p initial callback = Ok (m, h') ->
  length h' = length h /\ take p h' = take p h.
Proof.
  induction fuel as [|fuel IH]; intros lb rb h p m h'; cbn [forAnyHyperrectangle]; [done|].
  destruct (negb lb && negb rb); [rewrite bind_Ok_inv; by intros (? & _ & [= _ <-])|].
  rewrite bind_Ok_inv. intros ([h1 p1] & H1 & Hc).
  assert (F1 : length h1 = length h /\ take p h1 = take p h /\ (p <= p1)%nat)
    by (destruct (lb && rb); [by eapply matching_prefix_frame|by simplify_eq]).
  destruct F1 as (L1 & T1 & Hp). rewrite <- L1, <- T1. clear H1 L1 T1. destruct (p1 =? key_size)%nat.
  { apply bind_Ok_inv in Hc as (? & _ & [= _ <-]). done. }
  destruct (p1 + 1 =? key_size)%nat.
  { apply bind_Ok_inv in Hc as (r & _ & Hc). apply bind_Ok_inv in Hc as (? & _ & [= _ <-]). by rewrite length_insert, take_insert_ge. }
  apply bind_Ok_inv in Hc as (r & _ & Hc). apply bind_Ok_inv in Hc as (h2 & H2 & Hc).
  apply (unlimited_from_frame _ _ p) in H2 as [L2 T2]; [|lia]. rewrite length_insert in L2. rewrite take_insert_ge in T2 by lia.
  rewrite <- L2, <- T2. clear L2 T2. apply bind_Ok_inv in Hc as (m2 & _ & Hc). destruct (BoolMask.isComplete _); [by simplify_eq|].
  assert (F : forall f lb' rb' h3 m3 h4, forAnyHyperrectangle fuel key_size left_keys right_keys lb' rb' (<[p1 := point f]> h3) types (p1 + 1)
    initial callback = Ok (m3, h4) -> length h4 = length h3 /\ take p h4 = take p h3).
  { intros f lb' rb' h3 m3 h4 [L T]%IH. rewrite length_insert in L. split; [done|]. apply (f_equal (take p)) in T.
    rewrite !take_take, Nat.min_l in T by lia. by rewrite take_insert_ge in T. }
  apply bind_Ok_inv in Hc as ([m3 h3] & H3 & Hc).
  assert (F3 : length h3 = length h2 /\ take p h3 = take p h2).
  { destruct lb; [|by simplify_eq]. apply bind_Ok_inv in H3 as (l & _ & H3). apply bind_Ok_inv in H3 as ([m4 h4] & H4 & [= _ <-]). by eapply F. }
  destruct F3 as [L3 T3]. rewrite <- L3, <- T3. destruct (lb && _); [by simplify_eq|]. destruct rb; [|by simplify_eq].
  apply bind_Ok_inv in Hc as (l & _ & Hc). apply bind_Ok_inv in Hc as ([m5 h5] & H5 & [= _ <-]). by eapply F.
Qed.

Lemma agrees_frame p h h' row : length h' = length h -> take p h' = take p h -> agrees p h row -> agrees p h' row.
Proof. intros Hlen Ht [Hl Hin]. split; [congruence|]. by rewrite Ht. Qed.

Section soundness.
Context (row : list (Field V)) (types : list DataType) (tv : truth) (left_keys right_keys : list (FieldRef V)) (initial : BoolMask)
  (callback : list (Range V) -> outcome BoolMask).
Hypothesis (typed : row_typed types row).
Hypothesis (callback_sound : forall h m, row_in h row -> callback h = Ok m -> mask_ok m tv).

Abbreviation for_any fuel lb rb h p := (forAnyHyperrectangle fuel (length row) left_keys right_keys lb rb h types p initial callback).

Lemma typed_at p a : row !! p = Some a -> exists type, types !! p = Some type /\
  isNegativeInfinity a = false /\ (isNull a = true -> isNullableOrLowCardinalityNullable type = true).
Proof.
  intros Ha. assert (Hx : is_Some (types !! p)) by (apply lookup_lt_is_Some; apply lookup_lt_Some in Ha; pose proof (proj1 typed); lia).
  destruct Hx as [type Ht]. exists type. split; [done|]. by apply (proj2 typed p).
Qed.

(** Where a field lies: strictly between the keys, or on one of them, and then the rest of the row is bounded by that key's. *)
Lemma bounded_cases (lb rb : bool) p a :
  row !! p = Some a -> from_left lb left_keys row p -> up_to_right rb right_keys row p ->
  ((lb = true -> forall f, left_keys !! p = Some f -> accurateLess (field f) a = true) /\
   (rb = true -> forall g, right_keys !! p = Some g -> accurateLess a (field g) = true)) \/
  (lb = true /\ exists f, left_keys !! p = Some f /\ accurateEquals (field f) a = true /\ from_left true left_keys row (S p)) \/
  (rb = true /\ exists g, right_keys !! p = Some g /\ accurateEquals a (field g) = true /\ up_to_right true right_keys row (S p)).
Proof.
  intros Ha Hl Hr.
  assert (Hl' : (lb = true -> forall f, left_keys !! p = Some f -> accurateLess (field f) a = true) \/
    (lb = true /\ exists f, left_keys !! p = Some f /\ accurateEquals (field f) a = true /\ from_left true left_keys row (S p))).
  { destruct lb; [|by left]. destruct (left_keys !! p) as [f|] eqn:Ef; [|by left].
    destruct (from_left_step _ _ _ _ _ Hl Ef Ha) as [?|[? ?]]; [left; intros _ ? [= <-]; done|right; eauto]. }
  assert (Hr' : (rb = true -> forall g, right_keys !! p = Some g -> accurateLess a (field g) = true) \/
    (rb = true /\ exists g, right_keys !! p = Some g /\ accurateEquals a (field g) = true /\ up_to_right true right_keys row (S p))).
  { destruct rb; [|by left]. destruct (right_keys !! p) as [f|] eqn:Ef; [|by left].
    destruct (up_to_right_step _ _ _ _ _ Hr Ef Ha) as [?|[? ?]]; [left; intros _ ? [= <-]; done|right; eauto]. }
  tauto.
Qed.

(** The last column of the key: its ends belong to the range. *)
Lemma last_column_sound (lb rb : bool) h p r m :
  lb || rb = true -> agrees p h row -> (p + 1 = length row)%nat -> from_left lb left_keys row p -> up_to_right rb right_keys row p ->
  bounded_range left_keys right_keys lb rb true types p = Ok r -> callback (<[p := r]> h) = Ok m -> mask_ok m tv.
Proof.
  intros Hlr Ha Hp Hl Hr Hrange. assert (Hx : is_Some (row !! p)) by (apply lookup_lt_is_Some; lia). destruct Hx as [a Hrow].
  destruct (typed_at _ _ Hrow) as (type & Hty & Hok). apply callback_sound, agrees_all. rewrite <- Hp, Nat.add_1_r.
  eapply agrees_insert; [done|done|]. eapply bounded_member; [done|done|done| | |done]; intros ->.
  - intros f Hf. destruct (from_left_step _ _ _ _ _ Hl Hf Hrow) as [Hx|[Hx _]]; clear - H0 Hx; order [field f; a].
  - intros f Hf. destruct (up_to_right_step _ _ _ _ _ Hr Hf Hrow) as [Hx|[Hx _]]; clear - H0 Hx; order [field f; a].
Qed.

(** The inside of the first column that differs, with everything after it. *)
Lemma inside_sound (lb rb : bool) h p r h2 m a :
  lb || rb = true -> agrees p h row -> row !! p = Some a ->
  (lb = true -> forall f, left_keys !! p = Some f -> accurateLess (field f) a = true) ->
  (rb = true -> forall g, right_keys !! p = Some g -> accurateLess a (field g) = true) ->
  bounded_range left_keys right_keys lb rb false types p = Ok r ->
  unlimited_from (length row - (p + 1)) (p + 1) types (<[p := r]> h) = Ok h2 -> callback h2 = Ok m -> mask_ok m tv.
Proof.
  intros Hlr Ha Hrow Hl Hr Hrange Hu. destruct (typed_at _ _ Hrow) as (type & Hty & Hok). pose proof (lookup_lt_Some _ _ _ Hrow) as Hlt.
  apply callback_sound, agrees_all.
  assert (Hins : agrees (p + 1) (<[p := r]> h) row)
    by (rewrite Nat.add_1_r; eapply agrees_insert; [done|done|]; by eapply bounded_member).
  eapply unlimited_from_agrees in Hu; [|exact typed|lia|exact Hins].
  by replace (p + 1 + (length row - (p + 1)))%nat with (length row) in Hu by lia.
Qed.

Lemma for_any_sound fuel : forall (lb rb : bool) h p m h',
  lb || rb = true -> agrees p h row -> (p <= length row)%nat -> from_left lb left_keys row p -> up_to_right rb right_keys row p ->
  for_any fuel lb rb h p = Ok (m, h') -> mask_ok m tv.
Proof.
  induction fuel as [|fuel IH]; intros lb rb h p m h' Hlr Ha Hp Hl Hr; cbn [forAnyHyperrectangle]; [done|].
  replace (negb lb && negb rb) with false by (destruct lb, rb; done). rewrite bind_Ok_inv. intros ([h1 p1] & H1 & Hc).
  assert (Hpre : agrees p1 h1 row /\ from_left lb left_keys row p1 /\ up_to_right rb right_keys row p1 /\ (p1 <= length row)%nat).
  { destruct (lb && rb) eqn:E; [|by simplify_eq]. apply andb_true_iff in E as [-> ->].
    destruct (matching_prefix_agrees left_keys right_keys row (length row - p) p h h1 p1) as (? & ? & ? & ?); try done; [lia|].
    split_and!; try done; lia. }
  clear h p H1 Ha Hp Hl Hr. destruct Hpre as (Ha & Hl & Hr & Hp). destruct (Nat.eqb_spec p1 (length row)) as [Heq|Hne].
  { apply bind_Ok_inv in Hc as (m' & Hm & [= -> <-]). eapply callback_sound; [|done]. apply agrees_all. by rewrite <- Heq. }
  destruct (Nat.eqb_spec (p1 + 1) (length row)) as [Hlast|Hne'].
  { apply bind_Ok_inv in Hc as (r & Hrange & Hc). apply bind_Ok_inv in Hc as (m' & Hm & [= -> <-]). by eapply last_column_sound. }
  apply bind_Ok_inv in Hc as (r & Hrange & Hc). apply bind_Ok_inv in Hc as (h2 & Hu & Hc). apply bind_Ok_inv in Hc as (m2 & Hm2 & Hc).
  assert (Hx : is_Some (row !! p1)) by (apply lookup_lt_is_Some; lia). destruct Hx as [a Hrow].
  pose proof (bounded_cases lb rb p1 a Hrow Hl Hr) as Hcases.
  assert (Hin : ((lb = true -> forall f, left_keys !! p1 = Some f -> accurateLess (field f) a = true) /\
    (rb = true -> forall g, right_keys !! p1 = Some g -> accurateLess a (field g) = true)) -> mask_ok (BoolMask.combine initial m2) tv).
  { intros [? ?]. apply mask_ok_combine_r. by eapply inside_sound. }
  destruct (BoolMask.isComplete (BoolMask.combine initial m2)) eqn:Ecomp; [simplify_eq; by apply mask_ok_complete|].
  assert (Ha2 : agrees p1 h2 row).
  { destruct (unlimited_from_frame _ _ p1 _ _ _ (Nat.le_add_r p1 1) Hu) as [L T]. rewrite length_insert in L. rewrite take_insert_ge in T by lia. by eapply agrees_frame. }
  apply bind_Ok_inv in Hc as ([m3 h3] & H3 & Hc).
  assert (Hleft : (mask_ok (BoolMask.combine initial m2) tv \/ (lb = true /\ exists f, left_keys !! p1 = Some f /\
      accurateEquals (field f) a = true /\ from_left true left_keys row (S p1)) -> mask_ok m3 tv) /\ agrees p1 h3 row).
  { destruct lb; [|simplify_eq; split; [|done]; by intros [?|[? _]]]. apply bind_Ok_inv in H3 as (l & Hlk%key_at_Ok & H3).
    apply bind_Ok_inv in H3 as ([m4 h4] & H4 & [= <- <-]). split.
    - intros [?|(_ & f & Hf & Heq & Hfl)]; [by apply mask_ok_combine_l|]. simplify_eq. apply mask_ok_combine_r.
      eapply (IH true false _ (p1 + 1)%nat); [done| |lia| |done|done]; rewrite Nat.add_1_r; [|done]. eapply agrees_insert; [done|done|].
      rewrite member_point. clear - H0 Heq. order [field l; a].
    - apply for_any_frame in H4 as [L T]. rewrite length_insert in L. apply (f_equal (take p1)) in T.
      rewrite !take_take, Nat.min_l, take_insert_ge in T by lia. by eapply agrees_frame. }
  destruct Hleft as [Hleft Ha3]. destruct (lb && BoolMask.isComplete m3) eqn:E3.
  { simplify_eq. apply andb_true_iff in E3 as [_ E3]. by apply mask_ok_complete. }
  destruct rb; [|simplify_eq; apply Hleft; destruct Hcases as [?|[?|[? _]]]; [by left; apply Hin|by right|done]].
  apply bind_Ok_inv in Hc as (g & Hgk%key_at_Ok & Hc). apply bind_Ok_inv in Hc as ([m5 h5] & H5 & [= <- <-]).
  destruct Hcases as [Hc|[Hc|(_ & g' & Hg' & Heq & Hfr)]].
  - apply mask_ok_combine_l, Hleft. left. by apply Hin.
  - apply mask_ok_combine_l, Hleft. by right.
  - simplify_eq. apply mask_ok_combine_r. eapply (IH false true _ (p1 + 1)%nat); [done| |lia|done| |done]; rewrite Nat.add_1_r; [|done].
    eapply agrees_insert; [done|done|]. by rewrite member_point.
Qed.
End soundness.

(** *** The traversal ends with a mask *)
Lemma key_at_total (n : nat) keys p : (n <= length keys)%nat -> (p < n)%nat -> exists f, key_at keys p = Ok f.
Proof.
  intros Hk Hp. unfold key_at. assert (Hx : is_Some (keys !! p)) by (apply lookup_lt_is_Some; lia). destruct Hx as [f ->]. eauto.
Qed.

Lemma nullable_at_total (n : nat) types p : (n <= length types)%nat -> (p < n)%nat -> exists nb, nullable_at types p = Ok nb.
Proof.
  intros Hk Hp. unfold nullable_at. assert (Hx : is_Some (types !! p)) by (apply lookup_lt_is_Some; lia). destruct Hx as [f ->]. eauto.
Qed.

Section totality.
Context (n : nat) (types : list DataType) (left_keys right_keys : list (FieldRef V)) (initial : BoolMask)
  (callback : list (Range V) -> outcome BoolMask).
Hypothesis (types_len : (n <= length types)%nat) (left_len : (n <= length left_keys)%nat) (right_len : (n <= length right_keys)%nat).
Hypothesis (callback_total : forall h, length h = n -> exists m, callback h = Ok m).

Lemma matching_prefix_total k : forall p h, (p + k <= n)%nat -> exists h' p', matching_prefix k left_keys right_keys h p = Ok (h', p') /\ (p' <= p + k)%nat.
Proof.
  induction k as [|k IH]; intros p h Hk; cbn; [exists h, p; split; [done|lia]|].
  destruct (key_at_total n left_keys p) as [f ->]; [lia..|]. destruct (key_at_total n right_keys p) as [g ->]; [lia..|]. cbn.
  destruct (field_eq _ _); [|exists h, p; split; [done|lia]]. destruct (IH (S p) (<[p := point f]> h)) as (h' & p' & -> & ?); [lia|].
  exists h', p'. split; [done|lia].
Qed.

Lemma unlimited_from_total k : forall p h, (p + k <= n)%nat -> exists h', unlimited_from k p types h = Ok h'.
Proof.
  induction k as [|k IH]; intros p h Hk; cbn; [eauto|]. destruct (nullable_at_total n types p) as [b ->]; [lia..|]. cbn. apply IH. lia.
Qed.

Lemma bounded_range_total (lb rb included : bool) p : (p < n)%nat -> exists r, bounded_range left_keys right_keys lb rb included types p = Ok r.
Proof.
  intros Hp. unfold bounded_range. destruct (key_at_total n left_keys p) as [f ->]; [lia..|]. destruct (key_at_total n right_keys p) as [g ->]; [lia..|].
  destruct (nullable_at_total n types p) as [b ->]; [lia..|]. destruct (lb && rb), lb; cbn; eauto.
Qed.

Lemma for_any_total fuel : forall (lb rb : bool) h p,
  length h = n -> (p <= n)%nat -> (n - p < fuel)%nat ->
  exists m h', forAnyHyperrectangle fuel n left_keys right_keys lb rb h types p initial callback = Ok (m, h').
Proof.
  induction fuel as [|fuel IH]; intros lb rb h p Hh Hp Hf; [lia|]. cbn [forAnyHyperrectangle].
  destruct (negb lb && negb rb); [destruct (callback_total h Hh) as [m ->]; by exists m, h|].
  assert (H1 : exists h1 p1, (if lb && rb then matching_prefix (n - p) left_keys right_keys h p else Ok (h, p)) = Ok (h1, p1) /\
    length h1 = n /\ (p <= p1 <= n)%nat).
  { destruct (lb && rb); [|exists h, p; split_and!; try done; lia]. destruct (matching_prefix_total (n - p) p h) as (h1 & p1 & E & Hle); [lia|].
    exists h1, p1. rewrite E. apply matching_prefix_frame in E as (L & _ & ?). split_and!; [done|congruence|lia|lia]. }
  destruct H1 as (h1 & p1 & -> & Hh1 & Hp1). cbn [mbind outcome_bind].
  destruct (Nat.eqb_spec p1 n); [destruct (callback_total h1 Hh1) as [m ->]; by exists m, h1|].
  destruct (bounded_range_total lb rb true p1) as [r1 ->]; [lia|]. destruct (bounded_range_total lb rb false p1) as [r2 ->]; [lia|]. cbn [mbind outcome_bind].
  destruct (Nat.eqb_spec (p1 + 1) n).
  { destruct (callback_total (<[p1 := r1]> h1)) as [m ->]; [by rewrite length_insert|]. cbn. eauto. }
  destruct (unlimited_from_total (n - (p1 + 1)) (p1 + 1) (<[p1 := r2]> h1)) as [h2 E2]; [lia|]. rewrite E2. cbn [mbind outcome_bind].
  apply (unlimited_from_frame _ _ 0) in E2 as [L2 _]; [|lia]. rewrite length_insert in L2.
  destruct (callback_total h2) as [m ->]; [congruence|]. cbn [mbind outcome_bind]. destruct (BoolMask.isComplete _); [eauto|].
  destruct (key_at_total n left_keys p1) as [f ->]; [lia..|]. destruct (key_at_total n right_keys p1) as [g ->]; [lia..|]. cbn [mbind outcome_bind].
  assert (Hrec : forall lb' rb' k h3, length h3 = n -> exists m4 h4, forAnyHyperrectangle fuel n left_keys right_keys lb' rb' (<[p1 := point k]> h3) types
    (p1 + 1) initial callback = Ok (m4, h4) /\ length h4 = n).
  { intros lb' rb' k h3 L3. destruct (IH lb' rb' (<[p1 := point k]> h3) (p1 + 1)%nat) as (m4 & h4 & E4); [by rewrite length_insert|lia|lia|].
    exists m4, h4. split; [done|]. apply for_any_frame in E4 as [L4 _]. by rewrite length_insert, L3 in L4. }
  assert (L2' : length h2 = n) by congruence. destruct lb; cbn [mbind outcome_bind andb].
  - destruct (Hrec true false f h2 L2') as (m4 & h4 & -> & L4). cbn [mbind outcome_bind]. destruct (BoolMask.isComplete _); [eauto|].
    destruct rb; [|eauto]. destruct (Hrec false true g h4 L4) as (m5 & h5 & -> & _). cbn. eauto.
  - destruct rb; [|eauto]. destruct (Hrec false true g h2 L2') as (m5 & h5 & -> & _). cbn. eauto.
Qed.
End totality.

(** ** The check of a range of keys *)
Lemma initial_ranges_total types n :
  (n <= length types)%nat ->
  exists h, mapM (fun i => with_null ← nullable_at types i; Ok (universe (V := V) with_null)) (seq 0 n) = Ok h /\ length h = n.
Proof.
  intros Hn. destruct (mapM_Ok (fun i => with_null ← nullable_at types i; Ok (universe (V := V) with_null)) (seq 0 n)) as (h & Hh & Hall).
  - intros i Hi. apply elem_of_seq in Hi. destruct (nullable_at_total n types i Hn) as [b ->]; [lia|]. cbn. eauto.
  - exists h. split; [done|]. apply Forall2_length in Hall. by rewrite length_seq in Hall.
Qed.

Lemma key_range_sound kc row types left_keys right_keys initial m tv :
  Forall element_ok (rpn kc) -> single_point kc = false -> row_typed types row ->
  lex_le (map field left_keys) row -> lex_le row (map field right_keys) -> condition_truth kc row types tv ->
  checkInRange kc (length row) left_keys right_keys types initial = Ok m -> mask_ok m tv.
Proof.
  intros He Hsp Ht Hl Hr Htv. unfold checkInRange. rewrite bind_Ok_inv. intros (h & Hh & Hc).
  apply bind_Ok_inv in Hc as ([m' h'] & Hc & [= ->]).
  pose proof (proj1 Ht) as Hlen. destruct (initial_ranges_total types (length row)) as (h0 & Hh0 & L0); [lia|].
  rewrite Hh0 in Hh. simplify_eq.
  refine (for_any_sound row types tv left_keys right_keys initial _ Ht _ _ true true _ 0 m h' eq_refl _ (Nat.le_0_l _) _ _ Hc).
  - intros h2 m2 Hin Hm2. apply (hyperrectangle_sound kc h2 row types m2 tv); try done; congruence.
  - split; [done|]. constructor.
  - by intros _.
  - by intros _.
Qed.

Lemma key_range_total kc n types left_keys right_keys initial :
  condition_total kc -> (n <= length types)%nat -> (n <= length left_keys)%nat -> (n <= length right_keys)%nat ->
  exists m, checkInRange kc n left_keys right_keys types initial = Ok m.
Proof.
  intros Hc Hty Hl Hr. unfold checkInRange. destruct (initial_ranges_total types n Hty) as (h & -> & Lh). cbn [mbind outcome_bind].
  destruct (for_any_total n types left_keys right_keys initial (fun h => checkInHyperrectangle kc h types)) with
    (fuel := S n) (lb := true) (rb := true) (h := h) (p := 0%nat) as (m & h' & ->); try done; try lia.
  - intros h2 L2. apply hyperrectangle_total; [done|lia].
  - cbn. eauto.
Qed.
End key_ranges.
