(* ===== verification/SetIndexFacts.v ===== *)
(** * The set index as it is built

    [MergeTreeSetIndex::MergeTreeSetIndex] keeps the tuples of the set on the
    columns of the key, sorted, so the index is one that the lemmas of
    [KeyConditionFacts] speak of. *)

From stdpp Require Import prelude sorting.
From Stdlib Require Import ZArith Lia ZifyBool.
From S2P Require Import Prelude Range RangeFacts KeyCondition KeyConditionFacts.
Import MergeTreeSetIndex.

Section building.
Context {V : Type} `{ExplicitLaws V}.
Implicit Types (a b c : Field V) (x y z : list (Field V)) (columns : list (list (Field V))) (mapping : list (KeyTuplePositionMapping V)).

(** ** The order of tuples *)
Lemma compareAt_opp a b : compareAt b a = CompOpp (compareAt a b).
Proof. unfold compareAt. rewrite !accurateEquals_spec. pose proof (accurateLess_asym a b) as Hab. destruct (accurateLess a b), (accurateLess b a); try done. by specialize (Hab eq_refl). Qed.

Lemma compare_tuples_opp x : forall y, compare_tuples y x = CompOpp (compare_tuples x y).
Proof. induction x as [|a x IH]; intros [|b y]; cbn; try done. rewrite (compareAt_opp a b). destruct (compareAt a b); cbn; [apply IH|done|done]. Qed.

#[export] Instance set_tuple_le_total : Total (tuple_le (V := V)).
Proof. intros x y. unfold tuple_le. rewrite (compare_tuples_opp x y). destruct (compare_tuples x y); cbn; [left|left|right]; done. Qed.

Lemma compareAt_trans a b c : compareAt a b <> Gt -> compareAt b c <> Gt ->
  compareAt a c <> Gt /\ (compareAt a c = Eq -> compareAt a b = Eq /\ compareAt b c = Eq).
Proof.
  unfold compareAt. destruct (accurateLess a b) eqn:E1, (accurateEquals a b) eqn:E2, (accurateLess b c) eqn:E3, (accurateEquals b c) eqn:E4,
    (accurateLess a c) eqn:E5, (accurateEquals a c) eqn:E6; intros H1 H2; try (split; [done|done]); try done; exfalso; clear H1 H2; order [a; b; c].
Qed.

Lemma tuple_le_trans_at x : forall y z, tuple_le x y -> tuple_le y z -> tuple_le x z.
Proof.
  unfold tuple_le. induction x as [|a x IH]; intros [|b y] [|c z]; cbn; try done. intros H1 H2.
  destruct (compareAt_trans a b c) as [H3 H4]; [by destruct (compareAt a b)|by destruct (compareAt b c)|].
  destruct (compareAt a c); [|done|done]. destruct (H4 eq_refl) as [E1 E2]. rewrite E1 in H1. rewrite E2 in H2. by apply (IH y).
Qed.

#[export] Instance tuple_le_transitive : Transitive (tuple_le (V := V)).
Proof. intros x y z. apply tuple_le_trans_at. Qed.

(** ** Sorting the rows of columns *)
Definition heights (n : nat) columns : Prop := Forall (fun column => length column = n) columns.

Lemma map_lookup_seq x : map (fun i => default PositiveInfinity (x !! i)) (seq 0 (length x)) = x.
Proof.
  apply list_eq. intros i. destruct (decide (i < length x)%nat) as [Hi|Hi].
  - rewrite list_lookup_fmap, lookup_seq_lt by done. cbn. destruct (lookup_lt_is_Some_2 x i Hi) as [a ->]. done.
  - rewrite !lookup_ge_None_2; [done|lia|rewrite length_map, length_seq; lia].
Qed.

Definition sorted_rows columns (n : nat) : list (list (Field V)) := merge_sort tuple_le (map (tuple_at columns) (seq 0 n)).

Lemma sorted_rows_perm columns n : sorted_rows columns n ≡ₚ map (tuple_at columns) (seq 0 n).
Proof. apply merge_sort_Permutation. Qed.

Lemma sorted_rows_length columns n : length (sorted_rows columns n) = n.
Proof. rewrite sorted_rows_perm, length_map. apply length_seq. Qed.

Lemma sorted_rows_elem columns n x : x ∈ sorted_rows columns n <-> exists j, (j < n)%nat /\ x = tuple_at columns j.
Proof.
  rewrite sorted_rows_perm, list_elem_of_fmap. split.
  - intros (j & -> & Hj). apply elem_of_seq in Hj. exists j. split; [lia|done].
  - intros (j & Hj & ->). exists j. split; [done|]. apply elem_of_seq. lia.
Qed.

Lemma sorted_rows_width columns n j x : sorted_rows columns n !! j = Some x -> length x = length columns.
Proof. intros Hx%list_elem_of_lookup_2. apply sorted_rows_elem in Hx as (k & _ & ->). apply tuple_at_length. Qed.

Lemma sortBlock_tuple columns n j x :
  columns <> [] -> heights n columns -> sorted_rows columns n !! j = Some x -> tuple_at (sortBlock columns) j = x.
Proof.
  intros Hne Hh Hx. unfold sortBlock. replace (length (default [] (head columns))) with n by (destruct Hh as [|c cs Hc Hcs]; done).
  fold (sorted_rows columns n). unfold tuple_at. rewrite map_map, <- (sorted_rows_width _ _ _ _ Hx).
  etrans; [|apply (map_lookup_seq x)]. apply map_ext. intros i. unfold column_of. rewrite list_lookup_fmap, Hx. done.
Qed.

Lemma sortBlock_heights columns n : columns <> [] -> heights n columns -> heights n (sortBlock columns).
Proof.
  intros Hne Hh. unfold sortBlock. replace (length (default [] (head columns))) with n by (destruct Hh as [|c cs Hc Hcs]; done).
  fold (sorted_rows columns n). apply Forall_map, Forall_forall. intros i _. cbn. unfold column_of. by rewrite length_map, sorted_rows_length.
Qed.

Lemma sortBlock_length columns : length (sortBlock columns) = length columns.
Proof. unfold sortBlock. by rewrite length_map, length_seq. Qed.

(** ** The mapping of key columns *)
Lemma unique_step (p q : KeyTuplePositionMapping V) l : unique (p :: q :: l) =
  match unique (q :: l) with
  | d :: u => if bool_decide (key_index p = key_index d) then p :: u else p :: d :: u
  | [] => [p]
  end.
Proof. done. Qed.

Lemma unique_sub mapping m : m ∈ unique mapping -> m ∈ mapping.
Proof.
  induction mapping as [|p [|q l] IH]; [done|done|]. rewrite unique_step. destruct (unique (q :: l)) as [|d u]; [intros ->%list_elem_of_singleton; by left|].
  case_bool_decide; intros Hm; (apply elem_of_cons in Hm as [->|Hm]; [by left|right; apply IH]); [by right|done].
Qed.

Lemma unique_nonempty mapping : mapping <> [] -> unique mapping <> [].
Proof. destruct mapping as [|p [|q l]]; [done|done|]. rewrite unique_step. intros _. destruct (unique (q :: l)); [done|]. by case_bool_decide. Qed.

Definition used_mapping mapping : list (KeyTuplePositionMapping V) := unique (merge_sort mapping_le mapping).

Lemma used_mapping_sub mapping m : m ∈ used_mapping mapping -> m ∈ mapping.
Proof. intros Hm%unique_sub. by rewrite merge_sort_Permutation in Hm. Qed.

(** Nothing is dropped when the key columns are distinct. *)
Lemma unique_distinct mapping : NoDup (key_index <$> mapping) -> unique mapping = mapping.
Proof.
  induction mapping as [|p [|q l] IH]; [done|done|]. intros [Hp Hl]%NoDup_cons. rewrite unique_step, IH by done.
  rewrite bool_decide_false; [done|]. intros E. apply Hp. cbn. rewrite E. by left.
Qed.

Lemma used_mapping_distinct mapping : NoDup (key_index <$> mapping) -> used_mapping mapping ≡ₚ mapping.
Proof.
  intros Hn. unfold used_mapping. rewrite unique_distinct by (by rewrite merge_sort_Permutation). apply merge_sort_Permutation.
Qed.

Lemma used_mapping_nonempty mapping : mapping <> [] -> used_mapping mapping <> [].
Proof. intros Hne. apply unique_nonempty. intros E. pose proof (merge_sort_Permutation mapping_le mapping) as Hp. rewrite E in Hp. by apply Permutation_nil_l in Hp. Qed.

Lemma pick_columns_spec (set_elements : list (list (Field V))) mapping :
  Forall (fun m => (tuple_index m < length set_elements)%nat) mapping ->
  exists columns, pick_columns set_elements mapping = Ok columns /\ Forall2 (fun m column => set_elements !! tuple_index m = Some column) mapping columns.
Proof.
  induction 1 as [|m mapping Hm _ IH]; cbn; [by exists []|]. destruct (lookup_lt_is_Some_2 _ _ Hm) as [column Hc]. rewrite Hc.
  destruct IH as (columns & -> & Hall). cbn. exists (column :: columns). split; [done|]. by constructor.
Qed.

(** ** The constructor *)

(** A tuple is in the set when it equals, on the used columns, a row of the elements. *)
Definition in_elements (set_elements : list (list (Field V))) mapping (n : nat) (ys : list (Field V)) : Prop :=
  exists j, (j < n)%nat /\
    Forall2 (fun a m => equal a (default PositiveInfinity (default [] (set_elements !! tuple_index m) !! j))) ys (used_mapping mapping).

Lemma picked_tuple columns (set_elements : list (list (Field V))) mapping j :
  Forall2 (fun m column => set_elements !! tuple_index m = Some column) mapping columns ->
  forall ys, Forall2 equal ys (tuple_at columns j) <->
    Forall2 (fun a m => equal a (default PositiveInfinity (default [] (set_elements !! tuple_index m) !! j))) ys mapping.
Proof.
  induction 1 as [|m column mapping columns Hc _ IH]; intros ys; cbn.
  - split; intros E%Forall2_nil_inv_r; subst; constructor.
  - split; intros E; apply Forall2_cons_inv_r in E as (y & ys' & Hy & Hys & ->); (constructor; [|by apply IH]); rewrite Hc in *; exact Hy.
Qed.

(** ** The tuple of a row

    The set is given by its columns; the tuple of a row has a value for each
    of them, and those that the mapping names are computed from the key. *)
Definition tuple_in_set (set_elements : list (list (Field V))) (n : nat) (ws : list (Field V)) : Prop :=
  exists j, (j < n)%nat /\ Forall2 (fun a column => equal a (default PositiveInfinity (column !! j))) ws set_elements.

Definition row_tuple (row : list (Field V)) (types : list DataType) mapping (ws : list (Field V)) : Prop :=
  Forall (fun m => exists a type b, row !! key_index m = Some a /\ types !! key_index m = Some type /\
                   chain_field (functions m) type a = Ok b /\ ws !! tuple_index m = Some b) mapping.

Lemma row_tuple_values row types ws mapping : row_tuple row types mapping ws ->
  exists ys, tuple_values row types mapping = Ok (Some ys) /\ Forall2 (fun b m => ws !! tuple_index m = Some b) ys mapping.
Proof.
  induction 1 as [|m mapping (a & type & y & Ha & Ht & Hy & Hw) _ (ys & Hys & Hall)]; [by exists []|].
  exists (y :: ys). cbn. rewrite Ha, Ht, Hy. cbn. rewrite Hys. cbn. split; [done|]. by constructor.
Qed.

(** The whole tuple is in the set: so it is on the used columns. *)
Lemma tuple_in_elements (set_elements : list (list (Field V))) mapping n ws ys :
  Forall2 (fun b m => ws !! tuple_index m = Some b) ys (used_mapping mapping) ->
  tuple_in_set set_elements n ws -> in_elements set_elements mapping n ys.
Proof.
  intros Hys (j & Hj & Hws). exists j. split; [done|]. eapply Forall2_impl; [exact Hys|]. cbn. intros y m Hy.
  destruct (Forall2_lookup_l _ _ _ _ _ Hws Hy) as (column & Hc & He). by rewrite Hc.
Qed.

(** Conversely when the mapping is one to one. *)
Lemma elements_tuple_in (set_elements : list (list (Field V))) mapping n ws ys :
  NoDup (key_index <$> mapping) -> NoDup (tuple_index <$> mapping) -> Forall (fun m => (tuple_index m < length set_elements)%nat) mapping ->
  length set_elements = length mapping -> length ws = length set_elements ->
  Forall2 (fun b m => ws !! tuple_index m = Some b) ys (used_mapping mapping) ->
  in_elements set_elements mapping n ys -> tuple_in_set set_elements n ws.
Proof.
  intros Hk Ht Hlt Hlen Hws Hys (j & Hj & He). exists j. split; [done|]. apply Forall2_same_length_lookup_2; [done|]. intros i w column Hw Hc.
  assert (i ∈ tuple_index <$> mapping) as Hi.
  { apply list_elem_of_In. apply (NoDup_length_incl (l := tuple_index <$> mapping) (l' := seq 0 (length set_elements))).
    - by apply NoDup_ListNoDup.
    - rewrite length_seq, length_fmap. lia.
    - intros k (m & -> & Hm)%list_elem_of_In%list_elem_of_fmap. apply in_seq. rewrite Forall_forall in Hlt. specialize (Hlt m Hm). lia.
    - apply in_seq. apply lookup_lt_Some in Hc. lia. }
  apply list_elem_of_fmap in Hi as (m & -> & Hm). rewrite <- (used_mapping_distinct mapping Hk) in Hm.
  apply list_elem_of_lookup in Hm as [k Hm]. destruct (Forall2_lookup_r _ _ _ _ _ Hys Hm) as (y & Hy & Ey).
  pose proof (Forall2_lookup_lr _ _ _ _ _ _ He Hy Hm) as Heq. cbv beta in Heq, Ey. rewrite Hw in Ey. injection Ey as ->. by rewrite Hc in Heq.
Qed.

(** An index of sorted columns. *)
Section sorted_columns.
Context columns mapping (n : nat) (all_keys : bool).
Hypothesis (columns_nonempty : columns <> []) (columns_heights : heights n columns).

Let index := Make all_keys (sortBlock columns) mapping.

Lemma sorted_size : size index = Ok n.
Proof.
  unfold size. cbn. pose proof (sortBlock_heights _ _ columns_nonempty columns_heights) as Hh. pose proof (sortBlock_length columns) as L.
  destruct (sortBlock columns) as [|c cs]; [by destruct columns|]. apply Forall_cons in Hh as [-> _]. done.
Qed.

Lemma sorted_tuple j : (j < n)%nat -> exists x, sorted_rows columns n !! j = Some x /\ tuple_at (ordered_set index) j = x.
Proof.
  intros Hj. destruct (lookup_lt_is_Some_2 (sorted_rows columns n) j) as [x Hx]; [by rewrite sorted_rows_length|]. exists x. split; [done|]. by eapply sortBlock_tuple.
Qed.

Lemma sorted_finite j : Forall (Forall (fun a => isNegativeInfinity a = false)) columns ->
  Forall (fun a => isNegativeInfinity a = false) (tuple_at (ordered_set index) j).
Proof.
  intros Hfin. destruct (decide (j < n)%nat) as [Hj|Hj].
  - destruct (sorted_tuple j Hj) as (x & Hx & ->). apply list_elem_of_lookup_2, sorted_rows_elem in Hx as (k & Hk & ->). unfold tuple_at.
    apply Forall_map. eapply Forall_impl; [exact Hfin|]. cbn. intros column Hc. destruct (column !! k) as [a|] eqn:E; [|done].
    rewrite Forall_lookup in Hc. by eapply Hc.
  - unfold tuple_at. apply Forall_map. eapply Forall_impl; [exact (sortBlock_heights _ _ columns_nonempty columns_heights)|]. cbn. intros column Hc.
    rewrite lookup_ge_None_2 by lia. done.
Qed.

Lemma sorted_ascending i j : (i <= j < n)%nat -> tuple_le (tuple_at (ordered_set index) i) (tuple_at (ordered_set index) j).
Proof.
  intros Hij. destruct (sorted_tuple i ltac:(lia)) as (x & Hx & ->). destruct (sorted_tuple j ltac:(lia)) as (y & Hy & ->).
  destruct (decide (i = j)) as [->|Hne]; [simplify_eq; match goal with |- tuple_le ?u ?u => by destruct (set_tuple_le_total u u) end|].
  pose proof (StronglySorted_merge_sort tuple_le (map (tuple_at columns) (seq 0 n))) as Hsort. fold (sorted_rows columns n) in Hsort.
  apply (StronglySorted_app_1_elem_of tuple_le (take j (sorted_rows columns n)) (drop j (sorted_rows columns n))); [by rewrite take_drop| |].
  - apply (list_elem_of_lookup_2 _ i). rewrite lookup_take_lt by lia. exact Hx.
  - apply (list_elem_of_lookup_2 _ 0). by rewrite lookup_drop, Nat.add_0_r.
Qed.

Lemma in_sorted ys : in_set index ys <-> exists k, (k < n)%nat /\ Forall2 equal ys (tuple_at columns k).
Proof.
  unfold in_set. rewrite sorted_size. split.
  - intros (n' & j & [= <-] & Hj & Hys). destruct (sorted_tuple j Hj) as (x & Hx & E). rewrite E in Hys.
    apply list_elem_of_lookup_2, sorted_rows_elem in Hx as (k & Hk & ->). by exists k.
  - intros (k & Hk & Hys). assert (Hx : tuple_at columns k ∈ sorted_rows columns n) by (apply sorted_rows_elem; eauto).
    apply list_elem_of_lookup_1 in Hx as [j Hj]. assert (Hjn : (j < n)%nat) by (apply lookup_lt_Some in Hj; by rewrite sorted_rows_length in Hj).
    exists n, j. split_and!; [done|done|]. destruct (sorted_tuple j Hjn) as (x & Hx & ->). by simplify_eq.
Qed.
End sorted_columns.

Lemma make_spec (set_elements : list (list (Field V))) mapping n :
  mapping <> [] -> heights n set_elements -> Forall (fun m => (tuple_index m < length set_elements)%nat) mapping ->
  Forall (fun m => Forall LawfulFunction (functions m)) mapping ->
  Forall (Forall (fun a => isNegativeInfinity a = false)) set_elements ->
  exists s, make set_elements mapping = Ok s /\ set_ok s /\ indexes_mapping s = used_mapping mapping /\
    has_all_keys s = bool_decide (length set_elements = length mapping) /\ forall ys, in_set s ys <-> in_elements set_elements mapping n ys.
Proof.
  intros Hne Hh Hidx Hl Hfin. unfold make. fold (used_mapping mapping).
  assert (Hsub : forall P, Forall P mapping -> Forall P (used_mapping mapping))
    by (intros P HP; rewrite Forall_forall in HP |- *; intros m Hm; apply HP; by apply used_mapping_sub).
  destruct (pick_columns_spec set_elements (used_mapping mapping)) as (columns & -> & Hpick); [by apply Hsub|]. cbn [mbind outcome_bind].
  assert (Hcols : columns <> []) by (intros ->; apply Forall2_nil_inv_r in Hpick; by apply (used_mapping_nonempty mapping)).
  assert (Hin : forall P : list (Field V) -> Prop, Forall P set_elements -> Forall P columns).
  { intros P HP. apply Forall_lookup. intros i column Hc. destruct (Forall2_lookup_r _ _ _ _ _ Hpick Hc) as (m & _ & Hm). rewrite Forall_lookup in HP. by eapply HP. }
  apply Hin in Hh, Hfin. eexists. split; [done|]. split_and!; [|done|done|].
  - split; cbn [ordered_set indexes_mapping].
    + by apply used_mapping_nonempty.
    + rewrite sortBlock_length. symmetry. by apply Forall2_length in Hpick.
    + by apply Hsub.
    + intros j. by eapply (sorted_finite columns (used_mapping mapping) n true).
    + intros n' i j Hn' Hij. rewrite (sorted_size columns _ n) in Hn' by done. injection Hn' as <-. by eapply (sorted_ascending columns (used_mapping mapping) n true).
  - intros ys. rewrite (in_sorted columns _ n) by done. unfold in_elements. split; intros (k & Hk & Hys); exists k; (split; [done|]); by eapply picked_tuple.
Qed.
End building.
