(* ===== verification/MarkSelection.v ===== *)
(** * Marks that may hold rows of a query

    [MergeTreeDataSelectExecutor::markRangesFromPKRange] and the rounding of
    settings to marks, of [src/Storages/MergeTree/MergeTreeDataSelectExecutor.cpp]:
    from the primary index of a part, kept in memory as one row per mark, the
    ranges of marks in which the conditions on the key and on the positions of
    rows can be true.  Logging and profile events are left out; the build has
    [NDEBUG]. *)

From stdpp Require Import prelude.
From Stdlib Require Import ZArith Lia.
From S2P Require Import Prelude Granularity Range KeyCondition.
Import MarkRange.

(** [roundRowsOrBytesToMarks], [minMarksForConcurrentRead]. *)
Definition roundRowsOrBytesToMarks (rows_setting bytes_setting rows_granularity bytes_granularity : Z) : outcome Z :=
  _ ← defined (negb (rows_granularity =? 0));
  let res := wrap 64 (wrap 64 (rows_setting + rows_granularity) - 1) / rows_granularity in
  if bytes_granularity =? 0 then Ok res
  else Ok (Z.max res (wrap 64 (wrap 64 (bytes_setting + bytes_granularity) - 1) / bytes_granularity)).

Definition minMarksForConcurrentRead (rows_setting bytes_setting rows_granularity bytes_granularity min_marks max_marks : Z) : outcome Z :=
  marks ← if wrap 64 (rows_setting + rows_granularity) <=? rows_setting then Ok max_marks
    else if negb (rows_setting =? 0) then
      _ ← defined (negb (rows_granularity =? 0));
      Ok (wrap 64 (wrap 64 (rows_setting + rows_granularity) - 1) / rows_granularity)
    else Ok 1;
  let marks := if negb (bytes_granularity =? 0) then
      if wrap 64 (bytes_setting + bytes_granularity) <=? bytes_setting then max_marks
      else if negb (bytes_setting =? 0) then Z.max marks (wrap 64 (wrap 64 (bytes_setting + bytes_granularity) - 1) / bytes_granularity)
      else marks
    else marks in
  Ok (Z.max marks min_marks).

Inductive SearchAlgorithm := Unknown | BinarySearch | GenericExclusionSearch.

(** Ranges found so far, those that match in full, and how they were found.
    The vectors under construction have their last element first. *)
Record MarkRanges := MakeMarkRanges {
  ranges : list MarkRange.t;
  exact_ranges : list MarkRange.t;
  search_algorithm : SearchAlgorithm }.

(** ** The two searches

    [check] is the lambda [check_in_range]. *)
Section searches.
Context (check : MarkRange.t -> BoolMask -> outcome BoolMask).

(** A new range, or the last one prolonged when the gap is no wider than a seek. *)
Definition append_or_extend (min_marks_for_seek : Z) (range : MarkRange.t) (res : list MarkRange.t) : list MarkRange.t :=
  match res with
  | [] => [range]
  | last :: rest => if min_marks_for_seek <? wrap 64 (begin range - end_ last) then range :: res
    else Make (begin last) (end_ range) :: rest
  end.

(** [for (end = range.end; end > range.begin + step; end -= step)] with the push after it. *)
Fixpoint push_pieces (fuel : nat) (begin step end_ : Z) (ranges_stack : list MarkRange.t) : list MarkRange.t :=
  match fuel with
  | O => Make begin end_ :: ranges_stack
  | S fuel =>
    if wrap 64 (begin + step) <? end_ then push_pieces fuel begin step (wrap 64 (end_ - step)) (Make (wrap 64 (end_ - step)) end_ :: ranges_stack)
    else Make begin end_ :: ranges_stack
  end.

(** The loop over the stack of segments; it stops when the stack is empty. *)
Fixpoint exclusion_loop (fuel : nat) (coarse_index_granularity min_marks_for_seek : Z) (want_exact : bool)
    (ranges_stack res exact : list MarkRange.t) : outcome (list MarkRange.t * list MarkRange.t) :=
  match ranges_stack with
  | [] => Ok (res, exact)
  | range :: ranges_stack =>
    match fuel with
    | O => Undef
    | S fuel =>
      let one_mark := end_ range =? wrap 64 (begin range + 1) in
      result ← check range (if want_exact && one_mark then Mask false false else BoolMask.consider_only_can_be_true);
      if negb (can_be_true result) then exclusion_loop fuel coarse_index_granularity min_marks_for_seek want_exact ranges_stack res exact
      else if one_mark then
        exclusion_loop fuel coarse_index_granularity min_marks_for_seek want_exact ranges_stack
          (append_or_extend min_marks_for_seek range res)
          (if want_exact && negb (can_be_false result) then append_or_extend min_marks_for_seek range exact else exact)
      else
        let step := wrap 64 (wrap 64 (wrap 64 (end_ range - begin range) - 1) / coarse_index_granularity + 1) in
        exclusion_loop fuel coarse_index_granularity min_marks_for_seek want_exact
          (push_pieces (Z.to_nat (end_ range - begin range)) (begin range) step (end_ range) ranges_stack) res exact
    end
  end.

Definition exclusion_fuel (range : MarkRange.t) : nat := Z.to_nat (2 * (end_ range - begin range)).

Fixpoint exclusion_search (coarse_index_granularity min_marks_for_seek : Z) (want_exact : bool)
    (part_ranges res exact : list MarkRange.t) : outcome (list MarkRange.t * list MarkRange.t) :=
  match part_ranges with
  | [] => Ok (res, exact)
  | part_range :: part_ranges =>
    '(res, exact) ← exclusion_loop (exclusion_fuel part_range) coarse_index_granularity min_marks_for_seek want_exact [part_range] res exact;
    exclusion_search coarse_index_granularity min_marks_for_seek want_exact part_ranges res exact
  end.

(** The two loops of the binary search; [fuel] bounds the distance of the borders. *)
Fixpoint left_border (fuel : nat) (searched_left searched_right : Z) : outcome Z :=
  if wrap 64 (searched_left + 1) <? searched_right then
    match fuel with
    | O => Undef
    | S fuel =>
      let middle := wrap 64 (searched_left + searched_right) / 2 in
      m ← check (Make 0 middle) BoolMask.consider_only_can_be_true;
      if can_be_true m then left_border fuel searched_left middle else left_border fuel middle searched_right
    end
  else Ok searched_left.

Fixpoint right_border (fuel : nat) (part_end searched_left searched_right : Z) : outcome Z :=
  if wrap 64 (searched_left + 1) <? searched_right then
    match fuel with
    | O => Undef
    | S fuel =>
      let middle := wrap 64 (searched_left + searched_right) / 2 in
      m ← check (Make middle part_end) BoolMask.consider_only_can_be_true;
      if can_be_true m then right_border fuel part_end middle searched_right else right_border fuel part_end searched_left middle
    end
  else Ok searched_right.

(** The marks of a found range that match in full, if they are a range. *)
Definition exact_part (range : MarkRange.t) : outcome (option MarkRange.t) :=
  range ← if begin range <? end_ range then
      m ← check (Make (begin range) (wrap 64 (begin range + 1))) BoolMask.consider_only_can_be_false;
      Ok (if can_be_false m then Make (wrap 64 (begin range + 1)) (end_ range) else range)
    else Ok range;
  range ← if begin range <? end_ range then
      m ← check (Make (wrap 64 (end_ range - 1)) (end_ range)) BoolMask.consider_only_can_be_false;
      Ok (if can_be_false m then Make (begin range) (wrap 64 (end_ range - 1)) else range)
    else Ok range;
  if begin range <? end_ range then
    m ← check range BoolMask.consider_only_can_be_false;
    Ok (if can_be_false m then None else Some range)
  else Ok None.

Definition search_part (want_exact : bool) (part_range : MarkRange.t) (res exact : list MarkRange.t)
    : outcome (list MarkRange.t * list MarkRange.t) :=
  let fuel := Z.to_nat (end_ part_range - begin part_range + 1) in
  searched_left ← left_border fuel (begin part_range) (wrap 64 (end_ part_range + 1));
  searched_right ← right_border fuel (end_ part_range) searched_left (end_ part_range);
  let result_range := Make searched_left searched_right in
  if begin result_range <? end_ result_range then
    exact ← if want_exact then
        o ← exact_part result_range;
        Ok (match o with Some r => r :: exact | None => exact end)
      else Ok exact;
    Ok (result_range :: res, exact)
  else Ok (res, exact).

Fixpoint binary_search (want_exact : bool) (part_ranges res exact : list MarkRange.t) : outcome (list MarkRange.t * list MarkRange.t) :=
  match part_ranges with
  | [] => Ok (res, exact)
  | part_range :: part_ranges =>
    '(res, exact) ← search_part want_exact part_range res exact;
    binary_search want_exact part_ranges res exact
  end.
End searches.

(** ** Parts and settings *)

(** The values of the virtual columns [_part_offset] and [_part]. *)
Class VirtualColumns (V : Type) := { of_uint64 : Z -> V; of_name : list Z -> V }.

(** A column of the index holds NULL as [None].  Columns at the end of the
    primary key may be missing from memory. *)
Record Part (V G : Type) := MakePart {
  part_name : list Z;
  index_granularity : G;
  fixed_index_granularity : Z;
  index_granularity_bytes : Z;
  index : list (list (option V)) }.
Arguments MakePart {V G}.
Arguments part_name {V G}.
Arguments index_granularity {V G}.
Arguments fixed_index_granularity {V G}.
Arguments index_granularity_bytes {V G}.
Arguments index {V G}.

Record Settings := MakeSettings {
  merge_tree_coarse_index_granularity : Z;
  merge_tree_min_rows_for_seek : Z;
  merge_tree_min_bytes_for_seek : Z }.

Section selection.
Context {V G : Type} `{!Explicit V} `{!VirtualColumns V} `{!MergeTreeIndexGranularity G}.
Implicit Types (part : Part V G) (kc : KeyCondition.t V).

(** [primary_key.data_types] of the columns of the condition. *)
Fixpoint key_types (data_types : list DataType) (num_key_columns i : nat) : outcome (list DataType) :=
  match num_key_columns with
  | O => Ok []
  | S n => match data_types !! i with Some type => rest ← key_types data_types n (S i); Ok (type :: rest) | None => Undef end
  end.

(** The flag of a column that is in memory; the flags are empty when no column is reversed. *)
Definition reverse_flag (flags : list bool) (i : nat) : outcome bool :=
  match flags with [] => Ok false | _ => match flags !! i with Some b => Ok b | None => Undef end end.

(** [create_field_ref]: the field of a row of the index, as a reference into it or by value. *)
Definition create_field_ref (by_reference : bool) (column : list (option V)) (row : Z) : outcome (FieldRef V) :=
  match column !! Z.to_nat row with
  | Some (Some v) => Ok (Ref (Value v) (negb by_reference))
  | Some None => Ok (explicit PositiveInfinity)
  | None => Undef
  end.

(** The fields of one column of the key at both ends of a range of marks: those
    of [index_left] and of [index_right]. *)
Definition key_ends part (flags : list bool) (by_reference : bool) (marks_count : Z) (range : MarkRange.t) (i : nat)
    : outcome (FieldRef V * FieldRef V) :=
  match index part !! i with
  | None => Ok (explicit NegativeInfinity, explicit PositiveInfinity)
  | Some column =>
    reverse ← reverse_flag flags i;
    left ← create_field_ref by_reference column (begin range);
    right ← if end_ range =? marks_count then Ok (explicit PositiveInfinity) else create_field_ref by_reference column (end_ range);
    Ok (if (reverse : bool) then (right, left) else (left, right))
  end.

Definition check_key_condition part kc (data_types : list DataType) (flags : list bool) (range : MarkRange.t) (initial_mask : BoolMask) : outcome BoolMask :=
  let n := KeyCondition.num_key_columns kc in
  types ← key_types data_types n 0;
  ends ← mapM (key_ends part flags (KeyCondition.hasMonotonicFunctionsChain kc) (getMarksCount (index_granularity part)) range) (seq 0 n);
  KeyCondition.checkInRange kc n (map fst ends) (map snd ends) types initial_mask.

Definition part_offset_types : list DataType := [MakeType TUInt64 false false; MakeType TOther false false].

(** The rows of a range of marks, first and last; the last is before the first in an empty range. *)
Definition rows_of part (range : MarkRange.t) : outcome (Z * Z) :=
  b ← getMarkStartingRow (index_granularity part) (begin range);
  e ← getMarkStartingRow (index_granularity part) (end_ range);
  Ok (b, wrap 64 (e - 1)).

Definition check_part_offset_condition part kc (range : MarkRange.t) (initial_mask : BoolMask) : outcome BoolMask :=
  '(b, e) ← rows_of part range;
  if e <? b then Ok (Mask false true)
  else
    let name := explicit (Value (of_name (part_name part))) in
    KeyCondition.checkInRange kc 2 [explicit (Value (of_uint64 b)); name] [explicit (Value (of_uint64 e)); name] part_offset_types initial_mask.

Definition check_total_offset_condition part kc (part_starting_offset_in_query : Z) (range : MarkRange.t) (initial_mask : BoolMask) : outcome BoolMask :=
  '(b, e) ← rows_of part range;
  if e <? b then Ok (Mask false true)
  else
    KeyCondition.checkInRange kc 1 [explicit (Value (of_uint64 (wrap 64 (b + part_starting_offset_in_query))))]
      [explicit (Value (of_uint64 (wrap 64 (e + part_starting_offset_in_query))))] part_offset_types initial_mask.

(** A condition that is there and useful narrows the mask. *)
Definition narrow (useful : bool) (result : BoolMask) (m : outcome BoolMask) : outcome BoolMask :=
  if useful then m ← m; Ok (BoolMask.and result m) else Ok result.

(** The conditions of a query with what is known of them beforehand. *)
Record Conditions := MakeConditions {
  key_condition : KeyCondition.t V;
  part_offset_condition : option (KeyCondition.t V);
  total_offset_condition : option (KeyCondition.t V);
  key_condition_useful : bool;
  part_offset_condition_useful : bool;
  total_offset_condition_useful : bool }.

Definition useful (kc : option (KeyCondition.t V)) : outcome bool :=
  match kc with Some kc => b ← KeyCondition.alwaysUnknownOrTrue kc; Ok (negb b) | None => Ok false end.

Definition check_in_range part (data_types : list DataType) (flags : list bool) (part_starting_offset_in_query : Z) (c : Conditions)
    (range : MarkRange.t) (initial_mask : BoolMask) : outcome BoolMask :=
  result ← narrow (key_condition_useful c) (Mask true false) (check_key_condition part (key_condition c) data_types flags range initial_mask);
  result ← narrow (part_offset_condition_useful c) result
    (match part_offset_condition c with Some kc => check_part_offset_condition part kc range initial_mask | None => Undef end);
  narrow (total_offset_condition_useful c) result
    (match total_offset_condition c with Some kc => check_total_offset_condition part kc part_starting_offset_in_query range initial_mask | None => Undef end).

(** A condition that is not useful does not stand in the way of the binary search. *)
Definition exact_range (useful : bool) (kc : option (KeyCondition.t V)) : outcome bool :=
  if negb useful then Ok true
  else match kc with Some kc => KeyCondition.matchesExactContinuousRange kc | None => Ok true end.

Definition relaxed (kc : option (KeyCondition.t V)) : bool := match kc with Some kc => KeyCondition.isRelaxed kc | None => false end.

Definition markRangesFromPKRange part (part_ranges : list MarkRange.t) (part_starting_offset_in_query : Z)
    (data_types : list DataType) (flags : list bool)
    (key_condition : KeyCondition.t V) (part_offset_condition total_offset_condition : option (KeyCondition.t V))
    (want_exact : bool) (settings : Settings) : outcome MarkRanges :=
  if getMarksCount (index_granularity part) =? 0 then Ok (MakeMarkRanges [] [] Unknown)
  else
    key_useful ← useful (Some key_condition);
    part_useful ← useful part_offset_condition;
    total_useful ← useful total_offset_condition;
    if negb key_useful && negb part_useful && negb total_useful then Ok (MakeMarkRanges part_ranges [] Unknown)
    else
      let want_exact := want_exact
        && negb (KeyCondition.isRelaxed key_condition || relaxed part_offset_condition || relaxed total_offset_condition) in
      let check := check_in_range part data_types flags part_starting_offset_in_query
        (MakeConditions key_condition part_offset_condition total_offset_condition key_useful part_useful total_useful) in
      key_exact ← exact_range key_useful (Some key_condition);
      part_exact ← exact_range part_useful part_offset_condition;
      total_exact ← exact_range total_useful total_offset_condition;
      if negb key_exact || negb part_exact || negb total_exact then
        _ ← require (1 <? merge_tree_coarse_index_granularity settings) ARGUMENT_OUT_OF_BOUND;
        min_marks_for_seek ← roundRowsOrBytesToMarks (merge_tree_min_rows_for_seek settings) (merge_tree_min_bytes_for_seek settings)
          (fixed_index_granularity part) (index_granularity_bytes part);
        '(res, exact) ← exclusion_search check (merge_tree_coarse_index_granularity settings) min_marks_for_seek want_exact part_ranges [] [];
        Ok (MakeMarkRanges (rev res) (rev exact) GenericExclusionSearch)
      else
        '(res, exact) ← binary_search check want_exact part_ranges [] [];
        Ok (MakeMarkRanges (rev res) (rev exact) BinarySearch).
End selection.
