(* ===== verification/MarkSelectionFacts.v ===== *)
(** * The searches lose no mark

    Both searches of [MarkSelection] against any check of ranges of marks that
    is right when it says that no row matches: they end, what they leave out
    holds no match, and what they report as exact matches in full. *)

From stdpp Require Import prelude.
From Stdlib Require Import ZArith Lia.
From S2P Require Import Prelude Granularity KeyCondition MarkSelection.
Import MarkRange.

Definition in_range (k : Z) (r : MarkRange.t) : Prop := begin r <= k < end_ r.
Definition in_ranges (k : Z) (l : list MarkRange.t) : Prop := Exists (in_range k) l.

(** Non-empty ranges in ascending order between two marks. *)
Fixpoint ascending (lo : Z) (l : list MarkRange.t) (hi : Z) : Prop :=
  match l with
  | [] => lo <= hi
  | r :: l => lo <= begin r < end_ r /\ ascending (end_ r) l hi
  end.

Lemma ascending_le l : forall lo hi, ascending lo l hi -> lo <= hi.
Proof. induction l as [|r l IH]; cbn; intros lo hi Hl; [done|]. destruct Hl as [? ?%IH]. lia. Qed.

Lemma ascending_weaken l lo lo' hi : lo' <= lo -> ascending lo l hi -> ascending lo' l hi.
Proof. destruct l as [|r l]; cbn; [lia|]. intros ? [? ?]. split; [lia|done]. Qed.

Lemma ascending_in l : forall lo hi k, ascending lo l hi -> in_ranges k l -> lo <= k < hi.
Proof.
  induction l as [|r l IH]; cbn; intros lo hi k Hl Hk; [by apply Exists_nil in Hk|]. destruct Hl as [Hr Hl].
  pose proof (ascending_le _ _ _ Hl). apply Exists_cons in Hk as [Hk|Hk]; [unfold in_range in Hk; lia|].
  specialize (IH _ _ _ Hl Hk). lia.
Qed.

(** Ranges that end before a mark. *)
Definition closed_below (b : Z) (l : list MarkRange.t) : Prop := Forall (fun r => 0 <= begin r < end_ r /\ end_ r <= b) l.

Lemma closed_below_mono a b l : a <= b -> closed_below a l -> closed_below b l.
Proof. intros Hab Hl. eapply Forall_impl; [exact Hl|]. cbn. intros r Hr. lia. Qed.

Section appending.
Context (m : Z).

Lemma append_closed r l b : b <= begin r < end_ r -> end_ r < 2 ^ 64 -> 0 <= b -> closed_below b l -> closed_below (end_ r) (append_or_extend m r l).
Proof.
  intros Hr Hw Hb Hl. assert (Hr0 : 0 <= begin r < end_ r /\ end_ r <= end_ r) by lia. destruct l as [|x l]; cbn; [by constructor|].
  apply Forall_cons in Hl as [Hx Hl]. apply (closed_below_mono _ (end_ r)) in Hl; [|lia].
  destruct (_ <? _); repeat constructor; cbn; try done; lia.
Qed.

Lemma append_in k r l b : b <= begin r < end_ r -> closed_below b l -> in_ranges k l \/ in_range k r -> in_ranges k (append_or_extend m r l).
Proof.
  intros Hr Hl Hk. destruct l as [|x l]; cbn; [destruct Hk as [Hk|Hk]; [by apply Exists_nil in Hk|by constructor]|].
  apply Forall_cons in Hl as [Hx Hl]. destruct (_ <? _).
  - destruct Hk as [Hk|Hk]; [by apply Exists_cons_tl|by apply Exists_cons_hd].
  - destruct Hk as [Hk|Hk]; [apply Exists_cons in Hk as [Hk|Hk]; [|by apply Exists_cons_tl]|];
      apply Exists_cons_hd; unfold in_range in *; cbn; lia.
Qed.

(** Nothing is added between ranges when a seek spans no marks. *)
Lemma append_only k r l b : m = 0 -> 0 <= b <= begin r -> begin r < end_ r < 2 ^ 64 -> closed_below b l ->
  in_ranges k (append_or_extend m r l) -> in_ranges k l \/ in_range k r.
Proof.
  intros -> Hb Hr Hl. destruct l as [|x l]; cbn; [intros Hk; apply Exists_cons in Hk as [Hk|Hk]; [by right|by apply Exists_nil in Hk]|].
  apply Forall_cons in Hl as [Hx Hl]. rewrite wrap_id by (split; lia). destruct (Z.ltb_spec 0 (begin r - end_ x)) as [Hlt|Hge].
  - intros Hk. apply Exists_cons in Hk as [Hk|Hk]; [by right|by left].
  - intros Hk. apply Exists_cons in Hk as [Hk|Hk]; [|by left; apply Exists_cons_tl]. unfold in_range in *. cbn in Hk.
    destruct (decide (k < end_ x)); [left; apply Exists_cons_hd; unfold in_range; lia|right; lia].
Qed.
End appending.

(** ** Pieces of a segment *)

(** How many segments a stack can still give. *)
Fixpoint potential (l : list MarkRange.t) : Z :=
  match l with [] => 0 | r :: l => 2 * (end_ r - begin r) - 1 + potential l end.

Lemma potential_nonneg l : forall lo hi, ascending lo l hi -> 0 <= potential l.
Proof. induction l as [|r l IH]; cbn; intros lo hi Hl; [lia|]. destruct Hl as [? ?%IH]. lia. Qed.

Lemma push_pieces_spec fuel : forall b step e stack hi,
  0 <= b < e -> e < 2 ^ 63 -> 1 <= step < 2 ^ 63 -> e - b <= Z.of_nat fuel -> ascending e stack hi ->
  let l := push_pieces fuel b step e stack in
  ascending b l hi /\ (forall k, in_ranges k l <-> (b <= k < e) \/ in_ranges k stack) /\
  potential l <= 2 * (e - b) - 1 - (if b + step <? e then 1 else 0) + potential stack.
Proof.
  induction fuel as [|fuel IH]; intros b step e stack hi Hb He Hs Hf Hasc; cbn [push_pieces]; [lia|].
  rewrite !wrap_id by (split; lia). destruct (Z.ltb_spec (b + step) e) as [Hlt|Hge].
  - rewrite !wrap_id by (split; lia). destruct (IH b step (e - step) (Make (e - step) e :: stack) hi) as (H1 & H2 & H3); try lia.
    { cbn. split; [lia|done]. }
    split_and!; [done| |cbn [potential begin end_] in H3; destruct (_ <? _) in H3; lia].
    intros k. rewrite H2. unfold in_ranges. rewrite Exists_cons. unfold in_range. cbn. split; intros Hk; [|destruct Hk as [Hk|Hk]]; [|destruct (decide (k < e - step))|]; try tauto; try lia.
    destruct Hk as [Hk|[Hk|Hk]]; [left; lia|left; lia|by right].
  - split_and!; [cbn; split; [lia|done]| |cbn; lia]. intros k. unfold in_ranges. by rewrite Exists_cons.
Qed.

(** ** The searches *)
Section searches.
Context (check : MarkRange.t -> BoolMask -> outcome BoolMask) (N : Z) (matches full : Z -> Prop).
Hypothesis (N_bound : N < 2 ^ 63).
Hypothesis (check_total : forall r m, 0 <= begin r < end_ r -> end_ r <= N -> exists b, check r m = Ok b).
Hypothesis (check_sound : forall r m b k, 0 <= begin r < end_ r -> end_ r <= N -> check r m = Ok b ->
  can_be_true b = false -> in_range k r -> ~ matches k).
Hypothesis (check_full : forall r m b k, 0 <= begin r < end_ r -> end_ r <= N -> check r m = Ok b ->
  can_be_false b = false -> in_range k r -> full k).

(** What a search that started from [res] and [exact] over the marks [found] gives. *)
Record searched (hi m : Z) (found : Z -> Prop) (res exact res' exact' : list MarkRange.t) : Prop := {
  searched_closed : closed_below hi res' /\ closed_below hi exact';
  searched_keeps : forall k, in_ranges k res -> in_ranges k res';
  searched_finds : forall k, matches k -> found k -> in_ranges k res';
  searched_only : m = 0 -> forall k, in_ranges k res' -> in_ranges k res \/ found k;
  searched_full : m = 0 -> forall k, in_ranges k exact' -> in_ranges k exact \/ full k }.

Lemma searched_nothing hi m found res exact :
  closed_below hi res -> closed_below hi exact -> (forall k, found k -> ~ matches k) -> searched hi m found res exact res exact.
Proof. intros H1 H2 Hf. split; auto. intros k Hk Hfk. by destruct (Hf k). Qed.

(** One search after another. *)
Lemma searched_trans hi m found1 found2 found res exact res1 exact1 res2 exact2 mid :
  searched mid m found1 res exact res1 exact1 -> searched hi m found2 res1 exact1 res2 exact2 ->
  (forall k, matches k -> found k -> found1 k \/ found2 k) -> (forall k, found1 k \/ found2 k -> found k) ->
  searched hi m found res exact res2 exact2.
Proof.
  intros H1 H2 Hf Hg. split.
  - apply (searched_closed _ _ _ _ _ _ _ H2).
  - intros k Hk. by apply (searched_keeps _ _ _ _ _ _ _ H2), (searched_keeps _ _ _ _ _ _ _ H1).
  - intros k Hk Hfk. destruct (Hf k Hk Hfk); [apply (searched_keeps _ _ _ _ _ _ _ H2)|]; [by apply (searched_finds _ _ _ _ _ _ _ H1)|].
    by apply (searched_finds _ _ _ _ _ _ _ H2).
  - intros Hm k Hk. destruct (searched_only _ _ _ _ _ _ _ H2 Hm k Hk) as [Hk1|]; [|right; apply Hg; by right].
    destruct (searched_only _ _ _ _ _ _ _ H1 Hm k Hk1); [by left|]. right; apply Hg; by left.
  - intros Hm k Hk. destruct (searched_full _ _ _ _ _ _ _ H2 Hm k Hk) as [Hk1|]; [|by right].
    by apply (searched_full _ _ _ _ _ _ _ H1 Hm k).
Qed.

(** One mark found. *)
Lemma searched_mark m b r res exact result (want_exact : bool) init :
  0 <= m -> 0 <= b <= begin r -> end_ r = begin r + 1 -> end_ r <= N -> closed_below b res -> closed_below b exact ->
  check r init = Ok result ->
  searched (end_ r) m (fun k => in_range k r) res exact (append_or_extend m r res)
    (if want_exact && negb (can_be_false result) then append_or_extend m r exact else exact).
Proof.
  intros Hm Hb Hone HN Hres Hexact Hck. split.
  - split; [apply (append_closed _ _ _ b); [lia|lia|lia|done]|]. destruct (_ && _); [apply (append_closed _ _ _ b); [lia|lia|lia|done]|].
    eapply closed_below_mono; [|done]. lia.
  - intros k Hk. apply (append_in _ _ _ _ b); [lia|done|by left].
  - intros k _ Hk. apply (append_in _ _ _ _ b); [lia|done|by right].
  - intros Hm0 k Hk. apply (append_only _ _ _ _ b) in Hk; [done|exact Hm0|exact Hb|lia|done].
  - intros Hm0 k Hk. destruct (want_exact && negb (can_be_false result)) eqn:E; [|by left].
    apply (append_only _ _ _ _ b) in Hk; [|exact Hm0|exact Hb|lia|done]. destruct Hk as [Hk|Hk]; [by left|right].
    apply andb_true_iff in E as [_ E%negb_true_iff]. eapply check_full; [|done|done|done|done]. lia.
Qed.

Lemma exclusion_loop_spec coarse m (want_exact : bool) : 1 < coarse < 2 ^ 63 -> 0 <= m -> forall fuel stack lo hi res exact,
  potential stack <= Z.of_nat fuel -> ascending lo stack hi -> 0 <= lo -> hi <= N -> closed_below lo res -> closed_below lo exact ->
  exists res' exact', exclusion_loop check fuel coarse m want_exact stack res exact = Ok (res', exact') /\
    searched hi m (fun k => in_ranges k stack) res exact res' exact'.
Proof.
  intros Hc Hm. induction fuel as [|fuel IH]; intros stack lo hi res exact Hpot Hasc Hlo Hhi Hres Hexact.
  { destruct stack as [|r stack]; [|destruct Hasc as [? Hasc]; apply potential_nonneg in Hasc; cbn in Hpot; lia].
    exists res, exact. split; [done|]. cbn in Hasc. apply searched_nothing; [by eapply closed_below_mono..|]. intros k Hk. by apply Exists_nil in Hk. }
  destruct stack as [|r stack].
  { exists res, exact. split; [done|]. cbn in Hasc. apply searched_nothing; [by eapply closed_below_mono..|]. intros k Hk. by apply Exists_nil in Hk. }
  destruct Hasc as [Hr Hasc]. pose proof (ascending_le _ _ _ Hasc) as Hle. cbn [potential] in Hpot. cbn [exclusion_loop].
  assert (Hval : 0 <= begin r < end_ r) by lia. assert (HrN : end_ r <= N) by lia.
  rewrite (wrap_id 64 (begin r + 1)) by (split; lia). set (init := if want_exact && _ then _ else _).
  destruct (check_total r init Hval HrN) as [result Hck]. rewrite Hck. cbn [mbind outcome_bind].
  assert (Hsplit : forall k, in_ranges k (r :: stack) <-> in_range k r \/ in_ranges k stack) by (intros k; apply Exists_cons).
  destruct (can_be_true result) eqn:Ect; cbn [negb].
  2: { destruct (IH stack (end_ r) hi res exact) as (res' & exact' & E & Hs); try done; try lia; [by eapply closed_below_mono; [|done]; lia..|].
    exists res', exact'. split; [done|]. eapply searched_trans; [apply (searched_nothing lo m (fun k => in_range k r)); try done|exact Hs| |].
    - intros k Hk. by eapply check_sound.
    - intros k _. by rewrite Hsplit.
    - intros k. by rewrite Hsplit. }
  destruct (Z.eqb_spec (end_ r) (begin r + 1)) as [Hone|Hmany].
  - pose proof (searched_mark m lo r res exact result want_exact init Hm ltac:(lia) Hone HrN Hres Hexact Hck) as Hmark.
    destruct (searched_closed _ _ _ _ _ _ _ Hmark) as [Hc1 Hc2].
    destruct (IH stack (end_ r) hi _ _ ltac:(lia) Hasc ltac:(lia) Hhi Hc1 Hc2) as (res' & exact' & E & Hs).
    exists res', exact'. split; [exact E|]. eapply searched_trans; [exact Hmark|exact Hs| |]; intros k; [intros _|]; by rewrite Hsplit.
  - set (len := end_ r - begin r). assert (Hstep : 1 <= (len - 1) / coarse + 1 < len).
    { assert (0 <= (len - 1) / coarse) by (apply Z.div_pos; lia). assert ((len - 1) / coarse < len - 1) by (apply Z.div_lt; lia). lia. }
    rewrite (wrap_id 64 len), (wrap_id 64 (len - 1)) by (split; lia).
    rewrite (wrap_id 64 ((len - 1) / coarse + 1)) by (split; lia).
    destruct (push_pieces_spec (Z.to_nat len) (begin r) ((len - 1) / coarse + 1) (end_ r) stack hi) as (Hp1 & Hp2 & Hp3); try done; try lia.
    destruct (Z.ltb_spec (begin r + ((len - 1) / coarse + 1)) (end_ r)); [|lia].
    destruct (IH (push_pieces (Z.to_nat len) (begin r) ((len - 1) / coarse + 1) (end_ r) stack) lo hi res exact) as (res' & exact' & E & Hs);
      [unfold len in *; lia|eapply ascending_weaken; [|done]; lia|lia|done|done|done|].
    exists res', exact'. split; [exact E|]. destruct Hs as [S1 S2 S3 S4 S5]. split; [done|done| | |done].
    + intros k Hk Hin. apply S3; [done|]. apply Hp2. by apply Hsplit in Hin as [Hin|Hin]; [left|right].
    + intros Hm0 k Hk. destruct (S4 Hm0 k Hk) as [?|Hin]; [by left|right]. apply Hsplit. by apply Hp2 in Hin as [Hin|Hin]; [left|right].
Qed.

Lemma exclusion_search_spec coarse m (want_exact : bool) : 1 < coarse < 2 ^ 63 -> 0 <= m -> forall part_ranges lo hi res exact,
  ascending lo part_ranges hi -> 0 <= lo -> hi <= N -> closed_below lo res -> closed_below lo exact ->
  exists res' exact', exclusion_search check coarse m want_exact part_ranges res exact = Ok (res', exact') /\
    searched hi m (fun k => in_ranges k part_ranges) res exact res' exact'.
Proof.
  intros Hc Hm. induction part_ranges as [|r part_ranges IH]; intros lo hi res exact Hasc Hlo Hhi Hres Hexact.
  { exists res, exact. split; [done|]. cbn in Hasc. apply searched_nothing; [by eapply closed_below_mono..|]. intros k Hk. by apply Exists_nil in Hk. }
  destruct Hasc as [Hr Hasc]. pose proof (ascending_le _ _ _ Hasc) as Hle.
  destruct (exclusion_loop_spec coarse m want_exact Hc Hm (exclusion_fuel r) [r] lo (end_ r) res exact) as (res1 & exact1 & E1 & S1);
    [cbn; unfold exclusion_fuel; lia|cbn; lia|done|lia|done|done|].
  destruct (searched_closed _ _ _ _ _ _ _ S1) as [C1 C2].
  destruct (IH (end_ r) hi res1 exact1 Hasc ltac:(lia) Hhi C1 C2) as (res2 & exact2 & E2 & S2).
  exists res2, exact2. cbn [exclusion_search]. rewrite E1. cbn [mbind outcome_bind]. split; [done|].
  assert (Hx : forall k, in_ranges k (r :: part_ranges) <-> in_ranges k [r] \/ in_ranges k part_ranges)
    by (intros k; unfold in_ranges; rewrite (Exists_cons _ r part_ranges), Exists_cons, Exists_nil; tauto).
  eapply searched_trans; [exact S1|exact S2| |]; intros k; [intros _|]; by rewrite Hx.
Qed.

(** *** Binary search *)
Lemma middle_between a b : 0 <= a -> a + 1 < b -> a < (a + b) / 2 < b.
Proof. intros Ha Hb. pose proof (Z.div_mod (a + b) 2 ltac:(lia)). pose proof (Z.mod_pos_bound (a + b) 2 ltac:(lia)). lia. Qed.

Lemma left_border_spec lo fuel : forall l r, 0 <= lo <= l -> l < r <= N + 1 -> r - l - 1 <= Z.of_nat fuel ->
  (forall k, lo <= k < l -> ~ matches k) ->
  exists l', left_border check fuel l r = Ok l' /\ l <= l' < r /\ forall k, lo <= k < l' -> ~ matches k.
Proof.
  induction fuel as [|fuel IH]; intros l r Hlo Hr Hf Hno; cbn [left_border]; rewrite (wrap_id 64 (l + 1)) by (split; lia);
    (destruct (Z.ltb_spec (l + 1) r) as [Hlt|Hge]; [|exists l; split_and!; [done|lia|lia|done]]); [lia|].
  rewrite (wrap_id 64 (l + r)) by (split; lia). pose proof (middle_between l r ltac:(lia) Hlt) as Hmid. set (mid := (l + r) / 2) in *.
  destruct (check_total (Make 0 mid) BoolMask.consider_only_can_be_true) as [b Hb]; [cbn; lia..|]. rewrite Hb. cbn [mbind outcome_bind].
  destruct (can_be_true b) eqn:Ect.
  - destruct (IH l mid) as (l' & E & ? & ?); [lia..|done|]. exists l'. split_and!; [done|lia|lia|done].
  - destruct (IH mid r) as (l' & E & ? & ?); [lia..| |].
    { intros k Hk. eapply (check_sound (Make 0 mid)); [| |done|done|]; unfold in_range; cbn; lia. }
    exists l'. split_and!; [done|lia|lia|done].
Qed.

Lemma right_border_spec part_end fuel : forall l r, 0 <= l <= N -> r <= part_end -> part_end <= N -> r - l - 1 <= Z.of_nat fuel ->
  (forall k, r <= k < part_end -> ~ matches k) ->
  exists r', right_border check fuel part_end l r = Ok r' /\ r' <= r /\ (l < r -> l < r') /\ (r <= l -> r' = r) /\ forall k, r' <= k < part_end -> ~ matches k.
Proof.
  induction fuel as [|fuel IH]; intros l r Hl Hr HN Hf Hno; cbn [right_border]; rewrite (wrap_id 64 (l + 1)) by (split; lia);
    (destruct (Z.ltb_spec (l + 1) r) as [Hlt|Hge]; [|exists r; split_and!; [done|lia|lia|done|done]]); [lia|].
  rewrite (wrap_id 64 (l + r)) by (split; lia). pose proof (middle_between l r ltac:(lia) Hlt) as Hmid. set (mid := (l + r) / 2) in *.
  destruct (check_total (Make mid part_end) BoolMask.consider_only_can_be_true) as [b Hb]; [cbn; lia..|]. rewrite Hb. cbn [mbind outcome_bind].
  destruct (can_be_true b) eqn:Ect.
  - destruct (IH mid r) as (r' & E & ? & ? & ? & ?); [lia..|done|]. exists r'. split_and!; [done|lia|lia|lia|done].
  - destruct (IH l mid) as (r' & E & ? & ? & ? & ?); [lia..| |].
    { intros k Hk. eapply (check_sound (Make mid part_end)); [| |done|done|]; unfold in_range; cbn; lia. }
    exists r'. split_and!; [done|lia|lia|lia|done].
Qed.

Lemma exact_part_spec r : 0 <= begin r <= end_ r -> end_ r <= N ->
  exists o, exact_part check r = Ok o /\
    match o with Some x => begin r <= begin x < end_ x /\ end_ x <= end_ r /\ forall k, in_range k x -> full k | None => True end.
Proof.
  intros Hr HN. unfold exact_part.
  assert (H1 : exists r1, (if begin r <? end_ r then
      m ← check (Make (begin r) (wrap 64 (begin r + 1))) BoolMask.consider_only_can_be_false;
      Ok (if can_be_false m then Make (wrap 64 (begin r + 1)) (end_ r) else r)
    else Ok r) = Ok r1 /\ begin r <= begin r1 <= end_ r1 /\ end_ r1 <= end_ r).
  { destruct (Z.ltb_spec (begin r) (end_ r)); [|exists r; split; [done|lia]]. rewrite wrap_id by (split; lia).
    destruct (check_total (Make (begin r) (begin r + 1)) BoolMask.consider_only_can_be_false) as [b ->]; [cbn; lia..|]. cbn [mbind outcome_bind].
    eexists. split; [done|]. destruct (can_be_false b); cbn; lia. }
  destruct H1 as (r1 & -> & B1 & E1). cbn [mbind outcome_bind].
  assert (H2 : exists r2, (if begin r1 <? end_ r1 then
      m ← check (Make (wrap 64 (end_ r1 - 1)) (end_ r1)) BoolMask.consider_only_can_be_false;
      Ok (if can_be_false m then Make (begin r1) (wrap 64 (end_ r1 - 1)) else r1)
    else Ok r1) = Ok r2 /\ begin r <= begin r2 <= end_ r2 /\ end_ r2 <= end_ r).
  { destruct (Z.ltb_spec (begin r1) (end_ r1)); [|exists r1; split; [done|lia]]. rewrite wrap_id by (split; lia).
    destruct (check_total (Make (end_ r1 - 1) (end_ r1)) BoolMask.consider_only_can_be_false) as [b ->]; [cbn; lia..|]. cbn [mbind outcome_bind].
    eexists. split; [done|]. destruct (can_be_false b); cbn; lia. }
  destruct H2 as (r2 & -> & B2 & E2). cbn [mbind outcome_bind]. destruct (Z.ltb_spec (begin r2) (end_ r2)); [|by exists None].
  destruct (check_total r2 BoolMask.consider_only_can_be_false) as [b Hb]; [lia..|]. rewrite Hb. cbn [mbind outcome_bind].
  eexists. split; [done|]. destruct (can_be_false b) eqn:E; [done|]. split_and!; [lia..|]. intros k Hk. eapply check_full; [| |done|done|done]; lia.
Qed.

Lemma search_part_spec (want_exact : bool) r lo res exact :
  0 <= lo <= begin r -> begin r < end_ r -> end_ r <= N -> closed_below lo res -> closed_below lo exact ->
  exists res' exact', search_part check want_exact r res exact = Ok (res', exact') /\
    searched (end_ r) 0 (fun k => in_range k r) res exact res' exact'.
Proof.
  intros Hlo Hr HN Hres Hexact. unfold search_part. rewrite (wrap_id 64 (end_ r + 1)) by (split; lia).
  destruct (left_border_spec (begin r) (Z.to_nat (end_ r - begin r + 1)) (begin r) (end_ r + 1)) as (l & -> & Hl & Hno); [lia..|].
  cbn [mbind outcome_bind].
  destruct (right_border_spec (end_ r) (Z.to_nat (end_ r - begin r + 1)) l (end_ r)) as (g & -> & Hg & Hg1 & Hg2 & Hno'); [lia..|].
  cbn [mbind outcome_bind begin end_].
  assert (Hin : forall k, matches k -> in_range k r -> l <= k < g).
  { intros k Hk [? ?]. destruct (decide (k < l)) as [Hkl|]; [by destruct (Hno k ltac:(lia))|]. destruct (decide (g <= k)); [by destruct (Hno' k ltac:(lia))|lia]. }
  apply (closed_below_mono _ (end_ r)) in Hres; [|lia]. apply (closed_below_mono _ (end_ r)) in Hexact; [|lia].
  destruct (Z.ltb_spec l g) as [Hlg|Hlg].
  2: { exists res, exact. split; [done|]. apply searched_nothing; [done..|]. intros k Hk Hm. specialize (Hin k Hm Hk). lia. }
  destruct (exact_part_spec (Make l g)) as (o & Ho & Hox); [cbn; lia..|].
  assert (Hres' : closed_below (end_ r) (Make l g :: res)) by (constructor; [cbn; lia|done]).
  assert (Hs : forall exact', closed_below (end_ r) exact' -> (forall k, in_ranges k exact' -> in_ranges k exact \/ full k) ->
    searched (end_ r) 0 (fun k => in_range k r) res exact (Make l g :: res) exact').
  { intros exact' Hc Hf. split; [done|by intros k; apply Exists_cons_tl| | |done].
    - intros k Hk Hkr. apply Exists_cons_hd. unfold in_range. cbn. by apply Hin.
    - intros _ k Hk. apply Exists_cons in Hk as [Hk|Hk]; [right|by left]. unfold in_range in *. cbn in Hk. lia. }
  destruct want_exact; cbn [mbind outcome_bind]; [|by eexists _, _; split; [done|]; apply Hs; auto].
  rewrite Ho. cbn [mbind outcome_bind]. eexists _, _. split; [done|]. destruct o as [x|]; [|by apply Hs; auto]. destruct Hox as (Hx1 & Hx2 & Hx3).
  cbn in Hx1, Hx2. apply Hs; [constructor; [lia|done]|]. intros k Hk. apply Exists_cons in Hk as [Hk|Hk]; [right; by apply Hx3|by left].
Qed.

Lemma binary_search_spec (want_exact : bool) : forall part_ranges lo hi res exact,
  ascending lo part_ranges hi -> 0 <= lo -> hi <= N -> closed_below lo res -> closed_below lo exact ->
  exists res' exact', binary_search check want_exact part_ranges res exact = Ok (res', exact') /\
    searched hi 0 (fun k => in_ranges k part_ranges) res exact res' exact'.
Proof.
  induction part_ranges as [|r part_ranges IH]; intros lo hi res exact Hasc Hlo Hhi Hres Hexact.
  { exists res, exact. split; [done|]. cbn in Hasc. apply searched_nothing; [by eapply closed_below_mono..|]. intros k Hk. by apply Exists_nil in Hk. }
  destruct Hasc as [Hr Hasc]. pose proof (ascending_le _ _ _ Hasc) as Hle.
  destruct (search_part_spec want_exact r lo res exact) as (res1 & exact1 & E1 & S1); [lia..|done|done|].
  destruct (searched_closed _ _ _ _ _ _ _ S1) as [C1 C2].
  destruct (IH (end_ r) hi res1 exact1 Hasc ltac:(lia) Hhi C1 C2) as (res2 & exact2 & E2 & S2).
  exists res2, exact2. cbn [binary_search]. rewrite E1. cbn [mbind outcome_bind]. split; [done|].
  eapply searched_trans; [exact S1|exact S2| |]; intros k; [intros _|]; unfold in_ranges; by rewrite Exists_cons.
Qed.
End searches.
