(* ===== verification/PartSelectionFacts.v ===== *)
(** * Selection in a part whose rows are sorted

    The primary index of a part against its rows: the key at a mark is that of
    the mark's first row, so the keys of a range of marks bound the rows of the
    range, and the checks of [MarkSelection] are right about them. *)

From stdpp Require Import prelude.
From Stdlib Require Import ZArith Lia ZifyBool.
From S2P Require Import Prelude Granularity GranularityFacts Range RangeFacts KeyCondition KeyConditionFacts KeyRangeFacts.
From S2P Require Import MarkSelection MarkSelectionFacts.
Import MarkRange.

(** ** What is known of a condition beforehand *)
Section preparation.
Context {V : Type} `{ExplicitLaws V}.
Implicit Types (kc : KeyCondition.t V) (e : KeyCondition.RPNElement V).

(** The columns of the key that an element refers to exist. *)
Definition element_scoped (n : nat) e : Prop :=
  Forall (fun c => c < n)%nat (KeyCondition.key_columns e) /\
  match KeyCondition.set_index e with
  | Some s => set_ok s /\ Forall (fun m => MergeTreeSetIndex.key_index m < n)%nat (MergeTreeSetIndex.indexes_mapping s)
  | None => True
  end.

Definition condition_scoped kc : Prop :=
  (0 < KeyCondition.num_key_columns kc)%nat /\ Forall (element_scoped (KeyCondition.num_key_columns kc)) (KeyCondition.rpn kc).

Lemma unknown_loop_total (elements : list (KeyCondition.RPNElement V)) : forall (any : bool) stack n,
  depth (length stack) elements = Some n ->
  exists o, KeyCondition.unknown_loop any stack elements = Ok o /\ match o with Some st => length st = n | None => True end.
Proof.
  induction elements as [|e elements IH]; intros any stack n; cbn [depth KeyCondition.unknown_loop].
  { intros [= <-]. by exists (Some stack). }
  destruct (KeyCondition.function e); try (apply (IH any (_ :: stack))).
  - destruct any; [by exists None|apply (IH false (true :: stack))].
  - destruct (1 <=? _)%nat; [|done]. apply IH.
  - destruct stack as [|a [|b s]]; cbn [length]; try done. apply (IH any ((a && b) :: s)).
  - destruct stack as [|a [|b s]]; cbn [length]; try done. apply (IH any ((a || b) :: s)).
Qed.

Lemma useful_total kc : condition_total kc -> exists b, useful (Some kc) = Ok b.
Proof.
  intros [_ Hd]. unfold useful, KeyCondition.alwaysUnknownOrTrue, KeyCondition.unknownOrAlwaysTrue.
  destruct (unknown_loop_total (KeyCondition.rpn kc) false [] 1 Hd) as ([st|] & -> & Hst); cbn; [|eauto].
  destruct st as [|a [|b st]]; try done. cbn. eauto.
Qed.

Lemma constrain_total (cs : list KeyCondition.Constraint) i f : (i < length cs)%nat -> exists cs', KeyCondition.constrain cs i f = Ok cs' /\ length cs' = length cs.
Proof.
  intros Hi. unfold KeyCondition.constrain. destruct (lookup_lt_is_Some_2 cs i Hi) as [c ->]. eexists. split; [done|]. apply length_insert.
Qed.

Lemma set_constraints_total mapping : forall (cs : list KeyCondition.Constraint),
  Forall (fun m => MergeTreeSetIndex.key_index m < length cs)%nat mapping ->
  exists o, KeyCondition.set_constraints (V := V) cs mapping = Ok o /\ match o with Some cs' => length cs' = length cs | None => True end.
Proof.
  induction mapping as [|m mapping IH]; intros cs Hm; cbn; [by exists (Some cs)|]. apply Forall_cons in Hm as [Hm0 Hm].
  destruct (KeyCondition.chain_monotonicity _ _ _) as [always strict]. destruct (negb always); [by exists None|].
  destruct (constrain_total cs _ (KeyCondition.constrain_set strict) Hm0) as (cs' & -> & L). cbn. rewrite <- L. apply IH. by rewrite L.
Qed.

Lemma constraints_loop_total (elements : list (KeyCondition.RPNElement V)) : forall (cs : list KeyCondition.Constraint),
  Forall element_total elements -> Forall (element_scoped (length cs)) elements ->
  exists o, KeyCondition.constraints_loop cs elements = Ok o /\ match o with Some cs' => length cs' = length cs | None => True end.
Proof.
  induction elements as [|e elements IH]; intros cs Ht Hs; cbn [KeyCondition.constraints_loop]; [by exists (Some cs)|].
  apply Forall_cons in Ht as [[_ Ht0] Ht]. apply Forall_cons in Hs as [[Hk Hset] Hs].
  assert (Hnext : forall o, match o with Some cs' => length cs' = length cs | None => True end ->
    exists o', match o with Some cs => KeyCondition.constraints_loop cs elements | None => Ok None end = Ok o' /\
      match o' with Some cs' => length cs' = length cs | None => True end).
  { intros [cs'|] Ho; [|by exists None]. rewrite <- Ho. apply IH; [done|by rewrite Ho]. }
  unfold KeyCondition.one_tuple_set, KeyCondition.range_constraints, KeyCondition.getKeyColumn in *.
  destruct (KeyCondition.function e); try (by apply IH); cbn [mbind outcome_bind]; try (by apply (Hnext None)).
  - destruct Ht0 as [Hne _]. destruct (KeyCondition.key_columns e) as [|c ks]; [done|]. apply Forall_cons in Hk as [Hc _].
    destruct (KeyCondition.chain_monotonicity _ _ _) as [always strict]. destruct (negb always); [by apply (Hnext None)|]. cbn [mbind outcome_bind].
    match goal with |- context [KeyCondition.constrain cs c ?f] => destruct (constrain_total cs c f Hc) as (cs' & -> & L) end.
    by apply (Hnext (Some cs')).
  - destruct Ht0 as (s & Es & Hok & _). rewrite Es in *. destruct Hset as [_ Hset]. unfold MergeTreeSetIndex.size.
    pose proof (set_nonempty _ Hok) as Hne. pose proof (set_columns _ Hok) as Hcol.
    destruct (MergeTreeSetIndex.ordered_set s) as [|c1 cs1]; [by destruct (MergeTreeSetIndex.indexes_mapping s)|]. cbn [mbind outcome_bind].
    destruct (_ =? 1)%nat; [|by apply (Hnext None)]. destruct (set_constraints_total _ cs Hset) as (o & -> & Ho). by apply Hnext.
Qed.

Lemma matches_exact_total kc : condition_total kc -> condition_scoped kc -> exists b, KeyCondition.matchesExactContinuousRange kc = Ok b.
Proof.
  intros [Ht _] [Hn Hs]. unfold KeyCondition.matchesExactContinuousRange.
  destruct (constraints_loop_total (KeyCondition.rpn kc) (replicate (KeyCondition.num_key_columns kc) KeyCondition.UNKNOWN)) as (o & -> & Ho);
    [done|by rewrite length_replicate|]. cbn. destruct o as [cs|]; [|eauto]. rewrite length_replicate in Ho.
  destruct cs as [|[] cs]; [cbn in Ho; lia|eauto..].
Qed.
End preparation.

(** ** The rows and the index of a part *)

(** Virtual columns are ordered as the numbers they hold. *)
Class VirtualColumnsLaws (V : Type) `{Explicit V, VirtualColumns V} := {
  of_uint64_less : forall a b, uint 64 a -> uint 64 b -> v_less (of_uint64 a) (of_uint64 b) = (a <? b) }.

Section parts.
Context {V : Type} `{ExplicitLaws V} {G : Type} `{GranularityLaws G} `{!VirtualColumns V}.
Implicit Types (a b : Field V) (row x y : list (Field V)) (part : Part V G) (types : list DataType).

Lemma lex_le_refl x : lex_le x x.
Proof. induction x as [|a x IH]; [done|]. right. split; [|done]. order [a]. Qed.

(** Unknown fields at the left end are taken as minus infinity, at the right end as plus infinity. *)
Lemma lex_le_lower x : forall l y, Forall (fun a => isNegativeInfinity a = false) y -> Forall2 (fun b a => b = a \/ b = NegativeInfinity) l x ->
  lex_le x y -> lex_le l y.
Proof.
  induction x as [|a x IH]; intros [|b l] [|c y] Hy Hl; try (by inversion Hl); try done.
  apply Forall_cons in Hy as [Hc Hy]. apply Forall2_cons in Hl as [Hb Hl]. intros [Hle|[Heq Hle]].
  - left. destruct Hb as [->| ->]; [done|]. by destruct c.
  - destruct Hb as [->| ->]; [right; split; [done|by apply IH]|]. left. by destruct c.
Qed.

Lemma lex_le_upper x : forall l y, Forall2 (fun b a => b = a \/ b = PositiveInfinity) l x -> lex_le y x -> lex_le y l.
Proof.
  induction x as [|a x IH]; intros [|b l] [|c y] Hl; try (by inversion Hl); try done.
  apply Forall2_cons in Hl as [Hb Hl]. intros [Hle|[Heq Hle]].
  - left. destruct Hb as [->| ->]; [done|]. by destruct c, a.
  - destruct Hb as [->| ->]; [right; split; [done|by apply IH]|]. destruct c; [by left|right|by left]. split; [done|by apply IH].
Qed.

(** The row whose key is at a mark of the index: its first, or the last of the part for the final mark. *)
Definition index_row (data : list Z) (k : Z) : Z := Z.min (rows_before data k) (sum data - 1).

Definition key_value a : option V := match a with Value v => Some v | _ => None end.

(** A part with the rows [rows], in ascending order or, [desc], in descending order. *)
Record sorted_part part (rows : list (list (Field V))) (data : list Z) (final desc : bool) types (flags : list bool) : Prop := {
  part_marks : rep (index_granularity part) data final;
  part_nonempty : 0 < blen data;
  part_rows : blen rows = sum data;
  part_typed : Forall (fun row => length row = length types /\ row_typed types row) rows;
  part_sorted : forall i j x y, (i <= j)%nat -> rows !! i = Some x -> rows !! j = Some y -> if desc then lex_le y x else lex_le x y;
  part_index : forall i column k, index part !! i = Some column -> (i < length types)%nat -> 0 <= k < blen data + Z.b2z final ->
    exists row a, rows !! Z.to_nat (index_row data k) = Some row /\ row !! i = Some a /\ column !! Z.to_nat k = Some (key_value a);
  part_flags : forall i, (i < length types)%nat -> is_Some (index part !! i) -> reverse_flag flags i = Ok desc }.

(** The marks that can be searched: with descending keys, a range must end at a mark of the index, so the last mark, the final one if there
    is one, is not in it. *)
Definition searchable (data : list Z) (final desc : bool) : Z := blen data + Z.b2z final - Z.b2z desc.

(** The positions of the rows in a range of marks. *)
Definition row_of (data : list Z) (r : MarkRange.t) (pos : Z) : Prop := rows_before data (begin r) <= pos < rows_before data (end_ r).

Lemma create_field_ref_spec (br : bool) (column : list (option V)) k a :
  isNegativeInfinity a = false -> column !! Z.to_nat k = Some (key_value a) -> exists f, create_field_ref br column k = Ok f /\ field f = a.
Proof. intros Ha Hk. unfold create_field_ref. rewrite Hk. destruct a; [done|by eexists|by eexists]. Qed.

Section one_part.
Context part rows data final desc types flags (Hpart : sorted_part part rows data final desc types flags).

Lemma marks_count : getMarksCount (index_granularity part) = blen data + Z.b2z final.
Proof. apply rep_count, (part_marks _ _ _ _ _ _ _ Hpart). Qed.

Lemma data_positive : Forall (fun m => 0 < m) data.
Proof. apply (proper_positive _ (rep_proper _ _ _ (part_marks _ _ _ _ _ _ _ Hpart))). Qed.

Lemma row_typed_at pos row : rows !! pos = Some row -> row_typed types row /\ length row = length types.
Proof.
  intros Hrow. pose proof (part_typed _ _ _ _ _ _ _ Hpart) as Ht. rewrite Forall_lookup in Ht. by destruct (Ht _ _ Hrow).
Qed.

Lemma row_finite pos row i a : rows !! pos = Some row -> row !! i = Some a -> isNegativeInfinity a = false.
Proof.
  intros Hrow Ha. destruct (row_typed_at _ _ Hrow) as [[Hle Ht] _].
  assert (Hx : is_Some (types !! i)) by (apply lookup_lt_is_Some; apply lookup_lt_Some in Ha; lia). destruct Hx as [type Hty]. by destruct (Ht _ _ _ Ha Hty).
Qed.

Lemma index_row_exists k : 0 <= k -> exists w, rows !! Z.to_nat (index_row data k) = Some w.
Proof.
  intros Hk. apply lookup_lt_is_Some. pose proof (part_rows _ _ _ _ _ _ _ Hpart) as Hrows. pose proof (rows_before_bounds data k data_positive).
  pose proof (part_nonempty _ _ _ _ _ _ _ Hpart) as Hne. pose proof data_positive as Hpos. unfold index_row.
  assert (0 < sum data) by (destruct Hpos as [|m ms Hm Hms]; cbn in *; [lia|]; fold (sum ms); pose proof (sum_nonneg ms Hms); lia). lia.
Qed.

(** A field of the index is the field of its row. *)
Lemma index_field (br : bool) i column k w :
  index part !! i = Some column -> (i < length types)%nat -> 0 <= k < blen data + Z.b2z final -> rows !! Z.to_nat (index_row data k) = Some w ->
  exists f, create_field_ref br column k = Ok f /\ w !! i = Some (field f).
Proof.
  intros Hc Hi Hk Hw. destruct (part_index _ _ _ _ _ _ _ Hpart i column k Hc Hi Hk) as (w' & a & Hw' & Ha & Hcol). simplify_eq.
  destruct (create_field_ref_spec br column k a) as (f & Hf & Hfa); [by eapply row_finite|done|]. exists f. by rewrite Hfa.
Qed.

(** The two tuples of a range of marks, of the rows at its ends. *)
Definition known_or (inf : Field V) (w : list (Field V)) (i : nat) (f : FieldRef V) : Prop := w !! i = Some (field f) \/ field f = inf.

Lemma key_ends_spec (br : bool) r w0 w1 i :
  0 <= begin r < end_ r -> end_ r <= searchable data final desc -> (i < length types)%nat ->
  rows !! Z.to_nat (index_row data (begin r)) = Some w0 -> rows !! Z.to_nat (index_row data (end_ r)) = Some w1 ->
  exists l g, key_ends part flags br (getMarksCount (index_granularity part)) r i = Ok (l, g) /\
    known_or NegativeInfinity (if desc then w1 else w0) i l /\
    (if desc then known_or PositiveInfinity w0 i g
     else if end_ r =? blen data + Z.b2z final then field g = PositiveInfinity else known_or PositiveInfinity w1 i g).
Proof.
  intros Hr HN Hi Hw0 Hw1. unfold key_ends. rewrite marks_count. unfold searchable in HN. assert (0 <= Z.b2z final) by by destruct final.
  destruct (index part !! i) as [column|] eqn:Ec.
  2: { eexists _, _. split; [done|]. unfold known_or. cbn. destruct desc; [|destruct (_ =? _)]; auto. }
  rewrite (part_flags _ _ _ _ _ _ _ Hpart i Hi ltac:(by eexists)). cbn [mbind outcome_bind].
  destruct (index_field br i column (begin r) w0 Ec Hi) as (f0 & -> & Hf0); [destruct desc; lia|done|]. cbn [mbind outcome_bind].
  destruct (Z.eqb_spec (end_ r) (blen data + Z.b2z final)) as [Heq|Hne].
  - destruct desc; [cbn in HN; lia|]. eexists _, _. split; [done|]. split; [by left|done].
  - destruct (index_field br i column (end_ r) w1 Ec Hi) as (f1 & -> & Hf1); [destruct desc; lia|done|]. cbn [mbind outcome_bind].
    destruct desc; eexists _, _; (split; [done|]); split; by left.
Qed.

Lemma known_or_all inf w (fs : list (FieldRef V)) :
  length fs = length w -> (forall i f, fs !! i = Some f -> known_or inf w i f) -> Forall2 (fun b a => b = a \/ b = inf) (map field fs) w.
Proof.
  intros Hlen Hk. apply Forall2_same_length_lookup_2; [by rewrite length_map|]. intros i b a Hb Ha. apply list_lookup_fmap_Some in Hb as (f & -> & Hf).
  destruct (Hk i f Hf) as [Hw|Hinf]; [left; congruence|by right].
Qed.

(** Positions and marks. *)
Lemma sorted_at (i j : Z) x y : 0 <= i <= j -> rows !! Z.to_nat i = Some x -> rows !! Z.to_nat j = Some y -> if desc then lex_le y x else lex_le x y.
Proof. intros Hij. apply (part_sorted _ _ _ _ _ _ _ Hpart). lia. Qed.

(** The keys that the index has for a range of marks bound the rows of the range. *)
Lemma key_bounds (br : bool) r :
  0 <= begin r < end_ r -> end_ r <= searchable data final desc ->
  exists ends, mapM (key_ends part flags br (getMarksCount (index_granularity part)) r) (seq 0 (length types)) = Ok ends /\
    length ends = length types /\
    forall pos row, row_of data r pos -> rows !! Z.to_nat pos = Some row ->
      lex_le (map field (map fst ends)) row /\ lex_le row (map field (map snd ends)).
Proof.
  intros Hr HN. destruct (index_row_exists (begin r)) as [w0 Hw0]; [lia|]. destruct (index_row_exists (end_ r)) as [w1 Hw1]; [lia|].
  destruct (mapM_Ok (key_ends part flags br (getMarksCount (index_granularity part)) r) (seq 0 (length types))) as (ends & Hends & Hall).
  { intros i Hi. apply elem_of_seq in Hi. destruct (key_ends_spec br r w0 w1 i) as (l & g & -> & _); [done|done|lia|done|done|]. eauto. }
  exists ends. split; [done|]. assert (Hlen : length ends = length types) by (apply Forall2_length in Hall; by rewrite length_seq in Hall).
  split; [done|]. intros pos row [Hpos1 Hpos2] Hrow.
  assert (Hat : forall i l g, ends !! i = Some (l, g) -> (i < length types)%nat /\ key_ends part flags br (getMarksCount (index_granularity part)) r i = Ok (l, g)).
  { intros i l g Hi. destruct (Forall2_lookup_r _ _ _ _ _ Hall Hi) as (k & Hk & E). apply lookup_seq in Hk as [-> ?]. done. }
  destruct (row_typed_at _ _ Hrow) as [Ht Hlenrow]. destruct (row_typed_at _ _ Hw0) as [_ L0]. destruct (row_typed_at _ _ Hw1) as [_ L1].
  pose proof (rows_before_bounds data (begin r) data_positive) as B0. pose proof (rows_before_bounds data (end_ r) data_positive) as B1.
  assert (Hlow : if desc then lex_le row w0 else lex_le w0 row) by (eapply (sorted_at (index_row data (begin r)) pos); [unfold index_row; lia|done|done]).
  assert (Hup : if desc then lex_le w1 row else lex_le row w1) by (eapply (sorted_at pos (index_row data (end_ r))); [unfold index_row; lia|done|done]).
  split.
  - apply (lex_le_lower (if desc then w1 else w0)); [|apply known_or_all|by destruct desc].
    + apply Forall_lookup. intros i a Ha. by eapply row_finite.
    + rewrite length_map. destruct desc; congruence.
    + intros i f Hf. apply list_lookup_fmap_Some in Hf as ([l g] & -> & Hi). destruct (Hat _ _ _ Hi) as [Hlt E].
      destruct (key_ends_spec br r w0 w1 i) as (l' & g' & E' & Hk & _); [done|done|done|done|done|]. rewrite E in E'. by injection E' as <- <-.
  - set (w := if desc then w0 else if end_ r =? blen data + Z.b2z final then row else w1).
    apply (lex_le_upper w); [apply known_or_all|].
    + rewrite length_map. unfold w. destruct desc; [congruence|]. destruct (_ =? _); congruence.
    + intros i f Hf. apply list_lookup_fmap_Some in Hf as ([l g] & -> & Hi). destruct (Hat _ _ _ Hi) as [Hlt E].
      destruct (key_ends_spec br r w0 w1 i) as (l' & g' & E' & _ & Hk); [done|done|done|done|done|]. rewrite E in E'. injection E' as <- <-. unfold w.
      destruct desc; [done|]. destruct (_ =? _); [by right|done].
    + unfold w. destruct desc; [done|]. destruct (_ =? _); [apply lex_le_refl|done].
Qed.

(** A condition with lawful functions and sets that evaluates on any range. *)
Record condition_ok (kc : KeyCondition.t V) (n : nat) : Prop := {
  ok_elements : Forall element_ok (KeyCondition.rpn kc);
  ok_total : condition_total kc;
  ok_scoped : condition_scoped kc;
  ok_columns : KeyCondition.num_key_columns kc = n;
  ok_not_point : KeyCondition.single_point kc = false }.

(** [m] is right about the rows of a range of marks. *)
Definition right_about (kc : KeyCondition.t V) (key : Z -> list (Field V) -> list (Field V)) (key_types : list DataType) r (m : BoolMask) : Prop :=
  forall pos row tv, row_of data r pos -> rows !! Z.to_nat pos = Some row -> condition_truth kc (key pos row) key_types tv -> mask_ok m tv.

Lemma key_types_prefix data_types n : forall i, (i + n <= length data_types)%nat -> key_types data_types n i = Ok (take n (drop i data_types)).
Proof.
  induction n as [|n IH]; intros i Hi; [done|]. cbn. assert (Hx : is_Some (data_types !! i)) by (apply lookup_lt_is_Some; lia). destruct Hx as [type Ht].
  rewrite Ht, (drop_S _ _ _ Ht), IH by lia. done.
Qed.

Lemma check_key_spec kc data_types r init :
  condition_ok kc (length types) -> types = take (length types) data_types -> 0 <= begin r < end_ r -> end_ r <= searchable data final desc ->
  exists m, check_key_condition part kc data_types flags r init = Ok m /\ right_about kc (fun _ row => row) types r m.
Proof.
  intros Hkc Hty Hr HN. unfold check_key_condition. rewrite (ok_columns _ _ Hkc).
  assert ((length types <= length data_types)%nat) by (apply (f_equal length) in Hty; rewrite length_take in Hty; lia).
  rewrite key_types_prefix, drop_0, <- Hty by lia. cbn [mbind outcome_bind].
  destruct (key_bounds (KeyCondition.hasMonotonicFunctionsChain kc) r Hr HN) as (ends & -> & Hlen & Hb). cbn [mbind outcome_bind].
  destruct (key_range_total kc (length types) types (map fst ends) (map snd ends) init) as [m Hm];
    [apply (ok_total _ _ Hkc)|lia|rewrite length_map; lia..|]. exists m. split; [done|]. intros pos row tv Hpos Hrow Htv.
  destruct (Hb pos row Hpos Hrow) as [Hl Hu]. destruct (row_typed_at _ _ Hrow) as [Ht Hlr]. rewrite <- Hlr in Hm.
  eapply key_range_sound; [apply (ok_elements _ _ Hkc)|apply (ok_not_point _ _ Hkc)|exact Ht|exact Hl|exact Hu|exact Htv|exact Hm].
Qed.

Lemma rows_of_spec r : 0 <= begin r < end_ r -> end_ r <= blen data + Z.b2z final ->
  rows_of part r = Ok (rows_before data (begin r), rows_before data (end_ r) - 1) /\ 0 < rows_before data (end_ r) <= sum data /\ 0 <= rows_before data (begin r).
Proof.
  intros Hr HN. pose proof (part_marks _ _ _ _ _ _ _ Hpart) as Hrep. pose proof (part_nonempty _ _ _ _ _ _ _ Hpart) as Hne.
  pose proof (rep_proper _ _ _ Hrep) as Hp. pose proof (proper_sum _ Hp) as Hsum. pose proof data_positive as Hpos.
  pose proof (rows_before_bounds data (begin r) Hpos) as B0. pose proof (rows_before_bounds data (end_ r) Hpos) as B1.
  assert (Hfirst : 0 < rows_before data (end_ r)).
  { pose proof (rows_before_mono data 1 (end_ r) Hpos ltac:(lia)) as Hm. destruct Hpos as [|m ms Hm0 Hms]; [done|].
    assert (rows_before (m :: ms) 1 = m) by (unfold rows_before; change (Z.to_nat 1) with 1%nat; cbn; rewrite take_0; cbn; lia). lia. }
  split; [|lia]. unfold rows_of, getMarkStartingRow.
  rewrite !(rep_range _ data final) by (done || lia). cbn [mbind outcome_bind].
  replace (rows_before data 0) with 0 by (unfold rows_before; by rewrite take_0). rewrite wrap_id by (split; lia). f_equal. f_equal; lia.
Qed.

Context `{!VirtualColumnsLaws V}.

Lemma of_uint64_le (a b : Z) : uint 64 a -> uint 64 b -> a <= b ->
  forall l l', lex_le l l' -> lex_le (Value (of_uint64 a) :: l) (Value (of_uint64 b) :: l').
Proof.
  intros Ha Hb Hab l l' Hl. cbn. rewrite v_equals_spec, !of_uint64_less by done. destruct (Z.ltb_spec a b); [by left|right]. split; [|done].
  destruct (Z.ltb_spec b a); [lia|done].
Qed.

Lemma offset_row_typed row : (length row <= 2)%nat -> Forall (fun a => isNull a = false) row -> row_typed part_offset_types row.
Proof. intros Hlen Hn. split; [done|]. intros i a type Ha _. rewrite Forall_lookup in Hn. specialize (Hn _ _ Ha). by destruct a. Qed.

(** The keys of the virtual columns of a row. *)
Definition part_offset_key (pos : Z) : list (Field V) := [Value (of_uint64 pos); Value (of_name (part_name part))].
Definition total_offset_key (start pos : Z) : list (Field V) := [Value (of_uint64 (pos + start))].

(** No row is in an empty range. *)
Lemma empty_rows kc key tys r m : rows_before data (end_ r) - 1 < rows_before data (begin r) -> right_about kc key tys r m.
Proof. intros He pos row tv [? ?]. lia. Qed.

Lemma check_part_offset_spec kc r init :
  condition_ok kc 2 -> 0 <= begin r < end_ r -> end_ r <= blen data + Z.b2z final ->
  exists m, check_part_offset_condition part kc r init = Ok m /\ right_about kc (fun pos _ => part_offset_key pos) part_offset_types r m.
Proof.
  intros Hkc Hr HN. destruct (rows_of_spec r Hr HN) as (Hrows & Hb & Ha). unfold check_part_offset_condition. rewrite Hrows. cbn [mbind outcome_bind].
  pose proof (proper_sum _ (rep_proper _ _ _ (part_marks _ _ _ _ _ _ _ Hpart))) as Hsum.
  destruct (Z.ltb_spec (rows_before data (end_ r) - 1) (rows_before data (begin r))); [eexists; split; [done|]; by apply empty_rows|].
  match goal with |- exists m, KeyCondition.checkInRange kc 2 ?l ?g _ _ = _ /\ _ =>
    destruct (key_range_total kc 2 part_offset_types l g init) as [m Hm]; [apply (ok_total _ _ Hkc)|cbn; lia..|] end.
  exists m. split; [done|]. intros pos row tv [Hp1 Hp2] _ Htv.
  refine (key_range_sound kc (part_offset_key pos) _ _ _ init m tv (ok_elements _ _ Hkc) (ok_not_point _ _ Hkc) _ _ _ Htv Hm).
  - apply offset_row_typed; [cbn; lia|]. by repeat constructor.
  - apply of_uint64_le; [split; lia..|lia|apply lex_le_refl].
  - apply of_uint64_le; [split; lia..|lia|apply lex_le_refl].
Qed.

Lemma check_total_offset_spec kc start r init :
  condition_ok kc 1 -> 0 <= start -> start + sum data <= 2 ^ 64 -> 0 <= begin r < end_ r -> end_ r <= blen data + Z.b2z final ->
  exists m, check_total_offset_condition part kc start r init = Ok m /\ right_about kc (fun pos _ => total_offset_key start pos) part_offset_types r m.
Proof.
  intros Hkc Hs0 Hs Hr HN. destruct (rows_of_spec r Hr HN) as (Hrows & Hb & Ha). unfold check_total_offset_condition. rewrite Hrows. cbn [mbind outcome_bind].
  destruct (Z.ltb_spec (rows_before data (end_ r) - 1) (rows_before data (begin r))); [eexists; split; [done|]; by apply empty_rows|].
  match goal with |- exists m, KeyCondition.checkInRange kc 1 ?l ?g _ _ = _ /\ _ =>
    destruct (key_range_total kc 1 part_offset_types l g init) as [m Hm]; [apply (ok_total _ _ Hkc)|cbn; lia..|] end.
  exists m. split; [done|]. intros pos row tv [Hp1 Hp2] _ Htv.
  refine (key_range_sound kc (total_offset_key start pos) _ _ _ init m tv (ok_elements _ _ Hkc) (ok_not_point _ _ Hkc) _ _ _ Htv Hm).
  - apply offset_row_typed; [cbn; lia|]. by repeat constructor.
  - rewrite wrap_id by (split; lia). apply of_uint64_le; [split; lia..|lia|done].
  - rewrite wrap_id by (split; lia). apply of_uint64_le; [split; lia..|lia|done].
Qed.

(** An offset condition that is there, on its key. *)
Definition offset_truth (o : option (KeyCondition.t V)) (key : list (Field V)) (tv : truth) : Prop :=
  exists kc, o = Some kc /\ condition_truth kc key part_offset_types tv.

(** ** A query *)
Section query.
Context (data_types : list DataType) (start : Z) (c : Conditions (V := V)).
Hypothesis (types_prefix : types = take (length types) data_types).
Hypothesis (start_bound : 0 <= start /\ start + sum data <= 2 ^ 64).
Hypothesis (key_ok : condition_ok (key_condition c) (length types)).
Hypothesis (part_offset_ok : part_offset_condition_useful c = true -> exists kc, part_offset_condition c = Some kc /\ condition_ok kc 2).
Hypothesis (total_offset_ok : total_offset_condition_useful c = true -> exists kc, total_offset_condition c = Some kc /\ condition_ok kc 1).

(** The truth values of the useful conditions on the row at a position. *)
Definition query_truth (pos : Z) row (tv : truth) : Prop :=
  (key_condition_useful c = true /\ condition_truth (key_condition c) row types tv) \/
  (part_offset_condition_useful c = true /\ offset_truth (part_offset_condition c) (part_offset_key pos) tv) \/
  (total_offset_condition_useful c = true /\ offset_truth (total_offset_condition c) (total_offset_key start pos) tv).

(** All useful conditions are true on a row. *)
Definition row_matches (pos : Z) row : Prop :=
  (key_condition_useful c = true -> condition_truth (key_condition c) row types (Some true)) /\
  (part_offset_condition_useful c = true -> offset_truth (part_offset_condition c) (part_offset_key pos) (Some true)) /\
  (total_offset_condition_useful c = true -> offset_truth (total_offset_condition c) (total_offset_key start pos) (Some true)).

(** Some row of a mark matches; no condition is false on any of its rows. *)
Definition mark_matches (k : Z) : Prop := exists pos row, row_of data (Make k (k + 1)) pos /\ rows !! Z.to_nat pos = Some row /\ row_matches pos row.
Definition mark_full (k : Z) : Prop :=
  forall pos row, row_of data (Make k (k + 1)) pos -> rows !! Z.to_nat pos = Some row -> ~ query_truth pos row (Some false).

Lemma row_of_mark r k pos : in_range k r -> row_of data (Make k (k + 1)) pos -> row_of data r pos.
Proof.
  intros [Hk1 Hk2] [H1' H2']. cbn in *. unfold row_of. pose proof (rows_before_mono data (begin r) k data_positive ltac:(lia)).
  pose proof (rows_before_mono data (k + 1) (end_ r) data_positive ltac:(lia)). lia.
Qed.

(** [m] admits that rows of the range match, [P], and that they do not, [Q]. *)
Definition admits r (m : BoolMask) (P Q : Z -> list (Field V) -> Prop) : Prop :=
  forall pos row, row_of data r pos -> rows !! Z.to_nat pos = Some row ->
    (P pos row -> can_be_true m = true) /\ (Q pos row -> can_be_false m = true).

Lemma narrow_admits r (u : bool) m0 (m : outcome BoolMask) (P Q T F : Z -> list (Field V) -> Prop) :
  admits r m0 P Q -> (u = true -> exists m', m = Ok m' /\ admits r m' T F) ->
  exists m', narrow u m0 m = Ok m' /\
    admits r m' (fun pos row => P pos row /\ (u = true -> T pos row)) (fun pos row => Q pos row \/ (u = true /\ F pos row)).
Proof.
  intros H0' Hm. unfold narrow. destruct u.
  - destruct (Hm eq_refl) as (m' & -> & Hm'). eexists. split; [done|]. intros pos row Hpos Hrow.
    destruct (H0' pos row Hpos Hrow) as [P1 Q1], (Hm' pos row Hpos Hrow) as [P2 Q2]. cbn. split.
    + intros [Hp Ht]. by rewrite P1, P2 by auto.
    + intros [Hq|[_ Hf]]; [by rewrite Q1|by rewrite Q2, orb_true_r].
  - exists m0. split; [done|]. intros pos row Hpos Hrow. destruct (H0' pos row Hpos Hrow) as [P1 Q1]. split; [|intros [?|[? _]]; [auto|done]].
    intros [? _]. auto.
Qed.

Lemma right_admits kc key tys r m : right_about kc key tys r m ->
  admits r m (fun pos row => condition_truth kc (key pos row) tys (Some true)) (fun pos row => condition_truth kc (key pos row) tys (Some false)).
Proof. intros Hm pos row Hpos Hrow. split; intros Ht; by apply (Hm pos row _ Hpos Hrow Ht). Qed.

Lemma admits_impl r m (P Q P' Q' : Z -> list (Field V) -> Prop) :
  (forall pos row, P' pos row -> P pos row) -> (forall pos row, Q' pos row -> Q pos row) -> admits r m P Q -> admits r m P' Q'.
Proof. intros HP HQ Hm pos row Hpos Hrow. destruct (Hm pos row Hpos Hrow) as [H3 H4]. split; auto. Qed.

(** The check of a range of marks returns, and is right about its rows. *)
Lemma check_in_range_spec r init : 0 <= begin r < end_ r -> end_ r <= searchable data final desc ->
  exists m, check_in_range part data_types flags start c r init = Ok m /\
    admits r m row_matches (fun pos row => query_truth pos row (Some false)).
Proof.
  intros Hr HN. assert (HN' : end_ r <= blen data + Z.b2z final) by (unfold searchable in HN; destruct desc; cbn in HN; lia).
  unfold check_in_range.
  destruct (narrow_admits r (key_condition_useful c) (Mask true false) (check_key_condition part (key_condition c) data_types flags r init)
    (fun _ _ => True) (fun _ _ => False) (fun _ row => condition_truth (key_condition c) row types (Some true))
    (fun _ row => condition_truth (key_condition c) row types (Some false))) as (m1 & -> & A1); [done| |].
  { intros _. destruct (check_key_spec _ data_types r init key_ok types_prefix Hr HN) as (m & -> & Rm). exists m. split; [done|]. by apply right_admits in Rm. }
  cbn [mbind outcome_bind].
  match goal with |- context [narrow (part_offset_condition_useful c) m1 ?m] =>
    destruct (narrow_admits r (part_offset_condition_useful c) m1 m _ _ (fun pos _ => offset_truth (part_offset_condition c) (part_offset_key pos) (Some true))
      (fun pos _ => offset_truth (part_offset_condition c) (part_offset_key pos) (Some false)) A1) as (m2 & -> & A2) end.
  { intros Hu. destruct (part_offset_ok Hu) as (kc & -> & Hok). destruct (check_part_offset_spec kc r init Hok Hr HN') as (m & -> & Rm).
    exists m. split; [done|]. apply right_admits in Rm. eapply admits_impl; [| |exact Rm]; intros pos row (? & [= <-] & ?); done. }
  cbn [mbind outcome_bind].
  match goal with |- context [narrow (total_offset_condition_useful c) m2 ?m] =>
    destruct (narrow_admits r (total_offset_condition_useful c) m2 m _ _ (fun pos _ => offset_truth (total_offset_condition c) (total_offset_key start pos) (Some true))
      (fun pos _ => offset_truth (total_offset_condition c) (total_offset_key start pos) (Some false)) A2) as (m3 & -> & A3) end.
  { intros Hu. destruct (total_offset_ok Hu) as (kc & -> & Hok). destruct start_bound as [S0 S1].
    destruct (check_total_offset_spec kc start r init Hok S0 S1 Hr HN') as (m & -> & Rm).
    exists m. split; [done|]. apply right_admits in Rm. eapply admits_impl; [| |exact Rm]; intros pos row (? & [= <-] & ?); done. }
  exists m3. split; [done|]. eapply admits_impl; [| |exact A3].
  - intros pos row (Mk & Mp & Mt). tauto.
  - intros pos row Hq. unfold query_truth in Hq. tauto.
Qed.

(** What both searches need to know of the check. *)
Lemma check_is_total r m : 0 <= begin r < end_ r -> end_ r <= searchable data final desc ->
  exists mask, check_in_range part data_types flags start c r m = Ok mask.
Proof. intros Hr HN. destruct (check_in_range_spec r m Hr HN) as (b & Hb & _). eauto. Qed.

Lemma check_is_sound r m (b : BoolMask) k : 0 <= begin r < end_ r -> end_ r <= searchable data final desc ->
  check_in_range part data_types flags start c r m = Ok b -> can_be_true b = false -> in_range k r -> ~ mark_matches k.
Proof.
  intros Hr HN Hb Hf Hk (pos & row & Hpos & Hrow & Hm). destruct (check_in_range_spec r m Hr HN) as (b' & Hb' & Ha). rewrite Hb in Hb'. injection Hb' as <-.
  destruct (Ha pos row (row_of_mark _ _ _ Hk Hpos) Hrow) as [Ht _]. rewrite Ht in Hf; done.
Qed.

Lemma check_is_full r m (b : BoolMask) k : 0 <= begin r < end_ r -> end_ r <= searchable data final desc ->
  check_in_range part data_types flags start c r m = Ok b -> can_be_false b = false -> in_range k r -> mark_full k.
Proof.
  intros Hr HN Hb Hf Hk pos row Hpos Hrow Hq. destruct (check_in_range_spec r m Hr HN) as (b' & Hb' & Ha). rewrite Hb in Hb'. injection Hb' as <-.
  destruct (Ha pos row (row_of_mark _ _ _ Hk Hpos) Hrow) as [_ Ht]. rewrite Ht in Hf; done.
Qed.
End query.

(** ** The selection *)
Definition settings_ok (settings : Settings) : Prop :=
  1 < merge_tree_coarse_index_granularity settings < 2 ^ 63 /\ uint 64 (merge_tree_min_rows_for_seek settings) /\
  uint 64 (merge_tree_min_bytes_for_seek settings) /\ 0 < fixed_index_granularity part < 2 ^ 64 /\ 0 <= index_granularity_bytes part < 2 ^ 64.

Lemma round_spec rows_setting bytes_setting rows_granularity bytes_granularity :
  0 < rows_granularity < 2 ^ 64 -> 0 <= bytes_granularity < 2 ^ 64 ->
  exists m, roundRowsOrBytesToMarks rows_setting bytes_setting rows_granularity bytes_granularity = Ok m /\ 0 <= m /\
    (rows_setting = 0 -> bytes_setting = 0 -> m = 0).
Proof.
  intros Hg Hb. unfold roundRowsOrBytesToMarks. rewrite bind_defined by (destruct (Z.eqb_spec rows_granularity 0); [lia|done]).
  assert (Hpos : forall s g, 0 < g < 2 ^ 64 -> 0 <= wrap 64 (wrap 64 (s + g) - 1) / g /\ (s = 0 -> wrap 64 (wrap 64 (s + g) - 1) / g = 0)).
  { intros s g Hs. split; [apply Z.div_pos; [|lia]; apply wrap_uint; lia|]. intros ->. rewrite Z.add_0_l, (wrap_id 64 g), wrap_id by (split; lia).
    apply Z.div_small. lia. }
  destruct (Hpos rows_setting rows_granularity Hg) as [H3 H4]. destruct (Z.eqb_spec bytes_granularity 0) as [->|Hne].
  - eexists. split; [done|]. auto.
  - destruct (Hpos bytes_setting bytes_granularity) as [H5 H6]; [lia|]. eexists. split; [done|]. split; [lia|]. intros E1 E2. rewrite H4, H6 by done. done.
Qed.

Lemma exact_range_total (u : bool) (o : option (KeyCondition.t V)) n :
  (forall kc, o = Some kc -> condition_ok kc n) -> exists e, exact_range u o = Ok e.
Proof.
  intros Ho. unfold exact_range. destruct u; cbn; [|eauto]. destruct o as [kc|]; [|eauto].
  apply matches_exact_total; [apply (ok_total _ _ (Ho kc eq_refl))|apply (ok_scoped _ _ (Ho kc eq_refl))].
Qed.

Lemma useful_option_total (o : option (KeyCondition.t V)) n :
  (forall kc, o = Some kc -> condition_ok kc n) -> exists u, useful o = Ok u /\ (u = true -> is_Some o).
Proof.
  intros Ho. destruct o as [kc|]; [|by exists false]. destruct (useful_total kc (ok_total _ _ (Ho kc eq_refl))) as [u Hu]. exists u. split; [done|]. eauto.
Qed.

Lemma in_ranges_rev k l : in_ranges k (rev l) <-> in_ranges k l.
Proof. split; intros Hk; [rewrite <- (rev_involutive l)|]; by apply List.Exists_rev. Qed.

Section whole_query.
Context (data_types : list DataType) (start : Z) (settings : Settings) (kc : KeyCondition.t V) (po to : option (KeyCondition.t V)).
Hypothesis (types_prefix : types = take (length types) data_types).
Hypothesis (start_bound : 0 <= start /\ start + sum data <= 2 ^ 64).
Hypothesis (settings_valid : settings_ok settings).
Hypothesis (marks_bound : blen data + Z.b2z final < 2 ^ 63).
Hypothesis (key_valid : condition_ok kc (length types)).
Hypothesis (part_valid : forall c, po = Some c -> condition_ok c 2).
Hypothesis (total_valid : forall c, to = Some c -> condition_ok c 1).

(** All the conditions of the query are true on a row; a useful one is false. *)
Definition row_satisfies (pos : Z) row : Prop :=
  condition_truth kc row types (Some true) /\ (is_Some po -> offset_truth po (part_offset_key pos) (Some true)) /\
  (is_Some to -> offset_truth to (total_offset_key start pos) (Some true)).
Definition row_fails (pos : Z) row : Prop :=
  (useful (Some kc) = Ok true /\ condition_truth kc row types (Some false)) \/
  (useful po = Ok true /\ offset_truth po (part_offset_key pos) (Some false)) \/
  (useful to = Ok true /\ offset_truth to (total_offset_key start pos) (Some false)).

(** The selected marks keep all rows of the query, and go beyond the given marks
    only to avoid seeks; no row of an exact range fails. *)
Record selected (part_ranges : list MarkRange.t) (res : MarkRanges) : Prop := {
  selected_keeps : forall k pos row, in_ranges k part_ranges -> row_of data (Make k (k + 1)) pos -> rows !! Z.to_nat pos = Some row ->
    row_satisfies pos row -> in_ranges k (ranges res);
  selected_within : merge_tree_min_rows_for_seek settings = 0 -> merge_tree_min_bytes_for_seek settings = 0 ->
    forall k, in_ranges k (ranges res) -> in_ranges k part_ranges;
  selected_exact : merge_tree_min_rows_for_seek settings = 0 -> merge_tree_min_bytes_for_seek settings = 0 ->
    forall k pos row, in_ranges k (exact_ranges res) -> row_of data (Make k (k + 1)) pos -> rows !! Z.to_nat pos = Some row -> ~ row_fails pos row }.

(** From a search to the selection. *)
Lemma selected_of_search (ku pu tu : bool) m part_ranges hi res exact alg :
  useful (Some kc) = Ok ku -> useful po = Ok pu -> useful to = Ok tu -> (pu = true -> is_Some po) -> (tu = true -> is_Some to) ->
  (merge_tree_min_rows_for_seek settings = 0 -> merge_tree_min_bytes_for_seek settings = 0 -> m = 0) ->
  searched (mark_matches start (MakeConditions kc po to ku pu tu)) (mark_full start (MakeConditions kc po to ku pu tu)) hi m
    (fun k => in_ranges k part_ranges) [] [] res exact ->
  selected part_ranges (MakeMarkRanges (rev res) (rev exact) alg).
Proof.
  intros Eku Epu Etu Hpu Htu Hm Hs. split; cbn [ranges exact_ranges].
  - intros k pos row Hk Hpos Hrow (Sk & Sp & St). rewrite in_ranges_rev. apply (searched_finds _ _ _ _ _ _ _ _ _ Hs k); [|done].
    exists pos, row. split_and!; [done|done|]. split_and!; cbn; auto.
  - intros E1 E2 k Hk. rewrite in_ranges_rev in Hk. destruct (searched_only _ _ _ _ _ _ _ _ _ Hs (Hm E1 E2) k Hk) as [Hn|]; [|done]. by apply Exists_nil in Hn.
  - intros E1 E2 k pos row Hk Hpos Hrow Hf. rewrite in_ranges_rev in Hk.
    destruct (searched_full _ _ _ _ _ _ _ _ _ Hs (Hm E1 E2) k Hk) as [Hn|Hfull]; [by apply Exists_nil in Hn|]. apply (Hfull pos row Hpos Hrow).
    unfold row_fails in Hf. rewrite Eku, Epu, Etu in Hf. unfold query_truth. cbn. destruct Hf as [[[= ->] ?]|[[[= ->] ?]|[[= ->] ?]]]; auto.
Qed.

Lemma selection_spec part_ranges (want_exact : bool) :
  ascending 0 part_ranges (searchable data final desc) ->
  exists res, markRangesFromPKRange part part_ranges start data_types flags kc po to want_exact settings = Ok res /\ selected part_ranges res.
Proof.
  intros Hasc. pose proof (part_nonempty _ _ _ _ _ _ _ Hpart) as Hne. assert (0 <= Z.b2z final) by by destruct final.
  unfold markRangesFromPKRange. rewrite marks_count. destruct (Z.eqb_spec (blen data + Z.b2z final) 0); [lia|].
  destruct (useful_total kc (ok_total _ _ key_valid)) as [ku Eku]. destruct (useful_option_total po 2 part_valid) as (pu & Epu & Hpu).
  destruct (useful_option_total to 1 total_valid) as (tu & Etu & Htu). rewrite Eku, Epu, Etu. cbn [mbind outcome_bind].
  destruct (negb ku && negb pu && negb tu).
  { eexists. split; [done|]. split; cbn; [done|done|]. intros _ _ k pos row Hk. by apply Exists_nil in Hk. }
  destruct (exact_range_total ku (Some kc) (length types)) as [ke ->]; [by intros ? [= <-]|].
  destruct (exact_range_total pu po 2 part_valid) as [pe ->]. destruct (exact_range_total tu to 1 total_valid) as [te ->]. cbn [mbind outcome_bind].
  set (c := MakeConditions kc po to ku pu tu). set (want := want_exact && _).
  assert (Hp' : pu = true -> exists c, po = Some c /\ condition_ok c 2) by (intros [kc' E]%Hpu; exists kc'; auto).
  assert (Ht' : tu = true -> exists c, to = Some c /\ condition_ok c 1) by (intros [kc' E]%Htu; exists kc'; auto).
  assert (HN : searchable data final desc < 2 ^ 63).
  { unfold searchable. destruct desc; lia. }
  pose proof (check_is_total data_types start c types_prefix start_bound key_valid Hp' Ht') as Htot.
  pose proof (check_is_sound data_types start c types_prefix start_bound key_valid Hp' Ht') as Hsound.
  pose proof (check_is_full data_types start c types_prefix start_bound key_valid Hp' Ht') as Hfull.
  destruct settings_valid as (Hc & _ & _ & Hfix & Hbytes).
  destruct (negb ke || negb pe || negb te).
  - destruct (Z.ltb_spec 1 (merge_tree_coarse_index_granularity settings)); [|lia]. cbn [mbind outcome_bind require].
    destruct (round_spec (merge_tree_min_rows_for_seek settings) (merge_tree_min_bytes_for_seek settings) _ _ Hfix Hbytes) as (m & -> & Hm & Hm0).
    cbn [mbind outcome_bind].
    destruct (exclusion_search_spec _ _ _ _ HN Htot Hsound Hfull _ m want Hc Hm part_ranges 0 _ [] [] Hasc) as (res & exact & -> & Hs); [done|done|constructor..|].
    cbn [mbind outcome_bind]. eexists. split; [done|]. by eapply selected_of_search.
  - destruct (binary_search_spec _ _ _ _ HN Htot Hsound Hfull want part_ranges 0 _ [] [] Hasc) as (res & exact & -> & Hs); [done|done|constructor..|].
    cbn [mbind outcome_bind]. eexists. split; [done|]. by eapply selected_of_search.
Qed.
End whole_query.
End one_part.

(** A query whose conditions fit the key of the part, with sizes that do not overflow. *)
Record valid_query part (data : list Z) (final : bool) types (data_types : list DataType) (start : Z) (settings : Settings)
    (kc : KeyCondition.t V) (po to : option (KeyCondition.t V)) : Prop := {
  query_types : types = take (length types) data_types;
  query_start : 0 <= start /\ start + sum data <= 2 ^ 64;
  query_settings : settings_ok part settings;
  query_marks : blen data + Z.b2z final < 2 ^ 63;
  query_key : condition_ok kc (length types);
  query_part : forall c, po = Some c -> condition_ok c 2;
  query_total : forall c, to = Some c -> condition_ok c 1 }.
End parts.

(** ** Scalars as values of the virtual columns *)
#[export] Instance Scalar_virtual : VirtualColumns Scalar := {| of_uint64 := UInt64; of_name := String |}.

#[export] Instance Scalar_virtual_laws : VirtualColumnsLaws Scalar.
Proof. by split. Qed.
