(* ===== verification/CachePolicy.v ===== *)
(** * Cache policies

    [src/Common/ICachePolicy.h] as an interface, and the policies LRU and SLRU of
    [src/Common/LRUCachePolicy.h] and [src/Common/SLRUCachePolicy.h].

    A [std::list] of keys is a list; the iterator a cell keeps into it is the
    place of its key, which occurs once.  [MappedPtr] is a value or null.  The
    calls of [on_remove_entry_function] are listed in [removed], the last call
    first.  The metrics are what this cache has added to them.  [std::terminate]
    is [Undef].  [set] may find no memory for the entry of the queue
    ([no_memory]), and then returns [false] for the exception. *)

From stdpp Require Import prelude gmap.
From Stdlib Require Import ZArith Lia SpecFloat.
From S2P Require Import Prelude.

(** ** The interface *)
Class CachePolicy (Key V P : Type) := {
  sizeInBytes : P -> Z;
  count : P -> Z;
  maxSizeInBytes : P -> Z;
  maxCount : P -> Z;
  setMaxCount : Z -> P -> outcome P;
  setMaxSizeInBytes : Z -> P -> outcome P;
  get : Key -> P -> outcome (option V * P);
  getWithKey : Key -> P -> outcome (option (Key * option V) * P);
  contains : Key -> P -> bool;
  set : bool -> Key -> option V -> P -> outcome (bool * P);
  remove : Key -> P -> P;
  remove_if : (Key -> option V -> bool) -> P -> P;
  clear : P -> P;
  dump : P -> list (Key * option V) }.

(** The weight of every value unless a cache says otherwise. *)
Definition EqualWeightFunction {V : Type} (mapped : V) : Z := 1.

(** ** Lists of keys *)
Section queues.
Context {Key : Type} `{EqDecision Key}.

(** [queue.erase(iterator)]. *)
Fixpoint erase (key : Key) (queue : list Key) : list Key :=
  match queue with
  | [] => []
  | k :: queue => if decide (k = key) then queue else k :: erase key queue
  end.

(** [queue.splice(queue.end(), queue, iterator)]. *)
Definition move_to_end (key : Key) (queue : list Key) : list Key := erase key queue ++ [key].
End queues.

(** [CurrentMetrics::add(metric, static_cast<Int64>(a) - b)] and [sub(metric, b - a)]. *)
Definition metric_difference (a b : Z) : Z := to_signed 64 (wrap 64 (a - b)).

(** ** LRU *)
Module LRUCachePolicy.
Section policy.
Context {Key V : Type} `{Countable Key} (weight_function : V -> Z).

Record Cell := MakeCell { value : option V; size : Z }.

Record t := Make {
  queue : list Key;
  cells : gmap Key Cell;
  current_size_in_bytes : Z;
  max_size_in_bytes : Z;
  max_count : Z;
  size_metric : Z;
  count_metric : Z;
  removed : list (Z * option V) }.

Definition cells_size (s : t) : Z := Z.of_nat (base.size (cells s)).

Definition new (max_size_in_bytes_ max_count_ : Z) : t := Make [] ∅ 0 max_size_in_bytes_ max_count_ 0 0 [].

Definition weigh (mapped : option V) : Z := match mapped with Some v => weight_function v | None => 0 end.

(** The loop of [removeOverflow]. *)
Fixpoint overflow_loop (queue_size : nat) (s : t) : outcome t :=
  if (max_size_in_bytes s <? current_size_in_bytes s) || (negb (max_count s =? 0) && (max_count s <? Z.of_nat queue_size)) then
    match queue_size with
    | O => Ok s
    | S queue_size =>
      match queue s with
      | [] => Undef
      | key :: rest =>
        match cells s !! key with
        | None => Undef
        | Some cell =>
          overflow_loop queue_size (Make rest (delete key (cells s)) (wrap 64 (current_size_in_bytes s - size cell)) (max_size_in_bytes s) (max_count s)
            (size_metric s) (count_metric s) ((size cell, value cell) :: removed s))
        end
      end
    end
  else Ok s.

Definition removeOverflow (s : t) : outcome t :=
  s' ← overflow_loop (base.size (cells s)) s;
  _ ← defined (current_size_in_bytes s' <=? 2 ^ 63);
  Ok (Make (queue s') (cells s') (current_size_in_bytes s') (max_size_in_bytes s') (max_count s')
    (size_metric s' - metric_difference (current_size_in_bytes s) (current_size_in_bytes s'))
    (count_metric s' - metric_difference (cells_size s) (cells_size s')) (removed s')).

Definition lru_setMaxCount (max_count_ : Z) (s : t) : outcome t :=
  removeOverflow (Make (queue s) (cells s) (current_size_in_bytes s) (max_size_in_bytes s) max_count_ (size_metric s) (count_metric s) (removed s)).

Definition lru_setMaxSizeInBytes (max_size_in_bytes_ : Z) (s : t) : outcome t :=
  removeOverflow (Make (queue s) (cells s) (current_size_in_bytes s) max_size_in_bytes_ (max_count s) (size_metric s) (count_metric s) (removed s)).

Definition lru_clear (s : t) : t :=
  Make [] ∅ 0 (max_size_in_bytes s) (max_count s) (size_metric s - to_signed 64 (current_size_in_bytes s)) (count_metric s - cells_size s) (removed s).

(** [remove] of one key, with the metrics apart. *)
Definition drop_cell (key : Key) (cell : Cell) (s : t) : t :=
  Make (erase key (queue s)) (delete key (cells s)) (wrap 64 (current_size_in_bytes s - size cell)) (max_size_in_bytes s) (max_count s)
    (size_metric s) (count_metric s) (removed s).

Definition lru_remove (key : Key) (s : t) : t :=
  match cells s !! key with
  | None => s
  | Some cell =>
    let s' := drop_cell key cell s in
    Make (queue s') (cells s') (current_size_in_bytes s') (max_size_in_bytes s') (max_count s')
      (size_metric s' - to_signed 64 (size cell)) (count_metric s' - 1) (removed s')
  end.

(** The cells in the order of the map's iterator. *)
Definition lru_remove_if (predicate : Key -> option V -> bool) (s : t) : t :=
  let s' := foldl (fun s '(key, cell) => if predicate key (value cell) then drop_cell key cell s else s) s (map_to_list (cells s)) in
  Make (queue s') (cells s') (current_size_in_bytes s') (max_size_in_bytes s') (max_count s')
    (size_metric s' - metric_difference (current_size_in_bytes s) (current_size_in_bytes s'))
    (count_metric s' - metric_difference (cells_size s) (cells_size s')) (removed s').

Definition touch (key : Key) (s : t) : t :=
  Make (move_to_end key (queue s)) (cells s) (current_size_in_bytes s) (max_size_in_bytes s) (max_count s) (size_metric s) (count_metric s) (removed s).

Definition lru_get (key : Key) (s : t) : outcome (option V * t) :=
  match cells s !! key with
  | None => Ok (None, s)
  | Some cell => Ok (value cell, touch key s)
  end.

Definition lru_getWithKey (key : Key) (s : t) : outcome (option (Key * option V) * t) :=
  match cells s !! key with
  | None => Ok (None, s)
  | Some cell => Ok (Some (key, value cell), touch key s)
  end.

Definition lru_contains (key : Key) (s : t) : bool := bool_decide (is_Some (cells s !! key)).

Definition lru_set (no_memory : bool) (key : Key) (mapped : option V) (s : t) : outcome (bool * t) :=
  let cell := MakeCell mapped (weigh mapped) in
  match cells s !! key with
  | None =>
    if no_memory then Ok (false, s)
    else
      let current := wrap 64 (current_size_in_bytes s + size cell) in
      let cells' := <[key := cell]> (cells s) in
      s' ← removeOverflow (Make (queue s ++ [key]) cells' current (max_size_in_bytes s) (max_count s)
        (size_metric s + metric_difference current (current_size_in_bytes s))
        (count_metric s + metric_difference (Z.of_nat (base.size cells')) (cells_size s)) (removed s));
      Ok (true, s')
  | Some old =>
    let current := wrap 64 (wrap 64 (current_size_in_bytes s - size old) + size cell) in
    let cells' := <[key := cell]> (cells s) in
    s' ← removeOverflow (Make (move_to_end key (queue s)) cells' current (max_size_in_bytes s) (max_count s)
      (size_metric s + metric_difference current (current_size_in_bytes s))
      (count_metric s + metric_difference (Z.of_nat (base.size cells')) (cells_size s)) (removed s));
    Ok (true, s')
  end.

Definition lru_dump (s : t) : list (Key * option V) := (fun '(key, cell) => (key, value cell)) <$> map_to_list (cells s).

Definition lru_policy : CachePolicy Key V t := {|
  sizeInBytes := current_size_in_bytes;
  count := cells_size;
  maxSizeInBytes := max_size_in_bytes;
  maxCount := max_count;
  setMaxCount := lru_setMaxCount;
  setMaxSizeInBytes := lru_setMaxSizeInBytes;
  get := lru_get;
  getWithKey := lru_getWithKey;
  contains := lru_contains;
  set := lru_set;
  remove := lru_remove;
  remove_if := lru_remove_if;
  clear := lru_clear;
  dump := lru_dump |}.
End policy.
Arguments t Key V {_ _}.
End LRUCachePolicy.

(** ** Floating point

    [double] as in the standard: 53 bits, rounding to nearest even. *)
Definition double_of_size (n : Z) : spec_float := binary_normalize 53 1024 n 0 false.
Definition one_double : spec_float := double_of_size 1.
Definition zero_double : spec_float := S754_zero false.

(** [static_cast<size_t>]: the fraction is cut off; undefined for what does not fit. *)
Definition size_of_double (x : spec_float) : outcome Z :=
  match x with
  | S754_zero _ => Ok 0
  | S754_finite negative m e =>
    let n := if 0 <=? e then Z.pos m * 2 ^ e else Z.pos m / 2 ^ (- e) in
    if n =? 0 then Ok 0
    else
      _ ← defined (negb negative && (n <? 2 ^ 64));
      Ok n
  | _ => Undef
  end.

(** [std::min(a, b)] and [std::max(a, b)]: the first of equal or unordered values. *)
Definition min_double (a b : spec_float) : spec_float := if SFltb b a then b else a.
Definition max_double (a b : spec_float) : spec_float := if SFltb a b then b else a.

Definition calculateMaxProtectedSize (max_size_in_bytes : Z) (size_ratio : spec_float) : outcome Z :=
  size_of_double (SFmul 53 1024 (double_of_size max_size_in_bytes) (max_double zero_double (min_double one_double size_ratio))).

(** ** SLRU *)
Module SLRUCachePolicy.
Section policy.
Context {Key V : Type} `{Countable Key} (weight_function : V -> Z).

Record Cell := MakeCell { is_protected : bool; value : option V; size : Z }.

Record t := Make {
  probationary_queue : list Key;
  protected_queue : list Key;
  cells : gmap Key Cell;
  max_size_in_bytes : Z;
  max_protected_size : Z;
  max_count : Z;
  size_ratio : spec_float;
  current_protected_size : Z;
  current_size_in_bytes : Z;
  size_metric : Z;
  count_metric : Z;
  removed : list (Z * option V) }.

Definition cells_size (s : t) : Z := Z.of_nat (base.size (cells s)).

Definition new (max_size_in_bytes_ max_count_ : Z) (size_ratio_ : spec_float) : outcome t :=
  max_protected ← calculateMaxProtectedSize max_size_in_bytes_ size_ratio_;
  Ok (Make [] [] ∅ max_size_in_bytes_ max_protected max_count_ size_ratio_ 0 0 0 0 []).

Definition weigh (mapped : option V) : Z := match mapped with Some v => weight_function v | None => 0 end.

(** The contents of the cache changed, the limits and metrics as they are. *)
Definition update (s : t) (probationary protected : list Key) (cells' : gmap Key Cell) (current_protected current : Z) (removed' : list (Z * option V)) : t :=
  Make probationary protected cells' (max_size_in_bytes s) (max_protected_size s) (max_count s) (size_ratio s) current_protected current
    (size_metric s) (count_metric s) removed'.

Definition with_metrics (s : t) (size_metric' count_metric' : Z) : t :=
  Make (probationary_queue s) (protected_queue s) (cells s) (max_size_in_bytes s) (max_protected_size s) (max_count s) (size_ratio s)
    (current_protected_size s) (current_size_in_bytes s) size_metric' count_metric' (removed s).

(** [removeOverflow] of the protected queue: what is moved stays in the cache.
    The weight is [current_protected_size]. *)
Fixpoint protected_loop (queue_size : nat) (s : t) : outcome t :=
  if (negb (max_count s =? 0) && (max_count s <? wrap 64 (cells_size s - Z.of_nat (length (probationary_queue s)))))
    || (max_protected_size s <? current_protected_size s)
  then
    match queue_size with
    | O => Ok s
    | S queue_size =>
      match protected_queue s with
      | [] => Undef
      | key :: rest =>
        match cells s !! key with
        | None => Undef
        | Some cell =>
          let current := wrap 64 (current_protected_size s - size cell) in
          if is_protected cell then
            protected_loop queue_size (update s (probationary_queue s ++ [key]) rest (<[key := MakeCell false (value cell) (size cell)]> (cells s))
              current (current_size_in_bytes s) (removed s))
          else
            protected_loop queue_size (update s (probationary_queue s) rest (delete key (cells s)) current (current_size_in_bytes s)
              ((size cell, value cell) :: removed s))
        end
      end
    end
  else Ok s.

(** [removeOverflow] of the probationary queue.  The weight is [current_size_in_bytes]. *)
Fixpoint probationary_loop (queue_size : nat) (s : t) : outcome t :=
  if (negb (max_count s =? 0) && (max_count s <? cells_size s)) || (max_size_in_bytes s <? current_size_in_bytes s) then
    match queue_size with
    | O => Ok s
    | S queue_size =>
      match probationary_queue s with
      | [] => Undef
      | key :: rest =>
        match cells s !! key with
        | None => Undef
        | Some cell =>
          let current := wrap 64 (current_size_in_bytes s - size cell) in
          if is_protected cell then
            probationary_loop queue_size (update s (rest ++ [key]) (protected_queue s) (<[key := MakeCell false (value cell) (size cell)]> (cells s))
              (current_protected_size s) current (removed s))
          else
            probationary_loop queue_size (update s rest (protected_queue s) (delete key (cells s)) (current_protected_size s) current
              ((size cell, value cell) :: removed s))
        end
      end
    end
  else Ok s.

(** [removeOverflow]: the loop, the check, the metrics. *)
Definition removeOverflow (protected : bool) (s : t) : outcome t :=
  s' ← (if protected then protected_loop (length (protected_queue s)) s else probationary_loop (length (probationary_queue s)) s);
  _ ← defined (current_size_in_bytes s' <=? 2 ^ 63);
  Ok (with_metrics s' (size_metric s' - metric_difference (current_size_in_bytes s) (current_size_in_bytes s'))
    (count_metric s' - metric_difference (cells_size s) (cells_size s'))).

Definition removeBoth (s : t) : outcome t := s ← removeOverflow true s; removeOverflow false s.

Definition slru_setMaxCount (max_count_ : Z) (s : t) : outcome t :=
  removeBoth (Make (probationary_queue s) (protected_queue s) (cells s) (max_size_in_bytes s) (max_protected_size s) max_count_ (size_ratio s)
    (current_protected_size s) (current_size_in_bytes s) (size_metric s) (count_metric s) (removed s)).

Definition slru_setMaxSizeInBytes (max_size_in_bytes_ : Z) (s : t) : outcome t :=
  max_protected ← calculateMaxProtectedSize max_size_in_bytes_ (size_ratio s);
  removeBoth (Make (probationary_queue s) (protected_queue s) (cells s) max_size_in_bytes_ max_protected (max_count s) (size_ratio s)
    (current_protected_size s) (current_size_in_bytes s) (size_metric s) (count_metric s) (removed s)).

Definition slru_clear (s : t) : t :=
  with_metrics (update s [] [] ∅ 0 0 (removed s)) (size_metric s - to_signed 64 (current_size_in_bytes s)) (count_metric s - cells_size s).

Definition drop_cell (key : Key) (cell : Cell) (s : t) : t :=
  update s (if is_protected cell then probationary_queue s else erase key (probationary_queue s))
    (if is_protected cell then erase key (protected_queue s) else protected_queue s) (delete key (cells s))
    (if is_protected cell then wrap 64 (current_protected_size s - size cell) else current_protected_size s)
    (wrap 64 (current_size_in_bytes s - size cell)) (removed s).

Definition slru_remove (key : Key) (s : t) : t :=
  match cells s !! key with
  | None => s
  | Some cell => let s' := drop_cell key cell s in with_metrics s' (size_metric s' - to_signed 64 (size cell)) (count_metric s' - 1)
  end.

Definition slru_remove_if (predicate : Key -> option V -> bool) (s : t) : t :=
  let s' := foldl (fun s '(key, cell) => if predicate key (value cell) then drop_cell key cell s else s) s (map_to_list (cells s)) in
  with_metrics s' (size_metric s' - metric_difference (current_size_in_bytes s) (current_size_in_bytes s'))
    (count_metric s' - metric_difference (cells_size s) (cells_size s')).

(** The cell is used: it moves to the end of the protected queue. *)
Definition touch (key : Key) (cell : Cell) (s : t) : outcome t :=
  if is_protected cell then
    Ok (update s (probationary_queue s) (move_to_end key (protected_queue s)) (cells s) (current_protected_size s) (current_size_in_bytes s) (removed s))
  else
    removeOverflow true (update s (erase key (probationary_queue s)) (protected_queue s ++ [key]) (<[key := MakeCell true (value cell) (size cell)]> (cells s))
      (wrap 64 (current_protected_size s + size cell)) (current_size_in_bytes s) (removed s)).

Definition slru_get (key : Key) (s : t) : outcome (option V * t) :=
  match cells s !! key with
  | None => Ok (None, s)
  | Some cell => s ← touch key cell s; Ok (value cell, s)
  end.

Definition slru_getWithKey (key : Key) (s : t) : outcome (option (Key * option V) * t) :=
  match cells s !! key with
  | None => Ok (None, s)
  | Some cell => s ← touch key cell s; Ok (Some (key, value cell), s)
  end.

Definition slru_contains (key : Key) (s : t) : bool := bool_decide (is_Some (cells s !! key)).

(** The entry stored and the metrics updated; [s] has the entry's place in a queue, and its old size taken off. *)
Definition store (key : Key) (protected : bool) (mapped : option V) (old_size_in_bytes old_size : Z) (s : t) : outcome t :=
  let weight := weigh mapped in
  let s := update s (probationary_queue s) (protected_queue s) (<[key := MakeCell protected mapped weight]> (cells s))
    (wrap 64 (current_protected_size s + (if protected then weight else 0))) (wrap 64 (current_size_in_bytes s + weight)) (removed s) in
  removeBoth (with_metrics s (size_metric s + metric_difference (current_size_in_bytes s) old_size_in_bytes)
    (count_metric s + metric_difference (cells_size s) old_size)).

Definition slru_set (no_memory : bool) (key : Key) (mapped : option V) (s : t) : outcome (bool * t) :=
  let old_size_in_bytes := current_size_in_bytes s in
  let old_size := cells_size s in
  match cells s !! key with
  | None =>
    if no_memory then Ok (false, s)
    else
      s ← store key false mapped old_size_in_bytes old_size
        (update s (probationary_queue s ++ [key]) (protected_queue s) (cells s) (current_protected_size s) (current_size_in_bytes s) (removed s));
      Ok (true, s)
  | Some cell =>
    let current := wrap 64 (current_size_in_bytes s - size cell) in
    s ← store key true mapped old_size_in_bytes old_size
      (if is_protected cell then
         update s (probationary_queue s) (move_to_end key (protected_queue s)) (cells s) (wrap 64 (current_protected_size s - size cell)) current (removed s)
       else
         update s (erase key (probationary_queue s)) (protected_queue s ++ [key]) (cells s) (current_protected_size s) current (removed s));
    Ok (true, s)
  end.

Definition slru_dump (s : t) : list (Key * option V) := (fun '(key, cell) => (key, value cell)) <$> map_to_list (cells s).

Definition slru_policy : CachePolicy Key V t := {|
  sizeInBytes := current_size_in_bytes;
  count := cells_size;
  maxSizeInBytes := max_size_in_bytes;
  maxCount := max_count;
  setMaxCount := slru_setMaxCount;
  setMaxSizeInBytes := slru_setMaxSizeInBytes;
  get := slru_get;
  getWithKey := slru_getWithKey;
  contains := slru_contains;
  set := slru_set;
  remove := slru_remove;
  remove_if := slru_remove_if;
  clear := slru_clear;
  dump := slru_dump |}.
End policy.
Arguments t Key V {_ _}.
End SLRUCachePolicy.
