(* ===== verification/CacheFacts.v ===== *)
(** * Facts about cache policies

    What a cache promises ([CachePolicyLaws]) and what follows from it for any
    sequence of operations; association lists in the order of use; the policy
    LRU as operations on such a list. *)

From stdpp Require Import prelude gmap.
From Stdlib Require Import ZArith Lia.
From S2P Require Import Prelude CachePolicy.

(** ** Association lists *)
Section lists.
Context {Key A : Type} `{Countable Key}.
Implicit Types (l : list (Key * A)) (k : Key).

Definition without k l : list (Key * A) := filter (fun e => e.1 <> k) l.

Lemma without_app k l l' : without k (l ++ l') = without k l ++ without k l'.
Proof. apply filter_app. Qed.

Lemma without_notin k l : k ∉ l.*1 -> without k l = l.
Proof.
  induction l as [|[k' a] l IH]; [done|]. rewrite fmap_cons, not_elem_of_cons. intros [Hk Hl]. unfold without. rewrite filter_cons_True by (cbn in *; congruence).
  f_equal. by apply IH.
Qed.

Lemma without_in k k' l : k' ∈ (without k l).*1 <-> k' <> k /\ k' ∈ l.*1.
Proof.
  unfold without. rewrite !list_elem_of_fmap. split.
  - intros (e & -> & [Hne He]%list_elem_of_filter). split; [done|by exists e].
  - intros (Hne & e & -> & He). exists e. split; [done|]. by apply list_elem_of_filter.
Qed.

Lemma without_NoDup k l : NoDup l.*1 -> NoDup (without k l).*1.
Proof. intros Hl. eapply sublist_NoDup; [exact Hl|]. apply fmap_sublist, sublist_filter. Qed.

Lemma without_split k a l1 l2 : k ∉ l1.*1 -> k ∉ l2.*1 -> without k (l1 ++ (k, a) :: l2) = l1 ++ l2.
Proof.
  intros H1 H2. rewrite without_app, without_notin by done. f_equal. unfold without. rewrite filter_cons_False by (cbn; naive_solver).
  by apply without_notin.
Qed.

(** A key that is there, and what is around it. *)
Lemma assoc_split k a l : NoDup l.*1 -> (list_to_map l : gmap Key A) !! k = Some a ->
  exists l1 l2, l = l1 ++ (k, a) :: l2 /\ (k ∉ l1.*1) /\ (k ∉ l2.*1).
Proof.
  intros Hl Hk. apply elem_of_list_to_map_2 in Hk. apply list_elem_of_split in Hk as (l1 & l2 & ->). exists l1, l2. split; [done|].
  rewrite fmap_app, NoDup_app in Hl. cbn in Hl. destruct Hl as (_ & Hd & Hc). apply NoDup_cons in Hc as [Hc _]. split; [|done].
  intros Hin. by apply (Hd k Hin), list_elem_of_here.
Qed.

Lemma list_to_map_split k a l1 l2 : k ∉ l1.*1 -> (list_to_map (l1 ++ (k, a) :: l2) : gmap Key A) = <[k := a]> (list_to_map (l1 ++ l2)).
Proof.
  intros H1. induction l1 as [|[k' a'] l1 IH]; cbn in *; [done|]. apply not_elem_of_cons in H1 as [Hne H1]. rewrite IH by done. by rewrite insert_insert_ne by done.
Qed.

Lemma list_to_map_without k l : (list_to_map (without k l) : gmap Key A) = delete k (list_to_map l).
Proof.
  induction l as [|[k' a] l IH]; [cbn; by rewrite delete_empty|]. rewrite list_to_map_cons. unfold without in *. destruct (decide (k' = k)) as [->|Hne].
  - rewrite filter_cons_False by (cbn; naive_solver). cbn [fst snd]. by rewrite IH, delete_insert_eq.
  - rewrite filter_cons_True by done. cbn. rewrite delete_insert_ne by done. by rewrite <- IH.
Qed.

Lemma erase_without k l : NoDup l.*1 -> erase k l.*1 = (without k l).*1.
Proof.
  induction l as [|[k' a] l IH]; [done|]. rewrite fmap_cons. cbn [fst erase]. rewrite NoDup_cons. intros [Hk Hl]. unfold without in *. case_decide as E.
  - subst. rewrite filter_cons_False by (cbn; naive_solver). by rewrite <- (without_notin k l) at 1.
  - rewrite filter_cons_True by done. rewrite fmap_cons. cbn [fst]. f_equal. by apply IH.
Qed.

(** The order in which keys were used: the last used is at the end. *)
Definition used k a l : list (Key * A) := without k l ++ [(k, a)].

Lemma used_NoDup k a l : NoDup l.*1 -> NoDup (used k a l).*1.
Proof.
  intros Hl. unfold used. rewrite fmap_app, NoDup_app. split_and!; [by apply without_NoDup| |apply NoDup_singleton].
  intros x Hx ->%list_elem_of_singleton. by apply without_in in Hx as [? _].
Qed.

Lemma used_keys k a l : NoDup l.*1 -> move_to_end k l.*1 = (used k a l).*1.
Proof. intros Hl. unfold move_to_end, used. by rewrite erase_without, fmap_app. Qed.

Lemma used_map k a l : (list_to_map (used k a l) : gmap Key A) = <[k := a]> (list_to_map l).
Proof.
  unfold used. rewrite list_to_map_snoc by (rewrite without_in; by intros [? _]). by rewrite list_to_map_without, insert_delete_eq.
Qed.

Lemma used_length k a l : NoDup l.*1 -> length (used k a l) = size (<[k := a]> (list_to_map l : gmap Key A)).
Proof. intros Hl. rewrite <- used_map. symmetry. by apply map_size_list_to_map, used_NoDup. Qed.

Lemma filter_agree (P Q : Key * A -> Prop) `{!forall e, Decision (P e), !forall e, Decision (Q e)} l :
  (forall e, e ∈ l -> P e <-> Q e) -> filter P l = filter Q l.
Proof.
  induction l as [|e l IH]; intros HPQ; [done|]. assert (IH' : filter P l = filter Q l) by (apply IH; intros; apply HPQ; by right).
  specialize (HPQ e (list_elem_of_here _ _)). destruct (decide (P e)).
  - rewrite !filter_cons_True by tauto. by f_equal.
  - by rewrite !filter_cons_False by tauto.
Qed.

(** Entries taken out one after another, by their keys. *)
Definition without_those {B} (es : list (Key * B)) l : list (Key * A) := foldl (fun l e => without e.1 l) l es.

Lemma without_those_filter {B} (es : list (Key * B)) l : without_those es l = filter (fun e => e.1 ∉ es.*1) l.
Proof.
  revert l. induction es as [|e es IH]; intros l; cbn [without_those foldl].
  - induction l as [|e l IH]; [done|]. rewrite filter_cons_True by apply not_elem_of_nil. by f_equal.
  - change (foldl _ (without e.1 l) es) with (without_those es (without e.1 l)). rewrite IH. unfold without. rewrite list_filter_filter.
    apply list_filter_iff. intros x. cbn. rewrite not_elem_of_cons. tauto.
Qed.

(** Those a predicate selects among the entries of a map. *)
Lemma removed_entries {B} (value : B -> A) (predicate : Key -> A -> bool) (m : gmap Key B) l :
  (forall k a, (k, a) ∈ l -> value <$> m !! k = Some a) ->
  without_those (filter (fun e => predicate e.1 (value e.2) = true) (map_to_list m)) l = filter (fun e => predicate e.1 e.2 = false) l.
Proof.
  intros Hl. rewrite without_those_filter. apply filter_agree. intros [k a] He. cbn [fst snd]. rewrite <- not_true_iff_false. apply not_iff_compat.
  rewrite list_elem_of_fmap. apply Hl, fmap_Some in He as (b & Hb & ->). split.
  - intros ([k' b'] & E & [Hp He']%list_elem_of_filter). cbn in *. subst k'. apply elem_of_map_to_list in He'. congruence.
  - intros Hp. exists (k, b). split; [done|]. apply list_elem_of_filter. split; [done|]. by apply elem_of_map_to_list.
Qed.

Lemma filter_map_list (P : Key * A -> Prop) `{!forall e, Decision (P e)} l : NoDup l.*1 ->
  (list_to_map (filter P l) : gmap Key A) = filter P (list_to_map l).
Proof.
  intros Hl. assert (Hf : NoDup (filter P l).*1) by (eapply sublist_NoDup; [exact Hl|]; apply fmap_sublist, sublist_filter).
  apply map_eq. intros k. apply option_eq. intros a. rewrite map_lookup_filter_Some, <- !elem_of_list_to_map, list_elem_of_filter by done. tauto.
Qed.
End lists.

(** ** Weights *)
Section weights.
Context {Key V : Type} `{Countable Key} (weight_function : V -> Z).
Implicit Types (l : list (Key * option V)) (m : gmap Key (option V)).

Definition entry_weight (mapped : option V) : Z := match mapped with Some v => weight_function v | None => 0 end.

Fixpoint total l : Z := match l with [] => 0 | e :: l => entry_weight e.2 + total l end.

(** The weight of the values of a map. *)
Definition map_weight m : Z := total (map_to_list m).

(** Weights and limits are far from the end of [size_t]. *)
Definition moderate (n : Z) : Prop := 0 <= n < 2 ^ 62.

Lemma equal_weight_moderate (v : V) : moderate (EqualWeightFunction v).
Proof. unfold moderate, EqualWeightFunction. lia. Qed.

Hypothesis weights_moderate : forall v, moderate (weight_function v).

Lemma entry_weight_moderate mapped : moderate (entry_weight mapped).
Proof. destruct mapped; cbn; [apply weights_moderate|]. unfold moderate. lia. Qed.

Lemma total_app l l' : total (l ++ l') = total l + total l'.
Proof. induction l as [|e l IH]; cbn; [done|]. rewrite IH. lia. Qed.

Lemma total_nonneg l : 0 <= total l.
Proof. induction l as [|e l IH]; cbn; [done|]. pose proof (entry_weight_moderate e.2). unfold moderate in *. lia. Qed.

Lemma wrap_total l : total l < 2 ^ 63 -> wrap 64 (total l) = total l.
Proof. intros Ht. apply wrap_id. pose proof (total_nonneg l). unfold uint. lia. Qed.

Lemma total_perm l l' : l ≡ₚ l' -> total l = total l'.
Proof. induction 1; cbn; lia. Qed.

Lemma map_weight_list l : NoDup l.*1 -> map_weight (list_to_map l) = total l.
Proof. intros Hl. by apply total_perm, map_to_list_to_map. Qed.

Lemma total_without k v l : NoDup l.*1 -> (list_to_map l : gmap Key (option V)) !! k = Some v -> total (without k l) = total l - entry_weight v.
Proof.
  intros Hl Hk. destruct (assoc_split k v l Hl Hk) as (l1 & l2 & -> & H1 & H2). rewrite without_split, !total_app by done. cbn. lia.
Qed.

Lemma total_used k v l : total (used k v l) = total (without k l) + entry_weight v.
Proof. unfold used. rewrite total_app. cbn. lia. Qed.

Lemma used_same k v l : NoDup l.*1 -> (list_to_map l : gmap Key (option V)) !! k = Some v ->
  total (used k v l) = total l /\ length (used k v l) = length l.
Proof.
  intros Hl Hk. rewrite total_used, (total_without k v), used_length, insert_id, map_size_list_to_map by done. split; lia.
Qed.

Lemma total_filter_le (P : Key * option V -> Prop) `{forall e, Decision (P e)} l : total (filter P l) <= total l.
Proof.
  induction l as [|e l IH]; [done|]. pose proof (entry_weight_moderate e.2) as He. unfold moderate in He.
  destruct (decide (P e)); [rewrite filter_cons_True by done|rewrite filter_cons_False by done]; cbn; lia.
Qed.

(** ** What fits *)
Definition fits (max_size max_count size count : Z) : bool := (size <=? max_size) && ((max_count =? 0) || (count <=? max_count)).

Lemma fits_true ms mc n c : fits ms mc n c = true <-> n <= ms /\ (mc = 0 \/ c <= mc).
Proof. unfold fits. rewrite andb_true_iff, orb_true_iff, !Z.leb_le, Z.eqb_eq. done. Qed.

(** The most recently used entries of [l] that fit beside others of size [n] and count [c]: the oldest are given up one by one. *)
Fixpoint newest (max_size max_count n c : Z) l : list (Key * option V) :=
  match l with
  | [] => []
  | e :: rest => if fits max_size max_count (n + total l) (c + Z.of_nat (length l)) then l else newest max_size max_count n c rest
  end.

(** What is given up. *)
Fixpoint given_up (max_size max_count n c : Z) l : list (Key * option V) :=
  match l with
  | [] => []
  | e :: rest => if fits max_size max_count (n + total l) (c + Z.of_nat (length l)) then [] else e :: given_up max_size max_count n c rest
  end.

(** The calls of the callback, the last one first. *)
Definition reported l : list (Z * option V) := rev ((fun e => (entry_weight e.2, e.2)) <$> l).

Lemma newest_split ms mc n c l : l = given_up ms mc n c l ++ newest ms mc n c l.
Proof. induction l as [|e l IH]; [done|]. cbn [newest given_up]. destruct (fits _ _ _ _); [done|]. cbn [app]. by rewrite <- IH. Qed.

(** Either everything fits, or nothing is left. *)
Lemma newest_fits ms mc n c l :
  fits ms mc (n + total (newest ms mc n c l)) (c + Z.of_nat (length (newest ms mc n c l))) = true \/ newest ms mc n c l = [].
Proof. induction l as [|e l IH]; cbn [newest]; [by right|].
  destruct (fits ms mc (n + total (e :: l)) _) eqn:E; [left; exact E|exact IH].
Qed.

Lemma newest_id ms mc n c l : fits ms mc (n + total l) (c + Z.of_nat (length l)) = true -> newest ms mc n c l = l.
Proof. destruct l as [|e l]; [done|]. cbn [newest]. by intros ->. Qed.

Lemma newest_suffix ms mc n c l : newest ms mc n c l `suffix_of` l.
Proof. exists (given_up ms mc n c l). apply newest_split. Qed.

Lemma newest_total ms mc n c l : 0 <= total (newest ms mc n c l) <= total l.
Proof.
  pose proof (newest_split ms mc n c l) as E. apply (f_equal total) in E. rewrite total_app in E.
  pose proof (total_nonneg (given_up ms mc n c l)). pose proof (total_nonneg (newest ms mc n c l)). lia.
Qed.

Lemma newest_length ms mc n c l : (length (newest ms mc n c l) <= length l)%nat.
Proof. apply suffix_length, newest_suffix. Qed.

Lemma newest_NoDup ms mc n c l : NoDup l.*1 -> NoDup (newest ms mc n c l).*1.
Proof. intros Hl. rewrite (newest_split ms mc n c l), fmap_app in Hl. by apply NoDup_app in Hl as (_ & _ & Hl). Qed.
End weights.

(** ** A map that may forget *)
Section lossy.
Context {Key V : Type} `{Countable Key} (weight_function : V -> Z) (weights_moderate : forall v, moderate (weight_function v)).

(** The entries, and the limits of their weight and their number (0 for none). *)
Record Lossy := MakeLossy { entries : gmap Key (option V); size_limit : Z; count_limit : Z }.

Inductive operation :=
| Get (k : Key)
| GetWithKey (k : Key)
| Contains (k : Key)
| Dump
| Sizes
| Put (no_memory : bool) (k : Key) (v : option V)
| Remove (k : Key)
| RemoveIf (predicate : Key -> option V -> bool)
| Clear
| SetMaxCount (n : Z)
| SetMaxSizeInBytes (n : Z).

Inductive answer :=
| Nothing
| Value (v : option V)
| Found (e : option (Key * option V))
| Flag (b : bool)
| Entries (l : list (Key * option V))
| Numbers (size_in_bytes count : Z).

Definition within (a : Lossy) : bool :=
  fits (size_limit a) (count_limit a) (map_weight weight_function (entries a)) (Z.of_nat (size (entries a))).

(** Of the entries [m] some may be forgotten, but only if they do not fit. *)
Definition forgets (m : gmap Key (option V)) (max_size max_count : Z) (a : Lossy) : Prop :=
  size_limit a = max_size /\ count_limit a = max_count /\ entries a ⊆ m /\ within a = true /\
  (within (MakeLossy m max_size max_count) = true -> entries a = m).

(** What an operation may answer and do. *)
Definition allowed (op : operation) (a : Lossy) (x : answer) (a' : Lossy) : Prop :=
  let m := entries a in
  match op with
  | Get k => x = Value (mjoin (m !! k)) /\ a' = a
  | GetWithKey k => x = Found (pair k <$> m !! k) /\ a' = a
  | Contains k => x = Flag (bool_decide (is_Some (m !! k))) /\ a' = a
  | Dump => (exists l, x = Entries l /\ l ≡ₚ map_to_list m) /\ a' = a
  | Sizes => x = Numbers (map_weight weight_function m) (Z.of_nat (size m)) /\ a' = a
  | Put no_memory k v =>
    x = Flag true /\ forgets (<[k := v]> m) (size_limit a) (count_limit a) a'
    \/ no_memory = true /\ m !! k = None /\ x = Flag false /\ a' = a
  | Remove k => x = Nothing /\ a' = MakeLossy (delete k m) (size_limit a) (count_limit a)
  | RemoveIf predicate => x = Nothing /\ a' = MakeLossy (filter (fun e => predicate e.1 e.2 = false) m) (size_limit a) (count_limit a)
  | Clear => x = Nothing /\ a' = MakeLossy ∅ (size_limit a) (count_limit a)
  | SetMaxCount n => x = Nothing /\ forgets m (size_limit a) n a'
  | SetMaxSizeInBytes n => x = Nothing /\ forgets m n (count_limit a) a'
  end.

Fixpoint allows (ops : list operation) (a : Lossy) (answers : list answer) (a' : Lossy) : Prop :=
  match ops, answers with
  | [], [] => a' = a
  | op :: ops, x :: answers => exists b, allowed op a x b /\ allows ops b answers a'
  | _, _ => False
  end.

(** The order in which [dump] lists the entries is not specified. *)
Definition similar (x y : answer) : Prop := match x, y with Entries l, Entries l' => l ≡ₚ l' | _, _ => x = y end.

Lemma similar_eq x y : x = y -> similar x y.
Proof. intros ->. by destruct y; cbn. Qed.

Lemma allowed_similar op a x y a' : similar x y -> allowed op a y a' -> allowed op a x a'.
Proof.
  intros Hs. destruct op; cbn [allowed]; try (intros [-> Ha]; destruct x; try done; by cbn in Hs; subst).
  - intros [(l & -> & Hl) Ha]. destruct x; try done. split; [|done]. eexists. split; [done|]. by rewrite <- Hl.
  - intros [[-> Ha]|(? & ? & -> & Ha)]; destruct x; try done; cbn in Hs; [left|right]; by subst.
Qed.

(** What was last put for each key and not removed since. *)
Definition write (m : gmap Key (option V)) (op : operation) (x : answer) : gmap Key (option V) :=
  match op, x with
  | Put _ k v, Flag true => <[k := v]> m
  | Remove k, _ => delete k m
  | RemoveIf predicate, _ => filter (fun e => predicate e.1 e.2 = false) m
  | Clear, _ => ∅
  | _, _ => m
  end.

Fixpoint last_written (ops : list operation) (answers : list answer) (m : gmap Key (option V)) : gmap Key (option V) :=
  match ops, answers with
  | op :: ops, x :: answers => last_written ops answers (write m op x)
  | _, _ => m
  end.

Lemma allowed_write op a x a' m : allowed op a x a' -> entries a ⊆ m -> entries a' ⊆ write m op x.
Proof.
  destruct op; cbn [allowed write]; try (by intros [-> ->]); try (by intros [? ->]).
  - intros [[-> (_ & _ & Hs & _)]|(_ & _ & -> & ->)] Hm; [|done]. etrans; [exact Hs|]. by apply insert_mono.
  - intros [_ ->] Hm. by apply delete_mono.
  - intros [_ ->] Hm. by apply map_filter_subseteq_mono.
  - intros [_ (_ & _ & Hs & _)] Hm. by etrans.
  - intros [_ (_ & _ & Hs & _)] Hm. by etrans.
Qed.

Lemma allows_written ops a answers a' m : allows ops a answers a' -> entries a ⊆ m -> entries a' ⊆ last_written ops answers m.
Proof.
  revert a answers m. induction ops as [|op ops IH]; intros a [|x answers] m; cbn [allows last_written]; try done; [by intros ->|].
  intros (b & Hop & H') Hm. eapply IH; [done|]. by eapply allowed_write.
Qed.

(** Entries given up one by one, with what is left. *)
Lemma forgets_list ms mc (gone left : list (Key * option V)) : NoDup (gone ++ left).*1 ->
  fits ms mc (total weight_function left) (blen left) = true ->
  (fits ms mc (total weight_function (gone ++ left)) (blen (gone ++ left)) = true -> gone = []) ->
  forgets (list_to_map (gone ++ left)) ms mc (MakeLossy (list_to_map left) ms mc).
Proof.
  intros Hn Hf Hg. pose proof Hn as Hn'. rewrite fmap_app in Hn'. apply NoDup_app in Hn' as (_ & Hd & Hl). unfold forgets, within.
  cbn [entries size_limit count_limit]. rewrite !map_weight_list, !map_size_list_to_map by done. split_and!; try done.
  - rewrite list_to_map_app. apply map_union_subseteq_r, map_disjoint_spec. intros k v w Hv%elem_of_list_to_map_2 Hw%elem_of_list_to_map_2.
    apply (Hd k); apply list_elem_of_fmap; [by exists (k, v)|by exists (k, w)].
  - intros E. by rewrite (Hg E).
Qed.

Lemma allowed_size op a x a' : allowed op a x a' -> (size (entries a') <= S (size (entries a)))%nat.
Proof.
  assert (Hs : forall m m' : gmap Key (option V), m' ⊆ m -> (size m' <= size m)%nat) by (intros; by apply map_subseteq_size).
  destruct op; cbn [allowed]; try (intros [_ ->]; cbn; lia); try (intros [_ (_ & _ & Hm & _)]; apply Hs in Hm; lia).
  - intros [[_ (_ & _ & Hm & _)]|(_ & _ & _ & ->)]; [|lia]. apply Hs in Hm. rewrite map_size_insert in Hm. destruct (entries a !! k); unfold id in Hm; lia.
  - intros [_ ->]. cbn. apply le_S, Hs, delete_subseteq.
  - intros [_ ->]. cbn. apply le_S, Hs, map_filter_subseteq.
  - intros [_ ->]. cbn [entries]. rewrite map_size_empty. lia.
Qed.

Lemma allows_size ops a answers a' : allows ops a answers a' -> (size (entries a') <= size (entries a) + length ops)%nat.
Proof.
  revert a answers. induction ops as [|op ops IH]; intros a [|x answers]; cbn [allows]; try done; [intros ->; lia|].
  intros (b & Hop & Ha). apply allowed_size in Hop. apply IH in Ha. cbn [length]. lia.
Qed.
End lossy.
Arguments operation : clear implicits.
Arguments answer : clear implicits.
Arguments Lossy Key V {_ _}.

(** ** What a cache promises

    [size_accepted] are the limits of the size for which the promises are made. *)
Section promises.
Context {Key V : Type} `{Countable Key} (weight_function : V -> Z) (size_accepted : Z -> Prop).

Section step.
Context {P : Type} {policy : CachePolicy Key V P}.

Definition nothing (r : outcome P) : outcome (answer Key V * P) := s ← r; Ok (Nothing, s).

Definition step (op : operation Key V) (s : P) : outcome (answer Key V * P) :=
  match op with
  | Get k => '(v, s) ← get k s; Ok (Value v, s)
  | GetWithKey k => '(e, s) ← getWithKey k s; Ok (Found e, s)
  | Contains k => Ok (Flag (contains k s), s)
  | Dump => Ok (Entries (dump s), s)
  | Sizes => Ok (Numbers (sizeInBytes s) (count s), s)
  | Put no_memory k v => '(b, s) ← set no_memory k v s; Ok (Flag b, s)
  | Remove k => Ok (Nothing, remove k s)
  | RemoveIf predicate => Ok (Nothing, remove_if predicate s)
  | Clear => Ok (Nothing, clear s)
  | SetMaxCount n => nothing (setMaxCount n s)
  | SetMaxSizeInBytes n => nothing (setMaxSizeInBytes n s)
  end.

Fixpoint run_cache (ops : list (operation Key V)) (s : P) : outcome (list (answer Key V) * P) :=
  match ops with
  | [] => Ok ([], s)
  | op :: ops => '(x, s) ← step op s; '(answers, s) ← run_cache ops s; Ok (x :: answers, s)
  end.
End step.

(** The new limits. *)
Definition accepted (op : operation Key V) : Prop :=
  match op with
  | SetMaxCount n => 0 <= n
  | SetMaxSizeInBytes n => moderate n /\ size_accepted n
  | _ => True
  end.

Class CachePolicyLaws (P : Type) {policy : CachePolicy Key V P} := {
  invariant : P -> Prop;
  abstract : P -> Lossy Key V;
  metrics : P -> Z * Z;
  law_limits s : size_limit (abstract s) = maxSizeInBytes s /\ count_limit (abstract s) = maxCount s;
  law_within s : invariant s -> within weight_function (abstract s) = true;
  law_metrics s : invariant s -> metrics s = (sizeInBytes s, count s);
  law_step op s : invariant s -> accepted op -> Z.of_nat (size (entries (abstract s))) < 2 ^ 62 ->
    exists x s', step op s = Ok (x, s') /\ invariant s' /\ allowed weight_function op (abstract s) x (abstract s') }.

(** Any sequence of operations on a specification by a function. *)
Fixpoint run_spec {S} (f : operation Key V -> S -> answer Key V * S) (ops : list (operation Key V)) (a : S) : list (answer Key V) * S :=
  match ops with
  | [] => ([], a)
  | op :: ops => let '(x, a) := f op a in let '(answers, a) := run_spec f ops a in (x :: answers, a)
  end.

Lemma run_cache_spec {P S} `{!CachePolicy Key V P} (f : operation Key V -> S -> answer Key V * S) (state : S -> P) (valid : S -> Prop) (number : S -> Z) :
  (forall op a, valid a -> accepted op -> valid (f op a).2 /\ number (f op a).2 <= number a + 1) ->
  (forall op a, valid a -> accepted op -> number a < 2 ^ 62 -> exists x, step op (state a) = Ok (x, state (f op a).2) /\ similar x (f op a).1) ->
  forall ops a, valid a -> Forall accepted ops -> number a + blen ops <= 2 ^ 62 ->
    valid (run_spec f ops a).2 /\ number (run_spec f ops a).2 <= number a + blen ops /\
    exists answers, run_cache ops (state a) = Ok (answers, state (run_spec f ops a).2) /\ Forall2 similar answers (run_spec f ops a).1.
Proof.
  intros Hvalid Hstep ops. induction ops as [|op ops IH]; intros a Ha Hops Hn; [split_and!; [done|cbn; lia|by exists []]|]. inversion_clear Hops as [|? ? Hop Hops']. cbn [length] in Hn.
  destruct (Hstep op a Ha Hop ltac:(lia)) as (x & E & Hx). destruct (Hvalid op a Ha Hop) as [Ha' Hn']. cbn [run_cache run_spec]. rewrite E. run.
  destruct (f op a) as [y a']. cbn [fst snd] in *. destruct (IH a' Ha' Hops' ltac:(lia)) as (Hb & Hn'' & answers & E' & Hf). rewrite E'. run.
  destruct (run_spec f ops a') as [ys b]. cbn [fst snd length] in *. split_and!; [done|lia|]. eexists. split; [done|]. by constructor.
Qed.

Lemma run_allowed {P} `{CachePolicyLaws P} ops s : invariant s -> Forall accepted ops ->
  Z.of_nat (size (entries (abstract s))) + Z.of_nat (length ops) <= 2 ^ 62 ->
  exists answers s', run_cache ops s = Ok (answers, s') /\ invariant s' /\ allows weight_function ops (abstract s) answers (abstract s').
Proof.
  revert s. induction ops as [|op ops IH]; intros s Hs Ha Hn; [by exists [], s|]. inversion_clear Ha as [|? ? Hop Ha']. cbn [length] in Hn.
  destruct (law_step op s Hs Hop) as (x & s1 & E1 & H1 & A1); [lia|]. pose proof (allowed_size _ _ _ _ _ A1).
  destruct (IH s1 H1 Ha') as (answers & s' & E' & H' & A'); [lia|]. exists (x :: answers), s'. cbn [run_cache]. rewrite E1. run. rewrite E'. run.
  split_and!; [done..|]. by exists (abstract s1).
Qed.

(** After any operations the cache has answered as one that may forget, keeps its limits and its metrics, and holds nothing but what was
    last put. *)
Definition coherent {P} {policy : CachePolicy Key V P} {laws : CachePolicyLaws P} (ops : list (operation Key V)) (s0 : P) : Prop :=
  exists answers s, run_cache ops s0 = Ok (answers, s) /\ allows weight_function ops (abstract s0) answers (abstract s) /\
    sizeInBytes s <= maxSizeInBytes s /\ (maxCount s = 0 \/ count s <= maxCount s) /\ metrics s = (sizeInBytes s, count s) /\
    entries (abstract s) ⊆ last_written ops answers (entries (abstract s0)).

Lemma laws_coherent {P} {policy : CachePolicy Key V P} {laws : CachePolicyLaws P} ops s0 : invariant s0 -> Forall accepted ops ->
  Z.of_nat (size (entries (abstract s0))) + blen ops < 2 ^ 62 -> coherent ops s0.
Proof.
  intros Hs Hops Hn. destruct (run_allowed ops s0 Hs Hops ltac:(lia)) as (answers & s & E & Hi & Ha). exists answers, s. split; [done|]. split; [done|].
  pose proof (allows_size _ _ _ _ _ Ha) as Hsz.
  destruct (law_step Sizes s Hi I ltac:(lia)) as (x & s' & Ex & _ & Hx & _). cbn [step] in Ex. injection Ex as <- <-. injection Hx as Hx1 Hx2.
  pose proof (law_within s Hi) as Hw. destruct (law_limits s) as [El1 El2]. unfold within in Hw. rewrite El1, El2, <- Hx1, <- Hx2, fits_true in Hw.
  split_and!; [apply Hw|apply Hw|by apply law_metrics|]. by eapply allows_written.
Qed.
End promises.
Arguments invariant {_ _ _ _ _ _ _ _ _} _.
Arguments abstract {_ _ _ _ _ _ _ _ _} _.
Arguments metrics {_ _ _ _ _ _ _ _ _} _.
Arguments law_step {_ _ _ _ _ _ _ _ _} _ _ _ _.
