(* ===== verification/LRUFacts.v ===== *)
(** * Facts about the policy LRU

    The state of an [LRUCachePolicy] is a list of entries in the order of their
    last use; each operation is one on this list, and keeps the promises of a
    cache. *)

From stdpp Require Import prelude gmap.
From Stdlib Require Import ZArith Lia.
From S2P Require Import Prelude CachePolicy CacheFacts.

Import LRUCachePolicy.

Section lru.
Context {Key V : Type} `{Countable Key} (weight_function : V -> Z) (weights_moderate : forall v, moderate (weight_function v)).
Implicit Types (l : list (Key * option V)) (k : Key) (v : option V) (rm : list (Z * option V)).
Abbreviation total := (CacheFacts.total weight_function).
Abbreviation weight := (entry_weight weight_function).
Abbreviation newest := (CacheFacts.newest weight_function).
Abbreviation given_up := (CacheFacts.given_up weight_function).
Abbreviation reported := (CacheFacts.reported weight_function).

Definition cell v : Cell := MakeCell v (weight v).

(** The state with these entries, the oldest first. *)
Definition raw l (ms mc sm cm : Z) rm : t Key V := Make l.*1 (cell <$> list_to_map l) (total l) ms mc sm cm rm.
Definition state l (ms mc : Z) rm : t Key V := raw l ms mc (total l) (Z.of_nat (length l)) rm.

Lemma cells_raw l ms mc sm cm rm : NoDup l.*1 -> base.size (cells (raw l ms mc sm cm rm)) = length l.
Proof. intros Hl. cbn [cells raw]. rewrite map_size_fmap. by apply map_size_list_to_map. Qed.

Lemma overflow_loop_newest l ms mc sm cm rm : NoDup l.*1 -> total l < 2 ^ 63 ->
  overflow_loop (length l) (raw l ms mc sm cm rm) = Ok (raw (newest ms mc 0 0 l) ms mc sm cm (reported (given_up ms mc 0 0 l) ++ rm)).
Proof.
  revert rm. induction l as [|[k v] l IH]; intros rm Hl Ht.
  { cbn [length overflow_loop]. by destruct (_ || _). }
  cbn [length overflow_loop CacheFacts.newest CacheFacts.given_up]. unfold raw at 1 2 3. cbn [max_size_in_bytes current_size_in_bytes max_count].
  replace (_ || _) with (negb (fits ms mc (0 + total ((k, v) :: l)) (0 + Z.of_nat (length ((k, v) :: l))))).
  2: { unfold fits. rewrite !Z.add_0_l, negb_andb, negb_orb, <- !Z.ltb_antisym. done. }
  destruct (fits ms mc _ _); cbn [negb]; [done|]. rewrite fmap_cons, NoDup_cons in Hl. destruct Hl as [Hk Hl]. cbn [fst] in Hk.
  change (queue (raw ((k, v) :: l) ms mc sm cm rm)) with (k :: l.*1).
  change (cells (raw ((k, v) :: l) ms mc sm cm rm)) with (cell <$> <[k := v]> (list_to_map l : gmap Key (option V))).
  cbv beta iota. rewrite lookup_fmap, lookup_insert_eq. cbn [fmap option_fmap option_map cell size value].
  pose proof (entry_weight_moderate weight_function weights_moderate v) as Hv. cbn [CacheFacts.total snd] in Ht. unfold moderate in Hv.
  rewrite <- fmap_delete, delete_insert_id by by apply not_elem_of_list_to_map_1.
  replace (wrap 64 _) with (total l) by (cbn; rewrite <- (wrap_total weight_function weights_moderate l) at 1 by lia; f_equal; lia).
  etrans; [exact (IH ((weight v, v) :: rm) Hl ltac:(lia))|]. unfold CacheFacts.reported. rewrite fmap_cons. cbn [rev]. by rewrite <- app_assoc.
Qed.

Lemma removeOverflow_newest l ms mc rm : NoDup l.*1 -> total l < 2 ^ 63 -> Z.of_nat (length l) <= 2 ^ 62 ->
  removeOverflow (state l ms mc rm) = Ok (state (newest ms mc 0 0 l) ms mc (reported (given_up ms mc 0 0 l) ++ rm)).
Proof.
  intros Hl Ht Hn. unfold removeOverflow, cells_size, state. rewrite !cells_raw, overflow_loop_newest by done. run.
  pose proof (newest_total weight_function weights_moderate ms mc 0 0 l) as [Hl0 Hl1]. pose proof (newest_length weight_function ms mc 0 0 l) as Hl2.
  pose proof (newest_NoDup weight_function ms mc 0 0 l Hl) as Hl3. set (l' := newest ms mc 0 0 l) in *.
  change (current_size_in_bytes (raw l' _ _ _ _ _)) with (total l'). rewrite (proj2 (Z.leb_le _ _)) by lia. run. rewrite !cells_raw by done.
  unfold metric_difference, raw. cbn [current_size_in_bytes size_metric count_metric queue cells max_size_in_bytes max_count removed].
  rewrite !to_signed_wrap by lia. do 2 f_equal; lia.
Qed.

(** ** The operations on the list of entries *)
Record Recency := MakeRecency { recent : list (Key * option V); recency_size : Z; recency_count : Z; reports : list (Z * option V) }.

(** The oldest entries are given up until the others fit. *)
Definition shrink l (ms mc : Z) rm : Recency := MakeRecency (newest ms mc 0 0 l) ms mc (reported (given_up ms mc 0 0 l) ++ rm).

Definition recency_step (op : operation Key V) (a : Recency) : answer Key V * Recency :=
  let '(MakeRecency l ms mc rm) := a in
  let m : gmap Key (option V) := list_to_map l in
  let seen k := match m !! k with Some v => MakeRecency (used k v l) ms mc rm | None => a end in
  match op with
  | Get k => (Value (mjoin (m !! k)), seen k)
  | GetWithKey k => (Found (pair k <$> m !! k), seen k)
  | Contains k => (Flag (bool_decide (is_Some (m !! k))), a)
  | Dump => (Entries l, a)
  | Sizes => (Numbers (total l) (blen l), a)
  | Put no_memory k v => if no_memory && bool_decide (m !! k = None) then (Flag false, a) else (Flag true, shrink (used k v l) ms mc rm)
  | Remove k => (Nothing, MakeRecency (without k l) ms mc rm)
  | RemoveIf predicate => (Nothing, MakeRecency (filter (fun e => predicate e.1 e.2 = false) l) ms mc rm)
  | Clear => (Nothing, MakeRecency [] ms mc rm)
  | SetMaxCount n => (Nothing, shrink l ms n rm)
  | SetMaxSizeInBytes n => (Nothing, shrink l n mc rm)
  end.

Definition state_of (a : Recency) : t Key V := state (recent a) (recency_size a) (recency_count a) (reports a).

Definition valid (a : Recency) : Prop :=
  NoDup (recent a).*1 /\ moderate (recency_size a) /\ 0 <= recency_count a /\
  fits (recency_size a) (recency_count a) (total (recent a)) (blen (recent a)) = true.

Lemma drop_cell_without k v l ms mc sm cm rm : NoDup l.*1 -> total l < 2 ^ 63 -> (list_to_map l : gmap Key (option V)) !! k = Some v ->
  drop_cell k (cell v) (raw l ms mc sm cm rm) = raw (without k l) ms mc sm cm rm.
Proof.
  intros Hl Ht Hk. unfold drop_cell, raw. cbn [queue cells current_size_in_bytes max_size_in_bytes max_count size_metric count_metric removed cell size].
  rewrite erase_without, <- fmap_delete, <- list_to_map_without by done. f_equal. rewrite <- (total_without weight_function k v l) by done.
  apply (wrap_total weight_function weights_moderate). pose proof (total_without weight_function k v l Hl Hk). pose proof (entry_weight_moderate weight_function weights_moderate v) as Hv.
  unfold moderate in Hv. lia.
Qed.

Lemma touch_used k v l ms mc sm cm rm : NoDup l.*1 -> (list_to_map l : gmap Key (option V)) !! k = Some v ->
  touch k (raw l ms mc sm cm rm) = raw (used k v l) ms mc sm cm rm.
Proof.
  intros Hl Hk. unfold touch, raw. cbn [queue cells current_size_in_bytes max_size_in_bytes max_count size_metric count_metric removed].
  rewrite (used_keys k v), used_map, insert_id by done. f_equal. rewrite total_used, (total_without weight_function k v) by done. lia.
Qed.

Lemma drop_cells (predicate : Key -> option V -> bool) es l ms mc sm cm rm : NoDup l.*1 -> total l < 2 ^ 63 -> NoDup es.*1 ->
  (forall k c, (k, c) ∈ es -> (cell <$> (list_to_map l : gmap Key (option V))) !! k = Some c) ->
  foldl (fun s '(key, cell) => if predicate key (value cell) then drop_cell key cell s else s) (raw l ms mc sm cm rm) es
    = raw (without_those (filter (fun e => predicate e.1 (value e.2) = true) es) l) ms mc sm cm rm.
Proof.
  revert l. induction es as [|[k c] es IH]; intros l Hl Ht Hes Hin; [done|]. rewrite fmap_cons, NoDup_cons in Hes. destruct Hes as [Hk Hes].
  cbn [foldl]. pose proof (Hin k c (list_elem_of_here _ _)) as Hkv. rewrite lookup_fmap in Hkv. apply fmap_Some in Hkv as (v & Hkv & ->). cbn [fst] in Hk.
  destruct (predicate k (value (cell v))) eqn:E.
  - rewrite filter_cons_True by done. cbn [without_those foldl fst]. rewrite drop_cell_without by done.
    assert (Hw : total (without k l) <= total l) by apply total_filter_le, weights_moderate.
    apply IH; [by apply without_NoDup|lia|done|]. intros k' c' He. rewrite list_to_map_without, fmap_delete, lookup_delete_ne; [apply Hin; by right|].
    intros ->. apply Hk, list_elem_of_fmap. by exists (k', c').
  - rewrite filter_cons_False by (cbn in *; congruence). apply IH; [done..|]. intros k' c' He. apply Hin. by right.
Qed.

Lemma lru_remove_if_filter (predicate : Key -> option V -> bool) l ms mc rm : NoDup l.*1 -> total l < 2 ^ 63 -> blen l <= 2 ^ 62 ->
  lru_remove_if predicate (state l ms mc rm) = state (filter (fun e => predicate e.1 e.2 = false) l) ms mc rm.
Proof.
  intros Hl Ht Hn. unfold lru_remove_if. cbv zeta. set (s' := foldl _ _ _). set (l' := filter _ l).
  assert (Es : s' = raw l' ms mc (total l) (blen l) rm).
  { unfold s', l'. rewrite <- (removed_entries value predicate (cells (state l ms mc rm)) l).
    - apply drop_cells; [done..|apply NoDup_fst_map_to_list|]. intros k c. by rewrite elem_of_map_to_list.
    - intros k v Hk. cbn [cells state raw]. rewrite lookup_fmap. apply (elem_of_list_to_map l k v Hl) in Hk. by rewrite Hk. }
  rewrite Es. clear s' Es.
  assert (Hl' : NoDup l'.*1) by (eapply sublist_NoDup; [exact Hl|]; apply fmap_sublist, sublist_filter).
  assert (Ht' : total l' <= total l) by apply total_filter_le, weights_moderate.
  pose proof (total_nonneg weight_function weights_moderate l'). pose proof (length_filter (fun e => predicate e.1 e.2 = false) l) as Hn'. fold l' in Hn'.
  unfold cells_size, state. rewrite !cells_raw by done. unfold metric_difference, raw. cbn [current_size_in_bytes size_metric count_metric queue cells max_size_in_bytes max_count removed].
  rewrite !to_signed_wrap by lia. f_equal; lia.
Qed.

(** The entry stored, and the metrics brought up to date. *)
Lemma lru_set_used no_memory k v l ms mc rm : NoDup l.*1 -> total l < 2 ^ 62 -> blen l < 2 ^ 62 ->
  lru_set weight_function no_memory k v (state l ms mc rm)
    = if no_memory && bool_decide ((list_to_map l : gmap Key (option V)) !! k = None) then Ok (false, state l ms mc rm)
      else s' ← removeOverflow (state (used k v l) ms mc rm); Ok (true, s').
Proof.
  intros Hl Ht Hn. pose proof (entry_weight_moderate weight_function weights_moderate v) as Hv. unfold moderate in Hv.
  pose proof (total_nonneg weight_function weights_moderate l). pose proof (used_NoDup k v l Hl) as Hu.
  assert (Hlen : (length l <= length (used k v l) <= S (length l))%nat).
  { rewrite used_length, map_size_insert, map_size_list_to_map by done. destruct (_ !! _); unfold id; lia. }
  assert (Ht' : 0 <= total (without k l) <= total l) by (split; [by apply total_nonneg|by apply total_filter_le]).
  pose proof (total_used weight_function k v l) as Hw. unfold lru_set, state at 1. cbn [cells raw]. rewrite lookup_fmap.
  change (weigh weight_function v) with (weight v). change (MakeCell v (weight v)) with (cell v).
  assert (Hstate : forall current sm cm q, current = total (used k v l) -> q = (used k v l).*1 -> sm = total (used k v l) -> cm = blen (used k v l) ->
    Make q (<[k := cell v]> (cell <$> list_to_map l)) current ms mc sm cm rm = state (used k v l) ms mc rm).
  { intros current sm cm q -> -> -> ->. unfold state, raw. by rewrite used_map, fmap_insert. }
  assert (Hsize : base.size (<[k := cell v]> (cell <$> (list_to_map l : gmap Key (option V)))) = length (used k v l)).
  { by rewrite <- fmap_insert, map_size_fmap, used_length. }
  assert (Hold : base.size (cell <$> (list_to_map l : gmap Key (option V))) = length l) by (rewrite map_size_fmap; by apply map_size_list_to_map).
  assert (Hmetric : forall a b, - 2 ^ 63 <= a - b < 2 ^ 63 -> b + metric_difference a b = a) by (intros; unfold metric_difference; rewrite to_signed_wrap; lia).
  unfold cells_size. cbn [state raw queue cells current_size_in_bytes max_size_in_bytes max_count size_metric count_metric removed size cell].
  rewrite Hsize, Hold. destruct ((list_to_map l : gmap Key (option V)) !! k) as [v0|] eqn:Ek; cbn [fmap option_fmap option_map].
  - rewrite bool_decide_eq_false_2, andb_false_r by done. pose proof (total_without weight_function k v0 l Hl Ek) as Hw0.
    assert (Ew : wrap 64 (wrap 64 (total l - weight v0) + weight v) = total (used k v l)).
    { rewrite wrap_add_l, <- Hw0, <- Hw. apply (wrap_total weight_function weights_moderate). lia. }
    cbn [size cell]. rewrite Ew, !Hmetric by lia. rewrite Hstate; [done..|by apply used_keys|done|done].
  - rewrite bool_decide_eq_true_2, andb_true_r by done. destruct no_memory; [done|]. apply not_elem_of_list_to_map_2 in Ek.
    assert (Eu : used k v l = l ++ [(k, v)]) by (unfold used; by rewrite without_notin). rewrite without_notin in Hw by done.
    assert (Ew : wrap 64 (total l + weight v) = total (used k v l)) by (rewrite <- Hw; apply (wrap_total weight_function weights_moderate); lia).
    rewrite Ew, !Hmetric by lia. rewrite Hstate; [done..| |done|done]. rewrite Eu. by rewrite fmap_app.
Qed.

Lemma lru_remove_without k l ms mc rm : NoDup l.*1 -> total l < 2 ^ 62 -> lru_remove k (state l ms mc rm) = state (without k l) ms mc rm.
Proof.
  intros Hl Ht. unfold lru_remove. change (cells (state l ms mc rm)) with (cell <$> (list_to_map l : gmap Key (option V))). rewrite lookup_fmap.
  destruct ((list_to_map l : gmap Key (option V)) !! k) as [v|] eqn:Ek; cbn [fmap option_fmap option_map].
  - unfold state at 1 2 3 4 5 6 7 8. rewrite drop_cell_without by (done || lia). pose proof (total_without weight_function k v l Hl Ek) as Hw.
    pose proof (entry_weight_moderate weight_function weights_moderate v) as Hv. unfold moderate in Hv.
    assert (Hn : length l = S (length (without k l))).
    { rewrite <- !(map_size_list_to_map (M := gmap Key)), list_to_map_without by (done || by apply without_NoDup).
      pose proof (map_size_delete (M := gmap Key) k (list_to_map l)) as E. rewrite Ek in E.
      assert (base.size (list_to_map l : gmap Key (option V)) <> 0%nat) by (intros E0%map_size_empty_inv; by rewrite E0, lookup_empty in Ek). lia. }
    unfold state, raw. cbn [queue cells current_size_in_bytes max_size_in_bytes max_count size_metric count_metric removed size cell].
    replace (to_signed 64 (weight v)) with (weight v) by (rewrite <- (wrap_id 64 (weight v)) at 2 by (unfold uint; lia); rewrite to_signed_wrap; lia).
    f_equal; lia.
  - apply not_elem_of_list_to_map_2 in Ek. by rewrite without_notin.
Qed.


(** ** Each operation is that on the list *)
#[local] Instance lru_with_weights : CachePolicy Key V (t Key V) := lru_policy weight_function.

Lemma shrink_valid l ms mc rm : NoDup l.*1 -> moderate ms -> 0 <= mc -> valid (shrink l ms mc rm).
Proof.
  intros Hl Hms Hmc. unfold valid, shrink. cbn [recent recency_size recency_count]. split_and!; [by apply newest_NoDup|done|done|].
  destruct (newest_fits weight_function ms mc 0 0 l) as [E|E]; [by rewrite !Z.add_0_l in E|]. rewrite E. apply fits_true. unfold moderate in Hms. cbn. lia.
Qed.

Lemma touch_state k v l ms mc rm : NoDup l.*1 -> (list_to_map l : gmap Key (option V)) !! k = Some v -> touch k (state l ms mc rm) = state (used k v l) ms mc rm.
Proof. intros Hl Hk. destruct (used_same weight_function k v l Hl Hk) as [E1 E2]. unfold state. rewrite (touch_used k v), E1, E2 by done. done. Qed.

Lemma recency_valid op a : valid a -> accepted (fun _ => True) op -> valid (recency_step op a).2.
Proof.
  destruct a as [l ms mc rm]. intros Ha Hop. pose proof Ha as (Hl & Hms & Hmc & Hf). cbn [recent recency_size recency_count] in *.
  assert (Hseen : forall k, valid (match (list_to_map l : gmap Key (option V)) !! k with Some v => MakeRecency (used k v l) ms mc rm | None => MakeRecency l ms mc rm end)).
  { intros k. destruct (_ !! k) as [v|] eqn:E; [|done]. destruct (used_same weight_function k v l Hl E) as [E1 E2]. unfold valid. cbn. rewrite E1, E2. split_and!; try done. by apply used_NoDup. }
  assert (Hfilter : forall (P : Key * option V -> Prop) (D : forall e, Decision (P e)), valid (MakeRecency (filter P l) ms mc rm)).
  { intros P D. unfold valid. cbn [recent recency_size recency_count]. split_and!; try done; [eapply sublist_NoDup; [exact Hl|]; apply fmap_sublist, sublist_filter|].
    pose proof (total_filter_le weight_function weights_moderate P l). pose proof (length_filter P l). rewrite fits_true in Hf |- *. lia. }
  destruct op; cbn [recency_step snd]; try done; try apply Hseen; try apply Hfilter; try (by apply shrink_valid).
  - destruct (_ && _); [done|]. by apply shrink_valid; [apply used_NoDup|..].
  - unfold valid. cbn [recent recency_size recency_count fmap list_fmap]. split_and!; try done; [constructor|]. apply fits_true. unfold moderate in Hms. cbn. lia.
  - apply shrink_valid; [done|by destruct Hop|done].
Qed.

Lemma lru_step_recency op a : valid a -> accepted (fun _ => True) op -> blen (recent a) < 2 ^ 62 ->
  exists x, step op (state_of a) = Ok (x, state_of (recency_step op a).2) /\ similar x (recency_step op a).1.
Proof.
  destruct a as [l ms mc rm]. intros (Hl & Hms & Hmc & Hf) Hop Hn. cbn [recent recency_size recency_count] in *. apply fits_true in Hf as [Ht _]. unfold moderate in Hms.
  unfold state_of at 1. cbn [recent recency_size recency_count reports].
  assert (Hcells : forall k, cells (state l ms mc rm) !! k = cell <$> (list_to_map l : gmap Key (option V)) !! k) by (intros k; apply lookup_fmap).
  destruct op; cbn [step lru_with_weights lru_policy get getWithKey contains dump sizeInBytes count set remove remove_if clear setMaxCount setMaxSizeInBytes recency_step fst snd].
  - unfold lru_get. rewrite Hcells. destruct (_ !! k) as [v|] eqn:E; cbn [fmap option_fmap option_map]; run; eexists; (split; [|by apply similar_eq]); [|done].
    by rewrite (touch_state k v).
  - unfold lru_getWithKey. rewrite Hcells. destruct (_ !! k) as [v|] eqn:E; cbn [fmap option_fmap option_map]; run; eexists; (split; [|by apply similar_eq]); [|done].
    by rewrite (touch_state k v).
  - unfold lru_contains. rewrite Hcells. eexists. split; [done|]. cbn. f_equal. apply bool_decide_ext. by rewrite fmap_is_Some.
  - eexists. split; [done|]. cbn [similar]. unfold lru_dump. cbn [cells state raw]. rewrite map_to_list_fmap, <- list_fmap_compose.
    rewrite (list_fmap_ext _ id) by (by intros i [k v] _). rewrite list_fmap_id. by apply map_to_list_to_map.
  - eexists. split; [done|]. cbn [similar]. unfold cells_size, state. by rewrite cells_raw.
  - rewrite lru_set_used by (done || lia). destruct (_ && _); [by eexists|]. rewrite removeOverflow_newest.
    + run. by eexists.
    + by apply used_NoDup.
    + rewrite total_used. pose proof (entry_weight_moderate weight_function weights_moderate v) as Hv. unfold moderate in Hv.
      assert (total (without k l) <= total l) by by apply total_filter_le. lia.
    + rewrite used_length, map_size_insert, map_size_list_to_map by done. destruct (_ !! _); unfold id; lia.
  - rewrite lru_remove_without by (done || lia). by eexists.
  - rewrite lru_remove_if_filter by (done || lia). by eexists.
  - eexists. split; [|by apply similar_eq]. unfold lru_clear, cells_size, state. rewrite cells_raw by done.
    unfold state_of, state, raw. cbn [queue cells current_size_in_bytes max_size_in_bytes max_count size_metric count_metric removed recent recency_size recency_count reports].
    pose proof (total_nonneg weight_function weights_moderate l). rewrite <- (wrap_id 64 (total l)) at 2 by (unfold uint; lia). rewrite to_signed_wrap by lia.
    cbn [list_to_map foldr fmap list_fmap CacheFacts.total length]. rewrite fmap_empty. do 3 f_equal; cbn; lia.
  - unfold lru_setMaxCount. change (Make _ _ _ _ n _ _ _) with (state l ms n rm). rewrite removeOverflow_newest by (done || lia). by eexists.
  - unfold lru_setMaxSizeInBytes. change (Make _ _ _ n _ _ _ _) with (state l n mc rm). rewrite removeOverflow_newest by (done || lia). by eexists.
Qed.

(** ** The promises *)
Definition lossy (a : Recency) : Lossy Key V := MakeLossy (list_to_map (recent a)) (recency_size a) (recency_count a).

Lemma shrink_forgets l ms mc rm : NoDup l.*1 -> moderate ms -> 0 <= mc -> forgets weight_function (list_to_map l) ms mc (lossy (shrink l ms mc rm)).
Proof.
  intros Hl Hms Hmc. pose proof (shrink_valid l ms mc rm Hl Hms Hmc) as (_ & _ & _ & Hf).
  pose proof (forgets_list weight_function ms mc (given_up ms mc 0 0 l) (newest ms mc 0 0 l)) as Hg. rewrite <- newest_split in Hg. apply Hg; [done|exact Hf|].
  intros E. pose proof (newest_id weight_function ms mc 0 0 l) as Hid. rewrite !Z.add_0_l in Hid.
  specialize (Hid E). pose proof (newest_split weight_function ms mc 0 0 l) as Hs. rewrite Hid in Hs. apply (f_equal length) in Hs. rewrite length_app in Hs.
  apply nil_length_inv. lia.
Qed.

Lemma recency_allowed op a : valid a -> accepted (fun _ => True) op -> allowed weight_function op (lossy a) (recency_step op a).1 (lossy (recency_step op a).2).
Proof.
  destruct a as [l ms mc rm]. intros (Hl & Hms & Hmc & Hf) Hop. cbn [recent recency_size recency_count] in *.
  assert (Hseen : forall k, lossy (match (list_to_map l : gmap Key (option V)) !! k with Some v => MakeRecency (used k v l) ms mc rm | None => MakeRecency l ms mc rm end)
    = lossy (MakeRecency l ms mc rm)).
  { intros k. destruct (_ !! k) as [v|] eqn:E; [|done]. unfold lossy. cbn [recent recency_size recency_count]. by rewrite used_map, insert_id. }
  destruct op; cbn [recency_step allowed fst snd entries lossy recent]; try (split; [done|]; try done; apply Hseen); unfold lossy; cbn [recent recency_size recency_count size_limit count_limit].
  - split; [|done]. exists l. split; [done|]. symmetry. by apply map_to_list_to_map.
  - by rewrite map_weight_list, map_size_list_to_map.
  - destruct (no_memory && _) eqn:E.
    + apply andb_true_iff in E as [-> E%bool_decide_eq_true]. by right.
    + left. split; [done|]. rewrite <- used_map. apply shrink_forgets; [by apply used_NoDup|done..].
  - by rewrite list_to_map_without.
  - by rewrite filter_map_list.
  - split; [done|]. by apply shrink_forgets.
  - split; [done|]. apply shrink_forgets; [done|by destruct Hop|done].
Qed.

Lemma abstract_state a : MakeLossy (value <$> cells (state_of a)) (max_size_in_bytes (state_of a)) (max_count (state_of a)) = lossy a.
Proof. unfold lossy. cbn. f_equal. rewrite <- map_fmap_compose. apply map_fmap_id. Qed.

Lemma lru_laws_step op s : (exists a, valid a /\ s = state_of a) -> accepted (fun _ => True) op -> Z.of_nat (base.size (value <$> cells s)) < 2 ^ 62 ->
  exists x s', step op s = Ok (x, s') /\ (exists a, valid a /\ s' = state_of a) /\
    allowed weight_function op (MakeLossy (value <$> cells s) (max_size_in_bytes s) (max_count s)) x
      (MakeLossy (value <$> cells s') (max_size_in_bytes s') (max_count s')).
Proof.
  intros (a & Ha & ->) Hop Hn. rewrite map_size_fmap in Hn. unfold state_of, state in Hn. rewrite cells_raw in Hn by apply Ha.
  destruct (lru_step_recency op a Ha Hop Hn) as (x & E & Hx). eexists x, _. split; [exact E|]. split; [eexists; by split; [apply recency_valid|]|].
  rewrite !abstract_state. eapply allowed_similar; [done|]. by apply recency_allowed.
Qed.

Lemma lru_laws_within s : (exists a, valid a /\ s = state_of a) ->
  within weight_function (MakeLossy (value <$> cells s) (max_size_in_bytes s) (max_count s)) = true.
Proof.
  intros (a & (Hl & _ & _ & Hf) & ->). rewrite abstract_state. unfold within, lossy. cbn [entries size_limit count_limit].
  by rewrite map_weight_list, map_size_list_to_map.
Qed.

Lemma lru_laws_metrics s : (exists a, valid a /\ s = state_of a) -> (size_metric s, count_metric s) = (current_size_in_bytes s, cells_size s).
Proof. intros (a & (Hl & _) & ->). unfold cells_size, state_of, state. by rewrite cells_raw. Qed.

Definition lru_laws : CachePolicyLaws weight_function (fun _ => True) (t Key V) := {|
  invariant s := exists a, valid a /\ s = state_of a;
  abstract s := MakeLossy (value <$> cells s) (max_size_in_bytes s) (max_count s);
  metrics s := (size_metric s, count_metric s);
  law_limits s := conj eq_refl eq_refl;
  law_within := lru_laws_within;
  law_metrics := lru_laws_metrics;
  law_step := lru_laws_step |}.

(** ** Any sequence of operations *)
Lemma lru_run_recency ops a : valid a -> Forall (accepted (fun _ => True)) ops -> blen (recent a) + blen ops <= 2 ^ 62 ->
  valid (run_spec recency_step ops a).2 /\ blen (recent (run_spec recency_step ops a).2) <= blen (recent a) + blen ops /\
  exists answers, run_cache ops (state_of a) = Ok (answers, state_of (run_spec recency_step ops a).2) /\ Forall2 similar answers (run_spec recency_step ops a).1.
Proof.
  apply (run_cache_spec (fun _ => True) recency_step state_of valid (fun a => blen (recent a))).
  - clear a. intros op a Ha Hop. pose proof (recency_valid op a Ha Hop) as Ha'. split; [done|].
    pose proof (allowed_size _ _ _ _ _ (recency_allowed op a Ha Hop)) as Hs. unfold lossy in Hs. cbn [entries] in Hs.
    rewrite !map_size_list_to_map in Hs by (apply Ha || apply Ha'). lia.
  - intros. by apply lru_step_recency.
Qed.

Lemma new_recency ms mc : state_of (MakeRecency [] ms mc []) = new ms mc.
Proof. unfold state_of, state, raw, new. cbn [recent recency_size recency_count reports list_to_map foldr fmap list_fmap]. by rewrite fmap_empty. Qed.

Lemma new_valid ms mc : moderate ms -> 0 <= mc -> valid (MakeRecency [] ms mc []).
Proof. intros Hms Hmc. unfold valid. cbn. rewrite fits_true. unfold moderate in *. split_and!; try lia. constructor. Qed.
End lru.
