(* ===== verification/SLRUFacts.v ===== *)
(** * Facts about the policy SLRU

    The state of an [SLRUCachePolicy] is two lists of entries, the probationary
    and the protected ones, each in the order of last use; each operation is one
    on these lists, and keeps the promises of a cache. *)

From stdpp Require Import prelude gmap.
From Stdlib Require Import ZArith Lia SpecFloat.
From S2P Require Import Prelude CachePolicy CacheFacts.

Import SLRUCachePolicy.

Section slru.
Context {Key V : Type} `{Countable Key} (weight_function : V -> Z) (weights_moderate : forall v, moderate (weight_function v)).
Implicit Types (l p r : list (Key * option V)) (k : Key) (v : option V) (rm : list (Z * option V)).
Abbreviation total := (CacheFacts.total weight_function).
Abbreviation weight := (entry_weight weight_function).
Abbreviation newest := (CacheFacts.newest weight_function).
Abbreviation given_up := (CacheFacts.given_up weight_function).
Abbreviation reported := (CacheFacts.reported weight_function).
Abbreviation assoc := (list_to_map : list (Key * option V) -> gmap Key (option V)).

(** ** The cells of two lists *)
Definition segment_cell (b : bool) v : Cell := MakeCell b v (weight v).

Definition table p r : gmap Key Cell := (segment_cell false <$> assoc p) ∪ (segment_cell true <$> assoc r).

Lemma table_lookup p r k : table p r !! k = match assoc p !! k with Some v => Some (segment_cell false v) | None => segment_cell true <$> assoc r !! k end.
Proof. unfold table. rewrite lookup_union, !lookup_fmap. destruct (assoc p !! k), (assoc r !! k); done. Qed.

Lemma table_demote k v p r : <[k := segment_cell false v]> (table p r) = table (used k v p) (without k r).
Proof.
  apply map_eq. intros j. rewrite table_lookup, used_map, list_to_map_without. destruct (decide (j = k)) as [->|Hne]; [by rewrite !lookup_insert_eq|].
  by rewrite !lookup_insert_ne, lookup_delete_ne, table_lookup by done.
Qed.

Lemma table_promote k v p r : <[k := segment_cell true v]> (table p r) = table (without k p) (used k v r).
Proof.
  apply map_eq. intros j. rewrite table_lookup, used_map, list_to_map_without. destruct (decide (j = k)) as [->|Hne].
  - by rewrite !lookup_insert_eq, lookup_delete_eq.
  - by rewrite !lookup_insert_ne, lookup_delete_ne, table_lookup by done.
Qed.

Lemma table_delete k p r : delete k (table p r) = table (without k p) (without k r).
Proof.
  apply map_eq. intros j. rewrite table_lookup, !list_to_map_without. destruct (decide (j = k)) as [->|Hne]; [by rewrite !lookup_delete_eq|].
  by rewrite !lookup_delete_ne, table_lookup by done.
Qed.

Lemma table_protected k p r : assoc p !! k = None -> table p r !! k = segment_cell true <$> assoc r !! k.
Proof. intros Hk. by rewrite table_lookup, Hk. Qed.

Lemma keys_app p r : NoDup (p ++ r).*1 <-> NoDup p.*1 /\ (forall k, k ∈ p.*1 -> k ∉ r.*1) /\ NoDup r.*1.
Proof. by rewrite fmap_app, NoDup_app. Qed.

Lemma table_size p r : NoDup (p ++ r).*1 -> base.size (table p r) = (length p + length r)%nat.
Proof.
  intros (Hp & Hd & Hr)%keys_app. unfold table. rewrite map_size_disj_union; [by rewrite !map_size_fmap, !map_size_list_to_map|].
  apply map_disjoint_spec. intros k v w. rewrite !lookup_fmap. destruct (assoc p !! k) as [a|] eqn:Ep; [|done]. destruct (assoc r !! k) as [b|] eqn:Er; [|done].
  intros _ _. apply elem_of_list_to_map_2 in Ep, Er. apply (Hd k); apply list_elem_of_fmap; [by exists (k, a)|by exists (k, b)].
Qed.

Lemma absent_from k l : assoc l !! k = None <-> k ∉ l.*1.
Proof. split; [apply not_elem_of_list_to_map_2|apply not_elem_of_list_to_map_1]. Qed.

Lemma present_in k v l : assoc l !! k = Some v -> k ∈ l.*1.
Proof. intros Hk%elem_of_list_to_map_2. apply list_elem_of_fmap. by exists (k, v). Qed.

Lemma keys_middle k v p r : NoDup (p ++ (k, v) :: r).*1 -> (k ∉ p.*1) /\ (k ∉ r.*1) /\ NoDup ((p ++ [(k, v)]) ++ r).*1.
Proof.
  intros Hn. split_and!; [| |by rewrite <- app_assoc].
  - apply keys_app in Hn as (_ & Hd & _). intros Hk. apply (Hd k Hk). rewrite fmap_cons. apply list_elem_of_here.
  - apply keys_app in Hn as (_ & _ & Hr). rewrite fmap_cons in Hr. by apply NoDup_cons in Hr as [? _].
Qed.

Lemma used_new k v l : k ∉ l.*1 -> used k v l = l ++ [(k, v)].
Proof. intros Hk. unfold used. by rewrite without_notin. Qed.

Lemma without_head k v l : k ∉ l.*1 -> without k ((k, v) :: l) = l.
Proof. intros Hk. apply (without_split k v [] l); [apply not_elem_of_nil|done]. Qed.

(** ** States *)
Section limits.
Context (ms mp mc : Z) (ratio : spec_float).

Definition raw p r (sm cm : Z) rm : t Key V := Make p.*1 r.*1 (table p r) ms mp mc ratio (total r) (total p + total r) sm cm rm.
Definition state p r rm : t Key V := raw p r (total p + total r) (blen p + blen r) rm.

Lemma segments_cells_raw p r sm cm rm : NoDup (p ++ r).*1 -> cells_size (raw p r sm cm rm) = blen p + blen r.
Proof. intros Hn. unfold cells_size. cbn [cells raw]. rewrite table_size by done. lia. Qed.

Lemma cells_state p r rm : NoDup (p ++ r).*1 -> cells_size (state p r rm) = blen p + blen r.
Proof. apply segments_cells_raw. Qed.

(** The oldest protected entries become probationary. *)
Lemma protected_loop_newest p r sm cm rm : NoDup (p ++ r).*1 -> total p + total r < 2 ^ 63 -> blen p + blen r <= 2 ^ 62 ->
  protected_loop (length r) (raw p r sm cm rm) = Ok (raw (p ++ given_up mp mc 0 0 r) (newest mp mc 0 0 r) sm cm rm).
Proof.
  revert p. induction r as [|[k v] r IH]; intros p Hn Ht Hc.
  { cbn [length protected_loop CacheFacts.given_up CacheFacts.newest]. rewrite app_nil_r. by destruct (_ || _). }
  cbn [length protected_loop CacheFacts.newest CacheFacts.given_up]. rewrite segments_cells_raw by done.
  pose proof (total_nonneg weight_function weights_moderate p) as Hp. pose proof (total_nonneg weight_function weights_moderate r) as Hr.
  unfold raw at 1 2 3. cbn [max_count probationary_queue max_protected_size current_protected_size]. rewrite length_fmap.
  assert (Ec : wrap 64 (blen p + blen ((k, v) :: r) - blen p) = blen ((k, v) :: r)) by (cbn [length] in *; rewrite wrap_id; unfold uint; lia). rewrite Ec.
  replace (_ || _) with (negb (fits mp mc (0 + total ((k, v) :: r)) (0 + blen ((k, v) :: r)))).
  2: { unfold fits. rewrite !Z.add_0_l, negb_andb, negb_orb, <- !Z.ltb_antisym. apply orb_comm. }
  destruct (fits mp mc _ _); cbn [negb]; [by rewrite app_nil_r|].
  change (protected_queue (raw p ((k, v) :: r) sm cm rm)) with (k :: r.*1).
  change (cells (raw p ((k, v) :: r) sm cm rm)) with (table p ((k, v) :: r)). cbv beta iota.
  destruct (keys_middle k v p r Hn) as (Hkp & Hkr & Hn'). rewrite table_lookup, (proj2 (absent_from k p) Hkp). cbn [list_to_map foldr fst snd].
  rewrite lookup_insert_eq. cbn [fmap option_fmap option_map segment_cell is_protected value size].
  change (MakeCell false v (weight v)) with (segment_cell false v). rewrite table_demote, used_new, without_head by done.
  pose proof (entry_weight_moderate weight_function weights_moderate v) as Hv. unfold moderate in Hv. cbn [CacheFacts.total snd length] in Ht, Hc.
  assert (Ht' : total (p ++ [(k, v)]) = total p + weight v) by (rewrite total_app; cbn; lia).
  etrans; [|etrans; [apply (IH (p ++ [(k, v)])); [done|lia|rewrite length_app; cbn; lia]|by rewrite <- app_assoc]].
  assert (Ew : wrap 64 (weight v + total r - weight v) = total r) by (replace (weight v + total r - weight v) with (total r) by lia; apply (wrap_total weight_function weights_moderate); lia).
  f_equal. unfold update, raw. cbn -[wrap]. rewrite fmap_app, Ht', Ew. f_equal. lia.
Qed.

(** The oldest probationary entries are given up. *)
Lemma probationary_loop_newest p r sm cm rm : NoDup (p ++ r).*1 -> total p + total r < 2 ^ 63 ->
  probationary_loop (length p) (raw p r sm cm rm)
    = Ok (raw (newest ms mc (total r) (blen r) p) r sm cm (reported (given_up ms mc (total r) (blen r) p) ++ rm)).
Proof.
  revert rm. induction p as [|[k v] p IH]; intros rm Hn Ht.
  { cbn [length probationary_loop CacheFacts.given_up CacheFacts.newest]. by destruct (_ || _). }
  cbn [length probationary_loop CacheFacts.newest CacheFacts.given_up]. rewrite segments_cells_raw by done.
  pose proof (total_nonneg weight_function weights_moderate p) as Hp. pose proof (total_nonneg weight_function weights_moderate r) as Hr.
  unfold raw at 1 2 3 4. cbn [max_count max_size_in_bytes current_size_in_bytes].
  replace (_ || _) with (negb (fits ms mc (total r + total ((k, v) :: p)) (blen r + blen ((k, v) :: p)))).
  2: { unfold fits. rewrite (Z.add_comm (total r)), (Z.add_comm (blen r)), negb_andb, negb_orb, <- !Z.ltb_antisym. apply orb_comm. }
  destruct (fits ms mc _ _); cbn [negb]; [done|].
  change (probationary_queue (raw ((k, v) :: p) r sm cm rm)) with (k :: p.*1).
  change (cells (raw ((k, v) :: p) r sm cm rm)) with (table ((k, v) :: p) r). cbv beta iota.
  assert (Hk : (k ∉ p.*1) /\ (k ∉ r.*1) /\ NoDup (p ++ r).*1).
  { cbn [app] in Hn. rewrite fmap_cons, NoDup_cons, fmap_app, not_elem_of_app in Hn. cbn [fst] in Hn. rewrite fmap_app. tauto. }
  destruct Hk as (Hkp & Hkr & Hn'). rewrite table_lookup. cbn [list_to_map foldr fst snd]. rewrite lookup_insert_eq.
  cbn [segment_cell is_protected value size]. rewrite table_delete, without_head, without_notin by done.
  pose proof (entry_weight_moderate weight_function weights_moderate v) as Hv. unfold moderate in Hv. cbn [CacheFacts.total snd length] in Ht.
  assert (Ew : wrap 64 (weight v + total p + total r - weight v) = total p + total r).
  { replace (weight v + total p + total r - weight v) with (total p + total r) by lia. apply wrap_id. unfold uint. lia. }
  etrans; [|etrans; [apply (IH ((weight v, v) :: rm)); [done|lia]|]].
  - f_equal. unfold update, raw. cbn -[wrap]. by rewrite Ew.
  - unfold CacheFacts.reported. rewrite fmap_cons. cbn [rev]. by rewrite <- app_assoc.
Qed.

Lemma newest_keys size_limit count_limit n c p r : NoDup (p ++ r).*1 -> NoDup (newest size_limit count_limit n c p ++ r).*1.
Proof.
  intros Hn. rewrite (newest_split weight_function size_limit count_limit n c p), <- app_assoc in Hn. by apply keys_app in Hn as (_ & _ & ?).
Qed.

Lemma given_up_keys size_limit count_limit n c p r : NoDup (p ++ r).*1 ->
  NoDup ((p ++ given_up size_limit count_limit n c r) ++ newest size_limit count_limit n c r).*1.
Proof. intros Hn. by rewrite <- app_assoc, <- newest_split. Qed.

(** ** Removing what overflows *)
Lemma removeOverflow_protected p r rm : NoDup (p ++ r).*1 -> total p + total r < 2 ^ 63 -> blen p + blen r <= 2 ^ 62 ->
  removeOverflow true (state p r rm) = Ok (state (p ++ given_up mp mc 0 0 r) (newest mp mc 0 0 r) rm).
Proof.
  intros Hn Ht Hc. unfold removeOverflow. change (protected_queue (state p r rm)) with (r.*1). rewrite length_fmap. unfold state. rewrite protected_loop_newest by done. run.
  pose proof (given_up_keys mp mc 0 0 p r Hn) as Hn'. pose proof (newest_split weight_function mp mc 0 0 r) as Hs.
  set (p' := p ++ given_up mp mc 0 0 r) in *. set (r' := newest mp mc 0 0 r) in *.
  assert (Et : total p' + total r' = total p + total r) by (unfold p'; rewrite total_app; apply (f_equal total) in Hs; rewrite total_app in Hs; lia).
  assert (Ec : blen p' + blen r' = blen p + blen r) by (unfold p'; rewrite length_app; apply (f_equal length) in Hs; rewrite length_app in Hs; lia).
  rewrite !segments_cells_raw by done. cbn [current_size_in_bytes raw]. rewrite (proj2 (Z.leb_le _ _)) by lia. run.
  unfold with_metrics, raw, metric_difference.
  cbn [probationary_queue protected_queue cells max_size_in_bytes max_protected_size max_count size_ratio current_protected_size current_size_in_bytes size_metric count_metric removed].
  rewrite !to_signed_wrap, Et, Ec by lia. do 2 f_equal; lia.
Qed.

Lemma removeOverflow_probationary p r rm : NoDup (p ++ r).*1 -> total p + total r < 2 ^ 63 -> blen p + blen r <= 2 ^ 62 ->
  removeOverflow false (state p r rm)
    = Ok (state (newest ms mc (total r) (blen r) p) r (reported (given_up ms mc (total r) (blen r) p) ++ rm)).
Proof.
  intros Hn Ht Hc. unfold removeOverflow. change (probationary_queue (state p r rm)) with (p.*1). rewrite length_fmap. unfold state. rewrite probationary_loop_newest by done. run.
  pose proof (newest_keys ms mc (total r) (blen r) p r Hn) as Hn'. pose proof (newest_total weight_function weights_moderate ms mc (total r) (blen r) p) as Et.
  pose proof (newest_length weight_function ms mc (total r) (blen r) p) as Ec. pose proof (total_nonneg weight_function weights_moderate r) as Hr.
  set (p' := newest ms mc (total r) (blen r) p) in *.
  rewrite !segments_cells_raw by done. cbn [current_size_in_bytes raw]. rewrite (proj2 (Z.leb_le _ _)) by lia. run.
  unfold with_metrics, raw, metric_difference.
  cbn [probationary_queue protected_queue cells max_size_in_bytes max_protected_size max_count size_ratio current_protected_size current_size_in_bytes size_metric count_metric removed].
  rewrite !to_signed_wrap by lia. do 2 f_equal; lia.
Qed.

Lemma removeBoth_shrink p r rm : NoDup (p ++ r).*1 -> total p + total r < 2 ^ 63 -> blen p + blen r <= 2 ^ 62 ->
  let p' := p ++ given_up mp mc 0 0 r in
  let r' := newest mp mc 0 0 r in
  removeBoth (state p r rm) = Ok (state (newest ms mc (total r') (blen r') p') r' (reported (given_up ms mc (total r') (blen r') p') ++ rm)).
Proof.
  intros Hn Ht Hc p' r'. unfold removeBoth. rewrite removeOverflow_protected by done. run. fold p' r'.
  pose proof (newest_split weight_function mp mc 0 0 r) as Hs. apply removeOverflow_probationary; [by apply given_up_keys|..].
  - apply (f_equal total) in Hs. unfold p', r'. rewrite total_app in *. lia.
  - apply (f_equal length) in Hs. unfold p', r'. rewrite length_app in *. lia.
Qed.

(** ** One entry *)
Lemma without_both k p r : NoDup (p ++ r).*1 -> NoDup (without k p ++ without k r).*1.
Proof. intros Hn. rewrite <- without_app. by apply without_NoDup. Qed.

Lemma in_one k v p r : NoDup (p ++ r).*1 -> assoc p !! k = Some v -> assoc r !! k = None.
Proof. intros (_ & Hd & _)%keys_app Hk. apply absent_from, Hd. by eapply present_in. Qed.

Lemma without_absent k l : assoc l !! k = None -> without k l = l.
Proof. intros Hk. by apply without_notin, absent_from. Qed.

Lemma drop_segment k c p r sm cm rm : NoDup (p ++ r).*1 -> total p + total r < 2 ^ 63 -> table p r !! k = Some c ->
  drop_cell k c (raw p r sm cm rm) = raw (without k p) (without k r) sm cm rm.
Proof.
  intros Hn Ht Hk. rewrite table_lookup in Hk. pose proof (proj1 (keys_app p r) Hn) as (Hp & _ & Hr).
  assert (Hw : forall l, 0 <= total (without k l) <= total l) by (intros l; split; [by apply total_nonneg|by apply total_filter_le]).
  pose proof (Hw p). pose proof (Hw r). unfold drop_cell, update, raw.
  destruct (assoc p !! k) as [v|] eqn:Ep.
  - injection Hk as <-. rewrite (without_absent k r) in * by by eapply in_one. pose proof (total_without weight_function k v p Hp Ep).
    cbn -[wrap]. rewrite table_delete, erase_without, (without_absent k r) by (done || by eapply in_one). f_equal. rewrite wrap_id; unfold uint; lia.
  - apply fmap_Some in Hk as (v & Er & ->). rewrite (without_absent k p) in * by done. pose proof (total_without weight_function k v r Hr Er).
    cbn -[wrap]. rewrite table_delete, erase_without, (without_absent k p) by done. f_equal; rewrite wrap_id; unfold uint; lia.
Qed.

Lemma drop_segments (predicate : Key -> option V -> bool) es p r sm cm rm : NoDup (p ++ r).*1 -> total p + total r < 2 ^ 63 -> NoDup es.*1 ->
  (forall k c, (k, c) ∈ es -> table p r !! k = Some c) ->
  foldl (fun s '(key, cell) => if predicate key (value cell) then drop_cell key cell s else s) (raw p r sm cm rm) es
    = let gone := filter (fun e => predicate e.1 (value e.2) = true) es in raw (without_those gone p) (without_those gone r) sm cm rm.
Proof.
  revert p r. induction es as [|[k c] es IH]; intros p r Hn Ht Hes Hin; [done|]. rewrite fmap_cons, NoDup_cons in Hes. destruct Hes as [Hk Hes].
  cbn [foldl]. pose proof (Hin k c (list_elem_of_here _ _)) as Hkc. cbn [fst] in Hk. destruct (predicate k (value c)) eqn:E.
  - cbv zeta. rewrite filter_cons_True by done. cbn [without_those foldl fst]. rewrite drop_segment by done.
    assert (Hw : forall l, total (without k l) <= total l) by (intros l; by apply total_filter_le). pose proof (Hw p). pose proof (Hw r).
    apply IH; [by apply without_both|lia|done|]. intros k' c' He. rewrite <- table_delete, lookup_delete_ne; [apply Hin; by right|].
    intros ->. apply Hk, list_elem_of_fmap. by exists (k', c').
  - cbv zeta. rewrite filter_cons_False by (cbn in *; congruence). apply IH; [done..|]. intros k' c' He. apply Hin. by right.
Qed.

Lemma slru_remove_if_filter (predicate : Key -> option V -> bool) p r rm : NoDup (p ++ r).*1 -> total p + total r < 2 ^ 63 -> blen p + blen r <= 2 ^ 62 ->
  slru_remove_if predicate (state p r rm) = state (filter (fun e => predicate e.1 e.2 = false) p) (filter (fun e => predicate e.1 e.2 = false) r) rm.
Proof.
  intros Hn Ht Hc. unfold slru_remove_if. cbv zeta. set (s' := foldl _ _ _). set (p' := filter _ p). set (r' := filter _ r).
  pose proof (proj1 (keys_app p r) Hn) as (Hp & _ & Hr).
  assert (Es : s' = raw p' r' (total p + total r) (blen p + blen r) rm).
  { unfold s', p', r'. rewrite <- (removed_entries value predicate (table p r) p), <- (removed_entries value predicate (table p r) r).
    - apply drop_segments; [done..|apply NoDup_fst_map_to_list|]. intros k c. by rewrite elem_of_map_to_list.
    - intros k v Hk%(elem_of_list_to_map r k v Hr). rewrite table_lookup. destruct (assoc p !! k) eqn:Ep; [|by rewrite Hk].
      apply in_one with (r := r) in Ep; [congruence|done].
    - intros k v Hk%(elem_of_list_to_map p k v Hp). by rewrite table_lookup, Hk. }
  rewrite Es. clear s' Es.
  assert (Hn' : NoDup (p' ++ r').*1).
  { unfold p', r'. rewrite <- filter_app. eapply sublist_NoDup; [exact Hn|]. apply fmap_sublist, sublist_filter. }
  assert (Hw : forall l, 0 <= total (filter (fun e => predicate e.1 e.2 = false) l) <= total l).
  { intros l. split; [by apply total_nonneg|by apply total_filter_le]. }
  pose proof (Hw p) as Hwp. pose proof (Hw r) as Hwr. fold p' in Hwp. fold r' in Hwr. pose proof (length_filter (fun e => predicate e.1 e.2 = false) p) as Hlp. fold p' in Hlp.
  pose proof (length_filter (fun e => predicate e.1 e.2 = false) r) as Hlr. fold r' in Hlr.
  unfold state. rewrite !segments_cells_raw by done. unfold with_metrics, raw, metric_difference.
  cbn [probationary_queue protected_queue cells max_size_in_bytes max_protected_size max_count size_ratio current_protected_size current_size_in_bytes size_metric count_metric removed].
  rewrite !to_signed_wrap by lia. f_equal; lia.
Qed.

Lemma length_without k v l : NoDup l.*1 -> assoc l !! k = Some v -> length l = S (length (without k l)).
Proof.
  intros Hl Hk. destruct (assoc_split k v l Hl Hk) as (l1 & l2 & -> & H1 & H2). rewrite without_split, !length_app by done. cbn. lia.
Qed.

(** What a cell says about the lists. *)
Lemma cell_cases k c p r : NoDup (p ++ r).*1 -> table p r !! k = Some c ->
  exists v, c = segment_cell (is_protected c) v /\
    (if is_protected c then assoc p !! k = None /\ assoc r !! k = Some v else assoc p !! k = Some v /\ assoc r !! k = None).
Proof.
  intros Hn Hk. rewrite table_lookup in Hk. destruct (assoc p !! k) as [v|] eqn:Ep.
  - injection Hk as <-. exists v. split; [done|]. split; [done|]. by eapply in_one.
  - apply fmap_Some in Hk as (v & Er & ->). by exists v.
Qed.

Lemma totals_without k c p r : NoDup (p ++ r).*1 -> table p r !! k = Some c ->
  total (without k p) + total (without k r) + size c = total p + total r /\ (length (without k p) + length (without k r) + 1 = length p + length r)%nat.
Proof.
  intros Hn Hk. pose proof (proj1 (keys_app p r) Hn) as (Hp & _ & Hr). destruct (cell_cases k c p r Hn Hk) as (v & Hc & Hv). destruct (is_protected c).
  - destruct Hv as [Ep Er]. rewrite (without_absent k p) by done. pose proof (total_without weight_function k v r Hr Er). pose proof (length_without k v r Hr Er).
    rewrite Hc. cbn. split; lia.
  - destruct Hv as [Ep Er]. rewrite (without_absent k r) by done. pose proof (total_without weight_function k v p Hp Ep). pose proof (length_without k v p Hp Ep).
    rewrite Hc. cbn. split; lia.
Qed.

Lemma cell_weight k c p r : table p r !! k = Some c -> moderate (size c).
Proof.
  rewrite table_lookup. destruct (assoc p !! k); [intros [= <-]; apply entry_weight_moderate, weights_moderate|].
  intros (v & _ & ->)%fmap_Some. apply entry_weight_moderate, weights_moderate.
Qed.

Lemma slru_remove_without k p r rm : NoDup (p ++ r).*1 -> total p + total r < 2 ^ 62 -> slru_remove k (state p r rm) = state (without k p) (without k r) rm.
Proof.
  intros Hn Ht. unfold slru_remove. change (cells (state p r rm)) with (table p r). destruct (table p r !! k) as [c|] eqn:Ek.
  - cbv zeta. unfold state at 1. rewrite drop_segment by (done || lia). destruct (totals_without k c p r Hn Ek) as [Et Ec].
    pose proof (cell_weight k c p r Ek) as Hw. unfold moderate in Hw. unfold state at 1 2. rewrite drop_segment by (done || lia).
    unfold with_metrics, state, raw. cbn [probationary_queue protected_queue cells max_size_in_bytes max_protected_size max_count size_ratio current_protected_size current_size_in_bytes size_metric count_metric removed].
    rewrite <- (wrap_id 64 (size c)) by (unfold uint; lia). rewrite to_signed_wrap by lia. f_equal; lia.
  - rewrite table_lookup in Ek. destruct (assoc p !! k) eqn:Ep; [done|]. apply fmap_None in Ek. by rewrite !without_absent.
Qed.

Lemma touch_protected k v p r rm : NoDup (p ++ r).*1 -> assoc r !! k = Some v -> touch k (segment_cell true v) (state p r rm) = Ok (state p (used k v r) rm).
Proof.
  intros Hn Hk. pose proof (proj1 (keys_app p r) Hn) as (_ & _ & Hr). destruct (used_same weight_function k v r Hr Hk) as [Et El].
  unfold touch, update, state, raw, table. cbn [is_protected segment_cell probationary_queue protected_queue cells max_size_in_bytes max_protected_size max_count size_ratio current_protected_size current_size_in_bytes size_metric count_metric removed].
  by rewrite (used_keys k v), used_map, insert_id, Et, El by done.
Qed.

Lemma promote_keys k v p r : NoDup (p ++ r).*1 -> NoDup (without k p ++ used k v r).*1.
Proof. intros Hn. unfold used. rewrite app_assoc, <- without_app. by apply (used_NoDup k v (p ++ r)). Qed.

Lemma insert_keys k v p r : NoDup (p ++ r).*1 -> assoc p !! k = None -> assoc r !! k = None -> NoDup (used k v p ++ r).*1.
Proof.
  intros Hn Hp%absent_from Hr%absent_from. rewrite used_new, <- app_assoc by done. cbn [app]. rewrite <- Permutation_middle, fmap_cons, NoDup_cons.
  split; [|done]. rewrite fmap_app, not_elem_of_app. done.
Qed.

Lemma touch_probationary k v p r rm : NoDup (p ++ r).*1 -> total p + total r < 2 ^ 63 -> blen p + blen r <= 2 ^ 62 -> assoc p !! k = Some v ->
  let r' := used k v r in
  touch k (segment_cell false v) (state p r rm) = Ok (state (without k p ++ given_up mp mc 0 0 r') (newest mp mc 0 0 r') rm).
Proof.
  intros Hn Ht Hc Hk r'. pose proof (proj1 (keys_app p r) Hn) as (Hp & _ & Hr). pose proof (in_one k v p r Hn Hk) as Hkr.
  pose proof (total_without weight_function k v p Hp Hk) as Hw. pose proof (length_without k v p Hp Hk) as Hl.
  pose proof (entry_weight_moderate weight_function weights_moderate v) as Hv. unfold moderate in Hv.
  pose proof (total_nonneg weight_function weights_moderate r). pose proof (total_nonneg weight_function weights_moderate (without k p)).
  assert (Er : r' = r ++ [(k, v)]) by (apply used_new; by apply absent_from).
  assert (Et : total r' = total r + weight v) by (rewrite Er, total_app; cbn; lia). assert (El : blen r' = blen r + 1) by (rewrite Er, length_app; cbn; lia).
  rewrite <- removeOverflow_protected.
  - unfold touch. cbn [is_protected segment_cell value size]. f_equal. unfold update, state, raw.
    cbn [probationary_queue protected_queue cells max_size_in_bytes max_protected_size max_count size_ratio current_protected_size current_size_in_bytes size_metric count_metric removed].
    change (MakeCell true v (weight v)) with (segment_cell true v). rewrite table_promote, erase_without by done. fold r'. rewrite Et, El, Hw, Er, fmap_app.
    rewrite wrap_id by (unfold uint; lia). f_equal; lia.
  - by apply promote_keys.
  - lia.
  - lia.
Qed.

(** The entry stored, and the metrics brought up to date. *)
Lemma store_state k b v p r p' r' prot current rm :
  NoDup (p ++ r).*1 -> NoDup (p' ++ r').*1 -> 0 <= total p + total r < 2 ^ 62 -> 0 <= total p' + total r' < 2 ^ 63 ->
  blen p + blen r <= blen p' + blen r' <= blen p + blen r + 1 ->
  <[k := segment_cell b v]> (table p r) = table p' r' -> wrap 64 (prot + (if b then weight v else 0)) = total r' ->
  wrap 64 (current + weight v) = total p' + total r' ->
  store weight_function k b v (total p + total r) (blen p + blen r) (update (state p r rm) p'.*1 r'.*1 (table p r) prot current rm) = removeBoth (state p' r' rm).
Proof.
  intros Hn Hn' Ht Ht' Hc Htab Hprot Hcur. unfold store. cbv zeta. f_equal. unfold with_metrics, update, cells_size.
  cbn [probationary_queue protected_queue cells max_size_in_bytes max_protected_size max_count size_ratio current_protected_size current_size_in_bytes size_metric count_metric removed state raw].
  change (weigh weight_function v) with (weight v). change (MakeCell b v (weight v)) with (segment_cell b v). rewrite Htab, Hprot, Hcur, table_size by done.
  unfold state, raw, metric_difference. rewrite !to_signed_wrap by lia. f_equal; lia.
Qed.

Lemma slru_set_new no_memory k v p r rm : NoDup (p ++ r).*1 -> total p + total r < 2 ^ 62 -> table p r !! k = None ->
  slru_set weight_function no_memory k v (state p r rm)
    = if no_memory then Ok (false, state p r rm) else s' ← removeBoth (state (used k v p) r rm); Ok (true, s').
Proof.
  intros Hn Ht Hk. unfold slru_set. change (cells (state p r rm)) with (table p r). rewrite Hk. destruct no_memory; [done|].
  rewrite table_lookup in Hk. destruct (assoc p !! k) eqn:Ep; [done|]. apply fmap_None in Hk as Er.
  pose proof (total_nonneg weight_function weights_moderate p). pose proof (total_nonneg weight_function weights_moderate r).
  pose proof (entry_weight_moderate weight_function weights_moderate v) as Hv. unfold moderate in Hv.
  pose proof (total_used weight_function k v p) as Et. rewrite without_absent in Et by done.
  assert (Eu : used k v p = p ++ [(k, v)]) by (by apply used_new, absent_from).
  assert (El : length (used k v p) = S (length p)) by (rewrite Eu, length_app; cbn; lia).
  rewrite <- (store_state k false v p r (used k v p) r (total r) (total p + total r) rm); try done; try lia.
  - rewrite cells_state by done. rewrite Eu, fmap_app. done.
  - by apply insert_keys.
  - by rewrite table_demote, (without_absent k r).
  - rewrite wrap_id; unfold uint; lia.
  - rewrite wrap_id; unfold uint; lia.
Qed.

Lemma slru_set_old no_memory k v c p r rm : NoDup (p ++ r).*1 -> total p + total r < 2 ^ 62 -> table p r !! k = Some c ->
  slru_set weight_function no_memory k v (state p r rm) = s' ← removeBoth (state (without k p) (used k v r) rm); Ok (true, s').
Proof.
  intros Hn Ht Hk. unfold slru_set. change (cells (state p r rm)) with (table p r). rewrite Hk. destruct (totals_without k c p r Hn Hk) as [Et Ec].
  pose proof (cell_weight k c p r Hk) as Hw. destruct (cell_cases k c p r Hn Hk) as (v0 & Hc & Hv0). pose proof (proj1 (keys_app p r) Hn) as (Hp & _ & Hr).
  assert (Hnn : forall l, 0 <= total l) by (intros l; by apply total_nonneg). pose proof (Hnn (without k p)). pose proof (Hnn (without k r)).
  pose proof (entry_weight_moderate weight_function weights_moderate v) as Hv. unfold moderate in Hv, Hw. pose proof (total_used weight_function k v r) as Eu.
  assert (El : length (used k v r) = S (length (without k r))) by (unfold used; rewrite length_app; cbn; lia).
  assert (Ecur : wrap 64 (wrap 64 (total p + total r - size c) + weight v) = total (without k p) + total (used k v r)).
  { rewrite wrap_add_l, wrap_id; unfold uint; lia. }
  rewrite cells_state by done.
  rewrite <- (store_state k true v p r (without k p) (used k v r) (if is_protected c then wrap 64 (total r - size c) else total r) (wrap 64 (total p + total r - size c)) rm);
    try done; try lia; [|by apply promote_keys|by apply table_promote|].
  - f_equal. f_equal. destruct (is_protected c).
    + destruct Hv0 as [Ep Er]. by rewrite (without_absent k p), <- (used_keys k v r).
    + destruct Hv0 as [Ep Er]. rewrite <- erase_without by done. rewrite used_new, fmap_app by by apply absent_from. done.
  - destruct (is_protected c), Hv0 as [Ep Er].
    + rewrite wrap_add_l, wrap_id; unfold uint; rewrite ?(without_absent k p) in * by done; lia.
    + rewrite (without_absent k r) in * by done. rewrite wrap_id; unfold uint; lia.
Qed.
End limits.

(** ** The operations on two lists *)
Context (ratio : spec_float).
#[local] Instance slru_with_weights : CachePolicy Key V (t Key V) := slru_policy weight_function.

Record Segments := MakeSegments {
  probationary : list (Key * option V);
  protected : list (Key * option V);
  segments_size : Z;
  protected_size : Z;
  segments_count : Z;
  segments_reports : list (Z * option V) }.

(** The oldest protected entries are moved to the end of the probationary ones until the others fit. *)
Definition settle p r (ms mp mc : Z) rm : Segments := MakeSegments (p ++ given_up mp mc 0 0 r) (newest mp mc 0 0 r) ms mp mc rm.

(** Then the oldest probationary entries are given up until all fit. *)
Definition shrink p r (ms mp mc : Z) rm : Segments :=
  let p' := p ++ given_up mp mc 0 0 r in
  let r' := newest mp mc 0 0 r in
  MakeSegments (newest ms mc (total r') (blen r') p') r' ms mp mc (reported (given_up ms mc (total r') (blen r') p') ++ rm).

(** What [get] does to the lists. *)
Definition seen k (a : Segments) : Segments :=
  let '(MakeSegments p r ms mp mc rm) := a in
  match assoc p !! k with
  | Some v => settle (without k p) (used k v r) ms mp mc rm
  | None => match assoc r !! k with Some v => MakeSegments p (used k v r) ms mp mc rm | None => a end
  end.

Definition segments_step (op : operation Key V) (a : Segments) : answer Key V * Segments :=
  let '(MakeSegments p r ms mp mc rm) := a in
  let m := assoc (p ++ r) in
  match op with
  | Get k => (Value (mjoin (m !! k)), seen k a)
  | GetWithKey k => (Found (pair k <$> m !! k), seen k a)
  | Contains k => (Flag (bool_decide (is_Some (m !! k))), a)
  | Dump => (Entries (p ++ r), a)
  | Sizes => (Numbers (total p + total r) (blen p + blen r), a)
  | Put no_memory k v =>
    if bool_decide (m !! k = None) then
      if no_memory then (Flag false, a) else (Flag true, shrink (used k v p) r ms mp mc rm)
    else (Flag true, shrink (without k p) (used k v r) ms mp mc rm)
  | Remove k => (Nothing, MakeSegments (without k p) (without k r) ms mp mc rm)
  | RemoveIf predicate =>
    (Nothing, MakeSegments (filter (fun e => predicate e.1 e.2 = false) p) (filter (fun e => predicate e.1 e.2 = false) r) ms mp mc rm)
  | Clear => (Nothing, MakeSegments [] [] ms mp mc rm)
  | SetMaxCount n => (Nothing, shrink p r ms mp n rm)
  | SetMaxSizeInBytes n => (Nothing, match calculateMaxProtectedSize n ratio with Ok mp => shrink p r n mp mc rm | _ => a end)
  end.

Definition state_of (a : Segments) : t Key V :=
  state (segments_size a) (protected_size a) (segments_count a) ratio (probationary a) (protected a) (segments_reports a).

(** The protected part is at most the whole. *)
Definition protects (n : Z) : bool := match calculateMaxProtectedSize n ratio with Ok mp => (0 <=? mp) && (mp <=? n) | _ => false end.

Definition valid (a : Segments) : Prop :=
  NoDup (probationary a ++ protected a).*1 /\ moderate (segments_size a) /\ 0 <= protected_size a <= segments_size a /\ 0 <= segments_count a /\
  fits (protected_size a) (segments_count a) (total (protected a)) (blen (protected a)) = true /\
  fits (segments_size a) (segments_count a) (total (probationary a) + total (protected a)) (blen (probationary a) + blen (protected a)) = true.

Lemma newest_valid n c l : 0 <= n -> 0 <= c -> fits n c (total (newest n c 0 0 l)) (blen (newest n c 0 0 l)) = true.
Proof.
  intros Hn Hc. destruct (newest_fits weight_function n c 0 0 l) as [E|E]; [by rewrite !Z.add_0_l in E|]. rewrite E. apply fits_true. cbn. lia.
Qed.

Lemma settle_sums mp mc p r :
  total (p ++ given_up mp mc 0 0 r) + total (newest mp mc 0 0 r) = total p + total r /\
  blen (p ++ given_up mp mc 0 0 r) + blen (newest mp mc 0 0 r) = blen p + blen r.
Proof.
  pose proof (newest_split weight_function mp mc 0 0 r) as Hs. rewrite total_app, length_app. split.
  - apply (f_equal total) in Hs. rewrite total_app in Hs. lia.
  - apply (f_equal length) in Hs. rewrite length_app in Hs. lia.
Qed.

Lemma settle_valid p r ms mp mc rm : NoDup (p ++ r).*1 -> moderate ms -> 0 <= mp <= ms -> 0 <= mc ->
  fits ms mc (total p + total r) (blen p + blen r) = true -> valid (settle p r ms mp mc rm).
Proof.
  intros Hn Hms Hmp Hmc Hf. destruct (settle_sums mp mc p r) as [E1 E2]. unfold valid, settle.
  cbn [probationary protected segments_size protected_size segments_count]. rewrite E1, E2.
  split_and!; try done; [by apply given_up_keys|lia|lia|by apply newest_valid; lia].
Qed.

Lemma segments_shrink_valid p r ms mp mc rm : NoDup (p ++ r).*1 -> moderate ms -> 0 <= mp <= ms -> 0 <= mc -> valid (shrink p r ms mp mc rm).
Proof.
  intros Hn Hms Hmp Hmc. pose proof (newest_valid mp mc r ltac:(lia) Hmc) as Hr. unfold valid, shrink. cbv zeta.
  cbn [probationary protected segments_size protected_size segments_count].
  pose proof (given_up_keys mp mc 0 0 p r Hn) as Hn'. set (r' := newest mp mc 0 0 r) in *. set (p' := p ++ given_up mp mc 0 0 r) in *.
  split_and!; try done; [by apply newest_keys|lia|lia|].
  destruct (newest_fits weight_function ms mc (total r') (blen r') p') as [E|E]; [by rewrite Z.add_comm, (Z.add_comm (blen _))|].
  rewrite E. cbn [CacheFacts.total length]. rewrite fits_true in Hr |- *. lia.
Qed.

Lemma assoc_app p r k : assoc (p ++ r) !! k = match assoc p !! k with Some v => Some v | None => assoc r !! k end.
Proof. rewrite list_to_map_app, lookup_union. destruct (assoc p !! k), (assoc r !! k); done. Qed.

Lemma table_values p r : value <$> table p r = assoc (p ++ r).
Proof.
  apply map_eq. intros k. rewrite lookup_fmap, table_lookup, assoc_app. destruct (assoc p !! k); [done|]. by destruct (assoc r !! k).
Qed.

Lemma table_absent k p r : table p r !! k = None <-> assoc (p ++ r) !! k = None.
Proof. rewrite <- table_values, lookup_fmap. by destruct (table p r !! k). Qed.

(** A used entry among the protected ones. *)
Lemma promoted_sums k v p r : NoDup (p ++ r).*1 -> assoc (p ++ r) !! k = Some v ->
  total (without k p) + total (used k v r) = total p + total r /\ blen (without k p) + blen (used k v r) = blen p + blen r.
Proof.
  intros Hn Hk. destruct (table p r !! k) as [c|] eqn:Ec.
  - destruct (totals_without k c p r Hn Ec) as [Et El]. rewrite total_used. unfold used. rewrite length_app. cbn [length].
    assert (Ev : value <$> table p r !! k = Some v) by (by rewrite <- lookup_fmap, table_values). rewrite Ec in Ev. cbn in Ev.
    destruct (cell_cases k c p r Hn Ec) as (w & Hc & _). rewrite Hc in Ev, Et. cbn in Ev, Et. injection Ev as ->. lia.
  - apply table_absent in Ec. congruence.
Qed.

Lemma seen_valid k a : valid a -> valid (seen k a).
Proof.
  destruct a as [p r ms mp mc rm]. intros Ha. pose proof Ha as (Hn & Hms & Hmp & Hmc & Hfr & Hf).
  cbn [probationary protected segments_size protected_size segments_count] in *. pose proof (proj1 (keys_app p r) Hn) as (_ & _ & Hr).
  cbn [seen]. destruct (assoc p !! k) as [v|] eqn:Ep.
  - destruct (promoted_sums k v p r Hn ltac:(by rewrite assoc_app, Ep)) as [E1 E2]. apply settle_valid; try done; [by apply promote_keys|by rewrite E1, E2].
  - destruct (assoc r !! k) as [v|] eqn:Er; [|done]. destruct (used_same weight_function k v r Hr Er) as [E1 E2]. unfold valid.
    cbn [probationary protected segments_size protected_size segments_count]. rewrite E1, E2. split_and!; try done; try lia.
    rewrite <- (without_absent k p) by done. by apply promote_keys.
Qed.

Lemma segments_valid op a : valid a -> accepted (fun n => protects n = true) op -> valid (segments_step op a).2.
Proof.
  intros Ha Hop. pose proof (fun k => seen_valid k a Ha) as Hseen. destruct a as [p r ms mp mc rm]. pose proof Ha as (Hn & Hms & Hmp & Hmc & Hfr & Hf).
  cbn [probationary protected segments_size protected_size segments_count] in *.
  assert (Hfilter : forall (P : Key * option V -> Prop) (D : forall e, Decision (P e)), valid (MakeSegments (filter P p) (filter P r) ms mp mc rm)).
  { intros P D. unfold valid. cbn [probationary protected segments_size protected_size segments_count].
    pose proof (total_filter_le weight_function weights_moderate P p). pose proof (total_filter_le weight_function weights_moderate P r).
    pose proof (length_filter P p). pose proof (length_filter P r). rewrite fits_true in Hfr, Hf. rewrite !fits_true. split_and!; try done; try lia.
    rewrite <- filter_app. eapply sublist_NoDup; [exact Hn|]. apply fmap_sublist, sublist_filter. }
  destruct op; cbn [segments_step snd]; try done; try apply Hseen; try apply Hfilter.
  - case_bool_decide as E; [destruct no_memory; [done|]|]; (apply segments_shrink_valid; [|done..]); [|by apply promote_keys].
    rewrite assoc_app in E. destruct (assoc p !! k) eqn:Ep; [done|]. by apply insert_keys.
  - unfold valid. cbn [probationary protected segments_size protected_size segments_count app fmap list_fmap]. rewrite !fits_true. unfold moderate in Hms.
    cbn. split_and!; try done; try lia. constructor.
  - by apply segments_shrink_valid.
  - destruct Hop as [Hn' Hp]. unfold protects in Hp. destruct (calculateMaxProtectedSize n ratio) as [mp'| |]; [|done..].
    apply andb_true_iff in Hp as [Hp1%Z.leb_le Hp2%Z.leb_le]. by apply segments_shrink_valid.
Qed.

(** ** Each operation is that on the lists *)
Lemma touch_seen k c a : valid a -> blen (probationary a) + blen (protected a) < 2 ^ 62 -> table (probationary a) (protected a) !! k = Some c ->
  touch k c (state_of a) = Ok (state_of (seen k a)).
Proof.
  destruct a as [p r ms mp mc rm]. intros (Hn & Hms & Hmp & Hmc & Hfr & Hf) Hb Hk. cbn [probationary protected segments_size protected_size segments_count] in *.
  apply fits_true in Hf as [Ht _]. unfold moderate in Hms. destruct (cell_cases k c p r Hn Hk) as (v & Hc & Hv). unfold state_of. cbn [seen].
  destruct (is_protected c) eqn:Eb; destruct Hv as [Ep Er]; rewrite Ep, Hc.
  - rewrite Er. by apply touch_protected.
  - apply touch_probationary; try done; cbn; lia.
Qed.

Lemma cells_state_of a : cells (state_of a) = table (probationary a) (protected a).
Proof. done. Qed.

Lemma removeBoth_state p r ms mp mc rm : NoDup (p ++ r).*1 -> total p + total r < 2 ^ 63 -> blen p + blen r <= 2 ^ 62 ->
  removeBoth (state ms mp mc ratio p r rm) = Ok (state_of (shrink p r ms mp mc rm)).
Proof. apply removeBoth_shrink. Qed.

Lemma slru_clear_state ms mp mc p r rm : NoDup (p ++ r).*1 -> total p + total r < 2 ^ 62 ->
  slru_clear (state ms mp mc ratio p r rm) = state ms mp mc ratio [] [] rm.
Proof.
  intros Hn Ht. unfold slru_clear. rewrite cells_state by done. unfold with_metrics, update, state, raw.
  cbn [probationary_queue protected_queue cells max_size_in_bytes max_protected_size max_count size_ratio current_protected_size current_size_in_bytes size_metric count_metric removed].
  assert (Hnn : forall l, 0 <= total l) by (intros l; by apply total_nonneg). pose proof (Hnn p). pose proof (Hnn r).
  rewrite <- (wrap_id 64 (total p + total r)) at 2 by (unfold uint; lia). rewrite to_signed_wrap by lia.
  unfold table. cbn [list_to_map foldr fmap list_fmap CacheFacts.total length]. rewrite !fmap_empty, map_union_empty. f_equal; cbn; lia.
Qed.

Lemma slru_put_segments no_memory k v a : valid a -> blen (probationary a) + blen (protected a) < 2 ^ 62 ->
  exists x, step (Put no_memory k v) (state_of a) = Ok (x, state_of (segments_step (Put no_memory k v) a).2) /\
    similar x (segments_step (Put no_memory k v) a).1.
Proof.
  destruct a as [p r ms mp mc rm]. intros (Hn & Hms & Hmp & Hmc & Hfr & Hf) Hb.
  cbn [probationary protected segments_size protected_size segments_count] in *. apply fits_true in Hf as [Ht _]. unfold moderate in Hms.
  cbn [step slru_with_weights slru_policy set segments_step fst snd].
  unfold state_of at 1. cbn [probationary protected segments_size protected_size segments_count segments_reports].
  pose proof (entry_weight_moderate weight_function weights_moderate v) as Hw. unfold moderate in Hw. case_bool_decide as E.
  + rewrite slru_set_new by (done || lia || by apply table_absent). rewrite assoc_app in E. destruct (assoc p !! k) eqn:Ep; [done|].
    destruct no_memory; [eexists; split; [done|by apply similar_eq]|].
    pose proof (total_used weight_function k v p) as Et. rewrite without_absent in Et by done. assert (El : length (used k v p) = S (length p)).
    { rewrite used_new, length_app by by apply absent_from. cbn. lia. }
    rewrite removeBoth_state by (lia || by apply insert_keys). run. eexists. split; [done|by apply similar_eq].
  + destruct (assoc (p ++ r) !! k) as [v0|] eqn:Ek; [|done]. destruct (table p r !! k) as [c|] eqn:Ec; [|apply table_absent in Ec; congruence].
    rewrite (slru_set_old _ _ _ _ _ _ _ c) by (done || lia). destruct (totals_without k c p r Hn Ec) as [E1 E2].
    pose proof (cell_weight k c p r Ec) as Hc. unfold moderate in Hc. pose proof (total_used weight_function k v r).
    assert (length (used k v r) = S (length (without k r))) by (unfold used; rewrite length_app; cbn; lia).
    rewrite removeBoth_state by (lia || by apply promote_keys). run. eexists. split; [done|by apply similar_eq].
Qed.

Lemma slru_step_segments op a : valid a -> accepted (fun n => protects n = true) op -> blen (probationary a) + blen (protected a) < 2 ^ 62 ->
  exists x, step op (state_of a) = Ok (x, state_of (segments_step op a).2) /\ similar x (segments_step op a).1.
Proof.
  intros Ha Hop Hb. pose proof (fun k c => touch_seen k c a Ha Hb) as Htouch. pose proof (fun nm k v => slru_put_segments nm k v a Ha Hb) as Hput.
  destruct a as [p r ms mp mc rm]. destruct Ha as (Hn & Hms & Hmp & Hmc & Hfr & Hf).
  cbn [probationary protected segments_size protected_size segments_count] in *. apply fits_true in Hf as [Ht _]. unfold moderate in Hms.
  assert (Hv : forall k, value <$> table p r !! k = assoc (p ++ r) !! k) by (intros k; by rewrite <- lookup_fmap, table_values).
  destruct op; cbn [step slru_with_weights slru_policy get getWithKey contains dump sizeInBytes count set remove remove_if clear setMaxCount setMaxSizeInBytes segments_step fst snd].
  - unfold slru_get. rewrite cells_state_of. cbn [probationary protected]. specialize (Hv k). destruct (table p r !! k) as [c|] eqn:Ec.
    + rewrite (Htouch k c Ec). run. eexists. split; [done|]. apply similar_eq. by rewrite <- Hv.
    + run. cbn in Hv. symmetry in Hv. eexists. split; [|apply similar_eq; by rewrite Hv]. rewrite assoc_app in Hv. cbn [seen].
      destruct (assoc p !! k); [done|]. by rewrite Hv.
  - unfold slru_getWithKey. rewrite cells_state_of. cbn [probationary protected]. specialize (Hv k). destruct (table p r !! k) as [c|] eqn:Ec.
    + rewrite (Htouch k c Ec). run. eexists. split; [done|]. apply similar_eq. by rewrite <- Hv.
    + run. cbn in Hv. symmetry in Hv. eexists. split; [|apply similar_eq; by rewrite Hv]. rewrite assoc_app in Hv. cbn [seen].
      destruct (assoc p !! k); [done|]. by rewrite Hv.
  - eexists. split; [done|]. apply similar_eq. f_equal. apply bool_decide_ext. rewrite <- Hv. by rewrite fmap_is_Some.
  - eexists. split; [done|]. cbn [similar]. unfold slru_dump. rewrite cells_state_of. cbn [probationary protected].
    rewrite <- (map_to_list_to_map (M := gmap Key) (p ++ r)), <- table_values, map_to_list_fmap by done. apply reflexive_eq, list_fmap_ext. by intros i [k c] _.
  - eexists. split; [done|]. apply similar_eq. unfold state_of. by rewrite cells_state.
  - apply Hput.
  - unfold state_of at 1. cbn [probationary protected segments_size protected_size segments_count segments_reports]. rewrite slru_remove_without by (done || lia).
    eexists. split; [done|by apply similar_eq].
  - unfold state_of at 1. cbn [probationary protected segments_size protected_size segments_count segments_reports]. rewrite slru_remove_if_filter by (done || lia).
    eexists. split; [done|by apply similar_eq].
  - unfold state_of at 1. cbn [probationary protected segments_size protected_size segments_count segments_reports]. rewrite slru_clear_state by (done || lia).
    eexists. split; [done|by apply similar_eq].
  - unfold slru_setMaxCount. change (Make _ _ _ _ _ n _ _ _ _ _ _) with (state ms mp n ratio p r rm). rewrite removeBoth_state by (done || lia).
    eexists. split; [done|by apply similar_eq].
  - destruct Hop as [Hn' Hp]. unfold protects in Hp. unfold slru_setMaxSizeInBytes. change (size_ratio _) with ratio.
    destruct (calculateMaxProtectedSize n ratio) as [mp'| |]; [|done..]. run.
    change (Make _ _ _ n mp' _ _ _ _ _ _ _) with (state n mp' mc ratio p r rm). rewrite removeBoth_state by (done || lia).
    eexists. split; [done|by apply similar_eq].
Qed.

(** ** The promises *)
Definition lossy (a : Segments) : Lossy Key V := MakeLossy (assoc (probationary a ++ protected a)) (segments_size a) (segments_count a).

Lemma assoc_promoted k v p r : assoc (without k p ++ used k v r) = <[k := v]> (assoc (p ++ r)).
Proof. rewrite <- !table_values, <- table_promote, fmap_insert. done. Qed.

Lemma assoc_added k v p r : assoc r !! k = None -> assoc (used k v p ++ r) = <[k := v]> (assoc (p ++ r)).
Proof. intros Hr. rewrite <- !table_values, <- (without_absent k r Hr) at 1. rewrite <- table_demote, fmap_insert. done. Qed.

Lemma seen_lossy k a : lossy (seen k a) = lossy a.
Proof.
  destruct a as [p r ms mp mc rm]. cbn [seen]. destruct (assoc p !! k) as [v|] eqn:Ep; [|destruct (assoc r !! k) as [v|] eqn:Er; [|done]];
    unfold lossy, settle; cbn [probationary protected segments_size segments_count]; f_equal.
  - rewrite <- app_assoc, <- newest_split, assoc_promoted. apply insert_id. by rewrite assoc_app, Ep.
  - rewrite <- (without_absent k p Ep) at 1. rewrite assoc_promoted. apply insert_id. by rewrite assoc_app, Ep.
Qed.

Lemma segments_shrink_forgets p r ms mp mc rm : NoDup (p ++ r).*1 -> moderate ms -> 0 <= mp <= ms -> 0 <= mc ->
  forgets weight_function (assoc (p ++ r)) ms mc (lossy (shrink p r ms mp mc rm)).
Proof.
  intros Hn Hms Hmp Hmc. pose proof (segments_shrink_valid p r ms mp mc rm Hn Hms Hmp Hmc) as (_ & _ & _ & _ & _ & Hf). unfold shrink in *. cbv zeta in *.
  unfold lossy. cbn [probationary protected segments_size segments_count] in *.
  pose proof (newest_split weight_function mp mc 0 0 r) as Er. set (r' := newest mp mc 0 0 r) in *.
  assert (Epr : p ++ r = (p ++ given_up mp mc 0 0 r) ++ r') by (by rewrite <- app_assoc, <- Er).
  set (p' := p ++ given_up mp mc 0 0 r) in *. pose proof (newest_split weight_function ms mc (total r') (blen r') p') as Ep.
  pose proof (forgets_list weight_function ms mc (given_up ms mc (total r') (blen r') p') (newest ms mc (total r') (blen r') p' ++ r')) as Hg.
  rewrite app_assoc, <- Ep, <- Epr in Hg. apply Hg; [done|by rewrite total_app, length_app, Nat2Z.inj_add|].
  intros E. rewrite Epr, total_app, length_app, Nat2Z.inj_add, Z.add_comm, (Z.add_comm (blen _)) in E. apply newest_id in E. rewrite E in Ep.
  apply (f_equal length) in Ep. rewrite length_app in Ep. apply nil_length_inv. lia.
Qed.

Lemma segments_allowed op a : valid a -> accepted (fun n => protects n = true) op ->
  allowed weight_function op (lossy a) (segments_step op a).1 (lossy (segments_step op a).2).
Proof.
  intros Ha Hop. pose proof (fun k => seen_lossy k a) as Hseen. destruct a as [p r ms mp mc rm]. destruct Ha as (Hn & Hms & Hmp & Hmc & Hfr & Hf).
  cbn [probationary protected segments_size protected_size segments_count] in *.
  destruct op; cbn [segments_step allowed fst snd entries lossy probationary protected segments_size segments_count size_limit count_limit];
    try (split; [done|]; try done; apply Hseen).
  - split; [|done]. eexists. split; [done|]. symmetry. by apply map_to_list_to_map.
  - rewrite map_weight_list, map_size_list_to_map, total_app, length_app, Nat2Z.inj_add by done. done.
  - case_bool_decide as E; [destruct no_memory; [by right|]|]; left; (split; [done|]).
    + pose proof E as E'. rewrite assoc_app in E'. destruct (assoc p !! k) eqn:Ep; [done|]. rewrite <- assoc_added by done. by apply segments_shrink_forgets; [apply insert_keys|..].
    + rewrite <- assoc_promoted. by apply segments_shrink_forgets; [apply promote_keys|..].
  - split; [done|]. unfold lossy. cbn [probationary protected segments_size segments_count]. by rewrite <- without_app, list_to_map_without.
  - split; [done|]. unfold lossy. cbn [probationary protected segments_size segments_count]. by rewrite <- filter_app, filter_map_list.
  - split; [done|]. by apply segments_shrink_forgets.
  - split; [done|]. destruct Hop as [Hn' Hp]. unfold protects in Hp. destruct (calculateMaxProtectedSize n ratio) as [mp'| |]; [|done..].
    apply andb_true_iff in Hp as [Hp1%Z.leb_le Hp2%Z.leb_le]. by apply segments_shrink_forgets.
Qed.

Lemma segments_abstract_state a : MakeLossy (value <$> cells (state_of a)) (max_size_in_bytes (state_of a)) (max_count (state_of a)) = lossy a.
Proof. rewrite cells_state_of, table_values. done. Qed.

Lemma slru_laws_step op s : (exists a, valid a /\ s = state_of a) -> accepted (fun n => protects n = true) op -> Z.of_nat (base.size (value <$> cells s)) < 2 ^ 62 ->
  exists x s', step op s = Ok (x, s') /\ (exists a, valid a /\ s' = state_of a) /\
    allowed weight_function op (MakeLossy (value <$> cells s) (max_size_in_bytes s) (max_count s)) x
      (MakeLossy (value <$> cells s') (max_size_in_bytes s') (max_count s')).
Proof.
  intros (a & Ha & ->) Hop Hb. rewrite map_size_fmap, cells_state_of, table_size in Hb by apply Ha.
  destruct (slru_step_segments op a Ha Hop ltac:(lia)) as (x & E & Hx). eexists x, _. split; [exact E|]. split; [eexists; by split; [apply segments_valid|]|].
  rewrite !segments_abstract_state. eapply allowed_similar; [done|]. by apply segments_allowed.
Qed.

Lemma slru_laws_within s : (exists a, valid a /\ s = state_of a) ->
  within weight_function (MakeLossy (value <$> cells s) (max_size_in_bytes s) (max_count s)) = true.
Proof.
  intros (a & (Hn & _ & _ & _ & _ & Hf) & ->). rewrite segments_abstract_state. unfold within, lossy. cbn [entries size_limit count_limit].
  by rewrite map_weight_list, map_size_list_to_map, total_app, length_app, Nat2Z.inj_add.
Qed.

Lemma slru_laws_metrics s : (exists a, valid a /\ s = state_of a) -> (size_metric s, count_metric s) = (current_size_in_bytes s, cells_size s).
Proof. intros (a & (Hn & _) & ->). unfold state_of. by rewrite cells_state. Qed.

Definition slru_laws : CachePolicyLaws weight_function (fun n => protects n = true) (t Key V) := {|
  invariant s := exists a, valid a /\ s = state_of a;
  abstract s := MakeLossy (value <$> cells s) (max_size_in_bytes s) (max_count s);
  metrics s := (size_metric s, count_metric s);
  law_limits s := conj eq_refl eq_refl;
  law_within := slru_laws_within;
  law_metrics := slru_laws_metrics;
  law_step := slru_laws_step |}.

(** ** Any sequence of operations *)
Lemma slru_run_segments ops a : valid a -> Forall (accepted (fun n => protects n = true)) ops -> blen (probationary a) + blen (protected a) + blen ops <= 2 ^ 62 ->
  let b := (run_spec segments_step ops a).2 in
  valid b /\ blen (probationary b) + blen (protected b) <= blen (probationary a) + blen (protected a) + blen ops /\
  exists answers, run_cache ops (state_of a) = Ok (answers, state_of b) /\ Forall2 similar answers (run_spec segments_step ops a).1.
Proof.
  apply (run_cache_spec (fun n => protects n = true) segments_step state_of valid (fun a => blen (probationary a) + blen (protected a))).
  - clear a. intros op a Ha Hop. pose proof (segments_valid op a Ha Hop) as Ha'. split; [done|].
    pose proof (allowed_size _ _ _ _ _ (segments_allowed op a Ha Hop)) as Hs. unfold lossy in Hs. cbn [entries] in Hs.
    rewrite !map_size_list_to_map, !length_app in Hs by (apply Ha || apply Ha'). lia.
  - intros. by apply slru_step_segments.
Qed.

Lemma new_segments ms mc mp : calculateMaxProtectedSize ms ratio = Ok mp -> new ms mc ratio = Ok (state_of (MakeSegments [] [] ms mp mc [])).
Proof. intros E. unfold new. rewrite E. done. Qed.

Lemma segments_new_valid ms mc mp : moderate ms -> 0 <= mc -> 0 <= mp <= ms -> valid (MakeSegments [] [] ms mp mc []).
Proof. intros Hms Hmc Hmp. unfold valid. cbn. rewrite !fits_true. unfold moderate in *. split_and!; try lia. constructor. Qed.

(** ** A scan

    Keys that are looked for, not found, and put. *)
Definition scan (l : list (Key * option V)) : list (operation Key V) := flat_map (fun '(k, v) => [Get k; Put false k v]) l.

Lemma scan_keeps_protected l a : valid a -> NoDup l.*1 -> (forall k, k ∈ l.*1 -> assoc (probationary a ++ protected a) !! k = None) ->
  protected (run_spec segments_step (scan l) a).2 = protected a.
Proof.
  revert a. induction l as [|[k v] l IH]; intros a Ha Hl Hnew; [done|]. rewrite fmap_cons, NoDup_cons in Hl. destruct Hl as [Hk Hl]. cbn [fst] in Hk.
  pose proof (Hnew k (list_elem_of_here _ _)) as Hka. cbn [scan flat_map app run_spec]. change (flat_map _ l) with (scan l).
  assert (Hseen : (segments_step (Get k) a).2 = a).
  { destruct a as [p r ms mp mc rm]. cbn [segments_step snd seen]. cbn [probationary protected] in Hka. rewrite assoc_app in Hka.
    destruct (assoc p !! k); [done|]. by rewrite Hka. }
  destruct (segments_step (Get k) a) as [x0 a0]. cbn [snd] in Hseen. subst a0.
  pose proof (segments_valid (Put false k v) a Ha I) as Ha'.
  pose proof (segments_allowed (Put false k v) a Ha I) as [[_ (_ & _ & Hsub & _)]|(? & _)]; [|done].
  assert (Hp : protected (segments_step (Put false k v) a).2 = protected a).
  { destruct a as [p r ms mp mc rm]. cbn [segments_step]. cbn [probationary protected] in Hka. rewrite bool_decide_eq_true_2 by done.
    destruct Ha as (_ & _ & _ & _ & Hfr & _). cbn [snd shrink protected protected_size segments_count] in *. by apply newest_id. }
  destruct (segments_step (Put false k v) a) as [x a']. cbn [snd] in *. specialize (IH a' Ha' Hl). destruct (run_spec segments_step (scan l) a') as [xs b].
  cbn [snd] in *. rewrite IH; [done|]. intros j Hj. eapply lookup_weaken_None; [|exact Hsub]. cbn [lossy entries]. rewrite lookup_insert_ne by (intros ->; done).
  apply Hnew. by right.
Qed.

Lemma scan_accepted l : Forall (accepted (fun n => protects n = true)) (scan l).
Proof. unfold scan. induction l as [|[k v] l IH]; cbn; [constructor|]. by repeat constructor. Qed.

Lemma scan_length l : length (scan l) = (2 * length l)%nat.
Proof. unfold scan. induction l as [|[k v] l IH]; [done|]. cbn [flat_map app length]. rewrite IH. lia. Qed.
End slru.
