(* ===== verification/CacheBase.v ===== *)
(** * The cache shared by threads

    [src/Common/CacheBase.h] over any cache policy.

    A method runs under the mutex of the cache, so it is one step of its thread.
    [getOrSet] takes this mutex twice, and the mutex of an insert token while it
    loads the value; it is a sequence of steps between which other threads run.
    The tokens that were ever made are numbered; a number stands for a
    [shared_ptr].  Memory for a token is always there.  An [action] is what a
    thread does next: [LoadReturns] and [LoadThrows] are the results of
    [load_func], and [Insert] may find no memory in the policy. *)

From stdpp Require Import prelude gmap.
From Stdlib Require Import ZArith Lia SpecFloat.
From S2P Require Import Prelude CachePolicy CacheFacts.

Module CacheBase.

(** The policy by its name: "LRU", "SLRU", or nothing for the second. *)
Definition make_policy {Key V} `{Countable Key} (cache_policy_name : bytes) (max_size_in_bytes max_count : Z) (size_ratio : spec_float) :
    outcome (LRUCachePolicy.t Key V + SLRUCachePolicy.t Key V) :=
  let name := if decide (cache_policy_name = []) then [83; 76; 82; 85] else cache_policy_name in
  if decide (name = [76; 82; 85]) then Ok (inl (LRUCachePolicy.new max_size_in_bytes max_count))
  else if decide (name = [83; 76; 82; 85]) then p ← SLRUCachePolicy.new max_size_in_bytes max_count size_ratio; Ok (inr p)
  else Throw BAD_ARGUMENTS.

Section cache.
Context {Key V P : Type} `{Countable Key} {cache_policy_class : CachePolicy Key V P}.

Record InsertToken := MakeToken {
  cleaned_up : bool;
  token_value : option V;
  refcount : Z;
  mutex : option nat }.

(** Where a thread is, and the [InsertTokenHolder] it has: the key, the token and [cleaned_up]. *)
Inductive Thread :=
| Waiting (key : Key) (token : nat)
| Loading (key : Key) (token : nat) (holder_cleaned_up : bool)
| Loaded (key : Key) (token : nat) (holder_cleaned_up : bool)
| Leaving (key : Key) (token : nat) (holder_cleaned_up : bool) (result : outcome (option V * bool))
| Done (key : Key) (result : outcome (option V * bool)).

Record t := Make {
  cache_policy : P;
  hits : Z;
  misses : Z;
  insert_tokens : gmap Key nat;
  tokens : list InsertToken;
  threads : gmap nat Thread }.

Definition new (p : P) : t := Make p 0 0 ∅ [] ∅.

Definition with_policy (p : P) (s : t) : t := Make p (hits s) (misses s) (insert_tokens s) (tokens s) (threads s).
Definition with_thread (tid : nat) (th : Thread) (s : t) : t := Make (cache_policy s) (hits s) (misses s) (insert_tokens s) (tokens s) (<[tid := th]> (threads s)).
Definition with_token (i : nat) (tok : InsertToken) (s : t) : t := Make (cache_policy s) (hits s) (misses s) (insert_tokens s) (<[i := tok]> (tokens s)) (threads s).
Definition with_insert_tokens (m : gmap Key nat) (s : t) : t := Make (cache_policy s) (hits s) (misses s) m (tokens s) (threads s).

(** [++hits] or [++misses]. *)
Definition hit_or_miss (hit : bool) (s : t) : t :=
  Make (cache_policy s) (if hit then wrap 64 (hits s + 1) else hits s) (if hit then misses s else wrap 64 (misses s + 1))
    (insert_tokens s) (tokens s) (threads s).

(** ** The methods under the mutex *)
Definition get (key : Key) (s : t) : outcome (option V * t) :=
  '(res, p) ← CachePolicy.get key (cache_policy s);
  Ok (res, hit_or_miss (bool_decide (is_Some res)) (with_policy p s)).

Definition getWithKey (key : Key) (s : t) : outcome (option (Key * option V) * t) :=
  '(res, p) ← CachePolicy.getWithKey key (cache_policy s);
  Ok (res, hit_or_miss (bool_decide (is_Some res)) (with_policy p s)).

Fixpoint getMany (keys : list Key) (s : t) : outcome (list (option V) * t) :=
  match keys with
  | [] => Ok ([], s)
  | key :: keys =>
    '(res, s) ← get key s;
    '(values, s) ← getMany keys s;
    Ok (res :: values, s)
  end.

Definition getStats (s : t) : Z * Z := (hits s, misses s).

Definition clear (s : t) : t := Make (CachePolicy.clear (cache_policy s)) 0 0 ∅ (tokens s) (threads s).

(** A method other than [getOrSet], [getMany] and [getStats], with its answer. *)
Definition method (op : operation Key V) (s : t) : outcome (answer Key V * t) :=
  match op with
  | Get key => '(v, s) ← get key s; Ok (Value v, s)
  | GetWithKey key => '(e, s) ← getWithKey key s; Ok (Found e, s)
  | Clear => Ok (Nothing, clear s)
  | _ => '(x, p) ← step op (cache_policy s); Ok (x, with_policy p s)
  end.

(** ** getOrSet *)

(** The first part, under the mutex of the cache: the value, or a token that the holder acquires. *)
Definition lookup_or_acquire (tid : nat) (key : Key) (s : t) : outcome t :=
  '(val, p) ← CachePolicy.get key (cache_policy s);
  let s := with_policy p s in
  match val with
  | Some v => Ok (with_thread tid (Done key (Ok (Some v, false))) (hit_or_miss true s))
  | None =>
    match insert_tokens s !! key with
    | Some i =>
      match tokens s !! i with
      | Some tok =>
        Ok (with_thread tid (Waiting key i) (with_token i (MakeToken (cleaned_up tok) (token_value tok) (wrap 64 (refcount tok + 1)) (mutex tok)) s))
      | None => Undef
      end
    | None =>
      let i := length (tokens s) in
      Ok (Make (cache_policy s) (hits s) (misses s) (<[key := i]> (insert_tokens s)) (tokens s ++ [MakeToken false None 1 None]) (<[tid := Waiting key i]> (threads s)))
    end
  end.

(** [InsertTokenHolder::cleanup]. *)
Definition cleanup (key : Key) (i : nat) (tok : InsertToken) (s : t) : t :=
  with_token i (MakeToken true (token_value tok) (refcount tok) (mutex tok)) (with_insert_tokens (delete key (insert_tokens s)) s).

(** The mutex of the token is taken: the value is there, or it is to be loaded. *)
Definition lock_token (tid : nat) (key : Key) (i : nat) (tok : InsertToken) (s : t) : t :=
  match token_value tok with
  | Some v => with_thread tid (Leaving key i (cleaned_up tok) (Ok (Some v, false))) (hit_or_miss true s)
  | None =>
    with_thread tid (Loading key i (cleaned_up tok))
      (with_token i (MakeToken (cleaned_up tok) None (refcount tok) (Some tid)) (hit_or_miss false s))
  end.

Definition unlock (i : nat) (tok : InsertToken) (s : t) : t := with_token i (MakeToken (cleaned_up tok) (token_value tok) (refcount tok) None) s.

(** The second part under both mutexes: the value goes to the cache if the token is still there. *)
Definition insert (tid : nat) (key : Key) (i : nat) (c : bool) (tok : InsertToken) (no_memory : bool) (s : t) : outcome t :=
  let found := bool_decide (insert_tokens s !! key = Some i) in
  '(stored, p) ← if found then CachePolicy.set no_memory key (token_value tok) (cache_policy s) else Ok (true, cache_policy s);
  let s := with_policy p s in
  if negb stored then Ok (with_thread tid (Leaving key i c (Throw STD_EXCEPTION)) (unlock i tok s))
  else
    let result := Ok (token_value tok, found) in
    if negb (cleaned_up tok) then
      let tok' := MakeToken true (token_value tok) (refcount tok) (mutex tok) in
      Ok (with_thread tid (Leaving key i true result) (unlock i tok' (cleanup key i tok s)))
    else Ok (with_thread tid (Leaving key i c result) (unlock i tok s)).

(** The destructor of the holder, when the mutex of the token is free. *)
Definition destroy (tid : nat) (key : Key) (i : nat) (tok : InsertToken) (result : outcome (option V * bool)) (s : t) : t :=
  let s := with_thread tid (Done key result) s in
  if cleaned_up tok then s
  else
    let tok := MakeToken (cleaned_up tok) (token_value tok) (wrap 64 (refcount tok - 1)) (mutex tok) in
    let s := with_token i tok s in
    if refcount tok =? 0 then cleanup key i tok s else s.

Inductive action :=
| Method (op : operation Key V)
| CallGetOrSet (key : Key)
| LockToken
| LoadReturns (v : option V)
| LoadThrows (e : ErrorCode)
| Insert (no_memory : bool)
| Destroy.

(** The thread is in no call of [getOrSet]. *)
Definition idle (tid : nat) (s : t) : bool := match threads s !! tid with None | Some (Done _ _) => true | _ => false end.

(** One step of a thread; [None] if it cannot do this now. *)
Definition exec (tid : nat) (act : action) (s : t) : outcome (option t) :=
  match act with
  | Method op => if idle tid s then '(_, s) ← method op s; Ok (Some s) else Ok None
  | CallGetOrSet key => if idle tid s then s ← lookup_or_acquire tid key s; Ok (Some s) else Ok None
  | LockToken =>
    match threads s !! tid with
    | Some (Waiting key i) =>
      match tokens s !! i with
      | Some tok => match mutex tok with Some _ => Ok None | None => Ok (Some (lock_token tid key i tok s)) end
      | None => Undef
      end
    | _ => Ok None
    end
  | LoadReturns v =>
    match threads s !! tid with
    | Some (Loading key i c) =>
      match tokens s !! i with
      | Some tok => Ok (Some (with_thread tid (Loaded key i c) (with_token i (MakeToken (cleaned_up tok) v (refcount tok) (mutex tok)) s)))
      | None => Undef
      end
    | _ => Ok None
    end
  | LoadThrows e =>
    match threads s !! tid with
    | Some (Loading key i c) =>
      match tokens s !! i with
      | Some tok => Ok (Some (with_thread tid (Leaving key i c (Throw e)) (unlock i tok s)))
      | None => Undef
      end
    | _ => Ok None
    end
  | Insert no_memory =>
    match threads s !! tid with
    | Some (Loaded key i c) =>
      match tokens s !! i with
      | Some tok => s ← insert tid key i c tok no_memory s; Ok (Some s)
      | None => Undef
      end
    | _ => Ok None
    end
  | Destroy =>
    match threads s !! tid with
    | Some (Leaving key i c result) =>
      if c then Ok (Some (with_thread tid (Done key result) s))
      else
        match tokens s !! i with
        | Some tok => match mutex tok with Some _ => Ok None | None => Ok (Some (destroy tid key i tok result s)) end
        | None => Undef
        end
    | _ => Ok None
    end
  end.

(** The threads run in the given order; a step that is not possible is passed over. *)
Fixpoint run_threads (schedule : list (nat * action)) (s : t) : outcome t :=
  match schedule with
  | [] => Ok s
  | (tid, act) :: schedule =>
    s' ← exec tid act s;
    run_threads schedule (default s s')
  end.
End cache.
Arguments t Key V P {_ _}.
Arguments InsertToken : clear implicits.
Arguments Thread : clear implicits.
Arguments action : clear implicits.
End CacheBase.
