(* ===== verification/CacheBaseFacts.v ===== *)
(** * Facts about the cache shared by threads

    The invariant of [getOrSet]: who holds a token, who owns its mutex, and what
    its reference count is; where the values come from; one load at a time. *)

From stdpp Require Import prelude gmap.
From Stdlib Require Import ZArith Lia.
From S2P Require Import Prelude CachePolicy CacheFacts CacheBase.

Import CacheBase.

Section cache.
Context {Key V P : Type} `{Countable Key} {cache_policy_class : CachePolicy Key V P}.
Implicit Types (s : t Key V P) (th : Thread Key V) (tok : InsertToken V) (k : Key) (i : nat).

(** ** Holders of tokens *)
Definition holder th : option (Key * nat * bool) :=
  match th with
  | Waiting k i => Some (k, i, false)
  | Loading k i c | Loaded k i c | Leaving k i c _ => Some (k, i, c)
  | Done _ _ => None
  end.

Definition holds i th : bool := match holder th with Some (_, j, _) => bool_decide (j = i) | None => false end.

Definition owns th : option nat := match th with Loading _ i _ | Loaded _ i _ => Some i | _ => None end.

Definition holders i (m : gmap nat (Thread Key V)) : nat := size (filter (fun e => holds i e.2 = true) m).

(** One for a thread that holds the token. *)
Definition one_if (b : bool) : nat := if b then 1 else 0.

Lemma holders_split tid i (m : gmap nat (Thread Key V)) :
  holders i m = (holders i (delete tid m) + one_if (default false (holds i <$> m !! tid)))%nat.
Proof.
  unfold holders. destruct (m !! tid) as [th|] eqn:E.
  - rewrite <- (insert_delete_id m tid th E) at 1. cbn [fmap option_fmap option_map default]. unfold id. destruct (holds i th) eqn:Eh; cbn [one_if].
    + rewrite map_filter_insert_True by done. rewrite map_size_insert_None; [lia|]. apply map_lookup_filter_None_2. left. apply lookup_delete_eq.
    + rewrite map_filter_insert_False by (cbn; congruence). rewrite delete_delete_eq. lia.
  - rewrite delete_id by done. cbn. lia.
Qed.

Lemma holders_insert tid i th (m : gmap nat (Thread Key V)) :
  (holders i (<[tid := th]> m) + one_if (default false (holds i <$> m !! tid)) = holders i m + one_if (holds i th))%nat.
Proof.
  rewrite (holders_split tid i (<[tid := th]> m)), (holders_split tid i m), delete_insert_eq, lookup_insert_eq. cbn [fmap option_fmap option_map default]. unfold id. lia.
Qed.

Lemma holders_pos i tid th (m : gmap nat (Thread Key V)) : m !! tid = Some th -> holds i th = true -> (0 < holders i m)%nat.
Proof. intros E Hh. rewrite (holders_split tid), E. cbn. rewrite Hh. cbn. lia. Qed.

Lemma holders_exists i (m : gmap nat (Thread Key V)) : (0 < holders i m)%nat -> exists tid th, m !! tid = Some th /\ holds i th = true.
Proof.
  unfold holders. intros Hn. destruct (map_choose (filter (fun e => holds i e.2 = true) m)) as (tid & th & E).
  - intros E. rewrite E, map_size_empty in Hn. lia.
  - apply map_lookup_filter_Some in E. by exists tid, th.
Qed.

Lemma holders_le i (m : gmap nat (Thread Key V)) : (holders i m <= size m)%nat.
Proof. apply map_subseteq_size, map_filter_subseteq. Qed.

Lemma exists_Some {A} (x : A) (Q : A -> Prop) : (exists y, Some x = Some y /\ Q y) <-> Q x.
Proof. split; [by intros (y & [= <-] & Hy)|by exists x]. Qed.

(** ** The invariant

    [keys] are the keys the tokens were made for. *)
Record consistent (keys : list Key) s : Prop := {
  same_length : length keys = length (tokens s);
  registered k i : insert_tokens s !! k = Some i -> keys !! i = Some k /\ exists tok, tokens s !! i = Some tok /\ cleaned_up tok = false;
  held tid th k i c : threads s !! tid = Some th -> holder th = Some (k, i, c) ->
    keys !! i = Some k /\ (c = true -> exists tok, tokens s !! i = Some tok /\ cleaned_up tok = true);
  owned i tok tid : tokens s !! i = Some tok -> mutex tok = Some tid <-> exists th, threads s !! tid = Some th /\ owns th = Some i;
  counted i tok : tokens s !! i = Some tok -> cleaned_up tok = false -> refcount tok = Z.of_nat (holders i (threads s)) /\ 0 < refcount tok;
  not_loaded tid k i c tok : threads s !! tid = Some (Loading k i c) -> tokens s !! i = Some tok -> token_value tok = None }.

(** While no token is forgotten and no value is null: every token that is not cleaned up is registered, and a token that is cleaned up has
    a value or nobody who holds it. *)
Record single (keys : list Key) s : Prop := {
  still_registered i tok k : tokens s !! i = Some tok -> cleaned_up tok = false -> keys !! i = Some k -> insert_tokens s !! k = Some i;
  cleaned_value i tok : tokens s !! i = Some tok -> cleaned_up tok = true -> token_value tok <> None \/ holders i (threads s) = 0%nat;
  loaded_value tid k i c tok : threads s !! tid = Some (Loaded k i c) -> tokens s !! i = Some tok -> token_value tok <> None }.

Lemma owns_holder i th : owns th = Some i -> exists k c, holder th = Some (k, i, c).
Proof. destruct th; cbn; intros [= ->]; by eexists _, _. Qed.

Lemma held_token keys s tid th k i c : consistent keys s -> threads s !! tid = Some th -> holder th = Some (k, i, c) -> exists tok, tokens s !! i = Some tok.
Proof. intros C Et Eh. destruct (held _ _ C _ _ _ _ _ Et Eh) as [Hk _]. apply lookup_lt_is_Some. rewrite <- (same_length _ _ C). by eapply lookup_lt_Some. Qed.

Lemma holds_holder i th k j c : holder th = Some (k, j, c) -> holds i th = bool_decide (j = i).
Proof. unfold holds. by intros ->. Qed.

(** A thread with a token goes on: what may happen to its token, its mutex and the registered tokens. *)
Definition goes_on s (tid : nat) th k i tok th' tok' (m' : gmap Key nat) : Prop :=
  (m' = insert_tokens s /\ cleaned_up tok' = cleaned_up tok \/
   m' = delete k (insert_tokens s) /\ cleaned_up tok = false /\ cleaned_up tok' = true) /\
  match holder th' with Some (k', i', c') => k' = k /\ i' = i /\ (c' = true -> cleaned_up tok' = true) | None => True end /\
  (owns th = None /\ owns th' = None /\ mutex tok' = mutex tok /\ token_value tok' = token_value tok \/
   (mutex tok = None \/ mutex tok = Some tid) /\ mutex tok' = match owns th' with Some _ => Some tid | None => None end /\
   (forall k0 i0 c0, th' = Loading k0 i0 c0 -> token_value tok' = None)) /\
  (cleaned_up tok' = false -> 0 < refcount tok' /\ refcount tok' = refcount tok - (match holder th' with Some _ => 0 | None => 1 end)).

Section update.
Context (keys : list Key) s (C : consistent keys s) (tid : nat) th k i (c : bool) tok th' tok' (m' : gmap Key nat).
Context (Eth : threads s !! tid = Some th) (Eh : holder th = Some (k, i, c)) (Etok : tokens s !! i = Some tok).
Context (G : goes_on s tid th k i tok th' tok' m').

Lemma update_lookup j : <[i := tok']> (tokens s) !! j = if decide (j = i) then Some tok' else tokens s !! j.
Proof.
  case_decide as E; [subst; by apply list_lookup_insert_eq, lookup_lt_Some with tok|by apply list_lookup_insert_ne].
Qed.

Lemma update_cleaned : cleaned_up tok = true -> cleaned_up tok' = true.
Proof. destruct G as ([[_ E]|(_ & _ & E)] & _); congruence. Qed.

Lemma update_owns j : owns th' = Some j -> j = i.
Proof. destruct G as (_ & Hh & _). intros (k' & c' & E)%owns_holder. rewrite E in Hh. apply Hh. Qed.

Lemma update_owns_old j : owns th = Some j -> j = i.
Proof. intros (k' & c' & E)%owns_holder. congruence. Qed.

Lemma update_registered k2 j : m' !! k2 = Some j -> keys !! j = Some k2 /\ exists tok2, <[i := tok']> (tokens s) !! j = Some tok2 /\ cleaned_up tok2 = false.
Proof.
  intros Ej. assert (Hs : insert_tokens s !! k2 = Some j) by (destruct G as ([[-> _]|[-> _]] & _); [done|by apply lookup_delete_Some in Ej as [_ ?]]).
  destruct (registered _ _ C _ _ Hs) as (Hk & tok2 & E2 & Hc2). split; [done|]. rewrite update_lookup. case_decide as E; [subst j|by exists tok2].
  eexists. split; [done|]. assert (tok2 = tok) as -> by congruence. destruct G as ([[-> Ec]|[-> _]] & _); [congruence|].
  apply lookup_delete_Some in Ej as [Hne _]. destruct (held _ _ C _ _ _ _ _ Eth Eh) as [Hki _]. congruence.
Qed.

Lemma update_held tid2 th2 k2 j c2 : <[tid := th']> (threads s) !! tid2 = Some th2 -> holder th2 = Some (k2, j, c2) ->
  keys !! j = Some k2 /\ (c2 = true -> exists tok2, <[i := tok']> (tokens s) !! j = Some tok2 /\ cleaned_up tok2 = true).
Proof.
  intros E2 Eh2. rewrite update_lookup. destruct (held _ _ C _ _ _ _ _ Eth Eh) as [Hk _]. apply lookup_insert_Some in E2 as [[-> <-]|[Hne E2]].
  - destruct G as (_ & Hh & _). rewrite Eh2 in Hh. destruct Hh as (-> & -> & Hc). rewrite decide_True by done. split; [done|]. intros Ec. exists tok'. by split; [|apply Hc].
  - destruct (held _ _ C _ _ _ _ _ E2 Eh2) as [Hk2 Hc2]. split; [done|]. intros (tok2 & Et2 & Hct)%Hc2. case_decide as E; [|by exists tok2].
    subst j. exists tok'. split; [done|]. apply update_cleaned. congruence.
Qed.

Lemma update_owned j tok2 tid2 : <[i := tok']> (tokens s) !! j = Some tok2 ->
  mutex tok2 = Some tid2 <-> exists th2, <[tid := th']> (threads s) !! tid2 = Some th2 /\ owns th2 = Some j.
Proof.
  rewrite update_lookup. case_decide as E.
  - subst j. intros [= <-]. pose proof (owned _ _ C i tok tid2 Etok) as Ho. destruct (decide (tid2 = tid)) as [->|Hne].
    + rewrite lookup_insert_eq. rewrite Eth in Ho. rewrite exists_Some in Ho |- *.
      destruct G as (_ & _ & [(E1 & E2 & E3 & _)|(_ & E2 & _)] & _); [rewrite E3, Ho, E1, E2; done|]. rewrite E2.
      destruct (owns th') as [j|] eqn:Eo; [|done]. by rewrite (update_owns j Eo).
    + rewrite lookup_insert_ne by done. rewrite <- Ho. destruct G as (_ & _ & [(_ & _ & -> & _)|(Hm & E2 & _)] & _); [done|].
      rewrite E2. destruct Hm as [Em|Em]; rewrite Em; destruct (owns th'); split; congruence.
  - intros E2. rewrite (owned _ _ C j tok2 tid2 E2). destruct (decide (tid2 = tid)) as [->|Hne]; [|by rewrite lookup_insert_ne].
    rewrite lookup_insert_eq, Eth. split; intros (th2 & [= <-] & Eo); [apply update_owns_old in Eo|apply update_owns in Eo]; done.
Qed.

Lemma update_holders j : j <> i -> holders j (<[tid := th']> (threads s)) = holders j (threads s).
Proof.
  intros Hne. pose proof (holders_insert tid j th' (threads s)) as Hh. rewrite Eth in Hh. cbn in Hh. rewrite (holds_holder j th _ _ _ Eh), bool_decide_eq_false_2 in Hh by done.
  destruct G as (_ & Hh' & _). assert (Hf : holds j th' = false).
  { unfold holds. destruct (holder th') as [[[k' i'] c']|]; [|done]. destruct Hh' as (_ & -> & _). by apply bool_decide_eq_false. }
  rewrite Hf in Hh. cbn in Hh. lia.
Qed.

Lemma update_counted j tok2 : <[i := tok']> (tokens s) !! j = Some tok2 -> cleaned_up tok2 = false ->
  refcount tok2 = Z.of_nat (holders j (<[tid := th']> (threads s))) /\ 0 < refcount tok2.
Proof.
  rewrite update_lookup. case_decide as E.
  - subst j. intros [= <-] Hc. pose proof G as (Hm & Hh' & _ & Hr). destruct (Hr Hc) as [Hr1 Hr2]. split; [|done].
    assert (Hct : cleaned_up tok = false) by (destruct Hm as [[_ ?]|(_ & _ & ?)]; congruence). destruct (counted _ _ C i tok Etok Hct) as [Hcount _].
    pose proof (holders_insert tid i th' (threads s)) as Hh. rewrite Eth in Hh. cbn in Hh. rewrite (holds_holder i th _ _ _ Eh), bool_decide_eq_true_2 in Hh by done.
    unfold holds in Hh at 1. destruct (holder th') as [[[k' i'] c']|].
    + destruct Hh' as (_ & -> & _). rewrite bool_decide_eq_true_2 in Hh by done. cbn in Hh. lia.
    + cbn in Hh. lia.
  - intros E2 Hc. rewrite update_holders by done. by apply (counted _ _ C).
Qed.

Lemma update_not_loaded tid2 k2 j c2 tok2 : <[tid := th']> (threads s) !! tid2 = Some (Loading k2 j c2) -> <[i := tok']> (tokens s) !! j = Some tok2 -> token_value tok2 = None.
Proof.
  rewrite update_lookup. intros E2 Et2. destruct (decide (tid2 = tid)) as [->|Hne].
  - rewrite lookup_insert_eq in E2. injection E2 as E2. rewrite decide_True in Et2 by (apply update_owns; by rewrite E2). injection Et2 as <-.
    destruct G as (_ & _ & [(_ & Eo & _)|(_ & _ & Hl)] & _); [by rewrite E2 in Eo|by eapply Hl].
  - rewrite lookup_insert_ne in E2 by done. case_decide as E; [|by eapply (not_loaded _ _ C)]. injection Et2 as <-. subst j.
    assert (Hm : mutex tok = Some tid2) by (apply (owned _ _ C i tok tid2 Etok); by eexists).
    destruct G as (_ & _ & [(_ & _ & _ & ->)|([E|E] & _)] & _); [by eapply (not_loaded _ _ C)|congruence|congruence].
Qed.

Lemma consistent_update p h ms : consistent keys (Make p h ms m' (<[i := tok']> (tokens s)) (<[tid := th']> (threads s))).
Proof.
  split; cbn [tokens threads insert_tokens].
  - rewrite length_insert. apply (same_length _ _ C).
  - exact update_registered.
  - exact update_held.
  - exact update_owned.
  - exact update_counted.
  - exact update_not_loaded.
Qed.

(** The thread is among the holders before, and after unless it is done. *)
Lemma update_holders_own : (0 < holders i (threads s))%nat.
Proof. eapply holders_pos; [exact Eth|]. rewrite (holds_holder i th _ _ _ Eh). by apply bool_decide_eq_true. Qed.

Lemma single_update p h ms : single keys s ->
  (cleaned_up tok' = true -> cleaned_up tok = false -> token_value tok' <> None \/ holders i (<[tid := th']> (threads s)) = 0%nat) ->
  (token_value tok <> None -> token_value tok' <> None) -> (forall k0 i0 c0, th' = Loaded k0 i0 c0 -> token_value tok' <> None) ->
  single keys (Make p h ms m' (<[i := tok']> (tokens s)) (<[tid := th']> (threads s))).
Proof.
  intros S Hnew Hsame Hload. destruct (held _ _ C _ _ _ _ _ Eth Eh) as [Hki _]. split; cbn [tokens threads insert_tokens].
  - intros j tok2 k2. rewrite update_lookup. pose proof G as (Hm & _). case_decide as E.
    + subst j. intros [= <-] Hc Hk. destruct Hm as [[-> Ec]|(_ & _ & Ec)]; [|congruence]. apply (still_registered _ _ S i tok); congruence.
    + intros Ej Hc Hk. pose proof (still_registered _ _ S j tok2 k2 Ej Hc Hk) as Hr. destruct Hm as [[-> _]|(-> & Ec & _)]; [done|].
      rewrite lookup_delete_ne; [done|]. intros <-. pose proof (still_registered _ _ S i tok k Etok Ec Hki). congruence.
  - intros j tok2. rewrite update_lookup. case_decide as E.
    + subst j. intros [= <-] Hc. destruct (cleaned_up tok) eqn:Ec; [|by apply Hnew].
      destruct (cleaned_value _ _ S i tok Etok Ec) as [Hv|H0]; [left; by apply Hsame|]. pose proof update_holders_own. lia.
    + intros Ej Hc. rewrite update_holders by done. by apply (cleaned_value _ _ S j tok2).
  - intros tid2 k2 j c2 tok2 E2. rewrite update_lookup. intros Et2. destruct (decide (tid2 = tid)) as [->|Hne].
    + rewrite lookup_insert_eq in E2. injection E2 as E2. rewrite decide_True in Et2 by (apply update_owns; by rewrite E2). injection Et2 as <-. by eapply Hload.
    + rewrite lookup_insert_ne in E2 by done. case_decide as E; [|by eapply (loaded_value _ _ S)]. injection Et2 as <-. subst j.
      apply Hsame. by eapply (loaded_value _ _ S).
Qed.
End update.

(** ** Threads that hold no token *)
Lemma consistent_shrink keys s p h ms m' : consistent keys s -> m' ⊆ insert_tokens s -> consistent keys (Make p h ms m' (tokens s) (threads s)).
Proof.
  intros C Hm. split; cbn [tokens threads insert_tokens]; try apply C.
  intros k i E. apply (registered _ _ C). by eapply lookup_weaken.
Qed.

Lemma consistent_policy keys s p h ms : consistent keys s -> consistent keys (Make p h ms (insert_tokens s) (tokens s) (threads s)).
Proof. intros C. by apply consistent_shrink. Qed.

(** Two threads that load for the same key are one. *)
Lemma loading_registered keys s tid k i c : consistent keys s -> single keys s -> threads s !! tid = Some (Loading k i c) ->
  insert_tokens s !! k = Some i /\ exists tok, tokens s !! i = Some tok /\ mutex tok = Some tid.
Proof.
  intros C S E. destruct (held _ _ C _ _ _ _ _ E eq_refl) as [Hk _]. destruct (held_token _ _ _ _ _ _ _ C E eq_refl) as [tok Etok].
  pose proof (not_loaded _ _ C _ _ _ _ _ E Etok) as Hv. split; [|exists tok; split; [done|]; apply (owned _ _ C i tok tid Etok); by eexists].
  apply (still_registered _ _ S i tok); [done| |done]. destruct (cleaned_up tok) eqn:Ec; [|done].
  destruct (cleaned_value _ _ S i tok Etok Ec) as [?|H0]; [done|]. assert (Hh : holds i (Loading k i c : Thread Key V) = true) by (by apply bool_decide_eq_true).
  pose proof (holders_pos i tid _ _ E Hh). lia.
Qed.

Lemma single_load keys s tid1 tid2 k i1 i2 c1 c2 : consistent keys s -> single keys s ->
  threads s !! tid1 = Some (Loading k i1 c1) -> threads s !! tid2 = Some (Loading k i2 c2) -> tid1 = tid2.
Proof.
  intros C S E1 E2. destruct (loading_registered _ _ _ _ _ _ C S E1) as (R1 & tok1 & T1 & M1). destruct (loading_registered _ _ _ _ _ _ C S E2) as (R2 & tok2 & T2 & M2).
  congruence.
Qed.

Lemma idle_threads tid s : idle tid s = true -> threads s !! tid = None \/ exists k r, threads s !! tid = Some (Done k r).
Proof. unfold idle. destruct (threads s !! tid) as [[]|]; try done; [right; by eexists _, _|by left]. Qed.

Lemma idle_holds tid s i : idle tid s = true -> default false (holds i <$> threads s !! tid) = false.
Proof. intros [E|(k & r & E)]%idle_threads; by rewrite E. Qed.

Lemma idle_owns tid s i : idle tid s = true -> ~ exists th, threads s !! tid = Some th /\ owns th = Some i.
Proof. intros [E|(k & r & E)]%idle_threads (th & E' & Ho); rewrite E in E'; [done|]. by injection E' as <-. Qed.

(** An idle thread gets a state without a mutex: who owns what does not change. *)
Lemma idle_owned keys s tid th' i tok tid2 : consistent keys s -> idle tid s = true -> owns th' = None -> tokens s !! i = Some tok ->
  mutex tok = Some tid2 <-> exists th, <[tid := th']> (threads s) !! tid2 = Some th /\ owns th = Some i.
Proof.
  intros C Hi Ho Ei. rewrite (owned _ _ C i tok tid2 Ei). destruct (decide (tid2 = tid)) as [->|Hne]; [|by rewrite lookup_insert_ne].
  rewrite lookup_insert_eq, exists_Some, Ho. split; [intros Hex; by apply (idle_owns tid s i) in Hex|done].
Qed.

Lemma consistent_done keys s tid k r : consistent keys s -> idle tid s = true -> consistent keys (with_thread tid (Done k r) s).
Proof.
  intros C Hi. split; cbn [with_thread tokens threads insert_tokens]; try apply C.
  - intros tid2 th2 k2 i2 c2 E Eh. apply lookup_insert_Some in E as [[_ <-]|[_ E]]; [done|]. by apply (held _ _ C tid2 th2).
  - intros i tok tid2 Ei. by eapply idle_owned.
  - intros i tok Ei Hc. pose proof (holders_insert tid i (Done k r) (threads s)) as Hh. rewrite idle_holds in Hh by done. cbn in Hh.
    destruct (counted _ _ C i tok Ei Hc). split; [lia|done].
  - intros tid2 k2 i c tok E Ei. apply lookup_insert_Some in E as [[_ ?]|[_ E]]; [done|]. by eapply (not_loaded _ _ C).
Qed.

Lemma consistent_acquire keys s tid k i tok tok' : consistent keys s -> idle tid s = true -> insert_tokens s !! k = Some i -> tokens s !! i = Some tok ->
  tok' = MakeToken (cleaned_up tok) (token_value tok) (refcount tok + 1) (mutex tok) -> consistent keys (with_thread tid (Waiting k i) (with_token i tok' s)).
Proof.
  intros C Hi Ek Ei ->. destruct (registered _ _ C _ _ Ek) as (Hk & tok0 & E0 & Hc0). assert (tok0 = tok) as -> by congruence.
  assert (Hlook : forall j, <[i := MakeToken (cleaned_up tok) (token_value tok) (refcount tok + 1) (mutex tok)]> (tokens s) !! j
    = if decide (j = i) then Some (MakeToken (cleaned_up tok) (token_value tok) (refcount tok + 1) (mutex tok)) else tokens s !! j).
  { intros j. by apply (update_lookup s i tok). }
  split; cbn [with_thread with_token tokens threads insert_tokens].
  - rewrite length_insert. apply (same_length _ _ C).
  - intros k2 j Ej. destruct (registered _ _ C _ _ Ej) as (Hk2 & tok2 & E2 & Hc2). split; [done|]. rewrite Hlook. case_decide; [by eexists|by exists tok2].
  - intros tid2 th2 k2 j c2 E Eh. apply lookup_insert_Some in E as [[_ <-]|[_ E]]; [by injection Eh as <- <- <-|].
    destruct (held _ _ C tid2 th2 _ _ _ E Eh) as [Hk2 Hc2]. split; [done|]. rewrite Hlook. intros (tok2 & E2 & Hct)%Hc2. case_decide; [|by exists tok2].
    subst j. exfalso. congruence.
  - intros j tok2 tid2. rewrite Hlook. case_decide as E; [|intros Ej; by eapply idle_owned]. subst j. intros [= <-]. cbn [mutex]. by eapply idle_owned.
  - intros j tok2. rewrite Hlook. pose proof (holders_insert tid j (Waiting k i) (threads s)) as Hh. rewrite idle_holds in Hh by done. unfold holds in Hh. cbn in Hh.
    destruct (decide (j = i)) as [->|E].
    + intros [= <-] _. cbn [refcount]. rewrite bool_decide_eq_true_2 in Hh by done. destruct (counted _ _ C i tok Ei Hc0). cbn in Hh. lia.
    + intros Ej Hc. rewrite bool_decide_eq_false_2 in Hh by congruence. destruct (counted _ _ C j tok2 Ej Hc). cbn in Hh. lia.
  - intros tid2 k2 j c tok2 E. rewrite Hlook. apply lookup_insert_Some in E as [[_ ?]|[_ E]]; [done|]. case_decide as Ej; [|by eapply (not_loaded _ _ C)].
    subst j. intros [= <-]. by eapply (not_loaded _ _ C _ _ _ _ tok).
Qed.

Lemma consistent_new_token keys s tid k : consistent keys s -> idle tid s = true -> insert_tokens s !! k = None -> let i := length (tokens s) in
  consistent (keys ++ [k]) (Make (cache_policy s) (hits s) (misses s) (<[k := i]> (insert_tokens s)) (tokens s ++ [MakeToken false None 1 None]) (<[tid := Waiting k i]> (threads s))).
Proof.
  intros C Hi Ek i. pose proof (same_length _ _ C) as Hlen.
  assert (Hold : forall j tok, tokens s !! j = Some tok -> (tokens s ++ [MakeToken false None 1 None]) !! j = Some tok) by (intros; by apply lookup_app_l_Some).
  assert (Hkold : forall j k2, keys !! j = Some k2 -> (keys ++ [k]) !! j = Some k2) by (intros; by apply lookup_app_l_Some).
  assert (Hnew : (keys ++ [k]) !! i = Some k) by (unfold i; rewrite <- Hlen; by apply list_lookup_middle).
  assert (Hlook : forall j tok, (tokens s ++ [MakeToken false None 1 None]) !! j = Some tok -> tokens s !! j = Some tok \/ j = i /\ tok = MakeToken false None 1 None).
  { intros j tok [E|[Hj E]]%lookup_app_Some; [by left|right]. apply list_lookup_singleton_Some in E as [E <-]. split; [unfold i; lia|done]. }
  assert (Hfree : forall tid2 th2, threads s !! tid2 = Some th2 -> holds i th2 = false).
  { intros tid2 th2 E. unfold holds. destruct (holder th2) as [[[k2 j] c2]|] eqn:Eh; [|done]. destruct (held _ _ C _ _ _ _ _ E Eh) as [Hk2 _].
    apply lookup_lt_Some in Hk2. apply bool_decide_eq_false. unfold i. lia. }
  assert (Hzero : holders i (threads s) = 0%nat).
  { destruct (holders i (threads s)) eqn:E0; [done|]. destruct (holders_exists i (threads s)) as (tid2 & th2 & E & Eh); [lia|]. by rewrite (Hfree _ _ E) in Eh. }
  split; cbn [tokens threads insert_tokens].
  - rewrite !length_app, Hlen. done.
  - intros k2 j [[-> <-]|[_ E]]%lookup_insert_Some; [split; [done|]; eexists; split; [by apply list_lookup_middle|done]|].
    destruct (registered _ _ C _ _ E) as (Hk2 & tok2 & E2 & Hc2). split; [by apply Hkold|]. exists tok2. by split; [apply Hold|].
  - intros tid2 th2 k2 j c2 E Eh. apply lookup_insert_Some in E as [[_ <-]|[_ E]]; [by injection Eh as <- <- <-|].
    destruct (held _ _ C tid2 th2 _ _ _ E Eh) as [Hk2 Hc2]. split; [by apply Hkold|]. intros (tok2 & E2 & Hct)%Hc2. exists tok2. by split; [apply Hold|].
  - intros j tok tid2 [Ej|[-> ->]]%Hlook; [by eapply idle_owned|]. cbn [mutex]. split; [done|]. intros (th2 & E & Ho).
    apply lookup_insert_Some in E as [[_ <-]|[_ E]]; [done|]. apply owns_holder in Ho as (k2 & c2 & Eh). pose proof (Hfree _ _ E) as Hf.
    rewrite (holds_holder _ _ _ _ _ Eh), bool_decide_eq_true_2 in Hf; done.
  - intros j tok Ej Hc. pose proof (holders_insert tid j (Waiting k i) (threads s)) as Hh. rewrite idle_holds in Hh by done. unfold holds in Hh. cbn in Hh.
    apply Hlook in Ej as [Ej|[-> ->]].
    + rewrite bool_decide_eq_false_2 in Hh by (apply lookup_lt_Some in Ej; unfold i; lia). destruct (counted _ _ C j tok Ej Hc). cbn in Hh. lia.
    + rewrite bool_decide_eq_true_2, Hzero in Hh by done. cbn in *. lia.
  - intros tid2 k2 j c tok E Ej. apply lookup_insert_Some in E as [[_ ?]|[_ E]]; [done|]. apply Hlook in Ej as [Ej|[-> ->]]; [by eapply (not_loaded _ _ C)|done].
Qed.

Lemma idle_holders tid s i th' : idle tid s = true -> holders i (<[tid := th']> (threads s)) = (holders i (threads s) + one_if (holds i th'))%nat.
Proof. intros Hi. pose proof (holders_insert tid i th' (threads s)) as Hh. rewrite idle_holds in Hh by done. cbn in Hh. lia. Qed.

Lemma single_policy keys s p h ms : single keys s -> single keys (Make p h ms (insert_tokens s) (tokens s) (threads s)).
Proof. intros S. split; apply S. Qed.

Lemma single_done keys s tid k r : single keys s -> idle tid s = true -> single keys (with_thread tid (Done k r) s).
Proof.
  intros S Hi. split; cbn [with_thread tokens threads insert_tokens]; try apply S.
  - intros i tok. rewrite idle_holders by done. rewrite Nat.add_0_r. apply S.
  - intros tid2 k2 i c tok E. apply lookup_insert_Some in E as [[_ ?]|[_ E]]; [done|]. by eapply (loaded_value _ _ S).
Qed.

Lemma single_acquire keys s tid k i tok tok' : consistent keys s -> single keys s -> idle tid s = true -> insert_tokens s !! k = Some i -> tokens s !! i = Some tok ->
  tok' = MakeToken (cleaned_up tok) (token_value tok) (refcount tok + 1) (mutex tok) -> single keys (with_thread tid (Waiting k i) (with_token i tok' s)).
Proof.
  intros C S Hi Ek Ei ->. destruct (registered _ _ C _ _ Ek) as (_ & tok0 & E0 & Hc0). assert (tok0 = tok) as -> by congruence.
  split; cbn [with_thread with_token tokens threads insert_tokens].
  - intros j tok2 k2. rewrite (update_lookup s i tok) by done. case_decide as E; [subst j; intros [= <-] Hc Hk; by apply (still_registered _ _ S i tok)|apply S].
  - intros j tok2. rewrite (update_lookup s i tok) by done. case_decide as E; [subst j; intros [= <-]; cbn; congruence|].
    rewrite idle_holders by done. unfold holds. cbn. rewrite bool_decide_eq_false_2, Nat.add_0_r by congruence. apply S.
  - intros tid2 k2 j c tok2 E. rewrite (update_lookup s i tok) by done. apply lookup_insert_Some in E as [[_ ?]|[_ E]]; [done|].
    case_decide as Ej; [|by eapply (loaded_value _ _ S)]. subst j. intros [= <-]. by eapply (loaded_value _ _ S _ _ _ _ tok).
Qed.

Lemma single_new_token keys s tid k : consistent keys s -> single keys s -> idle tid s = true -> insert_tokens s !! k = None -> let i := length (tokens s) in
  single (keys ++ [k]) (Make (cache_policy s) (hits s) (misses s) (<[k := i]> (insert_tokens s)) (tokens s ++ [MakeToken false None 1 None]) (<[tid := Waiting k i]> (threads s))).
Proof.
  intros C S Hi Ek i. pose proof (same_length _ _ C) as Hlen.
  assert (Hlook : forall j tok, (tokens s ++ [MakeToken false None 1 None]) !! j = Some tok -> tokens s !! j = Some tok /\ j <> i \/ j = i /\ tok = MakeToken false None 1 None).
  { intros j tok [E|[Hj E]]%lookup_app_Some; [left; split; [done|]; apply lookup_lt_Some in E; unfold i; lia|right].
    apply list_lookup_singleton_Some in E as [E <-]. split; [unfold i; lia|done]. }
  split; cbn [tokens threads insert_tokens].
  - intros j tok k2 [[Ej Hj]|[-> ->]]%Hlook Hc Hk.
    + rewrite lookup_app_l in Hk by (rewrite Hlen; by eapply lookup_lt_Some). pose proof (still_registered _ _ S j tok k2 Ej Hc Hk) as Hr.
      rewrite lookup_insert_ne; [done|]. intros <-. congruence.
    + unfold i in Hk. rewrite <- Hlen, list_lookup_middle in Hk by done. injection Hk as ->. apply lookup_insert_eq.
  - intros j tok [[Ej Hj]|[-> ->]]%Hlook Hc; [|done]. rewrite idle_holders by done. unfold holds. cbn. rewrite bool_decide_eq_false_2, Nat.add_0_r by congruence. by apply S.
  - intros tid2 k2 j c tok E. apply lookup_insert_Some in E as [[_ ?]|[_ E]]; [done|]. intros [[Ej Hj]|[-> ->]]%Hlook; [by eapply (loaded_value _ _ S)|].
    destruct (held _ _ C _ _ _ _ _ E eq_refl) as [Hk _]. apply lookup_lt_Some in Hk. unfold i in Hk. lia.
Qed.

(** ** Where the values come from *)
Definition result_of th : option (Key * V) :=
  match th with
  | Leaving k _ _ (Ok (Some v, _)) | Done k (Ok (Some v, _)) => Some (k, v)
  | _ => None
  end.

(** The values of the log [made]. *)
Record known (keys : list Key) (made : list (Key * V)) s : Prop := {
  known_tokens i tok k v : tokens s !! i = Some tok -> token_value tok = Some v -> keys !! i = Some k -> (k, v) ∈ made;
  known_results tid th k v : threads s !! tid = Some th -> result_of th = Some (k, v) -> (k, v) ∈ made }.

Lemma known_update keys made made' s tid th k i c tok th' tok' p h ms m' :
  consistent keys s -> known keys made s -> made ⊆ made' -> threads s !! tid = Some th -> holder th = Some (k, i, c) -> tokens s !! i = Some tok ->
  (forall v, token_value tok' = Some v -> (k, v) ∈ made') -> (forall k' v, result_of th' = Some (k', v) -> (k', v) ∈ made') ->
  known keys made' (Make p h ms m' (<[i := tok']> (tokens s)) (<[tid := th']> (threads s))).
Proof.
  intros C K Hm Eth Eh Etok Htok Hres. destruct (held _ _ C _ _ _ _ _ Eth Eh) as [Hki _]. split; cbn [tokens threads].
  - intros j tok2 k2 v. rewrite (update_lookup s i tok) by done. case_decide as E.
    + subst j. intros [= <-] Hv Hk. assert (k2 = k) as -> by congruence. by apply Htok.
    + intros Ej Hv Hk. apply Hm. by eapply (known_tokens _ _ _ K).
  - intros tid2 th2 k2 v E Hr. apply lookup_insert_Some in E as [[_ <-]|[_ E]]; [by apply Hres|]. apply Hm. by eapply (known_results _ _ _ K).
Qed.

Lemma known_more keys made made' s : known keys made s -> made ⊆ made' -> known keys made' s.
Proof. intros K Hm. split; intros; apply Hm; [by eapply (known_tokens _ _ _ K)|by eapply (known_results _ _ _ K)]. Qed.

Lemma known_thread keys made s tid th' : known keys made s -> (forall k v, result_of th' = Some (k, v) -> (k, v) ∈ made) -> known keys made (with_thread tid th' s).
Proof.
  intros K Hres. split; cbn [with_thread tokens threads]; [apply K|]. intros tid2 th2 k v E Hr.
  apply lookup_insert_Some in E as [[_ <-]|[_ E]]; [by apply Hres|by eapply (known_results _ _ _ K)].
Qed.

Lemma known_acquire keys made s tid k i tok (n : Z) : known keys made s -> tokens s !! i = Some tok ->
  known keys made (with_thread tid (Waiting k i) (with_token i (MakeToken (cleaned_up tok) (token_value tok) n (mutex tok)) s)).
Proof.
  intros K Ei. apply known_thread; [|done]. split; cbn [with_token tokens threads]; [|apply K]. intros j tok2 k2 v.
  rewrite (update_lookup s i tok) by done. case_decide as E; [subst j; intros [= <-]; cbn; by eapply (known_tokens _ _ _ K)|apply K].
Qed.

Lemma known_new_token keys made s tid k : consistent keys s -> known keys made s -> let i := length (tokens s) in
  known (keys ++ [k]) made (Make (cache_policy s) (hits s) (misses s) (<[k := i]> (insert_tokens s)) (tokens s ++ [MakeToken false None 1 None]) (<[tid := Waiting k i]> (threads s))).
Proof.
  intros C K i. split; cbn [tokens threads].
  - intros j tok k2 v [E|[Hj E]]%lookup_app_Some Hv Hk; [|by apply list_lookup_singleton_Some in E as [_ <-]].
    rewrite lookup_app_l in Hk by (rewrite (same_length _ _ C); by eapply lookup_lt_Some). by eapply (known_tokens _ _ _ K).
  - intros tid2 th2 k2 v E Hr. apply lookup_insert_Some in E as [[_ <-]|[_ E]]; [done|by eapply (known_results _ _ _ K)].
Qed.

(** ** The policy behind its promises *)
Section laws.
Context (weight_function : V -> Z) (size_accepted : Z -> Prop) {laws : CachePolicyLaws weight_function size_accepted P}.

Definition policy_good (made : list (Key * V)) (n : Z) (p : P) : Prop :=
  invariant p /\ Z.of_nat (size (entries (abstract p))) <= n /\ forall k v, entries (abstract p) !! k = Some (Some v) -> (k, v) ∈ made.

(** What an operation puts into the cache. *)
Definition put_by (op : operation Key V) : list (Key * V) := match op with Put _ k (Some v) => [(k, v)] | _ => [] end.

Lemma written_values (m : gmap Key (option V)) op x k v : write m op x !! k = Some (Some v) -> m !! k = Some (Some v) \/ (k, v) ∈ put_by op.
Proof.
  destruct op; cbn [write put_by]; try (by left).
  - destruct x; try (by left). destruct b; [|by left]. intros [[-> ->]|[_ E]]%lookup_insert_Some; [right; by left|by left].
  - intros [_ E]%lookup_delete_Some. by left.
  - intros [E _]%map_lookup_filter_Some. by left.
Qed.

Lemma policy_step made n p op : policy_good made n p -> accepted size_accepted op -> n < 2 ^ 62 ->
  exists x p', step op p = Ok (x, p') /\ allowed weight_function op (abstract p) x (abstract p') /\ policy_good (made ++ put_by op) (n + 1) p'.
Proof.
  intros (Hi & Hs & Hv) Hop Hn. destruct (law_step op p Hi Hop ltac:(lia)) as (x & p' & E & Hi' & Ha). exists x, p'. split; [done|]. split; [done|]. split_and!; [done|..].
  - pose proof (allowed_size _ _ _ _ _ Ha). lia.
  - intros k v Ek. pose proof (lookup_weaken _ _ _ _ Ek (allowed_write weight_function op _ _ _ (entries (abstract p)) Ha ltac:(done))) as Ek'.
    apply elem_of_app. apply written_values in Ek' as [Ek'|]; [left; by apply Hv|by right].
Qed.

Lemma policy_more made made' n n' p : policy_good made n p -> made ⊆ made' -> n <= n' -> policy_good made' n' p.
Proof. intros (Hi & Hs & Hv) Hm Hn. split_and!; [done|lia|]. intros k v E. by apply Hm, Hv. Qed.

Lemma policy_get made n p k : policy_good made n p -> n < 2 ^ 62 ->
  exists res p', CachePolicy.get k p = Ok (res, p') /\ policy_good made (n + 1) p' /\ forall v, res = Some v -> (k, v) ∈ made.
Proof.
  intros Hp Hn. destruct (policy_step made n p (Get k) Hp I Hn) as (x & p' & E & [-> _] & Hp'). cbn [step put_by] in E, Hp'. rewrite app_nil_r in Hp'.
  destruct (CachePolicy.get k p) as [[res q]| |]; [|done..]. injection E as -> ->. exists (mjoin (entries (abstract p) !! k)), p'. split_and!; [done..|].
  intros v Ev. destruct Hp as (_ & _ & Hv). apply Hv. destruct (entries (abstract p) !! k) as [o|]; [|done]. cbn in Ev. by rewrite Ev.
Qed.

Lemma policy_set made n p no_memory k o : policy_good made n p -> n < 2 ^ 62 -> (forall v, o = Some v -> (k, v) ∈ made) ->
  exists b p', CachePolicy.set no_memory k o p = Ok (b, p') /\ policy_good made (n + 1) p'.
Proof.
  intros Hp Hn Hv. destruct (policy_step made n p (Put no_memory k o) Hp I Hn) as (x & p' & E & _ & Hp'). cbn [step] in E.
  destruct (CachePolicy.set no_memory k o p) as [[b q]| |]; [|done..]. injection E as _ ->. exists b, p'. split; [done|].
  eapply policy_more; [exact Hp'| |lia]. intros [k' v']. rewrite elem_of_app. intros [Hin|Hin]; [done|]. cbn in Hin. destruct o as [v|]; [|by apply not_elem_of_nil in Hin].
  apply list_elem_of_singleton in Hin. injection Hin as -> ->. by apply Hv.
Qed.
End laws.
End cache.
