(* ===== verification/CacheBaseRuns.v ===== *)
(** * Runs of threads on a shared cache

    Each step of a thread keeps the invariant; what follows for any schedule. *)

From stdpp Require Import prelude gmap.
From Stdlib Require Import ZArith Lia.
From S2P Require Import Prelude CachePolicy CacheFacts CacheBase CacheBaseFacts.

Import CacheBase.

Section cache.
Context {Key V P : Type} `{Countable Key} {cache_policy_class : CachePolicy Key V P}.
Context (weight_function : V -> Z) (size_accepted : Z -> Prop) {laws : CachePolicyLaws weight_function size_accepted P}.
Implicit Types (s : t Key V P) (th : Thread Key V) (tok : InsertToken V) (k : Key) (i tid : nat) (made : list (Key * V)) (n : Z).
Abbreviation policy_good := (CacheBaseFacts.policy_good weight_function size_accepted).

Record good (keys : list Key) made n s : Prop := {
  good_consistent : consistent keys s;
  good_policy : policy_good made n (cache_policy s);
  good_known : known keys made s;
  good_threads : Z.of_nat (size (threads s)) <= n }.

(** The values that [load_func] returns and that are put. *)
Definition made_by tid (act : action Key V) s : list (Key * V) :=
  match act with
  | Method op => if idle tid s then put_by op else []
  | LoadReturns (Some v) => match threads s !! tid with Some (Loading k _ _) => [(k, v)] | _ => [] end
  | _ => []
  end.

(** The cache is not cleared, and no loaded value is null. *)
Definition tame (act : action Key V) : bool := match act with Method Clear | LoadReturns None => false | _ => true end.

Definition acceptable (act : action Key V) : Prop := match act with Method op => accepted size_accepted op | _ => True end.

Definition advances (keys : list Key) made n tid (act : action Key V) s : Prop :=
  exists (r : option (t Key V P)) keys', exec tid act s = Ok r /\ good keys' (made ++ made_by tid act s) (n + 1) (default s r) /\
    (single keys s -> tame act = true -> single keys' (default s r)).

Lemma good_more keys made made' n n' s : good keys made n s -> made ⊆ made' -> n <= n' -> good keys made' n' s.
Proof.
  intros G Hm Hn. split; [apply G|eapply policy_more; [apply G|done..]|eapply known_more; [apply G|done]|]. pose proof (good_threads _ _ _ _ G). lia.
Qed.

Lemma made_more made made' : made ⊆ made ++ made'.
Proof. intros x Hx. apply elem_of_app. by left. Qed.

Lemma stays keys made n tid act s : good keys made n s -> exec tid act s = Ok None -> advances keys made n tid act s.
Proof. intros G E. exists None, keys. split; [done|]. cbn. split; [|done]. eapply good_more; [done|apply made_more|lia]. Qed.

Lemma threads_size tid th (m : gmap nat (Thread Key V)) : (size (<[tid := th]> m) <= S (size m))%nat.
Proof. rewrite map_size_insert. destruct (m !! tid); unfold id; lia. Qed.

(** ** The methods *)
Lemma method_good keys made n op s : good keys made n s -> accepted size_accepted op -> n < 2 ^ 62 ->
  exists x p' h ms, method op s = Ok (x, Make p' h ms (match op with Clear => ∅ | _ => insert_tokens s end) (tokens s) (threads s)) /\
    policy_good (made ++ put_by op) (n + 1) p'.
Proof.
  intros G Hop Hn. destruct (policy_step weight_function size_accepted made n (cache_policy s) op (good_policy _ _ _ _ G) Hop Hn) as (x & p' & E & _ & Hp').
  destruct op; cbn [method step] in *; try (rewrite E; run; by eexists _, _, _, _).
  - unfold get. destruct (CachePolicy.get k (cache_policy s)) as [[res q]| |]; [|done..]. injection E as <- ->. run. by eexists _, _, _, _.
  - unfold getWithKey. destruct (CachePolicy.getWithKey k (cache_policy s)) as [[res q]| |]; [|done..]. injection E as <- ->. run. by eexists _, _, _, _.
  - injection E as <- <-. by eexists _, _, _, _.
Qed.

Lemma method_advances keys made n tid op s : good keys made n s -> accepted size_accepted op -> n < 2 ^ 62 -> advances keys made n tid (Method op) s.
Proof.
  intros G Hop Hn. destruct (idle tid s) eqn:Ei; [|apply stays; [done|]; cbn; by rewrite Ei].
  destruct (method_good keys made n op s G Hop Hn) as (x & p' & h & ms & E & Hp'). eexists _, keys. cbn [exec made_by]. rewrite Ei, E. run. split; [done|].
  cbn [default]. unfold id. split.
  - split; cbn [cache_policy threads]; [|done| |].
    + apply consistent_shrink; [apply G|]. destruct op; try done. apply map_empty_subseteq.
    + eapply known_more; [|apply made_more]. pose proof (good_known _ _ _ _ G) as K. split; apply K.
    + pose proof (good_threads _ _ _ _ G). lia.
  - intros S Ht. destruct op; try discriminate Ht; by apply single_policy.
Qed.

(** ** The first part of [getOrSet] *)
Lemma call_advances keys made n tid k s : good keys made n s -> n < 2 ^ 62 -> advances keys made n tid (CallGetOrSet k) s.
Proof.
  intros G Hn. destruct (idle tid s) eqn:Ei; [|apply stays; [done|]; cbn; by rewrite Ei].
  destruct (policy_get weight_function size_accepted made n (cache_policy s) k (good_policy _ _ _ _ G) Hn) as (res & p' & E & Hp' & Hres).
  pose proof (good_consistent _ _ _ _ G) as C. pose proof (good_known _ _ _ _ G) as K. pose proof (good_threads _ _ _ _ G) as T.
  unfold advances. cbn [exec made_by]. rewrite Ei, app_nil_r. unfold lookup_or_acquire. rewrite E. run. destruct res as [v|].
  - eexists _, keys. split; [done|]. cbn [default]. unfold id. split.
    + split; cbn [with_thread hit_or_miss with_policy cache_policy threads]; [|done| |pose proof (threads_size tid (Done k (Ok (Some v, false))) (threads s)); lia].
      * apply (consistent_done keys (hit_or_miss true (with_policy p' s))); [|done]. by apply (consistent_policy keys s).
      * apply (known_thread keys made (hit_or_miss true (with_policy p' s))); [split; apply K|]. intros k' v' E'. cbn in E'. injection E' as <- <-. by apply Hres.
    + intros S _. apply (single_done keys (hit_or_miss true (with_policy p' s))); [by apply (single_policy keys s)|done].
  - cbn [with_policy insert_tokens tokens]. destruct (insert_tokens s !! k) as [i|] eqn:Ek.
    + destruct (registered _ _ C _ _ Ek) as (Hk & tok & Et & Hc). rewrite Et. eexists _, keys. split; [done|]. cbn [default]. unfold id.
      destruct (counted _ _ C i tok Et Hc) as [Hcount Hpos]. pose proof (holders_le i (threads s)) as Hle.
      assert (Ew : wrap 64 (refcount tok + 1) = refcount tok + 1) by (apply wrap_id; unfold uint; lia). rewrite Ew. split.
      * split; cbn [with_thread with_token with_policy cache_policy threads]; [|done| |pose proof (threads_size tid (Waiting k i) (threads s)); lia].
        -- eapply (consistent_acquire keys (with_policy p' s)); [by apply (consistent_policy keys s)|done..].
        -- apply (known_acquire keys made (with_policy p' s)); [split; apply K|done].
      * intros S _. eapply (single_acquire keys (with_policy p' s)); [by apply (consistent_policy keys s)|by apply (single_policy keys s)|done..].
    + eexists _, (keys ++ [k]). split; [done|]. cbn [default]. unfold id. split.
      * split; cbn [with_policy cache_policy threads]; [|done| |pose proof (threads_size tid (Waiting k (length (tokens s))) (threads s)); lia].
        -- apply (consistent_new_token keys (with_policy p' s)); [by apply (consistent_policy keys s)|done..].
        -- apply (known_new_token keys made (with_policy p' s)); [by apply (consistent_policy keys s)|split; apply K].
      * intros S _. apply (single_new_token keys (with_policy p' s)); [by apply (consistent_policy keys s)|by apply (single_policy keys s)|done..].
Qed.

(** ** The steps with a token *)
Section with_token.
Context (keys : list Key) made n s (G : good keys made n s) tid th k i (c : bool) tok.
Context (Eth : threads s !! tid = Some th) (Eh : holder th = Some (k, i, c)) (Etok : tokens s !! i = Some tok).

Lemma good_update made' p h ms th' tok' m' :
  goes_on s tid th k i tok th' tok' m' -> made ⊆ made' -> policy_good made' (n + 1) p -> (forall v, token_value tok' = Some v -> (k, v) ∈ made') ->
  (forall k' v, result_of th' = Some (k', v) -> (k', v) ∈ made') ->
  good keys made' (n + 1) (Make p h ms m' (<[i := tok']> (tokens s)) (<[tid := th']> (threads s))).
Proof.
  intros Hg Hm Hp Hv Hr. split; cbn [cache_policy threads].
  - eapply consistent_update; [apply G|done..].
  - done.
  - eapply known_update; [apply G|apply G|done..].
  - pose proof (good_threads _ _ _ _ G). pose proof (threads_size tid th' (threads s)). lia.
Qed.

Lemma token_known v : token_value tok = Some v -> (k, v) ∈ made.
Proof. intros Hv. eapply (known_tokens _ _ _ (good_known _ _ _ _ G)); [done..|]. by apply (held _ _ (good_consistent _ _ _ _ G) tid th k i c). Qed.

Lemma policy_later made' : made ⊆ made' -> policy_good made' (n + 1) (cache_policy s).
Proof. intros Hm. eapply policy_more; [apply G|done|lia]. Qed.

(** The reference count of a token that is not cleaned up. *)
Lemma token_counted : cleaned_up tok = false -> refcount tok = Z.of_nat (holders i (threads s)) /\ 0 < refcount tok <= n.
Proof.
  intros Hc. destruct (counted _ _ (good_consistent _ _ _ _ G) i tok Etok Hc) as [E1 E2]. pose proof (holders_le i (threads s)). pose proof (good_threads _ _ _ _ G). lia.
Qed.
End with_token.

Lemma lock_advances keys made n tid s : good keys made n s -> advances keys made n tid LockToken s.
Proof.
  intros G. pose proof (good_consistent _ _ _ _ G) as C. destruct (threads s !! tid) as [th|] eqn:Eth; [|apply stays; [done|]; cbn; by rewrite Eth].
  destruct th as [k i|k i c|k i c|k i c r|k r]; try (apply stays; [done|]; cbn; by rewrite Eth).
  destruct (held_token _ _ _ _ _ _ _ C Eth eq_refl) as [tok Etok]. destruct (mutex tok) eqn:Em; [apply stays; [done|]; cbn; by rewrite Eth, Etok, Em|].
  unfold advances. cbn [exec made_by]. rewrite Eth, Etok, Em, app_nil_r. eexists _, keys. split; [done|]. cbn [default]. unfold id, lock_token.
  destruct (token_value tok) as [v|] eqn:Ev.
  - pose (th' := Leaving k i (cleaned_up tok) (Ok (Some v, false)) : Thread Key V).
    assert (Hg : goes_on s tid (Waiting k i) k i tok th' tok (insert_tokens s)).
    { split; [by left|]. split; [by cbn|]. split; [by left|]. intros Hc. destruct (token_counted _ _ _ _ G i tok Etok Hc) as [_ ?]. cbn. lia. }
    assert (Es : with_thread tid th' (hit_or_miss true s) = Make (cache_policy s) (wrap 64 (hits s + 1)) (misses s) (insert_tokens s) (<[i := tok]> (tokens s)) (<[tid := th']> (threads s))).
    { unfold with_thread, hit_or_miss. cbn. by rewrite list_insert_id. }
    fold th'. rewrite Es. pose proof (token_known _ _ _ _ G _ _ _ _ _ tok Eth eq_refl Etok) as Hk. split.
    + eapply good_update; try done; [exact (policy_later keys made n s G made ltac:(done))|]. intros k' v' E'. cbn in E'. injection E' as <- <-. by apply Hk.
    + intros S _. eapply single_update; try done. congruence.
  - set (th' := Loading k i (cleaned_up tok)). set (tok' := MakeToken (cleaned_up tok) None (refcount tok) (Some tid)).
    assert (Hg : goes_on s tid (Waiting k i) k i tok th' tok' (insert_tokens s)).
    { split; [by left|]. split; [by cbn|]. split; [right; split; [by left|by split]|]. intros Hc. destruct (token_counted _ _ _ _ G i tok Etok Hc) as [_ ?]. cbn. lia. }
    split.
    + apply (good_update keys made n s G tid (Waiting k i) k i false tok Eth eq_refl Etok); try done. exact (policy_later keys made n s G made ltac:(done)).
    + intros S _. apply (single_update keys s C tid (Waiting k i) k i false tok th' tok' (insert_tokens s) Eth eq_refl Etok Hg); try done; cbn; congruence.
Qed.

Lemma returns_advances keys made n tid v s : good keys made n s -> advances keys made n tid (LoadReturns v) s.
Proof.
  intros G. pose proof (good_consistent _ _ _ _ G) as C. destruct (threads s !! tid) as [th|] eqn:Eth; [|apply stays; [done|]; cbn; by rewrite Eth].
  destruct th as [k i|k i c|k i c|k i c r|k r]; try (apply stays; [done|]; cbn; by rewrite Eth).
  destruct (held_token _ _ _ _ _ _ _ C Eth eq_refl) as [tok Etok]. unfold advances. cbn [exec made_by]. rewrite Eth, Etok. eexists _, keys. split; [done|].
  cbn [default]. unfold id. set (th' := Loaded k i c). set (tok' := MakeToken (cleaned_up tok) v (refcount tok) (mutex tok)).
  assert (Em : mutex tok = Some tid) by (apply (owned _ _ C i tok tid Etok); by eexists).
  assert (Hg : goes_on s tid (Loading k i c) k i tok th' tok' (insert_tokens s)).
  { split; [by left|]. split; [cbn; split_and!; try done; intros Hc; destruct (held _ _ C _ _ _ _ _ Eth eq_refl) as [_ Hcl]; destruct (Hcl Hc) as (tok0 & ? & ?); congruence|].
    split; [right; split; [by right|by split]|]. intros Hc. destruct (token_counted _ _ _ _ G i tok Etok Hc) as [_ ?]. cbn. lia. }
  split.
  - apply (good_update keys made n s G tid (Loading k i c) k i c tok Eth eq_refl Etok); try done; [apply made_more|exact (policy_later keys made n s G _ (made_more _ _))|].
    intros v0 E0. cbn in E0. subst v. apply elem_of_app. right. by left.
  - intros S Ht. destruct v as [v|]; [|done]. apply (single_update keys s C tid (Loading k i c) k i c tok th' tok' (insert_tokens s) Eth eq_refl Etok Hg); try done; cbn; congruence.
Qed.

Lemma throws_advances keys made n tid e s : good keys made n s -> advances keys made n tid (LoadThrows e) s.
Proof.
  intros G. pose proof (good_consistent _ _ _ _ G) as C. destruct (threads s !! tid) as [th|] eqn:Eth; [|apply stays; [done|]; cbn; by rewrite Eth].
  destruct th as [k i|k i c|k i c|k i c r|k r]; try (apply stays; [done|]; cbn; by rewrite Eth).
  destruct (held_token _ _ _ _ _ _ _ C Eth eq_refl) as [tok Etok]. unfold advances. cbn [exec made_by]. rewrite Eth, Etok, app_nil_r. eexists _, keys. split; [done|].
  cbn [default]. unfold id. set (th' := Leaving k i c (Throw e) : Thread Key V). set (tok' := MakeToken (cleaned_up tok) (token_value tok) (refcount tok) None).
  assert (Em : mutex tok = Some tid) by (apply (owned _ _ C i tok tid Etok); by eexists).
  assert (Hg : goes_on s tid (Loading k i c) k i tok th' tok' (insert_tokens s)).
  { split; [by left|]. split; [cbn; split_and!; try done; intros Hc; destruct (held _ _ C _ _ _ _ _ Eth eq_refl) as [_ Hcl]; destruct (Hcl Hc) as (tok0 & ? & ?); congruence|].
    split; [right; split; [by right|by split]|]. intros Hc. destruct (token_counted _ _ _ _ G i tok Etok Hc) as [_ ?]. cbn. lia. }
  split.
  - apply (good_update keys made n s G tid (Loading k i c) k i c tok Eth eq_refl Etok); try done; [exact (policy_later keys made n s G made ltac:(done))|].
    cbn. apply (token_known _ _ _ _ G _ _ _ _ _ tok Eth eq_refl Etok).
  - intros S Ht. apply (single_update keys s C tid (Loading k i c) k i c tok th' tok' (insert_tokens s) Eth eq_refl Etok Hg); try done; cbn; congruence.
Qed.

(** The last part of a load, whatever the policy has become. *)
Lemma inserted keys made n tid k i c tok s p (stored found : bool) : good keys made n s -> threads s !! tid = Some (Loaded k i c) -> tokens s !! i = Some tok ->
  policy_good made (n + 1) p ->
  let s1 := with_policy p s in
  let r : outcome (option V * bool) := Ok (token_value tok, found) in
  let s' := if negb stored then with_thread tid (Leaving k i c (Throw STD_EXCEPTION)) (unlock i tok s1)
    else if negb (cleaned_up tok) then
      with_thread tid (Leaving k i true r) (unlock i (MakeToken true (token_value tok) (refcount tok) (mutex tok)) (cleanup k i tok s1))
    else with_thread tid (Leaving k i c r) (unlock i tok s1) in
  good keys made (n + 1) s' /\ (single keys s -> single keys s').
Proof.
  intros G Eth Etok Hp s1 r s'. pose proof (good_consistent _ _ _ _ G) as C.
  assert (Em : mutex tok = Some tid) by (apply (owned _ _ C i tok tid Etok); by eexists).
  pose proof (token_known _ _ _ _ G _ _ _ _ _ tok Eth eq_refl Etok) as Hk.
  assert (Hcc : c = true -> cleaned_up tok = true).
  { intros Hc. destruct (held _ _ C _ _ _ _ _ Eth eq_refl) as [_ Hcl]. destruct (Hcl Hc) as (tok0 & ? & ?). congruence. }
  assert (Hkeep : forall r', (forall k' v, result_of (Leaving k i c r') = Some (k', v) -> (k', v) ∈ made) ->
    let s2 := with_thread tid (Leaving k i c r') (unlock i tok s1) in good keys made (n + 1) s2 /\ (single keys s -> single keys s2)).
  { intros r' Hr. set (tok' := MakeToken (cleaned_up tok) (token_value tok) (refcount tok) None).
    assert (Hg : goes_on s tid (Loaded k i c) k i tok (Leaving k i c r') tok' (insert_tokens s)).
    { split; [by left|]. split; [by cbn|]. split; [right; split; [by right|by split]|]. intros Hc. destruct (token_counted _ _ _ _ G i tok Etok Hc) as [_ ?]. cbn. lia. }
    split; [by apply (good_update keys made n s G tid (Loaded k i c) k i c tok Eth eq_refl Etok)|].
    intros S. apply (single_update keys s C tid (Loaded k i c) k i c tok _ tok' (insert_tokens s) Eth eq_refl Etok Hg); try done; cbn; congruence. }
  unfold s'. destruct stored; cbn [negb]; [|by apply Hkeep]. destruct (cleaned_up tok) eqn:Ec; cbn [negb].
  - apply Hkeep. intros k' v E'. cbn in E'. destruct (token_value tok) as [v0|]; [|done]. injection E' as <- <-. by apply Hk.
  - set (tok' := MakeToken true (token_value tok) (refcount tok) None).
    assert (Es : with_thread tid (Leaving k i true r) (unlock i (MakeToken true (token_value tok) (refcount tok) (mutex tok)) (cleanup k i tok s1))
      = Make p (hits s) (misses s) (delete k (insert_tokens s)) (<[i := tok']> (tokens s)) (<[tid := Leaving k i true r]> (threads s))).
    { unfold with_thread, unlock, cleanup, with_token, with_insert_tokens. cbn. by rewrite list_insert_insert_eq. }
    rewrite Es. assert (Hg : goes_on s tid (Loaded k i c) k i tok (Leaving k i true r) tok' (delete k (insert_tokens s))).
    { split; [by right|]. split; [by cbn|]. split; [right; split; [by right|by split]|done]. }
    split.
    + apply (good_update keys made n s G tid (Loaded k i c) k i c tok Eth eq_refl Etok); try done. intros k' v E'. cbn in E'.
      destruct (token_value tok) as [v0|]; [|done]. injection E' as <- <-. by apply Hk.
    + intros S. apply (single_update keys s C tid (Loaded k i c) k i c tok _ tok' (delete k (insert_tokens s)) Eth eq_refl Etok Hg); try done.
      intros _ _. left. cbn. by eapply (loaded_value _ _ S).
Qed.

Lemma insert_advances keys made n tid no_memory s : good keys made n s -> n < 2 ^ 62 -> advances keys made n tid (Insert no_memory) s.
Proof.
  intros G Hn. pose proof (good_consistent _ _ _ _ G) as C. destruct (threads s !! tid) as [th|] eqn:Eth; [|apply stays; [done|]; cbn; by rewrite Eth].
  destruct th as [k i|k i c|k i c|k i c r|k r]; try (apply stays; [done|]; cbn; by rewrite Eth).
  destruct (held_token _ _ _ _ _ _ _ C Eth eq_refl) as [tok Etok]. unfold advances. cbn [exec made_by]. rewrite Eth, Etok, app_nil_r. unfold insert.
  assert (Hset : exists stored p, (if bool_decide (insert_tokens s !! k = Some i) then CachePolicy.set no_memory k (token_value tok) (cache_policy s) else Ok (true, cache_policy s))
    = Ok (stored, p) /\ policy_good made (n + 1) p).
  { case_bool_decide; [|exists true, (cache_policy s); split; [done|exact (policy_later keys made n s G made ltac:(done))]].
    apply policy_set; [apply G|done|]. apply (token_known _ _ _ _ G _ _ _ _ _ tok Eth eq_refl Etok). }
  destruct Hset as (stored & p & -> & Hp). run.
  destruct (inserted keys made n tid k i c tok s p stored (bool_decide (insert_tokens s !! k = Some i)) G Eth Etok Hp) as [Hg Hs].
  destruct (negb stored); [|destruct (negb (cleaned_up tok))]; run; eexists _, keys; (split; [done|]); cbn [default]; unfold id; (split; [exact Hg|intros S _; by apply Hs]).
Qed.

(** The holder is gone, and the token as it is left. *)
Lemma left keys made n tid k i c r tok tok' m' s : good keys made n s -> threads s !! tid = Some (Leaving k i c r) -> tokens s !! i = Some tok ->
  token_value tok' = token_value tok -> goes_on s tid (Leaving k i c r) k i tok (Done k r) tok' m' ->
  (cleaned_up tok' = true -> cleaned_up tok = false -> holders i (<[tid := Done k r]> (threads s)) = 0%nat) ->
  let s' := Make (cache_policy s) (hits s) (misses s) m' (<[i := tok']> (tokens s)) (<[tid := Done k r]> (threads s)) in
  good keys made (n + 1) s' /\ (single keys s -> single keys s').
Proof.
  intros G Eth Etok Ev Hg Hlast s'. pose proof (good_consistent _ _ _ _ G) as C. pose proof (token_known _ _ _ _ G _ _ _ _ _ tok Eth eq_refl Etok) as Hk. split.
  - apply (good_update keys made n s G tid (Leaving k i c r) k i c tok Eth eq_refl Etok); try done; [exact (policy_later keys made n s G made ltac:(done))|by rewrite Ev|].
    intros k' v E'. by apply (known_results _ _ _ (good_known _ _ _ _ G) tid (Leaving k i c r) k' v Eth).
  - intros S. apply (single_update keys s C tid (Leaving k i c r) k i c tok _ tok' m' Eth eq_refl Etok Hg); try done; [|by rewrite Ev].
    intros H1 H2. right. by apply Hlast.
Qed.

Lemma destroy_advances keys made n tid s : good keys made n s -> n < 2 ^ 62 -> advances keys made n tid Destroy s.
Proof.
  intros G Hn. pose proof (good_consistent _ _ _ _ G) as C. destruct (threads s !! tid) as [th|] eqn:Eth; [|apply stays; [done|]; cbn; by rewrite Eth].
  destruct th as [k i|k i c|k i c|k i c r|k r]; try (apply stays; [done|]; cbn; by rewrite Eth).
  destruct (held_token _ _ _ _ _ _ _ C Eth eq_refl) as [tok Etok].
  assert (Hleave : cleaned_up tok = true -> good keys made (n + 1) (with_thread tid (Done k r) s) /\ (single keys s -> single keys (with_thread tid (Done k r) s))).
  { intros Hc. assert (Hg : goes_on s tid (Leaving k i c r) k i tok (Done k r) tok (insert_tokens s)).
    { split; [by left|]. split; [done|]. split; [by left|congruence]. }
    unfold with_thread. rewrite <- (list_insert_id (tokens s) i tok Etok) at 1 2. apply (left keys made n tid k i c r tok tok); try done. congruence. }
  unfold advances. cbn [exec made_by]. rewrite Eth, Etok, app_nil_r. destruct c.
  { destruct (held _ _ C _ _ _ _ _ Eth eq_refl) as [_ Hcl]. destruct (Hcl eq_refl) as (tok0 & E0 & Hc0). assert (tok0 = tok) as -> by congruence.
    destruct (Hleave Hc0) as [H1 H2]. eexists _, keys. split; [done|]. split; [exact H1|]. intros S _. by apply H2. }
  destruct (mutex tok) eqn:Em; [exists None, keys; split; [done|]; split; [by eapply good_more; [done..|lia]|done]|]. eexists _, keys. split; [done|].
  cbn [default]. unfold id, destroy. destruct (cleaned_up tok) eqn:Ec; [destruct (Hleave eq_refl) as [H1 H2]; split; [exact H1|intros S _; by apply H2]|].
  destruct (token_counted keys made n s G i tok Etok Ec) as [Hcount Hpos]. cbv zeta. cbn [refcount].
  assert (Ew : wrap 64 (refcount tok - 1) = refcount tok - 1) by (apply wrap_id; unfold uint; lia). rewrite Ew. destruct (Z.eqb_spec (refcount tok - 1) 0) as [E0|E0].
  - unfold cleanup, with_token, with_insert_tokens, with_thread. cbn [cache_policy hits misses insert_tokens tokens threads token_value refcount mutex]. rewrite list_insert_insert_eq.
    destruct (left keys made n tid k i false r tok (MakeToken true (token_value tok) (refcount tok - 1) (mutex tok)) (delete k (insert_tokens s)) s G Eth Etok) as [H1 H2]; try done.
    + split; [by right|]. split; [done|]. split; [by left|done].
    + intros _ _. pose proof (holders_insert tid i (Done k r) (threads s)) as Hh. rewrite Eth in Hh. unfold holds in Hh. cbn in Hh.
      rewrite bool_decide_eq_true_2 in Hh by done. cbn in Hh. lia.
    + split; [exact H1|]. intros S _. by apply H2.
  - destruct (left keys made n tid k i false r tok (MakeToken false (token_value tok) (refcount tok - 1) (mutex tok)) (insert_tokens s) s G Eth Etok) as [H1 H2]; try done.
    + split; [by left|]. split; [done|]. split; [by left|]. intros _. cbn. lia.
    + split; [exact H1|]. intros S _. by apply H2.
Qed.

(** ** Any schedule *)
Lemma exec_advances keys made n tid act s : good keys made n s -> acceptable act -> n < 2 ^ 62 -> advances keys made n tid act s.
Proof.
  intros G Ha Hn. destruct act; [by apply method_advances|by apply call_advances|by apply lock_advances|by apply returns_advances|by apply throws_advances|
    by apply insert_advances|by apply destroy_advances].
Qed.

Fixpoint made_in (schedule : list (nat * action Key V)) s : list (Key * V) :=
  match schedule with
  | [] => []
  | (tid, act) :: schedule => made_by tid act s ++ match exec tid act s with Ok r => made_in schedule (default s r) | _ => [] end
  end.

Lemma run_advances keys made n schedule s : good keys made n s -> Forall (fun e => acceptable e.2) schedule -> n + blen schedule <= 2 ^ 62 ->
  exists s' keys', run_threads schedule s = Ok s' /\ good keys' (made ++ made_in schedule s) (n + blen schedule) s' /\
    (single keys s -> forallb (fun e => tame e.2) schedule = true -> single keys' s').
Proof.
  revert keys made n s. induction schedule as [|[tid act] schedule IH]; intros keys made n s G Ha Hn.
  { exists s, keys. cbn [run_threads made_in length]. rewrite app_nil_r, Z.add_0_r. done. }
  inversion_clear Ha as [|? ? Ha1 Ha2]. cbn [length] in Hn. destruct (exec_advances keys made n tid act s G Ha1 ltac:(lia)) as (r & keys1 & E & G1 & S1).
  destruct (IH keys1 _ _ (default s r) G1 Ha2 ltac:(lia)) as (s' & keys' & E' & G' & S'). exists s', keys'. cbn [run_threads made_in length forallb]. rewrite E. run.
  split; [exact E'|]. split.
  - rewrite app_assoc. eapply good_more; [exact G'|done|lia].
  - intros S [Ht1 Ht2]%andb_true_iff. apply S'; [by apply S1|done].
Qed.

Lemma new_good (p : P) : policy_good [] 0 p -> good [] [] 0 (new p : t Key V P) /\ single [] (new p : t Key V P).
Proof.
  intros Hp. split; [split; [split|done|split|done]|split]; cbn [new tokens threads insert_tokens]; intros; try done.
Qed.

(** ** The calls come to an end *)

(** How many steps of its call a thread has before it. *)
Definition stage th : nat := match th with Waiting _ _ => 4 | Loading _ _ _ => 3 | Loaded _ _ _ => 2 | Leaving _ _ _ _ => 1 | Done _ _ => 0 end.

Definition work (m : gmap nat (Thread Key V)) : nat := map_fold (fun _ th r => stage th + r)%nat 0%nat m.

Lemma work_split tid th m : m !! tid = Some th -> work m = (stage th + work (delete tid m))%nat.
Proof. intros E. apply (map_fold_delete_L (fun _ th r => stage th + r)%nat 0%nat tid th m); [intros; lia|done]. Qed.

Lemma work_insert tid th th' m : m !! tid = Some th -> (work (<[tid := th']> m) + stage th = work m + stage th')%nat.
Proof. intros E. rewrite (work_split tid th m E), (work_split tid th' (<[tid := th']> m)), delete_insert_eq by apply lookup_insert_eq. lia. Qed.

Lemma work_le m : (work m <= 4 * size m)%nat.
Proof.
  induction m as [|tid th m E IH] using map_ind; [done|]. rewrite map_size_insert_None by done.
  rewrite (work_split tid th) by apply lookup_insert_eq. rewrite delete_insert_id by done. assert (stage th <= 4)%nat by (destruct th; cbn; lia). lia.
Qed.

Lemma work_done m : work m = 0%nat -> forall tid th, m !! tid = Some th -> exists k r, th = Done k r.
Proof. intros E tid th Et. rewrite (work_split tid th m Et) in E. destruct th; cbn in E; try lia. by eexists _, _. Qed.

Lemma work_busy m : (0 < work m)%nat -> exists tid th, m !! tid = Some th /\ (0 < stage th)%nat.
Proof.
  induction m as [|tid th m E IH] using map_ind; [unfold work; rewrite map_fold_empty; lia|]. rewrite (work_split tid th) by apply lookup_insert_eq. rewrite delete_insert_id by done.
  intros Hw. destruct (decide (stage th = 0)%nat) as [E0|E0].
  - destruct IH as (tid2 & th2 & E2 & H2); [lia|]. exists tid2, th2. split; [|done]. rewrite lookup_insert_ne; [done|]. intros <-. congruence.
  - exists tid, th. split; [apply lookup_insert_eq|lia].
Qed.

(** What [load_func] does for each key: a value, or an exception. *)
Context (load_func : Key -> option V + ErrorCode).

(** No new call begins, and [load_func] is followed. *)
Definition continues (act : action Key V) : Prop :=
  match act with
  | Method _ | CallGetOrSet _ => False
  | LoadReturns v => exists k, load_func k = inl v
  | LoadThrows e => exists k, load_func k = inr e
  | _ => True
  end.

Lemma continues_acceptable act : continues act -> acceptable act.
Proof. by destruct act. Qed.

Definition load_action k : action Key V := match load_func k with inl v => LoadReturns v | inr e => LoadThrows e end.

(** The next step of a thread that owns a mutex or does not wait for one. *)
Lemma owner_steps keys made n tid th s i : good keys made n s -> n < 2 ^ 62 -> threads s !! tid = Some th -> owns th = Some i ->
  exists act s', exec tid act s = Ok (Some s') /\ continues act /\ (work (threads s') < work (threads s))%nat /\ size (threads s') = size (threads s).
Proof.
  intros G Hn Eth Ho. pose proof (good_consistent _ _ _ _ G) as C. destruct th as [| k j c|k j c| |]; try done; injection Ho as ->;
    destruct (held_token _ _ _ _ _ _ _ C Eth eq_refl) as [tok Etok].
  - exists (load_action k). unfold load_action. destruct (load_func k) as [v|e] eqn:El; cbn [exec]; rewrite Eth, Etok; eexists; (split; [done|]); (split; [by exists k|]); cbn [with_thread with_token unlock threads].
    + pose proof (work_insert tid _ (Loaded k i c) (threads s) Eth) as Hw. cbn [stage] in Hw. split; [lia|]. by rewrite map_size_insert, Eth.
    + pose proof (work_insert tid _ (Leaving k i c (Throw e)) (threads s) Eth) as Hw. cbn [stage] in Hw. split; [lia|]. by rewrite map_size_insert, Eth.
  - destruct (insert_advances keys made n tid false s G Hn) as (r & keys' & E & G' & _). exists (Insert false). cbn [exec] in *. rewrite Eth, Etok in *.
    unfold insert in *. destruct (if bool_decide _ then _ else _) as [[stored p]| |]; [|done..]. run.
    destruct (negb stored); [|destruct (negb (cleaned_up tok))]; run; eexists; (split; [done|]); (split; [done|]);
      cbn [with_thread with_token unlock cleanup with_insert_tokens with_policy threads];
      (split; [|by rewrite map_size_insert, Eth]); match goal with |- context [work (<[tid := ?x]> _)] => pose proof (work_insert tid _ x (threads s) Eth) as Hw end; cbn [stage] in Hw; lia.
Qed.

Lemma thread_steps keys made n tid th s : good keys made n s -> n < 2 ^ 62 -> threads s !! tid = Some th -> (0 < stage th)%nat ->
  exists tid' act s', exec tid' act s = Ok (Some s') /\ continues act /\ (work (threads s') < work (threads s))%nat /\ size (threads s') = size (threads s).
Proof.
  intros G Hn Eth Hs. pose proof (good_consistent _ _ _ _ G) as C. destruct (owns th) as [i|] eqn:Eo.
  { destruct (owner_steps keys made n tid th s i G Hn Eth Eo) as (act & s' & ?). by exists tid, act, s'. }
  assert (Hwait : forall i tok tid2, tokens s !! i = Some tok -> mutex tok = Some tid2 ->
    exists tid' act s', exec tid' act s = Ok (Some s') /\ continues act /\ (work (threads s') < work (threads s))%nat /\ size (threads s') = size (threads s)).
  { intros i tok tid2 Etok (th2 & E2 & Eo2)%(owned _ _ C i tok tid2 Etok). destruct (owner_steps keys made n tid2 th2 s i G Hn E2 Eo2) as (act & s' & ?). by exists tid2, act, s'. }
  destruct th as [k i| | |k i c r|]; try done; [| |cbn in Hs; lia]; destruct (held_token _ _ _ _ _ _ _ C Eth eq_refl) as [tok Etok].
  - destruct (mutex tok) as [tid2|] eqn:Em; [by eapply Hwait|]. exists tid, LockToken. cbn [exec]. rewrite Eth, Etok, Em. eexists. split; [done|]. split; [done|].
    unfold lock_token. destruct (token_value tok) as [v|]; cbn [with_thread with_token hit_or_miss threads]; (split; [|by rewrite map_size_insert, Eth]);
      match goal with |- context [work (<[tid := ?x]> _)] => pose proof (work_insert tid _ x (threads s) Eth) as Hw end; cbn [stage] in Hw; lia.
  - pose proof (work_insert tid _ (Done k r) (threads s) Eth) as Hw. cbn [stage] in Hw. destruct c.
    + exists tid, Destroy. cbn [exec]. rewrite Eth. eexists. split; [done|]. split; [done|]. cbn [with_thread threads]. split; [lia|]. by rewrite map_size_insert, Eth.
    + destruct (mutex tok) as [tid2|] eqn:Em; [by eapply Hwait|]. exists tid, Destroy. cbn [exec]. rewrite Eth, Etok, Em. eexists. split; [done|]. split; [done|].
      unfold destroy. destruct (cleaned_up tok); [|cbv zeta; destruct (_ =? 0)]; cbn [with_thread with_token cleanup with_insert_tokens threads]; (split; [lia|]; by rewrite map_size_insert, Eth).
Qed.

(** When all threads are done, no token is left. *)
Lemma no_token_left keys made n s : good keys made n s -> (forall tid th, threads s !! tid = Some th -> exists k r, th = Done k r) -> insert_tokens s = ∅.
Proof.
  intros G Hdone. pose proof (good_consistent _ _ _ _ G) as C. apply map_empty. intros k. destruct (insert_tokens s !! k) as [i|] eqn:E; [|done]. exfalso.
  destruct (registered _ _ C _ _ E) as (_ & tok & Etok & Hc). destruct (counted _ _ C i tok Etok Hc) as [E1 E2].
  destruct (holders_exists i (threads s)) as (tid & th & Et & Hh); [lia|]. destruct (Hdone tid th Et) as (k' & r & ->). done.
Qed.

Lemma drains keys made n s : good keys made n s -> n + Z.of_nat (work (threads s)) < 2 ^ 62 ->
  exists schedule s', Forall (fun e => continues e.2) schedule /\ (length schedule <= work (threads s))%nat /\ run_threads schedule s = Ok s' /\
    (forall tid th, threads s' !! tid = Some th -> exists k r, th = Done k r) /\ insert_tokens s' = ∅.
Proof.
  remember (work (threads s)) as w eqn:Ew. revert keys made n s Ew. induction w as [w IH] using lt_wf_ind. intros keys made n s -> G Hn.
  destruct (decide (work (threads s) = 0)%nat) as [E0|E0].
  { exists [], s. split; [constructor|]. split; [cbn; lia|]. split; [done|]. pose proof (work_done _ E0) as Hd. split; [exact Hd|by eapply no_token_left]. }
  destruct (work_busy (threads s)) as (tid & th & Eth & Hs); [lia|].
  destruct (thread_steps keys made n tid th s G ltac:(lia) Eth Hs) as (tid' & act & s1 & E & Ha & Hw & _).
  destruct (exec_advances keys made n tid' act s G (continues_acceptable act Ha) ltac:(lia)) as (r & keys1 & Er & G1 & _). rewrite E in Er. injection Er as <-. cbn [default] in G1. unfold id in G1.
  destruct (IH (work (threads s1)) Hw keys1 _ (n + 1) s1 eq_refl G1 ltac:(lia)) as (schedule & s' & Hc & Hl & Hr & Hd). exists ((tid', act) :: schedule), s'.
  split; [by constructor|]. split; [cbn [length]; lia|]. cbn [run_threads]. rewrite E. run. done.
Qed.
End cache.
