(* ===== verification/CompressionTheorems.v ===== *)
(** * What the compression layer guarantees

    The theorems about the codecs, the block layer, the codec factory, the
    read and write buffers and the compressed streams, each with an instance
    at a concrete input. *)

From stdpp Require Import prelude gmap strings.
From Stdlib Require Import ZArith Lia.
From S2P Require Import Prelude Bits BitIO Codec CodecDelta CodecGCD CodecDoubleDelta CodecGorilla CodecFPC.
From S2P Require Import CodecT64 CodecMultiple CodecFactory Buffers CompressedStream CompressedStreamFacts CodecStreams.

Import CompressionCodecFactory.

(** ** Concrete parameters for the instances *)
Definition zero_hash : bytes -> Z * Z := fun _ => (0, 0).
Definition sum_hash : bytes -> Z * Z := fun b => (wrap 64 (foldr Z.add 0 b), wrap 64 (Z.of_nat (length b))).
Definition no_codec : CompressionMethodByte -> CreatorWithType := fun _ _ _ => Throw UNKNOWN_CODEC.
Definition division (d n : Z) : Z := n / d.
Definition sample_get (d : nat) : Z -> outcome ICompressionCodec :=
  instance_get None Z.gcd division no_codec (no_codec LZ4) d.

Lemma sum_hash_words b : uint 64 (sum_hash b).1 /\ uint 64 (sum_hash b).2.
Proof. split; apply wrap_uint; lia. Qed.

Lemma sample_padding d m c : sample_get (S d) m = Ok c -> padding_ok c.
Proof. by apply get_padding. Qed.

(** ** Streams *)

(** A codec for blocks of up to [size] bytes: a modelled one (NONE, Delta,
    DoubleDelta, Gorilla, T64 or FPC) that is shown to restore that much:
    256 MiB, for DoubleDelta and Gorilla 128 MiB. *)
Definition usable_for (st : option Z) (size : nat) (codec : ICompressionCodec) : Prop :=
  modelled st codec /\ Z.of_nat size <= source_limit (getMethodByte codec).

(** A session with a compressed write buffer: the codecs are usable for its
    blocks, and different ones only where the reader allows them. *)
Definition session_ok (st : option Z) (size : nat) (allow : bool) (m0 : Z) (c : command) : Prop :=
  match c with
  | Write data => bytes_ok data
  | WriteChar x => byte_ok x
  | SetCodec codec => usable_for st size codec /\ (allow = true \/ getMethodByte codec = m0)
  | Next => True
  end.

(** C1: whatever a session writes to a [CompressedWriteBuffer] with the codecs
    NONE, Delta, DoubleDelta, Gorilla, T64 and FPC (any buffer sizes up to
    256 MiB, the largest that MergeTree allows, or up to 128 MiB where
    DoubleDelta or Gorilla is used; adaptive or not, and with changes of
    codec), a [CompressedReadBuffer] delivers, for any division of the
    compressed bytes into input buffers and any sequence of [read] and
    [readBig] requests; the codecs are found by the factory from the method
    byte alone.  Codecs have the parameters their builders accept, and the
    static of Gorilla's size estimate is that of the width in use or of a wider
    one.  (The size estimates of DoubleDelta and Gorilla are computed in
    32 bits and wrap on larger blocks: [bit_estimates_wrap].) *)
Theorem compressed_stream_roundtrip
    (hash : bytes -> Z * Z) (st : option Z) (boost_gcd libdivide : Z -> Z -> Z)
    (third_party : CompressionMethodByte -> CreatorWithType) (lz4hc : CreatorWithType) (d : nat)
    (out_size buf_size initial : nat) (adaptive allow : bool) (m0 : Z) (codec : ICompressionCodec) (cs : list command) :
  (forall b, uint 64 (hash b).1 /\ uint 64 (hash b).2) ->
  (forall m args ty c, third_party m args ty = Ok c -> padding_ok c) ->
  (0 < out_size)%nat -> (0 < buf_size)%nat -> (0 < initial)%nat ->
  usable_for st (Nat.max buf_size initial) codec -> (allow = true \/ getMethodByte codec = m0) ->
  Forall (session_ok st (Nat.max buf_size initial) allow m0) cs ->
  exists b', @run_commands hash bytes _ cs
      (CompressedWriteBuffer.make (WriteBuffer.of_memory out_size) codec buf_size adaptive initial) = (Ok tt, b') /\
    forall chunks external reqs,
      concat chunks = WriteBuffer.memory_of (CompressedWriteBuffer.out (WriteBuffer.impl b')) ->
      @run_reads hash (instance_get st boost_gcd libdivide third_party lz4hc (S d)) reqs
        (CompressedReadBuffer.make chunks allow external) = Ok (cut reqs (concat (data_of <$> cs))).
Proof.
  intros Hh Hpad H1 H2 H3 [Hc HN] HP Hcs. set (N := Z.of_nat (Nat.max buf_size initial)) in *.
  set (F := instance_get st boost_gcd libdivide third_party lz4hc (S d)).
  assert (N < 2 ^ 31) as HN31 by (unfold source_limit, MAX_BITS, MAX_BLOCK in HN; destruct (_ || _); lia).
  assert (Forall (@command_ok F N (fun c => allow = true \/ getMethodByte c = m0)) cs) as Hcs'.
  { eapply Forall_impl; [exact Hcs|]. intros [| |c|]; cbn; try done. intros [[Hm Hl] ?]. split; [|done]. by apply modelled_streamable. }
  pose proof (fun (chunks : list bytes) (external : bool) (reqs : list (nat * bool)) =>
    @stream_roundtrip hash F Hh N HN31 out_size codec buf_size adaptive initial cs chunks allow external reqs m0
      (get_padding st boost_gcd libdivide third_party lz4hc Hpad d) H1 H2 H3 ltac:(lia) ltac:(lia)
      (modelled_streamable st boost_gcd libdivide third_party lz4hc N d codec Hc HN) HP Hcs') as Hall.
  destruct (Hall [] false []) as (b' & E & _). exists b'. split; [exact E|].
  intros chunks external reqs Ech. destruct (Hall chunks external reqs) as (b2 & E2 & H). rewrite E in E2. injection E2 as <-. auto.
Qed.

Definition sample_session : list command :=
  [Write [1; 0; 0; 0; 2; 0; 0; 0; 3; 0]; SetCodec (CompressionCodecNone CORRUPTED_DATA); WriteChar 7; Next; Write [9; 9]].

Lemma compressed_stream_roundtrip_witness :
  exists b', @run_commands sum_hash bytes _ sample_session
      (CompressedWriteBuffer.make (WriteBuffer.of_memory 5) (CompressionCodecDelta.codec 4 CORRUPTED_DATA) 8 true 3) = (Ok tt, b') /\
    forall chunks external reqs,
      concat chunks = WriteBuffer.memory_of (CompressedWriteBuffer.out (WriteBuffer.impl b')) ->
      @run_reads sum_hash (sample_get 1) reqs (CompressedReadBuffer.make chunks true external) =
        Ok (cut reqs [1; 0; 0; 0; 2; 0; 0; 0; 3; 0; 7; 9; 9]).
Proof.
  apply (compressed_stream_roundtrip sum_hash None Z.gcd division no_codec (no_codec LZ4) 0 5 8 3 true true 0
    (CompressionCodecDelta.codec (Z.of_nat 4) CORRUPTED_DATA) sample_session); try lia; try done.
  - apply sum_hash_words.
  - split; [|done]. apply M_Delta. unfold width. auto.
  - repeat constructor; try done; cbn; lia.
Defined.

(** At 256 MiB the 32-bit estimates wrap: two byte values of DoubleDelta may
    need 37 bits each, 620756992 bytes of which 83886092 are announced, and
    single bytes of Gorilla 17 bits each, 570425344 bytes of which 33554441
    are announced. *)
Example bit_estimates_wrap :
  getMaxCompressedDataSize (CompressionCodecDoubleDelta.codec 2 CORRUPTED_DATA) (2 ^ 28) = Ok 83886092 /\
  2 ^ 28 / 2 * CompressionCodecDoubleDelta.max_item_bits 2 / 8 = 620756992 /\
  getMaxCompressedDataSize (CompressionCodecGorilla.codec None 1 CORRUPTED_DATA) (2 ^ 28) = Ok 33554441 /\
  2 ^ 28 * CompressionCodecGorilla.max_item_bits (CompressionCodecGorilla.getBitLengthOfLength 1) 1 / 8 = 570425344.
Proof. by vm_compute. Qed.

(** C5: [readCompressedData] refines the reading of one frame from a flat byte
    string, exceptions included: neither the division of the input into
    buffers nor the choice between using the block in place and copying it can
    be observed. *)
Theorem frame_reading_refines (hash : bytes -> Z * Z) (get : Z -> outcome ICompressionCodec)
    (always_copy : bool) (chunks : list bytes) (disable allow external init : bool) (buf : bytes) (codec : option ICompressionCodec) :
  (forall m c, get m = Ok c -> padding_ok c) -> (forall c, codec = Some c -> padding_ok c) ->
  let r := CompressedReadBufferBase.Make (ReadBuffer.of_chunks chunks) init buf disable allow external codec in
  match @parse_frame hash get disable allow external codec (concat chunks) with
  | Ok None => exists r', @CompressedReadBufferBase.readCompressedData _ _ hash get always_copy r = Ok (None, r')
  | Ok (Some (c, size_decompressed, size_compressed, block, rest)) =>
      exists r', @CompressedReadBufferBase.readCompressedData _ _ hash get always_copy r = Ok (Some (size_decompressed, size_compressed), r') /\
        CompressedReadBufferBase.compressed_buffer r' = block /\ CompressedReadBufferBase.codec r' = Some c /\
        ReadBuffer.holds (CompressedReadBufferBase.compressed_in r') rest
  | Throw e => @CompressedReadBufferBase.readCompressedData _ _ hash get always_copy r = Throw e
  | Undef => @CompressedReadBufferBase.readCompressedData _ _ hash get always_copy r = Undef
  end.
Proof.
  intros Hg Hc r.
  pose proof (@readCompressedData_spec (list bytes) _ _ hash get Hg always_copy r (concat chunks) (ReadBuffer.holds_of_chunks chunks) Hc) as H.
  cbn [CompressedReadBufferBase.disable_checksum CompressedReadBufferBase.allow_different_codecs
       CompressedReadBufferBase.external_data CompressedReadBufferBase.codec r] in H.
  destruct (parse_frame _ _ _ _ _) as [[[[[[c sd] sc] block] rest]|]|e|]; [|..|done|done].
  - destruct H as (r' & E & Hh & _ & Hco & Hb). eauto 10.
  - destruct H as (r' & E & _). eauto.
Qed.

(** A frame of codec NONE that holds one byte, in three buffers. *)
Lemma frame_reading_refines_witness :
  exists r', @CompressedReadBufferBase.readCompressedData _ _ zero_hash (sample_get 1) true
    (CompressedReadBufferBase.Make (ReadBuffer.of_chunks [replicate 16 0 ++ [2; 10]; []; [0; 0; 0; 1; 0; 0]; [0; 42; 5]]) false [] false false false None)
    = Ok (Some (1, 10), r') /\ CompressedReadBufferBase.compressed_buffer r' = [2; 10; 0; 0; 0; 1; 0; 0; 0; 42].
Proof.
  pose proof (frame_reading_refines zero_hash (sample_get 1) true [replicate 16 0 ++ [2; 10]; []; [0; 0; 0; 1; 0; 0]; [0; 42; 5]]
    false false false false [] None) as H.
  cbv zeta in H. specialize (H (sample_padding 0) ltac:(done)).
  assert (exists c rest, @parse_frame zero_hash (sample_get 1) false false false None
    (concat [replicate 16 0 ++ [2; 10]; []; [0; 0; 0; 1; 0; 0]; [0; 42; 5]]) =
    Ok (Some (c, 1, 10, [2; 10; 0; 0; 0; 1; 0; 0; 0; 42], rest))) as (c & rest & E).
  { eexists _, _. vm_compute. reflexivity. }
  rewrite E in H. destruct H as (r' & Hr & Hb & _). eauto.
Defined.

(** C8: a frame is accepted only with the checksum of its block in front: what
    [readCompressedData] returns is a block whose checksum was in the input. *)
Theorem accepted_frame_checksum (hash : bytes -> Z * Z) (get : Z -> outcome ICompressionCodec)
    (always_copy : bool) (chunks : list bytes) (allow external init : bool) (buf : bytes) (codec : option ICompressionCodec)
    sizes (r' : CompressedReadBufferBase.t (list bytes)) :
  (forall m c, get m = Ok c -> padding_ok c) -> (forall c, codec = Some c -> padding_ok c) -> Forall bytes_ok chunks ->
  @CompressedReadBufferBase.readCompressedData _ _ hash get always_copy
    (CompressedReadBufferBase.Make (ReadBuffer.of_chunks chunks) init buf false allow external codec) = Ok (Some sizes, r') ->
  let block := CompressedReadBufferBase.compressed_buffer r' in
  blen block = sizes.2 /\
  exists rest, concat chunks = storeChecksum (hash block) ++ block ++ rest.
Proof.
  intros Hg Hc Hok E.
  pose proof (@readCompressedData_spec (list bytes) _ _ hash get Hg always_copy
    (CompressedReadBufferBase.Make (ReadBuffer.of_chunks chunks) init buf false allow external codec)
    (concat chunks) (ReadBuffer.holds_of_chunks chunks) Hc) as H.
  cbn [CompressedReadBufferBase.disable_checksum CompressedReadBufferBase.allow_different_codecs
       CompressedReadBufferBase.external_data CompressedReadBufferBase.codec] in H. rewrite E in H.
  destruct (parse_frame _ _ _ _ _) as [[[[[[c sd] sc] block] rest]|]|e|] eqn:Ep; [|..|done|done].
  - destruct H as (r2 & [= -> ->] & _ & _ & _ & ->).
    apply parse_frame_sound in Ep as [-> Hl]; [|by apply Forall_concat]. split; [done|]. by exists rest.
  - destruct H as (? & [=] & _).
Qed.

Lemma accepted_frame_checksum_witness :
  exists rest, concat [replicate 16 0 ++ [2; 10; 0; 0; 0; 1; 0; 0; 0; 42]; [5]] =
    storeChecksum (zero_hash [2; 10; 0; 0; 0; 1; 0; 0; 0; 42]) ++ [2; 10; 0; 0; 0; 1; 0; 0; 0; 42] ++ rest.
Proof.
  set (chunks := [replicate 16 0 ++ [2; 10; 0; 0; 0; 1; 0; 0; 0; 42]; [5]]).
  assert (exists r', @CompressedReadBufferBase.readCompressedData _ _ zero_hash (sample_get 1) false
    (CompressedReadBufferBase.Make (ReadBuffer.of_chunks chunks) false [] false false false None) = Ok (Some (1, 10), r') /\
    CompressedReadBufferBase.compressed_buffer r' = [2; 10; 0; 0; 0; 1; 0; 0; 0; 42]) as (r' & E & Hb).
  { eexists. split; vm_compute; reflexivity. }
  pose proof (accepted_frame_checksum zero_hash (sample_get 1) false chunks false false false [] None (1, 10) r'
    (sample_padding 0) ltac:(done)) as H.
  cbv zeta in H. rewrite Hb in H. apply H; [|exact E].
  repeat constructor; unfold uint; cbn; lia.
Defined.

(** A block of less than a megabyte that was damaged in one bit is
    rejected, and the diagnosis names a bit inside the block whose flipping
    restores the stored checksum. *)
Theorem single_bit_flip_diagnosed (hash : bytes -> Z * Z) (original : bytes) (q : nat) (external : bool) :
  (q < 8 * length original)%nat -> blen original < 2 ^ 20 -> hash (flip_bit original q) <> hash original ->
  @validateChecksum hash (flip_bit original q) (hash original) external =
    Throw (if external then CANNOT_DECOMPRESS else CHECKSUM_DOESNT_MATCH) /\
  exists byte bit, @mismatch_reason hash (flip_bit original q) (hash original) = FlipInData byte bit /\
    (byte < length original)%nat /\ (bit < 8)%nat /\ hash (flip_bit (flip_bit original q) (8 * byte + bit)) = hash original.
Proof.
  intros Hq Hl Hne. split; [|by apply (@flip_diagnosed hash)]. rewrite validateChecksum_spec.
  destruct (decide _) as [E|]; [by symmetry in E|done].
Qed.

Lemma single_bit_flip_diagnosed_witness :
  @validateChecksum sum_hash (flip_bit [5; 6; 7] 10) (sum_hash [5; 6; 7]) false = Throw CHECKSUM_DOESNT_MATCH /\
  exists byte bit, @mismatch_reason sum_hash (flip_bit [5; 6; 7] 10) (sum_hash [5; 6; 7]) = FlipInData byte bit /\
    (byte < 3)%nat /\ (bit < 8)%nat /\ sum_hash (flip_bit (flip_bit [5; 6; 7] 10) (8 * byte + bit)) = sum_hash [5; 6; 7].
Proof. apply (single_bit_flip_diagnosed sum_hash [5; 6; 7] 10 false); cbn; [lia|lia|done]. Defined.

(** C15: [readBig], which decompresses whole blocks into the caller's memory,
    and [read] return the same bytes from every state of a compressed read
    buffer whose remaining frames decode, and leave the same data to read. *)
Theorem readBig_equals_read (hash : bytes -> Z * Z) (get : Z -> outcome ICompressionCodec) (n : nat)
    (b : ReadBuffer.t (CompressedReadBufferBase.t (list bytes))) (d : bytes) :
  @ReadBuffer.holds _ _ (@reader_source hash get) b d ->
  exists b1 b2, @CompressedReadBuffer.readBig hash get n b = Ok (take n d, b1) /\
    @ReadBuffer.read _ (@CompressedReadBuffer.reader_impl hash get) n b = Ok (take n d, b2) /\
    @ReadBuffer.holds _ _ (@reader_source hash get) b1 (drop n d) /\
    @ReadBuffer.holds _ _ (@reader_source hash get) b2 (drop n d).
Proof.
  intros Hb. destruct (@readBig_spec hash get n b d Hb) as (b1 & E1 & H1).
  destruct (@ReadBuffer.read_spec _ _ (@reader_source hash get) n b d Hb) as (b2 & E2 & H2). eauto 10.
Qed.

Definition none_frame : bytes := replicate 16 0 ++ [2; 10; 0; 0; 0; 1; 0; 0; 0; 42].

Lemma none_frames_held : @ReadBuffer.holds _ _ (@reader_source zero_hash (sample_get 1))
  (CompressedReadBuffer.make [none_frame; none_frame] false false) [42; 42].
Proof.
  split; [done|]. exists [42; 42]. split; [done|]. split; [apply (sample_padding 0)|]. split; [done|].
  exists (none_frame ++ none_frame ++ []). split; [apply (ReadBuffer.holds_of_chunks [none_frame; none_frame])|].
  assert (forall codec rest, codec = None \/ codec = Some (CompressionCodecNone CORRUPTED_DATA) ->
    @parse_frame zero_hash (sample_get 1) false false false codec (none_frame ++ rest) =
      Ok (Some (CompressionCodecNone CORRUPTED_DATA, 1, 10, [2; 10; 0; 0; 0; 1; 0; 0; 0; 42], rest))) as Hp.
  { intros codec rest [->| ->]; by vm_compute. }
  eapply (@D_frame zero_hash (sample_get 1) false false false None _ _ _ _ _ _ [42] [42]);
    [apply Hp; by left|done|done|done|done|done|].
  eapply (@D_frame zero_hash (sample_get 1) false false false _ _ _ _ _ _ _ [42] []);
    [apply Hp; by right|done|done|done|done|done|]. constructor.
Qed.

Lemma readBig_equals_read_witness :
  exists b1 b2, @CompressedReadBuffer.readBig zero_hash (sample_get 1) 3 (CompressedReadBuffer.make [none_frame; none_frame] false false)
      = Ok ([42; 42], b1) /\
    @ReadBuffer.read _ (@CompressedReadBuffer.reader_impl zero_hash (sample_get 1)) 3
      (CompressedReadBuffer.make [none_frame; none_frame] false false) = Ok ([42; 42], b2).
Proof.
  destruct (readBig_equals_read zero_hash (sample_get 1) 3 _ _ none_frames_held) as (b1 & b2 & E1 & E2 & _).
  exists b1, b2. split; [exact E1|exact E2].
Defined.

(** C13: when [nextImpl] of the derived class throws, [next] passes the
    exception on and leaves the buffer empty, with the lost bytes counted and
    no flush counted.  For every exception but [CurrentBufferExhausted] the
    buffer is canceled, the derived class has been told, and no later [next],
    [write] or [finalize] reaches it: the first is ignored, the others throw.
    After [CurrentBufferExhausted] the buffer is not canceled and the derived
    class not told: it stays open and takes whatever fits. *)
Theorem failed_write_buffer_inert {S : Type} (impl : WriteBuffer.Impl S) (b b' : WriteBuffer.t S) (e : ErrorCode) :
  WriteBuffer.finalized b = false -> WriteBuffer.next b = (Throw e, b') ->
  exists s, WriteBuffer.nextImpl (WriteBuffer.capacity b) (WriteBuffer.content b) (WriteBuffer.impl b) = (Throw e, s) /\
  WriteBuffer.content b' = [] /\ WriteBuffer.count b' = WriteBuffer.count b /\
  WriteBuffer.flush_count b' = WriteBuffer.flush_count b /\ WriteBuffer.next b' = (Ok tt, b') /\
  if decide (e = CURRENT_BUFFER_EXHAUSTED) then
    WriteBuffer.canceled b' = false /\ WriteBuffer.impl b' = s /\
    forall from, (0 < length from <= WriteBuffer.capacity b)%nat -> WriteBuffer.write from b' = (Ok tt, WriteBuffer.put from b')
  else
    WriteBuffer.canceled b' = true /\ WriteBuffer.impl b' = WriteBuffer.cancelImpl s /\
    (forall from, WriteBuffer.write from b' = (Throw CANNOT_WRITE_AFTER_BUFFER_CANCELED, b')) /\
    (forall x, WriteBuffer.writeChar x b' = (Throw LOGICAL_ERROR, b')) /\
    WriteBuffer.finalize b' = (Throw LOGICAL_ERROR, b').
Proof.
  intros Hf H. destruct (WriteBuffer.next_failed b b' e Hf H) as (s & Hn & ->). exists s.
  case_decide as He; [rewrite bool_decide_false by tauto|rewrite bool_decide_true by done].
  - split_and!; try done; [unfold WriteBuffer.count; cbn; lia|]. intros from Hl.
    rewrite WriteBuffer.empty_open_takes by (cbn; lia || done). destruct from; [cbn in Hl; lia|done].
  - split_and!; try done. unfold WriteBuffer.count. cbn. lia.
Qed.

(** A device that is full, and one that asks for another buffer. *)
Definition full_device (e : ErrorCode) : WriteBuffer.Impl unit :=
  {| WriteBuffer.nextImpl := fun _ _ s => (Throw e, s);
     WriteBuffer.beforeFinalize := None; WriteBuffer.cancelImpl := fun s => s |}.

Lemma failed_write_buffer_inert_witness :
  (exists b', @WriteBuffer.next _ (full_device CANNOT_WRITE_AFTER_END_OF_BUFFER) (WriteBuffer.Make 4 [1] 0 0 false false tt)
      = (Throw CANNOT_WRITE_AFTER_END_OF_BUFFER, b') /\
    forall x, @WriteBuffer.writeChar _ (full_device CANNOT_WRITE_AFTER_END_OF_BUFFER) x b' = (Throw LOGICAL_ERROR, b')) /\
  (exists b', @WriteBuffer.next _ (full_device CURRENT_BUFFER_EXHAUSTED) (WriteBuffer.Make 4 [1] 0 0 false false tt)
      = (Throw CURRENT_BUFFER_EXHAUSTED, b') /\ WriteBuffer.canceled b' = false).
Proof.
  split; (eexists; split; [reflexivity|]).
  - edestruct (failed_write_buffer_inert (full_device CANNOT_WRITE_AFTER_END_OF_BUFFER) (WriteBuffer.Make 4 [1] 0 0 false false tt))
      as (s & _ & _ & _ & _ & _ & Hx); [reflexivity..|]. rewrite decide_False in Hx by done. apply Hx.
  - edestruct (failed_write_buffer_inert (full_device CURRENT_BUFFER_EXHAUSTED) (WriteBuffer.Make 4 [1] 0 0 false false tt))
      as (s & _ & _ & _ & _ & _ & Hc); [reflexivity..|]. rewrite decide_True in Hc by done. apply Hc.
Defined.

(** ** Blocks and codecs *)

(** C9: the block layer, against the codec interface: for two codecs whose
    data formats agree, the block [compress] makes has the size it returns,
    fits the size announced by [getCompressedReserveSize], carries its own
    size in the header, and [decompress] gives the source back. *)
Theorem block_layer_roundtrip (enc dec : ICompressionCodec) (dom : bytes -> Prop) (src : bytes) :
  CodecPair enc dec dom -> dom src -> 0 < blen src < 2 ^ 32 ->
  (forall m, getMaxCompressedDataSize enc (blen src) = Ok m -> m + COMPRESSED_BLOCK_HEADER_SIZE < 2 ^ 32) ->
  exists blk reserve, compress enc src = Ok (blk, blen blk) /\ bytes_ok blk /\
    getCompressedReserveSize enc (blen src) = Ok reserve /\ blen blk <= reserve /\
    readMethod blk = Ok (getMethodByte dec) /\ readCompressedBlockSize dec blk = Ok (blen blk) /\
    decompress dec blk = Ok (src, blen src).
Proof.
  intros Hp Hd Hs Hm. destruct (block_roundtrip enc dec dom src Hd Hs Hm) as (blk & r & Hc & Hok & Hr & Hle & Hsz & Hde).
  destruct (decompress_sound _ _ _ _ Hde) as (Hmb & _ & _). eauto 10.
Qed.

Lemma block_layer_roundtrip_witness :
  exists blk reserve, compress (CompressionCodecNone CORRUPTED_DATA) [1; 2; 3] = Ok (blk, blen blk) /\ bytes_ok blk /\
    getCompressedReserveSize (CompressionCodecNone CORRUPTED_DATA) 3 = Ok reserve /\ blen blk <= reserve /\
    readMethod blk = Ok (methodByte NONE) /\ readCompressedBlockSize (CompressionCodecNone CANNOT_DECOMPRESS) blk = Ok (blen blk) /\
    decompress (CompressionCodecNone CANNOT_DECOMPRESS) blk = Ok ([1; 2; 3], 3).
Proof.
  apply (block_layer_roundtrip (CompressionCodecNone CORRUPTED_DATA) (CompressionCodecNone CANNOT_DECOMPRESS) bytes_ok [1; 2; 3]).
  - apply None_pair.
  - repeat constructor; cbn; lia.
  - cbn. lia.
  - intros m [= <-]. unfold COMPRESSED_BLOCK_HEADER_SIZE. cbn. lia.
Defined.

(** Codec Delta: for every value width and every source, also one that is
    not a multiple of the width, decompression restores the source, whatever
    width the reading codec was built with; the output has two bytes more. *)
Theorem delta_codec_roundtrip (w : nat) (w' : Z) (e e' : ErrorCode) (src : bytes) :
  width w -> bytes_ok src -> blen src + 2 < 2 ^ 32 ->
  exists out, doCompressData (CompressionCodecDelta.codec (Z.of_nat w) e) src = Ok (out, blen src + 2) /\ blen out = blen src + 2 /\
    forall err, doDecompressData (CompressionCodecDelta.codec w' e') err out (blen src) = Ok (src, blen src).
Proof.
  intros Hw Hok Hl. destruct (CompressionCodecDelta.delta_data_roundtrip w src Hw (conj Hok Hl)) as (out & Hc & _ & Hlen & Hd).
  exists out. rewrite Hlen in Hc. auto.
Qed.

Lemma delta_codec_roundtrip_witness :
  exists out, doCompressData (CompressionCodecDelta.codec 2 CORRUPTED_DATA) [7; 1; 0; 2; 0] = Ok (out, 7) /\ blen out = 7 /\
    forall err, doDecompressData (CompressionCodecDelta.codec 1 CORRUPTED_DATA) err out 5 = Ok ([7; 1; 0; 2; 0], 5).
Proof.
  apply (delta_codec_roundtrip 2 1 CORRUPTED_DATA CORRUPTED_DATA [7; 1; 0; 2; 0]); [unfold width; auto| |cbn; lia].
  repeat constructor; cbn; lia.
Defined.

(** C31: codec DoubleDelta: sources of up to 128 MiB are restored, within the
    announced size. *)
Theorem double_delta_codec_roundtrip (w : nat) (w' : Z) (e e' : ErrorCode) (src : bytes) :
  width w -> bytes_ok src -> blen src <= 2 ^ 27 ->
  exists out m, doCompressData (CompressionCodecDoubleDelta.codec (Z.of_nat w) e) src = Ok (out, blen out) /\
    getMaxCompressedDataSize (CompressionCodecDoubleDelta.codec (Z.of_nat w) e) (blen src) = Ok m /\ blen out <= m < 2 ^ 32 /\
    forall err, doDecompressData (CompressionCodecDoubleDelta.codec w' e') err out (blen src) = Ok (src, blen src).
Proof.
  intros Hw Hok Hl. destruct (CompressionCodecDoubleDelta.dd_data_roundtrip w src Hw (conj Hok Hl)) as (out & m & ? & _ & ? & ? & ? & ?).
  exists out, m. auto.
Qed.

Lemma double_delta_codec_roundtrip_witness :
  exists out m, doCompressData (CompressionCodecDoubleDelta.codec 1 CORRUPTED_DATA) [1; 2; 3; 9] = Ok (out, blen out) /\
    getMaxCompressedDataSize (CompressionCodecDoubleDelta.codec 1 CORRUPTED_DATA) 4 = Ok m /\ blen out <= m < 2 ^ 32 /\
    forall err, doDecompressData (CompressionCodecDoubleDelta.codec 8 CORRUPTED_DATA) err out 4 = Ok ([1; 2; 3; 9], 4).
Proof.
  apply (double_delta_codec_roundtrip 1 8 CORRUPTED_DATA CORRUPTED_DATA [1; 2; 3; 9]); [unfold width; auto| |cbn; lia].
  repeat constructor; cbn; lia.
Defined.

(** C32: codec Gorilla: sources of up to 128 MiB are restored, within the
    announced size, provided the size estimate's static variable is that of
    the width in use (or of a wider type). *)
Theorem gorilla_codec_roundtrip (st st' : option Z) (w : nat) (w' : Z) (e e' : ErrorCode) (src : bytes) :
  width w -> CompressionCodecGorilla.static_ok st w -> bytes_ok src -> blen src <= 2 ^ 27 ->
  exists out m, doCompressData (CompressionCodecGorilla.codec st (Z.of_nat w) e) src = Ok (out, blen out) /\
    getMaxCompressedDataSize (CompressionCodecGorilla.codec st (Z.of_nat w) e) (blen src) = Ok m /\ blen out <= m < 2 ^ 32 /\
    forall err, doDecompressData (CompressionCodecGorilla.codec st' w' e') err out (blen src) = Ok (src, blen src).
Proof.
  intros Hw Hst Hok Hl. destruct (CompressionCodecGorilla.gorilla_data_roundtrip st w src Hw Hst (conj Hok Hl)) as (out & ? & _ & ? & ?).
  eexists out, _. split; [done|]. split; [reflexivity|]. auto.
Qed.

Lemma gorilla_codec_roundtrip_witness :
  exists out m, doCompressData (CompressionCodecGorilla.codec None 4 CORRUPTED_DATA) [0; 0; 0x80; 0x3f; 0; 0; 0x80; 0x40; 3] = Ok (out, blen out) /\
    getMaxCompressedDataSize (CompressionCodecGorilla.codec None 4 CORRUPTED_DATA) 9 = Ok m /\ blen out <= m < 2 ^ 32 /\
    forall err, doDecompressData (CompressionCodecGorilla.codec (Some 4) 1 CORRUPTED_DATA) err out 9 =
      Ok ([0; 0; 0x80; 0x3f; 0; 0; 0x80; 0x40; 3], 9).
Proof.
  apply (gorilla_codec_roundtrip None (Some 4) 4 1 CORRUPTED_DATA CORRUPTED_DATA [0; 0; 0x80; 0x3f; 0; 0; 0x80; 0x40; 3]);
    [unfold width; auto|done| |cbn; lia].
  repeat constructor; cbn; lia.
Defined.

(** C33: codec FPC, for both float widths and every level its builder can
    produce: sources of up to 2 GiB are restored, within the announced size. *)
Theorem fpc_codec_roundtrip (w : nat) (level w' level' : Z) (e e' : ErrorCode) (src : bytes) :
  w = 4%nat \/ w = 8%nat -> 1 <= level <= CompressionCodecFPC.MAX_COMPRESSION_LEVEL -> bytes_ok src -> blen src <= 2 ^ 31 ->
  exists out m, doCompressData (CompressionCodecFPC.codec (Z.of_nat w) level e) src = Ok (out, blen out) /\
    getMaxCompressedDataSize (CompressionCodecFPC.codec (Z.of_nat w) level e) (blen src) = Ok m /\ blen out <= m < 2 ^ 32 /\
    forall err, doDecompressData (CompressionCodecFPC.codec w' level' e') err out (blen src) = Ok (src, blen src).
Proof.
  intros Hw Hlev Hok Hl. destruct (CompressionCodecFPC.fpc_data_roundtrip w level src Hw Hlev (conj Hok Hl)) as (out & ? & _ & ? & ?).
  eexists out, _. split; [done|]. split; [reflexivity|]. auto.
Qed.

Lemma fpc_codec_roundtrip_witness :
  exists out m, doCompressData (CompressionCodecFPC.codec 4 5 CORRUPTED_DATA) [0; 0; 0x80; 0x3f; 9] = Ok (out, blen out) /\
    getMaxCompressedDataSize (CompressionCodecFPC.codec 4 5 CORRUPTED_DATA) 5 = Ok m /\ blen out <= m < 2 ^ 32 /\
    forall err, doDecompressData (CompressionCodecFPC.codec 8 12 CORRUPTED_DATA) err out 5 = Ok ([0; 0; 0x80; 0x3f; 9], 5).
Proof.
  apply (fpc_codec_roundtrip 4 5 8 12 CORRUPTED_DATA CORRUPTED_DATA [0; 0; 0x80; 0x3f; 9]);
    [by left|unfold CompressionCodecFPC.MAX_COMPRESSION_LEVEL; lia| |cbn; lia].
  repeat constructor; cbn; lia.
Defined.

(** C34: codec T64, for every supported type and both variants: sources of up
    to 2 GiB are restored, within the announced size; the type is read from
    the data. *)
Theorem t64_codec_roundtrip (t : TypeIndex.t) (v v' : CompressionCodecT64.Variant) (t' : option TypeIndex.t) (e e' : ErrorCode) (src : bytes) :
  CompressionCodecT64.supported t -> bytes_ok src -> blen src <= 2 ^ 31 ->
  exists out m, doCompressData (CompressionCodecT64.codec (Some t) v e) src = Ok (out, blen out) /\
    getMaxCompressedDataSize (CompressionCodecT64.codec (Some t) v e) (blen src) = Ok m /\ blen out <= m < 2 ^ 32 /\
    forall err, doDecompressData (CompressionCodecT64.codec t' v' e') err out (blen src) = Ok (src, blen src).
Proof.
  intros Ht Hok Hl. destruct (CompressionCodecT64.t64_data_roundtrip t v src Ht (conj Hok Hl)) as (out & ? & _ & ? & ?).
  eexists out, _. split; [done|]. split; [reflexivity|]. auto.
Qed.

Lemma t64_codec_roundtrip_witness :
  exists out m, doCompressData (CompressionCodecT64.codec (Some TypeIndex.Int16) CompressionCodecT64.Bit CORRUPTED_DATA) [3; 0; 255; 255; 7]
      = Ok (out, blen out) /\
    getMaxCompressedDataSize (CompressionCodecT64.codec (Some TypeIndex.Int16) CompressionCodecT64.Bit CORRUPTED_DATA) 5 = Ok m /\
    blen out <= m < 2 ^ 32 /\
    forall err, doDecompressData (CompressionCodecT64.codec None CompressionCodecT64.Byte CORRUPTED_DATA) err out 5 = Ok ([3; 0; 255; 255; 7], 5).
Proof.
  apply (t64_codec_roundtrip TypeIndex.Int16 CompressionCodecT64.Bit CompressionCodecT64.Byte None CORRUPTED_DATA CORRUPTED_DATA
    [3; 0; 255; 255; 7]); [done| |cbn; lia].
  repeat constructor; cbn; lia.
Defined.

(** Codec GCD, given that [boost::math::gcd] and libdivide compute the
    greatest common divisor and the quotient: every source is restored, also
    with values of 16 and 32 bytes and with all values zero; the output is
    longer by two bytes and one value. *)
Theorem gcd_codec_roundtrip (boost_gcd libdivide : Z -> Z -> Z) (w : nat) (w' : Z) (e e' : ErrorCode) (src : bytes) :
  (forall a b, 0 <= a -> 0 <= b -> boost_gcd a b = Z.gcd a b) ->
  (forall d n, uint 64 d -> uint 64 n -> 1 < d -> libdivide d n = n / d) ->
  CompressionCodecGCD.width w -> bytes_ok src -> blen src + Z.of_nat w + 2 < 2 ^ 32 ->
  exists out, doCompressData (CompressionCodecGCD.codec boost_gcd libdivide (Z.of_nat w) e) src = Ok (out, blen out) /\
    blen out = blen src + Z.of_nat w + 2 /\
    forall err, doDecompressData (CompressionCodecGCD.codec boost_gcd libdivide w' e') err out (blen src) = Ok (src, blen src).
Proof.
  intros Hg Hd Hw Hok Hl.
  destruct (CompressionCodecGCD.gcd_data_roundtrip boost_gcd libdivide Hg Hd w src Hw (conj Hok Hl)) as (out & ? & _ & ? & ?).
  exists out. auto.
Qed.

Lemma gcd_codec_roundtrip_witness :
  exists out, doCompressData (CompressionCodecGCD.codec Z.gcd division 1 CORRUPTED_DATA) [6; 9; 15] = Ok (out, blen out) /\ blen out = 6 /\
    forall err, doDecompressData (CompressionCodecGCD.codec Z.gcd division 4 CORRUPTED_DATA) err out 3 = Ok ([6; 9; 15], 3).
Proof.
  apply (gcd_codec_roundtrip Z.gcd division 1 4 CORRUPTED_DATA CORRUPTED_DATA [6; 9; 15]); try done;
    [unfold CompressionCodecGCD.width; auto|].
  repeat constructor; cbn; lia.
Defined.

(** The codecs a chain may consist of. *)
Definition chainable (st : option Z) (boost_gcd libdivide : Z -> Z -> Z) (c : ICompressionCodec) : Prop :=
  modelled st c \/ exists w e, CompressionCodecGCD.width w /\ c = CompressionCodecGCD.codec boost_gcd libdivide (Z.of_nat w) e.

(** C35: a block written by a chain [CODEC(c1, ..., cn)] is read back by the
    codec that its first byte finds in the factory; the chain itself is
    recovered from the block. *)
Theorem codec_chain_read_back (st : option Z) (boost_gcd libdivide : Z -> Z -> Z)
    (third_party : CompressionMethodByte -> CreatorWithType) (lz4hc : CreatorWithType)
    (d : nat) (codecs : list ICompressionCodec) (src : bytes) (e : ErrorCode) :
  (forall a b, 0 <= a -> 0 <= b -> boost_gcd a b = Z.gcd a b) ->
  (forall d n, uint 64 d -> uint 64 n -> 1 < d -> libdivide d n = n / d) ->
  (0 < length codecs <= 255)%nat -> Forall (chainable st boost_gcd libdivide) codecs ->
  bytes_ok src -> 0 < blen src -> CompressionCodecMultiple.reserves_within MAX_SOURCE codecs (blen src) ->
  let get d := instance_get st boost_gcd libdivide third_party lz4hc d in
  exists blk dec, compress (CompressionCodecMultiple.codec (get (S d)) e codecs) src = Ok (blk, blen blk) /\
    readMethod blk = Ok (methodByte Multiple) /\ get (S (S d)) (methodByte Multiple) = Ok dec /\
    decompress dec blk = Ok (src, blen src).
Proof.
  intros Hg Hd Hlen Hc Hok Hpos Hw get_. subst get_. apply chain_read_back; [done| |].
  - eapply Forall_impl; [exact Hc|]. intros c [Hm|(w & e' & Hw' & ->)]; [by apply modelled_link|by apply link_GCD].
  - split; [split; [done|]|done]. destruct codecs; [cbn in Hlen; lia|]. destruct Hw as [Hw _]. lia.
Qed.

Lemma codec_chain_read_back_witness :
  exists blk dec, compress (CompressionCodecMultiple.codec (sample_get 1) CORRUPTED_DATA
      [CompressionCodecDelta.codec 1 CORRUPTED_DATA; CompressionCodecGCD.codec Z.gcd division 1 CORRUPTED_DATA]) [5; 8; 11] = Ok (blk, blen blk) /\
    readMethod blk = Ok (methodByte Multiple) /\ sample_get 2 (methodByte Multiple) = Ok dec /\
    decompress dec blk = Ok ([5; 8; 11], 3).
Proof.
  apply (codec_chain_read_back None Z.gcd division no_codec (no_codec LZ4) 0
    [CompressionCodecDelta.codec (Z.of_nat 1) CORRUPTED_DATA; CompressionCodecGCD.codec Z.gcd division (Z.of_nat 1) CORRUPTED_DATA]);
    try done; [cbn; lia| | |].
  - apply Forall_cons; split; [left; apply M_Delta; unfold width; auto|].
    apply Forall_cons; split; [|done]. right. exists 1%nat. eexists. split; [unfold CompressionCodecGCD.width; auto|done].
  - repeat constructor; cbn; lia.
  - cbn -[Z.le MAX_SOURCE]. split; [done|]. eexists; split; [done|]. split; [done|]. eexists; split; [done|]. done.
Defined.

(** The codecs whose decoders perform no undefined operation on the data of
    a block: GCD only when the values are not of two bytes, which the first
    byte of the data says. *)
Inductive hardened (data : bytes) : ICompressionCodec -> Prop :=
| H_None e : hardened data (CompressionCodecNone e)
| H_Delta w e : hardened data (CompressionCodecDelta.codec w e)
| H_DoubleDelta w e : hardened data (CompressionCodecDoubleDelta.codec w e)
| H_GCD boost_gcd libdivide w e : nth 0 data 0 <> 2 -> hardened data (CompressionCodecGCD.codec boost_gcd libdivide w e)
| H_FPC w level e : hardened data (CompressionCodecFPC.codec w level e)
| H_T64 t v e : hardened data (CompressionCodecT64.codec t v e).

Lemma hardened_safe data c e n : hardened data c -> bytes_ok data -> uint 32 n ->
  match doDecompressData c e data n with
  | Ok (out, r) => blen out <= n /\ r = blen out
  | Throw _ => True
  | Undef => False
  end.
Proof.
  intros [e0|w e0|w e0|g l w e0 H2|w level e0|t v e0] Hok Hn; [..|by apply CompressionCodecGCD.gcd_safe| |];
    refine (safe_data e data n Hok Hn);
    auto using None_safe, CompressionCodecDelta.delta_safe, CompressionCodecDoubleDelta.dd_safe, CompressionCodecFPC.fpc_safe, CompressionCodecT64.t64_safe.
Qed.

(** C12: [decompress] of an arbitrary block with the codecs NONE, Delta,
    DoubleDelta, FPC and T64, and with GCD when the block's data does not
    declare values of two bytes, performs no undefined operation, and when it
    succeeds it has produced exactly the number of bytes that the header
    declares.  (For two byte values GCD multiplies in [int], which overflows
    on damaged data: [gcd_two_bytes_undefined].) *)
Theorem decoders_safe_on_any_block (c : ICompressionCodec) (blk : bytes) :
  hardened (drop 9 blk) c -> bytes_ok blk ->
  match decompress c blk with
  | Ok (out, n) => blen out = n /\ readDecompressedBlockSize c blk = Ok n
  | Throw _ => True
  | Undef => False
  end.
Proof.
  intros Hh Hok. unfold decompress, readDecompressedBlockSize, loadUInt32.
  destruct (Z.ltb_spec (blen blk) COMPRESSED_BLOCK_HEADER_SIZE) as [|Hl]; [done|]. unfold COMPRESSED_BLOCK_HEADER_SIZE in Hl.
  run. destruct blk as [|m blk]; [done|]. cbn [readMethod]. run. destruct (_ =? _); [run|done].
  assert (Nat.leb (5 + 4) (length (m :: blk)) = true) as -> by (apply Nat.leb_le; lia). run.
  set (n := le_load (take 4 (drop 5 (m :: blk)))). destruct (negb (n =? 0)); [run|done].
  assert (bytes_ok (drop 5 (m :: blk))) as Hd by by apply Forall_drop.
  assert (uint 32 n) as Hn.
  { replace 32 with (8 * blen (take 4 (drop 5 (m :: blk)))) by (rewrite length_take, length_drop; lia).
    by apply le_load_uint, Forall_take. }
  pose proof (hardened_safe _ c (decompression_error_code c) n Hh ltac:(by apply Forall_drop) Hn) as Hs.
  change (drop (Z.to_nat COMPRESSED_BLOCK_HEADER_SIZE) (m :: blk)) with (drop 9 (m :: blk)).
  destruct (doDecompressData _ _ _ _) as [[out r]|e|]; [run|done|done]. destruct Hs as [_ ->].
  destruct (Z.eqb_spec n (blen out)) as [E|]; [|done]. run. by rewrite E.
Qed.

Lemma decoders_safe_on_any_block_witness :
  match decompress (CompressionCodecGCD.codec Z.gcd division 4 CORRUPTED_DATA) [0x9a; 200; 0; 0; 0; 3; 0; 0; 0; 1; 0; 255; 255; 7; 9] with
  | Ok (out, n) => blen out = n /\ readDecompressedBlockSize (CompressionCodecGCD.codec Z.gcd division 4 CORRUPTED_DATA)
      [0x9a; 200; 0; 0; 0; 3; 0; 0; 0; 1; 0; 255; 255; 7; 9] = Ok n
  | Throw _ => True
  | Undef => False
  end.
Proof. apply decoders_safe_on_any_block; [constructor; done|]. repeat constructor; cbn; lia. Defined.

(** GCD on a damaged block of two byte values: the product of 65535 and 65535
    overflows [int]. *)
Example gcd_two_bytes_undefined :
  decompress (CompressionCodecGCD.codec Z.gcd division 2 CORRUPTED_DATA) [methodByte GCD; 15; 0; 0; 0; 2; 0; 0; 0; 2; 0; 255; 255; 255; 255] = Undef.
Proof. by vm_compute. Qed.

(** Whatever the bytes are, when Gorilla's decoder returns, it has not
    written more than the declared size, and returns what it wrote. *)
Theorem gorilla_output_within (st : option Z) (w : Z) (e err : ErrorCode) (src : bytes) (n : Z) (out : bytes) (r : Z) :
  bytes_ok src -> uint 32 n -> doDecompressData (CompressionCodecGorilla.codec st w e) err src n = Ok (out, r) ->
  blen out <= n /\ r = blen out.
Proof. intros Hok Hn H. exact (CompressionCodecGorilla.gorilla_output_bound src n out r Hok Hn H). Qed.

Lemma gorilla_output_within_witness : blen [7; 7] <= 2 /\ 2 = blen [7; 7].
Proof.
  apply (gorilla_output_within None 1 CORRUPTED_DATA CORRUPTED_DATA [1; 0; 2; 0; 0; 0; 7; 0] 2 [7; 7] 2);
    [|split; cbn; lia|reflexivity].
  repeat constructor; cbn; lia.
Defined.

(** The size estimate of Gorilla keeps, in a function-local static, the
    field width of the first codec that was used: after a codec for one byte
    values, compressing eight byte values that need the full windows throws. *)
Theorem gorilla_static_estimate_too_small :
  exists src, bytes_ok src /\ blen src = 480 /\
    doCompressData (CompressionCodecGorilla.codec (Some (CompressionCodecGorilla.getBitLengthOfLength 1)) 8 CORRUPTED_DATA) src
      = Throw CANNOT_WRITE_AFTER_END_OF_BUFFER /\
    exists out, doCompressData (CompressionCodecGorilla.codec None 8 CORRUPTED_DATA) src = Ok (out, blen out).
Proof.
  assert (forall src, CompressionCodecGorilla.dom src ->
    exists out, doCompressData (CompressionCodecGorilla.codec None 8 CORRUPTED_DATA) src = Ok (out, blen out)) as Hall.
  { intros src Hd. destruct (CompressionCodecGorilla.gorilla_data_roundtrip None 8 src) as (out & H & _); [unfold width; auto|done|done|].
    by exists out. }
  destruct CompressionCodecGorilla.frozen_static_throws as (Hd & _ & E).
  exists CompressionCodecGorilla.alternating_source. split; [exact (proj1 Hd)|]. split; [by vm_compute|]. split; [exact E|].
  exact (Hall _ Hd).
Qed.

(** Damaged Gorilla data reaches operations that are undefined in C++:
    reading zero bits, and a shift by more than the width of the value. *)
Theorem gorilla_corrupted_undefined (st : option Z) (w : Z) (e err : ErrorCode) :
  doDecompressData (CompressionCodecGorilla.codec st w e) err [1; 0; 2; 0; 0; 0; 1; 0xc0; 0] 2 = Undef /\
  doDecompressData (CompressionCodecGorilla.codec st w e) err [8; 0; 2; 0; 0; 0; 1; 2; 3; 4; 5; 6; 7; 8; 0xff; 0xff; 0xff; 0xff] 16 = Undef.
Proof. exact CompressionCodecGorilla.corrupted_window_undefined. Qed.

(** ** Bit streams *)
Fixpoint write_all (items : list (nat * Z)) (wr : BitWriter.t) : outcome BitWriter.t :=
  match items with
  | [] => Ok wr
  | (n, v) :: items => wr ← BitWriter.writeBits (Z.of_nat n) v wr; write_all items wr
  end.

Fixpoint read_all (items : list (nat * Z)) (r : BitReader.t) : outcome (list Z * BitReader.t) :=
  match items with
  | [] => Ok ([], r)
  | (n, _) :: items => '(v, r) ← BitReader.readBits (Z.of_nat n) r; '(vs, r) ← read_all items r; Ok (v :: vs, r)
  end.

Definition item_bits (item : nat * Z) : list bool := bits_of item.1 item.2.
Definition item_ok (item : nat * Z) : Prop := (0 < item.1 <= 64)%nat.

Lemma write_all_emits items : Forall item_ok items -> BitWriterFacts.emits (write_all items) (concat (item_bits <$> items)).
Proof.
  induction 1 as [|[n v] items Hn _ IH]; [apply BitWriterFacts.emits_ret|].
  apply BitWriterFacts.emits_bind; [by apply BitWriterFacts.emits_writeBits|exact IH].
Qed.

Lemma read_all_reads items : Forall item_ok items ->
  BitReaderFacts.reads (read_all items) (concat (item_bits <$> items)) ((fun item => wrap (Z.of_nat item.1) item.2) <$> items).
Proof.
  induction 1 as [|[n v] items Hn _ IH]; intros r tail Hr; cbn [read_all]; [by exists r|].
  cbn [fmap list_fmap concat] in Hr. rewrite <- app_assoc in Hr.
  destruct (BitReaderFacts.reads_bits_of (Z.of_nat n) n v eq_refl Hn r _ Hr) as (r1 & -> & Hr1). run.
  destruct (IH r1 tail Hr1) as (r2 & -> & Hr2). run. exists r2. by rewrite val_bits_of.
Qed.

Definition total_bits (items : list (nat * Z)) : Z := foldr (fun item n => Z.of_nat item.1 + n) 0 items.

Lemma total_bits_length items : blen (concat (item_bits <$> items)) = total_bits items.
Proof.
  induction items as [|[n v] items IH]; [done|]. cbn [fmap list_fmap concat]. rewrite length_app.
  change (total_bits ((n, v) :: items)) with (Z.of_nat n + total_bits items). unfold item_bits at 1. cbn [fst snd].
  rewrite length_bits_of. lia.
Qed.

Lemma write_all_repr items : Forall item_ok items -> forall wr wr' bs, BitWriterFacts.repr wr bs -> write_all items wr = Ok wr' ->
  exists bs', BitWriterFacts.repr wr' bs'.
Proof.
  induction 1 as [|[n v] items Hn _ IH]; intros wr wr' bs Hr; cbn [write_all]; [intros [= <-]; eauto|].
  intros (wr1 & E1 & E)%bind_Ok_inv. eapply IH; [|exact E]. by eapply BitWriterFacts.writeBits_repr.
Qed.

(** Fields of 1 to 64 bits written with [BitWriter] and flushed are read
    back by [BitReader], each reduced to its width, whenever they fit the
    buffer; the bytes used are the bits rounded up. *)
Theorem bit_stream_roundtrip (items : list (nat * Z)) (size : Z) :
  Forall item_ok items -> total_bits items <= 8 * size ->
  exists wr r, (wr ← write_all items (BitWriter.make size); BitWriter.flush wr) = Ok wr /\
    8 * blen (BitWriter.dest wr) <= total_bits items + 7 /\
    read_all items (BitReader.make (BitWriter.dest wr)) = Ok ((fun item => wrap (Z.of_nat item.1) item.2) <$> items, r).
Proof.
  intros Hok Hsz.
  rewrite <- (total_bits_length items) in Hsz |- *. destruct (BitWriterFacts.emits_flush _ _ size (write_all_emits items Hok) Hsz)
    as (wr & E & Hb & _ & Hle & tail & Hbits).
  pose proof (BitReaderFacts.reader_repr_make _ Hb) as Hr. rewrite Hbits in Hr.
  destruct (read_all_reads items Hok _ _ Hr) as (r & Er & _). by exists wr, r.
Qed.

Lemma bit_stream_roundtrip_witness :
  exists wr r, (wr ← write_all [(3%nat, 5); (64%nat, 2 ^ 63 + 1); (1%nat, 3)] (BitWriter.make 9); BitWriter.flush wr) = Ok wr /\
    8 * blen (BitWriter.dest wr) <= 75 /\
    read_all [(3%nat, 5); (64%nat, 2 ^ 63 + 1); (1%nat, 3)] (BitReader.make (BitWriter.dest wr)) = Ok ([5; 2 ^ 63 + 1; 1], r).
Proof.
  apply (bit_stream_roundtrip [(3%nat, 5); (64%nat, 2 ^ 63 + 1); (1%nat, 3)] 9); [|cbn; lia].
  repeat constructor; cbn; lia.
Defined.

(** Once [writeBits] has thrown for want of room, [flush], which the
    destructor calls, throws as well. *)
Theorem flush_throws_after_failed_write (items : list (nat * Z)) (size : Z) (wr : BitWriter.t) (n : nat) (v : Z) (e : ErrorCode) :
  0 <= size -> Forall item_ok items -> write_all items (BitWriter.make size) = Ok wr ->
  (0 < n <= 64)%nat -> BitWriter.writeBits (Z.of_nat n) v wr = Throw e ->
  e = CANNOT_WRITE_AFTER_END_OF_BUFFER /\ BitWriter.flush wr = Throw CANNOT_WRITE_AFTER_END_OF_BUFFER.
Proof.
  intros Hs Hok Hw Hn. destruct (write_all_repr items Hok _ _ _ (BitWriterFacts.writer_repr_make size Hs) Hw) as (bs & Hr).
  by apply (BitWriterFacts.flush_after_failed_write n v wr bs).
Qed.

Lemma flush_throws_after_failed_write_witness :
  exists wr, write_all [(64%nat, 1); (60%nat, 2)] (BitWriter.make 3) = Ok wr /\ BitWriter.flush wr = Throw CANNOT_WRITE_AFTER_END_OF_BUFFER.
Proof.
  eexists. split; [vm_compute; reflexivity|].
  apply (flush_throws_after_failed_write [(64%nat, 1); (60%nat, 2)] 3 _ 8 1 CANNOT_WRITE_AFTER_END_OF_BUFFER); try done; [|lia].
  repeat constructor; cbn; lia.
Defined.

(** [BitReader] never throws: reading any fields from any bytes, also
    beyond their end, succeeds. *)
Theorem bit_reader_never_throws (items : list (nat * Z)) (src : bytes) :
  Forall item_ok items -> exists vs r, read_all items (BitReader.make src) = Ok (vs, r).
Proof.
  intros Hok. assert (forall r, BitReaderFacts.wf r -> exists vs r', read_all items r = Ok (vs, r')) as H.
  { induction Hok as [|[n v] items Hn _ IH]; intros r Hr; cbn [read_all]; [eauto|]. unfold item_ok in Hn. cbn in Hn.
    destruct (BitReaderFacts.readBits_wf (Z.of_nat n) r ltac:(lia) Hr) as (x & r1 & -> & Hr1). run.
    destruct (IH r1 Hr1) as (vs & r2 & ->). run. eauto. }
  apply H. unfold BitReaderFacts.wf, uint. cbn. lia.
Qed.

Lemma bit_reader_never_throws_witness : exists vs r, read_all [(5%nat, 0); (64%nat, 0); (64%nat, 0)] (BitReader.make [255]) = Ok (vs, r).
Proof. apply bit_reader_never_throws. repeat constructor; cbn; lia. Defined.

(** The bit matrix transposition of T64 is inverted by its reverse, for
    a block of up to 64 values: the [num_bits] low bits of every value come
    back, and what follows the block is not read. *)
Theorem t64_transpose_inverse (w : nat) (full : bool) (vs : list Z) (num_bits : Z) (rest : bytes) :
  width w -> (length vs <= 64)%nat -> 0 < num_bits <= 8 * Z.of_nat w ->
  CompressionCodecT64.reverseTransposeImpl w full (CompressionCodecT64.transposeImpl w full vs num_bits ++ rest) num_bits (length vs) =
    (fun v => wrap num_bits v) <$> vs.
Proof. apply CompressionCodecT64.block_roundtrip_bits. Qed.

Lemma t64_transpose_inverse_witness :
  CompressionCodecT64.reverseTransposeImpl 2 true (CompressionCodecT64.transposeImpl 2 true [1; 300; 512] 9 ++ [9]) 9 3 = [1; 300; 0].
Proof. apply (t64_transpose_inverse 2 true [1; 300; 512] 9 [9]); [unfold width; auto|cbn; lia|lia]. Defined.

(** The constructor of the factory registers every codec under distinct
    names and bytes, so it does not throw, and the codec made for reading a
    method byte answers to that byte. *)
Theorem factory_answers_every_method (st : option Z) (boost_gcd libdivide : Z -> Z -> Z)
    (third_party : CompressionMethodByte -> CreatorWithType) (lz4hc : CreatorWithType) (d : nat) :
  (forall m args ty c, third_party m args ty = Ok c -> getMethodByte c = methodByte m) ->
  (exists f, register_all (registrations st boost_gcd libdivide third_party lz4hc (instance_get st boost_gcd libdivide third_party lz4hc d)) = Ok f) /\
  forall m codec, instance_get st boost_gcd libdivide third_party lz4hc (S d) (methodByte m) = Ok codec -> getMethodByte codec = methodByte m.
Proof.
  intros H3. split; [|intros m codec; by apply get_method_byte].
  destruct (registrations_distinct st boost_gcd libdivide third_party lz4hc (instance_get st boost_gcd libdivide third_party lz4hc d)) as [Hn Hc].
  destruct (register_all_ok _ Hn Hc) as (f & E & _). eauto.
Qed.

Lemma factory_answers_every_method_witness :
  (exists f, register_all (registrations None Z.gcd division no_codec (no_codec LZ4) (sample_get 0)) = Ok f) /\
  forall m codec, sample_get 1 (methodByte m) = Ok codec -> getMethodByte codec = methodByte m.
Proof. apply (factory_answers_every_method None Z.gcd division no_codec (no_codec LZ4) 0). done. Defined.

(** What the sanity check lets pass: transformations, then at most one
    general purpose codec, then encryption; and codec NONE only alone. *)
Theorem sanity_check_shape (codecs : list ICompressionCodec) (column_is_float : option bool) :
  sanity_check codecs column_is_float = Ok tt -> Forall (fun c => isEncryption c = true -> isGenericCompression c = false) codecs ->
  exists transforms generic ciphers, codecs = transforms ++ generic ++ ciphers /\ (length generic <= 1)%nat /\
    Forall (fun c => isGenericCompression c = true) generic /\
    Forall (fun c => isGenericCompression c = false /\ isEncryption c = false) transforms /\
    Forall (fun c => isEncryption c = true) ciphers /\
    ((1 < length codecs)%nat -> Forall (fun c => isNone c = false) codecs).
Proof. apply sanity_check_accepts. Qed.

Lemma sanity_check_shape_witness :
  exists transforms generic ciphers, [CompressionCodecDelta.codec 4 CORRUPTED_DATA; CompressionCodecT64.codec None CompressionCodecT64.Bit CORRUPTED_DATA]
      = transforms ++ generic ++ ciphers /\ (length generic <= 1)%nat.
Proof.
  destruct (sanity_check_shape [CompressionCodecDelta.codec 4 CORRUPTED_DATA; CompressionCodecT64.codec None CompressionCodecT64.Bit CORRUPTED_DATA]
    None eq_refl) as (t & g & c & E & Hg & _); [by repeat constructor|]. exists t, g, c. by split.
Defined.

(** The builder of FPC truncates the level to eight bits before it checks
    its range: [FPC(257)] is accepted, and is [FPC(1)]. *)
Theorem fpc_level_wraps (ty : option IDataType) :
  registerCodecFPC (Some [LiteralUInt64 257]) ty = registerCodecFPC (Some [LiteralUInt64 1]) ty /\
  registerCodecFPC (Some [LiteralUInt64 257]) None = Ok (CompressionCodecFPC.codec 4 1 CORRUPTED_DATA) /\
  registerCodecFPC (Some [LiteralUInt64 29]) None = Throw ILLEGAL_CODEC_PARAMETER.
Proof. done. Qed.

(** ** Predictors of FPC *)
Definition train (w : nat) (size : Z) (values : list Z) : outcome FPCOperation.t :=
  foldl (fun s v => s ← s;
    d ← DfcmPredictor.add w v (FPCOperation.dfcm_predictor s); f ← FcmPredictor.add w v (FPCOperation.fcm_predictor s);
    Ok (FPCOperation.Make d f)) (Ok (FPCOperation.Make (DfcmPredictor.make size) (FcmPredictor.make size))) values.

(** The hash tables of FPC, of [1 << level] entries, are never indexed
    out of bounds, whatever values are added, and predict values of the type. *)
Theorem fpc_predictors_in_bounds (w : nat) (level : Z) (values : list Z) :
  0 <= level -> Forall (uint (8 * Z.of_nat w)) values ->
  exists s x y, train w (2 ^ level) values = Ok s /\
    DfcmPredictor.predict w (FPCOperation.dfcm_predictor s) = Ok x /\ uint (8 * Z.of_nat w) x /\
    FcmPredictor.predict (FPCOperation.fcm_predictor s) = Ok y /\ uint (8 * Z.of_nat w) y.
Proof.
  intros Hl Hv. assert (exists l, 0 <= l /\ 2 ^ level = 2 ^ l) as Hsize by eauto.
  assert (exists s, train w (2 ^ level) values = Ok s /\ dfcm_ok w (2 ^ level) (FPCOperation.dfcm_predictor s) /\
    fcm_ok w (2 ^ level) (FPCOperation.fcm_predictor s)) as (s & E & Hd & Hf).
  { unfold train. induction values as [|v values IH] using rev_ind.
    - eexists. split; [reflexivity|]. assert (0 < 2 ^ level) by (apply Z.pow_pos_nonneg; lia).
      split; (split; [done|split; [cbn; lia|apply map_Forall_empty]]).
    - apply Forall_app in Hv as [Hv [Hx _]%Forall_cons]. destruct (IH Hv) as (s & E & Hd & Hf). rewrite foldl_app, E. cbn [foldl]. run.
      destruct (dfcm_add_ok w (2 ^ level) Hsize v _ Hd) as (d' & -> & Hd'). run.
      destruct (fcm_add_ok w (2 ^ level) Hsize v _ Hx Hf) as (f' & -> & Hf'). run. eauto. }
  destruct (dfcm_predict_ok w _ _ Hd) as (x & ? & ?), (fcm_predict_ok w _ _ Hf) as (y & ? & ?). by exists s, x, y.
Qed.

Lemma fpc_predictors_in_bounds_witness :
  exists s x y, train 8 (2 ^ 3) [2 ^ 63; 5; 2 ^ 40] = Ok s /\
    DfcmPredictor.predict 8 (FPCOperation.dfcm_predictor s) = Ok x /\ uint 64 x /\
    FcmPredictor.predict (FPCOperation.fcm_predictor s) = Ok y /\ uint 64 y.
Proof. apply (fpc_predictors_in_bounds 8 3 [2 ^ 63; 5; 2 ^ 40]); [lia|]. repeat constructor; cbn; lia. Defined.
