(* ===== verification/TextTheorems.v ===== *)
(** * What the conversion of integers to text guarantees *)

From stdpp Require Import prelude.
From Stdlib Require Import ZArith Lia.
From S2P Require Import Prelude Itoa.

(** C37: [itoa] into the temporary buffer of [writeUIntTextFallback] produces
    the decimal digits of the number, for every integer type of 8 to 256 bits
    and every value, the minimum included; the buffer is never overrun. *)
Theorem integer_text_is_decimal (signed : bool) (w i : Z) :
  int_width w -> int_range signed w i -> writeIntText signed w i = Ok (decimal_text i).
Proof. apply writeIntText_spec. Qed.

Lemma integer_text_is_decimal_witness : writeIntText true 16 (-32768) = Ok (decimal_text (-32768)).
Proof. apply integer_text_is_decimal; [unfold int_width; auto|split; cbn; lia]. Defined.

(** At any place of a buffer with room for the text, [itoa] writes the
    decimal text there, keeps what is in front of it and returns the end. *)
Theorem itoa_in_place (signed : bool) (w i : Z) (before junk : bytes) :
  int_width w -> int_range signed w i -> blen (decimal_text i) <= blen junk ->
  exists after, itoa signed w i (At (before ++ junk) (blen before)) =
    Ok (At (before ++ decimal_text i ++ after) (blen before + blen (decimal_text i))) /\
    blen after = blen junk - blen (decimal_text i).
Proof.
  intros Hw Hi Hl. destruct (itoa_writes signed w i Hw Hi (At (before ++ junk) (blen before)) before (blen junk))
    as ([buf p] & E & after & Hb & Hp & Ha); [by exists junk|done|].
  cbn in Hb, Hp. exists after. rewrite E, Hb, Hp, length_app, <- app_assoc. split; [|done]. by rewrite Nat2Z.inj_add.
Qed.

Lemma itoa_in_place_witness :
  exists after, itoa true 8 (-128) (At [65; 0; 0; 0; 0; 0] 1) = Ok (At (65 :: decimal_text (-128) ++ after) 5) /\ blen after = 1.
Proof. apply (itoa_in_place true 8 (-128) [65] [0; 0; 0; 0; 0]); [unfold int_width; auto|split; cbn; lia|vm_compute; congruence]. Defined.

(** The Barrett reduction by [10^18], with one correction step, is exact
    for every 128-bit number. *)
Theorem barrett_reduction_exact (n : Z) :
  0 <= n < 2 ^ 128 -> divmod_1e18 n = (n / 10 ^ 18, n mod 10 ^ 18).
Proof. exact (divmod_1e18_spec n). Qed.

Lemma barrett_reduction_exact_witness : divmod_1e18 (2 ^ 128 - 1) = ((2 ^ 128 - 1) / 10 ^ 18, (2 ^ 128 - 1) mod 10 ^ 18).
Proof. apply barrett_reduction_exact. lia. Defined.

Lemma reduce256_length fuel : forall x acc p vs, reduce256 fuel x acc = Ok (p, vs) -> (length vs <= length acc + 9 * fuel)%nat.
Proof.
  induction fuel as [|fuel IH]; intros x acc p vs; cbn [reduce256]; (destruct (_ <? x); [|intros [= _ <-]; lia]); [done|].
  intros (_ & _ & H)%bind_Ok_inv. apply IH in H. rewrite length_app in H. cbn in H. lia.
Qed.

(** The loop that cuts blocks of eighteen digits off a 256-bit number
    ends after at most three rounds, with at most 27 digit pairs. *)
Theorem reduce256_terminates (x : Z) :
  0 < x < 2 ^ 256 ->
  exists p pairs, reduce256 3 x [] = Ok (p, pairs) /\ 0 < p < 2 ^ 128 /\ (length pairs <= 27)%nat /\
    decimal x = decimal p ++ concat (two <$> reverse pairs).
Proof.
  intros Hx. destruct (reduce256_spec 3 x []) as (p & vs & E & Hp & _ & Hd); [cbn; lia|cbn; lia|].
  exists p, vs. split; [exact E|]. split; [done|]. split; [|done].
  by apply reduce256_length in E.
Qed.

Lemma reduce256_terminates_witness :
  exists p pairs, reduce256 3 (2 ^ 255) [] = Ok (p, pairs) /\ 0 < p < 2 ^ 128 /\ (length pairs <= 27)%nat /\
    decimal (2 ^ 255) = decimal p ++ concat (two <$> reverse pairs).
Proof. apply reduce256_terminates. lia. Defined.
