(* ===== verification/StorageTheorems.v ===== *)
(** * What names of parts and the set of active parts guarantee *)

From stdpp Require Import prelude sorting.
From Stdlib Require Import ZArith Lia.
From S2P Require Import Prelude Bits Itoa IntText VarInt ReadHelpers Orders.
From S2P Require Import PartInfo PartInfoFacts ActiveDataPartSet ActiveDataPartSetFacts.
Import MergeTreePartInfo ActiveDataPartSet.

(** A small table: parts [a_1_3_1] and [a_4_4_0] in partition [a]. *)
Definition part (id : Z) (lo hi lev : Z) : t := make [id] lo hi lev 0.
Definition small_set : list entry := [(part 97 1 3 1, [97; 95; 49; 95; 51; 95; 49]); (part 97 4 4 0, [97; 95; 52; 95; 52; 95; 48])].

Lemma small_set_inv : inv small_set.
Proof.
  split.
  - apply StronglySorted_cons. split; [|repeat constructor]. constructor; [|done]. right. split; [done|cbn; lia].
  - repeat constructor; cbn; lia.
Qed.

Lemma part_wf id lo hi lev : lo <= hi -> well_formed (part id lo hi lev).
Proof. by split. Qed.

(** ** The set of active parts *)

(** C2: [addImpl] does what the set asks for, although it only walks from one
    place of the map: a part covered by another is refused, a part that
    overlaps another without containing it is refused, with that part named in
    the reason, and otherwise exactly the parts it contains are replaced, their
    names returned in the order of the set. The set stays disjoint. *)
Theorem active_set_add_refines (m : list entry) (part_info : t) (name : bytes) (before_call : list bytes) :
  inv m -> well_formed part_info ->
  add_spec m part_info name (addImpl m part_info name before_call) /\ inv (parts (addImpl m part_info name before_call)).
Proof. apply addImpl_spec. Qed.

Lemma active_set_add_refines_witness :
  add_spec small_set (part 97 1 4 2) [120] (addImpl small_set (part 97 1 4 2) [120] []) /\
  inv (parts (addImpl small_set (part 97 1 4 2) [120] [])).
Proof. apply (active_set_add_refines small_set (part 97 1 4 2) [120] []); [exact small_set_inv|apply part_wf; lia]. Defined.

(** C6: after any sequence of additions and removals, by part or by name, those
    that throw included, the parts of the set are well formed and pairwise
    disjoint, in the order of the map, and every name is the name of its part. *)
Theorem active_set_invariant (version : Z) (s : set) :
  rtc step (Make version []) s ->
  StronglySorted entry_before (part_info_to_name s) /\
  (forall a b, a ∈ part_info_to_name s -> b ∈ part_info_to_name s -> a = b \/ isDisjoint a.1 b.1 = true) /\
  (forall e, e ∈ part_info_to_name s -> well_formed e.1 /\ fromPartName e.2 (format_version s) = Ok e.1).
Proof.
  intros H. destruct (set_inv_reachable version s H) as [Hi Hc]. split; [apply Hi|]. split; [by intros; apply (inv_disjoint (part_info_to_name s))|].
  intros e He. destruct Hi as [_ Hok]. unfold coherent in Hc. rewrite Forall_forall in Hok, Hc. split; [by apply Hok|by apply Hc].
Qed.

Lemma active_set_invariant_witness : 
  exists s, part_info_to_name s = [(part 97 1 4 2, [97; 95; 49; 95; 52; 95; 50])] /\
  forall e, e ∈ part_info_to_name s -> well_formed e.1 /\ fromPartName e.2 (format_version s) = Ok e.1.
Proof.
  exists (add (add (Make 1 []) [97; 95; 49; 95; 51; 95; 49] []).2 [97; 95; 49; 95; 52; 95; 50] []).2. split; [vm_compute; reflexivity|].
  apply (active_set_invariant 1). eapply rtc_l; [apply (step_add (Make 1 []) [97; 95; 49; 95; 51; 95; 49] [])|].
  apply rtc_once. apply step_add.
Defined.

(** C14: the two neighbours are enough: [getContainingPartImpl] finds a part of
    the set exactly when it contains the given one, and there is at most one
    such part. *)
Theorem containing_part_exact (m : list entry) (part_info : t) (e : entry) :
  inv m -> well_formed part_info ->
  (getContainingPartImpl m part_info = Some e <-> e ∈ m /\ contains e.1 part_info = true).
Proof. apply getContainingPartImpl_spec. Qed.

Lemma containing_part_exact_witness :
  getContainingPartImpl small_set (part 97 2 3 0) = Some (part 97 1 3 1, [97; 95; 49; 95; 51; 95; 49]) <->
  (part 97 1 3 1, [97; 95; 49; 95; 51; 95; 49]) ∈ small_set /\ contains (part 97 1 3 1) (part 97 2 3 0) = true.
Proof. apply (containing_part_exact small_set (part 97 2 3 0) (part 97 1 3 1, [97; 95; 49; 95; 51; 95; 49])); [exact small_set_inv|apply part_wf; lia]. Defined.

(** When every part of the set is contained in the given one, apart from
    it, or contains it, [getPartsCoveredBy] returns the names of exactly the
    contained parts, in order. *)
Theorem covered_parts_exact (s : set) (part_info : t) :
  inv (part_info_to_name s) -> well_formed part_info ->
  (forall e, e ∈ part_info_to_name s -> contains part_info e.1 = true \/ isDisjoint part_info e.1 = true \/ contains e.1 part_info = true) ->
  getPartsCoveredBy s part_info = snd <$> filter (contained part_info) (part_info_to_name s).
Proof. intros. unfold getPartsCoveredBy. by rewrite getPartsCoveredByImpl_spec. Qed.

Lemma covered_parts_exact_witness :
  getPartsCoveredBy (Make 1 small_set) (part 97 1 4 2) = snd <$> filter (contained (part 97 1 4 2)) small_set.
Proof.
  apply (covered_parts_exact (Make 1 small_set) (part 97 1 4 2)); [exact small_set_inv|apply part_wf; lia|].
  cbn [part_info_to_name]. unfold small_set. intros e. rewrite !elem_of_cons, elem_of_nil. intros [->|[->|[]]]; by left.
Defined.

(** [checkIntersectingParts] throws [LOGICAL_ERROR] exactly when some part
    of the set overlaps the given one without being contained in it. *)
Theorem intersection_check_exact (s : set) (part_info : t) :
  inv (part_info_to_name s) -> well_formed part_info ->
  (checkIntersectingParts s part_info = Ok tt /\ fits part_info (part_info_to_name s)) \/
  (checkIntersectingParts s part_info = Throw LOGICAL_ERROR /\ ~ fits part_info (part_info_to_name s)).
Proof. apply checkIntersectingParts_spec. Qed.

Lemma intersection_check_exact_witness :
  (checkIntersectingParts (Make 1 small_set) (part 97 3 5 9) = Ok tt /\ fits (part 97 3 5 9) small_set) \/
  (checkIntersectingParts (Make 1 small_set) (part 97 3 5 9) = Throw LOGICAL_ERROR /\ ~ fits (part 97 3 5 9) small_set).
Proof. apply (intersection_check_exact (Make 1 small_set) (part 97 3 5 9)); [exact small_set_inv|apply part_wf; lia]. Defined.

(** [removePartAndCoveredParts] leaves exactly the parts that the given one
    does not contain, but its result is never [true]: either the part itself
    was not in the set, or it is removed a second time by its name. *)
Theorem remove_covered_result (s : set) (part_info : t) :
  set_inv s -> well_formed part_info ->
  (removePartAndCoveredParts s part_info).1 = Ok false /\
  (fits part_info (part_info_to_name s) ->
   (removePartAndCoveredParts s part_info).2 = with_parts s (filter (kept part_info) (part_info_to_name s))).
Proof. intros Hs Wx. destruct (removePartAndCoveredParts_spec s part_info Hs Wx) as (H1 & _ & H2). done. Qed.

Lemma remove_covered_result_witness :
  (removePartAndCoveredParts (Make 1 small_set) (part 97 1 3 1)).1 = Ok false.
Proof.
  refine (proj1 (remove_covered_result (Make 1 small_set) (part 97 1 3 1) _ _)); [|apply part_wf; lia].
  split; [exact small_set_inv|]. repeat constructor; vm_compute; reflexivity.
Defined.

(** [hasPartitionId] looks at one entry behind a default part of the
    partition; for parts with non-negative block numbers that decides whether
    the set has a part of the partition. *)
Theorem has_partition_exact (s : set) (id : bytes) :
  inv (part_info_to_name s) ->
  Forall (fun e => 0 <= min_block e.1 /\ 0 <= level e.1 /\ 0 <= mutation e.1) (part_info_to_name s) ->
  (hasPartitionId s id = true <-> exists e, e ∈ part_info_to_name s /\ partition_id e.1 = id).
Proof. apply hasPartitionId_spec. Qed.

Lemma has_partition_exact_witness :
  hasPartitionId (Make 1 small_set) [97] = true <-> exists e, e ∈ small_set /\ partition_id e.1 = [97].
Proof. apply (has_partition_exact (Make 1 small_set) [97]); [exact small_set_inv|]. repeat constructor; cbn; lia. Defined.

(** ** Parts *)

(** On well-formed parts with 32-bit levels [contains] is a partial order
    up to the key of the map, and it excludes [isDisjoint]: what is apart from
    a part is apart from everything it contains. *)
Theorem contains_partial_order (a b c : t) :
  well_formed a -> well_formed b -> uint 32 (level a) ->
  contains a a = true /\
  (contains a b = true -> contains b c = true -> contains a c = true) /\
  (contains a b = true -> contains b a = true -> toTuple a = toTuple b) /\
  (contains a b = true -> isDisjoint a b = false) /\
  (contains a b = true -> isDisjoint a c = true -> isDisjoint b c = true).
Proof.
  intros Wa Wb Hl. split_and!.
  - apply contains_refl.
  - by apply contains_trans.
  - apply contains_antisym; [apply Wa|apply Wb].
  - apply contains_overlaps, Wb.
  - apply disjoint_contained.
Qed.

Lemma contains_partial_order_witness : contains (part 97 1 4 2) (part 97 3 3 0) = true.
Proof. refine (proj1 (proj2 (contains_partial_order (part 97 1 4 2) (part 97 1 3 1) (part 97 3 3 0) _ _ _)) _ _); try reflexivity; try (apply part_wf; lia); cbn; unfold uint; lia. Defined.

(** For candidates of one partition, [areAllBlockNumbersCovered] returns,
    and returns [true] exactly when every block of the range is in one
    candidate and no candidate has any other block, in whatever order they
    are given; the block numbers must have neighbours in 64 bits. *)
Theorem block_numbers_covered_exactly (blocks_range : t) (candidates : list t) (key : Z * bytes) :
  min_block blocks_range <= max_block blocks_range ->
  Forall (fun p => inner_range p /\ partition_key p = key) candidates ->
  exists r, areAllBlockNumbersCovered blocks_range candidates = Ok r /\
    (r = true <-> covers_exactly (min_block blocks_range) (max_block blocks_range) candidates).
Proof. apply areAllBlockNumbersCovered_spec. Qed.

Lemma block_numbers_covered_exactly_witness :
  exists r, areAllBlockNumbersCovered (part 97 1 4 0) [part 97 4 4 0; part 97 1 3 1] = Ok r /\
    (r = true <-> covers_exactly 1 4 [part 97 4 4 0; part 97 1 3 1]).
Proof.
  apply (block_numbers_covered_exactly (part 97 1 4 0) [part 97 4 4 0; part 97 1 3 1] (0, [97])); [cbn; lia|].
  repeat constructor; cbn; lia.
Defined.

(** C11: a part with a non-empty partition without underscores, an ordered
    64-bit range and 32-bit level and mutation has a name, and
    [tryParsePartName] gives the part back, whether it is a patch, is mutated
    or stands for the old maximal level. *)
Theorem part_name_roundtrip (p : t) :
  nameable p -> exists name, getPartNameV1 p = Ok name /\ tryParsePartName name 1 = Ok (Some p).
Proof. apply part_name_parses. Qed.

Lemma part_name_roundtrip_witness :
  exists name, getPartNameV1 (MergeTreePartInfo.Make Regular [97; 45] (-5) 7 MAX_LEVEL 12 true) = Ok name /\
    tryParsePartName name 1 = Ok (Some (MergeTreePartInfo.Make Regular [97; 45] (-5) 7 MAX_LEVEL 12 true)).
Proof.
  apply part_name_roundtrip. constructor; cbn; unfold uint, MAX_LEVEL, underscore; try lia; try done.
  split; [discriminate|]. repeat constructor; discriminate.
Defined.

(** C36: [tryParsePartName] returns on every string in both formats, and
    whatever it accepts is a part that has a name of its own, from which the
    same part is parsed. *)
Theorem part_name_parsing_sound (part_name : bytes) (format_version : Z) :
  exists o, tryParsePartName part_name format_version = Ok o /\
    forall p, o = Some p -> nameable p /\ exists name, getPartNameV1 p = Ok name /\ tryParsePartName name 1 = Ok (Some p).
Proof.
  destruct (tryParsePartName_nameable part_name format_version) as (o & E & H). exists o. split; [done|].
  intros p Hp. specialize (H p Hp). split; [done|]. by apply part_name_parses.
Qed.

(** A detached directory [<reason>_<part name>] is split at its reason
    although some reasons begin with others, and the plain name of a part whose
    partition is no reason is parsed without a prefix. *)
Theorem detached_name_parsed (disk : Z) (reason : bytes) (p : t) :
  nameable p ->
  exists name, getPartNameV1 p = Ok name /\
    (reason ∈ DetachedPartInfo.DETACH_REASONS ->
     DetachedPartInfo.parseDetachedPartName disk (reason ++ underscore :: name) 1 =
       Ok (DetachedPartInfo.Make p (reason ++ underscore :: name) reason disk true)) /\
    (partition_id p ∉ DetachedPartInfo.DETACH_REASONS ->
     DetachedPartInfo.parseDetachedPartName disk name 1 = Ok (DetachedPartInfo.Make p name [] disk true)).
Proof.
  intros Hp. destruct (part_name_parses p Hp) as (name & Hn & Hparse). exists name. split; [done|]. split.
  - intros Hr. by apply detached_reason_parses.
  - intros Hid. by apply detached_plain_parses.
Qed.

Lemma detached_name_parsed_witness :
  exists name, getPartNameV1 (part 97 1 3 1) = Ok name /\
    ([99; 108; 111; 110; 101] ∈ DetachedPartInfo.DETACH_REASONS ->
     DetachedPartInfo.parseDetachedPartName 0 ([99; 108; 111; 110; 101] ++ underscore :: name) 1 =
       Ok (DetachedPartInfo.Make (part 97 1 3 1) ([99; 108; 111; 110; 101] ++ underscore :: name) [99; 108; 111; 110; 101] 0 true)) /\
    (partition_id (part 97 1 3 1) ∉ DetachedPartInfo.DETACH_REASONS ->
     DetachedPartInfo.parseDetachedPartName 0 name 1 = Ok (DetachedPartInfo.Make (part 97 1 3 1) name [] 0 true)).
Proof.
  apply detached_name_parsed. constructor; cbn; unfold uint, LEGACY_MAX_LEVEL, underscore; try lia; try done.
  split; [discriminate|]. repeat constructor; discriminate.
Defined.

(** [deserialize] reads back what [serialize] wrote, whatever follows,
    except the kind, which stays that of the object read into. *)
Theorem part_binary_roundtrip (self p : t) (rest : bytes) :
  storable p -> deserialize self (serialize p ++ rest) = Ok (with_kind (kind self) p, rest).
Proof. apply deserialize_serialize. Qed.

Lemma part_binary_roundtrip_witness :
  deserialize default (serialize (make [112; 97; 116; 99; 104; 45] 1 2 3 4) ++ [7]) = Ok (with_kind Regular (make [112; 97; 116; 99; 104; 45] 1 2 3 4), [7]).
Proof. apply (part_binary_roundtrip default). constructor; cbn; unfold DEFAULT_MAX_STRING_SIZE; lia. Defined.

(** ** Numbers *)

(** C38: [tryReadIntText] agrees with the reference that takes an optional sign
    and the longest run of decimal digits and asks whether the number fits the
    type, for all widths up to 64 bits: overflow is detected exactly, the
    smallest negative number is accepted, an unsigned type takes no minus, a
    sign needs digits but no digits without a sign read as zero. *)
Theorem integer_parsing_exact (signed : bool) (w : Z) (buf : bytes) :
  0 < w <= 64 -> tryReadIntText signed w buf = read_reference signed w buf.
Proof. apply tryReadIntText_spec. Qed.

Lemma integer_parsing_exact_witness : tryReadIntText true 8 [45; 49; 50; 56; 95] = read_reference true 8 [45; 49; 50; 56; 95].
Proof. apply integer_parsing_exact. lia. Defined.

(** A 64-bit number, and by the zigzag code a signed one, is read back from
    its variable-length form with the rest of the input untouched; the form
    has the announced length, and skipping it leaves the same rest. *)
Theorem varint_roundtrip (x v : Z) (rest : bytes) :
  uint 64 x -> int_range true 64 v ->
  readVarUInt (writeVarUInt x ++ rest) = Ok (x, rest) /\ ignoreVarUInt (writeVarUInt x ++ rest) = Ok rest /\
  blen (writeVarUInt x) = getLengthOfVarUInt x /\ readVarInt (writeVarInt v ++ rest) = Ok (v, rest).
Proof.
  intros Hx Hv. split_and!; [by apply readVarUInt_write| |by apply length_writeVarUInt|by apply readVarInt_write].
  rewrite ignoreVarUInt_read, readVarUInt_write by done. done.
Qed.

Lemma varint_roundtrip_witness :
  readVarUInt (writeVarUInt 300 ++ [9]) = Ok (300, [9]) /\ ignoreVarUInt (writeVarUInt 300 ++ [9]) = Ok [9] /\
  blen (writeVarUInt 300) = getLengthOfVarUInt 300 /\ readVarInt (writeVarInt (- 2 ^ 63) ++ [9]) = Ok (- 2 ^ 63, [9]).
Proof. apply varint_roundtrip; [unfold uint; lia|unfold int_range; lia]. Defined.
