(* ===== verification/MarksTheorems.v ===== *)
(** * What index granularity and the sequence of alters guarantee *)

From stdpp Require Import prelude gmap.
From Stdlib Require Import ZArith Lia.
From S2P Require Import Prelude Granularity GranularityFacts AltersSequence.

(** ** Index granularity *)

(** Three marks of ten rows, one of four, and a final mark. *)
Definition some_rows : list Z := [10; 10; 10; 4].
Definition some_sums : Adaptive.t := [10; 20; 30; 34; 34].

Lemma some_rep : adaptive_rep some_sums some_rows true.
Proof. split; [constructor; [repeat constructor; lia|cbn; lia|cbn; lia]|reflexivity]. Qed.

(** [optimize] returns, and when it replaces the partial sums by a constant
    granularity, every query about marks and rows has the same answer: the
    numbers of marks and rows, the rows of a mark, of a range that starts at a
    data mark, and of enough marks for a number of rows, and the mark of a row.
    It gives up only when the marks before the last differ. *)
Theorem optimize_preserves_queries (g : Adaptive.t) (data : list Z) (final : bool) :
  adaptive_rep g data final ->
  exists o, Adaptive.optimize g = Ok o /\
    match o with
    | None => data = [] \/ ~ constant_but_last data
    | Some c => alike c g data
    end.
Proof.
  intros Hg. destruct (optimize_spec g data final Hg) as (o & E & Ho). exists o. split; [done|]. destruct o as [c|]; [|done].
  exact (@same_rep_alike Constant.t Adaptive.t _ constant_laws _ adaptive_laws c g data final Ho Hg).
Qed.

Lemma optimize_preserves_queries_witness :
  exists o, Adaptive.optimize some_sums = Ok o /\ match o with None => some_rows = [] \/ ~ constant_but_last some_rows | Some c => alike c some_sums some_rows end.
Proof. exact (optimize_preserves_queries some_sums some_rows true some_rep). Defined.

(** Through the interface alone: in every implementation that keeps its
    laws, [addRowsToLastMark] enlarges the last mark by the rows, starts the
    first mark of an empty part when such a mark can be appended, and refuses
    to touch a final mark. *)
Theorem add_rows_to_last_mark {G : Type} `{GranularityLaws G} (g : G) (d : list Z) (m rows : Z) :
  0 < rows ->
  (rep g (d ++ [m]) false -> proper_marks (d ++ [m + rows]) ->
   exists g', addRowsToLastMark g rows = Ok g' /\ rep g' (d ++ [m + rows]) false) /\
  (rep g [] false -> growable g rows -> rows < 2 ^ 64 -> exists g', addRowsToLastMark g rows = Ok g' /\ rep g' [rows] false) /\
  (forall data, rep g data true -> addRowsToLastMark g rows = Throw LOGICAL_ERROR).
Proof.
  intros Hr. unfold addRowsToLastMark, empty, getLastMarkRows. split_and!.
  - intros Hrep Hp. rewrite (rep_final g _ _ Hrep). run. rewrite (rep_count g _ _ Hrep), length_app. cbn [length Z.b2z].
    destruct (Z.eqb_spec (Z.of_nat (length d + 1) + 0) 0); [lia|]. pose proof (proper_length _ Hp) as Hl. rewrite length_app in Hl. cbn [length] in Hl.
    rewrite wrap_id by (unfold uint; lia). rewrite (rep_mark_rows g _ _ _ Hrep) by lia. rewrite length_app. cbn [length Z.b2z].
    destruct (Z.ltb_spec (Z.of_nat (length d + 1) + 0 - 1) (Z.of_nat (length d + 1) + 0)); [|lia]. run.
    rewrite lookup_app_r by lia. replace (Z.to_nat (Z.of_nat (length d + 1) + 0 - 1) - length d)%nat with 0%nat by lia. change (default 0 ([m] !! 0%nat)) with m.
    pose proof (proper_sum _ Hp) as Hs. rewrite sum_app in Hs. cbn in Hs. pose proof (proper_positive _ Hp) as Hpos. apply Forall_app in Hpos as [Hpos Hm].
    apply Forall_cons in Hm as [Hm _]. pose proof (sum_nonneg _ Hpos). rewrite wrap_id by (unfold uint; lia).
    pose proof (rep_adjust g (d ++ [m]) (m + rows) Hrep Hm) as Ha. rewrite removelast_snoc in Ha. by apply Ha.
  - intros Hrep Hg Hlt. rewrite (rep_final g _ _ Hrep). run. rewrite (rep_count g _ _ Hrep). cbn.
    apply (rep_append g [] rows Hrep Hg Hr). constructor; [by repeat constructor|cbn; lia|cbn; lia].
  - intros data Hrep. by rewrite (rep_final g _ _ Hrep).
Qed.

Lemma add_rows_to_last_mark_witness :
  exists g', addRowsToLastMark (G := Adaptive.t) [10; 20] 5 = Ok g' /\ adaptive_rep g' [10; 15] false.
Proof.
  refine (proj1 (add_rows_to_last_mark (G := Adaptive.t) [10; 20] [10] 10 5 _) _ _); [lia| |].
  - split; [constructor; [repeat constructor; lia|cbn; lia|cbn; lia]|reflexivity].
  - constructor; [repeat constructor; lia|cbn; lia|cbn; lia].
Defined.

(** When all [n] marks of a file were read as data marks of [c] rows,
    [fixFromRowsCount] recovers the real marks from the number of rows: with
    [n] granules the last one holds the rest of the rows, with one granule less
    the last mark is recognised as the final one. *)
Theorem fix_from_rows_count_exact (c n rows : Z) :
  0 < c < 2 ^ 64 -> 0 < n < 2 ^ 63 -> 0 < rows -> rows + c < 2 ^ 64 -> n * c < 2 ^ 64 ->
  exists g, Constant.fixFromRowsCount (Constant.Make c c n false) rows = Ok g /\
    ((n - 1) * c < rows <= n * c -> constant_rep g (replicate (Z.to_nat (n - 1)) c ++ [rows - (n - 1) * c]) false) /\
    ((n - 2) * c < rows <= (n - 1) * c -> constant_rep g (replicate (Z.to_nat (n - 2)) c ++ [rows - (n - 2) * c]) true).
Proof. apply fixFromRowsCount_spec. Qed.

Lemma fix_from_rows_count_exact_witness :
  exists g, Constant.fixFromRowsCount (Constant.Make 10 10 4 false) 25 = Ok g /\
    ((4 - 1) * 10 < 25 <= 4 * 10 -> constant_rep g (replicate (Z.to_nat (4 - 1)) 10 ++ [25 - (4 - 1) * 10]) false) /\
    ((4 - 2) * 10 < 25 <= (4 - 1) * 10 -> constant_rep g (replicate (Z.to_nat (4 - 2)) 10 ++ [25 - (4 - 2) * 10]) true).
Proof. apply (fix_from_rows_count_exact 10 4 25); lia. Defined.

(** For a block with rows and a positive target of bytes,
    [computeIndexGranularity] divides by nothing that is zero and gives at
    least one row, and, unless blocks are granules, at most the fixed number. *)
Theorem computed_granularity_bounds (rows bytes gbytes fixed : Z) (granules adaptive : bool) :
  0 < rows -> 0 < gbytes -> 0 <= bytes -> 0 <= fixed ->
  exists r, computeIndexGranularity rows bytes gbytes fixed granules adaptive = Ok r /\ 1 <= r /\
    (granules = false -> r <= Z.max 1 fixed).
Proof. apply computeIndexGranularity_spec. Qed.

Lemma computed_granularity_bounds_witness :
  exists r, computeIndexGranularity 100 (2 ^ 25) (10 * 2 ^ 20) 8192 false true = Ok r /\ 1 <= r /\ (false = false -> r <= Z.max 1 8192).
Proof. apply computed_granularity_bounds; lia. Defined.

(** Where the two implementations differ: rows counted from the final mark on
    wrap around with the constant granularity. *)
Theorem constant_rows_from_final_mark :
  constant_rep (Constant.Make 10 4 4 true) some_rows true /\ adaptive_rep some_sums some_rows true /\
  Constant.getRowsCountInRange (Constant.Make 10 4 4 true) 4 5 = Ok (2 ^ 64 - 6) /\ Adaptive.getRowsCountInRange some_sums 4 5 = Ok 0.
Proof.
  split_and!; [|exact some_rep|vm_compute; reflexivity|vm_compute; reflexivity].
  split_and!; cbn; try lia; try done; [apply some_rep|by right].
Qed.

(** ** The sequence of alters *)
Import ReplicatedMergeTreeAltersSequence.

(** C40: the sequence keeps the order of alters.  After any history of
    additions and finished stages in which the code's own assertions hold,
    (1) the sequence holds exactly the alters that have a stage added and not
    finished since, with the flags of the stages that are not pending, so an
    alter leaves it only when both its stages are finished; (2) the metadata
    stage of an alter may run exactly when no older alter has a pending stage;
    (3) a pending data stage may run exactly when no metadata stage of its
    alter is pending; (4) wherever the history finished a metadata stage,
    every alter pending at that moment was that alter or a newer one; and (5)
    the sequence never blocks itself: stages that may run, one for each
    pending stage at most, empty it. *)
Theorem alters_run_in_order (es : list alter_event) (q : t) :
  alter_history es q ->
  (forall v, q !! v = if decide (v ∈ alter_pending es)
                      then Some (State (bool_decide (v ∉ metadata_pending es)) (bool_decide (v ∉ data_pending es))) else None) /\
  (forall v, canExecuteMetaAlter q v = Ok true <-> v ∈ alter_pending es /\ forall w, w ∈ alter_pending es -> v <= w) /\
  (forall v, v ∈ data_pending es -> canExecuteDataAlter q v = Ok true <-> v ∉ metadata_pending es) /\
  (forall fs v es', es = fs ++ FinishMetadata v :: es' -> forall w, w ∈ alter_pending es' -> v <= w) /\
  exists n, (n <= stages_left es)%nat /\ drains n es.
Proof.
  intros Hh. pose proof (alter_history_rep es q Hh) as Hrep. split_and!.
  - exact Hrep.
  - intros v. by apply canExecuteMetaAlter_spec.
  - intros v Hv. rewrite (proj1 (canExecuteDataAlter_spec _ _ q v Hrep)) by set_solver.
    case_bool_decide; split; (done || congruence).
  - intros fs v es' ->. destruct (alter_history_prefix _ _ _ _ Hh) as (q1 & q2 & Hh1 & Hs). inversion Hs as [| |? ? Hc|]; subst.
    by apply (canExecuteMetaAlter_spec _ _ _ _ (alter_history_rep _ _ Hh1)) in Hc as [_ Hmin].
  - by eapply run_head_drains.
Qed.

(** Two alters: the data stage of 5 waits for its metadata, and 7 for both
    stages of 5. *)
Lemma alters_run_in_order_witness :
  let q := addMetadataAlter (addMetadataAlter (addMutationForAlter ∅ 5) 5) 7 in
  canExecuteDataAlter q 5 = Ok false /\ canExecuteMetaAlter q 7 = Ok false /\ canExecuteDataAlter (finishMetadataAlter q 5) 5 = Ok true /\
  exists n, (n <= 3)%nat /\ drains n [AddMetadata 7; AddMetadata 5; AddMutation 5].
Proof.
  intros q. split_and!; [vm_compute; reflexivity..|].
  refine (proj2 (proj2 (proj2 (proj2 (alters_run_in_order [AddMetadata 7; AddMetadata 5; AddMutation 5] q _))))).
  repeat econstructor.
Defined.
