(* ===== verification/FormatTheorems.v ===== *)
(** * What the text formats guarantee *)

From stdpp Require Import prelude.
From Stdlib Require Import ZArith Lia.
From S2P Require Import Prelude Buffers FindSymbols ReadHelpers TextReaders TextReadersFacts TextWriters TextRoundtrips.

(** ** Searching *)

(** C39: on every target, with symbols known when compiling or when running,
    [find_first_symbols] and [find_last_symbols] find the first and the last
    byte that is wanted: no earlier (or later) byte is, and there is none when
    they find none. *)
Theorem symbol_search_exact (target : Target) (positive : bool) (symbols haystack : bytes) :
  symbols <> [] ->
  let wanted c := maybe_negate positive (is_in symbols c) = true in
  let first (r : option nat) :=
    match r with
    | Some i => (exists c, haystack !! i = Some c /\ wanted c) /\ forall j c, (j < i)%nat -> haystack !! j = Some c -> ~ wanted c
    | None => forall j c, haystack !! j = Some c -> ~ wanted c
    end in
  let last (r : option nat) :=
    match r with
    | Some i => (exists c, haystack !! i = Some c /\ wanted c) /\ forall j c, (i < j)%nat -> haystack !! j = Some c -> ~ wanted c
    | None => forall j c, haystack !! j = Some c -> ~ wanted c
    end in
  first (find_first_symbols_dispatch target positive symbols haystack) /\ first (find_first_symbols_dispatch_rt target positive symbols haystack) /\
  last (find_last_symbols_dispatch target positive symbols haystack) /\ last (find_last_symbols_dispatch_rt target positive symbols haystack).
Proof.
  intros Hs wanted first last. destruct (find_first_dispatch_exact target positive symbols haystack Hs) as [-> ->].
  destruct (find_last_dispatch_exact target positive symbols haystack Hs) as [-> ->].
  pose proof (scan_spec (fun c => maybe_negate positive (is_in symbols c)) haystack). pose proof (last_true_spec (fun c => maybe_negate positive (is_in symbols c)) haystack).
  split_and!; done.
Qed.

Lemma symbol_search_exact_witness :
  match find_first_symbols_dispatch SSE2 true [9; 10] (replicate 20 65 ++ [9; 9]) with
  | Some i => (exists c, (replicate 20 65 ++ [9; 9]) !! i = Some c /\ maybe_negate true (is_in [9; 10] c) = true) /\
      forall j c, (j < i)%nat -> (replicate 20 65 ++ [9; 9]) !! j = Some c -> ~ maybe_negate true (is_in [9; 10] c) = true
  | None => forall j c, (replicate 20 65 ++ [9; 9]) !! j = Some c -> ~ maybe_negate true (is_in [9; 10] c) = true
  end.
Proof. exact (proj1 (symbol_search_exact SSE2 true [9; 10] (replicate 20 65 ++ [9; 9]) ltac:(discriminate))). Defined.

(** ** The sizes of buffers *)







(** ** Round trips *)
Section roundtrips.
Context {S : Type} `{!ReadBuffer.Impl S, !ReadBuffer.Source S}.
Implicit Types b : ReadBuffer.t S.

(** TSV: any string written with [writeEscapedString] and followed by a tab
    or a newline is read back by [readEscapedString], up to the separator,
    whatever the sizes of the buffers. *)
Theorem tsv_string_roundtrip (str rest : bytes) (separator : Z) (s : bytes) b (fuel : nat) :
  separator = 9 \/ separator = 10 -> ReadBuffer.holds b (writeEscapedString str ++ separator :: rest) ->
  (length (writeEscapedString str ++ separator :: rest) < fuel)%nat ->
  exists b', readEscapedString fuel s b = Ok (tt, str, b') /\ ReadBuffer.holds b' (separator :: rest).
Proof using Type.
  intros Hc Hb HN. exact (related_result fuel false _ _ _ _ [] b _ tt str (separator :: rest) (related_escaped fuel true) Hb HN ltac:(done) (tsv_flat fuel str [] separator rest Hc HN)).
Qed.

(** A string written in single, double or back quotes is read back from
    its quotes; with SQL style quoting, unless another quote follows. *)
Theorem quoted_string_roundtrip (quote : Z) (sql throw_exception : bool) (str rest : bytes) b (fuel : nat) :
  quote ∈ [39; 34; 96] -> (sql = true -> head rest <> Some quote) -> ReadBuffer.holds b (writeAnyQuotedString quote str ++ rest) ->
  (length (writeAnyQuotedString quote str ++ rest) < fuel)%nat ->
  exists b', readAnyQuotedStringInto fuel quote sql throw_exception [] b = Ok (true, str, b') /\ ReadBuffer.holds b' rest.
Proof using Type.
  intros Hq Hd Hb HN. exact (related_result fuel false _ _ _ _ [] b _ true str rest (related_quoted fuel quote sql throw_exception) Hb HN ltac:(done)
    (quoted_flat fuel quote sql throw_exception str [] rest Hq Hd HN)).
Qed.

(** C30: CSV: any string, with delimiters, line ends and quotes inside, written
    by [writeCSVString] is read back by [readCSVString] when quotes of its kind
    are allowed and are not the delimiter, and no other quote follows. *)
Theorem csv_string_roundtrip (settings : CSVSettings) (quote : Z) (str rest : bytes) (s : bytes) b (fuel : nat) :
  quote = 39 /\ allow_single_quotes settings = true \/ quote = 34 /\ allow_double_quotes settings = true ->
  delimiter settings <> quote -> head rest <> Some quote -> ReadBuffer.holds b (writeCSVString quote str ++ rest) ->
  (length (writeCSVString quote str ++ rest) < fuel)%nat ->
  exists b', readCSVString fuel settings s b = Ok (tt, str, b') /\ ReadBuffer.holds b' rest.
Proof using Type.
  intros Hq Hdel Hd Hb HN. exact (related_result fuel false _ _ _ _ [] b _ tt str rest (related_csv fuel settings false true) Hb HN ltac:(done)
    (csv_flat fuel settings true quote str [] rest Hq Hdel Hd HN)).
Qed.

(** C29: JSON: any bytes, valid UTF-8 or not, written by [writeJSONString] are
    read back by [readJSONString], with forward slashes escaped or not and with
    bad escape sequences rejected or kept. *)
Theorem json_string_roundtrip (escape_forward_slashes throw_on_bad_escape_sequence : bool) (str rest : bytes) (s : bytes) b (fuel : nat) :
  bytes_ok str -> ReadBuffer.holds b (writeJSONString escape_forward_slashes str ++ rest) ->
  (length (writeJSONString escape_forward_slashes str ++ rest) < fuel)%nat ->
  exists b', readJSONString fuel throw_on_bad_escape_sequence s b = Ok (true, str, b') /\ ReadBuffer.holds b' rest.
Proof using Type.
  intros Hok Hb HN. exact (related_result fuel false _ _ _ _ [] b _ true str rest (related_json_string fuel throw_on_bad_escape_sequence true) Hb HN ltac:(done)
    (json_flat fuel throw_on_bad_escape_sequence true escape_forward_slashes str [] rest Hok HN)).
Qed.

(** The readers of fields that are parsed later give the text as it is:
    what they append is exactly what they take from the buffer, for TSV up to
    a separator or the end, for a quoted string and a JSON object or array in
    both modes, also when they fail without an exception. *)
Theorem raw_fields_copied (s : bytes) b (d : bytes) (fuel : nat) :
  ReadBuffer.holds b d -> (length d < fuel)%nat ->
  (exists b' l rest, readTSVField fuel s b = Ok (tt, l, b') /\ d = l ++ rest /\ ReadBuffer.holds b' rest /\
     (rest = [] \/ head rest = Some 9 \/ head rest = Some 10)) /\
  (forall m, m = readQuotedStringFieldInto fuel true \/ m = readQuotedStringFieldInto fuel false \/
     (exists x, m = readJSONObjectPossiblyInvalid fuel x \/ m = readJSONArrayInto fuel x) ->
   forall a s' b', m s b = Ok (a, s', b') -> exists l rest, d = l ++ rest /\ s' = s ++ l /\ ReadBuffer.holds b' rest).
Proof using Type.
  intros Hb HN. split.
  - pose proof (related_escaped (B := ReadBuffer.t S) fuel false [] b d Hb HN ltac:(done)) as Hr. pose proof (tsv_field_copied fuel [] d HN) as Hc.
    change (readTSVField fuel s b) with (readEscapedStringIntoImpl fuel false false [] b).
    destruct (readEscapedStringIntoImpl fuel false false [] b) as [[[[] s'] b']| |] eqn:E, (readEscapedStringIntoImpl fuel false false [] d) as [[[a' s''] d']| |] eqn:E'; try done.
    + destruct Hr as (_ & -> & Hb' & _). destruct (Hc _ _ _ eq_refl) as (l & -> & -> & Hh). by exists b', l, d'.
    + by destruct (tsv_field_total fuel [] d HN) as (s' & d' & E2); rewrite E2 in E'.
  - intros m Hm a s' b' E.
    assert (exists f, related fuel false m f (fun _ => false) (fun _ => 0%nat) /\ copied (fun _ _ => True) s d (f s d)) as (f & Hr & Hc).
    { destruct Hm as [->|[->|(x & [->| ->])]];
        (eexists; split; [first [apply related_quoted_field|apply related_json_object]|by first [apply quoted_field_copied|apply json_object_copied]]). }
    specialize (Hr s b d Hb HN ltac:(done)). rewrite E in Hr. destruct (f s d) as [[[a1 s1] d1]| |]; try done.
    destruct Hr as (_ & -> & Hb' & _). destruct (Hc _ _ _ eq_refl) as (l & -> & -> & _). by exists l, d1.
Qed.
End roundtrips.

(** The text [a], a newline, a quote, a tab and a slash, and its forms cut into buffers. *)
Definition some_text : bytes := [97; 10; 34; 9; 47; 39].
Definition cut (d : bytes) : ReadBuffer.t (list bytes) := ReadBuffer.of_chunks [take 2 d; []; take 3 (drop 2 d); drop 5 d].

Lemma holds_cut d : ReadBuffer.holds (cut d) d.
Proof.
  unfold cut. pose proof (ReadBuffer.holds_of_chunks [take 2 d; []; take 3 (drop 2 d); drop 5 d]) as H. cbn [concat app] in H.
  rewrite app_nil_r in H. replace (drop 5 d) with (drop 3 (drop 2 d)) in * by (by rewrite drop_drop). by rewrite !take_drop in H.
Qed.

Lemma tsv_string_roundtrip_witness :
  exists b', readEscapedString 30 [] (cut (writeEscapedString some_text ++ [9; 98])) = Ok (tt, some_text, b') /\ ReadBuffer.holds b' [9; 98].
Proof. apply tsv_string_roundtrip; [by left|apply holds_cut|vm_compute; lia]. Defined.

Lemma quoted_string_roundtrip_witness :
  exists b', readAnyQuotedStringInto 30 39 true true [] (cut (writeAnyQuotedString 39 some_text ++ [44])) = Ok (true, some_text, b') /\ ReadBuffer.holds b' [44].
Proof. apply quoted_string_roundtrip; [by left|done|apply holds_cut|vm_compute; lia]. Defined.

Definition some_csv : CSVSettings := CSV 44 true true false true [].

Lemma csv_string_roundtrip_witness :
  exists b', readCSVString 30 some_csv [] (cut (writeCSVString 34 some_text ++ [44])) = Ok (tt, some_text, b') /\ ReadBuffer.holds b' [44].
Proof. apply (csv_string_roundtrip some_csv 34); [by right|done|done|apply holds_cut|vm_compute; lia]. Defined.

Lemma json_string_roundtrip_witness :
  exists b', readJSONString 40 true [] (cut (writeJSONString true (some_text ++ [0; 0xE2; 0x80; 0xA8]) ++ [58])) = Ok (true, some_text ++ [0; 0xE2; 0x80; 0xA8], b') /\
    ReadBuffer.holds b' [58].
Proof. apply (json_string_roundtrip true true); [repeat constructor; done|apply holds_cut|vm_compute; lia]. Defined.

Lemma raw_fields_copied_witness :
  exists b' l rest, readTSVField 20 [] (cut [92; 9; 97; 9; 98]) = Ok (tt, l, b') /\ [92; 9; 97; 9; 98] = l ++ rest /\ ReadBuffer.holds b' rest /\
    (rest = [] \/ head rest = Some 9 \/ head rest = Some 10).
Proof. refine (proj1 (raw_fields_copied [] (cut [92; 9; 97; 9; 98]) [92; 9; 97; 9; 98] 20 _ _)); [apply holds_cut|cbn; lia]. Defined.

(** ** Where the readers differ from what they are for *)

(** In the CRLF mode the byte after an escape sequence is looked at without
    asking whether the buffer has one. *)
Theorem crlf_looks_past_the_window :
  readEscapedStringCRLF (B := ReadBuffer.t (list bytes)) 10 [] (ReadBuffer.of_chunks [[97; 92; 110]; [9]]) = Undef /\
  exists b', readEscapedString (B := ReadBuffer.t (list bytes)) 10 [] (ReadBuffer.of_chunks [[97; 92; 110]; [9]]) = Ok (tt, [97; 10], b').
Proof. split; [reflexivity|eexists; reflexivity]. Qed.

(** Without exceptions, a bad escape sequence of a JSON string is lost and the
    string accepted. *)
Theorem json_bad_escape_accepted :
  readJSONStringInto (B := bytes) 20 true false [] [34; 92; 117; 68; 56; 48; 48; 34] = Ok (true, [], []) /\
  readJSONStringInto (B := bytes) 20 true true [] [34; 92; 117; 68; 56; 48; 48; 34] = Throw CANNOT_PARSE_ESCAPE_SEQUENCE.
Proof. split; reflexivity. Qed.

(** A quoted field that is not closed is no error, also for the callers that
    want exceptions; the flag is not visible to them. *)
Theorem unclosed_field_no_exception :
  readQuotedStringFieldInto (B := bytes) 20 true [] [39; 97] = Ok (false, [39; 97], []).
Proof. reflexivity. Qed.

(** The spaces before the end of the data are not trimmed from a CSV value. *)
Theorem csv_end_not_trimmed :
  readCSVString (B := bytes) 20 some_csv [] [97; 32; 10] = Ok (tt, [97], [10]) /\ readCSVString (B := bytes) 20 some_csv [] [97; 32] = Ok (tt, [97; 32], []).
Proof. split; reflexivity. Qed.
