(* ===== verification/HashTheorems.v ===== *)
(** * Theorems on hash tables

    Any sequence of operations answers as the same sequence on a finite map;
    failed allocations change nothing; reserving, serialization, merging. *)

From stdpp Require Import prelude gmap.
From Stdlib Require Import ZArith Lia.
From S2P Require Import Prelude VarInt HashGrowers HashTable HashTableFacts HashTableSpec.
Import HashTable.

(** ** The interface of a table and its meaning on maps *)
Inductive op (K V : Type) :=
| Insert (mem : Memory) (x : K) (v : V)
| Index (mem : Memory) (v0 : V) (x : K)
| Erase (x : K)
| Find (x : K)
| Has (x : K)
| Size
| Iterate
| Reserve (mem : Memory) (n : Z)
| Clear.
Arguments Insert {K V}.
Arguments Index {K V}.
Arguments Erase {K V}.
Arguments Find {K V}.
Arguments Has {K V}.
Arguments Size {K V}.
Arguments Iterate {K V}.
Arguments Reserve {K V}.
Arguments Clear {K V}.

Inductive answer (K V : Type) :=
| Value (o : option V)
| Flag (b : bool)
| Number (n : Z)
| Listing (l : list (K * V))
| Done
| Thrown (e : ErrorCode).
Arguments Value {K V}.
Arguments Flag {K V}.
Arguments Number {K V}.
Arguments Listing {K V}.
Arguments Done {K V}.
Arguments Thrown {K V}.

Section Interface.
Context {C K V G : Type} `{!Cell C K V, !Grower G, !Hash K, !CellSize C, !EqDecision K, !Countable K}.
Implicit Types (s : t C G) (m : gmap K V).

(** The answer of an outcome; none when the behaviour is undefined. *)
Definition answered {A} (r : outcome A * t C G) (f : A -> t C G -> outcome (answer K V)) : option (answer K V * t C G) :=
  match r with
  | (Ok a, s) => match f a s with Ok x => Some (x, s) | Throw e => Some (Thrown e, s) | Undef => None end
  | (Throw e, s) => Some (Thrown e, s)
  | (Undef, _) => None
  end.

Definition value_at (p : ptr) s : outcome (answer K V) := c ← deref s p; Ok (Value (Some (getMapped c))).

Definition perform (o : op K V) s : option (answer K V * t C G) :=
  match o with
  | Insert mem x v => answered (insert mem (x, v) s) (fun r _ => Ok (Flag r.2))
  | Index mem v0 x => answered (index mem v0 x s) value_at
  | Erase x => answered (erase x (hash x) s) (fun b _ => Ok (Flag b))
  | Find x => answered (find s x (hash x), s) (fun r s => match r with Some p => value_at p s | None => Ok (Value None) end)
  | Has x => answered (has s x (hash x), s) (fun b _ => Ok (Flag b))
  | Size => Some (Number (size s), s)
  | Iterate => answered (iterated s, s) (fun cs _ => Ok (Listing (entry <$> cs)))
  | Reserve mem n => answered (reserve mem n s) (fun _ _ => Ok Done)
  | Clear => answered (clear s) (fun _ _ => Ok Done)
  end.

Fixpoint perform_all (os : list (op K V)) s : option (list (answer K V) * t C G) :=
  match os with
  | [] => Some ([], s)
  | o :: os => '(a, s) ← perform o s; '(l, s) ← perform_all os s; Some (a :: l, s)
  end.

(** [insert] of each value in turn, none when one throws. *)
Fixpoint insert_all (mem : Memory) (xs : list (K * V)) s : option (t C G) :=
  match xs with
  | [] => Some s
  | x :: xs => match insert mem x s with (Ok _, s) => insert_all mem xs s | _ => None end
  end.

(** What each operation does to a map; one that allocates may also throw, and
    then nothing has changed. *)
Inductive map_step : op K V -> gmap K V -> answer K V -> gmap K V -> Prop :=
| step_insert mem x v m :
    map_step (Insert mem x v) m (Flag (bool_decide (m !! x = None))) (if bool_decide (m !! x = None) then <[x := v]> m else m)
| step_insert_thrown mem x v m e : m !! x = None -> map_step (Insert mem x v) m (Thrown e) m
| step_index_old mem v0 x m v : m !! x = Some v -> map_step (Index mem v0 x) m (Value (Some v)) m
| step_index_new mem v0 x m : m !! x = None -> map_step (Index mem v0 x) m (Value (Some v0)) (<[x := v0]> m)
| step_index_thrown mem v0 x m e : m !! x = None -> map_step (Index mem v0 x) m (Thrown e) m
| step_erase x m : map_step (Erase x) m (Flag (bool_decide (is_Some (m !! x)))) (delete x m)
| step_find x m : map_step (Find x) m (Value (m !! x)) m
| step_has x m : map_step (Has x) m (Flag (bool_decide (is_Some (m !! x)))) m
| step_size m : map_step Size m (Number (Z.of_nat (base.size m))) m
| step_iterate m l : l ≡ₚ map_to_list m -> map_step Iterate m (Listing l) m
| step_reserve mem n m : map_step (Reserve mem n) m Done m
| step_reserve_thrown mem n m e : map_step (Reserve mem n) m (Thrown e) m
| step_clear m : map_step Clear m Done ∅.

Inductive map_run : list (op K V) -> gmap K V -> list (answer K V) -> gmap K V -> Prop :=
| run_nil m : map_run [] m [] m
| run_cons o os m a m1 l m2 : map_step o m a m1 -> map_run os m1 l m2 -> map_run (o :: os) m (a :: l) m2.

(** [reserve] is called with a number of elements that memory could hold. *)
Definition op_ok (o : op K V) : Prop := match o with Reserve _ n => 0 <= n <= 2 ^ 61 | _ => True end.
End Interface.

Section Theorems.
Context {C K V G : Type} `{!Cell C K V, !CellLaws C K V, !Grower G, !GrowerLaws G, !Hash K, !CellSize C, !CellSizeLaw C}.
Context `{!EqDecision K, !Countable K}.
Implicit Types (s : t C G) (c : C) (g : G).

Lemma value_at_points s p c x : inv s -> points s p c -> getKey c = x -> value_at p s = Ok (Value (K := K) (contents s !! x)).
Proof.
  intros Hi Hp <-. unfold value_at. rewrite (points_deref s p c) by done. cbn. by rewrite (points_lookup s p c).
Qed.

Lemma perform_step o s : inv s -> op_ok o ->
  exists a s', perform o s = Some (a, s') /\ inv s' /\ map_step o (contents s) a (contents s').
Proof.
  intros Hi Hok. destruct o as [mem x v|mem v0 x|x|x|x| | |mem n|]; cbn [perform].
  - pose proof (insert_spec mem s x v Hi) as H. destruct (insert mem (x, v) s) as [[[p ins]|e|] s']; [| |done]; cbn in *.
    + destruct H as (? & _ & -> & Hc). eexists _, s'. split; [done|]. split; [done|]. rewrite Hc. constructor.
    + destruct H as (? & Hc & ?). eexists _, s'. split; [done|]. split; [done|]. rewrite Hc. by constructor.
  - pose proof (index_spec mem s v0 x Hi) as H. destruct (index mem v0 x s) as [[p|e|] s']; [| |done]; cbn in *.
    + destruct H as (Hi' & (c & Hp & Hk) & Hc). rewrite (value_at_points s' p c x) by done. eexists _, s'. split; [done|]. split; [done|].
      rewrite Hc. destruct (contents s !! x) as [v|] eqn:E; [rewrite E|rewrite lookup_insert_eq]; by constructor.
    + destruct H as (? & Hc & ?). eexists _, s'. split; [done|]. split; [done|]. rewrite Hc. by constructor.
  - destruct (erase_spec s x Hi) as (s' & -> & ? & Hc). eexists _, s'. split; [done|]. split; [done|]. rewrite Hc. constructor.
  - destruct (find_spec s x Hi) as (r & -> & Hr). cbn. destruct r as [p|].
    + destruct Hr as (c & Hp & Hk). rewrite (value_at_points s p c x) by done. eexists _, s. split; [done|]. split; [done|]. constructor.
    + eexists _, s. split; [done|]. split; [done|]. rewrite <- (contents_None s x) by done. constructor.
  - rewrite has_find. destruct (find_spec s x Hi) as (r & -> & Hr). cbn. eexists _, s. split; [done|]. split; [done|].
    replace (match r with Some _ => true | None => false end) with (bool_decide (is_Some (contents s !! x))); [constructor|]. destruct r as [p|].
    + destruct Hr as (c & Hp & <-). rewrite (points_lookup s p c) by done. done.
    + by rewrite contents_None.
  - eexists _, s. split; [done|]. split; [done|]. rewrite size_contents by done. constructor.
  - rewrite iterated_spec by done. cbn. eexists _, s. split; [done|]. split; [done|]. constructor.
    symmetry. apply map_to_list_to_map. by apply keys_live.
  - pose proof (reserve_spec mem n s Hi Hok) as H. destruct (reserve mem n s) as [[u|e|] s']; [| |done]; cbn.
    + destruct H as (? & Hc & _). eexists _, s'. split; [done|]. split; [done|]. rewrite Hc. constructor.
    + subst s'. eexists _, s. split; [done|]. split; [done|]. constructor.
  - destruct (clear_spec s Hi) as (s' & -> & ? & Hc & _). eexists _, s'. split; [done|]. split; [done|]. rewrite Hc. constructor.
Qed.

(** C4: a hash table refines a finite map: every sequence of operations on a table just constructed
    ([insert], [operator[]], [erase], [find], [has], [size], iteration, [reserve], [clear], in any order, with any allocations refused)
    has no undefined behaviour and gives the answers of the same sequence on a
    map, where an operation that throws changes nothing; whatever the hash
    function, the cell and the grower. *)
Theorem hash_table_refines_map (mem : Memory) (c : C) (s : t C G) (os : list (op K V)) :
  HashTable mem c = (Ok tt, s) -> Forall op_ok os ->
  exists l s', perform_all os s = Some (l, s') /\ inv s' /\ map_run os ∅ l (contents s').
Proof.
  intros Hnew Hok. pose proof (construct_spec (G := G) mem c) as H. rewrite Hnew in H. destruct H as [Hi <-]. clear Hnew.
  revert s Hi. induction Hok as [|o os Ho _ IH]; intros s Hi; [exists [], s; split; [done|]; split; [done|]; constructor|].
  destruct (perform_step o s Hi Ho) as (a & s1 & E & Hi1 & Hstep). destruct (IH s1 Hi1) as (l & s2 & E2 & Hi2 & Hrun).
  exists (a :: l), s2. cbn. rewrite E. cbn. rewrite E2. split; [done|]. split; [done|]. by econstructor.
Qed.

(** C16: strong exception safety of insertion: when the table cannot grow, [emplace] throws, and
    the table has the elements and the size it had before, and is as usable as before;
    a key that is already there never throws. *)
Theorem hash_emplace_exception_safe (mem : Memory) (x : K) (s s' : t C G) (e : ErrorCode) :
  inv s -> emplace mem x (hash x) s = (Throw e, s') ->
  inv s' /\ contents s' = contents s /\ size s' = size s /\ contents s !! x = None.
Proof.
  intros Hi E. pose proof (emplace_spec mem s x Hi) as H. rewrite E in H. destruct H as (Hi' & Hc & Hn).
  split; [done|]. split; [done|]. split; [|done]. by rewrite !size_contents, Hc.
Qed.

Lemma insert_all_room mem (xs : list (K * V)) s : inv s -> size s + Z.of_nat (length xs) <= 2 ^ (degree (grower s) - 1) ->
  exists s', insert_all mem xs s = Some s' /\ inv s' /\ grower s' = grower s.
Proof.
  revert s. induction xs as [|[x v] xs IH]; intros s Hi Hroom; cbn in *; [by exists s|]. unfold size in *.
  destruct (insert_room mem s x v) as (r & s1 & -> & Hgr & Hi1 & Hm & _); [done|lia|].
  destruct (IH s1 Hi1) as (s2 & E & Hi2 & Hgr2); [rewrite Hgr; lia|]. exists s2. split; [done|]. split; [done|]. congruence.
Qed.

(** [reserve(n)] keeps the elements and makes room: afterwards elements can be inserted up to a size of [n]
    without any further allocation, so with a memory that refuses everything. *)
Theorem hash_reserve_makes_room (mem mem' : Memory) (n : Z) (s s' : t C G) (xs : list (K * V)) :
  inv s -> 0 < n <= 2 ^ 61 -> reserve mem n s = (Ok tt, s') -> size s + Z.of_nat (length xs) <= n ->
  contents s' = contents s /\ exists s'', insert_all mem' xs s' = Some s'' /\ inv s'' /\ grower s'' = grower s'.
Proof.
  intros Hi Hn E Hsz. pose proof (reserve_spec mem n s Hi ltac:(lia)) as H. rewrite E in H. destruct H as (Hi' & Hc & Hroom).
  split; [done|]. apply insert_all_room; [done|]. rewrite size_contents, Hc, <- size_contents by done. lia.
Qed.

(** Merging a table into another with [mergeToViaEmplace]: the destination has the keys of both; a common key
    gets what [func] makes of both values and a new one what it makes of its own; when an allocation is refused on
    the way, the destination is still a table. *)
Theorem hash_merge_exact (mem : Memory) (func : V -> V -> bool -> V) (s0 s : t C G) :
  (forall d d' v, func d v true = func d' v true) -> inv s0 -> inv s ->
  match mergeToViaEmplace mem func s0 s with
  | (Ok _, s') => inv s' /\ contents s' = merge (merged func) (contents s0) (contents s)
  | (Throw e, s') => inv s'
  | (Undef, _) => False
  end.
Proof. apply merge_spec. Qed.

Context `{!CellIO C K V, !CellIOLaws C K V}.

(** What [write] has written, [read] reads back into any table: the elements are those of the table written, and
    the bytes that follow are left. *)
Theorem hash_write_read_roundtrip (mem : Memory) (s0 s : t C G) (r : bytes) :
  inv s0 -> inv s -> Forall writable (live s0) -> size s0 <= 100000000000 ->
  (forall g e, set (size s0) (grower s) = Ok g -> (alloc mem g (Make 0 [] e false (zero_value s))).1 = Ok tt) ->
  exists s', read mem (write s0 ++ r) s = (Ok r, s') /\ inv s' /\ contents s' = contents s0.
Proof. apply read_write. Qed.
End Theorems.

(** ** A concrete table

    Maps from [UInt64] to [UInt64] that save the hashes, with a precalculating
    grower of four cells at first and a hash function with many collisions. *)
Module Sample.
#[export] Instance libm : Libm := {| log2 := Z.log2; log2_plus_1 x := Z.log2 x + 1 |}.

#[export] Instance libm_laws : LibmLaws.
Proof. constructor; cbn; lia. Qed.

#[export] Instance degree_2 : InitialDegree 2.
Proof. red. lia. Qed.

#[export] Instance zero_Z : Zero Z := 0.
#[export] Instance hash_Z : Hash Z := fun k => k mod 5.

Definition cell : Type := HashMapCellWithSavedHash.t Z Z.
Definition table : Type := t cell (HashTableGrowerWithPrecalculation.t 2).

#[export] Instance size_of : CellSize (HashMapCellWithSavedHash.t Z Z) := 24.

#[export] Instance size_of_pos : CellSizeLaw (HashMapCellWithSavedHash.t Z Z).
Proof. done. Qed.

#[export] Instance binary : Binary Z := {|
  writeBinary v := le_store 8 v;
  readBinary rb := if Nat.leb 8 (length rb) then Ok (le_load (take 8 rb), drop 8 rb) else Throw CANNOT_READ_ALL_DATA |}.

#[export] Program Instance binary_laws : BinaryLaws Z := {| representable v := uint 64 v |}.
Next Obligation.
  intros a r Ha. unfold readBinary, writeBinary, binary. rewrite length_app, length_le_store. cbn [Nat.leb].
  replace (8 <=? 8 + length r)%nat with true by (symmetry; apply Nat.leb_le; lia).
  by rewrite take_le_store, drop_le_store, le_load_store_id.
Qed.

Definition plenty : Memory := fun _ => None.
Definition scarce : Memory := fun _ => Some CANNOT_ALLOCATE_MEMORY.

Definition fresh : table := (HashTable plenty zeroed).2.
Definition filled : table :=
  match insert_all plenty [(5, 50); (10, 100); (0, 7); (4, 40); (9, 90); (14, 140); (19, 190)] fresh with Some s => s | None => fresh end.

Lemma fresh_inv : inv fresh.
Proof.
  pose proof (construct_spec (G := HashTableGrowerWithPrecalculation.t 2) plenty (zeroed : cell)) as H.
  assert (E : HashTable plenty (zeroed : cell) = (Ok tt, fresh)) by (by vm_compute). rewrite E in H. apply H.
Qed.

Lemma insert_all_inv mem (xs : list (Z * Z)) (s s' : table) : inv s -> insert_all mem xs s = Some s' -> inv s'.
Proof.
  revert s. induction xs as [|[x v] xs IH]; intros s Hi E; cbn in E; [congruence|].
  pose proof (insert_spec mem s x v Hi) as H. destruct (insert mem (x, v) s) as [[[p ins]|e|] s1]; [|done..]. by eapply IH; [apply H|].
Qed.

Lemma filled_inv : inv filled.
Proof. apply (insert_all_inv plenty [(5, 50); (10, 100); (0, 7); (4, 40); (9, 90); (14, 140); (19, 190)] fresh); [apply fresh_inv|by vm_compute]. Qed.
End Sample.
Import Sample.

(** Insertions that grow the table, a refused one, erasures in a chain that
    comes around the end of the buffer, and a second generation. *)
Lemma hash_table_refines_map_witness :
  let os := [Insert plenty 5 50; Insert plenty 10 100; Insert scarce 15 150; Insert plenty 15 151; Insert plenty 0 7; Size;
             Erase 5; Find 15; Find 5; Index plenty 1 20; Has 10; Reserve plenty 40; Find 10; Iterate; Clear; Size] in
  exists l s', perform_all (C := Sample.cell) os fresh = Some (l, s') /\ inv s' /\ map_run os ∅ l (contents s').
Proof.
  intros os. apply (hash_table_refines_map plenty (zeroed : Sample.cell) fresh os); [by vm_compute|].
  repeat constructor; vm_compute; congruence.
Defined.

Lemma hash_emplace_exception_safe_witness :
  let s := match insert_all plenty [(5, 50); (10, 100)] fresh with Some s => s | None => fresh end in
  let s' := (emplace scarce 15 (hash 15) s).2 in
  emplace scarce 15 (hash 15) s = (Throw CANNOT_ALLOCATE_MEMORY, s')
  /\ inv s' /\ contents s' = contents s /\ size s' = size s /\ contents s !! 15 = None.
Proof.
  intros s s'. assert (E : emplace scarce 15 (hash 15) s = (Throw CANNOT_ALLOCATE_MEMORY, s')) by (by vm_compute). split; [exact E|].
  apply (hash_emplace_exception_safe scarce 15 s s' CANNOT_ALLOCATE_MEMORY); [|exact E].
  apply (insert_all_inv plenty [(5, 50); (10, 100)] fresh); [apply fresh_inv|by vm_compute].
Defined.

Lemma hash_reserve_makes_room_witness :
  let s' := (reserve plenty 10 filled).2 in
  contents s' = contents filled
  /\ exists s'', insert_all scarce [(24, 1); (29, 2); (34, 3)] s' = Some s'' /\ inv s'' /\ grower s'' = grower s'.
Proof.
  intros s'. apply (hash_reserve_makes_room plenty scarce 10 filled s' [(24, 1); (29, 2); (34, 3)]);
    [apply filled_inv|lia|by vm_compute|by vm_compute].
Defined.

Lemma hash_merge_exact_witness :
  let func := fun (d v : Z) (emplaced : bool) => if emplaced then v else d + v in
  let s := match insert_all plenty [(4, 4); (3, 3)] fresh with Some s => s | None => fresh end in
  let r := mergeToViaEmplace plenty func filled s in
  r.1 = Ok tt /\ inv r.2 /\ contents r.2 = merge (merged func) (contents filled) (contents s).
Proof.
  intros func s r. assert (Hs : inv s) by (apply (insert_all_inv plenty [(4, 4); (3, 3)] fresh); [apply fresh_inv|by vm_compute]).
  assert (E : r.1 = Ok tt) by (by vm_compute).
  pose proof (hash_merge_exact plenty func filled s ltac:(done) filled_inv Hs) as H. fold r in H. clearbody r.
  destruct r as [o s2]. cbn in E. rewrite E in H. exact (conj E H).
Defined.

Lemma hash_write_read_roundtrip_witness :
  exists s', read plenty (write filled ++ [1; 2]) fresh = (Ok [1; 2], s') /\ inv s' /\ contents s' = contents filled.
Proof.
  apply (hash_write_read_roundtrip plenty filled fresh [1; 2]); [apply filled_inv|apply fresh_inv| |by vm_compute|].
  - repeat constructor; vm_compute; congruence.
  - intros g e E. vm_compute in E. injection E as <-. by vm_compute.
Defined.

(** A [read] that meets the end of the data after the size has been set to zero
    leaves the old elements in the buffer: the size is 0 and they are found. *)
Lemma failed_read_keeps_elements :
  let '(o, s) := read plenty [] filled in
  o = Throw ATTEMPT_TO_READ_AFTER_EOF /\ size s = 0 /\ has s 5 (hash 5) = Ok true /\ has s 0 (hash 0) = Ok false.
Proof. by vm_compute. Qed.

(** A copy whose allocation is refused leaves a size and no buffer; the next
    lookup goes through the null pointer. *)
Lemma failed_copy_loses_buffer :
  let '(o, s) := assign_copy scarce fresh filled in
  o = Throw CANNOT_ALLOCATE_MEMORY /\ size s = 7 /\ buf s = [] /\ find s 5 (hash 5) = Undef.
Proof. by vm_compute. Qed.
