(* ===== verification/IndexTheorems.v ===== *)
(** * Properties of the index analysis

    The ranges of [Core/Range.h], the conditions of [KeyCondition.h] and the
    selection of marks of [MergeTreeDataSelectExecutor.cpp], with a sample part
    on which they are evaluated. *)

From stdpp Require Import prelude strings.
From Stdlib Require Import ZArith Lia.
From S2P Require Import Prelude Granularity GranularityFacts Range RangeFacts KeyCondition KeyConditionFacts KeyRangeFacts SetIndexFacts.
From S2P Require Import MarkSelection MarkSelectionFacts PartSelectionFacts.
Import MarkRange.

(** ** A sample

    A part with the key [(a, b)] of unsigned numbers, five rows, marks of two
    rows and a final mark; the query is [intDiv(a, 2) = 1 AND b < 3]. *)
Module Sample.
Import KeyCondition.

Definition u64 : DataType := MakeType TUInt64 false false.
Definition num (n : Z) : Field Scalar := Value (UInt64 n).

Definition rows : list (list (Field Scalar)) := [[num 1; num 1]; [num 1; num 2]; [num 2; num 1]; [num 3; num 5]; [num 4; num 0]].
Definition marks : list Z := [2; 2; 1].

Definition part : Part Scalar Adaptive.t :=
  MakePart [97] [2; 4; 5; 5] 8192 0 [[Some (UInt64 1); Some (UInt64 2); Some (UInt64 4); Some (UInt64 4)];
    [Some (UInt64 1); Some (UInt64 1); Some (UInt64 0); Some (UInt64 0)]].

(** [intDiv(x, 2)]. *)
Definition half : Function Scalar := MakeFunction "intDiv" u64 true (Some u64)
  (fun _ => MakeMonotonicity true true true false) (fun _ _ _ => MakeMonotonicity true true true false)
  (fun _ v => Ok (match v with UInt64 n => UInt64 (n / 2) | Int64 n => Int64 (n / 2) | String s => String s end)).

Definition compared (name : string) (column : nat) (chain : MonotonicFunctionsChain Scalar) (n : Z) : RPNElement Scalar :=
  match atom_map name with
  | Some f => f (MakeElement FUNCTION_UNKNOWN false createWholeUniverse [column] None None chain) (num n)
  | None => MakeElement FUNCTION_UNKNOWN false createWholeUniverse [column] None None chain
  end.

Definition operator (k : function_kind) : RPNElement Scalar := MakeElement k false createWholeUniverse [] None None [].

Definition query : KeyCondition.t Scalar :=
  Make [compared "equals" 0 [half] 1; compared "less" 1 [] 3; operator FUNCTION_AND] 2 false false.

Definition settings : Settings := MakeSettings 8 0 0.

Lemma half_lawful : LawfulFunction half.
Proof.
  split.
  - intros type [n|n|s] [m|m|t] v' w'; cbn; try done; try (intros ?%bool_decide_eq_true [= <-] [= <-]; by apply bool_decide_eq_true);
      intros Heq%Z.eqb_eq [= <-] [= <-]; subst; cbn; apply Z.eqb_refl.
  - intros type a b v w v' w' _ _ Hvw _. destruct v as [n|n|s], w as [m|m|t]; cbn in *; intros [= <-] [= <-]; cbn; try done;
      apply Z.ltb_ge; apply Z.ltb_ge in Hvw; apply Z.div_le_mono; lia.
  - intros type v. done.
Qed.

Lemma half_total : total_function half.
Proof. intros type v. cbn. eauto. Qed.

Lemma query_ok : condition_ok query 2.
Proof.
  split; [| | |done|done].
  - constructor; [split; [constructor; [apply half_lawful|constructor]|done]|]. repeat (constructor; [split; [constructor|done]|]). constructor.
  - split; [|done]. constructor; [split; [by left|]; split; [done|constructor; [apply half_total|constructor]]|].
    constructor; [split; [by left|]; by split|]. constructor; [split; [by right|done]|constructor].
  - split; [cbn; lia|]. repeat constructor; cbn; lia.
Qed.

Lemma row_ok (a b : Z) : row_typed [u64; u64] [num a; num b].
Proof. split; [cbn; lia|]. intros [|[|i]] x type; cbn; intros Hx; try done; by injection Hx as <-. Qed.

Lemma part_ok : sorted_part part rows marks true false [u64; u64] [].
Proof.
  split.
  - split; [constructor; [repeat constructor; lia|cbn; lia|cbn; lia]|reflexivity].
  - cbn. lia.
  - reflexivity.
  - unfold rows. repeat (apply Forall_cons; split; [split; [done|apply row_ok]|]). constructor.
  - intros [|[|[|[|[|i]]]]] [|[|[|[|[|j]]]]] x y Hij Hx Hy; try (by exfalso; lia); try done; injection Hx as <-; injection Hy as <-; cbn; auto.
  - intros i column k Hc Hi Hk. cbn in Hi, Hk. assert (k = 0 \/ k = 1 \/ k = 2 \/ k = 3) as Hk' by lia.
    destruct i as [|[|i]]; [| |lia]; injection Hc as <-; destruct Hk' as [->|[->|[->| ->]]]; eexists _, _; repeat split; reflexivity.
  - done.
Qed.

Lemma query_valid : valid_query part marks true [u64; u64] [u64; u64] 0 settings query None None.
Proof.
  split; try done; apply query_ok.
Qed.
End Sample.

(** ** The selection of marks *)

(** C3: in a part whose rows are sorted by the key, ascending or descending in all its columns, [markRangesFromPKRange] ends with a
    result for any conditions on the key (with total functions of its columns, monotonic where they say so) and on the positions of
    rows, by either of its searches, where sizes do not overflow, and every row of the given marks on
    which all the conditions are true is in a mark of the result: index analysis drops no row of a query.  The given marks are any of an
    ascending part.  In a descending part they end at a mark of the index: all marks of data when there is a final mark, all but the
    last otherwise; there the last mark is lost ([descending_last_granule_lost]). *)
Theorem marks_keep_matching_rows {V : Type} `{ExplicitLaws V} `{!VirtualColumns V} `{!VirtualColumnsLaws V} {G : Type} `{GranularityLaws G}
    (part : Part V G) (rows : list (list (Field V))) (data : list Z) (final desc : bool) (types data_types : list DataType) (flags : list bool)
    (start : Z) (settings : Settings) (kc : KeyCondition.t V) (po to : option (KeyCondition.t V)) (part_ranges : list MarkRange.t) (want_exact : bool) :
  sorted_part part rows data final desc types flags ->
  valid_query part data final types data_types start settings kc po to -> ascending 0 part_ranges (searchable data final desc) ->
  exists res, markRangesFromPKRange part part_ranges start data_types flags kc po to want_exact settings = Ok res /\
    forall k pos row, in_ranges k part_ranges -> row_of data (Make k (k + 1)) pos -> rows !! Z.to_nat pos = Some row ->
      row_satisfies part types start kc po to pos row -> in_ranges k (ranges res).
Proof.
  intros Hpart [] Hasc. destruct (selection_spec part rows data final desc types flags Hpart data_types start settings kc po to)
    with (part_ranges := part_ranges) (want_exact := want_exact) as (res & Hres & Hsel); try done.
  exists res. split; [done|]. apply (selected_keeps _ _ _ _ _ _ _ _ _ _ _ Hsel).
Qed.

Lemma marks_keep_matching_rows_witness :
  exists res, markRangesFromPKRange Sample.part [Make 0 3] 0 [Sample.u64; Sample.u64] [] Sample.query None None true Sample.settings = Ok res /\
    forall k pos row, in_ranges k [Make 0 3] -> row_of Sample.marks (Make k (k + 1)) pos -> Sample.rows !! Z.to_nat pos = Some row ->
      row_satisfies Sample.part [Sample.u64; Sample.u64] 0 Sample.query None None pos row -> in_ranges k (ranges res).
Proof.
  apply (marks_keep_matching_rows Sample.part Sample.rows Sample.marks true false [Sample.u64; Sample.u64] [Sample.u64; Sample.u64] [] 0
    Sample.settings Sample.query None None [Make 0 3] true Sample.part_ok); [exact Sample.query_valid|unfold searchable; cbn; lia].
Defined.

(** C10: for the parts and marks of C3, when no gap between marks is cheaper to read than to seek over, the marks
    [markRangesFromPKRange] selects are among the given ones, and on no row of the ranges it reports as exact is a condition it used
    false.  With the last mark of a descending part without a final mark this fails ([descending_exact_range_wrong]). *)
Theorem exact_ranges_match {V : Type} `{ExplicitLaws V} `{!VirtualColumns V} `{!VirtualColumnsLaws V} {G : Type} `{GranularityLaws G}
    (part : Part V G) (rows : list (list (Field V))) (data : list Z) (final desc : bool) (types data_types : list DataType) (flags : list bool)
    (start : Z) (settings : Settings) (kc : KeyCondition.t V) (po to : option (KeyCondition.t V)) (part_ranges : list MarkRange.t) (want_exact : bool) :
  sorted_part part rows data final desc types flags ->
  valid_query part data final types data_types start settings kc po to -> ascending 0 part_ranges (searchable data final desc) ->
  merge_tree_min_rows_for_seek settings = 0 -> merge_tree_min_bytes_for_seek settings = 0 ->
  exists res, markRangesFromPKRange part part_ranges start data_types flags kc po to want_exact settings = Ok res /\
    (forall k, in_ranges k (ranges res) -> in_ranges k part_ranges) /\
    forall k pos row, in_ranges k (exact_ranges res) -> row_of data (Make k (k + 1)) pos -> rows !! Z.to_nat pos = Some row ->
      ~ row_fails part types start kc po to pos row.
Proof.
  intros Hpart [] Hasc Hr Hb. destruct (selection_spec part rows data final desc types flags Hpart data_types start settings kc po to)
    with (part_ranges := part_ranges) (want_exact := want_exact) as (res & Hres & Hsel); try done.
  exists res. split_and!; [done|by apply (selected_within _ _ _ _ _ _ _ _ _ _ _ Hsel)|by apply (selected_exact _ _ _ _ _ _ _ _ _ _ _ Hsel)].
Qed.

Lemma exact_ranges_match_witness :
  exists res, markRangesFromPKRange Sample.part [Make 0 3] 0 [Sample.u64; Sample.u64] [] Sample.query None None true Sample.settings = Ok res /\
    (forall k, in_ranges k (ranges res) -> in_ranges k [Make 0 3]) /\
    forall k pos row, in_ranges k (exact_ranges res) -> row_of Sample.marks (Make k (k + 1)) pos -> Sample.rows !! Z.to_nat pos = Some row ->
      ~ row_fails Sample.part [Sample.u64; Sample.u64] 0 Sample.query None None pos row.
Proof.
  apply (exact_ranges_match Sample.part Sample.rows Sample.marks true false [Sample.u64; Sample.u64] [Sample.u64; Sample.u64] [] 0
    Sample.settings Sample.query None None [Make 0 3] true Sample.part_ok); [exact Sample.query_valid|unfold searchable; cbn; lia|reflexivity|reflexivity].
Defined.

(** What is selected in the sample: the mark of the rows with [a] in 2..3, and the one before it, which ends at the key (2, 1). *)
Example sample_selection :
  markRangesFromPKRange Sample.part [Make 0 3] 0 [Sample.u64; Sample.u64] [] Sample.query None None true Sample.settings =
    Ok (MakeMarkRanges [Make 0 2] [] GenericExclusionSearch).
Proof. vm_compute. reflexivity. Qed.

(** ** Conditions on ranges of keys *)

(** C7: [KeyCondition::checkInRange] returns a mask for any two keys, and the mask is right about every row between them in the
    lexicographic order, NULLs included: it can be true if the condition is true on the row, and can be false if the condition is false. *)
Theorem key_range_check_sound {V : Type} `{ExplicitLaws V} (kc : KeyCondition.t V) (types : list DataType) (left_keys right_keys : list (FieldRef V))
    (initial : BoolMask) (n : nat) :
  condition_ok kc n -> n = length types -> length left_keys = n -> length right_keys = n ->
  exists m, KeyCondition.checkInRange kc n left_keys right_keys types initial = Ok m /\
    forall row tv, length row = n -> row_typed types row -> lex_le (map field left_keys) row -> lex_le row (map field right_keys) ->
      condition_truth kc row types tv -> mask_ok m tv.
Proof.
  intros Hkc Hn Hl Hr. destruct (key_range_total kc n types left_keys right_keys initial (ok_total _ _ Hkc)) as [m Hm]; [lia..|].
  exists m. split; [done|]. intros row tv Hlen Ht Hle Hge Htv. rewrite <- Hlen in Hm.
  eapply key_range_sound; [apply (ok_elements _ _ Hkc)|apply (ok_not_point _ _ Hkc)|exact Ht|exact Hle|exact Hge|exact Htv|exact Hm].
Qed.

Lemma key_range_check_sound_witness :
  exists m, KeyCondition.checkInRange Sample.query 2 [explicit (Sample.num 4); explicit (Sample.num 0)] [explicit (Sample.num 6); explicit (Sample.num 1)]
      [Sample.u64; Sample.u64] (Mask false false) = Ok m /\
    forall row tv, length row = 2%nat -> row_typed [Sample.u64; Sample.u64] row -> lex_le [Sample.num 4; Sample.num 0] row ->
      lex_le row [Sample.num 6; Sample.num 1] -> condition_truth Sample.query row [Sample.u64; Sample.u64] tv -> mask_ok m tv.
Proof.
  apply (key_range_check_sound Sample.query [Sample.u64; Sample.u64] [explicit (Sample.num 4); explicit (Sample.num 0)]
    [explicit (Sample.num 6); explicit (Sample.num 1)] (Mask false false) 2 Sample.query_ok); reflexivity.
Defined.

(** C17: a set index built from the columns of a set, any of whose elements may be mapped to key columns, several to the same one, answers
    about every hyperrectangle, after binary searches among its sorted tuples, without a false negative: when the whole tuple of a row of
    the hyperrectangle is in the set, [IN] can be true.  When the mapping is one to one, no key column and no element repeated, the
    answer that [IN] cannot be false is given only when the whole tuple is in the set, so [NOT IN] loses no row either; when an element
    is left unmapped, that answer is never given.  (With a repeated column it can be given wrongly, [repeated_column_not_exact]:
    the atom is marked as relaxed for it.)  Functions of the key columns are total and monotonic where they say so, and a NULL does not
    go through them. *)
Theorem set_index_check_sound {V : Type} `{ExplicitLaws V} (set_elements : list (list (Field V)))
    (mapping : list (MergeTreeSetIndex.KeyTuplePositionMapping V)) (n : nat) :
  mapping <> [] -> heights n set_elements -> Forall (fun m => (MergeTreeSetIndex.tuple_index m < length set_elements)%nat) mapping ->
  Forall (fun m => Forall LawfulFunction (MergeTreeSetIndex.functions m)) mapping ->
  Forall (fun m => Forall total_function (MergeTreeSetIndex.functions m)) mapping ->
  Forall (Forall (fun a => isNegativeInfinity a = false)) set_elements ->
  exists s, MergeTreeSetIndex.make set_elements mapping = Ok s /\
    forall h types, (length h <= length types)%nat ->
    exists m, MergeTreeSetIndex.checkInRange s h types false = Ok m /\
      (length set_elements <> length mapping -> can_be_false m = true) /\
      forall row ws, row_in h row -> plain_nulls row mapping -> length ws = length set_elements -> row_tuple row types mapping ws ->
        (tuple_in_set set_elements n ws -> can_be_true m = true) /\
        (NoDup (MergeTreeSetIndex.key_index <$> mapping) -> NoDup (MergeTreeSetIndex.tuple_index <$> mapping) ->
         can_be_false m = true \/ tuple_in_set set_elements n ws).
Proof.
  intros Hne Hh Hidx Hl Htot Hfin. destruct (make_spec set_elements mapping n Hne Hh Hidx Hl Hfin) as (s & Hs & Hok & Hmap & Hall & Hin).
  assert (Hsub : forall P, Forall P mapping -> Forall P (MergeTreeSetIndex.indexes_mapping s)).
  { intros P HP. rewrite Hmap, Forall_forall. intros x Hx. rewrite Forall_forall in HP. by apply HP, used_mapping_sub. }
  exists s. split; [done|]. intros h types Hlen. destruct (set_check_total s h types false Hok Hlen (Hsub _ Htot)) as [m Hm].
  exists m. split; [done|]. split.
  { intros Hd. eapply unmapped_can_be_false; [exact Hm|]. rewrite Hall. by apply bool_decide_eq_false. }
  intros row ws Hrow Hn Hlw Hws. destruct (row_tuple_values row types ws _ (Hsub _ Hws)) as (ys & Hys & Hyw).
  destruct (set_check_sound s h row types false ys m Hok Hrow ltac:(done) (Hsub _ Hn) Hys Hm) as [H1 H2]. rewrite Hin in H1, H2. rewrite Hmap in Hyw.
  split; [intros Ht; by eapply H1, tuple_in_elements|]. intros Hk Ht. destruct H2 as [?|[Ha He]]; [by left|right].
  rewrite Hall in Ha. apply bool_decide_eq_true in Ha. by eapply elements_tuple_in.
Qed.

Lemma set_index_check_sound_witness :
  exists s, MergeTreeSetIndex.make [[Sample.num 7; Sample.num 3]; [Sample.num 1; Sample.num 2]]
      [MergeTreeSetIndex.MakeMapping 1 1 []; MergeTreeSetIndex.MakeMapping 0 0 [Sample.half]] = Ok s /\
    exists m, MergeTreeSetIndex.checkInRange s [mkRange (explicit (Sample.num 6)) true (explicit (Sample.num 7)) true;
        mkRange (explicit (Sample.num 2)) true (explicit (Sample.num 2)) true] [Sample.u64; Sample.u64] false = Ok m /\
      (tuple_in_set [[Sample.num 7; Sample.num 3]; [Sample.num 1; Sample.num 2]] 2 [Sample.num 3; Sample.num 2] -> can_be_true m = true) /\
      (can_be_false m = true \/ tuple_in_set [[Sample.num 7; Sample.num 3]; [Sample.num 1; Sample.num 2]] 2 [Sample.num 3; Sample.num 2]).
Proof.
  destruct (set_index_check_sound [[Sample.num 7; Sample.num 3]; [Sample.num 1; Sample.num 2]]
    [MergeTreeSetIndex.MakeMapping 1 1 []; MergeTreeSetIndex.MakeMapping 0 0 [Sample.half]] 2) as (s & Hs & Hall); [done|repeat constructor..| | |repeat constructor|].
  - constructor; [constructor|]. constructor; [|constructor]. constructor; [exact Sample.half_lawful|constructor].
  - constructor; [constructor|]. constructor; [|constructor]. constructor; [exact Sample.half_total|constructor].
  - exists s. split; [done|]. destruct (Hall [mkRange (explicit (Sample.num 6)) true (explicit (Sample.num 7)) true;
        mkRange (explicit (Sample.num 2)) true (explicit (Sample.num 2)) true] [Sample.u64; Sample.u64]) as (m & Hm & _ & H); [cbn; lia|].
    exists m. split; [done|]. destruct (H [Sample.num 6; Sample.num 2] [Sample.num 3; Sample.num 2]) as [H1 H2].
    + repeat constructor.
    + repeat constructor; intros a [= <-]; done.
    + done.
    + repeat constructor; eexists _, _, _; repeat split.
    + split; [done|]. apply H2; by apply (bool_decide_unpack _).
Defined.

(** ** Ranges *)



(** Each comparison of [atom_map] is the set of values it is true of; no comparison holds for NULL. *)
Definition comparisons {V} `{Explicit V} : list (string * (V -> V -> bool)) :=
  [("equals", fun w v => v_equals w v); ("notEquals", fun w v => negb (v_equals w v)); ("less", fun w v => v_less w v);
   ("greater", fun w v => v_less v w); ("lessOrEquals", fun w v => negb (v_less v w)); ("greaterOrEquals", fun w v => negb (v_less w v))].

Definition atom_says {V} `{Explicit V} (e : KeyCondition.RPNElement V) (a : Field V) : bool :=
  match KeyCondition.function e with
  | KeyCondition.FUNCTION_IN_RANGE => member (KeyCondition.range e) a
  | KeyCondition.FUNCTION_NOT_IN_RANGE => negb (member (KeyCondition.range e) a)
  | _ => false
  end.

Theorem comparison_atoms_exact {V : Type} `{ExplicitLaws V} :
  Forall (fun '(name, op) => exists f, KeyCondition.atom_map name = Some f /\
    forall out v w, atom_says (f out (Value v)) (Value w) = op w v /\ member (KeyCondition.range (f out (Value v))) PositiveInfinity = false) comparisons.
Proof.
  pose proof (accurateEquals_spec (V := V)) as Heq. unfold comparisons.
  repeat (apply Forall_cons; split); [..|constructor]; (eexists; split; [reflexivity|]); intros out v w;
    unfold atom_says, KeyCondition.with_range; cbn [KeyCondition.function KeyCondition.range];
    rewrite ?member_point, ?member_left_bounded, ?member_right_bounded; unfold member, rightThan_field, leftThan_field, less, equals; cbn;
    rewrite ?v_equals_spec; (split; [|done || lia || idtac]); try lia.
  all: try (pose proof (v_less_asym v w); pose proof (v_less_asym w v); destruct (v_less v w), (v_less w v); cbn; intuition congruence).
Qed.

(** ** Where the code differs from what it means to do *)
Section findings.
Definition str (c : Z) : FieldRef Scalar := explicit (Value (String [c])).

(** [Range::contains] answers no for a point of the range. *)
Example contains_is_inverted :
  contains (mkRange (explicit (Sample.num 1)) true (explicit (Sample.num 3)) true) (explicit (Sample.num 2)) = false /\
  member (mkRange (explicit (Sample.num 1)) true (explicit (Sample.num 3)) true) (Sample.num 2) = true.
Proof. split; reflexivity. Qed.

(** [intersectWith] keeps the closed of two equal ends, so a point of one range only is in the intersection. *)
Example intersectWith_keeps_closed_end :
  exists x, intersectWith (mkRange (str 1) false (str 3) true) (mkRange (str 1) true (str 3) true) = Some x /\
    member x (field (str 1)) = true /\ member (mkRange (str 1) false (str 3) true) (field (str 1)) = false.
Proof. eexists. split; [reflexivity|]. split; reflexivity. Qed.

(** [unionWith] keeps the open of two equal ends, so a point is lost. *)
Example unionWith_loses_end :
  exists x, unionWith (mkRange (str 1) false (str 3) true) (mkRange (str 1) true (str 3) true) = Some x /\
    member x (field (str 1)) = false /\ member (mkRange (str 1) true (str 3) true) (field (str 1)) = true.
Proof. eexists. split; [reflexivity|]. split; reflexivity. Qed.

(** [nearByWith] does not see that a range without its right end touches one with its left end. *)
Example nearByWith_misses_neighbours :
  nearByWith (mkRange (str 3) true (str 5) true) (mkRange (str 1) true (str 3) false) = false /\
  nearByWith (mkRange (str 1) true (str 3) false) (mkRange (str 3) true (str 5) true) = true.
Proof. split; reflexivity. Qed.

Definition condition (n : nat) (elements : list (KeyCondition.RPNElement Scalar)) : KeyCondition.t Scalar := KeyCondition.Make elements n false false.
Definition column (l : list Z) : list (option Scalar) := map (fun n => Some (UInt64 n)) l.

(** [tuple(i, i) NOT IN (tuple(1, 2))] on the point [i = 1]: the index has only the first of the two elements, and answers that [IN] is true. *)
Example repeated_column_not_exact :
  (s ← MergeTreeSetIndex.make [[Sample.num 1]; [Sample.num 2]] [MergeTreeSetIndex.MakeMapping 0 0 []; MergeTreeSetIndex.MakeMapping 1 0 []];
   MergeTreeSetIndex.checkInRange s [mkRange (explicit (Sample.num 1)) true (explicit (Sample.num 1)) true] [Sample.u64] false) = Ok (Mask true false).
Proof. vm_compute. reflexivity. Qed.

(** With a descending key and no final mark, the last granule is compared with plus infinity as its lower end: the row 2 of the rows
    5, 4, 3, 2 in marks of two is not found. *)
Example descending_last_granule_lost :
  markRangesFromPKRange (MakePart [97] [2; 4] 8192 0 [column [5; 3]]) [Make 0 2] 0 [Sample.u64] [true]
    (condition 1 [Sample.compared "equals" 0 [] 2]) None None true Sample.settings = Ok (MakeMarkRanges [] [] BinarySearch).
Proof. vm_compute. reflexivity. Qed.

(** The same part and marks for [x != 2]: both marks are reported as exact, though the row 2 is in the second. *)
Example descending_exact_range_wrong :
  markRangesFromPKRange (MakePart [97] [2; 4] 8192 0 [column [5; 3]]) [Make 0 2] 0 [Sample.u64] [true]
    (condition 1 [Sample.compared "notEquals" 0 [] 2]) None None true Sample.settings = Ok (MakeMarkRanges [Make 0 2] [Make 0 2] GenericExclusionSearch).
Proof. vm_compute. reflexivity. Qed.

(** With the key [(a, b DESC)], the row (1, 2) of (1, 9), (1, 2), (2, 7), (2, 1) in marks of two is not found, only the second mark is read: the ends of each column are swapped
    on their own, which is not the order of the rows. *)
Example mixed_order_rows_lost :
  markRangesFromPKRange (MakePart [97] [2; 4; 4] 8192 0 [column [1; 2; 2]; column [9; 7; 1]]) [Make 0 2] 0 [Sample.u64; Sample.u64] [false; true]
    (condition 2 [Sample.compared "equals" 0 [] 1; Sample.compared "equals" 1 [] 2; Sample.operator KeyCondition.FUNCTION_AND]) None None true Sample.settings
    = Ok (MakeMarkRanges [Make 1 2] [] BinarySearch).
Proof. vm_compute. reflexivity. Qed.

(** With seeks of three marks, the exact ranges for [a != 2] over the rows 1, 1, 2, 3, 3, one to a mark, include the mark of the row 2. *)
Example exact_ranges_span_gaps :
  markRangesFromPKRange (MakePart [97] [1; 2; 3; 4; 5; 5] 8192 0 [column [1; 1; 2; 3; 3; 3]]) [Make 0 5] 0 [Sample.u64] []
    (condition 1 [Sample.compared "notEquals" 0 [] 2]) None None true (MakeSettings 8 24576 0)
    = Ok (MakeMarkRanges [Make 0 5] [Make 0 5] GenericExclusionSearch).
Proof. vm_compute. reflexivity. Qed.

(** On keys from 6 to NULL, [x != 5] is reported as never false, though it is not true for NULL. *)
Example not_equals_of_null_counts_as_exact :
  KeyCondition.checkInRange (condition 1 [Sample.compared "notEquals" 0 [] 5]) 1 [explicit (Sample.num 6)] [explicit PositiveInfinity]
    [MakeType TUInt64 true false] (Mask false false) = Ok (Mask true false) /\
  condition_truth (condition 1 [Sample.compared "notEquals" 0 [] 5]) [PositiveInfinity] [MakeType TUInt64 true false] None.
Proof.
  split; [vm_compute; reflexivity|]. exists [None]. split; [|done]. exists None. split; [done|]. exists PositiveInfinity. by split.
Qed.
End findings.
