(* ===== verification/LexerTheorems.v ===== *)
(** * Properties of the lexer

    The tokens of a query cover it; the lazy stream of tokens is a list of them;
    unmatched parentheses; string literals. *)

From stdpp Require Import prelude.
From Stdlib Require Import ZArith Lia.
From S2P Require Import Prelude Buffers FindSymbols TextReaders TextReadersFacts TextWriters TextRoundtrips Lexer LexerFacts LexerLiterals.

(** C19: on any bytes the calls of [nextToken] reach the end, and the tokens up to the first error follow each other without gaps and
    overlaps from the beginning of the query, none of them empty or longer than [max_query_size] allows: without an error their texts
    are the query. *)
Theorem query_is_tiled (q : bytes) (n : Z) :
  exists tokens valid stop, tokens_from (new_lexer q n) = Ok tokens /\ valid_part tokens = (valid, Some stop) /\
    tiles 0 valid (token_begin stop) /\ concat (text q <$> valid) = take (token_begin stop) q /\
    Forall (fun t => n = 0 \/ Z.of_nat (token_end t) <= n) valid /\ (isEnd stop = true -> concat (text q <$> valid) = q).
Proof.
  assert (Hin : inside (new_lexer q n)) by (unfold inside; cbn; lia). destruct (tokens_tile _ Hin) as (tokens & valid & stop & E & Ev & Ht & Hm & _ & Hend).
  exists tokens, valid, stop. pose proof (tiles_text q _ _ _ Ht) as Hx. cbn in Ht, Hm, Hend, Hx. rewrite Nat.sub_0_r, drop_0 in Hx. split_and!; try done.
  - eapply Forall_impl; [done|]. intros t. unfold max_query_size_limit. cbn beta. destruct (Z.leb_spec n 1000000000); lia.
  - intros He. rewrite Hx, (Hend He). by rewrite firstn_all.
Qed.

(** C23: whatever a parser asks of the lazy stream of tokens, in whatever order, going back and looking ahead, it gets the tokens of the
    list of all of them, whose last one is repeated; [max] is the rightmost token asked for. *)
Theorem token_stream_is_list (q : bytes) (n : Z) (skip : bool) (ops : list operation) :
  exists tokens s, tokens_from (new_lexer q n) = Ok tokens /\
    run_stream ops (Tokens.new q n skip) = Ok ((run_list ops (fun i => default (eof_token (new_lexer q n)) (kept skip tokens !! i)) 0).1, s).
Proof.
  destruct (new_streams q n skip) as (tokens & init & E & Ek & Hi & _ & H). destruct (run_stream_streams _ _ _ ops _ _ Hi H) as (s & Es & _).
  exists tokens, s. split; [done|]. rewrite Es. do 3 f_equal. apply run_list_ext. intros i. rewrite Ek. symmetry. apply stream_with_eof.
Qed.

(** C28: [checkUnmatchedParentheses], from any token and after any use of the stream, ends, and finds nothing exactly when the brackets of
    the tokens up to the first error are balanced, each closed by one of its kind. *)
Theorem parentheses_check_exact (q : bytes) (n : Z) (skip : bool) (ops : list operation) (begin : nat) :
  exists tokens out s unmatched s', tokens_from (new_lexer q n) = Ok tokens /\ run_stream ops (Tokens.new q n skip) = Ok (out, s) /\
    checkUnmatchedParentheses s begin = Ok (unmatched, s') /\
    (unmatched = [] <-> balanced (type <$> (valid_part (drop begin (kept skip tokens))).1)).
Proof.
  destruct (new_streams q n skip) as (tokens & init & E & Ek & Hi & Hlen & H). destruct (run_stream_streams _ _ _ ops _ _ Hi H) as (s & Es & Hs).
  destruct (parentheses_loop_exact _ _ _ (S (length q)) s _ begin [] Hi Hs) as (s' & Ep & _); [lia|].
  eexists tokens, _, s, _, s'. split; [done|]. split; [exact Es|]. unfold checkUnmatchedParentheses. destruct (streams_same _ _ _ _ _ Hs) as [-> _].
  split; [exact Ep|]. rewrite Ek, valid_part_with_eof. rewrite unmatched_closes by constructor. done.
Qed.

(** Any string the writers put in quotes is one token wherever it stands in a query, if no other quote follows. *)
Theorem written_string_is_one_token (quote : Z) (prev : TokenType) (before str rest : bytes) :
  quote ∈ [39; 34; 96] -> head rest <> Some quote ->
  let e := (length before + length (writeAnyQuotedString quote str))%nat in
  nextTokenImpl prev (before ++ writeAnyQuotedString quote str ++ rest) (length before) = Ok (MakeToken (quoted_token quote) (length before) e, e).
Proof.
  intros Hq Hr e. rewrite (nextTokenImpl_quoted quote) by (done || by rewrite lookup_app_r, Nat.sub_diag by lia).
  rewrite <- Nat.add_1_r, <- drop_drop, drop_app_length. unfold writeAnyQuotedString at 1 2. rewrite writeAnyEscapedString_chars, <- !app_assoc.
  cbn [app drop]. rewrite drop_0, written_literal by done. unfold e. rewrite length_written. do 3 f_equal; lia.
Qed.

Lemma written_string_is_one_token_witness :
  nextTokenImpl Whitespace ([97; 61] ++ writeAnyQuotedString 39 [120; 39; 92; 10] ++ [59]) 2 = Ok (MakeToken StringLiteral 2 11, 11%nat).
Proof. apply (written_string_is_one_token 39 Whitespace [97; 61] [120; 39; 92; 10] [59]); [by left|done]. Defined.

(** C27: the lexer and [readAnyQuotedStringInto] (throwing or not, with or without SQL style quoting) agree on where a literal in quotes
    ends, when the bytes of the token have no hexadecimal escape sequence and, without SQL style quoting, no doubled quote: for a closed
    literal the reader stops behind the token, and for one that is not closed it throws, or returns false when it is the one that does not
    throw.  (The two conditions are needed: [hexadecimal_escape_differs], [doubled_quote_differs].) *)
Theorem lexer_agrees_with_reader {S} `{!ReadBuffer.Impl S, !ReadBuffer.Source S} (quote : Z) (sql throw_exception : bool) (prev : TokenType)
    (q : bytes) (pos fuel : nat) (b : ReadBuffer.t S) :
  quote ∈ [39; 34; 96] -> q !! pos = Some quote -> ReadBuffer.holds b (drop pos q) -> (length q < fuel)%nat ->
  exists t p, nextTokenImpl prev q pos = Ok (t, p) /\ (pos < token_end t <= length q)%nat /\
    (plain_literal sql quote (drop (pos + 1) (take (token_end t) q)) = true ->
     if isError t then refused throw_exception (readAnyQuotedStringInto fuel quote sql throw_exception [] b)
     else exists str b', readAnyQuotedStringInto fuel quote sql throw_exception [] b = Ok (true, str, b') /\ ReadBuffer.holds b' (drop (token_end t) q)).
Proof.
  intros Hq Hpos Hb HN. assert (Hlt := lookup_lt_Some _ _ _ Hpos). assert (Hlen : (length (drop pos q) < fuel)%nat) by (rewrite length_drop; lia).
  pose proof (quoted_reader_literal fuel quote sql throw_exception (drop (Datatypes.S pos) q) []
    ltac:(rewrite !elem_of_cons, elem_of_nil in Hq; lia)) as Hr.
  rewrite <- (quoted_reader_opened fuel quote _ _ _ []), <- (drop_S _ _ _ Hpos) in Hr by (rewrite length_drop; lia).
  pose proof (related_quoted fuel quote sql throw_exception [] b _ Hb Hlen ltac:(done)) as Hrel. rewrite (nextTokenImpl_quoted quote prev q pos Hq Hpos).
  unfold literal_bytes in Hr. pose proof (literal_length_le quote (drop (Datatypes.S pos) q)) as Hle. rewrite length_drop in Hle.
  destruct (literal_length quote (drop (Datatypes.S pos) q)) as [k|]; [specialize (Hle k eq_refl)|clear Hle]; cbn beta iota zeta in Hr; eexists _, _; (split; [reflexivity|]);
    cbn [token_end]; (split; [lia|]); intros Hx; rewrite skipn_firstn_comm, Nat.add_1_r in Hx.
  - replace (Datatypes.S (pos + k) - Datatypes.S pos)%nat with k in Hx by lia. destruct (Hr Hx ltac:(rewrite length_drop; lia)) as [str Er].
    rewrite Er in Hrel. unfold isError, quoted_token. cbn [type]. replace (type_is_error _) with false by (by destruct (_ =? _)).
    destruct (readAnyQuotedStringInto fuel quote sql throw_exception [] b) as [[[a s'] b']| |]; [|done..]. destruct Hrel as (-> & -> & Hb' & _).
    exists str, b'. split; [done|]. by rewrite drop_drop in Hb'.
  - rewrite take_ge in Hx by (rewrite length_drop; lia). specialize (Hr Hx ltac:(rewrite length_drop; lia)). unfold refused in *.
    unfold isError, unclosed_token. cbn [type]. replace (type_is_error _) with true by (by repeat destruct (_ =? _)).
    destruct throw_exception; [destruct Hr as [e Er]|destruct Hr as (str & d & Er)]; rewrite Er in Hrel;
      destruct (readAnyQuotedStringInto fuel quote sql _ [] b) as [[[a s'] b']| |]; try done; [by eexists|]. destruct Hrel as (-> & -> & _). by eexists _, _.
Qed.

(** The token ['a''\n'] of [x'a''\n';'\x'], with the bytes of the query in two buffers. *)
Lemma lexer_agrees_with_reader_witness :
  exists t p, nextTokenImpl Whitespace [120; 39; 97; 39; 39; 92; 110; 39; 59; 39; 92; 120; 39] 1 = Ok (t, p) /\ isError t = false /\
    exists str b', readAnyQuotedStringInto 30 39 true true [] (ReadBuffer.of_chunks [[39; 97]; [39; 39; 92; 110; 39; 59; 39; 92; 120; 39]]) = Ok (true, str, b') /\
      ReadBuffer.holds b' (drop (token_end t) [120; 39; 97; 39; 39; 92; 110; 39; 59; 39; 92; 120; 39]).
Proof.
  destruct (lexer_agrees_with_reader 39 true true Whitespace [120; 39; 97; 39; 39; 92; 110; 39; 59; 39; 92; 120; 39] 1 30
    (ReadBuffer.of_chunks [[39; 97]; [39; 39; 92; 110; 39; 59; 39; 92; 120; 39]])) as (t & p & Et & _ & H);
    [by left|reflexivity|apply (ReadBuffer.holds_of_chunks [[39; 97]; [39; 39; 92; 110; 39; 59; 39; 92; 120; 39]])|cbn; lia|].
  exists t, p. split; [exact Et|]. vm_compute in Et. injection Et as <- <-. split; [reflexivity|]. exact (H eq_refl).
Defined.

(** ** Samples *)

(** [x.1.1, '(' /* a /* b */ */] with the blanks left out: after a dot a number has no fraction. *)
Example sample_tokens :
  (tokens ← tokens_from (new_lexer [120; 46; 49; 46; 49; 44; 32; 39; 40; 39; 32; 47; 42; 32; 97; 32; 47; 42; 32; 98; 32; 42; 47; 32; 42; 47] 0);
   Ok (type <$> kept true tokens)) = Ok [BareWord; Dot; Number; Dot; Number; Comma; StringLiteral; EndOfStream].
Proof. vm_compute. reflexivity. Qed.

(** [(a[1)]: the stack with the bracket that does not match at its end. *)
Example sample_parentheses :
  ('(stack, _) ← checkUnmatchedParentheses (Tokens.new [40; 97; 91; 49; 41] 0 true) 0; Ok (map type stack)) = Ok [OpeningRoundBracket; OpeningSquareBracket; ClosingRoundBracket].
Proof. vm_compute. reflexivity. Qed.

(** ** Where the lexer differs from what it is for *)

(** A string in quotes of Unicode that is not closed is a token up to the end of the query, but the lexer goes on inside of it when the
    byte 0xE2 is near the end: the next token lies in the first. *)
Example unclosed_unicode_string_overlaps :
  tokens_from (new_lexer [0xE2; 0x80; 0x98; 97; 97; 97; 0xE2] 0)
    = Ok [MakeToken ErrorSingleQuoteIsNotClosed 0 7; MakeToken Error 6 7; MakeToken EndOfStream 7 7].
Proof. vm_compute. reflexivity. Qed.

(** For the lexer ['\x4'] is a closed literal; the reader takes the closing quote for a digit and does not find the end. *)
Example hexadecimal_escape_differs :
  nextTokenImpl Whitespace [39; 92; 120; 52; 39] 0 = Ok (MakeToken StringLiteral 0 5, 5%nat) /\
  readAnyQuotedStringInto (B := bytes) 10 39 true true [] [39; 92; 120; 52; 39] = Throw CANNOT_PARSE_QUOTED_STRING.
Proof. split; vm_compute; reflexivity. Qed.

(** Without SQL style quoting the reader of ['a''b'] stops at the second quote; for the lexer it is one literal. *)
Example doubled_quote_differs :
  nextTokenImpl Whitespace [39; 97; 39; 39; 98; 39] 0 = Ok (MakeToken StringLiteral 0 6, 6%nat) /\
  readAnyQuotedStringInto (B := bytes) 10 39 false true [] [39; 97; 39; 39; 98; 39] = Ok (true, [97], [39; 98; 39]).
Proof. split; vm_compute; reflexivity. Qed.

(** When the query is longer than [max_query_size] allows, the end of the stream is an error too, and no token is the end. *)
Example no_end_of_long_query :
  (tokens ← tokens_from (new_lexer [97; 32; 98] 2); Ok (map type tokens)) = Ok [BareWord; Whitespace; ErrorMaxQuerySizeExceeded; ErrorMaxQuerySizeExceeded].
Proof. vm_compute. reflexivity. Qed.
