(* ===== verification/CacheTheorems.v ===== *)
(** * Properties of the cache policies

    Caches refine a map that may forget; LRU is a list in the order of use; a
    scan does not push the protected entries out of SLRU. *)

From stdpp Require Import prelude gmap.
From Stdlib Require Import ZArith Lia SpecFloat.
From S2P Require Import Prelude CachePolicy CacheFacts LRUFacts SLRUFacts.


(** Half of the entries are protected. *)
Definition half : spec_float := S754_finite false 4503599627370496 (-53).
Definition sample : list (operation Z Z) :=
  [Put false 1 (Some 10); Put false 2 None; Get 1; Put true 4 (Some 7); SetMaxSizeInBytes 2; Put false 3 (Some 5); Put false 3 (Some 6); SetMaxCount 1; Sizes].



(** C24: the policy LRU is a list of entries in the order of their last use: after any operations its answers, entries, sizes, metrics and
    the calls of the callback for removed entries are those of the list, from which the oldest entries are taken until the others fit. *)
Theorem lru_is_recency_list {Key V} `{Countable Key} (weight_function : V -> Z) (max_size max_count : Z) (ops : list (operation Key V)) :
  (forall v, moderate (weight_function v)) -> moderate max_size -> 0 <= max_count -> blen ops <= 2 ^ 62 -> Forall (accepted (fun _ => True)) ops ->
  let result := run_spec (recency_step weight_function) ops (MakeRecency [] max_size max_count []) in
  exists answers, run_cache (policy := LRUCachePolicy.lru_policy weight_function) ops (LRUCachePolicy.new max_size max_count)
      = Ok (answers, LRUFacts.state_of weight_function result.2) /\ Forall2 similar answers result.1.
Proof.
  intros Hw Hs Hc Hn Hops result. rewrite <- (new_recency weight_function).
  destruct (lru_run_recency weight_function Hw ops (MakeRecency [] max_size max_count []) (LRUFacts.new_valid _ _ _ Hs Hc) Hops ltac:(cbn; lia)) as (_ & _ & H'). done.
Qed.

Lemma lru_is_recency_list_witness :
  let result := run_spec (recency_step EqualWeightFunction) sample (MakeRecency [] 3 2 []) in
  exists answers, run_cache (policy := LRUCachePolicy.lru_policy EqualWeightFunction) sample (LRUCachePolicy.new 3 2)
      = Ok (answers, LRUFacts.state_of EqualWeightFunction result.2) /\ Forall2 similar answers result.1.
Proof.
  apply (lru_is_recency_list EqualWeightFunction 3 2 sample equal_weight_moderate); [unfold moderate; lia|lia|cbn; lia|unfold sample; repeat constructor; cbn; lia].
Defined.

(** C25: the protected entries of SLRU survive a scan: after any operations, looking for any number of keys that are not there and putting
    them leaves the protected queue and its entries as they were. *)
Theorem slru_scan_resistant {Key V} `{Countable Key} (weight_function : V -> Z) (max_size max_count : Z) (ratio : spec_float)
    (ops : list (operation Key V)) (l : list (Key * option V)) :
  (forall v, moderate (weight_function v)) -> moderate max_size -> 0 <= max_count -> protects ratio max_size = true ->
  Forall (accepted (fun n => protects ratio n = true)) ops -> blen ops + 2 * blen l <= 2 ^ 62 -> NoDup l.*1 ->
  let policy := SLRUCachePolicy.slru_policy weight_function in
  exists s0 answers s, SLRUCachePolicy.new max_size max_count ratio = Ok s0 /\ run_cache ops s0 = Ok (answers, s) /\
    ((forall k, k ∈ l.*1 -> contains k s = false) ->
     exists answers' s', run_cache (scan l) s = Ok (answers', s') /\
       SLRUCachePolicy.protected_queue s' = SLRUCachePolicy.protected_queue s /\
       forall k, k ∈ SLRUCachePolicy.protected_queue s -> SLRUCachePolicy.cells s' !! k = SLRUCachePolicy.cells s !! k).
Proof.
  intros Hw Hs Hc Hp Hops Hn Hl policy. unfold protects in Hp. destruct (calculateMaxProtectedSize max_size ratio) as [mp| |] eqn:E; [|done..].
  apply andb_true_iff in Hp as [Hp1%Z.leb_le Hp2%Z.leb_le].
  set (a0 := MakeSegments (Key := Key) (V := V) [] [] max_size mp max_count []). assert (Ha0 : SLRUFacts.valid weight_function a0) by by apply SLRUFacts.segments_new_valid.
  destruct (slru_run_segments weight_function Hw ratio ops a0 Ha0 Hops ltac:(cbn; lia)) as (Ha & Hlen & answers & E1 & _).
  set (a := (run_spec _ ops a0).2) in *. eexists _, answers, _. split; [by apply (new_segments weight_function)|]. split; [exact E1|].
  intros Hnew. pose proof (scan_length l) as Hsl. cbn [length a0 probationary protected] in Hlen.
  destruct (slru_run_segments weight_function Hw ratio (scan l) a Ha (scan_accepted _ l) ltac:(lia)) as (Hb & _ & answers' & E2 & _).
  assert (Hkeep : protected (run_spec (segments_step weight_function ratio) (scan l) a).2 = protected a).
  { apply scan_keeps_protected; try done. intros k Hk%Hnew. cbn in Hk. unfold SLRUCachePolicy.slru_contains in Hk.
    apply bool_decide_eq_false in Hk. rewrite <- eq_None_not_Some in Hk. by apply table_absent in Hk. }
  eexists answers', _. split; [exact E2|]. set (b := (run_spec _ (scan l) a).2) in *. split; [cbn; by rewrite Hkeep|]. intros k Hk. cbn in Hk.
  destruct Ha as (Hna & _), Hb as (Hnb & _). rewrite Hkeep in Hnb. apply keys_app in Hna as (_ & Hda & _), Hnb as (_ & Hdb & _).
  rewrite !cells_state_of, !table_protected, Hkeep; [done|..]; apply absent_from; intros Hk'; [by apply (Hda k)|by apply (Hdb k)].
Qed.

Lemma slru_scan_resistant_witness :
  let policy := SLRUCachePolicy.slru_policy EqualWeightFunction in
  let l := [(5, Some 1); (6, Some 1); (7, None); (8, Some 2)] in
  exists s0 answers s, SLRUCachePolicy.new 4 3 half = Ok s0 /\ run_cache [Put false 1 (Some 10); Get 1; Put false 2 (Some 20)] s0 = Ok (answers, s) /\
    ((forall k, k ∈ l.*1 -> contains k s = false) ->
     exists answers' s', run_cache (scan l) s = Ok (answers', s') /\
       SLRUCachePolicy.protected_queue s' = SLRUCachePolicy.protected_queue s /\
       forall k, k ∈ SLRUCachePolicy.protected_queue s -> SLRUCachePolicy.cells s' !! k = SLRUCachePolicy.cells s !! k).
Proof.
  apply (slru_scan_resistant EqualWeightFunction 4 3 half [Put false 1 (Some 10); Get 1; Put false 2 (Some 20)] [(5, Some 1); (6, Some 1); (7, None); (8, Some 2)] equal_weight_moderate).
  - unfold moderate. lia.
  - lia.
  - vm_compute. reflexivity.
  - repeat constructor.
  - cbn. lia.
  - vm_compute. apply NoDup_ListNoDup. repeat constructor; cbn; lia.
Defined.

(** ** Samples *)

(** The same operations: entry 1 is used again, then three new keys come by.  SLRU still has it, LRU does not. *)
Example slru_keeps_used_entry :
  let ops := [Put false 1 (Some 10); Get 1] ++ scan [(5, Some 1); (6, Some 1); (7, Some 1)] ++ [Get 1] in
  ('(answers, _) ← run_cache (policy := LRUCachePolicy.lru_policy EqualWeightFunction) ops (LRUCachePolicy.new 3 0); Ok (last answers)) = Ok (Some (Value None)) /\
  (s ← SLRUCachePolicy.new 3 0 half; '(answers, _) ← run_cache (policy := SLRUCachePolicy.slru_policy EqualWeightFunction) ops s; Ok (last answers))
    = Ok (Some (Value (Some 10))).
Proof. split; vm_compute; reflexivity. Qed.

(** ** Where the policies differ from what they are for *)

(** With a ratio of 1 the protected part of a large cache is larger than the cache, since the size is rounded to a [double]; for the
    largest sizes the conversion back is undefined. *)
Example protected_part_larger_than_cache :
  calculateMaxProtectedSize (2 ^ 63 - 1) one_double = Ok (2 ^ 63) /\ calculateMaxProtectedSize (2 ^ 64 - 1) one_double = Undef.
Proof. split; vm_compute; reflexivity. Qed.

(** A ratio of 0 protects nothing; the comment on the constructor promises a half. *)
Example no_default_protected_part : calculateMaxProtectedSize 100 zero_double = Ok 0 /\ calculateMaxProtectedSize 100 half = Ok 50.
Proof. split; vm_compute; reflexivity. Qed.

(** A key with a null value is contained, although [get] returns null for it. *)
Example null_value_contained :
  ('(answers, _) ← run_cache (policy := LRUCachePolicy.lru_policy EqualWeightFunction) [Put false 1 (None : option Z); Contains 1; Get 1] (LRUCachePolicy.new 3 0); Ok answers)
    = Ok [Flag true; Flag true; Value None].
Proof. vm_compute. reflexivity. Qed.
