(* ===== verification/CacheBaseTheorems.v ===== *)
(** * Properties of the cache shared by threads

    For any policy that keeps the promises of a cache, and any schedule of
    threads: one load for a key at a time, where values come from, and progress. *)

From stdpp Require Import prelude gmap.
From Stdlib Require Import ZArith Lia.
From S2P Require Import Prelude CachePolicy CacheFacts LRUFacts CacheBase CacheBaseFacts CacheBaseRuns.

Import CacheBase.

(** C21: only one of the threads that call [getOrSet] for a key at the same time calls [load_func], as long as nobody clears the cache and
    no value loaded is null; exceptions in [load_func] and in the policy are allowed. *)
Theorem shared_cache_loads_once {Key V P} `{Countable Key} {policy : CachePolicy Key V P} (weight_function : V -> Z) (size_accepted : Z -> Prop)
    {laws : CachePolicyLaws weight_function size_accepted P} (p : P) (schedule : list (nat * action Key V)) :
  invariant p -> entries (abstract p) = ∅ -> Forall (fun e => acceptable size_accepted e.2) schedule -> blen schedule <= 2 ^ 62 ->
  forallb (fun e => tame e.2) schedule = true ->
  exists s, run_threads schedule (new p) = Ok s /\
    forall tid1 tid2 k i1 i2 c1 c2, threads s !! tid1 = Some (Loading k i1 c1) -> threads s !! tid2 = Some (Loading k i2 c2) -> tid1 = tid2.
Proof.
  intros Hi He Ha Hn Ht. destruct (new_good weight_function size_accepted p) as [G S].
  { split; [done|]. rewrite He, map_size_empty. split; [done|]. by intros k v ?%lookup_empty_Some. }
  destruct (run_advances weight_function size_accepted _ _ _ schedule _ G Ha ltac:(lia)) as (s & keys & E & G' & S'). exists s. split; [done|].
  intros tid1 tid2 k i1 i2 c1 c2. apply (single_load keys s tid1 tid2 k i1 i2 c1 c2 (good_consistent _ _ _ _ _ _ G') (S' S Ht)).
Qed.

(** A small LRU cache, and threads that ask for key 7: the first loads and fails, the second loads the value, the third gets it. *)
Definition empty_cache : LRUCachePolicy.t Z Z := LRUCachePolicy.new 3 2.

Definition sample_schedule : list (nat * action Z Z) :=
  [(1%nat, CallGetOrSet 7); (2%nat, CallGetOrSet 7); (1%nat, LockToken); (3%nat, CallGetOrSet 7); (2%nat, LockToken);
   (1%nat, LoadThrows STD_EXCEPTION); (2%nat, LockToken); (1%nat, Destroy); (4%nat, Method (Put false 1 (Some 5))); (2%nat, LoadReturns (Some 70)); (2%nat, Insert false)].

Definition sample_laws : CachePolicyLaws (policy := LRUCachePolicy.lru_policy EqualWeightFunction) EqualWeightFunction (fun _ => True) (LRUCachePolicy.t Z Z) :=
  lru_laws EqualWeightFunction equal_weight_moderate.

Lemma empty_cache_invariant : invariant (CachePolicyLaws := sample_laws) empty_cache.
Proof. exists (MakeRecency [] 3 2 []). split; [apply new_valid; [unfold moderate|]; lia|]. symmetry. apply new_recency. Qed.

Lemma shared_cache_loads_once_witness :
  exists s, run_threads (cache_policy_class := LRUCachePolicy.lru_policy EqualWeightFunction) sample_schedule (new empty_cache) = Ok s /\
    forall tid1 tid2 k i1 i2 c1 c2, threads s !! tid1 = Some (Loading k i1 c1) -> threads s !! tid2 = Some (Loading k i2 c2) -> tid1 = tid2.
Proof.
  apply (shared_cache_loads_once (laws := sample_laws) EqualWeightFunction (fun _ => True) empty_cache sample_schedule);
    [apply empty_cache_invariant|vm_compute; reflexivity|unfold sample_schedule; repeat constructor|cbn; lia|vm_compute; reflexivity].
Defined.

(** C22: after any schedule of threads, clears included, every value that [getOrSet] has returned was loaded or set for its key; and the
    calls in progress can all be finished without a deadlock, in at most four steps each, whatever [load_func] does, after which no insert
    token is left. *)
Theorem shared_cache_progress {Key V P} `{Countable Key} {policy : CachePolicy Key V P} (weight_function : V -> Z) (size_accepted : Z -> Prop)
    {laws : CachePolicyLaws weight_function size_accepted P} (p : P) (schedule : list (nat * action Key V)) (load_func : Key -> option V + ErrorCode) :
  invariant p -> entries (abstract p) = ∅ -> Forall (fun e => acceptable size_accepted e.2) schedule -> 5 * blen schedule < 2 ^ 62 ->
  exists s, run_threads schedule (new p) = Ok s /\
    (forall tid k v produced, threads s !! tid = Some (Done k (Ok (Some v, produced))) -> (k, v) ∈ made_in schedule (new p)) /\
    exists rest s', Forall (fun e => continues load_func e.2) rest /\ (length rest <= 4 * size (threads s))%nat /\ run_threads rest s = Ok s' /\
      (forall tid th, threads s' !! tid = Some th -> exists k r, th = Done k r) /\ insert_tokens s' = ∅.
Proof.
  intros Hi He Ha Hn. destruct (new_good weight_function size_accepted p) as [G _].
  { split; [done|]. rewrite He, map_size_empty. split; [done|]. by intros k v ?%lookup_empty_Some. }
  destruct (run_advances weight_function size_accepted _ _ _ schedule _ G Ha ltac:(lia)) as (s & keys & E & G' & _). exists s. split; [done|].
  split; [intros tid k v b Et; by apply (known_results _ _ _ (good_known _ _ _ _ _ _ G') tid _ k v Et)|].
  pose proof (work_le (threads s)) as Hw. pose proof (good_threads _ _ _ _ _ _ G') as Hs.
  destruct (drains weight_function size_accepted load_func _ _ _ s G' ltac:(lia)) as (rest & s' & Hc & Hl & Hr & Hd). exists rest, s'.
  split; [done|]. split; [lia|done].
Qed.

Lemma shared_cache_progress_witness :
  exists s, run_threads (cache_policy_class := LRUCachePolicy.lru_policy EqualWeightFunction) sample_schedule (new empty_cache) = Ok s /\
    (forall tid k v produced, threads s !! tid = Some (Done k (Ok (Some v, produced))) ->
       (k, v) ∈ made_in (cache_policy_class := LRUCachePolicy.lru_policy EqualWeightFunction) sample_schedule (new empty_cache)) /\
    exists rest s', Forall (fun e => continues (fun k => inl (Some (10 * k))) e.2) rest /\ (length rest <= 4 * size (threads s))%nat /\
      run_threads (cache_policy_class := LRUCachePolicy.lru_policy EqualWeightFunction) rest s = Ok s' /\
      (forall tid th, threads s' !! tid = Some th -> exists k r, th = Done k r) /\ insert_tokens s' = ∅.
Proof.
  apply (shared_cache_progress (laws := sample_laws) EqualWeightFunction (fun _ => True) empty_cache sample_schedule (fun k => inl (Some (10 * k))));
    [apply empty_cache_invariant|vm_compute; reflexivity|unfold sample_schedule; repeat constructor|cbn; lia].
Defined.

(** ** Samples *)

(** What the first three threads end with. *)
Definition outcomes (schedule : list (nat * action Z Z)) : outcome (list (option (Thread Z Z))) :=
  s ← run_threads (cache_policy_class := LRUCachePolicy.lru_policy EqualWeightFunction) schedule (new empty_cache); Ok (map (fun tid => threads s !! tid) [1; 2; 3]%nat).

(** After the failure of the first thread the second one loads, and the third one gets what it has loaded. *)
Example failed_load_is_taken_over :
  outcomes (sample_schedule ++ [(3%nat, LockToken); (3%nat, Destroy); (2%nat, Destroy); (1%nat, Destroy)])
    = Ok [Some (Done 7 (Throw STD_EXCEPTION)); Some (Done 7 (Ok (Some 70, true))); Some (Done 7 (Ok (Some 70, false)))].
Proof. vm_compute. reflexivity. Qed.

(** ** Where the cache differs from what it is for *)

(** A thread whose token was forgotten by [clear] erases the token of another thread when it cleans up: a third thread then loads the same
    key at the same time, and the value of the second one is not put into the cache. *)
Example cleanup_erases_other_token :
  let race := [(1%nat, CallGetOrSet 7); (1%nat, LockToken); (4%nat, Method Clear); (2%nat, CallGetOrSet 7); (2%nat, LockToken);
    (1%nat, LoadReturns (Some 70)); (1%nat, Insert false); (1%nat, Destroy); (3%nat, CallGetOrSet 7); (3%nat, LockToken)] in
  outcomes race = Ok [Some (Done 7 (Ok (Some 70, false))); Some (Loading 7 1 false); Some (Loading 7 2 false)] /\
  outcomes (race ++ [(2%nat, LoadReturns (Some 71)); (2%nat, Insert false); (2%nat, Destroy)])
    = Ok [Some (Done 7 (Ok (Some 70, false))); Some (Done 7 (Ok (Some 71, false))); Some (Loading 7 2 false)].
Proof. split; vm_compute; reflexivity. Qed.

(** A null value is not shared: the thread that waited for it loads again, at the same time as one that comes later. *)
Example null_value_loaded_twice :
  outcomes [(1%nat, CallGetOrSet 7); (2%nat, CallGetOrSet 7); (1%nat, LockToken); (1%nat, LoadReturns None); (1%nat, Insert false); (1%nat, Destroy);
     (2%nat, LockToken); (3%nat, CallGetOrSet 7); (3%nat, LockToken)]
    = Ok [Some (Done 7 (Ok (None, true))); Some (Loading 7 0 true); Some (Loading 7 1 false)].
Proof. vm_compute. reflexivity. Qed.
